(* ===== verification/_CoqProject ===== *)
-Q . S2P
Prelude.v
Int128.v
Wide128.v
RationalTime.v
Sha256.v
Identity.v
KeyedStore.v
Geometry.v
CacheKeys.v
SlotStore.v
RefStore.v
Hamt.v
Records.v
Transaction.v
DocRoot.v
Membership.v
Document.v
Recovery.v
Journal.v
WorkspaceFile.v
Checkpoint.v
Disk.v
Crash.v
OperatorGraph.v
PixelTraits.v
TileBlob.v
Completion.v
Refinement.v
Uri.v
AssetStore.v
Json.v
SceneFormat.v
ContentCodec.v
DocumentWriter.v
DocumentReader.v
DocumentSave.v
DocumentLoad.v
DocumentRoundtrip.v
DocumentInstall.v
AssetGc.v
WorkerPool.v
