(* ===== verification/Prelude.v ===== *)
(** * A verification of the core of arbitrarycomposer

    The repository is a C++ document engine: scenes of layers, contents and
    compositions kept as versions of one document, edited in transactions with undo,
    rendered through caches and played against an exact rational clock.  This library
    models the layers the rest stands on -- arithmetic and time ([src/src/base]), memory
    ([src/src/pool]), the cache ([src/src/cache]) and the document ([src/src/model]) -- and
    above them the operator graph and the refinement queue ([src/src/compositor]), the
    document format, the stored tile, the asset directory and the worker pool
    ([src/src/serialize], [src/src/runtime]), as executable definitions that follow the source function by
    function, and proves what each layer promises the next.

    ** The files

    - [Prelude]: [expected] and its monad, state passing with early return ([ST]),
      machine words, shared lemmas and tactics.
    - [Int128], [Wide128]: [base/detail/int128_msvc.hpp], the portable 128-bit integers,
      and the class through which the rate arithmetic is generic in them or the
      compiler's own.
    - [RationalTime]: [base/rational_time], [base/time]: reduced rationals, time maps,
      their composition, the one rounding.
    - [Sha256]: [base/sha256.cpp]; [Identity]: [base/ids.hpp], [base/hash_mix.hpp].
    - [Geometry]: [base/geometry.hpp], [model/damage.hpp].
    - [KeyedStore]: [cache/keyed_store], the budgeted store with pins and LRU eviction;
      [CacheKeys]: [cache/key_shapes.hpp], [invalidation.hpp], [prefetch.hpp].
    - [SlotStore]: [pool/slot_store], [pool/slab_directory.hpp]: fixed slots, pools,
      growth, restore.
    - [RefStore]: [pool/refs.hpp], [reclamation.hpp], [typed_store.hpp]: counted
      references and the deferred drain; the class [RefHeap] states what they promise,
      and an instance proves it.
    - [Hamt]: [model/hamt.hpp] and the trie of [model/model.cpp], over any [RefHeap].
    - [Records]: [model/records.hpp] and the media descriptors in it.
    - [Transaction]: the mutators of [Model::Transaction], over any [ObjectStore];
      [DocRoot]: the reads of a version; [Membership]: the chunk chains both keep lists in.
    - [Document]: [Model]: the object store bound to trie and heap, versions, commit,
      abort, load, navigation.
    - [Recovery]: [Model::open] and [rebuild_counts] on what a checkpoint left in the slots.
    - [Journal]: [model/journal.cpp] and [coalesce_entries]: history, undo, redo, budget.
    - [WorkspaceFile]: [pool/workspace_file]: the file behind the slots, its header, chunk
      directory and store table; [Checkpoint]: [pool/checkpoint.hpp], the ordered commit,
      its fences, root selection and open; [Disk], [Crash]: the protocol against a disk
      that writes pages back in any order.
    - [OperatorGraph]: [compositor/operator_graph] and the descent of
      [pull_service.cpp]: revisions, damage and identities over graphs of contents.
    - [PixelTraits]: [media/pixel_format.hpp] and the half-float codec of
      [pixel_traits.hpp]; [TileBlob]: [serialize/tile_blob], [blob_compress].
    - [Completion]: [contract/render_completion.cpp], the one-shot answer of a render;
      [Refinement]: [compositor/refinement.cpp], the renders still out between frames.
    - [Uri]: [serialize/load_context.cpp] and what the store uses of
      [std::filesystem::path]; [AssetStore]: [runtime/filesystem_asset_sink] and its source,
      on a file system whose calls may fail; [AssetGc]: [runtime/asset_gc],
      [serialize/asset_reaper], the collection of what no document names.
    - The document format, [src/src/serialize].  [Json]: values, and the fields of
      [unknown_fields] that a load sets aside; [SceneFormat]: what [writer.cpp] and
      [reader.cpp] make of a layer and a composition; [ContentCodec]: [codec],
      [placeholder_content], the routing of bodies by kind; [DocumentWriter]: the walk,
      the contents table, the envelope; [DocumentReader]: the resolvers, the rebuilt
      graph, and the sink of [runtime/document_serialize.cpp].  The theorems are in
      [DocumentSave] and [DocumentLoad] (both end) and [DocumentRoundtrip];
      [DocumentInstall]: [install_graph], which writes what was read into a transaction.
    - [WorkerPool]: [runtime/worker_pool.cpp], one definition per critical section, and the
      threads that interleave them.

    ** How the layers meet

    A class states what one layer asks of the next, so a client is proved against the
    interface and the implementation discharges it: [Wide128] between the arithmetic and
    the rates, [RefHeap] (cells, counts, release, drain) between heap and trie,
    [ObjectStore] with [ObjectLaws] (a map of records whose writes may be refused)
    between trie and transactions.  [Document.doc_store] and [doc_laws] close the chain:
    the mutators, verified over any map, run on the trie over the counted heap.  The
    witnesses at the ends of [Hamt], [Document] and [Journal] evaluate that whole stack,
    slots and counts included, on concrete edits.

    ** What the theorems show

    - The document as its user meets it: the journal refines a timeline of versions
      ([journal_refines_timeline]), undo and redo cancel, a commit is atomic and an
      abandoned one leaves no trace, navigation moves between the versions an entry lies
      between, merging entries composes them, a budget trims the oldest past alone.
    - Durability: a crash anywhere in a commit leaves a file that resumes the old root or
      the new one with its marks and its data ([commit_crash_safe]); every session keeps
      its file resumable ([session_resumes]) and a reopened one carries on
      ([open_resumes], [reopened_settled], [reopen_routes_chunks]); and reopening what a
      checkpoint left gives back the document, with exact counts and every unreachable
      slot free ([reopen_restores_document]).
    - The object map: lookup, insertion and erasure are those of a finite map, every
      pinned version stays as it was under any interleaving of edits, failures and
      drains, and a failure gives back every count.
    - The scene: mutators refine edits of a plain map, stamp exactly what they touch, and
      keep layer orders and content lists, which read back what was written.
    - Memory: slots are partitioned, an allocation is fresh, counts equal the references
      held, and a drain ends with exactly the reachable left.
    - The cache: its invariants hold in every reachable state, a held value does not move,
      an insertion stays within budget, evicting least recently used first; invalidation
      and prefetch touch exactly the keys they should.
    - The operator graph: the revision of an operator folds what it reaches exactly once
      and moves with any of it, damage covers every operator that shows it, a pull always
      settles, on graphs with shared inputs and cycles.
    - Rendering between frames: a completion settles once and is taken once, no tile has
      two live renders, a poll drains exactly what has settled ([poll_drains]), a deadline
      sweep cancels nothing wanted, and a refinement wave ends ([wave_ends]).
    - The worker pool: under any interleaving of its threads, a content that must not render
      twice at once never does ([one_render_at_once]); a drain returns exactly when nothing of
      its owner is left ([drain_waits_all]), takes no other owner's task
      ([purge_keeps_others]), and the threads come to rest with nothing outstanding
      ([drains_return]).
    - Tiles: a saved tile loads as it was, up to one rounding to halves that is IEEE's; what
      a hostile file holds is an error value; a validated geometry bounds its allocations.
    - The document format: the file a save writes loads back as the document it was, node
      for node, references, sharing and preserved members included
      ([document_roundtrip]); a save ends on every graph of contents, cycles included
      ([save_ends]), and a load on every file ([load_ends]); what a load resolved is what the
      readers of the installed version see ([graph_installed]).  Lemmas show where the promise
      stops: [shared_root_loses_record], [stash_overrides_placement],
      [null_input_not_read], [fractional_extent_truncated].
    - The asset directory: saving a blob is atomic under failing calls and crashes
      ([put_atomic]); collecting a project deletes nothing its documents name
      ([gc_spares_documents]), and where it does ([partial_marks_delete],
      [trailing_source_unrooted]).
    - Arithmetic: composition of time maps is exact up to one rounding to even; both
      128-bit implementations agree; the digest is FIPS 180-4's.
    - Where the code does not do what it means to, a theorem shows the case
      ([allocate_wraps], [reserve_restored_overruns], [mul_overflow_misses_wide],
      [budget_drops_redoable_entries], [generation_reuse_mispairs],
      [torn_directory_refused], [memo_under_reports], [broken_identity_spins]).

    ** Conventions

    Integers are [Z] with their wrap written out ([u64], [u32], [i64]); [size_t] has 64
    bits; a [vector] is a list; an [unordered_map] a [gmap].  Errors are values of
    [expected].  [Refused] is an error the code returns; [OutOfBounds] stands for a
    failed assertion, a read past an array, a lookup of nothing: theorems about it say it
    does not arise, or that nothing more is claimed.  Where the writer is single, as the
    source demands, its operations are steps of one thread; what other threads may do
    (release references, allocate from their pools, drain) interleaves between steps.

    A [nlohmann::json] is the value it denotes, an object a map in the order of its keys.

    On a file system a call may fail at any time, and every state is kept that a crash could
    leave; a path denotes the place its names lead to, symbolic links aside.  For the
    workspace, a file is the value of each field by its offset; the operating system answers call by
    call from a script; an [msync] writes whole pages, and any page of the mapping may
    reach the disk at any time.  A page is a power of two from [2^7] to [2^31] bytes, and a
    session makes fewer than [2^32 - 2] commits.

    Fuel: the trie recurses on the levels of a 64-bit key ([levels], thirteen of five
    bits and a leaf), which [tree] bounds; loops over chains take a bound on the ids in
    play, which the invariant of [Membership] meets; the drain takes the number of live
    cells, and [drain_collects_garbage] shows that this ends it; eviction takes the size
    of the map, each round of it removing an entry.  A save recurses on contents it has not
    seen and a load on references it is not inside of, so that their number bounds both:
    [save_ends] asks for more fuel than there are contents and as many rounds as there are
    compositions, [document_fuel] and [document_rounds] read both off the file.  The theorems conclude that there is
    a result, never only what it would be.

    ** Not modelled

    - [base/transform.hpp]'s arithmetic and the pixel and sample kernels of [media],
      [surface], [backend_cpu] and the kinds: floating-point computation, whose rounding
      nothing here speaks of.
    - [pool/workspace_file], [checkpoint.hpp]: the Windows branches, the fault injector,
      memory protection in debug builds, and the record bytes inside the chunks ([Recovery]
      starts from the slots, root and mark they yield).  [pool/big_block_pool]: raw blocks of
      bytes over the modelled slots.
    - [serialize]: the JSON parser and printer and zstd, third-party libraries (parameters
      of [ContentCodec], [AssetGc] and [TileBlob]), and the codecs of the kinds, parameters
      of the document format; the capture of a snapshot from the model, the entry points that
      wrap a load in a baseline or a commit, loads answered later.
    - the rest of [compositor], [audio_engine], [runtime], [contract], [api], plugins: planning,
      threads, devices and host glue over the layers above.
    - In the modelled files: debug-only generations, arena statistics, the identity of the
      writer thread, and the release of a content state when its record is reclaimed. *)

From stdpp Require Export base tactics decidable numbers option list gmap fin_maps strings.
From Stdlib Require Export ZArith Lia.

Declare Scope arbc_scope.
Delimit Scope arbc_scope with arbc.
Create HintDb arbc discriminated.
Create Rewrite HintDb arbc_rw.

(** ** Errors as values ([src/src/base/arbc/base/expected.hpp])

    [expected<T, E>] holds a value or an error (the error type comes first here, so
    that [expected E] is a type constructor).  Its monadic structure is the
    early-return idiom [if (!x) return unexpected(x.error());]. *)
Inductive expected (E T : Type) : Type :=
| Ok (v : T)
| Err (e : E).
Arguments Ok {E T} v.
Arguments Err {E T} e.

(** [expected::has_value] / [operator bool]. *)
Definition has_value {E T} (x : expected E T) : bool :=
  match x with Ok _ => true | Err _ => false end.

#[export] Instance expected_ret {E} : MRet (expected E) := fun T v => Ok v.
#[export] Instance expected_bind {E} : MBind (expected E) :=
  fun A B k x => match x with Ok v => k v | Err e => Err e end.

#[export] Instance expected_eq_dec {E T} `{EqDecision E, EqDecision T} :
  EqDecision (expected E T).
Proof. solve_decision. Defined.

Lemma expected_bind_ok {A B E} (k : A → expected E B) x b :
  mbind k x = Ok b → ∃ a, x = Ok a ∧ k a = Ok b.
Proof. destruct x as [a|e]; cbn; [eauto | discriminate]. Qed.

Lemma expected_bind_err {A B E} (k : A → expected E B) x e :
  mbind k x = Err e →
  x = Err e ∨ ∃ a, x = Ok a ∧ k a = Err e.
Proof. destruct x as [a|e']; cbn; [eauto | intros [= ->]; auto]. Qed.

(** ** A state monad with errors as values

    A mutating member function threads the object's state [S] and returns an
    [expected].  A mutation performed before an early error return persists, as
    it does in the source, so the state is part of both outcomes. *)
Definition ST (S E A : Type) : Type := S → S * expected E A.

#[export] Instance ST_ret {S E} : MRet (ST S E) := fun A a s => (s, Ok a).
#[export] Instance ST_bind {S E} : MBind (ST S E) :=
  fun A B k m s =>
    match m s with
    | (s', Ok a) => k a s'
    | (s', Err e) => (s', Err e)
    end.

Definition st_get {S E} : ST S E S := fun s => (s, Ok s).
Definition st_gets {S E A} (f : S → A) : ST S E A := fun s => (s, Ok (f s)).
Definition st_modify {S E} (f : S → S) : ST S E unit := fun s => (f s, Ok tt).
Definition st_fail {S E A} (e : E) : ST S E A := fun s => (s, Err e).

(** Run a clean-up on both outcomes of [m]: a C++ local's destructor at scope
    exit. *)
Definition st_finally {S E A} (m : ST S E A) (fin : S → S) : ST S E A :=
  fun s => match m s with (s', r) => (fin s', r) end.

Lemma st_bind_ok {S E A B} (m : ST S E A) (k : A → ST S E B) s s' b :
  mbind k m s = (s', Ok b) → ∃ s1 a, m s = (s1, Ok a) ∧ k a s1 = (s', Ok b).
Proof.
  unfold mbind, ST_bind. destruct (m s) as [s1 [a|e]]; [eauto | discriminate].
Qed.

(** ** Machine integers

    A w-bit unsigned value is a [Z] in [[0, 2^w)], a signed one a [Z] in
    [[-2^(w-1), 2^(w-1))]; every operation of the source that can wrap writes
    the wrap. *)
Definition u64 (z : Z) : Z := z mod 2 ^ 64.
Definition i64 (z : Z) : Z := (z + 2 ^ 63) mod 2 ^ 64 - 2 ^ 63.
Definition u32 (z : Z) : Z := z mod 2 ^ 32.

Definition in_u64 (z : Z) : Prop := (0 <= z < 2 ^ 64)%Z.
Definition in_i64 (z : Z) : Prop := (- 2 ^ 63 <= z < 2 ^ 63)%Z.
Definition in_u32 (z : Z) : Prop := (0 <= z < 2 ^ 32)%Z.
Definition in_u128 (z : Z) : Prop := (0 <= z < 2 ^ 128)%Z.
Definition in_i128 (z : Z) : Prop := (- 2 ^ 127 <= z < 2 ^ 127)%Z.

#[export] Instance in_i64_dec z : Decision (in_i64 z).
Proof. unfold in_i64. apply _. Defined.
#[export] Instance in_i128_dec z : Decision (in_i128 z).
Proof. unfold in_i128. apply _. Defined.

(** Unfold the wrap-around and range definitions of this section and hand the
    goal to linear arithmetic with the division equations. *)
Ltac word_lia :=
  unfold u64, i64, u32, in_u64, in_i64, in_u32, in_u128, in_i128 in *;
  Z.to_euclidean_division_equations; lia.

Section words.
Local Open Scope Z_scope.

Lemma u64_range z : in_u64 (u64 z).
Proof. unfold u64, in_u64. apply Z.mod_pos_bound. lia. Qed.

Lemma u32_range z : in_u32 (u32 z).
Proof. unfold u32, in_u32. apply Z.mod_pos_bound. lia. Qed.

Lemma i64_range z : in_i64 (i64 z).
Proof.
  unfold i64, in_i64. pose proof (Z.mod_pos_bound (z + 2 ^ 63) (2 ^ 64)). lia.
Qed.

Lemma u64_small z : in_u64 z → u64 z = z.
Proof. unfold in_u64. apply Z.mod_small. Qed.

Lemma u32_small z : in_u32 z → u32 z = z.
Proof. unfold in_u32. apply Z.mod_small. Qed.

Lemma i64_small z : in_i64 z → i64 z = z.
Proof. unfold i64, in_i64. intros. rewrite Z.mod_small; lia. Qed.

Lemma u64_i64 z : u64 (i64 z) = u64 z.
Proof. word_lia. Qed.

Lemma i64_u64 z : i64 (u64 z) = i64 z.
Proof. word_lia. Qed.
(** Setting a clear bit adds its weight. *)
Lemma lor_bit_add x n : 0 <= n → Z.testbit x n = false → Z.lor x (2 ^ n) = x + 2 ^ n.
Proof.
  intros Hn Hb. symmetry. apply Z.add_nocarry_lor. apply Z.bits_inj'. intros m Hm.
  rewrite Z.land_spec, Z.bits_0, Z.pow2_bits_eqb by lia.
  destruct (Z.eqb_spec n m) as [->|]; [by rewrite Hb | by rewrite andb_false_r].
Qed.

Lemma land_bit_test x n : 0 <= n → negb (Z.land x (2 ^ n) =? 0) = Z.testbit x n.
Proof.
  intros Hn. apply eq_true_iff_eq. rewrite negb_true_iff, Z.eqb_neq. split.
  - intros Hz. destruct (Z.testbit x n) eqn:E; [done|]. destruct Hz. apply Z.bits_inj'.
    intros m Hm. rewrite Z.land_spec, Z.pow2_bits_eqb, Z.bits_0 by lia.
    destruct (Z.eqb_spec n m) as [->|]; [by rewrite E|apply andb_false_r].
  - intros E Hz. assert (Z.testbit (Z.land x (2 ^ n)) n = true) as Ht.
    { by rewrite Z.land_spec, E, Z.pow2_bits_true. }
    by rewrite Hz, Z.bits_0 in Ht.
Qed.

Lemma testbit_above x k m : 0 <= x < 2 ^ k → k <= m → Z.testbit x m = false.
Proof.
  intros Hx Hm. destruct (Z.lt_ge_cases k 0) as [Hk|Hk].
  { rewrite Z.pow_neg_r in Hx by lia. lia. }
  rewrite <- (Z.mod_small x (2 ^ k)) by lia. by apply Z.mod_pow2_bits_high.
Qed.

Lemma lxor_u64 x y : in_u64 x → in_u64 y → in_u64 (Z.lxor x y).
Proof.
  intros Hx Hy. unfold in_u64 in *.
  assert (∀ z, 0 <= z < 2 ^ 64 → Z.log2 z < 64) as Hl.
  { intros z Hz. destruct (Z.eq_dec z 0) as [->|]; [done|]. apply Z.log2_lt_pow2; lia. }
  assert (0 <= Z.lxor x y) by (apply Z.lxor_nonneg; lia). split; [done|].
  destruct (Z.eq_dec (Z.lxor x y) 0) as [->|]; [lia|].
  apply Z.log2_lt_pow2; [lia|]. pose proof (Z.log2_lxor x y).
  pose proof (Hl x Hx). pose proof (Hl y Hy). lia.
Qed.
End words.
#[export] Hint Resolve u64_range u32_range i64_range : arbc.
#[export] Hint Rewrite u64_small u32_small i64_small using (solve [eauto with arbc]) : arbc_rw.

(** ** Generic tactics *)

(** Case analysis on the scrutinee of the first [match] of the goal or of a
    hypothesis, keeping the equation. *)
Ltac case_scrut :=
  match goal with
  | |- context [match ?x with _ => _ end] => destruct x eqn:?
  | H : context [match ?x with _ => _ end] |- _ => destruct x eqn:?
  end.

(** Split the boolean tests of the context into propositions. *)
Ltac bool_to_prop :=
  repeat match goal with
  | H : andb _ _ = true |- _ => apply andb_true_iff in H as [? ?]
  | H : orb _ _ = false |- _ => apply orb_false_iff in H as [? ?]
  | H : negb _ = true |- _ => apply negb_true_iff in H
  | H : negb _ = false |- _ => apply negb_false_iff in H
  | H : Z.ltb _ _ = true |- _ => apply Z.ltb_lt in H
  | H : Z.ltb _ _ = false |- _ => apply Z.ltb_ge in H
  | H : Z.leb _ _ = true |- _ => apply Z.leb_le in H
  | H : Z.leb _ _ = false |- _ => apply Z.leb_gt in H
  | H : Z.eqb _ _ = true |- _ => apply Z.eqb_eq in H
  | H : Z.eqb _ _ = false |- _ => apply Z.eqb_neq in H
  | H : N.ltb _ _ = true |- _ => apply N.ltb_lt in H
  | H : N.ltb _ _ = false |- _ => apply N.ltb_ge in H
  | H : N.leb _ _ = true |- _ => apply N.leb_le in H
  | H : N.leb _ _ = false |- _ => apply N.leb_gt in H
  | H : N.eqb _ _ = true |- _ => apply N.eqb_eq in H
  | H : N.eqb _ _ = false |- _ => apply N.eqb_neq in H
  | H : bool_decide _ = true |- _ => apply bool_decide_eq_true in H
  | H : bool_decide _ = false |- _ => apply bool_decide_eq_false in H
  end.

(** ** Finite sets *)

(** One more element taken out of what is left of a finite set. *)
Lemma size_without `{Countable A} (X P : gset A) x : x ∈ X → x ∉ P → S (size (X ∖ ({[x]} ∪ P))) = size (X ∖ P).
Proof.
  intros Hx Hp. assert (X ∖ P = {[x]} ∪ X ∖ ({[x]} ∪ P)) as ->.
  { apply set_eq. intros y. destruct (decide (y = x)) as [->|]; set_solver. }
  rewrite (size_union {[x]} (X ∖ ({[x]} ∪ P))) by set_solver. by rewrite size_singleton.
Qed.
