(* ===== verification/Int128.v ===== *)
(** Portable 128-bit integers: [src/src/base/arbc/base/detail/int128_msvc.hpp]. *)

From S2P Require Import Prelude.

Local Open Scope Z_scope.

Definition mask32 : Z := 0xFFFFFFFF.

(** [arbc_mul64_high]: the high word of a 64x64 product by 32-bit halves. *)
Definition arbc_mul64_high (a b : Z) : Z :=
  let a0 := Z.land a mask32 in let a1 := Z.shiftr a 32 in
  let b0 := Z.land b mask32 in let b1 := Z.shiftr b 32 in
  let p1 := u64 (a0 * b0) in
  let p2 := u64 (a0 * b1) in
  let p3 := u64 (a1 * b0) in
  let p4 := u64 (a1 * b1) in
  let mid := u64 (Z.shiftr p1 32 + Z.land p2 mask32 + Z.land p3 mask32) in
  u64 (p4 + Z.shiftr p2 32 + Z.shiftr p3 32 + Z.shiftr mid 32).

Lemma land_mask32 x : Z.land x mask32 = x mod 2 ^ 32.
Proof. change mask32 with (Z.ones 32). apply Z.land_ones. lia. Qed.

Lemma mul_bound a b m n : 0 <= a <= m → 0 <= b <= n → 0 <= a * b <= m * n.
Proof. nia. Qed.

Lemma arbc_mul64_high_spec a b :
  in_u64 a → in_u64 b → arbc_mul64_high a b = a * b / 2 ^ 64.
Proof.
  intros Ha Hb. unfold in_u64 in *. unfold arbc_mul64_high.
  rewrite !land_mask32, !Z.shiftr_div_pow2 by lia.
  set (a0 := a mod 2 ^ 32). set (a1 := a / 2 ^ 32).
  set (b0 := b mod 2 ^ 32). set (b1 := b / 2 ^ 32).
  assert (0 <= a0 <= 2 ^ 32 - 1 ∧ 0 <= a1 <= 2 ^ 32 - 1 ∧ a = a0 + 2 ^ 32 * a1) as (Ha0 & Ha1 & Ea)
    by (subst a0 a1; clear -Ha; Z.to_euclidean_division_equations; lia).
  assert (0 <= b0 <= 2 ^ 32 - 1 ∧ 0 <= b1 <= 2 ^ 32 - 1 ∧ b = b0 + 2 ^ 32 * b1) as (Hb0 & Hb1 & Eb)
    by (subst b0 b1; clear -Hb; Z.to_euclidean_division_equations; lia).
  clearbody a0 a1 b0 b1.
  pose proof (mul_bound _ _ _ _ Ha0 Hb0). pose proof (mul_bound _ _ _ _ Ha0 Hb1).
  pose proof (mul_bound _ _ _ _ Ha1 Hb0). pose proof (mul_bound _ _ _ _ Ha1 Hb1).
  assert (a * b = a0 * b0 + 2 ^ 32 * (a0 * b1 + a1 * b0) + 2 ^ 64 * (a1 * b1)) as -> by (subst; ring).
  generalize dependent (a0 * b0); intros p1 ?. generalize dependent (a0 * b1); intros p2 ?.
  generalize dependent (a1 * b0); intros p3 ?. generalize dependent (a1 * b1); intros p4 ?.
  clear -H H0 H1 H2. unfold u64.
  rewrite (Z.mod_small p1), (Z.mod_small p2), (Z.mod_small p3), (Z.mod_small p4) by lia.
  rewrite (Z.mod_small (p1 / 2 ^ 32 + _ + _)) by (Z.to_euclidean_division_equations; lia).
  rewrite Z.mod_small by (Z.to_euclidean_division_equations; lia).
  Z.to_euclidean_division_equations; lia.
Qed.

(** ** [rational_u128] *)

Record rational_u128 := U128 { ulo : Z; uhi : Z }.

Definition u_zero : rational_u128 := U128 0 0.
Definition u_of_u64 (v : Z) : rational_u128 := U128 v 0.

Definition u_eqb (x o : rational_u128) : bool := (ulo x =? ulo o) && (uhi x =? uhi o).
Definition u_ltb (x o : rational_u128) : bool :=
  (uhi x <? uhi o) || ((uhi x =? uhi o) && (ulo x <? ulo o)).
Definition u_leb (x o : rational_u128) : bool := negb (u_ltb o x).
Definition u_gtb (x o : rational_u128) : bool := u_ltb o x.

Definition u_add (x o : rational_u128) : rational_u128 :=
  let r_lo := u64 (ulo x + ulo o) in
  let carry := if r_lo <? ulo x then 1 else 0 in
  U128 r_lo (u64 (uhi x + uhi o + carry)).

Definition u_sub (x o : rational_u128) : rational_u128 :=
  let r_lo := u64 (ulo x - ulo o) in
  let borrow := if r_lo >? ulo x then 1 else 0 in
  U128 r_lo (u64 (uhi x - uhi o - borrow)).

(** [~x] on a 64-bit word is [2^64 - 1 - x]. *)
Definition not64 (x : Z) : Z := 2 ^ 64 - 1 - x.

Definition u_neg (x : rational_u128) : rational_u128 :=
  U128 (u64 (not64 (ulo x) + 1))
       (u64 (not64 (uhi x) + (if ulo x =? 0 then 1 else 0))).

Definition u_shl (x : rational_u128) (shift : Z) : rational_u128 :=
  if shift =? 0 then x
  else if shift <? 64 then
    U128 (u64 (Z.shiftl (ulo x) shift))
         (Z.lor (u64 (Z.shiftl (uhi x) shift)) (Z.shiftr (ulo x) (64 - shift)))
  else if shift <? 128 then U128 0 (u64 (Z.shiftl (ulo x) (shift - 64)))
  else U128 0 0.

Definition u_shr (x : rational_u128) (shift : Z) : rational_u128 :=
  if shift =? 0 then x
  else if shift <? 64 then
    U128 (Z.lor (Z.shiftr (ulo x) shift) (u64 (Z.shiftl (uhi x) (64 - shift))))
         (Z.shiftr (uhi x) shift)
  else if shift <? 128 then U128 (Z.shiftr (uhi x) (shift - 64)) 0
  else U128 0 0.

(** The body of [divmod]'s loop for bit [ui]: the pair is [(q, r)]. *)
Definition divmod_step (a b : rational_u128) (ui : Z) (qr : rational_u128 * rational_u128)
  : rational_u128 * rational_u128 :=
  let '(q, r) := qr in
  let r := u_shl r 1 in
  let src_word := if ui <? 64 then ulo a else uhi a in
  let bit := Z.land (Z.shiftr src_word (ui mod 64)) 1 in
  let r := U128 (Z.lor (ulo r) bit) (uhi r) in
  if negb (u_ltb r b) then
    (if ui <? 64 then U128 (Z.lor (ulo q) (Z.shiftl 1 ui)) (uhi q)
     else U128 (ulo q) (Z.lor (uhi q) (Z.shiftl 1 (ui - 64))),
     u_sub r b)
  else (q, r).

(** [for (int i = 127; i >= 0; --i)]: [divmod_loop n] runs bits [n-1 .. 0]. *)
Fixpoint divmod_loop (a b : rational_u128) (n : nat) (qr : rational_u128 * rational_u128)
  : rational_u128 * rational_u128 :=
  match n with
  | O => qr
  | S i => divmod_loop a b i (divmod_step a b (Z.of_nat i) qr)
  end.

Definition u_divmod (a b : rational_u128) : rational_u128 * rational_u128 :=
  if (uhi b =? 0) && (ulo b =? 0) then (u_zero, u_zero)
  else if u_ltb a b then (u_zero, a)
  else divmod_loop a b 128 (u_zero, u_zero).

Definition u_div (a b : rational_u128) : rational_u128 := (u_divmod a b).1.
Definition u_mod (a b : rational_u128) : rational_u128 := (u_divmod a b).2.

(** [explicit operator std::int64_t]. *)
Definition u_to_i64 (x : rational_u128) : Z := i64 (ulo x).

(** ** [rational_i128] *)

Record rational_i128 := I128 { ilo : Z; ihi : Z }.

Definition i_zero : rational_i128 := I128 0 0.
Definition i_of_i64 (v : Z) : rational_i128 := I128 (u64 v) (if v <? 0 then -1 else 0).
Definition i_of_u128 (v : rational_u128) : rational_i128 := I128 (ulo v) (i64 (uhi v)).
Definition i_is_negative (x : rational_i128) : bool := ihi x <? 0.
Definition i_to_u128 (x : rational_i128) : rational_u128 := U128 (ilo x) (u64 (ihi x)).
Definition i_magnitude (x : rational_i128) : rational_u128 :=
  let bits := U128 (ilo x) (u64 (ihi x)) in
  if i_is_negative x then u_neg bits else bits.

Definition i_eqb (x o : rational_i128) : bool := (ilo x =? ilo o) && (ihi x =? ihi o).
Definition i_ltb (x o : rational_i128) : bool :=
  (ihi x <? ihi o) || ((ihi x =? ihi o) && (ilo x <? ilo o)).

Definition i_neg (x : rational_i128) : rational_i128 :=
  I128 (u64 (not64 (ilo x) + 1))
       (i64 (u64 (not64 (u64 (ihi x)) + (if ilo x =? 0 then 1 else 0)))).

Definition i_add (x o : rational_i128) : rational_i128 :=
  let r_lo := u64 (ilo x + ilo o) in
  let carry := if r_lo <? ilo x then 1 else 0 in
  I128 r_lo (i64 (u64 (u64 (ihi x) + u64 (ihi o) + carry))).

Definition i_sub (x o : rational_i128) : rational_i128 := i_add x (i_neg o).

Definition i_mul (x o : rational_i128) : rational_i128 :=
  let neg := xorb (i_is_negative x) (i_is_negative o) in
  let aa := i_magnitude x in
  let bb := i_magnitude o in
  let r_lo := u64 (ulo aa * ulo bb) in
  let r_hi := u64 (arbc_mul64_high (ulo aa) (ulo bb)
                   + u64 (uhi aa * ulo bb) + u64 (ulo aa * uhi bb)) in
  let mag := U128 r_lo r_hi in
  let mag := if neg then u_neg mag else mag in
  i_of_u128 mag.

Definition i_div (x o : rational_i128) : rational_i128 :=
  let neg := xorb (i_is_negative x) (i_is_negative o) in
  let r := i_of_u128 (u_divmod (i_magnitude x) (i_magnitude o)).1 in
  if neg then i_neg r else r.

Definition i_mod (x o : rational_i128) : rational_i128 :=
  let r := i_of_u128 (u_divmod (i_magnitude x) (i_magnitude o)).2 in
  if i_is_negative x then i_neg r else r.

(** [operator&(std::int64_t mask)]: a two's-complement and on the low word. *)
Definition i_and (x : rational_i128) (mask : Z) : Z := Z.land (i64 (ilo x)) mask.

Definition i_to_i64 (x : rational_i128) : Z := i64 (ilo x).

(** The end of [arbc_mul_overflow_i128]: does the magnitude [mid:r0] with this
    sign fit a signed 128-bit value? *)
Definition i128_of_sign_mag (neg : bool) (r0 mid : Z) : option rational_i128 :=
  let high_bit_set := negb (Z.shiftr mid 63 =? 0) in
  if negb neg && high_bit_set then None
  else if neg && high_bit_set && (negb (mid =? 2 ^ 63) || negb (r0 =? 0)) then None
  else
    let mag := U128 r0 mid in
    Some (i_of_u128 (if neg then u_neg mag else mag)).

(** [arbc_mul_overflow_i128]: [None] is the [return true] of an overflow (the
    out-parameter is then left alone), [Some r] a [return false] with the
    out-parameter set to [r]. *)
Definition arbc_mul_overflow_i128 (a b : rational_i128) : option rational_i128 :=
  let neg := xorb (i_is_negative a) (i_is_negative b) in
  let aa := i_magnitude a in
  let bb := i_magnitude b in
  let a0 := ulo aa in let a1 := uhi aa in
  let b0 := ulo bb in let b1 := uhi bb in
  let r0 := u64 (a0 * b0) in
  let r0_h := arbc_mul64_high a0 b0 in
  let cross_lo := u64 (a1 * b0) in
  let cross_hi_0 := u64 (a0 * b1) in
  let mid := r0_h in
  let carry := if u64 (mid + cross_lo) <? mid then 1 else 0 in
  let mid := u64 (mid + cross_lo) in
  let carry := if u64 (mid + cross_hi_0) <? mid then u64 (carry + 1) else carry in
  let mid := u64 (mid + cross_hi_0) in
  let hi_overflow :=
    u64 (u64 (a1 * b1) + arbc_mul64_high a1 b0 + arbc_mul64_high a0 b1 + carry) in
  if negb (hi_overflow =? 0) then None else i128_of_sign_mag neg r0 mid.

(** [arbc_add_overflow_i128]: the flag and the (possibly wrapped) sum. *)
Definition arbc_add_overflow_i128 (a b : rational_i128) : bool * rational_i128 :=
  let result := i_add a b in
  (Bool.eqb (i_is_negative a) (i_is_negative b)
   && negb (Bool.eqb (i_is_negative result) (i_is_negative a)), result).

(** ** Values and well-formedness *)

Definition uval (x : rational_u128) : Z := uhi x * 2 ^ 64 + ulo x.
Definition uwf (x : rational_u128) : Prop := in_u64 (ulo x) ∧ in_u64 (uhi x).
Definition ival (x : rational_i128) : Z := ihi x * 2 ^ 64 + ilo x.
Definition iwf (x : rational_i128) : Prop := in_u64 (ilo x) ∧ in_i64 (ihi x).

(** The two's-complement wrap to 128 bits. *)
Definition u128 (z : Z) : Z := z mod 2 ^ 128.
Definition i128 (z : Z) : Z := (z + 2 ^ 127) mod 2 ^ 128 - 2 ^ 127.

Ltac int128 :=
  unfold uwf, iwf, uval, ival, u128, i128, in_u64, in_i64, in_u128, in_i128, u64, i64, not64 in *;
  cbn [ulo uhi ilo ihi] in *.

Lemma uval_range x : uwf x → in_u128 (uval x).
Proof. int128. lia. Qed.
Lemma ival_range x : iwf x → in_i128 (ival x).
Proof. int128. lia. Qed.

Lemma uval_inj x y : uwf x → uwf y → uval x = uval y → x = y.
Proof. destruct x, y. int128. intros. f_equal; lia. Qed.
Lemma ival_inj x y : iwf x → iwf y → ival x = ival y → x = y.
Proof. destruct x, y. int128. intros. f_equal; lia. Qed.

Lemma u_zero_spec : uwf u_zero ∧ uval u_zero = 0.
Proof. unfold u_zero. int128. lia. Qed.
Lemma u_of_u64_spec v : in_u64 v → uwf (u_of_u64 v) ∧ uval (u_of_u64 v) = v.
Proof. unfold u_of_u64. int128. lia. Qed.

Lemma u_eqb_spec x y : uwf x → uwf y → u_eqb x y = (uval x =? uval y).
Proof. destruct x, y. unfold u_eqb. int128. intros. lia. Qed.
Lemma u_ltb_spec x y : uwf x → uwf y → u_ltb x y = (uval x <? uval y).
Proof. destruct x, y. unfold u_ltb. int128. intros. lia. Qed.

Lemma u_add_spec x y :
  uwf x → uwf y → uwf (u_add x y) ∧ uval (u_add x y) = u128 (uval x + uval y).
Proof.
  destruct x as [xl xh], y as [yl yh]. unfold u_add. int128. intros.
  destruct (_ <? _) eqn:E; Z.to_euclidean_division_equations; lia.
Qed.

Lemma u_sub_spec x y :
  uwf x → uwf y → uwf (u_sub x y) ∧ uval (u_sub x y) = u128 (uval x - uval y).
Proof.
  destruct x as [xl xh], y as [yl yh]. unfold u_sub. int128. intros.
  destruct (_ >? _) eqn:E; Z.to_euclidean_division_equations; lia.
Qed.

Lemma u_neg_spec x : uwf x → uwf (u_neg x) ∧ uval (u_neg x) = u128 (- uval x).
Proof.
  destruct x as [xl xh]. unfold u_neg. int128. intros.
  destruct (_ =? _) eqn:E; Z.to_euclidean_division_equations; lia.
Qed.

(** ** Division *)

Lemma u_shl1_spec x :
  uwf x → uval x < 2 ^ 127 →
  uwf (u_shl x 1) ∧ uval (u_shl x 1) = 2 * uval x ∧ Z.testbit (ulo (u_shl x 1)) 0 = false.
Proof.
  destruct x as [l h]. unfold u_shl. cbn [ulo uhi Z.eqb Z.ltb Z.compare Pos.compare Pos.compare_cont].
  rewrite !Z.shiftl_mul_pow2, Z.shiftr_div_pow2 by lia. intros Hw Hb.
  assert (Z.lor (u64 (h * 2 ^ 1)) (l / 2 ^ (64 - 1)) = u64 (h * 2 ^ 1) + l / 2 ^ (64 - 1)) as ->.
  { symmetry. apply Z.add_nocarry_lor. apply Z.bits_inj'. intros n Hn.
    rewrite Z.land_spec, Z.bits_0. unfold u64. destruct (Z.eq_dec n 0) as [->|].
    - rewrite Z.mod_pow2_bits_low, Z.mul_pow2_bits_low by lia. done.
    - rewrite <- Z.shiftr_div_pow2, Z.shiftr_spec by lia.
      rewrite andb_comm. replace l with (l mod 2 ^ 64).
      + rewrite Z.mod_pow2_bits_high by lia. done.
      + int128. apply Z.mod_small. lia. }
  repeat split; [| | | | |int128; rewrite Z.mod_pow2_bits_low, Z.mul_pow2_bits_low by lia; done];
    revert Hw Hb; int128; Z.to_euclidean_division_equations; lia.
Qed.

Lemma uval_bit_low x n : uwf x → n < 64 → Z.testbit (uval x) n = Z.testbit (ulo x) n.
Proof.
  intros [Hl _] Hn. unfold uval. rewrite <- (Z.mod_pow2_bits_low (_ + _) 64 n) by lia.
  f_equal. rewrite Z.add_comm, Z_mod_plus_full. apply Z.mod_small, Hl.
Qed.

Lemma uval_bit_high x n :
  uwf x → 64 <= n → Z.testbit (uval x) n = Z.testbit (uhi x) (n - 64).
Proof.
  intros [Hl _] Hn. unfold in_u64 in *.
  transitivity (Z.testbit (Z.shiftr (uval x) 64) (n - 64)).
  - rewrite Z.shiftr_spec by lia. f_equal. lia.
  - f_equal. rewrite Z.shiftr_div_pow2 by lia. unfold uval.
    rewrite Z.add_comm, Z.div_add, Z.div_small by lia. lia.
Qed.

(** The bit [divmod] reads is bit [ui] of the dividend. *)
Lemma divmod_bit a ui :
  uwf a → 0 <= ui < 128 →
  Z.land (Z.shiftr (if ui <? 64 then ulo a else uhi a) (ui mod 64)) 1
  = (uval a / 2 ^ ui) mod 2.
Proof.
  intros Ha Hui. change 1 with (Z.ones 1). rewrite Z.land_ones by lia.
  rewrite Z.shiftr_div_pow2 by (apply Z.mod_pos_bound; lia). change (2 ^ 1) with 2.
  rewrite <- !Z.testbit_spec' by (try apply Z.mod_pos_bound; lia). f_equal.
  destruct (Z.ltb_spec ui 64).
  - rewrite (Z.mod_small ui), uval_bit_low by (auto; lia). done.
  - rewrite uval_bit_high by auto. f_equal. Z.to_euclidean_division_equations; lia.
Qed.

Lemma lor_bit_u64 x n :
  in_u64 x → 0 <= n < 64 → Z.testbit x n = false →
  in_u64 (Z.lor x (2 ^ n)) ∧ Z.lor x (2 ^ n) = x + 2 ^ n.
Proof.
  intros Hx Hn Hb. split; [|apply lor_bit_add; auto; lia].
  assert (0 <= 2 ^ n) by (apply Z.pow_nonneg; lia). unfold in_u64 in *.
  split; [apply Z.lor_nonneg; lia|].
  apply Z.log2_lt_cancel. rewrite Z.log2_lor, Z.log2_pow2 by lia.
  change (Z.log2 (2 ^ 64)) with 64. apply Z.max_lub_lt; [|lia].
  destruct (Z.eq_dec x 0) as [->|]; [cbn; lia | apply Z.log2_lt_pow2; lia].
Qed.

(** Setting the quotient bit [ui] adds [2 ^ ui] when the lower bits are clear. *)
Lemma divmod_setbit q k ui :
  uwf q → 0 <= ui < 128 → uval q = k * 2 ^ (ui + 1) →
  let q' := if ui <? 64 then U128 (Z.lor (ulo q) (Z.shiftl 1 ui)) (uhi q)
            else U128 (ulo q) (Z.lor (uhi q) (Z.shiftl 1 (ui - 64))) in
  uwf q' ∧ uval q' = uval q + 2 ^ ui.
Proof.
  intros Hq Hui Ek. rewrite !Z.shiftl_1_l.
  assert (Z.testbit (uval q) ui = false) as Hbit.
  { rewrite Ek. apply Z.mul_pow2_bits_low. lia. }
  destruct (Z.ltb_spec ui 64) as [Hlt|Hge]; cbn zeta; destruct Hq as [Hl Hh].
  - rewrite uval_bit_low in Hbit by (split || lia; auto).
    destruct (lor_bit_u64 (ulo q) ui Hl ltac:(lia) Hbit) as [Hr Er].
    rewrite Er in *. unfold uwf, uval in *. cbn [ulo uhi]. split; [split; auto | lia].
  - rewrite uval_bit_high in Hbit by (split || lia; auto).
    destruct (lor_bit_u64 (uhi q) (ui - 64) Hh ltac:(lia) Hbit) as [Hr Er].
    rewrite Er in *. unfold uwf, uval in *. cbn [ulo uhi]. split; [split; auto|].
    replace (2 ^ ui) with (2 ^ (ui - 64) * 2 ^ 64); [lia|].
    rewrite <- Z.pow_add_r by lia. f_equal. lia.
Qed.

(** The loop invariant of [divmod] when bits [n] and above are done. *)
Definition divmod_inv (a b : rational_u128) (n : Z) (qr : rational_u128 * rational_u128) : Prop :=
  uwf qr.1 ∧ uwf qr.2 ∧
  uval qr.1 = uval a / 2 ^ n / uval b * 2 ^ n ∧
  uval qr.2 = (uval a / 2 ^ n) mod uval b.

Lemma divmod_step_inv a b n qr :
  uwf a → uwf b → 0 < uval b → 0 <= n < 128 →
  divmod_inv a b (n + 1) qr → divmod_inv a b n (divmod_step a b n qr).
Proof.
  destruct qr as [q r]. intros Ha Hb Hpos Hn (Hq & Hr & Eq & Er). cbn [fst snd] in *.
  set (A := uval a / 2 ^ n). set (B := uval b) in *.
  assert (uval a / 2 ^ (n + 1) = A / 2) as EA.
  { subst A. rewrite Z.div_div by lia. f_equal. rewrite Z.pow_add_r by lia. lia. }
  rewrite EA in *.
  assert (0 <= A) by (apply Z.div_pos; [apply uval_range; auto | lia]).
  assert (A < 2 ^ 128) as HAub.
  { subst A. apply Z.div_lt_upper_bound; [lia|].
    pose proof (uval_range _ Ha) as [? ?]. nia. }
  assert (uval r <= A / 2) as HrA by (rewrite Er; apply Z.mod_le; [apply Z.div_pos|]; lia).
  assert (uval r < 2 ^ 127) as Hr127 by (Z.to_euclidean_division_equations; lia).
  destruct (u_shl1_spec r Hr Hr127) as (Hs & Es & Hbit0).
  unfold divmod_step. rewrite divmod_bit by auto. fold A.
  pose proof (Z.mod_pos_bound A 2 ltac:(lia)) as Hmod.
  set (s := u_shl r 1) in *.
  assert (uwf (U128 (Z.lor (ulo s) (A mod 2)) (uhi s))
          ∧ uval (U128 (Z.lor (ulo s) (A mod 2)) (uhi s)) = 2 * uval r + A mod 2) as [Hr1 Er1].
  { destruct Hs as [Hsl Hsh]. unfold uval, uwf in *; cbn [ulo uhi] in *.
    destruct (Z.eq_dec (A mod 2) 0) as [->|].
    - rewrite Z.lor_0_r. split; [split; auto | lia].
    - replace (A mod 2) with (2 ^ 0) by lia.
      destruct (lor_bit_u64 (ulo s) 0 Hsl ltac:(lia) Hbit0) as [Hlo Elo].
      rewrite Elo in *. split; [split; auto | lia]. }
  set (r1 := U128 _ _) in *.
  assert (uval r1 = 2 * ((A / 2) mod B) + A mod 2) as Er1' by lia.
  assert (A = 2 * (A / 2) + A mod 2) as HA by (apply Z.div_mod; lia).
  pose proof (Z.mod_pos_bound (A / 2) B Hpos) as HmB.
  pose proof (Z.div_mod (A / 2) B ltac:(lia)) as HdB.
  rewrite u_ltb_spec by auto. fold B.
  destruct (Z.ltb_spec (uval r1) B) as [Hlt|Hge]; cbn [negb]; unfold divmod_inv; cbn [fst snd];
    fold A B.
  - assert (A / B = 2 * (A / 2 / B)) as ->.
    { symmetry. apply Z.div_unique with (uval r1); lia. }
    split; [exact Hq|]. split; [exact Hr1|]. split.
    + rewrite Eq, Z.pow_add_r by lia. lia.
    + apply Z.mod_unique with (2 * (A / 2 / B)); lia.
  - assert (A / B = 2 * (A / 2 / B) + 1) as ->.
    { symmetry. apply Z.div_unique with (uval r1 - B); lia. }
    destruct (divmod_setbit q (A / 2 / B) n Hq Hn Eq) as [Hq' Eq'].
    destruct (u_sub_spec r1 b Hr1 Hb) as [Hsub Esub].
    split; [apply Hq'|]. split; [apply Hsub|]. split.
    + rewrite Eq', Eq, Z.pow_add_r by lia. lia.
    + rewrite Esub. fold B. unfold u128. rewrite Z.mod_small.
      * apply Z.mod_unique with (2 * (A / 2 / B) + 1); lia.
      * pose proof (uval_range _ Hr1) as [? ?]. lia.
Qed.

Lemma divmod_loop_inv a b n qr :
  uwf a → uwf b → 0 < uval b → (n <= 128)%nat →
  divmod_inv a b (Z.of_nat n) qr → divmod_inv a b 0 (divmod_loop a b n qr).
Proof.
  intros Ha Hb Hpos. revert qr. induction n as [|n IH]; intros qr Hn Hinv; [done|].
  cbn [divmod_loop]. apply IH; [lia|]. apply divmod_step_inv; auto; [lia|].
  by replace (Z.of_nat n + 1) with (Z.of_nat (S n)) by lia.
Qed.

Lemma u_divmod_spec a b :
  uwf a → uwf b → uval b ≠ 0 →
  let '(q, r) := u_divmod a b in
  uwf q ∧ uwf r ∧ uval q = uval a / uval b ∧ uval r = uval a mod uval b.
Proof.
  intros Ha Hb Hnz. pose proof (uval_range _ Ha) as Hra. pose proof (uval_range _ Hb) as Hrb.
  unfold in_u128 in *. unfold u_divmod.
  destruct ((uhi b =? 0) && (ulo b =? 0)) eqn:E0.
  { exfalso. apply Hnz. unfold uval. bool_to_prop. lia. }
  rewrite u_ltb_spec by auto. destruct (Z.ltb_spec (uval a) (uval b)).
  - rewrite Z.div_small, Z.mod_small by lia. destruct u_zero_spec. auto.
  - assert (divmod_inv a b 0 (divmod_loop a b 128 (u_zero, u_zero))) as Hinv.
    { apply divmod_loop_inv; auto; [lia|].
      unfold divmod_inv; cbn [fst snd]. change (Z.of_nat 128) with 128.
      rewrite (Z.div_small (uval a) (2 ^ 128)) by lia.
      rewrite Z.div_0_l, Z.mod_0_l by lia. destruct u_zero_spec as [? ->]. auto. }
    destruct (divmod_loop a b 128 _) as [q r]. unfold divmod_inv in Hinv.
    cbn [fst snd] in Hinv. change (2 ^ 0) with 1 in Hinv. rewrite Z.div_1_r in Hinv.
    destruct Hinv as (? & ? & ? & ?). split_and!; auto; lia.
Qed.

(** ** Signed operations *)

Lemma i_zero_spec : iwf i_zero ∧ ival i_zero = 0.
Proof. unfold i_zero. int128. lia. Qed.

Lemma i_of_i64_spec v : in_i64 v → iwf (i_of_i64 v) ∧ ival (i_of_i64 v) = v.
Proof.
  unfold i_of_i64. int128. intros. destruct (Z.ltb_spec v 0);
    Z.to_euclidean_division_equations; lia.
Qed.

Lemma i_of_u128_spec v : uwf v → iwf (i_of_u128 v) ∧ ival (i_of_u128 v) = i128 (uval v).
Proof.
  destruct v as [l h]. unfold i_of_u128. int128. intros.
  Z.to_euclidean_division_equations; lia.
Qed.

Lemma i_to_u128_spec x : iwf x → uwf (i_to_u128 x) ∧ uval (i_to_u128 x) = u128 (ival x).
Proof.
  destruct x as [l h]. unfold i_to_u128. int128. intros.
  Z.to_euclidean_division_equations; lia.
Qed.

Lemma i_is_negative_spec x : iwf x → i_is_negative x = (ival x <? 0).
Proof. destruct x as [l h]. unfold i_is_negative. int128. intros. lia. Qed.

Lemma i_magnitude_spec x :
  iwf x → uwf (i_magnitude x) ∧ uval (i_magnitude x) = Z.abs (ival x).
Proof.
  intros Hx. pose proof (i_to_u128_spec x Hx) as [Hu Eu].
  pose proof (ival_range x Hx) as Hr. unfold in_i128 in Hr.
  unfold i_magnitude. change (U128 (ilo x) (u64 (ihi x))) with (i_to_u128 x).
  rewrite i_is_negative_spec by auto. destruct (Z.ltb_spec (ival x) 0).
  - destruct (u_neg_spec _ Hu) as [? ->]. split; [auto|]. rewrite Eu. unfold u128.
    Z.to_euclidean_division_equations; lia.
  - split; [auto|]. rewrite Eu. unfold u128. rewrite Z.mod_small by lia. lia.
Qed.

Lemma i_ltb_spec x y : iwf x → iwf y → i_ltb x y = (ival x <? ival y).
Proof. destruct x, y. unfold i_ltb. int128. intros. lia. Qed.
Lemma i_eqb_spec x y : iwf x → iwf y → i_eqb x y = (ival x =? ival y).
Proof. destruct x, y. unfold i_eqb. int128. intros. lia. Qed.

Lemma i_neg_spec x : iwf x → iwf (i_neg x) ∧ ival (i_neg x) = i128 (- ival x).
Proof.
  destruct x as [l h]. unfold i_neg. int128. intros.
  destruct (Z.eqb_spec l 0); Z.to_euclidean_division_equations; lia.
Qed.

Lemma i_add_spec x y :
  iwf x → iwf y → iwf (i_add x y) ∧ ival (i_add x y) = i128 (ival x + ival y).
Proof.
  destruct x as [xl xh], y as [yl yh]. unfold i_add. int128. intros.
  destruct (Z.ltb_spec ((xl + yl) mod 2 ^ 64) xl); Z.to_euclidean_division_equations; lia.
Qed.

Lemma i128_small z : in_i128 z → i128 z = z.
Proof. unfold i128, in_i128. intros. rewrite Z.mod_small; lia. Qed.
Lemma i128_u128 z : i128 (u128 z) = i128 z.
Proof. unfold i128, u128. Z.to_euclidean_division_equations; lia. Qed.
Lemma i128_eq x y : x mod 2 ^ 128 = y mod 2 ^ 128 → i128 x = i128 y.
Proof. unfold i128. Z.to_euclidean_division_equations; lia. Qed.

(** The four-word product: low word, middle words, and the part above 2^128. *)
Lemma mul_words al ah bl bh :
  in_u64 al → in_u64 ah → in_u64 bl → in_u64 bh →
  (ah * 2 ^ 64 + al) * (bh * 2 ^ 64 + bl)
  = u64 (al * bl) + 2 ^ 64 * (arbc_mul64_high al bl + ah * bl + al * bh) + 2 ^ 128 * (ah * bh).
Proof.
  intros. rewrite arbc_mul64_high_spec by auto. unfold u64.
  pose proof (Z.div_mod (al * bl) (2 ^ 64) ltac:(lia)). lia.
Qed.

Definition u_mul_mag (aa bb : rational_u128) : rational_u128 :=
  U128 (u64 (ulo aa * ulo bb))
       (u64 (arbc_mul64_high (ulo aa) (ulo bb) + u64 (uhi aa * ulo bb) + u64 (ulo aa * uhi bb))).

Lemma u_mul_mag_spec x y :
  uwf x → uwf y → uwf (u_mul_mag x y) ∧ uval (u_mul_mag x y) = u128 (uval x * uval y).
Proof.
  destruct x as [al ah], y as [bl bh]. intros [? ?] [? ?]. cbn [ulo uhi] in *.
  split; [split; apply u64_range|]. unfold uval, u_mul_mag; cbn [ulo uhi].
  rewrite mul_words by auto. unfold u128, u64.
  generalize (arbc_mul64_high al bl) (ah * bl) (al * bh) (al * bl) (ah * bh). intros.
  Z.to_euclidean_division_equations; lia.
Qed.

Lemma i_mul_spec x y :
  iwf x → iwf y → iwf (i_mul x y) ∧ ival (i_mul x y) = i128 (ival x * ival y).
Proof.
  intros Hx Hy. destruct (i_magnitude_spec x Hx) as [Hax Eax].
  destruct (i_magnitude_spec y Hy) as [Hay Eay].
  destruct (u_mul_mag_spec _ _ Hax Hay) as [Hm Em]. rewrite Eax, Eay in Em.
  unfold i_mul. rewrite !i_is_negative_spec by auto.
  change (U128 (u64 (ulo (i_magnitude x) * ulo (i_magnitude y))) _)
    with (u_mul_mag (i_magnitude x) (i_magnitude y)).
  set (m := u_mul_mag _ _) in *. destruct (u_neg_spec m Hm) as [Hn En].
  destruct (Z.ltb_spec (ival x) 0) as [Hx0|Hx0], (Z.ltb_spec (ival y) 0) as [Hy0|Hy0]; cbn [xorb];
    match goal with |- iwf (i_of_u128 ?v) ∧ _ =>
      destruct (i_of_u128_spec v ltac:(assumption)) as [? ->] end;
    (split; [assumption|]); rewrite ?En, Em, ?i128_u128.
  - rewrite !Z.abs_neq by lia. f_equal; lia.
  - rewrite Z.abs_neq, Z.abs_eq by lia. apply i128_eq. unfold u128.
    replace (- ival x * ival y) with (- (ival x * ival y)) by ring.
    generalize (ival x * ival y). intros. Z.to_euclidean_division_equations; lia.
  - rewrite Z.abs_eq, Z.abs_neq by lia. apply i128_eq. unfold u128.
    replace (ival x * - ival y) with (- (ival x * ival y)) by ring.
    generalize (ival x * ival y). intros. Z.to_euclidean_division_equations; lia.
  - rewrite !Z.abs_eq by lia. done.
Qed.

Lemma i_divmod_mag x y :
  iwf x → iwf y → ival y ≠ 0 →
  let '(q, r) := u_divmod (i_magnitude x) (i_magnitude y) in
  uwf q ∧ uwf r ∧ uval q = Z.abs (ival x) / Z.abs (ival y)
  ∧ uval r = Z.abs (ival x) mod Z.abs (ival y).
Proof.
  intros Hx Hy Hnz. destruct (i_magnitude_spec x Hx) as [Hax Eax].
  destruct (i_magnitude_spec y Hy) as [Hay Eay].
  pose proof (u_divmod_spec _ _ Hax Hay ltac:(lia)) as H.
  destruct (u_divmod _ _) as [q r]. by rewrite Eax, Eay in H.
Qed.

Lemma i128_opp z : i128 (- i128 z) = i128 (- z).
Proof. unfold i128. Z.to_euclidean_division_equations; lia. Qed.

Lemma i_div_spec x y :
  iwf x → iwf y → ival y ≠ 0 →
  iwf (i_div x y) ∧ ival (i_div x y) = i128 (Z.quot (ival x) (ival y)).
Proof.
  intros Hx Hy Hnz. pose proof (i_divmod_mag x y Hx Hy Hnz) as H.
  unfold i_div. rewrite !i_is_negative_spec by auto.
  destruct (u_divmod _ _) as [q r]. destruct H as (Hq & Hr & Eq & Er). cbn [fst].
  destruct (i_of_u128_spec q Hq) as [Hi Ei]. destruct (i_neg_spec _ Hi) as [Hn En].
  rewrite Z.quot_div by auto.
  destruct (Z.ltb_spec (ival x) 0), (Z.ltb_spec (ival y) 0); cbn [xorb];
    (split; [assumption|]); rewrite ?En, Ei, Eq, ?i128_opp.
  - rewrite !Z.sgn_neg by lia. f_equal; lia.
  - rewrite (Z.sgn_neg (ival x)), (Z.sgn_pos (ival y)) by lia. f_equal; lia.
  - destruct (Z.eq_dec (ival x) 0) as [->|]; [by rewrite Z.abs_0, Z.div_0_l by lia|].
    rewrite (Z.sgn_pos (ival x)), (Z.sgn_neg (ival y)) by lia. f_equal; lia.
  - destruct (Z.eq_dec (ival x) 0) as [->|]; [by rewrite Z.abs_0, Z.div_0_l by lia|].
    rewrite !Z.sgn_pos by lia. f_equal; lia.
Qed.

Lemma i_mod_spec x y :
  iwf x → iwf y → ival y ≠ 0 →
  iwf (i_mod x y) ∧ ival (i_mod x y) = i128 (Z.rem (ival x) (ival y)).
Proof.
  intros Hx Hy Hnz. pose proof (i_divmod_mag x y Hx Hy Hnz) as H.
  unfold i_mod. rewrite !i_is_negative_spec by auto.
  destruct (u_divmod _ _) as [q r]. destruct H as (Hq & Hr & Eq & Er). cbn [snd].
  destruct (i_of_u128_spec r Hr) as [Hi Ei]. destruct (i_neg_spec _ Hi) as [Hn En].
  rewrite Z.rem_mod by auto.
  destruct (Z.ltb_spec (ival x) 0); (split; [assumption|]); rewrite ?En, Ei, Er, ?i128_opp.
  - rewrite Z.sgn_neg by lia. f_equal; lia.
  - destruct (Z.eq_dec (ival x) 0) as [->|]; [by rewrite Z.abs_0, Z.mod_0_l by lia|].
    rewrite Z.sgn_pos by lia. f_equal; lia.
Qed.

Lemma i_and1_spec x : iwf x → i_and x 1 = ival x mod 2.
Proof.
  destruct x as [l h]. intros _. unfold i_and. change 1 with (Z.ones 1).
  rewrite Z.land_ones by lia. change (2 ^ 1) with 2. int128.
  Z.to_euclidean_division_equations; lia.
Qed.

Lemma i_to_i64_spec x : iwf x → in_i64 (ival x) → i_to_i64 x = ival x.
Proof.
  destruct x as [l h]. unfold i_to_i64. int128. intros. Z.to_euclidean_division_equations; lia.
Qed.

Lemma u_to_i64_spec x : uwf x → 0 <= uval x < 2 ^ 63 → u_to_i64 x = uval x.
Proof.
  destruct x as [l h]. unfold u_to_i64. int128. intros. Z.to_euclidean_division_equations; lia.
Qed.

(** [arbc_add_overflow_i128] reports exactly the sums that leave the range. *)
Lemma arbc_add_overflow_spec a b :
  iwf a → iwf b →
  let '(ov, r) := arbc_add_overflow_i128 a b in
  iwf r ∧ ival r = i128 (ival a + ival b) ∧ (ov = false ↔ in_i128 (ival a + ival b)).
Proof.
  intros Ha Hb. destruct (i_add_spec a b Ha Hb) as [Hr Er].
  pose proof (ival_range a Ha). pose proof (ival_range b Hb). pose proof (ival_range _ Hr).
  unfold arbc_add_overflow_i128. rewrite !i_is_negative_spec by auto.
  split_and!; [done..|]. rewrite Er in *. unfold i128, in_i128 in *.
  generalize dependent (ival a); generalize dependent (ival b); intros.
  destruct (Z.ltb_spec z 0), (Z.ltb_spec z0 0), (Z.ltb_spec ((z0 + z + 2 ^ 127) mod 2 ^ 128 - 2 ^ 127) 0);
    cbn; (split; [intros [=] | intros]; try done); Z.to_euclidean_division_equations; lia.
Qed.

(** A result of the overflow test is right for the exact value [v]. *)
Definition mul_result_ok (v : Z) (r : option rational_i128) : Prop :=
  match r with
  | Some r => iwf r ∧ ival r = v ∧ in_i128 v
  | None => ¬ in_i128 v
  end.

Lemma i128_of_sign_mag_spec neg r0 mid :
  in_u64 r0 → in_u64 mid →
  let P := r0 + 2 ^ 64 * mid in
  mul_result_ok (if neg : bool then - P else P) (i128_of_sign_mag neg r0 mid).
Proof.
  intros Hr0 Hmid P. unfold i128_of_sign_mag, mul_result_ok.
  assert (uwf (U128 r0 mid)) as Hw by (split; done).
  destruct (u_neg_spec _ Hw) as [Hwn Ewn].
  destruct (i_of_u128_spec _ Hw) as [Hi Ei]. destruct (i_of_u128_spec _ Hwn) as [Hin Ein].
  rewrite Ewn, i128_u128 in Ein. unfold uval, in_u64 in *. cbn [ulo uhi] in *.
  replace (mid * 2 ^ 64 + r0) with P in * by lia.
  rewrite Z.shiftr_div_pow2 by lia.
  destruct neg; cbn [negb andb]; destruct (Z.eqb_spec (mid / 2 ^ 63) 0); cbn [negb andb].
  - assert (in_i128 (- P)) by (unfold in_i128; Z.to_euclidean_division_equations; lia).
    rewrite i128_small in Ein; auto.
  - destruct (Z.eqb_spec mid (2 ^ 63)), (Z.eqb_spec r0 0); cbn [negb orb].
    + assert (in_i128 (- P)) by (unfold in_i128; lia). rewrite i128_small in Ein; auto.
    + unfold in_i128; lia.
    + unfold in_i128; Z.to_euclidean_division_equations; lia.
    + unfold in_i128; Z.to_euclidean_division_equations; lia.
  - assert (in_i128 P) by (unfold in_i128; Z.to_euclidean_division_equations; lia).
    rewrite i128_small in Ei; auto.
  - unfold in_i128; Z.to_euclidean_division_equations; lia.
Qed.

Lemma mul_sign x y :
  x * y = (if xorb (x <? 0) (y <? 0) then - (Z.abs x * Z.abs y) else Z.abs x * Z.abs y).
Proof. destruct (Z.ltb_spec x 0), (Z.ltb_spec y 0); cbn [xorb]; nia. Qed.

(** A 128x64 product in words: the high word [m1] plus one carry. *)
Lemma mul_narrow_words a0 a1 b0 :
  in_u64 a0 → 0 <= a1 <= 2 ^ 63 → in_u64 b0 →
  let m0 := arbc_mul64_high a0 b0 in
  let m1 := arbc_mul64_high a1 b0 in
  let mid := u64 (m0 + u64 (a1 * b0)) in
  let carry := if mid <? m0 then 1 else 0 in
  in_u64 (m1 + carry) ∧ in_u64 m0 ∧
  (a1 * 2 ^ 64 + a0) * b0 = u64 (a0 * b0) + 2 ^ 64 * mid + 2 ^ 128 * (m1 + carry).
Proof.
  intros Ha0 Ha1 Hb0 m0 m1. assert (in_u64 a1) as Ha1' by (unfold in_u64; lia).
  pose proof (mul_words a0 a1 b0 0 Ha0 Ha1' Hb0 ltac:(unfold in_u64; lia)) as Hmw.
  pose proof (arbc_mul64_high_spec a0 b0 Ha0 Hb0) as E0.
  pose proof (arbc_mul64_high_spec a1 b0 Ha1' Hb0) as E1. fold m0 in E0, Hmw. fold m1 in E1.
  assert (0 <= m0 < 2 ^ 64 ∧ 0 <= m1 < 2 ^ 63) as [Hm0 Hm1].
  { rewrite E0, E1. unfold in_u64 in *. split; (split; [apply Z.div_pos; nia|]);
      apply Z.div_lt_upper_bound; nia. }
  assert (a1 * b0 = u64 (a1 * b0) + 2 ^ 64 * m1) as Ec.
  { rewrite E1. unfold u64. pose proof (Z.div_mod (a1 * b0) (2 ^ 64)). lia. }
  pose proof (u64_range (a1 * b0)) as Hc. set (c := u64 (a1 * b0)) in *.
  pose proof (u64_range (a0 * b0)) as Hr. set (r0 := u64 (a0 * b0)) in *.
  intros mid carry.
  assert (m0 + c = mid + 2 ^ 64 * carry ∧ 0 <= carry <= 1) as [Em Hcy].
  { unfold carry, mid, u64. clearbody m0 m1 c. clear -Hm0 Hm1 Hc.
    destruct (Z.ltb_spec ((m0 + c) mod 2 ^ 64) m0); word_lia. }
  unfold in_u64 in *. split_and!; lia.
Qed.

(** When the second factor fits 64 bits -- what [ComposedTimeMap::evaluate]
    passes, a canonical denominator -- the overflow test is exact. *)
Lemma arbc_mul_overflow_narrow a b :
  iwf a → iwf b → Z.abs (ival b) < 2 ^ 64 →
  mul_result_ok (ival a * ival b) (arbc_mul_overflow_i128 a b).
Proof.
  intros Ha Hb Hn. destruct (i_magnitude_spec a Ha) as [Hma Ema].
  destruct (i_magnitude_spec b Hb) as [Hmb Emb]. pose proof (ival_range a Ha) as Hra.
  unfold arbc_mul_overflow_i128. rewrite !i_is_negative_spec, mul_sign by auto.
  destruct (i_magnitude a) as [a0 a1], (i_magnitude b) as [b0 b1].
  destruct Hma as [Ha0 Ha1], Hmb as [Hb0 Hb1]. unfold uval, in_i128 in *. cbn [ulo uhi] in *.
  assert (b1 = 0) as -> by (unfold in_u64 in *; lia).
  rewrite !Z.mul_0_r. change (u64 0) with 0.
  destruct (mul_narrow_words a0 a1 b0) as (Hh & Hm0 & EP); [auto | unfold in_u64 in *; lia | auto |].
  rewrite (arbc_mul64_high_spec a0 0), Z.mul_0_r by auto.
  change (0 / 2 ^ 64) with 0. rewrite !Z.add_0_r, Z.add_0_l.
  set (mid := u64 (arbc_mul64_high a0 b0 + u64 (a1 * b0))) in *.
  assert (in_u64 mid) as Hmid by apply u64_range.
  rewrite (u64_small mid Hmid), Z.ltb_irrefl, (u64_small _ Hh).
  assert (Z.abs (ival a) * Z.abs (ival b) = (a1 * 2 ^ 64 + a0) * b0) as -> by nia.
  rewrite EP. pose proof (u64_range (a0 * b0)) as Hr0.
  destruct (Z.eqb_spec (arbc_mul64_high a1 b0 + (if mid <? arbc_mul64_high a0 b0 then 1 else 0)) 0)
    as [->|Hne]; cbn [negb].
  - rewrite Z.mul_0_r, Z.add_0_r. by apply i128_of_sign_mag_spec.
  - cbn [mul_result_ok]. clear -Hne Hh Hr0 Hmid. unfold in_i128, in_u64 in *.
    destruct (xorb _ _); lia.
Qed.

(** ** Properties *)

(** the portable [rational_i128] computes like a native [__int128]: sums and
    products are exact modulo 2^128, a quotient truncates toward zero, and a
    remainder has the dividend's sign. *)
Theorem i128_arith_native (x y : rational_i128) (Hx : iwf x) (Hy : iwf y) :
  (iwf (i_add x y) ∧ ival (i_add x y) = i128 (ival x + ival y)) ∧
  (iwf (i_mul x y) ∧ ival (i_mul x y) = i128 (ival x * ival y)) ∧
  (ival y ≠ 0 →
     ival (i_div x y) = i128 (Z.quot (ival x) (ival y)) ∧
     ival (i_mod x y) = Z.rem (ival x) (ival y)).
Proof.
  split; [by apply i_add_spec|]. split; [by apply i_mul_spec|]. intros Hn.
  split; [by apply i_div_spec|].
  destruct (i_mod_spec x y Hx Hy Hn) as [_ ->]. apply i128_small.
  pose proof (ival_range x Hx) as Hr. unfold in_i128 in *.
  pose proof (Z.rem_abs (ival x) (ival y) Hn).
  pose proof (Z.rem_sign_nz (ival x) (ival y) Hn) as Hs.
  pose proof (Z.rem_le (Z.abs (ival x)) (Z.abs (ival y))).
  destruct (Z.eq_dec (Z.rem (ival x) (ival y)) 0) as [->|Hz]; [lia|].
  specialize (Hs Hz).
  destruct (Z.sgn_spec (ival x)) as [?|[?|?]],
    (Z.sgn_spec (Z.rem (ival x) (ival y))) as [?|[?|?]]; lia.
Qed.

(** the bit-serial division of [rational_u128] terminates with the Euclidean
    quotient and remainder for every nonzero divisor. *)
Theorem u_divmod_euclid (a b : rational_u128) (Ha : uwf a) (Hb : uwf b) (Hn : uval b ≠ 0) :
  uwf (u_div a b) ∧ uwf (u_mod a b) ∧
  uval a = uval b * uval (u_div a b) + uval (u_mod a b) ∧
  uval (u_mod a b) < uval b.
Proof.
  pose proof (uval_range b Hb) as Hr. unfold in_u128 in Hr.
  pose proof (u_divmod_spec a b Ha Hb Hn) as H. unfold u_div, u_mod.
  destruct (u_divmod a b) as [q r]. cbn [fst snd]. destruct H as (? & ? & -> & ->).
  split_and!; [done..| |].
  - apply Z.div_mod. lia.
  - apply Z.mod_pos_bound. lia.
Qed.

(** [arbc_mul_overflow_i128] decides overflow exactly, and gives the exact
    product, whenever the second factor fits in 64 bits -- the case every caller
    is in. *)
Theorem mul_overflow_exact_narrow (a b : rational_i128)
  (Ha : iwf a) (Hb : iwf b) (Hn : Z.abs (ival b) < 2 ^ 64) :
  (arbc_mul_overflow_i128 a b = None ↔ ¬ in_i128 (ival a * ival b)) ∧
  ∀ r, arbc_mul_overflow_i128 a b = Some r → iwf r ∧ ival r = ival a * ival b.
Proof.
  pose proof (arbc_mul_overflow_narrow a b Ha Hb Hn) as H.
  destruct (arbc_mul_overflow_i128 a b) as [r|]; cbn in H.
  - destruct H as (Hr & Er & Hi). split; [split; [done | intros; done]|].
    by intros ? [= <-].
  - split; [done | intros ? [=]].
Qed.

(** outside that range the test misses overflows: for every pair of factors
    [2^(64+i)] and [2^(64+j)] with [i + j >= 64] the partial product of the high
    words wraps to zero and 0 is returned as the exact product. *)
Theorem mul_overflow_misses_wide (i j : Z) (Hi : 0 <= i < 63) (Hj : 0 <= j < 63)
  (Hij : 64 <= i + j) :
  arbc_mul_overflow_i128 (I128 0 (2 ^ i)) (I128 0 (2 ^ j)) = Some (I128 0 0) ∧
  ¬ in_i128 (ival (I128 0 (2 ^ i)) * ival (I128 0 (2 ^ j))).
Proof.
  assert (∀ k, 0 <= k < 63 → 1 <= 2 ^ k < 2 ^ 63) as Hp.
  { intros k Hk. pose proof (Z.pow_le_mono_r 2 0 k ltac:(lia) ltac:(lia)).
    pose proof (Z.pow_lt_mono_r 2 k 63 ltac:(lia) ltac:(lia)). lia. }
  pose proof (Hp i Hi) as Hpi. pose proof (Hp j Hj) as Hpj.
  assert (∀ k, 0 <= k < 63 → i_magnitude (I128 0 (2 ^ k)) = U128 0 (2 ^ k)) as Hm.
  { intros k Hk. pose proof (Hp k Hk). unfold i_magnitude, i_is_negative, i_to_u128. cbn [ihi ilo].
    rewrite (proj2 (Z.ltb_ge _ _)) by lia. by rewrite u64_small by (unfold in_u64; lia). }
  assert (u64 (2 ^ i * 2 ^ j) = 0) as Hz.
  { rewrite <- Z.pow_add_r by lia. replace (i + j) with (i + j - 64 + 64) by lia.
    rewrite Z.pow_add_r by lia. apply Z.mod_mul. lia. }
  split.
  - unfold arbc_mul_overflow_i128, i_is_negative. rewrite !Hm by lia. cbn [ihi ilo ulo uhi].
    rewrite (proj2 (Z.ltb_ge (2 ^ i) 0)), (proj2 (Z.ltb_ge (2 ^ j) 0)) by lia.
    rewrite !Z.mul_0_l, !Z.mul_0_r, Hz.
    rewrite !arbc_mul64_high_spec by (unfold in_u64; lia).
    rewrite !Z.mul_0_l, !Z.mul_0_r. reflexivity.
  - assert (2 ^ 64 <= 2 ^ i * 2 ^ j) by (rewrite <- Z.pow_add_r by lia; apply Z.pow_le_mono_r; lia).
    unfold ival, in_i128. cbn [ihi ilo]. intros [_ Hlt]. rewrite !Z.add_0_r in Hlt.
    replace (2 ^ i * 2 ^ 64 * (2 ^ j * 2 ^ 64)) with (2 ^ i * 2 ^ j * 2 ^ 128) in Hlt by ring.
    revert Hlt H. generalize (2 ^ i * 2 ^ j). lia.
Qed.

(** *** Witnesses *)
