(* ===== verification/Wide128.v ===== *)
(** The 128-bit interface of the rate arithmetic and its two implementations:
    the selection made at [src/src/base/arbc/base/rational_time.hpp:26-30]. *)

From S2P Require Import Prelude Int128.

Local Open Scope Z_scope.

(** ** The interface [rational_time.cpp] is written against

    [rational_time.hpp] selects native [__int128] where the compiler has it and
    the structs above elsewhere; the rate arithmetic is one text over either.
    The class lists the operations that text uses, and [Wide128Laws] what it
    relies on: unsigned arithmetic modulo 2^128, signed arithmetic exact while
    the mathematical result is representable, and the two overflow tests. *)
Class Wide128 (U I : Type) := {
  w_uok : U → Prop;
  w_uval : U → Z;
  w_iok : I → Prop;
  w_ival : I → Z;
  wu_zero : U;
  wu_of_u64 : Z → U;
  wu_eqb : U → U → bool;
  wu_ltb : U → U → bool;
  wu_sub : U → U → U;
  wu_div : U → U → U;
  wu_mod : U → U → U;
  wu_to_i64 : U → Z;
  wi_of_i64 : Z → I;
  wi_to_u : I → U;
  wi_ltb : I → I → bool;
  wi_eqb : I → I → bool;
  wi_add : I → I → I;
  wi_mul : I → I → I;
  wi_div : I → I → I;
  wi_mod : I → I → I;
  wi_and1 : I → Z;
  wi_to_i64 : I → Z;
  wi_mul_overflow : I → I → option I;
  wi_add_overflow : I → I → bool * I;
}.

Class Wide128Laws (U I : Type) `{!Wide128 U I} := {
  wu_range x : w_uok x → in_u128 (w_uval x);
  wi_range x : w_iok x → in_i128 (w_ival x);
  wu_zero_law : w_uok wu_zero ∧ w_uval wu_zero = 0;
  wu_of_u64_law v : in_u64 v → w_uok (wu_of_u64 v) ∧ w_uval (wu_of_u64 v) = v;
  wu_eqb_law x y : w_uok x → w_uok y → wu_eqb x y = (w_uval x =? w_uval y);
  wu_ltb_law x y : w_uok x → w_uok y → wu_ltb x y = (w_uval x <? w_uval y);
  wu_sub_law x y :
    w_uok x → w_uok y → w_uok (wu_sub x y) ∧ w_uval (wu_sub x y) = u128 (w_uval x - w_uval y);
  wu_div_law x y :
    w_uok x → w_uok y → w_uval y ≠ 0 →
    w_uok (wu_div x y) ∧ w_uval (wu_div x y) = w_uval x / w_uval y;
  wu_mod_law x y :
    w_uok x → w_uok y → w_uval y ≠ 0 →
    w_uok (wu_mod x y) ∧ w_uval (wu_mod x y) = w_uval x mod w_uval y;
  wu_to_i64_law x : w_uok x → 0 <= w_uval x < 2 ^ 63 → wu_to_i64 x = w_uval x;
  wi_of_i64_law v : in_i64 v → w_iok (wi_of_i64 v) ∧ w_ival (wi_of_i64 v) = v;
  wi_to_u_law x : w_iok x → w_uok (wi_to_u x) ∧ w_uval (wi_to_u x) = u128 (w_ival x);
  wi_ltb_law x y : w_iok x → w_iok y → wi_ltb x y = (w_ival x <? w_ival y);
  wi_eqb_law x y : w_iok x → w_iok y → wi_eqb x y = (w_ival x =? w_ival y);
  wi_add_law x y :
    w_iok x → w_iok y → in_i128 (w_ival x + w_ival y) →
    w_iok (wi_add x y) ∧ w_ival (wi_add x y) = w_ival x + w_ival y;
  wi_mul_law x y :
    w_iok x → w_iok y → in_i128 (w_ival x * w_ival y) →
    w_iok (wi_mul x y) ∧ w_ival (wi_mul x y) = w_ival x * w_ival y;
  wi_div_law x y :
    w_iok x → w_iok y → w_ival y ≠ 0 → in_i128 (Z.quot (w_ival x) (w_ival y)) →
    w_iok (wi_div x y) ∧ w_ival (wi_div x y) = Z.quot (w_ival x) (w_ival y);
  wi_mod_law x y :
    w_iok x → w_iok y → w_ival y ≠ 0 →
    w_iok (wi_mod x y) ∧ w_ival (wi_mod x y) = Z.rem (w_ival x) (w_ival y);
  wi_and1_law x : w_iok x → wi_and1 x = w_ival x mod 2;
  wi_to_i64_law x : w_iok x → in_i64 (w_ival x) → wi_to_i64 x = w_ival x;
  wi_mul_overflow_law x y :
    w_iok x → w_iok y → Z.abs (w_ival y) < 2 ^ 64 →
    match wi_mul_overflow x y with
    | Some r => w_iok r ∧ w_ival r = w_ival x * w_ival y ∧ in_i128 (w_ival x * w_ival y)
    | None => ¬ in_i128 (w_ival x * w_ival y)
    end;
  wi_add_overflow_law x y :
    w_iok x → w_iok y →
    let '(ov, r) := wi_add_overflow x y in
    w_iok r ∧ w_ival r = i128 (w_ival x + w_ival y)
    ∧ (ov = false ↔ in_i128 (w_ival x + w_ival y));
}.

(** The portable structs (MSVC). *)
#[export] Instance portable_wide : Wide128 rational_u128 rational_i128 := {
  w_uok := uwf; w_uval := uval; w_iok := iwf; w_ival := ival;
  wu_zero := u_zero; wu_of_u64 := u_of_u64; wu_eqb := u_eqb; wu_ltb := u_ltb;
  wu_sub := u_sub; wu_div := u_div; wu_mod := u_mod; wu_to_i64 := u_to_i64;
  wi_of_i64 := i_of_i64; wi_to_u := i_to_u128; wi_ltb := i_ltb; wi_eqb := i_eqb;
  wi_add := i_add; wi_mul := i_mul; wi_div := i_div; wi_mod := i_mod;
  wi_and1 := fun x => i_and x 1; wi_to_i64 := i_to_i64;
  wi_mul_overflow := arbc_mul_overflow_i128; wi_add_overflow := arbc_add_overflow_i128;
}.

(** Native [__int128] / [unsigned __int128] (GCC, Clang); the overflow tests are
    [__builtin_mul_overflow] and [__builtin_add_overflow]. *)
#[export] Instance native_wide : Wide128 Z Z := {
  w_uok := in_u128; w_uval := id; w_iok := in_i128; w_ival := id;
  wu_zero := 0; wu_of_u64 := id; wu_eqb := Z.eqb; wu_ltb := Z.ltb;
  wu_sub := fun x y => u128 (x - y); wu_div := Z.div; wu_mod := Z.modulo;
  wu_to_i64 := i64;
  wi_of_i64 := id; wi_to_u := u128; wi_ltb := Z.ltb; wi_eqb := Z.eqb;
  wi_add := fun x y => i128 (x + y); wi_mul := fun x y => i128 (x * y);
  wi_div := fun x y => i128 (Z.quot x y); wi_mod := Z.rem;
  wi_and1 := fun x => Z.land x 1; wi_to_i64 := i64;
  wi_mul_overflow := fun x y => if decide (in_i128 (x * y)) then Some (x * y) else None;
  wi_add_overflow := fun x y => (negb (bool_decide (in_i128 (x + y))), i128 (x + y));
}.

Lemma i128_range z : in_i128 (i128 z).
Proof. unfold in_i128, i128. pose proof (Z.mod_pos_bound (z + 2 ^ 127) (2 ^ 128)). lia. Qed.
Lemma u128_range z : in_u128 (u128 z).
Proof. unfold in_u128, u128. apply Z.mod_pos_bound. lia. Qed.

Lemma rem_in_i128 x y : in_i128 x → y ≠ 0 → in_i128 (Z.rem x y).
Proof.
  unfold in_i128. intros Hx Hy. rewrite Z.rem_mod by auto.
  pose proof (Z.mod_le (Z.abs x) (Z.abs y) ltac:(lia) ltac:(lia)).
  pose proof (Z.mod_pos_bound (Z.abs x) (Z.abs y) ltac:(lia)).
  destruct (Z.sgn_spec x) as [[? ->]|[[? ->]|[? ->]]]; lia.
Qed.

#[export] Instance native_laws : Wide128Laws Z Z.
Proof.
  split; cbn; unfold id; try (by intros); try (by intros; split; [apply u128_range|]).
  - intros v. unfold in_u64, in_u128. lia.
  - intros x y Hx Hy Hn. unfold in_u128 in *. split; [|done].
    split; [apply Z.div_pos; lia | apply Z.div_lt_upper_bound; nia].
  - intros x y Hx Hy Hn. unfold in_u128 in *. split; [|done].
    pose proof (Z.mod_pos_bound x y ltac:(lia)). lia.
  - intros x Hx Hb. apply i64_small. unfold in_i64. lia.
  - intros v. unfold in_i64, in_i128. lia.
  - intros x y _ _ ?. by rewrite i128_small.
  - intros x y _ _ ?. by rewrite i128_small.
  - intros x y _ _ _ ?. by rewrite i128_small.
  - intros x y ? _ ?. split; [by apply rem_in_i128 | done].
  - intros x _. change 1 with (Z.ones 1). rewrite Z.land_ones by lia. done.
  - intros x _ ?. by apply i64_small.
  - intros x y _ _ _. by destruct (decide _).
  - intros x y _ _. split_and!; [apply i128_range | done |].
    destruct (bool_decide_reflect (in_i128 (x + y))); naive_solver.
Qed.

#[export] Instance portable_laws : Wide128Laws rational_u128 rational_i128.
Proof.
  split; cbn; eauto using uval_range, ival_range, u_zero_spec, u_of_u64_spec, u_eqb_spec,
    u_ltb_spec, u_sub_spec, u_to_i64_spec, i_of_i64_spec, i_to_u128_spec, i_ltb_spec,
    i_eqb_spec, i_and1_spec, i_to_i64_spec.
  - intros x y Hx Hy Hn. pose proof (u_divmod_spec x y Hx Hy Hn) as H. unfold u_div.
    destruct (u_divmod x y). by destruct H as (? & ? & ? & ?).
  - intros x y Hx Hy Hn. pose proof (u_divmod_spec x y Hx Hy Hn) as H. unfold u_mod.
    destruct (u_divmod x y). by destruct H as (? & ? & ? & ?).
  - intros x y Hx Hy Hr. destruct (i_add_spec x y Hx Hy). by rewrite i128_small in *.
  - intros x y Hx Hy Hr. destruct (i_mul_spec x y Hx Hy). by rewrite i128_small in *.
  - intros x y Hx Hy Hn Hr. destruct (i_div_spec x y Hx Hy Hn). by rewrite i128_small in *.
  - intros x y Hx Hy Hn. destruct (i_mod_spec x y Hx Hy Hn) as [? E]. rewrite i128_small in E;
      [done | by apply rem_in_i128; [apply ival_range|]].
  - intros x y Hx Hy Hn. pose proof (arbc_mul_overflow_narrow x y Hx Hy Hn) as H.
    by destruct (arbc_mul_overflow_i128 x y).
  - intros x y Hx Hy. by apply arbc_add_overflow_spec.
Qed.
