(* ===== verification/RationalTime.v ===== *)
(** Rational time: [src/src/base/arbc/base/time.hpp],
    [src/src/base/arbc/base/rational_time.hpp] and
    [src/src/base/rational_time.cpp], generic in the 128-bit arithmetic. *)

From stdpp Require Import prelude.
From Stdlib Require Import QArith Qabs.
From S2P Require Import Prelude Int128 Wide128.

Local Open Scope Z_scope.

(** ** [Time] and [TimeRange] *)

Record Time := mkTime { flicks : Z }.
Record TimeRange := mkTimeRange { tr_start : Time; tr_end : Time }.

#[export] Instance Time_eq_dec : EqDecision Time.
Proof. solve_decision. Defined.
#[export] Instance TimeRange_eq_dec : EqDecision TimeRange.
Proof. solve_decision. Defined.

Definition int64_max : Z := 2 ^ 63 - 1.
Definition int64_min : Z := - 2 ^ 63.

Definition Time_zero : Time := mkTime 0.
(** [TimeRange::all]. *)
Definition TimeRange_all : TimeRange := mkTimeRange (mkTime int64_min) (mkTime int64_max).
(** [TimeRange::empty]. *)
Definition range_empty (r : TimeRange) : bool := flicks (tr_end r) <=? flicks (tr_start r).
(** [TimeRange::contains]. *)
Definition range_contains (r : TimeRange) (t : Time) : bool :=
  (flicks (tr_start r) <=? flicks t) && (flicks t <? flicks (tr_end r)).
Definition present_in_span (span : TimeRange) (parent_time : Time) : bool :=
  range_contains span parent_time.

(** ** [Rational] *)

Inductive TimeError := Overflow.
#[export] Instance TimeError_eq_dec : EqDecision TimeError.
Proof. solve_decision. Defined.

Record Rational := mkRational { d_num : Z; d_den : Z }.
#[export] Instance Rational_eq_dec : EqDecision Rational.
Proof. solve_decision. Defined.

(** [Rational::magnitude]. *)
Definition magnitude (v : Z) : Z := if v <? 0 then u64 (0 - u64 v) else u64 v.

(** [Rational::gcd_u64]: the loop [while (b != 0) { t = a % b; a = b; b = t; }].
    129 rounds are enough for 64-bit operands ([gcd_u64_loop_spec]). *)
Fixpoint gcd_u64_loop (fuel : nat) (a b : Z) : Z :=
  match fuel with
  | O => a
  | S fuel => if b =? 0 then a else gcd_u64_loop fuel b (a mod b)
  end.
Definition gcd_u64 (a b : Z) : Z := gcd_u64_loop 129 a b.

(** The canonicalizing constructor [Rational(num, den)].  Its assertions
    ([den != 0], neither argument [INT64_MIN]) are the hypotheses of its lemmas. *)
Definition make_rational (num den : Z) : Rational :=
  let an := magnitude num in
  let ad := magnitude den in
  let g := gcd_u64 an ad in
  let an := an / g in
  let ad := ad / g in
  let negative := xorb (num <? 0) (den <? 0) in
  mkRational (if negative then i64 (- i64 an) else i64 an) (i64 ad).

Definition is_zero (r : Rational) : bool := d_num r =? 0.
Definition negated (r : Rational) : Rational := mkRational (i64 (- d_num r)) (d_den r).

Definition rational_one : Rational := mkRational 1 1.
Definition rational_zero : Rational := mkRational 0 1.

Section ops.
Context {U I : Type} `{!Wide128 U I}.

(** [gcd_u128]; 257 rounds are enough ([gcd_u128_loop_spec]). *)
Fixpoint gcd_u128_loop (fuel : nat) (a b : U) : U :=
  match fuel with
  | O => a
  | S fuel => if wu_eqb b wu_zero then a else gcd_u128_loop fuel b (wu_mod a b)
  end.
Definition gcd_u128 (a b : U) : U := gcd_u128_loop 257 a b.

Definition magnitude_i128 (v : I) : U :=
  if wi_ltb v (wi_of_i64 0) then wu_sub wu_zero (wi_to_u v) else wi_to_u v.

(** [Rational::from_i128]. *)
Definition from_i128 (num den : I) : expected TimeError Rational :=
  let negative := xorb (wi_ltb num (wi_of_i64 0)) (wi_ltb den (wi_of_i64 0)) in
  let an := magnitude_i128 num in
  let ad := magnitude_i128 den in
  let g := gcd_u128 an ad in
  let an := wu_div an g in
  let ad := wu_div ad g in
  let k_max_mag := wu_of_u64 int64_max in
  if wu_ltb k_max_mag an || wu_ltb k_max_mag ad then Err Overflow
  else
    let rn := if negative then i64 (- wu_to_i64 an) else wu_to_i64 an in
    let rd := wu_to_i64 ad in
    Ok (mkRational rn rd).

(** [Rational::mul]. *)
Definition rat_mul (x other : Rational) : expected TimeError Rational :=
  from_i128 (wi_mul (wi_of_i64 (d_num x)) (wi_of_i64 (d_num other)))
            (wi_mul (wi_of_i64 (d_den x)) (wi_of_i64 (d_den other))).

(** [Rational::add]. *)
Definition rat_add (x other : Rational) : expected TimeError Rational :=
  let num := wi_add (wi_mul (wi_of_i64 (d_num x)) (wi_of_i64 (d_den other)))
                    (wi_mul (wi_of_i64 (d_num other)) (wi_of_i64 (d_den x))) in
  let den := wi_mul (wi_of_i64 (d_den x)) (wi_of_i64 (d_den other)) in
  from_i128 num den.
End ops.

(** ** Time maps *)

Record TimeMap := mkTimeMap { tm_in : Time; tm_rate : Rational; tm_offset : Time }.
#[export] Instance TimeMap_eq_dec : EqDecision TimeMap.
Proof. solve_decision. Defined.
Definition TimeMap_identity : TimeMap := mkTimeMap Time_zero rational_one Time_zero.

Record ComposedTimeMap := mkComposed { cm_a : Rational; cm_b : Rational }.
#[export] Instance ComposedTimeMap_eq_dec : EqDecision ComposedTimeMap.
Proof. solve_decision. Defined.

(** [ComposedTimeMap::identity]. *)
Definition composed_identity : ComposedTimeMap := mkComposed rational_one rational_zero.

Section maps.
Context {U I : Type} `{!Wide128 U I}.
Let rmul := rat_mul (U := U) (I := I).
Let radd := rat_add (U := U) (I := I).

(** [ComposedTimeMap::from]. *)
Definition composed_from (edge : TimeMap) : expected TimeError ComposedTimeMap :=
  let in_r := make_rational (flicks (tm_in edge)) 1 in
  let off_r := make_rational (flicks (tm_offset edge)) 1 in
  in_scaled ← rmul in_r (tm_rate edge);
  b ← radd off_r (negated in_scaled);
  Ok (mkComposed (tm_rate edge) b).

(** [ComposedTimeMap::and_then]: [other] applied after [x]. *)
Definition and_then (x other : ComposedTimeMap) : expected TimeError ComposedTimeMap :=
  na ← rmul (cm_a other) (cm_a x);
  scaled_b ← rmul (cm_a other) (cm_b x);
  nb ← radd scaled_b (cm_b other);
  Ok (mkComposed na nb).

(** [ComposedTimeMap::then]. *)
Definition composed_then (x : ComposedTimeMap) (edge : TimeMap)
  : expected TimeError ComposedTimeMap :=
  sub ← composed_from edge;
  and_then x sub.

(** [ComposedTimeMap::compose]: the loop over the edge stack. *)
Fixpoint compose_loop (acc : ComposedTimeMap) (edges : list TimeMap)
  : expected TimeError ComposedTimeMap :=
  match edges with
  | [] => Ok acc
  | e :: edges => next ← composed_then acc e; compose_loop next edges
  end.
Definition compose (edges : list TimeMap) : expected TimeError ComposedTimeMap :=
  compose_loop composed_identity edges.

(** [ComposedTimeMap::evaluate]. *)
Definition evaluate (m : ComposedTimeMap) (parent_time : Time) : expected TimeError Time :=
  let an := wi_of_i64 (d_num (cm_a m)) in
  let ad := wi_of_i64 (d_den (cm_a m)) in
  let bn := wi_of_i64 (d_num (cm_b m)) in
  let bd := wi_of_i64 (d_den (cm_b m)) in
  let term := wi_mul an (wi_of_i64 (flicks parent_time)) in
  match wi_mul_overflow term bd with
  | None => Err Overflow
  | Some term =>
    let '(ov, n) := wi_add_overflow term (wi_mul bn ad) in
    if ov : bool then Err Overflow
    else
      let d := wi_mul ad bd in
      let q := wi_div n d in
      let r := wi_mod n d in
      let '(q, r) :=
        if wi_ltb r (wi_of_i64 0)
        then (wi_add q (wi_of_i64 (-1)), wi_add r d) else (q, r) in
      let twice := wi_mul (wi_of_i64 2) r in
      let q := if wi_ltb d twice || (wi_eqb twice d && negb (wi_and1 q =? 0))
               then wi_add q (wi_of_i64 1) else q in
      if wi_ltb (wi_of_i64 int64_max) q || wi_ltb q (wi_of_i64 int64_min)
      then Err Overflow
      else Ok (mkTime (wi_to_i64 q))
  end.

(** [TimeMap::evaluate]. *)
Definition timemap_evaluate (edge : TimeMap) (parent_time : Time) : expected TimeError Time :=
  composed ← composed_from edge;
  evaluate composed parent_time.
End maps.

Example evaluate_film_native :
  timemap_evaluate (U := Z) (I := Z)
    (mkTimeMap (mkTime 10) (make_rational 24000 1001) (mkTime (-3))) (mkTime 11) = Ok (mkTime 21).
Proof. vm_compute. reflexivity. Qed.
Example evaluate_film_portable :
  timemap_evaluate (U := rational_u128) (I := rational_i128)
    (mkTimeMap (mkTime 10) (make_rational 24000 1001) (mkTime (-3))) (mkTime 11) = Ok (mkTime 21).
Proof. vm_compute. reflexivity. Qed.

(** ** Canonical form *)

(** Reduced to lowest terms, positive denominator, both within [int64] with the
    numerator never [INT64_MIN]. *)
Definition canonical (r : Rational) : Prop :=
  Z.abs (d_num r) <= int64_max ∧ 0 < d_den r <= int64_max ∧ Z.gcd (d_num r) (d_den r) = 1.

#[export] Instance canonical_dec r : Decision (canonical r).
Proof. unfold canonical. apply _. Defined.

(** The mathematical value. *)
Definition rval (r : Rational) : Q := Qmake (d_num r) (Z.to_pos (d_den r)).

Lemma rval_cross r n d :
  0 < d_den r → 0 < d → (rval r == Qmake n (Z.to_pos d))%Q ↔ d_num r * d = n * d_den r.
Proof.
  intros. unfold rval, Qeq. cbn [Qnum Qden]. rewrite !Z2Pos.id by lia. done.
Qed.

Lemma gcd_div_coprime n d : d ≠ 0 → Z.gcd (n / Z.gcd n d) (d / Z.gcd n d) = 1.
Proof. intros. apply Z.gcd_div_gcd; [|done]. intros E%Z.gcd_eq_0_r. done. Qed.

(** Lowest terms are unique. *)
Lemma canonical_unique r s : canonical r → canonical s → (rval r == rval s)%Q → r = s.
Proof.
  destruct r as [n d], s as [m e]. intros (_ & Hd & Hg) (_ & He & Hk) Heq.
  apply (rval_cross (mkRational n d) m e) in Heq; cbn [d_num d_den] in *; [|lia..].
  assert (d | e) as Hde.
  { apply Z.gauss with n; [exists m; lia | by rewrite Z.gcd_comm]. }
  assert (e | d) as Hed.
  { apply Z.gauss with m; [exists n; lia | by rewrite Z.gcd_comm]. }
  assert (d = e) as -> by (apply Z.divide_antisym_nonneg; auto; lia).
  f_equal. nia.
Qed.

(** ** The two gcd loops *)

Lemma mod_halves a b : 0 < b → 0 < a mod b → 2 * (b mod (a mod b)) < b.
Proof.
  intros Hb Hr. pose proof (Z.mod_pos_bound a b Hb).
  set (r := a mod b) in *. pose proof (Z.mod_pos_bound b r Hr).
  pose proof (Z.div_mod b r ltac:(lia)). assert (1 <= b / r) by (apply Z.div_le_lower_bound; lia).
  nia.
Qed.

Lemma gcd_step a b : b ≠ 0 → Z.gcd a b = Z.gcd b (a mod b).
Proof. intros. by rewrite (Z.gcd_comm a), <- Z.gcd_mod, Z.gcd_comm. Qed.

(** Two rounds halve the divisor, so [2k + 1] rounds finish a k-bit divisor. *)
Lemma gcd_u64_loop_spec k fuel a b :
  0 <= b < 2 ^ Z.of_nat k → 0 <= a → (2 * k + 1 <= fuel)%nat →
  gcd_u64_loop fuel a b = Z.gcd a b.
Proof.
  revert fuel a b. induction k as [|k IH]; intros fuel a b Hb Ha Hf.
  - destruct fuel as [|fuel]; [lia|]. cbn. replace b with 0 by lia.
    rewrite Z.gcd_0_r. cbn. lia.
  - destruct fuel as [|[|fuel]]; [lia..|]. cbn [gcd_u64_loop].
    destruct (Z.eqb_spec b 0) as [->|Hnz]; [rewrite Z.gcd_0_r; lia|].
    rewrite gcd_step by auto.
    pose proof (Z.mod_pos_bound a b ltac:(lia)).
    destruct (Z.eqb_spec (a mod b) 0) as [->|Hnz']; [rewrite Z.gcd_0_r; lia|].
    rewrite gcd_step by auto.
    apply IH; [|lia..]. pose proof (mod_halves a b ltac:(lia) ltac:(lia)).
    pose proof (Z.mod_pos_bound b (a mod b) ltac:(lia)).
    rewrite Nat2Z.inj_succ, Z.pow_succ_r in Hb by lia. lia.
Qed.

Lemma gcd_u64_spec a b : in_u64 a → in_u64 b → gcd_u64 a b = Z.gcd a b.
Proof. unfold in_u64. intros. apply (gcd_u64_loop_spec 64); cbn; lia. Qed.

Section gcd128.
Context {U I : Type} `{!Wide128 U I, !Wide128Laws U I}.

Lemma gcd_u128_loop_spec k fuel a b :
  w_uok a → w_uok b → w_uval b < 2 ^ Z.of_nat k → (2 * k + 1 <= fuel)%nat →
  w_uok (gcd_u128_loop fuel a b) ∧
  w_uval (gcd_u128_loop fuel a b) = Z.gcd (w_uval a) (w_uval b).
Proof.
  destruct wu_zero_law as [Hz0 Ez0].
  revert fuel a b. induction k as [|k IH]; intros fuel a b Ha Hb Hlt Hf;
    pose proof (wu_range a Ha) as [? _]; pose proof (wu_range b Hb) as [? _].
  - destruct fuel as [|fuel]; [lia|]. cbn. rewrite wu_eqb_law, Ez0 by auto.
    change (2 ^ Z.of_nat 0) with 1 in Hlt. assert (w_uval b = 0) as -> by lia. rewrite Z.gcd_0_r. split; [done|]. cbn. lia.
  - destruct fuel as [|[|fuel]]; [lia..|]. cbn [gcd_u128_loop].
    rewrite wu_eqb_law, Ez0 by auto.
    destruct (Z.eqb_spec (w_uval b) 0) as [->|Hnz]; [rewrite Z.gcd_0_r; split; [done|lia]|].
    destruct (wu_mod_law a b Ha Hb Hnz) as [Hm Em].
    rewrite gcd_step, <- Em by auto.
    pose proof (wu_range _ Hm) as [? _].
    rewrite wu_eqb_law, Ez0 by auto.
    destruct (Z.eqb_spec (w_uval (wu_mod a b)) 0) as [->|Hnz'];
      [rewrite Z.gcd_0_r; split; [done|lia]|].
    destruct (wu_mod_law b (wu_mod a b) Hb Hm Hnz') as [Hm' Em'].
    rewrite gcd_step, <- Em' by auto.
    apply IH; auto; [|lia].
    assert (2 * w_uval (wu_mod b (wu_mod a b)) < w_uval b).
    { rewrite Em', Em. apply mod_halves; [lia|]. rewrite <- Em. lia. }
    rewrite Nat2Z.inj_succ, Z.pow_succ_r in Hlt by lia. lia.
Qed.

Lemma gcd_u128_spec a b :
  w_uok a → w_uok b →
  w_uok (gcd_u128 a b) ∧ w_uval (gcd_u128 a b) = Z.gcd (w_uval a) (w_uval b).
Proof.
  intros Ha Hb. apply (gcd_u128_loop_spec 128); auto.
  apply (wu_range b Hb).
Qed.

Lemma magnitude_i128_spec v :
  w_iok v → w_uok (magnitude_i128 v) ∧ w_uval (magnitude_i128 v) = Z.abs (w_ival v).
Proof.
  intros Hv. unfold magnitude_i128. destruct wu_zero_law as [Hz Ez].
  destruct (wi_of_i64_law 0 ltac:(unfold in_i64; lia)) as [H0 E0].
  destruct (wi_to_u_law v Hv) as [Hu Eu]. pose proof (wi_range v Hv) as Hr.
  rewrite wi_ltb_law, E0 by auto. unfold in_i128 in Hr.
  destruct (Z.ltb_spec (w_ival v) 0).
  - destruct (wu_sub_law wu_zero (wi_to_u v) Hz Hu) as [? ->]. split; [done|].
    rewrite Ez, Eu. unfold u128. Z.to_euclidean_division_equations; lia.
  - split; [done|]. rewrite Eu. unfold u128. rewrite Z.mod_small by lia. lia.
Qed.
End gcd128.

(** The lowest-terms pair of [num / den], sign in the numerator. *)
Definition reduce (num den : Z) : Rational :=
  let g := Z.gcd num den in
  mkRational (Z.sgn num * Z.sgn den * (Z.abs num / g)) (Z.abs den / g).

Definition rational_fits (r : Rational) : Prop :=
  Z.abs (d_num r) <= int64_max ∧ Z.abs (d_den r) <= int64_max.
#[export] Instance rational_fits_dec r : Decision (rational_fits r).
Proof. unfold rational_fits. apply _. Defined.

Lemma reduce_facts num den :
  den ≠ 0 →
  let g := Z.gcd num den in
  0 < g ∧ Z.abs num = Z.abs num / g * g ∧ Z.abs den = Z.abs den / g * g
  ∧ 0 <= Z.abs num / g ∧ 0 < Z.abs den / g ∧ Z.gcd (Z.abs num / g) (Z.abs den / g) = 1.
Proof.
  intros Hd g. assert (0 < g) as Hg.
  { pose proof (Z.gcd_nonneg num den). destruct (Z.eq_dec g 0) as [E|]; [|lia].
    apply Z.gcd_eq_0_r in E. done. }
  assert ((g | Z.abs num) ∧ (g | Z.abs den)) as [[x Hx] [y Hy]].
  { split; apply Z.divide_abs_r; [apply Z.gcd_divide_l | apply Z.gcd_divide_r]. }
  split_and!; [done|..].
  - rewrite Hx, Z.div_mul by lia. done.
  - rewrite Hy, Z.div_mul by lia. done.
  - apply Z.div_pos; lia.
  - rewrite Hy, Z.div_mul by lia. nia.
  - replace g with (Z.gcd (Z.abs num) (Z.abs den))
      by (rewrite Z.gcd_abs_l, Z.gcd_abs_r; done).
    apply gcd_div_coprime. lia.
Qed.

Lemma reduce_canonical num den :
  den ≠ 0 → rational_fits (reduce num den) → canonical (reduce num den).
Proof.
  intros Hd [Hn Hdn]. destruct (reduce_facts num den Hd) as (Hg & En & Ed & H0 & H1 & Hc).
  unfold reduce in *. cbn [d_num d_den] in *. unfold canonical; cbn [d_num d_den].
  split; [done|]. split; [lia|].
  rewrite <- Z.gcd_abs_l, !Z.abs_mul, (Z.abs_eq (Z.abs num / _)) by done.
  destruct (Z.eq_dec num 0) as [->|].
  - rewrite Z.abs_0, Z.div_0_l in Hc by lia. rewrite Z.abs_0, Z.div_0_l, Z.mul_0_r by lia. done.
  - replace (Z.abs (Z.sgn num) * Z.abs (Z.sgn den)) with 1 by lia. by rewrite Z.mul_1_l.
Qed.

Lemma reduce_cross num den :
  den ≠ 0 → d_num (reduce num den) * den = num * d_den (reduce num den).
Proof.
  intros Hd. destruct (reduce_facts num den Hd) as (Hg & En & Ed & H0 & H1 & Hc).
  unfold reduce; cbn [d_num d_den].
  set (g := Z.gcd num den) in *. set (x := Z.abs num / g) in *. set (y := Z.abs den / g) in *.
  assert (num = Z.sgn num * (x * g)) as Hn by lia.
  assert (den = Z.sgn den * (y * g)) as Hdn by lia.
  assert (Z.sgn den * Z.sgn den = 1) as Hs by lia.
  generalize dependent (Z.sgn num); intros s Hn. generalize dependent (Z.sgn den); intros t Hdn Hs.
  rewrite Hn at 1. rewrite Hdn at 1.
  transitivity (t * t * (s * x * y * g)); [ring | rewrite Hs; ring].
Qed.

Lemma reduce_num_abs n d :
  d ≠ 0 → Z.abs (Z.sgn n * Z.sgn d * (Z.abs n / Z.gcd n d)) = Z.abs n / Z.gcd n d.
Proof.
  intros Hd. destruct (reduce_facts n d Hd) as (Hg & _ & _ & Hx & _).
  rewrite !Z.abs_mul, (Z.abs_eq (_ / _)) by done.
  destruct (Z.eq_dec n 0) as [->|]; [by rewrite Z.abs_0, Z.div_0_l, Z.mul_0_r by lia|].
  replace (Z.abs (Z.sgn n) * Z.abs (Z.sgn d)) with 1 by lia. lia.
Qed.

Section arith.
Context {U I : Type} `{!Wide128 U I, !Wide128Laws U I}.

Lemma from_i128_spec num den :
  w_iok num → w_iok den → w_ival den ≠ 0 →
  from_i128 num den =
    if decide (rational_fits (reduce (w_ival num) (w_ival den)))
    then Ok (reduce (w_ival num) (w_ival den)) else Err Overflow.
Proof.
  intros Hn Hd Hnz. unfold from_i128.
  destruct (wi_of_i64_law 0 ltac:(unfold in_i64; lia)) as [H0 E0].
  destruct (magnitude_i128_spec num Hn) as [Hmn Emn].
  destruct (magnitude_i128_spec den Hd) as [Hmd Emd].
  destruct (gcd_u128_spec _ _ Hmn Hmd) as [Hg Eg].
  rewrite Emn, Emd, Z.gcd_abs_l, Z.gcd_abs_r in Eg.
  destruct (reduce_facts (w_ival num) (w_ival den) Hnz) as (Hgp & _ & _ & Hx & Hy & _).
  destruct (wu_div_law _ _ Hmn Hg ltac:(rewrite Eg; lia)) as [Hdn Edn].
  destruct (wu_div_law _ _ Hmd Hg ltac:(rewrite Eg; lia)) as [Hdd Edd].
  rewrite Emn, Eg in Edn. rewrite Emd, Eg in Edd.
  destruct (wu_of_u64_law int64_max ltac:(unfold in_u64, int64_max; lia)) as [Hk Ek].
  rewrite !wi_ltb_law, !wu_ltb_law, Ek, E0, Edn, Edd by auto.
  unfold rational_fits, reduce; cbn [d_num d_den].
  pose proof (reduce_num_abs _ _ Hnz : Z.abs (Z.sgn (w_ival num) * _ * _) = _) as Ex.
  set (x := Z.abs (w_ival num) / _) in *. set (y := Z.abs (w_ival den) / _) in *.
  destruct (decide _) as [[Hf1 Hf2]|Hnf].
  - rewrite Ex in Hf1. unfold int64_max in *.
    replace (2 ^ 63 - 1 <? x) with false by lia. replace (2 ^ 63 - 1 <? y) with false by lia.
    cbn [orb]. rewrite !wu_to_i64_law, Edn, Edd by (auto; lia). do 2 f_equal.
    destruct (Z.ltb_spec (w_ival num) 0), (Z.ltb_spec (w_ival den) 0); cbn [xorb];
      rewrite ?i64_small by (unfold in_i64; lia); try lia.
  - destruct (Z.ltb_spec int64_max x); [done|].
    destruct (Z.ltb_spec int64_max y); [done|]. exfalso. apply Hnf. rewrite Ex. lia.
Qed.

Lemma in_i64_canonical r : canonical r → in_i64 (d_num r) ∧ in_i64 (d_den r).
Proof. unfold canonical, in_i64, int64_max. lia. Qed.

(** The exact product of two [int64] operands in 128 bits. *)
Lemma wi_mul_i64 x y :
  in_i64 x → in_i64 y →
  w_iok (wi_mul (wi_of_i64 x) (wi_of_i64 y)) ∧
  w_ival (wi_mul (wi_of_i64 x) (wi_of_i64 y)) = x * y ∧ Z.abs (x * y) <= 2 ^ 126.
Proof.
  intros Hx Hy. destruct (wi_of_i64_law x Hx) as [Hwx Ex], (wi_of_i64_law y Hy) as [Hwy Ey].
  assert (Z.abs (x * y) <= 2 ^ 126) by (rewrite Z.abs_mul; unfold in_i64 in *; nia).
  destruct (wi_mul_law _ _ Hwx Hwy) as [? E]; [rewrite Ex, Ey; unfold in_i128; lia|].
  rewrite E, Ex, Ey. done.
Qed.

Lemma int64_max_mul x y :
  Z.abs x <= int64_max → Z.abs y <= int64_max → Z.abs (x * y) < 2 ^ 126.
Proof. unfold int64_max. rewrite Z.abs_mul. nia. Qed.

Lemma rat_mul_spec x y :
  canonical x → canonical y →
  let r := reduce (d_num x * d_num y) (d_den x * d_den y) in
  rat_mul x y = if decide (rational_fits r) then Ok r else Err Overflow.
Proof.
  intros Hx Hy. destruct (in_i64_canonical x Hx), (in_i64_canonical y Hy).
  destruct Hx as (_ & Hdx & _), Hy as (_ & Hdy & _).
  assert (0 < d_den x * d_den y) as Hpos by (apply Z.mul_pos_pos; lia).
  destruct (wi_mul_i64 (d_num x) (d_num y)) as (? & En & _); [done..|].
  destruct (wi_mul_i64 (d_den x) (d_den y)) as (? & Ed & _); [done..|].
  unfold rat_mul. rewrite from_i128_spec, En, Ed by (auto; rewrite Ed; lia). done.
Qed.

Lemma rat_add_spec x y :
  canonical x → canonical y →
  let r := reduce (d_num x * d_den y + d_num y * d_den x) (d_den x * d_den y) in
  rat_add x y = if decide (rational_fits r) then Ok r else Err Overflow.
Proof.
  intros Hx Hy. destruct (in_i64_canonical x Hx), (in_i64_canonical y Hy).
  destruct Hx as (Hnx & Hdx & _), Hy as (Hny & Hdy & _).
  assert (0 < d_den x * d_den y) as Hpos by (apply Z.mul_pos_pos; lia).
  destruct (wi_mul_i64 (d_num x) (d_den y)) as (Hw1 & E1 & _); [done..|].
  destruct (wi_mul_i64 (d_num y) (d_den x)) as (Hw2 & E2 & _); [done..|].
  pose proof (int64_max_mul (d_num x) (d_den y) Hnx ltac:(lia)).
  pose proof (int64_max_mul (d_num y) (d_den x) Hny ltac:(lia)).
  destruct (wi_mul_i64 (d_den x) (d_den y)) as (? & Ed & _); [done..|].
  destruct (wi_add_law _ _ Hw1 Hw2) as [? Es]; [rewrite E1, E2; unfold in_i128; lia|].
  unfold rat_add. rewrite from_i128_spec, Es, Ed, E1, E2 by (auto; rewrite Ed; lia). done.
Qed.

Lemma reduce_value n d :
  0 < d → (rval (reduce n d) == Qmake n (Z.to_pos d))%Q.
Proof.
  intros Hd. destruct (reduce_facts n d ltac:(lia)) as (_ & _ & _ & _ & ? & _).
  apply rval_cross; [done | done |]. apply reduce_cross. lia.
Qed.

Lemma rat_mul_ok x y r :
  canonical x → canonical y → rat_mul x y = Ok r →
  canonical r ∧ (rval r == rval x * rval y)%Q.
Proof.
  intros Hx Hy. rewrite rat_mul_spec by done. destruct (decide _) as [Hf|]; [|done].
  intros [= <-]. destruct Hx as (_ & Hdx & _), Hy as (_ & Hdy & _).
  split; [apply reduce_canonical; [lia | done]|].
  rewrite reduce_value by lia. unfold rval, Qmult, Qeq; cbn [Qnum Qden].
  rewrite Z2Pos.inj_mul by lia. done.
Qed.

Lemma rat_add_ok x y r :
  canonical x → canonical y → rat_add x y = Ok r →
  canonical r ∧ (rval r == rval x + rval y)%Q.
Proof.
  intros Hx Hy. rewrite rat_add_spec by done. destruct (decide _) as [Hf|]; [|done].
  intros [= <-]. destruct Hx as (_ & Hdx & _), Hy as (_ & Hdy & _).
  split; [apply reduce_canonical; [lia | done]|].
  rewrite reduce_value by lia. unfold rval, Qplus, Qeq; cbn [Qnum Qden].
  rewrite Z2Pos.inj_mul, !Z2Pos.id by lia. done.
Qed.
End arith.

Lemma make_rational_spec num den :
  in_i64 num → in_i64 den → num ≠ int64_min → den ≠ int64_min → den ≠ 0 →
  make_rational num den = reduce num den ∧ canonical (make_rational num den).
Proof.
  unfold in_i64, int64_min. intros Hn Hd Hnm Hdm Hnz.
  assert (∀ v, - 2 ^ 63 < v < 2 ^ 63 → magnitude v = Z.abs v) as Hmag.
  { intros v Hv. unfold magnitude. destruct (Z.ltb_spec v 0); word_lia. }
  assert (make_rational num den = reduce num den ∧ rational_fits (reduce num den)) as [E Hf].
  { unfold make_rational. rewrite !Hmag, gcd_u64_spec by (try unfold in_u64; lia).
    rewrite Z.gcd_abs_l, Z.gcd_abs_r.
    destruct (reduce_facts num den Hnz) as (Hg & En & Ed & Hx & Hy & _).
    unfold reduce, rational_fits; cbn [d_num d_den]. pose proof (reduce_num_abs num den Hnz) as Ex.
    set (x := Z.abs num / _) in *. set (y := Z.abs den / _) in *.
    assert (x <= Z.abs num ∧ y <= Z.abs den) as [? ?] by nia.
    rewrite (i64_small x), (i64_small (- x)), (i64_small y) by (unfold in_i64; lia).
    rewrite Ex. unfold int64_max. split; [|lia]. f_equal.
    destruct (Z.ltb_spec num 0), (Z.ltb_spec den 0); cbn [xorb]; lia. }
  rewrite E. split; [done|]. by apply reduce_canonical.
Qed.

Lemma negated_spec r :
  canonical r → canonical (negated r) ∧ (rval (negated r) == - rval r)%Q
  ∧ d_num (negated r) = - d_num r ∧ d_den (negated r) = d_den r.
Proof.
  destruct r as [n d]. intros (Hn & Hd & Hg). unfold negated; cbn [d_num d_den] in *.
  unfold int64_max in *. rewrite i64_small by (unfold in_i64; lia).
  split_and!; [|done..]. unfold canonical, int64_max; cbn [d_num d_den].
  rewrite Z.gcd_opp_l. lia.
Qed.

(** ** Rounding *)

(** Round the exact quotient [n / d] to the nearest integer, ties to even. *)
Definition round_half_even (n d : Z) : Z :=
  let q := n / d in
  let r := n mod d in
  if (d <? 2 * r) || ((2 * r =? d) && Z.odd q) then q + 1 else q.

(** [q] is the nearest integer to [n / d], the even one of two equally near. *)
Definition nearest_even (n d q : Z) : Prop :=
  2 * Z.abs (q * d - n) <= d ∧ (2 * Z.abs (q * d - n) = d → Z.even q = true).

Lemma round_half_even_nearest n d : 0 < d → nearest_even n d (round_half_even n d).
Proof.
  intros Hd. unfold round_half_even, nearest_even.
  pose proof (Z.div_mod n d ltac:(lia)) as E. pose proof (Z.mod_pos_bound n d Hd) as Hr.
  set (q := n / d) in *. set (r := n mod d) in *.
  assert (q * d - n = - r) as Eq by lia. assert ((q + 1) * d - n = d - r) as Eq1 by lia.
  destruct (Z.ltb_spec d (2 * r)); cbn [orb].
  { rewrite Eq1. split; [lia|]. intros. lia. }
  destruct (Z.eqb_spec (2 * r) d); cbn [andb].
  - destruct (Z.odd q) eqn:Ho.
    + rewrite Eq1. split; [lia|]. intros _. by rewrite Z.add_1_r, Z.even_succ.
    + rewrite Eq. split; [lia|]. intros _. by rewrite <- Z.negb_odd, Ho.
  - rewrite Eq. split; [lia|]. intros. lia.
Qed.

Lemma nearest_even_unique n d q1 q2 :
  0 < d → nearest_even n d q1 → nearest_even n d q2 → q1 = q2.
Proof.
  intros Hd [H1 E1] [H2 E2].
  assert (Z.abs (q1 - q2) <= 1) as Hc by nia.
  destruct (Z.eq_dec q1 q2) as [|Hne]; [done|].
  assert (2 * Z.abs (q1 * d - n) = d ∧ 2 * Z.abs (q2 * d - n) = d) as [F1 F2] by nia.
  specialize (E1 F1). specialize (E2 F2).
  apply Z.even_spec in E1 as [x ->]. apply Z.even_spec in E2 as [y ->]. lia.
Qed.

Lemma floor_of_trunc n d :
  0 < d →
  (if Z.rem n d <? 0 then (Z.quot n d - 1, Z.rem n d + d) else (Z.quot n d, Z.rem n d))
  = (n / d, n mod d).
Proof.
  intros Hd. pose proof (Z.quot_rem' n d) as E. pose proof (Z.rem_bound_abs n d ltac:(lia)).
  set (q := Z.quot n d) in *. set (r := Z.rem n d) in *.
  destruct (Z.ltb_spec r 0).
  - f_equal; [apply Z.div_unique with (r + d) | apply Z.mod_unique with (q - 1)]; lia.
  - f_equal; [apply Z.div_unique with r | apply Z.mod_unique with q]; lia.
Qed.

(** ** Composed maps *)

Definition canonical_map (m : ComposedTimeMap) : Prop := canonical (cm_a m) ∧ canonical (cm_b m).

(** The exact affine value of a composed map at a rational instant. *)
Definition mval (m : ComposedTimeMap) (p : Q) : Q := (rval (cm_a m) * p + rval (cm_b m))%Q.

(** The edge's exact local time [(p - in) * rate + offset]. *)
Definition edge_val (e : TimeMap) (p : Q) : Q :=
  ((p - inject_Z (flicks (tm_in e))) * rval (tm_rate e) + inject_Z (flicks (tm_offset e)))%Q.

(** A well-formed edge: a canonical rate and instants the [Rational] constructor
    admits. *)
Definition edge_ok (e : TimeMap) : Prop :=
  canonical (tm_rate e)
  ∧ in_i64 (flicks (tm_in e)) ∧ flicks (tm_in e) ≠ int64_min
  ∧ in_i64 (flicks (tm_offset e)) ∧ flicks (tm_offset e) ≠ int64_min.

Lemma canonical_identity : canonical_map composed_identity.
Proof. by split; vm_compute. Qed.

Lemma make_rational_int z :
  in_i64 z → z ≠ int64_min →
  canonical (make_rational z 1) ∧ (rval (make_rational z 1) == inject_Z z)%Q.
Proof.
  intros Hz Hm. destruct (make_rational_spec z 1) as [E Hc];
    [done | unfold in_i64; lia | done | unfold int64_min; lia | lia |].
  split; [exact Hc|]. rewrite E. exact (reduce_value z 1 ltac:(lia)).
Qed.

Section compose.
Context {U I : Type} `{!Wide128 U I, !Wide128Laws U I}.
Let cfrom := composed_from (U := U) (I := I).
Let cand := and_then (U := U) (I := I).
Let ceval := evaluate (U := U) (I := I).

Lemma composed_from_ok e m :
  edge_ok e → cfrom e = Ok m →
  canonical_map m ∧ cm_a m = tm_rate e ∧ ∀ p, (mval m p == edge_val e p)%Q.
Proof.
  intros (Hr & Hi & Him & Ho & Hom). unfold cfrom, composed_from.
  intros (s & Es & (b & Eb & [= <-])%expected_bind_ok)%expected_bind_ok.
  destruct (make_rational_int _ Hi Him) as [Hci Vi].
  destruct (make_rational_int _ Ho Hom) as [Hco Vo].
  apply rat_mul_ok in Es as [Hs Vs]; [|assumption..].
  destruct (negated_spec s Hs) as (Hn & Vn & _).
  apply rat_add_ok in Eb as [Hb Vb]; [|assumption..].
  split_and!; [by split | done |].
  intros p. unfold mval, edge_val. cbn [cm_a cm_b]. rewrite Vb, Vo, Vn, Vs, Vi. ring.
Qed.

Lemma and_then_ok x y m :
  canonical_map x → canonical_map y → cand x y = Ok m →
  canonical_map m ∧ ∀ p, (mval m p == mval y (mval x p))%Q.
Proof.
  intros [Hax Hbx] [Hay Hby]. unfold cand, and_then.
  intros (na & Ea & (s & Es & (nb & Eb & [= <-])%expected_bind_ok)%expected_bind_ok)%expected_bind_ok.
  apply rat_mul_ok in Ea as [Ha Va]; [|assumption..].
  apply rat_mul_ok in Es as [Hs Vs]; [|assumption..].
  apply rat_add_ok in Eb as [Hb Vb]; [|assumption..].
  split; [by split|]. intros p. unfold mval. cbn [cm_a cm_b]. rewrite Va, Vb, Vs. ring.
Qed.

Lemma composed_then_ok x e m :
  canonical_map x → edge_ok e → composed_then (U := U) (I := I) x e = Ok m →
  canonical_map m ∧ ∀ p, (mval m p == edge_val e (mval x p))%Q.
Proof.
  intros Hx He. unfold composed_then.
  intros (s & Es & Em)%expected_bind_ok.
  destruct (composed_from_ok e s He Es) as (Hs & _ & Vs).
  destruct (and_then_ok x s m Hx Hs Em) as [Hm Vm].
  split; [done|]. intros p. by rewrite Vm, Vs.
Qed.

#[local] Instance mval_proper m : Proper (Qeq ==> Qeq) (mval m).
Proof. intros p q E. unfold mval. by rewrite E. Qed.
#[local] Instance edge_val_proper e : Proper (Qeq ==> Qeq) (edge_val e).
Proof. intros p q E. unfold edge_val. by rewrite E. Qed.

(** The edge stack's exact value, root-most edge applied first. *)
Definition stack_val (edges : list TimeMap) (p : Q) : Q :=
  fold_left (fun p e => edge_val e p) edges p.

#[local] Instance stack_val_proper edges : Proper (Qeq ==> Qeq) (stack_val edges).
Proof.
  unfold stack_val. induction edges as [|e edges IH]; intros p q E; [done|].
  cbn. apply IH. by rewrite E.
Qed.

Lemma compose_loop_ok acc edges m :
  canonical_map acc → Forall edge_ok edges →
  compose_loop (U := U) (I := I) acc edges = Ok m →
  canonical_map m ∧ ∀ p, (mval m p == stack_val edges (mval acc p))%Q.
Proof.
  revert acc. induction edges as [|e edges IH]; intros acc Ha He; cbn [compose_loop].
  - by intros [= <-].
  - apply Forall_cons in He as [He Hes].
    intros (n & En & Em)%expected_bind_ok.
    destruct (composed_then_ok acc e n Ha He En) as [Hn Vn].
    destruct (IH n Hn Hes Em) as [Hm Vm]. split; [done|].
    intros p. rewrite Vm. change (stack_val (e :: edges) (mval acc p))
      with (stack_val edges (edge_val e (mval acc p))). by rewrite Vn.
Qed.

(** Two canonical maps with the same affine value are equal. *)
Lemma canonical_map_unique m n :
  canonical_map m → canonical_map n → (∀ p, (mval m p == mval n p)%Q) → m = n.
Proof.
  destruct m as [a b], n as [c d]. intros [Ha Hb] [Hc Hd] E. unfold mval in E.
  cbn [cm_a cm_b] in *.
  assert (rval b == rval d)%Q as Eb.
  { specialize (E 0%Q). rewrite !Qmult_0_r, !Qplus_0_l in E. done. }
  assert (rval a == rval c)%Q as Ea.
  { specialize (E 1%Q). rewrite !Qmult_1_r, Eb in E. by apply Qplus_inj_r in E. }
  f_equal; by apply canonical_unique.
Qed.
End compose.

(** ** The leaf evaluation *)

(** The exact numerator and denominator of [a * t + b]. *)
Definition eval_num (m : ComposedTimeMap) (t : Z) : Z :=
  d_num (cm_a m) * t * d_den (cm_b m) + d_num (cm_b m) * d_den (cm_a m).
Definition eval_den (m : ComposedTimeMap) : Z := d_den (cm_a m) * d_den (cm_b m).

Lemma eval_den_bounds m : canonical_map m → 0 < eval_den m < 2 ^ 126.
Proof.
  intros [(_ & Ha & _) (_ & Hb & _)]. unfold eval_den, int64_max in *.
  split; [apply Z.mul_pos_pos; lia | nia].
Qed.

Section evaluate.
Context {U I : Type} `{!Wide128 U I, !Wide128Laws U I}.

(** The wide value [x] stands for the integer [v]. *)
Definition denotes (x : I) (v : Z) : Prop := w_iok x ∧ w_ival x = v.

Lemma denotes_i64 v : in_i64 v → denotes (wi_of_i64 v) v.
Proof. apply wi_of_i64_law. Qed.
Lemma denotes_add x y u v :
  denotes x u → denotes y v → in_i128 (u + v) → denotes (wi_add x y) (u + v).
Proof. intros [? <-] [? <-]. by apply wi_add_law. Qed.
Lemma denotes_mul x y u v :
  denotes x u → denotes y v → in_i128 (u * v) → denotes (wi_mul x y) (u * v).
Proof. intros [? <-] [? <-]. by apply wi_mul_law. Qed.
Lemma denotes_ltb x y u v : denotes x u → denotes y v → wi_ltb x y = (u <? v).
Proof. intros [? <-] [? <-]. by apply wi_ltb_law. Qed.
Lemma denotes_eqb x y u v : denotes x u → denotes y v → wi_eqb x y = (u =? v).
Proof. intros [? <-] [? <-]. by apply wi_eqb_law. Qed.

(** The correction of truncated to floor division. *)
Lemma eval_floor n d N D :
  denotes n N → denotes d D → 0 < D < 2 ^ 126 → in_i128 N →
  let q := wi_div n d in
  let r := wi_mod n d in
  let '(q', r') := if wi_ltb r (wi_of_i64 0)
                   then (wi_add q (wi_of_i64 (-1)), wi_add r d) else (q, r) in
  denotes q' (N / D) ∧ denotes r' (N mod D).
Proof.
  intros [Hn En] [Hd Ed] HD HN q r.
  assert (in_i128 (Z.quot N D)) as Hq128.
  { unfold in_i128 in *. pose proof (Z.quot_rem' N D). pose proof (Z.rem_bound_abs N D ltac:(lia)).
    destruct (Z.le_gt_cases 0 N);
      [pose proof (Z.quot_pos N D ltac:(lia) ltac:(lia)) |
       pose proof (Z.quot_opp_l N D ltac:(lia));
       pose proof (Z.quot_pos (- N) D ltac:(lia) ltac:(lia));
       pose proof (Z.rem_opp_l N D ltac:(lia));
       pose proof (Z.rem_bound_pos (- N) D ltac:(lia) ltac:(lia))]; nia. }
  assert (denotes q (Z.quot N D)) as Hq.
  { unfold denotes. rewrite <- En, <- Ed in *. apply wi_div_law; auto; lia. }
  assert (denotes r (Z.rem N D)) as Hr.
  { unfold denotes. rewrite <- En, <- Ed in *. apply wi_mod_law; auto; lia. }
  pose proof (floor_of_trunc N D ltac:(lia)) as Hf.
  rewrite (denotes_ltb r _ _ 0 Hr) by (apply denotes_i64; unfold in_i64; lia).
  pose proof (Z.rem_bound_abs N D ltac:(lia)).
  destruct (Z.ltb_spec (Z.rem N D) 0); injection Hf as <- <-; [|done].
  assert (Z.quot N D <= 0 ∧ - 2 ^ 127 < Z.quot N D) as [? ?].
  { pose proof (Z.quot_rem' N D). unfold in_i128 in *.
    destruct (Z.le_gt_cases 0 N); [pose proof (Z.rem_nonneg N D ltac:(lia)); lia|]. nia. }
  split; [apply (denotes_add _ _ (Z.quot N D) (-1)) | apply denotes_add]; try done;
    unfold in_i128; try lia. apply denotes_i64. unfold in_i64. lia.
Qed.

(** The tie-to-even step. *)
Lemma eval_round q r d Q R D :
  denotes q Q → denotes r R → denotes d D →
  0 < D < 2 ^ 126 → 0 <= R < D → - 2 ^ 127 <= Q → Q * D < 2 ^ 127 →
  let twice := wi_mul (wi_of_i64 2) r in
  denotes (if wi_ltb d twice || (wi_eqb twice d && negb (wi_and1 q =? 0))
           then wi_add q (wi_of_i64 1) else q)
          (if (D <? 2 * R) || ((2 * R =? D) && Z.odd Q) then Q + 1 else Q).
Proof.
  intros Hq Hr Hd HD HR HQ HQ' twice.
  assert (denotes twice (2 * R)) as Ht.
  { apply denotes_mul; [apply denotes_i64; unfold in_i64; lia | done | unfold in_i128; lia]. }
  rewrite (denotes_ltb d twice D (2 * R)), (denotes_eqb twice d (2 * R) D) by done.
  assert (negb (wi_and1 q =? 0) = Z.odd Q) as ->.
  { destruct Hq as [Hq <-]. rewrite wi_and1_law by done. rewrite Zmod_odd.
    by destruct (Z.odd _). }
  destruct ((D <? 2 * R) || ((2 * R =? D) && Z.odd Q)) eqn:E; [|done].
  assert (2 <= D).
  { destruct (Z.ltb_spec D (2 * R)); [lia|]. cbn in E. bool_to_prop. lia. }
  apply denotes_add; [done | apply denotes_i64; unfold in_i64; lia |].
  unfold in_i128. nia.
Qed.

Lemma evaluate_spec m t :
  canonical_map m → in_i64 t →
  let n := eval_num m t in
  let q := round_half_even n (eval_den m) in
  evaluate m (mkTime t) =
    if decide (in_i128 (d_num (cm_a m) * t * d_den (cm_b m)) ∧ in_i128 n ∧ in_i64 q)
    then Ok (mkTime q) else Err Overflow.
Proof.
  intros Hm Ht n q. pose proof (eval_den_bounds m Hm) as HD.
  destruct Hm as [Ha Hb]. destruct (in_i64_canonical _ Ha) as [Han Had].
  destruct (in_i64_canonical _ Hb) as [Hbn Hbd].
  destruct Ha as (Hna & Hda & _), Hb as (Hnb & Hdb & _).
  destruct (wi_mul_i64 (U := U) (I := I) _ t Han Ht) as (Hwt & Ewt & _).
  destruct (wi_mul_i64 (U := U) (I := I) _ _ Hbn Had) as (Hwb & Ewb & _).
  destruct (wi_mul_i64 (U := U) (I := I) _ _ Had Hbd) as (Hwd & Ewd & _).
  destruct (wi_of_i64_law (U := U) (I := I) _ Hbd) as [Hbd' Ebd].
  pose proof (wi_mul_overflow_law (U := U) _ _ Hwt Hbd'
    ltac:(rewrite Ebd; unfold int64_max in *; lia)) as Hov.
  unfold evaluate. cbn [flicks]. rewrite Ewt, Ebd in Hov.
  destruct (wi_mul_overflow _ _) as [term|]; [|destruct (decide _); [tauto|done]].
  destruct Hov as (Hterm & Eterm & Hin).
  pose proof (wi_add_overflow_law (U := U) _ _ Hterm Hwb) as Hao.
  rewrite Eterm, Ewb in Hao. change (_ + _) with n in Hao.
  destruct (wi_add_overflow _ _) as [ov wn]. destruct Hao as (Hwn & En & Eov).
  destruct ov; [destruct (decide _) as [(_ & Hd & _)|]; [|done]; destruct Eov as [_ Eov]; by apply Eov in Hd|].
  assert (in_i128 n) as Hn by tauto. rewrite i128_small in En by done.
  pose proof (eval_floor wn _ n (eval_den m) (conj Hwn En) (conj Hwd Ewd) HD Hn) as Hfl.
  cbn zeta in Hfl. destruct (if wi_ltb (wi_mod _ _) _ then _ else _) as [wq wr].
  destruct Hfl as [Hwq Hwr].
  pose proof (Z.mod_pos_bound n (eval_den m) ltac:(lia)) as HR.
  pose proof (Z.div_mod n (eval_den m) ltac:(lia)) as Hdm. unfold in_i128 in Hn.
  assert (- 2 ^ 127 <= n / eval_den m) as HQ by (apply Z.div_le_lower_bound; lia).
  assert (n / eval_den m * eval_den m < 2 ^ 127) as HQ'.
  { apply Z.le_lt_trans with n; [|apply Hn]. rewrite Z.mul_comm. apply Z.mul_div_le. lia. }
  pose proof (eval_round wq wr _ _ _ _ Hwq Hwr (conj Hwd Ewd) HD HR HQ HQ') as Hrd.
  cbn zeta in Hrd. match type of Hrd with denotes ?w _ => set (wq' := w) in * end.
  change (denotes wq' q) in Hrd.
  rewrite (denotes_ltb _ wq' int64_max q), (denotes_ltb wq' _ q int64_min)
    by (try done; apply denotes_i64; unfold in_i64, int64_max, int64_min; lia).
  unfold int64_max, int64_min. destruct Hrd as [Hok Eq].
  destruct (decide _) as [(_ & _ & Hq)|Hnd].
  - replace (2 ^ 63 - 1 <? q) with false by (unfold in_i64 in Hq; lia).
    replace (q <? - 2 ^ 63) with false by (unfold in_i64 in Hq; lia). cbn [orb].
    rewrite wi_to_i64_law, Eq by (rewrite ?Eq; done). done.
  - destruct (Z.ltb_spec (2 ^ 63 - 1) q); [done|].
    destruct (Z.ltb_spec q (- 2 ^ 63)); [done|].
    exfalso. apply Hnd. split_and!; [done..|]. unfold in_i64. lia.
Qed.
End evaluate.

(** The rounded result is within half a flick of the exact rational value. *)
Lemma nearest_even_within n d q :
  0 < d → nearest_even n d q →
  (Qabs (Qmake n (Z.to_pos d) - inject_Z q) <= 1 # 2)%Q.
Proof.
  intros Hd [H _]. unfold Qabs, Qle, Qminus, Qplus, Qopp, inject_Z. cbn [Qnum Qden].
  rewrite Pos.mul_1_r, Z2Pos.id by lia. lia.
Qed.

Lemma eval_exact m t :
  canonical_map m →
  (Qmake (eval_num m t) (Z.to_pos (eval_den m)) == mval m (inject_Z t))%Q.
Proof.
  intros [(_ & Ha & _) (_ & Hb & _)]. unfold mval, rval, eval_num, eval_den, inject_Z.
  unfold Qeq, Qplus, Qmult; cbn [Qnum Qden].
  rewrite Pos.mul_1_r, Z2Pos.inj_mul, Pos2Z.inj_mul, !Z2Pos.id by lia. ring.
Qed.

Section timemap_properties.
Context {U I : Type} `{!Wide128 U I, !Wide128Laws U I}.

(** [Rational::mul] and [Rational::add] on canonical operands are exact:
    the result is canonical with the exact product or sum, and the only failure
    is [TimeError::Overflow], returned exactly when the lowest-terms result
    does not fit the [int64] numerator and denominator. *)
Theorem rational_arithmetic_exact (x y : Rational) (Hx : canonical x) (Hy : canonical y) :
  (∀ r, rat_mul x y = Ok r → canonical r ∧ (rval r == rval x * rval y)%Q) ∧
  (∀ r, rat_add x y = Ok r → canonical r ∧ (rval r == rval x + rval y)%Q) ∧
  (rat_mul x y = Err Overflow ↔
     ¬ rational_fits (reduce (d_num x * d_num y) (d_den x * d_den y))) ∧
  (rat_add x y = Err Overflow ↔
     ¬ rational_fits (reduce (d_num x * d_den y + d_num y * d_den x) (d_den x * d_den y))).
Proof.
  split_and!.
  - intros r. by apply rat_mul_ok.
  - intros r. by apply rat_add_ok.
  - rewrite rat_mul_spec by done. by destruct (decide _).
  - rewrite rat_add_spec by done. by destruct (decide _).
Qed.

(** C23: a whole edge stack is composed without rounding and rounded once, at
    the leaf: when composing [edges] and evaluating at [t] succeed, the
    composed map's value is the exact rational value of the stack at every
    instant, and the returned flick count is the nearest integer to it at [t],
    at most half a flick away, even on a tie. *)
Theorem compose_rounds_once (edges : list TimeMap) (m : ComposedTimeMap) (t q : Z)
  (He : Forall edge_ok edges) (Ht : in_i64 t)
  (Hc : compose (U := U) (I := I) edges = Ok m)
  (Hq : evaluate m (mkTime t) = Ok (mkTime q)) :
  canonical_map m ∧
  (∀ p, (mval m p == stack_val edges p)%Q) ∧
  (Qabs (stack_val edges (inject_Z t) - inject_Z q) <= 1 # 2)%Q ∧
  nearest_even (eval_num m t) (eval_den m) q.
Proof.
  destruct (compose_loop_ok composed_identity edges m canonical_identity He Hc) as [Hm Vm].
  assert (∀ p, (mval m p == stack_val edges p)%Q) as Hv.
  { intros p. rewrite Vm. apply stack_val_proper. unfold mval, composed_identity, rval; cbn. ring. }
  rewrite evaluate_spec in Hq by done. destruct (decide _); [|done]. injection Hq as <-.
  pose proof (eval_den_bounds m Hm) as HD.
  pose proof (round_half_even_nearest (eval_num m t) (eval_den m) ltac:(lia)) as Hn.
  split_and!; [done..| |done].
  rewrite <- Hv, <- eval_exact by done. apply nearest_even_within; [lia | done].
Qed.

(** composition of accumulators is associative, so how a chain is grouped
    does not change the composed map (when neither grouping overflows). *)
Theorem and_then_assoc (x y z xy yz l r : ComposedTimeMap)
  (Hx : canonical_map x) (Hy : canonical_map y) (Hz : canonical_map z)
  (Hxy : and_then (U := U) (I := I) x y = Ok xy) (Hl : and_then (U := U) (I := I) xy z = Ok l)
  (Hyz : and_then (U := U) (I := I) y z = Ok yz) (Hr : and_then (U := U) (I := I) x yz = Ok r) :
  l = r.
Proof.
  destruct (and_then_ok x y xy Hx Hy Hxy) as [Hcxy Vxy].
  destruct (and_then_ok y z yz Hy Hz Hyz) as [Hcyz Vyz].
  destruct (and_then_ok xy z l Hcxy Hz Hl) as [Hcl Vl].
  destruct (and_then_ok x yz r Hx Hcyz Hr) as [Hcr Vr].
  apply canonical_map_unique; [done..|]. intros p.
  rewrite Vl, Vr, Vyz. unfold mval at 1 3. by rewrite Vxy.
Qed.

(** evaluation is sign-symmetric, so reverse playback is unbiased:
    negating a map negates its rounded value. *)
Theorem evaluate_negated (m : ComposedTimeMap) (t q q' : Z)
  (Hm : canonical_map m) (Ht : in_i64 t)
  (Hq : evaluate (U := U) (I := I) m (mkTime t) = Ok (mkTime q))
  (Hq' : evaluate (U := U) (I := I)
           (mkComposed (negated (cm_a m)) (negated (cm_b m))) (mkTime t) = Ok (mkTime q')) :
  q' = - q.
Proof.
  destruct (negated_spec _ (proj1 Hm)) as (Hna & _ & Ean & Ead).
  destruct (negated_spec _ (proj2 Hm)) as (Hnb & _ & Ebn & Ebd).
  set (m' := mkComposed _ _) in *. assert (canonical_map m') as Hm' by (split; done).
  rewrite evaluate_spec in Hq, Hq' by done.
  destruct (decide _); [|done]. injection Hq as <-.
  destruct (decide _); [|done]. injection Hq' as <-.
  pose proof (eval_den_bounds m Hm) as HD.
  assert (eval_num m' t = - eval_num m t) as ->
    by (unfold eval_num, m'; cbn [cm_a cm_b]; rewrite Ean, Ead, Ebn, Ebd; ring).
  assert (eval_den m' = eval_den m) as ->
    by (unfold eval_den, m'; cbn [cm_a cm_b]; by rewrite Ead, Ebd).
  apply nearest_even_unique with (- eval_num m t) (eval_den m); [lia | by apply round_half_even_nearest; lia |].
  destruct (round_half_even_nearest (eval_num m t) (eval_den m) ltac:(lia)) as [Ha He].
  unfold nearest_even. rewrite Z.even_opp.
  replace (- round_half_even (eval_num m t) (eval_den m) * eval_den m - - eval_num m t)
    with (- (round_half_even (eval_num m t) (eval_den m) * eval_den m - eval_num m t)) by ring.
  by rewrite Z.abs_opp.
Qed.
End timemap_properties.

(** the two builds agree: the portable 128-bit structs and native
    [__int128] give the same [Rational] products and sums and the same evaluated
    flick counts, overflow errors included. *)
Theorem portable_native_agree (x y : Rational) (m : ComposedTimeMap) (t : Z)
  (Hx : canonical x) (Hy : canonical y) (Hm : canonical_map m) (Ht : in_i64 t) :
  rat_mul (U := rational_u128) (I := rational_i128) x y = rat_mul (U := Z) (I := Z) x y ∧
  rat_add (U := rational_u128) (I := rational_i128) x y = rat_add (U := Z) (I := Z) x y ∧
  evaluate (U := rational_u128) (I := rational_i128) m (mkTime t)
    = evaluate (U := Z) (I := Z) m (mkTime t).
Proof.
  split_and!.
  - by rewrite !rat_mul_spec.
  - by rewrite !rat_add_spec.
  - by rewrite !evaluate_spec.
Qed.

(** *** Witnesses *)

Definition demo_rate : Rational := mkRational 24000 1001.
Definition demo_edge : TimeMap := mkTimeMap (mkTime 10) demo_rate (mkTime (-3)).
Definition demo_map : ComposedTimeMap := mkComposed demo_rate (mkRational (-7) 2).

Lemma demo_rate_canonical : canonical demo_rate.
Proof. apply (bool_decide_unpack _). vm_compute. exact I. Qed.

Lemma demo_map_canonical : canonical_map demo_map.
Proof. split; apply (bool_decide_unpack _); vm_compute; exact I. Qed.

Lemma demo_edge_ok : edge_ok demo_edge.
Proof.
  split; [apply demo_rate_canonical|]. unfold in_i64, int64_min; cbn. lia.
Qed.

Lemma compose_rounds_once_witness :
  ∃ m q, compose (U := Z) (I := Z) [demo_edge; demo_edge] = Ok m ∧
    evaluate (U := Z) (I := Z) m (mkTime 11) = Ok (mkTime q) ∧
    nearest_even (eval_num m 11) (eval_den m) q.
Proof.
  eexists _, _. split; [vm_compute; reflexivity|]. split; [vm_compute; reflexivity|].
  eapply (compose_rounds_once (U := Z) (I := Z) [demo_edge; demo_edge] _ 11 _);
    [exact (Forall_cons_2 _ _ _ demo_edge_ok (Forall_cons_2 _ _ _ demo_edge_ok (Forall_nil_2 _)))
    | unfold in_i64; lia | vm_compute; reflexivity | vm_compute; reflexivity].
Defined.

Definition demo_map2 : ComposedTimeMap :=
  mkComposed (mkRational 576000000 1002001) (mkRational (-25001) 286).
Definition demo_map3 : ComposedTimeMap :=
  mkComposed (mkRational 13824000000000 1003003001) (mkRational (-601026001) 286286).
