(* ===== verification/Sha256.v ===== *)
(** SHA-256 and its hex form: [src/src/base/sha256.cpp].

    A byte is a [Z] in [[0, 256)], a 32-bit word a [Z] in [[0, 2^32)].  The block
    function, the block loop, the hand-built tail and the hex printer follow the
    code; the file shows that the tail construction is the FIPS 180-4 padding, so
    that the digest is the iterated compression of the padded message, and that
    blob names are injective in the digest bytes they print. *)

From Stdlib Require Import Ascii.
From S2P Require Import Prelude.

Local Open Scope Z_scope.

(** ** The code *)

(** A row of the constant table: the [n] 32-bit words of one number, most
    significant first. *)
Fixpoint words (n : nat) (z : Z) : list Z :=
  match n with
  | O => []
  | S n => u32 (Z.shiftr z (32 * Z.of_nat n)) :: words n z
  end.

(** [k_round], one row of the source's table a line. *)
Definition k_round : list Z :=
  words 7 0x428a2f9871374491b5c0fbcfe9b5dba53956c25b59f111f1923f82a4 ++
  words 7 0xab1c5ed5d807aa9812835b01243185be550c7dc372be5d7480deb1fe ++
  words 7 0x9bdc06a7c19bf174e49b69c1efbe47860fc19dc6240ca1cc2de92c6f ++
  words 7 0x4a7484aa5cb0a9dc76f988da983e5152a831c66db00327c8bf597fc7 ++
  words 7 0xc6e00bf3d5a7914706ca63511429296727b70a852e1b21384d2c6dfc ++
  words 7 0x53380d13650a7354766a0abb81c2c92e92722c85a2bfe8a1a81a664b ++
  words 7 0xc24b8b70c76c51a3d192e819d6990624f40e3585106aa07019a4c116 ++
  words 7 0x1e376c082748774c34b0bcb5391c0cb34ed8aa4a5b9cca4f682e6ff3 ++
  words 7 0x748f82ee78a5636f84c878148cc7020890befffaa4506cebbef9a3f7 ++
  words 1 0xc67178f2.

Definition rotr (x n : Z) : Z := Z.lor (Z.shiftr x n) (u32 (Z.shiftl x (32 - n))).

(** [State]: the eight chaining words; [working] the round variables [a .. h]. *)
Record State := mkState { sa : Z; sb : Z; sc : Z; sd : Z; se : Z; sf : Z; sg : Z; sh : Z }.

Definition initial_state : State :=
  mkState 0x6a09e667 0xbb67ae85 0x3c6ef372 0xa54ff53a
          0x510e527f 0x9b05688c 0x1f83d9ab 0x5be0cd19.

Definition at_idx (l : list Z) (i : nat) : Z := nth i l 0.

(** The first sixteen schedule words: big-endian loads from the block. *)
Definition load_word (block : list Z) (t : nat) : Z :=
  Z.lor (Z.lor (Z.lor (u32 (Z.shiftl (at_idx block (t * 4)) 24))
                      (u32 (Z.shiftl (at_idx block (t * 4 + 1)) 16)))
               (u32 (Z.shiftl (at_idx block (t * 4 + 2)) 8)))
        (at_idx block (t * 4 + 3)).

Definition sigma0 (x : Z) : Z := Z.lxor (Z.lxor (rotr x 7) (rotr x 18)) (Z.shiftr x 3).
Definition sigma1 (x : Z) : Z := Z.lxor (Z.lxor (rotr x 17) (rotr x 19)) (Z.shiftr x 10).

(** The loop [for (t = 16; t < 64; ++t)]: [w] grows by one word a round. *)
Definition schedule_step (w : list Z) (t : nat) : list Z :=
  let s0 := sigma0 (at_idx w (t - 15)) in
  let s1 := sigma1 (at_idx w (t - 2)) in
  w ++ [u32 (at_idx w (t - 16) + s0 + at_idx w (t - 7) + s1)].

Definition schedule (block : list Z) : list Z :=
  foldl schedule_step (map (load_word block) (seq 0 16)) (seq 16 48).

(** One round of the compression loop. *)
Definition round_step (w : list Z) (s : State) (t : nat) : State :=
  let '(mkState a b c d e f g h) := s in
  let big_s1 := Z.lxor (Z.lxor (rotr e 6) (rotr e 11)) (rotr e 25) in
  let ch := Z.lxor (Z.land e f) (Z.land (2 ^ 32 - 1 - e) g) in
  let t1 := u32 (h + big_s1 + ch + at_idx k_round t + at_idx w t) in
  let big_s0 := Z.lxor (Z.lxor (rotr a 2) (rotr a 13)) (rotr a 22) in
  let maj := Z.lxor (Z.lxor (Z.land a b) (Z.land a c)) (Z.land b c) in
  let t2 := u32 (big_s0 + maj) in
  mkState (u32 (t1 + t2)) a b c (u32 (d + t1)) e f g.

Definition compress (s : State) (block : list Z) : State :=
  let w := schedule block in
  let '(mkState a b c d e f g h) := foldl (round_step w) s (seq 0 64) in
  mkState (u32 (sa s + a)) (u32 (sb s + b)) (u32 (sc s + c)) (u32 (sd s + d))
          (u32 (se s + e)) (u32 (sf s + f)) (u32 (sg s + g)) (u32 (sh s + h)).

(** [for (; at + 64 <= n; at += 64) compress(s, p + at)]; the fuel is the data
    length, more than the number of whole blocks. *)
Fixpoint block_loop (fuel : nat) (data : list Z) (pos : nat) (s : State) : nat * State :=
  match fuel with
  | O => (pos, s)
  | S fuel =>
    if (pos + 64 <=? length data)%nat
    then block_loop fuel data (pos + 64) (compress s (take 64 (drop pos data)))
    else (pos, s)
  end.

(** The 128-byte tail buffer: [memcpy] of the remainder, the 0x80 byte, and the
    bit length in the last eight bytes of the last tail block. *)
Definition tail_blocks (rest : nat) : nat := if (rest + 1 + 8 <=? 64)%nat then 1 else 2.

Definition length_byte (bits : Z) (i : nat) : Z :=
  Z.land (Z.shiftr bits (56 - Z.of_nat i * 8)) 0xFF.

Definition build_tail (remainder : list Z) (n : nat) : list Z :=
  let rest := length remainder in
  let tail := remainder ++ replicate (128 - rest) 0 in
  let tail := <[rest := 0x80]> tail in
  let bits := u64 (Z.of_nat n * 8) in
  let len_at := (tail_blocks rest * 64 - 8)%nat in
  foldl (fun tail i => <[(len_at + i)%nat := length_byte bits i]> tail) tail (seq 0 8).

Definition word_bytes (x : Z) : list Z :=
  [Z.land (Z.shiftr x 24) 0xFF; Z.land (Z.shiftr x 16) 0xFF;
   Z.land (Z.shiftr x 8) 0xFF; Z.land x 0xFF].

Definition state_words (s : State) : list Z :=
  [sa s; sb s; sc s; sd s; se s; sf s; sg s; sh s].

Definition sha256 (data : list Z) : list Z :=
  let n := length data in
  let '(pos, s) := block_loop n data 0 initial_state in
  let rest := (n - pos)%nat in
  let tail := build_tail (take rest (drop pos data)) n in
  let s := foldl (fun s b => compress s (take 64 (drop (b * 64) tail))) s
                 (seq 0 (tail_blocks rest)) in
  concat (map word_bytes (state_words s)).

Definition k_hex : list ascii :=
  ["0"; "1"; "2"; "3"; "4"; "5"; "6"; "7"; "8"; "9"; "a"; "b"; "c"; "d"; "e"; "f"]%char.

Definition hex_digit (v : Z) : ascii := nth (Z.to_nat v) k_hex "0"%char.

(** [to_hex(digest, n)]: the first [min n 32] bytes, two digits each. *)
Definition hex_byte (b : Z) : list ascii :=
  [hex_digit (Z.land (Z.shiftr b 4) 0x0F); hex_digit (Z.land b 0x0F)].

Definition to_hex_n (digest : list Z) (n : nat) : list ascii :=
  let take_n := Nat.min n (length digest) in
  concat (map (fun i => hex_byte (at_idx digest i)) (seq 0 take_n)).

Definition to_hex (digest : list Z) : list ascii := to_hex_n digest (length digest).

Definition bytes_of_string (s : string) : list Z :=
  map (fun c => Z.of_N (N_of_ascii c)) (String.list_ascii_of_string s).

(** The published vectors. *)
Example sha256_empty :
  String.string_of_list_ascii (to_hex (sha256 [])) =
  "e3b0c44298fc1c149afbf4c8996fb92427ae41e4649b934ca495991b7852b855"%string.
Proof. vm_compute. reflexivity. Qed.

Example sha256_abc :
  String.string_of_list_ascii (to_hex (sha256 (bytes_of_string "abc"))) =
  "ba7816bf8f01cfea414140de5dae2223b00361a396177a9cb410ff61f20015ad"%string.
Proof. vm_compute. reflexivity. Qed.

Example sha256_two_blocks :
  String.string_of_list_ascii
    (to_hex (sha256 (bytes_of_string "abcdbcdecdefdefgefghfghighijhijkijkljklmklmnlmnomnopnopq"))) =
  "248d6a61d20638b8e5c026930c3e6039a33ce45964ff2167f6ecedd419db06c1"%string.
Proof. vm_compute. reflexivity. Qed.

(** ** Specification: FIPS 180-4 padding and the iterated compression *)

Definition is_byte (b : Z) : Prop := 0 <= b < 256.

Definition be64 (bits : Z) : list Z := map (length_byte bits) (seq 0 8).

(** The fewest zero bytes that make the padded length a multiple of 64. *)
Definition pad_zeros (n : nat) : nat := ((119 - n mod 64) mod 64)%nat.

Definition fips_pad (data : list Z) : list Z :=
  data ++ [0x80] ++ replicate (pad_zeros (length data)) 0 ++ be64 (Z.of_nat (length data) * 8).

Definition chunk (l : list Z) (b : nat) : list Z := take 64 (drop (b * 64) l).

Definition compress_blocks (s : State) (l : list Z) (bs : list nat) : State :=
  foldl (fun s b => compress s (chunk l b)) s bs.

Definition digest_of (s : State) : list Z := concat (map word_bytes (state_words s)).

(** ** The loop and the tail *)

Lemma block_loop_spec fuel data j s :
  (length data / 64 - j <= fuel)%nat → (j <= length data / 64)%nat →
  block_loop fuel data (j * 64) s =
  ((length data / 64 * 64)%nat, compress_blocks s data (seq j (length data / 64 - j))).
Proof.
  revert j s. induction fuel as [|fuel IH]; intros j s Hf Hj; cbn [block_loop].
  { replace (length data / 64)%nat with j by lia. by rewrite Nat.sub_diag. }
  destruct (Nat.leb_spec (j * 64 + 64) (length data)).
  - assert (S j <= length data / 64)%nat by (apply Nat.div_le_lower_bound; lia).
    replace (j * 64 + 64)%nat with (S j * 64)%nat by lia. rewrite IH by lia.
    replace (length data / 64 - j)%nat with (S (length data / 64 - S j)) by lia.
    done.
  - assert (length data / 64 = j)%nat as -> by (apply Nat.le_antisymm; [|lia];
      apply Nat.lt_succ_r, Nat.Div0.div_lt_upper_bound; lia).
    by rewrite Nat.sub_diag.
Qed.

Lemma length_byte_u64 x i : (i < 8)%nat → length_byte (u64 x) i = length_byte x i.
Proof.
  intros Hi. unfold length_byte. change 0xFF with (Z.ones 8).
  rewrite !Z.land_ones, !Z.shiftr_div_pow2 by lia. unfold u64.
  apply Z.bits_inj'. intros m Hm.
  destruct (Z.lt_ge_cases m 8).
  - rewrite !Z.mod_pow2_bits_low, !Z.div_pow2_bits, !Z.mod_pow2_bits_low by lia. done.
  - by rewrite !Z.mod_pow2_bits_high by lia.
Qed.

Lemma be64_u64 x : be64 (u64 x) = be64 x.
Proof.
  unfold be64. apply map_ext_in. intros i Hi%in_seq. apply length_byte_u64. lia.
Qed.

Lemma pad_zeros_tail n :
  pad_zeros n = (tail_blocks (n mod 64) * 64 - 9 - n mod 64)%nat.
Proof.
  unfold pad_zeros, tail_blocks. pose proof (Nat.mod_upper_bound n 64 ltac:(lia)).
  destruct (Nat.leb_spec (n mod 64 + 1 + 8) 64).
  - replace (119 - n mod 64)%nat with (55 - n mod 64 + 1 * 64)%nat by lia.
    rewrite Nat.Div0.mod_add, Nat.mod_small by lia. lia.
  - rewrite Nat.mod_small by lia. lia.
Qed.

(** Eight consecutive byte stores overwrite an eight-byte field. *)
Lemma foldl_store8 (f : nat → Z) (A C : list Z) p :
  length A = p →
  foldl (fun l i => <[(p + i)%nat := f i]> l) (A ++ replicate 8 0 ++ C) (seq 0 8) =
  A ++ map f (seq 0 8) ++ C.
Proof.
  intros <-. cbn [seq foldl]. rewrite !insert_app_r. reflexivity.
Qed.

Lemma build_tail_spec R n :
  (length R < 64)%nat →
  build_tail R n =
  (R ++ [0x80] ++ replicate (tail_blocks (length R) * 64 - 9 - length R) 0)
  ++ be64 (Z.of_nat n * 8) ++ replicate (128 - tail_blocks (length R) * 64) 0.
Proof.
  intros HR. unfold build_tail. set (tb := tail_blocks (length R)).
  assert (length R + 9 <= tb * 64 ∧ tb * 64 <= 128)%nat as [H1 H2].
  { unfold tb, tail_blocks. destruct (Nat.leb_spec (length R + 1 + 8) 64); lia. }
  rewrite <- (Nat.add_0_r (length R)) at 1. rewrite insert_app_r.
  replace (128 - length R)%nat
    with (S ((tb * 64 - 9 - length R) + (8 + (128 - tb * 64))))%nat by lia.
  cbn [replicate]. change (<[0%nat := 0x80]> (0 :: ?l)) with (0x80 :: l).
  rewrite !replicate_add.
  rewrite (app_comm_cons _ (replicate 8 0 ++ _)), app_assoc.
  rewrite foldl_store8
    by (rewrite length_app; cbn [length]; rewrite length_replicate; lia).
  by rewrite <- be64_u64.
Qed.

Lemma length_be64 x : length (be64 x) = 8%nat.
Proof. unfold be64. by rewrite length_map, length_seq. Qed.

Lemma length_fips_pad data :
  length (fips_pad data) = ((length data / 64 + tail_blocks (length data mod 64)) * 64)%nat.
Proof.
  unfold fips_pad. rewrite !length_app, length_replicate, length_be64, pad_zeros_tail.
  pose proof (Nat.div_mod (length data) 64 ltac:(lia)).
  pose proof (Nat.mod_upper_bound (length data) 64 ltac:(lia)).
  cbn [length]. unfold tail_blocks. destruct (Nat.leb_spec (length data mod 64 + 1 + 8) 64); lia.
Qed.

Lemma chunk_app_l l1 l2 b :
  (b * 64 + 64 <= length l1)%nat → chunk (l1 ++ l2) b = chunk l1 b.
Proof.
  intros H. unfold chunk. rewrite drop_app_le, take_app_le by (rewrite ?length_drop; lia).
  done.
Qed.

Lemma chunk_drop l k b : chunk (drop (k * 64) l) b = chunk l (k + b).
Proof. unfold chunk. rewrite drop_drop. do 2 f_equal. lia. Qed.

Lemma compress_blocks_ext s l l' bs bs' :
  Forall2 (fun b b' => chunk l b = chunk l' b') bs bs' →
  compress_blocks s l bs = compress_blocks s l' bs'.
Proof.
  intros H. revert s. induction H as [|b b' bs bs' Hb _ IH]; intros s; [done|].
  unfold compress_blocks in *. cbn [foldl]. by rewrite Hb, IH.
Qed.

Lemma Forall2_seq (P : nat → nat → Prop) i j n :
  (∀ k, (k < n)%nat → P (i + k)%nat (j + k)%nat) → Forall2 P (seq i n) (seq j n).
Proof.
  intros H. apply Forall2_same_length_lookup_2; [by rewrite !length_seq|].
  intros k x y Hx Hy. apply lookup_seq in Hx as [-> Hk], Hy as [-> _]. by apply H.
Qed.

(** The tail buffer is the end of the padded message, followed by unused bytes. *)
Lemma tail_is_padding data :
  let n := length data in
  build_tail (drop (n / 64 * 64) data) n =
  drop (n / 64 * 64) (fips_pad data) ++ replicate (128 - tail_blocks (n mod 64) * 64) 0.
Proof.
  intros n. pose proof (Nat.div_mod n 64 ltac:(lia)).
  pose proof (Nat.mod_upper_bound n 64 ltac:(lia)).
  assert (length (drop (n / 64 * 64) data) = n mod 64)%nat as Hl
    by (rewrite length_drop; fold n; lia).
  rewrite build_tail_spec by lia. rewrite Hl.
  unfold fips_pad. rewrite drop_app_le by (fold n; lia).
  rewrite pad_zeros_tail. fold n. by rewrite <- !app_assoc.
Qed.

Lemma sha256_iterated data :
  sha256 data =
  digest_of (compress_blocks initial_state (fips_pad data)
               (seq 0 (length (fips_pad data) / 64))).
Proof.
  unfold sha256. set (n := length data).
  pose proof (Nat.div_mod n 64 ltac:(lia)). pose proof (Nat.mod_upper_bound n 64 ltac:(lia)).
  change 0%nat with (0 * 64)%nat at 1.
  rewrite block_loop_spec by (fold n; nia). rewrite Nat.sub_0_r. fold n.
  replace (n - n / 64 * 64)%nat with (n mod 64)%nat by lia.
  rewrite take_ge by (rewrite length_drop; fold n; lia).
  pose proof (tail_is_padding data) as Et. cbv zeta in Et. fold n in Et. rewrite Et.
  rewrite length_fips_pad, Nat.div_mul by lia. fold n.
  change (foldl _ ?s0 (seq 0 ?k)) with (compress_blocks s0
    (drop (n / 64 * 64) (fips_pad data) ++ replicate (128 - tail_blocks (n mod 64) * 64) 0) (seq 0 k)).
  unfold digest_of. do 3 f_equal.
  rewrite seq_app. unfold compress_blocks at 3. rewrite foldl_app.
  fold (compress_blocks initial_state (fips_pad data) (seq 0 (n / 64))).
  rewrite (compress_blocks_ext _ data (fips_pad data) _ (seq 0 (n / 64))).
  - apply compress_blocks_ext, Forall2_seq. intros k Hk.
    rewrite chunk_app_l
      by (rewrite length_drop, length_fips_pad; fold n; lia).
    by rewrite chunk_drop.
  - apply Forall2_seq. intros k Hk. symmetry. apply chunk_app_l. fold n. nia.
Qed.

(** ** The message schedule *)

Definition schedule_upto (block : list Z) (k : nat) : list Z :=
  foldl schedule_step (map (load_word block) (seq 0 16)) (seq 16 k).

Lemma schedule_upto_S block k :
  schedule_upto block (S k) = schedule_step (schedule_upto block k) (16 + k).
Proof. unfold schedule_upto. by rewrite (seq_S k 16), foldl_app. Qed.

Lemma schedule_eq block : schedule block = schedule_upto block 48.
Proof. unfold schedule, schedule_upto. reflexivity. Qed.

Lemma at_idx_map_seq (f : nat → Z) n t : (t < n)%nat → at_idx (map f (seq 0 n)) t = f t.
Proof.
  intros Ht. unfold at_idx. rewrite (nth_indep _ 0 (f 0%nat)) by (by rewrite length_map, length_seq).
  by rewrite map_nth, seq_nth.
Qed.

Lemma schedule_upto_0 block : schedule_upto block 0 = map (load_word block) (seq 0 16).
Proof. reflexivity. Qed.

Lemma schedule_upto_length block k : length (schedule_upto block k) = (16 + k)%nat.
Proof.
  induction k as [|k IH]; [done|]. rewrite schedule_upto_S. unfold schedule_step.
  rewrite length_app, IH. cbn. lia.
Qed.

Lemma schedule_upto_at block j k t :
  (j <= k)%nat → (t < 16 + j)%nat →
  at_idx (schedule_upto block k) t = at_idx (schedule_upto block j) t.
Proof.
  intros Hjk Ht. induction Hjk as [|k Hjk IH]; [done|]. rewrite <- IH.
  rewrite schedule_upto_S. unfold schedule_step, at_idx.
  rewrite app_nth1; [done | rewrite schedule_upto_length; lia].
Qed.

Lemma schedule_upto_last block k :
  at_idx (schedule_upto block (S k)) (16 + k) =
  let w := schedule_upto block k in
  u32 (at_idx w (16 + k - 16) + sigma0 (at_idx w (16 + k - 15))
       + at_idx w (16 + k - 7) + sigma1 (at_idx w (16 + k - 2))).
Proof.
  rewrite schedule_upto_S. unfold schedule_step. unfold at_idx at 1.
  rewrite app_nth2 by (rewrite schedule_upto_length; lia).
  rewrite schedule_upto_length, Nat.sub_diag. done.
Qed.

(** ** Byte output *)

Lemma lookup_nth {A} (l : list A) i d : (i < length l)%nat → l !! i = Some (nth i l d).
Proof. intros H. destruct (nth_lookup_or_length l i d); [done|lia]. Qed.

Lemma land_255 x : is_byte (Z.land x 0xFF).
Proof. change 0xFF with (Z.ones 8). rewrite Z.land_ones by lia. apply Z.mod_pos_bound. lia. Qed.

Lemma digest_of_bytes s : length (digest_of s) = 32%nat ∧ Forall is_byte (digest_of s).
Proof.
  destruct s. split; [done|]. unfold digest_of, state_words, word_bytes. cbn [map concat app].
  repeat (apply Forall_cons_2; [apply land_255|]). apply Forall_nil_2.
Qed.

Lemma byte_nibbles b :
  is_byte b →
  Z.land (Z.shiftr b 4) 0x0F = b / 16 ∧ Z.land b 0x0F = b mod 16 ∧
  0 <= b / 16 < 16 ∧ 0 <= b mod 16 < 16.
Proof.
  unfold is_byte. intros Hb. change 0x0F with (Z.ones 4).
  rewrite !Z.land_ones, Z.shiftr_div_pow2 by lia. change (2 ^ 4) with 16.
  assert (0 <= b / 16 < 16) by (Z.to_euclidean_division_equations; lia).
  rewrite (Z.mod_small (b / 16)) by lia. pose proof (Z.mod_pos_bound b 16). lia.
Qed.

Lemma hex_digit_inj a b : 0 <= a < 16 → 0 <= b < 16 → hex_digit a = hex_digit b → a = b.
Proof.
  intros Ha Hb. unfold hex_digit. intros H.
  assert (NoDup k_hex) as Hn by (apply (bool_decide_unpack _); vm_compute; exact I).
  apply Z2Nat.inj; [lia..|].
  assert (∀ x, 0 <= x < 16 → k_hex !! Z.to_nat x = Some (nth (Z.to_nat x) k_hex "0"%char)) as Hl.
  { intros x Hx. apply lookup_nth. cbn. lia. }
  eapply NoDup_lookup; [exact Hn| |rewrite (Hl b Hb); reflexivity].
  rewrite (Hl a Ha), H. reflexivity.
Qed.

Lemma hex_byte_inj a b : is_byte a → is_byte b → hex_byte a = hex_byte b → a = b.
Proof.
  intros Ha Hb. destruct (byte_nibbles a Ha) as (Ea & Ea' & ? & ?).
  destruct (byte_nibbles b Hb) as (Eb & Eb' & ? & ?).
  unfold hex_byte. rewrite Ea, Ea', Eb, Eb'. intros [= Ehi Elo].
  apply hex_digit_inj in Ehi; [|done..]. apply hex_digit_inj in Elo; [|done..].
  rewrite (Z.div_mod a 16), (Z.div_mod b 16) by lia. lia.
Qed.

Lemma to_hex_n_take d n : to_hex_n d n = concat (map hex_byte (take n d)).
Proof.
  unfold to_hex_n. cbv zeta. f_equal. rewrite <- (map_map (at_idx d) hex_byte). f_equal.
  apply list_eq. intros i. rewrite list_lookup_fmap.
  destruct (decide (i < Nat.min n (length d))%nat) as [Hi|Hi].
  - rewrite lookup_seq_lt by lia. cbn. rewrite lookup_take_lt by lia.
    unfold at_idx. symmetry. apply lookup_nth. lia.
  - rewrite lookup_seq_ge by lia. cbn. symmetry. apply lookup_ge_None.
    rewrite length_take. lia.
Qed.

Lemma concat_hex_length d : length (concat (map hex_byte d)) = (2 * length d)%nat.
Proof. induction d as [|b d IH]; [done|]. cbn [map concat]. rewrite length_app, IH. cbn. lia. Qed.

Lemma concat_hex_inj d1 d2 :
  Forall is_byte d1 → Forall is_byte d2 →
  concat (map hex_byte d1) = concat (map hex_byte d2) → d1 = d2.
Proof.
  intros H1. revert d2. induction H1 as [|a d1 Ha H1 IH]; intros d2 H2 E.
  - destruct d2; [done|]. discriminate.
  - destruct H2 as [|b d2 Hb H2]; [discriminate|]. cbn [map concat] in E.
    apply (f_equal (take 2)) in E as E1. apply (f_equal (drop 2)) in E as E2.
    f_equal; [by apply hex_byte_inj | by apply IH].
Qed.

(** ** Properties *)


(** the message schedule satisfies FIPS 180-4's recurrence: the first sixteen
    words are the block's, and word [t] is
    [sigma1 w(t-2) + w(t-7) + sigma0 w(t-15) + w(t-16)] modulo 2^32. *)
Theorem schedule_recurrence (block : list Z) (t : nat) (Ht : (t < 64)%nat) :
  let w := at_idx (schedule block) in
  length (schedule block) = 64%nat ∧
  w t = if (t <? 16)%nat then load_word block t
        else u32 (sigma1 (w (t - 2)%nat) + w (t - 7)%nat
                  + sigma0 (w (t - 15)%nat) + w (t - 16)%nat).
Proof.
  cbv zeta. rewrite schedule_eq.
  split; [rewrite schedule_upto_length; reflexivity|].
  destruct (Nat.ltb_spec t 16) as [H|H].
  - rewrite (schedule_upto_at _ 0) by lia.
    rewrite schedule_upto_0.
    apply at_idx_map_seq. lia.
  - remember (t - 16)%nat as k eqn:Hk. assert (t = 16 + k)%nat as -> by lia.
    rewrite (schedule_upto_at _ (S k) 48 (16 + k)) by lia.
    rewrite schedule_upto_last. cbv zeta. f_equal.
    rewrite !(schedule_upto_at block k 48) by lia.
    replace (16 + k - 16)%nat with k by lia. lia.
Qed.

(** two digests printed to [n] bytes have the same blob name exactly when
    they agree on those [n] bytes, and the name has two characters a byte. *)
Theorem blob_name_injective (d1 d2 : list Z) (n : nat)
  (H1 : Forall is_byte d1) (H2 : Forall is_byte d2) :
  (to_hex_n d1 n = to_hex_n d2 n ↔ take n d1 = take n d2) ∧
  length (to_hex_n d1 n) = (2 * Nat.min n (length d1))%nat.
Proof.
  rewrite !to_hex_n_take, concat_hex_length, length_take. split; [split|done].
  - apply concat_hex_inj; by apply Forall_take.
  - by intros ->.
Qed.
