(* ===== verification/Identity.v ===== *)
(** Object identities and the revision mixer:
    [src/src/base/arbc/base/ids.hpp] and [hash_mix.hpp].

    An [ObjectId] is its 64-bit value.  The file shows that the reserved half of
    the id space is disjoint from the half the allocator issues and injectively
    minted, and that [mix64] is a bijection of the 64-bit words, by exhibiting its
    inverse. *)

From S2P Require Import Prelude.

Local Open Scope Z_scope.

(** ** [ids.hpp] *)

(** An [ObjectId] is represented by its [value]. *)
Notation ObjectId := Z (only parsing).

Definition valid (id : ObjectId) : bool := negb (id =? 0).

Definition kSyntheticIdBit : Z := Z.shiftl 1 63.

Definition synthetic (id : ObjectId) : bool := negb (Z.land id kSyntheticIdBit =? 0).

Definition synthetic_id (n : Z) : ObjectId := Z.lor kSyntheticIdBit n.

(** ** [hash_mix.hpp] *)

Definition xorshift (s x : Z) : Z := Z.lxor x (Z.shiftr x s).

Definition mix64 (x : Z) : Z :=
  let x := xorshift 30 x in
  let x := u64 (x * 0xBF58476D1CE4E5B9) in
  let x := xorshift 27 x in
  let x := u64 (x * 0x94D049BB133111EB) in
  xorshift 31 x.

(** ** Identities *)

Lemma synthetic_testbit id : synthetic id = Z.testbit id 63.
Proof.
  unfold synthetic, kSyntheticIdBit. rewrite Z.shiftl_1_l.
  destruct (Z.testbit id 63) eqn:Hb.
  - apply negb_true_iff, Z.eqb_neq. intros H.
    apply (f_equal (fun z => Z.testbit z 63)) in H.
    rewrite Z.land_spec, Z.pow2_bits_true, Hb, Z.bits_0 in H by lia. discriminate.
  - apply negb_false_iff, Z.eqb_eq. apply Z.bits_inj'. intros m Hm.
    rewrite Z.land_spec, Z.bits_0, Z.pow2_bits_eqb by lia.
    destruct (Z.eqb_spec 63 m) as [<-|]; [by rewrite Hb | apply andb_false_r].
Qed.

Lemma synthetic_range id : in_u64 id → synthetic id = (2 ^ 63 <=? id).
Proof.
  intros H. rewrite synthetic_testbit, Z.testbit_eqb by lia. unfold in_u64 in H.
  destruct (Z.leb_spec (2 ^ 63) id).
  - apply Z.eqb_eq. rewrite <- (Z.div_unique_pos id (2 ^ 63) 1 (id - 2 ^ 63)) by lia. done.
  - apply Z.eqb_neq. rewrite Z.div_small by lia. done.
Qed.

Lemma synthetic_id_add n : 0 <= n < 2 ^ 63 → synthetic_id n = n + 2 ^ 63.
Proof.
  intros H. unfold synthetic_id, kSyntheticIdBit. rewrite Z.shiftl_1_l, Z.lor_comm.
  apply lor_bit_add; [lia|]. by apply testbit_above with 63.
Qed.

(** ** The mixer *)

(** [z_unxorshift k s y = y ^ (y >> s) ^ ... ^ (y >> (k-1)s)]. *)
Fixpoint unxorshift (k : nat) (s y : Z) : Z :=
  match k with
  | O => 0
  | S k => Z.lxor (unxorshift k s y) (Z.shiftr y (Z.of_nat k * s))
  end.

Lemma unxorshift_xorshift k s x :
  0 <= s → unxorshift k s (xorshift s x) = Z.lxor x (Z.shiftr x (Z.of_nat k * s)).
Proof.
  intros Hs. induction k as [|k IH].
  - cbn. by rewrite Z.shiftr_0_r, Z.lxor_nilpotent.
  - cbn [unxorshift]. rewrite IH. unfold xorshift.
    rewrite Z.shiftr_lxor, Z.shiftr_shiftr by nia.
    replace (s + Z.of_nat k * s) with (Z.of_nat (S k) * s) by lia.
    rewrite Z.lxor_assoc, <- (Z.lxor_assoc (Z.shiftr x _)), Z.lxor_nilpotent, Z.lxor_0_l. done.
Qed.

Lemma xorshift_unxorshift k s y :
  0 <= s → xorshift s (unxorshift k s y) = Z.lxor y (Z.shiftr y (Z.of_nat k * s)).
Proof.
  intros Hs. induction k as [|k IH].
  - cbn. unfold xorshift. by rewrite Z.shiftr_0_r, Z.lxor_nilpotent, Z.shiftr_0_l.
  - cbn [unxorshift]. unfold xorshift in *.
    rewrite Z.shiftr_lxor, Z.shiftr_shiftr by nia.
    replace (Z.of_nat k * s + s) with (Z.of_nat (S k) * s) by lia.
    apply Z.bits_inj'. intros m Hm. apply (f_equal (fun z => Z.testbit z m)) in IH.
    rewrite !Z.lxor_spec in *.
    destruct (Z.testbit (unxorshift k s y) m), (Z.testbit (Z.shiftr (unxorshift k s y) s) m),
      (Z.testbit y m), (Z.testbit (Z.shiftr y (Z.of_nat k * s)) m),
      (Z.testbit (Z.shiftr y (Z.of_nat (S k) * s)) m); done.
Qed.

Lemma shiftr_u64_out x k : in_u64 x → 64 <= k → Z.shiftr x k = 0.
Proof.
  intros Hx Hk. unfold in_u64 in Hx. rewrite Z.shiftr_div_pow2 by lia. apply Z.div_small.
  pose proof (Z.pow_le_mono_r 2 64 k). lia.
Qed.

Lemma shiftr_u64 x k : 0 <= k → in_u64 x → in_u64 (Z.shiftr x k).
Proof.
  intros Hk Hx. unfold in_u64 in *. rewrite Z.shiftr_div_pow2 by lia.
  split; [apply Z.div_pos; lia|].
  apply Z.div_lt_upper_bound; nia.
Qed.

Lemma xorshift_u64 s x : 0 <= s → in_u64 x → in_u64 (xorshift s x).
Proof. intros. apply lxor_u64; [|apply shiftr_u64]; done. Qed.

Lemma unxorshift_u64 k s x : 0 <= s → in_u64 x → in_u64 (unxorshift k s x).
Proof.
  intros. induction k as [|k IH]; cbn [unxorshift]; [unfold in_u64; lia|].
  apply lxor_u64; [done | apply shiftr_u64; [nia|done]].
Qed.

Lemma unxorshift_inv k s x :
  0 <= s → 64 <= Z.of_nat k * s → in_u64 x → unxorshift k s (xorshift s x) = x.
Proof.
  intros. by rewrite unxorshift_xorshift, shiftr_u64_out, Z.lxor_0_r by done.
Qed.

Lemma xorshift_inv k s y :
  0 <= s → 64 <= Z.of_nat k * s → in_u64 y → xorshift s (unxorshift k s y) = y.
Proof.
  intros. by rewrite xorshift_unxorshift, shiftr_u64_out, Z.lxor_0_r by done.
Qed.

Lemma mul_u64_inv c c' x : u64 (c * c') = 1 → in_u64 x → u64 (u64 (x * c) * c') = x.
Proof.
  unfold u64. intros Hc Hx. rewrite Z.mul_mod_idemp_l by lia.
  rewrite <- Z.mul_assoc, <- Z.mul_mod_idemp_r, Hc, Z.mul_1_r by lia. by apply Z.mod_small.
Qed.

(** The inverse of [mix64]: the steps undone in reverse order. *)
Definition unmix64 (y : Z) : Z :=
  let y := unxorshift 3 31 y in
  let y := u64 (y * 0x319642b2d24d8ec3) in
  let y := unxorshift 3 27 y in
  let y := u64 (y * 0x96de1b173f119089) in
  unxorshift 3 30 y.

(** ** Properties *)

(** [mix64] is a bijection on 64-bit words: [unmix64] inverts it on both
    sides, so distinct revision stamps keep distinct mixed images. *)
Theorem mix64_bijective (x : Z) (Hx : in_u64 x) :
  in_u64 (mix64 x) ∧ in_u64 (unmix64 x) ∧ unmix64 (mix64 x) = x ∧ mix64 (unmix64 x) = x.
Proof.
  unfold mix64, unmix64. split_and!.
  - apply xorshift_u64; [lia | apply u64_range].
  - apply unxorshift_u64; [lia | apply u64_range].
  - rewrite unxorshift_inv, (mul_u64_inv 0x94D049BB133111EB),
      unxorshift_inv, mul_u64_inv, unxorshift_inv; try done; try lia;
      repeat first [apply u64_range | apply xorshift_u64; [lia|] | assumption].
  - rewrite xorshift_inv, (mul_u64_inv 0x96de1b173f119089),
      xorshift_inv, mul_u64_inv, xorshift_inv; try done; try lia;
      repeat first [apply u64_range | apply unxorshift_u64; [lia|] | assumption].
Qed.

(** the two identity namespaces are disjoint and minting is injective: an id
    the allocator can issue (below 2^63) is never synthetic, every minted id is
    valid and synthetic, and distinct counters mint distinct ids. *)
Theorem identity_namespaces (n m : Z) (Hn : 0 < n < 2 ^ 63) (Hm : 0 < m < 2 ^ 63) :
  synthetic n = false ∧ synthetic (synthetic_id n) = true ∧
  valid (synthetic_id n) = true ∧ in_u64 (synthetic_id n) ∧
  (synthetic_id n = synthetic_id m ↔ n = m) ∧ synthetic_id n ≠ m.
Proof.
  rewrite !synthetic_id_add by lia.
  assert (in_u64 (n + 2 ^ 63)) by (unfold in_u64; lia).
  rewrite !synthetic_range by (done || unfold in_u64; lia). unfold valid.
  split_and!; [apply Z.leb_gt | apply Z.leb_le | apply negb_true_iff, Z.eqb_neq | done | |]; lia.
Qed.
