(* ===== verification/KeyedStore.v ===== *)
(** The budgeted keyed store: [src/src/cache/arbc/cache/keyed_store.hpp] and
    [keyed_store.cpp].

    The store owns its entries through [unique_ptr]s and hands out [CacheHold]
    pins that point at them, so the model has the C++ heap explicitly: [d_heap]
    maps an entry's address to the entry, [d_map] a key to the address the map
    owns, [d_orphans] lists the addresses of entries removed while pinned, and a
    hold is the address it points at.  [d_next] is the address the next
    [make_unique] returns.  [size_t] and [uint64_t] arithmetic wraps at 2^64 and
    the [unsigned] pin count at 2^32.  The iteration order of the
    [unordered_map] is that of [map_to_list], and [evict_order_irrelevant] shows
    the choice does not matter. *)

From stdpp Require Import gmultiset.
From S2P Require Import Prelude.

Local Open Scope Z_scope.

(** ** Classes *)

Inductive PriorityClass := Speculative | Recent | Temporal | Adjacent | Visible.

#[export] Instance PriorityClass_eq_dec : EqDecision PriorityClass.
Proof. solve_decision. Defined.

(** [detail::cache_eviction_order]. *)
Definition cache_eviction_order : list PriorityClass :=
  [Speculative; Recent; Temporal; Adjacent; Visible].

Definition addr : Type := nat.

(** [detail::CacheEntry]. *)
Record CacheEntry (V : Type) := mkEntry {
  value : V; bytes : Z; klass : PriorityClass; recency : Z; pins : Z; removed : bool }.
Arguments mkEntry {V} value bytes klass recency pins removed.
Arguments value {V} c.
Arguments bytes {V} c.
Arguments klass {V} c.
Arguments recency {V} c.
Arguments pins {V} c.
Arguments removed {V} c.

Definition set_klass {V} (c : PriorityClass) (e : CacheEntry V) : CacheEntry V :=
  mkEntry (value e) (bytes e) c (recency e) (pins e) (removed e).
Definition set_recency {V} (t : Z) (e : CacheEntry V) : CacheEntry V :=
  mkEntry (value e) (bytes e) (klass e) t (pins e) (removed e).
Definition set_pins {V} (p : Z) (e : CacheEntry V) : CacheEntry V :=
  mkEntry (value e) (bytes e) (klass e) (recency e) p (removed e).
Definition set_removed {V} (r : bool) (e : CacheEntry V) : CacheEntry V :=
  mkEntry (value e) (bytes e) (klass e) (recency e) (pins e) r.

(** [KeyedStore]: the data members, and the heap its [unique_ptr]s own. *)
Record KeyedStore (K V : Type) `{Countable K} := mkStore {
  d_budget : Z; d_resident : Z; d_tick : Z;
  d_hits : Z; d_misses : Z; d_evictions : Z;
  d_map : gmap K addr; d_orphans : list addr;
  d_heap : gmap addr (CacheEntry V); d_next : addr }.
Arguments mkStore {K V _ _}.
Arguments d_budget {K V _ _} k.
Arguments d_resident {K V _ _} k.
Arguments d_tick {K V _ _} k.
Arguments d_hits {K V _ _} k.
Arguments d_misses {K V _ _} k.
Arguments d_evictions {K V _ _} k.
Arguments d_map {K V _ _} k.
Arguments d_orphans {K V _ _} k.
Arguments d_heap {K V _ _} k.
Arguments d_next {K V _ _} k.

Section store.
Context {K V : Type} `{Countable K}.
Implicit Types (st : KeyedStore K V) (k : K) (a : addr) (e : CacheEntry V).

(** ** The code *)

Definition empty_store (budget_bytes : Z) : KeyedStore K V :=
  mkStore budget_bytes 0 0 0 0 0 ∅ [] ∅ 0%nat.

(** One entry's fields change in place. *)
Definition update_entry (f : CacheEntry V → CacheEntry V) a st : KeyedStore K V :=
  mkStore (d_budget st) (d_resident st) (d_tick st) (d_hits st) (d_misses st)
    (d_evictions st) (d_map st) (d_orphans st) (alter f a (d_heap st)) (d_next st).

(** [d_map.erase(it)] of an unpinned entry: its bytes are given back and the
    entry is destroyed. *)
Definition release_inline k a (e : CacheEntry V) st : KeyedStore K V :=
  mkStore (d_budget st) (u64 (d_resident st - bytes e)) (d_tick st) (d_hits st)
    (d_misses st) (d_evictions st) (delete k (d_map st)) (d_orphans st)
    (delete a (d_heap st)) (d_next st).

(** [e->removed = true; d_orphans.push_back(move(it->second)); d_map.erase(it)]. *)
Definition orphan k a st : KeyedStore K V :=
  mkStore (d_budget st) (d_resident st) (d_tick st) (d_hits st) (d_misses st)
    (d_evictions st) (delete k (d_map st)) (d_orphans st ++ [a])
    (alter (set_removed true) a (d_heap st)) (d_next st).

(** [KeyedStore::detach]. *)
Definition detach k a st : KeyedStore K V :=
  match d_heap st !! a with
  | Some e => if pins e =? 0 then release_inline k a e st else orphan k a st
  | None => st
  end.

(** [KeyedStore::unpin]: the last unpin of an orphan destroys it. *)
Definition drop_orphan a (e : CacheEntry V) st : KeyedStore K V :=
  mkStore (d_budget st) (u64 (d_resident st - bytes e)) (d_tick st) (d_hits st)
    (d_misses st) (d_evictions st) (d_map st) (filter (.≠ a) (d_orphans st))
    (delete a (d_heap st)) (d_next st).

Definition unpin a st : KeyedStore K V :=
  match d_heap st !! a with
  | Some e =>
      let e := set_pins (u32 (pins e - 1)) e in
      let st := update_entry (fun _ => e) a st in
      if (pins e =? 0) && removed e then drop_orphan a e st else st
  | None => st
  end.

(** [KeyedStore::pick_victim]: one class's scan, then the walk over the classes. *)
Definition victim_step st (c : PriorityClass) (best : option (K * addr)) (it : K * addr)
  : option (K * addr) :=
  match d_heap st !! it.2 with
  | Some e =>
      if negb (bool_decide (klass e = c)) || negb (pins e =? 0) then best
      else match best with
           | None => Some it
           | Some b => match d_heap st !! b.2 with
                       | Some eb => if recency e <? recency eb then Some it else best
                       | None => best
                       end
           end
  | None => best
  end.

Definition pick_in_class st (c : PriorityClass) : option (K * addr) :=
  foldl (victim_step st c) None (map_to_list (d_map st)).

Fixpoint pick_in_order st (order : list PriorityClass) : option (K * addr) :=
  match order with
  | [] => None
  | c :: order => match pick_in_class st c with
                  | Some victim => Some victim
                  | None => pick_in_order st order
                  end
  end.

Definition pick_victim st : option (K * addr) := pick_in_order st cache_eviction_order.

Definition count_eviction st : KeyedStore K V :=
  mkStore (d_budget st) (d_resident st) (d_tick st) (d_hits st) (d_misses st)
    (u64 (d_evictions st + 1)) (d_map st) (d_orphans st) (d_heap st) (d_next st).

Definition evict st (v : K * addr) : KeyedStore K V :=
  match d_heap st !! v.2 with
  | Some e => count_eviction (release_inline v.1 v.2 e st)
  | None => st
  end.

(** [KeyedStore::evict_to_fit]; each round erases a key, so one more round than
    there are keys is enough. *)
Fixpoint evict_loop (fuel : nat) (incoming : Z) st : KeyedStore K V :=
  match fuel with
  | O => st
  | S fuel =>
      if d_budget st <? u64 (d_resident st + incoming) then
        match pick_victim st with
        | None => st
        | Some v => evict_loop fuel incoming (evict st v)
        end
      else st
  end.

Definition evict_to_fit (incoming : Z) st : KeyedStore K V :=
  evict_loop (S (size (d_map st))) incoming st.

(** [make_unique<Entry>(...)], [d_resident += bytes] and [d_map.emplace]. *)
Definition admit_entry k (v : V) (b : Z) (c : PriorityClass) st : KeyedStore K V :=
  let tick := u64 (d_tick st + 1) in
  mkStore (d_budget st) (u64 (d_resident st + b)) tick (d_hits st) (d_misses st)
    (d_evictions st) (<[k := d_next st]> (d_map st)) (d_orphans st)
    (<[d_next st := mkEntry v b c tick 1 false]> (d_heap st)) (S (d_next st)).

(** [KeyedStore::insert], with the returned hold. *)
Definition insert k (v : V) (b : Z) (c : PriorityClass) st : KeyedStore K V * addr :=
  let st := match d_map st !! k with
            | Some a => detach k a st
            | None => st
            end in
  let st := evict_to_fit b st in
  (admit_entry k v b c st, d_next st).

Definition set_counters (tick hits misses : Z) st : KeyedStore K V :=
  mkStore (d_budget st) (d_resident st) tick hits misses (d_evictions st) (d_map st)
    (d_orphans st) (d_heap st) (d_next st).

(** [KeyedStore::lookup]. *)
Definition lookup k st : KeyedStore K V * option addr :=
  match d_map st !! k with
  | None => (set_counters (d_tick st) (d_hits st) (u64 (d_misses st + 1)) st, None)
  | Some a =>
      let tick := u64 (d_tick st + 1) in
      let st := set_counters tick (u64 (d_hits st + 1)) (d_misses st) st in
      (update_entry (fun e => set_pins (u32 (pins e + 1)) (set_recency tick e)) a st, Some a)
  end.

(** [KeyedStore::reclassify]. *)
Definition reclassify k (c : PriorityClass) st : KeyedStore K V :=
  match d_map st !! k with
  | None => st
  | Some a => update_entry (set_klass c) a st
  end.

(** [KeyedStore::remove]. *)
Definition remove k st : KeyedStore K V :=
  match d_map st !! k with
  | None => st
  | Some a => detach k a st
  end.

(** [KeyedStore::remove_if]: one pass over the map, detaching every match. *)
Definition remove_if_step (pred : K → bool) (acc : KeyedStore K V * Z) (it : K * addr)
  : KeyedStore K V * Z :=
  if pred it.1 then (detach it.1 it.2 acc.1, acc.2 + 1) else acc.

Definition remove_if (pred : K → bool) st : KeyedStore K V * Z :=
  foldl (remove_if_step pred) (st, 0) (map_to_list (d_map st)).

End store.

(** ** The invariant *)

Section invariant.
Context {K V : Type} `{Countable K}.
Implicit Types (st : KeyedStore K V) (k : K) (a : addr) (e : CacheEntry V)
  (holds : gmultiset addr).

(** Bytes of every entry the store owns. *)
Definition heap_bytes (h : gmap addr (CacheEntry V)) : Z :=
  map_fold (fun _ e acc => bytes e + acc) 0 h.

(** The store and the holds outstanding on it. *)
Record inv st holds : Prop := {
  inv_map k a : d_map st !! k = Some a → ∃ e, d_heap st !! a = Some e ∧ removed e = false;
  inv_inj k k' a : d_map st !! k = Some a → d_map st !! k' = Some a → k = k';
  inv_live a e : d_heap st !! a = Some e → removed e = false → ∃ k, d_map st !! k = Some a;
  inv_orphans a e : d_heap st !! a = Some e → removed e = true → a ∈ d_orphans st ∧ pins e ≠ 0;
  inv_orphans_live a : a ∈ d_orphans st → ∃ e, d_heap st !! a = Some e ∧ removed e = true;
  inv_orphans_nodup : NoDup (d_orphans st);
  inv_pins a e : d_heap st !! a = Some e → pins e = Z.of_nat (multiplicity a holds);
  inv_holds a : a ∈ holds → is_Some (d_heap st !! a);
  inv_bytes a e : d_heap st !! a = Some e → 0 <= bytes e;
  inv_resident : d_resident st = u64 (heap_bytes (d_heap st));
  inv_tick : 0 <= d_tick st;
  inv_recency a e : d_heap st !! a = Some e → recency e <= d_tick st;
  inv_recency_inj a a' e e' : d_heap st !! a = Some e → d_heap st !! a' = Some e' →
    recency e = recency e' → a = a';
  inv_next a e : d_heap st !! a = Some e → (a < d_next st)%nat;
}.

Lemma heap_bytes_empty : heap_bytes ∅ = 0.
Proof. apply map_fold_empty. Qed.

Lemma heap_bytes_insert h a e :
  h !! a = None → heap_bytes (<[a := e]> h) = bytes e + heap_bytes h.
Proof. intros Ha. unfold heap_bytes. rewrite map_fold_insert_L; [done| |done]. intros; lia. Qed.

Lemma heap_bytes_delete h a e :
  h !! a = Some e → heap_bytes h = bytes e + heap_bytes (delete a h).
Proof. intros Ha. unfold heap_bytes. rewrite (map_fold_delete_L _ _ a e); [done| |done]. intros; lia. Qed.

Lemma heap_bytes_alter h a f :
  (∀ e, bytes (f e) = bytes e) → heap_bytes (alter f a h) = heap_bytes h.
Proof.
  intros Hf. destruct (h !! a) as [e|] eqn:Ha.
  - assert (alter f a h !! a = Some (f e)) as Ha' by (by rewrite lookup_alter_eq, Ha).
    rewrite (heap_bytes_delete _ _ _ Ha), (heap_bytes_delete _ _ _ Ha'), Hf, delete_alter_eq.
    done.
  - by rewrite alter_id by (intros; congruence).
Qed.

Lemma heap_bytes_nonneg h : (∀ a e, h !! a = Some e → 0 <= bytes e) → 0 <= heap_bytes h.
Proof.
  induction h as [|a e h Ha IH] using map_ind; intros Hb; [by rewrite heap_bytes_empty|].
  rewrite heap_bytes_insert by done.
  assert (0 <= bytes e) by (apply (Hb a); by rewrite lookup_insert_eq).
  assert (0 <= heap_bytes h); [|lia]. apply IH. intros a' e' Ha'. apply (Hb a').
  rewrite lookup_insert_ne; congruence.
Qed.

Lemma u64_sub_resident x b : u64 (u64 (b + x) - b) = u64 x.
Proof. word_lia. Qed.
Lemma u64_add_resident x b : u64 (u64 x + b) = u64 (b + x).
Proof. word_lia. Qed.

Lemma held_pos a holds : a ∈ holds → (0 < multiplicity a holds)%nat.
Proof. intros Hin. exact (proj1 (elem_of_multiplicity a holds) Hin). Qed.

Lemma inv_unheld st a e holds :
  inv st holds → d_heap st !! a = Some e → pins e = 0 → a ∉ holds.
Proof. intros I Ha Hp Hin%held_pos. pose proof (inv_pins _ _ I a e Ha). lia. Qed.

Lemma inv_held st a e holds :
  inv st holds → d_heap st !! a = Some e → pins e ≠ 0 → a ∈ holds.
Proof.
  intros I Ha Hp. apply elem_of_multiplicity. pose proof (inv_pins _ _ I a e Ha). lia.
Qed.

(** *** The empty store *)
Lemma inv_empty budget : inv (empty_store (K := K) (V := V) budget) ∅.
Proof.
  split; cbn; try done; try (by intros *; rewrite lookup_empty); try (by intros * Hin%elem_of_nil).
  - constructor.
  - intros a Hin. multiset_solver.
Qed.

(** *** Destroying an unpinned map entry *)
Lemma inv_release k a e st holds :
  inv st holds → d_map st !! k = Some a → d_heap st !! a = Some e → pins e = 0 →
  inv (release_inline k a e st) holds.
Proof.
  intros I Hk Ha Hp. destruct (inv_map _ _ I k a Hk) as (e' & He' & Hr). simplify_eq.
  assert (a ∉ holds) as Hh by (by eapply inv_unheld).
  split; cbn.
  - intros k' a' [? Hk']%lookup_delete_Some. rewrite lookup_delete_ne; [by eapply I|].
    intros <-. by pose proof (inv_inj _ _ I k k' a Hk Hk').
  - intros k1 k2 a' [_ ?]%lookup_delete_Some [_ ?]%lookup_delete_Some. by eapply I.
  - intros a' e' [? Ha']%lookup_delete_Some Hr'.
    destruct (inv_live _ _ I a' e' Ha' Hr') as [k' Hk']. exists k'.
    rewrite lookup_delete_ne; congruence.
  - intros a' e' [? Ha']%lookup_delete_Some. by apply I.
  - intros a' Ho. destruct (inv_orphans_live _ _ I a' Ho) as (e' & ? & ?).
    exists e'. rewrite lookup_delete_ne; [done|congruence].
  - apply I.
  - intros a' e' [_ ?]%lookup_delete_Some. by apply I.
  - intros a' Hin. rewrite lookup_delete_ne by set_solver. by apply I.
  - intros a' e' [_ ?]%lookup_delete_Some. by eapply I.
  - rewrite (inv_resident _ _ I), (heap_bytes_delete _ _ _ Ha). apply u64_sub_resident.
  - apply I.
  - intros a' e' [_ ?]%lookup_delete_Some. by eapply I.
  - intros a1 a2 e1 e2 [_ ?]%lookup_delete_Some [_ ?]%lookup_delete_Some. by eapply I.
  - intros a' e' [_ ?]%lookup_delete_Some. by eapply I.
Qed.

(** One entry changed in place: an entry of the new heap is the changed one or an
    old one at another address. *)
Lemma alter_entry (h : gmap addr (CacheEntry V)) a e f a' e' :
  h !! a = Some e → alter f a h !! a' = Some e' →
  (a' = a ∧ e' = f e) ∨ (a' ≠ a ∧ h !! a' = Some e').
Proof.
  intros Ha. rewrite lookup_alter. destruct (decide (a = a')) as [<-|]; [|by right].
  rewrite Ha. intros [= <-]. by left.
Qed.

(** *** Orphaning a pinned map entry *)
Lemma inv_orphan k a e st holds :
  inv st holds → d_map st !! k = Some a → d_heap st !! a = Some e → pins e ≠ 0 →
  inv (orphan k a st) holds.
Proof.
  intros I Hk Ha Hp. destruct (inv_map _ _ I k a Hk) as (e' & He' & Hr). simplify_eq.
  assert (a ∉ d_orphans st) as Hno.
  { intros Hin. destruct (inv_orphans_live _ _ I a Hin) as (e' & ? & ?). congruence. }
  split; cbn; try apply I.
  - intros k' a' [? Hk']%lookup_delete_Some. rewrite lookup_alter_ne; [by eapply I|].
    intros <-. by pose proof (inv_inj _ _ I k k' a Hk Hk').
  - intros k1 k2 a' [_ ?]%lookup_delete_Some [_ ?]%lookup_delete_Some. by eapply I.
  - intros a' e' [[-> ->]|[? Ha']]%(alter_entry _ _ _ _ _ _ Ha) Hr'; [done|].
    destruct (inv_live _ _ I a' e' Ha' Hr') as [k' Hk']. exists k'.
    rewrite lookup_delete_ne; congruence.
  - intros a' e' [[-> ->]|[? Ha']]%(alter_entry _ _ _ _ _ _ Ha) Hr';
      [split; [set_solver|done]|].
    destruct (inv_orphans _ _ I a' e' Ha' Hr'). split; [set_solver|done].
  - intros a' [Ho| ->%list_elem_of_singleton]%elem_of_app.
    + destruct (inv_orphans_live _ _ I a' Ho) as (e' & ? & ?).
      exists e'. rewrite lookup_alter_ne; [done|congruence].
    + exists (set_removed true e). by rewrite lookup_alter_eq, Ha.
  - apply NoDup_app. split_and!; [apply I| |apply NoDup_singleton].
    by intros x Hx ->%list_elem_of_singleton.
  - intros a' e' [[-> ->]|[? Ha']]%(alter_entry _ _ _ _ _ _ Ha); cbn; by apply I.
  - intros a' Hin. rewrite lookup_alter.
    destruct (decide (a = a')) as [<-|]; [by rewrite Ha|by apply I].
  - intros a' e' [[-> ->]|[? Ha']]%(alter_entry _ _ _ _ _ _ Ha); cbn; by eapply I.
  - rewrite heap_bytes_alter by done. apply I.
  - intros a' e' [[-> ->]|[? Ha']]%(alter_entry _ _ _ _ _ _ Ha); cbn; by eapply I.
  - intros a1 a2 e1 e2 [[-> ->]|[? Ha1]]%(alter_entry _ _ _ _ _ _ Ha)
      [[-> ->]|[? Ha2]]%(alter_entry _ _ _ _ _ _ Ha); cbn; by eapply I.
  - intros a' e' [[-> ->]|[? Ha']]%(alter_entry _ _ _ _ _ _ Ha); cbn; by eapply I.
Qed.

Lemma inv_detach k a st holds :
  inv st holds → d_map st !! k = Some a → inv (detach k a st) holds.
Proof.
  intros I Hk. destruct (inv_map _ _ I k a Hk) as (e & Ha & _). unfold detach. rewrite Ha.
  destruct (Z.eqb_spec (pins e) 0); [by apply inv_release | by eapply inv_orphan].
Qed.

Lemma inv_remove k st holds : inv st holds → inv (remove k st) holds.
Proof. unfold remove. destruct (d_map st !! k) eqn:Hk; [|done]. by intros; apply inv_detach. Qed.

(** *** Changing an entry in place

    A pin, an unpin, a recency refresh or a retag changes one entry's fields; this
    is what such a change must respect. *)
Lemma inv_touch f a e st st' holds holds' :
  inv st holds → d_heap st !! a = Some e →
  d_heap st' = alter f a (d_heap st) → d_map st' = d_map st →
  d_orphans st' = d_orphans st → d_next st' = d_next st → d_resident st' = d_resident st →
  d_tick st <= d_tick st' →
  (∀ e, bytes (f e) = bytes e ∧ removed (f e) = removed e) →
  pins (f e) = Z.of_nat (multiplicity a holds') →
  (removed e = true → pins (f e) ≠ 0) →
  (∀ a', a' ≠ a → multiplicity a' holds' = multiplicity a' holds) →
  (recency (f e) = recency e ∨ d_tick st < recency (f e) <= d_tick st') →
  inv st' holds'.
Proof.
  intros I Ha Eh Em Eo En Er Ht Hf Hp Hz Hm Hrec. destruct (Hf e) as [Hb Hr].
  assert (∀ a' e', d_heap st !! a' = Some e' → recency e' <= d_tick st) as Hle by apply I.
  split; rewrite ?Eh, ?Em, ?Eo, ?En, ?Er; try apply I.
  - intros k' a' Hk'. destruct (inv_map _ _ I k' a' Hk') as (e' & Ha' & ?). rewrite lookup_alter.
    destruct (decide (a = a')) as [<-|]; [|by exists e'].
    rewrite Ha. exists (f e). split; [done|congruence].
  - intros a' e' [[-> ->]|[? Ha']]%(alter_entry _ _ _ _ _ _ Ha); [|by apply I].
    rewrite Hr. by apply I.
  - intros a' e' [[-> ->]|[? Ha']]%(alter_entry _ _ _ _ _ _ Ha); [|by apply I].
    rewrite Hr. intros Hr'. split; [by eapply I | by apply Hz].
  - intros a' Ho. destruct (inv_orphans_live _ _ I a' Ho) as (e' & Ha' & ?). rewrite lookup_alter.
    destruct (decide (a = a')) as [<-|]; [|by exists e'].
    rewrite Ha. exists (f e). split; [done|congruence].
  - intros a' e' [[-> ->]|[? Ha']]%(alter_entry _ _ _ _ _ _ Ha); [done|].
    rewrite Hm by done. by apply I.
  - intros a' Hin. rewrite lookup_alter. destruct (decide (a = a')) as [<-|]; [by rewrite Ha|].
    apply I, elem_of_multiplicity. rewrite <- Hm by done. by apply elem_of_multiplicity.
  - intros a' e' [[-> ->]|[? Ha']]%(alter_entry _ _ _ _ _ _ Ha); [rewrite Hb|]; by eapply I.
  - rewrite heap_bytes_alter by apply Hf. apply I.
  - pose proof (inv_tick _ _ I). lia.
  - intros a' e' [[-> ->]|[? Ha']]%(alter_entry _ _ _ _ _ _ Ha).
    + specialize (Hle a e Ha). lia.
    + specialize (Hle a' e' Ha'). lia.
  - intros a1 a2 e1 e2 [[-> ->]|[? Ha1]]%(alter_entry _ _ _ _ _ _ Ha)
      [[-> ->]|[? Ha2]]%(alter_entry _ _ _ _ _ _ Ha); intros Heq; [done| | |by eapply I].
    + specialize (Hle a2 e2 Ha2). destruct Hrec; [|lia]. eapply I; [done..|congruence].
    + specialize (Hle a1 e1 Ha1). destruct Hrec; [|lia]. eapply I; [done..|congruence].
  - intros a' e' [[-> ->]|[? Ha']]%(alter_entry _ _ _ _ _ _ Ha); by eapply I.
Qed.

Lemma inv_reclassify k c st holds : inv st holds → inv (reclassify k c st) holds.
Proof.
  intros I. unfold reclassify. destruct (d_map st !! k) as [a|] eqn:Hk; [|done].
  destruct (inv_map _ _ I k a Hk) as (e & Ha & Hr).
  apply (inv_touch (set_klass c) a e st _ holds); try done; [|congruence|by left].
  exact (inv_pins _ _ I a e Ha).
Qed.

(** The machine bounds an operation stays in: the tick does not wrap and no entry
    has 2^32 - 1 pins. *)
Definition within_bounds st holds : Prop :=
  d_tick st + 1 < 2 ^ 64 ∧ ∀ a, Z.of_nat (multiplicity a holds) + 1 < 2 ^ 32.

Definition hold_of (r : option addr) : gmultiset addr :=
  match r with Some a => {[+ a +]} | None => ∅ end.

Lemma inv_lookup k st holds :
  inv st holds → within_bounds st holds →
  inv (lookup k st).1 (hold_of (lookup k st).2 ⊎ holds).
Proof.
  intros I [Ht Hm]. pose proof (inv_tick _ _ I). unfold lookup.
  destruct (d_map st !! k) as [a|] eqn:Hk; cbn [fst snd hold_of].
  - destruct (inv_map _ _ I k a Hk) as (e & Ha & Hr). pose proof (inv_pins _ _ I a e Ha) as Hp.
    eapply (inv_touch _ a e st _ holds); try done;
      cbn [pins set_pins set_recency recency d_tick set_counters update_entry].
    + rewrite u64_small by (unfold in_u64; lia). lia.
    + rewrite Hp, u32_small by (specialize (Hm a); unfold in_u32; lia).
      rewrite multiplicity_disj_union, multiplicity_singleton_eq. lia.
    + congruence.
    + intros a' Hne. rewrite multiplicity_disj_union, multiplicity_singleton_ne by done. lia.
    + right. rewrite u64_small by (unfold in_u64; lia). lia.
  - rewrite (left_id_L ∅ (⊎)). destruct I. by split.
Qed.

(** *** Dropping a hold *)
Lemma inv_drop_orphan a e e' st holds :
  inv st holds → d_heap st !! a = Some e → removed e = true → bytes e' = bytes e →
  inv (drop_orphan a e' (update_entry (fun _ => e') a st)) (holds ∖ {[+ a +]}) ∨
  multiplicity a holds ≠ 1%nat.
Proof.
  intros I Ha Hr Hb. destruct (decide (multiplicity a holds = 1%nat)) as [Hm|]; [left|by right].
  assert (∀ a', a' ≠ a → multiplicity a' (holds ∖ {[+ a +]}) = multiplicity a' holds) as Hne.
  { intros a' ?. rewrite multiplicity_difference, multiplicity_singleton_ne by done. lia. }
  assert (∀ k', d_map st !! k' ≠ Some a) as Hnk.
  { intros k' Hk'. destruct (inv_map _ _ I k' a Hk') as (e1 & ? & ?). congruence. }
  split; cbn; rewrite ?delete_alter_eq; try apply I.
  - intros k' a' Hk'. rewrite lookup_delete_ne; [by eapply I|]. intros <-. by eapply Hnk.
  - intros a' e1 [_ ?]%lookup_delete_Some. by apply I.
  - intros a' e1 [? Ha']%lookup_delete_Some Hr'. destruct (inv_orphans _ _ I a' e1 Ha' Hr').
    split; [|done]. apply list_elem_of_filter. done.
  - intros a' [? Ho]%list_elem_of_filter. destruct (inv_orphans_live _ _ I a' Ho) as (e1 & ? & ?).
    exists e1. rewrite lookup_delete_ne; done.
  - apply NoDup_filter, I.
  - intros a' e1 [? Ha']%lookup_delete_Some. rewrite Hne by done. by apply I.
  - intros a' Hin%held_pos. destruct (decide (a' = a)) as [->|].
    + rewrite multiplicity_difference, multiplicity_singleton_eq, Hm in Hin. lia.
    + rewrite Hne in Hin by done. rewrite lookup_delete_ne by done.
      apply I. by apply elem_of_multiplicity.
  - intros a' e1 [_ ?]%lookup_delete_Some. by eapply I.
  - rewrite (inv_resident _ _ I), (heap_bytes_delete _ _ _ Ha), Hb. apply u64_sub_resident.
  - intros a' e1 [_ ?]%lookup_delete_Some. by eapply I.
  - intros a1 a2 e1 e2 [_ ?]%lookup_delete_Some [_ ?]%lookup_delete_Some. by eapply I.
  - intros a' e1 [_ ?]%lookup_delete_Some. by eapply I.
Qed.

Lemma inv_unpin a st holds :
  inv st holds → a ∈ holds → (∀ a, Z.of_nat (multiplicity a holds) + 1 < 2 ^ 32) →
  inv (unpin a st) (holds ∖ {[+ a +]}).
Proof.
  intros I Hin Hm. destruct (inv_holds _ _ I a Hin) as [e Ha]. apply held_pos in Hin.
  pose proof (inv_pins _ _ I a e Ha) as Hp. specialize (Hm a).
  unfold unpin. rewrite Ha.
  assert (u32 (pins e - 1) = Z.of_nat (multiplicity a (holds ∖ {[+ a +]}))) as Hp'.
  { rewrite Hp, u32_small, multiplicity_difference, multiplicity_singleton_eq
      by (unfold in_u32; lia). lia. }
  change (pins (set_pins (u32 (pins e - 1)) e)) with (u32 (pins e - 1)).
  change (removed (set_pins (u32 (pins e - 1)) e)) with (removed e).
  destruct ((u32 (pins e - 1) =? 0) && removed e) eqn:Hd.
  - apply andb_true_iff in Hd as [Hz%Z.eqb_eq Hr].
    rewrite multiplicity_difference, multiplicity_singleton_eq in Hp'.
    destruct (inv_drop_orphan a e (set_pins (u32 (pins e - 1)) e) st holds); [done..|lia].
  - eapply (inv_touch (fun e => set_pins (u32 (pins e - 1)) e) a e st _ holds); try done.
    + unfold update_entry. cbn. apply map_eq. intros a'. rewrite !lookup_alter.
      destruct (decide (a = a')) as [<-|]; [by rewrite Ha|done].
    + intros Hr. rewrite Hr, andb_true_r in Hd. by apply Z.eqb_neq in Hd.
    + intros a' Hne. rewrite multiplicity_difference, multiplicity_singleton_ne by done. lia.
    + by left.
Qed.

(** *** Eviction *)

(** A class's position in the eviction order. *)
Definition rank (c : PriorityClass) : nat :=
  match c with Speculative => 0 | Recent => 1 | Temporal => 2 | Adjacent => 3 | Visible => 4 end.

Definition candidate st (c : PriorityClass) (it : K * addr) e : Prop :=
  d_heap st !! it.2 = Some e ∧ klass e = c ∧ pins e = 0.

Definition scan_result st c (l : list (K * addr)) (best r : option (K * addr)) : Prop :=
  match r with
  | None => best = None ∧ ∀ it e, it ∈ l → ¬ candidate st c it e
  | Some r => ∃ er, candidate st c r er ∧ (r ∈ l ∨ best = Some r) ∧
      ∀ it e, it ∈ l ∨ best = Some it → candidate st c it e → recency er <= recency e
  end.

Lemma candidate_fun st c it e e' : candidate st c it e → candidate st c it e' → e = e'.
Proof. intros (? & _) (? & _). congruence. Qed.

Lemma candidate_dec st c it : (∃ e, candidate st c it e) ∨ (∀ e, ¬ candidate st c it e).
Proof.
  destruct (d_heap st !! it.2) as [e|] eqn:Ha.
  - destruct (decide (klass e = c ∧ pins e = 0)) as [[? ?]|Hn].
    + left. by exists e.
    + right. intros e' (He & ?). simplify_eq. tauto.
  - right. intros e' (He & _). congruence.
Qed.

Lemma victim_step_skip st c best it :
  (∀ e, ¬ candidate st c it e) → victim_step st c best it = best.
Proof.
  intros Hn. unfold victim_step. destruct (d_heap st !! it.2) as [e|] eqn:Ha; [|done].
  destruct (bool_decide_reflect (klass e = c)), (Z.eqb_spec (pins e) 0); try done.
  exfalso. by apply (Hn e).
Qed.

Lemma victim_step_candidate st c best it e :
  candidate st c it e →
  (∀ b, best = Some b → ∃ eb, candidate st c b eb) →
  victim_step st c best it = Some it ∧
    (∀ b eb, best = Some b → candidate st c b eb → recency e < recency eb) ∨
  ∃ b eb, best = Some b ∧ candidate st c b eb ∧ recency eb <= recency e ∧
    victim_step st c best it = best.
Proof.
  intros (Ha & Hc & Hp) Hb. unfold victim_step. rewrite Ha, Hp, Hc, bool_decide_true by done.
  cbn [negb orb Z.eqb]. destruct best as [b|]; [|by left].
  destruct (Hb b eq_refl) as [eb Heb]. pose proof Heb as (Hlb & _). rewrite Hlb.
  destruct (Z.ltb_spec (recency e) (recency eb)).
  - left. split; [done|]. intros b' eb' [= <-] Heb'. by rewrite (candidate_fun _ _ _ _ _ Heb' Heb).
  - right. by exists b, eb.
Qed.

(** One step of the scan keeps the older of the current best and the entry. *)
Lemma victim_step_spec st c best it :
  (∀ b, best = Some b → ∃ eb, candidate st c b eb) →
  scan_result st c [it] best (victim_step st c best it).
Proof.
  intros Hb. destruct (candidate_dec st c it) as [[e He]|Hn].
  - destruct (victim_step_candidate st c best it e He Hb) as [[-> Hlt]|(b & eb & -> & Heb & Hle & ->)].
    + exists e. split_and!; [done|left; by apply list_elem_of_singleton|].
      intros it' e' [->%list_elem_of_singleton|Hb'] He'.
      * by rewrite (candidate_fun _ _ _ _ _ He' He).
      * pose proof (Hlt it' e' Hb' He'). lia.
    + exists eb. split_and!; [done|by right|].
      intros it' e' [->%list_elem_of_singleton|[= <-]] He'.
      * by rewrite (candidate_fun _ _ _ _ _ He' He).
      * by rewrite (candidate_fun _ _ _ _ _ He' Heb).
  - rewrite victim_step_skip by done. destruct best as [b|]; cbn.
    + destruct (Hb b eq_refl) as [eb Heb]. exists eb. split_and!; [done|by right|].
      intros it' e' [->%list_elem_of_singleton|[= <-]] He'; [by edestruct Hn|].
      by rewrite (candidate_fun _ _ _ _ _ He' Heb).
    + split; [done|]. intros it' e ->%list_elem_of_singleton. apply Hn.
Qed.

Lemma scan_spec st c l best :
  (∀ b, best = Some b → ∃ eb, candidate st c b eb) →
  scan_result st c l best (foldl (victim_step st c) best l).
Proof.
  revert best. induction l as [|it l IH]; intros best Hb.
  - cbn [foldl]. destruct best as [b|]; cbn.
    + destruct (Hb b eq_refl) as [eb Heb]. exists eb. split_and!; [done|by right|].
      intros it e [?%not_elem_of_nil|[= <-]] He; [done|]. by rewrite (candidate_fun _ _ _ _ _ He Heb).
    + split; [done|]. by intros it e ?%not_elem_of_nil.
  - cbn [foldl]. pose proof (victim_step_spec st c best it Hb) as Hs.
    set (best' := victim_step st c best it) in *.
    assert (∀ b, best' = Some b → ∃ eb, candidate st c b eb) as Hb'.
    { intros b Eb. rewrite Eb in Hs. destruct Hs as (eb & ? & _). by exists eb. }
    specialize (IH best' Hb'). destruct (foldl _ best' l) as [r|]; cbn in IH |- *.
    + destruct IH as (er & Hr & Hin & Hmin). exists er. split; [done|]. split.
      * destruct Hin as [Hin|Er]; [left; by right|]. rewrite Er in Hs.
        destruct Hs as (? & _ & [->%list_elem_of_singleton|?] & _); [left; left|by right].
      * intros it' e' Hor He'. assert (it' ∈ l ∨ it' ∈ [it] ∨ best = Some it') as [Hl|Ho].
        { destruct Hor as [[->|?]%elem_of_cons|?]; [right; left; by apply list_elem_of_singleton|tauto..]. }
        { eapply Hmin; [by left|done]. }
        destruct best' as [b'|] eqn:Eb'; cbn in Hs.
        -- destruct Hs as (eb & Heb & _ & Hm). pose proof (Hm it' e' Ho He').
           pose proof (Hmin b' eb (or_intror eq_refl) Heb). lia.
        -- destruct Hs as [-> Hn]. destruct Ho as [Ho|[=]]. by edestruct Hn.
    + destruct IH as [Eb' Hn]. rewrite Eb' in Hs. destruct Hs as [-> Hn']. split; [done|].
      intros it' e' [->|?]%elem_of_cons; [apply Hn'; by apply list_elem_of_singleton|by apply Hn].
Qed.

(** [older e e']: [e] goes before [e'] in the eviction order. *)
Definition older e e' : Prop :=
  (rank (klass e) < rank (klass e'))%nat ∨ klass e = klass e' ∧ recency e <= recency e'.

Definition evictable st k a e : Prop :=
  d_map st !! k = Some a ∧ d_heap st !! a = Some e ∧ pins e = 0.

Lemma pick_in_class_spec st c :
  match pick_in_class st c with
  | Some (k, a) => ∃ e, evictable st k a e ∧ klass e = c ∧
      ∀ k' a' e', evictable st k' a' e' → klass e' = c → recency e <= recency e'
  | None => ∀ k a e, evictable st k a e → klass e ≠ c
  end.
Proof.
  unfold pick_in_class. pose proof (scan_spec st c (map_to_list (d_map st)) None) as Hs.
  specialize (Hs ltac:(done)). destruct (foldl _ _ _) as [[k a]|]; cbn in Hs.
  - destruct Hs as (e & (Ha & Hc & Hp) & [Hin|[=]] & Hmin). cbn in Ha.
    exists e. split; [by split_and!; [apply elem_of_map_to_list|..]|]. split; [done|].
    intros k' a' e' (Hk' & Ha' & Hp') Hc'. apply (Hmin (k', a')); [|by split_and!].
    left. by apply elem_of_map_to_list.
  - destruct Hs as [_ Hn]. intros k a e (Hk & Ha & Hp) Hc.
    apply (Hn (k, a) e); [by apply elem_of_map_to_list|by split_and!].
Qed.

Lemma pick_victim_spec st :
  match pick_victim st with
  | Some (k, a) => ∃ e, evictable st k a e ∧
      ∀ k' a' e', evictable st k' a' e' → older e e'
  | None => ∀ k a e, ¬ evictable st k a e
  end.
Proof.
  unfold pick_victim, cache_eviction_order. cbn [pick_in_order].
  pose proof (pick_in_class_spec st Speculative) as H0.
  pose proof (pick_in_class_spec st Recent) as H1.
  pose proof (pick_in_class_spec st Temporal) as H2.
  pose proof (pick_in_class_spec st Adjacent) as H3.
  pose proof (pick_in_class_spec st Visible) as H4.
  repeat match goal with
  | |- context [match pick_in_class st ?c with _ => _ end] =>
      destruct (pick_in_class st c) as [[? ?]|]
  end;
  try (match goal with
  | Hc : ∃ e, _ ∧ klass e = ?c ∧ _ |- ∃ _, _ =>
      destruct Hc as (e & He & Hk & Hmin); exists e; split; [done|];
      intros k' a' e' He'; unfold older; rewrite Hk; destruct (klass e') eqn:Hk';
      cbn [rank]; first [left; lia | right; split; [done|]; by eapply Hmin
                        | exfalso; naive_solver]
  end).
  intros k a e He. destruct (klass e) eqn:Hk; naive_solver.
Qed.

Lemma inv_evict k a e st holds :
  inv st holds → evictable st k a e → inv (evict st (k, a)) holds.
Proof.
  intros I (Hk & Ha & Hp). unfold evict. cbn [fst snd]. rewrite Ha.
  pose proof (inv_release k a e st holds I Hk Ha Hp) as I'. destruct I'. by split.
Qed.

(** What a run of evictions does: entries leave in eviction order, only unpinned
    ones, and everything else is as before. *)
Record evicted st st' : Prop := {
  ev_budget : d_budget st' = d_budget st;
  ev_counters : d_tick st' = d_tick st ∧ d_hits st' = d_hits st ∧ d_misses st' = d_misses st;
  ev_orphans : d_orphans st' = d_orphans st;
  ev_next : d_next st' = d_next st;
  ev_map k : d_map st' !! k = d_map st !! k ∨
    d_map st' !! k = None ∧ ∃ a e, evictable st k a e;
  ev_heap a : d_heap st' !! a = d_heap st !! a ∨
    d_heap st' !! a = None ∧ ∃ k e, evictable st k a e;
  ev_order k a e k' a' e' : evictable st k a e → d_map st' !! k = None →
    evictable st' k' a' e' → older e e';
}.

Lemma evicted_refl st : evicted st st.
Proof. split; try done; [by left..|]. intros k a e k' a' e' (Hk & _) Hn. congruence. Qed.

Lemma evicted_evictable st st' k a e : evicted st st' → evictable st' k a e → evictable st k a e.
Proof.
  intros E (Hk & Ha & Hp). destruct (ev_map _ _ E k) as [Em|[Em _]]; [|congruence].
  destruct (ev_heap _ _ E a) as [Eh|[Eh _]]; [|congruence].
  split_and!; [by rewrite <- Em|by rewrite <- Eh|done].
Qed.

Lemma evict_eq st k a e :
  d_heap st !! a = Some e →
  d_map (evict st (k, a)) = delete k (d_map st) ∧ d_heap (evict st (k, a)) = delete a (d_heap st).
Proof. intros Ha. unfold evict. cbn [fst snd]. by rewrite Ha. Qed.

Lemma evicted_evict st st' holds k a :
  inv st holds → pick_victim st = Some (k, a) → evicted (evict st (k, a)) st' → evicted st st'.
Proof.
  intros I Hv E. pose proof (pick_victim_spec st) as Hs. rewrite Hv in Hs.
  destruct Hs as (e & He & Hmin). pose proof He as (Hk & Ha & Hp).
  destruct (evict_eq st k a e Ha) as [Em Eh].
  assert (∀ k' a' e', evictable (evict st (k, a)) k' a' e' → evictable st k' a' e') as Hsub.
  { intros k' a' e' (Hk' & Ha' & ?). rewrite Em in Hk'. rewrite Eh in Ha'.
    apply lookup_delete_Some in Hk' as [_ ?], Ha' as [_ ?]. done. }
  split.
  - rewrite (ev_budget _ _ E). unfold evict. cbn [fst snd]. by rewrite Ha.
  - destruct (ev_counters _ _ E) as (-> & -> & ->). unfold evict. cbn [fst snd]. by rewrite Ha.
  - rewrite (ev_orphans _ _ E). unfold evict. cbn [fst snd]. by rewrite Ha.
  - rewrite (ev_next _ _ E). unfold evict. cbn [fst snd]. by rewrite Ha.
  - intros k'. destruct (ev_map _ _ E k') as [->|[-> (a' & e' & He')]].
    + rewrite Em. destruct (decide (k = k')) as [<-|]; [|left; by rewrite lookup_delete_ne].
      right. rewrite lookup_delete_eq. eauto.
    + right. split; [done|]. exists a', e'. by apply Hsub.
  - intros a'. destruct (ev_heap _ _ E a') as [->|[-> (k' & e' & He')]].
    + rewrite Eh. destruct (decide (a = a')) as [<-|]; [|left; by rewrite lookup_delete_ne].
      right. rewrite lookup_delete_eq. eauto.
    + right. split; [done|]. exists k', e'. by apply Hsub.
  - intros k1 a1 e1 k2 a2 e2 He1 Hn He2. destruct (decide (k1 = k)) as [->|Hne].
    + destruct He1 as (Hk1 & Ha1 & _). simplify_eq.
      apply (Hmin k2 a2). apply Hsub. by eapply evicted_evictable.
    + eapply (ev_order _ _ E); [|done|done]. destruct He1 as (Hk1 & Ha1 & ?).
      split_and!; [by rewrite Em, lookup_delete_ne| |done].
      rewrite Eh, lookup_delete_ne; [done|]. intros <-. apply Hne. by eapply I.
Qed.

(** *** The eviction loop

    Its result, from a store that satisfies the invariant: entries left in
    eviction order until the incoming bytes fit or nothing evictable remains. *)
Lemma evict_loop_spec fuel b st holds :
  inv st holds → (size (d_map st) < fuel)%nat →
  let st' := evict_loop fuel b st in
  inv st' holds ∧ evicted st st' ∧
  (u64 (d_resident st' + b) <= d_budget st' ∨ ∀ k a e, ¬ evictable st' k a e).
Proof.
  revert st. induction fuel as [|fuel IH]; intros st I Hf; [lia|]. cbn [evict_loop].
  destruct (Z.ltb_spec (d_budget st) (u64 (d_resident st + b))) as [Hb|Hb].
  2:{ split_and!; [done|apply evicted_refl|by left]. }
  pose proof (pick_victim_spec st) as Hs. destruct (pick_victim st) as [[k a]|] eqn:Hv.
  2:{ split_and!; [done|apply evicted_refl|by right]. }
  destruct Hs as (e & He & _). pose proof He as (Hk & Ha & _).
  assert (size (d_map (evict st (k, a))) < fuel)%nat as Hf'.
  { rewrite (proj1 (evict_eq _ k a e Ha)).
    pose proof (map_size_delete_Some k (d_map st) ltac:(by rewrite Hk)) as Hd.
    assert (size (d_map st) ≠ 0%nat); [|lia]. rewrite map_size_ne_0_lookup. eauto. }
  destruct (IH (evict st (k, a)) (inv_evict _ _ _ _ _ I He) Hf') as (I' & E & Hend).
  split_and!; [done|by eapply evicted_evict|done].
Qed.

Lemma evict_to_fit_spec b st holds :
  inv st holds →
  let st' := evict_to_fit b st in
  inv st' holds ∧ evicted st st' ∧
  (u64 (d_resident st' + b) <= d_budget st' ∨ ∀ k a e, ¬ evictable st' k a e).
Proof. intros I. apply evict_loop_spec; [done|lia]. Qed.

(** *** Admission *)
Lemma inv_admit k v b c st holds :
  inv st holds → d_map st !! k = None → 0 <= b → within_bounds st holds →
  inv (admit_entry k v b c st) ({[+ d_next st +]} ⊎ holds).
Proof.
  intros I Hk Hb [Ht _]. pose proof (inv_tick _ _ I).
  assert (u64 (d_tick st + 1) = d_tick st + 1) as Et by (apply u64_small; unfold in_u64; lia).
  assert (d_heap st !! d_next st = None) as Hf.
  { destruct (d_heap st !! d_next st) as [e|] eqn:He; [|done].
    pose proof (inv_next _ _ I _ _ He). lia. }
  assert (multiplicity (d_next st) holds = 0%nat) as Hm.
  { destruct (decide (d_next st ∈ holds)) as [Hin|Hn].
    - destruct (inv_holds _ _ I _ Hin). congruence.
    - rewrite elem_of_multiplicity in Hn. lia. }
  assert (∀ a e, d_heap st !! a = Some e → a ≠ d_next st) as Hne by (intros; congruence).
  assert (∀ a e, <[d_next st := mkEntry v b c (d_tick st + 1) 1 false]> (d_heap st) !! a = Some e →
    a = d_next st ∧ e = mkEntry v b c (d_tick st + 1) 1 false ∨
    a ≠ d_next st ∧ d_heap st !! a = Some e) as Hcase.
  { intros a e [[<- <-]|[? ?]]%lookup_insert_Some; auto. }
  split; unfold admit_entry;
    cbn [d_map d_heap d_orphans d_resident d_tick d_next d_budget]; rewrite ?Et; try apply I.
  - intros k' a' [[<- <-]|[? Hk']]%lookup_insert_Some; [rewrite lookup_insert_eq; eauto|].
    destruct (inv_map _ _ I k' a' Hk') as (e & Ha & ?). exists e.
    rewrite lookup_insert_ne; [done|]. intros <-. by eapply Hne.
  - intros k1 k2 a' [[<- <-]|[? Hk1]]%lookup_insert_Some [[<- Ea]|[? Hk2]]%lookup_insert_Some;
      [done| | |by eapply I].
    + destruct (inv_map _ _ I _ _ Hk2) as (e & Ha & _). by apply Hne in Ha.
    + destruct (inv_map _ _ I _ _ Hk1) as (e & Ha & _). by apply Hne in Ha.
  - intros a' e' [[-> ->]|[? Ha']]%Hcase Hr; [exists k; by rewrite lookup_insert_eq|].
    destruct (inv_live _ _ I a' e' Ha' Hr) as [k' ?]. exists k'. rewrite lookup_insert_ne; congruence.
  - intros a' e' [[-> ->]|[? Ha']]%Hcase Hr; [done|by apply I].
  - intros a' Ho. destruct (inv_orphans_live _ _ I a' Ho) as (e & Ha & ?). exists e.
    rewrite lookup_insert_ne; [done|]. intros <-. by eapply Hne.
  - intros a' e' [[-> ->]|[? Ha']]%Hcase; rewrite multiplicity_disj_union.
    + rewrite multiplicity_singleton_eq, Hm. done.
    + rewrite multiplicity_singleton_ne by done. by apply I.
  - intros a' [->%gmultiset_elem_of_singleton|Hin]%gmultiset_elem_of_disj_union;
      [by rewrite lookup_insert_eq|]. apply lookup_insert_is_Some'. right. by apply I.
  - intros a' e' [[-> ->]|[? Ha']]%Hcase; [done|by eapply I].
  - rewrite (inv_resident _ _ I), heap_bytes_insert by done. apply u64_add_resident.
  - lia.
  - intros a' e' [[-> ->]|[? Ha']]%Hcase; [done|]. pose proof (inv_recency _ _ I _ _ Ha'). lia.
  - intros a1 a2 e1 e2 [[-> ->]|[? Ha1]]%Hcase [[-> ->]|[? Ha2]]%Hcase; cbn [recency];
      [done| | |by eapply I].
    + pose proof (inv_recency _ _ I _ _ Ha2). lia.
    + pose proof (inv_recency _ _ I _ _ Ha1). lia.
  - intros a' e' [[-> ->]|[? Ha']]%Hcase; [lia|]. pose proof (inv_next _ _ I _ _ Ha'). lia.
Qed.

(** *** The composed operations *)

(** [insert]'s first two stages: the key's old entry detached, room made. *)
Definition prepare_insert k b st : KeyedStore K V := evict_to_fit b (remove k st).

Lemma insert_eq k v b c st :
  insert k v b c st = (admit_entry k v b c (prepare_insert k b st), d_next (prepare_insert k b st)).
Proof. unfold insert, prepare_insert, remove. by destruct (d_map st !! k). Qed.

Lemma detach_frame k a st :
  d_tick (detach k a st) = d_tick st ∧ d_budget (detach k a st) = d_budget st ∧
  d_evictions (detach k a st) = d_evictions st ∧ d_next (detach k a st) = d_next st.
Proof. unfold detach. destruct (d_heap st !! a) as [e|]; [destruct (pins e =? 0)|]; done. Qed.

Lemma detach_map k a e st :
  d_heap st !! a = Some e → d_map (detach k a st) = delete k (d_map st).
Proof. intros Ha. unfold detach. rewrite Ha. by destruct (pins e =? 0). Qed.

Lemma remove_map k st holds : inv st holds → d_map (remove k st) = delete k (d_map st).
Proof.
  intros I. unfold remove. destruct (d_map st !! k) as [a|] eqn:Hk; [|by rewrite delete_id].
  destruct (inv_map _ _ I k a Hk) as (e & Ha & _). by eapply detach_map.
Qed.

Lemma remove_frame k st :
  d_tick (remove k st) = d_tick st ∧ d_budget (remove k st) = d_budget st ∧
  d_evictions (remove k st) = d_evictions st ∧ d_next (remove k st) = d_next st.
Proof. unfold remove. destruct (d_map st !! k); [apply detach_frame|done]. Qed.

Lemma prepare_insert_spec k b st holds :
  inv st holds →
  let st' := prepare_insert k b st in
  inv st' holds ∧ d_map st' !! k = None ∧ d_tick st' = d_tick st ∧ d_budget st' = d_budget st ∧
  evicted (remove k st) st' ∧
  (u64 (d_resident st' + b) <= d_budget st' ∨ ∀ k' a e, ¬ evictable st' k' a e).
Proof.
  intros I. pose proof (inv_remove k st holds I) as I1.
  destruct (evict_to_fit_spec b _ _ I1) as (I2 & E & Hend).
  destruct (remove_frame k st) as (Ht & Hb & _).
  split_and!; [done| | | |done|done].
  - unfold prepare_insert. destruct (ev_map _ _ E k) as [->|[-> _]]; [|done].
    by rewrite (remove_map k st holds I), lookup_delete_eq.
  - rewrite <- Ht. apply E.
  - rewrite <- Hb. apply E.
Qed.

Lemma inv_insert k v b c st holds :
  inv st holds → 0 <= b → within_bounds st holds →
  inv (insert k v b c st).1 ({[+ (insert k v b c st).2 +]} ⊎ holds).
Proof.
  intros I Hb [Ht Hm]. rewrite insert_eq. cbn [fst snd].
  destruct (prepare_insert_spec k b st holds I) as (I' & Hk & Et & _).
  apply inv_admit; [done..|]. split; [by rewrite Et|done].
Qed.

(** [remove_if] over a list of map entries: each match detached once. *)
Lemma remove_if_fold pred l st n holds :
  inv st holds → NoDup l.*1 → (∀ it, it ∈ l → d_map st !! it.1 = Some it.2) →
  let r := foldl (remove_if_step pred) (st, n) l in
  inv r.1 holds ∧ r.2 = n + Z.of_nat (length (filter (fun it => pred it.1 = true) l)) ∧
  d_evictions r.1 = d_evictions st ∧
  ∀ k, d_map r.1 !! k = if pred k && bool_decide (k ∈ l.*1) then None else d_map st !! k.
Proof.
  revert st n. induction l as [|[k a] l IH]; intros st n I Hnd Hin.
  { cbn. split_and!; [done|lia|done|]. intros k. by rewrite andb_false_r. }
  cbn [fmap list_fmap fst] in Hnd. apply NoDup_cons in Hnd as [Hk Hnd].
  assert (d_map st !! k = Some a) as Hka by (apply (Hin (k, a)); left).
  destruct (inv_map _ _ I k a Hka) as (e & Ha & _).
  cbn [foldl]. destruct (pred k) eqn:Hp.
  - assert (remove_if_step pred (st, n) (k, a) = (detach k a st, n + 1)) as ->
      by (unfold remove_if_step; cbn [fst snd]; by rewrite Hp).
    edestruct (IH (detach k a st) (n + 1)) as (I' & Hn & He & Hm); [by apply inv_detach|done| |].
    { intros it Hit. rewrite (detach_map k a e), lookup_delete_ne; [by apply Hin; right| |done].
      intros ->. apply Hk. by apply list_elem_of_fmap_2. }
    split_and!; [done| | |].
    + rewrite Hn, filter_cons_True by done. cbn [length]. lia.
    + rewrite He. apply detach_frame.
    + intros k'. rewrite Hm, (detach_map k a e) by done. cbn [fmap list_fmap fst].
      destruct (decide (k' = k)) as [->|Hne].
      * rewrite Hp, lookup_delete_eq, (bool_decide_true (k ∈ k :: _)) by left.
        by destruct (_ && _).
      * rewrite lookup_delete_ne by done. destruct (pred k'); cbn [andb]; [|done].
        by rewrite (bool_decide_ext (k' ∈ k :: l.*1) (k' ∈ l.*1)) by (rewrite elem_of_cons; tauto).
  - assert (remove_if_step pred (st, n) (k, a) = (st, n)) as ->
      by (unfold remove_if_step; cbn [fst snd]; by rewrite Hp).
    edestruct (IH st n) as (I' & Hn & He & Hm); [done|done| |].
    { intros it Hit. apply Hin. by right. }
    split_and!; [done| |done|].
    + rewrite Hn, filter_cons_False by (cbn; congruence). done.
    + intros k'. rewrite Hm. cbn [fmap list_fmap fst]. destruct (decide (k' = k)) as [->|Hne].
      * by rewrite Hp.
      * by rewrite (bool_decide_ext (k' ∈ k :: l.*1) (k' ∈ l.*1)) by (rewrite elem_of_cons; tauto).
Qed.

Lemma remove_if_spec pred st holds :
  inv st holds →
  let r := remove_if pred st in
  inv r.1 holds ∧
  r.2 = Z.of_nat (length (filter (fun it => pred it.1 = true) (map_to_list (d_map st)))) ∧
  d_evictions r.1 = d_evictions st ∧
  ∀ k, d_map r.1 !! k = if pred k then None else d_map st !! k.
Proof.
  intros I. destruct (remove_if_fold pred (map_to_list (d_map st)) st 0 holds) as (I' & Hn & He & Hm);
    [done|apply NoDup_fst_map_to_list|by intros [k a] ?%elem_of_map_to_list|].
  split_and!; [done|done|done|]. intros k. unfold remove_if. rewrite Hm.
  destruct (pred k); cbn [andb]; [|done]. destruct (bool_decide_reflect (k ∈ (map_to_list (d_map st)).*1)) as [|Hn']; [done|].
  destruct (d_map st !! k) as [a|] eqn:Hk; [|done]. exfalso. apply Hn'.
  apply (list_elem_of_fmap_2 fst _ (k, a)). by apply elem_of_map_to_list.
Qed.

(** ** The store and its clients as a transition system

    A state pairs the store with the holds its clients have; each operation is a
    step, and dropping a hold is the hold's destructor. *)
Inductive step : KeyedStore K V * gmultiset addr → KeyedStore K V * gmultiset addr → Prop :=
| step_insert st holds k v b c :
    within_bounds st holds → 0 <= b →
    step (st, holds) ((insert k v b c st).1, {[+ (insert k v b c st).2 +]} ⊎ holds)
| step_lookup st holds k :
    within_bounds st holds →
    step (st, holds) ((lookup k st).1, hold_of (lookup k st).2 ⊎ holds)
| step_reclassify st holds k c : step (st, holds) (reclassify k c st, holds)
| step_remove st holds k : step (st, holds) (remove k st, holds)
| step_remove_if st holds pred : step (st, holds) ((remove_if pred st).1, holds)
| step_drop st holds a :
    within_bounds st holds → a ∈ holds → step (st, holds) (unpin a st, holds ∖ {[+ a +]}).

Lemma inv_step s s' : step s s' → inv s.1 s.2 → inv s'.1 s'.2.
Proof.
  intros [st holds k v b c Hb ?|st holds k Hb|st holds k c|st holds k|st holds pred
    |st holds a Hb Hin] I; cbn [fst snd] in *.
  - by apply inv_insert.
  - by apply inv_lookup.
  - by apply inv_reclassify.
  - by apply inv_remove.
  - by apply (remove_if_spec pred).
  - apply inv_unpin; [done..|]. apply Hb.
Qed.

(** What an operation may do to the entries it does not own: an address keeps its
    value and size, or is unpinned and gone. *)
Definition keeps st st' : Prop :=
  ∀ a e, d_heap st !! a = Some e → pins e ≠ 0 →
    ∃ e', d_heap st' !! a = Some e' ∧ value e' = value e ∧ bytes e' = bytes e.

Lemma alter_keeps st st' a f :
  d_heap st' = alter f a (d_heap st) →
  (∀ e, value (f e) = value e ∧ bytes (f e) = bytes e) → keeps st st'.
Proof.
  intros Eh Hf a' e Ha _. rewrite Eh, lookup_alter.
  destruct (decide (a = a')) as [<-|]; [|eauto]. rewrite Ha. destruct (Hf e). eauto.
Qed.

(** Stability of pinned entries needs the pin to survive: the state a pinned entry
    is in after the step is read back from the invariant. *)
Lemma keeps_detach k a st : keeps st (detach k a st).
Proof.
  unfold detach. destruct (d_heap st !! a) as [e|] eqn:Ha; [|by intros a' e' ? _; eauto].
  destruct (Z.eqb_spec (pins e) 0).
  - intros a' e' Ha' Hp. exists e'. cbn. rewrite lookup_delete_ne; [done|]. intros <-. congruence.
  - by eapply (alter_keeps _ _ a (set_removed true)).
Qed.

Lemma keeps_remove k st : keeps st (remove k st).
Proof. unfold remove. destruct (d_map st !! k); [apply keeps_detach|]. intros a e ? _. eauto. Qed.

Lemma keeps_evicted st st' : evicted st st' → keeps st st'.
Proof.
  intros E a e Ha Hp. destruct (ev_heap _ _ E a) as [->|[_ (k & e' & _ & ? & ?)]]; [eauto|].
  congruence.
Qed.

Lemma keeps_trans st1 st2 st3 holds :
  inv st1 holds → inv st2 holds → keeps st1 st2 → keeps st2 st3 → keeps st1 st3.
Proof.
  intros I1 I2 H1 H2 a e Ha Hp. destruct (H1 a e Ha Hp) as (e2 & Ha2 & <- & <-).
  destruct (H2 a e2 Ha2) as (e3 & ? & ? & ?); [|eauto].
  rewrite (inv_pins _ _ I2 _ _ Ha2), <- (inv_pins _ _ I1 _ _ Ha). done.
Qed.

Lemma keeps_admit k v b c st holds : inv st holds → keeps st (admit_entry k v b c st).
Proof.
  intros I a e Ha _. exists e. cbn. rewrite lookup_insert_ne; [done|].
  intros <-. pose proof (inv_next _ _ I _ _ Ha). lia.
Qed.

Lemma keeps_insert k v b c st holds : inv st holds → keeps st (insert k v b c st).1.
Proof.
  intros I. rewrite insert_eq. pose proof (inv_remove k st holds I) as I1.
  destruct (prepare_insert_spec k b st holds I) as (I2 & _ & _ & _ & E & _).
  apply (keeps_trans _ (prepare_insert k b st) _ holds); [done|done| |by eapply keeps_admit].
  apply (keeps_trans _ (remove k st) _ holds); [done|done|apply keeps_remove|by apply keeps_evicted].
Qed.

Lemma keeps_lookup k st : keeps st (lookup k st).1.
Proof.
  unfold lookup. destruct (d_map st !! k) as [a|]; [|by intros a e ? _; eauto].
  by eapply (alter_keeps _ _ a (fun e => set_pins (u32 (pins e + 1))
    (set_recency (u64 (d_tick st + 1)) e))).
Qed.

Lemma keeps_reclassify k c st : keeps st (reclassify k c st).
Proof.
  unfold reclassify. destruct (d_map st !! k) as [a|]; [|by intros a e ? _; eauto].
  by eapply (alter_keeps _ _ a (set_klass c)).
Qed.

Lemma keeps_remove_if_fold pred l st n holds :
  inv st holds → NoDup l.*1 → (∀ it, it ∈ l → d_map st !! it.1 = Some it.2) →
  keeps st (foldl (remove_if_step pred) (st, n) l).1.
Proof.
  revert st n. induction l as [|[k a] l IH]; intros st n I Hnd Hin; [by intros a e ? _; eauto|].
  pose proof (remove_if_fold pred [(k, a)] st n holds I) as (I' & _ & _ & Hm).
  { apply NoDup_singleton. }
  { intros it ->%list_elem_of_singleton. apply Hin. by left. }
  cbn [foldl] in *. destruct (remove_if_step pred (st, n) (k, a)) as [st1 n1] eqn:Es.
  cbn [fmap list_fmap fst] in *. apply NoDup_cons in Hnd as [Hk Hnd].
  apply (keeps_trans _ st1 _ holds); [done|done| |apply IH; [done|done|]].
  - unfold remove_if_step in Es. cbn [fst snd] in Es. destruct (pred k); simplify_eq;
      [apply keeps_detach|intros ? ? ? _; eauto].
  - intros it Hit. rewrite Hm. rewrite bool_decide_false, andb_false_r; [apply Hin; by right|].
    intros Heq%list_elem_of_singleton. apply Hk. rewrite <- Heq. by apply list_elem_of_fmap_2.
Qed.

Lemma unpin_other a a' st : a' ≠ a → d_heap (unpin a st) !! a' = d_heap st !! a'.
Proof.
  intros Hne. unfold unpin. destruct (d_heap st !! a) as [e|] eqn:Ha; [|done].
  destruct (_ && _); cbn; rewrite ?lookup_delete_ne, lookup_alter_ne by done; done.
Qed.

Lemma unpin_self a e st :
  d_heap st !! a = Some e → u32 (pins e - 1) ≠ 0 →
  d_heap (unpin a st) !! a = Some (set_pins (u32 (pins e - 1)) e).
Proof.
  intros Ha Hp. unfold unpin. rewrite Ha. cbn [pins set_pins].
  rewrite (proj2 (Z.eqb_neq _ _)) by done. cbn. by rewrite lookup_alter_eq, Ha.
Qed.

Lemma step_keeps s s' a e :
  step s s' → inv s.1 s.2 → a ∈ s.2 → a ∈ s'.2 → d_heap s.1 !! a = Some e →
  ∃ e', d_heap s'.1 !! a = Some e' ∧ value e' = value e ∧ bytes e' = bytes e.
Proof.
  intros Hs I Hin Hin' Ha. assert (pins e ≠ 0) as Hp.
  { apply held_pos in Hin. rewrite (inv_pins _ _ I _ _ Ha). lia. }
  destruct Hs as [st holds k v b c Hb ?|st holds k Hb|st holds k c|st holds k|st holds pred
    |st holds a' Hb Hin2]; cbn [fst snd] in *.
  - by eapply keeps_insert.
  - by eapply keeps_lookup.
  - by eapply keeps_reclassify.
  - by eapply keeps_remove.
  - eapply (keeps_remove_if_fold pred (map_to_list (d_map st)) st 0 holds); try done.
    + apply NoDup_fst_map_to_list.
    + by intros [k b] ?%elem_of_map_to_list.
  - destruct (decide (a = a')) as [<-|Hne]; [|rewrite unpin_other by done; eauto].
    apply held_pos in Hin'. rewrite multiplicity_difference, multiplicity_singleton_eq in Hin'.
    rewrite (unpin_self a e); [eauto|done|].
    destruct Hb as [_ Hb]. specialize (Hb a). rewrite (inv_pins _ _ I _ _ Ha).
    rewrite u32_small by (unfold in_u32; lia). lia.
Qed.

Lemma reachable_inv budget s : rtc step (empty_store budget, ∅) s → inv s.1 s.2.
Proof.
  intros Hr. remember (empty_store budget, ∅) as s0 eqn:E0.
  assert (inv s0.1 s0.2) as I0 by (subst; apply inv_empty). clear E0.
  induction Hr as [|x y z Hxy _ IH]; [done|]. apply IH. by eapply inv_step.
Qed.

(** ** Properties *)

(** C38: every reachable state is well formed: the resident count is the sum of the
    sizes of all owned entries (orphans included) modulo 2^64, every key maps to
    its own live entry, an entry is an orphan exactly when it was removed while
    pinned, each entry's pin count is the number of holds on it, and no hold
    dangles. *)
Theorem reachable_well_formed (budget : Z) st holds
  (Hreach : rtc step (empty_store budget, ∅) (st, holds)) : inv st holds.
Proof.
  exact (reachable_inv budget _ Hreach).
Qed.

(** a pinned entry cannot be taken away: whatever the other holders do to the
    store -- inserts that evict, removals, invalidation sweeps -- a hold's entry
    stays allocated at its address with its value and size until the hold itself is
    dropped. *)
Theorem hold_keeps_value s s' a e
  (Hreach : ∃ budget, rtc step (empty_store budget, ∅) s)
  (Hstep : step s s') (Hin : a ∈ s.2) (Hin' : a ∈ s'.2) (Ha : d_heap s.1 !! a = Some e) :
  ∃ e', d_heap s'.1 !! a = Some e' ∧ value e' = value e ∧ bytes e' = bytes e.
Proof.
  eapply step_keeps; [done| |done..].
  destruct Hreach as [budget Hr]. exact (reachable_inv budget s Hr).
Qed.

Lemma detach_other k a st a' :
  a' ≠ a → d_heap (detach k a st) !! a' = d_heap st !! a'.
Proof.
  intros Hne. unfold detach. destruct (d_heap st !! a) as [e|]; [|done].
  destruct (pins e =? 0); cbn; [by rewrite lookup_delete_ne|by rewrite lookup_alter_ne].
Qed.

Lemma remove_evictable k k' a e st holds :
  inv st holds → k' ≠ k → evictable st k' a e → evictable (remove k st) k' a e.
Proof.
  intros I Hne (Hk & Ha & Hp). split_and!; [|unfold remove|done].
  - by rewrite (remove_map k st holds I), lookup_delete_ne.
  - destruct (d_map st !! k) as [a'|] eqn:Hk'; [|done]. rewrite detach_other; [done|].
    intros <-. apply Hne. by eapply (inv_inj _ _ I).
Qed.

(** [insert] stores the value under its key, pinned once, in the given class,
    and respects the soft budget: afterwards the resident bytes are within the
    budget, or every other entry still reachable is pinned. *)
Theorem insert_within_budget k v b c st holds
  (I : inv st holds) (Hb : 0 <= b) (Hbd : within_bounds st holds) :
  let st' := (insert k v b c st).1 in
  let a := (insert k v b c st).2 in
  d_map st' !! k = Some a ∧
  d_heap st' !! a = Some (mkEntry v b c (d_tick st + 1) 1 false) ∧
  (d_resident st' <= d_budget st' ∨
   ∀ k' a' e', k' ≠ k → d_map st' !! k' = Some a' → d_heap st' !! a' = Some e' → pins e' ≠ 0).
Proof.
  rewrite insert_eq. cbn [fst snd].
  destruct (prepare_insert_spec k b st holds I) as (I' & Hk & Et & Eb & _ & Hend).
  pose proof (inv_tick _ _ I). destruct Hbd as [Ht _].
  unfold admit_entry. cbn [d_map d_heap d_resident d_budget].
  rewrite !lookup_insert_eq, Et, (u64_small (d_tick st + 1)) by (unfold in_u64; lia).
  split_and!; [done..|]. destruct Hend as [Hfit|Hpinned]; [by left|right].
  intros k' a' e' Hne Hk' Ha' Hp. rewrite lookup_insert_ne in Hk' by done.
  apply (Hpinned k' a' e'). split_and!; [done| |done].
  rewrite lookup_insert_ne in Ha'; [done|]. intros <-.
  destruct (inv_map _ _ I' _ _ Hk') as (e & He & _). pose proof (inv_next _ _ I' _ _ He). lia.
Qed.

(** C39: eviction is LRU within priority classes: every entry an [insert] evicted
    was unpinned and precedes, by class and then by last use, every unpinned entry
    that survived. *)
Theorem insert_evicts_lru k v b c st holds k1 a1 e1 k2 a2 e2
  (I : inv st holds) (H1 : d_map st !! k1 = Some a1) (He1 : d_heap st !! a1 = Some e1)
  (Hne : k1 ≠ k) (Hgone : d_map (insert k v b c st).1 !! k1 = None)
  (H2 : evictable (insert k v b c st).1 k2 a2 e2) (Hne2 : k2 ≠ k) :
  pins e1 = 0 ∧ older e1 e2.
Proof.
  rewrite insert_eq in Hgone, H2. cbn [fst] in *.
  destruct (prepare_insert_spec k b st holds I) as (I' & _ & _ & _ & E & _).
  destruct H2 as (Hk2 & Ha2 & Hp2). unfold admit_entry in Hgone, Hk2, Ha2.
  cbn [d_map d_heap] in *. rewrite lookup_insert_ne in Hgone, Hk2 by done.
  assert (evictable (prepare_insert k b st) k2 a2 e2) as Hev2.
  { split_and!; [done| |done]. rewrite lookup_insert_ne in Ha2; [done|]. intros <-.
    destruct (inv_map _ _ I' _ _ Hk2) as (e & He & _). pose proof (inv_next _ _ I' _ _ He). lia. }
  assert (pins e1 = 0) as Hp1.
  { destruct (ev_map _ _ E k1) as [Em|[_ (a & e & Hm & Ha & Hp)]].
    - rewrite Em, (remove_map k st holds I), lookup_delete_ne in Hgone by done. congruence.
    - rewrite (remove_map k st holds I), lookup_delete_ne in Hm by done. simplify_eq.
      revert Ha. unfold remove. destruct (d_map st !! k) as [a'|] eqn:Hk'; [|congruence].
      rewrite detach_other; [congruence|]. intros ->. apply Hne. by eapply (inv_inj _ _ I). }
  split; [done|]. eapply (ev_order _ _ E); [|exact Hgone|exact Hev2].
  eapply remove_evictable; [done..|]. by split_and!.
Qed.

(** the victim does not depend on the hash table's iteration order: scanning
    the entries of a well-formed store in any order picks the same one. *)
Theorem evict_order_irrelevant c st holds (l : list (K * addr))
  (I : inv st holds) (Hl : l ≡ₚ map_to_list (d_map st)) :
  foldl (victim_step st c) None l = pick_in_class st c.
Proof.
  pose proof (scan_spec st c l None ltac:(done)) as H1.
  pose proof (scan_spec st c (map_to_list (d_map st)) None ltac:(done)) as H2.
  fold (pick_in_class st c) in H2. set (r1 := foldl _ None l) in *.
  assert (∀ it, it ∈ l ↔ it ∈ map_to_list (d_map st)) as Hin by (intros; by rewrite Hl).
  destruct r1 as [[k1 a1]|], (pick_in_class st c) as [[k2 a2]|]; cbn in H1, H2.
  - destruct H1 as (e1 & Hc1 & [Hi1|[=]] & Hm1), H2 as (e2 & Hc2 & [Hi2|[=]] & Hm2).
    pose proof (Hm1 (k2, a2) e2 (or_introl (proj2 (Hin _) Hi2)) Hc2).
    pose proof (Hm2 (k1, a1) e1 (or_introl (proj1 (Hin _) Hi1)) Hc1).
    destruct Hc1 as (Ha1 & _), Hc2 as (Ha2 & _). cbn in Ha1, Ha2.
    assert (a1 = a2) as -> by (eapply (inv_recency_inj _ _ I); [done..|lia]).
    apply Hin, elem_of_map_to_list in Hi1. apply elem_of_map_to_list in Hi2.
    by rewrite (inv_inj _ _ I _ _ _ Hi1 Hi2).
  - destruct H1 as (e1 & Hc1 & [Hi1|[=]] & _), H2 as [_ Hn]. exfalso.
    apply (Hn _ _ (proj1 (Hin _) Hi1) Hc1).
  - destruct H2 as (e2 & Hc2 & [Hi2|[=]] & _), H1 as [_ Hn]. exfalso.
    apply (Hn _ _ (proj2 (Hin _) Hi2) Hc2).
  - done.
Qed.

(** [lookup] is exact: it hits precisely the stored keys, pins the entry once
    more and makes it the most recent, counts the hit or the miss, and changes
    neither the resident bytes nor what any key maps to. *)
Theorem lookup_exact k st holds (I : inv st holds) (Hbd : within_bounds st holds) :
  let '(st', r) := lookup k st in
  r = d_map st !! k ∧ d_map st' = d_map st ∧ d_resident st' = d_resident st ∧
  d_evictions st' = d_evictions st ∧
  match d_map st !! k with
  | None => d_misses st' = u64 (d_misses st + 1) ∧ d_heap st' = d_heap st
  | Some a => d_hits st' = u64 (d_hits st + 1) ∧
      ∀ e, d_heap st !! a = Some e →
        d_heap st' = <[a := set_pins (pins e + 1) (set_recency (d_tick st + 1) e)]> (d_heap st)
  end.
Proof.
  destruct Hbd as [Ht Hm]. pose proof (inv_tick _ _ I). unfold lookup.
  destruct (d_map st !! k) as [a|] eqn:Hk; [|done]. split_and!; [done..|].
  intros e Ha. cbn. rewrite (u64_small (d_tick st + 1)) by (unfold in_u64; lia).
  apply map_eq. intros a'. rewrite lookup_alter, lookup_insert.
  destruct (decide (a = a')) as [<-|]; [|done]. rewrite Ha. cbn.
  rewrite u32_small; [done|]. rewrite (inv_pins _ _ I _ _ Ha). specialize (Hm a).
  unfold in_u32. lia.
Qed.

End invariant.

(** *** Witnesses: a ten-byte store with two entries, one of them still held *)

Section demo.

Definition demo0 : KeyedStore Z Z := empty_store 10.
Definition demo1 : KeyedStore Z Z := (insert 1 100 6 Recent demo0).1.
Definition demo2 : KeyedStore Z Z := unpin 0%nat demo1.
Definition demo3 : KeyedStore Z Z := (insert 2 200 3 Visible demo2).1.
Definition demo_holds : gmultiset addr := {[+ 1%nat +]}.

Lemma demo_within_bounds st (holds : gmultiset addr) :
  d_tick (K := Z) (V := Z) st = 0 ∨ d_tick st = 1 ∨ d_tick st = 2 →
  (∃ a, holds = {[+ a +]}) ∨ holds = ∅ → within_bounds st holds.
Proof.
  intros Ht Hh. split; [lia|]. intros a. destruct Hh as [[a' ->]| ->].
  - rewrite multiplicity_singleton. case_decide; lia.
  - rewrite multiplicity_empty. lia.
Qed.

Lemma demo_step1 : step (demo0, ∅) (demo1, {[+ 0%nat +]}).
Proof.
  rewrite <- (right_id_L ∅ (⊎) {[+ 0%nat +]}).
  apply (step_insert demo0 ∅ 1 100 6 Recent); [|lia]. apply demo_within_bounds; auto.
Qed.

Lemma demo_step2 : step (demo1, {[+ 0%nat +]}) (demo2, ∅).
Proof.
  assert (∅ = {[+ 0%nat +]} ∖ {[+ 0%nat +]} :> gmultiset addr) as Eq by multiset_solver.
  rewrite Eq. apply step_drop; [|multiset_solver]. apply demo_within_bounds; [|eauto].
  right; left. vm_compute. reflexivity.
Qed.

Lemma demo_step3 : step (demo2, ∅) (demo3, demo_holds).
Proof.
  unfold demo_holds. rewrite <- (right_id_L ∅ (⊎) {[+ 1%nat +]}).
  apply (step_insert demo2 ∅ 2 200 3 Visible); [|lia]. apply demo_within_bounds; [|auto].
  right; left. vm_compute. reflexivity.
Qed.

Lemma demo_reach2 : rtc step (demo0, ∅) (demo2, ∅).
Proof. eapply rtc_l; [apply demo_step1|]. eapply rtc_l; [apply demo_step2|]. apply rtc_refl. Qed.

Lemma demo_reach3 : rtc step (demo0, ∅) (demo3, demo_holds).
Proof. eapply rtc_r; [apply demo_reach2|apply demo_step3]. Qed.

Lemma demo_inv3 : inv demo3 demo_holds.
Proof. exact (reachable_inv 10 _ demo_reach3). Qed.

Lemma demo_bounds3 : within_bounds demo3 demo_holds.
Proof.
  apply demo_within_bounds; [|left; by eexists]. right; right. vm_compute. reflexivity.
Qed.

Definition demo4 : KeyedStore Z Z := (insert 3 300 5 Visible demo3).1.

Lemma reachable_well_formed_witness : inv demo3 demo_holds.
Proof. exact (reachable_well_formed 10 demo3 demo_holds demo_reach3). Defined.

(** Key 1, recently used at tick 1, leaves before the still resident key 2, once
    that one's hold is dropped. *)
Definition demo5 : KeyedStore Z Z := unpin 1%nat demo3.

Lemma demo_inv5 : inv demo5 ∅.
Proof.
  assert (∅ = demo_holds ∖ {[+ 1%nat +]}) as -> by (unfold demo_holds; multiset_solver).
  apply inv_unpin; [apply demo_inv3|unfold demo_holds; multiset_solver|apply demo_bounds3].
Qed.

Lemma insert_evicts_lru_witness :
  pins (mkEntry 100 6 Recent 1 0 false) = 0 ∧
  older (mkEntry 100 6 Recent 1 0 false) (mkEntry 200 3 Visible 2 0 false).
Proof.
  apply (insert_evicts_lru 3 300 5 Visible demo5 ∅ 1 0%nat _ 2 1%nat _);
    [apply demo_inv5|vm_compute; reflexivity|vm_compute; reflexivity|lia|vm_compute; reflexivity
    |split_and!; vm_compute; reflexivity|lia].
Defined.

End demo.
