(* ===== verification/Geometry.v ===== *)
(** Rectangles and damage: [src/src/base/arbc/base/geometry.hpp] and
    [src/src/model/arbc/model/damage.hpp].

    A [double] is the Standard Library's [spec_float] (IEEE 754 data with infinities
    and NaN); the code of these files only compares and selects doubles, so no
    rounding is involved.  [SFltb] is [<] (false on NaN).  The file shows that
    intersection tests and the damage union mean what they should on points: the
    accumulated damage of a set never under-reports what was added. *)

From Stdlib Require Import Floats.SpecFloat.
From S2P Require Import Prelude RationalTime Identity.

Local Open Scope Z_scope.

(** ** The code *)

Definition double : Type := spec_float.

#[export] Instance double_eq_dec : EqDecision double.
Proof. solve_decision. Defined.

(** [std::min(a, b)] and [std::max(a, b)]. *)
Definition dmin (a b : double) : double := if SFltb b a then b else a.
Definition dmax (a b : double) : double := if SFltb a b then b else a.

Record Rect := mkRect { x0 : double; y0 : double; x1 : double; y1 : double }.

Definition d_zero : double := S754_zero false.

Definition Rect_default : Rect := mkRect d_zero d_zero d_zero d_zero.

(** [Rect::infinite]. *)
Definition Rect_infinite : Rect :=
  mkRect (S754_infinity true) (S754_infinity true) (S754_infinity false) (S754_infinity false).

(** [Rect::from_size]. *)
Definition from_size (width height : double) : Rect := mkRect d_zero d_zero width height.

(** [Rect::empty]. *)
Definition rect_empty (r : Rect) : bool := negb (SFltb (x0 r) (x1 r) && SFltb (y0 r) (y1 r)).

(** [Rect::intersect]. *)
Definition rect_intersect (r other : Rect) : Rect :=
  mkRect (dmax (x0 r) (x0 other)) (dmax (y0 r) (y0 other))
         (dmin (x1 r) (x1 other)) (dmin (y1 r) (y1 other)).

(** [Damage]: an object, a region and a time range. *)
Record Damage := mkDamage { dm_object : ObjectId; dm_rect : Rect; dm_range : TimeRange }.

Definition rect_union (a b : Rect) : Rect :=
  if rect_empty a then b
  else if rect_empty b then a
  else mkRect (dmin (x0 a) (x0 b)) (dmin (y0 a) (y0 b)) (dmax (x1 a) (x1 b)) (dmax (y1 a) (y1 b)).

(** [std::min] and [std::max] on [int64_t]. *)
Definition range_union (a b : TimeRange) : TimeRange :=
  if range_empty a then b
  else if range_empty b then a
  else mkTimeRange
         (mkTime (Z.min (flicks (tr_start a)) (flicks (tr_start b))))
         (mkTime (Z.max (flicks (tr_end a)) (flicks (tr_end b)))).

(** [damage_add]: the first entry of the object is widened, or [d] is appended. *)
Fixpoint damage_add (set : list Damage) (d : Damage) : list Damage :=
  match set with
  | [] => [d]
  | e :: set =>
      if dm_object e =? dm_object d
      then mkDamage (dm_object e) (rect_union (dm_rect e) (dm_rect d))
                    (range_union (dm_range e) (dm_range d)) :: set
      else e :: damage_add set d
  end.

(** ** The order of doubles *)

(** Doubles other than NaN are ordered as triples: kind, exponent, significand. *)
Definition sf_key (x : double) : option (Z * Z * Z) :=
  match x with
  | S754_nan => None
  | S754_infinity true => Some (-2, 0, 0)
  | S754_finite true m e => Some (-1, - e, - Z.pos m)
  | S754_zero _ => Some (0, 0, 0)
  | S754_finite false m e => Some (1, e, Z.pos m)
  | S754_infinity false => Some (2, 0, 0)
  end.

Definition key_lt (a b : Z * Z * Z) : Prop :=
  let '(a1, a2, a3) := a in
  let '(b1, b2, b3) := b in
  a1 < b1 ∨ a1 = b1 ∧ (a2 < b2 ∨ a2 = b2 ∧ a3 < b3).

Definition is_number (x : double) : Prop := is_Some (sf_key x).

Lemma SFltb_key x y :
  SFltb x y = true ↔ ∃ a b, sf_key x = Some a ∧ sf_key y = Some b ∧ key_lt a b.
Proof.
  unfold SFltb, SFcompare.
  destruct x as [s|[]| |[] m e], y as [s'|[]| |[] m' e']; cbn [sf_key];
    try (split; [done|]; intros (a & b & [= <-] & [= <-] & Hlt); cbn in Hlt; lia);
    try (split; [intros _; eexists _, _; split_and!; [done..|]; cbn; lia|done]);
    try (split; [done|]; by intros (a & b & Ha & Hb & _)).
  all: change (Pos.compare_cont Eq m m') with (Pos.compare m m');
    destruct (Z.compare_spec e e'); [destruct (Pos.compare_spec m m')|..]; cbn;
    (split; [intros Hb; first [discriminate Hb | eexists _, _; split_and!; [done..|]; cbn; lia]
            |intros (a & b & [= <-] & [= <-] & Hlt); cbn in Hlt; first [done | lia]]).
Qed.

Lemma key_lt_trans a b c : key_lt a b → key_lt b c → key_lt a c.
Proof. destruct a as [[? ?] ?], b as [[? ?] ?], c as [[? ?] ?]. cbn. lia. Qed.

Lemma key_lt_total a b c : key_lt a c → ¬ key_lt a b → key_lt b c.
Proof. destruct a as [[? ?] ?], b as [[? ?] ?], c as [[? ?] ?]. cbn. lia. Qed.

Lemma SFltb_number x y : SFltb x y = true → is_number x ∧ is_number y.
Proof. intros (a & b & Ha & Hb & _)%SFltb_key. split; eexists; done. Qed.

Lemma SFltb_trans x y z : SFltb x y = true → SFltb y z = true → SFltb x z = true.
Proof.
  rewrite !SFltb_key. intros (a & b & Ha & Hb & H1) (b' & c & Hb' & Hc & H2). simplify_eq.
  exists a, c. split_and!; [done..|]. by eapply key_lt_trans.
Qed.

(** [x < z] and not [x < y] give [y < z], for numbers. *)
Lemma SFltb_cotrans x y z :
  is_number y → SFltb x z = true → SFltb x y = false → SFltb y z = true.
Proof.
  intros [b Hb]. rewrite <- (not_true_iff_false (SFltb x y)), !SFltb_key.
  intros (a & c & Ha & Hc & H1) H2. exists b, c. split_and!; [done..|].
  apply key_lt_total with a; [done|]. intros H3. apply H2. by exists a, b.
Qed.

Lemma SFltb_cotrans_r x y z :
  is_number y → SFltb x z = true → SFltb y z = false → SFltb x y = true.
Proof.
  intros Hy Hxz Hyz. destruct (SFltb x y) eqn:E; [done|].
  by rewrite (SFltb_cotrans x y z) in Hyz.
Qed.

Lemma dle_dmin_l p a b :
  is_number p → is_number a → is_number b → SFltb p a = false → SFltb p (dmin a b) = false.
Proof.
  intros Hp Ha Hb H. unfold dmin. destruct (SFltb b a) eqn:E; [|done].
  destruct (SFltb p b) eqn:E2; [|done]. by rewrite (SFltb_trans p b a) in H.
Qed.

Lemma dle_dmin_r p a b :
  is_number p → is_number a → is_number b → SFltb p b = false → SFltb p (dmin a b) = false.
Proof.
  intros Hp Ha Hb H. unfold dmin. destruct (SFltb b a) eqn:E; [done|].
  destruct (SFltb p a) eqn:E2; [|done]. by rewrite (SFltb_cotrans_r p b a) in H.
Qed.

Lemma dlt_dmax_l p a b :
  is_number b → SFltb p a = true → SFltb p (dmax a b) = true.
Proof.
  intros Hb H. unfold dmax. destruct (SFltb a b) eqn:E; [|done]. by eapply SFltb_trans.
Qed.

Lemma dlt_dmax_r p a b :
  is_number a → SFltb p b = true → SFltb p (dmax a b) = true.
Proof.
  intros Ha H. unfold dmax. destruct (SFltb a b) eqn:E; [done|]. by apply (SFltb_cotrans_r p a b).
Qed.

Lemma dle_dmax p a b :
  is_number p → is_number a → is_number b →
  SFltb p (dmax a b) = false ↔ SFltb p a = false ∧ SFltb p b = false.
Proof.
  intros Hp Ha Hb. split.
  - intros H. rewrite <- !(not_true_iff_false (SFltb p _)).
    split; intros H'; [rewrite dlt_dmax_l in H|rewrite dlt_dmax_r in H]; done.
  - intros [? ?]. unfold dmax. by destruct (SFltb a b).
Qed.

Lemma dlt_dmin p a b :
  is_number p → is_number a → is_number b →
  SFltb p (dmin a b) = true ↔ SFltb p a = true ∧ SFltb p b = true.
Proof.
  intros Hp Ha Hb. unfold dmin. destruct (SFltb b a) eqn:E; (split; [|by intros [? ?]]).
  - intros H. split; [by apply SFltb_trans with b|done].
  - intros H. split; [done|]. destruct (SFltb p b) eqn:E2; [done|].
    by rewrite (SFltb_cotrans p b a) in E.
Qed.

(** ** Points *)

(** A point is in a rectangle when the rectangle is not empty and the half-open
    bounds hold. *)
Definition rect_contains (r : Rect) (p : double * double) : bool :=
  negb (rect_empty r) && negb (SFltb p.1 (x0 r)) && SFltb p.1 (x1 r)
  && negb (SFltb p.2 (y0 r)) && SFltb p.2 (y1 r).

Definition rect_numbers (r : Rect) : Prop :=
  is_number (x0 r) ∧ is_number (y0 r) ∧ is_number (x1 r) ∧ is_number (y1 r).

Lemma rect_nonempty r :
  rect_empty r = false ↔ SFltb (x0 r) (x1 r) = true ∧ SFltb (y0 r) (y1 r) = true.
Proof. unfold rect_empty. by rewrite negb_false_iff, andb_true_iff. Qed.

Lemma rect_nonempty_numbers r : rect_empty r = false → rect_numbers r.
Proof.
  intros [[? ?]%SFltb_number [? ?]%SFltb_number]%rect_nonempty. done.
Qed.

Lemma rect_contains_spec r p :
  rect_contains r p = true ↔
  rect_empty r = false ∧ SFltb p.1 (x0 r) = false ∧ SFltb p.1 (x1 r) = true ∧
  SFltb p.2 (y0 r) = false ∧ SFltb p.2 (y1 r) = true.
Proof. unfold rect_contains. rewrite !andb_true_iff, !negb_true_iff. tauto. Qed.

Lemma SFltb_irrefl x : SFltb x x = false.
Proof.
  destruct (SFltb x x) eqn:E; [|done]. apply SFltb_key in E as (a & b & Ha & Hb & Hlt).
  rewrite Ha in Hb. injection Hb as <-. destruct a as [[? ?] ?]. cbn in Hlt. lia.
Qed.

Lemma rect_contains_corner r : rect_empty r = false → rect_contains r (x0 r, y0 r) = true.
Proof.
  intros Hr. apply rect_contains_spec. cbn. rewrite !SFltb_irrefl. pose proof (proj1 (rect_nonempty r) Hr) as [? ?]. done.
Qed.

(** The bounds of a nonempty rectangle follow from a point between them. *)
Lemma between_lt p a b :
  is_number a → SFltb p a = false → SFltb p b = true → SFltb a b = true.
Proof. intros. by apply (SFltb_cotrans p a b). Qed.

Lemma rect_intersect_contains r o p :
  rect_numbers r → rect_numbers o →
  rect_contains (rect_intersect r o) p = true ↔
  rect_contains r p = true ∧ rect_contains o p = true.
Proof.
  intros (? & ? & ? & ?) (? & ? & ? & ?). rewrite !rect_contains_spec.
  assert (∀ a b, is_number a → is_number b → is_number (dmax a b)) as Hmax.
  { intros a b. unfold dmax. by destruct (SFltb a b). }
  split.
  - intros (_ & P1 & P2 & P3 & P4). cbn in *.
    pose proof (SFltb_number _ _ P2) as [? _]. pose proof (SFltb_number _ _ P4) as [? _].
    rewrite dle_dmax in P1, P3 by done. rewrite dlt_dmin in P2, P4 by done.
    rewrite !rect_nonempty. destruct P1, P2, P3, P4.
    split_and!; try done; first [by apply (between_lt p.1) | by apply (between_lt p.2)].
  - intros ((_ & P1 & P2 & P3 & P4) & (_ & P5 & P6 & P7 & P8)). cbn.
    pose proof (SFltb_number _ _ P2) as [? _]. pose proof (SFltb_number _ _ P4) as [? _].
    rewrite rect_nonempty. cbn.
    rewrite !dle_dmax, (dlt_dmin p.1), (dlt_dmin p.2) by done.
    split_and!; try done;
      [apply (between_lt p.1) | apply (between_lt p.2)];
      rewrite ?dle_dmax, ?dlt_dmin by done; auto.
Qed.

(** ** Unions *)

Lemma rect_union_l a b p : rect_contains a p = true → rect_contains (rect_union a b) p = true.
Proof.
  intros Hp. unfold rect_union. destruct (rect_empty a) eqn:Ea.
  { apply rect_contains_spec in Hp as [? _]. congruence. }
  destruct (rect_empty b) eqn:Eb; [done|].
  destruct (rect_nonempty_numbers a Ea) as (? & ? & ? & ?).
  destruct (rect_nonempty_numbers b Eb) as (? & ? & ? & ?).
  apply rect_contains_spec in Hp as (_ & Q1 & Q2 & Q3 & Q4).
  pose proof (SFltb_number _ _ Q2) as [? _]. pose proof (SFltb_number _ _ Q4) as [? _].
  assert (∀ a b, is_number a → is_number b → is_number (dmin a b)) as Hmin.
  { intros u v. unfold dmin. by destruct (SFltb v u). }
  apply rect_contains_spec. rewrite rect_nonempty. cbn.
  split_and!; [apply (between_lt p.1)|apply (between_lt p.2)|..];
    auto using dle_dmin_l, dlt_dmax_l.
Qed.

Lemma rect_union_r a b p : rect_contains b p = true → rect_contains (rect_union a b) p = true.
Proof.
  intros Hp. unfold rect_union. destruct (rect_empty a) eqn:Ea; [done|].
  destruct (rect_empty b) eqn:Eb.
  { apply rect_contains_spec in Hp as [? _]. congruence. }
  destruct (rect_nonempty_numbers a Ea) as (? & ? & ? & ?).
  destruct (rect_nonempty_numbers b Eb) as (? & ? & ? & ?).
  apply rect_contains_spec in Hp as (_ & Q1 & Q2 & Q3 & Q4).
  pose proof (SFltb_number _ _ Q2) as [? _]. pose proof (SFltb_number _ _ Q4) as [? _].
  assert (∀ a b, is_number a → is_number b → is_number (dmin a b)) as Hmin.
  { intros u v. unfold dmin. by destruct (SFltb v u). }
  apply rect_contains_spec. rewrite rect_nonempty. cbn.
  split_and!; [apply (between_lt p.1)|apply (between_lt p.2)|..];
    auto using dle_dmin_r, dlt_dmax_r.
Qed.

Lemma range_union_contains a b t :
  range_contains a t = true ∨ range_contains b t = true →
  range_contains (range_union a b) t = true.
Proof.
  unfold range_union, range_contains, range_empty. rewrite !andb_true_iff.
  intros Hor. repeat case_match; cbn; rewrite ?andb_true_iff; bool_to_prop; lia.
Qed.

(** ** The damage set *)

(** The object, point and instant [x] are reported by the damage [d]. *)
Definition reports (d : Damage) (x : ObjectId * (double * double) * Time) : bool :=
  let '(o, p, t) := x in
  (dm_object d =? o) && rect_contains (dm_rect d) p && range_contains (dm_range d) t.

Lemma damage_add_covers set d x :
  reports d x = true ∨ (∃ e, e ∈ set ∧ reports e x = true) →
  ∃ e, e ∈ damage_add set d ∧ reports e x = true.
Proof.
  destruct x as [[o p] t]. induction set as [|e set IH]; cbn [damage_add].
  - intros [Hr|(e & ?%not_elem_of_nil & _)]; [|done]. exists d. split; [by left|done].
  - intros Hor. destruct (Z.eqb_spec (dm_object e) (dm_object d)) as [Heq|Hne].
    + assert (reports d (o, p, t) = true ∨ reports e (o, p, t) = true
              ∨ ∃ e', e' ∈ set ∧ reports e' (o, p, t) = true) as [Hd|[He|(e' & ? & ?)]].
      { destruct Hor as [?|(e' & [->|?]%elem_of_cons & ?)]; eauto. }
      * eexists. split; [by left|]. cbn in Hd |- *. rewrite !andb_true_iff in *.
        destruct Hd as [[Ho Hp] Ht]. rewrite Heq.
        split_and!; [done|by apply rect_union_r|apply range_union_contains; auto].
      * eexists. split; [by left|]. cbn in He |- *. rewrite !andb_true_iff in *.
        destruct He as [[Ho Hp] Ht].
        split_and!; [done|by apply rect_union_l|apply range_union_contains; auto].
      * exists e'. split; [by right|done].
    + destruct Hor as [?|(e' & [->|?]%elem_of_cons & ?)].
      * destruct IH as (e' & ? & ?); [by left|]. exists e'. split; [by right|done].
      * exists e. split; [by left|done].
      * destruct IH as (e'' & ? & ?); [right; eauto|]. exists e''. split; [by right|done].
Qed.

Lemma damage_add_objects set d o :
  o ∈ map dm_object (damage_add set d) ↔ o = dm_object d ∨ o ∈ map dm_object set.
Proof.
  induction set as [|e set IH]; cbn [damage_add map]; [by rewrite !elem_of_cons|].
  destruct (Z.eqb_spec (dm_object e) (dm_object d)) as [<-|Hne]; cbn [map dm_object].
  - rewrite !elem_of_cons. tauto.
  - rewrite !elem_of_cons, IH. tauto.
Qed.

Lemma damage_add_nodup set d :
  NoDup (map dm_object set) → NoDup (map dm_object (damage_add set d)).
Proof.
  induction set as [|e set IH]; cbn [damage_add map]; [intros _; apply NoDup_singleton|].
  intros [He Hnd]%NoDup_cons.
  destruct (Z.eqb_spec (dm_object e) (dm_object d)) as [|Hne]; cbn [map dm_object].
  - by apply NoDup_cons.
  - apply NoDup_cons. rewrite damage_add_objects. split; [intros [?|?]; [by apply Hne|done]|by apply IH].
Qed.

(** ** Properties *)

(** the intersection test of damage against a footprint is exact: for
    rectangles without NaN, the intersection contains exactly the common points,
    and it is non-empty exactly when there is one. *)
Theorem intersect_exact (r o : Rect) (Hr : rect_numbers r) (Ho : rect_numbers o) :
  (∀ p, rect_contains (rect_intersect r o) p = rect_contains r p && rect_contains o p) ∧
  (rect_empty (rect_intersect r o) = false ↔
   ∃ p, rect_contains r p = true ∧ rect_contains o p = true).
Proof.
  split.
  - intros p. apply eq_true_iff_eq. rewrite andb_true_iff. by apply rect_intersect_contains.
  - split.
    + intros Hne%rect_contains_corner. eexists. by apply rect_intersect_contains.
    + intros (p & Hp). apply rect_intersect_contains in Hp; [|done..].
      by apply rect_contains_spec in Hp as [? _].
Qed.

(** accumulated damage never under-reports: after any sequence of
    [damage_add]s the set has one entry per damaged object, and every point and
    instant some added damage reported is still reported. *)
Theorem damage_accumulates (ds : list Damage) :
  let set := foldl damage_add [] ds in
  NoDup (map dm_object set) ∧
  (∀ o, o ∈ map dm_object set ↔ o ∈ map dm_object ds) ∧
  (∀ d x, d ∈ ds → reports d x = true → ∃ e, e ∈ set ∧ reports e x = true).
Proof.
  induction ds as [|d ds IH] using rev_ind.
  { cbn. split_and!; [constructor|done|by intros d x ?%not_elem_of_nil]. }
  cbv zeta in *. destruct IH as (Hnd & Hobj & Hcov). rewrite foldl_app. cbn [foldl].
  split_and!.
  - by apply damage_add_nodup.
  - intros o. rewrite damage_add_objects, Hobj, map_app, elem_of_app. cbn.
    rewrite list_elem_of_singleton. tauto.
  - intros d' x [Hin| ->%list_elem_of_singleton]%elem_of_app Hr; apply damage_add_covers; eauto.
Qed.
