(* ===== verification/CacheKeys.v ===== *)
(** Cache keys, invalidation and prefetch:
    [src/src/cache/arbc/cache/key_shapes.hpp], [invalidation.hpp] and
    [prefetch.hpp].

    The tile and block keys with their hashes, the invalidation sweeps over
    [KeyedStore::remove_if], and the prefetch rings.  The tile geometry
    ([Geom]) is the caller's and a parameter here, as in the source; the cached
    value is opaque to this layer.  Tile coordinates and bucket indices are the
    mathematical integers: a sum that left [int32_t]/[int64_t] would be undefined
    in the source. *)

From stdpp Require Import gmultiset.
From S2P Require Import Prelude RationalTime Identity Geometry KeyedStore.

Local Open Scope Z_scope.

(** ** Keys *)

Record ScaleRung := mkRung { rung_index : Z }.
Record TileCoord := mkCoord { col : Z; row : Z }.

Record TileKey := mkTileKey {
  tk_content : ObjectId; tk_revision : Z; tk_rung : ScaleRung; tk_coord : TileCoord;
  tk_achieved_time : option Time }.

Record BlockKey := mkBlockKey {
  bk_content : ObjectId; bk_revision : Z; bk_block_index : Z; bk_rate : Z;
  bk_spatial_digest : Z }.

(** Member-wise equality, and the encodings that let keys index finite maps. *)
#[export] Instance ObjectId_eq_dec : EqDecision ObjectId := Z.eq_dec.
#[export] Instance ScaleRung_eq_dec : EqDecision ScaleRung.
Proof. solve_decision. Defined.
#[export] Instance TileCoord_eq_dec : EqDecision TileCoord.
Proof. solve_decision. Defined.
#[export] Instance TileKey_eq_dec : EqDecision TileKey.
Proof. solve_decision. Defined.
#[export] Instance BlockKey_eq_dec : EqDecision BlockKey.
Proof. solve_decision. Defined.

Definition tile_key_tuple (k : TileKey) : Z * Z * Z * Z * Z * option Z :=
  (tk_content k, tk_revision k, rung_index (tk_rung k), col (tk_coord k), row (tk_coord k),
   flicks <$> tk_achieved_time k).

#[export] Instance TileKey_countable : Countable TileKey.
Proof.
  apply (inj_countable' tile_key_tuple (fun '(c, r, i, x, y, t) =>
    mkTileKey c r (mkRung i) (mkCoord x y) (mkTime <$> t))).
  by intros [? ? [] [] [[]|]].
Defined.

#[export] Instance BlockKey_countable : Countable BlockKey.
Proof.
  apply (inj_countable' (fun k => (bk_content k, bk_revision k, bk_block_index k, bk_rate k,
                                   bk_spatial_digest k) : Z * Z * Z * Z * Z)
    (fun '(c, r, i, x, y) => mkBlockKey c r i x y)).
  by intros [].
Defined.

(** ** Hashing *)

(** [detail::key_hash_combine]. *)
Definition key_hash_combine (seed value : Z) : Z :=
  Z.lxor seed (u64 (value + 0x9e3779b97f4a7c15 + u64 (Z.shiftl seed 6) + Z.shiftr seed 2)).

Section hash.
(** The standard library's integer hashes. *)
Variable std_hash : Z → Z.

Definition tile_key_hash (key : TileKey) : Z :=
  let h := std_hash (tk_content key) in
  let h := key_hash_combine h (std_hash (tk_revision key)) in
  let h := key_hash_combine h (std_hash (rung_index (tk_rung key))) in
  let h := key_hash_combine h (std_hash (col (tk_coord key))) in
  let h := key_hash_combine h (std_hash (row (tk_coord key))) in
  match tk_achieved_time key with
  | Some t => key_hash_combine (key_hash_combine h (std_hash (flicks t))) 0x9ddfea08eb382d69
  | None => key_hash_combine h 0x2545f4914f6cdd1d
  end.

Definition block_key_hash (key : BlockKey) : Z :=
  let h := std_hash (bk_content key) in
  let h := key_hash_combine h (std_hash (bk_revision key)) in
  let h := key_hash_combine h (std_hash (bk_block_index key)) in
  let h := key_hash_combine h (std_hash (bk_rate key)) in
  key_hash_combine h (std_hash (bk_spatial_digest key)).
End hash.

(** [tile_byte_cost], over the surface's extent and pixel size. *)
Definition tile_byte_cost (width height bytes_per_pixel : Z) : Z :=
  u64 (u64 (u64 width * u64 height) * bytes_per_pixel).

(** ** Invalidation *)

Section invalidation.
Context {V : Type}.
Implicit Types (cache : KeyedStore TileKey V).

Definition region_match (content : ObjectId) (region : Rect)
    (tile_rect : ScaleRung → TileCoord → Rect) (key : TileKey) : bool :=
  if negb (tk_content key =? content) then false
  else
    let footprint := tile_rect (tk_rung key) (tk_coord key) in
    negb (rect_empty (rect_intersect footprint region)).

Definition invalidate_region cache content region tile_rect : KeyedStore TileKey V * Z :=
  remove_if (region_match content region tile_rect) cache.

Definition invalidate_content cache (content : ObjectId) : KeyedStore TileKey V * Z :=
  remove_if (fun key => tk_content key =? content) cache.

Definition drop_superseded cache (content : ObjectId) (live_revision : Z)
  : KeyedStore TileKey V * Z :=
  remove_if (fun key => (tk_content key =? content) && (tk_revision key <? live_revision)) cache.
End invalidation.

(** ** Prefetch *)

(** The time axis a key shape defines: [prefetch_temporal_step], one overload a
    key type. *)
Class TemporalKey (K : Type) := prefetch_temporal_step : K → Z → Time → K.

(** Only keys with an achieved time are passed; without one the source's
    dereference is undefined and the model keeps the key. *)
#[export] Instance tile_temporal : TemporalKey TileKey := fun base buckets step =>
  match tk_achieved_time base with
  | Some t => mkTileKey (tk_content base) (tk_revision base) (tk_rung base) (tk_coord base)
                (Some (mkTime (flicks t + buckets * flicks step)))
  | None => base
  end.

#[export] Instance block_temporal : TemporalKey BlockKey := fun base buckets _ =>
  mkBlockKey (bk_content base) (bk_revision base) (bk_block_index base + buckets)
    (bk_rate base) (bk_spatial_digest base).

Definition neighbour (v : TileKey) (dr dc : Z) : TileKey :=
  mkTileKey (tk_content v) (tk_revision v) (tk_rung v)
    (mkCoord (col (tk_coord v) + dc) (row (tk_coord v) + dr)) (tk_achieved_time v).

(** The loop bounds [-radius .. radius]. *)
Definition ring_offsets (radius : Z) : list Z := seqZ (- radius) (2 * radius + 1).

(** [pan_prefetch_ring]: the innermost body, [emitted] being the ring so far. *)
Definition pan_body (visible : list TileKey) (v : TileKey) (ring : list TileKey) (d : Z * Z)
  : list TileKey :=
  let '(dr, dc) := d in
  if (dc =? 0) && (dr =? 0) then ring
  else
    let n := neighbour v dr dc in
    if bool_decide (n ∈ visible) then ring
    else if bool_decide (n ∈ ring) then ring
    else ring ++ [n].

Definition pan_offsets (radius : Z) : list (Z * Z) :=
  dr ← ring_offsets radius; dc ← ring_offsets radius; [(dr, dc)].

Definition pan_prefetch_ring (visible : list TileKey) (radius : Z) : list TileKey :=
  foldl (fun ring v => foldl (pan_body visible v) ring (pan_offsets radius)) [] visible.

(** [temporal_prefetch_ring]. *)
Definition temporal_prefetch_ring {K} `{TemporalKey K} (base : K) (direction : Z)
    (step horizon : Time) : list K :=
  if (flicks step <=? 0) || (flicks horizon <=? 0) then []
  else
    let max_k := flicks horizon ÷ flicks step in
    let sign := if direction <? 0 then -1 else 1 in
    map (fun k => prefetch_temporal_step base (sign * k) step) (seqZ 1 max_k).

(** [prime_ring]: the probe's hold dies with the [if] condition, so the entry is
    unpinned before it is retagged. *)
Section prime.
Context {K V : Type} `{Countable K}.

Definition prime_step (klass : PriorityClass) (acc : KeyedStore K V * list K) (key : K)
  : KeyedStore K V * list K :=
  match lookup key acc.1 with
  | (st, Some a) => (reclassify key klass (unpin a st), acc.2)
  | (st, None) => (st, acc.2 ++ [key])
  end.

Definition prime_ring (store : KeyedStore K V) (ring : list K) (klass : PriorityClass)
  : KeyedStore K V * list K :=
  foldl (prime_step klass) (store, []) ring.
End prime.

(** ** Priming *)

Section prime_lemmas.
Context {K V : Type} `{Countable K}.
Implicit Types (st : KeyedStore K V) (holds : gmultiset addr) (k : K) (ring : list K).

(** Room for [n] more lookups, one hold above the outstanding ones. *)
Definition room_for (n : Z) st holds : Prop :=
  d_tick st + n < 2 ^ 64 ∧ ∀ a, Z.of_nat (multiplicity a holds) + 2 < 2 ^ 32.

(** A resident key's probe and retag, as one update of its entry. *)
Lemma prime_hit k c a e st holds :
  inv st holds → room_for 1 st holds → d_map st !! k = Some a → d_heap st !! a = Some e →
  reclassify k c (unpin a (lookup k st).1) =
  mkStore (d_budget st) (d_resident st) (d_tick st + 1) (u64 (d_hits st + 1)) (d_misses st)
    (d_evictions st) (d_map st) (d_orphans st)
    (<[a := mkEntry (value e) (bytes e) c (d_tick st + 1) (pins e) false]> (d_heap st)) (d_next st).
Proof.
  intros I [Ht Hm] Hk Ha. destruct (inv_map _ _ I k a Hk) as (e' & He' & Hr). simplify_eq.
  pose proof (inv_tick _ _ I). pose proof (inv_pins _ _ I a e Ha) as Hp. specialize (Hm a).
  assert (u64 (d_tick st + 1) = d_tick st + 1) as Et by (apply u64_small; unfold in_u64; lia).
  assert (u32 (u32 (pins e + 1) - 1) = pins e) as Ep.
  { rewrite (u32_small (pins e + 1)) by (unfold in_u32; lia).
    rewrite u32_small by (unfold in_u32; lia). lia. }
  unfold lookup. rewrite Hk, Et. unfold unpin, update_entry, set_counters.
  cbn [fst d_heap]. rewrite lookup_alter_eq, Ha.
  cbn [fmap option_fmap option_map pins set_pins set_recency removed].
  rewrite Hr, Ep, andb_false_r. unfold reclassify. cbn [d_map]. rewrite Hk. unfold update_entry.
  cbn [d_budget d_resident d_tick d_hits d_misses d_evictions d_map d_orphans d_heap d_next].
  f_equal. apply map_eq. intros a'. rewrite !lookup_alter, lookup_insert.
  destruct (decide (a = a')) as [<-|]; [|done]. rewrite !decide_True by done.
  rewrite Ha. unfold set_klass, set_pins, set_recency. cbn. by rewrite Hr.
Qed.

(** What priming leaves alone, and the class it gives to the ring's entries. *)
Record primed (c : PriorityClass) ring st st' : Prop := {
  pr_map : d_map st' = d_map st;
  pr_resident : d_resident st' = d_resident st;
  pr_evictions : d_evictions st' = d_evictions st;
  pr_tick : d_tick st' <= d_tick st + Z.of_nat (length ring);
  pr_heap a e : d_heap st !! a = Some e → ∃ e', d_heap st' !! a = Some e' ∧
    value e' = value e ∧ bytes e' = bytes e ∧ pins e' = pins e ∧ removed e' = removed e ∧
    klass e' = if bool_decide (Exists (fun k => d_map st !! k = Some a) ring) then c else klass e;
}.

Lemma primed_nil c st : primed c [] st st.
Proof.
  split; [done..|cbn; lia|]. intros a e Ha. exists e. rewrite bool_decide_false; [done|].
  by intros ?%Exists_nil.
Qed.

Lemma primed_trans c k ring st1 st2 st3 :
  primed c [k] st1 st2 → primed c ring st2 st3 → primed c (k :: ring) st1 st3.
Proof.
  intros H1 H2. split.
  - by rewrite (pr_map _ _ _ _ H2), (pr_map _ _ _ _ H1).
  - by rewrite (pr_resident _ _ _ _ H2), (pr_resident _ _ _ _ H1).
  - by rewrite (pr_evictions _ _ _ _ H2), (pr_evictions _ _ _ _ H1).
  - pose proof (pr_tick _ _ _ _ H1). pose proof (pr_tick _ _ _ _ H2). cbn [length] in *. lia.
  - intros a e Ha. destruct (pr_heap _ _ _ _ H1 a e Ha) as (e2 & Ha2 & ? & ? & ? & ? & Hc2).
    destruct (pr_heap _ _ _ _ H2 a e2 Ha2) as (e3 & Ha3 & ? & ? & ? & ? & Hc3).
    exists e3. split_and!; [congruence..|]. rewrite Hc3, Hc2, (pr_map _ _ _ _ H1).
    destruct (bool_decide_reflect (Exists (fun k => d_map st1 !! k = Some a) ring)) as [Hr|Hr];
      [rewrite bool_decide_true by (by apply Exists_cons; right); done|].
    apply (f_equal (fun b : bool => if b then c else klass e)).
    apply bool_decide_ext. rewrite !Exists_cons, Exists_nil. tauto.
Qed.

Lemma prime_step_spec c k st holds absent :
  inv st holds → room_for 1 st holds →
  let r := prime_step c (st, absent) k in
  inv r.1 holds ∧ primed c [k] st r.1 ∧
  r.2 = absent ++ (if decide (is_Some (d_map st !! k)) then [] else [k]).
Proof.
  intros I Hroom. assert (within_bounds st holds) as Hb.
  { destruct Hroom as [? Hm]. split; [lia|]. intros a. specialize (Hm a). lia. }
  pose proof (inv_lookup k st holds I Hb) as IL.
  unfold prime_step. cbn [fst snd]. destruct (d_map st !! k) as [a|] eqn:Hk.
  - destruct (inv_map _ _ I k a Hk) as (e & Ha & Hr).
    assert ((lookup k st).2 = Some a) as El by (unfold lookup; by rewrite Hk).
    destruct (lookup k st) as [st1 r] eqn:E. cbn [fst snd] in *. subst r. cbn [hold_of] in IL.
    pose proof (prime_hit k c a e st holds I Hroom Hk Ha) as Eh. rewrite E in Eh. cbn [fst] in Eh.
    split_and!.
    + apply inv_reclassify.
      assert (holds = ({[+ a +]} ⊎ holds) ∖ {[+ a +]}) as -> by multiset_solver.
      apply inv_unpin; [done|multiset_solver|]. destruct Hroom as [_ Hm]. intros a'.
      specialize (Hm a'). rewrite multiplicity_disj_union, multiplicity_singleton. case_decide; lia.
    + rewrite Eh. split; cbn; [done..|lia|]. intros a' e' Ha'. rewrite lookup_insert.
      destruct (decide (a = a')) as [<-|Hne].
      * simplify_eq. eexists. split; [done|]. cbn. rewrite Hr.
        by rewrite bool_decide_true by (by apply Exists_cons; left).
      * exists e'. rewrite bool_decide_false; [done|].
        intros [?|?%Exists_nil]%Exists_cons; congruence.
    + rewrite decide_True by eauto. by rewrite app_nil_r.
  - assert (lookup k st = (set_counters (d_tick st) (d_hits st) (u64 (d_misses st + 1)) st, None)) as E
      by (unfold lookup; by rewrite Hk).
    rewrite E in *. cbn [fst snd hold_of] in *.
    rewrite (left_id_L ∅ (⊎)) in IL. split_and!; [done| |].
    + split; cbn; [done..|lia|]. intros a e Ha. exists e. rewrite bool_decide_false; [done|].
      intros [?|?%Exists_nil]%Exists_cons; congruence.
    + rewrite decide_False by (by intros [? [=]]). done.
Qed.

Lemma prime_fold_spec c ring st holds absent :
  inv st holds → room_for (Z.of_nat (length ring)) st holds →
  let r := foldl (prime_step c) (st, absent) ring in
  inv r.1 holds ∧ primed c ring st r.1 ∧
  r.2 = absent ++ filter (fun k => d_map st !! k = None) ring.
Proof.
  revert st absent. induction ring as [|k ring IH]; intros st absent I Hroom.
  { cbn. split_and!; [done|apply primed_nil|by rewrite app_nil_r]. }
  cbn [length foldl] in *. destruct (prime_step_spec c k st holds absent) as (I1 & P1 & E1); [done| |].
  { destruct Hroom. split; [lia|done]. }
  destruct (prime_step c (st, absent) k) as [st1 ab1]. cbn [fst snd] in *. subst ab1.
  edestruct (IH st1) as (I2 & P2 & E2); [done| |].
  { destruct Hroom as [Ht Hm]. pose proof (pr_tick _ _ _ _ P1). cbn in *. split; [lia|done]. }
  split_and!; [done|by eapply primed_trans|]. rewrite E2, <- app_assoc, (pr_map _ _ _ _ P1). f_equal.
  rewrite filter_cons. destruct (d_map st !! k); [rewrite decide_True by eauto|rewrite decide_False by (by intros [? [=]])];
    by destruct (decide _).
Qed.
End prime_lemmas.

(** ** The pan ring *)

Lemma pan_offsets_spec radius dr dc :
  (dr, dc) ∈ pan_offsets radius ↔ - radius <= dr <= radius ∧ - radius <= dc <= radius.
Proof.
  unfold pan_offsets, ring_offsets. rewrite list_elem_of_bind. setoid_rewrite list_elem_of_bind.
  split.
  - intros (x & (y & [= <- <-]%list_elem_of_singleton & Hy%elem_of_seqZ) & Hx%elem_of_seqZ). lia.
  - intros [? ?]. exists dr. rewrite elem_of_seqZ. split; [|lia]. exists dc.
    rewrite elem_of_seqZ. split; [by left|lia].
Qed.

Lemma neighbour_0 v : neighbour v 0 0 = v.
Proof. destruct v as [? ? [] [] ?]. unfold neighbour. cbn. by rewrite !Z.add_0_r. Qed.

(** One row of the scan adds exactly the neighbours not visible, once each. *)
Lemma pan_body_spec visible v ring d k :
  v ∈ visible → NoDup ring →
  NoDup (pan_body visible v ring d) ∧
  (k ∈ pan_body visible v ring d ↔
   k ∈ ring ∨ k ∉ visible ∧ k = neighbour v d.1 d.2).
Proof.
  destruct d as [dr dc]. intros Hv Hnd. unfold pan_body. cbn [fst snd].
  destruct ((dc =? 0) && (dr =? 0)) eqn:E.
  { apply andb_true_iff in E as [->%Z.eqb_eq ->%Z.eqb_eq]. rewrite neighbour_0.
    split; [done|]. split; [by left|]. by intros [?|[? ->]]. }
  destruct (bool_decide_reflect (neighbour v dr dc ∈ visible)).
  { split; [done|]. split; [by left|]. by intros [?|[? ->]]. }
  destruct (bool_decide_reflect (neighbour v dr dc ∈ ring)).
  { split; [done|]. split; [by left|]. by intros [?|[? ->]]. }
  split.
  - apply NoDup_app. split_and!; [done| |apply NoDup_singleton].
    by intros x Hx ->%list_elem_of_singleton.
  - rewrite elem_of_app, list_elem_of_singleton. split.
    + intros [?| ->]; [by left|by right].
    + intros [?|[_ ->]]; [by left|by right].
Qed.

Lemma pan_row_spec visible v ds ring k :
  v ∈ visible → NoDup ring →
  let r := foldl (pan_body visible v) ring ds in
  NoDup r ∧ (k ∈ r ↔ k ∈ ring ∨ k ∉ visible ∧ ∃ d, d ∈ ds ∧ k = neighbour v d.1 d.2).
Proof.
  intros Hv. revert ring. induction ds as [|d ds IH]; intros ring Hnd; cbn [foldl].
  { split; [done|]. split; [by left|intros [?|(_ & d & ?%not_elem_of_nil & _)]; done]. }
  destruct (pan_body_spec visible v ring d k Hv Hnd) as [Hnd' Hk].
  destruct (IH _ Hnd') as [Hnd'' Hk']. split; [done|]. rewrite Hk', Hk.
  setoid_rewrite elem_of_cons. naive_solver.
Qed.

Lemma pan_fold_spec visible vs ds ring k :
  (∀ v, v ∈ vs → v ∈ visible) → NoDup ring →
  let r := foldl (fun ring v => foldl (pan_body visible v) ring ds) ring vs in
  NoDup r ∧ (k ∈ r ↔ k ∈ ring ∨ k ∉ visible ∧ ∃ v d, v ∈ vs ∧ d ∈ ds ∧ k = neighbour v d.1 d.2).
Proof.
  revert ring. induction vs as [|v vs IH]; intros ring Hv Hnd; cbn [foldl].
  { split; [done|]. split; [by left|intros [?|(_ & v & d & ?%not_elem_of_nil & _)]; done]. }
  destruct (pan_row_spec visible v ds ring k) as [Hnd' Hk]; [by apply Hv; left|done|].
  edestruct (IH _ ltac:(intros; apply Hv; by right) Hnd') as [Hnd'' Hk'].
  split; [done|]. rewrite Hk', Hk. setoid_rewrite elem_of_cons. naive_solver.
Qed.

(** ** Properties *)

(** the pan ring is exactly the annulus around the visible set: the keys
    within Chebyshev distance [radius] of a visible tile (same content, revision,
    rung and time) that are not themselves visible, each listed once. *)
Theorem pan_ring_exact (visible : list TileKey) (radius : Z) (k : TileKey) :
  NoDup (pan_prefetch_ring visible radius) ∧
  (k ∈ pan_prefetch_ring visible radius ↔
   k ∉ visible ∧ ∃ v dr dc, v ∈ visible ∧ Z.abs dr <= radius ∧ Z.abs dc <= radius ∧
     k = neighbour v dr dc).
Proof.
  destruct (pan_fold_spec visible visible (pan_offsets radius) [] k) as [Hnd Hk]; [done|constructor|].
  split; [done|]. unfold pan_prefetch_ring. rewrite Hk. split.
  - intros [?%not_elem_of_nil|(Hn & v & [dr dc] & Hv & Hd%pan_offsets_spec & ->)]; [done|].
    split; [done|]. exists v, dr, dc. cbn. split_and!; [done|lia|lia|done].
  - intros (Hn & v & dr & dc & Hv & Hr & Hc & ->). right. split; [done|].
    exists v, (dr, dc). split_and!; [done| |done]. apply pan_offsets_spec. lia.
Qed.

(** the temporal ring of a timed tile key lists, in order, the
    [horizon / step] instants one step apart in the playback direction: every
    entry is within the horizon, strictly on the playback side, and the next step
    would pass the horizon. *)
Theorem temporal_ring_exact (base : TileKey) (direction : Z) (t step horizon : Time)
  (Ht : tk_achieved_time base = Some t) (Hs : 0 < flicks step) :
  let sign := if direction <? 0 then -1 else 1 in
  let n := Z.max 0 (Z.div (flicks horizon) (flicks step)) in
  let ring := temporal_prefetch_ring base direction step horizon in
  Z.of_nat (length ring) = n ∧
  (∀ i : nat, Z.of_nat i < n → ∃ key, ring !! i = Some key ∧
     tk_achieved_time key = Some (mkTime (flicks t + sign * (Z.of_nat i + 1) * flicks step)) ∧
     tk_content key = tk_content base ∧ tk_revision key = tk_revision base ∧
     tk_rung key = tk_rung base ∧ tk_coord key = tk_coord base) ∧
  (0 < flicks horizon → n * flicks step <= flicks horizon < (n + 1) * flicks step).
Proof.
  cbv zeta. unfold temporal_prefetch_ring.
  rewrite (proj2 (Z.leb_gt (flicks step) 0)) by done. cbn [orb].
  destruct (Z.leb_spec (flicks horizon) 0) as [Hh|Hh].
  - assert (flicks horizon / flicks step <= 0) by (Z.to_euclidean_division_equations; nia).
    rewrite Z.max_l by done. split_and!; [done|lia|lia].
  - rewrite Z.quot_div_nonneg by lia.
    assert (0 <= flicks horizon / flicks step) by (apply Z.div_pos; lia).
    rewrite Z.max_r by done. split_and!.
    + rewrite length_map, length_seqZ. lia.
    + intros i Hi. eexists. rewrite list_lookup_fmap, lookup_seqZ_lt by lia. split; [done|].
      unfold prefetch_temporal_step, tile_temporal. rewrite Ht. cbn.
      split_and!; try done. do 2 f_equal. ring.
    + intros _. Z.to_euclidean_division_equations; nia.
Qed.

(** spatial damage drops exactly the tiles of the content whose footprint
    shares a point with the damaged region, at every rung, revision and time, and
    evicts nothing; every other tile stays mapped. *)
Theorem invalidate_region_exact {V} (cache : KeyedStore TileKey V) holds content region
  (tile_rect : ScaleRung → TileCoord → Rect) (k : TileKey)
  (I : inv cache holds) (Hr : rect_numbers region) (Hg : ∀ r c, rect_numbers (tile_rect r c)) :
  let cache' := (invalidate_region cache content region tile_rect).1 in
  let hit := tk_content k = content ∧
    ∃ p, rect_contains (tile_rect (tk_rung k) (tk_coord k)) p = true ∧ rect_contains region p = true in
  (hit → d_map cache' !! k = None) ∧ (¬ hit → d_map cache' !! k = d_map cache !! k) ∧
  d_evictions cache' = d_evictions cache ∧ inv cache' holds.
Proof.
  destruct (remove_if_spec (region_match content region tile_rect) cache holds I) as (I' & _ & He & Hm).
  unfold invalidate_region. cbv zeta.
  assert (region_match content region tile_rect k = true ↔ tk_content k = content ∧
    ∃ p, rect_contains (tile_rect (tk_rung k) (tk_coord k)) p = true ∧ rect_contains region p = true)
    as Hhit.
  { unfold region_match. destruct (Z.eqb_spec (tk_content k) content) as [Hc|Hc]; cbn; [|naive_solver].
    rewrite negb_true_iff. split.
    - intros Hne%rect_contains_corner. split; [done|]. eexists. by apply rect_intersect_contains.
    - intros (_ & p & Hp). apply rect_intersect_contains in Hp; [|done..].
      by apply rect_contains_spec in Hp as [? _]. }
  rewrite Hm, <- Hhit. split_and!; [|intros ->%not_true_iff_false; done|done|done]. by intros ->.
Qed.

(** [drop_superseded] reclaims exactly the content's tiles of older
    revisions; the live revision and other contents are untouched. *)
Theorem drop_superseded_exact {V} (cache : KeyedStore TileKey V) holds content live (k : TileKey)
  (I : inv cache holds) :
  let cache' := (drop_superseded cache content live).1 in
  d_map cache' !! k =
    (if decide (tk_content k = content ∧ tk_revision k < live) then None else d_map cache !! k) ∧
  d_evictions cache' = d_evictions cache ∧ inv cache' holds.
Proof.
  unfold drop_superseded.
  destruct (remove_if_spec (fun key => (tk_content key =? content) && (tk_revision key <? live))
              cache holds I) as (I' & _ & He & Hm).
  split_and!; [|done|done]. rewrite Hm.
  destruct (Z.eqb_spec (tk_content k) content), (Z.ltb_spec (tk_revision k) live);
    cbn; destruct (decide _) as [[? ?]|]; try done; try lia; tauto.
Qed.

(** [prime_ring] only classifies and reports: it returns exactly the absent
    keys, in order; the resident bytes, evictions, key map, values and pins are
    unchanged; and exactly the ring's resident entries get the new class. *)
Theorem prime_ring_spec {K V} `{Countable K} (store : KeyedStore K V) holds ring c
  (I : inv store holds) (Hroom : room_for (Z.of_nat (length ring)) store holds) :
  let '(store', absent) := prime_ring store ring c in
  absent = filter (fun k => d_map store !! k = None) ring ∧
  primed c ring store store' ∧ inv store' holds.
Proof.
  destruct (prime_fold_spec c ring store holds [] I Hroom) as (I' & P & E).
  unfold prime_ring. destruct (foldl _ _ _) as [st ab]. cbn [fst snd] in *. done.
Qed.

(** *** Witnesses *)

Definition demo_key (c r : Z) : TileKey :=
  mkTileKey 1 7 (mkRung 0) (mkCoord c r) (Some (mkTime 100)).

Definition demo_cache : KeyedStore TileKey Z :=
  (insert (demo_key 0 0) 10 4 Visible (empty_store 100)).1.

Definition demo_cache_holds : gmultiset addr := {[+ 0%nat +]} ⊎ ∅.

Lemma demo_cache_bounds n : n <= 2 → room_for (K := TileKey) (V := Z) n (empty_store 100) ∅.
Proof. intros Hn. split; [cbn; lia|]. intros a. rewrite multiplicity_empty. lia. Qed.

Lemma demo_cache_inv : inv demo_cache demo_cache_holds.
Proof.
  apply (inv_insert (demo_key 0 0) 10 4 Visible (empty_store 100) ∅); [apply inv_empty|lia|].
  destruct (demo_cache_bounds 1) as [? Hm]; [lia|]. split; [lia|]. intros a. specialize (Hm a). lia.
Qed.

(** Every tile covers the whole plane. *)
