(* ===== verification/SlotStore.v ===== *)
(** Fixed-slot storage: [src/src/pool/arbc/pool/slot_store.hpp],
    [slot_store.cpp] and [slab_directory.hpp].

    The model has the directory of data chunks, the parallel refcount column, the
    shared free pool, every thread's local pool, and the accounting counters.
    Operations that the source admits from any thread take the calling thread;
    each is one atomic step (a thread touches its own pool, and the shared pool
    only under the lock).  [SlotIndex] arithmetic wraps at 2^32 and [size_t] at
    2^64.  The [ChunkSource] is a virtual interface: a parameter [acquire] over an
    abstract source state.  Reading or writing the directory's root array past its
    2^10 entries is the [OutOfBounds] failure. *)

From S2P Require Import Prelude.

Local Open Scope Z_scope.

Notation SlotIndex := Z (only parsing).
Definition thread : Type := nat.

(** [PoolError]. *)
Inductive PoolError := OutOfMemory | CapacityExhausted.

(** How an operation can fail: with an error value, or by indexing the directory
    out of bounds. *)
Inductive failure := Refused (e : PoolError) | OutOfBounds.

(** ** Geometry *)

(** [default_chunk_bits]: the loop runs at most twelve times. *)
Fixpoint chunk_bits_loop (fuel : nat) (slots bits : Z) : Z :=
  match fuel with
  | O => bits
  | S fuel =>
      if (bits <? 12) && (Z.shiftl 1 (bits + 1) <=? slots)
      then chunk_bits_loop fuel slots (bits + 1)
      else bits
  end.

Definition default_chunk_bits (slot_stride : Z) : Z :=
  let target_bytes := 64 * 1024 in
  let slots := target_bytes / (if slot_stride =? 0 then 1 else slot_stride) in
  chunk_bits_loop 12 slots 0.

(** [align_up]. *)
Definition align_up (n align : Z) : Z :=
  Z.land (u64 (n + align - 1)) (2 ^ 64 - 1 - (align - 1)).

(** [SlabDirectory]'s geometry. *)
Definition table_bits : Z := 10.
Definition root_size : Z := 2 ^ 10.
Definition max_chunks : Z := 2 ^ 20.

Definition root_in_bounds (chunk_number : Z) : bool :=
  Z.shiftr chunk_number table_bits <? root_size.

(** A chunk the source handed out. *)
Record ChunkSpan := mkSpan { span_base : Z; span_size : Z }.

(** ** [SlotStore] *)

Definition k_free_pool_batch : nat := 32.

Record SlotStore (Src : Type) := mkSlots {
  s_stride : Z; s_align : Z; s_bits : Z;
  s_source : Src;
  s_directory : gmap Z Z;            (* chunk number -> base *)
  s_columns : gset Z;                (* chunks whose refcount column is minted *)
  s_counts : gmap Z Z;               (* nonzero-initialised cells; absent is 0 *)
  s_free : list SlotIndex;           (* the shared pool; its back is the list's end *)
  s_local : gmap thread (list SlotIndex);
  s_fence : bool;
  s_high_water : Z; s_live : Z; s_capacity : Z; s_bytes : Z;
  s_spills : Z; s_refills : Z }.
Arguments mkSlots {Src}.
Arguments s_stride {Src} s.
Arguments s_align {Src} s.
Arguments s_bits {Src} s.
Arguments s_source {Src} s.
Arguments s_directory {Src} s.
Arguments s_columns {Src} s.
Arguments s_counts {Src} s.
Arguments s_free {Src} s.
Arguments s_local {Src} s.
Arguments s_fence {Src} s.
Arguments s_high_water {Src} s.
Arguments s_live {Src} s.
Arguments s_capacity {Src} s.
Arguments s_bytes {Src} s.
Arguments s_spills {Src} s.
Arguments s_refills {Src} s.

Section slots.
Context {Src : Type} (acquire : Src → Z → Z → Src * expected PoolError ChunkSpan).
Implicit Types (st : SlotStore Src) (t : thread) (index : SlotIndex).

Definition new_store (slot_size slot_align chunk_bits : Z) (source : Src) : SlotStore Src :=
  mkSlots (align_up (Z.max slot_size 1) slot_align) slot_align chunk_bits source
    ∅ ∅ ∅ [] ∅ false 0 0 0 0 0 0.

Definition chunk_slots st : Z := Z.shiftl 1 (s_bits st).
Definition chunk_bytes st : Z := u64 (chunk_slots st * s_stride st).
Definition slot_mask st : Z := u32 (u32 (Z.shiftl 1 (s_bits st)) - 1).

(** The calling thread's pool; absent is not yet registered. *)
Definition local_pool t st : list SlotIndex := default [] (s_local st !! t).

Definition set_pools (free : list SlotIndex) (local : gmap thread (list SlotIndex))
    (spills refills : Z) st : SlotStore Src :=
  mkSlots (s_stride st) (s_align st) (s_bits st) (s_source st) (s_directory st) (s_columns st)
    (s_counts st) free local (s_fence st) (s_high_water st) (s_live st) (s_capacity st)
    (s_bytes st) spills refills.

Definition set_live (live : Z) st : SlotStore Src :=
  mkSlots (s_stride st) (s_align st) (s_bits st) (s_source st) (s_directory st) (s_columns st)
    (s_counts st) (s_free st) (s_local st) (s_fence st) (s_high_water st) live (s_capacity st)
    (s_bytes st) (s_spills st) (s_refills st).

Definition set_high_water (hw : Z) st : SlotStore Src :=
  mkSlots (s_stride st) (s_align st) (s_bits st) (s_source st) (s_directory st) (s_columns st)
    (s_counts st) (s_free st) (s_local st) (s_fence st) hw (s_live st) (s_capacity st)
    (s_bytes st) (s_spills st) (s_refills st).

Definition set_release_fence (fence : bool) st : SlotStore Src :=
  mkSlots (s_stride st) (s_align st) (s_bits st) (s_source st) (s_directory st) (s_columns st)
    (s_counts st) (s_free st) (s_local st) fence (s_high_water st) (s_live st) (s_capacity st)
    (s_bytes st) (s_spills st) (s_refills st).

(** [push_free]: onto the local pool; a full batch spills to the shared one. *)
Definition push_free t index st : SlotStore Src :=
  let local := local_pool t st ++ [index] in
  if (k_free_pool_batch <=? length local)%nat
  then set_pools (s_free st ++ local) (<[t := []]> (s_local st)) (u64 (s_spills st + 1))
         (s_refills st) st
  else set_pools (s_free st) (<[t := local]> (s_local st)) (s_spills st) (s_refills st) st.

(** [refill_from_global]: the top batch moves to the local pool in order. *)
Definition refill_from_global t st : SlotStore Src :=
  match s_free st with
  | [] => set_pools (s_free st) (<[t := local_pool t st]> (s_local st)) (s_spills st)
            (s_refills st) st
  | _ =>
      let take_n := Nat.min k_free_pool_batch (length (s_free st)) in
      let first := (length (s_free st) - take_n)%nat in
      set_pools (take first (s_free st))
        (<[t := local_pool t st ++ drop first (s_free st)]> (s_local st))
        (s_spills st) (u64 (s_refills st + 1)) st
  end.

(** [publish_parallel_columns]: reads the root array, and mints a zeroed column
    for a chunk that has none. *)
Definition publish_parallel_columns (chunk_number : Z) st : SlotStore Src * expected failure unit :=
  if negb (root_in_bounds chunk_number) then (st, Err OutOfBounds)
  else if bool_decide (chunk_number ∈ s_columns st) then (st, Ok tt)
  else
    (mkSlots (s_stride st) (s_align st) (s_bits st) (s_source st) (s_directory st)
       ({[chunk_number]} ∪ s_columns st) (s_counts st) (s_free st) (s_local st) (s_fence st)
       (s_high_water st) (s_live st) (s_capacity st) (s_bytes st) (s_spills st) (s_refills st),
     Ok tt).

(** [d_directory.publish], with the capacity accounting that follows it. *)
Definition publish_chunk (chunk_number : Z) (span : ChunkSpan) st : SlotStore Src :=
  mkSlots (s_stride st) (s_align st) (s_bits st) (s_source st)
    (<[chunk_number := span_base span]> (s_directory st)) (s_columns st) (s_counts st)
    (s_free st) (s_local st) (s_fence st) (s_high_water st) (s_live st)
    (u64 (s_capacity st + chunk_slots st)) (u64 (s_bytes st + span_size span))
    (s_spills st) (s_refills st).

Definition acquire_chunk st : SlotStore Src * expected failure ChunkSpan :=
  let '(src, r) := acquire (s_source st) (chunk_bytes st) (s_align st) in
  (mkSlots (s_stride st) (s_align st) (s_bits st) src (s_directory st) (s_columns st)
     (s_counts st) (s_free st) (s_local st) (s_fence st) (s_high_water st) (s_live st)
     (s_capacity st) (s_bytes st) (s_spills st) (s_refills st),
   match r with Ok span => Ok span | Err e => Err (Refused e) end).

(** The growth arm of [allocate]: back the first slot of a fresh chunk. *)
Definition grow (chunk_number : Z) : ST (SlotStore Src) failure unit :=
  fun st =>
    if max_chunks <=? chunk_number then (st, Err (Refused CapacityExhausted))
    else (span ← acquire_chunk; _ ← st_modify (publish_chunk chunk_number span);
          publish_parallel_columns chunk_number) st.

(** [allocate], on thread [t]. *)
Definition allocate t st : SlotStore Src * expected failure SlotIndex :=
  let st := match local_pool t st with [] => refill_from_global t st | _ => st end in
  match last (local_pool t st) with
  | Some index =>
      (set_live (u64 (s_live st + 1))
         (set_pools (s_free st) (<[t := removelast (local_pool t st)]> (s_local st))
            (s_spills st) (s_refills st) st), Ok index)
  | None =>
      let index := s_high_water st in
      let chunk_number := Z.shiftr index (s_bits st) in
      let slot_in_chunk := Z.land index (slot_mask st) in
      let '(st, grown) := if slot_in_chunk =? 0 then grow chunk_number st else (st, Ok tt) in
      match grown with
      | Err e => (st, Err e)
      | Ok _ => (set_live (u64 (s_live st + 1)) (set_high_water (u32 (index + 1)) st), Ok index)
      end
  end.

(** [free_now] and [release]; a release under a fence hands the slot to
    [on_release], the [Some] result. *)
Definition free_now t index st : SlotStore Src := push_free t index st.

Definition release t index st : SlotStore Src * option SlotIndex :=
  let st := set_live (u64 (s_live st - 1)) st in
  if s_fence st then (st, Some index) else (push_free t index st, None).

(** [reusable_slots]. *)
Definition reusable_slots st : list SlotIndex :=
  s_free st ++ concat (map_to_list (s_local st)).*2.

(** [reserve_restored]: the loop over the chunks a recovered file needs. *)
Fixpoint restore_chunks (n : nat) (chunk_number : Z) : ST (SlotStore Src) failure unit :=
  match n with
  | O => fun st => (st, Ok tt)
  | S n => fun st =>
      (_ ← publish_parallel_columns chunk_number;
       _ ← (fun st =>
              if bool_decide (is_Some (s_directory st !! chunk_number)) then (st, Ok tt)
              else if max_chunks <=? chunk_number then (st, Err (Refused CapacityExhausted))
              else (span ← acquire_chunk; st_modify (publish_chunk chunk_number span)) st);
       restore_chunks n (chunk_number + 1)) st
  end.

Definition reserve_restored (high_water : Z) : ST (SlotStore Src) failure unit :=
  fun st =>
    if high_water =? 0 then (set_high_water 0 st, Ok tt)
    else
      let chunks_needed := Z.shiftr (high_water - 1) (s_bits st) + 1 in
      (_ ← restore_chunks (Z.to_nat chunks_needed) 0;
       st_modify (fun st => set_live 0 (set_high_water high_water st))) st.

(** [finalize_restore]: the free pool becomes the complement of [live], highest
    index first. *)
Definition finalize_restore (live : list SlotIndex) st : SlotStore Src :=
  let frontier := s_high_water st in
  let holes := filter (fun i => i ∉ live) (seqZ 0 frontier) in
  set_live (u64 (Z.of_nat (length live)))
    (set_pools (reverse holes) (s_local st) (s_spills st) (s_refills st) st).

(** [resolve]; an unbacked index is a null base. *)
Definition resolve index st : option Z :=
  let chunk_number := Z.shiftr index (s_bits st) in
  let slot_in_chunk := Z.land index (slot_mask st) in
  base ← s_directory st !! chunk_number;
  Some (base + slot_in_chunk * s_stride st).

(** [count_ref]: the cell's value, and a store to it. *)
Definition count_ref index st : Z := default 0 (s_counts st !! index).

Definition store_count index (v : Z) st : SlotStore Src :=
  mkSlots (s_stride st) (s_align st) (s_bits st) (s_source st) (s_directory st) (s_columns st)
    (<[index := v]> (s_counts st)) (s_free st) (s_local st) (s_fence st) (s_high_water st)
    (s_live st) (s_capacity st) (s_bytes st) (s_spills st) (s_refills st).

End slots.

(** ** Geometry lemmas *)

Lemma root_in_bounds_spec c : 0 <= c → root_in_bounds c = (c <? max_chunks).
Proof.
  intros Hc. unfold root_in_bounds, root_size, table_bits, max_chunks.
  rewrite Z.shiftr_div_pow2 by lia.
  destruct (Z.ltb_spec c (2 ^ 20)); [apply Z.ltb_lt|apply Z.ltb_ge]; word_lia.
Qed.

Section geometry.
Context {Src : Type}.
Implicit Types (st : SlotStore Src) (t : thread) (index : SlotIndex).

(** Store geometries the source creates: at most twelve chunk bits. *)
Definition bits_ok st : Prop := 0 <= s_bits st <= 12.

Lemma pow_bits_bounds st : bits_ok st → 1 <= 2 ^ s_bits st <= 2 ^ 12.
Proof.
  intros [H1 H2]. split.
  - change 1 with (2 ^ 0). apply Z.pow_le_mono_r; lia.
  - apply Z.pow_le_mono_r; lia.
Qed.

Lemma slot_in_chunk_eq st index :
  bits_ok st → Z.land index (slot_mask st) = index mod 2 ^ s_bits st.
Proof.
  intros Hb. pose proof (pow_bits_bounds st Hb). destruct Hb as [H1 H2].
  unfold slot_mask. rewrite Z.shiftl_1_l.
  assert (u32 (2 ^ s_bits st) = 2 ^ s_bits st) as -> by (apply u32_small; unfold in_u32; lia).
  rewrite u32_small by (unfold in_u32; lia).
  replace (2 ^ s_bits st - 1) with (Z.ones (s_bits st)) by (rewrite Z.ones_equiv; lia).
  by apply Z.land_ones.
Qed.

Lemma chunk_number_eq st index :
  bits_ok st → Z.shiftr index (s_bits st) = index / 2 ^ s_bits st.
Proof. intros [? _]. by apply Z.shiftr_div_pow2. Qed.

(** ** The free pools *)

Definition locals (m : gmap thread (list SlotIndex)) : list SlotIndex :=
  concat (map_to_list m).*2.

Lemma locals_insert m t l : locals (<[t := l]> m) ≡ₚ l ++ locals (delete t m).
Proof.
  unfold locals. rewrite <- insert_delete_eq, map_to_list_insert by apply lookup_delete_eq.
  done.
Qed.

Lemma locals_split m t : locals m ≡ₚ default [] (m !! t) ++ locals (delete t m).
Proof.
  destruct (m !! t) as [l|] eqn:Hl; cbn.
  - rewrite <- (insert_id m t l Hl) at 1. apply locals_insert.
  - by rewrite delete_id.
Qed.

Lemma reusable_eq st : reusable_slots st = s_free st ++ locals (s_local st).
Proof. done. Qed.

Lemma push_free_reusable t index st :
  reusable_slots (push_free t index st) ≡ₚ index :: reusable_slots st.
Proof.
  rewrite !reusable_eq, (locals_split (s_local st) t). fold (local_pool t st).
  unfold push_free. destruct (Nat.leb_spec k_free_pool_batch (length (local_pool t st ++ [index])));
    cbn [s_free s_local set_pools]; rewrite locals_insert; solve_Permutation.
Qed.

Lemma refill_reusable t st : reusable_slots (refill_from_global t st) ≡ₚ reusable_slots st.
Proof.
  unfold refill_from_global. destruct (s_free st) as [|i free] eqn:Hf.
  - rewrite !reusable_eq. cbn [s_free s_local set_pools]. rewrite locals_insert, Hf.
    unfold local_pool. by rewrite <- locals_split.
  - rewrite <- Hf. set (n := (length (s_free st) - _)%nat). rewrite !reusable_eq.
    cbn [s_free s_local set_pools]. rewrite locals_insert, (locals_split (s_local st) t).
    fold (local_pool t st). rewrite <- (take_drop n (s_free st)) at 3. solve_Permutation.
Qed.
End geometry.

(** ** The invariant

    [live] are the slots handed out and not released, [quarantined] the ones a
    fence holds.  Every slot below the high-water mark is in exactly one place. *)
Section invariant.
Context {Src : Type} (acquire : Src → Z → Z → Src * expected PoolError ChunkSpan).
Implicit Types (st : SlotStore Src) (t : thread) (index : SlotIndex)
  (live quarantined : list SlotIndex).

Record slots_inv st live quarantined : Prop := {
  si_bits : bits_ok st;
  si_hw : 0 <= s_high_water st < 2 ^ 32;
  si_partition : reusable_slots st ++ live ++ quarantined ≡ₚ seqZ 0 (s_high_water st);
  si_live : s_live st = u64 (Z.of_nat (length live));
  si_local t : (length (local_pool t st) < k_free_pool_batch)%nat;
  si_backed c : 0 <= c → c * 2 ^ s_bits st < s_high_water st →
    is_Some (s_directory st !! c) ∧ c ∈ s_columns st;
  si_capacity : s_high_water st <= max_chunks * 2 ^ s_bits st;
}.

Lemma new_store_inv size align bits source :
  0 <= bits <= 12 → slots_inv (new_store size align bits source) [] [].
Proof.
  intros Hb. assert (bits_ok (new_store size align bits source)) as Hok by done.
  pose proof (pow_bits_bounds _ Hok) as Hp. split; [done|cbn; lia|done|done| | |].
  - intros t. unfold local_pool, new_store. cbn [s_local]. rewrite lookup_empty.
    unfold k_free_pool_batch. cbn. lia.
  - cbn in *. intros c ? ?. nia.
  - cbn in *. unfold max_chunks. lia.
Qed.

(** A slot below the high-water mark is backed. *)
Lemma si_slot_backed st live quarantined index :
  slots_inv st live quarantined → 0 <= index < s_high_water st →
  is_Some (s_directory st !! (index / 2 ^ s_bits st)) ∧ index / 2 ^ s_bits st ∈ s_columns st.
Proof.
  intros I Hi. pose proof (pow_bits_bounds st (si_bits _ _ _ I)).
  apply I; [apply Z.div_pos; lia|].
  pose proof (Z.mul_div_le index (2 ^ s_bits st)). lia.
Qed.

Lemma si_live_below st live quarantined index :
  slots_inv st live quarantined →
  index ∈ reusable_slots st ++ live ++ quarantined → 0 <= index < s_high_water st.
Proof. intros I. rewrite (si_partition _ _ _ I), elem_of_seqZ. lia. Qed.

Lemma si_nodup st live quarantined :
  slots_inv st live quarantined → NoDup (reusable_slots st ++ live ++ quarantined).
Proof. intros I. rewrite (si_partition _ _ _ I). apply NoDup_seqZ. Qed.

(** Moving slots between the pools keeps the invariant. *)
Lemma set_pools_inv st st' live live' quarantined quarantined' :
  slots_inv st live quarantined →
  s_bits st' = s_bits st → s_high_water st' = s_high_water st →
  s_directory st' = s_directory st → s_columns st' = s_columns st →
  reusable_slots st' ++ live' ++ quarantined' ≡ₚ reusable_slots st ++ live ++ quarantined →
  s_live st' = u64 (Z.of_nat (length live')) →
  (∀ t, (length (local_pool t st') < k_free_pool_batch)%nat) →
  slots_inv st' live' quarantined'.
Proof.
  intros I Eb Eh Ed Ec Hp Hl Hloc. pose proof (si_bits _ _ _ I) as Hb. unfold bits_ok in *.
  split; rewrite ?Eh, ?Ed, ?Ec; unfold bits_ok; rewrite ?Eb; try done; try apply I.
  rewrite Hp. apply I.
Qed.

Lemma local_pool_set t t' free l spills refills st :
  local_pool t' (set_pools free (<[t := l]> (s_local st)) spills refills st) =
  if decide (t = t') then l else local_pool t' st.
Proof. unfold local_pool. cbn. rewrite lookup_insert. by destruct (decide _). Qed.

Lemma push_free_local t index st t' :
  (∀ t, (length (local_pool t st) < k_free_pool_batch)%nat) →
  (length (local_pool t' (push_free t index st)) < k_free_pool_batch)%nat.
Proof.
  intros Hl. unfold push_free.
  destruct (Nat.leb_spec k_free_pool_batch (length (local_pool t st ++ [index])));
    rewrite local_pool_set; destruct (decide _); try apply Hl; [|done].
  cbn. unfold k_free_pool_batch. lia.
Qed.

Lemma push_free_frame t index st :
  s_bits (push_free t index st) = s_bits st ∧
  s_high_water (push_free t index st) = s_high_water st ∧
  s_directory (push_free t index st) = s_directory st ∧
  s_columns (push_free t index st) = s_columns st ∧
  s_live (push_free t index st) = s_live st ∧ s_fence (push_free t index st) = s_fence st.
Proof. unfold push_free. by destruct (_ <=? _)%nat. Qed.

Lemma u64_pred n : u64 (u64 (Z.of_nat (S n)) - 1) = u64 (Z.of_nat n).
Proof. word_lia. Qed.
Lemma u64_succ n : u64 (u64 (Z.of_nat n) + 1) = u64 (Z.of_nat (S n)).
Proof. word_lia. Qed.

(** [release] of a live slot: to the caller's pool, or to the fence. *)
Lemma release_inv t index st live live' quarantined :
  slots_inv st live quarantined → live ≡ₚ index :: live' →
  let '(st', q) := release t index st in
  slots_inv st' live' (match q with Some i => i :: quarantined | None => quarantined end).
Proof.
  intros I Hlive. unfold release. assert (length live = S (length live')) as Hlen by (by rewrite Hlive).
  assert (u64 (s_live st - 1) = u64 (Z.of_nat (length live'))) as El
    by (rewrite (si_live _ _ _ I), Hlen; apply u64_pred).
  cbn [s_fence set_live]. destruct (s_fence st).
  - eapply set_pools_inv; [exact I|done..| |done|apply I].
    change (reusable_slots (set_live _ st)) with (reusable_slots st). rewrite Hlive.
    solve_Permutation.
  - set (st1 := set_live (u64 (s_live st - 1)) st).
    destruct (push_free_frame t index st1) as (Eb & Eh & Ed & Ec & Ev & _).
    eapply set_pools_inv; [exact I|done..| |by rewrite Ev|].
    + rewrite push_free_reusable. change (reusable_slots st1) with (reusable_slots st).
      rewrite Hlive. solve_Permutation.
    + intros t'. apply push_free_local. apply I.
Qed.

Lemma free_now_inv t index st live quarantined quarantined' :
  slots_inv st live quarantined → quarantined ≡ₚ index :: quarantined' →
  slots_inv (free_now t index st) live quarantined'.
Proof.
  intros I Hq. unfold free_now. destruct (push_free_frame t index st) as (Eb & Eh & Ed & Ec & Ev & _).
  eapply set_pools_inv; [exact I|done..| |rewrite Ev; apply I|].
  - rewrite push_free_reusable, Hq. solve_Permutation.
  - intros t'. apply push_free_local. apply I.
Qed.

(** *** [allocate] *)

(** The store the pop or the growth arm sees: refilled when the local pool was
    empty. *)
Definition refilled t st : SlotStore Src :=
  match local_pool t st with [] => refill_from_global t st | _ => st end.

Lemma refilled_facts t st :
  (∀ t, (length (local_pool t st) < k_free_pool_batch)%nat) →
  let st' := refilled t st in
  reusable_slots st' ≡ₚ reusable_slots st ∧
  s_bits st' = s_bits st ∧ s_high_water st' = s_high_water st ∧
  s_directory st' = s_directory st ∧ s_columns st' = s_columns st ∧ s_live st' = s_live st ∧
  s_fence st' = s_fence st ∧ s_source st' = s_source st ∧
  (length (local_pool t st') <= k_free_pool_batch)%nat ∧
  (∀ t', t' ≠ t → local_pool t' st' = local_pool t' st) ∧
  (local_pool t st' = [] → s_free st = [] ∧ local_pool t st = []).
Proof.
  intros Hl. unfold refilled. destruct (local_pool t st) as [|i l] eqn:Hp.
  2:{ cbv zeta. specialize (Hl t). rewrite Hp in Hl.
      split_and!; try done; rewrite Hp; [lia|done]. }
  cbv zeta. split; [apply refill_reusable|].
  unfold refill_from_global. destruct (s_free st) as [|f free] eqn:Hf.
  - split_and!; try done; rewrite ?local_pool_set, ?decide_True, ?Hp by done; cbn; try lia; try done.
    intros t' Hne. by rewrite local_pool_set, decide_False.
  - rewrite <- Hf. set (n := (length (s_free st) - Nat.min _ _)%nat).
    split_and!; try done; rewrite ?local_pool_set, ?decide_True, ?Hp by done.
    + cbn [app]. rewrite length_drop. unfold n. lia.
    + intros t' Hne. by rewrite local_pool_set, decide_False.
    + intros Hd. apply (f_equal length) in Hd. cbn [app] in Hd. rewrite length_drop in Hd.
      assert (length (s_free st) = S (length free)) by (by rewrite Hf).
      unfold n, k_free_pool_batch in Hd. cbn [length] in Hd. lia.
Qed.

Lemma allocate_eq t st :
  allocate acquire t st =
  let st := refilled t st in
  match last (local_pool t st) with
  | Some index =>
      (set_live (u64 (s_live st + 1))
         (set_pools (s_free st) (<[t := removelast (local_pool t st)]> (s_local st))
            (s_spills st) (s_refills st) st), Ok index)
  | None =>
      let '(st', grown) := if Z.land (s_high_water st) (slot_mask st) =? 0
                           then grow acquire (Z.shiftr (s_high_water st) (s_bits st)) st
                           else (st, Ok tt) in
      match grown with
      | Err e => (st', Err e)
      | Ok _ => (set_live (u64 (s_live st' + 1)) (set_high_water (u32 (s_high_water st + 1)) st'),
                 Ok (s_high_water st))
      end
  end.
Proof. done. Qed.

(** Reuse: the popped slot was free, and the rest stays put. *)
Lemma allocate_reuse_inv t st live quarantined index :
  slots_inv st live quarantined → last (local_pool t (refilled t st)) = Some index →
  let st1 := refilled t st in
  slots_inv (set_live (u64 (s_live st1 + 1))
    (set_pools (s_free st1) (<[t := removelast (local_pool t st1)]> (s_local st1))
       (s_spills st1) (s_refills st1) st1)) (index :: live) quarantined ∧
  index ∈ reusable_slots st.
Proof.
  intros I Hlast. destruct (refilled_facts t st (si_local _ _ _ I))
    as (Hr & Eb & Eh & Ed & Ec & Ev & _ & _ & Hlen & Hoth & _).
  cbv zeta. set (st1 := refilled t st) in *. apply last_Some in Hlast as [l Hl].
  rewrite Hl in Hlen |- *. rewrite removelast_last. rewrite length_app in Hlen. cbn [length] in Hlen.
  assert (reusable_slots st1 ≡ₚ
    index :: reusable_slots (set_pools (s_free st1) (<[t := l]> (s_local st1))
               (s_spills st1) (s_refills st1) st1)) as Hpop.
  { rewrite !reusable_eq. cbn [s_free s_local set_pools]. rewrite locals_insert.
    rewrite (locals_split (s_local st1) t). fold (local_pool t st1). rewrite Hl. solve_Permutation. }
  split; [|rewrite <- Hr, Hpop; by left].
  eapply set_pools_inv; [exact I|done..| | |].
  - change (reusable_slots (set_live _ ?s)) with (reusable_slots s).
    rewrite <- Hr, Hpop. solve_Permutation.
  - cbn [s_live set_live length]. rewrite Ev, (si_live _ _ _ I). apply u64_succ.
  - intros t'. change (local_pool t' (set_live ?v ?s)) with (local_pool t' s).
    rewrite local_pool_set. destruct (decide (t = t')) as [<-|]; [lia|].
    rewrite Hoth by done. apply I.
Qed.

(** What growth leaves alone. *)
Definition same_pools st st' : Prop :=
  s_bits st' = s_bits st ∧ s_high_water st' = s_high_water st ∧ s_live st' = s_live st ∧
  s_free st' = s_free st ∧ s_local st' = s_local st ∧ s_fence st' = s_fence st.

Lemma grow_spec c st :
  0 <= c →
  match grow acquire c st with
  | (st', Ok _) => c < max_chunks ∧ same_pools st st' ∧
      (∃ base, s_directory st' = <[c := base]> (s_directory st)) ∧
      s_columns st' = {[c]} ∪ s_columns st
  | (st', Err (Refused e)) => same_pools st st' ∧ s_directory st' = s_directory st ∧
      s_columns st' = s_columns st ∧ (e = CapacityExhausted ∨ c < max_chunks)
  | (_, Err OutOfBounds) => False
  end.
Proof.
  intros Hc. unfold grow. destruct (Z.leb_spec max_chunks c); [by split_and!; auto|].
  unfold mbind, ST_bind, acquire_chunk.
  destruct (acquire _ _ _) as [src [span|e]]; [|by split_and!; auto].
  unfold st_modify, publish_parallel_columns. rewrite root_in_bounds_spec by done.
  rewrite (proj2 (Z.ltb_lt c max_chunks)) by done. cbn [negb].
  destruct (bool_decide_reflect (c ∈ s_columns (publish_chunk c span (mkSlots (s_stride st)
    (s_align st) (s_bits st) src (s_directory st) (s_columns st) (s_counts st) (s_free st)
    (s_local st) (s_fence st) (s_high_water st) (s_live st) (s_capacity st) (s_bytes st)
    (s_spills st) (s_refills st))))) as [Hin|Hin]; cbn in *.
  - split_and!; [done|done|eauto|]. set_solver.
  - split_and!; [done|done|eauto|done].
Qed.

(** The high-water mark can advance: it stays below the last 32-bit index, or the
    chunk limit bites first. *)
Definition can_grow st : Prop := s_bits st < 12 ∨ s_high_water st + 1 < 2 ^ 32.

Lemma can_grow_hw st live quarantined :
  slots_inv st live quarantined → can_grow st →
  s_high_water st / 2 ^ s_bits st < max_chunks → s_high_water st + 1 < 2 ^ 32.
Proof.
  intros I [Hb|?] Hc; [|done]. pose proof (si_bits _ _ _ I) as [? ?].
  pose proof (pow_bits_bounds st (si_bits _ _ _ I)).
  assert (2 ^ s_bits st <= 2 ^ 11) by (apply Z.pow_le_mono_r; lia).
  pose proof (Z.mul_succ_div_gt (s_high_water st) (2 ^ s_bits st)). unfold max_chunks in *. nia.
Qed.

(** The high-water slot handed out once its chunk is backed. *)
Lemma advance_inv st st' live quarantined :
  slots_inv st live quarantined → same_pools st st' →
  s_high_water st + 1 < 2 ^ 32 →
  s_high_water st / 2 ^ s_bits st < max_chunks →
  (∀ c, is_Some (s_directory st !! c) → is_Some (s_directory st' !! c)) →
  s_columns st ⊆ s_columns st' →
  (s_high_water st mod 2 ^ s_bits st = 0 →
     is_Some (s_directory st' !! (s_high_water st / 2 ^ s_bits st)) ∧
     s_high_water st / 2 ^ s_bits st ∈ s_columns st') →
  slots_inv (set_live (u64 (s_live st' + 1)) (set_high_water (u32 (s_high_water st + 1)) st'))
    (s_high_water st :: live) quarantined.
Proof.
  intros I (Eb & Eh & Ev & Ef & El & _) Hhw Hmax Hd Hc Hnew.
  pose proof (si_hw _ _ _ I). pose proof (pow_bits_bounds st (si_bits _ _ _ I)).
  assert (u32 (s_high_water st + 1) = s_high_water st + 1) as E1
    by (apply u32_small; unfold in_u32; lia).
  split; unfold bits_ok, local_pool;
    cbn [s_live s_high_water set_live set_high_water s_bits s_directory s_columns s_local];
    rewrite ?E1, ?Eb, ?Ev, ?El; try apply I.
  - lia.
  - change (reusable_slots (set_live ?v (set_high_water ?h st'))) with (reusable_slots st').
    rewrite reusable_eq, Ef, El, <- reusable_eq.
    replace (seqZ 0 (s_high_water st + 1)) with (seqZ 0 (s_high_water st) ++ [s_high_water st]).
    + rewrite <- (si_partition _ _ _ I). solve_Permutation.
    + by rewrite seqZ_app by lia.
  - rewrite (si_live _ _ _ I). apply u64_succ.
  - intros c Hc0 Hlt. destruct (Z.lt_ge_cases (c * 2 ^ s_bits st) (s_high_water st)).
    + destruct (si_backed _ _ _ I c) as [Hs Hcol]; [done..|]. split; [by apply Hd|by apply Hc].
    + assert (s_high_water st = c * 2 ^ s_bits st) as Eq by lia.
      assert (s_high_water st / 2 ^ s_bits st = c) as Ediv by (rewrite Eq; apply Z.div_mul; lia).
      rewrite Ediv in *. apply Hnew. rewrite Eq. apply Z.mod_mul. lia.
  - pose proof (Z.mul_succ_div_gt (s_high_water st) (2 ^ s_bits st)). unfold max_chunks in *. nia.
Qed.

(** A refill that leaves the local pool empty found the shared pool empty too. *)
Lemma refilled_inv t st live quarantined :
  slots_inv st live quarantined → local_pool t (refilled t st) = [] →
  slots_inv (refilled t st) live quarantined.
Proof.
  intros I Hnil. destruct (refilled_facts t st (si_local _ _ _ I))
    as (Hr & Eb & Eh & Ed & Ec & Ev & _ & _ & _ & Hoth & _).
  eapply set_pools_inv; [exact I|done..|by rewrite Hr|by rewrite Ev; apply I|].
  intros t'. destruct (decide (t' = t)) as [->|].
  - rewrite Hnil. cbn. unfold k_free_pool_batch. lia.
  - rewrite Hoth by done. apply I.
Qed.

(** Off a chunk boundary the high-water slot's chunk is within the limit. *)
Lemma mid_chunk_max st live quarantined :
  slots_inv st live quarantined → s_high_water st mod 2 ^ s_bits st ≠ 0 →
  s_high_water st / 2 ^ s_bits st < max_chunks.
Proof.
  intros I Hz. pose proof (si_hw _ _ _ I). pose proof (si_capacity _ _ _ I).
  pose proof (pow_bits_bounds st (si_bits _ _ _ I)).
  apply Z.div_lt_upper_bound; [lia|].
  destruct (Z.eq_dec (s_high_water st) (max_chunks * 2 ^ s_bits st)) as [E0|]; [|lia].
  rewrite E0, Z.mod_mul in Hz; lia.
Qed.

Lemma allocate_spec t st live quarantined :
  slots_inv st live quarantined → can_grow st →
  match allocate acquire t st with
  | (st', Ok index) => slots_inv st' (index :: live) quarantined ∧
      (index ∈ reusable_slots st ∧ s_high_water st' = s_high_water st ∨
       index = s_high_water st ∧ s_high_water st' = s_high_water st + 1 ∧
       s_free st = [] ∧ local_pool t st = [])
  | (st', Err (Refused e)) => slots_inv st' live quarantined ∧
      s_free st = [] ∧ local_pool t st = []
  | (_, Err OutOfBounds) => False
  end.
Proof.
  intros I Hg. rewrite allocate_eq. cbv zeta.
  destruct (last (local_pool t (refilled t st))) as [index|] eqn:Hlast.
  { destruct (allocate_reuse_inv t st live quarantined index I Hlast) as [I' Hin].
    destruct (refilled_facts t st (si_local _ _ _ I)) as (_ & _ & Eh & _).
    split; [done|]. left. by split. }
  apply last_None in Hlast.
  destruct (refilled_facts t st (si_local _ _ _ I))
    as (Hr & Eb & Eh & Ed & Ec & Ev & _ & _ & _ & Hoth & Hempty).
  destruct (Hempty Hlast) as [Hfree Hloc]. set (st1 := refilled t st) in *.
  pose proof (refilled_inv t st live quarantined I Hlast) as I1. fold st1 in I1.
  assert (can_grow st1) as Hg1 by (unfold can_grow in *; by rewrite Eb, Eh).
  pose proof (si_bits _ _ _ I1) as Hbok. pose proof (si_hw _ _ _ I1).
  pose proof (pow_bits_bounds st1 Hbok).
  rewrite slot_in_chunk_eq, chunk_number_eq by done.
  destruct (Z.eqb_spec (s_high_water st1 mod 2 ^ s_bits st1) 0) as [Hz|Hz].
  - pose proof (grow_spec (s_high_water st1 / 2 ^ s_bits st1) st1) as Hs.
    destruct (grow _ _ _) as [st2 [[]|[e|]]]; [| |by apply Hs, Z.div_pos; lia].
    + destruct Hs as (Hmax & Hsame & (base & Hdir) & Hcol); [apply Z.div_pos; lia|].
      assert (s_high_water st1 + 1 < 2 ^ 32) by (by eapply can_grow_hw).
      split; [apply advance_inv; try done|].
      * intros c ?. rewrite Hdir. apply lookup_insert_is_Some'. by right.
      * rewrite Hcol. set_solver.
      * intros _. rewrite Hdir, Hcol, lookup_insert_eq. split; [done|set_solver].
      * right. rewrite Eh in *. cbn. rewrite u32_small by (unfold in_u32; lia). done.
    + destruct Hs as (Hsame & Hdir & Hcol & _); [apply Z.div_pos; lia|].
      destruct Hsame as (Eb2 & Eh2 & Ev2 & Ef2 & El2 & _). split; [|done].
      eapply set_pools_inv; [exact I1|done..| | |].
      * by rewrite reusable_eq, Ef2, El2, <- reusable_eq.
      * rewrite Ev2. apply I1.
      * intros t'. unfold local_pool. rewrite El2. apply I1.
  - pose proof (mid_chunk_max _ _ _ I1 Hz) as Hmax.
    split; [apply advance_inv; try done; by eapply can_grow_hw|].
    right. assert (s_high_water st1 + 1 < 2 ^ 32) by (by eapply can_grow_hw).
    rewrite Eh in *. cbn. rewrite u32_small by (unfold in_u32; lia). done.
Qed.

Lemma local_pool_pools t free m spills refills st :
  local_pool t (set_pools free m spills refills st) = default [] (m !! t).
Proof. done. Qed.

(** ** Properties *)

(** The store with its ghost sets, as a transition system over any threads. *)
Inductive slot_step : SlotStore Src * list SlotIndex * list SlotIndex →
    SlotStore Src * list SlotIndex * list SlotIndex → Prop :=
| step_allocate t st st' index live quarantined :
    can_grow st → allocate acquire t st = (st', Ok index) →
    slot_step (st, live, quarantined) (st', index :: live, quarantined)
| step_allocate_refused t st st' e live quarantined :
    can_grow st → allocate acquire t st = (st', Err e) →
    slot_step (st, live, quarantined) (st', live, quarantined)
| step_release t st st' index live live' quarantined :
    live ≡ₚ index :: live' → release t index st = (st', None) →
    slot_step (st, live, quarantined) (st', live', quarantined)
| step_release_fenced t st st' index i live live' quarantined :
    live ≡ₚ index :: live' → release t index st = (st', Some i) →
    slot_step (st, live, quarantined) (st', live', i :: quarantined)
| step_free_now t st index live quarantined quarantined' :
    quarantined ≡ₚ index :: quarantined' →
    slot_step (st, live, quarantined) (free_now t index st, live, quarantined')
| step_fence b st live quarantined :
    slot_step (st, live, quarantined) (set_release_fence b st, live, quarantined).

Lemma slot_step_inv s s' :
  slot_step s s' → slots_inv s.1.1 s.1.2 s.2 → slots_inv s'.1.1 s'.1.2 s'.2.
Proof.
  intros Hs I. destruct Hs as [t st st' index live quarantined Hg Ha|t st st' e live quarantined Hg Ha
    |t st st' index live live' quarantined Hl Hr|t st st' index i live live' quarantined Hl Hr
    |t st index live quarantined quarantined' Hq|b st live quarantined]; cbn [fst snd] in *.
  - pose proof (allocate_spec t st _ _ I Hg) as Hs. rewrite Ha in Hs. apply Hs.
  - pose proof (allocate_spec t st _ _ I Hg) as Hs. rewrite Ha in Hs. by destruct e; [apply Hs|].
  - pose proof (release_inv t index st _ _ _ I Hl) as Hs. by rewrite Hr in Hs.
  - pose proof (release_inv t index st _ _ _ I Hl) as Hs. by rewrite Hr in Hs.
  - by eapply free_now_inv.
  - destruct I. by split.
Qed.


(** [allocate] hands out a slot that is neither live nor quarantined; it grows
    the store only when both the caller's pool and the shared pool are empty, and
    only then can it fail -- leaving the store's contents as they were. *)
Theorem allocate_fresh t st live quarantined
  (I : slots_inv st live quarantined) (Hg : can_grow st) :
  match allocate acquire t st with
  | (st', Ok index) => index ∉ live ∧ index ∉ quarantined ∧ is_Some (resolve index st') ∧
      (s_high_water st' = s_high_water st ∨
       s_high_water st' = s_high_water st + 1 ∧ index = s_high_water st ∧
       s_free st = [] ∧ local_pool t st = [])
  | (st', Err e) => (∃ e', e = Refused e') ∧ s_free st = [] ∧ local_pool t st = [] ∧
      slots_inv st' live quarantined
  end.
Proof.
  pose proof (allocate_spec t st live quarantined I Hg) as Hs.
  destruct (allocate acquire t st) as [st' [index|[e|]]]; [|naive_solver|done].
  destruct Hs as [I' Hcase].
  assert (NoDup (index :: live ++ quarantined)) as Hnd.
  { pose proof (si_nodup _ _ _ I') as Hnd. by apply NoDup_app in Hnd as (_ & _ & Hnd). }
  apply NoDup_cons in Hnd as [Hnin _]. rewrite not_elem_of_app in Hnin.
  assert (0 <= index < s_high_water st') as Hlt.
  { eapply si_live_below; [exact I'|]. rewrite elem_of_app. right. by left. }
  destruct (si_slot_backed _ _ _ index I' Hlt) as [[base Hb] _].
  split_and!; [apply Hnin|apply Hnin| |naive_solver].
  unfold resolve. rewrite chunk_number_eq by apply I'. rewrite Hb. by eexists.
Qed.

(** reuse is thread-affine and last-in-first-out: the slot a thread just
    released is the one its next allocation returns, even when the release
    spilled the thread's pool to the shared one. *)
Theorem release_allocate_lifo t index st live quarantined
  (I : slots_inv st live quarantined) (Hf : s_fence st = false) :
  (allocate acquire t (release t index st).1).2 = Ok index.
Proof.
  unfold release. cbn [s_fence set_live]. rewrite Hf. cbn [fst].
  set (st1 := set_live _ st). assert (local_pool t st1 = local_pool t st) as El by done.
  rewrite allocate_eq. cbv zeta.
  enough (last (local_pool t (refilled t (push_free t index st1))) = Some index) as -> by done.
  unfold refilled, push_free. rewrite El.
  destruct (Nat.leb_spec k_free_pool_batch (length (local_pool t st ++ [index]))).
  - rewrite local_pool_set, decide_True by done. unfold refill_from_global.
    cbn [s_free set_pools s_spills s_refills s_local].
    set (l := s_free st1 ++ local_pool t st ++ [index]).
    assert (∃ l', l = l' ++ [index]) as [l' Hl'] by (eexists; unfold l; by rewrite app_assoc).
    destruct l as [|x l0] eqn:E; [by destruct l'|]. rewrite <- E in *. clear E.
    rewrite local_pool_pools, lookup_insert_eq. unfold local_pool at 1.
    cbn [s_local set_pools]. rewrite lookup_insert_eq. cbn [from_option id app]. rewrite Hl'.
    rewrite drop_app_le by (rewrite length_app; cbn [length]; unfold k_free_pool_batch; lia).
    by rewrite last_snoc.
  - rewrite !local_pool_set, decide_True by done.
    destruct (local_pool t st ++ [index]) as [|x l] eqn:E; [by destruct (local_pool t st)|].
    rewrite local_pool_set, decide_True by done. rewrite <- E. by rewrite last_snoc.
Qed.

(** *** Recovery *)

Lemma publish_columns_spec c st :
  0 <= c < max_chunks →
  ∃ st', publish_parallel_columns c st = (st', Ok tt) ∧
    s_columns st' = {[c]} ∪ s_columns st ∧ s_directory st' = s_directory st ∧ same_pools st st'.
Proof.
  intros Hc. unfold publish_parallel_columns. rewrite root_in_bounds_spec by lia.
  rewrite (proj2 (Z.ltb_lt c max_chunks)) by lia. cbn [negb].
  destruct (bool_decide_reflect (c ∈ s_columns st)).
  - exists st. split_and!; [done|set_solver|done..].
  - eexists. split_and!; [done..|]. by split_and!.
Qed.

Lemma same_pools_trans st1 st2 st3 : same_pools st1 st2 → same_pools st2 st3 → same_pools st1 st3.
Proof. unfold same_pools. intros (?&?&?&?&?&?) (?&?&?&?&?&?). split_and!; congruence. Qed.

(** The data-chunk half of one round of the restore loop. *)
Definition restore_data (c : Z) : ST (SlotStore Src) failure unit := fun st =>
  if bool_decide (is_Some (s_directory st !! c)) then (st, Ok tt)
  else if max_chunks <=? c then (st, Err (Refused CapacityExhausted))
  else (span ← acquire_chunk acquire; st_modify (publish_chunk c span)) st.

Lemma restore_data_spec c st :
  match restore_data c st with
  | (st', Ok _) => is_Some (s_directory st' !! c) ∧ s_columns st' = s_columns st ∧
      same_pools st st' ∧ ∀ c', is_Some (s_directory st !! c') → is_Some (s_directory st' !! c')
  | (_, Err _) => True
  end.
Proof.
  unfold restore_data. destruct (bool_decide_reflect (is_Some (s_directory st !! c))); [by split_and!|].
  destruct (Z.leb_spec max_chunks c); [done|]. unfold mbind, ST_bind, acquire_chunk.
  destruct (acquire _ _ _) as [src [span|e]]; [|done]. cbn.
  split_and!; [by rewrite lookup_insert_eq|done|by split_and!|].
  intros c' ?. apply lookup_insert_is_Some'. by right.
Qed.

Lemma restore_chunks_S n c st :
  restore_chunks acquire (S n) c st =
  (_ ← publish_parallel_columns c; _ ← restore_data c; restore_chunks acquire n (c + 1)) st.
Proof. done. Qed.

Lemma restore_chunks_ok n c st st' :
  0 <= c → restore_chunks acquire n c st = (st', Ok tt) →
  same_pools st st' ∧ c + Z.of_nat n <= Z.max c max_chunks ∧ s_columns st ⊆ s_columns st' ∧
  (∀ c', is_Some (s_directory st !! c') → is_Some (s_directory st' !! c')) ∧
  (∀ c', c <= c' < c + Z.of_nat n → is_Some (s_directory st' !! c') ∧ c' ∈ s_columns st').
Proof.
  revert c st. induction n as [|n IH]; intros c st Hc.
  { intros [= <-]. split_and!; [by split_and!|lia|done|done|lia]. }
  rewrite restore_chunks_S. unfold mbind at 1, ST_bind at 1.
  destruct (Z.lt_ge_cases c max_chunks) as [Hlt|Hge].
  2:{ unfold publish_parallel_columns. rewrite root_in_bounds_spec by done.
      rewrite (proj2 (Z.ltb_ge c max_chunks)) by done. done. }
  destruct (publish_columns_spec c st) as (st1 & -> & Ec1 & Ed1 & S1); [done|].
  unfold mbind, ST_bind. pose proof (restore_data_spec c st1) as Hs.
  destruct (restore_data c st1) as [st2 [[]|e]]; [|done].
  destruct Hs as (Hb & Ec2 & S2 & Hmono). intros Hrec.
  destruct (IH (c + 1) st2 ltac:(lia) Hrec) as (S3 & Hle & Hcol & Hdir & Hall).
  split_and!.
  - by eapply same_pools_trans, same_pools_trans.
  - lia.
  - etransitivity; [|exact Hcol]. rewrite Ec2, Ec1. set_solver.
  - intros c' ?. apply Hdir, Hmono. by rewrite Ed1.
  - intros c' Hc'. destruct (Z.eq_dec c' c) as [->|]; [|apply Hall; lia].
    split; [by apply Hdir|]. apply Hcol. rewrite Ec2, Ec1. set_solver.
Qed.

Lemma holes_partition live n :
  NoDup live → Forall (fun i => 0 <= i < n) live →
  filter (fun i => i ∉ live) (seqZ 0 n) ++ live ≡ₚ seqZ 0 n.
Proof.
  intros Hnd Hb. apply NoDup_Permutation; [|apply NoDup_seqZ|].
  - apply NoDup_app. split_and!; [apply NoDup_filter, NoDup_seqZ| |done].
    intros x [? _]%list_elem_of_filter. done.
  - intros x. rewrite elem_of_app, list_elem_of_filter, elem_of_seqZ.
    rewrite Forall_forall in Hb. split.
    + intros [[_ ?]|Hx]; [done|]. specialize (Hb x Hx). lia.
    + intros Hx. destruct (decide (x ∈ live)); [by right|by left].
Qed.

(** A successful restore: the mark is set, no slot is pooled locally, and every
    chunk under the mark is backed. *)
Lemma reserve_restored_ok hw st0 st :
  bits_ok st0 → s_local st0 = ∅ → 0 <= hw →
  reserve_restored acquire hw st0 = (st, Ok tt) →
  s_bits st = s_bits st0 ∧ s_local st = ∅ ∧ s_high_water st = hw ∧
  hw <= max_chunks * 2 ^ s_bits st0 ∧
  ∀ c, 0 <= c → c * 2 ^ s_bits st0 < hw → is_Some (s_directory st !! c) ∧ c ∈ s_columns st.
Proof.
  intros Hb Hloc Hhw. pose proof (pow_bits_bounds st0 Hb).
  unfold reserve_restored. destruct (Z.eqb_spec hw 0) as [->|Hne]; intros Hr.
  { injection Hr as <-. split_and!; [done..|unfold max_chunks; lia|]. intros c ? ?. nia. }
  unfold mbind, ST_bind in Hr. rewrite chunk_number_eq in Hr by done.
  assert (0 <= (hw - 1) / 2 ^ s_bits st0) by (apply Z.div_pos; lia).
  destruct (restore_chunks _ _ _ _) as [st1 [[]|e]] eqn:Hrc; [|done]. injection Hr as <-.
  destruct (restore_chunks_ok _ 0 _ _ ltac:(done) Hrc)
    as ((Eb1 & _ & _ & _ & El1 & _) & Hle & _ & _ & Hall).
  rewrite Z2Nat.id in Hle, Hall by lia.
  pose proof (Z.mul_succ_div_gt (hw - 1) (2 ^ s_bits st0)).
  split_and!; [done|by rewrite <- Hloc|done| |].
  - unfold max_chunks in *. nia.
  - intros c Hc Hlt. apply Hall. split; [done|].
    assert (c <= (hw - 1) / 2 ^ s_bits st0) by (apply Z.div_le_lower_bound; lia). lia.
Qed.

(** What a restore leaves: the mark, no slot pooled locally, the chunks under the mark
    backed and their count columns minted. *)
Record restored st (bits hw : Z) : Prop := {
  rs_bits : s_bits st = bits;
  rs_local : s_local st = ∅;
  rs_high_water : s_high_water st = hw;
  rs_capacity : hw <= max_chunks * 2 ^ bits;
  rs_backed c : 0 <= c → c * 2 ^ bits < hw → is_Some (s_directory st !! c) ∧ c ∈ s_columns st }.

Lemma finalize_partition st bits hw live :
  restored st bits hw → 0 <= bits <= 12 → 0 <= hw < 2 ^ 32 → NoDup live →
  Forall (fun i => 0 <= i < hw) live → slots_inv (finalize_restore live st) live [].
Proof.
  intros [Eb El Eh Hcap Hback] Hbits Hhw Hnd Hlive.
  split; unfold finalize_restore; unfold bits_ok;
    cbn [s_bits s_high_water s_live s_directory s_columns set_live set_pools];
    rewrite ?Eb, ?Eh; try done.
  - change (reusable_slots (set_live ?v ?s)) with (reusable_slots s).
    rewrite reusable_eq. cbn [s_free s_local set_pools]. rewrite El, app_nil_r.
    change (locals ∅) with (@nil SlotIndex). rewrite app_nil_r, reverse_Permutation.
    by apply holes_partition.
  - intros t. unfold local_pool. cbn [s_local set_live set_pools]. rewrite El, lookup_empty.
    cbn. unfold k_free_pool_batch. lia.
Qed.

Lemma reserve_restored_spec hw st0 st :
  bits_ok st0 → s_local st0 = ∅ → 0 <= hw →
  reserve_restored acquire hw st0 = (st, Ok tt) → restored st (s_bits st0) hw.
Proof.
  intros Hb Hl Hhw Hr. destruct (reserve_restored_ok hw st0 st Hb Hl Hhw Hr) as (Eb & El & Eh & Hcap & Hback).
  by split.
Qed.

(** The counts of a restored slot are those from before: none. *)
Lemma restore_chunks_counts n : ∀ c st,
  s_counts (restore_chunks acquire n c st).1 = s_counts st.
Proof.
  induction n as [|n IH]; intros c st; [done|]. rewrite restore_chunks_S.
  unfold mbind at 1, ST_bind at 1.
  assert (s_counts (publish_parallel_columns c st).1 = s_counts st) as Ep.
  { unfold publish_parallel_columns. destruct (negb _); [done|]. by case_bool_decide. }
  destruct (publish_parallel_columns c st) as [st1 [[]|e]]; [|done]. cbn in Ep. rewrite <- Ep.
  unfold mbind, ST_bind.
  assert (s_counts (restore_data c st1).1 = s_counts st1) as Ed.
  { unfold restore_data. case_bool_decide; [done|]. destruct (max_chunks <=? c); [done|].
    unfold mbind, ST_bind, acquire_chunk. by destruct (acquire _ _ _) as [src [span|e]]. }
  destruct (restore_data c st1) as [st2 [[]|e]]; cbn in Ed; [|done]. rewrite <- Ed. apply IH.
Qed.

Lemma reserve_restored_counts hw st :
  s_counts (reserve_restored acquire hw st).1 = s_counts st.
Proof.
  unfold reserve_restored. destruct (hw =? 0); [done|]. unfold mbind, ST_bind.
  pose proof (restore_chunks_counts (Z.to_nat (Z.shiftr (hw - 1) (s_bits st) + 1)) 0 st) as Ec.
  destruct (restore_chunks _ _ _ _) as [st1 [[]|e]]; exact Ec.
Qed.

(** Restoring what is restored binds nothing new and cannot be refused. *)
Lemma restore_chunks_again n : ∀ c st,
  0 <= c → c + Z.of_nat n <= max_chunks →
  (∀ c', c <= c' < c + Z.of_nat n → is_Some (s_directory st !! c') ∧ c' ∈ s_columns st) →
  restore_chunks acquire n c st = (st, Ok tt).
Proof.
  induction n as [|n IH]; intros c st Hc Hle Hall; [done|]. rewrite restore_chunks_S.
  destruct (Hall c ltac:(lia)) as [Hd Hcol].
  unfold mbind at 1, ST_bind at 1. unfold publish_parallel_columns.
  rewrite root_in_bounds_spec by done. rewrite (proj2 (Z.ltb_lt c max_chunks)) by lia. cbn [negb].
  rewrite bool_decide_eq_true_2 by done. unfold mbind, ST_bind, restore_data.
  rewrite bool_decide_eq_true_2 by done. apply IH; [lia|lia|]. intros c' Hc'. apply Hall. lia.
Qed.

Lemma reserve_restored_again hw st bits :
  restored st bits hw → 0 <= bits <= 12 → 0 <= hw →
  ∃ st', reserve_restored acquire hw st = (st', Ok tt) ∧ restored st' bits hw ∧ s_counts st' = s_counts st.
Proof.
  intros R Hb Hhw. pose proof (reserve_restored_counts hw st) as Ec.
  assert (bits_ok st) as Hok by (unfold bits_ok; by rewrite (rs_bits _ _ _ R)).
  assert (∃ st', reserve_restored acquire hw st = (st', Ok tt)) as [st' E].
  { unfold reserve_restored. destruct (Z.eqb_spec hw 0) as [->|Hne]; [by eexists|].
    pose proof (pow_bits_bounds st Hok) as Hp. rewrite (rs_bits _ _ _ R) in Hp.
    unfold mbind, ST_bind. rewrite chunk_number_eq by done. rewrite (rs_bits _ _ _ R).
    assert (0 <= (hw - 1) / 2 ^ bits) by (apply Z.div_pos; lia).
    pose proof (Z.mul_div_le (hw - 1) (2 ^ bits) ltac:(lia)).
    pose proof (rs_capacity _ _ _ R).
    rewrite restore_chunks_again; [by eexists|lia| |].
    - rewrite Z2Nat.id by lia. assert ((hw - 1) / 2 ^ bits < max_chunks); [|lia].
      apply Z.div_lt_upper_bound; lia.
    - intros c Hc. rewrite Z2Nat.id in Hc by lia. apply (rs_backed _ _ _ R); [lia|]. nia. }
  exists st'. rewrite E in Ec. split; [done|]. split; [|done].
  rewrite <- (rs_bits _ _ _ R). eapply reserve_restored_spec; [done|apply R|done|exact E].
Qed.

(** recovery establishes the allocator's invariant: on a fresh store,
    re-binding the chunks under a recovered high-water mark and then declaring the
    slots the reachability walk found live leaves every other slot reusable. *)
Theorem restore_partitions size align bits source hw live st
  (Hbits : 0 <= bits <= 12) (Hhw : 0 <= hw < 2 ^ 32)
  (Hr : reserve_restored acquire hw (new_store size align bits source) = (st, Ok tt))
  (Hnd : NoDup live) (Hlive : Forall (fun i => 0 <= i < hw) live) :
  slots_inv (finalize_restore live st) live [].
Proof.
  eapply (finalize_partition st bits hw); [|done..].
  exact (reserve_restored_spec hw (new_store size align bits source) st Hbits eq_refl (proj1 Hhw) Hr).
Qed.

(** *** Limits *)

(** A source that never refuses. *)
Definition always_grants : Prop := ∀ s a b, ∃ s' span, acquire s a b = (s', Ok span).

Lemma restore_chunks_out_of_bounds n c st :
  always_grants → 0 <= c → max_chunks < c + Z.of_nat n → c <= max_chunks →
  (restore_chunks acquire n c st).2 = Err OutOfBounds.
Proof.
  intros Hg. revert c st. induction n as [|n IH]; intros c st Hc Hn Hm; [lia|].
  rewrite restore_chunks_S. unfold mbind at 1, ST_bind at 1.
  destruct (Z.lt_ge_cases c max_chunks) as [Hlt|Hge].
  2:{ unfold publish_parallel_columns. rewrite root_in_bounds_spec by done.
      by rewrite (proj2 (Z.ltb_ge c max_chunks)) by done. }
  destruct (publish_columns_spec c st) as (st1 & -> & _); [done|].
  unfold mbind, ST_bind, restore_data.
  destruct (bool_decide _); [by apply IH; lia|].
  rewrite (proj2 (Z.leb_gt max_chunks c)) by done. unfold mbind, ST_bind, acquire_chunk.
  destruct (Hg (s_source st1) (chunk_bytes st1) (s_align st1)) as (src & span & ->).
  apply IH; lia.
Qed.

(** the capacity check of [reserve_restored] comes too late: for a recovered
    high-water mark past the directory's limit the loop indexes the root array out
    of bounds (minting the refcount column) before it can return
    [CapacityExhausted]. *)
Theorem reserve_restored_overruns size align bits source hw
  (Hbits : 0 <= bits <= 12) (Hg : always_grants) (Hhw : max_chunks * 2 ^ bits < hw) :
  (reserve_restored acquire hw (new_store size align bits source)).2 = Err OutOfBounds.
Proof.
  set (st0 := new_store size align bits source).
  assert (bits_ok st0) as Hb by done. pose proof (pow_bits_bounds st0 Hb) as Hp.
  cbn [s_bits st0 new_store] in Hp.
  assert (max_chunks <= (hw - 1) / 2 ^ bits) by (apply Z.div_le_lower_bound; lia).
  assert (0 < max_chunks) by done.
  unfold reserve_restored. rewrite (proj2 (Z.eqb_neq hw 0)) by nia.
  unfold mbind, ST_bind. rewrite chunk_number_eq by done. cbn [s_bits st0 new_store].
  pose proof (restore_chunks_out_of_bounds (Z.to_nat ((hw - 1) / 2 ^ bits + 1)) 0 st0 Hg) as Ho.
  destruct (restore_chunks _ _ _ _) as [st1 r]. cbn [snd] in Ho. rewrite Ho by lia. done.
Qed.

(** at the default twelve chunk bits the 32-bit high-water mark wraps instead
    of reporting exhaustion: the allocation at mark 2^32 - 1 returns the reserved
    index 0xFFFFFFFF and resets the mark to 0, and the next one re-publishes chunk
    0 over the data it held and hands out slot 0 again, whether or not it is live. *)
Theorem allocate_wraps t st
  (Hg : always_grants) (Hb : s_bits st = 12) (Hhw : s_high_water st = 2 ^ 32 - 1)
  (Hf : s_free st = []) (Hl : local_pool t st = []) :
  ∃ st1, allocate acquire t st = (st1, Ok (2 ^ 32 - 1)) ∧ s_high_water st1 = 0 ∧
    s_directory st1 = s_directory st ∧
    (allocate acquire t st1).2 = Ok 0 ∧
    ∃ base, s_directory (allocate acquire t st1).1 = <[0 := base]> (s_directory st).
Proof.
  set (stA := set_pools [] (<[t := []]> (s_local st)) (s_spills st) (s_refills st) st).
  set (st1 := set_live (u64 (s_live stA + 1)) (set_high_water 0 stA)).
  assert (allocate acquire t st = (st1, Ok (2 ^ 32 - 1))) as E1.
  { unfold allocate. rewrite Hl. unfold refill_from_global. rewrite Hf, Hl.
    rewrite local_pool_pools, lookup_insert_eq. cbn [from_option id last].
    cbn [s_high_water set_pools]. rewrite Hhw.
    rewrite slot_in_chunk_eq by (unfold bits_ok; cbn; lia). cbn [s_bits set_pools]. rewrite Hb.
    done. }
  exists st1. destruct (Hg (s_source st) (chunk_bytes st1) (s_align st)) as (src & span & Hacq).
  split; [exact E1|]. split; [done|]. split; [done|].
  unfold allocate. assert (local_pool t st1 = []) as Hl1.
  { unfold st1, stA. change (local_pool t (set_live ?v (set_high_water ?h ?s))) with (local_pool t s).
    by rewrite local_pool_pools, lookup_insert_eq. }
  rewrite Hl1. unfold refill_from_global. change (s_free st1) with (@nil SlotIndex). cbn iota.
  rewrite local_pool_pools, lookup_insert_eq, Hl1. cbn [from_option id last].
  change (s_high_water (set_pools ?f ?l ?a ?b st1)) with 0. rewrite Z.land_0_l, Z.shiftr_0_l.
  change (0 =? 0) with true. cbn iota.
  unfold grow. change (max_chunks <=? 0) with false. cbn iota.
  unfold mbind, ST_bind, acquire_chunk.
  change (s_source (set_pools ?f ?l ?a ?b st1)) with (s_source st).
  change (chunk_bytes (set_pools ?f ?l ?a ?b st1)) with (chunk_bytes st1).
  change (s_align (set_pools ?f ?l ?a ?b st1)) with (s_align st). rewrite Hacq.
  unfold st_modify, publish_parallel_columns. change (negb (root_in_bounds 0)) with false. cbn iota.
  destruct (bool_decide _); (split; [reflexivity|]); exists (span_base span); reflexivity.
Qed.

End invariant.

(** *** Geometry *)

Lemma chunk_bits_loop_spec fuel slots bits :
  0 <= bits <= 12 → 12 - bits <= Z.of_nat fuel → 2 ^ bits <= slots ∨ bits = 0 →
  let r := chunk_bits_loop fuel slots bits in
  bits <= r <= 12 ∧ (2 ^ r <= slots ∨ r = 0) ∧ (r < 12 → slots < 2 ^ (r + 1)).
Proof.
  revert bits. induction fuel as [|fuel IH]; intros bits Hb Hf Hs; cbn [chunk_bits_loop].
  { cbv zeta. assert (bits = 12) by lia. subst. split_and!; [lia..|done|lia]. }
  rewrite Z.shiftl_1_l. destruct (Z.ltb_spec bits 12); cbn [andb].
  2:{ cbv zeta. split_and!; [lia..|done|lia]. }
  destruct (Z.leb_spec (2 ^ (bits + 1)) slots).
  - destruct (IH (bits + 1)) as (? & ? & ?); [lia|lia|by left|]. split_and!; [lia..|done|done].
  - cbv zeta. split_and!; [lia..|done|done].
Qed.

Lemma land_clear_low x k :
  0 <= x < 2 ^ 64 → 0 <= k <= 64 →
  Z.land x (2 ^ 64 - 1 - (2 ^ k - 1)) = x / 2 ^ k * 2 ^ k.
Proof.
  intros Hx Hk. replace (2 ^ 64 - 1 - (2 ^ k - 1)) with (Z.shiftl (Z.ones (64 - k)) k).
  2:{ rewrite Z.shiftl_mul_pow2, Z.ones_equiv by lia. unfold Z.pred.
      rewrite Z.mul_add_distr_r, <- Z.pow_add_r by lia. replace (64 - k + k) with 64 by lia. lia. }
  rewrite <- Z.shiftl_mul_pow2, <- Z.shiftr_div_pow2 by lia. apply Z.bits_inj'. intros m Hm.
  rewrite Z.land_spec, !Z.shiftl_spec by lia.
  destruct (Z.lt_ge_cases m k).
  - rewrite !(Z.testbit_neg_r _ (m - k)) by lia. apply andb_false_r.
  - rewrite Z.shiftr_spec by lia. replace (m - k + k) with m by lia.
    destruct (Z.lt_ge_cases m 64).
    + rewrite Z.ones_spec_low by lia. apply andb_true_r.
    + by rewrite (testbit_above x 64 m) by lia.
Qed.

Lemma align_up_pow2 n k :
  0 <= n < 2 ^ 63 → 0 <= k < 63 → align_up n (2 ^ k) = (n + 2 ^ k - 1) / 2 ^ k * 2 ^ k.
Proof.
  intros Hn Hk. assert (0 < 2 ^ k) by (apply Z.pow_pos_nonneg; lia).
  assert (2 ^ k <= 2 ^ 62) by (apply Z.pow_le_mono_r; lia).
  unfold align_up. rewrite u64_small by (unfold in_u64; lia).
  apply land_clear_low; lia.
Qed.

(** chunk geometry: [default_chunk_bits] is the largest exponent, at most
    twelve, whose chunk stays within 64 KiB (zero when even one slot exceeds it),
    and [align_up] is the least multiple of a power-of-two alignment not below its
    argument. *)
Theorem chunk_geometry (stride n k : Z)
  (Hs : 0 < stride) (Hk : 0 <= k < 63) (Hn : 0 <= n < 2 ^ 63) :
  let b := default_chunk_bits stride in
  0 <= b <= 12 ∧ (2 ^ b * stride <= 65536 ∨ b = 0) ∧
  (b < 12 → 65536 < 2 ^ (b + 1) * stride) ∧
  (align_up n (2 ^ k) mod 2 ^ k = 0 ∧ n <= align_up n (2 ^ k) < n + 2 ^ k).
Proof.
  cbv zeta. assert (0 < 2 ^ k) as Hk0 by (apply Z.pow_pos_nonneg; lia).
  assert (2 ^ k <= 2 ^ 62) by (apply Z.pow_le_mono_r; lia).
  split_and!.
  1-4: unfold default_chunk_bits; rewrite (proj2 (Z.eqb_neq stride 0)) by lia;
    change (64 * 1024) with 65536; set (slots := Z.div 65536 stride);
    destruct (chunk_bits_loop_spec 12 slots 0) as (Hr & Hle & Hlt); [lia|lia|by right|];
    set (r := chunk_bits_loop 12 slots 0) in *.
  - lia.
  - lia.
  - destruct Hle as [Hle|]; [left|by right]. pose proof (Z.mul_div_le 65536 stride Hs).
    unfold slots in *. nia.
  - intros Hr12. specialize (Hlt Hr12). pose proof (Z.mul_succ_div_gt 65536 stride Hs).
    unfold slots in *. nia.
  - rewrite align_up_pow2 by lia. apply Z.mod_mul. lia.
  - rewrite align_up_pow2 by lia. pose proof (Z.mul_succ_div_gt (n + 2 ^ k - 1) (2 ^ k)). lia.
  - rewrite align_up_pow2 by lia. pose proof (Z.mul_div_le (n + 2 ^ k - 1) (2 ^ k)). lia.
Qed.

(** *** Witnesses: an anonymous source handing out consecutive spans *)

Definition demo_acquire (s size align : Z) : Z * expected PoolError ChunkSpan :=
  (s + size, Ok (mkSpan s size)).

Definition demo_store : SlotStore Z := new_store 16 16 2 4096.
Definition demo_store1 : SlotStore Z := (allocate demo_acquire 0%nat demo_store).1.
Definition demo_store2 : SlotStore Z := (allocate demo_acquire 0%nat demo_store1).1.
Definition demo_store3 : SlotStore Z := (release 1%nat 0 demo_store2).1.

Lemma demo_grants : always_grants demo_acquire.
Proof. intros s a b. by eexists _, _. Qed.

Lemma demo_slot_reach :
  rtc (slot_step demo_acquire) (demo_store, [], []) (demo_store3, [1], []).
Proof.
  eapply rtc_l; [apply (step_allocate _ 0%nat demo_store demo_store1 0); [left|]; vm_compute; reflexivity|].
  eapply rtc_l; [apply (step_allocate _ 0%nat demo_store1 demo_store2 1); [left|]; vm_compute; reflexivity|].
  eapply rtc_l; [|apply rtc_refl].
  apply (step_release _ 1%nat demo_store2 demo_store3 0); [apply Permutation_swap|].
  vm_compute. reflexivity.
Qed.


Definition demo_full : SlotStore Z :=
  mkSlots 16 16 12 4096 {[0 := 77]} {[0]} ∅ [] ∅ false (2 ^ 32 - 1) 0 0 0 0 0.
