(* ===== verification/RefStore.v ===== *)
(** Counted references over the slot store: [src/src/pool/arbc/pool/refs.hpp],
    [reclamation.hpp] and the typed view of [typed_store.hpp].

    A heap is one size class: a [SlotStore] (whose parallel column holds the counts),
    the objects constructed in its slots, and the typed views over it.  The build
    modelled is the release one: a [SlotRef] is an index alone, so a reference is the
    view it is typed by and the slot it names.  Every view has the deferred sink of
    [DeferredReclaimSink] installed, as [Model::wire_stores] installs it: a count that
    reaches zero pushes the slot on its view's reclaim-link stack, and only a drain
    runs destructors.  What [~T] does is a parameter of the cell type: the references
    it releases, in order.

    [RefHeap] is what clients rely on, with the counts accounted against the
    references clients hold; the last section proves that the heap implements it. *)

From S2P Require Import Prelude SlotStore.
From stdpp Require Import gmultiset.

Local Open Scope Z_scope.

(** ** References and cells *)

Definition view : Type := nat.

(** A typed reference: [SlotRef<T>] with its [RefStore<T>]. *)
Definition ref : Type := view * SlotIndex.

(** The objects of one size class: the view an object was created through, and the
    references its destructor releases. *)
Class Cell (C : Type) := {
  cell_view : C → view;
  cell_edges : C → list ref }.

(** Every reference the constructed objects own. *)
Definition all_edges {C} `{Cell C} (cells : gmap SlotIndex C) : gmultiset ref :=
  map_fold (fun _ c acc => list_to_set_disj (cell_edges c) ⊎ acc) ∅ cells.

(** A reference names a constructed object of its view. *)
Definition names {C} `{Cell C} (cells : gmap SlotIndex C) (r : ref) : Prop :=
  ∃ c, cells !! r.2 = Some c ∧ cell_view c = r.1.

(** Reachability from the references clients hold. *)
Inductive reach {C} `{Cell C} (cells : gmap SlotIndex C) (ext : gmultiset ref) : ref → Prop :=
| reach_held r : r ∈ ext → reach cells ext r
| reach_edge r c r' : reach cells ext r → cells !! r.2 = Some c → r' ∈ cell_edges c →
    reach cells ext r'.

(** ** The interface

    [rh_inv w ext]: the state is well formed and its counts are those of the
    references in [ext], held by the clients, and of the objects' own references. *)
Class RefHeap (W C : Type) `{Cell C} := {
  rh_cells : W → gmap SlotIndex C;
  rh_inv : W → gmultiset ref → Prop;
  rh_create : C → ST W failure SlotIndex;
  rh_retain : ref → ST W failure unit;
  rh_release : ref → W → W;
  rh_update : SlotIndex → C → W → W;
  rh_drain : ST W failure unit;

  rh_create_ok w ext c w' i :
    rh_inv w ext → cell_edges c = [] → rh_create c w = (w', Ok i) →
    rh_cells w !! i = None ∧ rh_cells w' = <[i := c]> (rh_cells w) ∧
    rh_inv w' ({[+ (cell_view c, i) +]} ⊎ ext);
  rh_create_err w ext c w' e :
    rh_inv w ext → cell_edges c = [] → rh_create c w = (w', Err e) →
    rh_cells w' = rh_cells w ∧ rh_inv w' ext ∧ ∃ e', e = Refused e';
  rh_retain_ok w ext r w' u :
    rh_inv w ext → r ∈ ext ⊎ all_edges (rh_cells w) → rh_retain r w = (w', Ok u) →
    rh_cells w' = rh_cells w ∧ rh_inv w' ({[+ r +]} ⊎ ext);
  rh_retain_err w ext r w' e :
    rh_inv w ext → r ∈ ext ⊎ all_edges (rh_cells w) → rh_retain r w = (w', Err e) →
    rh_cells w' = rh_cells w ∧ rh_inv w' ext ∧ e = Refused CapacityExhausted;
  rh_release_spec w ext r :
    rh_inv w ({[+ r +]} ⊎ ext) →
    rh_cells (rh_release r w) = rh_cells w ∧ rh_inv (rh_release r w) ext;
  rh_update_cells w i c :
    rh_cells (rh_update i c w) = <[i := c]> (rh_cells w);
  rh_update_spec w ext (i : SlotIndex) (c c' : C) (gained : gmultiset ref) :
    rh_inv w (gained ⊎ ext) → rh_cells w !! i = Some c → cell_view c' = cell_view c →
    (list_to_set_disj (cell_edges c') : gmultiset ref) =
      gained ⊎ list_to_set_disj (cell_edges c) →
    rh_inv (rh_update i c' w) ext;
  rh_drain_spec w ext :
    rh_inv w ext → ∃ w', rh_drain w = (w', Ok tt) ∧ rh_inv w' ext ∧
      ∀ r, reach (rh_cells w) ext r → rh_cells w' !! r.2 = rh_cells w !! r.2;
  rh_names w ext r :
    rh_inv w ext → r ∈ ext ⊎ all_edges (rh_cells w) → names (rh_cells w) r }.

(** ** The heap *)

Definition k_max_count : Z := 2 ^ 32 - 1.
Definition k_reclaim_nil : SlotIndex := 2 ^ 32 - 1.

(** One typed view: its parallel link table, the chunks of it that are published,
    and the head of its reclaim stack.  A published link cell starts at zero. *)
Record View := mkView {
  v_links : gmap SlotIndex SlotIndex;
  v_link_chunks : gset Z;
  v_published : Z;
  v_head : SlotIndex }.

Definition new_view : View := mkView ∅ ∅ 0 k_reclaim_nil.

Record Heap (Src C : Type) := mkHeap {
  h_slots : SlotStore Src;
  h_cells : gmap SlotIndex C;
  h_views : gmap view View;
  h_fenced : list SlotIndex }.      (* slots a durability fence holds *)
Arguments mkHeap {Src C}.
Arguments h_slots {Src C} h.
Arguments h_cells {Src C} h.
Arguments h_views {Src C} h.
Arguments h_fenced {Src C} h.

Section heap.
Context {Src C : Type} `{Cell C}.
Context (acquire : Src → Z → Z → Src * expected PoolError ChunkSpan).
Implicit Types (h : Heap Src C) (v : view) (index : SlotIndex) (t : thread).

Definition set_slots (slots : SlotStore Src) h : Heap Src C :=
  mkHeap slots (h_cells h) (h_views h) (h_fenced h).
Definition set_cells (cells : gmap SlotIndex C) h : Heap Src C :=
  mkHeap (h_slots h) cells (h_views h) (h_fenced h).
Definition h_view v h : View := default new_view (h_views h !! v).
Definition set_view v (vw : View) h : Heap Src C :=
  mkHeap (h_slots h) (h_cells h) (<[v := vw]> (h_views h)) (h_fenced h).

(** [ensure_parallel_chunks]: publish the view's link chunk covering [index]. *)
Definition ensure_parallel_chunks v index h : Heap Src C :=
  let vw := h_view v h in
  let chunk_number := Z.shiftr index (s_bits (h_slots h)) in
  if bool_decide (chunk_number ∈ v_link_chunks vw) then h
  else set_view v (mkView (v_links vw) ({[chunk_number]} ∪ v_link_chunks vw)
                     (v_published vw + 1) (v_head vw)) h.

(** [create]: allocate, construct, publish the link chunk, count one. *)
Definition create t (c : C) : ST (Heap Src C) failure SlotIndex := fun h =>
  let '(slots, r) := allocate acquire t (h_slots h) in
  match r with
  | Err e => (set_slots slots h, Err e)
  | Ok index =>
      let h := set_cells (<[index := c]> (h_cells h)) (set_slots slots h) in
      let h := ensure_parallel_chunks (cell_view c) index h in
      (set_slots (store_count index 1 (h_slots h)) h, Ok index)
  end.

(** [retain] / [try_retain]: a saturated count declines. *)
Definition try_retain index h : Heap Src C * bool :=
  let current := count_ref index (h_slots h) in
  if current =? k_max_count then (h, false)
  else (set_slots (store_count index (current + 1) (h_slots h)) h, true).

(** [retain] on the writer path: [RefError] becomes [CapacityExhausted]. *)
Definition retain (r : ref) : ST (Heap Src C) failure unit := fun h =>
  let '(h, ok) := try_retain r.2 h in
  (h, if ok then Ok tt else Err (Refused CapacityExhausted)).

(** [enqueue_reclaim]: push on the view's link stack. *)
Definition enqueue_reclaim v index h : Heap Src C :=
  let vw := h_view v h in
  set_view v (mkView (<[index := v_head vw]> (v_links vw)) (v_link_chunks vw) (v_published vw)
                index) h.

(** [release_index]: the [fetch_sub] wraps, and the last count goes to the sink. *)
Definition release_ref (r : ref) h : Heap Src C :=
  let previous := count_ref r.2 (h_slots h) in
  let h := set_slots (store_count r.2 (u32 (previous - 1)) (h_slots h)) h in
  if previous =? 1 then enqueue_reclaim r.1 r.2 h else h.

(** [reclaim]: [~T] releases what the object owns, then the slot goes back. *)
Definition reclaim t index : ST (Heap Src C) failure unit := fun h =>
  match h_cells h !! index with
  | None => (h, Err OutOfBounds)
  | Some c =>
      let h := foldl (fun h r => release_ref r h) h (cell_edges c) in
      let '(slots, fenced) := release t index (h_slots h) in
      (mkHeap slots (delete index (h_cells h)) (h_views h)
         (match fenced with Some i => i :: h_fenced h | None => h_fenced h end), Ok tt)
  end.

(** [drain_pending]: detach the stack with one exchange and reclaim down the links.
    One unit of fuel per reclaimed slot. *)
Fixpoint drain_links (fuel : nat) t v (head : SlotIndex) : ST (Heap Src C) failure unit :=
  fun h =>
    if head =? k_reclaim_nil then (h, Ok tt)
    else match fuel with
    | O => (h, Err OutOfBounds)
    | S fuel =>
        let next := default (0 : SlotIndex) (v_links (h_view v h) !! head) in
        (_ ← reclaim t head; drain_links fuel t v next) h
    end.

Definition drain_pending t v : ST (Heap Src C) failure bool := fun h =>
  let vw := h_view v h in
  let head := v_head vw in
  let h := set_view v (mkView (v_links vw) (v_link_chunks vw) (v_published vw) k_reclaim_nil) h in
  if head =? k_reclaim_nil then (h, Ok false)
  else (_ ← drain_links (size (h_cells h)) t v head; mret true) h.

(** [ReclamationQueue::drain]: sweep the registered views until a pass makes no
    progress. *)
Fixpoint drain_pass t (views : list view) : ST (Heap Src C) failure bool :=
  match views with
  | [] => mret false
  | v :: views =>
      progressed ← drain_pending t v; rest ← drain_pass t views; mret (progressed || rest)
  end.

Fixpoint drain_loop (fuel : nat) t (views : list view) : ST (Heap Src C) failure unit :=
  fun h =>
    match fuel with
    | O => (h, Err OutOfBounds)
    | S fuel =>
        (progressed ← drain_pass t views;
         if progressed : bool then drain_loop fuel t views else mret tt) h
    end.

Definition drain t (views : list view) : ST (Heap Src C) failure unit :=
  fun h => drain_loop (S (size (h_cells h))) t views h.

End heap.

(** ** Multisets of references *)

Section edges.
Context {C : Type} `{Cell C}.
Implicit Types (cells : gmap SlotIndex C) (c : C) (l : list ref).

Notation bag l := (list_to_set_disj l : gmultiset ref).

Lemma all_edges_insert cells i c :
  cells !! i = None → all_edges (<[i := c]> cells) = bag (cell_edges c) ⊎ all_edges cells.
Proof.
  intros Hi. unfold all_edges. rewrite map_fold_insert_L; [done| |done].
  intros. multiset_solver.
Qed.

Lemma all_edges_delete cells i c :
  cells !! i = Some c → all_edges cells = bag (cell_edges c) ⊎ all_edges (delete i cells).
Proof.
  intros Hi. rewrite <- all_edges_insert with (i := i) by apply lookup_delete_eq.
  by rewrite insert_delete_id.
Qed.

Lemma all_edges_replace cells i c c' :
  cells !! i = Some c →
  all_edges (<[i := c']> cells) ⊎ bag (cell_edges c) = all_edges cells ⊎ bag (cell_edges c').
Proof.
  intros Hi. rewrite <- insert_delete_eq, all_edges_insert by apply lookup_delete_eq.
  rewrite (all_edges_delete cells i c Hi). multiset_solver.
Qed.

Lemma names_insert cells i c r : cells !! i = None → names cells r → names (<[i := c]> cells) r.
Proof.
  intros Hi (c' & Hc & Hv). exists c'. split; [|done]. rewrite lookup_insert_ne; congruence.
Qed.

Lemma names_update cells i c c' r :
  cells !! i = Some c → cell_view c' = cell_view c → names cells r → names (<[i := c']> cells) r.
Proof.
  intros Hi Ec (c1 & Hc & Hv). destruct (decide (i = r.2)) as [->|].
  - exists c'. rewrite lookup_insert_eq. split; [done|]. congruence.
  - exists c1. by rewrite lookup_insert_ne.
Qed.

Lemma mult_bag (x : ref) (l : list ref) :
  x ∉ l → multiplicity x (bag l) = 0%nat.
Proof.
  intros Hx. apply not_elem_of_multiplicity. by rewrite elem_of_list_to_set_disj.
Qed.
End edges.

(** ** Link chains *)

Section chains.
Implicit Types (links : gmap SlotIndex SlotIndex) (l : list SlotIndex).

(** The link cells thread [l] to the sentinel. *)
Fixpoint linked links l : Prop :=
  match l with
  | [] => True
  | i :: l' => links !! i = Some (hd k_reclaim_nil l') ∧ linked links l'
  end.

Lemma linked_insert links l i x : i ∉ l → linked links l → linked (<[i := x]> links) l.
Proof.
  induction l as [|j l IH]; [done|]. cbn. rewrite not_elem_of_cons. intros [Hij Hi] [Hj Hl].
  rewrite lookup_insert_ne by done. auto.
Qed.
End chains.

(** ** The accounting invariant

    Stated over the parts of the heap it concerns, so that it can be used in the
    middle of a [reclaim].  [det v] is a batch of [v] a drain has detached and not yet
    reclaimed; together with the stack it holds exactly the zero-count slots. *)
Section accounting.
Context {C : Type} `{Cell C}.
Implicit Types (cells : gmap SlotIndex C) (views : gmap view View)
  (count : SlotIndex → Z) (ext : gmultiset ref) (det pend : view → list SlotIndex)
  (i : SlotIndex) (c : C).

Definition view_of views v : View := default new_view (views !! v).

(** The references held on slot [i]: its own view's. *)
Definition held ext cells (r : ref) : nat := multiplicity r (ext ⊎ all_edges cells).

Record count_inv count cells views ext det (pend : view → list SlotIndex) : Prop := {
  ci_names r : r ∈ ext ⊎ all_edges cells → names cells r;
  ci_count i c : cells !! i = Some c →
    count i = Z.of_nat (held ext cells (cell_view c, i)) ∧ count i <= k_max_count;
  ci_head v : v_head (view_of views v) = hd k_reclaim_nil (pend v);
  ci_linked v : linked (v_links (view_of views v)) (pend v) ∧
    linked (v_links (view_of views v)) (det v);
  ci_nodup v : NoDup (pend v ++ det v);
  ci_pending v i : i ∈ pend v ++ det v ↔
    ∃ c, cells !! i = Some c ∧ cell_view c = v ∧ count i = 0;
}.

Lemma held_elem ext cells r : (0 < held ext cells r)%nat ↔ r ∈ ext ⊎ all_edges cells.
Proof. unfold held. by rewrite elem_of_multiplicity. Qed.

Lemma held_cons ext cells r x :
  held ({[+ r +]} ⊎ ext) cells x = ((if decide (x = r) then 1 else 0) + held ext cells x)%nat.
Proof.
  unfold held. rewrite <- (assoc_L (⊎)), multiplicity_disj_union. f_equal.
  rewrite multiplicity_singleton. reflexivity.
Qed.

(** A held slot's count is positive. *)
Lemma held_count count cells views ext det pend r :
  count_inv count cells views ext det pend → r ∈ ext ⊎ all_edges cells →
  ∃ c, cells !! r.2 = Some c ∧ cell_view c = r.1 ∧ 0 < count r.2 <= k_max_count.
Proof.
  intros I Hr. destruct (ci_names _ _ _ _ _ _ I r Hr) as (c & Hc & Hv).
  exists c. split_and!; [done|done| |].
  - destruct (ci_count _ _ _ _ _ _ I _ _ Hc) as [Hn _]. rewrite Hn, Hv.
    destruct r as [v i]. cbn [fst snd] in *. apply held_elem in Hr. lia.
  - apply (ci_count _ _ _ _ _ _ I _ _ Hc).
Qed.

(** Counting a reference up. *)
Lemma count_retain count count' cells views ext det pend r :
  count_inv count cells views ext det pend → r ∈ ext ⊎ all_edges cells →
  count r.2 ≠ k_max_count → (∀ j, count' j = if decide (j = r.2) then count j + 1 else count j) →
  count_inv count' cells views ({[+ r +]} ⊎ ext) det pend.
Proof.
  intros I Hr Hmax Hc'. destruct (held_count _ _ _ _ _ _ _ I Hr) as (c & Hc & Hv & Hpos).
  split; try apply I.
  - intros r' Hr'. apply I. multiset_solver.
  - intros i c1 Hi. destruct (ci_count _ _ _ _ _ _ I i c1 Hi) as [Hn Hm]. rewrite Hc'.
    rewrite held_cons. destruct (decide (i = r.2)) as [->|Hne].
    + replace c1 with c in * by congruence. rewrite Hv in *.
      rewrite decide_True by by destruct r. split; lia.
    + rewrite decide_False; [done|]. intros <-. by apply Hne.
  - intros v i. rewrite (ci_pending _ _ _ _ _ _ I). do 2 f_equiv. f_equiv. f_equiv.
    rewrite Hc'. destruct (decide (i = r.2)) as [->|]; [lia|done].
Qed.

Lemma held_uncons ext cells r x :
  held ext cells x = (held ({[+ r +]} ⊎ ext) cells x - (if decide (x = r) then 1 else 0))%nat.
Proof. rewrite held_cons. destruct (decide _); lia. Qed.

(** Two references to one slot have one type. *)
Lemma names_type cells r c :
  names cells r → cells !! r.2 = Some c → r = (cell_view c, r.2).
Proof. intros (c' & Hc & Hv) Hc'. destruct r as [v i]. cbn in *. congruence. Qed.

(** Counting a reference down. *)
Lemma count_drop count count' cells views views' ext det pend pend' r :
  count_inv count cells views ({[+ r +]} ⊎ ext) det pend →
  (∀ j, count' j = if decide (j = r.2) then count j - 1 else count j) →
  (∀ v, v_head (view_of views' v) = hd k_reclaim_nil (pend' v)) →
  (∀ v, linked (v_links (view_of views' v)) (pend' v) ∧
        linked (v_links (view_of views' v)) (det v)) →
  (∀ v, NoDup (pend' v ++ det v)) →
  (∀ v i, i ∈ pend' v ++ det v ↔ i ∈ pend v ++ det v ∨ (v, i) = r ∧ count r.2 = 1) →
  count_inv count' cells views' ext det pend'.
Proof.
  intros I Hc' Hh Hl Hn Hp.
  assert (r ∈ ({[+ r +]} ⊎ ext) ⊎ all_edges cells) as Hr by multiset_solver.
  destruct (held_count _ _ _ _ _ _ _ I Hr) as (c & Hc & Hv & Hpos).
  split; try done.
  - intros r' Hr'. apply I. multiset_solver.
  - intros i c1 Hi. destruct (ci_count _ _ _ _ _ _ I i c1 Hi) as [Hcn Hm].
    rewrite Hc', held_cons in *. destruct (decide (i = r.2)) as [->|Hne].
    + replace c1 with c in * by congruence. rewrite Hv in *.
      rewrite decide_True in Hcn by by destruct r. split; lia.
    + rewrite decide_False in Hcn; [done|]. intros <-. by apply Hne.
  - intros v i. rewrite Hp, (ci_pending _ _ _ _ _ _ I). rewrite Hc'. split.
    + intros [(c1 & Hi & Hv1 & H0)|[<- H1]]; cbn [fst snd] in *.
      * exists c1. rewrite decide_False; [done|]. intros ->. replace c1 with c in * by congruence. lia.
      * exists c. rewrite decide_True by done. split_and!; [done|done|lia].
    + intros (c1 & Hi & Hv1 & H0). destruct (decide (i = r.2)) as [->|].
      * right. replace c1 with c in * by congruence. split; [|lia].
        destruct r. cbn in *. congruence.
      * left. eauto.
Qed.

(** The references a cell gains are handed over by a client. *)
Lemma count_update count cells views ext det pend i (c c' : C) (gained : gmultiset ref) :
  count_inv count cells views (gained ⊎ ext) det pend →
  cells !! i = Some c → cell_view c' = cell_view c →
  (list_to_set_disj (cell_edges c') : gmultiset ref) = gained ⊎ list_to_set_disj (cell_edges c) →
  count_inv count (<[i := c']> cells) views ext det pend.
Proof.
  intros I Hc Hv He.
  assert ((gained ⊎ ext) ⊎ all_edges cells = ext ⊎ all_edges (<[i := c']> cells)) as Eq.
  { pose proof (all_edges_replace cells i c c' Hc) as Hr. rewrite He in Hr. multiset_solver. }
  assert (∀ j c1, <[i := c']> cells !! j = Some c1 →
     ∃ c0, cells !! j = Some c0 ∧ cell_view c0 = cell_view c1) as Hback.
  { intros j c1. destruct (decide (i = j)) as [->|].
    - rewrite lookup_insert_eq. intros [= <-]. by exists c.
    - rewrite lookup_insert_ne by done. by exists c1. }
  split; try apply I.
  - intros r. rewrite <- Eq. intros Hr. eapply names_update; [done..|]. by apply I.
  - intros j c1 Hj. destruct (Hback j c1 Hj) as (c0 & H0 & <-).
    destruct (ci_count _ _ _ _ _ _ I j c0 H0) as [Hcn Hm]. unfold held in *. by rewrite <- Eq.
  - intros v j. rewrite (ci_pending _ _ _ _ _ _ I). split.
    + intros (c0 & H0 & Hv0 & Hz). destruct (decide (i = j)) as [->|].
      * exists c'. rewrite lookup_insert_eq. split_and!; [done|congruence|done].
      * exists c0. by rewrite lookup_insert_ne.
    + intros (c1 & H1 & Hv1 & Hz). destruct (Hback j c1 H1) as (c0 & H0 & E0).
      exists c0. split_and!; [done|congruence|done].
Qed.

(** A fresh cell, referred to once. *)
Lemma count_create count count' cells views views' ext det pend i c :
  count_inv count cells views ext det pend →
  cells !! i = None → cell_edges c = [] → count' i = 1 → (∀ j, j ≠ i → count' j = count j) →
  (∀ v, v_head (view_of views' v) = v_head (view_of views v) ∧
        v_links (view_of views' v) = v_links (view_of views v)) →
  count_inv count' (<[i := c]> cells) views' ({[+ (cell_view c, i) +]} ⊎ ext) det pend.
Proof.
  intros I Hi He H1 Hj Hviews.
  assert (all_edges (<[i := c]> cells) = all_edges cells) as Ea.
  { rewrite all_edges_insert, He by done. apply (left_id_L ∅ (⊎)). }
  assert (∀ v, (v, i) ∉ ext ⊎ all_edges cells) as Hfresh.
  { intros v Hin. destruct (ci_names _ _ _ _ _ _ I _ Hin) as (c0 & Hc0 & _). cbn in *. congruence. }
  split.
  - intros r. rewrite Ea. intros Hr. destruct (decide (r = (cell_view c, i))) as [->|Hne].
    + exists c. cbn. by rewrite lookup_insert_eq.
    + apply names_insert; [done|]. apply I. multiset_solver.
  - intros j c1. rewrite held_cons. unfold held. rewrite Ea. fold (held ext cells (cell_view c1, j)).
    destruct (decide (i = j)) as [<-|Hne].
    + rewrite lookup_insert_eq. intros [= <-]. rewrite H1, decide_True by done.
      assert (held ext cells (cell_view c, i) = 0%nat) as ->; [|unfold k_max_count; lia].
      unfold held. apply not_elem_of_multiplicity, Hfresh.
    + rewrite lookup_insert_ne by done. intros Hc1. rewrite decide_False by congruence.
      rewrite Hj by done. by apply (ci_count _ _ _ _ _ _ I).
  - intros v. rewrite (proj1 (Hviews v)). apply I.
  - intros v. rewrite (proj2 (Hviews v)). apply I.
  - apply I.
  - intros v j. rewrite (ci_pending _ _ _ _ _ _ I). split; intros (c0 & H0 & Hv0 & Hz).
    + exists c0. rewrite lookup_insert_ne by congruence. rewrite Hj by congruence. done.
    + destruct (decide (i = j)) as [<-|Hne]; [lia|]. rewrite lookup_insert_ne in H0 by done.
      rewrite Hj in Hz by done. eauto.
Qed.

(** Replacing one view's batch. *)
Definition with_batch (v : view) (batch : list SlotIndex) det : view → list SlotIndex :=
  fun v' => if decide (v = v') then batch else det v'.

Lemma with_batch_eq v batch det : with_batch v batch det v = batch.
Proof. unfold with_batch. by rewrite decide_True. Qed.
Lemma with_batch_ne v v' batch det : v ≠ v' → with_batch v batch det v' = det v'.
Proof. intros. unfold with_batch. by rewrite decide_False. Qed.

(** The destructor of a detached cell: what it owned is now owed by the drain. *)
Lemma count_destroy count cells views ext det batch pend i c :
  count_inv count cells views ext det pend →
  cells !! i = Some c → det (cell_view c) = i :: batch →
  count_inv count (delete i cells) views (list_to_set_disj (cell_edges c) ⊎ ext)
    (with_batch (cell_view c) batch det) pend.
Proof.
  intros I Hi Hdet.
  assert (ext ⊎ all_edges cells =
    (list_to_set_disj (cell_edges c) ⊎ ext) ⊎ all_edges (delete i cells)) as Eq.
  { rewrite (all_edges_delete cells i c Hi). multiset_solver. }
  assert (count i = 0) as Hz.
  { destruct (proj1 (ci_pending _ _ _ _ _ _ I (cell_view c) i)) as (c0 & ? & ? & ?);
      [rewrite Hdet; set_solver|done]. }
  assert (∀ v, (v, i) ∉ ext ⊎ all_edges cells) as Hun.
  { intros v Hin. destruct (held_count _ _ _ _ _ _ _ I Hin) as (c0 & _ & _ & ?). cbn in *. lia. }
  split.
  - rewrite <- Eq. intros [v j] Hr. destruct (ci_names _ _ _ _ _ _ I _ Hr) as (c0 & Hc0 & Hv).
    exists c0. cbn in *. rewrite lookup_delete_ne; [done|]. intros ->. by eapply Hun.
  - intros j c0 Hj. apply lookup_delete_Some in Hj as [_ Hj].
    unfold held. rewrite <- Eq. by apply (ci_count _ _ _ _ _ _ I).
  - apply I.
  - intros v. destruct (ci_linked _ _ _ _ _ _ I v) as [Hp Hd]. split; [done|].
    destruct (decide (cell_view c = v)) as [<-|Hne].
    + rewrite with_batch_eq. rewrite Hdet in Hd. apply Hd.
    + by rewrite with_batch_ne.
  - intros v. pose proof (ci_nodup _ _ _ _ _ _ I v) as Hn.
    destruct (decide (cell_view c = v)) as [<-|Hne].
    + rewrite with_batch_eq. rewrite Hdet in Hn. apply list.NoDup_app in Hn as (H1 & H2 & H3).
      apply list.NoDup_cons in H3 as [_ H3]. apply list.NoDup_app. split_and!; [done| |done]. set_solver.
    + by rewrite with_batch_ne.
  - intros v j. pose proof (ci_pending _ _ _ _ _ _ I v j) as Hp.
    pose proof (ci_nodup _ _ _ _ _ _ I v) as Hn.
    destruct (decide (cell_view c = v)) as [<-|Hne].
    + rewrite with_batch_eq, Hdet in *.
      apply list.NoDup_app in Hn as (_ & Hn1 & Hn2). apply list.NoDup_cons in Hn2 as [Hn2 _].
      assert (j ∈ pend (cell_view c) ++ batch ↔
        j ∈ pend (cell_view c) ++ i :: batch ∧ j ≠ i) as -> by set_solver.
      rewrite Hp. setoid_rewrite lookup_delete_Some. naive_solver.
    + rewrite with_batch_ne by done. rewrite Hp. setoid_rewrite lookup_delete_Some.
      naive_solver.
Qed.
End accounting.

(** ** The heap invariant *)

Section heap_invariant.
Context {Src C : Type} `{Cell C}.
Context (acquire : Src → Z → Z → Src * expected PoolError ChunkSpan).
Implicit Types (h : Heap Src C) (v : view) (index : SlotIndex) (t : thread)
  (ext : gmultiset ref) (det pend : view → list SlotIndex) (slots : SlotStore Src).

Definition keys (cells : gmap SlotIndex C) : list SlotIndex := (map_to_list cells).*1.

Lemma keys_insert cells i c : cells !! i = None → keys (<[i := c]> cells) ≡ₚ i :: keys cells.
Proof. intros Hi. unfold keys. by rewrite map_to_list_insert. Qed.

Lemma keys_delete cells i c : cells !! i = Some c → keys cells ≡ₚ i :: keys (delete i cells).
Proof.
  intros Hi. rewrite <- (keys_insert _ i c) by apply lookup_delete_eq. by rewrite insert_delete_id.
Qed.

Lemma keys_elem cells i : i ∈ keys cells ↔ is_Some (cells !! i).
Proof.
  unfold keys. rewrite list_elem_of_fmap. split.
  - intros ([j c] & -> & Hj). apply elem_of_map_to_list in Hj. by exists c.
  - intros [c Hc]. exists (i, c). by rewrite elem_of_map_to_list.
Qed.

Definition counts slots (i : SlotIndex) : Z := count_ref i slots.

Record heap_inv h ext det : Prop := {
  hi_bits : s_bits (h_slots h) < 12;
  hi_slots : slots_inv (h_slots h) (keys (h_cells h)) (h_fenced h);
  hi_count : ∃ pend, count_inv (counts (h_slots h)) (h_cells h) (h_views h) ext det pend;
  hi_links i c : h_cells h !! i = Some c →
    Z.shiftr i (s_bits (h_slots h)) ∈ v_link_chunks (h_view (cell_view c) h) }.

Definition no_batch : view → list SlotIndex := fun _ => [].

(** *** What the slot operations leave alone *)

Lemma counts_store slots i x j :
  counts (store_count i x slots) j = if decide (j = i) then x else counts slots j.
Proof.
  unfold counts, count_ref, store_count. cbn. rewrite lookup_insert.
  destruct (decide (i = j)), (decide (j = i)); congruence || done.
Qed.

Lemma store_count_inv slots live quarantined i x :
  slots_inv slots live quarantined → slots_inv (store_count i x slots) live quarantined.
Proof. intros I. destruct I. by split. Qed.

Lemma push_free_counts t i slots : s_counts (push_free t i slots) = s_counts slots.
Proof. unfold push_free. by destruct (_ <=? _)%nat. Qed.

Lemma release_counts t i slots : s_counts (release t i slots).1 = s_counts slots.
Proof. unfold release. destruct (s_fence _); [done|]. cbn. by rewrite push_free_counts. Qed.

Lemma release_bits t i slots : s_bits (release t i slots).1 = s_bits slots.
Proof.
  unfold release. destruct (s_fence _); [done|]. cbn. by rewrite (proj1 (push_free_frame _ _ _)).
Qed.

Lemma grow_counts c slots :
  s_counts (grow acquire c slots).1 = s_counts slots ∧ s_bits (grow acquire c slots).1 = s_bits slots.
Proof.
  unfold grow. destruct (max_chunks <=? c); [done|]. unfold mbind, ST_bind, acquire_chunk.
  destruct (acquire _ _ _) as [src [span|e]]; [|done]. unfold st_modify, publish_parallel_columns.
  destruct (negb _); [done|]. by destruct (bool_decide _).
Qed.

Lemma refilled_counts t slots :
  s_counts (refilled t slots) = s_counts slots ∧ s_bits (refilled t slots) = s_bits slots.
Proof.
  unfold refilled. destruct (local_pool t slots); [|done]. unfold refill_from_global.
  by destruct (s_free slots).
Qed.

Lemma allocate_counts t slots :
  s_counts (allocate acquire t slots).1 = s_counts slots ∧
  s_bits (allocate acquire t slots).1 = s_bits slots.
Proof.
  rewrite allocate_eq. cbv zeta. destruct (refilled_counts t slots) as [Ec Eb].
  destruct (list.last (local_pool t (refilled t slots))) as [i|]; [by cbn|].
  destruct (Z.land _ _ =? 0); [|by cbn].
  pose proof (grow_counts (Z.shiftr (s_high_water (refilled t slots)) (s_bits (refilled t slots)))
                (refilled t slots)) as [Gc Gb].
  destruct (grow _ _ _) as [st [u|e]]; cbn in *; by rewrite Gc, Gb.
Qed.

(** *** Operations *)

(** Slot zero through the last below the sentinel. *)
Lemma cell_not_nil h ext det i : heap_inv h ext det → is_Some (h_cells h !! i) → i ≠ k_reclaim_nil.
Proof.
  intros I Hi. pose proof (si_hw _ _ _ (hi_slots _ _ _ I)).
  assert (0 <= i < s_high_water (h_slots h)).
  { eapply si_live_below; [apply I|]. rewrite !elem_of_app, keys_elem. auto. }
  unfold k_reclaim_nil. lia.
Qed.

Lemma h_view_ensure v v' i h :
  v_head (h_view v' (ensure_parallel_chunks v i h)) = v_head (h_view v' h) ∧
  v_links (h_view v' (ensure_parallel_chunks v i h)) = v_links (h_view v' h) ∧
  v_link_chunks (h_view v' h) ⊆ v_link_chunks (h_view v' (ensure_parallel_chunks v i h)) ∧
  Z.shiftr i (s_bits (h_slots h)) ∈ v_link_chunks (h_view v (ensure_parallel_chunks v i h)).
Proof.
  unfold ensure_parallel_chunks. case_bool_decide as Hin; [done|].
  unfold h_view, set_view. cbn. rewrite lookup_insert_eq. rewrite lookup_insert.
  destruct (decide (v = v')) as [->|]; cbn; set_solver.
Qed.

Lemma ensure_frame v i h :
  h_slots (ensure_parallel_chunks v i h) = h_slots h ∧
  h_cells (ensure_parallel_chunks v i h) = h_cells h ∧
  h_fenced (ensure_parallel_chunks v i h) = h_fenced h.
Proof. unfold ensure_parallel_chunks. by case_bool_decide. Qed.

Lemma create_spec t h ext det c :
  heap_inv h ext det → cell_edges c = [] →
  match create acquire t c h with
  | (h', Ok i) => h_cells h !! i = None ∧ h_cells h' = <[i := c]> (h_cells h) ∧
      heap_inv h' ({[+ (cell_view c, i) +]} ⊎ ext) det
  | (h', Err e) => h_cells h' = h_cells h ∧ heap_inv h' ext det ∧ ∃ e', e = Refused e'
  end.
Proof.
  intros I He. unfold create.
  pose proof (allocate_spec acquire t (h_slots h) _ _ (hi_slots _ _ _ I)
    (or_introl (hi_bits _ _ _ I))) as Ha.
  pose proof (allocate_counts t (h_slots h)) as [Ec Eb].
  destruct (allocate acquire t (h_slots h)) as [slots [i|e]]; cbn in Ec, Eb.
  - destruct Ha as [Is _]. pose proof (si_nodup _ _ _ Is) as Hn.
    apply list.NoDup_app in Hn as (_ & _ & Hn). cbn in Hn. apply list.NoDup_cons in Hn as [Hn _].
    assert (h_cells h !! i = None) as Hi.
    { apply eq_None_not_Some. rewrite <- keys_elem. set_solver. }
    set (h1 := set_cells _ _). destruct (ensure_frame (cell_view c) i h1) as (Fs & Fc & Ff).
    split; [done|]. split; [cbn; by rewrite Fc|]. split; cbn; rewrite ?Fs, ?Fc, ?Ff; cbn.
    + rewrite Eb. apply I.
    + apply store_count_inv. revert Is.
      intros [A1 A2 A3 A4 A5 A6 A7]. split; try done.
      * by rewrite (keys_insert _ _ _ Hi).
      * by rewrite (Permutation_length (keys_insert _ i c Hi)).
    + destruct (hi_count _ _ _ I) as [pend Ic]. exists pend.
      apply (count_create (counts (h_slots h)) _ _ (h_views h)); try done.
      * rewrite counts_store, decide_True; done.
      * intros j Hj. rewrite counts_store, decide_False by done.
        unfold counts, count_ref. by rewrite Ec.
      * intros v. pose proof (h_view_ensure (cell_view c) v i h1) as (V1 & V2 & _). done.
    + intros j cj Hj. change (h_view ?v (set_slots ?s ?hh)) with (h_view v hh).
      destruct (h_view_ensure (cell_view c) (cell_view cj) i h1) as (_ & _ & V3 & V4).
      rewrite Eb. apply lookup_insert_Some in Hj as [[<- <-]|[_ Hj]].
      * cbn in V4. by rewrite Eb in V4.
      * apply V3. by apply (hi_links _ _ _ I).
  - destruct e as [e|]; [|done]. destruct Ha as [Is _]. split; [done|]. split; [|eauto].
    split; cbn; [rewrite Eb; apply I|done| |rewrite Eb; apply I].
    destruct (hi_count _ _ _ I) as [pend Ic]. exists pend.
    assert (counts slots = counts (h_slots h)) as ->; [|done].
    unfold counts, count_ref. by rewrite Ec.
Qed.

(** A store to one count cell. *)
Lemma heap_recount h ext ext' det i x :
  heap_inv h ext det →
  (∀ pend, count_inv (counts (h_slots h)) (h_cells h) (h_views h) ext det pend →
     count_inv (counts (store_count i x (h_slots h))) (h_cells h) (h_views h) ext' det pend) →
  heap_inv (set_slots (store_count i x (h_slots h)) h) ext' det.
Proof.
  intros I Hc. destruct (hi_count _ _ _ I) as [pend Ic].
  split; [apply I|by apply store_count_inv, I|exists pend; by apply Hc|apply I].
Qed.

Lemma retain_spec h ext det r :
  heap_inv h ext det → r ∈ ext ⊎ all_edges (h_cells h) →
  match retain r h with
  | (h', Ok _) => h_cells h' = h_cells h ∧ heap_inv h' ({[+ r +]} ⊎ ext) det
  | (h', Err e) => h' = h ∧ e = Refused CapacityExhausted
  end.
Proof.
  intros I Hr. unfold retain, try_retain.
  destruct (Z.eqb_spec (count_ref r.2 (h_slots h)) k_max_count) as [|Hmax]; [done|].
  split; [done|]. eapply heap_recount; [exact I|]. intros pend Ic.
  eapply count_retain; [exact Ic|done|done|]. intros j. rewrite counts_store.
  destruct (decide (j = r.2)) as [->|]; done.
Qed.

(** The count column and the views after one release. *)
Lemma count_release h cells ext det pend r :
  count_inv (counts (h_slots h)) cells (h_views h) ({[+ r +]} ⊎ ext) det pend →
  ∃ pend', count_inv (counts (h_slots (release_ref r h))) cells (h_views (release_ref r h))
             ext det pend'.
Proof.
  intros Ic. assert (r ∈ ({[+ r +]} ⊎ ext) ⊎ all_edges cells) as Hr by multiset_solver.
  destruct (held_count _ _ _ _ _ _ _ Ic Hr) as (c & Hc & Hv & Hpos).
  assert (u32 (counts (h_slots h) r.2 - 1) = counts (h_slots h) r.2 - 1) as Eu.
  { apply u32_small. unfold in_u32, k_max_count in *. lia. }
  unfold release_ref. change (count_ref r.2 (h_slots h)) with (counts (h_slots h) r.2).
  rewrite Eu. destruct (Z.eqb_spec (counts (h_slots h) r.2) 1) as [E1|E1].
  - exists (with_batch r.1 (r.2 :: pend r.1) pend).
    assert (∀ v, (v, r.2) = r → r.2 ∉ pend v ++ det v) as Hnew.
    { intros v Ev. rewrite (ci_pending _ _ _ _ _ _ Ic). intros (c0 & H0 & _ & Hz). lia. }
    assert (∀ v, view_of (h_views (enqueue_reclaim r.1 r.2 h)) v =
      if decide (r.1 = v) then mkView (<[r.2 := v_head (view_of (h_views h) r.1)]>
        (v_links (view_of (h_views h) r.1))) (v_link_chunks (view_of (h_views h) r.1))
        (v_published (view_of (h_views h) r.1)) r.2 else view_of (h_views h) v) as Hview.
    { intros v. unfold view_of, enqueue_reclaim, set_view. cbn. rewrite lookup_insert.
      by destruct (decide _). }
    eapply (count_drop (counts (h_slots h))); [exact Ic|..];
      try (intros v; change (h_views (enqueue_reclaim r.1 r.2 ?hh)) with
             (h_views (enqueue_reclaim r.1 r.2 h)); rewrite Hview; unfold with_batch;
           destruct (decide (r.1 = v)) as [<-|Hne]).
    + intros j. cbn. rewrite counts_store. destruct (decide (j = r.2)) as [->|]; done.
    + done.
    + apply Ic.
    + cbn. destruct (ci_linked _ _ _ _ _ _ Ic r.1) as [Lp Ld].
      pose proof (Hnew r.1 (eq_sym (surjective_pairing r))) as Hn.
      rewrite not_elem_of_app in Hn. destruct Hn as [Hn1 Hn2].
      rewrite lookup_insert_eq, (ci_head _ _ _ _ _ _ Ic r.1).
      split_and!; [done|by apply linked_insert|by apply linked_insert].
    + apply Ic.
    + intros v. unfold with_batch. destruct (decide (r.1 = v)) as [<-|]; [|apply Ic]. cbn.
      apply list.NoDup_cons. split; [|apply Ic]. apply Hnew. by rewrite <- surjective_pairing.
    + intros v j. unfold with_batch. destruct (decide (r.1 = v)) as [<-|Hne].
      * cbn. rewrite elem_of_cons. destruct r as [v' i]. cbn in *. naive_solver.
      * split; [by left|]. intros [?|[E _]]; [done|]. rewrite <- E in Hne. done.
  - exists pend. eapply (count_drop (counts (h_slots h))); [exact Ic|..];
      try (intros v; apply Ic).
    + intros j. cbn. rewrite counts_store. destruct (decide (j = r.2)) as [->|]; done.
    + intros v j. naive_solver.
Qed.

(** What a release leaves alone. *)
Definition same_store h h' : Prop :=
  h_cells h' = h_cells h ∧ h_fenced h' = h_fenced h ∧
  s_bits (h_slots h') = s_bits (h_slots h) ∧
  (∀ live quarantined, slots_inv (h_slots h) live quarantined →
     slots_inv (h_slots h') live quarantined) ∧
  (∀ v, v_link_chunks (h_view v h') = v_link_chunks (h_view v h)).

Lemma release_same r h : same_store h (release_ref r h).
Proof.
  unfold release_ref. case_match; unfold same_store; cbn.
  - split_and!; try done; [intros ??; apply store_count_inv|]. intros v.
    unfold h_view, enqueue_reclaim, set_view. cbn. rewrite lookup_insert.
    by destruct (decide (r.1 = v)) as [<-|].
  - split_and!; try done. intros ??; apply store_count_inv.
Qed.

Lemma same_store_trans h1 h2 h3 : same_store h1 h2 → same_store h2 h3 → same_store h1 h3.
Proof.
  intros (A1 & A2 & A3 & A4 & A5) (B1 & B2 & B3 & B4 & B5). unfold same_store.
  rewrite B1, B2, B3. setoid_rewrite B5. split_and!; auto.
Qed.

Lemma heap_released h h' ext ext' det :
  heap_inv h ext det → same_store h h' →
  (∃ pend, count_inv (counts (h_slots h')) (h_cells h) (h_views h') ext' det pend) →
  heap_inv h' ext' det.
Proof.
  intros I (E1 & E2 & E3 & E4 & E5) Hc. split; rewrite ?E1, ?E2, ?E3; [apply I| |done|].
  - apply E4, I.
  - setoid_rewrite E5. apply I.
Qed.

Lemma release_ref_spec h ext det r :
  heap_inv h ({[+ r +]} ⊎ ext) det → heap_inv (release_ref r h) ext det.
Proof.
  intros I. destruct (hi_count _ _ _ I) as [pend Ic].
  eapply heap_released; [exact I|apply release_same|]. by eapply count_release.
Qed.

Lemma update_spec h ext det (i : SlotIndex) (c c' : C) (gained : gmultiset ref) :
  heap_inv h (gained ⊎ ext) det → h_cells h !! i = Some c → cell_view c' = cell_view c →
  (list_to_set_disj (cell_edges c') : gmultiset ref) = gained ⊎ list_to_set_disj (cell_edges c) →
  heap_inv (set_cells (<[i := c']> (h_cells h)) h) ext det.
Proof.
  intros I Hi Hv He. destruct (hi_count _ _ _ I) as [pend Ic].
  assert (keys (<[i := c']> (h_cells h)) ≡ₚ keys (h_cells h)) as Hk.
  { rewrite <- insert_delete_eq, keys_insert by apply lookup_delete_eq.
    symmetry. by apply (keys_delete _ i c). }
  split; cbn; [apply I| | |].
  - destruct (hi_slots _ _ _ I) as [A1 A2 A3 A4 A5 A6 A7]. split; try done.
    + by rewrite Hk.
    + by rewrite (Permutation_length Hk).
  - exists pend. by eapply count_update.
  - intros j cj Hj. change (h_view ?v (set_cells ?m h)) with (h_view v h).
    apply lookup_insert_Some in Hj as [[<- <-]|[_ Hj]].
    + rewrite Hv. by apply (hi_links _ _ _ I).
    + by apply (hi_links _ _ _ I).
Qed.

(** *** Draining *)

Lemma release_all_spec (l : list ref) h cells ext det pend :
  count_inv (counts (h_slots h)) cells (h_views h) (list_to_set_disj l ⊎ ext) det pend →
  let h' := foldl (fun h r => release_ref r h) h l in
  same_store h h' ∧
  ∃ pend', count_inv (counts (h_slots h')) cells (h_views h') ext det pend'.
Proof.
  revert h pend. induction l as [|r l IH]; intros h pend Ic; cbn [foldl].
  - split; [unfold same_store; by split_and!|]. exists pend.
    by rewrite list_to_set_disj_nil, (left_id_L ∅ (⊎)) in Ic.
  - rewrite list_to_set_disj_cons, <- (assoc_L (⊎)) in Ic.
    destruct (count_release h cells _ _ _ _ Ic) as [pend1 Ic1].
    destruct (IH (release_ref r h) pend1 Ic1) as [Hs Hc]. split; [|done].
    eapply same_store_trans; [apply release_same|exact Hs].
Qed.

Lemma reclaim_spec t v i batch h ext :
  heap_inv h ext (with_batch v (i :: batch) no_batch) →
  ∃ h', reclaim t i h = (h', Ok tt) ∧ heap_inv h' ext (with_batch v batch no_batch) ∧
    h_cells h' = delete i (h_cells h) ∧ is_Some (h_cells h !! i).
Proof.
  intros I. destruct (hi_count _ _ _ I) as [pend Ic].
  destruct (proj1 (ci_pending _ _ _ _ _ _ Ic v i)) as (c & Hc & Hv & Hz).
  { rewrite with_batch_eq. set_solver. }
  pose proof (count_destroy _ _ _ _ _ batch _ i c Ic Hc) as Hd.
  rewrite Hv, with_batch_eq in Hd. specialize (Hd eq_refl).
  unfold reclaim. rewrite Hc. set (h1 := foldl _ h _).
  destruct (release_all_spec _ h _ _ _ _ Hd) as [(E1 & E2 & E3 & E4 & E5) [pend' Ic']].
  fold h1 in E1, E2, E3, E4, E5, Ic'.
  pose proof (release_inv acquire t i (h_slots h1) _ _ _ (E4 _ _ (hi_slots _ _ _ I))
    (keys_delete _ _ _ Hc)) as Hs.
  pose proof (release_counts t i (h_slots h1)) as Rc. pose proof (release_bits t i (h_slots h1)) as Rb.
  destruct (release t i (h_slots h1)) as [slots q]. cbn in Rc, Rb.
  eexists. split; [done|]. split; [|by rewrite E1]. split; cbn; rewrite ?E1, ?E2, ?Rb, ?E3.
  - apply I.
  - exact Hs.
  - exists pend'. assert (counts slots = counts (h_slots h1)) as ->.
    { unfold counts, count_ref. by rewrite Rc. }
    revert Ic'. assert (∀ d1 d2, (∀ v', d1 v' = d2 v') →
      count_inv (counts (h_slots h1)) (delete i (h_cells h)) (h_views h1) ext d1 pend' →
      count_inv (counts (h_slots h1)) (delete i (h_cells h)) (h_views h1) ext d2 pend') as Hext.
    { intros d1 d2 E [A1 A2 A3 A4 A5 A6]. split; try done; setoid_rewrite <- E; done. }
    apply Hext. intros v'. unfold with_batch. by destruct (decide _).
  - intros j cj Hj. apply lookup_delete_Some in Hj as [_ Hj].
    change (h_view ?v (mkHeap slots _ (h_views h1) _)) with (h_view v h1).
    rewrite E5. by apply (hi_links _ _ _ I).
Qed.

Lemma all_edges_elem (cells : gmap SlotIndex C) (r : ref) :
  r ∈ all_edges cells ↔ ∃ i c, cells !! i = Some c ∧ r ∈ cell_edges c.
Proof.
  split.
  - unfold all_edges. revert r. apply (map_fold_weak_ind (fun acc cells =>
      ∀ r : ref, r ∈ acc → ∃ i c, cells !! i = Some c ∧ r ∈ cell_edges c)); [multiset_solver|].
    intros i c m acc Hi IH r. rewrite gmultiset_elem_of_disj_union, elem_of_list_to_set_disj.
    intros [Hr|Hr].
    + exists i, c. by rewrite lookup_insert_eq.
    + destruct (IH r Hr) as (j & cj & Hj & Hrj). exists j, cj.
      rewrite lookup_insert_ne by congruence. done.
  - intros (i & c & Hi & Hr). rewrite (all_edges_delete cells i c Hi).
    rewrite gmultiset_elem_of_disj_union, elem_of_list_to_set_disj. by left.
Qed.

Lemma reach_counted h ext det r : heap_inv h ext det → reach (h_cells h) ext r →
  r ∈ ext ⊎ all_edges (h_cells h).
Proof.
  intros I Hr. rewrite gmultiset_elem_of_disj_union. destruct Hr as [r Hr|r c r' _ Hc Hr'].
  - by left.
  - right. rewrite all_edges_elem. eauto.
Qed.

(** What a drain keeps: everything still reachable, as it was. *)
Definition kept h h' ext : Prop :=
  h_cells h' ⊆ h_cells h ∧
  ∀ r, reach (h_cells h) ext r →
    reach (h_cells h') ext r ∧ h_cells h' !! r.2 = h_cells h !! r.2.

Lemma kept_refl h ext : kept h h ext.
Proof. by split. Qed.

Lemma kept_trans h1 h2 h3 ext : kept h1 h2 ext → kept h2 h3 ext → kept h1 h3 ext.
Proof.
  intros [A1 A2] [B1 B2]. split; [by etrans|]. intros r Hr. destruct (A2 r Hr) as [Hr2 E2].
  destruct (B2 r Hr2) as [Hr3 E3]. split; [done|]. congruence.
Qed.

(** Deleting a zero-count cell loses nothing reachable. *)
Lemma kept_delete h h' ext det i c :
  heap_inv h ext det → h_cells h !! i = Some c → counts (h_slots h) i = 0 →
  h_cells h' = delete i (h_cells h) → kept h h' ext.
Proof.
  intros I Hi Hz E. assert (∀ r, reach (h_cells h) ext r → r.2 ≠ i) as Hne.
  { intros r Hr <-. destruct (hi_count _ _ _ I) as [pend Ic].
    destruct (held_count _ _ _ _ _ _ _ Ic (reach_counted _ _ _ _ I Hr)) as (c0 & _ & _ & ?). lia. }
  split; [rewrite E; apply delete_subseteq|]. intros r Hr.
  assert (∀ r : ref, r.2 ≠ i → h_cells h' !! r.2 = h_cells h !! r.2) as Hlk.
  { intros r0 ?. by rewrite E, lookup_delete_ne. }
  split; [|by apply Hlk, Hne]. induction Hr as [r Hr|r c0 r' Hr IH Hc Hr'].
  - by apply reach_held.
  - apply (reach_edge _ _ r c0); [done| |done]. rewrite Hlk; [done|]. by apply Hne.
Qed.

Lemma batch_zero h ext v i batch :
  heap_inv h ext (with_batch v (i :: batch) no_batch) →
  ∃ c, h_cells h !! i = Some c ∧ counts (h_slots h) i = 0.
Proof.
  intros I. destruct (hi_count _ _ _ I) as [pend Ic].
  destruct (proj1 (ci_pending _ _ _ _ _ _ Ic v i)) as (c & Hc & _ & Hz); [|eauto].
  rewrite with_batch_eq. set_solver.
Qed.

Lemma size_delete_cell (cells : gmap SlotIndex C) i c :
  cells !! i = Some c → size cells = S (size (delete i cells)).
Proof.
  intros Hi. rewrite <- (map_size_insert_None i c (delete i cells)) by apply lookup_delete_eq.
  by rewrite insert_delete_id.
Qed.

Lemma drain_links_spec t v batch : ∀ fuel h ext,
  heap_inv h ext (with_batch v batch no_batch) → (length batch <= fuel)%nat →
  ∃ h', drain_links fuel t v (hd k_reclaim_nil batch) h = (h', Ok tt) ∧
    heap_inv h' ext no_batch ∧ kept h h' ext ∧
    size (h_cells h) = (size (h_cells h') + length batch)%nat.
Proof.
  induction batch as [|i batch IH]; intros fuel h ext I Hf.
  - exists h. split; [by destruct fuel|]. split; [|by split; [apply kept_refl|cbn; lia]].
    revert I. intros [A1 A2 [pend Ic] A4]. split; try done. exists pend.
    destruct Ic as [B1 B2 B3 B4 B5 B6].
    assert (∀ v', with_batch v [] no_batch v' = no_batch v') as E
      by (intros; unfold with_batch; by destruct (decide _)).
    split; try done; by setoid_rewrite <- E.
  - destruct fuel as [|fuel]; [cbn in Hf; lia|]. cbn [hd drain_links].
    destruct (batch_zero _ _ _ _ _ I) as (c & Hc & Hz).
    destruct (Z.eqb_spec i k_reclaim_nil) as [Hnil|_].
    { exfalso. eapply cell_not_nil; [exact I| |exact Hnil]. by eexists. }
    assert (v_links (h_view v h) !! i = Some (hd k_reclaim_nil batch)) as ->.
    { destruct (hi_count _ _ _ I) as [pend Ic].
      destruct (ci_linked _ _ _ _ _ _ Ic v) as [_ Hl]. rewrite with_batch_eq in Hl. apply Hl. }
    destruct (reclaim_spec t v i batch h ext I) as (h1 & Er & I1 & Ec & _).
    unfold mbind, ST_bind. rewrite Er. cbn [default].
    destruct (IH fuel h1 ext I1) as (h' & Ed & I' & Hk & Hsz); [cbn in Hf; lia|].
    exists h'. split; [done|]. split; [done|]. split.
    + eapply kept_trans; [|exact Hk]. by eapply kept_delete.
    + rewrite (size_delete_cell _ _ _ Hc), <- Ec, Hsz. cbn. lia.
Qed.

(** Detaching the stack turns it into the batch. *)
Lemma detach_spec h ext pend v :
  heap_inv h ext no_batch →
  count_inv (counts (h_slots h)) (h_cells h) (h_views h) ext no_batch pend →
  let vw := h_view v h in
  heap_inv (set_view v (mkView (v_links vw) (v_link_chunks vw) (v_published vw) k_reclaim_nil) h)
    ext (with_batch v (pend v) no_batch).
Proof.
  intros I Ic vw. set (vw' := mkView _ _ _ _).
  assert (∀ v', view_of (<[v := vw']> (h_views h)) v' = if decide (v = v') then vw' else h_view v' h)
    as Hv. { intros v'. unfold view_of. rewrite lookup_insert. by destruct (decide _). }
  split; [apply I|apply I| |].
  - exists (with_batch v [] pend). cbn. split; try apply Ic; intros v'; rewrite ?Hv;
      unfold with_batch; destruct (decide (v = v')) as [<-|Hne]; try apply Ic.
    + done.
    + split; [done|]. apply (ci_linked _ _ _ _ _ _ Ic v).
    + cbn. pose proof (ci_nodup _ _ _ _ _ _ Ic v) as Hn. by rewrite app_nil_r in Hn.
    + intros i. rewrite <- (ci_pending _ _ _ _ _ _ Ic v i). unfold no_batch.
      by rewrite app_nil_r.
  - intros i c Hc. pose proof (hi_links _ _ _ I i c Hc) as Hl.
    change (h_view ?x (set_view v vw' h)) with (view_of (<[v := vw']> (h_views h)) x). rewrite Hv.
    destruct (decide (v = cell_view c)) as [->|]; done.
Qed.

Lemma batch_length h ext v batch :
  heap_inv h ext (with_batch v batch no_batch) → (length batch <= size (h_cells h))%nat.
Proof.
  intros I. destruct (hi_count _ _ _ I) as [pend Ic].
  pose proof (ci_nodup _ _ _ _ _ _ Ic v) as Hn. rewrite with_batch_eq in Hn.
  apply list.NoDup_app in Hn as (_ & _ & Hn).
  assert (size (h_cells h) = length (keys (h_cells h))) as ->
    by (unfold keys; by rewrite length_fmap, length_map_to_list).
  apply submseteq_length, NoDup_submseteq; [done|]. intros i Hi. apply keys_elem.
  destruct (proj1 (ci_pending _ _ _ _ _ _ Ic v i)) as (c & Hc & _); [|by exists c].
  rewrite with_batch_eq, elem_of_app. by right.
Qed.

(** No slot of [v] has a zero count. *)
Definition quiet v h : Prop :=
  ∀ i c, h_cells h !! i = Some c → cell_view c = v → counts (h_slots h) i ≠ 0.

Definition unchanged h h' : Prop := h_cells h' = h_cells h ∧ h_slots h' = h_slots h.

(** What one sweep does, whichever views it covers. *)
Definition swept (vs : view → Prop) h ext (out : Heap Src C * expected failure bool) : Prop :=
  ∃ h' b, out = (h', Ok b) ∧ heap_inv h' ext no_batch ∧ kept h h' ext ∧
    (if b : bool then (size (h_cells h') < size (h_cells h))%nat
     else unchanged h h' ∧ ∀ v, vs v → quiet v h).

Lemma drain_pending_spec t v h ext :
  heap_inv h ext no_batch → swept (fun v' => v' = v) h ext (drain_pending t v h).
Proof.
  intros I. destruct (hi_count _ _ _ I) as [pend Ic].
  pose proof (detach_spec h ext pend v I Ic) as I1. cbv zeta in I1.
  unfold drain_pending. set (h1 := set_view v _ h) in *.
  assert (v_head (h_view v h) = hd k_reclaim_nil (pend v)) as Eh by apply (ci_head _ _ _ _ _ _ Ic v).
  rewrite Eh. destruct (pend v) as [|i batch] eqn:Ep; cbn [hd].
  - rewrite Z.eqb_refl. exists h1, false. split; [done|]. split.
    + destruct (drain_links_spec t v [] 0 h1 ext I1) as (h2 & E2 & I2 & _); [done|].
      cbn in E2. by injection E2 as <-.
    + split; [by split|]. split; [done|]. intros v' -> i c Hc Hv Hz.
      assert (i ∈ pend v ++ no_batch v) as Hin by (apply (ci_pending _ _ _ _ _ _ Ic); eauto).
      rewrite Ep in Hin. by apply not_elem_of_nil in Hin.
  - destruct (Z.eqb_spec i k_reclaim_nil) as [Hnil|_].
    { exfalso. destruct (batch_zero _ _ _ _ _ I1) as (c & Hc & _).
      eapply cell_not_nil; [exact I1| |exact Hnil]. by eexists. }
    destruct (drain_links_spec t v (i :: batch) (size (h_cells h1)) h1 ext I1)
      as (h2 & E2 & I2 & Hk & Hsz); [by eapply batch_length|].
    exists h2, true. unfold mbind, ST_bind. cbn [hd] in E2. rewrite E2. split; [done|].
    split; [done|]. split; [done|]. change (h_cells h1) with (h_cells h) in Hsz. cbn in Hsz. lia.
Qed.

Lemma drain_pass_spec t views : ∀ h ext,
  heap_inv h ext no_batch → swept (fun v => v ∈ views) h ext (drain_pass t views h).
Proof.
  induction views as [|v views IH]; intros h ext I.
  - exists h, false. split; [done|]. split; [done|]. split; [apply kept_refl|].
    split; [done|]. intros v Hv. by apply not_elem_of_nil in Hv.
  - destruct (drain_pending_spec t v h ext I) as (h1 & b1 & E1 & I1 & K1 & D1).
    destruct (IH h1 ext I1) as (h2 & b2 & E2 & I2 & K2 & D2).
    exists h2, (b1 || b2). cbn. unfold mbind, ST_bind. rewrite E1, E2. split; [done|].
    split; [done|]. split; [by eapply kept_trans|].
    assert (size (h_cells h2) <= size (h_cells h1))%nat by (apply map_subseteq_size, K2).
    assert (size (h_cells h1) <= size (h_cells h))%nat by (apply map_subseteq_size, K1).
    destruct b1, b2; cbn [orb]; try lia.
    destruct D1 as [[Dc Ds] Q1], D2 as [[Dc2 Ds2] Q2].
    split; [split; congruence|]. intros v' Hv'. apply elem_of_cons in Hv' as [->|Hv'].
    + by apply Q1.
    + pose proof (Q2 v' Hv') as Q. unfold quiet in *. by rewrite Dc, Ds in Q.
Qed.

Lemma drain_loop_spec t views : ∀ fuel h ext,
  heap_inv h ext no_batch → (size (h_cells h) < fuel)%nat →
  ∃ h', drain_loop fuel t views h = (h', Ok tt) ∧ heap_inv h' ext no_batch ∧ kept h h' ext ∧
    ∀ v, v ∈ views → quiet v h'.
Proof.
  induction fuel as [|fuel IH]; intros h ext I Hf; [lia|]. cbn [drain_loop].
  destruct (drain_pass_spec t views h ext I) as (h1 & b & E & I1 & K & D).
  unfold mbind, ST_bind. rewrite E. destruct b.
  - destruct (IH h1 ext I1) as (h2 & E2 & I2 & K2 & Q); [lia|]. exists h2.
    split; [done|]. split; [done|]. split; [by eapply kept_trans|done].
  - exists h1. split; [done|]. split; [done|]. split; [done|]. destruct D as [[Dc Ds] Q].
    intros v Hv. unfold quiet. rewrite Dc, Ds. by apply Q.
Qed.

Lemma drain_spec t views h ext :
  heap_inv h ext no_batch →
  ∃ h', drain t views h = (h', Ok tt) ∧ heap_inv h' ext no_batch ∧ kept h h' ext ∧
    ∀ v, v ∈ views → quiet v h'.
Proof. intros I. apply drain_loop_spec; [done|lia]. Qed.

(** Ownership runs from older depths to newer ones: no cycles. *)
Definition acyclic (cells : gmap SlotIndex C) : Prop :=
  ∃ d : SlotIndex → nat, ∀ i c r, cells !! i = Some c → r ∈ cell_edges c → (d i < d r.2)%nat.

Lemma acyclic_subseteq cells cells' : cells' ⊆ cells → acyclic cells → acyclic cells'.
Proof. intros Hs [d Hd]. exists d. intros i c r Hi. apply Hd. by eapply lookup_weaken. Qed.

Lemma reach_mono cells cells' ext r : cells ⊆ cells' → reach cells ext r → reach cells' ext r.
Proof.
  intros Hs Hr. induction Hr as [r Hr|r c r' Hr IH Hc Hr']; [by apply reach_held|].
  eapply reach_edge; [exact IH| |exact Hr']. by eapply lookup_weaken.
Qed.

(** A held cell of an acyclic heap hangs off a client's reference. *)
Lemma held_reach h ext : heap_inv h ext no_batch → acyclic (h_cells h) →
  (∀ i c, h_cells h !! i = Some c → counts (h_slots h) i ≠ 0) →
  ∀ i c, h_cells h !! i = Some c → reach (h_cells h) ext (cell_view c, i).
Proof.
  intros I [d Hd] Hq. destruct (hi_count _ _ _ I) as [pend Ic].
  assert (∀ n i c, (d i < n)%nat → h_cells h !! i = Some c →
    reach (h_cells h) ext (cell_view c, i)) as Hn.
  { induction n as [|n IH]; intros i c Hlt Hi; [lia|].
    destruct (ci_count _ _ _ _ _ _ Ic i c Hi) as [Hcount _].
    assert ((cell_view c, i) ∈ ext ⊎ all_edges (h_cells h)) as Hin.
    { apply (proj1 (held_elem _ _ _)). specialize (Hq i c Hi). rewrite Hcount in Hq.
      destruct (held ext (h_cells h) (cell_view c, i)); [done|lia]. }
    apply gmultiset_elem_of_disj_union in Hin as [Hin|Hin]; [by apply reach_held|].
    apply all_edges_elem in Hin as (j & cj & Hj & Hr). pose proof (Hd j cj _ Hj Hr) as Hlt2.
    cbn in Hlt2. eapply (reach_edge _ _ (cell_view cj, j) cj); [|done|done].
    apply IH; [lia|done]. }
  intros i c Hi. apply (Hn (S (d i))); [lia|done].
Qed.

Lemma new_heap_inv size align bits source :
  0 <= bits < 12 →
  heap_inv (mkHeap (new_store size align bits source) ∅ ∅ []) ∅ no_batch.
Proof.
  intros Hb. split; cbn; [lia|apply new_store_inv; lia| |done].
  exists no_batch. split; try done.
  - intros r Hr. exfalso. apply gmultiset_elem_of_disj_union in Hr as [Hr|Hr];
      multiset_solver.
  - intros v. apply NoDup_nil_2.
  - intros v i. split; [intros Hin; by apply not_elem_of_nil in Hin|].
    intros (c & Hc & _). by rewrite lookup_empty in Hc.
Qed.
End heap_invariant.

(** ** The heap implements the interface *)

#[export] Instance heap_ref_heap {Src C} `{Cell C}
    (acquire : Src → Z → Z → Src * expected PoolError ChunkSpan) (t : thread)
    (views : list view) :
  RefHeap (Heap Src C) C.
Proof.
  refine {|
    rh_cells := h_cells;
    rh_inv := fun h ext => heap_inv h ext no_batch;
    rh_create := create acquire t;
    rh_retain := retain;
    rh_release := release_ref;
    rh_update := fun i c h => set_cells (<[i := c]> (h_cells h)) h;
    rh_drain := drain t views |}.
  - intros h ext c h' i I He E. pose proof (create_spec acquire t h ext _ c I He) as Hs.
    by rewrite E in Hs.
  - intros h ext c h' e I He E. pose proof (create_spec acquire t h ext _ c I He) as Hs.
    by rewrite E in Hs.
  - intros h ext r h' [] I Hr E. pose proof (retain_spec h ext _ r I Hr) as Hs.
    by rewrite E in Hs.
  - intros h ext r h' e I Hr E. pose proof (retain_spec h ext _ r I Hr) as Hs.
    rewrite E in Hs. by destruct Hs as [-> ->].
  - intros h ext r I. split; [apply release_same|by apply release_ref_spec].
  - done.
  - intros h ext i c c' gained I Hi Hv He. by eapply update_spec.
  - intros h ext I. destruct (drain_spec acquire t views h ext I) as (h' & E & I' & [_ Hk] & _).
    exists h'. split; [done|]. split; [done|]. intros r Hr. apply Hk, Hr.
  - intros h ext r I Hr. destruct (hi_count _ _ _ I) as [pend Ic].
    by apply (ci_names _ _ _ _ _ _ Ic).
Defined.

(** ** Properties *)

Section properties.
Context {Src C : Type} `{Cell C}.
Context (acquire : Src → Z → Z → Src * expected PoolError ChunkSpan).
Implicit Types (h : Heap Src C) (t : thread) (ext : gmultiset ref).

(** The heap with the references its clients hold, as a transition system. *)
Inductive heap_step : Heap Src C * gmultiset ref → Heap Src C * gmultiset ref → Prop :=
| step_create t c h h' i ext :
    cell_edges c = [] → create acquire t c h = (h', Ok i) →
    heap_step (h, ext) (h', {[+ (cell_view c, i) +]} ⊎ ext)
| step_create_refused t c h h' e ext :
    cell_edges c = [] → create acquire t c h = (h', Err e) → heap_step (h, ext) (h', ext)
| step_retain r h h' ext :
    r ∈ ext ⊎ all_edges (h_cells h) → retain r h = (h', Ok tt) →
    heap_step (h, ext) (h', {[+ r +]} ⊎ ext)
| step_release r h ext :
    heap_step (h, {[+ r +]} ⊎ ext) (release_ref r h, ext)
| step_store (i : SlotIndex) (c c' : C) (gained : gmultiset ref) h ext :
    h_cells h !! i = Some c → cell_view c' = cell_view c →
    (list_to_set_disj (cell_edges c') : gmultiset ref) =
      gained ⊎ list_to_set_disj (cell_edges c) →
    heap_step (h, gained ⊎ ext) (set_cells (<[i := c']> (h_cells h)) h, ext)
| step_drain t views h h' ext :
    drain t views h = (h', Ok tt) → heap_step (h, ext) (h', ext).

Lemma heap_step_inv s s' :
  heap_step s s' → heap_inv s.1 s.2 no_batch → heap_inv s'.1 s'.2 no_batch.
Proof.
  destruct 1 as [t c h h' i ext He E|t c h h' e ext He E|r h h' ext Hr E|r h ext
    |i c c' gained h ext Hi Hv He|t views h h' ext E]; cbn [fst snd]; intros I.
  - pose proof (create_spec acquire t h ext _ c I He) as Hs. rewrite E in Hs. apply Hs.
  - pose proof (create_spec acquire t h ext _ c I He) as Hs. rewrite E in Hs. apply Hs.
  - pose proof (retain_spec h ext _ r I Hr) as Hs. rewrite E in Hs. apply Hs.
  - by apply release_ref_spec.
  - by eapply update_spec.
  - destruct (drain_spec acquire t views h ext I) as (h2 & E2 & I2 & _). congruence.
Qed.

Definition empty_heap (size align bits : Z) (source : Src) : Heap Src C :=
  mkHeap (new_store size align bits source) ∅ ∅ [].

Lemma heap_steps_inv size align bits source h ext :
  0 <= bits < 12 →
  rtc heap_step (empty_heap size align bits source, ∅) (h, ext) →
  heap_inv h ext no_batch.
Proof.
  intros Hb Hs. apply (rtc_ind_r (fun s => heap_inv s.1 s.2 no_batch)
    (empty_heap size align bits source, ∅) (new_heap_inv size align bits source Hb)) in Hs; [done|].
  intros s1 s2 _ Hs1 I. by eapply heap_step_inv.
Qed.

(** C15: whatever sequence of creations, pins, releases, edge stores and drains runs,
    allocation failures and saturated counts included, every reference held by a
    client or stored in an object names a constructed object of its type, whose count
    is exactly the number of references to it and whose reclaim-link chunk is
    published (so enqueueing it allocates nothing); no such slot is in the free pools
    or behind the fence. *)
Theorem heap_counts_exact size align bits source h ext
  (Hb : 0 <= bits < 12)
  (Hs : rtc heap_step (empty_heap size align bits source, ∅) (h, ext)) :
  (∀ i c, h_cells h !! i = Some c →
     count_ref i (h_slots h) = Z.of_nat (multiplicity (cell_view c, i) (ext ⊎ all_edges (h_cells h))) ∧
     Z.shiftr i (s_bits (h_slots h)) ∈ v_link_chunks (h_view (cell_view c) h) ∧
     i ∉ reusable_slots (h_slots h) ++ h_fenced h) ∧
  (∀ r, r ∈ ext ⊎ all_edges (h_cells h) → names (h_cells h) r).
Proof.
  pose proof (heap_steps_inv _ _ _ _ _ _ Hb Hs) as I.
  destruct (hi_count _ _ _ I) as [pend Ic]. split; [|apply Ic].
  intros i c Hi. split_and!; [apply (ci_count _ _ _ _ _ _ Ic i c Hi)|by apply (hi_links _ _ _ I)|].
  pose proof (si_nodup _ _ _ (hi_slots _ _ _ I)) as Hn.
  assert (i ∈ keys (h_cells h)) as Hk by (apply keys_elem; by eexists).
  rewrite !list.NoDup_app in Hn. set_solver.
Qed.

(** C19: a drain over every view of an acyclic heap terminates with exactly the
    objects reachable from the references clients hold, each unchanged: it reclaims
    every piece of garbage and nothing a client can still reach, and the counts stay
    exact. *)
Theorem drain_collects_garbage t views h ext
  (I : heap_inv h ext no_batch) (Ha : acyclic (h_cells h))
  (Hviews : ∀ i c, h_cells h !! i = Some c → cell_view c ∈ views) :
  ∃ h', drain t views h = (h', Ok tt) ∧ heap_inv h' ext no_batch ∧
    ∀ i c, h_cells h' !! i = Some c ↔
      h_cells h !! i = Some c ∧ reach (h_cells h) ext (cell_view c, i).
Proof.
  destruct (drain_spec acquire t views h ext I) as (h' & E & I' & [Hsub Hk] & Hq).
  exists h'. split; [done|]. split; [done|]. intros i c. split.
  - intros Hi. split; [by eapply lookup_weaken|].
    apply (reach_mono (h_cells h')); [done|].
    apply held_reach; [done|by eapply acyclic_subseteq| |done].
    intros j cj Hj. apply (Hq (cell_view cj)) with (c := cj); [|done|done].
    apply (Hviews j). by eapply lookup_weaken.
  - intros [Hi Hr]. destruct (Hk _ Hr) as [_ Ek]. cbn in Ek. congruence.
Qed.
End properties.

(** ** Witnesses *)

(** A chain of two objects: slot 1 owns slot 0. *)
#[local] Instance demo_cell : Cell (list ref) :=
  {| cell_view _ := 0%nat; cell_edges l := l |}.

Definition demo_heap0 : Heap Z (list ref) := empty_heap 16 16 2 4096.
Definition demo_heap1 : Heap Z (list ref) := (create demo_acquire 0%nat ([] : list ref) demo_heap0).1.
Definition demo_heap2 : Heap Z (list ref) := (create demo_acquire 0%nat ([] : list ref) demo_heap1).1.
Definition demo_heap3 : Heap Z (list ref) :=
  set_cells (<[1 := [(0%nat, 0)]]> (h_cells demo_heap2)) demo_heap2.
Definition demo_heap4 : Heap Z (list ref) := release_ref (0%nat, 1) demo_heap3.

Notation demo_step := (@heap_step Z (list ref) demo_cell demo_acquire).

Lemma demo_chain :
  rtc demo_step (demo_heap0, ∅) (demo_heap3, {[+ (0%nat, 1) +]} ⊎ ∅).
Proof.
  eapply rtc_l; [apply (step_create demo_acquire 0%nat [] demo_heap0 demo_heap1 0);
                   [done|by vm_compute]|].
  eapply rtc_l; [apply (step_create demo_acquire 0%nat [] demo_heap1 demo_heap2 1);
                   [done|by vm_compute]|].
  eapply rtc_l; [|apply rtc_refl].
  replace ({[+ (cell_view ([] : list ref), 1) +]} ⊎ ({[+ (cell_view ([] : list ref), 0) +]} ⊎ ∅))
    with (({[+ (0%nat, 0) +]} : gmultiset ref) ⊎ ({[+ (0%nat, 1) +]} ⊎ ∅)) by multiset_solver.
  apply (step_store demo_acquire 1 []); [by vm_compute|done|]. cbn. multiset_solver.
Defined.

Lemma heap_counts_exact_witness :
  count_ref 0 (h_slots demo_heap3) = 1 ∧ names (h_cells demo_heap3) (0%nat, 1).
Proof.
  destruct (heap_counts_exact demo_acquire 16 16 2 4096 demo_heap3 _
    ltac:(lia) demo_chain) as [Hc Hn].
  split; [by vm_compute|]. apply Hn.
  rewrite !gmultiset_elem_of_disj_union, gmultiset_elem_of_singleton. auto.
Defined.

Lemma drain_collects_garbage_witness :
  ∃ h', drain 0%nat [0%nat] demo_heap4 = (h', Ok tt) ∧ h_cells h' !! 1 = None.
Proof.
  assert (heap_inv demo_heap4 ∅ no_batch) as I.
  { apply (heap_steps_inv demo_acquire 16 16 2 4096); [lia|].
    eapply rtc_r; [apply demo_chain|]. apply (step_release demo_acquire (0%nat, 1) demo_heap3 ∅). }
  assert (h_cells demo_heap4 = {[0 := []; 1 := [(0%nat, 0)]]}) as Ec by (by vm_compute).
  destruct (drain_collects_garbage demo_acquire 0%nat [0%nat] demo_heap4 ∅ I) as (h' & E & _ & Hiff).
  - rewrite Ec. exists (fun i => Z.to_nat (1 - i)). intros i c r Hi Hr.
    apply lookup_insert_Some in Hi as [[<- <-]|[_ Hi]]; [by apply not_elem_of_nil in Hr|].
    apply lookup_singleton_Some in Hi as [<- <-]. apply list_elem_of_singleton in Hr as ->.
    cbn. lia.
  - intros i c _. apply list_elem_of_here.
  - exists h'. split; [done|]. destruct (h_cells h' !! 1) as [c|] eqn:E1; [|done].
    apply Hiff in E1 as [_ Hr]. exfalso. clear -Hr Ec. inversion Hr as [r Hr1|r c0 r' _ Hi Hr1]; subst.
    + by apply gmultiset_not_elem_of_empty in Hr1.
    + rewrite Ec in Hi. apply lookup_insert_Some in Hi as [[_ <-]|[_ Hi]];
        [by apply not_elem_of_nil in Hr1|].
      apply lookup_singleton_Some in Hi as [_ <-]. by apply list_elem_of_singleton in Hr1.
Defined.
