(* ===== verification/Hamt.v ===== *)
(** The persistent object map: [src/src/model/arbc/model/hamt.hpp] and the trie code
    of [src/src/model/model.cpp].

    Nodes and records are cells of one reference-counted heap, reached through the
    [RefHeap] interface.  A local [Ref] of the source is a slot the code owns until
    the end of its scope: [owning] releases it when the rest of the scope fails,
    [scoped] on every exit.  A node is built in place, one store per counted edge.
    Recursion is bounded by the levels of a 64-bit key; running past them, or reading
    a slot that holds no node, is [OutOfBounds]. *)

From S2P Require Import Prelude SlotStore RefStore.
From stdpp Require Import gmultiset.

Local Open Scope Z_scope.

(** ** Nodes *)

Definition k_hamt_bits : Z := 5.
Definition k_hamt_arity : nat := 32.
Definition k_hamt_mask : Z := 31.
Definition k_hamt_max_depth : nat := 13.

Record HamtNode := mkNode {
  is_leaf : bool;
  key : Z;
  record : SlotIndex;
  bitmap : Z;
  children : list SlotIndex }.

Definition empty_node : HamtNode := mkNode false 0 0 0 (replicate k_hamt_arity 0).

(** The cells of the document's heap. *)
Inductive cell (R : Type) := NodeCell (n : HamtNode) | RecordCell (r : R).
Arguments NodeCell {R} n.
Arguments RecordCell {R} r.

(** [StoreBundle]'s two views. *)
Definition nodes : view := 0%nat.
Definition records : view := 1%nat.

(** [std::countr_zero] and the [remaining &= remaining - 1] loop over a bitmap. *)
Fixpoint ctz_pos (p : positive) : Z :=
  match p with xO p => 1 + ctz_pos p | _ => 0 end.
Definition countr_zero (z : Z) : Z :=
  match z with Zpos p => ctz_pos p | _ => 32 end.

Fixpoint set_bits_loop (fuel : nat) (remaining : Z) : list Z :=
  match fuel with
  | O => []
  | S fuel =>
      if remaining =? 0 then []
      else countr_zero remaining :: set_bits_loop fuel (Z.land remaining (remaining - 1))
  end.
Definition set_bits (bitmap : Z) : list Z := set_bits_loop 32 bitmap.

(** [std::popcount]. *)
Definition popcount (z : Z) : nat := length (set_bits z).

Definition child (n : HamtNode) (digit : Z) : SlotIndex :=
  default 0 (children n !! Z.to_nat digit).

(** [~HamtNode]: the references a node owns. *)
Definition node_edges (n : HamtNode) : list ref :=
  if is_leaf n then [(records, record n)]
  else (fun digit => (nodes, child n digit)) <$> set_bits (bitmap n).

#[export] Instance hamt_cell {R} : Cell (cell R) := {|
  cell_view c := match c with NodeCell _ => nodes | RecordCell _ => records end;
  cell_edges c := match c with NodeCell n => node_edges n | RecordCell _ => [] end |}.

(** A key's digit at [shift]. *)
Definition digit_at (key shift : Z) : Z := Z.land (Z.shiftr key shift) k_hamt_mask.

Definition has_bit (bitmap digit : Z) : bool := negb (Z.land bitmap (Z.shiftl 1 digit) =? 0).

(** The stores [n.children[digit] = c; n.bitmap |= bit]. *)
Definition add_child (digit : Z) (c : SlotIndex) (n : HamtNode) : HamtNode :=
  mkNode (is_leaf n) (key n) (record n) (Z.lor (bitmap n) (Z.shiftl 1 digit))
    (<[Z.to_nat digit := c]> (children n)).

Section hamt.
Context {W R : Type} `{!RefHeap W (cell R)}.

(** A local [Ref] in scope while [m] runs: dropped if [m] fails, or in any case. *)
Definition owning {A} (r : ref) (m : ST W failure A) : ST W failure A := fun w =>
  match m w with
  | (w, Ok a) => (w, Ok a)
  | (w, Err e) => (rh_release r w, Err e)
  end.

Definition scoped {A} (r : ref) (m : ST W failure A) : ST W failure A :=
  st_finally m (rh_release r).

(** [RefStore::peek]. *)
Definition peek_node (i : SlotIndex) : ST W failure HamtNode := fun w =>
  match rh_cells w !! i with
  | Some (NodeCell n) => (w, Ok n)
  | _ => (w, Err OutOfBounds)
  end.

Definition store_node (i : SlotIndex) (n : HamtNode) : ST W failure unit :=
  st_modify (rh_update i (NodeCell n)).

Definition retain_node (i : SlotIndex) : ST W failure unit := rh_retain (nodes, i).
Definition retain_record (i : SlotIndex) : ST W failure unit := rh_retain (records, i).

Definition make_leaf (k : Z) (rec : SlotIndex) : ST W failure SlotIndex :=
  node ← rh_create (NodeCell empty_node);
  _ ← owning (nodes, node) (retain_record rec);
  _ ← store_node node (mkNode true k rec 0 (children empty_node));
  mret node.

(** The loop of [branch_with_child] and [branch_without_child]: share every present
    child of [base] but [skip]; [n] is the node under construction. *)
Fixpoint copy_children (node : SlotIndex) (base : HamtNode) (skip : Z) (digits : list Z)
    (n : HamtNode) : ST W failure HamtNode :=
  match digits with
  | [] => mret n
  | i :: digits =>
      if i =? skip then copy_children node base skip digits n
      else
        _ ← retain_node (child base i);
        let n := add_child i (child base i) n in
        _ ← store_node node n;
        copy_children node base skip digits n
  end.

Definition branch_with_child (base : option HamtNode) (digit : Z) (new_child : SlotIndex) :
    ST W failure SlotIndex :=
  node ← rh_create (NodeCell empty_node);
  owning (nodes, node) (
    n ← match base with
        | Some b => copy_children node b digit (set_bits (bitmap b)) empty_node
        | None => mret empty_node
        end;
    _ ← retain_node new_child;
    _ ← store_node node (add_child digit new_child n);
    mret node).

Fixpoint split (fuel : nat) (existing_leaf : SlotIndex) (existing_key new_key : Z)
    (rec : SlotIndex) (shift : Z) : ST W failure SlotIndex :=
  match fuel with
  | O => st_fail OutOfBounds
  | S fuel =>
      let ed := digit_at existing_key shift in
      let nd := digit_at new_key shift in
      if ed =? nd then
        inner ← split fuel existing_leaf existing_key new_key rec (shift + k_hamt_bits);
        scoped (nodes, inner) (branch_with_child None ed inner)
      else
        new_leaf ← make_leaf new_key rec;
        scoped (nodes, new_leaf) (
          branch ← branch_with_child None nd new_leaf;
          owning (nodes, branch) (
            _ ← retain_node existing_leaf;
            b ← peek_node branch;
            _ ← store_node branch (add_child ed existing_leaf b);
            mret branch))
  end.

Fixpoint insert_rec (fuel : nat) (node_slot : SlotIndex) (k : Z) (rec : SlotIndex) (shift : Z) :
    ST W failure SlotIndex :=
  match fuel with
  | O => st_fail OutOfBounds
  | S fuel =>
      node ← peek_node node_slot;
      if is_leaf node then
        if key node =? k then make_leaf k rec
        else split fuel node_slot (key node) k rec shift
      else
        let digit := digit_at k shift in
        new_child ← (if has_bit (bitmap node) digit
                     then insert_rec fuel (child node digit) k rec (shift + k_hamt_bits)
                     else make_leaf k rec);
        scoped (nodes, new_child) (branch_with_child (Some node) digit new_child)
  end.

(** [share_node]: [resolve] of an existing node. *)
Definition share_node (slot : SlotIndex) : ST W failure SlotIndex :=
  _ ← retain_node slot; mret slot.

Definition branch_without_child (base : HamtNode) (skip : Z) : ST W failure SlotIndex :=
  node ← rh_create (NodeCell empty_node);
  owning (nodes, node) (
    _ ← copy_children node base skip (set_bits (bitmap base)) empty_node;
    mret node).

(** A result [Ref] that is not empty. *)
Definition to_ref (m : ST W failure SlotIndex) : ST W failure (option SlotIndex) :=
  i ← m; mret (Some i).

(** [erase_rec]: [None] is the empty [Ref], an emptied subtree. *)
Fixpoint erase_rec (fuel : nat) (node_slot : SlotIndex) (k shift : Z) :
    ST W failure (option SlotIndex) :=
  match fuel with
  | O => st_fail OutOfBounds
  | S fuel =>
      node ← peek_node node_slot;
      if is_leaf node then
        if key node =? k then mret None else to_ref (share_node node_slot)
      else
        let digit := digit_at k shift in
        if negb (has_bit (bitmap node) digit) then to_ref (share_node node_slot)
        else
          new_child ← erase_rec fuel (child node digit) k (shift + k_hamt_bits);
          match new_child with
          | Some c =>
              to_ref (scoped (nodes, c) (branch_with_child (Some node) digit c))
          | None =>
              let new_bitmap := Z.land (bitmap node) (Z.lnot (Z.shiftl 1 digit)) in
              if new_bitmap =? 0 then mret None
              else if (popcount new_bitmap =? 1)%nat then
                let only_slot := child node (countr_zero new_bitmap) in
                only ← peek_node only_slot;
                if is_leaf only then to_ref (share_node only_slot)
                else to_ref (branch_without_child node digit)
              else to_ref (branch_without_child node digit)
          end
  end.

(** The levels a 64-bit key spans, and the leaf below the last. *)
Definition levels : nat := S k_hamt_max_depth.

(** The public operations; an empty [Ref] is the empty map. *)
Definition hamt_insert (root : option SlotIndex) (k : Z) (rec : SlotIndex) :
    ST W failure SlotIndex :=
  match root with
  | None => make_leaf k rec
  | Some slot => insert_rec levels slot k rec 0
  end.

Definition hamt_erase (root : option SlotIndex) (k : Z) : ST W failure (option SlotIndex) :=
  match root with
  | None => mret None
  | Some slot => erase_rec levels slot k 0
  end.

(** [hamt_lookup]'s loop: a read, whose only failure is a slot holding no node. *)
Fixpoint lookup_loop (fuel : nat) (w : W) (cur : SlotIndex) (k shift : Z) :
    expected failure (option SlotIndex) :=
  match fuel with
  | O => Err OutOfBounds
  | S fuel =>
      match rh_cells w !! cur with
      | Some (NodeCell n) =>
          if is_leaf n then Ok (if key n =? k then Some (record n) else None)
          else
            let digit := digit_at k shift in
            if negb (has_bit (bitmap n) digit) then Ok None
            else lookup_loop fuel w (child n digit) k (shift + k_hamt_bits)
      | _ => Err OutOfBounds
      end
  end.

Definition hamt_lookup (w : W) (root : option SlotIndex) (k : Z) :
    expected failure (option SlotIndex) :=
  match root with
  | None => Ok None
  | Some slot => lookup_loop levels w slot k 0
  end.

(** [collect_leaves]: every binding, in digit order. *)
Fixpoint collect_leaves (fuel : nat) (w : W) (slot : SlotIndex) :
    expected failure (list (Z * SlotIndex)) :=
  match fuel with
  | O => Err OutOfBounds
  | S fuel =>
      match rh_cells w !! slot with
      | Some (NodeCell n) =>
          if is_leaf n then Ok [(key n, record n)]
          else
            foldr (fun digit rest =>
              here ← collect_leaves fuel w (child n digit);
              there ← rest;
              Ok (here ++ there)) (Ok []) (set_bits (bitmap n))
      | _ => Err OutOfBounds
      end
  end.

End hamt.

(** ** Bitmaps *)

Lemma ctz_pos_spec p :
  0 <= ctz_pos p ∧ Z.testbit (Zpos p) (ctz_pos p) = true ∧
  (∀ j, 0 <= j < ctz_pos p → Z.testbit (Zpos p) j = false) ∧
  (∀ j, 0 <= j → Z.testbit (Z.land (Zpos p) (Zpos p - 1)) j =
     Z.testbit (Zpos p) j && negb (j =? ctz_pos p)).
Proof.
  induction p as [p IH|p IH|]; cbn [ctz_pos].
  - split_and!; [lia|done|lia|]. intros j Hj.
    replace (Zpos p~1 - 1) with (2 * Zpos p) by lia.
    replace (Zpos p~1) with (2 * Zpos p + 1) by lia. rewrite Z.land_spec.
    destruct (Z.eqb_spec j 0) as [->|Hne].
    + by rewrite Z.testbit_odd_0, Z.testbit_even_0.
    + replace j with (Z.succ (j - 1)) by lia.
      rewrite Z.testbit_odd_succ, Z.testbit_even_succ by lia. by rewrite andb_diag, andb_true_r.
  - destruct IH as (H0 & H1 & H2 & H3).
    assert (Zpos p~0 = 2 * Zpos p) as E by lia. rewrite !E. split_and!; [lia| | |].
    + replace (1 + ctz_pos p) with (Z.succ (ctz_pos p)) by lia.
      by rewrite Z.testbit_even_succ by lia.
    + intros j Hj. destruct (Z.eq_dec j 0) as [->|]; [by rewrite Z.testbit_even_0|].
      replace j with (Z.succ (j - 1)) by lia. rewrite Z.testbit_even_succ by lia. apply H2. lia.
    + intros j Hj. replace (2 * Zpos p - 1) with (2 * (Zpos p - 1) + 1) by lia.
      rewrite Z.land_spec. destruct (Z.eqb_spec j 0) as [->|].
      * by rewrite !Z.testbit_even_0.
      * replace j with (Z.succ (j - 1)) by lia.
        rewrite Z.testbit_odd_succ, Z.testbit_even_succ by lia.
        rewrite <- Z.land_spec, H3 by lia. f_equal. f_equal.
        apply eq_true_iff_eq. rewrite !Z.eqb_eq. lia.
  - split_and!; [lia|done|lia|]. intros j Hj. cbn. rewrite Z.bits_0.
    destruct j as [|j|j]; [done| |lia]. by destruct j.
Qed.

Lemma set_bits_loop_spec fuel : ∀ z k,
  0 <= z < 2 ^ 32 → 0 <= k → (∀ j, 0 <= j < k → Z.testbit z j = false) →
  32 - k <= Z.of_nat fuel →
  NoDup (set_bits_loop fuel z) ∧
  ∀ d, d ∈ set_bits_loop fuel z ↔ k <= d ∧ Z.testbit z d = true.
Proof.
  induction fuel as [|fuel IH]; intros z k Hz Hk Hlow Hf; cbn [set_bits_loop].
  - split; [apply NoDup_nil_2|]. intros d. split; [intros Hd; by apply not_elem_of_nil in Hd|].
    intros [Hd Hb]. rewrite (testbit_above z 32) in Hb; [done|done|lia].
  - destruct (Z.eqb_spec z 0) as [->|Hnz].
    + split; [apply NoDup_nil_2|]. intros d. rewrite Z.bits_0.
      split; [intros Hd; by apply not_elem_of_nil in Hd|]. by intros [_ ?].
    + destruct z as [|p|p]; [done| |lia]. cbn [countr_zero].
      destruct (ctz_pos_spec p) as (H0 & H1 & H2 & H3).
      assert (k <= ctz_pos p) as Hkc.
      { destruct (Z.lt_ge_cases (ctz_pos p) k); [|done]. rewrite Hlow in H1 by lia. done. }
      assert (0 <= Z.land (Zpos p) (Zpos p - 1) < 2 ^ 32) as Hz'.
      { split; [apply Z.land_nonneg; lia|].
        apply (Z.le_lt_trans _ (Zpos p)); [|lia]. apply Z.ldiff_le; [lia|].
        apply Z.bits_inj'. intros j Hj. rewrite Z.ldiff_spec, H3, Z.bits_0 by lia.
        destruct (Z.testbit (Zpos p) j); [apply andb_false_r|done]. }
      destruct (IH (Z.land (Zpos p) (Zpos p - 1)) (ctz_pos p + 1)) as [Hn Hel]; [done|lia| |lia|].
      { intros j Hj. rewrite H3 by lia. destruct (Z.eqb_spec j (ctz_pos p)) as [->|];
          [apply andb_false_r|]. by rewrite H2 by lia. }
      split.
      * apply list.NoDup_cons. split; [|done]. rewrite Hel. lia.
      * intros d. rewrite elem_of_cons, Hel. split.
        -- intros [->|[Hd Hb]]; [done|]. rewrite H3 in Hb by lia. split; [lia|].
           by apply andb_true_iff in Hb as [? _].
        -- intros [Hd Hb]. destruct (Z.eq_dec d (ctz_pos p)) as [->|]; [by left|]. right.
           destruct (Z.lt_ge_cases d (ctz_pos p)); [rewrite H2 in Hb by lia; done|].
           split; [lia|]. rewrite H3, Hb by lia. cbn. apply negb_true_iff, Z.eqb_neq. done.
Qed.

Section bitmaps.
Implicit Types (b d : Z).

Lemma set_bits_elem b d :
  0 <= b < 2 ^ 32 → d ∈ set_bits b ↔ 0 <= d ∧ Z.testbit b d = true.
Proof. intros Hb. apply (set_bits_loop_spec 32 b 0); [done|lia|lia|lia]. Qed.

Lemma set_bits_nodup b : 0 <= b < 2 ^ 32 → NoDup (set_bits b).
Proof. intros Hb. apply (set_bits_loop_spec 32 b 0); [done|lia|lia|lia]. Qed.

Lemma set_bits_range b d : 0 <= b < 2 ^ 32 → d ∈ set_bits b → 0 <= d < 32.
Proof.
  intros Hb Hd. apply set_bits_elem in Hd as [H0 Ht]; [|done]. split; [done|].
  destruct (Z.lt_ge_cases d 32); [done|]. rewrite (testbit_above b 32) in Ht; done || lia.
Qed.

Lemma has_bit_spec b d : 0 <= d → has_bit b d = Z.testbit b d.
Proof. intros Hd. unfold has_bit. rewrite Z.shiftl_1_l. by apply land_bit_test. Qed.

Lemma or_bit_range b d : 0 <= b < 2 ^ 32 → 0 <= d < 32 → 0 <= Z.lor b (Z.shiftl 1 d) < 2 ^ 32.
Proof.
  intros Hb Hd. rewrite Z.shiftl_1_l. assert (0 < 2 ^ d) by (apply Z.pow_pos_nonneg; lia).
  assert (2 ^ d <= 2 ^ 31) by (apply Z.pow_le_mono_r; lia).
  assert (0 <= Z.lor b (2 ^ d)) by (apply Z.lor_nonneg; lia). split; [done|].
  destruct (Z.eq_dec (Z.lor b (2 ^ d)) 0) as [->|]; [lia|]. apply Z.log2_lt_pow2; [lia|].
  rewrite Z.log2_lor by lia. rewrite Z.log2_pow2 by lia.
  apply Z.max_lub_lt; [|lia]. destruct (Z.eq_dec b 0) as [->|]; [by cbn|].
  apply Z.log2_lt_pow2; lia.
Qed.

Lemma or_bit_test b d j : 0 <= d → 0 <= j →
  Z.testbit (Z.lor b (Z.shiftl 1 d)) j = (j =? d) || Z.testbit b j.
Proof.
  intros Hd Hj. rewrite Z.lor_spec, Z.shiftl_1_l, Z.pow2_bits_eqb by done.
  rewrite (Z.eqb_sym d j). apply orb_comm.
Qed.

Lemma clear_bit_test b d j : 0 <= d → 0 <= j →
  Z.testbit (Z.land b (Z.lnot (Z.shiftl 1 d))) j = Z.testbit b j && negb (j =? d).
Proof.
  intros Hd Hj. rewrite Z.land_spec, Z.lnot_spec, Z.shiftl_1_l, Z.pow2_bits_eqb by done.
  by rewrite (Z.eqb_sym d j).
Qed.

Lemma clear_bit_range b d : 0 <= b < 2 ^ 32 → 0 <= d →
  0 <= Z.land b (Z.lnot (Z.shiftl 1 d)) < 2 ^ 32.
Proof.
  intros Hb Hd. split; [apply Z.land_nonneg; lia|].
  apply (Z.le_lt_trans _ b); [|lia]. apply Z.ldiff_le; [lia|].
  apply Z.bits_inj'. intros j Hj. rewrite Z.ldiff_spec, clear_bit_test, Z.bits_0 by lia.
  destruct (Z.testbit b j); [apply andb_false_r|done].
Qed.

(** Setting a clear bit adds it to the enumeration. *)
Lemma set_bits_or b d : 0 <= b < 2 ^ 32 → 0 <= d < 32 → Z.testbit b d = false →
  set_bits (Z.lor b (Z.shiftl 1 d)) ≡ₚ d :: set_bits b.
Proof.
  intros Hb Hd Ht. pose proof (or_bit_range b d Hb Hd) as Hr. apply NoDup_Permutation.
  - by apply set_bits_nodup.
  - apply list.NoDup_cons. split; [|by apply set_bits_nodup].
    rewrite set_bits_elem by done. intros [_ ?]. congruence.
  - intros x. rewrite elem_of_cons, !set_bits_elem by done. split.
    + intros [Hx Hbit]. rewrite or_bit_test in Hbit by lia.
      apply orb_true_iff in Hbit as [?%Z.eqb_eq|?]; auto.
    + intros [->|[Hx Hbit]].
      * rewrite or_bit_test, Z.eqb_refl by lia. split; [lia|done].
      * rewrite or_bit_test, Hbit, orb_true_r by lia. done.
Qed.

Lemma nonzero_bit b : 0 <= b < 2 ^ 32 → b ≠ 0 → ∃ d, d ∈ set_bits b.
Proof.
  intros Hb Hnz. destruct (Z.eq_dec b 0) as [|_]; [done|].
  exists (Z.log2 b). rewrite set_bits_elem by done. split; [apply Z.log2_nonneg|].
  apply Z.bit_log2. lia.
Qed.

Lemma set_bits_loop_S fuel b :
  set_bits_loop (S fuel) b =
  if b =? 0 then [] else countr_zero b :: set_bits_loop fuel (Z.land b (b - 1)).
Proof. done. Qed.

(** A one-bit bitmap: the bit is its [countr_zero]. *)
Lemma popcount_one b : 0 <= b < 2 ^ 32 → popcount b = 1%nat → set_bits b = [countr_zero b].
Proof.
  unfold popcount, set_bits. generalize 31%nat. intros fuel Hb. rewrite set_bits_loop_S.
  destruct (b =? 0); [done|]. intros [= Hp]. f_equal. by apply nil_length_inv.
Qed.
End bitmaps.

(** Digits. *)
Lemma digit_at_eq k s : 0 <= s → digit_at k s = (k / 2 ^ s) mod 2 ^ 5.
Proof.
  intros Hs. unfold digit_at, k_hamt_mask. rewrite Z.shiftr_div_pow2 by done.
  change 31 with (Z.ones 5). by apply Z.land_ones.
Qed.

Lemma digit_at_range k s : 0 <= s → 0 <= digit_at k s < 32.
Proof. intros Hs. rewrite digit_at_eq by done. apply Z.mod_pos_bound. lia. Qed.

(** One more digit of prefix. *)
Lemma prefix_digit k s : 0 <= s →
  k mod 2 ^ (s + 5) = k mod 2 ^ s + digit_at k s * 2 ^ s.
Proof.
  intros Hs. rewrite digit_at_eq by done. rewrite Z.pow_add_r, Z.rem_mul_r; lia.
Qed.

Lemma empty_node_edges : node_edges empty_node = [].
Proof. reflexivity. Qed.

#[global] Opaque set_bits.

(** ** Nodes under construction *)

Definition wf_branch (n : HamtNode) : Prop :=
  is_leaf n = false ∧ 0 <= bitmap n < 2 ^ 32 ∧ length (children n) = k_hamt_arity.

Lemma empty_node_wf : wf_branch empty_node.
Proof. split_and!; [done|cbn; lia|cbn; lia|done]. Qed.

Lemma add_child_wf d c n : wf_branch n → 0 <= d < 32 → wf_branch (add_child d c n).
Proof.
  intros (H1 & H2 & H3) Hd. split_and!; cbn; [done|by apply or_bit_range..|].
  by rewrite length_insert.
Qed.

Lemma add_child_child d c n d' : wf_branch n → 0 <= d < 32 → 0 <= d' < 32 →
  child (add_child d c n) d' = if decide (d' = d) then c else child n d'.
Proof.
  intros (_ & _ & Hlen) Hd Hd'. unfold child, add_child. cbn.
  unfold k_hamt_arity in Hlen. destruct (decide (d' = d)) as [->|Hne].
  - rewrite list_lookup_insert_eq by lia. done.
  - rewrite list_lookup_insert_ne by lia. done.
Qed.

Lemma add_child_bit d c n d' : 0 <= d → 0 <= d' →
  Z.testbit (bitmap (add_child d c n)) d' = (d' =? d) || Z.testbit (bitmap n) d'.
Proof. intros. by apply or_bit_test. Qed.

Lemma node_edges_branch n : is_leaf n = false →
  node_edges n = (fun d => (nodes, child n d)) <$> set_bits (bitmap n).
Proof. unfold node_edges. by intros ->. Qed.

Lemma bitmap_add_child d c n : bitmap (add_child d c n) = Z.lor (bitmap n) (Z.shiftl 1 d).
Proof. done. Qed.

Lemma add_child_targets d c n : wf_branch n → 0 <= d < 32 → Z.testbit (bitmap n) d = false →
  (fun d' => (nodes, child (add_child d c n) d')) <$> set_bits (bitmap (add_child d c n)) ≡ₚ
  (nodes, c) :: ((fun d' => (nodes, child n d')) <$> set_bits (bitmap n)).
Proof.
  intros Hwf Hd Hb. pose proof Hwf as (Hl & Hr & Hlen).
  rewrite bitmap_add_child, (set_bits_or _ d Hr Hd Hb), fmap_cons.
  rewrite add_child_child, decide_True by done. apply perm_skip.
  apply Permutation_refl', list_fmap_ext. intros j d' Hj%list_elem_of_lookup_2.
  pose proof (set_bits_range _ _ Hr Hj). apply set_bits_elem in Hj as [_ Hb']; [|done].
  rewrite add_child_child by done. rewrite decide_False; [done|]. intros ->. congruence.
Qed.

Lemma add_child_edges d c n : wf_branch n → 0 <= d < 32 → Z.testbit (bitmap n) d = false →
  (list_to_set_disj (node_edges (add_child d c n)) : gmultiset ref) =
    {[+ (nodes, c) +]} ⊎ list_to_set_disj (node_edges n).
Proof.
  intros Hwf Hd Hb. rewrite (node_edges_branch n) by apply Hwf.
  rewrite (node_edges_branch (add_child d c n)) by apply Hwf.
  rewrite <- list_to_set_disj_cons. apply list_to_set_disj_perm. by apply add_child_targets.
Qed.

(** ** Trees

    [tree cells f s p i m]: the subtree at slot [i], at most [f] levels deep and read
    from bit [s] on, binds exactly [m]; its keys all start with the [s]-bit prefix
    [p]. *)
Section trees.
Context {R : Type}.
Implicit Types (cells : gmap SlotIndex (cell R)) (m : gmap Z SlotIndex) (n : HamtNode)
  (k s p d : Z) (i : SlotIndex) (f : nat).

Inductive tree cells : nat → Z → Z → SlotIndex → gmap Z SlotIndex → Prop :=
| tree_leaf f s p i n m :
    cells !! i = Some (NodeCell n) → is_leaf n = true →
    in_u64 (key n) → key n mod 2 ^ s = p → m = {[key n := record n]} →
    tree cells (S f) s p i m
| tree_branch f s p i n m ms :
    cells !! i = Some (NodeCell n) → wf_branch n → bitmap n ≠ 0 →
    (∀ d, d ∈ set_bits (bitmap n) → tree cells f (s + 5) (p + d * 2 ^ s) (child n d) (ms d)) →
    (∀ k, m !! k =
       if Z.testbit (bitmap n) (digit_at k s) then ms (digit_at k s) !! k else None) →
    tree cells (S f) s p i m.

(** A version: an empty root is the empty map. *)
Definition version cells (root : option SlotIndex) m : Prop :=
  match root with
  | None => m = ∅
  | Some i => tree cells levels 0 0 i m
  end.

Lemma tree_mono cells cells' f s p i m : cells ⊆ cells' → tree cells f s p i m →
  tree cells' f s p i m.
Proof.
  intros Hs Ht. induction Ht as [f s p i n m Hi Hl Hk Hp Hm|f s p i n m ms Hi Hw Hb Hc IH Hm].
  - eapply tree_leaf; try done. by eapply lookup_weaken.
  - eapply tree_branch; try done. by eapply lookup_weaken.
Qed.

Lemma tree_keys cells f s p i m : tree cells f s p i m → 0 <= s →
  ∀ k r, m !! k = Some r → in_u64 k ∧ k mod 2 ^ s = p.
Proof.
  intros Ht. induction Ht as [f s p i n m Hi Hl Hk Hp ->|f s p i n m ms Hi Hw Hb Hc IH Hm];
    intros Hs k r Hkr.
  - apply lookup_singleton_Some in Hkr as [<- _]. done.
  - rewrite Hm in Hkr. pose proof (digit_at_range k s Hs).
    destruct (Z.testbit (bitmap n) (digit_at k s)) eqn:Ht; [|done].
    destruct (IH (digit_at k s)) with (k := k) (r := r) as [Hu Hmod]; try done || lia.
    { apply set_bits_elem; [apply Hw|]. split; [lia|done]. }
    rewrite prefix_digit in Hmod by done. split; [done|lia].
Qed.

Lemma child_prefix s p d : 0 <= s → 0 <= p < 2 ^ s → 0 <= d < 32 →
  0 <= p + d * 2 ^ s < 2 ^ (s + 5).
Proof. intros Hs Hp Hd. rewrite Z.pow_add_r by lia. nia. Qed.

(** The keys of a child have the child's digit. *)
Lemma child_digit cells f s p i m d k r :
  tree cells f (s + 5) (p + d * 2 ^ s) i m → 0 <= s → 0 <= p < 2 ^ s → 0 <= d < 32 →
  m !! k = Some r → digit_at k s = d.
Proof.
  intros Ht Hs Hp Hd Hk. destruct (tree_keys _ _ _ _ _ _ Ht ltac:(lia) k r Hk) as [_ Hm].
  rewrite prefix_digit in Hm by done. pose proof (digit_at_range k s Hs).
  pose proof (Z.mod_pos_bound k (2 ^ s) ltac:(lia)). nia.
Qed.

Lemma tree_nonempty cells f s p i m : tree cells f s p i m → 0 <= s → 0 <= p < 2 ^ s → m ≠ ∅.
Proof.
  intros Ht. induction Ht as [f s p i n m Hi Hl Hk Hp ->|f s p i n m ms Hi Hw Hb Hc IH Hm];
    intros Hs Hpr He.
  - apply (f_equal (.!! key n)) in He. by rewrite lookup_singleton_eq in He.
  - pose proof Hw as (_ & Hr & _). destruct (nonzero_bit _ Hr Hb) as [d Hd].
    pose proof (set_bits_range _ _ Hr Hd) as Hdr.
    destruct (map_choose (ms d)) as (k & r & Hk).
    { apply IH; [done|lia|by apply child_prefix]. }
    assert (digit_at k s = d) as Ed by (by eapply child_digit; [apply Hc| | | |]).
    assert (m !! k = Some r) as Hmk.
    { rewrite Hm, Ed. apply set_bits_elem in Hd as [_ ->]; [done|done]. }
    by rewrite He, lookup_empty in Hmk.
Qed.

(** A branch assembled from a child for [digit] and, elsewhere, the children of a
    branch binding [m]. *)
Lemma tree_graft cells f s p i n m m' digit (sub : option (gmap Z SlotIndex)) b ms :
  0 <= s → 0 <= digit < 32 →
  wf_branch b → (∀ d, d ∈ set_bits (bitmap b) → d ≠ digit →
     tree cells f (s + 5) (p + d * 2 ^ s) (child b d) (ms d)) →
  (∀ k, m !! k = if Z.testbit (bitmap b) (digit_at k s) then ms (digit_at k s) !! k else None) →
  cells !! i = Some (NodeCell n) → wf_branch n → bitmap n ≠ 0 →
  (∀ d, 0 <= d < 32 → Z.testbit (bitmap n) d =
     if decide (d = digit) then bool_decide (is_Some sub) else Z.testbit (bitmap b) d) →
  (∀ d, 0 <= d < 32 → Z.testbit (bitmap n) d = true → d ≠ digit → child n d = child b d) →
  (∀ mc, sub = Some mc → tree cells f (s + 5) (p + digit * 2 ^ s) (child n digit) mc) →
  (∀ k, digit_at k s = digit → m' !! k = mc ← sub; mc !! k) →
  (∀ k, digit_at k s ≠ digit → m' !! k = m !! k) →
  tree cells (S f) s p i m'.
Proof.
  intros Hs Hdg Hwb Hcb Hm Hi Hw Hnz Hbits Hch Hsub Heq Hne.
  pose proof Hw as (_ & Hr & _). pose proof Hwb as (_ & Hrb & _).
  apply (tree_branch _ f s p i n m' (fun d => if decide (d = digit) then default ∅ sub else ms d));
    try done.
  - intros d Hd. pose proof (set_bits_range _ _ Hr Hd) as Hdr.
    apply set_bits_elem in Hd as [_ Ht]; [|done]. pose proof (Hbits d Hdr) as Hbd.
    rewrite Ht in Hbd. destruct (decide (d = digit)) as [->|Hned].
    + symmetry in Hbd. apply bool_decide_eq_true in Hbd as [mc ->]. by apply Hsub.
    + rewrite Hch by done. apply Hcb; [|done]. apply set_bits_elem; [done|]. split; [lia|done].
  - intros k. pose proof (digit_at_range k s Hs). rewrite Hbits by done.
    destruct (decide (digit_at k s = digit)) as [Ed|Ed].
    + rewrite Heq by done. destruct sub as [mc|]; done.
    + rewrite Hne, Hm by done. done.
Qed.

(** Reading. *)
Lemma lookup_loop_spec {W} `{!RefHeap W (cell R)} (w : W) f s p i m k :
  tree (rh_cells w) f s p i m → 0 <= s → lookup_loop f w i k s = Ok (m !! k).
Proof.
  intros Ht. induction Ht as [f s p i n m Hi Hl Hk Hp ->|f s p i n m ms Hi Hw Hb Hc IH Hm];
    intros Hs; cbn [lookup_loop]; rewrite Hi.
  - rewrite Hl. f_equal. destruct (Z.eqb_spec (key n) k) as [->|];
      [by rewrite lookup_singleton_eq|by rewrite lookup_singleton_ne].
  - rewrite (proj1 Hw). pose proof (digit_at_range k s Hs). rewrite has_bit_spec by lia.
    rewrite Hm. destruct (Z.testbit (bitmap n) (digit_at k s)) eqn:Ht; [|done]. cbn [negb].
    apply IH; [|unfold k_hamt_bits; lia]. apply set_bits_elem; [apply Hw|]. split; [lia|done].
Qed.
End trees.

#[local] Arguments disj_union : simpl never.
#[local] Arguments singletonMS : simpl never.
#[local] Arguments empty : simpl never.

(** ** Outcomes

    [outcome old ext owned Q out]: a run that was entered with the references [ext]
    held either succeeds, holding in addition what its result owns, or fails with an
    error value holding [ext] again; every cell of [old] is left as it was. *)
Section outcomes.
Context {W R : Type} `{!RefHeap W (cell R)}.
Implicit Types (w : W) (ext : gmultiset ref) (old mid cells : gmap SlotIndex (cell R))
  (i c rec node : SlotIndex) (n base : HamtNode) (d digit k s p : Z).

Definition outcome {A : Type} old ext (owned : A → gmultiset ref)
    (Q : gmap SlotIndex (cell R) → A → Prop) (out : W * expected failure A) : Prop :=
  match out with
  | (w, Ok a) => rh_inv w (owned a ⊎ ext) ∧ old ⊆ rh_cells w ∧ Q (rh_cells w) a
  | (w, Err e) => rh_inv w ext ∧ old ⊆ rh_cells w ∧ ∃ e', e = Refused e'
  end.

Definition one (i : SlotIndex) : gmultiset ref := {[+ (nodes, i) +]}.
Definition none {A} (_ : A) : gmultiset ref := ∅.

Lemma outcome_mono {A : Type} old mid ext (O O' : A → gmultiset ref) (Q Q' : gmap SlotIndex (cell R) → A → Prop)
    (out : W * expected failure A) :
  outcome mid ext O Q out → old ⊆ mid →
  (∀ cells a, mid ⊆ cells → Q cells a → O a = O' a ∧ Q' cells a) → outcome old ext O' Q' out.
Proof.
  intros Ho Hc HQ. destruct out as [w [a|e]]; cbn in *.
  - destruct Ho as (I & Hs & Hq). destruct (HQ _ _ Hs Hq) as [<- ?]. split_and!; [done|by etrans|done].
  - destruct Ho as (I & Hs & He). split_and!; [done|by etrans|done].
Qed.

Lemma disj_union_swap (X Y Z : gmultiset ref) : X ⊎ (Y ⊎ Z) = Y ⊎ (X ⊎ Z).
Proof. by rewrite !(assoc_L (⊎)), (comm_L (⊎) X). Qed.

(** Continue with what the first part owns still held. *)
Lemma outcome_bind {A B : Type} old ext (O1 : A → gmultiset ref) (O2 : B → gmultiset ref)
    (Q1 : gmap SlotIndex (cell R) → A → Prop) (Q2 : gmap SlotIndex (cell R) → B → Prop) (m : ST W failure A) (f : A → ST W failure B) w :
  outcome old ext O1 Q1 (m w) →
  (∀ w1 a, rh_inv w1 (O1 a ⊎ ext) → old ⊆ rh_cells w1 → Q1 (rh_cells w1) a →
     outcome old ext O2 Q2 (f a w1)) →
  outcome old ext O2 Q2 (mbind f m w).
Proof.
  intros Hm Hf. unfold mbind, ST_bind. destruct (m w) as [w1 [a|e]]; [|exact Hm].
  destruct Hm as (I & Hs & Hq). by apply Hf.
Qed.

Lemma outcome_ret {A : Type} old ext (O : A → gmultiset ref)
    (Q : gmap SlotIndex (cell R) → A → Prop) (a : A) w :
  rh_inv w (O a ⊎ ext) → old ⊆ rh_cells w → Q (rh_cells w) a →
  outcome old ext O Q ((mret a : ST W failure A) w).
Proof. done. Qed.

Lemma outcome_owning {A : Type} old ext (r : ref) (O : A → gmultiset ref) (Q : gmap SlotIndex (cell R) → A → Prop)
    (m : ST W failure A) w :
  outcome old ({[+ r +]} ⊎ ext) O Q (m w) →
  outcome old ext (fun a => O a ⊎ {[+ r +]}) Q (owning r m w).
Proof.
  intros Ho. unfold owning. destruct (m w) as [w1 [a|e]]; cbn in *.
  - by rewrite <- (assoc_L (⊎)).
  - destruct Ho as (I & Hs & He). destruct (rh_release_spec _ _ _ I) as [Ec I'].
    rewrite Ec. done.
Qed.

Lemma outcome_scoped {A : Type} old ext (r : ref) (O : A → gmultiset ref) (Q : gmap SlotIndex (cell R) → A → Prop)
    (m : ST W failure A) w :
  outcome old ({[+ r +]} ⊎ ext) O Q (m w) → outcome old ext O Q (scoped r m w).
Proof.
  intros Ho. unfold scoped, st_finally. destruct (m w) as [w1 [a|e]]; cbn in *.
  - destruct Ho as (I & Hs & Hq). rewrite disj_union_swap in I.
    destruct (rh_release_spec _ _ _ I) as [Ec I']. by rewrite Ec.
  - destruct Ho as (I & Hs & He). destruct (rh_release_spec _ _ _ I) as [Ec I'].
    by rewrite Ec.
Qed.

(** *** Primitive steps *)

Lemma create_outcome w ext (cl : cell R) :
  rh_inv w ext → cell_edges cl = [] →
  outcome (rh_cells w) ext (fun i => {[+ (cell_view cl, i) +]})
    (fun cells i => rh_cells w !! i = None ∧ cells = <[i := cl]> (rh_cells w)) (rh_create cl w).
Proof.
  intros I He. destruct (rh_create cl w) as [w' [i|e]] eqn:E.
  - destruct (rh_create_ok _ _ _ _ _ I He E) as (Hi & Ec & I'). cbn.
    split_and!; [done| |done|done]. rewrite Ec. by apply insert_subseteq.
  - destruct (rh_create_err _ _ _ _ _ I He E) as (Ec & I' & Hr). cbn. by rewrite Ec.
Qed.

Lemma retain_outcome w ext r :
  rh_inv w ext → r ∈ ext ⊎ all_edges (rh_cells w) →
  outcome (rh_cells w) ext (fun _ => {[+ r +]}) (fun cells _ => cells = rh_cells w)
    (rh_retain r w).
Proof.
  intros I Hr. destruct (rh_retain r w) as [w' [u|e]] eqn:E.
  - destruct (rh_retain_ok _ _ _ _ _ I Hr E) as (Ec & I'). cbn. by rewrite Ec.
  - destruct (rh_retain_err _ _ _ _ _ I Hr E) as (Ec & I' & ->). cbn. rewrite Ec. eauto.
Qed.

(** A store to the node under construction, gaining one counted edge. *)
Lemma store_outcome old w (held X ext : gmultiset ref) (r : ref) i n n' :
  rh_inv w held → held = {[+ r +]} ⊎ (X ⊎ ext) → old ⊆ rh_cells w → old !! i = None →
  rh_cells w !! i = Some (NodeCell n) →
  (list_to_set_disj (node_edges n') : gmultiset ref) =
    {[+ r +]} ⊎ list_to_set_disj (node_edges n) →
  outcome old ext (fun _ => X) (fun cells _ => cells = <[i := NodeCell n']> (rh_cells w))
    (store_node i n' w).
Proof.
  intros I -> Hs Hi Hn He. unfold store_node, st_modify, outcome.
  rewrite rh_update_cells. split_and!; [|by apply insert_subseteq_r|done].
  by eapply (rh_update_spec w (X ⊎ ext) i (NodeCell n)).
Qed.

(** *** [make_leaf] *)

Lemma make_leaf_spec w ext k rec :
  rh_inv w ext → (records, rec) ∈ ext ⊎ all_edges (rh_cells w) →
  outcome (rh_cells w) ext one (fun cells i => rh_cells w !! i = None ∧
      cells !! i = Some (NodeCell (mkNode true k rec 0 (children empty_node))))
    (make_leaf k rec w).
Proof.
  intros I Hr. unfold make_leaf.
  eapply outcome_bind; [by apply create_outcome, empty_node_edges|].
  intros w1 node I1 Hs [Hfresh Ec]. cbn in I1.
  eapply outcome_bind.
  { apply outcome_owning. eapply outcome_mono; [|exact Hs|intros cells a _ H; exact (conj eq_refl H)].
    apply retain_outcome; [exact I1|]. rewrite Ec, all_edges_insert by done.
    multiset_solver. }
  intros w2 u2 I2 Hs2 Ec2. cbn in I2, Ec2. eapply outcome_bind.
  { eapply (store_outcome _ w2 _ (one node) ext (records, rec) node empty_node);
      [exact I2|by rewrite (assoc_L (⊎))|done|done| |by rewrite empty_node_edges].
    by rewrite Ec2, Ec, lookup_insert_eq. }
  intros w3 u3 I3 Hs3 Ec3. apply outcome_ret; [done|done|].
  by rewrite Ec3, lookup_insert_eq.
Qed.

(** *** Branches *)

Lemma node_edge_counted cells ext i n c :
  cells !! i = Some (NodeCell n) → (nodes, c) ∈ node_edges n → (nodes, c) ∈ ext ⊎ all_edges cells.
Proof.
  intros Hi Hc. rewrite gmultiset_elem_of_disj_union. right.
  rewrite (all_edges_delete cells i _ Hi), gmultiset_elem_of_disj_union. left.
  by apply elem_of_list_to_set_disj.
Qed.

Lemma counted_mono cells cells' ext (X : gmultiset ref) (r : ref) :
  r ∈ ext ⊎ all_edges cells → cells ⊆ cells' → r ∈ (X ⊎ ext) ⊎ all_edges cells'.
Proof.
  rewrite !gmultiset_elem_of_disj_union, !all_edges_elem. intros [?|(i & c & Hi & Hr)] Hs; [auto|].
  right. exists i, c. split; [by eapply lookup_weaken|done].
Qed.

Lemma child_edge n d : wf_branch n → d ∈ set_bits (bitmap n) → (nodes, child n d) ∈ node_edges n.
Proof.
  intros (Hl & _) Hd. rewrite node_edges_branch by done.
  apply list_elem_of_fmap. by exists d.
Qed.

(** The copy [n'] of [base]'s children [digits] but [skip] into [n]. *)
Definition copied base skip (digits : list Z) n n' : Prop :=
  wf_branch n' ∧
  (∀ d, 0 <= d < 32 → Z.testbit (bitmap n') d =
     if decide (d ∈ digits ∧ d ≠ skip) then true else Z.testbit (bitmap n) d) ∧
  (∀ d, 0 <= d < 32 → child n' d =
     if decide (d ∈ digits ∧ d ≠ skip) then child base d else child n d).

Lemma copied_step base skip i digits n n' :
  0 <= i < 32 → wf_branch n → i ≠ skip → i ∉ digits →
  copied base skip digits (add_child i (child base i) n) n' →
  copied base skip (i :: digits) n n'.
Proof.
  intros Hi Hw Hne Hnin (H1 & H2 & H3). split_and!; [done| |].
  - intros d Hd. rewrite H2, add_child_bit by lia.
    destruct (Z.eqb_spec d i) as [->|Hdi]; cbn [orb].
    + rewrite (decide_True (P := i ∈ i :: digits ∧ _)) by set_solver. by destruct (decide _).
    + assert (d ∈ i :: digits ∧ d ≠ skip ↔ d ∈ digits ∧ d ≠ skip) as Hiff by set_solver.
      by rewrite (decide_ext _ _ _ _ Hiff).
  - intros d Hd. rewrite H3, add_child_child by done. destruct (decide (d = i)) as [->|Hdi].
    + rewrite decide_False by (intros [? _]; done).
      by rewrite decide_True by set_solver.
    + assert (d ∈ i :: digits ∧ d ≠ skip ↔ d ∈ digits ∧ d ≠ skip) as Hiff by set_solver.
      by rewrite (decide_ext _ _ _ _ Hiff).
Qed.

Lemma copied_skip base skip digits n n' :
  copied base skip digits n n' → copied base skip (skip :: digits) n n'.
Proof.
  intros (H1 & H2 & H3). assert (∀ d, d ∈ skip :: digits ∧ d ≠ skip ↔ d ∈ digits ∧ d ≠ skip)
    as Hiff by set_solver.
  split_and!; [done| |]; intros d Hd; by rewrite (decide_ext _ _ _ _ (Hiff d)); auto.
Qed.

Lemma copy_children_spec old ext node bi base skip : ∀ digits n w,
  rh_inv w ext → old ⊆ rh_cells w → old !! node = None →
  rh_cells w !! node = Some (NodeCell n) → wf_branch n →
  old !! bi = Some (NodeCell base) → wf_branch base →
  NoDup digits → (∀ d, d ∈ digits → d ∈ set_bits (bitmap base)) →
  (∀ d, d ∈ digits → Z.testbit (bitmap n) d = false) →
  outcome old ext none (fun cells n' => cells !! node = Some (NodeCell n') ∧
      copied base skip digits n n') (copy_children node base skip digits n w).
Proof.
  induction digits as [|i digits IH]; intros n w I Hs Hfresh Hn Hw Hb Hwb Hnd Hin Hbits;
    cbn [copy_children].
  - apply outcome_ret; [unfold none; by rewrite (left_id_L ∅ (⊎))|done|]. split; [done|].
    split_and!; [done| |]; intros d Hd; by rewrite decide_False by (by intros [?%not_elem_of_nil _]).
  - apply list.NoDup_cons in Hnd as [Hnin Hnd].
    pose proof (set_bits_range _ _ (proj1 (proj2 Hwb)) (Hin i (list_elem_of_here _ _))) as Hi.
    destruct (Z.eqb_spec i skip) as [->|Hne].
    + eapply outcome_mono; [eapply (IH n w); try done; set_solver|done|].
      intros cells n' _ [Hc Hcp]. split; [done|]. split; [done|]. by apply copied_skip.
    + eapply outcome_bind.
      { eapply outcome_mono; [|exact Hs|intros cells a _ H; exact (conj eq_refl H)].
        apply retain_outcome; [exact I|]. apply (node_edge_counted _ _ bi base);
          [by eapply lookup_weaken|]. apply child_edge; [done|]. set_solver. }
      intros w1 u1 I1 Hs1 E1. cbn in I1, E1. eapply outcome_bind.
      { eapply (store_outcome _ w1 _ ∅ ext (nodes, child base i) node n);
          [exact I1|by rewrite (left_id_L ∅ (⊎))|done|done|by rewrite E1|].
        apply add_child_edges; [done|done|]. set_solver. }
      intros w2 u2 I2 Hs2 E2. cbn in I2, E2. rewrite (left_id_L ∅ (⊎)) in I2.
      eapply outcome_mono; [eapply (IH (add_child i (child base i) n) w2); try done|done|].
      * by rewrite E2, lookup_insert_eq.
      * by apply add_child_wf.
      * set_solver.
      * intros d Hd. pose proof (set_bits_range _ _ (proj1 (proj2 Hwb)) (Hin d ltac:(set_solver))).
        rewrite add_child_bit by lia. rewrite Hbits by set_solver.
        destruct (Z.eqb_spec d i) as [->|]; done.
      * intros cells n' _ [Hc Hcp]. split; [done|]. split; [done|]. by apply copied_step.
Qed.

(** What a grafted node looks like: [base]'s children with [digit] redirected to
    [target], or dropped. *)
Definition grafted (base : option HamtNode) digit (target : option SlotIndex) n' : Prop :=
  wf_branch n' ∧
  (∀ d, 0 <= d < 32 → Z.testbit (bitmap n') d =
     if decide (d = digit) then bool_decide (is_Some target)
     else match base with Some b => Z.testbit (bitmap b) d | None => false end) ∧
  (∀ c, target = Some c → child n' digit = c) ∧
  (∀ b d, base = Some b → 0 <= d < 32 → d ≠ digit → Z.testbit (bitmap b) d = true →
     child n' d = child b d).

Definition base_ok cells (base : option HamtNode) : Prop :=
  match base with Some b => wf_branch b ∧ ∃ bi, cells !! bi = Some (NodeCell b) | None => True end.

Lemma decide_digits b d skip : wf_branch b → 0 <= d →
  d ∈ set_bits (bitmap b) ∧ d ≠ skip ↔ Z.testbit (bitmap b) d = true ∧ d ≠ skip.
Proof. intros (_ & Hr & _) Hd. rewrite set_bits_elem by done. tauto. Qed.

(** Copying a base's children but [digit]'s. *)
Lemma base_children_spec old ext node (base : option HamtNode) digit w :
  rh_inv w ext → old ⊆ rh_cells w → old !! node = None →
  rh_cells w !! node = Some (NodeCell empty_node) → base_ok old base →
  outcome old ext none (fun cells n => cells !! node = Some (NodeCell n) ∧
      grafted base digit None n)
    ((match base with
      | Some b => copy_children node b digit (set_bits (bitmap b)) empty_node
      | None => mret empty_node
      end : ST W failure HamtNode) w).
Proof.
  intros I Hs Hfresh Hn Hb. destruct base as [b|].
  - destruct Hb as [Hwb [bi Hbi]].
    eapply outcome_mono; [eapply (copy_children_spec old); try done|done|].
    + apply set_bits_nodup, Hwb.
    + intros d _. apply Z.bits_0.
    + intros cells n _ [Hc (Hw & Hbit & Hch)]. split; [done|]. split; [done|].
      split_and!; [done| |done|].
      * intros d Hd. rewrite Hbit by done.
        rewrite (decide_ext _ _ _ _ (decide_digits b d digit Hwb ltac:(lia))).
        cbn [bitmap empty_node]. rewrite Z.bits_0.
        destruct (decide (d = digit)) as [->|]; [by rewrite decide_False by (intros [_ []]; done)|].
        destruct (Z.testbit (bitmap b) d); [by rewrite decide_True|].
        by rewrite decide_False by naive_solver.
      * intros b' d [= <-] Hd Hne Ht. rewrite Hch by done.
        rewrite decide_True; [done|]. apply decide_digits; [done|lia|done].
  - apply outcome_ret; [unfold none; by rewrite (left_id_L ∅ (⊎))|done|]. split; [done|].
    split; [apply empty_node_wf|]. split_and!; [|done|done].
    intros d _. cbn. rewrite Z.bits_0. by destruct (decide _).
Qed.

(** The scope of the node under construction: it is the result, or released. *)
Lemma build_spec w ext (Q : gmap SlotIndex (cell R) → SlotIndex → Prop)
    (body : SlotIndex → ST W failure SlotIndex) :
  rh_inv w ext →
  (∀ w1 node, rh_inv w1 (one node ⊎ ext) → rh_cells w !! node = None →
     rh_cells w1 = <[node := NodeCell empty_node]> (rh_cells w) →
     outcome (rh_cells w) (one node ⊎ ext) none (fun cells i => i = node ∧ Q cells i)
       (body node w1)) →
  outcome (rh_cells w) ext one (fun cells i => rh_cells w !! i = None ∧ Q cells i)
    ((node ← rh_create (NodeCell empty_node); owning (nodes, node) (body node)) w).
Proof.
  intros I Hbody. eapply outcome_bind; [by apply create_outcome, empty_node_edges|].
  intros w1 node I1 Hs1 [Hfresh E1]. cbn in I1.
  eapply outcome_mono; [apply outcome_owning; by apply Hbody|done|].
  intros cells a _ [-> Hq]. unfold none. by rewrite (left_id_L ∅ (⊎)).
Qed.

Lemma branch_with_child_spec w ext (base : option HamtNode) digit c :
  rh_inv w ext → base_ok (rh_cells w) base → 0 <= digit < 32 →
  (nodes, c) ∈ ext ⊎ all_edges (rh_cells w) →
  outcome (rh_cells w) ext one (fun cells i => rh_cells w !! i = None ∧
      ∃ n, cells !! i = Some (NodeCell n) ∧ grafted base digit (Some c) n)
    (branch_with_child base digit c w).
Proof.
  intros I Hb Hdg Hc. apply build_spec; [done|]. intros w1 node I1 Hfresh E1.
  eapply outcome_bind.
  { apply base_children_spec; try done; [rewrite E1; by apply insert_subseteq|].
    by rewrite E1, lookup_insert_eq. }
  intros w2 n I2 Hs2 (Hn & Hw & Hbit & _ & Hch). unfold none in I2. rewrite (left_id_L ∅ (⊎)) in I2.
  eapply outcome_bind.
  { eapply outcome_mono; [|exact Hs2|intros cells a _ H; exact (conj eq_refl H)].
    apply retain_outcome; [exact I2|]. by eapply counted_mono. }
  intros w3 u3 I3 Hs3 E3. cbn in I3, E3. eapply outcome_bind.
  { eapply (store_outcome _ w3 _ ∅ _ (nodes, c) node n);
      [exact I3|by rewrite (left_id_L ∅ (⊎))|done|done|by rewrite E3|].
    apply add_child_edges; [done|done|]. rewrite Hbit by done. by rewrite decide_True. }
  intros w4 u4 I4 Hs4 E4. cbn in I4, E4. apply outcome_ret; [done|done|].
  split; [done|]. exists (add_child digit c n). split; [by rewrite E4, lookup_insert_eq|].
  split_and!; [by apply add_child_wf| | |].
  - intros d Hd. rewrite add_child_bit, Hbit by lia.
    destruct (Z.eqb_spec d digit) as [->|]; [|by rewrite !decide_False].
    rewrite !decide_True by done. symmetry. by apply bool_decide_eq_true.
  - intros c' [= <-]. rewrite add_child_child by done. by rewrite decide_True.
  - intros b d Eb Hd Hne Ht. rewrite add_child_child, decide_False by done. by apply (Hch b).
Qed.

Lemma branch_without_child_spec w ext (b : HamtNode) digit :
  rh_inv w ext → base_ok (rh_cells w) (Some b) →
  outcome (rh_cells w) ext one (fun cells i => rh_cells w !! i = None ∧
      ∃ n, cells !! i = Some (NodeCell n) ∧ grafted (Some b) digit None n)
    (branch_without_child b digit w).
Proof.
  intros I Hb. apply build_spec; [done|]. intros w1 node I1 Hfresh E1.
  eapply outcome_bind.
  { apply (base_children_spec (rh_cells w) _ node (Some b) digit); try done;
      [rewrite E1; by apply insert_subseteq|]. by rewrite E1, lookup_insert_eq. }
  intros w2 n I2 Hs2 Hn. apply outcome_ret; [done|done|]. split; [done|]. by exists n.
Qed.

Lemma share_node_spec w ext i :
  rh_inv w ext → (nodes, i) ∈ ext ⊎ all_edges (rh_cells w) →
  outcome (rh_cells w) ext one (fun cells j => j = i) (share_node i w).
Proof.
  intros I Hi. unfold share_node. eapply outcome_bind; [by apply retain_outcome|].
  intros w1 u I1 Hs E. by apply outcome_ret.
Qed.

(** *** Trees out of grafts *)

(** A graft over a branch that binds [m]; [sub] is what the new child binds. *)
Lemma grafted_tree cells f s p i n (base : option HamtNode) digit target (sub : option (gmap Z SlotIndex))
    (m m' : gmap Z SlotIndex) ms :
  0 <= s → 0 <= digit < 32 →
  wf_branch (default empty_node base) →
  (∀ d, d ∈ set_bits (bitmap (default empty_node base)) → d ≠ digit →
     tree cells f (s + 5) (p + d * 2 ^ s) (child (default empty_node base) d) (ms d)) →
  (∀ k, m !! k = if Z.testbit (bitmap (default empty_node base)) (digit_at k s)
     then ms (digit_at k s) !! k else None) →
  cells !! i = Some (NodeCell n) → grafted base digit target n → bitmap n ≠ 0 →
  match target, sub with
  | Some c, Some mc => tree cells f (s + 5) (p + digit * 2 ^ s) c mc
  | None, None => True
  | _, _ => False
  end →
  (∀ k, digit_at k s = digit → m' !! k = mc ← sub; mc !! k) →
  (∀ k, digit_at k s ≠ digit → m' !! k = m !! k) →
  tree cells (S f) s p i m'.
Proof.
  intros Hs Hdg Hwb Hc Hm Hi (Hw & Hbit & Ht & Hch) Hnz Hsub Heq Hne.
  apply (tree_graft cells f s p i n m m' digit sub (default empty_node base) ms); try done.
  - intros d Hd. rewrite Hbit by done. destruct (decide (d = digit)) as [->|].
    + apply bool_decide_ext. destruct target, sub; try done; split; by intros [? ?].
    + destruct base; [done|]. cbn. by rewrite Z.bits_0.
  - intros d Hd Hb Hned. pose proof (Hbit d Hd) as Hbd. rewrite Hb, decide_False in Hbd by done.
    destruct base as [b|]; [|done]. by apply (Hch b).
  - intros mc ->. destruct target as [c|]; [|done]. by rewrite (Ht c).
Qed.

Lemma grafted_nonzero (base : option HamtNode) digit c n :
  0 <= digit < 32 → grafted base digit (Some c) n → bitmap n ≠ 0.
Proof.
  intros Hd (_ & Hb & _) E. specialize (Hb digit Hd). rewrite E, Z.bits_0, decide_True in Hb by done.
  symmetry in Hb. apply bool_decide_eq_false in Hb. by apply Hb.
Qed.

(** A chain link: one child. *)
Lemma link_tree cells f s p i n digit c (mc : gmap Z SlotIndex) :
  0 <= s → 0 <= p < 2 ^ s → 0 <= digit < 32 →
  cells !! i = Some (NodeCell n) → grafted None digit (Some c) n →
  tree cells f (s + 5) (p + digit * 2 ^ s) c mc → tree cells (S f) s p i mc.
Proof.
  intros Hs Hp Hd Hi Hg Ht.
  apply (grafted_tree cells f s p i n None digit (Some c) (Some mc) ∅ mc (fun _ => ∅)); try done.
  - intros d Hd'. cbn in Hd'. apply set_bits_elem in Hd' as [_ Hb]; [|lia]. by rewrite Z.bits_0 in Hb.
  - intros k. rewrite lookup_empty. cbn. by rewrite Z.bits_0.
  - by eapply grafted_nonzero.
  - intros k Hk. rewrite lookup_empty. destruct (mc !! k) eqn:E; [|done].
    destruct Hk. by eapply child_digit.
Qed.

(** Where two leaves part. *)
Lemma fork_tree cells f s p i n nd ed l e nl ne :
  0 <= s → 0 <= p < 2 ^ s → digit_at (key nl) s = nd → digit_at (key ne) s = ed → ed ≠ nd →
  cells !! l = Some (NodeCell nl) → is_leaf nl = true → in_u64 (key nl) →
  cells !! e = Some (NodeCell ne) → is_leaf ne = true → in_u64 (key ne) →
  key nl mod 2 ^ s = p → key ne mod 2 ^ s = p →
  grafted None nd (Some l) n → cells !! i = Some (NodeCell (add_child ed e n)) →
  tree cells (S (S f)) s p i (<[key nl := record nl]> {[key ne := record ne]}).
Proof.
  intros Hs Hp En Ee Hne Hl Hll Hul He Hle Hue Hpl Hpe (Hw & Hb & Hc & _) Hi.
  pose proof (digit_at_range (key nl) s Hs) as Hnd. pose proof (digit_at_range (key ne) s Hs) as Hed.
  rewrite En in Hnd. rewrite Ee in Hed.
  assert (∀ d, 0 <= d < 32 → Z.testbit (bitmap (add_child ed e n)) d =
    bool_decide (d = ed ∨ d = nd)) as Hbits.
  { intros d Hd. rewrite add_child_bit, Hb by lia. destruct (Z.eqb_spec d ed) as [->|].
    - cbn [orb]. symmetry. apply bool_decide_eq_true. auto.
    - cbn [orb]. destruct (decide (d = nd)) as [->|].
      + transitivity true; [by apply bool_decide_eq_true|]. symmetry. apply bool_decide_eq_true. auto.
      + symmetry. apply bool_decide_eq_false. tauto. }
  assert (wf_branch (add_child ed e n)) as Hw' by (by apply add_child_wf).
  apply (tree_branch _ (S f) s p i _ _ (fun d => if decide (d = ed) then {[key ne := record ne]}
    else {[key nl := record nl]}) Hi Hw').
  - intros E. specialize (Hbits ed Hed). rewrite E, Z.bits_0 in Hbits. symmetry in Hbits.
    apply bool_decide_eq_false in Hbits. tauto.
  - intros d Hd. pose proof (set_bits_range _ _ (proj1 (proj2 Hw')) Hd) as Hdr.
    apply set_bits_elem in Hd as [_ Hd]; [|apply Hw'].
    rewrite Hbits in Hd by done. apply bool_decide_eq_true in Hd.
    rewrite add_child_child by done. destruct (decide (d = ed)) as [->|].
    + eapply tree_leaf; try done. by rewrite prefix_digit, Ee, Hpe.
    + destruct Hd as [?| ->]; [done|]. rewrite (Hc l) by done.
      eapply tree_leaf; try done. by rewrite prefix_digit, En, Hpl.
  - intros k. rewrite Hbits by (by apply digit_at_range).
    destruct (decide (k = key nl)) as [->|Hkl].
    { rewrite lookup_insert_eq, En. rewrite bool_decide_true by auto.
      rewrite decide_False by done. by rewrite lookup_singleton_eq. }
    rewrite lookup_insert_ne by done. destruct (decide (k = key ne)) as [->|Hke].
    { rewrite lookup_singleton_eq, Ee. rewrite bool_decide_true by auto.
      rewrite decide_True by done. by rewrite lookup_singleton_eq. }
    rewrite lookup_singleton_ne by done.
    destruct (decide (digit_at k s = ed)); rewrite lookup_singleton_ne by done;
      by destruct (bool_decide (digit_at k s = ed ∨ digit_at k s = nd)).
Qed.

(** *** Insertion *)

Definition at_level (f : nat) s p : Prop := 0 <= s ∧ 0 <= p < 2 ^ s ∧ s + 5 * Z.of_nat f = 70.

Lemma at_level_child f s p d :
  at_level (S f) s p → 0 <= d < 32 → at_level f (s + 5) (p + d * 2 ^ s).
Proof. intros (H1 & H2 & H3) Hd. split_and!; [lia|by apply child_prefix..|lia]. Qed.

(** Past the last level two keys with one prefix are one key. *)
Lemma at_level_last s p k1 k2 :
  at_level 1 s p → in_u64 k1 → in_u64 k2 → k1 mod 2 ^ s = p → k2 mod 2 ^ s = p → k1 = k2.
Proof.
  intros (_ & _ & H) H1 H2 E1 E2. assert (s = 65) as -> by lia.
  unfold in_u64 in *. rewrite <- E2 in E1. rewrite !Z.mod_small in E1; lia.
Qed.

Lemma prefix_child k1 k2 s p d :
  0 <= s → k1 mod 2 ^ s = p → k2 mod 2 ^ s = p → digit_at k1 s = d → digit_at k2 s = d →
  k1 mod 2 ^ (s + 5) = p + d * 2 ^ s ∧ k2 mod 2 ^ (s + 5) = p + d * 2 ^ s.
Proof. intros Hs E1 E2 D1 D2. by rewrite !prefix_digit, E1, E2, D1, D2. Qed.

(** The arm of [split] where the keys part. *)
Lemma fork_spec g s p w ext e ne k rec :
  rh_inv w ext → 0 <= s → 0 <= p < 2 ^ s → rh_cells w !! e = Some (NodeCell ne) →
  is_leaf ne = true → in_u64 (key ne) → in_u64 k → digit_at (key ne) s ≠ digit_at k s →
  key ne mod 2 ^ s = p → k mod 2 ^ s = p →
  (nodes, e) ∈ ext ⊎ all_edges (rh_cells w) → (records, rec) ∈ ext ⊎ all_edges (rh_cells w) →
  outcome (rh_cells w) ext one
    (fun cells i => tree cells (S (S g)) s p i (<[k := rec]> {[key ne := record ne]}))
    ((new_leaf ← make_leaf k rec;
      scoped (nodes, new_leaf) (
        branch ← branch_with_child None (digit_at k s) new_leaf;
        owning (nodes, branch) (
          _ ← retain_node e;
          b ← peek_node branch;
          _ ← store_node branch (add_child (digit_at (key ne) s) e b);
          mret branch))) w).
Proof.
  intros I Hs Hp He Hle Hue Huk Ed Hpe Hpk Hre Hrr. pose proof (digit_at_range k s Hs) as Hdk.
  eapply outcome_bind; [by apply make_leaf_spec|].
  intros w1 l I1 Hs1 [Hfresh Hl]. apply outcome_scoped.
  eapply outcome_bind.
  { eapply outcome_mono; [apply (branch_with_child_spec w1 _ None); try done|exact Hs1|].
    { multiset_solver. }
    intros cells i Hsub HQ. split; [done|]. exact (conj Hsub HQ). }
  intros w2 b I2 Hs2 (Hsub2 & Hb1 & n & Hn & Hg). 
  eapply outcome_mono; [apply (outcome_owning (rh_cells w) _ (nodes, b) none
    (fun cells i => i = b ∧ tree cells (S (S g)) s p b (<[k := rec]> {[key ne := record ne]})))|done|].
  2:{ intros cells a _ [-> Hq]. unfold none. by rewrite (left_id_L ∅ (⊎)). }
  eapply outcome_bind.
  { eapply outcome_mono; [|exact Hs2|intros cells a _ H; exact (conj eq_refl H)].
    apply retain_outcome; [exact I2|]. apply (counted_mono (rh_cells w)); [|done].
    multiset_solver. }
  intros w3 u3 I3 Hs3 E3. cbn in I3, E3. unfold peek_node.
  unfold mbind at 1, ST_bind at 1. rewrite E3, Hn.
  eapply outcome_bind.
  { eapply (store_outcome _ w3 _ ∅ _ (nodes, e) b n);
      [exact I3|by rewrite (left_id_L ∅ (⊎))|done| |by rewrite E3|].
    - apply eq_None_not_Some. intros [x Hx]. by rewrite (lookup_weaken _ _ _ _ Hx Hs1) in Hb1.
    - pose proof Hg as (Hw & Hbit & _). apply add_child_edges; [done|by apply digit_at_range|].
      rewrite Hbit by (by apply digit_at_range). by rewrite decide_False. }
  intros w4 u4 I4 Hs4 E4. cbn in I4, E4. apply outcome_ret; [done|done|]. split; [done|].
  assert (rh_cells w1 ⊆ rh_cells w4) as Hs14.
  { rewrite E4, E3. by apply insert_subseteq_r. }
  eapply (fork_tree _ g s p b n _ _ l e (mkNode true k rec 0 (children empty_node)) ne);
    try done; [by eapply lookup_weaken|eapply lookup_weaken; [done|by etrans]|].
  by rewrite E4, lookup_insert_eq.
Qed.

Lemma split_spec : ∀ g s p w ext e ne k rec,
  rh_inv w ext → at_level (S g) s p → rh_cells w !! e = Some (NodeCell ne) → is_leaf ne = true →
  in_u64 (key ne) → in_u64 k → key ne ≠ k → key ne mod 2 ^ s = p → k mod 2 ^ s = p →
  (nodes, e) ∈ ext ⊎ all_edges (rh_cells w) → (records, rec) ∈ ext ⊎ all_edges (rh_cells w) →
  outcome (rh_cells w) ext one
    (fun cells i => tree cells (S g) s p i (<[k := rec]> {[key ne := record ne]}))
    (split g e (key ne) k rec s w).
Proof.
  induction g as [|g IH]; intros s p w ext e ne k rec I Hat He Hle Hue Huk Hne Hpe Hpk Hre Hrr.
  { exfalso. apply Hne. by eapply at_level_last. }
  pose proof Hat as (Hs & Hp & _). cbn [split].
  pose proof (digit_at_range k s Hs) as Hdk.
  destruct (Z.eqb_spec (digit_at (key ne) s) (digit_at k s)) as [Ed|Ed].
  - destruct (prefix_child (key ne) k s p _ Hs Hpe Hpk Ed eq_refl) as [Hpe' Hpk'].
    eapply outcome_bind.
    { eapply (IH (s + 5)); try done. by apply at_level_child. }
    intros w1 inner I1 Hs1 Ht. rewrite Ed. apply outcome_scoped.
    eapply outcome_mono; [apply branch_with_child_spec; try done|done|].
    { multiset_solver. }
    intros cells i Hsub (_ & n & Hn & Hg). split; [done|].
    eapply link_tree; try done. by eapply tree_mono.
  - by eapply fork_spec.
Qed.

Lemma branch_level cells f s (p : Z → Z) n (ms : Z → gmap Z SlotIndex) :
  wf_branch n → bitmap n ≠ 0 →
  (∀ d, d ∈ set_bits (bitmap n) → tree cells f s (p d) (child n d) (ms d)) → ∃ g, f = S g.
Proof.
  intros (_ & Hr & _) Hnz Hc. destruct (nonzero_bit _ Hr Hnz) as [d Hd].
  specialize (Hc d Hd). inversion Hc; eauto.
Qed.

(** Redirecting one child of a branch that binds [m]. *)
Lemma regraft_tree cells f s p i b digit c n (m mc m' : gmap Z SlotIndex) ms :
  0 <= s → 0 <= digit < 32 → wf_branch b →
  (∀ d, d ∈ set_bits (bitmap b) → tree cells f (s + 5) (p + d * 2 ^ s) (child b d) (ms d)) →
  (∀ k, m !! k = if Z.testbit (bitmap b) (digit_at k s) then ms (digit_at k s) !! k else None) →
  cells !! i = Some (NodeCell n) → grafted (Some b) digit (Some c) n →
  tree cells f (s + 5) (p + digit * 2 ^ s) c mc →
  (∀ k, digit_at k s = digit → m' !! k = mc !! k) →
  (∀ k, digit_at k s ≠ digit → m' !! k = m !! k) →
  tree cells (S f) s p i m'.
Proof.
  intros Hs Hd Hw Hc Hm Hi Hg Ht H1 H2.
  apply (grafted_tree cells f s p i n (Some b) digit (Some c) (Some mc) m m' ms); try done.
  - intros d Hdb _. by apply Hc.
  - by eapply grafted_nonzero.
Qed.

Lemma insert_rec_spec : ∀ f s p w ext i m k rec,
  rh_inv w ext → at_level f s p → tree (rh_cells w) f s p i m → in_u64 k → k mod 2 ^ s = p →
  (nodes, i) ∈ ext ⊎ all_edges (rh_cells w) → (records, rec) ∈ ext ⊎ all_edges (rh_cells w) →
  outcome (rh_cells w) ext one (fun cells i' => tree cells f s p i' (<[k := rec]> m))
    (insert_rec f i k rec s w).
Proof.
  induction f as [|f IH]; intros s p w ext i m k rec I Hat Ht Huk Hpk Hri Hrr; [inversion Ht|].
  pose proof Hat as (Hs & Hp & _). cbn [insert_rec].
  unfold mbind at 1, ST_bind at 1, peek_node.
  inversion Ht as [f' s' p' i' n m' Hi Hl Hun Hpn Hm|f' s' p' i' n m' ms Hi Hw Hnz Hc Hm]; subst;
    rewrite Hi.
  - rewrite Hl. destruct (Z.eqb_spec (key n) k) as [<-|Hne].
    + eapply outcome_mono; [by apply make_leaf_spec|done|]. intros cells a _ [_ Ha]. split; [done|].
      rewrite insert_singleton_eq. by eapply tree_leaf.
    + by apply split_spec.
  - rewrite (proj1 Hw). set (digit := digit_at k s).
    pose proof (digit_at_range k s Hs) as Hd. fold digit in Hd. rewrite has_bit_spec by lia.
    destruct (branch_level _ _ _ _ _ _ Hw Hnz Hc) as [g Eg].
    eapply (outcome_bind _ _ one one (fun cells c => tree cells f (s + 5)
      (k mod 2 ^ s + digit * 2 ^ s) c
      (<[k := rec]> (if Z.testbit (bitmap n) digit then ms digit else ∅)))).
    + destruct (Z.testbit (bitmap n) digit) eqn:Hb.
      * assert (digit ∈ set_bits (bitmap n)) as Hin by (apply set_bits_elem; [apply Hw|split; [lia|done]]).
        eapply (IH (s + 5)); try done; [by apply at_level_child|by apply Hc|by apply prefix_digit|].
        eapply node_edge_counted; [exact Hi|by apply child_edge].
      * eapply outcome_mono; [by apply make_leaf_spec|done|]. intros cells a _ [_ Ha].
        split; [done|]. rewrite insert_empty, Eg. eapply tree_leaf; try done. by apply prefix_digit.
    + intros w1 c I1 Hs1 Hc1. apply outcome_scoped.
      eapply outcome_mono; [apply branch_with_child_spec; try done|done|].
      { split; [done|]. exists i. by eapply lookup_weaken. }
      { multiset_solver. }
      intros cells a Hsub (_ & n' & Hn' & Hg). split; [done|].
      eapply (regraft_tree cells f s _ a n digit c n' m
        (<[k := rec]> (if Z.testbit (bitmap n) digit then ms digit else ∅))); try done.
      * intros d Hdb. eapply tree_mono; [|by apply Hc]. by etrans.
      * by eapply tree_mono.
      * intros k' Hk'. destruct (decide (k' = k)) as [->|];
          [by rewrite !lookup_insert_eq|rewrite !lookup_insert_ne by done].
        rewrite Hm, Hk'. destruct (Z.testbit (bitmap n) digit); [done|by rewrite lookup_empty].
      * intros k' Hk'. rewrite lookup_insert_ne; [done|]. by intros ->.
Qed.

(** *** Erasure *)

Definition opt_one (o : option SlotIndex) : gmultiset ref :=
  match o with Some i => one i | None => ∅ end.

Definition erased cells f s p k m (o : option SlotIndex) : Prop :=
  match o with
  | Some j => tree cells f s p j (delete k m)
  | None => delete k m = ∅
  end.

Lemma to_ref_outcome old ext (Q : gmap SlotIndex (cell R) → SlotIndex → Prop) Q' m w :
  outcome old ext one Q (m w) → (∀ cells i, old ⊆ cells → Q cells i → Q' cells (Some i)) →
  outcome old ext opt_one Q' (to_ref m w).
Proof.
  intros Ho HQ. unfold to_ref. eapply outcome_bind; [exact Ho|].
  intros w1 i I1 Hs Hq. apply outcome_ret; [done|done|]. by apply HQ.
Qed.

(** The bindings left when the child at [digit] empties. *)
Lemma emptied_lookup n s k (m : gmap Z SlotIndex) (ms : Z → gmap Z SlotIndex) :
  (∀ k, m !! k = if Z.testbit (bitmap n) (digit_at k s) then ms (digit_at k s) !! k else None) →
  delete k (ms (digit_at k s)) = ∅ →
  (∀ k', digit_at k' s = digit_at k s → delete k m !! k' = None) ∧
  (∀ k', digit_at k' s ≠ digit_at k s → delete k m !! k' = m !! k').
Proof.
  intros Hm He. split; intros k' Hk'.
  - destruct (decide (k' = k)) as [->|Hne]; [by rewrite lookup_delete_eq|].
    rewrite lookup_delete_ne, Hm, Hk' by done. destruct (Z.testbit _ _); [|done].
    rewrite <- (lookup_delete_ne _ k) by done. by rewrite He.
  - rewrite lookup_delete_ne; [done|]. by intros ->.
Qed.

(** A branch whose only other child is a leaf collapses into that leaf. *)
Lemma collapse_tree cells f s p n (m : gmap Z SlotIndex) ms k only no :
  0 <= s → 0 <= p < 2 ^ s → wf_branch n →
  (∀ d, d ∈ set_bits (bitmap n) → tree cells f (s + 5) (p + d * 2 ^ s) (child n d) (ms d)) →
  (∀ k, m !! k = if Z.testbit (bitmap n) (digit_at k s) then ms (digit_at k s) !! k else None) →
  delete k (ms (digit_at k s)) = ∅ →
  set_bits (Z.land (bitmap n) (Z.lnot (Z.shiftl 1 (digit_at k s)))) = [only] →
  cells !! child n only = Some (NodeCell no) → is_leaf no = true →
  tree cells (S f) s p (child n only) (delete k m).
Proof.
  intros Hs Hp Hw Hc Hm He Hset Hno Hl. pose proof (proj1 (proj2 Hw)) as Hr.
  pose proof (digit_at_range k s Hs) as Hdr.
  assert (∀ d, 0 <= d → Z.testbit (bitmap n) d = true ∧ d ≠ digit_at k s ↔ d = only) as Hiff.
  { intros d Hd. transitivity (d ∈ [only]); [|apply list_elem_of_singleton].
    rewrite <- Hset, set_bits_elem, clear_bit_test by (lia || by apply clear_bit_range; lia).
    rewrite andb_true_iff, negb_true_iff, Z.eqb_neq. tauto. }
  assert (0 <= only) as Ho.
  { apply (set_bits_elem _ only (clear_bit_range _ _ Hr (proj1 Hdr))). rewrite Hset. set_solver. }
  destruct (proj2 (Hiff only Ho) eq_refl) as [Hbo Hno_d].
  assert (only ∈ set_bits (bitmap n)) as Hin by (by apply set_bits_elem).
  pose proof (set_bits_range _ _ Hr Hin) as Hor.
  destruct (emptied_lookup n s k m ms Hm He) as [H1 H2].
  pose proof (Hc only Hin) as Ht. inversion Ht as [f' s' p' i' n' m' Hi Hl' Hu Hpn Hmo|
    f' s' p' i' n' m' ms' Hi Hw' _ _ _]; subst; [|destruct Hw' as [Hl' _]; congruence].
  replace n' with no in * by congruence.
  pose proof (child_digit _ _ _ _ _ _ _ (key no) (record no) Ht Hs Hp Hor) as Hdo.
  rewrite Hmo, lookup_singleton_eq in Hdo. specialize (Hdo eq_refl).
  eapply tree_leaf; try done.
  - rewrite prefix_digit, Hdo in Hpn by done. lia.
  - apply map_eq. intros k'. destruct (decide (digit_at k' s = digit_at k s)) as [Ek|Ek].
    + rewrite H1 by done. rewrite lookup_singleton_ne; [done|]. intros <-. congruence.
    + rewrite H2, Hm by done. destruct (Z.testbit (bitmap n) (digit_at k' s)) eqn:Hb.
      * assert (digit_at k' s = only) as Eo by (apply Hiff; [apply digit_at_range; lia|done]).
        by rewrite Eo, Hmo.
      * rewrite lookup_singleton_ne; [done|]. intros <-. congruence.
Qed.

(** Dropping one child of several. *)
Lemma drop_tree cells f s p i n n' (m : gmap Z SlotIndex) ms k :
  0 <= s → wf_branch n →
  (∀ d, d ∈ set_bits (bitmap n) → tree cells f (s + 5) (p + d * 2 ^ s) (child n d) (ms d)) →
  (∀ k, m !! k = if Z.testbit (bitmap n) (digit_at k s) then ms (digit_at k s) !! k else None) →
  delete k (ms (digit_at k s)) = ∅ →
  Z.land (bitmap n) (Z.lnot (Z.shiftl 1 (digit_at k s))) ≠ 0 →
  cells !! i = Some (NodeCell n') → grafted (Some n) (digit_at k s) None n' →
  tree cells (S f) s p i (delete k m).
Proof.
  intros Hs Hw Hc Hm He Hnz Hi Hg. pose proof (digit_at_range k s Hs) as Hd.
  pose proof (proj1 (proj2 Hw)) as Hr.
  destruct (emptied_lookup n s k m ms Hm He) as [H1 H2].
  apply (grafted_tree cells f s p i n' (Some n) (digit_at k s) None None m _ ms); try done.
  - intros d Hdb _. by apply Hc.
  - intros E. destruct (nonzero_bit _ (clear_bit_range _ _ Hr (proj1 Hd)) Hnz) as [d Hdb].
    pose proof (set_bits_range _ _ (clear_bit_range _ _ Hr (proj1 Hd)) Hdb) as Hdr.
    apply set_bits_elem in Hdb as [_ Hb]; [|by apply clear_bit_range; lia].
    rewrite clear_bit_test in Hb by lia. apply andb_true_iff in Hb as [Hb Hne%negb_true_iff%Z.eqb_neq].
    destruct Hg as (_ & Hbit & _). specialize (Hbit d Hdr).
    rewrite E, Z.bits_0, decide_False in Hbit by done. congruence.
Qed.

Lemma opt_one_none ext : opt_one None ⊎ ext = ext.
Proof. apply (left_id_L ∅ (⊎)). Qed.

(** An absent key shares the subtree. *)
Lemma share_erased f s p w ext i (m : gmap Z SlotIndex) k :
  rh_inv w ext → (nodes, i) ∈ ext ⊎ all_edges (rh_cells w) → tree (rh_cells w) f s p i m →
  delete k m = m →
  outcome (rh_cells w) ext opt_one (fun cells o => erased cells f s p k m o)
    (to_ref (share_node i) w).
Proof.
  intros I Hri Ht Em. eapply to_ref_outcome; [by apply share_node_spec|].
  intros cells j Hsub ->. cbn. rewrite Em. by eapply tree_mono.
Qed.

(** The arm of [erase_rec] where the child emptied. *)
Lemma emptied_spec f s p w ext i n (m : gmap Z SlotIndex) ms k :
  rh_inv w ext → at_level (S f) s p → rh_cells w !! i = Some (NodeCell n) → wf_branch n →
  (∀ d, d ∈ set_bits (bitmap n) → tree (rh_cells w) f (s + 5) (p + d * 2 ^ s) (child n d) (ms d)) →
  (∀ k, m !! k = if Z.testbit (bitmap n) (digit_at k s) then ms (digit_at k s) !! k else None) →
  delete k (ms (digit_at k s)) = ∅ →
  outcome (rh_cells w) ext opt_one (fun cells o => erased cells (S f) s p k m o)
    ((let new_bitmap := Z.land (bitmap n) (Z.lnot (Z.shiftl 1 (digit_at k s))) in
      if new_bitmap =? 0 then mret None
      else if (popcount new_bitmap =? 1)%nat then
        let only_slot := child n (countr_zero new_bitmap) in
        only ← peek_node only_slot;
        if is_leaf only then to_ref (share_node only_slot)
        else to_ref (branch_without_child n (digit_at k s))
      else to_ref (branch_without_child n (digit_at k s))) w).
Proof.
  intros I Hat Hi Hw Hc Hm He. pose proof Hat as (Hs & Hp & _).
  pose proof (digit_at_range k s Hs) as Hd. pose proof (proj1 (proj2 Hw)) as Hr. cbv zeta.
  set (nb := Z.land _ _). pose proof (clear_bit_range (bitmap n) _ Hr (proj1 Hd)) as Hnb. fold nb in Hnb.
  destruct (emptied_lookup n s k m ms Hm He) as [H1 H2].
  destruct (Z.eqb_spec nb 0) as [Hz|Hz].
  { apply outcome_ret; [by rewrite opt_one_none|done|]. apply map_eq. intros k'.
    rewrite lookup_empty. destruct (decide (digit_at k' s = digit_at k s)) as [|Hne]; [by apply H1|].
    rewrite H2, Hm by done. assert (Z.testbit nb (digit_at k' s) = false) as Hb
      by (by rewrite Hz, Z.bits_0).
    unfold nb in Hb. pose proof (digit_at_range k' s Hs). rewrite clear_bit_test in Hb by lia.
    rewrite (proj2 (Z.eqb_neq _ _) Hne), andb_true_r in Hb. by rewrite Hb. }
  assert (outcome (rh_cells w) ext opt_one (fun cells o => erased cells (S f) s p k m o)
    (to_ref (branch_without_child n (digit_at k s)) w)) as Hdrop.
  { eapply to_ref_outcome; [apply branch_without_child_spec; [done|]|].
    - split; [done|]. by exists i.
    - intros cells j Hsub (_ & n' & Hn' & Hg). eapply (drop_tree cells f s p j n n' m ms); try done.
      intros d Hdb. eapply tree_mono; [done|by apply Hc]. }
  destruct (Nat.eqb_spec (popcount nb) 1) as [Hpc|_]; [|done].
  pose proof (popcount_one nb Hnb Hpc) as Hset.
  assert (countr_zero nb ∈ set_bits (bitmap n)) as Hin.
  { assert (countr_zero nb ∈ set_bits nb) as Hx by (rewrite Hset; by apply list_elem_of_here).
    apply set_bits_elem in Hx as [H0 Hb]; [|done].
    revert H0 Hb. generalize (countr_zero nb). unfold nb. intros only H0 Hb.
    rewrite clear_bit_test in Hb by lia. apply andb_true_iff in Hb as [Hb _].
    by apply set_bits_elem. }
  unfold mbind, ST_bind, peek_node.
  pose proof (Hc _ Hin) as Ht. inversion Ht as [f' s' p' j no mo Hj Hl Hu Hpn Hmo|
    f' s' p' j no mo mso Hj Hw' _ _ _]; subst; rewrite Hj.
  - rewrite Hl. eapply to_ref_outcome; [apply share_node_spec; [done|]|].
    + eapply node_edge_counted; [exact Hi|by apply child_edge].
    + intros cells x Hsub ->. eapply (collapse_tree cells (S f') s p n m ms k _ no); try done.
      * intros d Hdb. eapply tree_mono; [done|by apply Hc].
      * by eapply lookup_weaken.
  - by rewrite (proj1 Hw').
Qed.

Lemma erase_rec_spec : ∀ f s p w ext i m k,
  rh_inv w ext → at_level f s p → tree (rh_cells w) f s p i m →
  (nodes, i) ∈ ext ⊎ all_edges (rh_cells w) →
  outcome (rh_cells w) ext opt_one (fun cells o => erased cells f s p k m o)
    (erase_rec f i k s w).
Proof.
  induction f as [|f IH]; intros s p w ext i m k I Hat Ht Hri; [inversion Ht|].
  pose proof Hat as (Hs & Hp & _). cbn [erase_rec].
  unfold mbind at 1, ST_bind at 1, peek_node.
  inversion Ht as [f' s' p' i' n m' Hi Hl Hun Hpn Hm|f' s' p' i' n m' ms Hi Hw Hnz Hc Hm]; subst;
    rewrite Hi.
  - rewrite Hl. destruct (Z.eqb_spec (key n) k) as [<-|Hne].
    + apply outcome_ret; [by rewrite opt_one_none|done|]. apply delete_singleton_eq.
    + apply share_erased; [done|done|done|]. by apply delete_singleton_ne.
  - rewrite (proj1 Hw). pose proof (digit_at_range k s Hs) as Hd. rewrite has_bit_spec by lia.
    destruct (Z.testbit (bitmap n) (digit_at k s)) eqn:Hb; cbn [negb].
    2:{ apply share_erased; [done|done|done|]. apply delete_id. by rewrite Hm, Hb. }
    assert (digit_at k s ∈ set_bits (bitmap n)) as Hin
      by (apply set_bits_elem; [apply Hw|split; [lia|done]]).
    eapply outcome_bind.
    { eapply (IH (s + 5)); [done|by apply at_level_child|by apply Hc|].
      eapply node_edge_counted; [exact Hi|by apply child_edge]. }
    intros w1 [c|] I1 Hs1 He; cbn [opt_one] in I1.
    + eapply (to_ref_outcome _ _ (fun cells j => tree cells (S f) s p j (delete k m))); [|done].
      apply outcome_scoped. eapply outcome_mono; [apply branch_with_child_spec; try done|done|].
      { split; [done|]. exists i. by eapply lookup_weaken. }
      { multiset_solver. }
      intros cells a Hsub (_ & n' & Hn' & Hg). split; [done|].
      eapply (regraft_tree cells f s p a n _ c n' m (delete k (ms (digit_at k s)))); try done.
      * intros d Hdb. eapply tree_mono; [|by apply Hc]. by etrans.
      * by eapply tree_mono.
      * intros k' Hk'. destruct (decide (k' = k)) as [->|]; [by rewrite !lookup_delete_eq|].
        by rewrite !lookup_delete_ne, Hm, Hk', Hb by done.
      * intros k' Hk'. rewrite lookup_delete_ne; [done|]. by intros ->.
    + rewrite (left_id_L ∅ (⊎)) in I1.
      eapply outcome_mono; [eapply (emptied_spec f s p w1 ext i n m ms k)|done|by intros]; try done.
      * by eapply lookup_weaken.
      * intros d Hdb. eapply tree_mono; [done|by apply Hc].
Qed.
End outcomes.

(** ** Properties *)

Section properties.
Context {W R : Type} `{!RefHeap W (cell R)}.
Implicit Types (w : W) (ext : gmultiset ref) (m : gmap Z SlotIndex) (k rec : Z)
  (root : option SlotIndex).

(** The references a root handle needs. *)
Definition root_counted w ext root : Prop :=
  ∀ i, root = Some i → (nodes, i) ∈ ext ⊎ all_edges (rh_cells w).

(** Every version bound in [w] is bound alike in [w']. *)
Definition versions_kept w w' : Prop :=
  ∀ root m, version (rh_cells w) root m → version (rh_cells w') root m.

Lemma versions_kept_subseteq w w' : rh_cells w ⊆ rh_cells w' → versions_kept w w'.
Proof. intros Hs [i|] m Hv; [|exact Hv]. by eapply tree_mono. Qed.

Lemma mod_one k : k mod 2 ^ 0 = 0.
Proof. apply Z.mod_1_r. Qed.

Lemma hamt_insert_outcome w ext root m k rec :
  rh_inv w ext → version (rh_cells w) root m → in_u64 k → root_counted w ext root →
  (records, rec) ∈ ext ⊎ all_edges (rh_cells w) →
  outcome (rh_cells w) ext one (fun cells i => version cells (Some i) (<[k := rec]> m))
    (hamt_insert root k rec w).
Proof.
  intros I Hv Hk Hroot Hr. destruct root as [i|]; cbn [hamt_insert version] in *.
  - apply insert_rec_spec; try done; [apply mod_one|by apply Hroot].
  - subst m. eapply outcome_mono; [by apply make_leaf_spec|done|].
    intros cells i _ [_ Hi]. split; [done|]. rewrite insert_empty.
    eapply tree_leaf; try done. apply mod_one.
Qed.

Lemma hamt_erase_outcome w ext root m k :
  rh_inv w ext → version (rh_cells w) root m → root_counted w ext root →
  outcome (rh_cells w) ext opt_one (fun cells o => version cells o (delete k m))
    (hamt_erase root k w).
Proof.
  intros I Hv Hroot. destruct root as [i|]; cbn [hamt_erase version] in *.
  - eapply outcome_mono; [apply erase_rec_spec; try done; by apply Hroot|done|].
    intros cells [j|] _ He; done.
  - subst m. apply outcome_ret; [by rewrite opt_one_none|done|]. apply delete_empty.
Qed.



(** [collect_leaves] reads back the bindings: the loop over a branch's digits. *)
Definition lists_bindings (l : list (Z * SlotIndex)) (bound : Z → option SlotIndex) : Prop :=
  NoDup l.*1 ∧ ∀ k r, (k, r) ∈ l ↔ bound k = Some r.

Lemma collect_digits_spec w f s p n ms : ∀ ds,
  0 <= s → 0 <= p < 2 ^ s → wf_branch n →
  (∀ d, d ∈ set_bits (bitmap n) →
     tree (rh_cells w) f (s + 5) (p + d * 2 ^ s) (child n d) (ms d) ∧
     ∃ l, collect_leaves f w (child n d) = Ok l ∧ lists_bindings l (fun k => ms d !! k)) →
  NoDup ds → (∀ d, d ∈ ds → d ∈ set_bits (bitmap n)) →
  ∃ l, foldr (fun digit rest => here ← collect_leaves f w (child n digit);
         there ← rest; Ok (here ++ there)) (Ok []) ds = Ok l ∧
    lists_bindings l (fun k => if decide (digit_at k s ∈ ds) then ms (digit_at k s) !! k else None).
Proof.
  induction ds as [|d ds IHd]; intros Hs Hpr Hw Hc Hnd Hin.
  - exists []. split; [done|]. split; [apply NoDup_nil_2|]. intros k r.
    rewrite decide_False by apply not_elem_of_nil. by rewrite elem_of_nil.
  - apply list.NoDup_cons in Hnd as [Hnin Hnd].
    destruct IHd as (l2 & E2 & N2 & H2); [done..|set_solver|].
    assert (d ∈ set_bits (bitmap n)) as Hd by set_solver.
    pose proof (set_bits_range _ _ (proj1 (proj2 Hw)) Hd) as Hdr.
    destruct (Hc d Hd) as (Ht & l1 & E1 & N1 & H1).
    assert (∀ k r, (k, r) ∈ l1 → digit_at k s = d) as Hdig.
    { intros k r Hkr%H1. by eapply child_digit. }
    exists (l1 ++ l2). cbn [foldr]. rewrite E1, E2. split; [done|]. split.
    + rewrite fmap_app. apply list.NoDup_app. split_and!; [done| |done].
      intros k Hk1 Hk2. apply list_elem_of_fmap in Hk1 as ([k1 r1] & -> & Hk1).
      apply list_elem_of_fmap in Hk2 as ([k2 r2] & E & Hk2). cbn in E. subst k2.
      apply Hdig in Hk1. apply H2 in Hk2. rewrite decide_False in Hk2; congruence.
    + intros k r. rewrite elem_of_app, H2. destruct (decide (digit_at k s = d)) as [Ed|Ed].
      * rewrite H1, Ed. rewrite decide_False, decide_True by set_solver. naive_solver.
      * assert ((k, r) ∉ l1) by (intros ?; by eapply Ed, Hdig).
        assert (digit_at k s ∈ d :: ds ↔ digit_at k s ∈ ds) as Hiff by set_solver.
        rewrite (decide_ext _ _ _ _ Hiff). tauto.
Qed.

Lemma collect_leaves_spec w f s p i m :
  tree (rh_cells w) f s p i m → 0 <= s → 0 <= p < 2 ^ s →
  ∃ l, collect_leaves f w i = Ok l ∧ lists_bindings l (fun k => m !! k).
Proof.
  intros Ht. induction Ht as [f s p i n m Hi Hl Hk Hp ->|f s p i n m ms Hi Hw Hb Hc IH Hm];
    intros Hs Hpr; cbn [collect_leaves]; rewrite Hi.
  - rewrite Hl. eexists. split; [done|]. split; [apply NoDup_singleton|].
    intros k r. rewrite list_elem_of_singleton, lookup_singleton_Some. naive_solver.
  - rewrite (proj1 Hw). pose proof (proj1 (proj2 Hw)) as Hr.
    destruct (collect_digits_spec w f s p n ms (set_bits (bitmap n))) as (l & El & Nl & Hl);
      try done; [|by apply set_bits_nodup|].
    { intros d Hd. split; [by apply Hc|]. apply IH; [done|lia|].
      apply child_prefix; try done. by eapply set_bits_range. }
    exists l. split; [done|]. split; [done|]. intros k r. rewrite Hl, Hm.
    assert (digit_at k s ∈ set_bits (bitmap n) ↔ Z.testbit (bitmap n) (digit_at k s) = true) as Hiff.
    { rewrite set_bits_elem by done. pose proof (digit_at_range k s Hs). naive_solver lia. }
    destruct (decide (digit_at k s ∈ set_bits (bitmap n))) as [Hin|Hin].
    + by rewrite (proj1 Hiff Hin).
    + destruct (Z.testbit (bitmap n) (digit_at k s)); [|done]. by destruct Hin; apply Hiff.
Qed.

Lemma hamt_lookup_version w root m k :
  version (rh_cells w) root m → hamt_lookup w root k = Ok (m !! k).
Proof.
  intros Hv. destruct root as [i|]; cbn [version hamt_lookup] in *; [by eapply lookup_loop_spec|].
  by rewrite Hv, lookup_empty.
Qed.

(** reading a version never faults and moves no count: looking a key up gives its
    binding, and collecting the leaves lists every binding exactly once. *)
Theorem hamt_read_correct w root m (Hv : version (rh_cells w) root m) :
  (∀ k, hamt_lookup w root k = Ok (m !! k)) ∧
  (∀ i, root = Some i → ∃ l, collect_leaves levels w i = Ok l ∧ l ≡ₚ map_to_list m).
Proof.
  split; [intros k; by apply hamt_lookup_version|].
  intros i ->. cbn [version] in Hv.
  destruct (collect_leaves_spec w _ _ _ _ _ Hv) as (l & E & Hn & Hl); [lia|lia|].
  exists l. split; [done|]. apply NoDup_Permutation.
  - by eapply NoDup_fmap_1.
  - apply NoDup_map_to_list.
  - intros [k r]. by rewrite elem_of_map_to_list, Hl.
Qed.

(** *** Pinned versions *)

Lemma tree_reached (cells cells' : gmap SlotIndex (cell R)) ext f s p i m :
  tree cells f s p i m → reach cells ext (nodes, i) →
  (∀ r, reach cells ext r → cells' !! r.2 = cells !! r.2) → tree cells' f s p i m.
Proof.
  intros Ht Hr Hk. induction Ht as [f s p i n m Hi Hl Hu Hp Hm|f s p i n m ms Hi Hw Hb Hc IH Hm].
  - eapply tree_leaf; try done. pose proof (Hk _ Hr) as Ek. cbn in Ek. by rewrite Ek.
  - eapply tree_branch; try done.
    + pose proof (Hk _ Hr) as Ek. cbn in Ek. by rewrite Ek.
    + intros d Hd. apply IH; [done|]. eapply (reach_edge _ _ (nodes, i)); [done..|].
      by apply child_edge.
Qed.

(** A world in use: the heap, the record references its clients hold, and the versions
    they have pinned, each with the map it was built to bind. *)
Record world := mkWorld {
  wd_heap : W;
  wd_records : gmultiset ref;
  wd_pins : list (option SlotIndex * gmap Z SlotIndex) }.

Definition pinned (pins : list (option SlotIndex * gmap Z SlotIndex)) : gmultiset ref :=
  foldr (fun pin acc => opt_one pin.1 ⊎ acc) ∅ pins.

Definition drop_root root (w : W) : W :=
  match root with Some i => rh_release (nodes, i) w | None => w end.

Inductive world_step : world → world → Prop :=
| step_record (r : R) w w' i recs pins :
    rh_create (RecordCell r) w = (w', Ok i) →
    world_step (mkWorld w recs pins) (mkWorld w' ({[+ (records, i) +]} ⊎ recs) pins)
| step_drop_record r w recs pins :
    world_step (mkWorld w ({[+ r +]} ⊎ recs) pins) (mkWorld (rh_release r w) recs pins)
| step_insert root m k rec w w' i recs pins :
    (root, m) ∈ pins → in_u64 k → (records, rec) ∈ recs →
    hamt_insert root k rec w = (w', Ok i) →
    world_step (mkWorld w recs pins) (mkWorld w' recs ((Some i, <[k := rec]> m) :: pins))
| step_insert_failed root m k rec w w' e recs pins :
    (root, m) ∈ pins → in_u64 k → (records, rec) ∈ recs →
    hamt_insert root k rec w = (w', Err e) →
    world_step (mkWorld w recs pins) (mkWorld w' recs pins)
| step_erase root m k w w' o recs pins :
    (root, m) ∈ pins → hamt_erase root k w = (w', Ok o) →
    world_step (mkWorld w recs pins) (mkWorld w' recs ((o, delete k m) :: pins))
| step_erase_failed root m k w w' e recs pins :
    (root, m) ∈ pins → hamt_erase root k w = (w', Err e) →
    world_step (mkWorld w recs pins) (mkWorld w' recs pins)
| step_unpin root m w recs pins pins' :
    pins ≡ₚ (root, m) :: pins' →
    world_step (mkWorld w recs pins) (mkWorld (drop_root root w) recs pins')
| step_collect w w' recs pins :
    rh_drain w = (w', Ok tt) → world_step (mkWorld w recs pins) (mkWorld w' recs pins).

Record world_inv (x : world) : Prop := {
  wi_heap : rh_inv (wd_heap x) (wd_records x ⊎ pinned (wd_pins x));
  wi_pins root m : (root, m) ∈ wd_pins x → version (rh_cells (wd_heap x)) root m }.

Lemma pinned_perm pins pins' : pins ≡ₚ pins' → pinned pins = pinned pins'.
Proof.
  intros Hp. unfold pinned. induction Hp; cbn; [done|by f_equal| |by etrans].
  apply disj_union_swap.
Qed.

Lemma pinned_elem pins root m i : (root, m) ∈ pins → root = Some i → (nodes, i) ∈ pinned pins.
Proof.
  intros Hin ->. induction pins as [|pin pins IH]; [by apply not_elem_of_nil in Hin|].
  cbn. rewrite gmultiset_elem_of_disj_union. apply elem_of_cons in Hin as [<-|Hin]; [left|right; auto].
  cbn. unfold one. by apply gmultiset_elem_of_singleton.
Qed.

Lemma pin_counted x root m :
  world_inv x → (root, m) ∈ wd_pins x →
  root_counted (wd_heap x) (wd_records x ⊎ pinned (wd_pins x)) root.
Proof.
  intros I Hin i E. pose proof (pinned_elem _ _ _ _ Hin E).
  rewrite !gmultiset_elem_of_disj_union. auto.
Qed.

Lemma rec_counted w (recs X : gmultiset ref) (r : ref) :
  r ∈ recs → r ∈ (recs ⊎ X) ⊎ all_edges (rh_cells w).
Proof. intros. rewrite !gmultiset_elem_of_disj_union. auto. Qed.

(** A step that leaves every version bound keeps the pins. *)
Lemma pins_kept w w' recs recs' pins :
  world_inv (mkWorld w recs pins) → versions_kept w w' →
  rh_inv w' (recs' ⊎ pinned pins) → world_inv (mkWorld w' recs' pins).
Proof. intros I Hk I'. split; [done|]. intros root m Hin. by apply Hk, I. Qed.

Lemma pins_extended w w' recs pins o m :
  world_inv (mkWorld w recs pins) → versions_kept w w' →
  rh_inv w' (opt_one o ⊎ (recs ⊎ pinned pins)) → version (rh_cells w') o m →
  world_inv (mkWorld w' recs ((o, m) :: pins)).
Proof.
  intros I Hk I' Hv. split; cbn.
  - by rewrite disj_union_swap in I'.
  - intros root m' Hin. apply elem_of_cons in Hin as [[= -> ->]|Hin]; [done|]. by apply Hk, I.
Qed.

Lemma pins_unpinned w recs pins pins' root m :
  world_inv (mkWorld w recs pins) → pins ≡ₚ (root, m) :: pins' →
  world_inv (mkWorld (drop_root root w) recs pins').
Proof.
  intros I Hp. pose proof (wi_heap _ I) as Ih. cbn [wd_heap wd_records wd_pins] in Ih.
  rewrite (pinned_perm _ _ Hp) in Ih. cbn in Ih. rewrite disj_union_swap in Ih.
  assert (rh_cells (drop_root root w) = rh_cells w ∧
    rh_inv (drop_root root w) (recs ⊎ pinned pins')) as [Ec I'].
  { destruct root as [i|]; cbn [drop_root opt_one] in *; [by apply rh_release_spec|].
    by rewrite (left_id_L ∅ (⊎)) in Ih. }
  split; [done|]. cbn. intros root' m' Hin. rewrite Ec. apply I. cbn. rewrite Hp. by right.
Qed.

Lemma world_step_inv x y : world_step x y → world_inv x → world_inv y.
Proof.
  destruct 1 as [r w w' i recs pins E|r w recs pins|root m k rec w w' i recs pins Hin Hk Hr E
    |root m k rec w w' e recs pins Hin Hk Hr E|root m k w w' o recs pins Hin E
    |root m k w w' e recs pins Hin E|root m w recs pins pins' Hp|w w' recs pins E]; intros I;
    pose proof (wi_heap _ I) as Ih; cbn [wd_heap wd_records wd_pins] in Ih.
  - destruct (rh_create_ok _ _ (RecordCell r) _ _ Ih eq_refl E) as (Hi & Ec & I').
    eapply pins_kept; [exact I| |by rewrite <- (assoc_L (⊎))].
    apply versions_kept_subseteq. rewrite Ec. by apply insert_subseteq.
  - rewrite <- (assoc_L (⊎)) in Ih. destruct (rh_release_spec _ _ _ Ih) as [Ec I'].
    eapply pins_kept; [exact I| |done]. apply versions_kept_subseteq. by rewrite Ec.
  - pose proof (hamt_insert_outcome w _ root m k rec Ih (wi_pins _ I _ _ Hin) Hk
      (pin_counted _ _ _ I Hin) (rec_counted _ _ _ _ Hr)) as Ho.
    rewrite E in Ho. destruct Ho as (I' & Hs & Hv).
    eapply pins_extended; [exact I|by apply versions_kept_subseteq|done|done].
  - pose proof (hamt_insert_outcome w _ root m k rec Ih (wi_pins _ I _ _ Hin) Hk
      (pin_counted _ _ _ I Hin) (rec_counted _ _ _ _ Hr)) as Ho.
    rewrite E in Ho. destruct Ho as (I' & Hs & _).
    eapply pins_kept; [exact I|by apply versions_kept_subseteq|done].
  - pose proof (hamt_erase_outcome w _ root m k Ih (wi_pins _ I _ _ Hin)
      (pin_counted _ _ _ I Hin)) as Ho.
    rewrite E in Ho. destruct Ho as (I' & Hs & Hv).
    eapply pins_extended; [exact I|by apply versions_kept_subseteq|done|done].
  - pose proof (hamt_erase_outcome w _ root m k Ih (wi_pins _ I _ _ Hin)
      (pin_counted _ _ _ I Hin)) as Ho.
    rewrite E in Ho. destruct Ho as (I' & Hs & _).
    eapply pins_kept; [exact I|by apply versions_kept_subseteq|done].
  - eapply pins_unpinned; [exact I|exact Hp].
  - destruct (rh_drain_spec _ _ Ih) as (w2 & E2 & I' & Hkeep). replace w2 with w' in * by congruence.
    split; [done|]. cbn. intros [i|] m Hin; pose proof (wi_pins _ I _ _ Hin) as Hv; [|done].
    eapply tree_reached; [exact Hv| |exact Hkeep]. apply reach_held.
    rewrite gmultiset_elem_of_disj_union. right. by eapply pinned_elem.
Qed.

Lemma world_reach_inv w0 x :
  rh_inv w0 ∅ → rtc world_step (mkWorld w0 ∅ [(None, ∅)]) x → world_inv x.
Proof.
  intros I Hs. apply (rtc_ind_r world_inv (mkWorld w0 ∅ [(None, ∅)])) in Hs; [done| |].
  - split; cbn; [|intros root m [= -> ->]%list_elem_of_singleton; done].
    by rewrite !(left_id_L ∅ (⊎)).
  - intros x1 x2 _ Hs1 I1. by eapply world_step_inv.
Qed.

(** C10: whatever sequence of insertions, erasures, failures of either, unpinned
    versions and drains runs, in any order and from any pinned version, every version
    still pinned reads back exactly the map it was built to bind; and a further
    insertion into it can only succeed or fail with an error value. *)
Theorem pinned_versions_immutable w0 x root m k rec
  (I : rh_inv w0 ∅) (Hs : rtc world_step (mkWorld w0 ∅ [(None, ∅)]) x)
  (Hp : (root, m) ∈ wd_pins x) :
  (∀ k', hamt_lookup (wd_heap x) root k' = Ok (m !! k')) ∧
  (in_u64 k → (records, rec) ∈ wd_records x →
   ∀ w' e, hamt_insert root k rec (wd_heap x) = (w', Err e) → ∃ e', e = Refused e').
Proof.
  pose proof (world_reach_inv _ _ I Hs) as Ix. pose proof (wi_pins _ Ix _ _ Hp) as Hv. split.
  - intros k'. by apply hamt_lookup_version.
  - intros Hk Hr w' e E. pose proof (hamt_insert_outcome _ _ root m k rec (wi_heap _ Ix) Hv Hk
      (pin_counted _ _ _ Ix Hp) (rec_counted _ _ _ _ Hr)) as Ho.
    rewrite E in Ho. apply Ho.
Qed.
End properties.

(** ** Witnesses *)

#[local] Instance demo_ref_heap : RefHeap (Heap Z (cell Z)) (cell Z) :=
  heap_ref_heap demo_acquire 0%nat [nodes; records].

Definition demo_world0 : Heap Z (cell Z) := empty_heap 16 16 2 4096.
Definition demo_world1 : Heap Z (cell Z) := (rh_create (RecordCell 7) demo_world0).1.
Definition demo_world2 : Heap Z (cell Z) := (hamt_insert None 5 0 demo_world1).1.
Definition demo_world3 : Heap Z (cell Z) := (hamt_insert (Some 1) 37 0 demo_world2).1.
Definition demo_record : gmultiset ref := {[+ (records, 0) +]} ⊎ ∅.
Definition demo_map2 : gmap Z SlotIndex := <[5 := 0]> ∅.

Lemma demo_world_inv : rh_inv demo_world0 ∅.
Proof. apply (new_heap_inv 16 16 2 4096). lia. Qed.

Lemma demo_record_held : (records, 0) ∈ demo_record.
Proof.
  unfold demo_record. rewrite gmultiset_elem_of_disj_union, gmultiset_elem_of_singleton. auto.
Qed.

Lemma demo_reach :
  rtc world_step (mkWorld demo_world0 ∅ [(None, ∅)])
    (mkWorld demo_world2 demo_record [(Some 1, demo_map2); (None, ∅)]).
Proof.
  eapply rtc_l; [apply (step_record 7 demo_world0 demo_world1 0); vm_compute; reflexivity|].
  eapply rtc_l; [|apply rtc_refl].
  apply (step_insert None ∅ 5 0 demo_world1 demo_world2 1);
    [apply list_elem_of_here|unfold in_u64; lia|apply demo_record_held|vm_compute; reflexivity].
Qed.

Lemma demo_pins_inv : world_inv (mkWorld demo_world2 demo_record [(Some 1, demo_map2); (None, ∅)]).
Proof. apply (world_reach_inv demo_world0); [apply demo_world_inv|apply demo_reach]. Qed.



Lemma pinned_versions_immutable_witness : hamt_lookup demo_world2 (Some 1) 6 = Ok None.
Proof.
  apply (pinned_versions_immutable demo_world0 _ (Some 1) demo_map2 0 0 demo_world_inv demo_reach).
  apply list_elem_of_here.
Defined.

(** Erasing one of two keys that part below the first level leaves a branch with a
    single leaf child: the collapse reaches one level only. *)
Example erase_keeps_chain :
  match hamt_erase (Some 4) 37 (hamt_insert (Some 1) 37 0 demo_world2).1 with
  | (w, Ok (Some i)) =>
      match rh_cells w !! i with
      | Some (NodeCell n) => is_leaf n = false ∧ popcount (bitmap n) = 1%nat
      | _ => False
      end
  | _ => False
  end.
Proof. vm_compute. auto. Qed.
