(* ===== verification/Records.v ===== *)
(** The object records a document version binds: [src/src/model/arbc/model/records.hpp],
    with the media descriptors they embed ([media/arbc/media/surface_format.hpp],
    [audio_format.hpp], [blend_mode.hpp]) and [base/arbc/base/transform.hpp]'s field
    layout.

    A record is its id, its revision stamp and one arm of the source's tagged union;
    fixed arrays are lists of their declared length, a [StateHandle] is its slot. *)

From S2P Require Import Prelude RationalTime Identity Geometry SlotStore.
From Stdlib Require Import SpecFloat.

Local Open Scope Z_scope.

(** ** Media descriptors *)

Inductive PixelFormat := Rgba32fLinearPremul | Rgba16fLinearPremul | Rgba8Srgb.
Inductive Primaries := PrimariesSrgb.
Inductive TransferFunction := TransferLinear | TransferSrgb.
Record ColorSpace := mkColorSpace { primaries : Primaries; transfer : TransferFunction }.
Definition k_linear_srgb : ColorSpace := mkColorSpace PrimariesSrgb TransferLinear.

Inductive Premultiplied := PremulNo | PremulYes.
Record SurfaceFormat := mkSurfaceFormat {
  pixel_format : PixelFormat; color_space : ColorSpace; premultiplied : Premultiplied }.
Definition k_working_rgba32f : SurfaceFormat :=
  mkSurfaceFormat Rgba32fLinearPremul k_linear_srgb PremulYes.

Inductive ChannelLayout := Mono | Stereo.
Record AudioFormat := mkAudioFormat { sample_rate : Z; layout : ChannelLayout }.
Definition k_working_audio : AudioFormat := mkAudioFormat 48000 Stereo.

(** [BlendMode], and its one-byte code. *)
Inductive BlendMode :=
| Normal | Multiply | Screen | Overlay | Darken | Lighten | ColorDodge | ColorBurn
| HardLight | SoftLight | Difference | Exclusion.

Definition blend_code (m : BlendMode) : Z :=
  match m with
  | Normal => 0 | Multiply => 1 | Screen => 2 | Overlay => 3 | Darken => 4 | Lighten => 5
  | ColorDodge => 6 | ColorBurn => 7 | HardLight => 8 | SoftLight => 9 | Difference => 10
  | Exclusion => 11
  end.

(** ** Placement *)

Record Affine := mkAffine {
  af_a : double; af_b : double; af_c : double; af_d : double; af_tx : double; af_ty : double }.

Definition d_one : double := S754_finite false 4503599627370496 (-52).
Definition Affine_identity : Affine := mkAffine d_one d_zero d_zero d_one d_zero d_zero.

Definition k_layer_visible : Z := 1.
Definition k_layer_audible : Z := Z.shiftl 1 1.
Definition k_layer_blend_shift : Z := 8.
Definition k_layer_blend_mask : Z := Z.shiftl 255 k_layer_blend_shift.

Record LayerRecord := mkLayer {
  ly_content : ObjectId;
  ly_transform : Affine;
  ly_opacity : double;
  ly_gain : double;
  ly_flags : Z;                       (* uint32 *)
  ly_span : TimeRange;
  ly_time_map : TimeMap }.

(** The aggregate [LayerRecord{content, transform, opacity}]: still defaults. *)
Definition new_layer (content : ObjectId) (transform : Affine) (opacity : double) : LayerRecord :=
  mkLayer content transform opacity d_one (Z.lor k_layer_visible k_layer_audible)
    TimeRange_all TimeMap_identity.

Definition visible (l : LayerRecord) : bool := negb (Z.land (ly_flags l) k_layer_visible =? 0).
Definition audible (l : LayerRecord) : bool := negb (Z.land (ly_flags l) k_layer_audible =? 0).
(** [blend]: the byte behind the enumeration. *)
Definition blend (l : LayerRecord) : Z :=
  Z.shiftr (Z.land (ly_flags l) k_layer_blend_mask) k_layer_blend_shift.

(** ** Content *)

Definition k_state_none : SlotIndex := 4294967295.
Definition has_state (state : SlotIndex) : bool := negb (state =? k_state_none).

Definition k_max_inline_inputs : nat := 4.

Record ContentRecord := mkContent {
  ct_kind : Z;
  ct_state : SlotIndex;
  ct_identity_root : ObjectId;
  ct_inputs_root : ObjectId;
  ct_input_count : Z;
  ct_inputs : list ObjectId }.

Definition new_content (kind : Z) : ContentRecord :=
  mkContent kind k_state_none 0 0 0 (replicate k_max_inline_inputs 0).

(** ** Chunks and compositions *)

Definition k_text_chunk_bytes : nat := 96.

Record TextChunk := mkText {
  tx_count : Z; tx_total : Z; tx_next : ObjectId; tx_bytes : list Z }.

Definition k_max_inline_layers : nat := 8.

Record LayerOrderChunk := mkOrder {
  oc_count : Z; oc_members : list ObjectId; oc_next : ObjectId }.

Record CompositionRecord := mkComposition {
  cp_canvas_w : double;
  cp_canvas_h : double;
  cp_working_space : SurfaceFormat;
  cp_working_audio_format : AudioFormat;
  cp_layer_count : Z;
  cp_layers : list ObjectId;
  cp_spill_root : ObjectId }.

Definition new_composition (canvas_w canvas_h : double) : CompositionRecord :=
  mkComposition canvas_w canvas_h k_working_rgba32f k_working_audio 0
    (replicate k_max_inline_layers 0) 0.

(** ** The tagged record *)

Inductive RecordKind :=
| KComposition | KLayer | KContent | KLayerOrderChunk | KTextChunk.

Inductive payload :=
| AsComposition (c : CompositionRecord)
| AsLayer (l : LayerRecord)
| AsContent (c : ContentRecord)
| AsOrder (c : LayerOrderChunk)
| AsText (c : TextChunk).

Definition kind_of (a : payload) : RecordKind :=
  match a with
  | AsComposition _ => KComposition | AsLayer _ => KLayer | AsContent _ => KContent
  | AsOrder _ => KLayerOrderChunk | AsText _ => KTextChunk
  end.

Record ObjectRecord := mkRecord { rc_id : ObjectId; rc_revision : Z; rc_as : payload }.

(** [ObjectRecord()]: the slot as [create] leaves it, before it is filled in. *)
Definition blank_layer : LayerRecord :=
  mkLayer 0 (mkAffine d_zero d_zero d_zero d_zero d_zero d_zero) d_zero d_zero 0
    (mkTimeRange Time_zero Time_zero) (mkTimeMap Time_zero rational_zero Time_zero).
Definition blank_record : ObjectRecord := mkRecord 0 0 (AsLayer blank_layer).

#[export] Instance RecordKind_eq_dec : EqDecision RecordKind.
Proof. solve_decision. Defined.

(** The arms, when they are the active one. *)
Definition as_layer (r : ObjectRecord) : option LayerRecord :=
  match rc_as r with AsLayer l => Some l | _ => None end.
Definition as_composition (r : ObjectRecord) : option CompositionRecord :=
  match rc_as r with AsComposition c => Some c | _ => None end.
Definition as_content (r : ObjectRecord) : option ContentRecord :=
  match rc_as r with AsContent c => Some c | _ => None end.

(** ** Field updates of [LayerRecord] *)

Definition layer_transform (t : Affine) (l : LayerRecord) : LayerRecord :=
  mkLayer (ly_content l) t (ly_opacity l) (ly_gain l) (ly_flags l) (ly_span l) (ly_time_map l).
Definition layer_opacity (o : double) (l : LayerRecord) : LayerRecord :=
  mkLayer (ly_content l) (ly_transform l) o (ly_gain l) (ly_flags l) (ly_span l) (ly_time_map l).
Definition layer_gain (g : double) (l : LayerRecord) : LayerRecord :=
  mkLayer (ly_content l) (ly_transform l) (ly_opacity l) g (ly_flags l) (ly_span l) (ly_time_map l).
Definition layer_flags (f : Z) (l : LayerRecord) : LayerRecord :=
  mkLayer (ly_content l) (ly_transform l) (ly_opacity l) (ly_gain l) f (ly_span l) (ly_time_map l).
Definition layer_span (s : TimeRange) (l : LayerRecord) : LayerRecord :=
  mkLayer (ly_content l) (ly_transform l) (ly_opacity l) (ly_gain l) (ly_flags l) s (ly_time_map l).
Definition layer_time_map (m : TimeMap) (l : LayerRecord) : LayerRecord :=
  mkLayer (ly_content l) (ly_transform l) (ly_opacity l) (ly_gain l) (ly_flags l) (ly_span l) m.

(** The flag word's three writers ([set_visible], [set_audible], [set_blend]). *)
Definition set_flag (bit : Z) (on : bool) (flags : Z) : Z :=
  if on then Z.lor flags bit else Z.land flags (2 ^ 32 - 1 - bit).

Definition set_blend_bits (m : BlendMode) (flags : Z) : Z :=
  Z.lor (Z.land flags (2 ^ 32 - 1 - k_layer_blend_mask))
    (Z.land (u32 (Z.shiftl (blend_code m) k_layer_blend_shift)) k_layer_blend_mask).

(** ** The flag word *)

Lemma mask_complement m n : in_u32 m → 0 <= n →
  Z.testbit (2 ^ 32 - 1 - m) n = (n <? 32) && negb (Z.testbit m n).
Proof.
  intros Hm Hn.
  assert (Z.ldiff m (Z.ones 32) = 0) as Hz.
  { rewrite Z.ldiff_ones_r by lia. rewrite Z.shiftr_div_pow2 by lia.
    unfold in_u32 in Hm. rewrite Z.div_small by lia. done. }
  change (2 ^ 32 - 1) with (Z.ones 32). rewrite Z.sub_nocarry_ldiff by done.
  rewrite Z.ldiff_spec. f_equal. destruct (Z.ltb_spec n 32).
  - apply Z.ones_spec_low. lia.
  - apply Z.ones_spec_high. lia.
Qed.

Lemma visible_bit l : visible l = Z.testbit (ly_flags l) 0.
Proof. by apply (land_bit_test _ 0). Qed.

Lemma audible_bit l : audible l = Z.testbit (ly_flags l) 1.
Proof. by apply (land_bit_test _ 1). Qed.

Lemma blend_mask_bits n : 0 <= n → Z.testbit k_layer_blend_mask n = (8 <=? n) && (n <? 16).
Proof.
  intros Hn. unfold k_layer_blend_mask, k_layer_blend_shift. rewrite Z.shiftl_spec by done.
  destruct (Z.leb_spec 8 n) as [H8|H8]; [|apply Z.testbit_neg_r; lia]. cbn [andb].
  change 255 with (Z.ones 8). destruct (Z.ltb_spec n 16).
  - apply Z.ones_spec_low. lia.
  - apply Z.ones_spec_high. lia.
Qed.

(** The blend byte read bit by bit. *)
Lemma blend_ext l c :
  (∀ n, 0 <= n → Z.testbit c n = (n <? 8) && Z.testbit (ly_flags l) (n + 8)) → blend l = c.
Proof.
  intros Hc. apply Z.bits_inj'. intros n Hn. unfold blend, k_layer_blend_shift.
  rewrite Z.shiftr_spec, Z.land_spec, blend_mask_bits, Hc by lia.
  replace (8 <=? n + 8) with true by (symmetry; apply Z.leb_le; lia).
  replace (n + 8 <? 16) with (n <? 8) by (apply eq_true_iff_eq; rewrite !Z.ltb_lt; lia).
  cbn [andb]. apply andb_comm.
Qed.

Lemma blend_bits l n :
  0 <= n → Z.testbit (blend l) n = (n <? 8) && Z.testbit (ly_flags l) (n + 8).
Proof.
  intros Hn. unfold blend, k_layer_blend_shift.
  rewrite Z.shiftr_spec, Z.land_spec, blend_mask_bits by lia.
  replace (8 <=? n + 8) with true by (symmetry; apply Z.leb_le; lia).
  replace (n + 8 <? 16) with (n <? 8) by (apply eq_true_iff_eq; rewrite !Z.ltb_lt; lia).
  cbn [andb]. apply andb_comm.
Qed.

(** A flag writer's effect, bit by bit. *)
Lemma set_flag_bits k b f n : in_u32 f → 0 <= k < 32 → 0 <= n →
  Z.testbit (set_flag (2 ^ k) b f) n = if n =? k then b else Z.testbit f n.
Proof.
  intros Hf Hk Hn. unfold set_flag.
  assert (in_u32 (2 ^ k)) as Hp.
  { unfold in_u32. split; [lia|]. apply Z.pow_lt_mono_r; lia. }
  destruct b; rewrite ?Z.lor_spec, ?Z.land_spec, ?mask_complement, Z.pow2_bits_eqb by (done || lia);
    destruct (Z.eqb_spec n k) as [->|Hne]; rewrite ?Z.eqb_refl.
  - apply orb_true_r.
  - rewrite (proj2 (Z.eqb_neq k n)) by done. apply orb_false_r.
  - by rewrite !andb_false_r.
  - rewrite (proj2 (Z.eqb_neq k n)), andb_true_r by done.
    destruct (Z.ltb_spec n 32); [apply andb_true_r|]. by rewrite (testbit_above f 32).
Qed.

Lemma blend_code_range m : 0 <= blend_code m < 2 ^ 8.
Proof. destruct m; cbn; lia. Qed.

Lemma set_blend_bits_spec m f n : in_u32 f → 0 <= n →
  Z.testbit (set_blend_bits m f) n =
    if (8 <=? n) && (n <? 16) then Z.testbit (blend_code m) (n - 8) else Z.testbit f n.
Proof.
  intros Hf Hn. unfold set_blend_bits.
  pose proof (blend_code_range m) as Hm.
  rewrite (u32_small (Z.shiftl _ _)).
  2:{ unfold in_u32, k_layer_blend_shift. rewrite Z.shiftl_mul_pow2 by lia. lia. }
  rewrite Z.lor_spec, !Z.land_spec, mask_complement, blend_mask_bits by (by vm_compute || lia).
  unfold k_layer_blend_shift. rewrite Z.shiftl_spec by done.
  destruct (Z.leb_spec 8 n) as [H8|H8]; [|].
  - destruct (Z.ltb_spec n 16) as [H16|H16]; cbn [andb negb].
    + by rewrite !andb_false_r, andb_true_r.
    + rewrite andb_false_r, orb_false_r, andb_true_r.
      destruct (Z.ltb_spec n 32); [apply andb_true_r|]. by rewrite (testbit_above f 32).
  - cbn [andb negb]. rewrite andb_false_r, orb_false_r, andb_true_r.
    rewrite (proj2 (Z.ltb_lt n 32)) by lia. apply andb_true_r.
Qed.

(** the three placement facts packed in a layer's flag word are independent: each
    writer sets exactly its own -- any blend mode reads back -- and leaves the other two
    and the unassigned bits as they were. *)
Theorem layer_flags_independent (l : LayerRecord) (b : bool) (m : BlendMode)
  (Hf : in_u32 (ly_flags l)) :
  (let l' := layer_flags (set_flag k_layer_visible b (ly_flags l)) l in
   visible l' = b ∧ audible l' = audible l ∧ blend l' = blend l) ∧
  (let l' := layer_flags (set_flag k_layer_audible b (ly_flags l)) l in
   audible l' = b ∧ visible l' = visible l ∧ blend l' = blend l) ∧
  (let l' := layer_flags (set_blend_bits m (ly_flags l)) l in
   blend l' = blend_code m ∧ visible l' = visible l ∧ audible l' = audible l ∧
   Z.shiftr (ly_flags l') 16 = Z.shiftr (ly_flags l) 16).
Proof.
  cbv zeta. rewrite !visible_bit, !audible_bit. cbn [ly_flags layer_flags].
  change k_layer_visible with (2 ^ 0). change k_layer_audible with (2 ^ 1).
  rewrite !set_flag_bits, !set_blend_bits_spec by (done || lia).
  split_and!; try done; try (apply blend_ext; intros n Hn; cbn [ly_flags layer_flags]).
  - rewrite set_flag_bits, blend_bits by (done || lia).
    by rewrite (proj2 (Z.eqb_neq (n + 8) 0)) by lia.
  - rewrite set_flag_bits, blend_bits by (done || lia).
    by rewrite (proj2 (Z.eqb_neq (n + 8) 1)) by lia.
  - rewrite set_blend_bits_spec by (done || lia).
    replace (8 <=? n + 8) with true by (symmetry; apply Z.leb_le; lia).
    replace (n + 8 <? 16) with (n <? 8) by (apply eq_true_iff_eq; rewrite !Z.ltb_lt; lia).
    cbn [andb]. replace (n + 8 - 8) with n by lia. pose proof (blend_code_range m).
    destruct (Z.ltb_spec n 8); [done|]. rewrite (testbit_above _ 8) by (done || lia).
    cbn [andb]. done.
  - apply Z.bits_inj'. intros n Hn. rewrite !Z.shiftr_spec, set_blend_bits_spec by (done || lia).
    by rewrite (proj2 (Z.ltb_ge (n + 16) 16)), andb_false_r by lia.
Qed.
