(* ===== verification/Transaction.v ===== *)
(** Transactions: the mutators of [Model::Transaction] in [src/src/model/model.cpp].

    A transaction edits the working tree of a document -- here any [ObjectStore], the
    interface the object map promises: records bound to ids, read and rebound one at a
    time.  [Txn] is the C++ object's state with the parts of the [Model] it advances:
    the id counter and the retains it sends to the state sink.  A mutator runs unless an
    earlier one failed, and leaves its error in the sticky status ([edit]).

    Allocation failures are [Refused]; [OutOfBounds] stands for what the source excludes
    by assertion or type -- an id past the allocator's half of the id space, a chunk
    chain that does not end. *)

From S2P Require Import Prelude RationalTime Identity Geometry SlotStore Records.

Local Open Scope Z_scope.

(** ** The object map a transaction works on *)

(** What binding a record can come to: the record's own allocation may fail, or the
    path copy that follows it. *)
Inductive bound := Bound | NotCreated (e : failure) | NotBound (e : failure).

Class ObjectStore (S : Type) := {
  os_map : S → gmap ObjectId ObjectRecord;
  os_find : ObjectId → S → expected failure (option ObjectRecord);
  os_put : ObjectId → ObjectRecord → S → S * bound;
  os_erase : ObjectId → ST S failure unit;
  os_leaves : S → expected failure (list (ObjectId * ObjectRecord)) }.

(** What the operations promise, over the states of an invariant. *)
Class ObjectLaws (S : Type) `{!ObjectStore S} := {
  os_inv : S → Prop;

  os_find_spec s id : os_inv s → os_find id s = Ok (os_map s !! id);
  os_put_spec s id r s' b :
    os_inv s → in_u64 id → os_put id r s = (s', b) →
    os_inv s' ∧
    match b with
    | Bound => os_map s' = <[id := r]> (os_map s)
    | NotCreated e | NotBound e => os_map s' = os_map s ∧ ∃ e', e = Refused e'
    end;
  os_erase_spec s id s' x :
    os_inv s → os_erase id s = (s', x) →
    os_inv s' ∧
    match x with
    | Ok _ => os_map s' = delete id (os_map s)
    | Err e => os_map s' = os_map s ∧ ∃ e', e = Refused e'
    end;
  os_leaves_spec s :
    os_inv s → ∃ l, os_leaves s = Ok l ∧ l ≡ₚ map_to_list (os_map s) }.

(** The reference implementation: the map itself. *)
#[export] Instance map_store : ObjectStore (gmap ObjectId ObjectRecord) := {|
  os_map m := m;
  os_find id m := Ok (m !! id);
  os_put id r m := (<[id := r]> m, Bound);
  os_erase id m := (delete id m, Ok tt);
  os_leaves m := Ok (map_to_list m) |}.

#[export, refine] Instance map_laws : ObjectLaws (gmap ObjectId ObjectRecord) := {|
  os_inv _ := True |}.
Proof.
  - done.
  - by intros s id r s' b _ _ [= <- <-].
  - by intros s id s' x _ [= <- <-].
  - intros s _. by eexists.
Defined.

(** ** The transaction *)

Record ContentStateEdit := mkStateEdit {
  se_object : ObjectId; se_before : SlotIndex; se_after : SlotIndex }.

Record Txn (S : Type) := mkTxn {
  tx_store : S;                                  (* d_root, in the document's stores *)
  tx_next_id : Z;                                (* Model::d_next_id *)
  tx_sink : bool;                                (* a StateRefSink is registered *)
  tx_retained : list (ObjectId * SlotIndex);     (* its retain calls, latest first *)
  tx_publish : Z;                                (* d_publish_revision *)
  tx_touched : list ObjectId;
  tx_contents : list ContentStateEdit;
  tx_damage : list Damage;
  tx_status : expected failure unit }.
Arguments mkTxn {S}.
Arguments tx_store {S} t.
Arguments tx_next_id {S} t.
Arguments tx_sink {S} t.
Arguments tx_retained {S} t.
Arguments tx_publish {S} t.
Arguments tx_touched {S} t.
Arguments tx_contents {S} t.
Arguments tx_damage {S} t.
Arguments tx_status {S} t.

(** Object ids of a loop, each handled by [f]. *)
Fixpoint for_each {St E A} (l : list A) (f : A → ST St E unit) : ST St E unit :=
  match l with
  | [] => mret tt
  | a :: l => _ ← f a; for_each l f
  end.

(** An array of [cap] ids holding [l], the rest invalid. *)
Definition pad (cap : nat) (l : list Z) : list Z := l ++ replicate (cap - length l) 0.

(** [next] of the two chunk kinds. *)
Definition chunk_next (a : payload) : ObjectId :=
  match a with AsOrder c => oc_next c | AsText c => tx_next c | _ => 0 end.

(** The members a membership chunk lists. *)
Definition chunk_members (r : ObjectRecord) : list ObjectId :=
  match rc_as r with AsOrder c => take (Z.to_nat (oc_count c)) (oc_members c) | _ => [] end.

(** The text a text chunk carries. *)
Definition chunk_text (r : ObjectRecord) : list Z :=
  match rc_as r with
  | AsText c => take (Nat.min (Z.to_nat (tx_count c)) k_text_chunk_bytes) (tx_bytes c)
  | _ => []
  end.

Section reads.
Context {S : Type} `{!ObjectStore S}.

(** [read_chunk_chain], and the loop of [read_layer_order]: the chunks with their ids.
    [fuel] bounds the chain; running past it is the source's endless loop. *)
Fixpoint read_chunk_chain (kind : RecordKind) (fuel : nat) (s : S) (cur : ObjectId) :
    expected failure (list (ObjectId * ObjectRecord)) :=
  if cur =? 0 then Ok []
  else
    match fuel with
    | O => Err OutOfBounds
    | Datatypes.S fuel =>
        found ← os_find cur s;
        match found with
        | None => Ok []
        | Some r =>
            if bool_decide (kind_of (rc_as r) = kind) then
              rest ← read_chunk_chain kind fuel s (chunk_next (rc_as r));
              Ok ((cur, r) :: rest)
            else Ok []
        end
    end.

(** [read_layer_order]: the members, and the chunk ids. *)
Definition read_layer_order (fuel : nat) (s : S) (comp : CompositionRecord) :
    expected failure (list ObjectId * list ObjectId) :=
  if cp_spill_root comp =? 0 then Ok (take (Z.to_nat (cp_layer_count comp)) (cp_layers comp), [])
  else
    chain ← read_chunk_chain KLayerOrderChunk fuel s (cp_spill_root comp);
    Ok (concat (map (fun c => chunk_members c.2) chain), map fst chain).

(** [read_identity_text]. *)
Definition read_identity_text (fuel : nat) (s : S) (head : ObjectId) : expected failure (list Z) :=
  chain ← read_chunk_chain KTextChunk fuel s head;
  Ok (concat (map (fun c => chunk_text c.2) chain)).
End reads.

Section transaction.
Context {S : Type} `{!ObjectStore S}.
Implicit Types (t : Txn S) (id composition layer content : ObjectId).

Definition Tx (A : Type) : Type := ST (Txn S) failure A.

Definition set_store (s : S) t : Txn S :=
  mkTxn s (tx_next_id t) (tx_sink t) (tx_retained t) (tx_publish t) (tx_touched t)
    (tx_contents t) (tx_damage t) (tx_status t).
Definition set_next_id (n : Z) t : Txn S :=
  mkTxn (tx_store t) n (tx_sink t) (tx_retained t) (tx_publish t) (tx_touched t)
    (tx_contents t) (tx_damage t) (tx_status t).
Definition set_retained (l : list (ObjectId * SlotIndex)) t : Txn S :=
  mkTxn (tx_store t) (tx_next_id t) (tx_sink t) l (tx_publish t) (tx_touched t)
    (tx_contents t) (tx_damage t) (tx_status t).
Definition set_touched (l : list ObjectId) t : Txn S :=
  mkTxn (tx_store t) (tx_next_id t) (tx_sink t) (tx_retained t) (tx_publish t) l
    (tx_contents t) (tx_damage t) (tx_status t).
Definition set_contents (l : list ContentStateEdit) t : Txn S :=
  mkTxn (tx_store t) (tx_next_id t) (tx_sink t) (tx_retained t) (tx_publish t) (tx_touched t)
    l (tx_damage t) (tx_status t).
Definition set_damage (l : list Damage) t : Txn S :=
  mkTxn (tx_store t) (tx_next_id t) (tx_sink t) (tx_retained t) (tx_publish t) (tx_touched t)
    (tx_contents t) l (tx_status t).
Definition set_status (x : expected failure unit) t : Txn S :=
  mkTxn (tx_store t) (tx_next_id t) (tx_sink t) (tx_retained t) (tx_publish t) (tx_touched t)
    (tx_contents t) (tx_damage t) x.

(** A public mutator: nothing after a failure, and a failure of its own is recorded. *)
Definition edit {A} (absent : A) (m : Tx A) : Txn S → Txn S * A := fun t =>
  match tx_status t with
  | Err _ => (t, absent)
  | Ok _ =>
      match m t with
      | (t', Ok a) => (t', a)
      | (t', Err e) => (set_status (Err e) t', absent)
      end
  end.

(** *** The primitives *)

(** [touch]. *)
Definition touch id : Tx unit :=
  st_modify (fun t => if bool_decide (id ∈ tx_touched t) then t
                      else set_touched (tx_touched t ++ [id]) t).

(** [Model::allocate_id], with its tripwire assertion. *)
Definition allocate_id : Tx ObjectId := fun t =>
  let id := tx_next_id t in
  if synthetic id then (t, Err OutOfBounds) else (set_next_id (id + 1) t, Ok id).

(** [hamt_lookup] and [peek] of the record. *)
Definition find id : Tx (option ObjectRecord) := fun t => (t, os_find id (tx_store t)).

Definition read {A} (f : nat → S → expected failure A) : Tx A := fun t =>
  (t, f (Z.to_nat (tx_next_id t)) (tx_store t)).

(** [create], the record filled in and stamped, [hamt_insert], [touch].  A state handle
    the record carries is retained in between, when [retains]. *)
Definition note_retain (retains : bool) id (a : payload) t : Txn S :=
  match a with
  | AsContent c =>
      if retains && has_state (ct_state c) && tx_sink t
      then set_retained ((id, ct_state c) :: tx_retained t) t else t
  | _ => t
  end.

Definition bind_record (retains : bool) id (rid : ObjectId) (a : payload) : Tx unit := fun t =>
  if bool_decide (in_u64 id) then
    let '(s, b) := os_put id (mkRecord rid (tx_publish t) a) (tx_store t) in
    match b with
    | NotCreated e => (set_store s t, Err e)
    | NotBound e => (note_retain retains id a (set_store s t), Err e)
    | Bound => touch id (note_retain retains id a (set_store s t))
    end
  else (t, Err OutOfBounds).

(** [hamt_erase] and [touch]. *)
Definition erase_record id : Tx unit := fun t =>
  match os_erase id (tx_store t) with
  | (s, Ok _) => touch id (set_store s t)
  | (s, Err e) => (set_store s t, Err e)
  end.

(** [add_damage], and the whole-object damage a mutator adds. *)
Definition add_damage (d : Damage) : Tx unit :=
  st_modify (fun t => set_damage (damage_add (tx_damage t) d) t).
Definition damage_object id : Tx unit := add_damage (mkDamage id Rect_infinite TimeRange_all).

(** *** Objects *)

Definition insert_object id (a : payload) : Tx ObjectId :=
  _ ← bind_record false id id a;
  _ ← damage_object id;
  mret id.

Definition add_layer content (transform : Affine) (opacity : double) : Txn S → Txn S * ObjectId :=
  edit 0 (id ← allocate_id; insert_object id (AsLayer (new_layer content transform opacity))).

Definition add_content (kind : Z) : Txn S → Txn S * ObjectId :=
  edit 0 (id ← allocate_id; insert_object id (AsContent (new_content kind))).

Definition add_composition (canvas_w canvas_h : double) : Txn S → Txn S * ObjectId :=
  edit 0 (id ← allocate_id; insert_object id (AsComposition (new_composition canvas_w canvas_h))).

Definition add_composition_at id (canvas_w canvas_h : double) : Txn S → Txn S * ObjectId :=
  edit 0 (insert_object id (AsComposition (new_composition canvas_w canvas_h))).

Definition remove_object id : Tx unit :=
  found ← find id;
  match found with
  | None => mret tt
  | Some _ => _ ← erase_record id; damage_object id
  end.
Definition remove id (t : Txn S) : Txn S := (edit tt (remove_object id) t).1.

(** *** Field edits *)

(** Path-copy a record of the right kind with one field overridden. *)
Definition edit_composition (f : CompositionRecord → CompositionRecord) composition : Tx unit :=
  found ← find composition;
  match found with
  | Some (mkRecord rid _ (AsComposition c)) =>
      _ ← bind_record false composition rid (AsComposition (f c)); damage_object composition
  | _ => mret tt
  end.

Definition edit_layer (f : LayerRecord → LayerRecord) layer : Tx unit :=
  found ← find layer;
  match found with
  | Some (mkRecord rid _ (AsLayer l)) =>
      _ ← bind_record false layer rid (AsLayer (f l)); damage_object layer
  | _ => mret tt
  end.

Definition working_space_of (format : SurfaceFormat) (c : CompositionRecord) : CompositionRecord :=
  mkComposition (cp_canvas_w c) (cp_canvas_h c) format (cp_working_audio_format c)
    (cp_layer_count c) (cp_layers c) (cp_spill_root c).
Definition working_audio_of (format : AudioFormat) (c : CompositionRecord) : CompositionRecord :=
  mkComposition (cp_canvas_w c) (cp_canvas_h c) (cp_working_space c) format
    (cp_layer_count c) (cp_layers c) (cp_spill_root c).

Definition set_working_space composition (format : SurfaceFormat) t : Txn S :=
  (edit tt (edit_composition (working_space_of format) composition) t).1.
Definition set_working_audio_format composition (format : AudioFormat) t : Txn S :=
  (edit tt (edit_composition (working_audio_of format) composition) t).1.
Definition set_transform layer (transform : Affine) t : Txn S :=
  (edit tt (edit_layer (layer_transform transform) layer) t).1.
Definition set_span layer (span : TimeRange) t : Txn S :=
  (edit tt (edit_layer (layer_span span) layer) t).1.
Definition set_time_map layer (time_map : TimeMap) t : Txn S :=
  (edit tt (edit_layer (layer_time_map time_map) layer) t).1.
Definition set_opacity layer (opacity : double) t : Txn S :=
  (edit tt (edit_layer (layer_opacity opacity) layer) t).1.
Definition set_gain layer (gain : double) t : Txn S :=
  (edit tt (edit_layer (layer_gain gain) layer) t).1.
Definition set_audible layer (audible : bool) t : Txn S :=
  (edit tt (edit_layer (fun l => layer_flags (set_flag k_layer_audible audible (ly_flags l)) l)
              layer) t).1.
Definition set_blend layer (blend : BlendMode) t : Txn S :=
  (edit tt (edit_layer (fun l => layer_flags (set_blend_bits blend (ly_flags l)) l) layer) t).1.
Definition set_visible layer (visible : bool) t : Txn S :=
  (edit tt (edit_layer (fun l => layer_flags (set_flag k_layer_visible visible (ly_flags l)) l)
              layer) t).1.

(** *** Membership *)

Definition composition_order (c : CompositionRecord) (count : Z) (members : list ObjectId)
    (spill : ObjectId) : CompositionRecord :=
  mkComposition (cp_canvas_w c) (cp_canvas_h c) (cp_working_space c) (cp_working_audio_format c)
    count (pad k_max_inline_layers members) spill.

(** Chunk ids by position: existing ones are reused, the growth tail gets fresh ones. *)
Fixpoint assign_chunk_ids (count : nat) (old : list ObjectId) : Tx (list ObjectId) :=
  match count with
  | O => mret []
  | Datatypes.S count =>
      id ← match old with id :: _ => mret id | [] => allocate_id end;
      rest ← assign_chunk_ids count (tail old);
      mret (id :: rest)
  end.

(** [(n + cap - 1) / cap]. *)
Definition chunk_count (n cap : nat) : nat := Nat.div (n + cap - 1) cap.

(** Chunk [p] of a list, as the writers cut it. *)
Definition slice (cap p : nat) (l : list Z) : list Z :=
  take (Nat.min cap (length l - p * cap)) (drop (p * cap) l).

Definition order_chunk (members : list ObjectId) (next : ObjectId) : payload :=
  AsOrder (mkOrder (Z.of_nat (length members)) (pad k_max_inline_layers members) next).

(** A subtraction on [size_t]. *)
Definition size_sub (a b : nat) : Z :=
  let d := Z.of_nat a - Z.of_nat b in if d <? 0 then d + 2 ^ 64 else d.

(** A chunk of the old chain whose members and successor stay as they are. *)
Definition chunk_unchanged (p : nat) (chunk_ids old_order old_chunk_ids new_order : list ObjectId) :
    bool :=
  let cap := k_max_inline_layers in
  let members := slice cap p new_order in
  let old_cnt := Z.min (Z.of_nat cap) (size_sub (length old_order) (p * cap)) in
  (p <? length old_chunk_ids)%nat &&
  (Z.of_nat (length members) =? old_cnt) &&
  (default 0 (old_chunk_ids !! Datatypes.S p) =? default 0 (chunk_ids !! Datatypes.S p)) &&
  bool_decide (members = take (length members) (drop (p * cap) old_order)).

Definition write_order_chunk (chunk_ids old_order old_chunk_ids new_order : list ObjectId)
    (p : nat) : Tx unit :=
  if chunk_unchanged p chunk_ids old_order old_chunk_ids new_order then mret tt
  else
    let id := default 0 (chunk_ids !! p) in
    bind_record false id id
      (order_chunk (slice k_max_inline_layers p new_order) (default 0 (chunk_ids !! Datatypes.S p))).

Definition store_membership composition (rid : ObjectId) (base : CompositionRecord)
    (old_order old_chunk_ids new_order : list ObjectId) : Tx unit :=
  let cap := k_max_inline_layers in
  let n := length new_order in
  if (n <=? cap)%nat then
    _ ← for_each old_chunk_ids erase_record;
    bind_record false composition rid
      (AsComposition (composition_order base (u32 (Z.of_nat n)) new_order 0))
  else
    let c_new := chunk_count n cap in
    chunk_ids ← assign_chunk_ids c_new old_chunk_ids;
    _ ← for_each (drop c_new old_chunk_ids) erase_record;
    _ ← for_each (seq 0 c_new) (write_order_chunk chunk_ids old_order old_chunk_ids new_order);
    bind_record false composition rid
      (AsComposition
         (composition_order base (u32 (Z.of_nat n)) [] (default 0 (chunk_ids !! 0%nat)))).

(** The frame of the three membership edits: [change] gives the new order, or [None]
    when there is nothing to do. *)
Definition edit_membership composition (change : list ObjectId → option (list ObjectId)) :
    Tx unit :=
  found ← find composition;
  match found with
  | Some (mkRecord rid _ (AsComposition base)) =>
      old ← read (fun fuel s => read_layer_order fuel s base);
      match change old.1 with
      | None => mret tt
      | Some new_order =>
          _ ← store_membership composition rid base old.1 old.2 new_order;
          damage_object composition
      end
  | _ => mret tt
  end.

Definition insert_at (at_index : Z) (layer : ObjectId) (order : list ObjectId) : list ObjectId :=
  let at_ := Z.to_nat (Z.min at_index (Z.of_nat (length order))) in
  take at_ order ++ layer :: drop at_ order.

(** The first position of [layer]. *)
Fixpoint index_of layer (order : list ObjectId) : option nat :=
  match order with
  | [] => None
  | id :: order => if id =? layer then Some 0%nat else Datatypes.S <$> index_of layer order
  end.

Definition erase_at (i : nat) (order : list ObjectId) : list ObjectId :=
  take i order ++ drop (Datatypes.S i) order.

Definition move (from to : Z) (order : list ObjectId) : option (list ObjectId) :=
  if (Z.of_nat (length order) <=? from) || (Z.of_nat (length order) <=? to) || (from =? to)
  then None
  else
    moved ← order !! Z.to_nat from;
    Some (insert_at to moved (erase_at (Z.to_nat from) order)).

Definition attach_at composition layer (at_index : Z) : Tx unit :=
  found ← find composition;
  match found with
  | Some (mkRecord _ _ (AsComposition _)) =>
      bound ← find layer;
      match bound with
      | None => mret tt
      | Some _ => edit_membership composition (fun order => Some (insert_at at_index layer order))
      end
  | _ => mret tt
  end.

Definition attach_layer composition layer (at_index : Z) t : Txn S :=
  (edit tt (attach_at composition layer at_index) t).1.

Definition append_layer composition layer t : Txn S :=
  attach_layer composition layer (2 ^ 32 - 1) t.

Definition detach_layer composition layer t : Txn S :=
  (edit tt (edit_membership composition (fun order =>
     i ← index_of layer order; Some (erase_at i order))) t).1.

Definition reorder_layer composition (from to : Z) t : Txn S :=
  (edit tt (edit_membership composition (move from to)) t).1.

(** *** Content *)

Definition content_with_state (state : SlotIndex) (c : ContentRecord) : ContentRecord :=
  mkContent (ct_kind c) state (ct_identity_root c) (ct_inputs_root c) (ct_input_count c)
    (ct_inputs c).

(** The (before, after) pair: the first before and the last after are kept. *)
Fixpoint note_state content (before after : SlotIndex) (edits : list ContentStateEdit) :
    list ContentStateEdit :=
  match edits with
  | [] => [mkStateEdit content before after]
  | e :: edits =>
      if se_object e =? content then mkStateEdit (se_object e) (se_before e) after :: edits
      else e :: note_state content before after edits
  end.

Definition assign_state content (after : SlotIndex) : Tx unit :=
  found ← find content;
  match found with
  | Some (mkRecord rid _ (AsContent c)) =>
      _ ← bind_record true content rid (AsContent (content_with_state after c));
      st_modify (fun t => set_contents (note_state content (ct_state c) after (tx_contents t)) t)
  | _ => mret tt
  end.

Definition set_content_state content (after : SlotIndex) t : Txn S :=
  (edit tt (assign_state content after) t).1.

(** Which chain of a content a writer rewrites: its chunk kind and its head. *)
Inductive content_chain := Identity_chain | Inputs_chain.

Definition chain_kind (ch : content_chain) : RecordKind :=
  match ch with Identity_chain => KTextChunk | Inputs_chain => KLayerOrderChunk end.
Definition chain_head (ch : content_chain) (c : ContentRecord) : ObjectId :=
  match ch with Identity_chain => ct_identity_root c | Inputs_chain => ct_inputs_root c end.
Definition with_chain_head (ch : content_chain) (head : ObjectId) (c : ContentRecord) :
    ContentRecord :=
  match ch with
  | Identity_chain =>
      mkContent (ct_kind c) (ct_state c) head (ct_inputs_root c) (ct_input_count c) (ct_inputs c)
  | Inputs_chain =>
      mkContent (ct_kind c) (ct_state c) (ct_identity_root c) head (ct_input_count c) (ct_inputs c)
  end.

Definition write_content_chain content (ch : content_chain) (count : nat)
    (fill : nat → ObjectId → payload) (on_record : ContentRecord → ContentRecord) : Tx unit :=
  found ← find content;
  match found with
  | Some (mkRecord rid _ (AsContent base)) =>
      old_chunks ← read (fun fuel s => read_chunk_chain (chain_kind ch) fuel s (chain_head ch base));
      _ ← for_each (map fst old_chunks) erase_record;
      chunk_ids ← assign_chunk_ids count [];
      _ ← for_each (rev (seq 0 count)) (fun p =>
            let id := default 0 (chunk_ids !! p) in
            bind_record false id id (fill p (default 0 (chunk_ids !! Datatypes.S p))));
      bind_record true content rid
        (AsContent (on_record (with_chain_head ch (default 0 (chunk_ids !! 0%nat)) base)))
  | _ => mret tt
  end.

(** [text_chunk]'s fill: [bytes] is the whole array, [total] the whole text's length. *)
Definition text_chunk (total : nat) (bytes : list Z) (next : ObjectId) : payload :=
  AsText (mkText (Z.of_nat (length bytes)) (u32 (Z.of_nat total)) next
            (pad k_text_chunk_bytes bytes)).

(** [kind_id], a NUL, [params]; nothing when both are empty. *)
Definition identity_text (kind_id params : list Z) : list Z :=
  match kind_id, params with [], [] => [] | _, _ => kind_id ++ 0 :: params end.

Definition set_content_identity content (kind_id params : list Z) t : Txn S :=
  let text := identity_text kind_id params in
  (edit tt (write_content_chain content Identity_chain
     (chunk_count (length text) k_text_chunk_bytes)
     (fun p next => text_chunk (length text) (slice k_text_chunk_bytes p text) next)
     (fun c => c)) t).1.

Definition with_inputs (inputs : list ObjectId) (c : ContentRecord) : ContentRecord :=
  mkContent (ct_kind c) (ct_state c) (ct_identity_root c) (ct_inputs_root c)
    (u32 (Z.of_nat (length inputs)))
    (pad k_max_inline_inputs (if (length inputs <=? k_max_inline_inputs)%nat then inputs else [])).

Definition set_content_inputs content (inputs : list ObjectId) t : Txn S :=
  let count := if (length inputs <=? k_max_inline_inputs)%nat then 0%nat
               else chunk_count (length inputs) k_max_inline_layers in
  (edit tt (write_content_chain content Inputs_chain count
     (fun p next => order_chunk (slice k_max_inline_layers p inputs) next)
     (with_inputs inputs)) t).1.
End transaction.
Arguments Tx S A : clear implicits.

(** ** Commands

    A client's transaction is a sequence of mutator calls. *)

Inductive command :=
| CAddLayer (content : ObjectId) (transform : Affine) (opacity : double)
| CAddContent (kind : Z)
| CAddComposition (canvas_w canvas_h : double)
| CAddCompositionAt (id : ObjectId) (canvas_w canvas_h : double)
| CSetWorkingSpace (composition : ObjectId) (format : SurfaceFormat)
| CSetWorkingAudio (composition : ObjectId) (format : AudioFormat)
| CSetTransform (layer : ObjectId) (transform : Affine)
| CSetSpan (layer : ObjectId) (span : TimeRange)
| CSetTimeMap (layer : ObjectId) (time_map : TimeMap)
| CSetOpacity (layer : ObjectId) (opacity : double)
| CSetGain (layer : ObjectId) (gain : double)
| CSetAudible (layer : ObjectId) (audible : bool)
| CSetBlend (layer : ObjectId) (blend : BlendMode)
| CSetVisible (layer : ObjectId) (visible : bool)
| CAttach (composition layer : ObjectId) (at_index : Z)
| CDetach (composition layer : ObjectId)
| CReorder (composition : ObjectId) (from to : Z)
| CSetState (content : ObjectId) (after : SlotIndex)
| CSetIdentity (content : ObjectId) (kind_id params : list Z)
| CSetInputs (content : ObjectId) (inputs : list ObjectId)
| CRemove (id : ObjectId)
| CDamage (d : Damage).

Definition exec {S} `{!ObjectStore S} (c : command) (t : Txn S) : Txn S :=
  match c with
  | CAddLayer content transform opacity => (add_layer content transform opacity t).1
  | CAddContent kind => (add_content kind t).1
  | CAddComposition w h => (add_composition w h t).1
  | CAddCompositionAt id w h => (add_composition_at id w h t).1
  | CSetWorkingSpace id format => set_working_space id format t
  | CSetWorkingAudio id format => set_working_audio_format id format t
  | CSetTransform id transform => set_transform id transform t
  | CSetSpan id span => set_span id span t
  | CSetTimeMap id time_map => set_time_map id time_map t
  | CSetOpacity id opacity => set_opacity id opacity t
  | CSetGain id gain => set_gain id gain t
  | CSetAudible id audible => set_audible id audible t
  | CSetBlend id blend => set_blend id blend t
  | CSetVisible id visible => set_visible id visible t
  | CAttach composition layer at_index => attach_layer composition layer at_index t
  | CDetach composition layer => detach_layer composition layer t
  | CReorder composition from to => reorder_layer composition from to t
  | CSetState content after => set_content_state content after t
  | CSetIdentity content kind_id params => set_content_identity content kind_id params t
  | CSetInputs content inputs => set_content_inputs content inputs t
  | CRemove id => remove id t
  | CDamage d => (add_damage d t).1
  end.

Definition run_commands {S} `{!ObjectStore S} (cs : list command) (t : Txn S) : Txn S :=
  foldl (fun t c => exec c t) t cs.

(** ** Every object store behaves as the map *)

Section refinement.
Context {S : Type} `{!ObjectStore S, !ObjectLaws S}.
Notation M := (gmap ObjectId ObjectRecord).

(** A transaction over the map its store stands for. *)
Definition abstract (t : Txn S) : Txn M :=
  mkTxn (os_map (tx_store t)) (tx_next_id t) (tx_sink t) (tx_retained t) (tx_publish t)
    (tx_touched t) (tx_contents t) (tx_damage t) (tx_status t).

(** [m] does what [m'] does on the map, or is refused memory. *)
Definition implements {A} (m : Tx S A) (m' : Tx M A) : Prop :=
  ∀ t, os_inv (tx_store t) →
    match m t with
    | (t', Err (Refused _)) => os_inv (tx_store t')
    | (t', x) => os_inv (tx_store t') ∧ m' (abstract t) = (abstract t', x)
    end.

Lemma implements_ret {A} (a : A) : implements (mret a) (mret a).
Proof. by intros t I. Qed.

Lemma implements_bind {A B} (m : Tx S A) m' (k : A → Tx S B) k' :
  implements m m' → (∀ a, implements (k a) (k' a)) → implements (mbind k m) (mbind k' m').
Proof.
  intros Hm Hk t I. specialize (Hm t I). unfold mbind, ST_bind.
  destruct (m t) as [t1 [a|[e|]]]; [|done|]; destruct Hm as [I1 E]; rewrite E; [|done].
  by apply Hk.
Qed.

Lemma implements_pure {A} (f : Txn S → Txn S) (f' : Txn M → Txn M) (g : Txn S → A) g' :
  (∀ t, os_inv (tx_store t) →
    os_inv (tx_store (f t)) ∧ f' (abstract t) = abstract (f t) ∧ g' (abstract t) = g t) →
  implements (fun t => (f t, Ok (g t))) (fun t => (f' t, Ok (g' t))).
Proof. intros Hf t I. destruct (Hf t I) as (I' & E1 & E2). by rewrite E1, E2. Qed.

Lemma implements_fail {A} (e : failure) : @implements A (st_fail e) (st_fail e).
Proof. intros t I. cbn. by destruct e. Qed.

Lemma implements_touch id : implements (touch id) (touch id).
Proof.
  unfold touch, st_modify. intros t I. cbn. by destruct (bool_decide _).
Qed.

Lemma implements_allocate_id : implements allocate_id allocate_id.
Proof. intros t I. unfold allocate_id. cbn. by destruct (synthetic (tx_next_id t)). Qed.

Lemma implements_find id : implements (find id) (find id).
Proof. intros t I. unfold find. cbn. by rewrite os_find_spec. Qed.

Lemma implements_add_damage d : implements (add_damage d) (add_damage d).
Proof. by intros t I. Qed.

Lemma implements_erase_record id : implements (erase_record id) (erase_record id).
Proof.
  intros t I. unfold erase_record. destruct (os_erase id (tx_store t)) as [s x] eqn:E.
  destruct (os_erase_spec _ _ _ _ I E) as [I' Hx]. destruct x as [[]|e].
  - specialize (implements_touch id (set_store s t) I'). unfold abstract at 1. cbn.
    by rewrite Hx.
  - destruct Hx as [_ [e' ->]]. done.
Qed.

Lemma note_retain_store retains id a (t : Txn S) :
  tx_store (note_retain retains id a t) = tx_store t ∧
  note_retain retains id a (abstract t) = abstract (note_retain retains id a t).
Proof.
  unfold note_retain. destruct a as [| |c| |]; try done. cbn.
  by destruct (retains && has_state (ct_state c) && tx_sink t).
Qed.

Lemma implements_bind_record retains id rid a :
  implements (bind_record retains id rid a) (bind_record retains id rid a).
Proof.
  intros t I. unfold bind_record. destruct (bool_decide (in_u64 id)) eqn:Hid; [|done].
  apply bool_decide_eq_true in Hid.
  destruct (os_put id _ (tx_store t)) as [s b] eqn:E.
  destruct (os_put_spec _ _ _ _ _ I Hid E) as [I' Hb]. destruct b as [|e|e].
  - destruct (note_retain_store retains id a (set_store s t)) as [Es En].
    pose proof (implements_touch id (note_retain retains id a (set_store s t))) as Ht.
    rewrite Es in Ht. specialize (Ht I'). rewrite <- En in Ht. unfold abstract at 1 in Ht.
    cbn [set_store tx_store tx_next_id tx_sink tx_retained tx_publish tx_touched tx_contents
      tx_damage tx_status] in Ht. by rewrite Hb in Ht.
  - destruct Hb as [_ [e' ->]]. done.
  - destruct Hb as [_ [e' ->]]. cbn beta iota.
    by rewrite (proj1 (note_retain_store retains id a (set_store s t))).
Qed.

Lemma implements_for_each {A} (l : list A) f f' :
  (∀ a, implements (f a) (f' a)) → implements (for_each l f) (for_each l f').
Proof.
  intros Hf. induction l as [|a l IH]; [apply implements_ret|].
  apply implements_bind; [apply Hf|done].
Qed.

Lemma implements_assign_chunk_ids n : ∀ old,
  implements (assign_chunk_ids n old) (assign_chunk_ids n old).
Proof.
  induction n as [|n IH]; intros old; [apply implements_ret|].
  apply implements_bind; [destruct old; [apply implements_allocate_id|apply implements_ret]|].
  intros id. apply implements_bind; [apply IH|]. intros rest. apply implements_ret.
Qed.

(** Reads agree. *)
Lemma read_chunk_chain_abstract kind fuel : ∀ (s : S) cur, os_inv s →
  read_chunk_chain kind fuel (os_map s) cur = read_chunk_chain kind fuel s cur.
Proof.
  induction fuel as [|fuel IH]; intros s cur I; cbn [read_chunk_chain]; [done|].
  rewrite (os_find_spec s) by done. cbn. destruct (os_map s !! cur) as [r|]; [|done].
  by destruct (cur =? 0); rewrite ?IH.
Qed.

Lemma read_layer_order_abstract fuel (s : S) comp : os_inv s →
  read_layer_order fuel (os_map s) comp = read_layer_order fuel s comp.
Proof. intros I. unfold read_layer_order. by rewrite read_chunk_chain_abstract. Qed.

Lemma implements_read {A} (f : nat → S → expected failure A) f' :
  (∀ fuel s, os_inv s → f' fuel (os_map s) = f fuel s) →
  (∀ fuel s e, f fuel s = Err (Refused e) → os_inv s → False) →
  implements (read f) (read f').
Proof.
  intros Hf Hn t I. unfold read. cbn. rewrite Hf by done.
  by destruct (f _ _) as [a|[e|]] eqn:E.
Qed.

Lemma read_chunk_chain_not_refused kind fuel : ∀ (s : S) cur e, os_inv s →
  read_chunk_chain kind fuel s cur = Err (Refused e) → False.
Proof.
  induction fuel as [|fuel IH]; intros s cur e I; cbn [read_chunk_chain];
    [by destruct (cur =? 0)|]. destruct (cur =? 0); [done|].
  rewrite (os_find_spec s) by done. cbn. destruct (os_map s !! cur) as [r|]; [|done].
  case_bool_decide; [|done].
  destruct (read_chunk_chain kind fuel s (chunk_next (rc_as r))) as [l|e'] eqn:E; [done|].
  cbn. intros [= ->]. by eapply IH.
Qed.
End refinement.

#[export] Hint Resolve implements_ret implements_bind implements_fail implements_touch
  implements_allocate_id implements_find implements_add_damage implements_erase_record
  implements_bind_record implements_for_each implements_assign_chunk_ids : arbc.

(** Walk the structure of a mutator. *)
Ltac implements_auto :=
  repeat first
    [ solve [eauto with arbc]
    | apply implements_bind; [|intros ?]
    | apply implements_for_each; intros ?
    | progress case_match ].

Section commands.
Context {S : Type} `{!ObjectStore S, !ObjectLaws S}.
Notation M := (gmap ObjectId ObjectRecord).

Lemma implements_damage_object id : implements (S := S) (damage_object id) (damage_object id).
Proof. apply implements_add_damage. Qed.

Lemma implements_insert_object id a :
  implements (S := S) (insert_object id a) (insert_object id a).
Proof. unfold insert_object. pose proof implements_damage_object. implements_auto. Qed.

Lemma implements_remove_object id : implements (S := S) (remove_object id) (remove_object id).
Proof. unfold remove_object. pose proof implements_damage_object. implements_auto. Qed.

Lemma implements_edit_composition f id :
  implements (S := S) (edit_composition f id) (edit_composition f id).
Proof. unfold edit_composition. pose proof implements_damage_object. implements_auto. Qed.

Lemma implements_edit_layer f id : implements (S := S) (edit_layer f id) (edit_layer f id).
Proof. unfold edit_layer. pose proof implements_damage_object. implements_auto. Qed.

Lemma implements_store_membership id rid base old_order old_chunk_ids new_order :
  implements (S := S) (store_membership id rid base old_order old_chunk_ids new_order)
    (store_membership id rid base old_order old_chunk_ids new_order).
Proof. unfold store_membership, write_order_chunk. implements_auto. Qed.

Lemma implements_read_layer_order comp :
  implements (S := S) (read (fun fuel s => read_layer_order fuel s comp))
    (read (fun fuel s => read_layer_order fuel s comp)).
Proof.
  apply implements_read; [intros; by apply read_layer_order_abstract|].
  intros fuel s e. unfold read_layer_order. case_match; [done|].
  destruct (read_chunk_chain _ _ _ _) as [l|e'] eqn:E; [done|]. cbn.
  intros [= ->] I. by eapply read_chunk_chain_not_refused.
Qed.

Lemma implements_read_chunk_chain kind head :
  implements (S := S) (read (fun fuel s => read_chunk_chain kind fuel s head))
    (read (fun fuel s => read_chunk_chain kind fuel s head)).
Proof.
  apply implements_read; [intros; by apply read_chunk_chain_abstract|].
  intros fuel s e E I. by eapply read_chunk_chain_not_refused.
Qed.

Lemma implements_edit_membership id change :
  implements (S := S) (edit_membership id change) (edit_membership id change).
Proof.
  unfold edit_membership.
  pose proof implements_damage_object. pose proof implements_store_membership.
  pose proof implements_read_layer_order. implements_auto.
Qed.

Lemma implements_attach_at id layer at_index :
  implements (S := S) (attach_at id layer at_index) (attach_at id layer at_index).
Proof. unfold attach_at. pose proof implements_edit_membership. implements_auto. Qed.

Lemma implements_assign_state id after :
  implements (S := S) (assign_state id after) (assign_state id after).
Proof.
  unfold assign_state. implements_auto. by intros t I.
Qed.

Lemma implements_write_content_chain id ch count fill on_record :
  implements (S := S) (write_content_chain id ch count fill on_record)
    (write_content_chain id ch count fill on_record).
Proof.
  unfold write_content_chain. pose proof implements_read_chunk_chain. implements_auto.
Qed.

Lemma implements_allocated (a : payload) :
  implements (S := S) (id ← allocate_id; insert_object id a) (id ← allocate_id; insert_object id a).
Proof. pose proof implements_insert_object. implements_auto. Qed.

(** What a transaction may have come to, against the same one on the map [M]. *)
Definition follows (t : Txn S) (t' : Txn M) : Prop :=
  os_inv (tx_store t) ∧ ((∃ e, tx_status t = Err (Refused e)) ∨ abstract t = t').

Lemma edit_follows {A} (x : A) (m : Tx S A) m' t t' :
  implements m m' → follows t t' → follows (edit x m t).1 (edit x m' t').1.
Proof.
  intros Hm [I [[e Es]|<-]]; unfold edit.
  - rewrite Es. split; [done|]. left. by exists e.
  - cbn [abstract tx_status]. destruct (tx_status t) as [[]|e] eqn:Es.
    + specialize (Hm t I). destruct (m t) as [t1 [a|[e|]]].
      * destruct Hm as [I1 ->]. split; [done|by right].
      * split; [done|]. left. by exists e.
      * destruct Hm as [I1 ->]. split; [done|by right].
    + split; [done|by right].
Qed.

Lemma exec_follows c t t' : follows t t' → follows (exec c t) (exec c t').
Proof.
  intros Hf.
  destruct c; cbn [exec]; try (apply edit_follows; [|done]);
    eauto using implements_allocated, implements_insert_object, implements_edit_composition,
      implements_edit_layer, implements_attach_at, implements_edit_membership,
      implements_assign_state, implements_write_content_chain, implements_remove_object.
  destruct Hf as [I [[e Es]|<-]]; (split; [done|]); [left|right]; [by exists e|done].
Qed.

End commands.

(** ** Invariants of a transaction

    A predicate that every primitive keeps, whatever its outcome, is kept by every
    command. *)

Section invariants.
Context {S : Type} `{!ObjectStore S, !ObjectLaws S}.
Implicit Types (P : Txn S → Prop) (t : Txn S) (base : gmap ObjectId ObjectRecord).

Definition keeps P {A} (m : Tx S A) : Prop := ∀ t, P t → P (m t).1.

Record kept_by_primitives P : Prop := {
  kp_allocate : keeps P allocate_id;
  kp_bind retains id rid a : keeps P (bind_record retains id rid a);
  kp_erase id : keeps P (erase_record id);
  kp_damage d : keeps P (add_damage d);
  kp_contents f : keeps P (st_modify (fun t => set_contents (f (tx_contents t)) t));
  kp_status x t : P t → P (set_status x t) }.

Lemma keeps_ret P {A} (a : A) : keeps P (mret a).
Proof. by intros t. Qed.

Lemma keeps_bind P {A B} (m : Tx S A) (k : A → Tx S B) :
  keeps P m → (∀ a, keeps P (k a)) → keeps P (mbind k m).
Proof.
  intros Hm Hk t Ht. specialize (Hm t Ht). unfold mbind, ST_bind.
  destruct (m t) as [t1 [a|e]]; [by apply Hk|done].
Qed.

Lemma keeps_find P id : keeps P (find id).
Proof. by intros t. Qed.

Lemma keeps_read P {A} (f : nat → S → expected failure A) : keeps P (read f).
Proof. by intros t. Qed.

Lemma keeps_for_each P {A} (l : list A) (f : A → Tx S unit) :
  (∀ a, keeps P (f a)) → keeps P (for_each l f).
Proof. intros Hf. induction l; [apply keeps_ret|]. by apply keeps_bind. Qed.

Lemma keeps_assign_chunk_ids P n : keeps P allocate_id → ∀ old, keeps P (assign_chunk_ids n old).
Proof.
  intros Ha. induction n as [|n IH]; intros old; [apply keeps_ret|].
  apply keeps_bind; [destruct old; [done|apply keeps_ret]|]. intros id. apply keeps_bind; [apply IH|].
  intros rest. apply keeps_ret.
Qed.

Create HintDb keeps.
#[local] Hint Resolve keeps_ret keeps_find keeps_read keeps_assign_chunk_ids
  kp_allocate kp_bind kp_erase kp_damage kp_contents : keeps.

Ltac keeps_auto :=
  repeat first
    [ solve [eauto with keeps]
    | apply keeps_bind; [|intros ?]
    | apply keeps_for_each; intros ?
    | progress case_match ].

Lemma keeps_edit_membership P id change :
  kept_by_primitives P → keeps P (edit_membership id change).
Proof.
  intros Hp. unfold edit_membership, store_membership, write_order_chunk, damage_object.
  keeps_auto.
Qed.

Lemma edit_keeps P {A} (x : A) (m : Tx S A) t :
  kept_by_primitives P → keeps P m → P t → P (edit x m t).1.
Proof.
  intros Hp Hm Ht. unfold edit. destruct (tx_status t); [|done]. specialize (Hm t Ht).
  destruct (m t) as [t1 [a|e]]; [done|by apply kp_status].
Qed.

Lemma exec_keeps P c t : kept_by_primitives P → P t → P (exec c t).
Proof.
  intros Hp Ht.
  destruct c; cbn [exec]; try refine (edit_keeps P _ _ _ Hp _ Ht);
    try exact (kp_damage P Hp _ _ Ht);
    unfold insert_object, edit_composition, edit_layer, attach_at, assign_state,
      write_content_chain, remove_object, damage_object; pose proof keeps_edit_membership;
    keeps_auto.
Qed.

Lemma run_keeps P cs t : kept_by_primitives P → P t → P (run_commands cs t).
Proof.
  intros Hp. revert t. induction cs as [|c cs IH]; intros t Ht; [done|].
  cbn. by apply IH, exec_keeps.
Qed.

(** *** Stamps *)

(** Against the version it forked, a transaction has changed only what it touched, and
    stamped all of it. *)
Record touched_inv base (publish : Z) t : Prop := {
  ti_store : os_inv (tx_store t);
  ti_publish : tx_publish t = publish;
  ti_nodup : NoDup (tx_touched t);
  ti_same id : id ∉ tx_touched t → os_map (tx_store t) !! id = base !! id;
  ti_stamp id r : id ∈ tx_touched t → os_map (tx_store t) !! id = Some r →
    rc_revision r = publish }.

(** What [touch] leaves: the id is touched, once. *)
Lemma touch_touched id t : NoDup (tx_touched t) →
  ∃ l, (touch id t).1 = set_touched l t ∧ NoDup l ∧ ∀ x, x ∈ l ↔ x = id ∨ x ∈ tx_touched t.
Proof.
  intros Hn. unfold touch, st_modify. cbn. case_bool_decide as Hin.
  - exists (tx_touched t). split; [by destruct t|]. split; [done|]. naive_solver.
  - exists (tx_touched t ++ [id]). split; [done|]. split; [|set_solver].
    apply NoDup_app. split; [done|]. split; [set_solver|apply NoDup_singleton].
Qed.

Lemma touched_inv_touch base publish id t s o :
  touched_inv base publish t → os_inv s →
  tx_touched o = tx_touched t → tx_publish o = tx_publish t → tx_store o = s →
  (∀ x, x ≠ id → os_map s !! x = os_map (tx_store t) !! x) →
  (∀ r, os_map s !! id = Some r → rc_revision r = publish) →
  touched_inv base publish (touch id o).1.
Proof.
  intros I Is Et Ep Es Hsame Hid.
  destruct (touch_touched id o) as (l & -> & Hn & Hl); [rewrite Et; apply I|].
  split; cbn; [by rewrite Es|rewrite Ep; apply I|done| |].
  - intros x Hx. rewrite Hl, Et in Hx. rewrite Es, Hsame by tauto. apply I. tauto.
  - intros x r Hx. rewrite Es. rewrite Hl, Et in Hx. destruct (decide (x = id)) as [->|Hne];
      [apply Hid|]. rewrite Hsame by done. apply (ti_stamp _ _ _ I). tauto.
Qed.

Lemma note_retain_same retains id a t :
  tx_touched (note_retain retains id a t) = tx_touched t ∧
  tx_publish (note_retain retains id a t) = tx_publish t ∧
  tx_store (note_retain retains id a t) = tx_store t.
Proof.
  unfold note_retain. destruct a as [| |c| |]; try done.
  by destruct (retains && has_state (ct_state c) && tx_sink t).
Qed.

Lemma touched_inv_same base publish t t' :
  touched_inv base publish t → os_inv (tx_store t') →
  os_map (tx_store t') = os_map (tx_store t) → tx_touched t' = tx_touched t →
  tx_publish t' = tx_publish t → touched_inv base publish t'.
Proof.
  intros I Is Em Et Ep. split; [done|rewrite Ep; apply I|rewrite Et; apply I| |].
  - intros id. rewrite Et, Em. apply I.
  - intros id r. rewrite Et, Em. apply I.
Qed.

Lemma touched_inv_kept base publish : kept_by_primitives (touched_inv base publish).
Proof.
  split; try by intros; intros t I; eapply touched_inv_same; [exact I|apply I|..].
  - intros t I. unfold allocate_id. destruct (synthetic _); [done|].
    by eapply touched_inv_same; [exact I|apply I|..].
  - intros retains id rid a t I. unfold bind_record. case_bool_decide as Hid; [|done].
    destruct (os_put id _ (tx_store t)) as [s b] eqn:E.
    destruct (os_put_spec _ _ _ _ _ (ti_store _ _ _ I) Hid E) as [Is Hb].
    destruct (note_retain_same retains id a (set_store s t)) as (Et & Ep & Es).
    destruct b as [|e|e].
    + eapply touched_inv_touch; [exact I|exact Is|done..| |]; rewrite Hb.
      * intros x Hx. by apply lookup_insert_ne.
      * intros r. rewrite lookup_insert_eq. intros [= <-]. apply I.
    + by eapply touched_inv_same; [exact I|apply Is|apply Hb|..].
    + eapply touched_inv_same; [exact I|by cbn; rewrite Es|cbn; rewrite Es; apply Hb|done..].
  - intros id t I. unfold erase_record. destruct (os_erase id (tx_store t)) as [s x] eqn:E.
    destruct (os_erase_spec _ _ _ _ (ti_store _ _ _ I) E) as [Is Hx]. destruct x as [[]|e].
    + eapply touched_inv_touch; [exact I|exact Is|done..| |]; rewrite Hx.
      * intros x Hne. by apply lookup_delete_ne.
      * intros r. by rewrite lookup_delete_eq.
    + by eapply touched_inv_same; [exact I|apply Is|apply Hx|..].
  - intros x t I. by eapply touched_inv_same; [exact I|apply I|..].
Qed.

(** over any object store, a transaction that has run any commands -- failed ones
    included -- differs from the version it forked only at ids it recorded as touched,
    once each, and every record bound there carries the revision the commit will
    publish: the stamps of untouched objects are as they were. *)
Theorem commit_stamps_only_touched cs t base
  (I : os_inv (tx_store t)) (Hbase : os_map (tx_store t) = base) (Hfresh : tx_touched t = []) :
  let t' := run_commands cs t in
  NoDup (tx_touched t') ∧
  (∀ id, id ∉ tx_touched t' → os_map (tx_store t') !! id = base !! id) ∧
  (∀ id r, id ∈ tx_touched t' → os_map (tx_store t') !! id = Some r →
     rc_revision r = tx_publish t).
Proof.
  cbv zeta. assert (touched_inv base (tx_publish t) t) as I0.
  { split; rewrite ?Hfresh; [done|done|apply NoDup_nil_2|by rewrite Hbase|].
    intros id r Hin. by apply not_elem_of_nil in Hin. }
  pose proof (run_keeps _ cs t (touched_inv_kept base (tx_publish t)) I0) as I1.
  split; [apply I1|]. split; apply I1.
Qed.
End invariants.

(** ** Witnesses *)

Definition demo_txn : Txn (gmap ObjectId ObjectRecord) :=
  mkTxn ∅ 1 true [] 1 [] [] [] (Ok tt).
Definition demo_commands : list command :=
  [CAddComposition d_one d_one; CAddContent 7; CAddLayer 2 Affine_identity d_one;
   CAttach 1 3 0; CSetIdentity 2 [97; 98] [99]; CSetInputs 2 [3; 1]].

Lemma demo_store_inv : os_inv (tx_store demo_txn).
Proof. exact I. Qed.

