(* ===== verification/DocRoot.v ===== *)
(** The reads of a document version: [DocRoot] in [src/src/model/model.cpp].

    A version is a store and a revision; every read follows edges and moves nothing.
    A member walk takes the bound the chain loops run under, as in [Transaction]. *)

From S2P Require Import Prelude RationalTime Identity Geometry SlotStore Records Transaction.
From stdpp Require Import sorting.

Local Open Scope Z_scope.

Section reads.
Context {S : Type} `{!ObjectStore S}.
Implicit Types (s : S) (id composition : ObjectId) (fuel : nat).

Definition contains id s : expected failure bool :=
  r ← os_find id s; Ok (bool_decide (is_Some r)).

Definition object_revision id s : expected failure Z :=
  r ← os_find id s; Ok (match r with Some r => rc_revision r | None => 0 end).

Definition find_layer id s : expected failure (option LayerRecord) :=
  r ← os_find id s; Ok (r ≫= as_layer).
Definition find_content id s : expected failure (option ContentRecord) :=
  r ← os_find id s; Ok (r ≫= as_content).
Definition find_composition id s : expected failure (option CompositionRecord) :=
  r ← os_find id s; Ok (r ≫= as_composition).

Definition content_state id s : expected failure SlotIndex :=
  c ← find_content id s; Ok (match c with Some c => ct_state c | None => k_state_none end).

(** [text.find] of a NUL: what precedes it and what follows. *)
Fixpoint split_nul (text : list Z) : option (list Z * list Z) :=
  match text with
  | [] => None
  | c :: text =>
      if c =? 0 then Some ([], text)
      else '(before, after) ← split_nul text; Some (c :: before, after)
  end.

Definition content_identity fuel id s : expected failure (list Z * list Z) :=
  c ← find_content id s;
  match c with
  | None => Ok ([], [])
  | Some c =>
      if ct_identity_root c =? 0 then Ok ([], [])
      else
        text ← read_identity_text fuel s (ct_identity_root c);
        Ok (default (text, []) (split_nul text))
  end.

Definition content_inputs fuel id s : expected failure (list ObjectId) :=
  c ← find_content id s;
  match c with
  | None => Ok []
  | Some c =>
      if ct_input_count c =? 0 then Ok []
      else if ct_inputs_root c =? 0 then Ok (take (Z.to_nat (ct_input_count c)) (ct_inputs c))
      else
        chain ← read_chunk_chain KLayerOrderChunk fuel s (ct_inputs_root c);
        Ok (concat (map (fun ch => chunk_members ch.2) chain))
  end.

(** [for_each_layer_in]: the members it visits, in order. *)
Definition for_each_layer_in fuel composition s : expected failure (list ObjectId) :=
  c ← find_composition composition s;
  match c with
  | None => Ok []
  | Some c => order ← read_layer_order fuel s c; Ok order.1
  end.

(** [composition_revision]: the sum of the mixed stamps, on 64 bits. *)
Fixpoint add_stamps s (members : list ObjectId) (acc : Z) : expected failure Z :=
  match members with
  | [] => Ok acc
  | member :: members =>
      stamp ← object_revision member s;
      add_stamps s members (u64 (acc + mix64 stamp))
  end.

Definition composition_revision fuel composition s : expected failure Z :=
  r ← os_find composition s;
  match r with
  | Some r =>
      match as_composition r with
      | Some _ =>
          members ← for_each_layer_in fuel composition s;
          add_stamps s members (mix64 (rc_revision r))
      | None => Ok 0
      end
  | None => Ok 0
  end.

(** The composition the three single-composition reads resolve to: the lowest id among
    the leaves. *)
Definition choose (chosen : option (ObjectId * CompositionRecord))
    (leaf : ObjectId * ObjectRecord) : option (ObjectId * CompositionRecord) :=
  match as_composition leaf.2 with
  | None => chosen
  | Some c =>
      match chosen with
      | None => Some (leaf.1, c)
      | Some (chosen_id, _) => if leaf.1 <? chosen_id then Some (leaf.1, c) else chosen
      end
  end.

Definition find_first_composition s : expected failure (option (ObjectId * CompositionRecord)) :=
  leaves ← os_leaves s; Ok (foldl choose None leaves).

Definition working_space s : expected failure SurfaceFormat :=
  chosen ← find_first_composition s;
  Ok (match chosen with Some (_, c) => cp_working_space c | None => k_working_rgba32f end).

Definition working_audio_format s : expected failure AudioFormat :=
  chosen ← find_first_composition s;
  Ok (match chosen with Some (_, c) => cp_working_audio_format c | None => k_working_audio end).

(** [std::sort] of the leaves by id. *)
Definition leaf_le (a b : ObjectId * ObjectRecord) : Prop := a.1 <= b.1.
#[local] Instance leaf_le_dec : RelDecision leaf_le.
Proof. intros a b. unfold leaf_le. apply _. Defined.

Definition sorted_leaves s : expected failure (list (ObjectId * ObjectRecord)) :=
  leaves ← os_leaves s; Ok (merge_sort leaf_le leaves).

Definition layers_of (leaves : list (ObjectId * ObjectRecord)) : list LayerRecord :=
  omap (fun leaf => as_layer leaf.2) leaves.
Definition contents_of (leaves : list (ObjectId * ObjectRecord)) : list ObjectId :=
  omap (fun leaf => c ← as_content leaf.2; Some (rc_id leaf.2)) leaves.

(** [for_each_layer] and [for_each_content]: what they visit, in order. *)
Definition for_each_layer s : expected failure (list LayerRecord) :=
  leaves ← sorted_leaves s; Ok (layers_of leaves).
Definition for_each_content s : expected failure (list ObjectId) :=
  leaves ← sorted_leaves s; Ok (contents_of leaves).
End reads.

(** ** The reads are those of the map *)

Section spec.
Context {S : Type} `{!ObjectStore S, !ObjectLaws S}.
Implicit Types (s : S) (m : gmap ObjectId ObjectRecord).

(** The composition of lowest id. *)
Definition lowest m (x : option (ObjectId * CompositionRecord)) : Prop :=
  match x with
  | None => ∀ id r, m !! id = Some r → as_composition r = None
  | Some (id, c) =>
      (∃ r, m !! id = Some r ∧ as_composition r = Some c) ∧
      ∀ id' r', m !! id' = Some r' → is_Some (as_composition r') → id <= id'
  end.

Lemma choose_spec leaves : ∀ seen acc,
  (match acc with
   | None => ∀ id r, (id, r) ∈ seen → as_composition r = None
   | Some (id, c) => (∃ r, (id, r) ∈ seen ∧ as_composition r = Some c) ∧
       ∀ id' r', (id', r') ∈ seen → is_Some (as_composition r') → id <= id'
   end) →
  match foldl choose acc leaves with
  | None => ∀ id r, (id, r) ∈ seen ++ leaves → as_composition r = None
  | Some (id, c) => (∃ r, (id, r) ∈ seen ++ leaves ∧ as_composition r = Some c) ∧
      ∀ id' r', (id', r') ∈ seen ++ leaves → is_Some (as_composition r') → id <= id'
  end.
Proof.
  induction leaves as [|[k r] leaves IH]; intros seen acc Ha; cbn [foldl].
  { rewrite app_nil_r. done. }
  replace (seen ++ (k, r) :: leaves) with ((seen ++ [(k, r)]) ++ leaves) in *
    by (rewrite <- app_assoc; done).
  apply IH. unfold choose. cbn [fst snd].
  destruct (as_composition r) as [c|] eqn:Er.
  - destruct acc as [[id c0]|].
    + destruct Ha as [(r0 & H0 & E0) Hmin]. destruct (Z.ltb_spec k id) as [Hlt|Hge].
      * split; [set_solver|]. intros id' r' Hin Hs. apply elem_of_app in Hin as [Hin|Hin].
        -- pose proof (Hmin _ _ Hin Hs). lia.
        -- apply list_elem_of_singleton in Hin as [= -> ->]. lia.
      * split; [set_solver|]. intros id' r' Hin Hs. apply elem_of_app in Hin as [Hin|Hin].
        -- by eapply Hmin.
        -- apply list_elem_of_singleton in Hin as [= -> ->]. lia.
    + split; [set_solver|]. intros id' r' Hin Hs. apply elem_of_app in Hin as [Hin|Hin].
      * rewrite (Ha _ _ Hin) in Hs. by destruct Hs.
      * apply list_elem_of_singleton in Hin as [= -> ->]. lia.
  - destruct acc as [[id c0]|].
    + destruct Ha as [(r0 & H0 & E0) Hmin]. split; [set_solver|]. intros id' r' Hin Hs.
      apply elem_of_app in Hin as [Hin|Hin]; [by eapply Hmin|].
      apply list_elem_of_singleton in Hin as [= -> ->]. rewrite Er in Hs. by destruct Hs.
    + intros id r' Hin. apply elem_of_app in Hin as [Hin|Hin]; [by eapply Ha|].
      by apply list_elem_of_singleton in Hin as [= -> ->].
Qed.

Lemma find_first_composition_spec s : os_inv s →
  ∃ x, find_first_composition s = Ok x ∧ lowest (os_map s) x.
Proof.
  intros I. destruct (os_leaves_spec s I) as (l & El & Hl).
  unfold find_first_composition. rewrite El. eexists. split; [done|].
  pose proof (choose_spec l [] None) as Hc. cbn [app] in Hc.
  assert (∀ id r, (id, r) ∈ l ↔ os_map s !! id = Some r) as Hel.
  { intros id r. by rewrite Hl, elem_of_map_to_list. }
  assert (∀ (id : ObjectId) (r : ObjectRecord), (id, r) ∈ [] → as_composition r = None) as Hnil.
  { intros id r Hin. by apply not_elem_of_nil in Hin. }
  specialize (Hc Hnil). destruct (foldl choose None l) as [[id c]|]; cbn [lowest].
  - destruct Hc as [(r & Hin & Er) Hmin]. split; [exists r; by rewrite <- Hel|].
    intros id' r' Hin'. rewrite <- Hel in Hin'. by apply Hmin.
  - intros id r Hin. rewrite <- Hel in Hin. by eapply Hc.
Qed.

Lemma sorted_leaves_spec s : os_inv s →
  ∃ l, sorted_leaves s = Ok l ∧ l ≡ₚ map_to_list (os_map s) ∧ StronglySorted leaf_le l.
Proof.
  intros I. destruct (os_leaves_spec s I) as (l & El & Hl).
  unfold sorted_leaves. rewrite El. eexists. split; [done|]. split.
  - by rewrite merge_sort_Permutation.
  - apply StronglySorted_merge_sort.
    + intros a b c. unfold leaf_le. lia.
    + intros a b. unfold leaf_le. lia.
Qed.

(** the reads that walk the whole version do not depend on the tree's shape: the
    single-composition reads resolve to the composition of lowest id (and the default
    formats where there is none), and the layer and content walks visit every layer and
    content once, in ascending order of id. *)
Theorem version_walks s (I : os_inv s) :
  (∃ x, find_first_composition s = Ok x ∧ lowest (os_map s) x ∧
     working_space s = Ok (default k_working_rgba32f (cp_working_space ∘ snd <$> x)) ∧
     working_audio_format s = Ok (default k_working_audio (cp_working_audio_format ∘ snd <$> x))) ∧
  (∃ l, for_each_layer s = Ok (layers_of l) ∧ for_each_content s = Ok (contents_of l) ∧
     StronglySorted (fun a b => a.1 < b.1) l ∧
     ∀ id r, (id, r) ∈ l ↔ os_map s !! id = Some r).
Proof.
  split.
  - destruct (find_first_composition_spec s I) as (x & Ex & Hx). exists x.
    unfold working_space, working_audio_format. rewrite Ex. by destruct x as [[id c]|].
  - destruct (sorted_leaves_spec s I) as (l & El & Hl & Hs). exists l.
    unfold for_each_layer, for_each_content. rewrite El. split; [done|]. split; [done|].
    assert (NoDup l.*1) as Hn by (rewrite Hl; apply NoDup_fst_map_to_list).
    split; [|intros id r; by rewrite Hl, elem_of_map_to_list].
    clear -Hs Hn. induction Hs as [|a l Hs IH Ha]; [constructor|]. cbn in Hn.
    apply NoDup_cons in Hn as [Ha' Hn]. constructor; [by apply IH|].
    apply Forall_forall. intros b Hb. rewrite Forall_forall in Ha. pose proof (Ha b Hb) as Hle.
    unfold leaf_le in Hle. assert (a.1 ≠ b.1); [|lia]. intros E. apply Ha'. rewrite E.
    by apply list_elem_of_fmap_2.
Qed.
End spec.

Definition demo_version : gmap ObjectId ObjectRecord :=
  {[7 := mkRecord 7 3 (AsComposition (new_composition d_one d_one));
    2 := mkRecord 2 1 (AsContent (new_content 5))]}.
