(* ===== verification/Membership.v ===== *)
(** Chunk chains: layer membership, content identity and content inputs.

    A document's lists live in chains of ordinary chunk records, headed by id from their
    owner.  [arranged A m n] is the invariant of a document [m] whose ids are below the
    counter [n]: the arrangement [A] gives, for each list an owner stores, the ids of its
    chunks and its elements; the records spell them, and no chunk serves two lists.  The
    file shows that the transaction's list edits keep it, change exactly one list, and
    are read back. *)

From S2P Require Import Prelude RationalTime Identity Geometry.
From S2P Require Import SlotStore Records Transaction DocRoot.

Local Open Scope Z_scope.

Notation doc := (gmap ObjectId ObjectRecord).

(** ** Slices *)

Section slices.
Implicit Types (l : list Z) (cap p : nat).

Lemma slice_eq cap p l : slice cap p l = take cap (drop (p * cap) l).
Proof.
  unfold slice. destruct (le_lt_dec cap (length l - p * cap)).
  - by rewrite Nat.min_l.
  - rewrite Nat.min_r by lia. rewrite <- length_drop, firstn_all.
    rewrite take_ge; [done|]. rewrite length_drop. lia.
Qed.

Lemma length_slice cap p l : length (slice cap p l) = Nat.min cap (length l - p * cap).
Proof. by rewrite slice_eq, length_take, length_drop. Qed.

Lemma length_pad cap l : (length l <= cap)%nat → length (pad cap l) = cap.
Proof. intros Hl. unfold pad. rewrite length_app, length_replicate. lia. Qed.

Lemma take_pad cap l : take (length l) (pad cap l) = l.
Proof. unfold pad. by rewrite take_app_length. Qed.

Lemma chunk_count_pos n cap : (0 < cap → 0 < n → 0 < chunk_count n cap)%nat.
Proof. intros Hc Hn. unfold chunk_count. apply Nat.div_str_pos. lia. Qed.

Lemma chunk_count_lt n cap p :
  (0 < cap)%nat → ((p < chunk_count n cap)%nat ↔ (p * cap < n)%nat).
Proof.
  intros Hc. unfold chunk_count. split; intros Hp.
  - pose proof (Nat.Div0.mul_div_le (n + cap - 1) cap). nia.
  - apply Nat.div_le_lower_bound; [lia|]. nia.
Qed.

Lemma chunk_count_0 cap : (0 < cap)%nat → chunk_count 0 cap = 0%nat.
Proof. intros Hc. unfold chunk_count. apply Nat.div_small. lia. Qed.

(** The slices from position [p] on spell the rest of the list. *)
Lemma slices_spell cap l : (0 < cap)%nat → ∀ k p, (length l <= (p + k) * cap)%nat →
  concat (map (fun q => slice cap q l) (seq p k)) = drop (p * cap) l.
Proof.
  intros Hc. induction k as [|k IH]; intros p Hk.
  - cbn. rewrite drop_ge; [done|lia].
  - cbn [seq map concat]. rewrite IH by lia. rewrite slice_eq.
    replace (S p * cap)%nat with (p * cap + cap)%nat by lia.
    rewrite <- drop_drop. apply take_drop.
Qed.
End slices.

(** ** Chains *)

(** What distinguishes the chunks of one use: the kind, the capacity, the payload of a
    slice, and how a reader takes it apart. *)
Record chunking := mkChunking {
  ch_kind : RecordKind;
  ch_cap : nat;
  ch_payload : list Z → ObjectId → payload;
  ch_elements : ObjectRecord → list Z }.

Definition order_chunking : chunking :=
  mkChunking KLayerOrderChunk k_max_inline_layers order_chunk chunk_members.
Definition text_chunking (total : nat) : chunking :=
  mkChunking KTextChunk k_text_chunk_bytes (text_chunk total) chunk_text.

Record chunking_ok (k : chunking) : Prop := {
  co_cap : (0 < ch_cap k)%nat;
  co_kind l next : kind_of (ch_payload k l next) = ch_kind k;
  co_next l next : chunk_next (ch_payload k l next) = next;
  co_elements l next r : (length l <= ch_cap k)%nat → rc_as r = ch_payload k l next →
    ch_elements k r = l }.

Lemma order_chunking_ok : chunking_ok order_chunking.
Proof.
  split; cbn; [unfold k_max_inline_layers; lia|done|done|].
  intros l next r Hl Hr. unfold chunk_members. rewrite Hr. cbn.
  rewrite Nat2Z.id. apply take_pad.
Qed.

Lemma text_chunking_ok total : chunking_ok (text_chunking total).
Proof.
  split; cbn; [unfold k_text_chunk_bytes; lia|done|done|].
  intros l next r Hl Hr. unfold chunk_text. rewrite Hr. cbn [text_chunk tx_count tx_bytes].
  rewrite Nat2Z.id, Nat.min_l by done. apply take_pad.
Qed.

(** Increasing ids above [lo]. *)
Fixpoint ascending (lo : Z) (ids : list ObjectId) : Prop :=
  match ids with
  | [] => True
  | id :: ids => lo < id ∧ ascending id ids
  end.

Record chunked (k : chunking) (m : doc) (ids : list ObjectId) (l : list Z) : Prop := {
  ck_ascending : ascending 0 ids;
  ck_length : length ids = chunk_count (length l) (ch_cap k);
  ck_at p id : ids !! p = Some id → ∃ r, m !! id = Some r ∧
    rc_as r = ch_payload k (slice (ch_cap k) p l) (default 0 (ids !! S p)) }.

Section ascending.
Implicit Types (ids : list ObjectId) (lo : Z).

Lemma ascending_weaken lo lo' ids : lo' <= lo → ascending lo ids → ascending lo' ids.
Proof. destruct ids; cbn; [done|]. intros Hl [H1 H2]. split; [lia|done]. Qed.

Lemma ascending_above lo ids id : ascending lo ids → id ∈ ids → lo < id.
Proof.
  revert lo. induction ids as [|i ids IH]; intros lo Ha Hin; [by apply not_elem_of_nil in Hin|].
  destruct Ha as [Hl Ha]. apply elem_of_cons in Hin as [->|Hin]; [done|].
  pose proof (IH _ Ha Hin). lia.
Qed.

Lemma ascending_nodup lo ids : ascending lo ids → NoDup ids.
Proof.
  revert lo. induction ids as [|i ids IH]; intros lo Ha; [apply NoDup_nil_2|].
  destruct Ha as [_ Ha]. apply list.NoDup_cons. split; [|by eapply IH].
  intros Hin. pose proof (ascending_above _ _ _ Ha Hin). lia.
Qed.

Lemma ascending_length lo ids n :
  ascending lo ids → (∀ id, id ∈ ids → id < n) → lo < n → Z.of_nat (length ids) < n - lo.
Proof.
  revert lo. induction ids as [|i ids IH]; intros lo Ha Hn Hlo; cbn [length]; [lia|].
  destruct Ha as [Hl Ha]. pose proof (Hn i ltac:(apply list_elem_of_here)) as Hi.
  pose proof (IH i Ha ltac:(intros; apply Hn; by apply list_elem_of_further) Hi). lia.
Qed.

Lemma ascending_take lo ids k : ascending lo ids → ascending lo (take k ids).
Proof.
  revert lo ids. induction k as [|k IH]; intros lo ids Ha; [done|].
  destruct ids as [|i ids]; [done|]. destruct Ha. by split; [|apply IH].
Qed.

Lemma ascending_app lo ids ids' n :
  ascending lo ids → (∀ id, id ∈ ids → id < n) → lo < n → ascending (n - 1) ids' →
  ascending lo (ids ++ ids').
Proof.
  revert lo. induction ids as [|i ids IH]; intros lo Ha Hn Hlo Ha'.
  - eapply ascending_weaken; [|exact Ha']. lia.
  - destruct Ha as [Hl Ha]. split; [done|]. pose proof (Hn i ltac:(apply list_elem_of_here)).
    apply IH; [done| |done|done]. intros id Hin. apply Hn. by apply list_elem_of_further.
Qed.

Lemma ascending_seqZ n k : ascending (n - 1) (seqZ n (Z.of_nat k)).
Proof.
  revert n. induction k as [|k IH]; intros n; [done|].
  rewrite seqZ_cons by lia. cbn. split; [lia|].
  replace (Z.pred (Z.of_nat (S k))) with (Z.of_nat k) by lia.
  eapply ascending_weaken; [|apply (IH (Z.succ n))]. lia.
Qed.
End ascending.

Section reading.
Context (k : chunking) (Hk : chunking_ok k).
Implicit Types (m : doc) (ids : list ObjectId) (l : list Z).

Lemma chunked_id_pos m ids l p id : chunked k m ids l → ids !! p = Some id → 0 < id.
Proof.
  intros Hc Hp. eapply ascending_above; [apply (ck_ascending _ _ _ _ Hc)|].
  by eapply list_elem_of_lookup_2.
Qed.

Lemma chunked_slice_length l p : (length (slice (ch_cap k) p l) <= ch_cap k)%nat.
Proof. rewrite length_slice. lia. Qed.

Lemma read_chunked m ids l : chunked k m ids l → ∀ n p fuel,
  (length ids - p = n)%nat → (n <= fuel)%nat →
  ∃ rs, read_chunk_chain (ch_kind k) fuel m (default 0 (ids !! p)) = Ok rs ∧
    map fst rs = drop p ids ∧
    map (fun c => ch_elements k c.2) rs = map (fun q => slice (ch_cap k) q l) (seq p n).
Proof.
  intros Hc. induction n as [|n IH]; intros p fuel Hn Hf.
  - rewrite lookup_ge_None_2 by lia. exists []. destruct fuel; cbn; rewrite drop_ge by lia; done.
  - destruct (ids !! p) as [id|] eqn:Hp; [|apply lookup_ge_None in Hp; lia].
    destruct fuel as [|fuel]; [lia|].
    destruct (ck_at _ _ _ _ Hc p id Hp) as (r & Hr & Er).
    destruct (IH (S p) fuel) as (rs & Ers & Hfst & Hel); [lia|lia|].
    exists ((id, r) :: rs). change (default 0 (Some id)) with id. cbn [read_chunk_chain].
    rewrite (proj2 (Z.eqb_neq id 0)) by (pose proof (chunked_id_pos _ _ _ _ _ Hc Hp); lia).
    change (os_find id m) with (Ok (E := failure) (m !! id)). cbn [mbind expected_bind].
    rewrite Hr, Er, (co_kind k Hk), bool_decide_eq_true_2 by done.
    rewrite (co_next k Hk). rewrite Ers. split; [done|]. split.
    + cbn. rewrite Hfst. symmetry. by apply drop_S.
    + cbn [map seq]. f_equal; [|done]. cbn.
      eapply (co_elements k Hk); [apply chunked_slice_length|exact Er].
Qed.

(** A chain reads back as its list, with enough fuel for its ids. *)
Lemma read_chunked_head m ids l fuel n :
  chunked k m ids l → (∀ id, id ∈ ids → id < n) → 0 < n → (Z.to_nat n <= fuel)%nat →
  ∃ rs, read_chunk_chain (ch_kind k) fuel m (default 0 (ids !! 0%nat)) = Ok rs ∧
    map fst rs = ids ∧ concat (map (fun c => ch_elements k c.2) rs) = l.
Proof.
  intros Hc Hn Hn0 Hf. pose proof (ascending_length _ _ _ (ck_ascending _ _ _ _ Hc) Hn Hn0).
  destruct (read_chunked m ids l Hc (length ids) 0 fuel) as (rs & E & Hfst & Hel); [lia|lia|].
  exists rs. split; [done|]. split; [by rewrite Hfst, drop_0|].
  rewrite Hel, slices_spell; [by rewrite drop_0|apply (co_cap k Hk)|].
  rewrite (ck_length _ _ _ _ Hc). cbn. pose proof (co_cap k Hk) as Hcap.
  destruct (le_lt_dec (length l) (chunk_count (length l) (ch_cap k) * ch_cap k)); [done|].
  apply (chunk_count_lt _ _ _ Hcap) in l0. lia.
Qed.

(** Only the chunks themselves matter. *)
Lemma chunked_frame m m' ids l :
  chunked k m ids l → (∀ id, id ∈ ids → m' !! id = m !! id) → chunked k m' ids l.
Proof.
  intros Hc Hm. split; [apply Hc|apply Hc|]. intros p id Hp.
  rewrite Hm by (by eapply list_elem_of_lookup_2). by apply (ck_at _ _ _ _ Hc).
Qed.

Lemma chunked_record m ids l id :
  chunked k m ids l → id ∈ ids → ∃ r, m !! id = Some r ∧ kind_of (rc_as r) = ch_kind k.
Proof.
  intros Hc Hin. apply list_elem_of_lookup in Hin as [p Hp].
  destruct (ck_at _ _ _ _ Hc p id Hp) as (r & Hr & Er). exists r. split; [done|].
  rewrite Er. apply (co_kind k Hk).
Qed.

Lemma chunked_nil m : chunked k m [] [].
Proof. split; [done|by rewrite chunk_count_0 by apply (co_cap k Hk)|]. by intros p id ?. Qed.

Lemma chunked_head_pos m ids l :
  chunked k m ids l → l ≠ [] → 0 < default 0 (ids !! 0%nat).
Proof.
  intros Hc Hl. destruct ids as [|id ids].
  - pose proof (ck_length _ _ _ _ Hc) as E. cbn in E. exfalso.
    pose proof (chunk_count_pos (length l) (ch_cap k) (co_cap k Hk)) as Hp.
    destruct l; [done|]. cbn [length] in *. lia.
  - cbn. by eapply (chunked_id_pos m (id :: ids) l 0).
Qed.
End reading.

(** ** The lists a document's records own *)

Inductive field := Members | Of_content (ch : content_chain).

#[export] Instance content_chain_eq_dec : EqDecision content_chain.
Proof. solve_decision. Defined.
#[export] Instance field_eq_dec : EqDecision field.
Proof. solve_decision. Defined.

Definition has_field (a : payload) (f : field) : Prop :=
  match a, f with
  | AsComposition _, Members => True
  | AsContent _, Of_content _ => True
  | _, _ => False
  end.

Definition is_chunk (a : payload) : bool :=
  match a with AsOrder _ | AsText _ => true | _ => false end.

(** A composition's members: inline up to the cap, else in a chain. *)
Definition stores_members (m : doc) (c : CompositionRecord) (ids : list ObjectId) (l : list Z) : Prop :=
  cp_layer_count c = u32 (Z.of_nat (length l)) ∧
  (((length l <= k_max_inline_layers)%nat ∧ ids = [] ∧ cp_spill_root c = 0 ∧
    cp_layers c = pad k_max_inline_layers l) ∨
   ((k_max_inline_layers < length l)%nat ∧ chunked order_chunking m ids l ∧
    cp_spill_root c = default 0 (ids !! 0%nat) ∧ cp_layers c = pad k_max_inline_layers [])).

(** A content's identity text: always in a chain. *)
Definition stores_identity (m : doc) (c : ContentRecord) (ids : list ObjectId) (l : list Z) : Prop :=
  chunked (text_chunking (length l)) m ids l ∧ ct_identity_root c = default 0 (ids !! 0%nat).

(** A content's inputs: inline up to the cap, else in a chain. *)
Definition stores_inputs (m : doc) (c : ContentRecord) (ids : list ObjectId) (l : list Z) : Prop :=
  ct_input_count c = u32 (Z.of_nat (length l)) ∧
  (((length l <= k_max_inline_inputs)%nat ∧ ids = [] ∧ ct_inputs_root c = 0 ∧
    ct_inputs c = pad k_max_inline_inputs l) ∨
   ((k_max_inline_inputs < length l)%nat ∧ chunked order_chunking m ids l ∧
    ct_inputs_root c = default 0 (ids !! 0%nat) ∧ ct_inputs c = pad k_max_inline_inputs [])).

Definition stores (m : doc) (a : payload) (f : field) (ids : list ObjectId) (l : list Z) : Prop :=
  match a, f with
  | AsComposition c, Members => stores_members m c ids l
  | AsContent c, Of_content Identity_chain => stores_identity m c ids l
  | AsContent c, Of_content Inputs_chain => stores_inputs m c ids l
  | _, _ => False
  end.

(** An arrangement: the chunk ids and the elements of every list. *)
Definition arrangement : Type := ObjectId → field → list ObjectId * list Z.

Definition rearrange (A : arrangement) (id : ObjectId) (f : field) (x : list ObjectId * list Z) :
    arrangement :=
  fun id' f' => if bool_decide (id' = id ∧ f' = f) then x else A id' f'.

Record arranged (A : arrangement) (m : doc) (n : Z) : Prop := {
  ar_counter : 0 < n <= 2 ^ 63;
  ar_ids id r : m !! id = Some r → rc_id r = id ∧ 0 < id < n;
  ar_stores id r f : m !! id = Some r → has_field (rc_as r) f →
    stores m (rc_as r) f (A id f).1 (A id f).2;
  ar_disjoint id r f id' r' f' :
    m !! id = Some r → has_field (rc_as r) f → m !! id' = Some r' → has_field (rc_as r') f' →
    (id, f) ≠ (id', f') → ∀ x, x ∈ (A id f).1 → x ∉ (A id' f').1 }.

Section arrangements.
Implicit Types (m : doc) (A : arrangement) (n : Z) (ids : list ObjectId) (l : list Z).

Lemma stores_frame m m' a f ids l :
  stores m a f ids l → (∀ id, id ∈ ids → m' !! id = m !! id) → stores m' a f ids l.
Proof.
  intros Hs Hm. destruct a as [c| |c| |], f as [|[]]; try done; cbn in *.
  - destruct Hs as [E [H|(H1 & H2 & H3)]]; split; [done|by left|done|right].
    split; [done|]. split; [by eapply chunked_frame|done].
  - destruct Hs as [Hc E]. split; [by eapply chunked_frame|done].
  - destruct Hs as [E [H|(H1 & H2 & H3)]]; split; [done|by left|done|right].
    split; [done|]. split; [by eapply chunked_frame|done].
Qed.

(** The ids of a list are those of chunk records, which own no list. *)
Lemma stores_chunk m a f ids l id :
  stores m a f ids l → id ∈ ids → ∃ r, m !! id = Some r ∧ is_chunk (rc_as r) = true.
Proof.
  assert (∀ k, chunking_ok k → ch_kind k = KLayerOrderChunk ∨ ch_kind k = KTextChunk →
    chunked k m ids l → id ∈ ids → ∃ r, m !! id = Some r ∧ is_chunk (rc_as r) = true) as Hc.
  { intros k Hk Hkind Hc Hin. destruct (chunked_record k Hk m ids l id Hc Hin) as (r & Hr & E).
    exists r. split; [done|]. rewrite <- E in Hkind.
    destruct (rc_as r); cbn in Hkind |- *; by destruct Hkind. }
  pose proof order_chunking_ok. pose proof (text_chunking_ok (length l)).
  intros Hs Hin. destruct a as [c| |c| |], f as [|[]]; try done; cbn in Hs.
  - destruct Hs as [_ [(_ & -> & _)|(_ & H2 & _)]]; [by apply not_elem_of_nil in Hin|].
    eapply (Hc order_chunking); [done|by left|done|done].
  - destruct Hs as [H1 _]. eapply (Hc (text_chunking _)); [done|by right|done|done].
  - destruct Hs as [_ [(_ & -> & _)|(_ & H2 & _)]]; [by apply not_elem_of_nil in Hin|].
    eapply (Hc order_chunking); [done|by left|done|done].
Qed.

Lemma has_field_not_chunk a f : has_field a f → is_chunk a = false.
Proof. by destruct a, f. Qed.

Lemma arranged_chunk A m n id r f x :
  arranged A m n → m !! id = Some r → has_field (rc_as r) f → x ∈ (A id f).1 →
  0 < x < n ∧ ∃ rx, m !! x = Some rx ∧ is_chunk (rc_as rx) = true.
Proof.
  intros Ar Hm Hf Hx. destruct (stores_chunk _ _ _ _ _ x (ar_stores _ _ _ Ar _ _ _ Hm Hf) Hx)
    as (rx & Hrx & Hno). split; [by eapply (ar_ids _ _ _ Ar)|by exists rx].
Qed.

Lemma rearrange_eq A id f x : rearrange A id f x id f = x.
Proof. unfold rearrange. by rewrite bool_decide_eq_true_2. Qed.

Lemma rearrange_ne A id f x id' f' : (id', f') ≠ (id, f) → rearrange A id f x id' f' = A id' f'.
Proof.
  intros Hne. unfold rearrange. rewrite bool_decide_eq_false_2; [done|]. naive_solver.
Qed.
End arrangements.

(** Rewriting one list of one owner: what must be said of the new document. *)
Record rewrites (A : arrangement) (m m' : doc) (n n' : Z) (c : ObjectId) (f : field)
    (r r' : ObjectRecord) (ids : list ObjectId) (l : list Z) : Prop := {
  rw_counter : n <= n' <= 2 ^ 63;
  rw_owner : m' !! c = Some r';
  rw_owner_id : rc_id r' = c;
  rw_fields g : has_field (rc_as r') g ↔ has_field (rc_as r) g;
  rw_others g ids' l' : g ≠ f → stores m' (rc_as r) g ids' l' → stores m' (rc_as r') g ids' l';
  rw_stores : stores m' (rc_as r') f ids l;
  rw_ids x : x ∈ ids → x ∈ (A c f).1 ∨ n <= x;
  rw_same x : x ≠ c → x ∉ (A c f).1 → x ∉ ids → m' !! x = m !! x;
  rw_chunks x rx : x ∈ (A c f).1 ∨ x ∈ ids → m' !! x = Some rx →
    rc_id rx = x ∧ 0 < x < n' ∧ is_chunk (rc_as rx) = true }.

Section updates.
Context (A : arrangement) (m m' : doc) (n n' : Z) (c : ObjectId) (f : field) (r r' : ObjectRecord)
  (ids : list ObjectId) (l : list Z).
Context (Ar : arranged A m n) (Hc : m !! c = Some r) (Hf : has_field (rc_as r) f).
Context (Rw : rewrites A m m' n n' c f r r' ids l).

Lemma rewrites_new x : x ∈ ids → x ∈ (A c f).1 ∨ n <= x.
Proof. apply Rw. Qed.

(** An owner of the new document was one, and only [c] has a new record. *)
Lemma rewrites_owners id rx g : m' !! id = Some rx → has_field (rc_as rx) g →
  ∃ ro, m !! id = Some ro ∧ has_field (rc_as ro) g ∧ (id ≠ c → ro = rx) ∧ (id = c → ro = r).
Proof.
  intros Hid Hg. destruct (decide (id = c)) as [->|Hne].
  - exists r. rewrite (rw_owner _ _ _ _ _ _ _ _ _ _ _ Rw) in Hid. injection Hid as <-.
    apply (rw_fields _ _ _ _ _ _ _ _ _ _ _ Rw) in Hg. done.
  - exists rx. split; [|done]. rewrite <- (rw_same _ _ _ _ _ _ _ _ _ _ _ Rw); [done|done|..];
      intros Hin; destruct (rw_chunks _ _ _ _ _ _ _ _ _ _ _ Rw id rx) as (_ & _ & Hno);
      eauto; rewrite (has_field_not_chunk _ _ Hg) in Hno; done.
Qed.

(** The chunks of the other lists are untouched. *)
Lemma rewrites_frame id ro g x :
  m !! id = Some ro → has_field (rc_as ro) g → (id, g) ≠ (c, f) → x ∈ (A id g).1 →
  x ∉ ids ∧ m' !! x = m !! x.
Proof.
  intros Hid Hg Hne Hx.
  destruct (arranged_chunk _ _ _ _ _ _ _ Ar Hid Hg Hx) as (Hxn & rx & Hrx & Hno).
  assert (x ∉ (A c f).1) as H1 by (by eapply (ar_disjoint _ _ _ Ar id ro g c r f)).
  assert (x ∉ ids) as H2 by (intros Hin; destruct (rewrites_new _ Hin); [done|lia]).
  split; [done|]. apply (rw_same _ _ _ _ _ _ _ _ _ _ _ Rw); [|done|done].
  intros ->. rewrite Hc in Hrx. injection Hrx as <-.
  by rewrite (has_field_not_chunk _ _ Hf) in Hno.
Qed.

Lemma rewrites_ids id rx : m' !! id = Some rx → rc_id rx = id ∧ 0 < id < n'.
Proof.
  intros Hid. pose proof (rw_counter _ _ _ _ _ _ _ _ _ _ _ Rw).
  destruct (decide (id = c)) as [->|Hne].
  { rewrite (rw_owner _ _ _ _ _ _ _ _ _ _ _ Rw) in Hid. injection Hid as <-.
    pose proof (ar_ids _ _ _ Ar _ _ Hc).
    split; [apply (rw_owner_id _ _ _ _ _ _ _ _ _ _ _ Rw)|lia]. }
  destruct (decide (id ∈ (A c f).1 ∨ id ∈ ids)) as [Hin|Hin].
  - destruct (rw_chunks _ _ _ _ _ _ _ _ _ _ _ Rw id rx Hin Hid) as (H1 & H2 & _). done.
  - rewrite (rw_same _ _ _ _ _ _ _ _ _ _ _ Rw) in Hid by tauto.
    destruct (ar_ids _ _ _ Ar _ _ Hid). split; [done|lia].
Qed.

Lemma rewrites_stores id rx g : m' !! id = Some rx → has_field (rc_as rx) g →
  stores m' (rc_as rx) g (rearrange A c f (ids, l) id g).1 (rearrange A c f (ids, l) id g).2.
Proof.
  intros Hid Hg. destruct (rewrites_owners _ _ _ Hid Hg) as (ro & Hro & Hgo & Hne & Heq).
  destruct (decide ((id, g) = (c, f))) as [[= -> ->]|Hd].
  - rewrite rearrange_eq. rewrite (rw_owner _ _ _ _ _ _ _ _ _ _ _ Rw) in Hid.
    injection Hid as <-. apply (rw_stores _ _ _ _ _ _ _ _ _ _ _ Rw).
  - rewrite rearrange_ne by done.
    assert (stores m' (rc_as ro) g (A id g).1 (A id g).2) as Hst.
    { apply (stores_frame m); [by apply (ar_stores _ _ _ Ar)|].
      intros x Hx. by eapply rewrites_frame. }
    destruct (decide (id = c)) as [->|Hn']; [|by rewrite <- Hne].
    rewrite (rw_owner _ _ _ _ _ _ _ _ _ _ _ Rw) in Hid. injection Hid as <-.
    rewrite (Heq eq_refl) in Hst. apply (rw_others _ _ _ _ _ _ _ _ _ _ _ Rw); [|done].
    intros ->. by apply Hd.
Qed.

Lemma arranged_rewrites : arranged (rearrange A c f (ids, l)) m' n'.
Proof.
  split; [pose proof (ar_counter _ _ _ Ar); pose proof (rw_counter _ _ _ _ _ _ _ _ _ _ _ Rw); lia
    |apply rewrites_ids|apply rewrites_stores|].
  intros id rx g id' rx' g' Hid Hg Hid' Hg' Hne x Hx Hx'.
  destruct (rewrites_owners _ _ _ Hid Hg) as (ro & Hro & Hgo & _).
  destruct (rewrites_owners _ _ _ Hid' Hg') as (ro' & Hro' & Hgo' & _).
  destruct (decide ((id, g) = (c, f))) as [[= -> ->]|Hd];
    [rewrite rearrange_eq in Hx|rewrite rearrange_ne in Hx by done].
  - rewrite rearrange_ne in Hx' by congruence.
    by destruct (rewrites_frame _ _ _ _ Hro' Hgo' ltac:(congruence) Hx').
  - destruct (decide ((id', g') = (c, f))) as [[= -> ->]|Hd'];
      [rewrite rearrange_eq in Hx'|rewrite rearrange_ne in Hx' by done].
    + by destruct (rewrites_frame _ _ _ _ Hro Hgo Hd Hx).
    + by eapply (ar_disjoint _ _ _ Ar id ro g id' ro' g').
Qed.
End updates.

(** A document changed at one id that is no chunk. *)
Section one_id.
Context (A : arrangement) (m : doc) (n : Z) (Ar : arranged A m n).

Lemma arranged_at (A' : arrangement) (m' : doc) (c : ObjectId) :
  (∀ x, x ≠ c → m' !! x = m !! x) →
  (∀ r, m !! c = Some r → is_chunk (rc_as r) = false) →
  (∀ x g, x ≠ c → A' x g = A x g) →
  (∀ r', m' !! c = Some r' → rc_id r' = c ∧ 0 < c < n ∧
     ∀ g, has_field (rc_as r') g → stores m' (rc_as r') g (A' c g).1 (A' c g).2 ∧
       ((A' c g).1 = [] ∨ ∃ r, m !! c = Some r ∧ has_field (rc_as r) g ∧ (A' c g).1 = (A c g).1)) →
  arranged A' m' n.
Proof.
  intros Hm Hc HA Hnew.
  assert (∀ id r g x, m' !! id = Some r → has_field (rc_as r) g → x ∈ (A' id g).1 →
    ∃ ro, m !! id = Some ro ∧ has_field (rc_as ro) g ∧ x ∈ (A id g).1) as Hold.
  { intros id r g x Hid Hg Hx. destruct (decide (id = c)) as [->|Hne].
    - destruct (Hnew _ Hid) as (_ & _ & Hs).
      destruct (Hs g Hg) as [_ [E|(ro & H1 & H2 & E)]]; rewrite E in Hx;
        [by apply not_elem_of_nil in Hx|by exists ro].
    - rewrite Hm in Hid by done. rewrite HA in Hx by done. by exists r. }
  split.
  - apply Ar.
  - intros id r Hid. destruct (decide (id = c)) as [->|Hne].
    + destruct (Hnew _ Hid) as (H1 & H2 & _). done.
    + rewrite Hm in Hid by done. by apply Ar.
  - intros id r g Hid Hg. destruct (decide (id = c)) as [->|Hne].
    + destruct (Hnew _ Hid) as (_ & _ & Hs). apply (Hs g Hg).
    + rewrite Hm in Hid by done. rewrite HA by done. eapply stores_frame; [by apply Ar|].
      intros x Hx. apply Hm. intros ->.
      destruct (arranged_chunk _ _ _ _ _ _ _ Ar Hid Hg Hx) as (_ & rx & Hrx & Hch).
      by rewrite (Hc _ Hrx) in Hch.
  - intros id r g id' r' g' Hid Hg Hid' Hg' Hne x Hx Hx'.
    destruct (Hold _ _ _ _ Hid Hg Hx) as (ro & H1 & H2 & H3).
    destruct (Hold _ _ _ _ Hid' Hg' Hx') as (ro' & H1' & H2' & H3').
    by eapply (ar_disjoint _ _ _ Ar id ro g id' ro' g').
Qed.

(** A path copy that leaves the record's lists as they are. *)
Lemma arranged_edit c r r' :
  m !! c = Some r → is_chunk (rc_as r) = false → rc_id r' = rc_id r →
  (∀ g, has_field (rc_as r') g → has_field (rc_as r) g ∧
     ∀ m' ids l, stores m' (rc_as r) g ids l → stores m' (rc_as r') g ids l) →
  arranged A (<[c := r']> m) n.
Proof.
  intros Hm Hch Hid Hf. destruct (ar_ids _ _ _ Ar _ _ Hm) as [Hrid Hn].
  apply (arranged_at _ _ c); [intros x Hx; by apply lookup_insert_ne| |done|].
  - intros r0 Hr0. rewrite Hm in Hr0. by injection Hr0 as <-.
  - intros r0. rewrite lookup_insert_eq. intros [= <-]. split; [congruence|]. split; [done|].
    intros g Hg. destruct (Hf g Hg) as [Hg0 Hs]. split; [|right; by exists r].
    apply Hs. eapply stores_frame; [by apply Ar|]. intros x Hx. apply lookup_insert_ne.
    intros <-. destruct (arranged_chunk _ _ _ _ _ _ _ Ar Hm Hg0 Hx) as (_ & rx & Hrx & Hc).
    congruence.
Qed.

(** A new object, with empty lists. *)
Lemma arranged_add id r' :
  m !! id = None → 0 < id < n → rc_id r' = id →
  (∀ g m', has_field (rc_as r') g → stores m' (rc_as r') g [] []) →
  arranged (fun x g => if bool_decide (x = id) then ([], []) else A x g) (<[id := r']> m) n.
Proof.
  intros Hm Hn Hid Hf.
  apply (arranged_at _ _ id); [intros x Hx; by apply lookup_insert_ne|by rewrite Hm|..].
  - intros x g Hx. by rewrite bool_decide_eq_false_2.
  - intros r0. rewrite lookup_insert_eq. intros [= <-]. split; [done|]. split; [done|].
    intros g Hg. rewrite bool_decide_eq_true_2 by done. split; [by apply Hf|by left].
Qed.

Lemma arranged_remove id :
  (∀ r, m !! id = Some r → is_chunk (rc_as r) = false) → arranged A (delete id m) n.
Proof.
  intros Hch.
  apply (arranged_at _ _ id); [intros x Hx; by apply lookup_delete_ne|done|done|].
  intros r. by rewrite lookup_delete_eq.
Qed.

Lemma arranged_counter n' : n <= n' <= 2 ^ 63 → arranged A m n'.
Proof.
  intros Hn. split; [pose proof (ar_counter _ _ _ Ar); lia| |apply Ar|apply Ar].
  intros id r Hid. destruct (ar_ids _ _ _ Ar _ _ Hid). split; [done|lia].
Qed.
End one_id.

(** ** Running over the map

    Over the map a mutator fails only when the allocator's half of the id space is
    exhausted. *)

Definition does {A} (c : Tx doc A) (t : Txn doc) (Q : A → Txn doc → Prop) : Prop :=
  match c t with
  | (t', Ok a) => Q a t'
  | (t', Err e) => e = OutOfBounds ∧ 2 ^ 63 <= tx_next_id t'
  end.

(** What a step left of the transaction. *)
Record moved (t t' : Txn doc) (m' : doc) (n' : Z) : Prop := {
  mv_store : tx_store t' = m';
  mv_next_id : tx_next_id t' = n';
  mv_publish : tx_publish t' = tx_publish t;
  mv_status : tx_status t' = tx_status t }.

Section running.
Implicit Types (t : Txn doc) (m : doc) (n : Z).

Lemma does_ret {A} (a : A) t (Q : A → Txn doc → Prop) : Q a t → does (mret a) t Q.
Proof. done. Qed.

Lemma does_bind {A B} (c : Tx doc A) (k : A → Tx doc B) t Q :
  does c t (fun a t' => does (k a) t' Q) → does (mbind k c) t Q.
Proof. unfold does, mbind, ST_bind. by destruct (c t) as [t' [a|e]]. Qed.

Lemma does_mono {A} (c : Tx doc A) t (Q Q' : A → Txn doc → Prop) :
  does c t Q → (∀ a t', Q a t' → Q' a t') → does c t Q'.
Proof. unfold does. intros H Hq. destruct (c t) as [t' [a|e]]; auto. Qed.

Lemma moved_refl t : moved t t (tx_store t) (tx_next_id t).
Proof. done. Qed.

Lemma moved_trans t1 t2 t3 m2 n2 m3 n3 :
  moved t1 t2 m2 n2 → moved t2 t3 m3 n3 → moved t1 t3 m3 n3.
Proof. intros [] []. split; congruence. Qed.

Lemma touch_moved id t : ∃ t', touch id t = (t', Ok tt) ∧ moved t t' (tx_store t) (tx_next_id t).
Proof. unfold touch, st_modify. eexists. split; [done|]. by destruct (bool_decide _). Qed.

Lemma does_find id t (Q : option ObjectRecord → Txn doc → Prop) :
  Q (tx_store t !! id) t → does (find id) t Q.
Proof. done. Qed.

Lemma does_bind_record b id rid a t (Q : unit → Txn doc → Prop) :
  in_u64 id →
  (∀ t', moved t t' (<[id := mkRecord rid (tx_publish t) a]> (tx_store t)) (tx_next_id t) →
     Q tt t') →
  does (bind_record b id rid a) t Q.
Proof.
  intros Hid HQ. unfold does, bind_record. rewrite bool_decide_eq_true_2 by done.
  change (os_put id _ (tx_store t)) with
    (<[id := mkRecord rid (tx_publish t) a]> (tx_store t), Bound). cbv beta iota.
  match goal with |- context [touch id ?o] => destruct (touch_moved id o) as (t' & E & Hm) end.
  rewrite E. apply HQ. destruct (note_retain_store b id a
    (set_store (<[id := mkRecord rid (tx_publish t) a]> (tx_store t)) t)) as [Es _].
  destruct Hm as [Hs Hn Hp Ht]. unfold note_retain in *.
  destruct a as [| |c| |]; try (split; by rewrite ?Hs, ?Hn, ?Hp, ?Ht).
  destruct (b && has_state (ct_state c) && tx_sink _); split; by rewrite ?Hs, ?Hn, ?Hp, ?Ht.
Qed.

Lemma does_erase_record id t (Q : unit → Txn doc → Prop) :
  (∀ t', moved t t' (delete id (tx_store t)) (tx_next_id t) → Q tt t') →
  does (erase_record id) t Q.
Proof.
  intros HQ. unfold does, erase_record.
  change (os_erase id (tx_store t)) with (delete id (tx_store t), Ok (E := failure) tt).
  cbv beta iota. destruct (touch_moved id (set_store (delete id (tx_store t)) t)) as (t' & E & Hm).
  rewrite E. apply HQ. destruct Hm as [Hs Hn Hp Ht]. by split.
Qed.

Lemma does_add_damage d t (Q : unit → Txn doc → Prop) :
  (∀ t', moved t t' (tx_store t) (tx_next_id t) → Q tt t') → does (add_damage d) t Q.
Proof. intros HQ. apply HQ. by split. Qed.

Lemma does_allocate_id t (Q : ObjectId → Txn doc → Prop) :
  0 <= tx_next_id t <= 2 ^ 63 →
  (∀ t', tx_next_id t < 2 ^ 63 → moved t t' (tx_store t) (tx_next_id t + 1) →
     Q (tx_next_id t) t') →
  does allocate_id t Q.
Proof.
  intros Hn HQ. unfold does, allocate_id. rewrite synthetic_range by (unfold in_u64; lia).
  destruct (Z.leb_spec (2 ^ 63) (tx_next_id t)); [split; [done|lia]|]. apply HQ; [lia|by split].
Qed.

(** Erasing a list of ids. *)
Definition without (ids : list ObjectId) (m : doc) : doc := foldr delete m ids.

Lemma lookup_without ids m x :
  without ids m !! x = if bool_decide (x ∈ ids) then None else m !! x.
Proof.
  induction ids as [|id ids IH]; [by rewrite bool_decide_eq_false_2 by apply not_elem_of_nil|].
  change (without (id :: ids) m) with (delete id (without ids m)).
  destruct (decide (x = id)) as [->|Hne].
  - by rewrite lookup_delete_eq, bool_decide_eq_true_2 by apply list_elem_of_here.
  - rewrite lookup_delete_ne, IH by done. by rewrite (bool_decide_ext (x ∈ id :: ids) (x ∈ ids)) by set_solver.
Qed.

Lemma does_erase_records ids : ∀ t (Q : unit → Txn doc → Prop),
  (∀ t', moved t t' (without ids (tx_store t)) (tx_next_id t) → Q tt t') →
  does (for_each ids erase_record) t Q.
Proof.
  induction ids as [|id ids IH]; intros t Q HQ; [by apply HQ|].
  cbn [for_each]. apply does_bind, does_erase_record. intros t1 H1. apply IH. intros t2 H2.
  apply HQ. destruct H1 as [Hs Hn Hp Ht]. rewrite Hs, Hn in H2.
  replace (without (id :: ids) (tx_store t)) with (without ids (delete id (tx_store t))).
  - destruct H2 as [Hs2 Hn2 Hp2 Ht2]. split; congruence.
  - apply map_eq. intros x. rewrite !lookup_without.
    destruct (decide (x = id)) as [->|Hne].
    + rewrite lookup_delete_eq. rewrite (bool_decide_eq_true_2 (id ∈ id :: ids)) by set_solver.
      by case_bool_decide.
    + rewrite lookup_delete_ne by done. by rewrite (bool_decide_ext (x ∈ id :: ids) (x ∈ ids)) by set_solver.
Qed.

(** Ids by position: the old ones, then fresh ones in order. *)
Lemma does_assign_chunk_ids k : ∀ old t (Q : list ObjectId → Txn doc → Prop),
  0 <= tx_next_id t <= 2 ^ 63 →
  (∀ t', let fresh := Z.of_nat (k - length old) in
     tx_next_id t + fresh <= 2 ^ 63 →
     moved t t' (tx_store t) (tx_next_id t + fresh) →
     Q (take k old ++ seqZ (tx_next_id t) fresh) t') →
  does (assign_chunk_ids k old) t Q.
Proof.
  induction k as [|k IH]; intros old t Q Hn HQ; cbn [assign_chunk_ids].
  - apply HQ; [cbn; lia|]. split; [done|cbn; lia|done|done].
  - apply does_bind. destruct old as [|id old]; cbn [tail].
    + apply does_allocate_id; [done|]. intros t1 Hlt [Hs1 Hn1 Hp1 Ht1]. apply does_bind.
      apply IH; [lia|]. cbv zeta. cbn [length take app]. rewrite Nat.sub_0_r. intros t2 Hle H2.
      apply does_ret.
      specialize (HQ t2). cbv zeta in HQ. cbn [length take app] in HQ.
      rewrite Nat.sub_0_r, seqZ_cons in HQ by lia.
      replace (Z.pred (Z.of_nat (S k))) with (Z.of_nat k) in HQ by lia.
      replace (Z.succ (tx_next_id t)) with (tx_next_id t1) in HQ by lia.
      rewrite take_nil. apply HQ; [lia|]. destruct H2 as [Hs2 Hn2 Hp2 Ht2]. split; [congruence|lia|congruence..].
    + apply does_ret, does_bind. apply IH; [done|]. intros t1. cbv zeta. intros Hle H1.
      apply does_ret. exact (HQ t1 Hle H1).
Qed.
End running.

(** *** Writing chunks *)

Section writes.
Context (ids : list ObjectId) (chunk : nat → payload).
Context (Hnodup : NoDup ids) (Hword : ∀ id, id ∈ ids → in_u64 id).

Definition id_at (p : nat) : ObjectId := default 0 (ids !! p).

Definition written (p : nat) (m : doc) : Prop :=
  ∃ r, m !! id_at p = Some r ∧ rc_id r = id_at p ∧ rc_as r = chunk p.

Lemma id_at_lookup p : (p < length ids)%nat → ids !! p = Some (id_at p).
Proof.
  intros Hp. unfold id_at. destruct (ids !! p) eqn:E; [done|]. apply lookup_ge_None in E. lia.
Qed.

Lemma id_at_inj p q : (p < length ids)%nat → (q < length ids)%nat → id_at p = id_at q → p = q.
Proof.
  intros Hp Hq E. pose proof (id_at_lookup p Hp) as Ep. pose proof (id_at_lookup q Hq) as Eq.
  rewrite E in Ep. by eapply NoDup_lookup.
Qed.

Lemma written_insert p q m r :
  (p < length ids)%nat → (q < length ids)%nat → p ≠ q → written p m → written p (<[id_at q := r]> m).
Proof.
  intros Hp Hq Hne (rp & H1 & H2). exists rp. rewrite lookup_insert_ne; [done|].
  intros E. apply Hne. symmetry. by apply id_at_inj.
Qed.

(** The chunks at [ps] are written, in any order; one may be left as it is when it is
    already what it should be. *)
Lemma does_writes (w : nat → Tx doc unit) ps : ∀ t (Q : unit → Txn doc → Prop),
  NoDup ps → (∀ p, p ∈ ps → (p < length ids)%nat) →
  (∀ p, p ∈ ps → w p = bind_record false (id_at p) (id_at p) (chunk p) ∨
     (w p = mret tt ∧ written p (tx_store t))) →
  (∀ t' m', moved t t' m' (tx_next_id t) → (∀ p, p ∈ ps → written p m') →
     (∀ x, (∀ p, p ∈ ps → x ≠ id_at p) → m' !! x = tx_store t !! x) → Q tt t') →
  does (for_each ps w) t Q.
Proof.
  induction ps as [|p ps IH]; intros t Q Hn Hp Hw HQ.
  { apply (HQ t (tx_store t)); [done| |done]. intros p Hin. by apply not_elem_of_nil in Hin. }
  apply list.NoDup_cons in Hn as [Hnp Hn]. cbn [for_each]. apply does_bind.
  assert (∀ q, q ∈ ps → q ≠ p) as Hqp by (intros q Hq ->; done).
  pose proof (Hp p ltac:(apply list_elem_of_here)) as Hpl.
  assert (∀ q, q ∈ ps → (q < length ids)%nat) as Hpl'.
  { intros q Hq. apply Hp. by apply list_elem_of_further. }
  assert (∀ t1, moved t t1 (tx_store t1) (tx_next_id t) → written p (tx_store t1) →
    (∀ x, x ≠ id_at p → tx_store t1 !! x = tx_store t !! x) →
    (∀ q, q ∈ ps → written q (tx_store t) → written q (tx_store t1)) →
    does (for_each ps w) t1 Q) as Hstep.
  { intros t1 M1 Wp Hsame Hkeep. apply IH; [done|done| |].
    - intros q Hq. destruct (Hw q ltac:(by apply list_elem_of_further)) as [E|[E Wq]];
        [by left|right]. split; [done|by apply Hkeep].
    - intros t' m' M2 W2 S2. rewrite (mv_next_id _ _ _ _ M1) in M2.
      apply (HQ t' m'); [by eapply moved_trans| |].
      + intros q Hq. apply elem_of_cons in Hq as [->|Hq]; [|by apply W2].
        destruct Wp as (r & H1 & H2). exists r. rewrite S2; [done|].
        intros q Hq E. apply (Hqp q Hq). symmetry. apply id_at_inj; auto.
      + intros x Hx. rewrite S2 by (intros q Hq; apply Hx; by apply list_elem_of_further).
        apply Hsame. apply Hx. apply list_elem_of_here. }
  destruct (Hw p ltac:(apply list_elem_of_here)) as [->|[-> Wp]].
  - apply does_bind_record.
    { apply Hword. eapply list_elem_of_lookup_2. by apply id_at_lookup. }
    intros t1 M1. pose proof (mv_store _ _ _ _ M1) as Es. apply Hstep; rewrite Es.
    + done.
    + eexists. rewrite lookup_insert_eq. done.
    + intros x Hx. by apply lookup_insert_ne.
    + intros q Hq Wq. apply written_insert; auto.
  - apply does_ret. apply Hstep; [done|done|done|auto].
Qed.
End writes.

(** *** A composition's members *)

Section membership.
Implicit Types (t : Txn doc) (A : arrangement) (m : doc) (n : Z).

(** Apart from the owner, an update of one list changes only chunks. *)
Definition only_list_changed (c : ObjectId) m m' : Prop :=
  ∀ x r, x ≠ c → is_chunk (rc_as r) = false → m' !! x = Some r ↔ m !! x = Some r.

Lemma rewrites_objects A m m' n n' c f r r' ids l :
  arranged A m n → m !! c = Some r → has_field (rc_as r) f →
  rewrites A m m' n n' c f r r' ids l → only_list_changed c m m'.
Proof.
  intros Ar Hc Hf Rw x rx Hx Hch.
  destruct (decide (x ∈ (A c f).1 ∨ x ∈ ids)) as [Hin|Hin].
  - split; intros Hm.
    + destruct (rw_chunks _ _ _ _ _ _ _ _ _ _ _ Rw x rx Hin Hm) as (_ & _ & E). congruence.
    + destruct (decide (x ∈ (A c f).1)) as [Hold|Hold].
      * destruct (arranged_chunk _ _ _ _ _ _ _ Ar Hc Hf Hold) as (_ & ro & Ho & E). congruence.
      * destruct Hin as [Hin|Hin]; [done|].
        destruct (rw_ids _ _ _ _ _ _ _ _ _ _ _ Rw _ Hin) as [?|Hge]; [done|].
        pose proof (ar_ids _ _ _ Ar _ _ Hm). lia.
  - by rewrite (rw_same _ _ _ _ _ _ _ _ _ _ _ Rw) by tauto.
Qed.

Lemma chunk_unchanged_spec m base ids l chunk_ids l' p id :
  stores_members m base ids l → chunk_ids !! p = Some id →
  (p < length ids → ids !! p = chunk_ids !! p)%nat →
  chunk_unchanged p chunk_ids l ids l' = true →
  ∃ r, m !! id = Some r ∧
    rc_as r = order_chunk (slice k_max_inline_layers p l') (default 0 (chunk_ids !! S p)).
Proof.
  intros [_ Hs] Hid Hpre. unfold chunk_unchanged. rewrite !andb_true_iff, bool_decide_eq_true.
  intros [[[Hp Hlen] Hnext] Hel]. apply Nat.ltb_lt in Hp. apply Z.eqb_eq in Hlen, Hnext.
  destruct Hs as [(_ & -> & _)|(_ & Hc & _)]; [cbn in Hp; lia|].
  destruct (ck_at _ _ _ _ Hc p id) as (r & Hr & Er); [by rewrite Hpre|].
  exists r. split; [done|]. rewrite Er. cbn [order_chunking ch_payload ch_cap]. rewrite Hnext.
  f_equal. rewrite Hel. rewrite slice_eq. rewrite (ck_length _ _ _ _ Hc) in Hp.
  apply chunk_count_lt in Hp; [|cbn; unfold k_max_inline_layers; lia].
  cbn [order_chunking ch_cap] in Hp. unfold size_sub in Hlen.
  rewrite (proj2 (Z.ltb_ge _ 0)) in Hlen by lia.
  replace (length (slice k_max_inline_layers p l'))
    with (Nat.min k_max_inline_layers (length (drop (p * k_max_inline_layers) l))).
  - destruct (le_lt_dec k_max_inline_layers (length (drop (p * k_max_inline_layers) l))).
    + by rewrite Nat.min_l.
    + rewrite Nat.min_r, firstn_all by lia. symmetry. by rewrite take_ge by lia.
  - rewrite length_drop. lia.
Qed.

(** The ids a spilled order is laid out on. *)
Lemma chunk_ids_ascending A m n c r f k :
  arranged A m n → m !! c = Some r → has_field (rc_as r) f → ascending 0 (A c f).1 →
  let ids := take k (A c f).1 ++ seqZ n (Z.of_nat (k - length (A c f).1)) in
  ascending 0 ids ∧ length ids = k ∧
  ∀ x, x ∈ ids → (x ∈ (A c f).1 ∨ n <= x) ∧ 0 < x < n + Z.of_nat (k - length (A c f).1).
Proof.
  intros Ar Hc Hf Ha. cbv zeta. pose proof (ar_counter _ _ _ Ar) as Hn.
  assert (∀ x, x ∈ (A c f).1 → 0 < x < n) as Hold by (intros x Hx; by eapply arranged_chunk).
  split; [|split].
  - eapply (ascending_app _ _ _ n); [by apply ascending_take| |lia|apply ascending_seqZ].
    intros x Hx. apply Hold. by eapply elem_of_take in Hx as (i & Hi & _);
      eapply list_elem_of_lookup_2.
  - rewrite length_app, length_take, length_seqZ. lia.
  - intros x Hx. apply elem_of_app in Hx as [Hx|Hx].
    + eapply elem_of_take in Hx as (i & Hi & _). apply list_elem_of_lookup_2 in Hi.
      pose proof (Hold x Hi). split; [by left|lia].
    + apply elem_of_seqZ in Hx. split; [right; lia|lia].
Qed.

Lemma stores_ascending m a f ids l : stores m a f ids l → ascending 0 ids.
Proof.
  intros Hs. destruct a as [c| |c| |], f as [|[]]; try done; cbn in Hs.
  - destruct Hs as [_ [(_ & -> & _)|(_ & H2 & _)]]; [done|apply H2].
  - apply (proj1 Hs).
  - destruct Hs as [_ [(_ & -> & _)|(_ & H2 & _)]]; [done|apply H2].
Qed.
End membership.

Section store_membership.
Context (A : arrangement) (t : Txn doc) (c : ObjectId) (rev : Z) (base : CompositionRecord).
Notation m := (tx_store t).
Notation n := (tx_next_id t).
Notation ids := (A c Members).1.
Notation l := (A c Members).2.
Notation r := (mkRecord c rev (AsComposition base)).
Context (Ar : arranged A m n) (Hc : m !! c = Some r).

Definition with_order (count : Z) (inline : list ObjectId) (spill : ObjectId) : ObjectRecord :=
  mkRecord c (tx_publish t) (AsComposition (composition_order base count inline spill)).

Lemma members_stored : stores_members m base ids l.
Proof. apply (ar_stores _ _ _ Ar c r Members Hc). done. Qed.

Lemma owner_not_chunk : c ∉ ids.
Proof.
  intros Hin. destruct (arranged_chunk A m n c r Members _ Ar Hc I Hin) as (_ & rx & Hrx & E).
  rewrite Hc in Hrx. by injection Hrx as <-.
Qed.

(** What both layouts have to show. *)
Lemma rewrites_order m' n' count inline spill ids' l' :
  n <= n' <= 2 ^ 63 → m' !! c = Some (with_order count inline spill) →
  stores_members m' (composition_order base count inline spill) ids' l' →
  (∀ x, x ∈ ids' → x ∈ ids ∨ n <= x) →
  (∀ x, x ≠ c → x ∉ ids → x ∉ ids' → m' !! x = m !! x) →
  (∀ x rx, x ∈ ids ∨ x ∈ ids' → m' !! x = Some rx →
     rc_id rx = x ∧ 0 < x < n' ∧ is_chunk (rc_as rx) = true) →
  rewrites A m m' n n' c Members r (with_order count inline spill) ids' l'.
Proof.
  intros Hn Hm Hs Hids Hsame Hch. split; try done. intros g ids0 l0 Hne Hst.
  destruct g as [|ch]; [done|]. by destruct ch.
Qed.

Lemma does_store_inline l' (Q : unit → Txn doc → Prop) :
  (length l' <= k_max_inline_layers)%nat →
  (∀ t' m', moved t t' m' n →
     rewrites A m m' n n c Members r (with_order (u32 (Z.of_nat (length l'))) l' 0) [] l' →
     Q tt t') →
  does (store_membership c c base l ids l') t Q.
Proof.
  intros Hl HQ. unfold store_membership. rewrite (proj2 (Nat.leb_le _ _) Hl).
  apply does_bind, does_erase_records. intros t1 M1. apply does_bind_record.
  { pose proof (ar_ids _ _ _ Ar _ _ Hc). pose proof (ar_counter _ _ _ Ar). unfold in_u64. lia. }
  intros t2 M2. rewrite (mv_store _ _ _ _ M1), (mv_next_id _ _ _ _ M1) in M2.
  eapply HQ; [eapply moved_trans; [exact M1|exact M2]|].
  rewrite (mv_publish _ _ _ _ M1). pose proof (ar_counter _ _ _ Ar).
  apply rewrites_order; [lia|by rewrite lookup_insert_eq| |..].
  - split; [done|]. left. done.
  - intros x Hx. by apply not_elem_of_nil in Hx.
  - intros x Hx Hold _. rewrite lookup_insert_ne, lookup_without by done.
    by rewrite bool_decide_eq_false_2.
  - intros x rx Hx. destruct Hx as [Hx|Hx]; [|by apply not_elem_of_nil in Hx].
    assert (c ≠ x) by (intros E; apply owner_not_chunk; by rewrite <- E in Hx).
    rewrite lookup_insert_ne, lookup_without, bool_decide_eq_true_2 by done. done.
Qed.

(** The records of a chain once its chunks are written and its surplus erased. *)
Lemma written_chunked ids' l' m2 :
  ascending 0 ids' → length ids' = chunk_count (length l') k_max_inline_layers →
  (∀ p, p ∈ seq 0 (length ids') →
     written ids' (fun p => order_chunk (slice k_max_inline_layers p l')
       (default 0 (ids' !! S p))) p m2) →
  (∀ x, x ∈ ids' → x ≠ c) → ∀ rx, chunked order_chunking (<[c := rx]> m2) ids' l'.
Proof.
  intros Ha Hlen Hw Hne rx. split; [done|done|]. intros p id Hp.
  destruct (Hw p) as (r0 & H1 & H2 & H3).
  { apply elem_of_seq. apply lookup_lt_Some in Hp. lia. }
  unfold id_at in H1. rewrite Hp in H1. exists r0. split; [|exact H3].
  rewrite lookup_insert_ne; [done|]. intros <-. eapply Hne; [by eapply list_elem_of_lookup_2|done].
Qed.

(** The chunk ids of a spilled order. *)
Definition spill_ids (l' : list Z) : list ObjectId :=
  let k := chunk_count (length l') k_max_inline_layers in
  take k ids ++ seqZ n (Z.of_nat (k - length ids)).

Definition spill_chunk (l' : list Z) (p : nat) : payload :=
  order_chunk (slice k_max_inline_layers p l') (default 0 (spill_ids l' !! S p)).

Lemma ids_ascending : ascending 0 ids.
Proof. eapply stores_ascending. by apply (ar_stores _ _ _ Ar c r Members Hc). Qed.

Lemma spill_ids_spec l' :
  let k := chunk_count (length l') k_max_inline_layers in
  ascending 0 (spill_ids l') ∧ length (spill_ids l') = k ∧
  ∀ x, x ∈ spill_ids l' → (x ∈ ids ∨ n <= x) ∧ 0 < x < n + Z.of_nat (k - length ids) ∧ x ≠ c.
Proof.
  cbv zeta. destruct (chunk_ids_ascending A m n c r Members
    (chunk_count (length l') k_max_inline_layers) Ar Hc I ids_ascending) as (H1 & H2 & H3).
  split; [done|]. split; [done|]. intros x Hx. destruct (H3 x Hx) as [H4 H5].
  split; [done|]. split; [done|]. intros ->. pose proof (ar_ids _ _ _ Ar _ _ Hc) as [_ Hcn].
  destruct H4 as [?|Hge]; [by apply owner_not_chunk|cbn in Hcn; lia].
Qed.

(** A chunk left alone is already the one wanted. *)
Lemma unchanged_written l' p :
  let k := chunk_count (length l') k_max_inline_layers in
  (p < k)%nat → chunk_unchanged p (spill_ids l') l ids l' = true →
  written (spill_ids l') (spill_chunk l') p (without (drop k ids) m).
Proof.
  cbv zeta. intros Hp Hu. destruct (spill_ids_spec l') as (_ & Hlen & _).
  pose proof (id_at_lookup (spill_ids l') p ltac:(lia)) as Hpl.
  assert (p < length ids → ids !! p = spill_ids l' !! p)%nat as Hpre.
  { intros Hlt. unfold spill_ids.
    rewrite lookup_app_l, lookup_take_lt by (rewrite ?length_take; lia). done. }
  destruct (chunk_unchanged_spec m base ids l (spill_ids l') l' p _ members_stored Hpl Hpre Hu)
    as (r0 & Hr0 & Er0).
  exists r0. split_and!; [|by apply (ar_ids _ _ _ Ar)|done].
  rewrite lookup_without, bool_decide_eq_false_2; [done|]. intros Hd.
  unfold chunk_unchanged in Hu. rewrite !andb_true_iff in Hu.
  destruct Hu as [[[Hlt _] _] _]. apply Nat.ltb_lt in Hlt. specialize (Hpre Hlt).
  rewrite Hpl in Hpre. apply list_elem_of_lookup in Hd as [q Hq]. rewrite lookup_drop in Hq.
  pose proof (NoDup_lookup _ _ _ _ (ascending_nodup _ _ ids_ascending) Hpre Hq). lia.
Qed.

(** The document once the chunks and the composition record are written. *)
Lemma rewrites_spilled l' m3 :
  let k := chunk_count (length l') k_max_inline_layers in
  let n' := n + Z.of_nat (k - length ids) in
  let spill := default 0 (spill_ids l' !! 0%nat) in
  (k_max_inline_layers < length l')%nat → n' <= 2 ^ 63 →
  (∀ p, p ∈ seq 0 k → written (spill_ids l') (spill_chunk l') p m3) →
  (∀ x, (∀ p, p ∈ seq 0 k → x ≠ id_at (spill_ids l') p) →
     m3 !! x = without (drop k ids) m !! x) →
  rewrites A m (<[c := with_order (u32 (Z.of_nat (length l'))) [] spill]> m3) n n' c Members r
    (with_order (u32 (Z.of_nat (length l'))) [] spill) (spill_ids l') l'.
Proof.
  cbv zeta. intros Hl Hn Hw Hs. destruct (spill_ids_spec l') as (Ha & Hlen & Hids).
  assert (∀ x, x ∉ spill_ids l' → m3 !! x = without (drop (length (spill_ids l')) ids) m !! x) as Hs'.
  { intros x Hx. rewrite Hlen. apply Hs. intros p Hp ->. apply elem_of_seq in Hp. apply Hx.
    eapply list_elem_of_lookup_2. apply id_at_lookup. lia. }
  apply rewrites_order; [lia|by rewrite lookup_insert_eq| | |..].
  - split; [done|]. right. split; [done|]. split; [|done].
    apply written_chunked; [done|done|by rewrite Hlen|]. intros x Hx. apply Hids, Hx.
  - intros x Hx. apply Hids, Hx.
  - intros x Hx Hold Hnew. rewrite lookup_insert_ne, Hs', lookup_without by done.
    rewrite bool_decide_eq_false_2; [done|]. intros Hin. apply Hold.
    apply list_elem_of_lookup in Hin as [i Hi]. rewrite lookup_drop in Hi.
    by eapply list_elem_of_lookup_2.
  - intros x rx Hx Hrx. destruct (decide (x ∈ spill_ids l')) as [Hin|Hnin].
    + destruct (Hids x Hin) as (_ & Hb & Hne). rewrite lookup_insert_ne in Hrx by done.
      apply list_elem_of_lookup in Hin as [p Hp]. pose proof (lookup_lt_Some _ _ _ Hp).
      destruct (Hw p) as (r0 & H1 & H2 & H3); [apply elem_of_seq; lia|].
      unfold id_at in H1, H2. rewrite Hp in H1, H2. cbn in H1, H2.
      assert (rx = r0) as -> by congruence. rewrite H3. done.
    + destruct Hx as [Hx|Hx]; [|done]. assert (c ≠ x) by (intros E; apply owner_not_chunk; by rewrite <- E in Hx).
      rewrite lookup_insert_ne, Hs', lookup_without in Hrx by done.
      rewrite bool_decide_eq_true_2 in Hrx; [done|]. apply list_elem_of_lookup in Hx as [i Hi].
      destruct (le_lt_dec (length (spill_ids l')) i) as [Hge|Hlt].
      * apply (list_elem_of_lookup_2 _ (i - length (spill_ids l'))). rewrite lookup_drop.
        by replace (length (spill_ids l') + (i - length (spill_ids l')))%nat with i by lia.
      * exfalso. apply Hnin. unfold spill_ids. apply elem_of_app. left.
        apply (list_elem_of_lookup_2 _ i). rewrite lookup_take_lt; [done|lia].
Qed.

Lemma does_store_spilled l' (Q : unit → Txn doc → Prop) :
  (k_max_inline_layers < length l')%nat →
  (∀ t' m' n' ids' spill, moved t t' m' n' →
     rewrites A m m' n n' c Members r (with_order (u32 (Z.of_nat (length l'))) [] spill) ids' l' →
     Q tt t') →
  does (store_membership c c base l ids l') t Q.
Proof.
  intros Hl HQ. unfold store_membership. rewrite (proj2 (Nat.leb_gt _ _) Hl).
  pose proof (ar_counter _ _ _ Ar) as Hn. destruct (spill_ids_spec l') as (Ha & Hlen & Hids).
  apply does_bind, does_assign_chunk_ids; [lia|]. cbv zeta. intros t1 Hn1 M1. fold (spill_ids l').
  apply does_bind, does_erase_records. intros t2 M2.
  pose proof (moved_trans _ _ _ _ _ _ _ M1 M2) as M12.
  rewrite (mv_store _ _ _ _ M1), (mv_next_id _ _ _ _ M1) in M12.
  apply does_bind. apply (does_writes (spill_ids l') (spill_chunk l')).
  - by eapply ascending_nodup.
  - intros x Hx. destruct (Hids x Hx) as (_ & Hb & _). unfold in_u64. lia.
  - apply NoDup_seq.
  - intros p Hp. apply elem_of_seq in Hp. lia.
  - intros p Hp. apply elem_of_seq in Hp. unfold write_order_chunk.
    destruct (chunk_unchanged p (spill_ids l') l ids l') eqn:Hu; [right|by left].
    split; [done|]. rewrite (mv_store _ _ _ _ M12). apply unchanged_written; [lia|done].
  - intros t3 m3 M3 W3 S3. pose proof (moved_trans _ _ _ _ _ _ _ M12 M3) as M13.
    rewrite (mv_next_id _ _ _ _ M12) in M13. rewrite (mv_store _ _ _ _ M12) in S3.
    apply does_bind_record.
    { pose proof (ar_ids _ _ _ Ar _ _ Hc). unfold in_u64. lia. }
    intros t4 M4. rewrite (mv_store _ _ _ _ M3), (mv_publish _ _ _ _ M13) in M4.
    rewrite (mv_next_id _ _ _ _ M3), (mv_next_id _ _ _ _ M12) in M4.
    eapply HQ; [eapply moved_trans; [exact M13|exact M4]|].
    apply rewrites_spilled; [done|done|exact W3|exact S3].
Qed.

Lemma does_store_membership l' (Q : unit → Txn doc → Prop) :
  (∀ t' m' n' ids' inline spill, moved t t' m' n' →
     rewrites A m m' n n' c Members r (with_order (u32 (Z.of_nat (length l'))) inline spill)
       ids' l' →
     Q tt t') →
  does (store_membership c c base l ids l') t Q.
Proof.
  intros HQ. destruct (le_lt_dec (length l') k_max_inline_layers) as [Hl|Hl].
  - apply does_store_inline; [done|]. intros. by eapply HQ.
  - apply does_store_spilled; [done|]. intros. by eapply HQ.
Qed.
End store_membership.

(** ** Reading the lists back *)

(** A content's raw identity text, which [content_identity] splits at the first NUL. *)
Definition identity_of {S} `{!ObjectStore S} (fuel : nat) (id : ObjectId) (s : S) :
    expected failure (list Z) :=
  c ← find_content id s;
  match c with None => Ok [] | Some c => read_identity_text fuel s (ct_identity_root c) end.

(** What the readers of a version see of a list. *)
Definition seen (fuel : nat) (f : field) (id : ObjectId) (m : doc) : expected failure (list Z) :=
  match f with
  | Members => for_each_layer_in fuel id m
  | Of_content Identity_chain => identity_of fuel id m
  | Of_content Inputs_chain => content_inputs fuel id m
  end.

(** The elements as read: a count that wraps to zero hides a content's inputs. *)
Definition as_read (f : field) (l : list Z) : list Z :=
  match f with
  | Of_content Inputs_chain => if u32 (Z.of_nat (length l)) =? 0 then [] else l
  | _ => l
  end.

Definition has_field_b (a : payload) (f : field) : bool :=
  match a, f with
  | AsComposition _, Members => true
  | AsContent _, Of_content _ => true
  | _, _ => false
  end.

Lemma has_field_b_spec a f : has_field_b a f = true ↔ has_field a f.
Proof. by destruct a, f. Qed.

Section seen.
Implicit Types (A : arrangement) (m : doc) (n : Z) (ids : list ObjectId) (l : list Z).

Lemma content_identity_of fuel id (m : doc) :
  content_identity fuel id m =
  (text ← identity_of fuel id m; Ok (default (text, []) (split_nul text))).
Proof.
  unfold content_identity, identity_of, find_content. cbn.
  destruct (m !! id ≫= as_content) as [c|]; [|done]. cbn.
  destruct (Z.eqb_spec (ct_identity_root c) 0) as [->|]; [|done].
  unfold read_identity_text. by destruct fuel.
Qed.

(** The chain behind a head, from any arranged document. *)
Lemma read_stored_chain A m n k c r f fuel :
  arranged A m n → m !! c = Some r → has_field (rc_as r) f → chunking_ok k →
  chunked k m (A c f).1 (A c f).2 → (Z.to_nat n <= fuel)%nat →
  ∃ rs, read_chunk_chain (ch_kind k) fuel m (default 0 ((A c f).1 !! 0%nat)) = Ok rs ∧
    map fst rs = (A c f).1 ∧ concat (map (fun x => ch_elements k x.2) rs) = (A c f).2.
Proof.
  intros Ar Hc Hf Hk Hch Hfuel. pose proof (ar_counter _ _ _ Ar).
  apply (read_chunked_head k Hk m _ _ fuel n); [done| |lia|done].
  intros x Hx. by eapply arranged_chunk.
Qed.

Lemma u32_length l cap : (length l <= cap)%nat → Z.of_nat cap < 2 ^ 32 →
  Z.to_nat (u32 (Z.of_nat (length l))) = length l.
Proof. intros Hl Hc. rewrite u32_small by (unfold in_u32; lia). lia. Qed.

Lemma read_members A m n c rev base fuel :
  arranged A m n → m !! c = Some (mkRecord c rev (AsComposition base)) → (Z.to_nat n <= fuel)%nat →
  read_layer_order fuel m base = Ok ((A c Members).2, (A c Members).1).
Proof.
  intros Ar Hc Hfuel. pose proof (ar_stores _ _ _ Ar c _ Members Hc I) as [Hn Hs].
  unfold read_layer_order. destruct Hs as [(Hl & -> & -> & ->)|(Hl & Hch & -> & _)].
  - rewrite Z.eqb_refl, Hn, (u32_length _ _ Hl) by done. by rewrite take_pad.
  - pose proof (chunked_head_pos order_chunking order_chunking_ok _ _ _ Hch) as Hp.
    rewrite (proj2 (Z.eqb_neq _ 0)).
    2:{ assert ((A c Members).2 ≠ []) as Hne by (intros E; rewrite E in Hl; cbn in Hl; lia).
        specialize (Hp Hne). lia. }
    destruct (read_stored_chain A m n order_chunking c _ Members fuel Ar Hc I order_chunking_ok
      Hch Hfuel) as (rs & E & E1 & E2).
    cbn in E, E2. rewrite E. cbn. by rewrite E1, E2.
Qed.

Lemma seen_members A m n c rev base fuel :
  arranged A m n → m !! c = Some (mkRecord c rev (AsComposition base)) → (Z.to_nat n <= fuel)%nat →
  for_each_layer_in fuel c m = Ok (A c Members).2.
Proof.
  intros Ar Hc Hfuel. unfold for_each_layer_in, find_composition. cbn. rewrite Hc. cbn.
  by rewrite (read_members A m n c rev base fuel).
Qed.

Lemma seen_identity A m n c rev x fuel :
  arranged A m n → m !! c = Some (mkRecord c rev (AsContent x)) → (Z.to_nat n <= fuel)%nat →
  identity_of fuel c m = Ok (A c (Of_content Identity_chain)).2.
Proof.
  intros Ar Hc Hfuel. pose proof (ar_stores _ _ _ Ar c _ (Of_content Identity_chain) Hc I) as [Hch Eh].
  unfold identity_of, find_content. cbn. rewrite Hc. cbn. unfold read_identity_text. rewrite Eh.
  destruct (read_stored_chain A m n (text_chunking _) c _ (Of_content Identity_chain) fuel Ar Hc I
    (text_chunking_ok _) Hch Hfuel) as (rs & E & _ & E2).
  cbn in E, E2. rewrite E. cbn. by rewrite E2.
Qed.

Lemma seen_inputs A m n c rev x fuel :
  arranged A m n → m !! c = Some (mkRecord c rev (AsContent x)) → (Z.to_nat n <= fuel)%nat →
  content_inputs fuel c m =
    Ok (as_read (Of_content Inputs_chain) (A c (Of_content Inputs_chain)).2).
Proof.
  intros Ar Hc Hfuel. pose proof (ar_stores _ _ _ Ar c _ (Of_content Inputs_chain) Hc I) as [Hn Hs].
  unfold content_inputs, find_content, as_read. cbn. rewrite Hc. cbn. rewrite Hn.
  destruct (u32 _ =? 0); [done|].
  destruct Hs as [(Hl & _ & -> & ->)|(Hl & Hch & -> & _)].
  - rewrite Z.eqb_refl, (u32_length _ _ Hl) by done. by rewrite take_pad.
  - pose proof (chunked_head_pos order_chunking order_chunking_ok _ _ _ Hch) as Hp.
    rewrite (proj2 (Z.eqb_neq _ 0)).
    2:{ assert ((A c (Of_content Inputs_chain)).2 ≠ []) as Hne
          by (intros E; rewrite E in Hl; cbn in Hl; lia).
        specialize (Hp Hne). lia. }
    destruct (read_stored_chain A m n order_chunking c _ (Of_content Inputs_chain) fuel Ar Hc I
      order_chunking_ok Hch Hfuel) as (rs & E & _ & E2).
    cbn in E, E2. rewrite E. cbn. by rewrite E2.
Qed.

(** Every reader sees what the arrangement says. *)
Lemma seen_arranged A m n f id fuel :
  arranged A m n → (Z.to_nat n <= fuel)%nat →
  seen fuel f id m =
    Ok (match m !! id with
        | Some r => if has_field_b (rc_as r) f then as_read f (A id f).2 else []
        | None => []
        end).
Proof.
  intros Ar Hfuel. destruct (m !! id) as [[rid rev a]|] eqn:Hm.
  - destruct (ar_ids _ _ _ Ar _ _ Hm) as [Hid _]. cbn in Hid. subst rid.
    destruct a as [c| |c| |], f as [|[]]; cbn [has_field_b seen as_read];
      try (unfold for_each_layer_in, identity_of, content_inputs, find_composition, find_content;
           cbn; by rewrite Hm).
    + by eapply seen_members.
    + by eapply seen_identity.
    + by eapply seen_inputs.
  - destruct f as [|[]]; cbn [seen];
      unfold for_each_layer_in, identity_of, content_inputs, find_composition, find_content;
      cbn; by rewrite Hm.
Qed.
End seen.

(** ** The list edits *)

(** The bound the walks of a transaction run under. *)
Definition bound_of (t : Txn doc) : nat := Z.to_nat (tx_next_id t).

(** The allocator ran out of ids. *)
Definition exhausted (t : Txn doc) : Prop :=
  tx_status t = Err OutOfBounds ∧ 2 ^ 63 <= tx_next_id t.

Definition well_arranged (t : Txn doc) : Prop :=
  tx_status t = Ok tt ∧ ∃ A, arranged A (tx_store t) (tx_next_id t).

(** [t'] is [t] with the list [f] of [c] become [l]: it reads back, every other list reads
    as it did, and no other object changed. *)
Record list_edited (t t' : Txn doc) (c : ObjectId) (f : field) (l : list Z) : Prop := {
  le_arranged : well_arranged t';
  le_list : seen (bound_of t') f c (tx_store t') = Ok (as_read f l);
  le_others g x : (x, g) ≠ (c, f) →
    seen (bound_of t') g x (tx_store t') = seen (bound_of t) g x (tx_store t);
  le_objects : only_list_changed c (tx_store t) (tx_store t') }.

Section edits.
Implicit Types (t : Txn doc) (A : arrangement) (m : doc) (n : Z).

Lemma list_edited_rewrites A t t' n' c f r r' ids l :
  tx_status t = Ok tt → arranged A (tx_store t) (tx_next_id t) →
  tx_store t !! c = Some r → has_field (rc_as r) f →
  moved t t' (tx_store t') n' →
  rewrites A (tx_store t) (tx_store t') (tx_next_id t) n' c f r r' ids l →
  list_edited t t' c f l.
Proof.
  intros Hs Ar Hc Hf M Rw. pose proof (mv_next_id _ _ _ _ M) as En.
  pose proof (arranged_rewrites _ _ _ _ _ _ _ _ _ _ _ Ar Hc Hf Rw) as Ar'.
  assert (bound_of t' = Z.to_nat n') as Eb by (unfold bound_of; by rewrite En).
  split.
  - split; [by rewrite (mv_status _ _ _ _ M)|]. rewrite En. by eexists.
  - rewrite (seen_arranged _ _ _ _ _ _ Ar') by (by rewrite Eb).
    rewrite (rw_owner _ _ _ _ _ _ _ _ _ _ _ Rw).
    rewrite (proj2 (has_field_b_spec _ _)) by (by apply (rw_fields _ _ _ _ _ _ _ _ _ _ _ Rw)).
    by rewrite rearrange_eq.
  - intros g x Hne. rewrite (seen_arranged _ _ _ _ _ _ Ar') by (by rewrite Eb).
    rewrite (seen_arranged _ _ _ _ _ _ Ar) by done. rewrite rearrange_ne by done. f_equal.
    destruct (decide (x = c)) as [->|Hx].
    + rewrite (rw_owner _ _ _ _ _ _ _ _ _ _ _ Rw), Hc.
      replace (has_field_b (rc_as r') g) with (has_field_b (rc_as r) g); [done|].
      apply eq_true_iff_eq. rewrite !has_field_b_spec.
      symmetry. apply (rw_fields _ _ _ _ _ _ _ _ _ _ _ Rw).
    + pose proof (rewrites_objects _ _ _ _ _ _ _ _ _ _ _ Ar Hc Hf Rw) as Ho.
      assert (∀ ra, is_chunk (rc_as ra) = true → has_field_b (rc_as ra) g = false) as Hno.
      { intros ra. by destruct (rc_as ra). }
      destruct (tx_store t' !! x) as [r1|] eqn:E1; destruct (tx_store t !! x) as [r2|] eqn:E2; [..|done].
      * destruct (is_chunk (rc_as r1)) eqn:C1.
        -- rewrite (Hno r1 C1). destruct (is_chunk (rc_as r2)) eqn:C2; [by rewrite (Hno r2 C2)|].
           apply (Ho _ _ Hx C2) in E2. congruence.
        -- apply (Ho _ _ Hx C1) in E1. by replace r2 with r1 by congruence.
      * destruct (is_chunk (rc_as r1)) eqn:C1; [by rewrite (Hno r1 C1)|].
        apply (Ho _ _ Hx C1) in E1. congruence.
      * destruct (is_chunk (rc_as r2)) eqn:C2; [by rewrite (Hno r2 C2)|].
        apply (Ho _ _ Hx C2) in E2. congruence.
  - by eapply rewrites_objects.
Qed.

(** Damage changes none of this. *)
Lemma list_edited_moved t t' t'' c f l :
  list_edited t t' c f l → moved t' t'' (tx_store t') (tx_next_id t') → list_edited t t'' c f l.
Proof.
  intros [[Hs HA] Hl Ho Hob] [E1 E2 E3 E4].
  assert (bound_of t'' = bound_of t') as Eb by (unfold bound_of; by rewrite E2).
  split; [split|..]; rewrite ?Eb, ?E1, ?E2, ?E4; done.
Qed.

Lemma edit_does {B} (x : B) (e : Tx doc B) t (Q : Txn doc → Prop) :
  tx_status t = Ok tt → does e t (fun _ t' => Q t') →
  exhausted (edit x e t).1 ∨ Q (edit x e t).1.
Proof.
  intros Hs Hd. unfold edit, does, exhausted in *. rewrite Hs.
  destruct (e t) as [t' [a|err]]; [by right|]. left. cbn. by destruct Hd as [-> ?].
Qed.

(** The three membership edits, for a change of the order. *)
Lemma edit_membership_none t c rev base change A :
  tx_status t = Ok tt → arranged A (tx_store t) (tx_next_id t) →
  tx_store t !! c = Some (mkRecord c rev (AsComposition base)) →
  change (A c Members).2 = None → (edit tt (edit_membership c change) t).1 = t.
Proof.
  intros Hs Ar Hc Hn. unfold edit. rewrite Hs.
  unfold edit_membership, find, read, mbind, ST_bind. cbn. rewrite Hc.
  rewrite (read_members A (tx_store t) (tx_next_id t) c rev base) by done. cbn. by rewrite Hn.
Qed.

Lemma edit_membership_some t c rev base change A l' :
  tx_status t = Ok tt → arranged A (tx_store t) (tx_next_id t) →
  tx_store t !! c = Some (mkRecord c rev (AsComposition base)) →
  change (A c Members).2 = Some l' →
  let t' := (edit tt (edit_membership c change) t).1 in
  exhausted t' ∨ list_edited t t' c Members l'.
Proof.
  intros Hs Ar Hc Hl. cbv zeta.
  apply (edit_does tt (edit_membership c change) t (fun t' => list_edited t t' c Members l'));
    [done|]. unfold edit_membership.
  apply does_bind, does_find. rewrite Hc. apply does_bind. unfold does, read at 1.
  rewrite (read_members A (tx_store t) (tx_next_id t) c rev base) by done. cbn [fst snd].
  rewrite Hl. apply does_bind, (does_store_membership A t c rev base Ar Hc).
  intros t1 m1 n1 ids1 inline spill M1 Rw1. apply does_add_damage. intros t2 M2.
  pose proof (mv_store _ _ _ _ M1) as E1. subst m1.
  eapply list_edited_moved; [|exact M2]. by eapply list_edited_rewrites.
Qed.
End edits.

(** *** The properties of the membership edits *)

Section membership_edits.
Implicit Types (t : Txn doc) (order : list ObjectId).

Lemma composition_record A m n c : arranged A m n → is_Some (m !! c ≫= as_composition) →
  ∃ rev base, m !! c = Some (mkRecord c rev (AsComposition base)).
Proof.
  intros Ar [base Hb]. destruct (m !! c) as [[rid rev a]|] eqn:Hm; [|done].
  destruct (ar_ids _ _ _ Ar _ _ Hm) as [Hid _]. cbn in Hid. subst rid.
  destruct a as [b| | | |]; try done. by exists rev, b.
Qed.

(** [t'] is [t] with [composition]'s order become [order], unless ids ran out. *)
Definition reordered t t' (composition : ObjectId) order : Prop :=
  exhausted t' ∨ list_edited t t' composition Members order.

(** C13: in a transaction whose lists are well arranged, with the order a reader sees of a
    composition as [order]: attaching puts a bound layer at the index (or on top, past
    the end), detaching removes the first occurrence or does nothing, and a move puts the
    member at [from] at [to] or, out of range or in place, does nothing.  The edited
    order reads back through whichever of the inline and spilled layouts it now needs,
    every other list reads as before, and no other object changes. *)
Theorem membership_edits t composition layer (W : well_arranged t)
  (Hcomp : is_Some (tx_store t !! composition ≫= as_composition)) :
  ∃ order, seen (bound_of t) Members composition (tx_store t) = Ok order ∧
    (∀ at_index, is_Some (tx_store t !! layer) →
       reordered t (attach_layer composition layer at_index t) composition
         (insert_at at_index layer order)) ∧
    match index_of layer order with
    | Some i => reordered t (detach_layer composition layer t) composition (erase_at i order)
    | None => detach_layer composition layer t = t
    end ∧
    ∀ from to, match move from to order with
    | Some order' => reordered t (reorder_layer composition from to t) composition order'
    | None => reorder_layer composition from to t = t
    end.
Proof.
  destruct W as [Hs [A Ar]]. exists (A composition Members).2.
  destruct (composition_record _ _ _ _ Ar Hcomp) as (rev & base & Hc). split_and!.
  - rewrite (seen_arranged _ _ _ _ _ _ Ar) by done. by rewrite Hc.
  - intros at_index [rl Hl]. unfold attach_layer, attach_at.
    assert ((edit tt (attach_at composition layer at_index) t) =
      edit tt (edit_membership composition (fun order => Some (insert_at at_index layer order))) t)
      as E.
    { unfold edit. rewrite Hs. unfold attach_at, find, mbind at 1, ST_bind at 1. cbn.
      rewrite Hc. cbn. unfold mbind at 1, ST_bind at 1. cbn. by rewrite Hl. }
    fold (attach_at composition layer at_index). rewrite E. by eapply edit_membership_some.
  - unfold detach_layer. destruct (index_of layer (A composition Members).2) as [i|] eqn:Ei.
    + eapply edit_membership_some; [done|done|done|]. cbn. by rewrite Ei.
    + eapply edit_membership_none; [done|done|done|]. cbn. by rewrite Ei.
  - intros from to. unfold reorder_layer. destruct (move _ _ _) as [order'|] eqn:Em.
    + by eapply edit_membership_some.
    + by eapply edit_membership_none.
Qed.
End membership_edits.

(** *** A content's chains *)

Section content_chains.
Context (A : arrangement) (t : Txn doc) (c : ObjectId) (rev : Z) (base : ContentRecord).
Context (ch : content_chain) (count : nat) (fill : nat → ObjectId → payload).
Context (on_record : ContentRecord → ContentRecord) (l' : list Z).
Notation f := (Of_content ch).
Notation m := (tx_store t).
Notation n := (tx_next_id t).
Notation ids := (A c f).1.
Notation r := (mkRecord c rev (AsContent base)).
Context (Ar : arranged A m n) (Hc : m !! c = Some r).

Definition fresh_ids : list ObjectId := seqZ n (Z.of_nat count).

Definition rechained (head : ObjectId) : ContentRecord := on_record (with_chain_head ch head base).

Definition filled_at (m' : doc) : Prop :=
  ∀ p id, fresh_ids !! p = Some id → ∃ r, m' !! id = Some r ∧
    rc_as r = fill p (default 0 (fresh_ids !! S p)).

Context (Hfill : ∀ p next, is_chunk (fill p next) = true).
Context (Hothers : ∀ m' head g ids0 l0, g ≠ f → stores m' (AsContent base) g ids0 l0 →
  stores m' (AsContent (rechained head)) g ids0 l0).
Context (Hstores : ∀ m', ascending 0 fresh_ids → filled_at m' →
  stores m' (AsContent (rechained (default 0 (fresh_ids !! 0%nat)))) f fresh_ids l').

Lemma length_fresh_ids : length fresh_ids = count.
Proof. unfold fresh_ids. rewrite length_seqZ. lia. Qed.

Lemma fresh_ids_range x : x ∈ fresh_ids → n <= x < n + Z.of_nat count.
Proof. intros Hx. apply elem_of_seqZ in Hx. lia. Qed.

Lemma fresh_ids_ascending : ascending 0 fresh_ids.
Proof.
  pose proof (ar_counter _ _ _ Ar). eapply ascending_weaken; [|apply ascending_seqZ]. lia.
Qed.

(** The chain being replaced, as the transaction reads it. *)
Lemma old_chain fuel : (Z.to_nat n <= fuel)%nat →
  ∃ rs, read_chunk_chain (chain_kind ch) fuel m (chain_head ch base) = Ok rs ∧ map fst rs = ids.
Proof.
  intros Hf. pose proof (ar_stores _ _ _ Ar c r f Hc I) as Hs. destruct ch; cbn in Hs |- *.
  - destruct Hs as [Hch ->].
    destruct (read_stored_chain A m n (text_chunking _) c r (Of_content Identity_chain) fuel Ar Hc I
      (text_chunking_ok _) Hch Hf) as (rs & E & E1 & _). by exists rs.
  - destruct Hs as [_ [(_ & -> & -> & _)|(_ & Hch & -> & _)]].
    + exists []. by destruct fuel.
    + destruct (read_stored_chain A m n order_chunking c r (Of_content Inputs_chain) fuel Ar Hc I
        order_chunking_ok Hch Hf) as (rs & E & E1 & _). by exists rs.
Qed.

Lemma content_not_chunk : c ∉ ids ∧ c ∉ fresh_ids.
Proof.
  split.
  - intros Hin. destruct (arranged_chunk A m n c r f _ Ar Hc I Hin) as (_ & rx & Hrx & E).
    rewrite Hc in Hrx. by injection Hrx as <-.
  - intros Hin. apply fresh_ids_range in Hin. pose proof (ar_ids _ _ _ Ar _ _ Hc). lia.
Qed.

Definition new_record : ObjectRecord :=
  mkRecord c (tx_publish t) (AsContent (rechained (default 0 (fresh_ids !! 0%nat)))).

(** The document once the chain is replaced. *)
Lemma rewrites_chain m3 :
  n + Z.of_nat count <= 2 ^ 63 →
  (∀ p, p ∈ seq 0 count →
     written fresh_ids (fun p => fill p (default 0 (fresh_ids !! S p))) p m3) →
  (∀ x, x ∉ fresh_ids → m3 !! x = without ids m !! x) →
  rewrites A m (<[c := new_record]> m3) n (n + Z.of_nat count) c f r new_record fresh_ids l'.
Proof.
  intros Hn Hw Hs. destruct content_not_chunk as [Hc1 Hc2].
  assert (∀ p id, fresh_ids !! p = Some id → c ≠ id ∧ ∃ r0, m3 !! id = Some r0 ∧ rc_id r0 = id ∧
    rc_as r0 = fill p (default 0 (fresh_ids !! S p))) as Hw'.
  { intros p id Hp. split; [intros E; apply Hc2; rewrite E; by eapply list_elem_of_lookup_2|].
    destruct (Hw p) as (r0 & H1 & H2 & H3).
    { apply elem_of_seq. apply lookup_lt_Some in Hp. rewrite length_fresh_ids in Hp. lia. }
    unfold id_at in H1, H2. rewrite Hp in H1, H2. by exists r0. }
  pose proof (ar_counter _ _ _ Ar). split.
  - lia.
  - by rewrite lookup_insert_eq.
  - done.
  - intros g. cbn. by destruct g.
  - intros g ids0 l0 Hne Hst. by apply Hothers.
  - apply Hstores; [apply fresh_ids_ascending|]. intros p id Hp.
    destruct (Hw' p id Hp) as (Hne & r0 & H1 & _ & H3). exists r0.
    by rewrite lookup_insert_ne.
  - intros x Hx. right. apply fresh_ids_range in Hx. lia.
  - intros x Hx Hold Hnew. rewrite lookup_insert_ne, Hs, lookup_without by done.
    by rewrite bool_decide_eq_false_2.
  - intros x rx Hx Hrx. destruct (decide (x ∈ fresh_ids)) as [Hin|Hnin].
    + pose proof (fresh_ids_range x Hin). apply list_elem_of_lookup in Hin as [p Hp].
      destruct (Hw' p x Hp) as (Hne & r0 & H1 & H2 & H3).
      rewrite lookup_insert_ne in Hrx by done. assert (rx = r0) as -> by congruence.
      rewrite H3. split; [done|]. split; [lia|apply Hfill].
    + destruct Hx as [Hx|Hx]; [|done]. assert (c ≠ x) by (intros E; apply Hc1; by rewrite <- E in Hx).
      rewrite lookup_insert_ne, Hs, lookup_without, bool_decide_eq_true_2 in Hrx by done. done.
Qed.

Lemma does_write_content_chain (Q : unit → Txn doc → Prop) :
  (∀ t' m' n' r', moved t t' m' n' → rewrites A m m' n n' c f r r' fresh_ids l' → Q tt t') →
  does (write_content_chain c ch count fill on_record) t Q.
Proof.
  intros HQ. pose proof (ar_counter _ _ _ Ar) as Hn. unfold write_content_chain.
  apply does_bind, does_find. rewrite Hc. apply does_bind. unfold does, read at 1.
  destruct (old_chain (Z.to_nat n)) as (rs & E & E1); [done|]. rewrite E, E1.
  apply does_bind, does_erase_records. intros t1 M1. pose proof (mv_store _ _ _ _ M1) as S1.
  pose proof (mv_next_id _ _ _ _ M1) as N1.
  apply does_bind, does_assign_chunk_ids; [lia|]. cbv zeta. cbn [length].
  rewrite Nat.sub_0_r, N1. intros t2 Hn2 M2. rewrite take_nil. cbn [app]. fold fresh_ids.
  pose proof (moved_trans _ _ _ _ _ _ _ M1 M2) as M12. rewrite S1 in M12. apply does_bind.
  apply (does_writes fresh_ids (fun p => fill p (default 0 (fresh_ids !! S p)))).
  - eapply ascending_nodup, fresh_ids_ascending.
  - intros x Hx. apply fresh_ids_range in Hx. unfold in_u64. lia.
  - rewrite <- Permutation_rev. apply NoDup_seq.
  - intros p Hp. rewrite <- Permutation_rev, elem_of_seq in Hp. rewrite length_fresh_ids. lia.
  - intros p _. by left.
  - intros t3 m3 M3 W3 S3. rewrite (mv_next_id _ _ _ _ M12) in M3.
    rewrite (mv_store _ _ _ _ M12) in S3.
    pose proof (moved_trans _ _ _ _ _ _ _ M12 M3) as M13.
    apply does_bind_record.
    { pose proof (ar_ids _ _ _ Ar _ _ Hc). unfold in_u64. lia. }
    intros t4 M4. rewrite (mv_store _ _ _ _ M3), (mv_publish _ _ _ _ M13) in M4.
    rewrite (mv_next_id _ _ _ _ M3) in M4.
    eapply HQ; [eapply moved_trans; [exact M13|exact M4]|]. apply rewrites_chain; [done|..].
    + intros p Hp. apply W3. by rewrite <- Permutation_rev.
    + intros x Hx. apply S3. intros p Hp ->. apply Hx.
      rewrite <- Permutation_rev, elem_of_seq in Hp.
      eapply list_elem_of_lookup_2. apply id_at_lookup. rewrite length_fresh_ids. lia.
Qed.

Lemma write_content_chain_edits :
  tx_status t = Ok tt →
  let t' := (edit tt (write_content_chain c ch count fill on_record) t).1 in
  exhausted t' ∨ list_edited t t' c f l'.
Proof.
  intros Hs. cbv zeta. apply (edit_does tt (write_content_chain c ch count fill on_record) t
    (fun t' => list_edited t t' c f l')); [done|].
  apply does_write_content_chain. intros t1 m1 n1 r1 M1 Rw1.
  pose proof (mv_store _ _ _ _ M1) as E1. subst m1. by eapply list_edited_rewrites.
Qed.
End content_chains.

Section content_edits.
Implicit Types (t : Txn doc).

Lemma chunked_filled k m ids l :
  ascending 0 ids → length ids = chunk_count (length l) (ch_cap k) →
  (∀ p id, ids !! p = Some id → ∃ r, m !! id = Some r ∧
     rc_as r = ch_payload k (slice (ch_cap k) p l) (default 0 (ids !! S p))) →
  chunked k m ids l.
Proof. by split. Qed.

Lemma content_record A m n c : arranged A m n → is_Some (m !! c ≫= as_content) →
  ∃ rev base, m !! c = Some (mkRecord c rev (AsContent base)).
Proof.
  intros Ar [base Hb]. destruct (m !! c) as [[rid rev a]|] eqn:Hm; [|done].
  destruct (ar_ids _ _ _ Ar _ _ Hm) as [Hid _]. cbn in Hid. subst rid.
  destruct a as [| |b| |]; try done. by exists rev, b.
Qed.

Lemma set_content_identity_edits t c kind_id params :
  well_arranged t → is_Some (tx_store t !! c ≫= as_content) →
  let t' := set_content_identity c kind_id params t in
  exhausted t' ∨ list_edited t t' c (Of_content Identity_chain) (identity_text kind_id params).
Proof.
  intros [Hs [A Ar]] Hc. destruct (content_record _ _ _ _ Ar Hc) as (rev & base & Hm).
  eapply write_content_chain_edits; try done.
  - intros m' head [|[]] ids0 l0 Hne Hst; done.
  - intros m' Ha Hf. split; [|done]. by apply chunked_filled; [..|rewrite length_fresh_ids|].
Qed.

Lemma set_content_inputs_edits t c inputs :
  well_arranged t → is_Some (tx_store t !! c ≫= as_content) →
  let t' := set_content_inputs c inputs t in
  exhausted t' ∨ list_edited t t' c (Of_content Inputs_chain) inputs.
Proof.
  intros [Hs [A Ar]] Hc. destruct (content_record _ _ _ _ Ar Hc) as (rev & base & Hm).
  eapply write_content_chain_edits; try done.
  - intros m' head [|[]] ids0 l0 Hne Hst; done.
  - intros m' Ha Hf. split; [done|]. revert Ha Hf. cbn [rechained with_chain_head with_inputs
      ct_inputs_root ct_inputs].
    destruct (Nat.leb_spec (length inputs) k_max_inline_inputs) as [Hl|Hl]; intros Ha Hf.
    + left. done.
    + right. split; [done|]. split; [|done].
      by apply chunked_filled; [..|rewrite length_fresh_ids|].
Qed.

Lemma split_nul_identity kind_id params :
  0 ∉ kind_id → split_nul (kind_id ++ 0 :: params) = Some (kind_id, params).
Proof.
  induction kind_id as [|x kind_id IH]; intros Hn; [done|]. cbn.
  rewrite (proj2 (Z.eqb_neq x 0)) by set_solver. by rewrite IH by set_solver.
Qed.

(** in a transaction whose lists are well arranged, a content's construction identity
    reads back as the kind id (which holds no NUL) and the parameters it was given, and
    its inputs as the ids it was given; either edit leaves the content's other list and
    every other object's lists reading as they did, and no other object changes. *)
Theorem content_lists_roundtrip t content kind_id params inputs
  (W : well_arranged t) (Hc : is_Some (tx_store t !! content ≫= as_content))
  (Hkind : 0 ∉ kind_id) (Hlen : Z.of_nat (length inputs) < 2 ^ 32) :
  (let t' := set_content_identity content kind_id params t in
   exhausted t' ∨
   (content_identity (bound_of t') content (tx_store t') = Ok (kind_id, params) ∧
    list_edited t t' content (Of_content Identity_chain) (identity_text kind_id params))) ∧
  (let t' := set_content_inputs content inputs t in
   exhausted t' ∨
   (content_inputs (bound_of t') content (tx_store t') = Ok inputs ∧
    list_edited t t' content (Of_content Inputs_chain) inputs)).
Proof.
  split; cbv zeta.
  - destruct (set_content_identity_edits t content kind_id params W Hc) as [?|L]; [by left|right].
    split; [|done]. rewrite content_identity_of.
    pose proof (le_list _ _ _ _ _ L) as E. cbn [seen as_read] in E. rewrite E. cbn.
    destruct kind_id as [|k kind_id], params as [|p params]; cbn [identity_text].
    + done.
    + by rewrite (split_nul_identity []) by set_solver.
    + by rewrite split_nul_identity.
    + by rewrite split_nul_identity.
  - destruct (set_content_inputs_edits t content inputs W Hc) as [?|L]; [by left|right].
    split; [|done]. pose proof (le_list _ _ _ _ _ L) as E. cbn [seen] in E. rewrite E.
    unfold as_read. destruct (u32 _ =? 0) eqn:E0; [|done]. f_equal.
    rewrite u32_small in E0 by (unfold in_u32; lia). apply Z.eqb_eq in E0.
    destruct inputs; [done|cbn in E0; lia].
Qed.
End content_edits.

(** ** The invariant of a document under construction *)

Section invariant.
Implicit Types (t : Txn doc).

(** What a client of the transaction respects: a pre-allocated composition id is a fresh
    one the allocator issued, and chunks are not removed by id. *)
Definition allowed (c : command) t : Prop :=
  match c with
  | CAddCompositionAt id _ _ => tx_store t !! id = None ∧ 0 < id < tx_next_id t
  | CRemove id => ∀ r, tx_store t !! id = Some r → is_chunk (rc_as r) = false
  | _ => True
  end.

Lemma edit_keeps_arranged {B} (x : B) (e : Tx doc B) t :
  tx_status t = Ok tt →
  does e t (fun _ t' => well_arranged t') →
  exhausted (edit x e t).1 ∨ well_arranged (edit x e t).1.
Proof. intros Hs Hd. by apply edit_does. Qed.

Lemma moved_arranged A t t' m' n' :
  moved t t' m' n' → tx_status t = Ok tt → arranged A m' n' → well_arranged t'.
Proof.
  intros M Hs Ar. split; [by rewrite (mv_status _ _ _ _ M)|].
  rewrite (mv_store _ _ _ _ M), (mv_next_id _ _ _ _ M). by exists A.
Qed.

(** Inserting an object whose lists are empty. *)
Lemma does_insert_object A t id a :
  tx_status t = Ok tt → arranged A (tx_store t) (tx_next_id t) →
  tx_store t !! id = None → 0 < id < tx_next_id t →
  (∀ g m', has_field a g → stores m' a g [] []) →
  does (insert_object id a) t (fun _ t' => well_arranged t').
Proof.
  intros Hs Ar Hnone Hid Hf. pose proof (ar_counter _ _ _ Ar). unfold insert_object.
  apply does_bind, does_bind_record; [unfold in_u64; lia|]. intros t1 M1.
  apply does_bind, does_add_damage. intros t2 M2. apply does_ret.
  pose proof (moved_trans _ _ _ _ _ _ _ M1 M2) as M. rewrite (mv_store _ _ _ _ M1),
    (mv_next_id _ _ _ _ M1) in M.
  eapply moved_arranged; [exact M|done|]. by apply arranged_add.
Qed.

Lemma does_add_object A t a :
  tx_status t = Ok tt → arranged A (tx_store t) (tx_next_id t) →
  (∀ g m', has_field a g → stores m' a g [] []) →
  does (id ← allocate_id; insert_object id a) t (fun _ t' => well_arranged t').
Proof.
  intros Hs Ar Hf. pose proof (ar_counter _ _ _ Ar). apply does_bind, does_allocate_id; [lia|].
  intros t1 Hn M1. apply (does_insert_object A).
  - by rewrite (mv_status _ _ _ _ M1).
  - rewrite (mv_store _ _ _ _ M1), (mv_next_id _ _ _ _ M1). apply (arranged_counter _ _ _ Ar). lia.
  - rewrite (mv_store _ _ _ _ M1). destruct (tx_store t !! tx_next_id t) as [r|] eqn:E; [|done].
    pose proof (ar_ids _ _ _ Ar _ _ E). lia.
  - rewrite (mv_next_id _ _ _ _ M1). lia.
  - done.
Qed.

(** Path-copying a record whose lists stay. *)
Lemma does_edit_record A t id r a (b : bool) (k : unit → Tx doc unit) :
  tx_status t = Ok tt → arranged A (tx_store t) (tx_next_id t) →
  tx_store t !! id = Some r → is_chunk (rc_as r) = false →
  (∀ g, has_field a g → has_field (rc_as r) g ∧
     ∀ m' ids l, stores m' (rc_as r) g ids l → stores m' a g ids l) →
  (∀ t', well_arranged t' → does (k tt) t' (fun _ t' => well_arranged t')) →
  does (u ← bind_record b id (rc_id r) a; k u) t (fun _ t' => well_arranged t').
Proof.
  intros Hs Ar Hr Hch Hf Hk. pose proof (ar_counter _ _ _ Ar). pose proof (ar_ids _ _ _ Ar _ _ Hr).
  apply does_bind, does_bind_record; [unfold in_u64; lia|]. intros t1 M1. apply Hk.
  eapply moved_arranged; [exact M1|done|]. by apply (arranged_edit _ _ _ Ar _ r).
Qed.

Lemma does_damage_object id t :
  well_arranged t → does (damage_object id) t (fun _ t' => well_arranged t').
Proof.
  intros [Hs [A Ar]]. apply does_add_damage. intros t' M. by eapply moved_arranged.
Qed.

Lemma edit_layer_arranged t f id : well_arranged t →
  exhausted (edit tt (edit_layer f id) t).1 ∨ well_arranged (edit tt (edit_layer f id) t).1.
Proof.
  intros [Hs [A Ar]]. apply edit_keeps_arranged; [done|]. unfold edit_layer.
  apply does_bind, does_find. destruct (tx_store t !! id) as [[rid rev a]|] eqn:Hr;
    [|split; [done|by exists A]].
  destruct a as [|l| | |]; try (split; [done|by exists A]).
  apply (does_edit_record A t id (mkRecord rid rev (AsLayer l))); done.
Qed.

Lemma edit_composition_arranged t f id :
  (∀ x, cp_layer_count (f x) = cp_layer_count x ∧ cp_layers (f x) = cp_layers x ∧
     cp_spill_root (f x) = cp_spill_root x) →
  well_arranged t →
  exhausted (edit tt (edit_composition f id) t).1 ∨
  well_arranged (edit tt (edit_composition f id) t).1.
Proof.
  intros Hf [Hs [A Ar]]. apply edit_keeps_arranged; [done|]. unfold edit_composition.
  apply does_bind, does_find. destruct (tx_store t !! id) as [[rid rev a]|] eqn:Hr;
    [|split; [done|by exists A]].
  destruct a as [x| | | |]; try (split; [done|by exists A]).
  apply (does_edit_record A t id (mkRecord rid rev (AsComposition x))); try done.
  intros g Hg. split; [by destruct g|]. intros m' ids l. destruct g; [|done]. cbn.
    unfold stores_members. by destruct (Hf x) as (-> & -> & ->).
Qed.
End invariant.

Section commands.
Implicit Types (t : Txn doc).

Definition sound t : Prop := exhausted t ∨ well_arranged t.

Lemma edit_exhausted {B} (x : B) (e : Tx doc B) t : exhausted t → (edit x e t).1 = t.
Proof. intros [E _]. unfold edit. by rewrite E. Qed.

Lemma exec_exhausted c t : exhausted t → exhausted (exec c t).
Proof.
  intros E. destruct c; cbn [exec];
    try exact (eq_ind_r exhausted E (edit_exhausted _ _ t E)). exact E.
Qed.

Lemma list_edited_sound t t' c f l : exhausted t' ∨ list_edited t t' c f l → sound t'.
Proof. intros [?|L]; [by left|right; apply L]. Qed.

Lemma add_sound {t} a :
  well_arranged t → (∀ g m', has_field a g → stores m' a g [] []) →
  sound (edit 0 (id ← allocate_id; insert_object id a) t).1.
Proof. intros [Hs [A Ar]] Hf. apply edit_does; [done|]. by eapply does_add_object. Qed.

(** A membership or content edit of something that is not there does nothing. *)
Lemma no_composition_same t c change :
  tx_status t = Ok tt → ¬ is_Some (tx_store t !! c ≫= as_composition) →
  (edit tt (edit_membership c change) t).1 = t.
Proof.
  intros Hs Hn. unfold edit. rewrite Hs. unfold edit_membership, find, mbind, ST_bind. cbn.
  destruct (tx_store t !! c) as [[rid rev [b| | | |]]|]; try done. destruct Hn. by eexists.
Qed.

Lemma no_content_same t c ch count fill on_record :
  tx_status t = Ok tt → ¬ is_Some (tx_store t !! c ≫= as_content) →
  (edit tt (write_content_chain c ch count fill on_record) t).1 = t.
Proof.
  intros Hs Hn. unfold edit. rewrite Hs. unfold write_content_chain, find, mbind, ST_bind. cbn.
  destruct (tx_store t !! c) as [[rid rev [| |b| |]]|]; try done. destruct Hn. by eexists.
Qed.

Lemma edit_membership_sound t c change :
  well_arranged t → sound (edit tt (edit_membership c change) t).1.
Proof.
  intros W. destruct (decide (is_Some (tx_store t !! c ≫= as_composition))) as [Hc|Hc].
  - destruct W as [Hs [A Ar]]. destruct (composition_record _ _ _ _ Ar Hc) as (rev & base & Hm).
    destruct (change (A c Members).2) as [l'|] eqn:E.
    + eapply list_edited_sound. by eapply edit_membership_some.
    + rewrite (edit_membership_none t c rev base change A) by done. right. split; [done|by exists A].
  - rewrite no_composition_same by (done || apply W). by right.
Qed.

Lemma attach_sound t c layer at_index : well_arranged t → sound (attach_layer c layer at_index t).
Proof.
  intros W. pose proof W as [Hs _]. unfold attach_layer.
  assert ((edit tt (attach_at c layer at_index) t).1 = t ∨
    edit tt (attach_at c layer at_index) t =
    edit tt (edit_membership c (fun order => Some (insert_at at_index layer order))) t) as [E|E].
  { unfold edit. rewrite Hs. unfold attach_at, find, mbind, ST_bind. cbn.
    destruct (tx_store t !! c) as [[rid rev [b| | | |]]|]; try (by left). cbn.
    destruct (tx_store t !! layer); [by right|by left]. }
  - rewrite E. by right.
  - rewrite E. by apply edit_membership_sound.
Qed.

Lemma content_chain_sound t c (e : Txn doc → Txn doc) f l :
  well_arranged t → (is_Some (tx_store t !! c ≫= as_content) → exhausted (e t) ∨ list_edited t (e t) c f l) →
  (¬ is_Some (tx_store t !! c ≫= as_content) → e t = t) → sound (e t).
Proof.
  intros W H1 H2. destruct (decide (is_Some (tx_store t !! c ≫= as_content))) as [Hc|Hc].
  - eapply list_edited_sound. by apply H1.
  - rewrite H2 by done. by right.
Qed.

Lemma remove_sound t id :
  well_arranged t → (∀ r, tx_store t !! id = Some r → is_chunk (rc_as r) = false) →
  sound (remove id t).
Proof.
  intros [Hs [A Ar]] Hch. apply edit_does; [done|]. unfold remove_object.
  apply does_bind, does_find. destruct (tx_store t !! id) as [r|] eqn:Hr;
    [|split; [done|by exists A]].
  apply does_bind, does_erase_record. intros t1 M1. apply does_damage_object.
  eapply moved_arranged; [exact M1|done|]. apply arranged_remove; [done|].
  intros r0. rewrite Hr. apply Hch.
Qed.

Lemma set_state_sound t id after : well_arranged t → sound (set_content_state id after t).
Proof.
  intros [Hs [A Ar]]. apply edit_does; [done|]. unfold assign_state.
  apply does_bind, does_find. destruct (tx_store t !! id) as [[rid rev a]|] eqn:Hr;
    [|split; [done|by exists A]].
  destruct a as [| |x| |]; try (split; [done|by exists A]).
  apply (does_edit_record A t id (mkRecord rid rev (AsContent x))); [done..| |intros t1 W1; exact W1].
  intros g Hg. split; [by destruct g|]. intros m' ids l. by destruct g as [|[]].
Qed.

Lemma exec_sound c t : allowed c t → sound t → sound (exec c t).
Proof.
  intros Ha [E|W]; [left; by apply exec_exhausted|].
  assert (∀ x g m', has_field (AsComposition (new_composition x.1 x.2)) g →
    stores m' (AsComposition (new_composition x.1 x.2)) g [] []) as Hcomp.
  { intros x [|ch] m' Hg; [|done].
    split; [done|left]. split_and!; [cbn; lia|done..]. }
  destruct c; cbn [exec].
  - by apply add_sound.
  - apply add_sound; [done|]. intros g m' Hg. destruct g as [|[]]; [done| |].
    + split; [apply chunked_nil, text_chunking_ok|done].
    + split; [done|left]. split_and!; [cbn; lia|done..].
  - apply add_sound; [done|]. apply (Hcomp (_, _)).
  - destruct W as [Hs [A Ar]], Ha as [H1 H2]. apply edit_does; [done|].
    eapply does_insert_object; try done. apply (Hcomp (_, _)).
  - by apply edit_composition_arranged.
  - by apply edit_composition_arranged.
  - by apply edit_layer_arranged.
  - by apply edit_layer_arranged.
  - by apply edit_layer_arranged.
  - by apply edit_layer_arranged.
  - by apply edit_layer_arranged.
  - by apply edit_layer_arranged.
  - by apply edit_layer_arranged.
  - by apply edit_layer_arranged.
  - by apply attach_sound.
  - by apply edit_membership_sound.
  - by apply edit_membership_sound.
  - by apply set_state_sound.
  - apply (content_chain_sound t content (set_content_identity content kind_id params)
      (Of_content Identity_chain) (identity_text kind_id params) W);
      [by apply set_content_identity_edits|]. apply no_content_same, W.
  - apply (content_chain_sound t content (set_content_inputs content inputs)
      (Of_content Inputs_chain) inputs W);
      [by apply set_content_inputs_edits|]. apply no_content_same, W.
  - by apply remove_sound.
  - right. destruct W as [Hs HA]. by split.
Qed.

(** A client's next call. *)
Definition edit_step t t' : Prop := ∃ c, allowed c t ∧ t' = exec c t.

Lemma edit_steps_sound t t' : rtc edit_step t t' → sound t → sound t'.
Proof.
  induction 1 as [|t1 t2 t3 (c & Ha & ->) _ IH]; [done|]. intros Hs. by apply IH, exec_sound.
Qed.


Lemma arranged_empty : arranged (fun _ _ => ([], [])) ∅ 1.
Proof. split; [lia|..]; intros *; by rewrite lookup_empty. Qed.
End commands.

(** ** Witnesses: a composition of ten layers, and a content *)

Definition demo_edits : list command :=
  [CAddComposition d_one d_one; CAddContent 7] ++
  concat (map (fun i => [CAddLayer 2 Affine_identity d_one; CAttach 1 (Z.of_nat i) 0]) (seq 3 8)) ++
  [CAddLayer 2 Affine_identity d_one; CAttach 1 11 4; CDetach 1 5].

Definition demo_scene : Txn doc := run_commands demo_edits demo_txn.

Lemma run_commands_steps cs : ∀ t, (∀ c t', c ∈ cs → allowed c t') →
  rtc edit_step t (run_commands cs t).
Proof.
  induction cs as [|c cs IH]; intros t Ha; [apply rtc_refl|]. cbn [run_commands foldl].
  eapply rtc_l; [exists c; split; [apply Ha, list_elem_of_here|done]|].
  apply IH. intros c' t' Hc'. apply Ha. by apply list_elem_of_further.
Qed.

Lemma demo_steps : rtc edit_step demo_txn demo_scene.
Proof.
  apply run_commands_steps. intros c t' Hc. unfold demo_edits in Hc.
  vm_compute in Hc. repeat (apply elem_of_cons in Hc as [->|Hc]; [exact I|]).
  by apply not_elem_of_nil in Hc.
Qed.

Lemma demo_scene_arranged : well_arranged demo_scene.
Proof.
  destruct (edit_steps_sound _ _ demo_steps) as [[E _]|W]; [|vm_compute in E; discriminate E|done].
  right. split; [done|]. exists (fun _ _ => ([], [])). apply arranged_empty.
Qed.


Lemma membership_edits_witness :
  seen (bound_of demo_scene) Members 1 (tx_store demo_scene) = Ok [10; 9; 8; 7; 11; 6; 4; 3] ∧
  reordered demo_scene (attach_layer 1 5 8 demo_scene) 1 [10; 9; 8; 7; 11; 6; 4; 3; 5].
Proof.
  destruct (membership_edits demo_scene 1 5 demo_scene_arranged) as (order & Eo & Ha & _).
  { vm_compute. eexists. reflexivity. }
  assert (order = [10; 9; 8; 7; 11; 6; 4; 3]) as -> by (vm_compute in Eo; by injection Eo as <-).
  split; [exact Eo|]. apply Ha. vm_compute. eexists. reflexivity.
Defined.
