(* ===== verification/Document.v ===== *)
(** The document: [Model], its versions and the publishing half of [Model::Transaction]
    ([src/src/model/model.cpp], [src/src/model/arbc/model/model.hpp]).

    [doc_store] binds the object map of [Hamt] and the records it names into the
    [ObjectStore] the mutators work on.  [Model] adds the version table: a [DocRoot]
    lives while a [shared_ptr] to it does, and holds one count on its root.  [commit],
    [abort], [load_baseline] and [navigate] are whole, with every reference they take
    and drop; copying a reference whose count is saturated is [OutOfBounds], as the
    assertion in [Ref]'s copy has it. *)

From S2P Require Import Prelude RationalTime Identity Geometry SlotStore.
From S2P Require Import RefStore Hamt Records Transaction DocRoot.
From stdpp Require Import gmultiset.

Local Open Scope Z_scope.

#[local] Arguments disj_union : simpl never.
#[local] Arguments singletonMS : simpl never.
#[local] Arguments empty : simpl never.

(** ** The store of a document's records *)

Record DocStore (W : Type) := mkStore { ds_heap : W; ds_root : option SlotIndex }.
Arguments mkStore {W}.
Arguments ds_heap {W} d.
Arguments ds_root {W} d.

Section store.
Context {W : Type} `{!RefHeap W (cell ObjectRecord)}.
Implicit Types (w : W) (root : option SlotIndex) (s : DocStore W) (i : SlotIndex).

(** [d_records.peek]. *)
Definition record_at (cells : gmap SlotIndex (cell ObjectRecord)) i : option ObjectRecord :=
  match cells !! i with Some (RecordCell r) => Some r | _ => None end.

Definition peek_record w i : expected failure ObjectRecord :=
  match record_at (rh_cells w) i with Some r => Ok r | None => Err OutOfBounds end.

Definition doc_find (id : ObjectId) s : expected failure (option ObjectRecord) :=
  slot ← hamt_lookup (ds_heap s) (ds_root s) id;
  match slot with
  | None => Ok None
  | Some i => r ← peek_record (ds_heap s) i; Ok (Some r)
  end.

(** [create], and the slot filled in. *)
Definition new_record (r : ObjectRecord) : ST W failure SlotIndex :=
  i ← rh_create (RecordCell blank_record);
  _ ← st_modify (rh_update i (RecordCell r));
  mret i.

(** The record's [hamt_insert]; then the new root replaces the old one and the local
    reference to the record goes. *)
Definition doc_put (id : ObjectId) (r : ObjectRecord) s : DocStore W * bound :=
  match new_record r (ds_heap s) with
  | (w, Err e) => (mkStore w (ds_root s), NotCreated e)
  | (w, Ok i) =>
      match hamt_insert (ds_root s) id i w with
      | (w, Err e) => (mkStore (rh_release (records, i) w) (ds_root s), NotBound e)
      | (w, Ok root) =>
          let w := drop_root (ds_root s) w in
          (mkStore (rh_release (records, i) w) (Some root), Bound)
      end
  end.

Definition doc_erase (id : ObjectId) : ST (DocStore W) failure unit := fun s =>
  match hamt_erase (ds_root s) id (ds_heap s) with
  | (w, Err e) => (mkStore w (ds_root s), Err e)
  | (w, Ok root) => (mkStore (drop_root (ds_root s) w) root, Ok tt)
  end.

(** [collect_leaves], each edge peeked. *)
Fixpoint peek_leaves w (leaves : list (Z * SlotIndex)) : expected failure (list (ObjectId * ObjectRecord)) :=
  match leaves with
  | [] => Ok []
  | (k, i) :: leaves =>
      r ← peek_record w i;
      rest ← peek_leaves w leaves;
      Ok ((k, r) :: rest)
  end.

Definition doc_leaves s : expected failure (list (ObjectId * ObjectRecord)) :=
  match ds_root s with
  | None => Ok []
  | Some i => leaves ← collect_leaves levels (ds_heap s) i; peek_leaves (ds_heap s) leaves
  end.

(** The map a store stands for. *)
Definition doc_map s : gmap ObjectId ObjectRecord :=
  match doc_leaves s with Ok l => list_to_map l | Err _ => ∅ end.

Definition bound_records (cells : gmap SlotIndex (cell ObjectRecord)) (m : gmap Z SlotIndex) :
    gmap ObjectId ObjectRecord :=
  omap (record_at cells) m.

(** A version the stores can be asked about: its root is a tree binding [m], and every
    slot it binds holds a record. *)
Definition bound_version (cells : gmap SlotIndex (cell ObjectRecord)) root (m : gmap Z SlotIndex) : Prop :=
  version cells root m ∧ ∀ k i, m !! k = Some i → is_Some (record_at cells i).

Lemma record_at_mono cells cells' i r :
  cells ⊆ cells' → record_at cells i = Some r → record_at cells' i = Some r.
Proof.
  intros Hs. unfold record_at. destruct (cells !! i) as [[n|r0]|] eqn:E; [done| |done].
  by rewrite (lookup_weaken _ _ _ _ E Hs).
Qed.

Lemma bound_version_mono cells cells' root m :
  cells ⊆ cells' → bound_version cells root m → bound_version cells' root m.
Proof.
  intros Hs [Hv Hb]. split.
  - destruct root as [i|]; [by eapply tree_mono|done].
  - intros k i Hk. destruct (Hb k i Hk) as [r Hr]. exists r. by eapply record_at_mono.
Qed.

Lemma bound_records_mono cells cells' m :
  cells ⊆ cells' → (∀ k i, m !! k = Some i → is_Some (record_at cells i)) →
  bound_records cells' m = bound_records cells m.
Proof.
  intros Hs Hb. apply map_eq. intros k. unfold bound_records. rewrite !lookup_omap.
  destruct (m !! k) as [i|] eqn:E; [|done]. cbn. destruct (Hb k i E) as [r Hr].
  rewrite Hr. by apply (record_at_mono cells).
Qed.

(** A tree's record edges are counted. *)
Lemma tree_edges (cells : gmap SlotIndex (cell ObjectRecord)) f (sh p : Z) i m (k : Z) (rec : SlotIndex) :
  tree cells f sh p i m → m !! k = Some rec → (records, rec) ∈ all_edges cells.
Proof.
  intros Ht. induction Ht as [f sh p i n m Hi Hl Hu Hp ->|f sh p i n m ms Hi Hw Hb Hc IH Hm];
    intros Hk.
  - apply lookup_singleton_Some in Hk as [<- <-]. apply all_edges_elem. exists i, (NodeCell n).
    split; [done|]. cbn. unfold node_edges. rewrite Hl. apply list_elem_of_here.
  - rewrite Hm in Hk. destruct (Z.testbit (bitmap n) (digit_at k sh)) eqn:Ht; [|done].
    apply (IH (digit_at k sh)); [|done]. apply set_bits_elem; [apply Hw|]. split; [|done].
    unfold digit_at. apply Z.land_nonneg. by right.
Qed.

(** What a counted reference to a record names. *)
Lemma counted_record w (ext : gmultiset ref) i :
  rh_inv w ext → (records, i) ∈ ext ⊎ all_edges (rh_cells w) →
  is_Some (record_at (rh_cells w) i).
Proof.
  intros I Hr. destruct (rh_names _ _ _ I Hr) as ([n|r] & Hc & Hv); [done|].
  unfold record_at. cbn in Hc. rewrite Hc. by eexists.
Qed.

Lemma version_bound w (ext : gmultiset ref) root m :
  rh_inv w ext → version (rh_cells w) root m → bound_version (rh_cells w) root m.
Proof.
  intros I Hv. split; [done|]. intros k i Hk. eapply counted_record; [exact I|].
  rewrite gmultiset_elem_of_disj_union. right. destruct root as [j|]; cbn in Hv.
  - by eapply tree_edges.
  - by rewrite Hv, lookup_empty in Hk.
Qed.

(** *** Reads *)

Lemma doc_find_spec s m id :
  bound_version (rh_cells (ds_heap s)) (ds_root s) m →
  doc_find id s = Ok (bound_records (rh_cells (ds_heap s)) m !! id).
Proof.
  intros [Hv Hb]. unfold doc_find.
  rewrite (hamt_lookup_version _ _ _ _ Hv).
  unfold bound_records. rewrite lookup_omap. cbn. destruct (m !! id) as [i|] eqn:E; [|done].
  destruct (Hb id i E) as [r Hr]. unfold peek_record. cbn. by rewrite Hr.
Qed.

Lemma peek_leaves_spec w leaves :
  (∀ k i, (k, i) ∈ leaves → is_Some (record_at (rh_cells w) i)) →
  ∃ l, peek_leaves w leaves = Ok l ∧ map fst l = map fst leaves ∧
    ∀ k r, (k, r) ∈ l ↔ ∃ i, (k, i) ∈ leaves ∧ record_at (rh_cells w) i = Some r.
Proof.
  induction leaves as [|[k i] leaves IH]; intros Hb.
  - exists []. split; [done|]. split; [done|]. intros k r. split.
    + intros Hin. by apply not_elem_of_nil in Hin.
    + intros (i & Hin & _). by apply not_elem_of_nil in Hin.
  - destruct (Hb k i) as [r Hr]; [apply list_elem_of_here|].
    destruct IH as (l & El & Ef & Hl); [intros; eapply Hb; by apply list_elem_of_further|].
    exists ((k, r) :: l). cbn [peek_leaves]. unfold peek_record. rewrite Hr. cbn. rewrite El.
    split; [done|]. split; [cbn; by rewrite Ef|]. intros k' r'. rewrite elem_of_cons, Hl. split.
    + intros [[= -> ->]|(i' & Hin & Hr')]; [exists i|exists i']; (split; [|done]);
        [apply list_elem_of_here|by apply list_elem_of_further].
    + intros (i' & Hin & Hr'). apply elem_of_cons in Hin as [[= -> ->]|Hin].
      * left. congruence.
      * right. by exists i'.
Qed.

Lemma doc_leaves_spec s m :
  bound_version (rh_cells (ds_heap s)) (ds_root s) m →
  ∃ l, doc_leaves s = Ok l ∧ l ≡ₚ map_to_list (bound_records (rh_cells (ds_heap s)) m).
Proof.
  intros [Hv Hb]. unfold doc_leaves. destruct (ds_root s) as [i|]; cbn in Hv.
  - destruct (collect_leaves_spec _ _ _ _ _ _ Hv) as (leaves & E & Hn & Hl); [lia|lia|].
    rewrite E. cbn.
    destruct (peek_leaves_spec (ds_heap s) leaves) as (l & El & Ef & Hel).
    { intros k j Hin. apply (Hb k j). by apply Hl. }
    exists l. split; [done|]. apply NoDup_Permutation.
    + apply (NoDup_fmap_1 fst). change (NoDup (map fst l)). by rewrite Ef.
    + apply NoDup_map_to_list.
    + intros [k r]. rewrite Hel, elem_of_map_to_list. unfold bound_records.
      rewrite lookup_omap. setoid_rewrite Hl. destruct (m !! k) as [j|]; cbn; naive_solver.
  - exists []. split; [done|]. subst m. unfold bound_records. by rewrite omap_empty, map_to_list_empty.
Qed.

Lemma doc_map_spec s m :
  bound_version (rh_cells (ds_heap s)) (ds_root s) m →
  doc_map s = bound_records (rh_cells (ds_heap s)) m.
Proof.
  intros Hb. destruct (doc_leaves_spec s m Hb) as (l & E & Hl). unfold doc_map. rewrite E.
  rewrite <- (list_to_map_to_list (bound_records (rh_cells (ds_heap s)) m)).
  apply list_to_map_proper; [|done]. rewrite Hl. apply NoDup_fst_map_to_list.
Qed.
End store.

(** ** The store is an object store

    Against the references [ext] everything else holds, and over the cells [base] that
    were there when its work began. *)

Section instance.
Context {W : Type} `{!RefHeap W (cell ObjectRecord)}.
Implicit Types (w : W) (ext X : gmultiset ref) (root : option SlotIndex) (s : DocStore W)
  (m : gmap Z SlotIndex) (base cells : gmap SlotIndex (cell ObjectRecord)) (r : ObjectRecord).

(** The store binds the slots [m]. *)
Record store_at ext base s m : Prop := {
  sa_heap : rh_inv (ds_heap s) (opt_one (ds_root s) ⊎ ext);
  sa_base : base ⊆ rh_cells (ds_heap s);
  sa_version : version (rh_cells (ds_heap s)) (ds_root s) m }.

Definition store_inv ext base s : Prop := ∃ m, store_at ext base s m.

Lemma drop_root_spec w X root :
  rh_inv w (opt_one root ⊎ X) →
  rh_cells (drop_root root w) = rh_cells w ∧ rh_inv (drop_root root w) X.
Proof.
  destruct root as [i|]; cbn [drop_root opt_one]; intros I; [by apply rh_release_spec|].
  by rewrite (left_id_L ∅ (⊎)) in I.
Qed.

Lemma root_in_ext w X root : root_counted w (opt_one root ⊎ X) root.
Proof.
  intros i ->. cbn [opt_one]. unfold one.
  rewrite !gmultiset_elem_of_disj_union, gmultiset_elem_of_singleton. auto.
Qed.

Lemma bound_records_insert cells m id i r :
  record_at cells i = Some r → bound_records cells (<[id := i]> m) = <[id := r]> (bound_records cells m).
Proof.
  intros Hr. apply map_eq. intros k. unfold bound_records. rewrite lookup_omap.
  destruct (decide (k = id)) as [->|Hne].
  - rewrite !lookup_insert_eq. cbn. exact Hr.
  - rewrite !lookup_insert_ne by done. by rewrite lookup_omap.
Qed.

Lemma bound_records_delete cells m id :
  bound_records cells (delete id m) = delete id (bound_records cells m).
Proof. unfold bound_records. apply omap_delete. Qed.

(** The store's map as of a later heap. *)
Lemma doc_map_at w w' root m X :
  rh_inv w X → version (rh_cells w) root m → rh_cells w ⊆ rh_cells w' →
  bound_records (rh_cells w') m = doc_map (mkStore w root).
Proof.
  intros I Hv Hs. destruct (version_bound _ _ _ _ I Hv) as [_ Hb].
  rewrite (doc_map_spec (mkStore w root) m) by (by eapply version_bound).
  by apply bound_records_mono.
Qed.

(** A record created and filled in. *)
Lemma new_record_outcome w X r :
  rh_inv w X →
  outcome (rh_cells w) X (fun i => {[+ (records, i) +]})
    (fun cells i => record_at cells i = Some r) (new_record r w).
Proof.
  intros I. eapply outcome_bind; [by apply create_outcome|].
  intros w1 i I1 Hs1 [Hi Ec1]. unfold st_modify, mbind, ST_bind.
  assert (rh_cells (rh_update i (RecordCell r) w1) = <[i := RecordCell r]> (rh_cells w)) as Ec.
  { rewrite rh_update_cells, Ec1. apply insert_insert_eq. }
  apply outcome_ret.
  - apply (rh_update_spec w1 _ i (RecordCell blank_record) (RecordCell r) ∅).
    + by rewrite (left_id_L ∅ (⊎)).
    + by rewrite Ec1, lookup_insert_eq.
    + done.
    + cbn. by rewrite (left_id_L ∅ (⊎)).
  - rewrite Ec. by apply insert_subseteq.
  - rewrite Ec. unfold record_at. by rewrite lookup_insert_eq.
Qed.

(** The map of a store, over later cells. *)
Lemma store_at_map ext base s m :
  store_at ext base s m → doc_map s = bound_records (rh_cells (ds_heap s)) m.
Proof. intros [I _ Hv]. apply doc_map_spec. by eapply version_bound. Qed.

Lemma store_at_records ext base s s' m :
  store_at ext base s m → rh_cells (ds_heap s) ⊆ rh_cells (ds_heap s') →
  bound_records (rh_cells (ds_heap s')) m = doc_map s.
Proof.
  intros [I _ Hv] Hs. destruct s as [w root]. by eapply doc_map_at.
Qed.

(** A store whose work was refused. *)
Lemma store_at_kept ext base w w' root m :
  store_at ext base (mkStore w root) m → rh_inv w' (opt_one root ⊎ ext) →
  rh_cells w ⊆ rh_cells w' → store_at ext base (mkStore w' root) m.
Proof. intros [I Hb Hv] I' Hs. split; [done|by etrans|]. by eapply versions_kept_subseteq. Qed.

(** Binding a record binds the id to a slot that holds it, and no other id elsewhere. *)
Lemma doc_put_at ext base s m id r s' b :
  store_at ext base s m → in_u64 id → doc_put id r s = (s', b) →
  rh_cells (ds_heap s) ⊆ rh_cells (ds_heap s') ∧
  match b with
  | Bound => ∃ i, record_at (rh_cells (ds_heap s')) i = Some r ∧
      store_at ext base s' (<[id := i]> m)
  | NotCreated e | NotBound e =>
      ds_root s' = ds_root s ∧ store_at ext base s' m ∧ ∃ e', e = Refused e'
  end.
Proof.
  destruct s as [w root]. intros Hst Hid. pose proof Hst as [I Hbase Hv].
  cbn [ds_heap ds_root] in I, Hbase, Hv. unfold doc_put. cbn [ds_heap ds_root].
  pose proof (new_record_outcome w _ r I) as Ho.
  destruct (new_record r w) as [w2 [i|e]]; cbn in Ho.
  2:{ destruct Ho as (I1 & Hs1 & He). intros [= <- <-]. split; [done|]. split; [done|].
      split; [by eapply store_at_kept|done]. }
  destruct Ho as (I2 & Hs2 & Hri).
  assert (version (rh_cells w2) root m) as Hv2 by (by eapply versions_kept_subseteq).
  pose proof (hamt_insert_outcome w2 _ root m id i I2 Hv2 Hid) as Ho.
  destruct (hamt_insert root id i w2) as [w3 [root'|e]]; cbn in Ho;
    (destruct Ho as (I3 & Hs3 & Hq);
      [rewrite disj_union_swap; apply root_in_ext
      |rewrite !gmultiset_elem_of_disj_union, gmultiset_elem_of_singleton; auto|]);
    intros [= <- <-]; cbn [ds_heap ds_root].
  - rewrite (disj_union_swap (one root')), (disj_union_swap (one root') (opt_one root)),
      (disj_union_swap {[+ (records, i) +]}) in I3.
    destruct (drop_root_spec _ _ _ I3) as [Ec4 I4].
    destruct (rh_release_spec _ _ _ I4) as [Ec5 I5]. rewrite Ec5, Ec4. split; [by etrans|].
    exists i. split; [by eapply record_at_mono|].
    split; cbn; rewrite ?Ec5, ?Ec4; [done|by do 2 etrans|done].
  - destruct (rh_release_spec _ _ _ I3) as [Ec4 I4].
    assert (rh_cells w ⊆ rh_cells (rh_release (records, i) w3)) as Hs by (rewrite Ec4; by etrans).
    split; [done|]. split; [done|]. split; [by eapply store_at_kept|done].
Qed.

Lemma doc_erase_at ext base s m id s' x :
  store_at ext base s m → doc_erase id s = (s', x) →
  rh_cells (ds_heap s) ⊆ rh_cells (ds_heap s') ∧
  match x with
  | Ok _ => store_at ext base s' (delete id m)
  | Err e => ds_root s' = ds_root s ∧ store_at ext base s' m ∧ ∃ e', e = Refused e'
  end.
Proof.
  destruct s as [w root]. intros Hst. pose proof Hst as [I Hbase Hv].
  cbn [ds_heap ds_root] in I, Hbase, Hv. unfold doc_erase. cbn [ds_heap ds_root].
  pose proof (hamt_erase_outcome w _ root m id I Hv (root_in_ext _ _ _)) as Ho.
  destruct (hamt_erase root id w) as [w3 [root'|e]]; cbn in Ho;
    destruct Ho as (I3 & Hs3 & Hq); intros [= <- <-]; cbn [ds_heap ds_root].
  - rewrite disj_union_swap in I3. destruct (drop_root_spec _ _ _ I3) as [Ec4 I4].
    rewrite Ec4. split; [done|]. split; cbn; rewrite ?Ec4; [done|by etrans|done].
  - split; [done|]. split; [done|]. split; [by eapply store_at_kept|done].
Qed.
End instance.

#[export] Instance doc_store {W} `{!RefHeap W (cell ObjectRecord)} : ObjectStore (DocStore W) := {|
  os_map := doc_map;
  os_find := doc_find;
  os_put := doc_put;
  os_erase := doc_erase;
  os_leaves := doc_leaves |}.

(** Its laws, whatever references everything else holds. *)
Definition doc_laws {W} `{!RefHeap W (cell ObjectRecord)} (ext : gmultiset ref)
    (base : gmap SlotIndex (cell ObjectRecord)) : ObjectLaws (DocStore W).
Proof.
  refine {| os_inv := store_inv ext base |}.
  - intros s id [m Hst]. pose proof (version_bound _ _ _ _ (sa_heap _ _ _ _ Hst) (sa_version _ _ _ _ Hst))
      as Hb. cbn. by rewrite (doc_find_spec s m id Hb), (store_at_map _ _ _ _ Hst).
  - intros s id r s' b [m Hst] Hid E. destruct (doc_put_at _ _ _ _ _ _ _ _ Hst Hid E) as [Hs Hb].
    cbn [os_map doc_store]. destruct b as [|e|e].
    + destruct Hb as (i & Hr & Hst'). split; [by eexists|].
      rewrite (store_at_map _ _ _ _ Hst'), (bound_records_insert _ _ _ _ r) by done.
      f_equal. by eapply store_at_records.
    + destruct Hb as (_ & Hst' & He). split; [by eexists|]. split; [|done].
      rewrite (store_at_map _ _ _ _ Hst'). by eapply store_at_records.
    + destruct Hb as (_ & Hst' & He). split; [by eexists|]. split; [|done].
      rewrite (store_at_map _ _ _ _ Hst'). by eapply store_at_records.
  - intros s id s' x [m Hst] E. destruct (doc_erase_at _ _ _ _ _ _ _ Hst E) as [Hs Hx].
    cbn [os_map doc_store]. destruct x as [u|e].
    + split; [by eexists|]. rewrite (store_at_map _ _ _ _ Hx), bound_records_delete.
      f_equal. by eapply store_at_records.
    + destruct Hx as (_ & Hst' & He). split; [by eexists|]. split; [|done].
      rewrite (store_at_map _ _ _ _ Hst'). by eapply store_at_records.
  - intros s [m Hst]. cbn. rewrite (store_at_map _ _ _ _ Hst). apply doc_leaves_spec.
    eapply version_bound; apply Hst.
Defined.

(** ** The model and its versions *)

Definition CoalesceKey : Type := Z.
Definition k_no_coalesce : CoalesceKey := 0.

(** [ObjectEdit]: the owning edges before and after, empty when the id was unbound. *)
Record ObjectEdit := mkEdit {
  ed_object : ObjectId; ed_before : option SlotIndex; ed_after : option SlotIndex }.

Record JournalEntry := mkEntry {
  en_name : string;
  en_coalesce_key : CoalesceKey;
  en_objects : list ObjectEdit;
  en_contents : list ContentStateEdit;
  en_damage : list Damage }.

Record Version := mkVersion { vn_root : option SlotIndex; vn_revision : Z }.

(** The table holds each live [DocRoot] with its number of [shared_ptr]s; [md_fresh] is
    the next unused address.  Flushed damage and state retains are recorded in order,
    latest first. *)
Record Model (W : Type) := mkModel {
  md_heap : W;
  md_next_id : Z;
  md_versions : gmap nat (Version * nat);
  md_fresh : nat;
  md_current : nat;
  md_commit_sink : bool;
  md_damage_sink : bool;
  md_state_sink : bool;
  md_flushed : list (list Damage);
  md_retained : list (ObjectId * SlotIndex) }.
Arguments mkModel {W}.
Arguments md_heap {W} m.
Arguments md_next_id {W} m.
Arguments md_versions {W} m.
Arguments md_fresh {W} m.
Arguments md_current {W} m.
Arguments md_commit_sink {W} m.
Arguments md_damage_sink {W} m.
Arguments md_state_sink {W} m.
Arguments md_flushed {W} m.
Arguments md_retained {W} m.

(** A [Transaction] object; [tn_root] is its own reference, [tn_base] its pin. *)
Record Transaction := mkTransaction {
  tn_name : string;
  tn_coalesce : CoalesceKey;
  tn_base : nat;
  tn_root : option SlotIndex;
  tn_publish : Z;
  tn_touched : list ObjectId;
  tn_contents : list ContentStateEdit;
  tn_damage : list Damage;
  tn_open : bool;
  tn_status : expected failure unit }.

Section model.
Context {W : Type} `{!RefHeap W (cell ObjectRecord)}.
Notation Mdl := (Model W).
Implicit Types (md : Mdl) (tn : Transaction) (w : W) (a : nat).

Definition set_heap w md : Mdl :=
  mkModel w (md_next_id md) (md_versions md) (md_fresh md) (md_current md) (md_commit_sink md)
    (md_damage_sink md) (md_state_sink md) (md_flushed md) (md_retained md).
Definition set_versions (vs : gmap nat (Version * nat)) md : Mdl :=
  mkModel (md_heap md) (md_next_id md) vs (md_fresh md) (md_current md) (md_commit_sink md)
    (md_damage_sink md) (md_state_sink md) (md_flushed md) (md_retained md).

(** [set_commit_sink], [set_damage_sink] and [set_state_ref_sink]. *)
Definition set_commit_sink (on : bool) md : Mdl :=
  mkModel (md_heap md) (md_next_id md) (md_versions md) (md_fresh md) (md_current md) on
    (md_damage_sink md) (md_state_sink md) (md_flushed md) (md_retained md).
Definition set_damage_sink (on : bool) md : Mdl :=
  mkModel (md_heap md) (md_next_id md) (md_versions md) (md_fresh md) (md_current md)
    (md_commit_sink md) on (md_state_sink md) (md_flushed md) (md_retained md).
Definition set_state_ref_sink (on : bool) md : Mdl :=
  mkModel (md_heap md) (md_next_id md) (md_versions md) (md_fresh md) (md_current md)
    (md_commit_sink md) (md_damage_sink md) on (md_flushed md) (md_retained md).

(** Another [shared_ptr] to a version. *)
Definition pin a md : Mdl :=
  match md_versions md !! a with
  | Some (v, uses) => set_versions (<[a := (v, S uses)]> (md_versions md)) md
  | None => md
  end.

(** A [shared_ptr] goes: the last one runs [~DocRoot], which releases the root. *)
Definition unpin a md : Mdl :=
  match md_versions md !! a with
  | Some (v, S (S uses)) => set_versions (<[a := (v, S uses)]> (md_versions md)) md
  | Some (v, _) =>
      set_heap (drop_root (vn_root v) (md_heap md)) (set_versions (delete a (md_versions md)) md)
  | None => md
  end.

Definition version_of a md : Version :=
  from_option fst (mkVersion None 0) (md_versions md !! a).

(** A copy of a root [Ref]. *)
Definition copy_root (root : option SlotIndex) : ST W failure (option SlotIndex) := fun w =>
  match root with
  | None => (w, Ok None)
  | Some i =>
      match rh_retain (nodes, i) w with
      | (w, Ok _) => (w, Ok (Some i))
      | (w, Err _) => (w, Err OutOfBounds)
      end
  end.

(** [make_shared<DocRoot>] and the store to [d_current]; the version it replaces loses
    one pointer. *)
Definition publish (v : Version) md : Mdl :=
  let old := md_current md in
  let md := mkModel (md_heap md) (md_next_id md) (<[md_fresh md := (v, 1%nat)]> (md_versions md))
              (S (md_fresh md)) (md_fresh md) (md_commit_sink md) (md_damage_sink md)
              (md_state_sink md) (md_flushed md) (md_retained md) in
  unpin old md.

Definition flush_damage (damage : list Damage) md : Mdl :=
  if md_damage_sink md then
    mkModel (md_heap md) (md_next_id md) (md_versions md) (md_fresh md) (md_current md)
      (md_commit_sink md) (md_damage_sink md) (md_state_sink md) (damage :: md_flushed md)
      (md_retained md)
  else md.

(** [Model::drain]. *)
Definition drain_model : ST Mdl failure unit := fun md =>
  let '(w, r) := rh_drain (md_heap md) in (set_heap w md, r).

(** *** Transactions *)

(** [Transaction(model, name)]. *)
Definition transact (name : string) : ST Mdl failure Transaction := fun md =>
  let a := md_current md in
  let md := pin a md in
  let v := version_of a md in
  match copy_root (vn_root v) (md_heap md) with
  | (w, Ok root) =>
      (set_heap w md, Ok (mkTransaction name k_no_coalesce a root (u64 (vn_revision v + 1))
                            [] [] [] true (Ok tt)))
  | (w, Err e) => (set_heap w md, Err e)
  end.

(** Its mutators, on the working tree and the model's counter. *)
Definition working (md : Mdl) tn : Txn (DocStore W) :=
  mkTxn (mkStore (md_heap md) (tn_root tn)) (md_next_id md) (md_state_sink md) (md_retained md)
    (tn_publish tn) (tn_touched tn) (tn_contents tn) (tn_damage tn) (tn_status tn).

Definition worked (t : Txn (DocStore W)) md tn : Mdl * Transaction :=
  (mkModel (ds_heap (tx_store t)) (tx_next_id t) (md_versions md) (md_fresh md) (md_current md)
     (md_commit_sink md) (md_damage_sink md) (md_state_sink md) (md_flushed md) (tx_retained t),
   mkTransaction (tn_name tn) (tn_coalesce tn) (tn_base tn) (ds_root (tx_store t)) (tn_publish tn)
     (tx_touched t) (tx_contents t) (tx_damage t) (tn_open tn) (tx_status t)).

Definition mutate (c : command) (md : Mdl) tn : Mdl * Transaction :=
  worked (exec c (working md tn)) md tn.

Definition coalesce (key : CoalesceKey) tn : Transaction :=
  mkTransaction (tn_name tn) key (tn_base tn) (tn_root tn) (tn_publish tn) (tn_touched tn)
    (tn_contents tn) (tn_damage tn) (tn_open tn) (tn_status tn).

(** The transaction's root [Ref] moved out, and [d_open] cleared. *)
Definition close tn : Transaction :=
  mkTransaction (tn_name tn) (tn_coalesce tn) (tn_base tn) None (tn_publish tn) (tn_touched tn)
    (tn_contents tn) (tn_damage tn) false (tn_status tn).

Definition abort md tn : Mdl * Transaction :=
  if tn_open tn then
    (set_heap (drop_root (tn_root tn) (md_heap md)) md,
     mkTransaction (tn_name tn) (tn_coalesce tn) (tn_base tn) None (tn_publish tn) [] [] []
       false (tn_status tn))
  else (md, tn).

(** [~Transaction]: its root and its pin go. *)
Definition destroy md tn : Mdl :=
  unpin (tn_base tn) (set_heap (drop_root (tn_root tn) (md_heap md)) md).

(** *** The journal entry *)

Definition drop_record (o : option SlotIndex) w : W :=
  match o with Some i => rh_release (records, i) w | None => w end.

Definition drop_edit (e : ObjectEdit) w : W := drop_record (ed_after e) (drop_record (ed_before e) w).

(** [~JournalEntry]. *)
Definition drop_edits (edits : list ObjectEdit) w : W := foldr drop_edit w edits.

(** A local that owns an optional record reference, dropped if the rest fails. *)
Definition holding {A} (o : option SlotIndex) (m : ST W failure A) : ST W failure A := fun w =>
  match m w with
  | (w, Ok x) => (w, Ok x)
  | (w, Err e) => (drop_record o w, Err e)
  end.

(** [hamt_lookup] of an id in a version, and [resolve] of the edge found. *)
Definition resolve_edge (root : option SlotIndex) (id : ObjectId) :
    ST W failure (option SlotIndex) := fun w =>
  match hamt_lookup w root id with
  | Err e => (w, Err e)
  | Ok None => (w, Ok None)
  | Ok (Some i) =>
      match rh_retain (records, i) w with
      | (w, Ok _) => (w, Ok (Some i))
      | (w, Err _) => (w, Err (Refused CapacityExhausted))
      end
  end.

(** The edits of the touched ids; a failure drops the entry built so far. *)
Fixpoint build_edits (base root : option SlotIndex) (touched : list ObjectId) :
    ST W failure (list ObjectEdit) :=
  match touched with
  | [] => mret []
  | id :: touched =>
      before ← resolve_edge base id;
      after ← holding before (resolve_edge root id);
      rest ← holding before (holding after (build_edits base root touched));
      mret (mkEdit id before after :: rest)
  end.

(** [commit]: the status, and the entry handed to the commit sink. *)
Definition commit md tn :
    Mdl * Transaction * expected failure unit * option JournalEntry :=
  if negb (tn_open tn) then (md, tn, tn_status tn, None)
  else
    match tn_status tn with
    | Err e => (md, tn, Err e, None)
    | Ok _ =>
        let '(w, built) :=
          if md_commit_sink md then
            build_edits (vn_root (version_of (tn_base tn) md)) (tn_root tn) (tn_touched tn)
              (md_heap md)
          else (md_heap md, Ok []) in
        let md := set_heap w md in
        match built with
        | Err e =>
            (md, mkTransaction (tn_name tn) (tn_coalesce tn) (tn_base tn) (tn_root tn)
                   (tn_publish tn) (tn_touched tn) (tn_contents tn) (tn_damage tn) true (Err e),
             Err e, None)
        | Ok edits =>
            let entry := mkEntry (tn_name tn) (tn_coalesce tn) edits (tn_contents tn) (tn_damage tn) in
            let md := publish (mkVersion (tn_root tn) (tn_publish tn)) md in
            let md := flush_damage (tn_damage tn) md in
            (md, close tn, Ok tt, if md_commit_sink md then Some entry else None)
        end
    end.

(** [load_baseline]: a transaction stamped and published at revision 0, unjournaled. *)
Definition load_baseline (build : list command) : ST Mdl failure unit := fun md =>
  match transact "load" md with
  | (md, Err e) => (md, Err e)
  | (md, Ok tn) =>
      let tn := mkTransaction (tn_name tn) (tn_coalesce tn) (tn_base tn) (tn_root tn) 0
                  (tn_touched tn) (tn_contents tn) (tn_damage tn) (tn_open tn) (tn_status tn) in
      let '(md, tn) := foldl (fun x c => mutate c x.1 x.2) (md, tn) build in
      match tn_status tn with
      | Err e => (destroy md tn, Err e)
      | Ok _ =>
          let md := publish (mkVersion (tn_root tn) 0) md in
          let md := flush_damage (tn_damage tn) md in
          (destroy md (close tn), Ok tt)
      end
  end.

(** *** Navigation *)

Inductive NavDirection := Undo | Redo.

Definition nav_target (dir : NavDirection) (e : ObjectEdit) : option SlotIndex :=
  match dir with Undo => ed_before e | Redo => ed_after e end.

(** One object rebound or erased; then the working root is replaced, or dropped. *)
Definition rebound (dir : NavDirection) (e : ObjectEdit) (root : option SlotIndex) :
    ST W failure (option SlotIndex) :=
  match nav_target dir e with
  | Some target => to_ref (hamt_insert root (ed_object e) target)
  | None => hamt_erase root (ed_object e)
  end.
Definition rebind (dir : NavDirection) (e : ObjectEdit) (root : option SlotIndex) :
    ST W failure (option SlotIndex) := fun w =>
  match rebound dir e root w with
  | (w, Ok next) => (drop_root root w, Ok next)
  | (w, Err err) => (drop_root root w, Err err)
  end.

Fixpoint rebind_all (dir : NavDirection) (edits : list ObjectEdit) (root : option SlotIndex) :
    ST W failure (option SlotIndex) :=
  match edits with
  | [] => mret root
  | e :: edits => root ← rebind dir e root; rebind_all dir edits root
  end.

Definition navigate (entry : JournalEntry) (dir : NavDirection) : ST Mdl failure unit := fun md =>
  let a := md_current md in
  let md := pin a md in
  let v := version_of a md in
  match (root ← copy_root (vn_root v); rebind_all dir (en_objects entry) root) (md_heap md) with
  | (w, Err e) => (unpin a (set_heap w md), Err e)
  | (w, Ok root) =>
      let md := publish (mkVersion root (u64 (vn_revision v + 1))) (set_heap w md) in
      let md := flush_damage (en_damage entry) md in
      (unpin a md, Ok tt)
  end.

(** [Model()]: an empty document at revision 0. *)
Definition new_model w : Mdl :=
  mkModel w 1 {[0%nat := (mkVersion None 0, 1%nat)]} 1 0 false false false [] [].
End model.

(** ** The model's invariant

    [model_inv md ext holders]: the counts of the heap are those of the versions' roots
    and of [ext], every version reads as a tree, and the [shared_ptr]s to each are those
    of [holders] -- the current one and the pins. *)

Definition version_refs (vs : gmap nat (Version * nat)) : gmultiset ref :=
  map_fold (fun _ v acc => opt_one (vn_root v.1) ⊎ acc) ∅ vs.

Lemma version_refs_insert vs a v u :
  vs !! a = None → version_refs (<[a := (v, u)]> vs) = opt_one (vn_root v) ⊎ version_refs vs.
Proof.
  intros Ha. unfold version_refs. rewrite map_fold_insert_L; [done| |done].
  intros b1 b2 v1 v2 acc _ _ _. apply disj_union_swap.
Qed.

Lemma version_refs_delete vs a v u :
  vs !! a = Some (v, u) → version_refs vs = opt_one (vn_root v) ⊎ version_refs (delete a vs).
Proof.
  intros Ha. rewrite <- (insert_delete_id vs a (v, u)) at 1 by done.
  apply version_refs_insert, lookup_delete_eq.
Qed.

Lemma version_refs_uses vs a v u u' :
  vs !! a = Some (v, u) → version_refs (<[a := (v, u')]> vs) = version_refs vs.
Proof.
  intros Ha. rewrite (version_refs_delete vs a v u Ha), <- insert_delete_eq.
  apply version_refs_insert, lookup_delete_eq.
Qed.

Section versions.
Context {W : Type} `{!RefHeap W (cell ObjectRecord)}.
Implicit Types (md : Model W) (w : W) (ext X : gmultiset ref) (holders H : gmultiset nat)
  (a b : nat) (v : Version) (m : gmap Z SlotIndex) (root : option SlotIndex).

Record model_inv md ext holders : Prop := {
  mi_heap : rh_inv (md_heap md) (version_refs (md_versions md) ⊎ ext);
  mi_version a v u : md_versions md !! a = Some (v, u) →
    u = multiplicity a holders ∧ (0 < u)%nat ∧ (a < md_fresh md)%nat ∧
    ∃ m, version (rh_cells (md_heap md)) (vn_root v) m;
  mi_held a : a ∈ holders → is_Some (md_versions md !! a) }.

(** The version at an address binds the slots [m]. *)
Definition slots_of md a m : Prop :=
  ∃ v u, md_versions md !! a = Some (v, u) ∧ version (rh_cells (md_heap md)) (vn_root v) m.

(** What is kept of [md] in [md']: the versions that are still held. *)
Definition versions_same md md' H : Prop :=
  ∀ a, a ∈ H → version_of a md' = version_of a md ∧ ∀ m, slots_of md a m → slots_of md' a m.

Lemma model_inv_holders md ext H H' : model_inv md ext H → H = H' → model_inv md ext H'.
Proof. by intros I ->. Qed.

Lemma slots_of_heap md w a m :
  rh_cells (md_heap md) ⊆ rh_cells w → slots_of md a m → slots_of (set_heap w md) a m.
Proof.
  intros Hs (v & u & Ha & Hv). exists v, u. split; [done|]. by eapply versions_kept_subseteq.
Qed.

(** The heap moves on: nothing is freed, the counts balance. *)
Lemma model_inv_heap md ext ext' H w :
  model_inv md ext H → rh_cells (md_heap md) ⊆ rh_cells w →
  rh_inv w (version_refs (md_versions md) ⊎ ext') → model_inv (set_heap w md) ext' H.
Proof.
  intros I Hs I'. split; [done| |apply I]. intros a v u Ha.
  destruct (mi_version _ _ _ I a v u Ha) as (H1 & H2 & H3 & m & Hv).
  split_and!; [done..|]. exists m. by eapply versions_kept_subseteq.
Qed.

Lemma pin_spec md ext H a :
  model_inv md ext H → is_Some (md_versions md !! a) →
  model_inv (pin a md) ext ({[+ a +]} ⊎ H) ∧ md_heap (pin a md) = md_heap md ∧
  md_current (pin a md) = md_current md ∧ md_fresh (pin a md) = md_fresh md ∧
  (∀ b, version_of b (pin a md) = version_of b md) ∧
  ∀ b m, slots_of md b m → slots_of (pin a md) b m.
Proof.
  intros I [[v u] Ha]. unfold pin. rewrite Ha. cbn.
  split; [|split_and!; try done].
  - split; cbn.
    + rewrite (version_refs_uses _ _ _ _ _ Ha). apply I.
    + intros b vb ub Hb. rewrite multiplicity_disj_union.
      apply lookup_insert_Some in Hb as [[<- [= <- <-]]|[Hne Hb]].
      * destruct (mi_version _ _ _ I a v u Ha) as (-> & H2 & H3 & Hm).
        rewrite multiplicity_singleton_eq. split_and!; [lia|lia|done..].
      * destruct (mi_version _ _ _ I b vb ub Hb) as (-> & H2 & H3 & Hm).
        rewrite multiplicity_singleton_ne by done. split_and!; [lia|lia|done..].
    + intros b Hb. apply gmultiset_elem_of_disj_union in Hb as [Hb|Hb].
      * apply gmultiset_elem_of_singleton in Hb as ->. rewrite lookup_insert_eq. by eexists.
      * destruct (decide (b = a)) as [->|Hne]; [rewrite lookup_insert_eq; by eexists|].
        rewrite lookup_insert_ne by done. by apply I.
  - intros b. unfold version_of. cbn. destruct (decide (b = a)) as [->|Hne].
    + by rewrite lookup_insert_eq, Ha.
    + by rewrite lookup_insert_ne by done.
  - intros b m (vb & ub & Hb & Hv). destruct (decide (b = a)) as [->|Hne].
    + exists v, (S u). cbn. rewrite lookup_insert_eq. split; [done|]. congruence.
    + exists vb, ub. cbn. by rewrite lookup_insert_ne by done.
Qed.

(** Dropping a pointer keeps every version another one holds. *)
Lemma unpin_spec md ext H a :
  model_inv md ext ({[+ a +]} ⊎ H) →
  model_inv (unpin a md) ext H ∧ rh_cells (md_heap (unpin a md)) = rh_cells (md_heap md) ∧
  md_current (unpin a md) = md_current md ∧ md_fresh (unpin a md) = md_fresh md ∧
  versions_same md (unpin a md) H.
Proof.
  intros I. destruct (mi_held _ _ _ I a) as [[v u] Ha].
  { rewrite gmultiset_elem_of_disj_union, gmultiset_elem_of_singleton. auto. }
  destruct (mi_version _ _ _ I a v u Ha) as (Hu & Hu0 & Hf & m0 & Hv0).
  rewrite multiplicity_disj_union, multiplicity_singleton_eq in Hu.
  unfold unpin. rewrite Ha. destruct u as [|[|u]]; [lia| |].
  - (* the last pointer *)
    pose proof (mi_heap _ _ _ I) as Ih. rewrite (version_refs_delete _ _ _ _ Ha) in Ih.
    rewrite <- (assoc_L (⊎)) in Ih. destruct (drop_root_spec _ _ _ Ih) as [Ec I'].
    assert (∀ b, b ∈ H → b ≠ a) as Hne.
    { intros b Hb ->. assert (0 < multiplicity a H)%nat by exact Hb. lia. }
    cbn. rewrite Ec. split; [|split_and!; try done].
    + split; cbn; [done| |].
      * intros b vb ub Hb. apply lookup_delete_Some in Hb as [Hba Hb].
        destruct (mi_version _ _ _ I b vb ub Hb) as (-> & H2 & H3 & Hm). rewrite Ec.
        rewrite multiplicity_disj_union, multiplicity_singleton_ne in * by done. done.
      * intros b Hb. rewrite lookup_delete_ne by (symmetry; by apply Hne). apply (mi_held _ _ _ I).
        rewrite gmultiset_elem_of_disj_union. auto.
    + intros b Hb. pose proof (Hne b Hb). split.
      * unfold version_of. cbn. by rewrite lookup_delete_ne by done.
      * intros m (vb & ub & Hvb & Hv). exists vb, ub. cbn. rewrite Ec.
        by rewrite lookup_delete_ne by done.
  - cbn. split; [|split_and!; try done].
    + split; cbn.
      * rewrite (version_refs_uses _ _ _ _ _ Ha). apply I.
      * intros b vb ub Hb. apply lookup_insert_Some in Hb as [[<- [= <- <-]]|[Hne Hb]].
        -- split_and!; [lia|lia|done|by exists m0].
        -- destruct (mi_version _ _ _ I b vb ub Hb) as (-> & H2 & H3 & Hm).
           rewrite multiplicity_disj_union, multiplicity_singleton_ne in * by done. done.
      * intros b Hb. destruct (decide (b = a)) as [->|Hne]; [rewrite lookup_insert_eq; by eexists|].
        rewrite lookup_insert_ne by done. apply (mi_held _ _ _ I).
        rewrite gmultiset_elem_of_disj_union. auto.
    + intros b Hb. destruct (decide (b = a)) as [->|Hne].
      * split; [unfold version_of; cbn; by rewrite lookup_insert_eq, Ha|].
        intros m (vb & ub & Hvb & Hv). exists v, (S u). cbn. rewrite lookup_insert_eq.
        split; [done|]. congruence.
      * split; [unfold version_of; cbn; by rewrite lookup_insert_ne by done|].
        intros m (vb & ub & Hvb & Hv). exists vb, ub. cbn. by rewrite lookup_insert_ne by done.
Qed.
End versions.

(** *** Copying a root, publishing a version *)

Section operations.
Context {W : Type} `{!RefHeap W (cell ObjectRecord)}.
Implicit Types (md : Model W) (tn : Transaction) (w : W) (ext X : gmultiset ref)
  (holders H : gmultiset nat) (a b : nat) (v : Version) (m : gmap Z SlotIndex)
  (root : option SlotIndex).

Lemma copy_root_spec w X root w' x :
  rh_inv w X → root_counted w X root → copy_root root w = (w', x) →
  rh_cells w' = rh_cells w ∧
  match x with
  | Ok root' => root' = root ∧ rh_inv w' (opt_one root ⊎ X)
  | Err e => e = OutOfBounds ∧ rh_inv w' X
  end.
Proof.
  intros I Hr. destruct root as [i|]; cbn [copy_root].
  - destruct (rh_retain (nodes, i) w) as [w1 [[]|e]] eqn:E; intros [= <- <-].
    + by destruct (rh_retain_ok _ _ _ _ _ I (Hr i eq_refl) E) as [Ec I'].
    + by destruct (rh_retain_err _ _ _ _ _ I (Hr i eq_refl) E) as (Ec & I' & _).
  - intros [= <- <-]. by rewrite opt_one_none.
Qed.

(** A version's root is counted. *)
Lemma version_root_in (vs : gmap nat (Version * nat)) a v u i :
  vs !! a = Some (v, u) → vn_root v = Some i → (nodes, i) ∈ version_refs vs.
Proof.
  intros Ha Hi. rewrite (version_refs_delete _ _ _ _ Ha), Hi, gmultiset_elem_of_disj_union.
  left. cbn. unfold one. by apply gmultiset_elem_of_singleton.
Qed.

Lemma version_counted md ext H a v u :
  md_versions md !! a = Some (v, u) →
  root_counted (md_heap md) (version_refs (md_versions md) ⊎ ext) (vn_root v).
Proof.
  intros Ha i Hi. rewrite !gmultiset_elem_of_disj_union. left; left.
  by eapply version_root_in.
Qed.

Lemma model_inv_fresh md ext H a : model_inv md ext H → a ∈ H → (a < md_fresh md)%nat.
Proof.
  intros I Ha. destruct (mi_held _ _ _ I a Ha) as [[v u] E]. by destruct (mi_version _ _ _ I a v u E) as (_ & _ & Hf & _).
Qed.

Lemma holders_swap (X Y Z : gmultiset nat) : X ⊎ (Y ⊎ Z) = Y ⊎ (X ⊎ Z).
Proof. by rewrite !(assoc_L (⊎)), (comm_L (⊎) X). Qed.

(** What [make_shared<DocRoot>] adds to the table. *)
Definition with_version (v : Version) md : Model W :=
  mkModel (md_heap md) (md_next_id md) (<[md_fresh md := (v, 1%nat)]> (md_versions md))
    (S (md_fresh md)) (md_fresh md) (md_commit_sink md) (md_damage_sink md)
    (md_state_sink md) (md_flushed md) (md_retained md).

Lemma with_version_inv v md ext H m :
  model_inv md (opt_one (vn_root v) ⊎ ext) H → version (rh_cells (md_heap md)) (vn_root v) m →
  model_inv (with_version v md) ext ({[+ md_fresh md +]} ⊎ H) ∧
  slots_of (with_version v md) (md_fresh md) m ∧ version_of (md_fresh md) (with_version v md) = v ∧
  versions_same md (with_version v md) H.
Proof.
  intros I Hv. pose proof (fun a => model_inv_fresh _ _ _ a I) as Hlt.
  assert (md_versions md !! md_fresh md = None) as Hnone.
  { apply eq_None_not_Some. intros [[v0 u0] E].
    destruct (mi_version _ _ _ I _ _ _ E) as (_ & _ & Hf & _). lia. }
  assert (multiplicity (md_fresh md) H = 0%nat) as Hm0.
  { destruct (multiplicity (md_fresh md) H) eqn:E; [done|].
    assert (md_fresh md ∈ H) as Hin by (by rewrite elem_of_multiplicity, E; lia).
    specialize (Hlt _ Hin). lia. }
  split; [|split_and!].
  - split; cbn.
    + rewrite version_refs_insert by done. rewrite <- (assoc_L (⊎)), disj_union_swap. apply I.
    + intros b vb ub Hb. apply lookup_insert_Some in Hb as [[<- [= <- <-]]|[Hne Hb]].
      * rewrite multiplicity_disj_union, multiplicity_singleton_eq, Hm0.
        split_and!; [done|lia|lia|by exists m].
      * destruct (mi_version _ _ _ I b vb ub Hb) as (-> & H2 & H3 & Hmb).
        rewrite multiplicity_disj_union, multiplicity_singleton_ne by done.
        split_and!; [done|done|lia|done].
    + intros b Hb. destruct (decide (b = md_fresh md)) as [->|Hne].
      * rewrite lookup_insert_eq. by eexists.
      * rewrite lookup_insert_ne by done. apply (mi_held _ _ _ I).
        apply gmultiset_elem_of_disj_union in Hb as [Hb|Hb]; [|done].
        by apply gmultiset_elem_of_singleton in Hb.
  - exists v, 1%nat. cbn. by rewrite lookup_insert_eq.
  - unfold version_of. cbn. by rewrite lookup_insert_eq.
  - intros b Hb. specialize (Hlt b Hb). split.
    + unfold version_of. cbn. by rewrite lookup_insert_ne by lia.
    + intros m' (vb & ub & Hvb & Hv'). exists vb, ub. cbn. by rewrite lookup_insert_ne by lia.
Qed.

Lemma versions_same_trans md1 md2 md3 H H' :
  versions_same md1 md2 H → versions_same md2 md3 H' → (∀ a, a ∈ H' → a ∈ H) →
  versions_same md1 md3 H'.
Proof.
  intros H1 H2 Hs a Ha. destruct (H1 a (Hs a Ha)) as [E1 S1]. destruct (H2 a Ha) as [E2 S2].
  split; [by rewrite E2|]. intros m Hm. by apply S2, S1.
Qed.

(** Publishing takes over the reference to the root and the current pointer. *)
Lemma publish_spec v md ext H m :
  model_inv md (opt_one (vn_root v) ⊎ ext) ({[+ md_current md +]} ⊎ H) →
  version (rh_cells (md_heap md)) (vn_root v) m →
  let md' := publish v md in
  model_inv md' ext ({[+ md_current md' +]} ⊎ H) ∧ slots_of md' (md_current md') m ∧
  version_of (md_current md') md' = v ∧ rh_cells (md_heap md') = rh_cells (md_heap md) ∧
  versions_same md md' H.
Proof.
  intros I Hv md'. destruct (with_version_inv v md ext _ m I Hv) as (I1 & Hs1 & Ev1 & Hk1).
  rewrite (holders_swap {[+ md_fresh md +]}) in I1.
  destruct (unpin_spec (with_version v md) _ _ _ I1) as (I2 & Ec2 & Ecur & _ & Hk2).
  unfold md'. unfold publish. cbv zeta. fold (with_version v md).
  rewrite Ecur. cbn [with_version md_current] in *.
  destruct (Hk2 (md_fresh md)) as [E2 S2].
  { rewrite gmultiset_elem_of_disj_union, gmultiset_elem_of_singleton. auto. }
  split; [exact I2|]. split; [by apply S2|]. split; [by rewrite E2|]. split; [exact Ec2|].
  eapply versions_same_trans; [exact Hk1| |].
  - intros b Hb. apply Hk2. rewrite gmultiset_elem_of_disj_union. auto.
  - intros b Hb. rewrite gmultiset_elem_of_disj_union. auto.
Qed.
End operations.

(** *** The edits of a commit *)

(** The counts an entry's edges hold. *)
Definition record_ref (o : option SlotIndex) : gmultiset ref :=
  match o with Some i => {[+ (records, i) +]} | None => ∅ end.
Definition edit_refs (edits : list ObjectEdit) : gmultiset ref :=
  foldr (fun e (acc : gmultiset ref) => record_ref (ed_before e) ⊎ (record_ref (ed_after e) ⊎ acc)) ∅ edits.

(** The edits name the slots of [before] and of [after] at each of their ids, and no
    other id moved between the two. *)
Record records_step (edits : list ObjectEdit) (before after : gmap Z SlotIndex) : Prop := {
  rs_nodup : NoDup (map ed_object edits);
  rs_edges e : e ∈ edits → ed_before e = before !! ed_object e ∧ ed_after e = after !! ed_object e;
  rs_same id : id ∉ map ed_object edits → after !! id = before !! id }.

Section edits.
Context {W : Type} `{!RefHeap W (cell ObjectRecord)}.
Implicit Types (w : W) (ext X : gmultiset ref) (m : gmap Z SlotIndex) (root : option SlotIndex)
  (o : option SlotIndex) (cells old : gmap SlotIndex (cell ObjectRecord)).

Lemma record_ref_none X : record_ref None ⊎ X = X.
Proof. apply (left_id_L ∅ (⊎)). Qed.

Lemma drop_record_spec w X o :
  rh_inv w (record_ref o ⊎ X) →
  rh_cells (drop_record o w) = rh_cells w ∧ rh_inv (drop_record o w) X.
Proof.
  destruct o as [i|]; cbn [drop_record record_ref]; intros I; [by apply rh_release_spec|].
  by rewrite (left_id_L ∅ (⊎)) in I.
Qed.

(** [~JournalEntry] gives back exactly what its edges held. *)
Lemma drop_edits_spec edits : ∀ w X,
  rh_inv w (edit_refs edits ⊎ X) →
  rh_cells (drop_edits edits w) = rh_cells w ∧ rh_inv (drop_edits edits w) X.
Proof.
  induction edits as [|e edits IH]; intros w X I.
  - split; [done|]. cbn in I. by rewrite (left_id_L ∅ (⊎)) in I.
  - cbn [edit_refs foldr] in I. rewrite <- !(assoc_L (⊎)) in I.
    rewrite (disj_union_swap (record_ref (ed_after e))), (disj_union_swap (record_ref (ed_before e))) in I.
    destruct (IH _ _ I) as [Ec1 I1]. change (drop_edits (e :: edits) w) with (drop_edit e (drop_edits edits w)). unfold drop_edit.
    destruct (drop_record_spec _ _ _ I1) as [Ec2 I2].
    destruct (drop_record_spec _ _ _ I2) as [Ec3 I3].
    split; [by rewrite Ec3, Ec2, Ec1|done].
Qed.

Lemma holding_outcome {A : Type} old X (O : A → gmultiset ref) Q o (c : ST W failure A) w :
  outcome old (record_ref o ⊎ X) O Q (c w) →
  outcome old X (fun a => O a ⊎ record_ref o) Q (holding o c w).
Proof.
  unfold holding. destruct (c w) as [w' [a|e]]; cbn.
  - intros (I & Hs & Hq). split_and!; [|done|done]. by rewrite <- (assoc_L (⊎)).
  - intros (I & Hs & He). destruct (drop_record_spec _ _ _ I) as [Ec I'].
    split_and!; [done|by rewrite Ec|done].
Qed.

Lemma version_mono (cells cells' : gmap SlotIndex (cell ObjectRecord)) root m :
  cells ⊆ cells' → version cells root m → version cells' root m.
Proof. intros Hs Hv. destruct root as [i|]; [by eapply tree_mono|exact Hv]. Qed.

Lemma version_edge (cells : gmap SlotIndex (cell ObjectRecord)) root m id i :
  version cells root m → m !! id = Some i → (records, i) ∈ all_edges cells.
Proof.
  intros Hv Hi. destruct root as [j|]; cbn in Hv; [by eapply tree_edges|].
  by rewrite Hv, lookup_empty in Hi.
Qed.

Lemma resolve_edge_outcome w X old root m id :
  rh_inv w X → version old root m → old ⊆ rh_cells w →
  outcome old X record_ref (fun _ o => o = m !! id) (resolve_edge root id w).
Proof.
  intros I Hold Hs. assert (version (rh_cells w) root m) as Hv by (by apply (version_mono old)).
  unfold resolve_edge. rewrite (hamt_lookup_version _ _ _ _ Hv).
  destruct (m !! id) as [i|] eqn:E.
  2:{ cbn. by rewrite record_ref_none. }
  assert ((records, i) ∈ X ⊎ all_edges (rh_cells w)) as Hin.
  { rewrite gmultiset_elem_of_disj_union. right. by eapply version_edge. }
  destruct (rh_retain (records, i) w) as [w' [[]|e]] eqn:Er; cbn.
  - destruct (rh_retain_ok _ _ _ _ _ I Hin Er) as [Ec I']. by rewrite Ec.
  - destruct (rh_retain_err _ _ _ _ _ I Hin Er) as (Ec & I' & _). rewrite Ec. by eauto.
Qed.

Lemma build_edits_outcome base root mb m old touched : version old base mb → version old root m →
  ∀ w X, rh_inv w X → old ⊆ rh_cells w →
  outcome old X edit_refs (fun _ edits => map ed_object edits = touched ∧
    ∀ e, e ∈ edits → ed_before e = mb !! ed_object e ∧ ed_after e = m !! ed_object e)
    (build_edits base root touched w).
Proof.
  intros Hb Hm. induction touched as [|id touched IH]; intros w X I Hs.
  { cbn. rewrite (left_id_L ∅ (⊎)). split_and!; try done.
    intros e He. by apply not_elem_of_nil in He. }
  cbn [build_edits].
  eapply outcome_bind; [by apply (resolve_edge_outcome w X old base mb)|].
  intros w1 before I1 Hs1 Eb.
  eapply outcome_bind; [apply holding_outcome; by apply (resolve_edge_outcome w1 _ old root m)|].
  intros w2 after I2 Hs2 Ea. cbn beta in I2.
  eapply outcome_bind.
  { do 2 apply holding_outcome. apply IH; [|done].
    by rewrite <- (assoc_L (⊎)) in I2. }
  intros w3 rest I3 Hs3 [Er He]. cbn beta in I3. apply outcome_ret; [|done|].
  - cbn [edit_refs foldr ed_before ed_after]. rewrite <- !(assoc_L (⊎)) in I3.
    rewrite (disj_union_swap (edit_refs rest)), (disj_union_swap (edit_refs rest)),
      (disj_union_swap (record_ref after)) in I3.
    by rewrite <- !(assoc_L (⊎)).
  - split; [cbn; by rewrite Er|]. intros e Hin. apply elem_of_cons in Hin as [->|Hin]; [done|].
    by apply He.
Qed.
End edits.

(** *** A transaction on the model *)

Section transaction.
Context {W : Type} `{!RefHeap W (cell ObjectRecord)}.
Implicit Types (md : Model W) (tn : Transaction) (w : W) (ext X : gmultiset ref)
  (holders H : gmultiset nat) (a b : nat) (v : Version) (m mb : gmap Z SlotIndex)
  (root : option SlotIndex).

(** Keys are object ids. *)
Definition keys_u64 m : Prop := ∀ k i, m !! k = Some i → in_u64 k.

Lemma keys_u64_empty : keys_u64 ∅.
Proof. intros k i []%lookup_empty_Some. Qed.

Lemma keys_u64_insert m k (i : SlotIndex) : in_u64 k → keys_u64 m → keys_u64 (<[k := i]> m).
Proof. intros Hk Hm k' i' [[<- _]|[_ Hi]]%lookup_insert_Some; [done|by eapply Hm]. Qed.

Lemma keys_u64_delete m k : keys_u64 m → keys_u64 (delete k m).
Proof. intros Hm k' i' [_ Hi]%lookup_delete_Some. by eapply Hm. Qed.

(** [m] is [mb] but for the touched ids. *)
Record forked (touched : list ObjectId) mb m : Prop := {
  fk_same id : id ∉ touched → m !! id = mb !! id;
  fk_keys : keys_u64 mb → keys_u64 m }.

(** The working tree binds what the pinned version binds, but for the touched ids. *)
Record slot_inv ext (base : gmap SlotIndex (cell ObjectRecord)) mb
    (t : Txn (DocStore W)) : Prop := {
  si_nodup : NoDup (tx_touched t);
  si_slots : ∃ m, store_at ext base (tx_store t) m ∧ forked (tx_touched t) mb m }.

Lemma slot_inv_same ext base mb t t' :
  slot_inv ext base mb t → tx_touched t' = tx_touched t → tx_store t' = tx_store t →
  slot_inv ext base mb t'.
Proof. intros [Hn Hs] Et Es. split; rewrite ?Et, ?Es; done. Qed.

(** A refused binding or erasure leaves the tree bound as it was. *)
Lemma slot_inv_refused ext base mb t t' m :
  slot_inv ext base mb t →
  forked (tx_touched t) mb m →
  store_at ext base (tx_store t') m → tx_touched t' = tx_touched t →
  slot_inv ext base mb t'.
Proof.
  intros [Hn _] Hsame Hst Et. split; [by rewrite Et|]. exists m. by rewrite Et.
Qed.

Lemma slot_inv_touch ext base mb id (t o : Txn (DocStore W)) m m' :
  NoDup (tx_touched t) → forked (tx_touched t) mb m →
  tx_touched o = tx_touched t → store_at ext base (tx_store o) m' →
  (∀ x, x ≠ id → m' !! x = m !! x) → (keys_u64 m → keys_u64 m') →
  slot_inv ext base mb (touch id o).1.
Proof.
  intros Hn [Hsame Hkeys] Et Hst Hm Hk.
  destruct (touch_touched id o) as (l & -> & Hnl & Hl); [by rewrite Et|].
  split; cbn; [done|]. exists m'. split; [done|]. split; [|auto]. intros x Hx. rewrite Hl, Et in Hx.
  rewrite Hm by tauto. apply Hsame. tauto.
Qed.

Lemma slot_inv_kept ext base mb : kept_by_primitives (slot_inv ext base mb).
Proof.
  split; try by intros; intros t I; eapply slot_inv_same; [exact I|..].
  - intros t I. unfold allocate_id. destruct (synthetic _); [done|].
    by eapply slot_inv_same; [exact I|..].
  - intros retains id rid p t I. unfold bind_record. case_bool_decide as Hid; [|done].
    destruct (os_put id _ (tx_store t)) as [s b] eqn:E. cbn in E.
    pose proof I as [Hn (m & Hst & Hsame)].
    destruct (doc_put_at _ _ _ _ _ _ _ _ Hst Hid E) as [_ Hb].
    destruct (note_retain_same retains id p (set_store s t)) as (Et & _ & Es).
    destruct b as [|e|e].
    + destruct Hb as (i & _ & Hst'). eapply slot_inv_touch; [exact Hn|exact Hsame|done| | |].
      * by rewrite Es.
      * intros x Hx. by apply lookup_insert_ne.
      * by apply keys_u64_insert.
    + destruct Hb as (_ & Hst' & _). by eapply slot_inv_refused; [exact I|..].
    + destruct Hb as (_ & Hst' & _). eapply slot_inv_refused; [exact I|done| |done].
      cbn. by rewrite Es.
  - intros id t I. unfold erase_record. destruct (os_erase id (tx_store t)) as [s x] eqn:E.
    cbn in E. pose proof I as [Hn (m & Hst & Hsame)].
    destruct (doc_erase_at _ _ _ _ _ _ _ Hst E) as [_ Hx]. destruct x as [[]|e].
    + eapply slot_inv_touch; [exact Hn|exact Hsame|done|exact Hx| |].
      * intros y Hy. by apply lookup_delete_ne.
      * apply keys_u64_delete.
    + destruct Hx as (_ & Hst' & _). by eapply slot_inv_refused; [exact I|..].
  - intros x t I. by eapply slot_inv_same; [exact I|..].
Qed.

(** An open transaction: its pin and its own root are held, and [slot_inv]. *)
Record txn_open mb ext H md tn : Prop := {
  to_model : model_inv md (opt_one (tn_root tn) ⊎ ext) ({[+ tn_base tn +]} ⊎ H);
  to_base : slots_of md (tn_base tn) mb;
  to_nodup : NoDup (tn_touched tn);
  to_slots : ∃ m, version (rh_cells (md_heap md)) (tn_root tn) m ∧ forked (tn_touched tn) mb m }.

(** The parts of the model and of the transaction that mutators leave alone. *)
Definition outline md tn :=
  (md_versions md, md_fresh md, md_current md, md_commit_sink md, md_damage_sink md,
   md_flushed md, (tn_name tn, tn_coalesce tn, tn_base tn, tn_publish tn, tn_open tn)).

Lemma versions_same_heap md md' H :
  md_versions md' = md_versions md → rh_cells (md_heap md) ⊆ rh_cells (md_heap md') →
  versions_same md md' H.
Proof.
  intros Ev Hs a _. split; [unfold version_of; by rewrite Ev|].
  intros m (v & u & Ha & Hv). exists v, u. rewrite Ev. split; [done|]. by eapply version_mono.
Qed.

(** The invariant does not look past the heap and the versions. *)
Lemma model_inv_same md md' ext H :
  md_heap md' = md_heap md → md_versions md' = md_versions md → md_fresh md' = md_fresh md →
  model_inv md ext H → model_inv md' ext H.
Proof. intros Eh Ev Ef [I1 I2 I3]. split; rewrite ?Eh, ?Ev, ?Ef; done. Qed.

Lemma mutate_spec c md tn mb ext H md' tn' :
  txn_open mb ext H md tn → mutate c md tn = (md', tn') →
  txn_open mb ext H md' tn' ∧ outline md' tn' = outline md tn ∧
  rh_cells (md_heap md) ⊆ rh_cells (md_heap md').
Proof.
  intros [I Hb Hn (m & Hv & Hsame)]. unfold mutate, worked. intros [= <- <-].
  set (t := exec c (working md tn)).
  assert (slot_inv (version_refs (md_versions md) ⊎ ext) (rh_cells (md_heap md)) mb t)
    as [Hn' (m' & [Ih Hs Hv'] & Hsame')].
  { apply exec_keeps; [apply slot_inv_kept|]. split; [exact Hn|]. exists m. split; [|exact Hsame].
    split; cbn; [rewrite disj_union_swap; apply I|done|done]. }
  rewrite disj_union_swap in Ih. split; [|split; [done|exact Hs]].
  split; cbn [tn_root tn_base tn_touched md_heap].
  - eapply (model_inv_same (set_heap (ds_heap (tx_store t)) md)); [done..|].
    by eapply model_inv_heap.
  - destruct Hb as (v & u & Ha & Hvb). exists v, u. split; [done|]. by eapply version_mono.
  - exact Hn'.
  - by exists m'.
Qed.

Definition mutate_all (cs : list command) md tn : Model W * Transaction :=
  foldl (fun x c => mutate c x.1 x.2) (md, tn) cs.

Lemma mutate_all_spec cs : ∀ md tn mb ext H md' tn',
  txn_open mb ext H md tn → mutate_all cs md tn = (md', tn') →
  txn_open mb ext H md' tn' ∧ outline md' tn' = outline md tn ∧
  rh_cells (md_heap md) ⊆ rh_cells (md_heap md').
Proof.
  induction cs as [|c cs IH]; intros md tn mb ext H md' tn' I E.
  - cbn in E. by injection E as <- <-.
  - unfold mutate_all in E. cbn [foldl fst snd] in E. destruct (mutate c md tn) as [md1 tn1] eqn:Ec.
    destruct (mutate_spec _ _ _ _ _ _ _ _ I Ec) as (I1 & E1 & Hs1).
    destruct (IH _ _ _ _ _ _ _ I1 E) as (I2 & E2 & Hs2).
    split; [done|]. split; [by rewrite E2|by etrans].
Qed.

(** [transact] pins the current version and takes its own reference to the root. *)
Lemma transact_spec name md ext H m md' x :
  model_inv md ext ({[+ md_current md +]} ⊎ H) → slots_of md (md_current md) m →
  transact name md = (md', x) →
  versions_same md md' ({[+ md_current md +]} ⊎ H) ∧ md_current md' = md_current md ∧
  md_commit_sink md' = md_commit_sink md ∧
  match x with
  | Ok tn => txn_open m ext ({[+ md_current md +]} ⊎ H) md' tn ∧
      tn = mkTransaction name k_no_coalesce (md_current md)
             (vn_root (version_of (md_current md) md))
             (u64 (vn_revision (version_of (md_current md) md) + 1)) [] [] [] true (Ok tt)
  | Err e => e = OutOfBounds
  end.
Proof.
  intros I Hm. pose proof Hm as (v & u & Ha & Hv). unfold transact.
  destruct (pin_spec md ext _ (md_current md) I) as (I1 & Eh1 & Ec1 & _ & Ev1 & Hs1); [by eexists|].
  rewrite Ev1. destruct (Hs1 _ _ Hm) as (v1 & u1 & Ha1 & Hv1).
  assert (version_of (md_current md) md = v) as Eva by (unfold version_of; by rewrite Ha).
  assert (v1 = v) as ->.
  { pose proof (Ev1 (md_current md)) as E. rewrite Eva in E. unfold version_of in E.
    rewrite Ha1 in E. exact E. }
  rewrite Eva. set (md1 := pin (md_current md) md) in *.
  assert (∀ w, rh_cells (md_heap md1) ⊆ rh_cells w →
    versions_same md (set_heap w md1) ({[+ md_current md +]} ⊎ H)) as Hkept.
  { intros w Hs b Hb. split; [exact (Ev1 b)|]. intros mm Hmm. by apply slots_of_heap, Hs1. }
  assert (md_commit_sink md1 = md_commit_sink md) as Esink by (unfold md1, pin; rewrite Ha; done).
  destruct (copy_root (vn_root v) (md_heap md1)) as [w y] eqn:E.
  destruct (copy_root_spec _ _ _ _ _ (mi_heap _ _ _ I1)
    (version_counted md1 ext ({[+ md_current md +]} ⊎ H) _ _ _ Ha1) E) as [Ew Hy].
  destruct y as [root|e]; intros [= <- <-];
    (split; [by apply Hkept; rewrite Ew|split; [exact Ec1|split; [exact Esink|]]]); [|by destruct Hy].
  destruct Hy as [-> I2]. split; [|done]. split; cbn [tn_root tn_base tn_touched].
  - eapply model_inv_heap; [exact I1|by rewrite Ew|]. by rewrite disj_union_swap in I2.
  - apply slots_of_heap; [by rewrite Ew|by apply Hs1].
  - by apply NoDup_nil_2.
  - exists m. split; [by cbn; rewrite Ew|done].
Qed.
End transaction.

(** *** Commit *)

Definition entry_refs (entry : option JournalEntry) : gmultiset ref :=
  match entry with Some e => edit_refs (en_objects e) | None => ∅ end.

(** What the sink is handed for a transaction from [before] to [after]. *)
Definition entry_records (sink : bool) (entry : option JournalEntry) (before after : gmap Z SlotIndex) :
    Prop :=
  match entry with
  | Some e => sink = true ∧ records_step (en_objects e) before after
  | None => sink = false
  end.

Section commit.
Context {W : Type} `{!RefHeap W (cell ObjectRecord)}.
Implicit Types (md : Model W) (tn : Transaction) (w : W) (ext X : gmultiset ref)
  (holders H : gmultiset nat) (a b : nat) (v : Version) (m mb : gmap Z SlotIndex)
  (root : option SlotIndex).

Lemma flush_damage_same d md :
  md_heap (flush_damage d md) = md_heap md ∧ md_versions (flush_damage d md) = md_versions md ∧
  md_fresh (flush_damage d md) = md_fresh md ∧ md_current (flush_damage d md) = md_current md.
Proof. unfold flush_damage. by destruct (md_damage_sink md). Qed.

(** Publishing, then flushing. *)
Lemma publish_flush_spec d v md ext H m :
  model_inv md (opt_one (vn_root v) ⊎ ext) ({[+ md_current md +]} ⊎ H) →
  version (rh_cells (md_heap md)) (vn_root v) m →
  let md' := flush_damage d (publish v md) in
  model_inv md' ext ({[+ md_current md' +]} ⊎ H) ∧ slots_of md' (md_current md') m ∧
  version_of (md_current md') md' = v ∧ versions_same md md' H.
Proof.
  intros I Hv md'. destruct (publish_spec v md ext H m I Hv) as (I1 & S1 & E1 & Ec & K1).
  destruct (flush_damage_same d (publish v md)) as (Eh & Ev & Ef & Eu). fold md' in Eh, Ev, Ef, Eu.
  assert (versions_same (publish v md) md' ({[+ md_current md' +]} ⊎ H)) as K2.
  { apply versions_same_heap; [done|by rewrite Eh]. }
  split; [rewrite Eu; by eapply model_inv_same|].
  destruct (K2 (md_current md')) as [Ev2 S2].
  { rewrite gmultiset_elem_of_disj_union, gmultiset_elem_of_singleton. auto. }
  split; [apply S2; by rewrite Eu|]. split; [by rewrite Ev2, Eu|].
  eapply versions_same_trans; [exact K1| |done].
  intros b Hb. apply K2. rewrite gmultiset_elem_of_disj_union. auto.
Qed.

Lemma unpin_commit_sink a md : md_commit_sink (unpin a md) = md_commit_sink md.
Proof. unfold unpin. by destruct (md_versions md !! a) as [[v [|[|u]]]|]. Qed.

Lemma publish_flush_sink d v md : md_commit_sink (flush_damage d (publish v md)) = md_commit_sink md.
Proof.
  unfold flush_damage. destruct (md_damage_sink _); cbn; unfold publish; by rewrite unpin_commit_sink.
Qed.

Lemma commit_entry md tn mb ext H m w (built : expected failure (list ObjectEdit)) :
  txn_open mb ext H md tn → version (rh_cells (md_heap md)) (tn_root tn) m →
  (if md_commit_sink md then
     build_edits (vn_root (version_of (tn_base tn) md)) (tn_root tn) (tn_touched tn) (md_heap md)
   else (md_heap md, Ok [])) = (w, built) →
  outcome (rh_cells (md_heap md)) (version_refs (md_versions md) ⊎ (opt_one (tn_root tn) ⊎ ext))
    edit_refs (fun _ edits => if md_commit_sink md then map ed_object edits = tn_touched tn ∧
      ∀ e, e ∈ edits → ed_before e = mb !! ed_object e ∧ ed_after e = m !! ed_object e
      else edits = []) (w, built).
Proof.
  intros I Hm <-. destruct (md_commit_sink md).
  - destruct (to_base _ _ _ _ _ I) as (v & u & Ha & Hv). unfold version_of. rewrite Ha. cbn [from_option fst].
    by eapply build_edits_outcome; [..|apply (to_model _ _ _ _ _ I)|].
  - cbn. rewrite (left_id_L ∅ (⊎)). split; [apply I|done].
Qed.

Lemma commit_spec md tn mb ext H md' tn' st entry :
  txn_open mb ext ({[+ md_current md +]} ⊎ H) md tn → tn_open tn = true →
  commit md tn = (md', tn', st, entry) →
  tn_base tn' = tn_base tn ∧
  match st with
  | Ok _ => ∃ m, entry_records (md_commit_sink md) entry mb m ∧ (keys_u64 mb → keys_u64 m) ∧
      model_inv md' (opt_one (tn_root tn') ⊎ (entry_refs entry ⊎ ext))
        ({[+ tn_base tn +]} ⊎ ({[+ md_current md' +]} ⊎ H)) ∧
      slots_of md' (md_current md') m ∧
      version_of (md_current md') md' = mkVersion (tn_root tn) (tn_publish tn) ∧
      versions_same md md' ({[+ tn_base tn +]} ⊎ H)
  | Err _ => entry = None ∧ md_current md' = md_current md ∧
      model_inv md' (opt_one (tn_root tn') ⊎ ext)
        ({[+ tn_base tn +]} ⊎ ({[+ md_current md +]} ⊎ H)) ∧
      versions_same md md' ({[+ tn_base tn +]} ⊎ ({[+ md_current md +]} ⊎ H))
  end.
Proof.
  intros I Hopen. unfold commit. rewrite Hopen. cbn [negb].
  destruct (to_slots _ _ _ _ _ I) as (m & Hv & Hsame).
  destruct (tn_status tn) as [[]|e].
  2:{ intros [= <- <- <- <-]. split; [done|]. split; [done|]. split; [done|]. split; [apply I|].
      by apply versions_same_heap. }
  destruct (if md_commit_sink md then _ else _) as [w built] eqn:E.
  pose proof (commit_entry _ _ _ _ _ _ _ _ I Hv E) as Ho.
  destruct built as [edits|e]; cbn in Ho.
  2:{ destruct Ho as (I' & Hs & e' & ->). intros [= <- <- <- <-]. split; [done|].
      split; [done|]. split; [done|]. split; [|by apply versions_same_heap].
      eapply model_inv_heap; [apply I|done|done]. }
  destruct Ho as (I' & Hs & Hq). rewrite (disj_union_swap (edit_refs edits)) in I'.
  rewrite (disj_union_swap (edit_refs edits)) in I'.
  pose proof (model_inv_heap _ _ _ _ _ (to_model _ _ _ _ _ I) Hs I') as I1.
  rewrite holders_swap in I1.
  destruct (publish_flush_spec (tn_damage tn) (mkVersion (tn_root tn) (tn_publish tn))
    (set_heap w md) _ _ m I1) as (I2 & S2 & V2 & K2); [by eapply version_mono|].
  rewrite publish_flush_sink. intros [= <- <- <- <-]. split; [done|]. exists m.
  cbn [md_commit_sink set_heap close tn_root].
  rewrite opt_one_none, (holders_swap {[+ tn_base tn +]}). split.
  { destruct (md_commit_sink md); cbn; [|done]. destruct Hq as [Ht He]. split; [done|].
    split; cbn; rewrite ?Ht; [apply I|exact He|apply Hsame]. }
  split; [apply Hsame|]. split; [|split; [exact S2|split; [exact V2|]]].
  - destruct (md_commit_sink md); [exact I2|]. subst edits. exact I2.
  - eapply versions_same_trans; [|exact K2|done]. by apply versions_same_heap.
Qed.
End commit.

(** ** A transaction from [transact] to its destructor *)

Section transactions.
Context {W : Type} `{!RefHeap W (cell ObjectRecord)}.
Implicit Types (md : Model W) (tn : Transaction) (w : W) (ext X : gmultiset ref)
  (H : gmultiset nat) (a b : nat) (v : Version) (m : gmap Z SlotIndex).

Lemma destroy_spec md tn ext H :
  model_inv md (opt_one (tn_root tn) ⊎ ext) ({[+ tn_base tn +]} ⊎ H) →
  model_inv (destroy md tn) ext H ∧ md_current (destroy md tn) = md_current md ∧
  versions_same md (destroy md tn) H.
Proof.
  intros I. unfold destroy. pose proof (mi_heap _ _ _ I) as Ih. rewrite disj_union_swap in Ih.
  destruct (drop_root_spec _ _ _ Ih) as [Ec I']. set (w := drop_root (tn_root tn) (md_heap md)) in *.
  assert (model_inv (set_heap w md) ext ({[+ tn_base tn +]} ⊎ H)) as I1.
  { eapply model_inv_heap; [exact I|by rewrite Ec|done]. }
  destruct (unpin_spec _ _ _ _ I1) as (I2 & _ & Ecur & _ & K). split; [done|]. split; [done|].
  eapply versions_same_trans; [|exact K|done]. apply versions_same_heap; [done|]. cbn. by rewrite Ec.
Qed.

(** A client's scope: a transaction opened, worked on, committed, and destroyed. *)
Definition run_transaction (name : string) (cs : list command) md :
    Model W * expected failure unit * option JournalEntry :=
  match transact name md with
  | (md, Err e) => (md, Err e, None)
  | (md, Ok tn) =>
      let '(md, tn) := mutate_all cs md tn in
      let '(md, tn, st, entry) := commit md tn in
      (destroy md tn, st, entry)
  end.

Definition next_revision md : Z := u64 (vn_revision (version_of (md_current md) md) + 1).

Lemma held_here a H : a ∈ {[+ a +]} ⊎ H.
Proof. rewrite gmultiset_elem_of_disj_union, gmultiset_elem_of_singleton. auto. Qed.

Lemma held_more a b H : b ∈ H → b ∈ {[+ a +]} ⊎ H.
Proof. rewrite gmultiset_elem_of_disj_union. auto. Qed.

Lemma versions_same_sub md md' a H : versions_same md md' ({[+ a +]} ⊎ H) → versions_same md md' H.
Proof. intros K b Hb. by apply K, held_more. Qed.

Lemma slots_of_same md md' a H m :
  versions_same md md' ({[+ a +]} ⊎ H) → slots_of md a m → slots_of md' a m.
Proof. intros K. apply K, held_here. Qed.

(** A transaction from its opening to the end of its scope, committed or refused. *)
Lemma run_transaction_spec name cs md ext H m md' st entry
  (I : model_inv md ext ({[+ md_current md +]} ⊎ H)) (Hm : slots_of md (md_current md) m)
  (E : run_transaction name cs md = (md', st, entry)) :
  versions_same md md' H ∧
  match st with
  | Ok _ => ∃ m', slots_of md' (md_current md') m' ∧ (keys_u64 m → keys_u64 m') ∧
      vn_revision (version_of (md_current md') md') = next_revision md ∧
      entry_records (md_commit_sink md) entry m m' ∧
      model_inv md' (entry_refs entry ⊎ ext) ({[+ md_current md' +]} ⊎ H)
  | Err e => md_current md' = md_current md ∧ slots_of md' (md_current md') m ∧
      version_of (md_current md') md' = version_of (md_current md) md ∧ entry = None ∧
      (e = OutOfBounds ∨ model_inv md' ext ({[+ md_current md +]} ⊎ H))
  end.
Proof.
  unfold run_transaction in E. destruct (transact name md) as [md1 x] eqn:Et.
  destruct (transact_spec _ _ _ _ _ _ _ I Hm Et) as (K1 & Ec1 & Es1 & Hx).
  destruct x as [tn|e].
  2:{ injection E as <- <- <-. split; [by eapply versions_same_sub|]. rewrite Ec1.
      split; [done|]. split; [by eapply slots_of_same|]. split; [apply K1, held_here|].
      split; [done|by left]. }
  destruct Hx as [I1 Htn]. destruct (mutate_all cs md1 tn) as [md2 tn2] eqn:Em.
  destruct (mutate_all_spec _ _ _ _ _ _ _ _ I1 Em) as (I2 & Eo & Hs2).
  injection Eo as Ev2 Ef2 Ec2 Es2 _ _ _ _ Eb2 Ep2 Eopen2.
  rewrite Htn in Eb2, Ep2, Eopen2. cbn in Eb2, Ep2, Eopen2. clear Htn.
  destruct (commit md2 tn2) as [[[md3 tn3] st3] entry3] eqn:Ec. injection E as <- <- <-.
  rewrite <- Ec1, <- Ec2 in I2.
  destruct (commit_spec _ _ _ _ _ _ _ _ _ I2 Eopen2 Ec) as [Eb3 Hst].
  rewrite Eb2 in Eb3, Hst. rewrite Ec2, Ec1 in Hst.
  assert (versions_same md md2 ({[+ md_current md +]} ⊎ H)) as K2.
  { eapply versions_same_trans; [exact K1|by apply versions_same_heap|done]. }
  destruct st3 as [[]|e].
  - destruct Hst as (m' & Hen & Hk & I3 & S3 & V3 & K3). rewrite <- Eb3 in I3.
    destruct (destroy_spec _ _ _ _ I3) as (I4 & -> & K4). split.
    { apply (versions_same_trans _ md3 _ H); [|by eapply versions_same_sub|done].
      eapply versions_same_sub. by eapply versions_same_trans. }
    exists m'. split; [by eapply slots_of_same|]. split; [done|].
    destruct (K4 _ (held_here _ _)) as [-> _].
    rewrite V3. cbn. rewrite Ep2. split; [done|]. by rewrite <- Es1, <- Es2.
  - destruct Hst as (-> & Ec3 & I3 & K3). rewrite <- Eb3 in I3 at 1.
    destruct (destroy_spec _ _ _ _ I3) as (I4 & -> & K4). rewrite Ec3.
    assert (versions_same md (destroy md3 tn3) ({[+ md_current md +]} ⊎ H)) as K.
    { eapply versions_same_trans; [|exact K4|done].
      eapply versions_same_trans; [exact K2|by eapply versions_same_sub|done]. }
    split; [by eapply versions_same_sub|]. split; [done|].
    split; [by eapply slots_of_same|]. split; [apply K, held_here|]. split; [done|by right].
Qed.

(** C6: a transaction is atomic over any counted heap.  Committed, it publishes one new
    version, at the next revision, and hands the sink an entry whose edges are the slots
    before and after of exactly the ids that moved; every count is accounted for by the
    live versions and that entry.  Refused -- by any allocation, count or lookup on the
    way -- it leaves the current version where it was, and hands over nothing.  Either
    way every version somebody pins reads as before. *)
Theorem transaction_atomic name cs md ext H m md' st entry
  (I : model_inv md ext ({[+ md_current md +]} ⊎ H)) (Hm : slots_of md (md_current md) m)
  (E : run_transaction name cs md = (md', st, entry)) :
  versions_same md md' H ∧
  match st with
  | Ok _ => ∃ m', slots_of md' (md_current md') m' ∧ (keys_u64 m → keys_u64 m') ∧
      vn_revision (version_of (md_current md') md') = next_revision md ∧
      entry_records (md_commit_sink md) entry m m' ∧
      model_inv md' (entry_refs entry ⊎ ext) ({[+ md_current md' +]} ⊎ H)
  | Err e => md_current md' = md_current md ∧ slots_of md' (md_current md') m ∧
      version_of (md_current md') md' = version_of (md_current md) md ∧ entry = None ∧
      (e = OutOfBounds ∨ model_inv md' ext ({[+ md_current md +]} ⊎ H))
  end.
Proof. by apply run_transaction_spec with name cs. Qed.
End transactions.

(** ** Navigation *)

(** What replaying edits makes of a version. *)
Definition nav_map (dir : NavDirection) (m : gmap Z SlotIndex) (e : ObjectEdit) : gmap Z SlotIndex :=
  match nav_target dir e with
  | Some target => <[ed_object e := target]> m
  | None => delete (ed_object e) m
  end.
Definition nav_all (dir : NavDirection) (edits : list ObjectEdit) (m : gmap Z SlotIndex) :
    gmap Z SlotIndex := foldl (nav_map dir) m edits.

(** The ids a direction binds are object ids. *)
Definition targets_u64 (dir : NavDirection) (edits : list ObjectEdit) : Prop :=
  ∀ e i, e ∈ edits → nav_target dir e = Some i → in_u64 (ed_object e).

Lemma nav_map_lookup dir m e id :
  nav_map dir m e !! id = if decide (id = ed_object e) then nav_target dir e else m !! id.
Proof.
  unfold nav_map. case_decide as Hid; [subst id|]; destruct (nav_target dir e);
    rewrite ?lookup_insert_eq, ?lookup_delete_eq, ?lookup_insert_ne, ?lookup_delete_ne by done; done.
Qed.

Lemma nav_all_other dir edits : ∀ m id,
  id ∉ map ed_object edits → nav_all dir edits m !! id = m !! id.
Proof.
  induction edits as [|e edits IH]; intros m id Hid; [done|]. cbn in Hid.
  apply not_elem_of_cons in Hid as [Hne Hid]. cbn. fold (nav_all dir edits (nav_map dir m e)).
  rewrite IH, nav_map_lookup by done. by rewrite decide_False.
Qed.

Lemma nav_all_at dir edits : ∀ m e,
  NoDup (map ed_object edits) → e ∈ edits →
  nav_all dir edits m !! ed_object e = nav_target dir e.
Proof.
  induction edits as [|e0 edits IH]; intros m e Hn He; [by apply not_elem_of_nil in He|].
  cbn in Hn. apply list.NoDup_cons in Hn as [Hnot Hn]. cbn.
  fold (nav_all dir edits (nav_map dir m e0)). apply elem_of_cons in He as [->|He].
  - rewrite nav_all_other, nav_map_lookup by done. by rewrite decide_True.
  - by apply IH.
Qed.

(** Undone, the edits of a step lead back; redone, they lead forth again. *)
Definition nav_source (dir : NavDirection) (before after : gmap Z SlotIndex) : gmap Z SlotIndex :=
  match dir with Undo => after | Redo => before end.
Definition nav_dest (dir : NavDirection) (before after : gmap Z SlotIndex) : gmap Z SlotIndex :=
  match dir with Undo => before | Redo => after end.

Lemma nav_all_step dir edits before after :
  records_step edits before after → nav_all dir edits (nav_source dir before after) = nav_dest dir before after.
Proof.
  intros [Hn He Hs]. apply map_eq. intros id.
  destruct (decide (id ∈ map ed_object edits)) as [Hin|Hout].
  - apply list_elem_of_fmap in Hin as (e & -> & Hin). rewrite nav_all_at by done.
    destruct (He e Hin) as [Eb Ea]. by destruct dir.
  - rewrite nav_all_other by done. specialize (Hs id Hout). by destruct dir.
Qed.

Lemma step_targets_u64 dir edits before after :
  records_step edits before after → keys_u64 (nav_dest dir before after) → targets_u64 dir edits.
Proof.
  intros [_ He _] Hu e i Hin Ht. destruct (He e Hin) as [Eb Ea].
  apply (Hu (ed_object e) i). destruct dir; cbn in *; congruence.
Qed.

Section navigation.
Context {W : Type} `{!RefHeap W (cell ObjectRecord)}.
Implicit Types (md : Model W) (w : W) (ext X : gmultiset ref) (H : gmultiset nat)
  (a b : nat) (v : Version) (m : gmap Z SlotIndex) (root : option SlotIndex)
  (old : gmap SlotIndex (cell ObjectRecord)).

Lemma edit_refs_target edits dir e i :
  e ∈ edits → nav_target dir e = Some i → (records, i) ∈ edit_refs edits.
Proof.
  intros He Ht. induction edits as [|e0 edits IH]; [by apply not_elem_of_nil in He|].
  cbn [edit_refs foldr]. rewrite !gmultiset_elem_of_disj_union.
  apply elem_of_cons in He as [<-|He]; [|right; right; by apply IH].
  destruct dir; cbn in Ht; rewrite Ht; [left|right; left]; by apply gmultiset_elem_of_singleton.
Qed.

Lemma outcome_after {A : Type} old (mid : gmap SlotIndex (cell ObjectRecord)) X
    (O : A → gmultiset ref) (Q : gmap SlotIndex (cell ObjectRecord) → A → Prop) (out : W * expected failure A) :
  outcome mid X O Q out → old ⊆ mid → outcome old X O Q out.
Proof. intros Ho Hs. eapply outcome_mono; [exact Ho|exact Hs|done]. Qed.

Lemma rebind_outcome dir e w X root m :
  rh_inv w (opt_one root ⊎ X) → version (rh_cells w) root m →
  (∀ i, nav_target dir e = Some i → in_u64 (ed_object e)) →
  (∀ i, nav_target dir e = Some i → (records, i) ∈ X) →
  outcome (rh_cells w) X opt_one (fun cells o => version cells o (nav_map dir m e))
    (rebind dir e root w).
Proof.
  intros I Hv Hid Ht. unfold rebind.
  assert (outcome (rh_cells w) (opt_one root ⊎ X) opt_one
    (fun cells o => version cells o (nav_map dir m e)) (rebound dir e root w)) as Ho.
  { unfold rebound, nav_map. destruct (nav_target dir e) as [i|].
    - eapply to_ref_outcome; [apply (hamt_insert_outcome _ _ _ m _ i)|intros cells j _ Hj; exact Hj];
        try done; [by apply (Hid i)|apply root_in_ext|].
      rewrite !gmultiset_elem_of_disj_union. left; right. by apply Ht.
    - apply hamt_erase_outcome; try done. apply root_in_ext. }
  destruct (rebound dir e root w) as [w' [next|err]]; cbn in Ho; destruct Ho as (I' & Hs & Hq).
  - rewrite disj_union_swap in I'. destruct (drop_root_spec _ _ _ I') as [Ec I2].
    cbn. rewrite Ec. done.
  - destruct (drop_root_spec _ _ _ I') as [Ec I2]. cbn. rewrite Ec. done.
Qed.

Lemma rebind_all_outcome dir edits : ∀ w X root m,
  rh_inv w (opt_one root ⊎ X) → version (rh_cells w) root m → targets_u64 dir edits →
  (∀ e i, e ∈ edits → nav_target dir e = Some i → (records, i) ∈ X) →
  outcome (rh_cells w) X opt_one (fun cells o => version cells o (nav_all dir edits m))
    (rebind_all dir edits root w).
Proof.
  induction edits as [|e edits IH]; intros w X root m I Hv Hid Ht; [by apply outcome_ret|].
  cbn [rebind_all]. eapply outcome_bind.
  { apply rebind_outcome; [exact I|exact Hv|intros i; apply Hid; left|intros i; apply Ht; left]. }
  intros w1 root1 I1 Hs1 Hv1. eapply outcome_after; [|exact Hs1].
  cbn. apply IH; [done|done| |].
  - intros e' i He'. apply Hid. by right.
  - intros e' i He'. apply Ht. by right.
Qed.
End navigation.

Section navigate.
Context {W : Type} `{!RefHeap W (cell ObjectRecord)}.
Implicit Types (md : Model W) (w : W) (ext X : gmultiset ref) (H : gmultiset nat)
  (a b : nat) (v : Version) (m : gmap Z SlotIndex) (root : option SlotIndex)
  (entry : JournalEntry).

Lemma navigate_sink entry dir md : md_commit_sink (navigate entry dir md).1 = md_commit_sink md.
Proof.
  unfold navigate. match goal with |- md_commit_sink (fst (match ?x with _ => _ end)) = _ =>
    destruct x as [w [root|e]] end; cbn [fst];
    rewrite unpin_commit_sink, ?publish_flush_sink; unfold pin; by destruct (md_versions md !! _) as [[]|].
Qed.

(** What navigation leaves, failed or not. *)
Definition navigated md md' ext H (x : expected failure unit) (m m' : gmap Z SlotIndex) : Prop :=
  versions_same md md' H ∧ model_inv md' ext ({[+ md_current md' +]} ⊎ H) ∧
  match x with
  | Ok _ => slots_of md' (md_current md') m' ∧
      vn_revision (version_of (md_current md') md') = next_revision md
  | Err _ => md_current md' = md_current md ∧ slots_of md' (md_current md) m ∧
      version_of (md_current md) md' = version_of (md_current md) md
  end.

Lemma navigate_failed md md1 ext H w m m' e :
  versions_same md md1 ({[+ md_current md +]} ⊎ H) → md_current md1 = md_current md →
  model_inv (set_heap w md1) ext ({[+ md_current md +]} ⊎ ({[+ md_current md +]} ⊎ H)) →
  rh_cells (md_heap md1) ⊆ rh_cells w → slots_of md (md_current md) m →
  navigated md (unpin (md_current md) (set_heap w md1)) ext H (Err e) m m'.
Proof.
  intros K1 Ec1 I2 Hs2 Hm. destruct (unpin_spec _ _ _ _ I2) as (I3 & _ & Ec3 & _ & K3).
  cbn in Ec3. rewrite Ec1 in Ec3.
  assert (versions_same md (unpin (md_current md) (set_heap w md1)) ({[+ md_current md +]} ⊎ H)) as K.
  { eapply versions_same_trans; [exact K1| |done].
    eapply versions_same_trans; [by apply (versions_same_heap md1 (set_heap w md1))|exact K3|done]. }
  split; [by eapply versions_same_sub|]. rewrite Ec3. split; [done|]. split; [done|].
  split; [by eapply slots_of_same|]. apply K, held_here.
Qed.

Lemma navigate_spec entry dir md ext H m md' x :
  model_inv md ext ({[+ md_current md +]} ⊎ H) → slots_of md (md_current md) m →
  targets_u64 dir (en_objects entry) →
  (∀ e i, e ∈ en_objects entry → nav_target dir e = Some i → (records, i) ∈ ext) →
  navigate entry dir md = (md', x) →
  navigated md md' ext H x m (nav_all dir (en_objects entry) m).
Proof.
  intros I Hm Hid Ht. pose proof Hm as (v & u & Ha & Hv). unfold navigate.
  destruct (pin_spec md ext _ (md_current md) I) as (I1 & Eh1 & Ec1 & _ & Ev1 & Hs1); [by eexists|].
  set (md1 := pin (md_current md) md) in *.
  assert (versions_same md md1 ({[+ md_current md +]} ⊎ H)) as K1 by (intros b _; split; [apply Ev1|apply Hs1]).
  destruct (Hs1 _ _ Hm) as (v1 & u1 & Ha1 & Hv1).
  assert (version_of (md_current md) md1 = v1) as Eva by (unfold version_of; by rewrite Ha1).
  rewrite Eva. unfold mbind, ST_bind.
  destruct (copy_root (vn_root v1) (md_heap md1)) as [w y] eqn:Ecp.
  destruct (copy_root_spec _ _ _ _ _ (mi_heap _ _ _ I1)
    (version_counted md1 ext ({[+ md_current md +]} ⊎ H) _ _ _ Ha1) Ecp) as [Ew Hy].
  destruct y as [root|e].
  2:{ destruct Hy as [_ I2]. intros [= <- <-]. apply navigate_failed; try done; [|by rewrite Ew].
      eapply model_inv_heap; [exact I1|by rewrite Ew|done]. }
  destruct Hy as [-> I2].
  assert (outcome (rh_cells w) (version_refs (md_versions md1) ⊎ ext) opt_one
    (fun cells o => version cells o (nav_all dir (en_objects entry) m))
    (rebind_all dir (en_objects entry) (vn_root v1) w)) as Ho.
  { apply rebind_all_outcome; [done|by rewrite Ew|done|].
    intros e i He Hi. rewrite gmultiset_elem_of_disj_union. right. by eapply Ht. }
  rewrite Ew in Ho. destruct (rebind_all dir (en_objects entry) (vn_root v1) w) as [w2 [root|e]]; cbn in Ho;
    destruct Ho as (I3 & Hs3 & Hq); intros [= <- <-].
  2:{ apply navigate_failed; try done. by eapply model_inv_heap. }
  rewrite disj_union_swap in I3.
  pose proof (model_inv_heap _ _ _ _ _ I1 Hs3 I3) as I4.
  rewrite <- Ec1 in I4 at 2. rewrite (holders_swap {[+ md_current md +]}) in I4.
  destruct (publish_flush_spec (en_damage entry) (mkVersion root (u64 (vn_revision v1 + 1)))
    (set_heap w2 md1) _ _ _ I4 Hq) as (I5 & S5 & V5 & K5).
  rewrite holders_swap in I5. destruct (unpin_spec _ _ _ _ I5) as (I6 & _ & Ec6 & _ & K6).
  split; [|rewrite Ec6; split; [done|]].
  - eapply versions_same_trans; [exact (versions_same_sub _ _ _ _ K1)| |done].
    eapply versions_same_trans; [by apply (versions_same_heap md1 (set_heap w2 md1))| |done].
    eapply versions_same_trans; [eapply versions_same_sub; exact K5|eapply versions_same_sub; exact K6|done].
  - split; [by eapply slots_of_same|]. destruct (K6 _ (held_here _ _)) as [-> _].
    rewrite V5. unfold next_revision. cbn. by rewrite <- (Ev1 (md_current md)), Eva.
Qed.

(** C7: undo and redo move a document between the two versions an entry lies between:
    undone from the later one it is bound to the earlier one's slots, redone to the
    later one's, every touched id rebound or erased and no other moved, at the next
    revision.  Refused, it leaves the current version; and neither frees or rebinds
    anything in a version somebody pins, nor loses a count. *)
Theorem navigate_between_versions entry dir md ext H before after md' x
  (I : model_inv md (edit_refs (en_objects entry) ⊎ ext) ({[+ md_current md +]} ⊎ H))
  (Hu : keys_u64 (nav_dest dir before after)) (Hstep : records_step (en_objects entry) before after)
  (Hm : slots_of md (md_current md) (nav_source dir before after))
  (E : navigate entry dir md = (md', x)) :
  navigated md md' (edit_refs (en_objects entry) ⊎ ext) H x
    (nav_source dir before after) (nav_dest dir before after).
Proof.
  rewrite <- (nav_all_step _ _ _ _ Hstep). eapply navigate_spec; try done.
  - by eapply step_targets_u64.
  - intros e i He Hi. rewrite gmultiset_elem_of_disj_union. left. by eapply edit_refs_target.
Qed.
End navigate.

(** ** The empty document, abandoned transactions *)

Section empty.
Context {W : Type} `{!RefHeap W (cell ObjectRecord)}.
Implicit Types (md : Model W) (w : W) (ext : gmultiset ref) (H : gmultiset nat).

Lemma new_model_ext w ext :
  rh_inv w ext → model_inv (new_model w) ext ({[+ md_current (new_model w) +]} ⊎ ∅).
Proof.
  intros I. rewrite (right_id_L ∅ (⊎)). split; cbn.
  - assert (version_refs {[0%nat := (mkVersion None 0, 1%nat)]} = ∅) as ->; [|by rewrite (left_id_L ∅ (⊎))].
    unfold version_refs. rewrite map_fold_singleton. cbn. by rewrite (right_id_L ∅ (⊎)).
  - intros a v u Ha. apply lookup_singleton_Some in Ha as [<- [= <- <-]].
    rewrite multiplicity_singleton_eq. split_and!; [done|lia|lia|by exists ∅].
  - intros a Ha. apply gmultiset_elem_of_singleton in Ha as ->. rewrite lookup_singleton_eq. by eexists.
Qed.

Lemma new_model_inv w :
  rh_inv w ∅ → model_inv (new_model w) ∅ ({[+ md_current (new_model w) +]} ⊎ ∅) ∧
    slots_of (new_model w) (md_current (new_model w)) ∅.
Proof. intros I. split; [by apply new_model_ext|]. by exists (mkVersion None 0), 1%nat. Qed.

Lemma abort_spec md tn ext H md' tn' :
  model_inv md (opt_one (tn_root tn) ⊎ ext) H → tn_open tn = true → abort md tn = (md', tn') →
  model_inv md' (opt_one (tn_root tn') ⊎ ext) H ∧ tn_base tn' = tn_base tn ∧ tn_open tn' = false ∧
  md_current md' = md_current md ∧ versions_same md md' H.
Proof.
  intros I Ho. unfold abort. rewrite Ho. intros [= <- <-]. cbn [tn_root tn_base tn_open].
  pose proof (mi_heap _ _ _ I) as Ih. rewrite disj_union_swap in Ih.
  destruct (drop_root_spec _ _ _ Ih) as [Ec I']. rewrite opt_one_none.
  split; [eapply model_inv_heap; [exact I|by rewrite Ec|done]|].
  do 3 (split; [done|]). apply versions_same_heap; [done|]. cbn. by rewrite Ec.
Qed.

(** A transaction whose scope ends without a commit, aborted or simply dropped. *)
Definition abandon (aborted : bool) (name : string) (cs : list command) md : Model W * expected failure unit :=
  match transact name md with
  | (md, Err e) => (md, Err e)
  | (md, Ok tn) =>
      let '(md, tn) := mutate_all cs md tn in
      let '(md, tn) := if aborted then abort md tn else (md, tn) in
      (destroy md tn, Ok tt)
  end.

(** a transaction that is not committed leaves no trace: whatever it ran, and
    whether it is aborted or only goes out of scope, the current version is the one that
    was, every version reads as before, and every count it took is given back. *)
Theorem abandoned_leaves_no_trace aborted name cs md ext H m md'
  (I : model_inv md ext ({[+ md_current md +]} ⊎ H)) (Hm : slots_of md (md_current md) m)
  (E : abandon aborted name cs md = (md', Ok tt)) :
  md_current md' = md_current md ∧ versions_same md md' ({[+ md_current md +]} ⊎ H) ∧
  slots_of md' (md_current md') m ∧ model_inv md' ext ({[+ md_current md' +]} ⊎ H).
Proof.
  unfold abandon in E. destruct (transact name md) as [md1 [tn|e]] eqn:Et; [|done].
  destruct (transact_spec _ _ _ _ _ _ _ I Hm Et) as (K1 & Ec1 & _ & I1 & Htn).
  destruct (mutate_all cs md1 tn) as [md2 tn2] eqn:Em.
  destruct (mutate_all_spec _ _ _ _ _ _ _ _ I1 Em) as (I2 & Eo & Hs2).
  injection Eo as Ev2 _ Ec2 _ _ _ _ _ Eb2 _ Eopen2. rewrite Htn in Eopen2. cbn in Eopen2.
  destruct (if aborted then abort md2 tn2 else (md2, tn2)) as [md3 tn3] eqn:Ea.
  injection E as <-.
  assert (model_inv md3 (opt_one (tn_root tn3) ⊎ ext) ({[+ tn_base tn3 +]} ⊎ ({[+ md_current md +]} ⊎ H)) ∧
    md_current md3 = md_current md2 ∧ versions_same md2 md3 ({[+ md_current md +]} ⊎ H))
    as (I3 & Ec3 & K3).
  { destruct aborted; [|injection Ea as <- <-; split; [apply I2|split; [done|by apply versions_same_heap]]].
    destruct (abort_spec _ _ _ _ _ _ (to_model _ _ _ _ _ I2) Eopen2 Ea) as (I3 & -> & _ & Ec3 & K3).
    split; [done|]. split; [done|by eapply versions_same_sub]. }
  destruct (destroy_spec _ _ _ _ I3) as (I4 & Ec4 & K4).
  assert (versions_same md (destroy md3 tn3) ({[+ md_current md +]} ⊎ H)) as K.
  { eapply versions_same_trans; [|exact K4|done]. eapply versions_same_trans; [|exact K3|done].
    eapply versions_same_trans; [exact K1|by apply versions_same_heap|done]. }
  rewrite Ec4, Ec3, Ec2, Ec1. split; [done|]. split; [done|]. split; [by eapply slots_of_same|done].
Qed.
End empty.

(** ** Loading, and witnesses *)

Section load.
Context {W : Type} `{!RefHeap W (cell ObjectRecord)}.
Implicit Types (md : Model W) (ext : gmultiset ref) (H : gmultiset nat) (m : gmap Z SlotIndex).

(** a load replaces the document by what its commands build, at revision 0 and with
    no entry; one that fails publishes nothing and gives every count back. *)
Theorem load_is_a_baseline build md ext H m md' x
  (I : model_inv md ext ({[+ md_current md +]} ⊎ H)) (Hm : slots_of md (md_current md) m)
  (E : load_baseline build md = (md', x)) :
  versions_same md md' H ∧
  match x with
  | Ok _ => ∃ m', slots_of md' (md_current md') m' ∧
      vn_revision (version_of (md_current md') md') = 0 ∧
      model_inv md' ext ({[+ md_current md' +]} ⊎ H)
  | Err e => md_current md' = md_current md ∧ slots_of md' (md_current md') m ∧
      (e = OutOfBounds ∨ model_inv md' ext ({[+ md_current md +]} ⊎ H))
  end.
Proof.
  unfold load_baseline in E. destruct (transact "load" md) as [md1 y] eqn:Et.
  destruct (transact_spec _ _ _ _ _ _ _ I Hm Et) as (K1 & Ec1 & _ & Hy).
  destruct y as [tn|e].
  2:{ injection E as <- <-. split; [by eapply versions_same_sub|]. rewrite Ec1. split; [done|].
      split; [by eapply slots_of_same|by left]. }
  destruct Hy as [I1 Htn].
  match type of E with context [foldl _ (md1, ?tn0) build] => set (tn0' := tn0) in E end.
  assert (txn_open m ext ({[+ md_current md +]} ⊎ H) md1 tn0') as I1' by (by destruct I1).
  destruct (foldl _ (md1, tn0') build) as [md2 tn2] eqn:Em.
  destruct (mutate_all_spec _ _ _ _ _ _ _ _ I1' Em) as (I2 & Eo & Hs2).
  injection Eo as Ev2 _ Ec2 _ _ _ _ _ Eb2 _ _. rewrite Htn in Eb2. cbn in Eb2.
  assert (versions_same md md2 ({[+ md_current md +]} ⊎ H)) as K2.
  { eapply versions_same_trans; [exact K1|by apply versions_same_heap|done]. }
  destruct (tn_status tn2) as [[]|e]; injection E as <- <-.
  - destruct (to_slots _ _ _ _ _ I2) as (m' & Hv & _). pose proof (to_model _ _ _ _ _ I2) as I3.
    rewrite <- Ec1, <- Ec2, holders_swap in I3.
    destruct (publish_flush_spec (tn_damage tn2) (mkVersion (tn_root tn2) 0) md2 _ _ _ I3 Hv)
      as (I4 & S4 & V4 & K4).
    rewrite holders_swap in I4. set (md4 := flush_damage _ _) in *.
    rewrite <- (opt_one_none ext) in I4.
    destruct (destroy_spec md4 (close tn2) _ _ I4) as (I5 & -> & K5). split.
    { eapply (versions_same_trans _ md4 _ H); [|by eapply versions_same_sub|done].
      eapply versions_same_trans; [by eapply versions_same_sub|by eapply versions_same_sub|done]. }
    exists m'. split; [by eapply slots_of_same|]. destruct (K5 _ (held_here _ _)) as [-> _].
    rewrite V4. done.
  - destruct (destroy_spec _ _ _ _ (to_model _ _ _ _ _ I2)) as (I5 & -> & K5).
    rewrite Ec2, Ec1.
    assert (versions_same md (destroy md2 tn2) ({[+ md_current md +]} ⊎ H)) as K
      by (by eapply versions_same_trans).
    split; [by eapply versions_same_sub|]. split; [done|]. split; [by eapply slots_of_same|by right].
Qed.
End load.

#[local] Instance demo_document_heap : RefHeap (Heap Z (cell ObjectRecord)) (cell ObjectRecord) :=
  heap_ref_heap demo_acquire 0%nat [nodes; records].

Definition demo_document : Model (Heap Z (cell ObjectRecord)) :=
  set_commit_sink true (set_damage_sink true (new_model (empty_heap 16 16 2 4096))).
Definition demo_ran := run_transaction "add" [CAddContent 7; CAddComposition d_one d_one] demo_document.

Lemma demo_document_inv :
  model_inv demo_document ∅ ({[+ md_current demo_document +]} ⊎ ∅) ∧
  slots_of demo_document (md_current demo_document) ∅.
Proof.
  destruct (new_model_inv (empty_heap 16 16 2 4096)) as [I S].
  { apply (new_heap_inv 16 16 2 4096). lia. }
  split; [exact (model_inv_same (new_model _) demo_document _ _ eq_refl eq_refl eq_refl I)|exact S].
Qed.

Lemma transaction_atomic_witness :
  let '(md, st, entry) := demo_ran in
  st = Ok tt ∧ vn_revision (version_of (md_current md) md) = 1 ∧ ∃ m, slots_of md (md_current md) m.
Proof.
  destruct demo_document_inv as [I S]. destruct demo_ran as [[md st] entry] eqn:E.
  destruct (transaction_atomic "add" _ demo_document _ _ _ _ _ _ I S E) as [_ Hst].
  assert (st = Ok tt) as ->.
  { transitivity demo_ran.1.2; [by rewrite E|vm_compute; reflexivity]. }
  destruct Hst as (m & Sm & _ & Hrev & _). split; [reflexivity|]. split; [exact Hrev|by exists m].
Defined.

(** The creation undone. *)
Lemma navigate_between_versions_witness :
  let '(md, st, entry) := demo_ran in
  match entry with
  | Some e => let '(md', x) := navigate e Undo md in
      x = Ok tt ∧ slots_of md' (md_current md') ∅ ∧ vn_revision (version_of (md_current md') md') = 2
  | None => False
  end.
Proof.
  destruct demo_document_inv as [I S]. destruct demo_ran as [[md st] entry] eqn:E.
  assert (st = Ok tt ∧
    match entry with Some e => (navigate e Undo md).2 = Ok tt | None => False end ∧
    next_revision md = 2) as (-> & Hnav & Hrev).
  { pose proof (f_equal snd E) as Ee. pose proof (f_equal (fun x => x.1.1) E) as Em.
    pose proof (f_equal (fun x => x.1.2) E) as Es. cbn [fst snd] in *. subst md st entry.
    split_and!; vm_compute; reflexivity. }
  destruct (transaction_atomic "add" _ demo_document _ _ _ _ _ _ I S E) as [_ (m & Sm & _ & _ & He & I1)].
  destruct entry as [e|]; [|done]. destruct He as [_ Hstep]. cbn [from_option entry_refs] in *.
  destruct (navigate e Undo md) as [md' x] eqn:En. cbn in Hnav. subst x. split; [reflexivity|].
  destruct (navigate_between_versions e Undo md ∅ ∅ ∅ m md' (Ok tt)) as (_ & _ & Sn & Hn); [..|].
  - exact I1.
  - exact keys_u64_empty.
  - exact Hstep.
  - exact Sm.
  - exact En.
  - exact (conj Sn (eq_trans Hn Hrev)).
Defined.
