(* ===== verification/Recovery.v ===== *)
(** Recovery: [Model::open] and [Model::rebuild_counts] in [src/src/model/model.cpp],
    with the restore half of [src/src/pool/arbc/pool/refs.hpp].

    A reopened file gives slots whose bytes are objects and nothing else: no count, no
    free list, no generation is trusted.  The walk reads the objects from the durable root
    and counts every edge it crosses; then the free list is made from what it did not
    reach.  [file] is what the slots hold, [hw] the mark of the root's snapshot; the file
    handling before and the header's validation are [pool/workspace_file]'s.

    The build is the release one, whose nodes and records share a size class: [SlotStore]
    is one, and is finalized once with both live sets. *)

From S2P Require Import Prelude RationalTime Identity Geometry SlotStore RefStore Hamt.
From S2P Require Import Records Transaction DocRoot Document.
From stdpp Require Import gmultiset.

Local Open Scope Z_scope.

#[local] Arguments disj_union : simpl never.
#[local] Arguments singletonMS : simpl never.
#[local] Arguments empty : simpl never.

(** ** The walk *)

Record RecoveredContentState := mkRecoveredState {
  rs_id : ObjectId; rs_kind : Z; rs_state : SlotIndex }.

Record Recovered := mkRecovered {
  rv_nodes : list SlotIndex;
  rv_records : list SlotIndex;
  rv_max_id : Z;
  rv_max_revision : Z;
  rv_content_state : list RecoveredContentState }.

Definition nothing_recovered : Recovered := mkRecovered [] [] 0 0 [].

Notation file_cells := (gmap SlotIndex (cell ObjectRecord)).

(** The walk's locals; the stack's back is the list's head, a seen vector the set of its
    nonzero indices. *)
Record Walk (Src : Type) := mkWalk {
  wk_slots : SlotStore Src;
  wk_stack : list SlotIndex;
  wk_node_seen : gset SlotIndex;
  wk_record_seen : gset SlotIndex;
  wk_out : Recovered }.
Arguments mkWalk {Src}.
Arguments wk_slots {Src} w.
Arguments wk_stack {Src} w.
Arguments wk_node_seen {Src} w.
Arguments wk_record_seen {Src} w.
Arguments wk_out {Src} w.

Section walk.
Context {Src : Type}.
Implicit Types (slots : SlotStore Src) (wk : Walk Src) (file : file_cells) (hw : Z)
  (index leaf child : SlotIndex) (r : ObjectRecord).

(** [set_count_index(i, count_index(i) + 1)]. *)
Definition count_edge index slots : SlotStore Src :=
  store_count index (u32 (count_ref index slots + 1)) slots.

(** A subscript of a vector of [hw] flags. *)
Definition in_vector hw index : bool := (0 <=? index) && (index <? hw).

(** The state a content record carries, if it is one the runtime must replay. *)
Definition recovered_state r : list RecoveredContentState :=
  match rc_as r with
  | AsContent c => if has_state (ct_state c) then [mkRecoveredState (rc_id r) (ct_kind c) (ct_state c)] else []
  | _ => []
  end.

Definition note_record leaf r (out : Recovered) : Recovered :=
  mkRecovered (rv_nodes out) (rv_records out ++ [leaf]) (Z.max (rv_max_id out) (rc_id r))
    (Z.max (rv_max_revision out) (rc_revision r)) (rv_content_state out ++ recovered_state r).

Definition note_node index (out : Recovered) : Recovered :=
  mkRecovered (rv_nodes out ++ [index]) (rv_records out) (rv_max_id out) (rv_max_revision out)
    (rv_content_state out).

(** A leaf's record edge. *)
Definition visit_record file hw leaf wk : expected failure (Walk Src) :=
  let slots := count_edge leaf (wk_slots wk) in
  if negb (in_vector hw leaf) then Err OutOfBounds
  else if bool_decide (leaf ∈ wk_record_seen wk)
  then Ok (mkWalk slots (wk_stack wk) (wk_node_seen wk) (wk_record_seen wk) (wk_out wk))
  else
    match record_at file leaf with
    | None => Err OutOfBounds
    | Some r =>
        Ok (mkWalk slots (wk_stack wk) (wk_node_seen wk) ({[leaf]} ∪ wk_record_seen wk)
              (note_record leaf r (wk_out wk)))
    end.

(** A branch's edge to a child. *)
Definition visit_child hw child wk : expected failure (Walk Src) :=
  let slots := count_edge child (wk_slots wk) in
  if negb (in_vector hw child) then Err OutOfBounds
  else if bool_decide (child ∈ wk_node_seen wk)
  then Ok (mkWalk slots (wk_stack wk) (wk_node_seen wk) (wk_record_seen wk) (wk_out wk))
  else Ok (mkWalk slots (child :: wk_stack wk) ({[child]} ∪ wk_node_seen wk) (wk_record_seen wk)
             (note_node child (wk_out wk))).

Fixpoint visit_children hw (n : HamtNode) (digits : list Z) wk : expected failure (Walk Src) :=
  match digits with
  | [] => Ok wk
  | digit :: digits => wk ← visit_child hw (Hamt.child n digit) wk; visit_children hw n digits wk
  end.

(** One node off the stack. *)
Definition expand file hw index wk : expected failure (Walk Src) :=
  match file !! index with
  | Some (NodeCell n) =>
      if is_leaf n then visit_record file hw (record n) wk
      else visit_children hw n (set_bits (bitmap n)) wk
  | _ => Err OutOfBounds
  end.

Fixpoint walk (fuel : nat) file hw wk : expected failure (Walk Src) :=
  match wk_stack wk with
  | [] => Ok wk
  | index :: stack =>
      match fuel with
      | O => Err OutOfBounds
      | S fuel =>
          wk ← expand file hw index
                 (mkWalk (wk_slots wk) stack (wk_node_seen wk) (wk_record_seen wk) (wk_out wk));
          walk fuel file hw wk
      end
  end.

(** [rebuild_counts]; every node is expanded once, so [hw] rounds are enough. *)
Definition rebuild_counts file hw (root : option SlotIndex) slots :
    expected failure (SlotStore Src * Recovered) :=
  match root with
  | None => Ok (slots, nothing_recovered)
  | Some root =>
      if negb (in_vector hw root) then Err OutOfBounds
      else
        wk ← walk (Z.to_nat hw) file hw
               (mkWalk (store_count root 1 slots) [root] {[root]} ∅
                  (mkRecovered [root] [] 0 0 []));
        Ok (wk_slots wk, wk_out wk)
  end.
End walk.

(** ** Reopening *)

Section reopen.
Context {Src : Type} (acquire : Src → Z → Z → Src * expected PoolError ChunkSpan) (t : thread).
Notation H := (Heap Src (cell ObjectRecord)).
#[local] Instance reopened_heap : RefHeap H (cell ObjectRecord) :=
  heap_ref_heap acquire t [nodes; records].

(** [RefStore::restore]: the slots again, then the view's link chunks. *)
Definition restore_view (v : view) (hw : Z) : ST H failure unit := fun h =>
  match reserve_restored acquire hw (h_slots h) with
  | (slots, Err e) => (set_slots slots h, Err e)
  | (slots, Ok _) =>
      let h := set_slots slots h in
      if hw =? 0 then (h, Ok tt)
      else
        let last_chunk := Z.shiftr (hw - 1) (s_bits slots) in
        (foldl (fun h c => ensure_parallel_chunks v (Z.shiftl c (s_bits slots)) h) h
           (seqZ 0 (last_chunk + 1)), Ok tt)
  end.

(** [reserve_restored_all], then each view's [restore]. *)
Definition restore_stores (hw : Z) : ST H failure unit :=
  _ ← (fun h => let '(slots, x) := reserve_restored acquire hw (h_slots h) in (set_slots slots h, x));
  _ ← restore_view nodes hw;
  restore_view records hw.

(** The objects in the slots the walk found; the other slots' bytes are free. *)
Definition adopt_live (live : list SlotIndex) (file : file_cells) : file_cells :=
  list_to_map (omap (fun i => c ← file !! i; Some (i, c)) live).

(** [open], from the snapshot's mark and root on. *)
Definition open (size align bits : Z) (source : Src) (file : file_cells) (hw : Z)
    (root : option SlotIndex) : expected failure (Model H * list RecoveredContentState) :=
  let h := mkHeap (new_store size align bits source) file ∅ [] in
  match restore_stores hw h with
  | (_, Err e) => Err e
  | (h, Ok _) =>
      '(slots, out) ← rebuild_counts file hw root (h_slots h);
      let live := rv_nodes out ++ rv_records out in
      let h := set_cells (adopt_live live file) (set_slots (finalize_restore live slots) h) in
      if synthetic (rv_max_id out) then Err OutOfBounds
      else
        let md := mkModel h (u64 (rv_max_id out + 1)) {[0%nat := (mkVersion None 0, 1%nat)]} 1 0
                    false false false [] [] in
        Ok (match root with
            | Some _ => publish (mkVersion root (u64 (rv_max_revision out + 1))) md
            | None => md
            end, rv_content_state out)
  end.
End reopen.

(** ** The references of a list of slots *)

Section adopted.
Implicit Types (file cells : file_cells) (i : SlotIndex) (l live : list SlotIndex) (r : ref).

Lemma adopt_live_cons i l file :
  adopt_live (i :: l) file =
  match file !! i with Some c => <[i := c]> (adopt_live l file) | None => adopt_live l file end.
Proof. unfold adopt_live. cbn [omap list_omap]. by destruct (file !! i). Qed.

Lemma adopt_live_lookup l file i :
  adopt_live l file !! i = if decide (i ∈ l) then file !! i else None.
Proof.
  induction l as [|j l IH].
  { rewrite decide_False by apply not_elem_of_nil. apply lookup_empty. }
  rewrite adopt_live_cons. destruct (decide (i = j)) as [->|Hne].
  - rewrite decide_True by apply list_elem_of_here. destruct (file !! j) as [c|] eqn:E.
    + by rewrite lookup_insert_eq.
    + rewrite IH. by destruct (decide _).
  - assert (adopt_live l file !! i = if decide (i ∈ j :: l) then file !! i else None) as Hi.
    { rewrite IH. destruct (decide (i ∈ l)), (decide (i ∈ j :: l)); set_solver. }
    destruct (file !! j); [|done]. by rewrite lookup_insert_ne.
Qed.

Lemma adopt_live_subseteq l file : adopt_live l file ⊆ file.
Proof.
  apply map_subseteq_spec. intros i c. rewrite adopt_live_lookup. by destruct (decide _).
Qed.

(** The references the objects in [l] own. *)
Definition edge_bag file l : gmultiset ref :=
  foldr (fun i acc => list_to_set_disj (from_option cell_edges [] (file !! i)) ⊎ acc) ∅ l.

Lemma edge_bag_perm file l l' : l ≡ₚ l' → edge_bag file l = edge_bag file l'.
Proof.
  unfold edge_bag. intros Hp. apply (foldr_permutation_proper (=)); [intros x; by intros ? ? ->| |done].
  intros i j acc. apply disj_union_swap.
Qed.

Lemma edge_bag_cons file i l :
  edge_bag file (i :: l) = list_to_set_disj (from_option cell_edges [] (file !! i)) ⊎ edge_bag file l.
Proof. done. Qed.

Lemma edge_bag_one file i :
  edge_bag file [i] = list_to_set_disj (from_option cell_edges [] (file !! i)).
Proof. rewrite edge_bag_cons. apply (right_id_L ∅ (⊎)). Qed.

Lemma edge_bag_app file l l' : edge_bag file (l ++ l') = edge_bag file l ⊎ edge_bag file l'.
Proof.
  induction l as [|i l IH]; [symmetry; apply (left_id_L ∅ (⊎))|].
  cbn [app]. by rewrite !edge_bag_cons, IH, (assoc_L (⊎)).
Qed.

Lemma edge_bag_records file l :
  (∀ i, i ∈ l → ∃ o : ObjectRecord, file !! i = Some (RecordCell o)) → edge_bag file l = ∅.
Proof.
  induction l as [|i l IH]; intros Hl; [done|]. rewrite edge_bag_cons.
  destruct (Hl i) as [o ->]; [apply list_elem_of_here|]. cbn.
  rewrite (left_id_L ∅ (⊎)). apply IH. intros j Hj. apply Hl. by apply list_elem_of_further.
Qed.

Lemma edge_bag_elem file l r :
  r ∈ edge_bag file l ↔ ∃ i c, i ∈ l ∧ file !! i = Some c ∧ r ∈ cell_edges c.
Proof.
  induction l as [|i l IH].
  { split; [multiset_solver|]. intros (i & c & Hi & _). by apply not_elem_of_nil in Hi. }
  rewrite edge_bag_cons, gmultiset_elem_of_disj_union, elem_of_list_to_set_disj, IH. split.
  - intros [Hr|(j & c & Hj & E & Hr)]; [|exists j, c; set_solver].
    destruct (file !! i) as [c|] eqn:E; [|by apply not_elem_of_nil in Hr].
    exists i, c. cbn in Hr. set_solver.
  - intros (j & c & Hj & E & Hr). apply elem_of_cons in Hj as [->|Hj]; [left; by rewrite E|].
    right. by exists j, c.
Qed.

Lemma all_edges_adopted file l : NoDup l → all_edges (adopt_live l file) = edge_bag file l.
Proof.
  induction 1 as [|i l Hi Hn IH]; [done|]. rewrite adopt_live_cons, edge_bag_cons, <- IH.
  destruct (file !! i) as [c|] eqn:E; cbn [from_option].
  - rewrite all_edges_insert; [done|]. rewrite adopt_live_lookup. by rewrite decide_False.
  - symmetry. apply (left_id_L ∅ (⊎)).
Qed.

Lemma all_edges_subseteq (cells cells' : file_cells) : cells ⊆ cells' → all_edges cells ⊆ all_edges cells'.
Proof.
  revert cells'. induction cells as [|i c cells Hi IH] using map_ind; intros cells' Hs.
  { apply gmultiset_empty_subseteq. }
  pose proof (lookup_weaken _ _ i c (lookup_insert_eq _ _ _) Hs) as Hc.
  rewrite all_edges_insert, (all_edges_delete cells' i c) by done.
  apply gmultiset_disj_union_mono_l, IH. apply map_subseteq_spec. intros j cj Hj.
  assert (i ≠ j) by congruence. rewrite lookup_delete_ne by done.
  eapply lookup_weaken; [|exact Hs]. by rewrite lookup_insert_ne.
Qed.

Lemma edge_bag_subseteq file l : NoDup l → edge_bag file l ⊆ all_edges file.
Proof.
  intros Hn. rewrite <- all_edges_adopted by done. apply all_edges_subseteq, adopt_live_subseteq.
Qed.

Lemma edge_bag_same file file' l :
  (∀ i, i ∈ l → file !! i = file' !! i) → edge_bag file l = edge_bag file' l.
Proof.
  induction l as [|i l IH]; intros Hl; [done|]. rewrite !edge_bag_cons, (Hl i) by apply list_elem_of_here.
  f_equal. apply IH. intros j Hj. apply Hl. by apply list_elem_of_further.
Qed.
End adopted.

(** ** The walk counts exactly *)

Section walk_spec.
Context {Src : Type} (file : file_cells) (bits hw : Z) (root : SlotIndex).
Implicit Types (X : gmultiset ref) (wk : Walk Src) (slots : SlotStore Src) (r : ref)
  (i c : SlotIndex) (out : Recovered).

Notation R := (reach file {[+ ((nodes, root) : ref) +]}).

(** What a reachable reference promises: an object of its view below the mark, and no
    more references to it than a count can hold. *)
Hypothesis reached_names : ∀ r, R r → names file r ∧ 0 <= r.2 < hw.
Hypothesis reached_bound : ∀ l r, NoDup l → (∀ i, i ∈ l → R (nodes, i)) →
  Z.of_nat (multiplicity r ({[+ ((nodes, root) : ref) +]} ⊎ edge_bag file l)) <= k_max_count.

(** The slots a walk has found, as references. *)
Definition found out r : Prop :=
  (r.1 = nodes ∧ r.2 ∈ rv_nodes out) ∨ (r.1 = records ∧ r.2 ∈ rv_records out).

(** What it noted of the records it found. *)
Definition noted out : Prop :=
  ∃ rs, Forall2 (fun i o => file !! i = Some (RecordCell o)) (rv_records out) rs ∧
    rv_max_id out = foldl Z.max 0 (rc_id <$> rs) ∧
    rv_max_revision out = foldl Z.max 0 (rc_revision <$> rs) ∧
    rv_content_state out = rs ≫= recovered_state.

(** [X]: the references crossed so far. *)
Record walk_inv X wk : Prop := {
  wi_restored : restored (wk_slots wk) bits hw;
  wi_nodup : NoDup (rv_nodes (wk_out wk)) ∧ NoDup (rv_records (wk_out wk));
  wi_node_seen i : i ∈ wk_node_seen wk ↔ i ∈ rv_nodes (wk_out wk);
  wi_record_seen i : i ∈ wk_record_seen wk ↔ i ∈ rv_records (wk_out wk);
  wi_elem r : r ∈ X ↔ found (wk_out wk) r;
  wi_reach r : r ∈ X → R r;
  wi_count r : R r → counts (wk_slots wk) r.2 = Z.of_nat (multiplicity r X);
  wi_noted : noted (wk_out wk) }.

Lemma reached_same r r' : R r → R r' → r.2 = r'.2 → r = r'.
Proof.
  intros Hr Hr' E. destruct (reached_names r Hr) as [(c & Hc & Hv) _].
  destruct (reached_names r' Hr') as [(c' & Hc' & Hv') _].
  rewrite E, Hc' in Hc. injection Hc as ->. rewrite Hv' in Hv. destruct r, r'. cbn in *. by subst.
Qed.

Lemma store_count_restored i x slots : restored slots bits hw → restored (store_count i x slots) bits hw.
Proof. by intros []. Qed.

(** One edge counted. *)
Lemma count_edge_spec X (e : ref) slots :
  (∀ r, R r → counts slots r.2 = Z.of_nat (multiplicity r X)) → R e →
  Z.of_nat (multiplicity e ({[+ e +]} ⊎ X)) <= k_max_count →
  ∀ r, R r → counts (count_edge e.2 slots) r.2 = Z.of_nat (multiplicity r ({[+ e +]} ⊎ X)).
Proof.
  intros Hc He Hb r Hr. unfold count_edge. rewrite counts_store, multiplicity_disj_union.
  rewrite multiplicity_disj_union, multiplicity_singleton_eq in Hb. unfold k_max_count in Hb.
  destruct (decide (r.2 = e.2)) as [E|Hne].
  - rewrite (reached_same r e Hr He E), multiplicity_singleton_eq.
    specialize (Hc e He). unfold counts in Hc. rewrite Hc. rewrite u32_small; [lia|]. unfold in_u32. lia.
  - rewrite multiplicity_singleton_ne by congruence. by apply Hc.
Qed.

Lemma in_vector_spec i : 0 <= i < hw → in_vector hw i = true.
Proof. intros Hi. unfold in_vector. apply andb_true_intro. rewrite Z.leb_le, Z.ltb_lt. lia. Qed.

(** Crossing a reference: [more] is found by it. *)
Lemma cross_spec X (e : ref) wk wk' :
  walk_inv X wk → R e → Z.of_nat (multiplicity e ({[+ e +]} ⊎ X)) <= k_max_count →
  wk_slots wk' = count_edge e.2 (wk_slots wk) →
  NoDup (rv_nodes (wk_out wk')) ∧ NoDup (rv_records (wk_out wk')) →
  (∀ i, i ∈ wk_node_seen wk' ↔ i ∈ rv_nodes (wk_out wk')) →
  (∀ i, i ∈ wk_record_seen wk' ↔ i ∈ rv_records (wk_out wk')) →
  (∀ r, found (wk_out wk') r ↔ r = e ∨ found (wk_out wk) r) → noted (wk_out wk') →
  walk_inv ({[+ e +]} ⊎ X) wk'.
Proof.
  intros I He Hb Es Hn Hns Hrs Hf Ho. split; try done.
  - rewrite Es. apply store_count_restored, I.
  - intros r. rewrite gmultiset_elem_of_disj_union, gmultiset_elem_of_singleton, Hf. by rewrite (wi_elem _ _ I).
  - intros r. rewrite gmultiset_elem_of_disj_union, gmultiset_elem_of_singleton.
    intros [->|Hr]; [done|]. by apply (wi_reach _ _ I).
  - rewrite Es. apply count_edge_spec; [apply I|done|done].
Qed.

Lemma visit_child_spec X wk c :
  walk_inv X wk → R (nodes, c) →
  Z.of_nat (multiplicity ((nodes, c) : ref) ({[+ ((nodes, c) : ref) +]} ⊎ X)) <= k_max_count →
  ∃ wk' new, visit_child hw c wk = Ok wk' ∧ walk_inv ({[+ ((nodes, c) : ref) +]} ⊎ X) wk' ∧
    wk_stack wk' ≡ₚ new ++ wk_stack wk ∧ rv_nodes (wk_out wk') = rv_nodes (wk_out wk) ++ new.
Proof.
  intros I Hc Hb. unfold visit_child.
  rewrite in_vector_spec by (by apply (reached_names (nodes, c))). cbn [negb].
  case_bool_decide as Hs.
  - eexists _, []. split; [done|]. split; [|by rewrite app_nil_r].
    eapply (cross_spec X (nodes, c)); try done; try apply I.
    intros r. split; [auto|]. intros [->|Hr]; [|done]. left. split; [done|].
    by apply (wi_node_seen _ _ I).
  - assert (c ∉ rv_nodes (wk_out wk)) as Hc' by (by rewrite <- (wi_node_seen _ _ I)).
    eexists _, [c]. split; [done|]. split; [|done].
    eapply (cross_spec X (nodes, c)); try done; try apply I; cbn.
    + split; [|apply I]. apply list.NoDup_app. split; [apply I|]. split; [set_solver|apply NoDup_singleton].
    + intros i. pose proof (wi_node_seen _ _ I i). set_solver.
    + intros [v i]. unfold found. cbn. rewrite elem_of_app, list_elem_of_singleton.
      naive_solver.
Qed.

Lemma foldl_max_ge l : ∀ a : Z, a <= foldl Z.max a l ∧ ∀ x, x ∈ l → x <= foldl Z.max a l.
Proof.
  induction l as [|y l IH]; intros a; cbn.
  - split; [lia|]. intros x Hx. by apply not_elem_of_nil in Hx.
  - destruct (IH (Z.max a y)) as [H1 H2]. split; [lia|]. intros x Hx.
    apply elem_of_cons in Hx as [->|Hx]; [lia|by apply H2].
Qed.

Lemma note_record_noted i o out : noted out → file !! i = Some (RecordCell o) → noted (note_record i o out).
Proof.
  intros (rs & Hf & E1 & E2 & E3) Hi. exists (rs ++ [o]). cbn.
  rewrite !fmap_app, !foldl_app, bind_app, E1, E2, E3. cbn. rewrite app_nil_r.
  split; [|done]. apply Forall2_app; [done|]. by constructor.
Qed.

Lemma visit_record_spec X wk c :
  walk_inv X wk → R (records, c) →
  Z.of_nat (multiplicity ((records, c) : ref) ({[+ ((records, c) : ref) +]} ⊎ X)) <= k_max_count →
  ∃ wk', visit_record file hw c wk = Ok wk' ∧ walk_inv ({[+ ((records, c) : ref) +]} ⊎ X) wk' ∧
    wk_stack wk' = wk_stack wk ∧ rv_nodes (wk_out wk') = rv_nodes (wk_out wk).
Proof.
  intros I Hc Hb. unfold visit_record.
  destruct (reached_names _ Hc) as [(cl & Hcl & Hv) Hlt]. cbn in Hcl, Hlt.
  rewrite in_vector_spec by done. cbn [negb]. case_bool_decide as Hs.
  - eexists. split; [done|]. split; [|done].
    eapply (cross_spec X (records, c)); try done; try apply I.
    intros r. split; [auto|]. intros [->|Hr]; [|done]. right. split; [done|].
    by apply (wi_record_seen _ _ I).
  - assert (c ∉ rv_records (wk_out wk)) as Hc' by (by rewrite <- (wi_record_seen _ _ I)).
    destruct cl as [n|o]; [done|]. unfold record_at. rewrite Hcl.
    eexists. split; [done|]. split; [|done].
    eapply (cross_spec X (records, c)); try done; try apply I; cbn.
    + split; [apply I|]. apply list.NoDup_app. split; [apply I|]. split; [set_solver|apply NoDup_singleton].
    + intros i. pose proof (wi_record_seen _ _ I i). set_solver.
    + intros [v i]. unfold found. cbn. rewrite elem_of_app, list_elem_of_singleton. naive_solver.
    + by apply note_record_noted; [apply I|].
Qed.

Lemma mult_above X (Y : gmultiset ref) r : Z.of_nat (multiplicity r X) <= Z.of_nat (multiplicity r (Y ⊎ X)).
Proof. rewrite multiplicity_disj_union. lia. Qed.

Lemma visit_children_spec n : ∀ digits X wk,
  walk_inv X wk → (∀ d, d ∈ digits → R (nodes, child n d)) →
  (∀ r, Z.of_nat (multiplicity r
     (list_to_set_disj ((fun d => (nodes, child n d)) <$> digits) ⊎ X)) <= k_max_count) →
  ∃ wk' new, visit_children hw n digits wk = Ok wk' ∧
    walk_inv (list_to_set_disj ((fun d => (nodes, child n d)) <$> digits) ⊎ X) wk' ∧
    wk_stack wk' ≡ₚ new ++ wk_stack wk ∧ rv_nodes (wk_out wk') = rv_nodes (wk_out wk) ++ new.
Proof.
  induction digits as [|d digits IH]; intros X wk I Hd Hb.
  - exists wk, []. split; [done|]. rewrite app_nil_r. split; [|done].
    cbn [fmap list_fmap]. by rewrite list_to_set_disj_nil, (left_id_L ∅ (⊎)).
  - rewrite fmap_cons, list_to_set_disj_cons, <- (assoc_L (⊎)), disj_union_swap in Hb |- *.
    destruct (visit_child_spec X wk (child n d) I) as (wk1 & new1 & E1 & I1 & S1 & N1).
    + apply Hd, list_elem_of_here.
    + etrans; [|apply (Hb (nodes, child n d))]. apply mult_above.
    + destruct (IH _ wk1 I1) as (wk2 & new2 & E2 & I2 & S2 & N2); [set_solver|done|].
      exists wk2, (new1 ++ new2). cbn [visit_children]. rewrite E1. split; [exact E2|]. split; [done|].
      split; [rewrite S2, S1; solve_Permutation|]. by rewrite N2, N1, app_assoc.
Qed.

(** A node's references, once it is read. *)
Lemma expand_spec X wk i :
  walk_inv X wk → R (nodes, i) →
  (∀ r, Z.of_nat (multiplicity r (edge_bag file [i] ⊎ X)) <= k_max_count) →
  ∃ wk' new, expand file hw i wk = Ok wk' ∧ walk_inv (edge_bag file [i] ⊎ X) wk' ∧
    wk_stack wk' ≡ₚ new ++ wk_stack wk ∧ rv_nodes (wk_out wk') = rv_nodes (wk_out wk) ++ new.
Proof.
  intros I Hi. destruct (reached_names _ Hi) as [(cl & Hcl & Hv) _]. cbn in Hcl.
  destruct cl as [n|o]; [|done].
  assert (∀ r, r ∈ node_edges n → R r) as Hedge.
  { intros r Hr. by apply (reach_edge _ _ (nodes, i) (NodeCell n)). }
  rewrite edge_bag_one, Hcl. unfold expand. rewrite Hcl. cbn [from_option cell_edges hamt_cell].
  unfold node_edges in *. destruct (is_leaf n).
  - rewrite list_to_set_disj_cons, list_to_set_disj_nil, (right_id_L ∅ (⊎)). intros Hb.
    destruct (visit_record_spec X wk (record n) I) as (wk' & E & I' & S' & N').
    + apply Hedge, list_elem_of_here.
    + apply Hb.
    + exists wk', []. rewrite S', N', app_nil_r. done.
  - intros Hb. apply visit_children_spec; [done| |done]. intros d Hd. apply Hedge.
    by apply (list_elem_of_fmap_2 (fun d => (nodes, child n d))).
Qed.

(** Distinct slots below the mark are at most as many as it. *)
Lemma below_mark l : NoDup l → (∀ i, i ∈ l → 0 <= i < hw) → (length l <= Z.to_nat hw)%nat.
Proof.
  intros Hn Hl. rewrite <- (length_seqZ 0 hw). apply submseteq_length, NoDup_submseteq; [done|].
  intros i Hi. apply elem_of_seqZ. specialize (Hl i Hi). lia.
Qed.

Lemma found_below X wk i : walk_inv X wk → i ∈ rv_nodes (wk_out wk) → R (nodes, i) ∧ 0 <= i < hw.
Proof.
  intros I Hi. assert (R (nodes, i)) as Hr.
  { apply (wi_reach _ _ I), (wi_elem _ _ I). by left. }
  split; [done|]. by apply (reached_names (nodes, i)).
Qed.

Notation crossed l := ({[+ ((nodes, root) : ref) +]} ⊎ edge_bag file l).

(** [expanded]: the nodes taken off the stack. *)
Lemma walk_spec fuel : ∀ expanded wk,
  walk_inv (crossed expanded) wk → expanded ++ wk_stack wk ≡ₚ rv_nodes (wk_out wk) →
  (Z.to_nat hw <= fuel + length expanded)%nat →
  ∃ wk', walk fuel file hw wk = Ok wk' ∧ walk_inv (crossed (rv_nodes (wk_out wk'))) wk'.
Proof.
  induction fuel as [|fuel IH]; intros expanded wk I Hp Hf; cbn [walk];
    destruct (wk_stack wk) as [|i stack] eqn:Es.
  1, 3: exists wk; split; [done|]; rewrite app_nil_r in Hp; by rewrite <- (edge_bag_perm _ _ _ Hp).
  - exfalso. apply Permutation_length in Hp. rewrite length_app in Hp. cbn in Hp.
    pose proof (below_mark _ (proj1 (wi_nodup _ _ I)) (fun i Hi => proj2 (found_below _ _ i I Hi))). lia.
  - rewrite <- Permutation_middle in Hp.
    assert (NoDup (i :: expanded)) as Hn.
    { pose proof (proj1 (wi_nodup _ _ I)) as Hn. rewrite <- Hp in Hn.
      change (i :: expanded ++ stack) with ((i :: expanded) ++ stack) in Hn.
      by apply list.NoDup_app in Hn as [Hn _]. }
    assert (∀ j, j ∈ i :: expanded → R (nodes, j)) as Hreach.
    { intros j Hj. apply (found_below _ _ j I). rewrite <- Hp. set_solver. }
    set (wk0 := mkWalk _ _ _ _ _).
    assert (walk_inv (crossed expanded) wk0) as I0 by (destruct I; by split).
    destruct (expand_spec _ wk0 i I0) as (wk1 & new & E1 & I1 & S1 & N1).
    + apply Hreach, list_elem_of_here.
    + intros r. rewrite disj_union_swap, <- edge_bag_app. by apply reached_bound.
    + rewrite E1. cbn [mbind]. rewrite disj_union_swap, <- edge_bag_app in I1.
      apply (IH ([i] ++ expanded) wk1 I1); [|cbn; lia].
      rewrite S1, N1. cbn [wk0 wk_stack wk_out]. rewrite <- Hp. solve_Permutation.
Qed.

Lemma start_inv slots :
  restored slots bits hw → (∀ i, counts slots i = 0) → 
  walk_inv (crossed []) (mkWalk (store_count root 1 slots) [root] {[root]} ∅ (mkRecovered [root] [] 0 0 [])).
Proof.
  intros Hr H0. change (edge_bag file []) with (∅ : gmultiset ref). rewrite (right_id_L ∅ (⊎)).
  assert (R (nodes, root)) as Hroot by (by apply reach_held, gmultiset_elem_of_singleton).
  split; cbn [wk_slots wk_out wk_node_seen wk_record_seen rv_nodes rv_records].
  - by apply store_count_restored.
  - split; [apply NoDup_singleton|apply NoDup_nil_2].
  - intros i. by rewrite elem_of_singleton, list_elem_of_singleton.
  - intros i. by rewrite elem_of_nil, elem_of_empty.
  - intros [v i]. rewrite gmultiset_elem_of_singleton. unfold found. cbn.
    rewrite elem_of_nil, list_elem_of_singleton. naive_solver.
  - intros r Hin. by apply gmultiset_elem_of_singleton in Hin as ->.
  - intros r Hin. rewrite counts_store. destruct (decide (r.2 = root)) as [E|Hne].
    + by rewrite (reached_same r (nodes, root) Hin Hroot E), multiplicity_singleton_eq.
    + rewrite multiplicity_singleton_ne; [apply H0|]. by intros ->.
  - by exists [].
Qed.
End walk_spec.

(** The outcome, for a durable document with a root or without. *)
Section rebuilt.
Context {Src : Type} (file : file_cells) (bits hw : Z).
Implicit Types (ext : gmultiset ref) (root : option SlotIndex) (slots : SlotStore Src) (r : ref) (out : Recovered).

Record rebuilt ext slots out : Prop := {
  rb_restored : restored slots bits hw;
  rb_nodup : NoDup (rv_nodes out ++ rv_records out);
  rb_below : Forall (fun i => 0 <= i < hw) (rv_nodes out ++ rv_records out);
  rb_elem r : r ∈ ext ⊎ edge_bag file (rv_nodes out) ↔ found out r;
  rb_names r : found out r → names file r;
  rb_reach r : found out r → reach file ext r;
  rb_count r : found out r →
    counts slots r.2 = Z.of_nat (multiplicity r (ext ⊎ edge_bag file (rv_nodes out))) ∧
    counts slots r.2 <= k_max_count;
  rb_noted : noted file out }.

(** What the file must promise of the objects under the root. *)
Definition recoverable root : Prop :=
  (∀ r, reach file (opt_one root) r → names file r ∧ 0 <= r.2 < hw) ∧
  ∀ l r, NoDup l → (∀ i, i ∈ l → reach file (opt_one root) (nodes, i)) →
    Z.of_nat (multiplicity r (opt_one root ⊎ edge_bag file l)) <= k_max_count.

Lemma found_elem out i :
  i ∈ rv_nodes out ++ rv_records out ↔ found out (nodes, i) ∨ found out (records, i).
Proof. rewrite elem_of_app. unfold found. cbn. naive_solver. Qed.

Lemma rebuild_counts_spec root slots :
  recoverable root → restored slots bits hw → (∀ i, counts slots i = 0) →
  ∃ slots' out, rebuild_counts file hw root slots = Ok (slots', out) ∧ rebuilt (opt_one root) slots' out.
Proof.
  intros [Hn Hb] Hr H0. destruct root as [root|]; cbn [rebuild_counts].
  2: { exists slots, nothing_recovered. split; [done|]. assert (∀ r, ¬ found nothing_recovered r) as Hf.
    { intros r [[_ H]|[_ H]]; by apply not_elem_of_nil in H. }
    split; [done|apply NoDup_nil_2|by apply Forall_nil| | | | |by exists []].
    - intros r. split; [|by intros Hfr; destruct (Hf r)]. intros Hin.
      change (r ∈ (∅ : gmultiset ref) ⊎ ∅) in Hin. multiset_solver.
    - intros r Hfr. by destruct (Hf r).
    - intros r Hfr. by destruct (Hf r).
    - intros r Hfr. by destruct (Hf r). }
  assert (reach file (opt_one (Some root)) (nodes, root)) as Hroot.
  { by apply reach_held, gmultiset_elem_of_singleton. }
  rewrite in_vector_spec by (by apply (Hn (nodes, root))). cbn [negb].
  destruct (walk_spec file bits hw root Hn Hb (Z.to_nat hw) [] _ (start_inv file bits hw root Hn slots Hr H0))
    as (wk & E & I); [done|cbn; lia|].
  rewrite E. exists (wk_slots wk), (wk_out wk). split; [done|].
  assert (∀ r, found (wk_out wk) r → reach file (opt_one (Some root)) r) as Hreach.
  { intros r Hf. apply (wi_reach _ _ _ _ _ _ I). by apply (wi_elem _ _ _ _ _ _ I). }
  split; try apply I; [| | |done|].
  - apply list.NoDup_app. split; [apply I|]. split; [|apply I]. intros i Hi Hi'.
    assert ((nodes, i) = (records, i)) as [=]. apply (reached_same file hw root Hn); [..|done].
    + apply Hreach. by left.
    + apply Hreach. by right.
  - apply Forall_forall. intros i Hi%list_elem_of_In. apply found_elem in Hi as [Hi|Hi]; apply Hreach, Hn in Hi; apply Hi.
  - intros r Hf. by apply Hn, Hreach.
  - intros r Hf. split; [by apply (wi_count _ _ _ _ _ _ I), Hreach|].
    rewrite (wi_count _ _ _ _ _ _ I) by (by apply Hreach). apply Hb; [apply I|].
    intros i Hi. apply Hreach. by left.
Qed.
End rebuilt.

(** ** The recovered heap *)

Section recovered_heap.
Context {Src : Type} (acquire : Src → Z → Z → Src * expected PoolError ChunkSpan).
Notation H := (Heap Src (cell ObjectRecord)).
Implicit Types (h : H) (v : view) (slots : SlotStore Src) (ext : gmultiset ref) (out : Recovered)
  (live : list SlotIndex) (file : file_cells) (i bits hw : Z) (r : ref).

(** What publishing link chunks leaves alone. *)
Definition links_grown h h' : Prop :=
  h_slots h' = h_slots h ∧ h_cells h' = h_cells h ∧ h_fenced h' = h_fenced h ∧
  ∀ v, v_head (h_view v h') = v_head (h_view v h) ∧
    v_link_chunks (h_view v h) ⊆ v_link_chunks (h_view v h').

Lemma link_chunks_spec v cs : ∀ h,
  0 <= s_bits (h_slots h) →
  let h' := foldl (fun h c => ensure_parallel_chunks v (Z.shiftl c (s_bits (h_slots h))) h) h cs in
  links_grown h h' ∧ ∀ c, c ∈ cs → c ∈ v_link_chunks (h_view v h').
Proof.
  induction cs as [|c cs IH]; intros h Hb; cbn [foldl].
  { split; [done|]. intros c Hc. by apply not_elem_of_nil in Hc. }
  set (h1 := ensure_parallel_chunks v _ h).
  destruct (ensure_frame v (Z.shiftl c (s_bits (h_slots h))) h) as (F1 & F2 & F3).
  fold h1 in F1, F2, F3. destruct (IH h1) as [(G1 & G2 & G3 & G4) Hc]; [by rewrite F1|].
  split.
  - split_and!; [congruence..|]. intros v'. destruct (G4 v') as [-> Hs].
    destruct (h_view_ensure v v' (Z.shiftl c (s_bits (h_slots h))) h) as (V1 & _ & V3 & _). set_solver.
  - intros c' Hc'. apply elem_of_cons in Hc' as [->|Hc']; [|by apply Hc]. apply (G4 v).
    destruct (h_view_ensure v v (Z.shiftl c (s_bits (h_slots h))) h) as (_ & _ & _ & V4).
    by rewrite Z.shiftr_shiftl_l, Z.sub_diag, Z.shiftl_0_r in V4 by lia.
Qed.

Lemma restore_view_spec v bits hw h :
  restored (h_slots h) bits hw → 0 <= bits < 12 → 0 <= hw →
  ∃ h' slots, restore_view acquire v hw h = (h', Ok tt) ∧ restored slots bits hw ∧
    s_counts slots = s_counts (h_slots h) ∧ links_grown (set_slots slots h) h' ∧
    ∀ i, 0 <= i < hw → Z.shiftr i bits ∈ v_link_chunks (h_view v h').
Proof.
  intros R Hb Hhw. destruct (reserve_restored_again acquire hw (h_slots h) bits R) as (slots & E & R' & Ec); [lia..|].
  unfold restore_view. rewrite E, (rs_bits _ _ _ R'). destruct (Z.eqb_spec hw 0) as [->|Hne].
  { exists (set_slots slots h), slots. split_and!; try done. lia. }
  set (last := Z.shiftr (hw - 1) bits).
  destruct (link_chunks_spec v (seqZ 0 (last + 1)) (set_slots slots h)) as [Hg Hc].
  { cbn. rewrite (rs_bits _ _ _ R'). lia. }
  eexists _, slots. split; [done|]. split; [done|]. split; [done|].
  assert (∀ cs h0, s_bits (h_slots h0) = bits →
    foldl (fun h c => ensure_parallel_chunks v (Z.shiftl c bits) h) h0 cs =
    foldl (fun h c => ensure_parallel_chunks v (Z.shiftl c (s_bits (h_slots h))) h) h0 cs) as Efold.
  { induction cs as [|c cs IH]; intros h0 E0; [done|]. cbn [foldl]. rewrite E0. apply IH.
    by destruct (ensure_frame v (Z.shiftl c bits) h0) as (-> & _). }
  rewrite Efold by apply R'. split; [exact Hg|]. intros i Hi. apply Hc. apply elem_of_seqZ.
  unfold last. rewrite !Z.shiftr_div_pow2 by lia.
  pose proof (Z.pow_pos_nonneg 2 bits). assert (0 <= i / 2 ^ bits) by (apply Z.div_pos; lia).
  assert (i / 2 ^ bits <= (hw - 1) / 2 ^ bits) by (apply Z.div_le_mono; lia). lia.
Qed.

Definition recovered_live out : list SlotIndex := rv_nodes out ++ rv_records out.

Lemma keys_adopted live file :
  NoDup live → (∀ i, i ∈ live → is_Some (file !! i)) → keys (adopt_live live file) ≡ₚ live.
Proof.
  intros Hn Hl. apply NoDup_Permutation; [apply NoDup_fst_map_to_list|done|].
  intros i. rewrite keys_elem, adopt_live_lookup. split.
  - destruct (decide (i ∈ live)); [done|]. by intros [c Hc].
  - intros Hi. rewrite decide_True by done. by apply Hl.
Qed.

Lemma slots_inv_perm slots l l' :
  l ≡ₚ l' → slots_inv slots l [] → slots_inv slots l' [].
Proof.
  intros Hp [A1 A2 A3 A4 A5 A6 A7]. split; try done.
  - by rewrite <- Hp.
  - by rewrite <- (Permutation_length Hp).
Qed.

Lemma mult_pos r (X : gmultiset ref) : r ∈ X → 0 < Z.of_nat (multiplicity r X).
Proof. rewrite elem_of_multiplicity. lia. Qed.

(** [file] holds what [cells] had under the root. *)
Definition holds_graph (cells file : file_cells) ext : Prop :=
  ∀ r, reach cells ext r → file !! r.2 = cells !! r.2.

Lemma graph_reach cells file ext r : holds_graph cells file ext → reach file ext r ↔ reach cells ext r.
Proof.
  intros Hg. split; induction 1 as [r Hr|r c r' Hr IH Hc He]; try by apply reach_held.
  - eapply reach_edge; [exact IH| |exact He]. by rewrite <- (Hg r IH).
  - eapply reach_edge; [exact IH| |exact He]. by rewrite (Hg r Hr).
Qed.

Lemma tree_graph cells file ext f s p i m :
  holds_graph cells file ext → tree cells f s p i m → reach cells ext (nodes, i) → tree file f s p i m.
Proof.
  intros Hg Ht. induction Ht as [f s p i n m Hi Hl Hk Hp Hm|f s p i n m ms Hi Hw Hb Hc IH Hm]; intros Hr;
    pose proof (Hg _ Hr) as Ei; cbn [snd] in Ei.
  - by eapply tree_leaf; [rewrite Ei|..].
  - eapply tree_branch; [by rewrite Ei|done..| |done]. intros d Hd. apply IH; [done|].
    eapply (reach_edge _ _ (nodes, i) (NodeCell n)); [done..|]. by apply child_edge.
Qed.

Section adopted_heap.
Context (file : file_cells) (bits hw : Z) (ext : gmultiset ref) (slots : SlotStore Src) (out : Recovered).
Context (B : rebuilt file bits hw ext slots out).
Notation live := (recovered_live out).
Notation cells := (adopt_live live file).

Lemma rebuilt_object i : i ∈ live → ∃ c, file !! i = Some c ∧ found out (cell_view c, i).
Proof.
  intros Hi. apply found_elem in Hi as [Hf|Hf]; destruct (rb_names _ _ _ _ _ _ B _ Hf) as (c & Hc & Hv);
    cbn [fst snd] in Hc, Hv; exists c; by rewrite Hv.
Qed.

Lemma rebuilt_lookup i c : cells !! i = Some c ↔ file !! i = Some c ∧ found out (cell_view c, i).
Proof.
  rewrite adopt_live_lookup. destruct (decide (i ∈ live)) as [Hi|Hi].
  - split; [|by intros [? _]]. intros Hc. split; [done|].
    destruct (rebuilt_object i Hi) as (c' & Hc' & Hf). congruence.
  - split; [done|]. intros [_ Hf]. exfalso. apply Hi, found_elem. by destruct c; auto.
Qed.

Lemma rebuilt_edges : all_edges cells = edge_bag file (rv_nodes out).
Proof.
  rewrite all_edges_adopted by apply B. unfold recovered_live.
  rewrite edge_bag_app, (edge_bag_records file (rv_records out)), (right_id_L ∅ (⊎)); [done|].
  intros i Hi. destruct (rb_names _ _ _ _ _ _ B (records, i)) as (c & Hc & Hv); [by right|].
  cbn in Hc. destruct c as [n|o]; [done|]. by exists o.
Qed.

Lemma rebuilt_count_inv (views : gmap view View) :
  (∀ v, v_head (view_of views v) = k_reclaim_nil) →
  count_inv (counts (finalize_restore live slots)) cells views ext no_batch no_batch.
Proof.
  intros Hv. change (counts (finalize_restore live slots)) with (counts slots).
  split; rewrite ?rebuilt_edges; try done.
  - intros r Hr. apply (rb_elem _ _ _ _ _ _ B) in Hr.
    destruct (rb_names _ _ _ _ _ _ B r Hr) as (c & Hc & Ev). exists c. split; [|done].
    apply rebuilt_lookup. rewrite Ev. destruct r. done.
  - intros i c Hc. apply rebuilt_lookup in Hc as [_ Hf].
    destruct (rb_count _ _ _ _ _ _ B _ Hf) as [Hn Hle]. unfold held. by rewrite rebuilt_edges.
  - intros v. apply NoDup_nil_2.
  - intros v i. split; [by intros Hi%not_elem_of_nil|]. intros (c & Hc & <- & H0). exfalso.
    apply rebuilt_lookup in Hc as [_ Hf]. destruct (rb_count _ _ _ _ _ _ B _ Hf) as [Hn _].
    apply (rb_elem _ _ _ _ _ _ B), mult_pos in Hf. cbn [snd] in Hn.
    rewrite H0 in Hn. exact (Z.lt_irrefl 0 (Z.lt_le_trans _ _ _ Hf (Z.eq_le_incl _ _ (eq_sym Hn)))).
Qed.

Lemma rebuilt_heap_inv h :
  0 <= bits < 12 → 0 <= hw < 2 ^ 32 → h_fenced h = [] →
  (∀ v, v_head (h_view v h) = k_reclaim_nil) →
  (∀ v i, v = nodes ∨ v = records → 0 <= i < hw → Z.shiftr i bits ∈ v_link_chunks (h_view v h)) →
  heap_inv (set_cells cells (set_slots (finalize_restore live slots) h)) ext no_batch.
Proof.
  intros Hb Hhw Hf Hhead Hlinks. pose proof (rb_restored _ _ _ _ _ _ B) as R.
  split; cbn [h_slots h_cells h_fenced set_cells set_slots].
  - change (s_bits (finalize_restore live slots)) with (s_bits slots). rewrite (rs_bits _ _ _ R). lia.
  - rewrite Hf. apply (slots_inv_perm _ live).
    + symmetry. apply keys_adopted; [apply B|]. intros i Hi.
      destruct (rebuilt_object i Hi) as (c & Hc & _). by exists c.
    + apply (finalize_partition slots bits hw); [done|lia|done|apply B|apply B].
  - exists no_batch. by apply rebuilt_count_inv.
  - intros i c Hc. change (s_bits (finalize_restore live slots)) with (s_bits slots).
    rewrite (rs_bits _ _ _ R). change (h_view ?v (set_cells _ (set_slots _ h))) with (h_view v h).
    apply Hlinks; [destruct c; auto|]. pose proof (rb_below _ _ _ _ _ _ B) as Hall.
    rewrite List.Forall_forall in Hall. apply Hall, list_elem_of_In, found_elem.
    apply rebuilt_lookup in Hc as [_ Hf']. destruct c; auto.
Qed.

(** Every object adopted hangs off the document's references. *)
Lemma rebuilt_reach r : found out r ↔ reach file ext r.
Proof.
  split; [by apply (rb_reach _ _ _ _ _ _ B)|]. intros Hr. apply (rb_elem _ _ _ _ _ _ B).
  induction Hr as [r Hr|r c r' Hr IH Hc He]; rewrite gmultiset_elem_of_disj_union; [by left|right].
  apply (rb_elem _ _ _ _ _ _ B) in IH. apply edge_bag_elem. exists r.2, c. split; [|done].
  destruct (rb_names _ _ _ _ _ _ B r IH) as (c' & Hc' & Hv). rewrite Hc in Hc'. injection Hc' as <-.
  destruct IH as [[_ IH]|[Ev _]]; [done|]. rewrite Ev in Hv. destruct c as [n|o]; [done|].
  by apply not_elem_of_nil in He.
Qed.

(** Reading the adopted heap from the root is reading the file. *)
Lemma adopted_graph : holds_graph file cells ext.
Proof.
  intros [v i] Hr. apply rebuilt_reach in Hr. rewrite adopt_live_lookup, decide_True; [done|].
  apply found_elem. destruct Hr as [[E Hi]|[E Hi]]; cbn in E, Hi; [left; left|right; right]; done.
Qed.
End adopted_heap.

(** *** The file of a live document *)

Lemma reach_ext_mono (cells : file_cells) ext ext' r : ext ⊆ ext' → reach cells ext r → reach cells ext' r.
Proof.
  intros Hs. induction 1 as [r Hr|r c r' Hr IH Hc He]; [|by eapply reach_edge].
  apply reach_held. multiset_solver.
Qed.

Lemma counted_bound h ext (det : view → list SlotIndex) (X : gmultiset ref) r :
  heap_inv h ext det → X ⊆ ext ⊎ all_edges (h_cells h) → Z.of_nat (multiplicity r X) <= k_max_count.
Proof.
  intros I Hs. destruct (hi_count _ _ _ I) as [pend Ic].
  destruct (decide (r ∈ ext ⊎ all_edges (h_cells h))) as [Hin|Hin].
  - destruct (ci_names _ _ _ _ _ _ Ic r Hin) as (c & Hc & Hv).
    destruct (ci_count _ _ _ _ _ _ Ic _ _ Hc) as [Hn Hle]. rewrite Hn, Hv in Hle. destruct r as [v i].
    etrans; [|exact Hle]. apply Nat2Z.inj_le, Hs.
  - assert (multiplicity r X = 0%nat) as E; [|by rewrite E].
    apply not_elem_of_multiplicity. intros Hr. apply Hin. multiset_solver.
Qed.

Lemma durable_recoverable h ext0 (det : view → list SlotIndex) root file :
  heap_inv h ext0 det → opt_one root ⊆ ext0 → holds_graph (h_cells h) file (opt_one root) →
  recoverable file (s_high_water (h_slots h)) root.
Proof.
  intros I Hext Hg. destruct (hi_count _ _ _ I) as [pend Ic]. split.
  - intros r Hr. apply (graph_reach _ _ _ _ Hg) in Hr.
    destruct (ci_names _ _ _ _ _ _ Ic r) as (c & Hc & Hv).
    { eapply (reach_counted h); [exact I|]. by eapply reach_ext_mono. }
    split; [exists c; by rewrite (Hg r Hr)|].
    eapply si_live_below; [apply I|]. rewrite !elem_of_app, keys_elem. rewrite Hc. eauto.
  - intros l r Hn Hl. eapply counted_bound; [exact I|].
    rewrite (edge_bag_same file (h_cells h)).
    + apply gmultiset_disj_union_mono; [done|by apply edge_bag_subseteq].
    + intros i Hi. apply (Hg (nodes, i)), (graph_reach _ _ _ _ Hg), Hl, Hi.
Qed.

(** *** The records of a tree *)

Lemma reach_first (cells : file_cells) (e r : ref) :
  reach cells {[+ e +]} r →
  r = e ∨ ∃ c e', cells !! e.2 = Some c ∧ e' ∈ cell_edges c ∧ reach cells {[+ e' +]} r.
Proof.
  induction 1 as [r Hr|r c r' Hr IH Hc He].
  - left. by apply gmultiset_elem_of_singleton in Hr.
  - right. destruct IH as [->|(c0 & e' & Hc0 & He' & IH)].
    + exists c, r'. split_and!; [done..|]. by apply reach_held, gmultiset_elem_of_singleton.
    + exists c0, e'. split_and!; [done..|]. by eapply reach_edge.
Qed.

Lemma reach_trans (cells : file_cells) ext (e r : ref) :
  reach cells ext e → reach cells {[+ e +]} r → reach cells ext r.
Proof.
  intros He. induction 1 as [r Hr|r c r' Hr IH Hc Hr']; [|by eapply reach_edge].
  by apply gmultiset_elem_of_singleton in Hr as ->.
Qed.

Lemma tree_reach (cells : file_cells) ext f s p i m x :
  (∀ r, reach cells ext r → names cells r) →
  tree cells f s p i m → 0 <= s → 0 <= p < 2 ^ s → reach cells ext (nodes, i) →
  reach cells {[+ ((nodes, i) : ref) +]} (records, x) → ∃ k, m !! k = Some x.
Proof.
  intros Hn Ht. induction Ht as [f s p i n m Hi Hl Hk Hp ->|f s p i n m ms Hi Hw Hb Hc IH Hm];
    intros Hs Hpr Hr Hx; destruct (reach_first _ _ _ Hx) as [[=]|(c & e & Hc' & He & Hx')];
    cbn [snd] in Hc'; rewrite Hi in Hc'; injection Hc' as <-; cbn [cell_edges hamt_cell] in He.
  - assert (reach cells ext e) as Hre by (by eapply (reach_edge _ _ (nodes, i) (NodeCell n))).
    unfold node_edges in He. rewrite Hl in He. apply list_elem_of_singleton in He as ->.
    destruct (reach_first _ _ _ Hx') as [[= ->]|(c & e & Hc' & He & _)].
    + exists (key n). by rewrite lookup_singleton_eq.
    + destruct (Hn _ Hre) as (c' & Hc'' & Hv). rewrite Hc' in Hc''. injection Hc'' as <-.
      destruct c; [done|]. by apply not_elem_of_nil in He.
  - assert (reach cells ext e) as Hre by (by eapply (reach_edge _ _ (nodes, i) (NodeCell n))).
    rewrite node_edges_branch in He by apply Hw. apply list_elem_of_fmap in He as (d & -> & Hd).
    pose proof (set_bits_range _ _ (proj1 (proj2 Hw)) Hd) as Hd'.
    destruct (IH d Hd) as [k Hk]; [lia|by apply child_prefix|done|done|].
    exists k. rewrite Hm. rewrite (child_digit _ _ _ _ _ _ _ _ _ (Hc d Hd) Hs Hpr Hd' Hk).
    apply set_bits_elem in Hd as [_ ->]; [done|apply Hw].
Qed.

(** *** What the walk noted *)

Lemma noted_elem file l rs o :
  Forall2 (fun i o => file !! i = Some (RecordCell o)) l rs →
  o ∈ rs ↔ ∃ i, i ∈ l ∧ file !! i = Some (RecordCell o).
Proof.
  induction 1 as [|i o' l rs Hi Hf IH].
  - split; [by intros Ho%not_elem_of_nil|]. intros (i & Hi & _). by apply not_elem_of_nil in Hi.
  - rewrite elem_of_cons, IH. split.
    + intros [->|(j & Hj & E)]; [exists i|exists j]; set_solver.
    + intros (j & Hj & E). apply elem_of_cons in Hj as [->|Hj]; [left; congruence|right; by exists j].
Qed.

Lemma foldl_max_lt b l : ∀ a : Z, a < b → (∀ x, x ∈ l → x < b) → foldl Z.max a l < b.
Proof.
  induction l as [|y l IH]; intros a Ha Hl; [done|]. apply IH.
  - pose proof (Hl y (list_elem_of_here _ _)). lia.
  - intros x Hx. apply Hl. by apply list_elem_of_further.
Qed.

(** A maximum over the records is one of the resulting bounds. *)
Lemma noted_max file l rs (f : ObjectRecord → Z) b :
  Forall2 (fun i o => file !! i = Some (RecordCell o)) l rs → 0 < b →
  (∀ i o, i ∈ l → file !! i = Some (RecordCell o) → f o < b) →
  0 <= foldl Z.max 0 (f <$> rs) < b ∧
  ∀ i o, i ∈ l → file !! i = Some (RecordCell o) → f o <= foldl Z.max 0 (f <$> rs).
Proof.
  intros Hf Hb Hlt. destruct (foldl_max_ge (f <$> rs) 0) as [H0 Hge]. split; [split; [done|]|].
  - apply foldl_max_lt; [done|]. intros x Hx. apply list_elem_of_fmap in Hx as (o & -> & Ho).
    apply (noted_elem _ _ _ _ Hf) in Ho as (i & Hi & E). by eapply Hlt.
  - intros i o Hi E. apply Hge, list_elem_of_fmap_2, (noted_elem _ _ _ _ Hf). by exists i.
Qed.

Lemma restore_stores_spec size align bits hw source file :
  0 <= bits < 12 → 0 <= hw →
  (reserve_restored acquire hw (new_store size align bits source)).2 = Ok tt →
  ∃ h, restore_stores acquire hw (mkHeap (new_store size align bits source) file ∅ []) = (h, Ok tt) ∧
    restored (h_slots h) bits hw ∧ (∀ i, counts (h_slots h) i = 0) ∧ h_fenced h = [] ∧
    (∀ v, v_head (h_view v h) = k_reclaim_nil) ∧
    ∀ v i, v = nodes ∨ v = records → 0 <= i < hw → Z.shiftr i bits ∈ v_link_chunks (h_view v h).
Proof.
  intros Hb Hhw Hr. unfold restore_stores, mbind, ST_bind.
  cbn [h_slots].
  destruct (reserve_restored acquire hw (new_store size align bits source)) as [slots0 x] eqn:E.
  cbn in Hr. subst x.
  assert (bits_ok (new_store size align bits source)) as Hok
    by (unfold bits_ok; cbn [new_store s_bits]; lia).
  pose proof (reserve_restored_spec acquire hw _ _ Hok eq_refl Hhw E) as R0.
  pose proof (reserve_restored_counts acquire hw (new_store size align bits source)) as C0.
  rewrite E in C0. cbn [fst new_store s_bits s_counts] in R0, C0.
  destruct (restore_view_spec nodes bits hw (set_slots slots0 (mkHeap (new_store size align bits source) file ∅ [])) R0)
    as (h1 & s1 & E1 & R1 & C1 & (A1 & _ & A3 & A4) & L1); [done..|].
  rewrite E1. cbn [h_slots set_slots] in A1.
  destruct (restore_view_spec records bits hw h1) as (h2 & s2 & E2 & R2 & C2 & (B1 & _ & B3 & B4) & L2);
    [by rewrite A1|done..|].
  rewrite E2. exists h2. cbn [h_slots set_slots] in B1, C1. rewrite B1. split_and!; try done.
  - intros i. unfold counts, count_ref. rewrite C2, A1, C1. cbn. by rewrite C0.
  - by rewrite B3.
  - intros v. destruct (B4 v) as [-> _]. change (h_view v (set_slots s2 h1)) with (h_view v h1).
    by destruct (A4 v) as [-> _].
  - intros v i [->| ->] Hi; [|by apply L2]. apply (B4 nodes). by apply L1.
Qed.

Lemma tree_bound_reach (cells : file_cells) ext f s p i m (k : Z) x :
  tree cells f s p i m → reach cells ext (nodes, i) → m !! k = Some x → reach cells ext (records, x).
Proof.
  intros Ht. induction Ht as [f s p i n m Hi Hl Hu Hp ->|f s p i n m ms Hi Hw Hb Hc IH Hm]; intros Hr Hk.
  - apply lookup_singleton_Some in Hk as [_ <-].
    eapply (reach_edge _ _ (nodes, i) (NodeCell n)); [done..|]. cbn. unfold node_edges. rewrite Hl.
    apply list_elem_of_here.
  - rewrite Hm in Hk. destruct (Z.testbit (bitmap n) (digit_at k s)) eqn:Hbit; [|done].
    assert (digit_at k s ∈ set_bits (bitmap n)) as Hd.
    { apply set_bits_elem; [apply Hw|]. split; [|done]. unfold digit_at. apply Z.land_nonneg. by right. }
    apply (IH _ Hd); [|done]. eapply (reach_edge _ _ (nodes, i) (NodeCell n)); [done..|]. by apply child_edge.
Qed.

(** The records under a root are those the version binds. *)
Lemma version_reach file hw root m x :
  recoverable file hw root → version file root m →
  reach file (opt_one root) (records, x) ↔ ∃ k, m !! k = Some x.
Proof.
  intros [Hn _] Hv. destruct root as [i|]; cbn in Hv.
  - assert (reach file (opt_one (Some i)) (nodes, i)) as Hi by (by apply reach_held, gmultiset_elem_of_singleton).
    split.
    + intros Hx. eapply (tree_reach file (opt_one (Some i))); [|exact Hv|lia|lia|exact Hi|exact Hx].
      intros r Hr. by apply Hn.
    + intros [k Hk]. by eapply tree_bound_reach.
  - rewrite Hv. split; [|intros [k Hk]; by rewrite lookup_empty in Hk].
    intros Hx. exfalso. remember (records, x) as r eqn:E. clear E.
    induction Hx as [r Hr|]; [|done]. change (r ∈ (∅ : gmultiset ref)) in Hr. multiset_solver.
Qed.

Section reopened.
Context (t : thread).
#[local] Instance recovered_heap_instance : RefHeap H (cell ObjectRecord) :=
  heap_ref_heap acquire t [nodes; records].

(** What the runtime is handed and what the counters resume above. *)
Definition resumed (file : file_cells) (m : gmap Z SlotIndex) (md : Model H) (states : list RecoveredContentState) : Prop :=
  (∀ k i o, m !! k = Some i → record_at file i = Some o →
     rc_id o < md_next_id md ∧ rc_revision o < vn_revision (version_of (md_current md) md)) ∧
  ∀ x, x ∈ states ↔ ∃ k i o, m !! k = Some i ∧ record_at file i = Some o ∧ x ∈ recovered_state o.

Definition stamped (file : file_cells) (m : gmap Z SlotIndex) : Prop :=
  ∀ k i o, m !! k = Some i → record_at file i = Some o →
    0 <= rc_id o < 2 ^ 63 ∧ 0 <= rc_revision o < 2 ^ 64 - 1.

Lemma noted_resumed file bits hw root slots out m :
  recoverable file hw root → rebuilt file bits hw (opt_one root) slots out → version file root m →
  stamped file m →
  (0 <= rv_max_id out < 2 ^ 63 ∧ 0 <= rv_max_revision out < 2 ^ 64 - 1) ∧
  (∀ k i o, m !! k = Some i → record_at file i = Some o →
     rc_id o <= rv_max_id out ∧ rc_revision o <= rv_max_revision out) ∧
  ∀ x, x ∈ rv_content_state out ↔
    ∃ k i o, m !! k = Some i ∧ record_at file i = Some o ∧ x ∈ recovered_state o.
Proof.
  intros Hrec B Hv Hst. destruct (rb_noted _ _ _ _ _ _ B) as (rs & Hf & -> & -> & ->).
  assert (∀ i, i ∈ rv_records out ↔ ∃ k, m !! k = Some i) as Hbound.
  { intros i. rewrite <- (version_reach file hw root m i Hrec Hv), <- (rebuilt_reach _ _ _ _ _ _ B).
    unfold found. cbn. naive_solver. }
  assert (∀ i o, file !! i = Some (RecordCell o) ↔ record_at file i = Some o) as Hat.
  { intros i o. unfold record_at. destruct (file !! i) as [[n|o']|]; naive_solver. }
  destruct (noted_max file _ rs rc_id (2 ^ 63) Hf ltac:(lia)) as [Hid Hidle].
  { intros i o Hi Ho. apply Hbound in Hi as [k Hk]. by apply (Hst k i o), Hat. }
  destruct (noted_max file _ rs rc_revision (2 ^ 64 - 1) Hf ltac:(lia)) as [Hrv Hrvle].
  { intros i o Hi Ho. apply Hbound in Hi as [k Hk]. by apply (Hst k i o), Hat. }
  split; [done|]. split.
  - intros k i o Hk Ho. apply Hat in Ho. assert (i ∈ rv_records out) as Hi by (apply Hbound; by exists k).
    split; [by apply (Hidle i)|by apply (Hrvle i)].
  - intros x. rewrite list_elem_of_bind. split.
    + intros (o & Hx & Ho). apply (noted_elem _ _ _ _ Hf) in Ho as (i & Hi & Ho).
      apply Hbound in Hi as [k Hk]. exists k, i, o. by rewrite <- Hat.
    + intros (k & i & o & Hk & Ho & Hx). exists o. split; [done|].
      apply (noted_elem _ _ _ _ Hf). exists i. rewrite Hat, Hbound. eauto.
Qed.

Lemma publish_next_id (v : Version) (md : Model H) : md_next_id (publish v md) = md_next_id md.
Proof. unfold publish, unpin. cbn. by destruct (<[_ := _]> _ !! _) as [[? [|[|]]]|]. Qed.

Lemma open_spec size align bits source file hw root m :
  0 <= bits < 12 → 0 <= hw < 2 ^ 32 →
  (reserve_restored acquire hw (new_store size align bits source)).2 = Ok tt →
  recoverable file hw root → version file root m → stamped file m →
  ∃ md states, open acquire t size align bits source file hw root = Ok (md, states) ∧
    model_inv md ∅ ({[+ md_current md +]} ⊎ ∅) ∧ slots_of md (md_current md) m ∧
    resumed file m md states ∧ h_fenced (md_heap md) = [] ∧
    ∀ i c, h_cells (md_heap md) !! i = Some c ↔
      file !! i = Some c ∧ reach file (opt_one root) (cell_view c, i).
Proof.
  intros Hbits Hhw Hr Hrec Hv Hst.
  destruct (restore_stores_spec size align bits hw source file Hbits (proj1 Hhw) Hr)
    as (h & E & R & H0 & Hfenced & Hhead & Hlinks).
  destruct (rebuild_counts_spec file bits hw root (h_slots h) Hrec R H0) as (slots & out & Eb & B).
  destruct (noted_resumed _ _ _ _ _ _ _ Hrec B Hv Hst) as ((Hid & Hrv) & Hle & Hstates).
  pose proof (rebuilt_heap_inv _ _ _ _ _ _ B h Hbits Hhw Hfenced Hhead Hlinks) as Ih.
  unfold open. rewrite E, Eb. cbn [mbind expected_bind].
  set (h1 := set_cells _ _) in *.
  assert (∀ i c, h_cells h1 !! i = Some c ↔ file !! i = Some c ∧ reach file (opt_one root) (cell_view c, i)) as Hcells.
  { intros i c. etrans; [apply (rebuilt_lookup _ _ _ _ _ _ B)|]. by rewrite (rebuilt_reach _ _ _ _ _ _ B). }
  rewrite synthetic_range by (unfold in_u64; lia). rewrite (proj2 (Z.leb_gt _ _)) by apply Hid.
  set (md0 := mkModel h1 (u64 (rv_max_id out + 1)) _ _ _ _ _ _ _ _).
  assert (model_inv md0 (opt_one root) ({[+ md_current md0 +]} ⊎ ∅)) as I0.
  { by apply (model_inv_same (new_model h1)), new_model_ext. }
  assert (u64 (rv_max_id out + 1) = rv_max_id out + 1) as Eid by (apply u64_small; unfold in_u64; lia).
  assert (u64 (rv_max_revision out + 1) = rv_max_revision out + 1) as Erev
    by (apply u64_small; unfold in_u64; lia).
  eexists _, (rv_content_state out). split; [done|].
  destruct root as [root|].
  - assert (version (h_cells h1) (Some root) m) as Hv1.
    { apply (tree_graph file _ (opt_one (Some root))); [by eapply adopted_graph|done|]. by apply reach_held, gmultiset_elem_of_singleton. }
    destruct (publish_spec (mkVersion (Some root) (u64 (rv_max_revision out + 1))) md0 ∅ ∅ m)
      as (I1 & S1 & V1 & C1 & _); [by rewrite (right_id_L ∅ (⊎))|done|].
    split; [exact I1|]. split; [exact S1|]. split; [split; [|done]|].
    + intros k i o Hk Ho. destruct (Hle k i o Hk Ho) as [Hlid Hlrv]. split.
      * eapply Z.lt_le_trans; [|apply Z.eq_le_incl; symmetry; exact (eq_trans (publish_next_id _ md0) Eid)]. lia.
      * apply (f_equal vn_revision) in V1. eapply Z.lt_le_trans; [|apply Z.eq_le_incl; symmetry; exact (eq_trans V1 Erev)]. lia.
    + split; [done|]. intros i c.
      exact (eq_ind_r (fun cs : file_cells => cs !! i = Some c ↔ _) (Hcells i c) C1).
  - cbn in Hv. split; [done|]. split; [by exists (mkVersion None 0), 1%nat|]. split; [|by split].
    split; [|done]. intros k i o Hk. by rewrite Hv, lookup_empty in Hk.
Qed.

(** *** Reopening a checkpoint *)

(** The root [Model::checkpoint] commits. *)
Definition checkpoint_root (md : Model H) : option SlotIndex := vn_root (version_of (md_current md) md).

Lemma graph_version (cells : file_cells) file root m :
  holds_graph cells file (opt_one root) → version cells root m →
  version file root m ∧ ∀ k i, m !! k = Some i → record_at file i = record_at cells i.
Proof.
  intros Hg Hv. destruct root as [i|]; cbn in Hv.
  - assert (reach cells (opt_one (Some i)) (nodes, i)) as Hi by (by apply reach_held, gmultiset_elem_of_singleton).
    split; [by eapply tree_graph|]. intros k j Hk. unfold record_at.
    pose proof (Hg _ (tree_bound_reach _ _ _ _ _ _ _ _ _ Hv Hi Hk)) as Ej. cbn [snd] in Ej. by rewrite Ej.
  - split; [done|]. intros k i Hk. by rewrite Hv, lookup_empty in Hk.
Qed.

(** C9: reopening a checkpointed document gives it back.  Take any model whose counts are
    in order, and a file whose slots hold, under the current version's root, what the heap
    held there -- whatever the other slots hold.  If the chunks can be bound again, [open]
    returns a model whose counts are exact again, with one owner of the root and nothing
    else counted; its current version binds the same ids to the same slots and records;
    the objects constructed are those reachable from the root, so every other slot is
    reusable; ids and stamps resume above every one the document carries; and the
    content states to replay are exactly those of its records. *)
Theorem reopen_restores_document (size align bits : Z) (source : Src) (md0 : Model H) (ext0 : gmultiset ref)
    (holders : gmultiset nat) (m : gmap Z SlotIndex) file
  (I : model_inv md0 ext0 ({[+ md_current md0 +]} ⊎ holders))
  (S : slots_of md0 (md_current md0) m)
  (Hst : stamped (h_cells (md_heap md0)) m)
  (Hfile : holds_graph (h_cells (md_heap md0)) file (opt_one (checkpoint_root md0)))
  (Hbits : 0 <= bits < 12)
  (Hr : (reserve_restored acquire (s_high_water (h_slots (md_heap md0)))
           (new_store size align bits source)).2 = Ok tt) :
  ∃ md states,
    open acquire t size align bits source file (s_high_water (h_slots (md_heap md0))) (checkpoint_root md0) =
      Ok (md, states) ∧
    model_inv md ∅ ({[+ md_current md +]} ⊎ ∅) ∧ slots_of md (md_current md) m ∧
    bound_records (h_cells (md_heap md)) m = bound_records (h_cells (md_heap md0)) m ∧
    resumed (h_cells (md_heap md0)) m md states ∧
    ∀ i c, h_cells (md_heap md) !! i = Some c ↔
      h_cells (md_heap md0) !! i = Some c ∧
      reach (h_cells (md_heap md0)) (opt_one (checkpoint_root md0)) (cell_view c, i).
Proof.
  destruct S as (v & u & Ha & Hv). assert (checkpoint_root md0 = vn_root v) as Eroot.
  { unfold checkpoint_root, version_of. by rewrite Ha. }
  rewrite Eroot in *. cbn [rh_cells recovered_heap_instance heap_ref_heap] in Hv.
  destruct (graph_version _ _ _ _ Hfile Hv) as [Hvf Hrec].
  pose proof (mi_heap _ _ _ I) as Ih. cbn [rh_inv recovered_heap_instance heap_ref_heap] in Ih.
  rewrite (version_refs_delete _ _ _ _ Ha), <- (assoc_L (⊎)) in Ih.
  assert (recoverable file (s_high_water (h_slots (md_heap md0))) (vn_root v)) as Hrecov.
  { eapply durable_recoverable; [exact Ih| |exact Hfile]. apply gmultiset_disj_union_subseteq_l. }
  assert (stamped file m) as Hstf.
  { intros k i o Hk Ho. rewrite (Hrec k i Hk) in Ho. by apply (Hst k i o). }
  destruct (open_spec size align bits source file _ (vn_root v) m Hbits (si_hw _ _ _ (hi_slots _ _ _ Ih)) Hr Hrecov Hvf Hstf)
    as (md & states & E & I1 & S1 & [Hres Hstates] & _ & Hcells).
  exists md, states. split; [done|]. split; [done|]. split; [done|].
  assert (∀ i c, h_cells (md_heap md) !! i = Some c ↔ h_cells (md_heap md0) !! i = Some c ∧
    reach (h_cells (md_heap md0)) (opt_one (vn_root v)) (cell_view c, i)) as Hcells0.
  { intros i c. rewrite Hcells, (graph_reach _ _ _ _ Hfile). split; intros [Hi Hreach];
      pose proof (Hfile _ Hreach) as Ei; cbn [snd] in Ei; (split; [|done]); congruence. }
  split; [|split; [|exact Hcells0]].
  - apply map_eq. intros k. unfold bound_records. rewrite !lookup_omap.
    destruct (m !! k) as [i|] eqn:Hk; [|done]. cbn. rewrite <- (Hrec k i Hk).
    assert (reach file (opt_one (vn_root v)) (records, i)) as Hi.
    { apply (version_reach _ _ _ _ _ Hrecov Hvf). by exists k. }
    destruct (proj1 Hrecov _ Hi) as [([n|o] & Hc & Hvw) _]; [done|]. cbn in Hc.
    unfold record_at. rewrite Hc, (proj2 (Hcells i (RecordCell o))); done.
  - split.
    + intros k i o Hk Ho. rewrite <- (Hrec k i Hk) in Ho. by apply (Hres k i o).
    + intros x. rewrite Hstates. split; intros (k & i & o & Hk & Ho & Hx); exists k, i, o;
        [rewrite <- (Hrec k i Hk)|rewrite (Hrec k i Hk)]; done.
Qed.
End reopened.
End recovered_heap.

(** ** A document reopened *)

#[local] Instance demo_recovery_heap : RefHeap (Heap Z (cell ObjectRecord)) (cell ObjectRecord) :=
  heap_ref_heap demo_acquire 0%nat [nodes; records].

(** A second commit leaves the first one's branch behind. *)
Definition demo_ran_again := run_transaction "again" [CAddContent 8] demo_ran.1.1.
Definition demo_saved : Model (Heap Z (cell ObjectRecord)) := demo_ran_again.1.1.
(** A slot that was free at the checkpoint may hold anything. *)
Definition demo_file : file_cells := <[40 := NodeCell empty_node]> (h_cells (md_heap demo_saved)).
Definition demo_high_water : Z := s_high_water (h_slots (md_heap demo_saved)).
Definition demo_reopened :=
  open demo_acquire 0%nat 16 16 2 4096 demo_file demo_high_water (checkpoint_root demo_saved).

(** The branch the current version no longer reaches is a free slot again. *)
Lemma demo_reopened_runs :
  match demo_reopened with
  | Ok (md, states) => (size (h_cells (md_heap md)), md_next_id md, states,
      vn_revision (version_of (md_current md) md), reusable_slots (h_slots (md_heap md)))
      = (7%nat, 4, [], 3, [4])
  | Err _ => False
  end.
Proof. vm_compute. reflexivity. Qed.

Lemma demo_saved_inv : ∃ (m : gmap Z SlotIndex) (ext0 : gmultiset ref),
  model_inv demo_saved ext0 ({[+ md_current demo_saved +]} ⊎ ∅) ∧
  slots_of demo_saved (md_current demo_saved) m.
Proof.
  destruct demo_document_inv as [I S]. unfold demo_saved, demo_ran_again.
  assert (demo_ran.1.2 = Ok tt ∧ demo_ran_again.1.2 = Ok tt) as [Hs1 Hs2] by (split; vm_compute; reflexivity).
  unfold demo_ran_again in Hs2. destruct demo_ran as [[md1 st1] en1] eqn:E1. cbn [fst snd] in *. subst st1.
  destruct (run_transaction_spec "add" _ demo_document _ _ _ _ _ _ I S E1) as [_ (m1 & S1 & _ & _ & _ & I1)].
  destruct (run_transaction "again" [CAddContent 8] md1) as [[md2 st2] en2] eqn:E2. cbn [fst snd] in *. subst st2.
  destruct (run_transaction_spec "again" _ md1 _ _ _ _ _ _ I1 S1 E2) as [_ (m2 & S2 & _ & _ & _ & I2)].
  exists m2. eexists. split; [exact I2|exact S2].
Qed.

Definition stamped_cell (_ : SlotIndex) (c : cell ObjectRecord) : Prop :=
  match c with
  | RecordCell o => 0 <= rc_id o < 2 ^ 63 ∧ 0 <= rc_revision o < 2 ^ 64 - 1
  | NodeCell _ => True
  end.
#[local] Instance stamped_cell_dec i c : Decision (stamped_cell i c).
Proof. destruct c; apply _. Defined.

Lemma demo_saved_stamped m : stamped (h_cells (md_heap demo_saved)) m.
Proof.
  assert (map_Forall stamped_cell (h_cells (md_heap demo_saved))) as Hall
    by (apply (bool_decide_unpack _); vm_compute; exact Logic.I).
  intros k i o _ Ho. unfold record_at in Ho.
  destruct (h_cells (md_heap demo_saved) !! i) as [[n|o']|] eqn:E; [congruence| |congruence].
  injection Ho as <-. exact (Hall i _ E).
Qed.

(** Only a slot the heap holds nothing in was overwritten. *)
Lemma demo_file_graph (ext0 : gmultiset ref) : rh_inv (md_heap demo_saved) ext0 →
  opt_one (checkpoint_root demo_saved) ⊆ ext0 →
  holds_graph (h_cells (md_heap demo_saved)) demo_file (opt_one (checkpoint_root demo_saved)).
Proof.
  intros I Hs r Hr. destruct (rh_names _ _ r I) as (c & Hc & _).
  { eapply (reach_counted (md_heap demo_saved)); [exact I|]. by eapply reach_ext_mono. }
  assert (h_cells (md_heap demo_saved) !! 40 = None) as Hno by (vm_compute; reflexivity).
  unfold demo_file. apply lookup_insert_ne. intros E. cbn [rh_cells demo_recovery_heap heap_ref_heap] in Hc.
  rewrite <- E, Hno in Hc. discriminate Hc.
Qed.

Lemma reopen_restores_document_witness :
  match demo_reopened with
  | Ok (md, _) => model_inv md ∅ ({[+ md_current md +]} ⊎ ∅)
  | Err _ => False
  end.
Proof.
  destruct demo_saved_inv as (m & ext0 & I & S).
  assert (holds_graph (h_cells (md_heap demo_saved)) demo_file (opt_one (checkpoint_root demo_saved))) as Hg.
  { eapply demo_file_graph; [exact (mi_heap _ _ _ I)|]. destruct S as (v & u & Ha & _).
    unfold checkpoint_root, version_of. rewrite Ha, (version_refs_delete _ _ _ _ Ha), <- (assoc_L (⊎)).
    apply gmultiset_disj_union_subseteq_l. }
  destruct (reopen_restores_document demo_acquire 0%nat 16 16 2 4096 demo_saved ext0 ∅ m demo_file
    I S (demo_saved_stamped m) Hg) as (md & states & E & I' & _).
  - split; vm_compute; congruence.
  - vm_compute. reflexivity.
  - unfold demo_reopened, demo_high_water. rewrite E. exact I'.
Defined.
