(* ===== verification/Journal.v ===== *)
(** The journal: the document's history ([src/src/model/journal.cpp],
    [src/src/model/arbc/model/journal.hpp]) and the merging of entries
    ([coalesce_entries], [src/src/model/model.cpp]).

    Every operation is whole: the fold of a commit into the tip, the dropped redo tail,
    the trim to the byte budget, undo and redo with their restores, and the published
    word and rows.  A copy of a [Ref] whose count is saturated is the failure
    [OutOfBounds], as its assertion has it.  What the journal promises is a timeline: a
    line of versions with a present, of which a trim forgets the oldest. *)

From S2P Require Import Prelude RationalTime Identity Geometry SlotStore RefStore Hamt.
From S2P Require Import Records Transaction Document.
From stdpp Require Import gmultiset.

Local Open Scope Z_scope.

#[local] Arguments disj_union : simpl never.
#[local] Arguments singletonMS : simpl never.
#[local] Arguments empty : simpl never.

(** ** The published word *)

Definition k_published_max : Z := 2 ^ 32 - 1.

Definition clamp (v : Z) : Z := if k_published_max <? v then k_published_max else v.
Definition pack (cursor depth : Z) : Z := Z.lor (u64 (Z.shiftl (clamp depth) 32)) (clamp cursor).
Definition published_cursor (w : Z) : Z := Z.land w k_published_max.
Definition published_depth (w : Z) : Z := Z.shiftr w 32.

(** ** The state *)

Record HistoryRow := mkRow { hr_name : string; hr_byte_cost : Z }.
Record Stored := mkStored { sd_entry : JournalEntry; sd_cost : Z }.

(** A history view lists rows with their addresses, which successive views share; the
    next new row is at [jn_fresh].  Restores are recorded in order, latest first. *)
Record Journal (W : Type) := mkJournal {
  jn_model : Model W;
  jn_budget : Z;
  jn_cost_fn : option (ObjectId → SlotIndex → Z);
  jn_restore_sink : bool;
  jn_entries : list Stored;
  jn_cursor : nat;
  jn_published : Z;
  jn_history : list (nat * HistoryRow);
  jn_fresh : nat;
  jn_total_cost : Z;
  jn_restored : list (ObjectId * SlotIndex) }.
Arguments mkJournal {W}.
Arguments jn_model {W} j.
Arguments jn_budget {W} j.
Arguments jn_cost_fn {W} j.
Arguments jn_restore_sink {W} j.
Arguments jn_entries {W} j.
Arguments jn_cursor {W} j.
Arguments jn_published {W} j.
Arguments jn_history {W} j.
Arguments jn_fresh {W} j.
Arguments jn_total_cost {W} j.
Arguments jn_restored {W} j.

Definition k_no_budget : Z := 2 ^ 64 - 1.

Section journal.
Context {W : Type} `{!RefHeap W (cell ObjectRecord)}.
(** [sizeof(ObjectRecord)]. *)
Context (record_size : Z).
Notation Jrn := (Journal W).
Implicit Types (j : Jrn) (w : W) (e : JournalEntry) (o : option SlotIndex).

(** [Journal(model, byte_budget)]. *)
Definition new_journal (md : Model W) (byte_budget : Z) : Jrn :=
  mkJournal md byte_budget None false [] 0 0 [] 0 0 [].

Definition set_model (md : Model W) j : Jrn :=
  mkJournal md (jn_budget j) (jn_cost_fn j) (jn_restore_sink j) (jn_entries j) (jn_cursor j)
    (jn_published j) (jn_history j) (jn_fresh j) (jn_total_cost j) (jn_restored j).
Definition set_entries (entries : list Stored) (cursor : nat) (total : Z) j : Jrn :=
  mkJournal (jn_model j) (jn_budget j) (jn_cost_fn j) (jn_restore_sink j) entries cursor
    (jn_published j) (jn_history j) (jn_fresh j) total (jn_restored j).
Definition set_state_cost_fn (fn : option (ObjectId → SlotIndex → Z)) j : Jrn :=
  mkJournal (jn_model j) (jn_budget j) fn (jn_restore_sink j) (jn_entries j) (jn_cursor j)
    (jn_published j) (jn_history j) (jn_fresh j) (jn_total_cost j) (jn_restored j).
Definition set_restore_sink (on : bool) j : Jrn :=
  mkJournal (jn_model j) (jn_budget j) (jn_cost_fn j) on (jn_entries j) (jn_cursor j)
    (jn_published j) (jn_history j) (jn_fresh j) (jn_total_cost j) (jn_restored j).

(** *** The readers of any thread *)

Definition can_undo j : bool := 0 <? published_cursor (jn_published j).
Definition can_redo j : bool := published_cursor (jn_published j) <? published_depth (jn_published j).
Definition depth j : Z := published_depth (jn_published j).
Definition cursor j : Z := published_cursor (jn_published j).
Definition history j : list HistoryRow := map snd (jn_history j).
Definition byte_cost j : Z := jn_total_cost j.
Definition entry_at (i : nat) j : option JournalEntry := sd_entry <$> jn_entries j !! i.

(** *** Costs and publication *)

(** [entry_cost]: a record per edge held, and what the coster says of the states. *)
Definition edge_cost o (cost : Z) : Z := match o with Some _ => u64 (cost + record_size) | None => cost end.
Definition entry_cost (fn : option (ObjectId → SlotIndex → Z)) e : Z :=
  let cost := foldl (fun cost oe => edge_cost (ed_after oe) (edge_cost (ed_before oe) cost)) 0
                (en_objects e) in
  match fn with
  | None => cost
  | Some f =>
      foldl (fun cost ce => u64 (u64 (cost + f (se_object ce) (se_before ce)) + f (se_object ce) (se_after ce)))
        cost (en_contents e)
  end.

Definition row_of (s : Stored) : HistoryRow := mkRow (en_name (sd_entry s)) (sd_cost s).

(** [publish_history]: an unchanged row is reused, by its address. *)
Fixpoint publish_rows (prev : list (nat * HistoryRow)) (entries : list Stored) (fresh : nat) :
    list (nat * HistoryRow) * nat :=
  match entries with
  | [] => ([], fresh)
  | s :: entries =>
      let new := (fresh, row_of s) in
      let '(row, prev, fresh) :=
        match prev with
        | (a, old) :: prev =>
            if String.eqb (hr_name old) (en_name (sd_entry s)) && (hr_byte_cost old =? sd_cost s)
            then ((a, old), prev, fresh) else (new, prev, S fresh)
        | [] => (new, [], S fresh)
        end in
      let '(rows, fresh) := publish_rows prev entries fresh in
      (row :: rows, fresh)
  end.

Definition publish_history j : Jrn :=
  let '(rows, fresh) := publish_rows (jn_history j) (jn_entries j) (jn_fresh j) in
  mkJournal (jn_model j) (jn_budget j) (jn_cost_fn j) (jn_restore_sink j) (jn_entries j)
    (jn_cursor j) (jn_published j) rows fresh (jn_total_cost j) (jn_restored j).

(** [publish]. *)
Definition publish_view j : Jrn :=
  let j := publish_history j in
  mkJournal (jn_model j) (jn_budget j) (jn_cost_fn j) (jn_restore_sink j) (jn_entries j)
    (jn_cursor j) (pack (Z.of_nat (jn_cursor j)) (Z.of_nat (length (jn_entries j))))
    (jn_history j) (jn_fresh j) (jn_total_cost j) (jn_restored j).

(** *** Trimming *)

(** [~JournalEntry] of a stored entry. *)
Definition drop_stored (s : Stored) w : W := drop_edits (en_objects (sd_entry s)) w.

Fixpoint trim_front (budget : Z) (entries : list Stored) (cursor : nat) (total : Z) w :
    list Stored * nat * Z * W :=
  match entries with
  | s :: rest =>
      if (1 <? Z.of_nat (length entries)) && (budget <? total)
      then trim_front budget rest (Nat.pred cursor) (u64 (total - sd_cost s)) (drop_stored s w)
      else (entries, cursor, total, w)
  | [] => (entries, cursor, total, w)
  end.

Definition trim j : Jrn :=
  let '(entries, cursor, total, w) :=
    trim_front (jn_budget j) (jn_entries j) (jn_cursor j) (jn_total_cost j) (md_heap (jn_model j)) in
  publish_view (set_model (set_heap w (jn_model j)) (set_entries entries cursor total j)).

(** [set_byte_budget]. *)
Definition set_byte_budget (bytes : Z) j : Jrn :=
  let j := mkJournal (jn_model j) bytes (jn_cost_fn j) (jn_restore_sink j) (jn_entries j)
             (jn_cursor j) (jn_published j) (jn_history j) (jn_fresh j) (jn_total_cost j)
             (jn_restored j) in
  publish_view (trim j).

(** *** Merging entries *)

(** A copy of a record [Ref]. *)
Definition copy_record o : ST W failure (option SlotIndex) := fun w =>
  match o with
  | None => (w, Ok None)
  | Some i =>
      match rh_retain (records, i) w with
      | (w, Ok _) => (w, Ok (Some i))
      | (w, Err _) => (w, Err OutOfBounds)
      end
  end.

(** The first edit of the object keeps its before and takes this after; or the edit is
    appended. *)
Fixpoint merge_edit (fe : ObjectEdit) (base : list ObjectEdit) : ST W failure (list ObjectEdit) :=
  match base with
  | [] =>
      before ← copy_record (ed_before fe);
      after ← copy_record (ed_after fe);
      mret [mkEdit (ed_object fe) before after]
  | be :: base =>
      if ed_object be =? ed_object fe then
        after ← copy_record (ed_after fe);
        _ ← st_modify (drop_record (ed_after be));
        mret (mkEdit (ed_object be) (ed_before be) after :: base)
      else
        base ← merge_edit fe base;
        mret (be :: base)
  end.

Fixpoint merge_edits (base follow : list ObjectEdit) : ST W failure (list ObjectEdit) :=
  match follow with
  | [] => mret base
  | fe :: follow => base ← merge_edit fe base; merge_edits base follow
  end.

Definition merge_contents (base follow : list ContentStateEdit) : list ContentStateEdit :=
  foldl (fun acc fc => note_state (se_object fc) (se_before fc) (se_after fc) acc) base follow.

Definition coalesce_entries (base follow : JournalEntry) : ST W failure JournalEntry :=
  objects ← merge_edits (en_objects base) (en_objects follow);
  mret (mkEntry (en_name base) (en_coalesce_key base) objects
          (merge_contents (en_contents base) (en_contents follow))
          (foldl damage_add (en_damage base) (en_damage follow))).

(** *** A commit *)

(** Work of the heap, within the model of the journal. *)
Definition on_heap {A} (c : ST W failure A) : ST Jrn failure A := fun j =>
  let '(w, x) := c (md_heap (jn_model j)) in (set_model (set_heap w (jn_model j)) j, x).

(** Whether the tip takes the entry in. *)
Definition folds e j : option Stored :=
  match list.last (jn_entries j) with
  | Some tip =>
      if negb (en_coalesce_key e =? k_no_coalesce)
         && bool_decide (jn_cursor j = length (jn_entries j))
         && (en_coalesce_key (sd_entry tip) =? en_coalesce_key e)
      then Some tip else None
  | None => None
  end.

Definition fold_tip (tip : Stored) e : ST Jrn failure unit :=
  merged ← on_heap (coalesce_entries (sd_entry tip) e);
  _ ← st_modify (fun j =>
    let total := u64 (jn_total_cost j - sd_cost tip) in
    let cost := entry_cost (jn_cost_fn j) merged in
    trim (set_entries (removelast (jn_entries j) ++ [mkStored merged cost]) (jn_cursor j)
            (u64 (total + cost)) j));
  on_heap (st_modify (drop_edits (en_objects e))).

(** The redo tail's costs, then its entries, go. *)
Definition drop_tail j : Jrn :=
  let tail := drop (jn_cursor j) (jn_entries j) in
  let total := foldl (fun total s => u64 (total - sd_cost s)) (jn_total_cost j) tail in
  let w := foldl (fun w s => drop_stored s w) (md_heap (jn_model j)) tail in
  set_model (set_heap w (jn_model j)) (set_entries (take (jn_cursor j) (jn_entries j)) (jn_cursor j) total j).

Definition append e j : Jrn :=
  let cost := entry_cost (jn_cost_fn j) e in
  let entries := jn_entries j ++ [mkStored e cost] in
  set_entries entries (length entries) (u64 (jn_total_cost j + cost)) j.

Definition on_commit e : ST Jrn failure unit := fun j =>
  match folds e j with
  | Some tip => fold_tip tip e j
  | None => (trim (append e (drop_tail j)), Ok tt)
  end.

(** *** Navigation *)

Definition restore_all (states : list (ObjectId * SlotIndex)) j : Jrn :=
  mkJournal (jn_model j) (jn_budget j) (jn_cost_fn j) (jn_restore_sink j) (jn_entries j)
    (jn_cursor j) (jn_published j) (jn_history j) (jn_fresh j) (jn_total_cost j)
    (if jn_restore_sink j then rev states ++ jn_restored j else jn_restored j).
Definition move_cursor (c : nat) j : Jrn := set_entries (jn_entries j) c (jn_total_cost j) j.

(** [undo] and [redo] from the stored entry on: a refused publish leaves the cursor. *)
Definition step_to (s : Stored) (dir : NavDirection) (c : nat) : ST Jrn failure bool := fun j =>
  match navigate (sd_entry s) dir (jn_model j) with
  | (md, Err (Refused _)) => (set_model md j, Ok false)
  | (md, Err OutOfBounds) => (set_model md j, Err OutOfBounds)
  | (md, Ok _) =>
      let states := map (fun ce => (se_object ce, match dir with Undo => se_before ce | Redo => se_after ce end))
                      (en_contents (sd_entry s)) in
      (publish_view (move_cursor c (restore_all states (set_model md j))), Ok true)
  end.

Definition undo : ST Jrn failure bool := fun j =>
  match jn_cursor j with
  | O => (j, Ok false)
  | S c => match jn_entries j !! c with Some s => step_to s Undo c j | None => (j, Err OutOfBounds) end
  end.

Definition redo : ST Jrn failure bool := fun j =>
  match jn_entries j !! jn_cursor j with
  | None => (j, Ok false)
  | Some s => step_to s Redo (S (jn_cursor j)) j
  end.

(** A client's scope on a journaled document: [commit] hands the entry to the journal
    before the transaction is destroyed. *)
Definition commit_to_journal (tn : Document.Transaction) : ST Jrn failure unit := fun j =>
  let '(md, tn, st, entry) := commit (jn_model j) tn in
  let j := set_model md j in
  let '(j, x) := match entry with Some e => on_commit e j | None => (j, Ok tt) end in
  (set_model (destroy (jn_model j) tn) j, match x with Ok _ => st | Err e => Err e end).

Definition run_journaled (name : string) (key : CoalesceKey) (cs : list command) : ST Jrn failure unit := fun j =>
  match transact name (jn_model j) with
  | (md, Err e) => (set_model md j, Err e)
  | (md, Ok tn) =>
      let '(md, tn) := mutate_all cs md tn in
      commit_to_journal (coalesce key tn) (set_model md j)
  end.
End journal.

(** ** The views *)

Section views.
Context {W : Type} `{!RefHeap W (cell ObjectRecord)}.
Implicit Types (j : Journal W).

Lemma clamp_range v : 0 ≤ v → 0 ≤ clamp v ≤ k_published_max ∧ (v ≤ k_published_max → clamp v = v).
Proof. unfold clamp, k_published_max. intros Hv. destruct (Z.ltb_spec (2 ^ 32 - 1) v); lia. Qed.

(** The two halves of the word do not meet. *)
Lemma pack_halves c d :
  0 ≤ c → 0 ≤ d → published_cursor (pack c d) = clamp c ∧ published_depth (pack c d) = clamp d.
Proof.
  intros Hc Hd. destruct (clamp_range c Hc) as [Rc _]. destruct (clamp_range d Hd) as [Rd _].
  unfold pack, published_cursor, published_depth, k_published_max in *.
  assert (u64 (Z.shiftl (clamp d) 32) = Z.shiftl (clamp d) 32) as ->.
  { apply u64_small. rewrite Z.shiftl_mul_pow2 by lia. unfold in_u64. lia. }
  change (2 ^ 32 - 1) with (Z.ones 32). rewrite Z.land_ones by lia.
  assert (Z.lor (Z.shiftl (clamp d) 32) (clamp c) = clamp d * 2 ^ 32 + clamp c) as ->.
  { rewrite <- Z.shiftl_mul_pow2 by lia. assert (Z.land (Z.shiftl (clamp d) 32) (clamp c) = 0) as H0.
    { apply Z.bits_inj'. intros n Hn. rewrite Z.land_spec, Z.bits_0, Z.shiftl_spec by done.
      destruct (Z.ltb_spec n 32) as [Hlt|Hge]; [by rewrite (Z.testbit_neg_r (clamp d)) by lia|].
      rewrite (testbit_above (clamp c) 32 n) by lia. apply andb_false_r. }
    symmetry. by apply Z.add_nocarry_lor. }
  split.
  - rewrite Z.add_comm, Z.mod_add, Z.mod_small; lia.
  - rewrite Z.shiftr_div_pow2, Z.div_add_l, Z.div_small; lia.
Qed.

Lemma publish_rows_spec prev entries fresh :
  map snd (publish_rows prev entries fresh).1 = map row_of entries.
Proof.
  revert prev fresh. induction entries as [|s entries IH]; intros prev fresh; [done|]. cbn.
  destruct prev as [|[a old] prev].
  - specialize (IH [] (S fresh)). destruct (publish_rows [] entries (S fresh)). cbn in *. by rewrite IH.
  - destruct (String.eqb_spec (hr_name old) (en_name (sd_entry s))) as [En|_]; cbn [andb].
    + destruct (Z.eqb_spec (hr_byte_cost old) (sd_cost s)) as [Ec|_].
      * specialize (IH prev fresh). destruct (publish_rows prev entries fresh). cbn in *.
        rewrite IH. f_equal. unfold row_of. rewrite <- En, <- Ec. by destruct old.
      * specialize (IH prev (S fresh)). destruct (publish_rows prev entries (S fresh)). cbn in *.
        by rewrite IH.
    + specialize (IH prev (S fresh)). destruct (publish_rows prev entries (S fresh)). cbn in *.
      by rewrite IH.
Qed.

(** What any thread may read. *)
Record viewed j : Prop := {
  vw_published : jn_published j = pack (Z.of_nat (jn_cursor j)) (Z.of_nat (length (jn_entries j)));
  vw_history : history j = map row_of (jn_entries j) }.

(** [publish_view] changes the views alone. *)
Lemma publish_view_spec j :
  viewed (publish_view j) ∧ jn_model (publish_view j) = jn_model j ∧
  jn_entries (publish_view j) = jn_entries j ∧ jn_cursor (publish_view j) = jn_cursor j ∧
  jn_total_cost (publish_view j) = jn_total_cost j ∧ jn_budget (publish_view j) = jn_budget j.
Proof.
  unfold publish_view, publish_history.
  pose proof (publish_rows_spec (jn_history j) (jn_entries j) (jn_fresh j)) as Hr.
  destruct (publish_rows (jn_history j) (jn_entries j) (jn_fresh j)) as [rows fresh]. cbn in *.
  split; [by split|done].
Qed.
End views.

(** ** Trimming *)

Definition costs (entries : list Stored) : Z := foldr (fun s (acc : Z) => sd_cost s + acc) 0 entries.
Definition stored_refs (entries : list Stored) : gmultiset ref :=
  foldr (fun s (acc : gmultiset ref) => edit_refs (en_objects (sd_entry s)) ⊎ acc) ∅ entries.

Lemma costs_app l1 l2 : costs (l1 ++ l2) = costs l1 + costs l2.
Proof. unfold costs. induction l1 as [|s l1 IH]; [done|]. cbn. rewrite IH. lia. Qed.

Lemma stored_refs_app l1 l2 : stored_refs (l1 ++ l2) = stored_refs l1 ⊎ stored_refs l2.
Proof.
  unfold stored_refs. induction l1 as [|s l1 IH]; cbn; [by rewrite (left_id_L ∅ (⊎))|].
  by rewrite IH, (assoc_L (⊎)).
Qed.

Section trim.
Context {W : Type} `{!RefHeap W (cell ObjectRecord)}.
Implicit Types (j : Journal W) (w : W) (X : gmultiset ref).

(** The front entries go while more than one is left and the cost is over budget. *)
Lemma trim_front_spec budget entries : ∀ cursor total w entries' cursor' total' w' X,
  trim_front budget entries cursor total w = (entries', cursor', total', w') →
  rh_inv w (stored_refs entries ⊎ X) →
  ∃ dropped, entries = dropped ++ entries' ∧ cursor' = (cursor - length dropped)%nat ∧
    u64 total' = u64 (total - costs dropped) ∧ (in_u64 total → in_u64 total') ∧
    rh_cells w' = rh_cells w ∧ rh_inv w' (stored_refs entries' ⊎ X) ∧
    (entries ≠ [] → entries' ≠ []) ∧ (total' ≤ budget ∨ (length entries' ≤ 1)%nat).
Proof.
  induction entries as [|s rest IH]; intros cursor total w entries' cursor' total' w' X E I.
  { injection E as <- <- <- <-. exists []. cbn. rewrite Z.sub_0_r, Nat.sub_0_r.
    split_and!; try done. right. lia. }
  cbn [trim_front] in E.
  destruct (Z.ltb_spec 1 (Z.of_nat (length (s :: rest)))) as [Hlen|Hlen]; cbn [andb] in E.
  2:{ injection E as <- <- <- <-. exists []. cbn [app costs foldr length]. rewrite Z.sub_0_r, Nat.sub_0_r.
      cbn [length] in Hlen. split_and!; try done. right. lia. }
  destruct (Z.ltb_spec budget total) as [Hb|Hb].
  2:{ injection E as <- <- <- <-. exists []. cbn [app costs foldr length]. rewrite Z.sub_0_r, Nat.sub_0_r.
      split_and!; try done. by left. }
  cbn [stored_refs foldr] in I. rewrite <- (assoc_L (⊎)) in I.
  destruct (drop_edits_spec _ _ _ I) as [Ec I1].
  destruct (IH _ _ _ _ _ _ _ X E I1) as (dropped & -> & -> & Ht & Hr & Ec2 & I2 & Hn & Hb2).
  exists (s :: dropped). split; [done|]. split; [cbn [length]; lia|]. split.
  { rewrite Ht. cbn. fold (costs dropped). word_lia. }
  split; [intros _; apply Hr, u64_range|]. split; [unfold drop_stored in Ec2; by rewrite Ec2|].
  split; [done|]. split; [|done]. intros _. apply Hn. cbn in Hlen. by destruct (dropped ++ entries').
Qed.
End trim.

(** ** The timeline

    What a journal stands for: the present version, the versions an undo leads back to,
    the nearest first, and those a redo leads forth to. *)

Notation vmap := (gmap Z SlotIndex).

Record Timeline := mkTimeline { tl_past : list vmap; tl_now : vmap; tl_future : list vmap }.

Fixpoint leads_back (applied : list Stored) (now : vmap) (past : list vmap) : Prop :=
  match applied, past with
  | [], [] => True
  | s :: applied, m :: past =>
      records_step (en_objects (sd_entry s)) m now ∧ leads_back applied m past
  | _, _ => False
  end.
Fixpoint leads_forth (redoable : list Stored) (now : vmap) (future : list vmap) : Prop :=
  match redoable, future with
  | [], [] => True
  | s :: redoable, m :: future =>
      records_step (en_objects (sd_entry s)) now m ∧ leads_forth redoable m future
  | _, _ => False
  end.

(** Entries lie between the timeline's versions, the cursor at the present. *)
Definition on_line (entries : list Stored) (cursor : nat) (tl : Timeline) : Prop :=
  ∃ applied redoable, entries = rev applied ++ redoable ∧ cursor = length applied ∧
    leads_back applied (tl_now tl) (tl_past tl) ∧ leads_forth redoable (tl_now tl) (tl_future tl).

Definition keeps_past (n : nat) (tl : Timeline) : Timeline :=
  mkTimeline (take n (tl_past tl)) (tl_now tl) (tl_future tl).

Lemma leads_back_length applied : ∀ now past, leads_back applied now past → length past = length applied.
Proof.
  induction applied as [|s applied IH]; intros now [|m past]; cbn; try done.
  intros [_ Hb]. by rewrite (IH _ _ Hb).
Qed.

Lemma leads_forth_length redoable : ∀ now future,
  leads_forth redoable now future → length future = length redoable.
Proof.
  induction redoable as [|s redoable IH]; intros now [|m future]; cbn; try done.
  intros [_ Hb]. by rewrite (IH _ _ Hb).
Qed.

Lemma leads_back_take n applied : ∀ now past,
  leads_back applied now past → leads_back (take n applied) now (take n past).
Proof.
  revert n. induction applied as [|s applied IH]; intros n now [|m past]; cbn; try done.
  - by rewrite !take_nil.
  - intros [Hs Hb]. destruct n; cbn; [done|]. auto.
Qed.

(** Forgetting the oldest entries, none of which is to be redone. *)
Lemma on_line_forget entries cursor tl dropped entries' :
  on_line entries cursor tl → entries = dropped ++ entries' → (length dropped ≤ cursor)%nat →
  on_line entries' (cursor - length dropped) (keeps_past (cursor - length dropped) tl).
Proof.
  intros (applied & redoable & -> & -> & Hb & Hf) E Hlen.
  set (n := (length applied - length dropped)%nat).
  exists (take n applied), redoable. split_and!.
  - rewrite <- (take_drop n applied), rev_app_distr, <- app_assoc in E.
    eapply app_inj_1 in E as [_ E]; [done|]. rewrite length_rev, length_drop. lia.
  - rewrite length_take. lia.
  - by apply leads_back_take.
  - done.
Qed.

Lemma on_line_tip entries cursor tl :
  on_line entries cursor tl → cursor = length entries → tl_future tl = [].
Proof.
  intros (applied & redoable & -> & -> & Hb & Hf) E. rewrite length_app, length_rev in E.
  apply leads_forth_length in Hf. destruct (tl_future tl); [done|]. cbn in Hf. lia.
Qed.

Lemma on_line_past entries cursor tl : on_line entries cursor tl → length (tl_past tl) = cursor.
Proof. intros (applied & redoable & _ & -> & Hb & _). by eapply leads_back_length. Qed.

Lemma on_line_length entries cursor tl :
  on_line entries cursor tl → length entries = (length (tl_past tl) + length (tl_future tl))%nat.
Proof.
  intros (applied & redoable & -> & -> & Hb & Hf).
  rewrite length_app, length_rev, (leads_back_length _ _ _ Hb), (leads_forth_length _ _ _ Hf). done.
Qed.

Definition all_keys_u64 (tl : Timeline) : Prop := ∀ m, m = tl_now tl ∨ m ∈ tl_past tl ∨ m ∈ tl_future tl → keys_u64 m.

Lemma keys_forget n tl : all_keys_u64 tl → all_keys_u64 (keeps_past n tl).
Proof.
  intros Hk m Hm. apply Hk. destruct Hm as [Hm|[Hm|Hm]]; [by left| |by right; right].
  right; left. apply elem_of_take in Hm as (i & Hi & _). by eapply list_elem_of_lookup_2.
Qed.

(** *** The journal's invariant *)

Section journal_at.
Context {W : Type} `{!RefHeap W (cell ObjectRecord)}.
Implicit Types (j : Journal W) (ext : gmultiset ref) (H : gmultiset nat) (tl : Timeline).

(** Every count of the heap is a version's, an entry's or of [ext]; the versions stand
    where the timeline says; and the total is the entries' cost. *)
Record journal_core j ext H tl : Prop := {
  jc_model : model_inv (jn_model j) (stored_refs (jn_entries j) ⊎ ext)
    ({[+ md_current (jn_model j) +]} ⊎ H);
  jc_now : slots_of (jn_model j) (md_current (jn_model j)) (tl_now tl);
  jc_line : on_line (jn_entries j) (jn_cursor j) tl;
  jc_keys : all_keys_u64 tl;
  jc_total : in_u64 (jn_total_cost j) ∧ u64 (jn_total_cost j) = u64 (costs (jn_entries j));
  jc_sink : md_commit_sink (jn_model j) = true }.

Record journal_at j ext H tl : Prop := {
  ja_core : journal_core j ext H tl;
  ja_view : viewed j }.

Lemma publish_view_at j ext H tl : journal_core j ext H tl → journal_at (publish_view j) ext H tl.
Proof.
  intros [I1 I2 I3 I4 I5 I6]. destruct (publish_view_spec j) as (Hv & Em & Ee & Ec & Et & _).
  split; [|done]. split; rewrite ?Em, ?Ee, ?Ec, ?Et; done.
Qed.

Lemma u64_sub_eq a b c : u64 a = u64 (b + c) → u64 (a - b) = u64 c.
Proof. unfold u64. intros E. rewrite <- Zminus_mod_idemp_l, E, Zminus_mod_idemp_l. f_equal. lia. Qed.

(** What a trim leaves: the present, and of the past at most what the budget holds. *)
Lemma trim_spec j ext H tl :
  journal_core j ext H tl → jn_cursor j = length (jn_entries j) →
  ∃ n, journal_at (trim j) ext H (keeps_past n tl) ∧ (jn_entries j ≠ [] → (1 ≤ n)%nat) ∧
    versions_same (jn_model j) (jn_model (trim j)) ({[+ md_current (jn_model j) +]} ⊎ H) ∧
    md_current (jn_model (trim j)) = md_current (jn_model j) ∧
    jn_budget (trim j) = jn_budget j ∧
    (jn_total_cost (trim j) ≤ jn_budget j ∨ (length (jn_entries (trim j)) ≤ 1)%nat).
Proof.
  intros [I1 I2 I3 I4 [I5 I6] I7] Htip. unfold trim.
  destruct (trim_front (jn_budget j) (jn_entries j) (jn_cursor j) (jn_total_cost j) (md_heap (jn_model j)))
    as [[[entries cursor] total] w] eqn:E.
  pose proof (mi_heap _ _ _ I1) as Ih. rewrite disj_union_swap in Ih.
  destruct (trim_front_spec _ _ _ _ _ _ _ _ _ _ E Ih)
    as (dropped & Ed & Ec & Et & Hr & Ew & I' & Hn & Hb).
  rewrite disj_union_swap in I'.
  set (j' := set_model (set_heap w (jn_model j)) (set_entries entries cursor total j)).
  destruct (publish_view_spec j') as (_ & Em & Ee & _ & Ett & Eb).
  exists (jn_cursor j - length dropped)%nat. rewrite Em, Ee, Ett, Eb.
  assert (length dropped ≤ jn_cursor j)%nat as Hle by (rewrite Htip, Ed, length_app; lia).
  split; [|split; [|split; [|done]]].
  - apply publish_view_at. split; cbn.
    + eapply model_inv_heap; [exact I1|by rewrite Ew|done].
    + apply slots_of_heap; [by rewrite Ew|done].
    + rewrite Ec. by eapply on_line_forget.
    + by apply keys_forget.
    + split; [by apply Hr|]. rewrite Et. rewrite Ed, costs_app in I6. by apply u64_sub_eq.
    + done.
  - intros Hne. specialize (Hn Hne). rewrite Htip, Ed, length_app. destruct entries; [done|]. cbn. lia.
  - apply versions_same_heap; [done|]. cbn. by rewrite Ew.
Qed.

(** Re-budgeting a history whose every entry is applied. *)
Lemma rebudget_spec bytes j ext H tl
    (I : journal_at j ext H tl) (Htip : jn_cursor j = length (jn_entries j)) :
  let j' := set_byte_budget bytes j in
  ∃ n, journal_at j' ext H (keeps_past n tl) ∧ (tl_past tl ≠ [] → (1 ≤ n)%nat) ∧
    versions_same (jn_model j) (jn_model j') ({[+ md_current (jn_model j) +]} ⊎ H) ∧
    (jn_total_cost j' ≤ bytes ∨ (length (jn_entries j') ≤ 1)%nat).
Proof.
  intros j'. destruct I as [Ic _]. unfold j', set_byte_budget.
  set (jb := mkJournal _ bytes _ _ _ _ _ _ _ _ _).
  assert (journal_core jb ext H tl) as Ib by (destruct Ic; by split).
  destruct (trim_spec jb ext H tl Ib Htip) as (n & [It _] & Hn & K & _ & _ & Hb).
  destruct (publish_view_spec (trim jb)) as (_ & -> & Ee & _ & Et & _). rewrite Ee, Et.
  exists n. split; [by apply publish_view_at|]. split; [|done]. intros Hp. apply Hn.
  intros E. apply Hp. pose proof (on_line_length _ _ _ (jc_line _ _ _ _ Ib)) as El.
  rewrite E in El. destruct (tl_past tl); [done|]. cbn in El. lia.
Qed.
End journal_at.

(** ** Undo and redo *)

(** The timeline's own moves. *)
Definition tl_back (tl : Timeline) : option Timeline :=
  match tl_past tl with
  | m :: past => Some (mkTimeline past m (tl_now tl :: tl_future tl))
  | [] => None
  end.
Definition tl_forth (tl : Timeline) : option Timeline :=
  match tl_future tl with
  | m :: future => Some (mkTimeline (tl_now tl :: tl_past tl) m future)
  | [] => None
  end.
Definition tl_move (dir : NavDirection) (tl : Timeline) : option Timeline :=
  match dir with Undo => tl_back tl | Redo => tl_forth tl end.

Lemma tl_move_keys dir tl tl' : tl_move dir tl = Some tl' → all_keys_u64 tl → all_keys_u64 tl'.
Proof.
  destruct tl as [past now future]. unfold tl_move, tl_back, tl_forth.
  destruct dir; [destruct past|destruct future]; intros [= <-] Hk m Hm; apply Hk; cbn in *;
    rewrite ?elem_of_cons in *; tauto.
Qed.

(** The entry a move goes through, and where it leaves the cursor. *)
Definition moved_over (dir : NavDirection) (entries : list Stored) (cursor : nat) (s : Stored) (c : nat) : Prop :=
  match dir with
  | Undo => cursor = S c ∧ entries !! c = Some s
  | Redo => c = S cursor ∧ entries !! cursor = Some s
  end.

Lemma on_line_back entries cursor tl m past :
  on_line entries cursor tl → tl_past tl = m :: past →
  ∃ s c, moved_over Undo entries cursor s c ∧ on_line entries c (mkTimeline past m (tl_now tl :: tl_future tl)) ∧
    records_step (en_objects (sd_entry s)) m (tl_now tl).
Proof.
  intros (applied & redoable & -> & -> & Hb & Hf) Ep. rewrite Ep in Hb.
  destruct applied as [|s applied]; [done|]. destruct Hb as [Hs Hb].
  exists s, (length applied). split; [split; [done|]|split; [|done]].
  - cbn. rewrite <- app_assoc. cbn [app]. rewrite list_lookup_middle; [done|]. by rewrite length_rev.
  - exists applied, (s :: redoable). cbn. rewrite <- app_assoc. done.
Qed.

Lemma on_line_forth entries cursor tl m future :
  on_line entries cursor tl → tl_future tl = m :: future →
  ∃ s c, moved_over Redo entries cursor s c ∧ on_line entries c (mkTimeline (tl_now tl :: tl_past tl) m future) ∧
    records_step (en_objects (sd_entry s)) (tl_now tl) m.
Proof.
  intros (applied & redoable & -> & -> & Hb & Hf) Ef. rewrite Ef in Hf.
  destruct redoable as [|s redoable]; [done|]. destruct Hf as [Hs Hf].
  exists s, (S (length applied)). split; [split; [done|]|split; [|done]].
  - rewrite list_lookup_middle; [done|]. by rewrite length_rev.
  - exists (s :: applied), redoable. cbn. rewrite <- app_assoc. done.
Qed.

(** A move of the timeline is a move of the cursor over one entry. *)
Lemma on_line_move dir entries cursor tl tl' :
  on_line entries cursor tl → tl_move dir tl = Some tl' →
  ∃ s c before after, moved_over dir entries cursor s c ∧ on_line entries c tl' ∧
    records_step (en_objects (sd_entry s)) before after ∧
    tl_now tl = nav_source dir before after ∧ tl_now tl' = nav_dest dir before after.
Proof.
  intros Hl. destruct dir; unfold tl_move, tl_back, tl_forth.
  - destruct (tl_past tl) as [|m past] eqn:E; [done|]. intros [= <-].
    destruct (on_line_back _ _ _ _ _ Hl E) as (s & c & H1 & H2 & H3). by exists s, c, m, (tl_now tl).
  - destruct (tl_future tl) as [|m future] eqn:E; [done|]. intros [= <-].
    destruct (on_line_forth _ _ _ _ _ Hl E) as (s & c & H1 & H2 & H3). by exists s, c, (tl_now tl), m.
Qed.

(** At an end of the timeline there is nothing to move over. *)
Lemma on_line_end dir entries cursor tl :
  on_line entries cursor tl → tl_move dir tl = None →
  match dir with Undo => cursor = 0%nat | Redo => entries !! cursor = None end.
Proof.
  intros Hl. destruct dir; unfold tl_move, tl_back, tl_forth.
  - rewrite <- (on_line_past _ _ _ Hl). by destruct (tl_past tl).
  - destruct (tl_future tl) eqn:E; [|done]. intros _. apply lookup_ge_None_2.
    rewrite (on_line_length _ _ _ Hl), (on_line_past _ _ _ Hl), E. cbn. lia.
Qed.

Lemma stored_refs_elem entries s r :
  s ∈ entries → r ∈ edit_refs (en_objects (sd_entry s)) → r ∈ stored_refs entries.
Proof.
  intros Hs Hr. induction entries as [|s0 entries IH]; [by apply not_elem_of_nil in Hs|].
  cbn. rewrite gmultiset_elem_of_disj_union. apply elem_of_cons in Hs as [<-|Hs]; [by left|right].
  by apply IH.
Qed.

Section moves.
Context {W : Type} `{!RefHeap W (cell ObjectRecord)}.
Implicit Types (j : Journal W) (ext : gmultiset ref) (H : gmultiset nat) (tl : Timeline).

Definition step_history (dir : NavDirection) : ST (Journal W) failure bool :=
  match dir with Undo => undo | Redo => redo end.

Lemma move_steps dir j s c :
  moved_over dir (jn_entries j) (jn_cursor j) s c → step_history dir j = step_to s dir c j.
Proof.
  destruct dir; cbn [moved_over step_history]; intros [Ec Es]; unfold undo, redo.
  - by rewrite Ec, Es.
  - by rewrite Es, Ec.
Qed.

Lemma step_to_spec dir j ext H tl tl' s c before after j' b :
  journal_at j ext H tl → moved_over dir (jn_entries j) (jn_cursor j) s c →
  on_line (jn_entries j) c tl' → records_step (en_objects (sd_entry s)) before after →
  tl_now tl = nav_source dir before after → tl_now tl' = nav_dest dir before after →
  all_keys_u64 tl' → step_to s dir c j = (j', Ok b) →
  versions_same (jn_model j) (jn_model j') H ∧ jn_entries j' = jn_entries j ∧
  if b then journal_at j' ext H tl' else journal_at j' ext H tl.
Proof.
  intros [[I1 I2 I3 I4 I5 I6] Hv] Hov Hl Hs En En' Hk. unfold step_to.
  assert (s ∈ jn_entries j) as Hin.
  { destruct dir; destruct Hov as [_ Hs']; by eapply list_elem_of_lookup_2. }
  destruct (navigate (sd_entry s) dir (jn_model j)) as [md x] eqn:E.
  rewrite En in I2.
  destruct (navigate_spec _ _ _ _ _ _ _ _ I1 I2 ltac:(eapply step_targets_u64;
    [exact Hs|rewrite <- En'; apply Hk; by left]) ltac:(intros e i He Hi;
    rewrite gmultiset_elem_of_disj_union; left; eapply stored_refs_elem; [exact Hin|];
    by eapply edit_refs_target) E) as (K & Im & Hx).
  rewrite (nav_all_step _ _ _ _ Hs), <- En, <- En' in Hx.
  assert (md_commit_sink md = true) as Esink.
  { rewrite <- I6, <- (navigate_sink (sd_entry s) dir (jn_model j)). by rewrite E. }
  destruct x as [[]|[e|]]; intros [= <- <-].
  - destruct (publish_view_spec (move_cursor c (restore_all (map (fun ce => (se_object ce,
      match dir with Undo => se_before ce | Redo => se_after ce end)) (en_contents (sd_entry s)))
      (set_model md j)))) as (_ & -> & -> & _).
    split; [done|]. split; [done|]. apply publish_view_at. by split; [| apply Hx | | | |].
  - split; [done|]. split; [done|]. destruct Hx as (Ec & Sx & _). split; [|by destruct Hv].
    split; cbn; [done|by rewrite Ec|done..].
Qed.

(** Undo and redo are the timeline's moves; refused, they leave it. *)
Lemma move_spec dir j ext H tl j' b
    (I : journal_at j ext H tl) (E : step_history dir j = (j', Ok b)) :
  versions_same (jn_model j) (jn_model j') H ∧ jn_entries j' = jn_entries j ∧
  match tl_move dir tl with
  | Some tl' => if b then journal_at j' ext H tl' else journal_at j' ext H tl
  | None => b = false ∧ j' = j
  end.
Proof.
  pose proof (jc_line _ _ _ _ (ja_core _ _ _ _ I)) as Hl.
  destruct (tl_move dir tl) as [tl'|] eqn:Em.
  - destruct (on_line_move _ _ _ _ _ Hl Em) as (s & c & before & after & Hov & Hl' & Hs & En & En').
    rewrite (move_steps _ _ _ _ Hov) in E.
    eapply step_to_spec; [exact I|exact Hov|exact Hl'|exact Hs|exact En|exact En'| |exact E].
    eapply tl_move_keys; [exact Em|apply I].
  - pose proof (on_line_end _ _ _ _ Hl Em) as He.
    assert (b = false ∧ j' = j) as [-> ->].
    { destruct dir; cbn [step_history] in E; unfold undo, redo in E; rewrite He in E; by injection E as <- <-. }
    split; [by intros a _|done].
Qed.
End moves.

(** ** Merging

    What merging makes of the edits, the counts aside. *)

Fixpoint merged_edit (fe : ObjectEdit) (base : list ObjectEdit) : list ObjectEdit :=
  match base with
  | [] => [fe]
  | be :: base =>
      if ed_object be =? ed_object fe
      then mkEdit (ed_object be) (ed_before be) (ed_after fe) :: base
      else be :: merged_edit fe base
  end.
Definition merged_edits (base follow : list ObjectEdit) : list ObjectEdit :=
  foldl (fun base fe => merged_edit fe base) base follow.

Lemma merged_new fe base : ed_object fe ∉ map ed_object base → merged_edit fe base = base ++ [fe].
Proof.
  induction base as [|be base IH]; [done|]. cbn. rewrite not_elem_of_cons. intros [Hne Hn].
  rewrite IH by done. by destruct (Z.eqb_spec (ed_object be) (ed_object fe)).
Qed.

Lemma merged_old fe base : ed_object fe ∈ map ed_object base → NoDup (map ed_object base) →
  map ed_object (merged_edit fe base) = map ed_object base ∧
  ∀ e, e ∈ merged_edit fe base → (e ∈ base ∧ ed_object e ≠ ed_object fe) ∨
    ∃ be, be ∈ base ∧ ed_object be = ed_object fe ∧ e = mkEdit (ed_object be) (ed_before be) (ed_after fe).
Proof.
  induction base as [|be base IH]; cbn; [by intros ?%not_elem_of_nil|].
  rewrite list.NoDup_cons. intros Hin [Hnot Hn].
  destruct (Z.eqb_spec (ed_object be) (ed_object fe)) as [Ee|Hne]; cbn.
  - split; [done|]. intros e [->|He]%elem_of_cons; [right; exists be; split; [left|done]|].
    left. split; [by right|]. intros E. apply Hnot. rewrite Ee, <- E. by apply list_elem_of_fmap_2.
  - apply elem_of_cons in Hin as [E|Hin]; [by symmetry in E|].
    destruct (IH Hin Hn) as [Em He]. split; [by f_equal|].
    intros e [->|Hin']%elem_of_cons; [left; split; [left|done]|].
    destruct (He e Hin') as [[H1 H2]|(be' & H1 & H2)]; [left; split; [by right|done]|].
    right. exists be'. split; [by right|done].
Qed.

(** One more edit of the same line. *)
Lemma merged_step fe base m0 m1 :
  records_step base m0 m1 → ed_before fe = m1 !! ed_object fe →
  records_step (merged_edit fe base) m0 (nav_map Redo m1 fe).
Proof.
  intros [Hn He Hs] Hb. destruct (decide (ed_object fe ∈ map ed_object base)) as [Hin|Hout].
  - destruct (merged_old fe base Hin Hn) as [Em Hm]. split; rewrite ?Em; [done| |].
    + intros e He'. rewrite nav_map_lookup.
      destruct (Hm e He') as [[H1 H2]|(be & H1 & H2 & ->)]; cbn.
      * rewrite decide_False by done. by apply He.
      * rewrite decide_True by done. split; [by apply He|done].
    + intros id Hid. rewrite nav_map_lookup, decide_False by (intros ->; done). by apply Hs.
  - rewrite merged_new by done. split; rewrite ?map_app; cbn.
    + apply list.NoDup_app. split; [done|]. split; [|apply NoDup_singleton].
      intros id Hid ->%list_elem_of_singleton. done.
    + intros e [He'| ->%list_elem_of_singleton]%elem_of_app; rewrite nav_map_lookup.
      * rewrite decide_False; [by apply He|]. intros E. apply Hout. rewrite <- E.
        by apply list_elem_of_fmap_2.
      * rewrite decide_True by done. split; [by rewrite Hb, (Hs _ Hout)|done].
    + intros id Hid. rewrite elem_of_app, list_elem_of_singleton in Hid.
      rewrite nav_map_lookup, decide_False by tauto. apply Hs. tauto.
Qed.

(** The merge of two steps is their composite. *)
Lemma merged_steps base follow m0 m1 m2 :
  records_step base m0 m1 → records_step follow m1 m2 → records_step (merged_edits base follow) m0 m2.
Proof.
  unfold merged_edits. intros Hb Hf. revert base m1 Hb Hf.
  induction follow as [|fe follow IH]; intros base m1 Hb [Hn He Hs]; cbn.
  { assert (m2 = m1) as ->; [|done]. apply map_eq. intros id. apply Hs, not_elem_of_nil. }
  cbn in Hn. apply list.NoDup_cons in Hn as [Hnot Hn].
  destruct (He fe ltac:(left)) as [Eb Ea].
  apply (IH _ (nav_map Redo m1 fe)); [by apply merged_step|]. split; [done| |].
  - intros e Hin. rewrite nav_map_lookup, decide_False.
    + apply He. by right.
    + intros E. apply Hnot. rewrite <- E. by apply list_elem_of_fmap_2.
  - intros id Hid. rewrite nav_map_lookup. case_decide as E; [by subst|].
    apply Hs. cbn. rewrite not_elem_of_cons. done.
Qed.

Lemma damage_fold_covers follow x : ∀ base,
  (∃ d, (d ∈ base ∨ d ∈ follow) ∧ reports d x = true) →
  ∃ d, d ∈ foldl damage_add base follow ∧ reports d x = true.
Proof.
  induction follow as [|f follow IH]; intros base (d & Hd & Hr); cbn.
  - destruct Hd as [Hd|?%not_elem_of_nil]; [by exists d|done].
  - apply IH. rewrite elem_of_cons in Hd.
    assert (d ∈ follow ∨ (reports f x = true ∨ ∃ e, e ∈ base ∧ reports e x = true)) as [Hin|Hor].
    { destruct Hd as [Hd|[->|Hd]]; [right; right; by exists d|by right; left|by left]. }
    + by exists d; auto.
    + destruct (damage_add_covers base f x Hor) as (d' & Hd' & Hr'). exists d'. auto.
Qed.

Section merging.
Context {W : Type} `{!RefHeap W (cell ObjectRecord)}.
Implicit Types (w : W) (ext X : gmultiset ref) (o : option SlotIndex).

Lemma edit_refs_cons e edits :
  edit_refs (e :: edits) = record_ref (ed_before e) ⊎ (record_ref (ed_after e) ⊎ edit_refs edits).
Proof. done. Qed.

(** The same counts, in another order. *)
Lemma rh_inv_eq w X Y : rh_inv w X → X = Y → rh_inv w Y.
Proof. by intros I <-. Qed.

Local Ltac recount I := eapply rh_inv_eq; [exact I|multiset_solver].

(** A reference that [X] counts, if there is one. *)
Definition edge_in o X : Prop := ∀ i, o = Some i → (records, i) ∈ X.
Definition edges_in (fe : ObjectEdit) X : Prop := edge_in (ed_before fe) X ∧ edge_in (ed_after fe) X.

Lemma edge_in_more o X Y : edge_in o X → edge_in o (Y ⊎ X).
Proof. intros Hx i Hi. rewrite gmultiset_elem_of_disj_union. right. by apply Hx. Qed.

Lemma edges_in_refs fe edits X : fe ∈ edits → edges_in fe (edit_refs edits ⊎ X).
Proof.
  intros Hin. split; intros i Hi; rewrite gmultiset_elem_of_disj_union; left;
    [by eapply (edit_refs_target edits Undo)|by eapply (edit_refs_target edits Redo)].
Qed.

Lemma copy_record_spec w X o w' o' :
  rh_inv w X → edge_in o X → copy_record o w = (w', Ok o') →
  o' = o ∧ rh_cells w' = rh_cells w ∧ rh_inv w' (record_ref o ⊎ X).
Proof.
  intros I Hr. destruct o as [i|]; cbn [copy_record].
  - assert ((records, i) ∈ X ⊎ all_edges (rh_cells w)) as Hin.
    { rewrite gmultiset_elem_of_disj_union. left. by apply Hr. }
    destruct (rh_retain (records, i) w) as [w1 [[]|e]] eqn:E; intros [= <- <-].
    by destruct (rh_retain_ok _ _ _ _ _ I Hin E) as [Ec I'].
  - intros [= <- <-]. by rewrite record_ref_none.
Qed.

Lemma merge_edit_spec fe base : ∀ w X w' l,
  rh_inv w (edit_refs base ⊎ X) → edges_in fe X → merge_edit fe base w = (w', Ok l) →
  l = merged_edit fe base ∧ rh_cells w' = rh_cells w ∧ rh_inv w' (edit_refs l ⊎ X).
Proof.
  induction base as [|be base IH]; intros w X w' l I [Hxb Hxa]; cbn [merge_edit merged_edit];
    unfold mbind, ST_bind, mret, ST_ret.
  - destruct (copy_record (ed_before fe) w) as [w1 [b|e]] eqn:E1; [|done].
    destruct (copy_record_spec _ _ _ _ _ I (edge_in_more _ _ _ Hxb) E1) as (-> & Ec1 & I1).
    destruct (copy_record (ed_after fe) w1) as [w2 [a|e]] eqn:E2; [|done].
    destruct (copy_record_spec _ _ _ _ _ I1 (edge_in_more _ _ _ (edge_in_more _ _ _ Hxa)) E2)
      as (-> & Ec2 & I2).
    intros [= <- <-]. split; [by destruct fe|]. split; [by rewrite Ec2, Ec1|].
    cbn in *. rewrite (left_id_L ∅ (⊎)) in I2. rewrite (right_id_L ∅ (⊎)), <- (assoc_L (⊎)).
    by rewrite disj_union_swap.
  - destruct (ed_object be =? ed_object fe) eqn:Eid.
    + destruct (copy_record (ed_after fe) w) as [w1 [a|e]] eqn:E1; [|done].
      destruct (copy_record_spec _ _ _ _ _ I (edge_in_more _ _ _ Hxa) E1) as (-> & Ec1 & I1).
      unfold st_modify. intros [= <- <-]. split; [done|].
      assert (rh_inv w1 (record_ref (ed_after be) ⊎ (edit_refs (mkEdit (ed_object be) (ed_before be)
        (ed_after fe) :: base) ⊎ X))) as I2.
      { rewrite edit_refs_cons in I1 |- *. cbn [ed_before ed_after]. recount I1. }
      destruct (drop_record_spec _ _ _ I2) as [Ec2 I3]. split; [by rewrite Ec2|done].
    + destruct (merge_edit fe base w) as [w1 [l1|e]] eqn:E1; [|done]. intros [= <- <-].
      assert (rh_inv w (edit_refs base ⊎ ((record_ref (ed_before be) ⊎ record_ref (ed_after be)) ⊎ X))) as I1.
      { rewrite edit_refs_cons in I. recount I. }
      destruct (IH _ _ _ _ I1 (conj (edge_in_more _ _ _ Hxb) (edge_in_more _ _ _ Hxa)) E1) as (-> & Ec & I2).
      split; [done|]. split; [done|]. rewrite edit_refs_cons. recount I2.
Qed.

Lemma merge_edits_spec follow : ∀ base w X w' l,
  rh_inv w (edit_refs base ⊎ X) → (∀ fe, fe ∈ follow → edges_in fe X) →
  merge_edits base follow w = (w', Ok l) →
  l = merged_edits base follow ∧ rh_cells w' = rh_cells w ∧ rh_inv w' (edit_refs l ⊎ X).
Proof.
  induction follow as [|fe follow IH]; intros base w X w' l I Hx; cbn [merge_edits];
    unfold mbind, ST_bind, mret, ST_ret; [by intros [= <- <-]|].
  destruct (merge_edit fe base w) as [w1 [base1|e]] eqn:E1; [|done].
  destruct (merge_edit_spec fe base _ _ _ _ I (Hx fe ltac:(left)) E1) as (-> & Ec1 & I1).
  intros E2. destruct (IH _ _ _ _ _ I1 ltac:(intros; apply Hx; by right) E2) as (-> & Ec2 & I2).
  split; [done|]. split; [by rewrite Ec2|done].
Qed.

Lemma coalesce_entries_spec base follow w X w' merged :
  rh_inv w (edit_refs (en_objects base) ⊎ (edit_refs (en_objects follow) ⊎ X)) →
  coalesce_entries base follow w = (w', Ok merged) →
  en_objects merged = merged_edits (en_objects base) (en_objects follow) ∧
  rh_cells w' = rh_cells w ∧
  rh_inv w' (edit_refs (en_objects merged) ⊎ (edit_refs (en_objects follow) ⊎ X)) ∧
  en_name merged = en_name base ∧ en_coalesce_key merged = en_coalesce_key base ∧
  en_damage merged = foldl damage_add (en_damage base) (en_damage follow).
Proof.
  intros I. unfold coalesce_entries, mbind, ST_bind, mret, ST_ret.
  destruct (merge_edits (en_objects base) (en_objects follow) w) as [w1 [l|e]] eqn:El; [|done].
  intros [= <- <-]. cbn.
  destruct (merge_edits_spec _ _ _ _ _ _ I (fun fe Hin => edges_in_refs fe _ X Hin) El) as (-> & Ec & I').
  done.
Qed.

(** C17: merging an entry into another composes them.  Where the first leads from one
    version to a second and the next from there to a third, the merge leads from the
    first to the third; it keeps the name and the key, reports all the damage of both;
    and it holds a count for each of its edges beside those the next entry holds. *)
Theorem coalesce_composes base follow m0 m1 m2 w X w' merged
  (I : rh_inv w (edit_refs (en_objects base) ⊎ (edit_refs (en_objects follow) ⊎ X)))
  (Hb : records_step (en_objects base) m0 m1) (Hf : records_step (en_objects follow) m1 m2)
  (E : coalesce_entries base follow w = (w', Ok merged)) :
  records_step (en_objects merged) m0 m2 ∧
  rh_inv w' (edit_refs (en_objects merged) ⊎ (edit_refs (en_objects follow) ⊎ X)) ∧
  rh_cells w' = rh_cells w ∧ en_name merged = en_name base ∧
  en_coalesce_key merged = en_coalesce_key base ∧
  ∀ d x, d ∈ en_damage base ∨ d ∈ en_damage follow → reports d x = true →
    ∃ d', d' ∈ en_damage merged ∧ reports d' x = true.
Proof.
  destruct (coalesce_entries_spec _ _ _ _ _ _ I E) as (Eo & Ec & I' & En & Ek & Ed).
  split; [rewrite Eo; by eapply merged_steps|]. split; [done|]. split; [done|].
  do 2 (split; [done|]). intros d x Hd Hr. rewrite Ed. apply damage_fold_covers. exists d. tauto.
Qed.
End merging.

(** ** A commit on the timeline *)

Definition tl_commit (folded : bool) (m : vmap) (tl : Timeline) : Timeline :=
  mkTimeline (if folded then tl_past tl else tl_now tl :: tl_past tl) m [].

Lemma tl_commit_keys folded m tl : keys_u64 m → all_keys_u64 tl → all_keys_u64 (tl_commit folded m tl).
Proof.
  intros Hm Hk m' [->|[Hin|Hin]]; [done| |by apply not_elem_of_nil in Hin].
  apply Hk. cbn in Hin. destruct folded; [by right; left|].
  apply elem_of_cons in Hin as [->|Hin]; [by left|by right; left].
Qed.

(** A fresh entry after the applied ones. *)
Lemma on_line_append entries cursor tl s m :
  on_line entries cursor tl → records_step (en_objects (sd_entry s)) (tl_now tl) m →
  on_line (take cursor entries ++ [s]) (S cursor) (tl_commit false m tl).
Proof.
  intros (applied & redoable & -> & -> & Hb & Hf) Hs. exists (s :: applied), []. split_and!; [|done| |done].
  - cbn. rewrite take_app_length', app_nil_r; [done|by rewrite length_rev].
  - cbn. by split.
Qed.

(** The tip's entry replaced by one that leads further. *)
Lemma on_line_fold entries tip cursor tl s m :
  on_line (entries ++ [tip]) cursor tl → cursor = length (entries ++ [tip]) →
  (∀ m0, records_step (en_objects (sd_entry tip)) m0 (tl_now tl) → records_step (en_objects (sd_entry s)) m0 m) →
  on_line (entries ++ [s]) cursor (tl_commit true m tl) ∧ tl_past tl ≠ [].
Proof.
  intros (applied & redoable & E & -> & Hb & Hf) Htip Hs. unfold on_line.
  rewrite E, length_app, length_rev in Htip.
  assert (redoable = []) as -> by (destruct redoable; [done|cbn in Htip; lia]).
  rewrite app_nil_r in E. destruct applied as [|s0 applied]; [by destruct entries|].
  cbn in E. apply app_inj_tail in E as [-> ->].
  cbn [tl_past tl_now tl_future tl_commit]. destruct (tl_past tl) as [|m0 past]; [done|].
  cbn in Hb. destruct Hb as [H0 Hb]. split; [|done].
  exists (s :: applied), []. split_and!; [by rewrite app_nil_r|done| |done]. cbn. auto.
Qed.

Lemma u64_add_eq a b c : u64 a = u64 b → u64 (u64 (a + c)) = u64 (b + c).
Proof.
  intros E. rewrite (u64_small (u64 _)) by apply u64_range. unfold u64 in *.
  rewrite <- Zplus_mod_idemp_l, E, Zplus_mod_idemp_l. done.
Qed.

Section commits.
Context {W : Type} `{!RefHeap W (cell ObjectRecord)}.
Context (record_size : Z).
Implicit Types (j : Journal W) (ext : gmultiset ref) (H : gmultiset nat) (tl : Timeline) (w : W).

(** The journal's heap moves on under it. *)
Lemma journal_core_heap j ext ext' H tl w :
  journal_core j ext H tl → rh_cells (md_heap (jn_model j)) ⊆ rh_cells w →
  rh_inv w (version_refs (md_versions (jn_model j)) ⊎ (stored_refs (jn_entries j) ⊎ ext')) →
  journal_core (set_model (set_heap w (jn_model j)) j) ext' H tl.
Proof.
  intros [I1 I2 I3 I4 I5 I6] Hs I'. split; cbn; [by eapply model_inv_heap|by apply slots_of_heap|done..].
Qed.

Lemma drop_all_spec tail : ∀ w X,
  rh_inv w (stored_refs tail ⊎ X) →
  rh_cells (foldl (fun w s => drop_stored s w) w tail) = rh_cells w ∧
  rh_inv (foldl (fun w s => drop_stored s w) w tail) X.
Proof.
  induction tail as [|s tail IH]; intros w X I; cbn.
  - cbn in I. by rewrite (left_id_L ∅ (⊎)) in I.
  - cbn in I. rewrite <- (assoc_L (⊎)) in I. destruct (drop_edits_spec _ _ _ I) as [Ec I'].
    destruct (IH _ _ I') as [Ec2 I2]. unfold drop_stored at 2. by rewrite Ec2, <- Ec.
Qed.

Lemma drop_costs_spec tail : ∀ total c,
  in_u64 total → u64 total = u64 (costs tail + c) →
  let total' := foldl (fun total s => u64 (total - sd_cost s)) total tail in
  in_u64 total' ∧ u64 total' = u64 c.
Proof.
  induction tail as [|s tail IH]; intros total c Hr E; cbn; [done|]. apply IH; [apply u64_range|].
  rewrite (u64_small (u64 _)) by apply u64_range. apply u64_sub_eq. rewrite E. f_equal. cbn.
  unfold costs. lia.
Qed.

(** The redo tail goes. *)
Lemma drop_tail_spec j ext H tl :
  model_inv (jn_model j) (stored_refs (jn_entries j) ⊎ ext) H →
  on_line (jn_entries j) (jn_cursor j) tl →
  in_u64 (jn_total_cost j) ∧ u64 (jn_total_cost j) = u64 (costs (jn_entries j)) →
  let j' := drop_tail j in
  ∃ w, jn_model j' = set_heap w (jn_model j) ∧ rh_cells w = rh_cells (md_heap (jn_model j)) ∧
    rh_inv w (version_refs (md_versions (jn_model j)) ⊎ (stored_refs (jn_entries j') ⊎ ext)) ∧
    jn_entries j' = take (jn_cursor j) (jn_entries j) ∧ jn_cursor j' = jn_cursor j ∧
    jn_cost_fn j' = jn_cost_fn j ∧ jn_budget j' = jn_budget j ∧
    in_u64 (jn_total_cost j') ∧ u64 (jn_total_cost j') = u64 (costs (jn_entries j')).
Proof.
  intros I Hl [Ht Et] j'. pose proof (mi_heap _ _ _ I) as Ih.
  rewrite <- (take_drop (jn_cursor j) (jn_entries j)) in Ih, Et.
  rewrite stored_refs_app in Ih. rewrite costs_app, Z.add_comm in Et.
  set (tail := drop (jn_cursor j) (jn_entries j)) in *.
  assert (rh_inv (md_heap (jn_model j)) (stored_refs tail ⊎ (version_refs (md_versions (jn_model j)) ⊎
    (stored_refs (take (jn_cursor j) (jn_entries j)) ⊎ ext)))) as Ih'.
  { eapply rh_inv_eq; [exact Ih|multiset_solver]. }
  destruct (drop_all_spec tail _ _ Ih') as [Ec I'].
  destruct (drop_costs_spec tail _ _ Ht Et) as [Ht' Et'].
  exists (foldl (fun w s => drop_stored s w) (md_heap (jn_model j)) tail). done.
Qed.
End commits.

Lemma app_nonempty {A : Type} (l : list A) x : l ++ [x] ≠ [].
Proof. by destruct l. Qed.

Section on_commit.
Context {W : Type} `{!RefHeap W (cell ObjectRecord)}.
Context (record_size : Z).
Implicit Types (j : Journal W) (ext : gmultiset ref) (H : gmultiset nat) (tl : Timeline) (w : W).

(** A commit has been published and its entry handed over: it leads from the timeline's
    present to the current version. *)
Record committing j (e : JournalEntry) ext H tl (m : vmap) : Prop := {
  cm_model : model_inv (jn_model j) (stored_refs (jn_entries j) ⊎ (edit_refs (en_objects e) ⊎ ext))
    ({[+ md_current (jn_model j) +]} ⊎ H);
  cm_slots : slots_of (jn_model j) (md_current (jn_model j)) m;
  cm_line : on_line (jn_entries j) (jn_cursor j) tl;
  cm_keys : all_keys_u64 tl ∧ keys_u64 m;
  cm_total : in_u64 (jn_total_cost j) ∧ u64 (jn_total_cost j) = u64 (costs (jn_entries j));
  cm_step : records_step (en_objects e) (tl_now tl) m;
  cm_sink : md_commit_sink (jn_model j) = true }.

(** What the journal holds once it has taken the entry in. *)
Definition committed j j' (folded : bool) ext H tl (m : vmap) : Prop :=
  ∃ n, (1 ≤ n)%nat ∧ journal_at j' ext H (keeps_past n (tl_commit folded m tl)) ∧
    versions_same (jn_model j) (jn_model j') ({[+ md_current (jn_model j) +]} ⊎ H) ∧
    md_current (jn_model j') = md_current (jn_model j) ∧ jn_budget j' = jn_budget j ∧
    (jn_total_cost j' ≤ jn_budget j ∨ (length (jn_entries j') ≤ 1)%nat).

Lemma append_spec j e ext H tl m :
  committing j e ext H tl m → committed j (trim (append record_size e (drop_tail j))) false ext H tl m.
Proof.
  intros [I1 I2 I3 [I4 I4'] I5 I6 I7].
  destruct (drop_tail_spec j _ _ tl I1 I3 I5) as (w & Em & Ew & Iw & Ee & Ec & Ef & Eb & Ht & Et).
  set (j1 := drop_tail j) in *. set (j2 := append record_size e j1).
  assert (jn_model j2 = set_heap w (jn_model j)) as Em2 by exact Em.
  assert (jn_cursor j2 = length (jn_entries j2)) as Htip by done.
  assert (journal_core j2 ext H (tl_commit false m tl)) as Ic.
  { split; rewrite ?Em2.
    - eapply model_inv_heap; [exact I1|by rewrite Ew|]. eapply rh_inv_eq; [exact Iw|].
      cbn [j2 append set_entries jn_entries]. rewrite stored_refs_app. cbn.
      rewrite (right_id_L ∅ (⊎)), (assoc_L (⊎) (stored_refs (jn_entries j1))). done.
    - apply slots_of_heap; [by rewrite Ew|done].
    - rewrite Htip. cbn [j2 append set_entries jn_entries]. rewrite Ee, length_app, length_take_le.
      + rewrite Nat.add_1_r. by apply on_line_append.
      + rewrite (on_line_length _ _ _ I3), (on_line_past _ _ _ I3). lia.
    - by apply tl_commit_keys.
    - cbn [j2 append set_entries jn_total_cost jn_entries]. split; [apply u64_range|].
      rewrite costs_app. cbn. rewrite Z.add_0_r. by apply u64_add_eq.
    - done. }
  destruct (trim_spec j2 ext H _ Ic Htip) as (n & It & Hn & K & Ecur & Ebud & Hb).
  rewrite Em2 in K, Ecur. exists n. split; [apply Hn, app_nonempty|].
  split; [exact It|]. split.
  - eapply versions_same_trans; [|exact K|done]. apply versions_same_heap; [done|]. cbn. by rewrite Ew.
  - split; [exact Ecur|]. change (jn_budget j2) with (jn_budget j1) in Ebud, Hb. by rewrite Eb in Ebud, Hb.
Qed.

Lemma folds_tip j e tip :
  folds e j = Some tip →
  ∃ entries, jn_entries j = entries ++ [tip] ∧ jn_cursor j = length (jn_entries j).
Proof.
  unfold folds. destruct (list.last (jn_entries j)) as [s|] eqn:El; [|done].
  destruct (negb _ && _ && _) eqn:Ef; [|done]. intros [= ->].
  apply andb_true_iff in Ef as [[_ Htip]%andb_true_iff _]. apply bool_decide_eq_true in Htip.
  apply last_Some in El as [entries El]. by exists entries.
Qed.

Lemma fold_tip_spec j e tip ext H tl m j' :
  committing j e ext H tl m → folds e j = Some tip → fold_tip record_size tip e j = (j', Ok tt) →
  committed j j' true ext H tl m.
Proof.
  intros [I1 I2 I3 [I4 I4'] [Ht Et] I6 I7] (entries & El & Htip)%folds_tip. rewrite El in I1, I3, Et, Htip.
  unfold fold_tip, on_heap, st_modify, mbind, ST_bind.
  destruct (coalesce_entries (sd_entry tip) e (md_heap (jn_model j))) as [w [merged|err]] eqn:Ec; [|done].
  pose proof (mi_heap _ _ _ I1) as Ih.
  assert (rh_inv (md_heap (jn_model j)) (edit_refs (en_objects (sd_entry tip)) ⊎ (edit_refs (en_objects e) ⊎
    (version_refs (md_versions (jn_model j)) ⊎ (stored_refs entries ⊎ ext))))) as Ih'.
  { eapply rh_inv_eq; [exact Ih|]. rewrite stored_refs_app. cbn [stored_refs foldr]. multiset_solver. }
  destruct (coalesce_entries_spec _ _ _ _ _ _ Ih' Ec) as (Eo & Ew & Iw & _).
  cbn [jn_entries jn_total_cost jn_cost_fn jn_cursor set_model]. rewrite El, removelast_last.
  set (cost := entry_cost record_size _ merged).
  set (j2 := set_entries (entries ++ [mkStored merged cost]) _ _ _).
  destruct (on_line_fold entries tip (jn_cursor j) tl (mkStored merged cost) m I3 Htip) as [Il Hp].
  { intros m0 H0. cbn. rewrite Eo. by eapply merged_steps. }
  assert (journal_core j2 (edit_refs (en_objects e) ⊎ ext) H (tl_commit true m tl)) as Ic.
  { split; cbn.
    - eapply model_inv_heap; [exact I1|by rewrite Ew|]. eapply rh_inv_eq; [exact Iw|].
      rewrite stored_refs_app. cbn [stored_refs foldr sd_entry]. multiset_solver.
    - apply slots_of_heap; [by rewrite Ew|done].
    - exact Il.
    - by apply tl_commit_keys.
    - split; [apply u64_range|]. rewrite costs_app in Et |- *. cbn in Et |- *. rewrite Z.add_0_r in Et |- *.
      apply u64_add_eq. rewrite (u64_small (u64 _)) by apply u64_range. apply u64_sub_eq.
      by rewrite Z.add_comm in Et.
    - done. }
  destruct (trim_spec j2 _ _ _ Ic) as (n & [It Iv] & Hn & K & Ecur & Ebud & Hb).
  { cbn. by rewrite Htip, !length_app. }
  intros [= <-]. exists n. split; [apply Hn, app_nonempty|].
  set (j3 := trim j2) in *.
  pose proof (mi_heap _ _ _ (jc_model _ _ _ _ It)) as I3h.
  assert (rh_inv (md_heap (jn_model j3)) (edit_refs (en_objects e) ⊎
    (version_refs (md_versions (jn_model j3)) ⊎ (stored_refs (jn_entries j3) ⊎ ext)))) as I3h'.
  { eapply rh_inv_eq; [exact I3h|multiset_solver]. }
  destruct (drop_edits_spec _ _ _ I3h') as [Ecd Id].
  split; [split; [|by destruct Iv]|].
  - eapply journal_core_heap; [exact It|by rewrite Ecd|done].
  - split; [|done]. eapply versions_same_trans; [by apply (versions_same_heap (jn_model j) (jn_model j2)); cbn; rewrite ?Ew| |done].
    eapply versions_same_trans; [exact K|apply versions_same_heap; [done|by cbn; rewrite Ecd]|done].
Qed.

Lemma on_commit_spec j e ext H tl m j' :
  committing j e ext H tl m → on_commit record_size e j = (j', Ok tt) →
  ∃ folded, (folded = true → tl_past tl ≠ []) ∧ committed j j' folded ext H tl m.
Proof.
  intros Hc. unfold on_commit. destruct (folds e j) as [tip|] eqn:Ef.
  - intros E. exists true. split; [|by eapply fold_tip_spec]. intros _ Hp.
    apply folds_tip in Ef as (entries & El & Htip).
    rewrite <- (on_line_past _ _ _ (cm_line _ _ _ _ _ _ Hc)), Hp, El, length_app in Htip.
    cbn in Htip. lia.
  - intros [= <-]. exists false. split; [done|by apply append_spec].
Qed.
End on_commit.

(** ** The journal refines the timeline *)

(** The moves of a timeline: a commit, on a fresh step or widening the last one, which
    may forget the oldest past; undo and redo; and forgetting. *)
Inductive tl_step : Timeline → Timeline → Prop :=
| tl_step_commit n m tl : (1 ≤ n)%nat → tl_step tl (keeps_past n (tl_commit false m tl))
| tl_step_fold n m tl : (1 ≤ n)%nat → tl_past tl ≠ [] → tl_step tl (keeps_past n (tl_commit true m tl))
| tl_step_move dir tl tl' : tl_move dir tl = Some tl' → tl_step tl tl'
| tl_step_forget n tl : (tl_past tl ≠ [] → (1 ≤ n)%nat) → tl_step tl (keeps_past n tl).

Section refinement.
Context {W : Type} `{!RefHeap W (cell ObjectRecord)}.
Context (record_size : Z).
Implicit Types (j : Journal W) (ext : gmultiset ref) (H : gmultiset nat) (tl : Timeline) (w : W)
  (md : Model W).

(** The journal's own part of the invariant. *)
Record books j tl : Prop := {
  bk_line : on_line (jn_entries j) (jn_cursor j) tl;
  bk_keys : all_keys_u64 tl;
  bk_total : in_u64 (jn_total_cost j) ∧ u64 (jn_total_cost j) = u64 (costs (jn_entries j));
  bk_view : viewed j }.

Lemma journal_books j ext H tl : journal_at j ext H tl → books j tl.
Proof. by intros [[]]. Qed.

Lemma books_model j tl md : books j tl → books (set_model md j) tl.
Proof. intros [B1 B2 B3 [V1 V2]]. split; [done..|]. by split. Qed.

Lemma journal_on_model j ext H tl md :
  books j tl → model_inv md (stored_refs (jn_entries j) ⊎ ext) ({[+ md_current md +]} ⊎ H) →
  slots_of md (md_current md) (tl_now tl) → md_commit_sink md = true →
  journal_at (set_model md j) ext H tl.
Proof. intros [B1 B2 B3 [V1 V2]] I S Es. split; split; done. Qed.

Lemma model_inv_refs md ext ext' H : model_inv md ext H → ext = ext' → model_inv md ext' H.
Proof. by intros I <-. Qed.

(** Only the assertion on a copied reference stops a merge. *)
Definition asserts {A} (c : ST W failure A) : Prop := ∀ w w' e, c w = (w', Err e) → e = OutOfBounds.

Lemma asserts_ret {A} (a : A) : asserts (mret a).
Proof. by intros w w' e [=]. Qed.

Lemma asserts_bind {A B} (c : ST W failure A) (f : A → ST W failure B) :
  asserts c → (∀ a, asserts (f a)) → asserts (mbind f c).
Proof.
  intros Hc Hf w w' e. unfold mbind, ST_bind. destruct (c w) as [w1 [a|e1]] eqn:E; [apply Hf|].
  intros [= <- <-]. by eapply Hc.
Qed.

Lemma asserts_copy o : asserts (copy_record o).
Proof.
  intros w w' e. destruct o as [i|]; cbn; [|done]. destruct (rh_retain (records, i) w) as [w1 [|]]; [done|].
  by intros [= _ <-].
Qed.

Lemma asserts_merge_edit fe base : asserts (merge_edit fe base).
Proof.
  induction base as [|be base IH]; cbn.
  - do 2 (apply asserts_bind; [apply asserts_copy|intros]). apply asserts_ret.
  - destruct (ed_object be =? ed_object fe).
    + apply asserts_bind; [apply asserts_copy|intros]. apply asserts_bind; [done|intros].
      apply asserts_ret.
    + apply asserts_bind; [exact IH|intros]. apply asserts_ret.
Qed.

Lemma asserts_coalesce base follow : asserts (coalesce_entries base follow).
Proof.
  apply asserts_bind; [|intros; apply asserts_ret]. generalize (en_objects base) as l.
  induction (en_objects follow) as [|fe edits IH]; intros l; [apply asserts_ret|].
  apply asserts_bind; [apply asserts_merge_edit|intros; apply IH].
Qed.

Lemma on_commit_err e j j' err : on_commit record_size e j = (j', Err err) → err = OutOfBounds.
Proof.
  unfold on_commit. destruct (folds e j) as [tip|]; [|done].
  unfold fold_tip, on_heap, mbind, ST_bind.
  destruct (coalesce_entries (sd_entry tip) e (md_heap (jn_model j))) as [w [merged|e1]] eqn:E; [done|].
  intros [= _ <-]. by eapply asserts_coalesce.
Qed.

Lemma destroy_sink md tn : md_commit_sink (destroy md tn) = md_commit_sink md.
Proof. unfold destroy. by rewrite unpin_commit_sink. Qed.

Lemma commit_sink_kept md tn md' tn' st entry :
  commit md tn = (md', tn', st, entry) → md_commit_sink md' = md_commit_sink md.
Proof.
  unfold commit. destruct (tn_open tn); cbn [negb]; [|by intros [= <- _ _ _]].
  destruct (tn_status tn); [|by intros [= <- _ _ _]].
  destruct (if md_commit_sink md then _ else _) as [w [edits|e]]; intros [= <- _ _ _]; [|done].
  by rewrite publish_flush_sink.
Qed.

(** [commit], on a journaled document, up to the transaction's destructor. *)
Lemma commit_to_journal_spec j tn ext H tl j' x :
  books j tl → md_commit_sink (jn_model j) = true →
  txn_open (tl_now tl) (stored_refs (jn_entries j) ⊎ ext) ({[+ md_current (jn_model j) +]} ⊎ H)
    (jn_model j) tn →
  tn_open tn = true → tn_base tn = md_current (jn_model j) →
  commit_to_journal record_size tn j = (j', x) →
  match x with
  | Ok _ => ∃ folded m, (folded = true → tl_past tl ≠ []) ∧ ∃ n, (1 ≤ n)%nat ∧
      journal_at j' ext H (keeps_past n (tl_commit folded m tl)) ∧
      versions_same (jn_model j) (jn_model j') H
  | Err e => e = OutOfBounds ∨ journal_at j' ext H tl ∧ versions_same (jn_model j) (jn_model j') H
  end.
Proof.
  intros B Hsink It Ho Eb. pose proof (to_base _ _ _ _ _ It) as Hnow. rewrite Eb in Hnow.
  unfold commit_to_journal.
  destruct (commit (jn_model j) tn) as [[[md tn'] st] entry] eqn:Ec.
  destruct (commit_spec _ _ _ _ _ _ _ _ _ It Ho Ec) as [Eb' Hst]. rewrite Eb in Eb', Hst.
  pose proof (commit_sink_kept _ _ _ _ _ _ Ec) as Es. rewrite Hsink in Es, Hst.
  destruct st as [[]|e].
  - destruct Hst as (m & Hen & Hk & Im & Sm & _ & K). destruct entry as [e|]; [|done].
    destruct Hen as [_ Hstep]. cbn [entry_refs] in Im. rewrite holders_swap in Im.
    destruct (on_commit record_size e (set_model md j)) as [j2 [[]|err]] eqn:Eo; intros [= <- <-].
    2:{ left. by eapply on_commit_err. }
    assert (committing (set_model md j) e (opt_one (tn_root tn') ⊎ ext) ({[+ tn_base tn' +]} ⊎ H) tl m) as Hc.
    { destruct B as [B1 B2 B3 _].
      split; cbn [jn_model jn_entries jn_cursor jn_total_cost set_model]; try done.
      - rewrite Eb'. eapply model_inv_refs; [exact Im|multiset_solver].
      - split; [exact B2|]. apply Hk, B2. by left. }
    destruct (on_commit_spec _ _ _ _ _ _ _ _ Hc Eo) as (folded & Hf & n & Hn & I2 & K2 & Ecur & _).
    exists folded, m. split; [exact Hf|]. exists n. split; [exact Hn|].
    pose proof (jc_model _ _ _ _ (ja_core _ _ _ _ I2)) as Im2. rewrite holders_swap in Im2.
    destruct (destroy_spec (jn_model j2) tn' (stored_refs (jn_entries j2) ⊎ ext) ({[+ md_current (jn_model j2) +]} ⊎ H))
      as (I3 & Ec3 & K3); [eapply model_inv_refs; [exact Im2|multiset_solver]|].
    split.
    + apply journal_on_model; [by eapply journal_books|by rewrite Ec3| |].
      * rewrite Ec3. eapply slots_of_same; [exact K3|apply I2].
      * rewrite destroy_sink. apply I2.
    + cbn. eapply versions_same_trans; [eapply versions_same_sub; exact K| |done].
      eapply versions_same_trans; [|eapply versions_same_sub; exact K3|done].
      do 2 eapply versions_same_sub. exact K2.
  - destruct Hst as (-> & Ecur & Im & K). intros [= <- <-]. right. cbn.
    rewrite <- Eb' in Im at 1. destruct (destroy_spec _ _ _ _ Im) as (I3 & Ec3 & K3).
    assert (versions_same (jn_model j) (destroy md tn') ({[+ md_current (jn_model j) +]} ⊎ H)) as K4.
    { eapply versions_same_trans; [eapply versions_same_sub; exact K|exact K3|done]. }
    split; [|by eapply versions_same_sub].
    change (journal_at (set_model (destroy md tn') j) ext H tl).
    apply journal_on_model; [done|by rewrite Ec3, Ecur| |by rewrite destroy_sink].
    rewrite Ec3, Ecur. by eapply slots_of_same.
Qed.
End refinement.

(** A host's use of a document: journaled transactions, undo and redo, and a new budget
    while every entry is applied. *)
Inductive journal_op :=
| OpCommit (name : string) (key : CoalesceKey) (cs : list command)
| OpMove (dir : NavDirection)
| OpBudget (bytes : Z).

Section session.
Context {W : Type} `{!RefHeap W (cell ObjectRecord)}.
Context (record_size : Z).
Implicit Types (md : Model W) (m : vmap) (j : Journal W) (ext : gmultiset ref) (H : gmultiset nat) (tl : Timeline).

(** One operation that ends, refused or not, in anything but a failed assertion. *)
Inductive journal_step : Journal W → Journal W → Prop :=
| js_commit name key cs j j' x : run_journaled record_size name key cs j = (j', x) →
    x ≠ Err OutOfBounds → journal_step j j'
| js_move dir j j' b : step_history dir j = (j', Ok b) → journal_step j j'
| js_budget bytes j : jn_cursor j = length (jn_entries j) → journal_step j (set_byte_budget bytes j).

Lemma run_journaled_spec name key cs j ext H tl j' x :
  journal_at j ext H tl → run_journaled record_size name key cs j = (j', x) → x ≠ Err OutOfBounds →
  ∃ tl', rtc tl_step tl tl' ∧ journal_at j' ext H tl' ∧ versions_same (jn_model j) (jn_model j') H.
Proof.
  intros I E Hx. pose proof I as [[I1 I2 _ _ _ I6] _]. unfold run_journaled in E.
  destruct (transact name (jn_model j)) as [md1 [tn|e]] eqn:Et;
    destruct (transact_spec _ _ _ _ _ _ _ I1 I2 Et) as (K1 & Ec1 & Es1 & Htn).
  2:{ injection E as <- <-. by rewrite Htn in Hx. }
  destruct Htn as [I3 Htn].
  destruct (mutate_all cs md1 tn) as [md2 tn2] eqn:Em.
  destruct (mutate_all_spec _ _ _ _ _ _ _ _ I3 Em) as (I4 & Eo & Hs).
  injection Eo as Ev2 _ Ec2 Es2 _ _ _ _ Eb2 _ Eo2. rewrite Htn in Eb2, Eo2. cbn in Eb2, Eo2.
  assert (versions_same (jn_model j) md2 ({[+ md_current (jn_model j) +]} ⊎ H)) as K2.
  { eapply versions_same_trans; [exact K1|by apply versions_same_heap|done]. }
  assert (txn_open (tl_now tl) (stored_refs (jn_entries (set_model md2 j)) ⊎ ext)
    ({[+ md_current md2 +]} ⊎ H) md2 (coalesce key tn2)) as I5.
  { rewrite Ec2, Ec1. by destruct I4. }
  rewrite <- Ec1, <- Ec2 in Eb2.
  pose proof (commit_to_journal_spec record_size (set_model md2 j) (coalesce key tn2) ext H tl j' x
    (books_model j tl md2 (journal_books _ _ _ _ I)) ltac:(cbn; by rewrite Es2, Es1) I5 Eo2 Eb2 E) as Hs'.
  assert (versions_same (jn_model j) md2 H) as K3 by (by eapply versions_same_sub).
  destruct x as [[]|e].
  - destruct Hs' as (folded & m & Hf & n & Hn & I6' & K6). exists (keeps_past n (tl_commit folded m tl)).
    split; [|split; [done|by eapply versions_same_trans]]. apply rtc_once.
    destruct folded; [apply tl_step_fold; auto|by apply tl_step_commit].
  - destruct Hs' as [->|[I6' K6]]; [done|]. exists tl. split; [done|]. split; [done|].
    by eapply versions_same_trans.
Qed.

Lemma journal_step_spec j ext H tl j' :
  journal_at j ext H tl → journal_step j j' →
  ∃ tl', rtc tl_step tl tl' ∧ journal_at j' ext H tl' ∧ versions_same (jn_model j) (jn_model j') H.
Proof.
  intros I Hs. destruct Hs as [name key cs j j' x E Hx|dir j j' b E|bytes j Htip].
  - by eapply run_journaled_spec.
  - destruct (move_spec _ _ _ _ _ _ _ I E) as (K & _ & Hm).
    destruct (tl_move dir tl) as [tl1|] eqn:Em; [destruct b|destruct Hm as [_ ->]].
    + exists tl1. split; [by apply rtc_once, (tl_step_move dir)|done].
    + by exists tl.
    + by exists tl.
  - destruct (rebudget_spec bytes j ext H tl I Htip) as (n & I' & Hn & K & _).
    exists (keeps_past n tl). split; [by apply rtc_once, tl_step_forget|]. split; [done|].
    by eapply versions_same_sub.
Qed.

Lemma journal_steps_spec j ext H tl j' :
  journal_at j ext H tl → rtc journal_step j j' →
  ∃ tl', rtc tl_step tl tl' ∧ journal_at j' ext H tl' ∧ versions_same (jn_model j) (jn_model j') H.
Proof.
  intros I Hs. revert tl I. induction Hs as [j|j j1 j2 Hs _ IH]; intros tl I.
  { exists tl. split; [done|]. split; [done|]. by intros a _. }
  destruct (journal_step_spec _ _ _ _ _ I Hs) as (tl1 & Hr1 & I1 & K1).
  destruct (IH _ I1) as (tl2 & Hr2 & I2 & K2). exists tl2.
  split; [by etrans|]. split; [done|]. by eapply versions_same_trans.
Qed.

(** A journal over a document that commits to it. *)
Lemma new_journal_at md byte_budget ext H m :
  model_inv md ext ({[+ md_current md +]} ⊎ H) → slots_of md (md_current md) m → keys_u64 m →
  md_commit_sink md = true → journal_at (new_journal md byte_budget) ext H (mkTimeline [] m []).
Proof.
  intros I S Hk Es. split; split; cbn; try done.
  - eapply model_inv_refs; [exact I|]. by rewrite (left_id_L ∅ (⊎)).
  - by exists [], [].
  - intros m' [->|[Hm|Hm]]; [done|by apply not_elem_of_nil in Hm..].
Qed.


(** what a host's interface may offer.  An undo is offered exactly when there is a
    past, and a redo never when there is no future; one there is goes unoffered only at
    a cursor the published word saturates at.  Up to that bound depth and cursor read
    back exactly, and the rows are the entries' names and costs in order. *)
Theorem published_affordances j ext H tl (I : journal_at j ext H tl) :
  (can_undo j = true ↔ tl_past tl ≠ []) ∧
  (can_redo j = true ↔ tl_future tl ≠ [] ∧ Z.of_nat (jn_cursor j) < k_published_max) ∧
  (Z.of_nat (length (jn_entries j)) ≤ k_published_max →
     depth j = Z.of_nat (length (jn_entries j)) ∧ cursor j = Z.of_nat (jn_cursor j)) ∧
  history j = map row_of (jn_entries j).
Proof.
  destruct I as [Ic [Vp Vh]]. pose proof (jc_line _ _ _ _ Ic) as Hl.
  pose proof (on_line_past _ _ _ Hl) as Ep. pose proof (on_line_length _ _ _ Hl) as El.
  unfold can_undo, can_redo, depth, cursor. rewrite Vp.
  destruct (pack_halves (Z.of_nat (jn_cursor j)) (Z.of_nat (length (jn_entries j)))) as [-> ->]; [lia..|].
  assert (tl_past tl ≠ [] ↔ (0 < jn_cursor j)%nat) as ->.
  { rewrite <- Ep. destruct (tl_past tl); cbn; [split; [done|lia]|split; [lia|done]]. }
  assert (tl_future tl ≠ [] ↔ (jn_cursor j < length (jn_entries j))%nat) as ->.
  { rewrite El, <- Ep. destruct (tl_future tl); cbn; [split; [done|lia]|split; [lia|done]]. }
  rewrite !Z.ltb_lt. unfold clamp, k_published_max.
  split; [|split; [|split; [|done]]]; repeat case_match; rewrite ?Z.ltb_lt, ?Z.ltb_ge in *; lia.
Qed.
End session.

Section corollaries.
Context {W : Type} `{!RefHeap W (cell ObjectRecord)}.
Implicit Types (j : Journal W) (ext : gmultiset ref) (H : gmultiset nat) (tl : Timeline).

Definition opposite (dir : NavDirection) : NavDirection :=
  match dir with Undo => Redo | Redo => Undo end.

Lemma tl_move_opposite dir tl tl' : tl_move dir tl = Some tl' → tl_move (opposite dir) tl' = Some tl.
Proof.
  destruct tl as [past now future], dir; unfold tl_move, tl_back, tl_forth; cbn;
    [destruct past|destruct future]; by intros [= <-].
Qed.

(** C8: an undo and a redo, or a redo and an undo, cancel: the document is bound again
    to the very slots it was bound to, the same steps lead on from it, and the entries,
    the cursor and the published word are those from before. *)
Theorem undo_redo_roundtrip dir j ext H tl j1 j2
  (I : journal_at j ext H tl) (E1 : step_history dir j = (j1, Ok true))
  (E2 : step_history (opposite dir) j1 = (j2, Ok true)) :
  journal_at j2 ext H tl ∧ slots_of (jn_model j2) (md_current (jn_model j2)) (tl_now tl) ∧
  jn_entries j2 = jn_entries j ∧ jn_cursor j2 = jn_cursor j ∧ jn_published j2 = jn_published j ∧
  versions_same (jn_model j) (jn_model j2) H.
Proof.
  destruct (move_spec _ _ _ _ _ _ _ I E1) as (K1 & Ee1 & I1).
  destruct (tl_move dir tl) as [tl1|] eqn:Em; [|by destruct I1].
  destruct (move_spec _ _ _ _ _ _ _ I1 E2) as (K2 & Ee2 & I2).
  rewrite (tl_move_opposite _ _ _ Em) in I2.
  assert (jn_cursor j2 = jn_cursor j) as Ec.
  { rewrite <- (on_line_past _ _ _ (jc_line _ _ _ _ (ja_core _ _ _ _ I2))).
    apply (on_line_past _ _ _ (jc_line _ _ _ _ (ja_core _ _ _ _ I))). }
  split; [done|]. split; [apply I2|]. split; [by rewrite Ee2|]. split; [done|].
  split; [|by eapply versions_same_trans].
  rewrite (vw_published _ (ja_view _ _ _ _ I2)), (vw_published _ (ja_view _ _ _ _ I)), Ec, Ee2, Ee1. done.
Qed.

(** C18: re-budgeting a history whose every entry is applied keeps the present and a
    stretch of the past that reaches back from it without a gap and, unless there was no
    past, does not vanish; it holds the byte cost to the budget or the history to one
    entry; and it frees nothing a version still shows. *)
Theorem set_byte_budget_trims bytes j ext H tl
  (I : journal_at j ext H tl) (Htip : jn_cursor j = length (jn_entries j)) :
  let j' := set_byte_budget bytes j in
  ∃ n, journal_at j' ext H (keeps_past n tl) ∧ (tl_past tl ≠ [] → (1 ≤ n)%nat) ∧
    (jn_total_cost j' ≤ bytes ∨ (length (jn_entries j') ≤ 1)%nat) ∧
    versions_same (jn_model j) (jn_model j') H.
Proof.
  destruct (rebudget_spec bytes j ext H tl I Htip) as (n & I' & Hn & K & Hb).
  exists n. split; [done|]. split; [done|]. split; [done|]. by eapply versions_same_sub.
Qed.

End corollaries.

(** ** Witnesses *)

#[local] Instance demo_journal_heap : RefHeap (Heap Z (cell ObjectRecord)) (cell ObjectRecord) :=
  heap_ref_heap demo_acquire 0%nat [nodes; records].

Notation demo_run := (fun key cs j => (run_journaled 152 "edit" key cs j).1).

(** An empty document; a content and a layer added; then its opacity set twice, in one
    gesture. *)
Definition demo_journal0 : Journal (Heap Z (cell ObjectRecord)) := new_journal demo_document k_no_budget.
Definition demo_journal1 := demo_run 0 [CAddContent 7; CAddLayer 1 Affine_identity d_one] demo_journal0.
Definition demo_journal2 := demo_run 5 [CSetOpacity 2 d_zero] demo_journal1.
Definition demo_journal3 := demo_run 5 [CSetOpacity 2 d_one] demo_journal2.
Definition demo_journal4 := (step_history Undo demo_journal3).1.
Definition demo_journal5 := (step_history (opposite Undo) demo_journal4).1.


Lemma demo_journal_at : journal_at demo_journal0 ∅ ∅ (mkTimeline [] ∅ []).
Proof.
  destruct demo_document_inv as [I S]. by apply new_journal_at.
Qed.

Lemma demo_committed key cs j :
  (run_journaled 152 "edit" key cs j).2 = Ok tt → journal_step 152 j (demo_run key cs j).
Proof.
  intros E. apply (js_commit 152 "edit" key cs j (demo_run key cs j) (run_journaled 152 "edit" key cs j).2).
  - by destruct (run_journaled _ _ _ _ _).
  - by rewrite E.
Qed.

Lemma demo_moved dir j : (step_history dir j).2 = Ok true → journal_step 152 j (step_history dir j).1.
Proof. intros E. apply (js_move 152 dir j _ true). rewrite <- E. by destruct (step_history dir j). Qed.

Lemma demo_gesture : rtc (journal_step 152) demo_journal0 demo_journal3.
Proof.
  eapply rtc_l; [apply (demo_committed 0 [CAddContent 7; CAddLayer 1 Affine_identity d_one]); vm_compute; reflexivity|].
  eapply rtc_l; [apply (demo_committed 5 [CSetOpacity 2 d_zero]); vm_compute; reflexivity|].
  apply rtc_once. apply (demo_committed 5 [CSetOpacity 2 d_one]). vm_compute. reflexivity.
Qed.


Lemma pair_second {A B} (x : A * B) b : x.2 = b → x = (x.1, b).
Proof. destruct x. by intros <-. Qed.

Lemma undo_redo_roundtrip_witness :
  jn_published demo_journal5 = jn_published demo_journal3 ∧ jn_entries demo_journal5 = jn_entries demo_journal3.
Proof.
  destruct (journal_steps_spec 152 _ _ _ _ _ demo_journal_at demo_gesture) as (tl & _ & I & _).
  assert ((step_history Undo demo_journal3).2 = Ok true) as E1 by (vm_compute; reflexivity).
  assert ((step_history (opposite Undo) (step_history Undo demo_journal3).1).2 = Ok true) as E2 by (vm_compute; reflexivity).
  unfold demo_journal5, demo_journal4.
  destruct (undo_redo_roundtrip Undo demo_journal3 ∅ ∅ tl _ _ I (pair_second _ _ E1) (pair_second _ _ E2))
    as (_ & _ & Ee & _ & Ep & _).
  exact (conj Ep Ee).
Defined.

Lemma set_byte_budget_trims_witness :
  jn_total_cost (set_byte_budget 0 demo_journal3) ≤ 0 ∨ (length (jn_entries (set_byte_budget 0 demo_journal3)) ≤ 1)%nat.
Proof.
  destruct (journal_steps_spec 152 _ _ _ _ _ demo_journal_at demo_gesture) as (tl & _ & I & _).
  destruct (set_byte_budget_trims 0 demo_journal3 ∅ ∅ tl I) as (n & _ & _ & Hb & _).
  - vm_compute. reflexivity.
  - exact Hb.
Defined.

Definition expected_value {E A} (x : expected E A) : option A :=
  match x with Ok a => Some a | Err _ => None end.

(** The two stored entries, merged. *)
Lemma two_steps s1 s2 tl :
  on_line [s1; s2] 2 tl →
  ∃ m0 m1 m2, records_step (en_objects (sd_entry s1)) m0 m1 ∧ records_step (en_objects (sd_entry s2)) m1 m2.
Proof.
  intros (applied & redoable & E & El & Hb & _).
  destruct applied as [|a2 [|a1 [|]]]; try discriminate El. cbn in E.
  destruct redoable; [|discriminate E]. injection E as -> ->.
  destruct (tl_past tl) as [|m1 [|m0 past]]; cbn in Hb; [done|by destruct Hb|].
  destruct Hb as (H2 & H1 & _). by exists m0, m1, (tl_now tl).
Qed.

Lemma two_entries_refs (X : gmultiset ref) s1 s2 :
  X ⊎ (stored_refs [s1; s2] ⊎ ∅) =
  edit_refs (en_objects (sd_entry s1)) ⊎ (edit_refs (en_objects (sd_entry s2)) ⊎ X).
Proof. cbn [stored_refs foldr]. multiset_solver. Qed.

Lemma coalesce_composes_witness :
  match jn_entries demo_journal3 with
  | [s1; s2] =>
      match coalesce_entries (sd_entry s1) (sd_entry s2) (md_heap (jn_model demo_journal3)) with
      | (_, Ok merged) => ∃ m0 m2, records_step (en_objects merged) m0 m2
      | _ => False
      end
  | _ => False
  end.
Proof.
  destruct (journal_steps_spec 152 _ _ _ _ _ demo_journal_at demo_gesture) as (tl & _ & I & _).
  pose proof (mi_heap _ _ _ (jc_model _ _ _ _ (ja_core _ _ _ _ I))) as Ih.
  pose proof (jc_line _ _ _ _ (ja_core _ _ _ _ I)) as Hl.
  assert (jn_cursor demo_journal3 = 2%nat) as Ec by (vm_compute; reflexivity).
  assert (match jn_entries demo_journal3 with
    | [s1; s2] => bool_decide (is_Some (expected_value
        (coalesce_entries (sd_entry s1) (sd_entry s2) (md_heap (jn_model demo_journal3))).2))
    | _ => false end = true) as Ek by (vm_compute; reflexivity).
  rewrite Ec in Hl. destruct (jn_entries demo_journal3) as [|s1 [|s2 [|]]]; try discriminate Ek.
  destruct (coalesce_entries (sd_entry s1) (sd_entry s2) (md_heap (jn_model demo_journal3)))
    as [w [merged|e]] eqn:E; [|discriminate Ek].
  destruct (two_steps _ _ _ Hl) as (m0 & m1 & m2 & H1 & H2). exists m0, m2.
  refine (proj1 (coalesce_composes (sd_entry s1) (sd_entry s2) m0 m1 m2 _
    (version_refs (md_versions (jn_model demo_journal3))) w merged _ H1 H2 E)).
  exact (rh_inv_eq _ _ _ Ih (two_entries_refs _ s1 s2)).
Defined.

Definition demo_rewound := (undo demo_journal4).1.
Definition demo_shrunk := set_byte_budget 0 demo_rewound.
Definition demo_binds (j : Journal (Heap Z (cell ObjectRecord))) (id : ObjectId) : expected failure (option SlotIndex) :=
  hamt_lookup (md_heap (jn_model j)) (vn_root (version_of (md_current (jn_model j)) (jn_model j))) id.

(** a budget lowered while entries are undone drops entries that are still to be
    redone: [trim] takes the front entry for an applied one.  Rewound to the empty
    document and re-budgeted, the journal redoes the second edit alone, which binds a
    layer whose content is nowhere; and an undo from there does not lead back to the
    empty document. *)
Theorem budget_drops_redoable_entries :
  map (demo_binds demo_rewound) [1; 2] = [Ok None; Ok None] ∧
  (length (jn_entries demo_rewound), jn_cursor demo_rewound) = (2%nat, 0%nat) ∧
  (length (jn_entries demo_shrunk), jn_cursor demo_shrunk) = (1%nat, 0%nat) ∧
  (redo demo_shrunk).2 = Ok true ∧
  map (demo_binds (redo demo_shrunk).1) [1; 2] = [Ok None; Ok (Some 8)] ∧
  map (demo_binds (undo (redo demo_shrunk).1).1) [1; 2] = [Ok None; Ok (Some 2)].
Proof. vm_compute. repeat split; reflexivity. Qed.
