(* ===== verification/WorkspaceFile.v ===== *)
(** The workspace file: [src/src/pool/arbc/pool/workspace_file.hpp] and
    [workspace_file.cpp], the mapped file behind the slot stores.

    The header region -- fixed fields, chunk directory, two store-table snapshots -- is
    an [image], the value of each field by its file offset, zero where nothing was
    written: what the mapping shows and, after a crash, what the disk kept.  Operations
    leave the [trace] of what they did to the file, for [Checkpoint] to replay against a
    disk that writes pages back when it likes.  The operating system is a parameter: [os]
    answers the n-th call with an errno or a value (a mapped address, where one is
    returned).  The platform is POSIX. *)

From S2P Require Import Prelude SlotStore.

Local Open Scope Z_scope.

(** ** Errors *)

Inductive WorkspaceFileErrc :=
  Unsupported | OpenFailed | HeaderIoFailed | BadMagic | UnsupportedFormat | GrowFailed
| DirectoryFull | StoreLayoutMismatch | MaxStoresExceeded | StoreDirectoryInconsistent.

Record WorkspaceFileError := mkFileError { fe_code : WorkspaceFileErrc; fe_errno : Z }.

(** ** The file's fields *)

Definition image : Type := Z → Z.
Definition blank : image := fun _ => 0.
Definition store_field (off v : Z) (img : image) : image := fun o => if o =? off then v else img o.

Definition sizeof_header : Z := 112.
Definition sizeof_chunk_entry : Z := 24.
Definition sizeof_store_entry : Z := 16.
Definition sizeof_snapshot : Z := 8.

Definition k_workspace_magic : Z := 0x4642535743425241.
Definition k_workspace_format_major : Z := 3.
Definition k_workspace_format_minor : Z := 0.
Definition k_workspace_default_max_chunks : Z := 16384.
Definition k_workspace_default_max_stores : Z := 16.
Definition k_workspace_no_owner : Z := 2 ^ 32 - 1.
Definition k_workspace_chunk_free : Z := 0.
Definition k_workspace_chunk_live : Z := 1.

(** [WorkspaceHeader]'s members. *)
Definition at_magic : Z := 0.
Definition at_format_major : Z := 8.
Definition at_format_minor : Z := 12.
Definition at_page_size : Z := 16.
Definition at_max_chunks : Z := 20.
Definition at_data_offset : Z := 24.
Definition at_chunk_count : Z := 32.
Definition at_root_slot (ab : Z) : Z := if ab =? 0 then 40 else 48.
Definition at_store_table_offset : Z := 56.
Definition at_max_stores : Z := 64.

(** [directory()[i]] and its members. *)
Definition at_entry (i : Z) : Z := sizeof_header + i * sizeof_chunk_entry.

Record WorkspaceChunkEntry := mkEntry { ce_offset : Z; ce_size : Z; ce_state : Z; ce_owner : Z }.

Definition read_entry (img : image) (i : Z) : WorkspaceChunkEntry :=
  mkEntry (img (at_entry i)) (img (at_entry i + 8)) (img (at_entry i + 16)) (img (at_entry i + 20)).

Record WorkspaceStoreEntry := mkRow { se_stride : Z; se_align : Z; se_chunk_slots : Z; se_high_water : Z }.

(** What a source knows of its file's geometry. *)
Record Layout := mkLayout {
  lo_page : Z; lo_max_chunks : Z; lo_data_offset : Z; lo_store_table_offset : Z; lo_max_stores : Z }.

(** [store_snapshot] and [store_table]. *)
Definition at_snapshot (lo : Layout) (ab : Z) : Z := lo_store_table_offset lo + ab * lo_page lo.
Definition at_row (lo : Layout) (ab r : Z) : Z := at_snapshot lo ab + sizeof_snapshot + r * sizeof_store_entry.

Definition read_row (lo : Layout) (ab r : Z) (img : image) : WorkspaceStoreEntry :=
  let o := at_row lo ab r in mkRow (img o) (img (o + 4)) (img (o + 8)) (img (o + 12)).

(** ** The source *)

(** A mapped chunk: [LiveChunk], and [ReopenedChunk] with its base. *)
Record LiveChunk := mkLiveChunk { lc_offset : Z; lc_size : Z; lc_index : Z }.
Record ReopenedChunk := mkReopened { rp_base : Z; rp_chunk : LiveChunk }.

(** What was done to the file. *)
Inductive action :=
| AStore (off v : Z)
| AMsync (off len : Z)
| ATruncate (len : Z)
| APunch (off len : Z).

(** [src_reopened] and [src_store_reopened] are what the cursors leave of the queues. *)
Record Source := mkSource {
  src_layout : Layout;
  src_map : image;
  src_next_offset : Z;
  src_chunk_count : Z;
  src_live : gmap Z LiveChunk;               (* by mapped address *)
  src_reopened : list ReopenedChunk;
  src_views : list bool;
  src_store_reopened : list (list ReopenedChunk);
  src_restored : list WorkspaceStoreEntry;
  src_bind_error : option WorkspaceFileError;
  src_last_error : option WorkspaceFileError;
  src_from_file : bool;
  src_adopted : bool;
  src_fenced : bool;
  src_calls : nat;
  src_trace : list action }.                 (* latest first *)

Definition set_file (img : image) (trace : list action) (s : Source) : Source :=
  mkSource (src_layout s) img (src_next_offset s) (src_chunk_count s) (src_live s) (src_reopened s)
    (src_views s) (src_store_reopened s) (src_restored s) (src_bind_error s) (src_last_error s)
    (src_from_file s) (src_adopted s) (src_fenced s) (src_calls s) trace.
Definition count_call (s : Source) : Source :=
  mkSource (src_layout s) (src_map s) (src_next_offset s) (src_chunk_count s) (src_live s) (src_reopened s)
    (src_views s) (src_store_reopened s) (src_restored s) (src_bind_error s) (src_last_error s)
    (src_from_file s) (src_adopted s) (src_fenced s) (S (src_calls s)) (src_trace s).
Definition set_extent (next count : Z) (s : Source) : Source :=
  mkSource (src_layout s) (src_map s) next count (src_live s) (src_reopened s)
    (src_views s) (src_store_reopened s) (src_restored s) (src_bind_error s) (src_last_error s)
    (src_from_file s) (src_adopted s) (src_fenced s) (src_calls s) (src_trace s).
Definition set_chunks (live : gmap Z LiveChunk) (reopened : list ReopenedChunk)
    (queues : list (list ReopenedChunk)) (s : Source) : Source :=
  mkSource (src_layout s) (src_map s) (src_next_offset s) (src_chunk_count s) live reopened
    (src_views s) queues (src_restored s) (src_bind_error s) (src_last_error s)
    (src_from_file s) (src_adopted s) (src_fenced s) (src_calls s) (src_trace s).
Definition set_tables (views : list bool) (restored : list WorkspaceStoreEntry) (adopted : bool)
    (s : Source) : Source :=
  mkSource (src_layout s) (src_map s) (src_next_offset s) (src_chunk_count s) (src_live s) (src_reopened s)
    views (src_store_reopened s) restored (src_bind_error s) (src_last_error s)
    (src_from_file s) adopted (src_fenced s) (src_calls s) (src_trace s).
Definition set_errors (bind last : option WorkspaceFileError) (s : Source) : Source :=
  mkSource (src_layout s) (src_map s) (src_next_offset s) (src_chunk_count s) (src_live s) (src_reopened s)
    (src_views s) (src_store_reopened s) (src_restored s) bind last
    (src_from_file s) (src_adopted s) (src_fenced s) (src_calls s) (src_trace s).
(** [set_release_fence]. *)
Definition set_release_fence (fenced : bool) (s : Source) : Source :=
  mkSource (src_layout s) (src_map s) (src_next_offset s) (src_chunk_count s) (src_live s) (src_reopened s)
    (src_views s) (src_store_reopened s) (src_restored s) (src_bind_error s) (src_last_error s)
    (src_from_file s) (src_adopted s) fenced (src_calls s) (src_trace s).

(** A store through the header mapping. *)
Definition store (off v : Z) (s : Source) : Source :=
  set_file (store_field off v (src_map s)) (AStore off v :: src_trace s) s.

Definition store_all (fields : list (Z * Z)) (s : Source) : Source :=
  foldl (fun s f => store f.1 f.2 s) s fields.

Definition set_last_error (e : WorkspaceFileError) (s : Source) : Source :=
  set_errors (src_bind_error s) (Some e) s.

(** A row, field by field. *)
Definition row_fields (lo : Layout) (ab r : Z) (row : WorkspaceStoreEntry) : list (Z * Z) :=
  let o := at_row lo ab r in
  [(o, se_stride row); (o + 4, se_align row); (o + 8, se_chunk_slots row); (o + 12, se_high_water row)].

Definition unused_row : WorkspaceStoreEntry := mkRow 0 0 0 0.

Section source.
(** The answers of the operating system, call by call. *)
Context (os : nat → expected Z Z).
Implicit Types (s : Source) (lo : Layout) (img : image) (id r ab : Z).

(** One call; a call that succeeds leaves its action. *)
Definition io (act : option action) : ST Source Z Z := fun s =>
  let answer := os (src_calls s) in
  let s := count_call s in
  (match answer, act with
   | Ok _, Some a => set_file (src_map s) (a :: src_trace s) s
   | _, _ => s
   end, answer).

(** *** The store table *)

Definition table_row ab r s : WorkspaceStoreEntry := read_row (src_layout s) ab r (src_map s).
Definition rows s : list Z := seqZ 0 (lo_max_stores (src_layout s)).

Definition store_id (slot_stride slot_align : Z) s : Z :=
  match list_find (fun r => se_stride (table_row 0 r s) = slot_stride ∧
                            se_align (table_row 0 r s) = slot_align) (rows s) with
  | Some (_, r) => r
  | None => k_workspace_no_owner
  end.

Definition publish_store_high_water ab id (high_water : Z) s : Source :=
  store (at_row (src_layout s) ab id + 12) high_water s.

Definition snapshot_generation ab s : Z := src_map s (at_snapshot (src_layout s) ab).
Definition publish_snapshot_generation ab (generation : Z) s : Source :=
  store (at_snapshot (src_layout s) ab) generation s.

Definition root_slot ab s : Z := src_map s (at_root_slot ab).
Definition publish_root_slot ab (value : Z) s : Source := store (at_root_slot ab) value s.

(** [store_view]'s scan: the row of the size class, else the first free one. *)
Fixpoint find_row (slot_stride slot_align : Z) s (rs : list Z) (free_row : option Z) : option Z * option Z :=
  match rs with
  | [] => (None, free_row)
  | r :: rs =>
      let row := table_row 0 r s in
      if se_stride row =? 0
      then find_row slot_stride slot_align s rs (match free_row with None => Some r | _ => free_row end)
      else if (se_stride row =? slot_stride) && (se_align row =? slot_align) then (Some r, free_row)
      else find_row slot_stride slot_align s rs free_row
  end.

Definition refuse (code : WorkspaceFileErrc) s : Source * expected WorkspaceFileError Z :=
  (set_errors (Some (mkFileError code 0)) (src_last_error s) s, Err (mkFileError code 0)).

Definition bind_view r s : Source :=
  set_tables (<[Z.to_nat r := true]> (src_views s)) (src_restored s) (src_adopted s) s.

(** The view is its row. *)
Definition store_view (slot_stride slot_align chunk_slots : Z) : ST Source WorkspaceFileError Z := fun s =>
  let lo := src_layout s in
  if lo_max_stores lo =? 0 then refuse Unsupported s
  else if src_from_file s && negb (src_adopted s) then refuse StoreDirectoryInconsistent s
  else
    match find_row slot_stride slot_align s (rows s) None with
    | (Some r, _) =>
        if negb (se_chunk_slots (table_row 0 r s) =? chunk_slots) then refuse StoreLayoutMismatch s
        else
          let a := mkRow slot_stride slot_align chunk_slots (se_high_water (table_row 0 r s)) in
          let b := mkRow slot_stride slot_align chunk_slots (se_high_water (table_row 1 r s)) in
          let s := store_all (row_fields lo 0 r a ++ row_fields lo 1 r b) s in
          (bind_view r s, Ok r)
    | (None, None) => refuse MaxStoresExceeded s
    | (None, Some r) =>
        let row := mkRow slot_stride slot_align chunk_slots 0 in
        let s := store_all (row_fields lo 0 r row ++ row_fields lo 1 r row) s in
        let s := set_tables (src_views s) (<[Z.to_nat r := row]> (src_restored s)) (src_adopted s) s in
        (bind_view r s, Ok r)
    end.

(** *** Chunks *)

(** [d_live.emplace]. *)
Definition emplace (base : Z) (c : LiveChunk) (live : gmap Z LiveChunk) : gmap Z LiveChunk :=
  match live !! base with Some _ => live | None => <[base := c]> live end.

Definition grow (size owner : Z) : ST Source PoolError ChunkSpan := fun s =>
  let lo := src_layout s in
  if lo_max_chunks lo <=? src_chunk_count s
  then (set_last_error (mkFileError DirectoryFull 0) s, Err OutOfMemory)
  else
    let rounded := align_up (if size =? 0 then 1 else size) (lo_page lo) in
    let offset := src_next_offset s in
    let new_end := u64 (offset + rounded) in
    match io (Some (ATruncate new_end)) s with
    | (s, Err e) => (set_last_error (mkFileError GrowFailed e) s, Err OutOfMemory)
    | (s, Ok _) =>
        match io None s with
        | (s, Err e) => (set_last_error (mkFileError GrowFailed e) s, Err OutOfMemory)
        | (s, Ok base) =>
            let index := src_chunk_count s in
            let o := at_entry index in
            let s := store_all [(o, offset); (o + 8, rounded); (o + 16, k_workspace_chunk_live); (o + 20, owner)] s in
            let s := set_extent new_end (u32 (index + 1)) s in
            let s := store at_chunk_count (src_chunk_count s) s in
            (set_chunks (emplace base (mkLiveChunk offset rounded index) (src_live s))
               (src_reopened s) (src_store_reopened s) s, Ok (mkSpan base rounded))
        end
    end.

(** A queue serves its chunks first. *)
Definition serve (c : ReopenedChunk) (reopened : list ReopenedChunk) (queues : list (list ReopenedChunk)) s :
    Source * expected PoolError ChunkSpan :=
  (set_chunks (emplace (rp_base c) (rp_chunk c) (src_live s)) reopened queues s,
   Ok (mkSpan (rp_base c) (lc_size (rp_chunk c)))).

Definition acquire (size : Z) : ST Source PoolError ChunkSpan := fun s =>
  match src_reopened s with
  | c :: rest => serve c rest (src_store_reopened s) s
  | [] => grow size k_workspace_no_owner s
  end.

Definition acquire_for id (size : Z) : ST Source PoolError ChunkSpan := fun s =>
  match src_store_reopened s !! Z.to_nat id with
  | Some (c :: rest) => serve c (src_reopened s) (<[Z.to_nat id := rest]> (src_store_reopened s)) s
  | _ => grow size id s
  end.

(** A punch that fails is noted; the entry is cleared either way. *)
Definition punch_now (c : LiveChunk) s : Source :=
  let s := match io (Some (APunch (lc_offset c) (lc_size c))) s with
           | (s, Err e) => set_last_error (mkFileError GrowFailed e) s
           | (s, Ok _) => s
           end in
  store (at_entry (lc_index c) + 16) k_workspace_chunk_free s.

(** [release]; with a fence installed the chunk is handed to it. *)
Definition release (base : Z) s : Source * option LiveChunk :=
  match src_live s !! base with
  | None => (s, None)
  | Some c =>
      let s := set_chunks (delete base (src_live s)) (src_reopened s) (src_store_reopened s) s in
      if src_fenced s then (s, Some c) else (punch_now c s, None)
  end.

(** *** Adoption *)

Definition max_align : Z := 16.

(** Chunks a store needs for its recorded mark. *)
Definition chunks_needed (row : WorkspaceStoreEntry) : Z :=
  if (se_stride row =? 0) || (se_high_water row =? 0) then 0
  else (se_high_water row - 1) / se_chunk_slots row + 1.

Definition power_of_two (z : Z) : bool := negb (z =? 0) && (Z.land z (z - 1) =? 0).

(** The first loop's verdict on one row over its queue. *)
Definition check_row (row : WorkspaceStoreEntry) (queue : list ReopenedChunk) : option WorkspaceFileErrc :=
  if se_stride row =? 0 then
    if negb (se_align row =? 0) || negb (se_chunk_slots row =? 0) || negb (se_high_water row =? 0)
    then Some StoreDirectoryInconsistent else None
  else if negb (power_of_two (se_chunk_slots row)) || (Z.shiftl 1 12 <? se_chunk_slots row) ||
          (se_align row <? max_align) || negb (Z.land (se_align row) (se_align row - 1) =? 0) ||
          negb (se_stride row mod se_align row =? 0)
  then Some StoreLayoutMismatch
  else if Z.of_nat (length queue) <? chunks_needed row then Some StoreDirectoryInconsistent
  else None.

Fixpoint check_rows (table : list WorkspaceStoreEntry) (queues : list (list ReopenedChunk)) :
    option WorkspaceFileErrc :=
  match table, queues with
  | row :: table, queue :: queues =>
      match check_row row queue with Some e => Some e | None => check_rows table queues end
  | _, _ => None
  end.

(** [discard_reopened] down a list. *)
Definition discard_all (chunks : list ReopenedChunk) s : Source :=
  foldl (fun s c => punch_now (rp_chunk c) s) s chunks.

(** The second loop: what lies above the mark is punched. *)
Fixpoint trim_queues (table : list WorkspaceStoreEntry) (queues : list (list ReopenedChunk)) s :
    Source * list (list ReopenedChunk) :=
  match table, queues with
  | row :: table, queue :: queues =>
      let keep := Z.to_nat (chunks_needed row) in
      let s := discard_all (drop keep queue) s in
      let '(s, rest) := trim_queues table queues s in
      (s, take keep queue :: rest)
  | _, _ => (s, queues)
  end.

Definition adopt_snapshot ab : ST Source WorkspaceFileError unit := fun s =>
  let table := map (fun r => table_row ab r s) (rows s) in
  let s := set_tables (src_views s) table (src_adopted s) s in
  match check_rows table (src_store_reopened s) with
  | Some e => (s, Err (mkFileError e 0))
  | None =>
      let '(s, queues) := trim_queues table (src_store_reopened s) s in
      let s := set_chunks (src_live s) (src_reopened s) queues s in
      (set_tables (src_views s) table true s, Ok tt)
  end.

(** *** Creating and opening *)

(** The geometry of a fresh file. *)
Definition fresh_layout (page max_chunks max_stores : Z) : expected WorkspaceFileError Layout :=
  let max_chunks := if max_chunks =? 0 then k_workspace_default_max_chunks else max_chunks in
  let max_stores := if max_stores =? 0 then k_workspace_default_max_stores else max_stores in
  let directory_bytes := u64 (max_chunks * sizeof_chunk_entry) in
  let snapshot_bytes := u64 (sizeof_snapshot + u64 (max_stores * sizeof_store_entry)) in
  if page <? snapshot_bytes then Err (mkFileError MaxStoresExceeded 0)
  else
    let table := align_up (u64 (sizeof_header + directory_bytes)) page in
    Ok (mkLayout page max_chunks (u64 (table + u64 (2 * page))) table max_stores).

Definition header_fields (lo : Layout) : list (Z * Z) :=
  [(at_magic, k_workspace_magic); (at_format_major, k_workspace_format_major);
   (at_format_minor, k_workspace_format_minor); (at_page_size, u32 (lo_page lo));
   (at_max_chunks, lo_max_chunks lo); (at_data_offset, lo_data_offset lo); (at_chunk_count, 0);
   (at_root_slot 0, 0); (at_root_slot 1, 0); (at_store_table_offset, lo_store_table_offset lo);
   (at_max_stores, lo_max_stores lo)].

(** [init_store_directory] in a new source. *)
Definition new_source lo img (next count : Z) (from_file : bool) (calls : nat) : Source :=
  let n := Z.to_nat (lo_max_stores lo) in
  mkSource lo img next count ∅ [] (replicate n false) (replicate n []) (replicate n unused_row)
    None None from_file false false calls [].

Definition create (page_query max_chunks max_stores : Z) : expected WorkspaceFileError Source :=
  let page := if 0 <? page_query then page_query else 4096 in
  lo ← fresh_layout page max_chunks max_stores;
  match os 0%nat with
  | Err e => Err (mkFileError OpenFailed e)
  | Ok _ =>
      match os 1%nat, os 2%nat with
      | Ok _, Ok _ =>
          Ok (store_all (header_fields lo) (new_source lo blank (lo_data_offset lo) 0 false 3))
      | Err e, _ => Err (mkFileError HeaderIoFailed e)
      | _, Err e => Err (mkFileError HeaderIoFailed e)
      end
  end.

(** The header's own validation, in the order of the tests. *)
Definition check_header img : expected WorkspaceFileError Layout :=
  let bad code := Err (mkFileError code 0) in
  let page := if img at_page_size =? 0 then 4096 else img at_page_size in
  let directory_end := u64 (sizeof_header + u64 (img at_max_chunks * sizeof_chunk_entry)) in
  let max_rows_per_page := u64 (page - sizeof_snapshot) / sizeof_store_entry in
  let table := img at_store_table_offset in
  if negb (img at_magic =? k_workspace_magic) then bad BadMagic
  else if negb (img at_format_major =? k_workspace_format_major) then bad UnsupportedFormat
  else if (page <=? sizeof_snapshot) || (img at_max_stores =? 0) ||
     (max_rows_per_page <? img at_max_stores) || negb (table mod page =? 0) ||
     (table <? directory_end) || (img at_data_offset <? table) ||
     (img at_data_offset - table <? u64 (2 * page))
  then bad HeaderIoFailed
  else if img at_max_chunks <? img at_chunk_count then bad HeaderIoFailed
  else Ok (mkLayout page (img at_max_chunks) (img at_data_offset) table (img at_max_stores)).

(** One directory entry of the reopening loop. *)
Definition reopen_entry (file_size i : Z) : ST Source WorkspaceFileError unit := fun s =>
  let e := read_entry (src_map s) i in
  let stop := u64 (ce_offset e + ce_size e) in
  let s := set_extent (Z.max (src_next_offset s) stop) (src_chunk_count s) s in
  if negb (ce_state e =? k_workspace_chunk_live) then (s, Ok tt)
  else if negb (ce_owner e =? k_workspace_no_owner) && (lo_max_stores (src_layout s) <=? ce_owner e)
  then (s, Err (mkFileError StoreDirectoryInconsistent 0))
  else if file_size <? stop then (s, Err (mkFileError HeaderIoFailed 0))
  else
    match io None s with
    | (s, Err err) => (s, Err (mkFileError HeaderIoFailed err))
    | (s, Ok base) =>
        let c := mkReopened base (mkLiveChunk (ce_offset e) (ce_size e) i) in
        if ce_owner e =? k_workspace_no_owner
        then (set_chunks (src_live s) (src_reopened s ++ [c]) (src_store_reopened s) s, Ok tt)
        else (set_chunks (src_live s) (src_reopened s)
                (alter (fun q => q ++ [c]) (Z.to_nat (ce_owner e)) (src_store_reopened s)) s, Ok tt)
    end.

Fixpoint reopen_entries (file_size : Z) (entries : list Z) : ST Source WorkspaceFileError unit :=
  match entries with
  | [] => mret tt
  | i :: entries => _ ← reopen_entry file_size i; reopen_entries file_size entries
  end.

(** [open] of a file whose header region holds [img]. *)
Definition open img (file_size : Z) : expected WorkspaceFileError Source :=
  match os 0%nat with
  | Err e => Err (mkFileError OpenFailed e)
  | Ok _ =>
      match os 1%nat with
      | Err e => Err (mkFileError HeaderIoFailed e)
      | Ok _ =>
          if file_size <? sizeof_header then Err (mkFileError HeaderIoFailed 0)
          else
            lo ← check_header img;
            match os 2%nat with
            | Err e => Err (mkFileError HeaderIoFailed e)
            | Ok _ =>
                if file_size <? lo_data_offset lo then Err (mkFileError HeaderIoFailed 0)
                else
                  match os 3%nat with
                  | Err e => Err (mkFileError HeaderIoFailed e)
                  | Ok _ =>
                      let s := new_source lo img (lo_data_offset lo) (img at_chunk_count) true 4 in
                      match reopen_entries file_size (seqZ 0 (src_chunk_count s)) s with
                      | (s, Ok _) => Ok s
                      | (_, Err e) => Err e
                      end
                  end
            end
      end
  end.

(** *** Syncing *)

Fixpoint sync_chunks (chunks : list LiveChunk) (synced : Z) : ST Source WorkspaceFileError Z := fun s =>
  match chunks with
  | [] => (s, Ok synced)
  | c :: chunks =>
      match io (Some (AMsync (lc_offset c) (lc_size c))) s with
      | (s, Err e) => (set_last_error (mkFileError HeaderIoFailed e) s, Err (mkFileError HeaderIoFailed e))
      | (s, Ok _) => sync_chunks chunks (synced + 1) s
      end
  end.

Definition sync_data : ST Source WorkspaceFileError Z := fun s =>
  sync_chunks (map_to_list (src_live s)).*2 0 s.

Definition sync_header : ST Source WorkspaceFileError unit := fun s =>
  match io (Some (AMsync 0 (lo_data_offset (src_layout s)))) s with
  | (s, Err e) => (set_last_error (mkFileError HeaderIoFailed e) s, Err (mkFileError HeaderIoFailed e))
  | (s, Ok _) => (s, Ok tt)
  end.
End source.

(** ** Chunks by owner *)

(** The live chunks the directory of [img] gives [owner], in its order. *)
Definition owned_entry (img : image) (owner i : Z) : option LiveChunk :=
  let e := read_entry img i in
  if (ce_state e =? k_workspace_chunk_live) && (ce_owner e =? owner)
  then Some (mkLiveChunk (ce_offset e) (ce_size e) i) else None.
Definition chunks_of (img : image) (owner : Z) : list LiveChunk :=
  omap (owned_entry img owner) (seqZ 0 (img at_chunk_count)).

(** A reopened source's queues. *)
Definition queue_of (s : Source) (owner : Z) : list ReopenedChunk :=
  if owner =? k_workspace_no_owner then src_reopened s
  else default [] (src_store_reopened s !! Z.to_nat owner).

Definition an_owner (lo : Layout) (owner : Z) : Prop :=
  owner = k_workspace_no_owner ∨ 0 <= owner < lo_max_stores lo.

Section routing.
Context (os : nat → expected Z Z).
Implicit Types (s : Source) (owner i : Z) (img : image).

(** One entry goes to the back of its owner's queue. *)
Lemma reopen_entry_routes file_size i s s' : lo_max_stores (src_layout s) < k_workspace_no_owner →
  length (src_store_reopened s) = Z.to_nat (lo_max_stores (src_layout s)) →
  0 <= ce_owner (read_entry (src_map s) i) →
  reopen_entry os file_size i s = (s', Ok tt) →
  src_map s' = src_map s ∧ src_layout s' = src_layout s ∧
  length (src_store_reopened s') = length (src_store_reopened s) ∧
  ∀ owner, an_owner (src_layout s) owner →
    map rp_chunk (queue_of s' owner) =
    map rp_chunk (queue_of s owner) ++ option_list (owned_entry (src_map s) owner i).
Proof.
  intros Hmax Hlen H0. unfold reopen_entry. cbv zeta. cbn [src_map set_extent src_layout].
  unfold owned_entry. cbv zeta. set (e := read_entry (src_map s) i) in *. clearbody e.
  destruct (Z.eqb_spec (ce_state e) k_workspace_chunk_live) as [Hlive|Hdead]; cbn [negb andb].
  2: { intros [= <-]. do 3 (split; [done|]). intros owner _. cbn. by rewrite app_nil_r. }
  set (s1 := set_extent _ _ s).
  assert (∀ s2 v, io os None s1 = (s2, Ok v) →
    src_map s2 = src_map s ∧ src_layout s2 = src_layout s ∧ src_store_reopened s2 = src_store_reopened s ∧
    src_reopened s2 = src_reopened s) as Hio.
  { intros s2 v. unfold io. destruct (os _); [|done]. by intros [= <- <-]. }
  destruct (Z.eqb_spec (ce_owner e) k_workspace_no_owner) as [Ho|Ho]; cbn [negb andb].
  - destruct (_ <? _); [done|]. destruct (io os None s1) as [s2 [base|err]]; [|done].
    destruct (Hio s2 base eq_refl) as (E1 & E2 & E3 & E4). intros [= <-]. cbn. rewrite E1, E2, E3.
    do 3 (split; [done|]). intros owner Hown. unfold queue_of. cbn. rewrite ?E3, ?E4, Ho.
    destruct (Z.eqb_spec owner k_workspace_no_owner) as [->|Hne]; [by rewrite map_app|].
    rewrite (proj2 (Z.eqb_neq _ _)) by lia. by rewrite app_nil_r.
  - destruct (Z.leb_spec (lo_max_stores (src_layout s)) (ce_owner e)) as [|Hlt]; [done|].
    destruct (_ <? _); [done|]. destruct (io os None s1) as [s2 [base|err]]; [|done].
    destruct (Hio s2 base eq_refl) as (E1 & E2 & E3 & E4). intros [= <-]. cbn. rewrite E1, E2, E3, length_alter.
    do 3 (split; [done|]). intros owner Hown. unfold queue_of. cbn. rewrite ?E3, ?E4.
    destruct (Z.eqb_spec owner k_workspace_no_owner) as [->|Hne].
    { rewrite (proj2 (Z.eqb_neq _ _)) by done. by rewrite app_nil_r. }
    destruct Hown as [|Hown]; [done|].
    destruct (Z.eqb_spec (ce_owner e) owner) as [Eo|Hno].
    + rewrite Eo, list_lookup_alter.
      destruct (lookup_lt_is_Some_2 (src_store_reopened s) (Z.to_nat owner)) as [q Hq]; [lia|].
      rewrite decide_True, Hq by done. cbn. by rewrite map_app.
    + rewrite list_lookup_alter_ne by lia. by rewrite app_nil_r.
Qed.

Lemma reopen_entries_route file_size entries : ∀ s s', lo_max_stores (src_layout s) < k_workspace_no_owner →
  length (src_store_reopened s) = Z.to_nat (lo_max_stores (src_layout s)) →
  (∀ i, i ∈ entries → 0 <= ce_owner (read_entry (src_map s) i)) →
  reopen_entries os file_size entries s = (s', Ok tt) →
  src_map s' = src_map s ∧ src_layout s' = src_layout s ∧
  ∀ owner, an_owner (src_layout s) owner →
    map rp_chunk (queue_of s' owner) = map rp_chunk (queue_of s owner) ++ omap (owned_entry (src_map s) owner) entries.
Proof.
  induction entries as [|i entries IH]; intros s s' Hmax Hlen H0.
  { intros [= <-]. split; [done|]. split; [done|]. intros owner _. by rewrite app_nil_r. }
  cbn [reopen_entries]. unfold mbind, ST_bind.
  destruct (reopen_entry os file_size i s) as [s1 [[]|e]] eqn:E; [|done]. intros E2.
  destruct (reopen_entry_routes _ _ _ _ Hmax Hlen (H0 i (list_elem_of_here _ _)) E) as (M & L & Ln & R).
  destruct (IH s1 s') as (M2 & L2 & R2); rewrite ?L, ?M, ?Ln in *; try done.
  { intros j Hj. apply H0. by right. }
  rewrite M2, L2. split; [done|]. split; [done|]. intros owner Ho. rewrite R2, R by done. cbn.
  rewrite <- app_assoc. f_equal. by destruct (owned_entry (src_map s) owner i).
Qed.

(** a reopened file gives each store back its chunks and no other's, in directory
    order: after [open] the queue of a row, and the untagged one, list exactly the live
    entries of that owner. *)
Theorem reopen_routes_chunks img file_size lo s owner :
  check_header img = Ok lo → lo_max_stores lo < k_workspace_no_owner →
  (∀ i, 0 <= i < img at_chunk_count → 0 <= ce_owner (read_entry img i)) → an_owner lo owner →
  open os img file_size = Ok s →
  src_map s = img ∧ map rp_chunk (queue_of s owner) = chunks_of img owner.
Proof.
  intros Hh Hmax H0 Ho. unfold open. destruct (os 0%nat); [|done]. destruct (os 1%nat); [|done].
  destruct (_ <? _); [done|]. rewrite Hh. cbn [mbind expected_bind]. destruct (os 2%nat); [|done].
  destruct (_ <? _); [done|]. destruct (os 3%nat); [|done].
  set (s0 := new_source _ _ _ _ _ _).
  destruct (reopen_entries os file_size _ s0) as [s1 [[]|e]] eqn:E; [|done]. intros [= <-].
  assert (∀ i, i ∈ seqZ 0 (src_chunk_count s0) → 0 <= ce_owner (read_entry (src_map s0) i)) as H0'.
  { intros i Hi%elem_of_seqZ. apply H0. cbn in Hi. lia. }
  destruct (reopen_entries_route _ _ s0 s1 Hmax (length_replicate _ _) H0' E) as (M & L & R).
  split; [exact M|]. rewrite (R owner Ho). unfold queue_of. cbn.
  destruct (Z.eqb_spec owner k_workspace_no_owner) as [|Hne]; [done|]. destruct Ho as [|Ho]; [done|].
  by rewrite lookup_replicate_2 by lia.
Qed.

(** *** Growth appends *)

Lemma store_all_map fields : ∀ s, src_map (store_all fields s) =
  foldl (fun m f => store_field f.1 f.2 m) (src_map s) fields.
Proof. induction fields as [|f fields IH]; intros s; [done|]. apply (IH (store f.1 f.2 s)). Qed.

Lemma fields_elsewhere (fields : list (Z * Z)) o : ∀ m, (∀ f, f ∈ fields → f.1 ≠ o) →
  foldl (fun m f => store_field f.1 f.2 m) m fields o = m o.
Proof.
  induction fields as [|f fields IH]; intros m Hf; [done|]. cbn. rewrite IH by (intros f' Hf'; apply Hf; by right).
  unfold store_field. destruct (Z.eqb_spec o f.1) as [E|]; [|done]. destruct (Hf f); [left|done].
Qed.

Lemma omap_agree {A B} (f g : A → option B) (l : list A) : (∀ x, x ∈ l → f x = g x) → omap f l = omap g l.
Proof.
  induction l as [|x l IH]; intros Hfg; [done|]. cbn. rewrite (Hfg x) by left.
  by rewrite IH by (intros y Hy; apply Hfg; by right).
Qed.

(** The fields [grow] stores for entry [index]. *)
Definition grown_fields (index offset rounded owner : Z) : list (Z * Z) :=
  [(at_entry index, offset); (at_entry index + 8, rounded); (at_entry index + 16, k_workspace_chunk_live);
   (at_entry index + 20, owner); (at_chunk_count, index + 1)].

Lemma grown_entries img index offset rounded owner i :
  0 <= i → 0 <= index → let img' := foldl (fun m f => store_field f.1 f.2 m) img (grown_fields index offset rounded owner) in
  img' at_chunk_count = index + 1 ∧
  read_entry img' i = if i =? index then mkEntry offset rounded k_workspace_chunk_live owner else read_entry img i.
Proof.
  intros Hi Hx img'.
  assert (∀ o, (∀ f, f ∈ grown_fields index offset rounded owner → f.1 ≠ o) → img' o = img o) as Helse
    by (intros o; apply fields_elsewhere).
  unfold read_entry. unfold at_entry, sizeof_header, sizeof_chunk_entry, at_chunk_count in *.
  split; [reflexivity|].
  destruct (Z.eqb_spec i index) as [->|Hne].
  - unfold img', grown_fields, at_entry, sizeof_header, sizeof_chunk_entry, at_chunk_count. cbn [foldl fst snd].
    unfold store_field. f_equal; repeat (rewrite Z.eqb_refl || rewrite (proj2 (Z.eqb_neq _ _)) by lia); done.
  - f_equal; apply Helse; unfold grown_fields, at_entry, sizeof_header, sizeof_chunk_entry, at_chunk_count;
      intros f Hf; rewrite !elem_of_cons, elem_of_nil in Hf; destruct Hf as [->|[->|[->|[->|[->|[]]]]]]; cbn; lia.
Qed.

(** growth is append-only and tagged: a chunk the file grows by becomes the last of
    its owner's chunks, after every one it had, and no other owner's list changes. *)
Theorem grow_appends size owner s s' span o :
  src_chunk_count s = src_map s at_chunk_count → 0 <= src_chunk_count s → src_chunk_count s + 1 < 2 ^ 32 →
  grow os size owner s = (s', Ok span) →
  src_chunk_count s' = src_map s' at_chunk_count ∧ src_chunk_count s' = src_chunk_count s + 1 ∧
  chunks_of (src_map s') o = chunks_of (src_map s) o ++
    (if owner =? o then [mkLiveChunk (src_next_offset s) (span_size span) (src_chunk_count s)] else []) ∧
  src_live s' = emplace (span_base span) (mkLiveChunk (src_next_offset s) (span_size span) (src_chunk_count s)) (src_live s).
Proof.
  intros Hc H0 Hmax. unfold grow. cbv zeta. destruct (_ <=? _); [done|].
  unfold io at 1. destruct (os (src_calls s)) as [v|e]; [|done].
  unfold io. destruct (os _) as [base|e]; [|done]. intros [= <- <-].
  set (rounded := align_up _ _). set (s' := set_chunks _ _ _ _).
  assert (src_chunk_count s' = u32 (src_chunk_count s + 1)) as Ec by reflexivity.
  assert (src_map s' = foldl (fun m f => store_field f.1 f.2 m) (src_map s)
    [(at_entry (src_chunk_count s), src_next_offset s); (at_entry (src_chunk_count s) + 8, rounded);
     (at_entry (src_chunk_count s) + 16, k_workspace_chunk_live); (at_entry (src_chunk_count s) + 20, owner);
     (at_chunk_count, u32 (src_chunk_count s + 1))]) as Em by reflexivity.
  assert (src_live s' = emplace base (mkLiveChunk (src_next_offset s) rounded (src_chunk_count s)) (src_live s)) as El
    by reflexivity.
  clearbody s'. rewrite u32_small in Ec, Em by (unfold in_u32; lia). fold (grown_fields (src_chunk_count s) (src_next_offset s) rounded owner) in Em.
  pose proof (fun i Hi => grown_entries (src_map s) (src_chunk_count s) (src_next_offset s) rounded owner i Hi H0) as Hg.
  cbv zeta in Hg. rewrite <- Em in Hg. rewrite Ec, (proj1 (Hg 0 ltac:(lia))), El. do 2 (split; [done|]). split; [|done].
  unfold chunks_of. rewrite (proj1 (Hg 0 ltac:(lia))), <- Hc. rewrite seqZ_app by lia. rewrite omap_app. f_equal.
  - apply omap_agree. intros i Hi%elem_of_seqZ. unfold owned_entry. rewrite (proj2 (Hg i ltac:(lia))).
    by rewrite (proj2 (Z.eqb_neq i _)) by lia.
  - rewrite Z.add_0_l. change (seqZ (src_chunk_count s) 1) with [src_chunk_count s].
    cbn [omap list_omap]. unfold owned_entry. rewrite (proj2 (Hg _ H0)), Z.eqb_refl. cbn. by destruct (owner =? o).
Qed.
End routing.

(** Outcomes of demonstrations. *)
Definition ok_or {E A} (d : A) (x : expected E A) : A := match x with Ok a => a | Err _ => d end.
Lemma has_value_ok {E A} (d : A) (x : expected E A) : has_value x = true → x = Ok (ok_or d x).
Proof. by destruct x. Qed.
Lemma pair_of_outcome {A B} (p : A * B) b : p.2 = b → p = (p.1, b).
Proof. destruct p. cbn. by intros ->. Qed.

(** ** Witnesses: three chunks, of rows 0, 1 and 0 *)

Definition sample_os (n : nat) : expected Z Z := Ok (1000 + Z.of_nat n).
Definition sample_layout : Layout := mkLayout 4096 8 12288 4096 4.
Definition sample_source : Source :=
  store_all (header_fields sample_layout) (new_source sample_layout blank 12288 0 false 3).
Definition sample_grown : Source :=
  let s := (acquire_for sample_os 0 1024 sample_source).1 in
  let s := (acquire_for sample_os 1 5000 s).1 in
  (acquire_for sample_os 0 1024 s).1.
Definition sample_img : image := src_map sample_grown.
Definition sample_opened : Source := ok_or sample_source (open sample_os sample_img 28672).

Lemma sample_opens : open sample_os sample_img 28672 = Ok sample_opened.
Proof. apply has_value_ok. vm_compute. reflexivity. Qed.

Lemma sample_count : sample_img at_chunk_count = 3.
Proof. vm_compute. reflexivity. Qed.

Lemma sample_owners i : 0 <= i < sample_img at_chunk_count → 0 <= ce_owner (read_entry sample_img i).
Proof.
  rewrite sample_count. intros Hi. assert (i = 0 ∨ i = 1 ∨ i = 2) as [->|[->| ->]] by lia; vm_compute; discriminate.
Qed.

Lemma sample_header : check_header sample_img = Ok sample_layout.
Proof. vm_compute. reflexivity. Qed.
Lemma sample_chunks : chunks_of sample_img 0 = [mkLiveChunk 12288 4096 0; mkLiveChunk 24576 4096 2].
Proof. vm_compute. reflexivity. Qed.
Lemma sample_owner : an_owner sample_layout 0.
Proof. right. vm_compute. split; [discriminate|reflexivity]. Qed.

Definition sample_next : Source := (grow sample_os 1024 1 sample_grown).1.

Lemma sample_grows : grow sample_os 1024 1 sample_grown = (sample_next, Ok (mkSpan 1010 4096)).
Proof.
  unfold sample_next. apply pair_of_outcome. vm_compute. reflexivity.
Qed.
Lemma sample_grown_count : src_chunk_count sample_grown = 3 ∧ src_next_offset sample_grown = 28672.
Proof. vm_compute. split; reflexivity. Qed.
