(* ===== verification/Checkpoint.v ===== *)
(** The durability protocol: [src/src/pool/arbc/pool/checkpoint.hpp].

    A commit makes the data durable, publishes each store's mark and a generation stamp
    into the snapshot the other root slot owns, flips that slot, and makes the header
    durable; then the fences let go of what was freed before.

    The arena is its stores in order, so a store is its position. *)

From S2P Require Import Prelude SlotStore WorkspaceFile.

Local Open Scope Z_scope.

(** ** Roots *)

Record WorkspaceRoot := mkRoot { rt_generation : Z; rt_index : Z }.

Definition encode_root (root : WorkspaceRoot) : Z :=
  Z.lor (Z.shiftl (rt_generation root) 32) (rt_index root).
Definition decode_root (value : Z) : WorkspaceRoot :=
  mkRoot (u32 (Z.shiftr value 32)) (Z.land value 0xFFFFFFFF).

Record RootSelection := mkSelection { sel_slot : Z; sel_root : WorkspaceRoot; sel_eligible : bool }.

(** The one selection rule: newest first, and only beside its own snapshot. *)
Fixpoint first_eligible (s : Source) (a b : WorkspaceRoot) (slots : list Z) : RootSelection :=
  match slots with
  | [] => mkSelection 0 (mkRoot 0 0) false
  | slot :: slots =>
      let root := if slot =? 0 then a else b in
      if snapshot_generation slot s =? rt_generation root then mkSelection slot root true
      else first_eligible s a b slots
  end.

Definition select_root (s : Source) : RootSelection :=
  let a := decode_root (root_slot 0 s) in
  let b := decode_root (root_slot 1 s) in
  let newest := if rt_generation b <=? rt_generation a then 0 else 1 in
  first_eligible s a b [newest; Z.lxor newest 1].

(** ** The checkpointer *)

(** [DurabilityEpochFence::Entry] and [ChunkEntry]. *)
Record SlotEntry := mkSlotEntry { se_store : nat; se_index : SlotIndex; se_epoch : Z }.
Record ChunkEntry := mkChunkEntry { che_chunk : LiveChunk; che_epoch : Z }.

Record Checkpointer (S : Type) := mkCheckpointer {
  cp_source : Source;
  cp_arena : list (SlotStore S);
  cp_epoch : Z;
  cp_generation : Z;
  cp_durable_epoch : Z;
  cp_next_slot : Z;
  cp_quarantine : list SlotEntry;
  cp_quarantined_total : Z;
  cp_chunk_quarantine : list ChunkEntry;
  cp_registered : list (nat * Z);            (* a store and its row *)
  cp_commit_count : Z; cp_data_msyncs : Z; cp_header_msyncs : Z; cp_slots_freed : Z;
  cp_snap_live : Z; cp_snap_hw : Z; cp_snap_quarantined : Z }.
Arguments mkCheckpointer {S}.
Arguments cp_source {S} c.
Arguments cp_arena {S} c.
Arguments cp_epoch {S} c.
Arguments cp_generation {S} c.
Arguments cp_durable_epoch {S} c.
Arguments cp_next_slot {S} c.
Arguments cp_quarantine {S} c.
Arguments cp_quarantined_total {S} c.
Arguments cp_chunk_quarantine {S} c.
Arguments cp_registered {S} c.
Arguments cp_commit_count {S} c.
Arguments cp_data_msyncs {S} c.
Arguments cp_header_msyncs {S} c.
Arguments cp_slots_freed {S} c.
Arguments cp_snap_live {S} c.
Arguments cp_snap_hw {S} c.
Arguments cp_snap_quarantined {S} c.

Section checkpointer.
Context {S : Type} (os : nat → expected Z Z) (t : thread).
Notation CP := (Checkpointer S).
Implicit Types (cp : CP) (k : nat) (index root_index : SlotIndex) (arena : list (SlotStore S)).

(** [Arena::total_slots_live] and [total_high_water]. *)
Definition total_slots_live arena : Z := foldl (fun total st => u64 (total + s_live st)) 0 arena.
Definition total_high_water arena : Z := foldl (fun total st => u64 (total + s_high_water st)) 0 arena.

Definition set_source (s : Source) cp : CP :=
  mkCheckpointer s (cp_arena cp) (cp_epoch cp) (cp_generation cp) (cp_durable_epoch cp) (cp_next_slot cp)
    (cp_quarantine cp) (cp_quarantined_total cp) (cp_chunk_quarantine cp) (cp_registered cp)
    (cp_commit_count cp) (cp_data_msyncs cp) (cp_header_msyncs cp) (cp_slots_freed cp)
    (cp_snap_live cp) (cp_snap_hw cp) (cp_snap_quarantined cp).
Definition set_arena (arena : list (SlotStore S)) cp : CP :=
  mkCheckpointer (cp_source cp) arena (cp_epoch cp) (cp_generation cp) (cp_durable_epoch cp) (cp_next_slot cp)
    (cp_quarantine cp) (cp_quarantined_total cp) (cp_chunk_quarantine cp) (cp_registered cp)
    (cp_commit_count cp) (cp_data_msyncs cp) (cp_header_msyncs cp) (cp_slots_freed cp)
    (cp_snap_live cp) (cp_snap_hw cp) (cp_snap_quarantined cp).
Definition set_quarantines (slots : list SlotEntry) (total : Z) (chunks : list ChunkEntry) (freed : Z) cp : CP :=
  mkCheckpointer (cp_source cp) (cp_arena cp) (cp_epoch cp) (cp_generation cp) (cp_durable_epoch cp)
    (cp_next_slot cp) slots total chunks (cp_registered cp)
    (cp_commit_count cp) (cp_data_msyncs cp) (cp_header_msyncs cp) freed
    (cp_snap_live cp) (cp_snap_hw cp) (cp_snap_quarantined cp).

Definition is_dirty cp : bool :=
  negb (total_slots_live (cp_arena cp) =? cp_snap_live cp) ||
  negb (total_high_water (cp_arena cp) =? cp_snap_hw cp) ||
  negb (cp_quarantined_total cp =? cp_snap_quarantined cp).

Definition snapshot cp : CP :=
  mkCheckpointer (cp_source cp) (cp_arena cp) (cp_epoch cp) (cp_generation cp) (cp_durable_epoch cp)
    (cp_next_slot cp) (cp_quarantine cp) (cp_quarantined_total cp) (cp_chunk_quarantine cp)
    (cp_registered cp) (cp_commit_count cp) (cp_data_msyncs cp) (cp_header_msyncs cp) (cp_slots_freed cp)
    (total_slots_live (cp_arena cp)) (total_high_water (cp_arena cp)) (cp_quarantined_total cp).

(** The constructor; its assertion is the failure. *)
Definition construct (s : Source) arena : expected failure CP :=
  let selected := select_root s in
  if negb (sel_eligible selected) then Err OutOfBounds
  else
    let generation := rt_generation (sel_root selected) in
    let next := if generation =? 0 then 0 else Z.lxor (sel_slot selected) 1 in
    Ok (snapshot (mkCheckpointer (WorkspaceFile.set_release_fence true s) arena (u32 (generation + 1))
          generation generation next [] 0 [] [] 0 0 0 0 0 0 0)).

(** [DurabilityEpochFence::on_release] and the chunk fence's. *)
Definition on_release k index cp : CP :=
  set_quarantines (cp_quarantine cp ++ [mkSlotEntry k index (cp_epoch cp)])
    (u64 (cp_quarantined_total cp + 1)) (cp_chunk_quarantine cp) (cp_slots_freed cp) cp.
Definition on_chunk_release (c : LiveChunk) cp : CP :=
  set_quarantines (cp_quarantine cp) (cp_quarantined_total cp)
    (cp_chunk_quarantine cp ++ [mkChunkEntry c (cp_epoch cp)]) (cp_slots_freed cp) cp.

(** A slot freed by a store that has the fence installed. *)
Definition release_slot k index cp : CP :=
  match cp_arena cp !! k with
  | None => cp
  | Some st =>
      let '(st, fenced) := SlotStore.release t index st in
      let cp := set_arena (<[k := st]> (cp_arena cp)) cp in
      match fenced with Some i => on_release k i cp | None => cp end
  end.

(** [register_store]. *)
Definition register_store k cp : CP :=
  match cp_arena cp !! k with
  | None => cp
  | Some st =>
      let id := store_id (u32 (s_stride st)) (u32 (s_align st)) (cp_source cp) in
      if (id =? k_workspace_no_owner) || bool_decide (k ∈ (cp_registered cp).*1) then cp
      else
        mkCheckpointer (cp_source cp) (cp_arena cp) (cp_epoch cp) (cp_generation cp) (cp_durable_epoch cp)
          (cp_next_slot cp) (cp_quarantine cp) (cp_quarantined_total cp) (cp_chunk_quarantine cp)
          (cp_registered cp ++ [(k, id)])
          (cp_commit_count cp) (cp_data_msyncs cp) (cp_header_msyncs cp) (cp_slots_freed cp)
          (cp_snap_live cp) (cp_snap_hw cp) (cp_snap_quarantined cp)
  end.

(** [drain_fences]: what the durable epoch covers goes back; the rest is kept in order. *)
Definition drain_slot (e : SlotEntry) cp : CP :=
  if se_epoch e <=? cp_durable_epoch cp
  then set_quarantines (cp_quarantine cp) (cp_quarantined_total cp) (cp_chunk_quarantine cp)
         (u64 (cp_slots_freed cp + 1))
         (set_arena (alter (free_now t (se_index e)) (se_store e) (cp_arena cp)) cp)
  else set_quarantines (cp_quarantine cp ++ [e]) (cp_quarantined_total cp) (cp_chunk_quarantine cp)
         (cp_slots_freed cp) cp.

Definition drain_chunk (e : ChunkEntry) cp : CP :=
  if che_epoch e <=? cp_durable_epoch cp
  then set_source (punch_now os (che_chunk e) (cp_source cp)) cp
  else set_quarantines (cp_quarantine cp) (cp_quarantined_total cp) (cp_chunk_quarantine cp ++ [e])
         (cp_slots_freed cp) cp.

Definition drain_fences cp : CP :=
  let slots := cp_quarantine cp in
  let chunks := cp_chunk_quarantine cp in
  let cp := set_quarantines [] (cp_quarantined_total cp) (cp_chunk_quarantine cp) (cp_slots_freed cp) cp in
  let cp := foldl (fun cp e => drain_slot e cp) cp slots in
  let cp := set_quarantines (cp_quarantine cp) (cp_quarantined_total cp) [] (cp_slots_freed cp) cp in
  foldl (fun cp e => drain_chunk e cp) cp chunks.

(** Step 1 of [commit]. *)
Definition sync_if_dirty : ST CP WorkspaceFileError unit := fun cp =>
  if is_dirty cp then
    match sync_data os (cp_source cp) with
    | (s, Err e) => (set_source s cp, Err e)
    | (s, Ok synced) =>
        (mkCheckpointer s (cp_arena cp) (cp_epoch cp) (cp_generation cp) (cp_durable_epoch cp)
           (cp_next_slot cp) (cp_quarantine cp) (cp_quarantined_total cp) (cp_chunk_quarantine cp)
           (cp_registered cp) (cp_commit_count cp) (u64 (cp_data_msyncs cp + synced)) (cp_header_msyncs cp)
           (cp_slots_freed cp) (cp_snap_live cp) (cp_snap_hw cp) (cp_snap_quarantined cp), Ok tt)
    end
  else (cp, Ok tt).

(** Step 2: the marks, the stamp, the flip. *)
Definition publish_marks (next : Z) arena (registered : list (nat * Z)) (s : Source) : Source :=
  foldl (fun s e =>
    match arena !! e.1 with
    | Some st => publish_store_high_water next e.2 (u32 (s_high_water st)) s
    | None => s
    end) s registered.

Definition publish_root root_index cp : CP :=
  let s := publish_marks (cp_next_slot cp) (cp_arena cp) (cp_registered cp) (cp_source cp) in
  let s := publish_snapshot_generation (cp_next_slot cp) (cp_epoch cp) s in
  set_source (publish_root_slot (cp_next_slot cp) (encode_root (mkRoot (cp_epoch cp) root_index)) s) cp.

(** What follows a durable header. *)
Definition advance cp : CP :=
  let cp := mkCheckpointer (cp_source cp) (cp_arena cp) (cp_epoch cp) (cp_epoch cp) (cp_epoch cp)
              (Z.lxor (cp_next_slot cp) 1) (cp_quarantine cp) (cp_quarantined_total cp)
              (cp_chunk_quarantine cp) (cp_registered cp) (u64 (cp_commit_count cp + 1))
              (cp_data_msyncs cp) (u64 (cp_header_msyncs cp + 1)) (cp_slots_freed cp)
              (cp_snap_live cp) (cp_snap_hw cp) (cp_snap_quarantined cp) in
  let cp := drain_fences cp in
  snapshot (mkCheckpointer (cp_source cp) (cp_arena cp) (u32 (cp_generation cp + 1)) (cp_generation cp)
              (cp_durable_epoch cp) (cp_next_slot cp) (cp_quarantine cp) (cp_quarantined_total cp)
              (cp_chunk_quarantine cp) (cp_registered cp) (cp_commit_count cp)
              (cp_data_msyncs cp) (cp_header_msyncs cp) (cp_slots_freed cp)
              (cp_snap_live cp) (cp_snap_hw cp) (cp_snap_quarantined cp)).

Definition commit root_index : ST CP WorkspaceFileError unit := fun cp =>
  match sync_if_dirty cp with
  | (cp, Err e) => (cp, Err e)
  | (cp, Ok _) =>
      let cp := publish_root root_index cp in
      match sync_header os (cp_source cp) with
      | (s, Err e) => (set_source s cp, Err e)
      | (s, Ok _) => (advance (set_source s cp), Ok tt)
      end
  end.
End checkpointer.

(** ** Opening *)

Record OpenState := mkOpenState {
  os_source : Source; os_root_index : SlotIndex; os_generation : Z; os_valid : bool }.

(** [Checkpointer::open] of a file whose header region holds [img]. *)
Definition open (os : nat → expected Z Z) (img : image) (file_size : Z) : expected WorkspaceFileError OpenState :=
  s ← WorkspaceFile.open os img file_size;
  let chosen := select_root s in
  if negb (sel_eligible chosen) then Err (mkFileError StoreDirectoryInconsistent 0)
  else
    match adopt_snapshot os (sel_slot chosen) s with
    | (_, Err e) => Err e
    | (s, Ok _) =>
        let root := sel_root chosen in
        Ok (mkOpenState s (rt_index root) (rt_generation root) (negb (rt_generation root =? 0)))
    end.
