(* ===== verification/Disk.v ===== *)
(** A disk under the durability protocol: [src/src/pool/arbc/pool/checkpoint.hpp].

    A disk is a pair of images, what the mapping shows and what would survive; pages go
    from the first to the second on an [msync], and whenever the kernel likes ([runs]).  A
    crash leaves the second.  A commit passes through four stages ([at_stage]), each of
    which says what a crash in it resumes; writeback and [calm] actions keep a stage. *)

From S2P Require Import Prelude SlotStore WorkspaceFile Checkpoint.

Local Open Scope Z_scope.

(** ** The disk *)

Record disk := mkDisk { dk_mapped : image; dk_durable : image }.

(** The pages from [first] to [last] reach the disk. *)
Definition flush_pages (page first last : Z) (d : disk) : disk :=
  mkDisk (dk_mapped d)
    (fun o => if (first <=? o / page) && (o / page <=? last) then dk_mapped d o else dk_durable d o).

(** What an action of the program does to the mapping, and to the disk. *)
Definition remap (a : action) (m : image) : image :=
  match a with
  | AStore off v => store_field off v m
  | APunch off len => fun o => if (off <=? o) && (o <? off + len) then 0 else m o
  | AMsync _ _ | ATruncate _ => m
  end.

Definition perform (page : Z) (a : action) (d : disk) : disk :=
  let d := mkDisk (remap a (dk_mapped d)) (dk_durable d) in
  match a with
  | AMsync off len => flush_pages page (off / page) ((off + len - 1) / page) d
  | _ => d
  end.

(** Actions in order, pages written back in between at the kernel's choice. *)
Inductive runs (page : Z) : disk → list action → disk → Prop :=
| runs_done d : runs page d [] d
| runs_action a l d d' : runs page (perform page a d) l d' → runs page d (a :: l) d'
| runs_writeback p l d d' : runs page (flush_pages page p p d) l d' → runs page d l d'.

(** ** Where the fields lie *)

Record layout_ok (lo : Layout) : Prop := {
  lk_page : 0 < lo_page lo;
  lk_power : ∃ k, 0 <= k < 63 ∧ lo_page lo = 2 ^ k;
  lk_table : lo_store_table_offset lo mod lo_page lo = 0;
  lk_directory : 0 <= lo_max_chunks lo ∧ at_entry (lo_max_chunks lo) <= lo_store_table_offset lo;
  lk_snapshots : lo_store_table_offset lo + 2 * lo_page lo <= lo_data_offset lo;
  lk_resident : 0 <= lo_max_stores lo ∧ sizeof_snapshot + lo_max_stores lo * sizeof_store_entry <= lo_page lo }.

Definition is_ab (ab : Z) : Prop := ab = 0 ∨ ab = 1.
Definition other (ab : Z) : Z := Z.lxor ab 1.

(** The page of snapshot [ab]. *)
Definition snapshot_page (lo : Layout) (ab : Z) : Z := lo_store_table_offset lo / lo_page lo + ab.
(** Where snapshot [ab] keeps the mark of row [r]. *)
Definition at_mark (lo : Layout) (ab r : Z) : Z := at_row lo ab r + 12.

Section fields.
Context (lo : Layout) (K : layout_ok lo).
Implicit Types (ab r o : Z).

Lemma other_cases ab : is_ab ab → (ab = 0 ∧ other ab = 1) ∨ (ab = 1 ∧ other ab = 0).
Proof. intros [->| ->]; [left|right]; done. Qed.

Lemma page_in ab k : is_ab ab → 0 <= k < lo_page lo → (at_snapshot lo ab + k) / lo_page lo = snapshot_page lo ab.
Proof.
  intros _ Hk. pose proof (lk_page _ K) as Hp. unfold at_snapshot, snapshot_page.
  pose proof (Z.div_mod (lo_store_table_offset lo) (lo_page lo)) as E. rewrite (lk_table _ K) in E.
  replace (lo_store_table_offset lo + ab * lo_page lo + k)
    with (k + (lo_store_table_offset lo / lo_page lo + ab) * lo_page lo) by lia.
  rewrite Z.div_add by lia. rewrite Z.div_small by lia. lia.
Qed.

Lemma stamp_page ab : is_ab ab → at_snapshot lo ab / lo_page lo = snapshot_page lo ab.
Proof.
  intros Hab. rewrite <- (Z.add_0_r (at_snapshot lo ab)). apply page_in; [done|].
  pose proof (lk_page _ K). lia.
Qed.

Lemma mark_page ab r : is_ab ab → 0 <= r < lo_max_stores lo → at_mark lo ab r / lo_page lo = snapshot_page lo ab.
Proof.
  intros Hab Hr. unfold at_mark, at_row. rewrite <- !Z.add_assoc. apply page_in; [done|].
  pose proof (lk_resident _ K). unfold sizeof_snapshot, sizeof_store_entry in *. lia.
Qed.

(** Roots and directory lie below the snapshots, the data above. *)
Lemma below_page ab o : is_ab ab → 0 <= o < lo_store_table_offset lo → o / lo_page lo < snapshot_page lo ab.
Proof.
  intros Hab Ho. pose proof (lk_page _ K). unfold snapshot_page.
  pose proof (Z.div_mod (lo_store_table_offset lo) (lo_page lo)) as E. rewrite (lk_table _ K) in E.
  assert (o / lo_page lo < lo_store_table_offset lo / lo_page lo); [|destruct Hab; lia].
  apply Z.div_lt_upper_bound; lia.
Qed.

Lemma root_below ab : 0 <= at_root_slot ab < lo_store_table_offset lo.
Proof.
  pose proof (lk_directory _ K). unfold at_entry, sizeof_header, sizeof_chunk_entry in *.
  unfold at_root_slot. destruct (ab =? 0); lia.
Qed.

Lemma root_page ab ab' : is_ab ab' → at_root_slot ab / lo_page lo < snapshot_page lo ab'.
Proof. intros Hab. by apply below_page, root_below. Qed.

Lemma snapshot_bounds ab k : is_ab ab → 0 <= k < lo_page lo →
  lo_store_table_offset lo <= at_snapshot lo ab + k < lo_data_offset lo.
Proof. intros Hab Hk. pose proof (lk_snapshots _ K). unfold at_snapshot. destruct Hab as [->| ->]; lia. Qed.

Lemma mark_in_snapshot ab r : 0 <= r < lo_max_stores lo →
  ∃ k, at_mark lo ab r = at_snapshot lo ab + k ∧ sizeof_snapshot <= k < lo_page lo.
Proof.
  intros Hr. pose proof (lk_resident _ K). exists (sizeof_snapshot + r * sizeof_store_entry + 12).
  unfold at_mark, at_row, sizeof_snapshot, sizeof_store_entry in *. lia.
Qed.

Lemma stamp_not_mark ab ab' r : is_ab ab → is_ab ab' → 0 <= r < lo_max_stores lo →
  at_snapshot lo ab ≠ at_mark lo ab' r.
Proof.
  intros Hab Hab' Hr E. destruct (mark_in_snapshot ab' r Hr) as (k & Ek & Hk).
  pose proof (stamp_page ab Hab) as E1. rewrite E, (mark_page ab' r Hab' Hr) in E1.
  unfold snapshot_page, sizeof_snapshot in *. assert (ab = ab') as -> by lia. lia.
Qed.

Lemma mark_inj ab ab' r r' : is_ab ab → is_ab ab' → 0 <= r < lo_max_stores lo → 0 <= r' < lo_max_stores lo →
  at_mark lo ab r = at_mark lo ab' r' → ab = ab' ∧ r = r'.
Proof.
  intros Hab Hab' Hr Hr' E. pose proof (mark_page ab r Hab Hr) as E1.
  rewrite E, (mark_page ab' r' Hab' Hr') in E1. unfold snapshot_page in E1.
  assert (ab = ab') as <- by lia. unfold at_mark, at_row, sizeof_store_entry in E. lia.
Qed.

Lemma stamp_inj ab ab' : is_ab ab → is_ab ab' → at_snapshot lo ab = at_snapshot lo ab' → ab = ab'.
Proof.
  intros Hab Hab' E. pose proof (stamp_page ab Hab) as E1. rewrite E, (stamp_page ab' Hab') in E1.
  unfold snapshot_page in E1. lia.
Qed.
End fields.

Lemma root_slot_inj ab ab' : is_ab ab → is_ab ab' → at_root_slot ab = at_root_slot ab' → ab = ab'.
Proof. intros [->| ->] [->| ->]; done. Qed.

(** A root fits in its 64 bits. *)
Lemma decode_encode g i : in_u32 g → in_u32 i → decode_root (encode_root (mkRoot g i)) = mkRoot g i.
Proof.
  intros Hg Hi. unfold decode_root, encode_root. cbn [rt_generation rt_index].
  assert (Z.shiftr (Z.lor (Z.shiftl g 32) i) 32 = g) as E1.
  { apply Z.bits_inj'. intros n Hn. rewrite Z.shiftr_spec, Z.lor_spec, Z.shiftl_spec by lia.
    replace (n + 32 - 32) with n by lia. rewrite (testbit_above i 32) by (done || lia). apply orb_false_r. }
  rewrite E1, u32_small by done. f_equal.
  change 0xFFFFFFFF with (Z.ones 32). apply Z.bits_inj'. intros n Hn.
  rewrite Z.land_spec, Z.lor_spec, Z.shiftl_spec, Z.testbit_ones_nonneg by lia.
  destruct (Z.ltb_spec n 32) as [H32|H32].
  - rewrite (Z.testbit_neg_r g) by lia. by rewrite andb_true_r.
  - rewrite andb_false_r. symmetry. by apply (testbit_above i 32).
Qed.

(** ** The stages of a commit, as the disk sees them *)

(** What a reopen of the image would select. *)
Definition select_image (lo : Layout) (img : image) : RootSelection :=
  select_root (new_source lo img 0 0 true 0).

(** It resumes root [root] of generation [g], beside a snapshot recording the marks [H]. *)
Definition resumes (lo : Layout) (img : image) (g root : Z) (H : Z → Z) : Prop :=
  ∃ slot, select_image lo img = mkSelection slot (mkRoot g root) true ∧
    (0 < g → is_ab slot ∧ ∀ r, 0 <= r < lo_max_stores lo → img (at_mark lo slot r) = H r).

(** Settled: between commits.  Stamped: the marks and their stamp are in the mapping.
    Flipped: so is the root.  Durable: the header msync has returned. *)
Inductive stage := Settled | Stamped | Flipped | Durable.

Section stages.
Context (lo : Layout) (K : layout_ok lo).
Context (next g root root' : Z) (H H' : Z → Z).
Context (Hnext : is_ab next) (Hg : 0 <= g < 2 ^ 32 - 1) (Hroot : in_u32 root) (Hroot' : in_u32 root').
Context (Hfresh : g = 0 → root = 0).
Implicit Types (img m : image) (d : disk) (a : action) (o p q v : Z) (st : stage).

Notation old_slot := (other next).

Definition holds_old img : Prop :=
  decode_root (img (at_root_slot old_slot)) = mkRoot g root ∧ img (at_snapshot lo old_slot) = g ∧
  ∀ r, 0 <= r < lo_max_stores lo → img (at_mark lo old_slot r) = H r.

Definition older img : Prop :=
  rt_generation (decode_root (img (at_root_slot next))) < g ∨ (g = 0 ∧ img (at_root_slot next) = 0).
Definition flipped img : Prop := img (at_root_slot next) = encode_root (mkRoot (g + 1) root').
Definition marked img : Prop := ∀ r, 0 <= r < lo_max_stores lo → img (at_mark lo next r) = H' r.
Definition stamped img : Prop := img (at_snapshot lo next) = g + 1.

Definition at_stage st d : Prop :=
  let m := dk_mapped d in let u := dk_durable d in
  holds_old m ∧ holds_old u ∧
  match st with
  | Settled => older m ∧ older u ∧ ¬ stamped m ∧ ¬ stamped u
  | Stamped => older m ∧ older u ∧ (stamped m ∧ marked m) ∧ (stamped u → marked u)
  | Flipped => flipped m ∧ (older u ∨ flipped u) ∧ (stamped m ∧ marked m) ∧ (stamped u → marked u)
  | Durable => flipped m ∧ flipped u ∧ (stamped m ∧ marked m) ∧ (stamped u ∧ marked u)
  end.

Lemma old_slot_ab : is_ab old_slot.
Proof. destruct (other_cases next Hnext) as [[_ ->]|[_ ->]]; [by right|by left]. Qed.

Lemma slots_differ : next ≠ old_slot.
Proof. destruct (other_cases next Hnext) as [[-> ->]|[-> ->]]; done. Qed.

(** *** Writeback keeps a stage *)

Lemma flush_field page p q d o :
  dk_durable (flush_pages page p q d) o = dk_durable d o ∨
  dk_durable (flush_pages page p q d) o = dk_mapped d o.
Proof. cbn. destruct (_ && _); auto. Qed.

Lemma flush_old p q d : holds_old (dk_mapped d) → holds_old (dk_durable d) →
  holds_old (dk_durable (flush_pages (lo_page lo) p q d)).
Proof.
  intros (M1 & M2 & M3) (U1 & U2 & U3). split_and!.
  - destruct (flush_field (lo_page lo) p q d (at_root_slot old_slot)) as [->| ->]; done.
  - destruct (flush_field (lo_page lo) p q d (at_snapshot lo old_slot)) as [->| ->]; done.
  - intros r Hr. destruct (flush_field (lo_page lo) p q d (at_mark lo old_slot r)) as [->| ->]; auto.
Qed.

(** A snapshot goes to the disk with its stamp or not at all. *)
Lemma flush_snapshot p q d :
  (stamped (dk_mapped d) → marked (dk_mapped d)) → (stamped (dk_durable d) → marked (dk_durable d)) →
  stamped (dk_durable (flush_pages (lo_page lo) p q d)) → marked (dk_durable (flush_pages (lo_page lo) p q d)).
Proof.
  intros Hm Hu. unfold stamped, marked. cbn. rewrite (stamp_page lo K next Hnext).
  destruct (_ && _) eqn:E; intros Hs r Hr; rewrite (mark_page lo K next r Hnext Hr), E;
    [by apply Hm|by apply Hu].
Qed.

Lemma flush_stage st p q d : at_stage st d → at_stage st (flush_pages (lo_page lo) p q d).
Proof.
  intros (M & U & Hst). split; [done|]. split; [by apply flush_old|].
  destruct st; destruct Hst as (H1 & H2 & H3 & H4); cbn [dk_mapped flush_pages].
  - split; [done|]. split; [|split; [done|]].
    + unfold older. destruct (flush_field (lo_page lo) p q d (at_root_slot next)) as [->| ->]; done.
    + unfold stamped. destruct (flush_field (lo_page lo) p q d (at_snapshot lo next)) as [->| ->]; done.
  - split; [done|]. split; [|split; [done|]].
    + unfold older. destruct (flush_field (lo_page lo) p q d (at_root_slot next)) as [->| ->]; done.
    + apply flush_snapshot; [intros _; apply H3|done].
  - split; [done|]. split; [|split; [done|]].
    + unfold older, flipped. destruct (flush_field (lo_page lo) p q d (at_root_slot next)) as [->| ->]; auto.
    + apply flush_snapshot; [intros _; apply H3|done].
  - split; [done|]. split; [|split; [done|]].
    + unfold flipped. destruct (flush_field (lo_page lo) p q d (at_root_slot next)) as [->| ->]; done.
    + assert (stamped (dk_durable (flush_pages (lo_page lo) p q d))) as Hs.
      { unfold stamped. destruct (flush_field (lo_page lo) p q d (at_snapshot lo next)) as [->| ->];
          [apply H4|apply H3]. }
      split; [done|]. revert Hs. apply flush_snapshot; intros _; [apply H3|apply H4].
Qed.

(** *** Actions elsewhere in the file keep a stage *)

(** The fields a stage speaks of. *)
Definition protected st o : Prop :=
  (∃ ab, is_ab ab ∧ (o = at_root_slot ab ∨ o = at_snapshot lo ab)) ∨
  (∃ r, 0 <= r < lo_max_stores lo ∧ o = at_mark lo old_slot r) ∨
  (st ≠ Settled ∧ ∃ r, 0 <= r < lo_max_stores lo ∧ o = at_mark lo next r).

(** A store elsewhere, or of what is there. *)
Definition quiet st m a : Prop :=
  match a with
  | AStore o v => protected st o → m o = v
  | APunch o _ => lo_data_offset lo <= o
  | AMsync _ _ | ATruncate _ => True
  end.

Fixpoint calm st m (l : list action) : Prop :=
  match l with
  | [] => True
  | a :: l => quiet st m a ∧ calm st (remap a m) l
  end.

(** The mapping's protected fields decide. *)
Lemma stage_mapped st m m' u :
  at_stage st (mkDisk m u) → (∀ o, protected st o → m' o = m o) → at_stage st (mkDisk m' u).
Proof.
  intros ((M1 & M2 & M3) & U & Hst) E. pose proof old_slot_ab as Hold.
  assert (∀ ab, is_ab ab → m' (at_root_slot ab) = m (at_root_slot ab)) as Er.
  { intros ab Hab. apply E. left. eauto. }
  assert (∀ ab, is_ab ab → m' (at_snapshot lo ab) = m (at_snapshot lo ab)) as Es.
  { intros ab Hab. apply E. left. eauto. }
  assert (st ≠ Settled → marked m → marked m') as Em.
  { intros Hne Hm r Hr. rewrite E; [by apply Hm|]. right. right. eauto. }
  split; [|split; [done|]].
  - cbn. split_and!; [by rewrite Er|by rewrite Es|]. intros r Hr. rewrite E; [by apply M3|]. right. left. eauto.
  - destruct st; cbn in *; unfold older, flipped, stamped in *; rewrite ?Er, ?Es by done;
      naive_solver.
Qed.

Lemma protected_below st o : protected st o → 0 <= o < lo_data_offset lo.
Proof.
  clear Hg. pose proof (lk_snapshots _ K) as Hs. pose proof (lk_page _ K) as Hp. pose proof (root_below lo K 0) as H0.
  intros [(ab & Hab & [->| ->])|[(r & Hr & ->)|(_ & r & Hr & ->)]].
  - pose proof (root_below lo K ab). lia.
  - pose proof (snapshot_bounds lo K ab 0 Hab). rewrite Z.add_0_r in *. lia.
  - destruct (mark_in_snapshot lo K old_slot r Hr) as (k & -> & Hk). unfold sizeof_snapshot in Hk.
    pose proof (snapshot_bounds lo K old_slot k old_slot_ab). lia.
  - destruct (mark_in_snapshot lo K next r Hr) as (k & -> & Hk). unfold sizeof_snapshot in Hk.
    pose proof (snapshot_bounds lo K next k Hnext). lia.
Qed.

Lemma quiet_stage st a d : quiet st (dk_mapped d) a → at_stage st d → at_stage st (perform (lo_page lo) a d).
Proof.
  destruct d as [m u], a as [o v|o len|len|o len]; cbn [quiet perform remap dk_mapped dk_durable];
    intros Hq Hd; [|by apply flush_stage|done|].
  - apply (stage_mapped st m); [done|]. intros o' Ho'. unfold store_field.
    destruct (Z.eqb_spec o' o) as [->|]; [|done]. symmetry. by apply Hq.
  - apply (stage_mapped st m); [done|]. intros o' Ho'. cbn. pose proof (protected_below st o' Ho').
    rewrite (proj2 (Z.leb_gt o o')) by lia. done.
Qed.

Lemma perform_mapped page a d : dk_mapped (perform page a d) = remap a (dk_mapped d).
Proof. by destruct a. Qed.

Lemma runs_stage st d l d' :
  runs (lo_page lo) d l d' → calm st (dk_mapped d) l → at_stage st d → at_stage st d'.
Proof.
  induction 1 as [d|a l d d' Hr IH|p l d d' Hr IH]; intros Hl Hd; [done| |].
  - destruct Hl as [Ha Hl]. apply IH; [by rewrite perform_mapped|by apply quiet_stage].
  - apply IH; [done|]. by apply flush_stage.
Qed.

Lemma calm_app st l1 : ∀ m l2, calm st m (l1 ++ l2) ↔ calm st m l1 ∧ calm st (foldl (fun m a => remap a m) m l1) l2.
Proof.
  clear. induction l1 as [|a l1 IH]; intros m l2; cbn; [tauto|]. rewrite IH. tauto.
Qed.

Lemma calm_all st l : (∀ m a, a ∈ l → quiet st m a) → ∀ m, calm st m l.
Proof.
  induction l as [|a l IH]; intros Hl m; [done|]. split; [apply Hl; left|].
  apply IH. intros m' a' Ha'. apply Hl. by right.
Qed.

(** *** From stage to stage *)

Lemma stamp_stage d :
  at_stage Settled d → marked (dk_mapped d) →
  at_stage Stamped (perform (lo_page lo) (AStore (at_snapshot lo next) (g + 1)) d).
Proof.
  destruct d as [m u]. intros (M & U & O1 & O2 & S1 & S2) Hm. pose proof old_slot_ab as Hold.
  cbn [dk_mapped dk_durable perform remap] in *.
  assert (∀ ab, store_field (at_snapshot lo next) (g + 1) m (at_root_slot ab) = m (at_root_slot ab)) as Er.
  { intros ab. unfold store_field. destruct (Z.eqb_spec (at_root_slot ab) (at_snapshot lo next)) as [E|]; [|done].
    pose proof (root_page lo K ab next Hnext). rewrite E, (stamp_page lo K next Hnext) in *. lia. }
  assert (∀ ab r, is_ab ab → 0 <= r < lo_max_stores lo →
    store_field (at_snapshot lo next) (g + 1) m (at_mark lo ab r) = m (at_mark lo ab r)) as Em.
  { intros ab r Hab Hr. unfold store_field.
    destruct (Z.eqb_spec (at_mark lo ab r) (at_snapshot lo next)) as [E|]; [|done].
    by destruct (stamp_not_mark lo K next ab r Hnext Hab Hr). }
  split; [|split; [done|]]; cbn [dk_mapped dk_durable].
  - destruct M as (M1 & M2 & M3). split_and!; [by rewrite Er| |].
    + unfold store_field. destruct (Z.eqb_spec (at_snapshot lo old_slot) (at_snapshot lo next)) as [E|]; [|done].
      by destruct slots_differ; apply (stamp_inj lo K).
    + intros r Hr. rewrite Em by done. by apply M3.
  - split; [unfold older; by rewrite Er|]. split; [done|]. split; [|done].
    split; [unfold stamped, store_field; by rewrite Z.eqb_refl|].
    intros r Hr. rewrite Em by done. by apply Hm.
Qed.

Lemma flip_stage d :
  at_stage Stamped d →
  at_stage Flipped (perform (lo_page lo) (AStore (at_root_slot next) (encode_root (mkRoot (g + 1) root'))) d).
Proof.
  destruct d as [m u]. intros (M & U & O1 & O2 & [S1 S2] & S3). pose proof old_slot_ab as Hold.
  cbn [dk_mapped dk_durable perform remap] in *. set (v := encode_root _).
  assert (∀ o, (∃ ab, is_ab ab ∧ o / lo_page lo = snapshot_page lo ab) →
    store_field (at_root_slot next) v m o = m o) as Ef.
  { intros o (ab & Hab & Ho). unfold store_field. destruct (Z.eqb_spec o (at_root_slot next)) as [->|]; [|done].
    pose proof (root_page lo K next ab Hab). lia. }
  assert (∀ ab, is_ab ab → store_field (at_root_slot next) v m (at_snapshot lo ab) = m (at_snapshot lo ab)) as Es.
  { intros ab Hab. apply Ef. exists ab. split; [done|]. by apply stamp_page. }
  assert (∀ ab r, is_ab ab → 0 <= r < lo_max_stores lo →
    store_field (at_root_slot next) v m (at_mark lo ab r) = m (at_mark lo ab r)) as Em.
  { intros ab r Hab Hr. apply Ef. exists ab. split; [done|]. by apply mark_page. }
  split; [|split; [done|]]; cbn [dk_mapped dk_durable].
  - destruct M as (M1 & M2 & M3). split_and!; [|by rewrite Es|].
    + unfold store_field. destruct (Z.eqb_spec (at_root_slot old_slot) (at_root_slot next)) as [E|]; [|done].
      by destruct slots_differ; apply root_slot_inj.
    + intros r Hr. rewrite Em by done. by apply M3.
  - split; [unfold flipped, store_field; by rewrite Z.eqb_refl|]. split; [by left|]. split; [|done].
    split; [unfold stamped; by rewrite Es|]. intros r Hr. rewrite Em by done. by apply S2.
Qed.

(** The header's own [msync]. *)
Lemma durable_stage d :
  at_stage Flipped d → at_stage Durable (perform (lo_page lo) (AMsync 0 (lo_data_offset lo)) d).
Proof.
  destruct d as [m u]. intros (M & U & F & _ & [S1 S2] & _).
  assert (∀ o, 0 <= o < lo_data_offset lo →
    dk_durable (perform (lo_page lo) (AMsync 0 (lo_data_offset lo)) (mkDisk m u)) o = m o) as E.
  { intros o Ho. cbn. pose proof (lk_page _ K). rewrite Z.div_0_l by lia.
    rewrite (proj2 (Z.leb_le 0 _)) by (apply Z.div_pos; lia).
    rewrite (proj2 (Z.leb_le _ _)) by (apply Z.div_le_mono; lia). done. }
  assert (∀ o, protected Durable o → dk_durable (perform (lo_page lo) (AMsync 0 (lo_data_offset lo)) (mkDisk m u)) o = m o) as Ep.
  { intros o Ho. by apply E, (protected_below Durable). }
  pose proof old_slot_ab as Hold.
  assert (∀ ab, is_ab ab → protected Durable (at_root_slot ab) ∧ protected Durable (at_snapshot lo ab)) as P1.
  { intros ab Hab. split; left; eauto. }
  assert (∀ ab r, is_ab ab → 0 <= r < lo_max_stores lo → protected Durable (at_mark lo ab r)) as P2.
  { intros ab r Hab Hr. destruct (other_cases next Hnext) as [[E1 E2]|[E1 E2]], Hab as [->| ->];
      unfold protected; rewrite E1, ?E2; right; (by left; eauto) || (by right; eauto). }
  split; [done|]. split.
  - destruct M as (M1 & M2 & M3). split_and!; [rewrite Ep; [done|by apply P1]..|].
    intros r Hr. rewrite Ep; [by apply M3|by apply P2].
  - split; [done|]. split; [unfold flipped; rewrite Ep; [done|by apply P1]|]. split; [done|].
    split; [unfold stamped; rewrite Ep; [done|by apply P1]|]. intros r Hr. rewrite Ep; [by apply S2|by apply P2].
Qed.

(** *** What a crash in a stage leaves *)

Lemma u32_generations : in_u32 g ∧ in_u32 (g + 1).
Proof. unfold in_u32. lia. Qed.

Lemma select_image_eq img :
  select_image lo img =
  let a := decode_root (img 40) in let b := decode_root (img 48) in
  let root_of slot := if slot =? 0 then a else b in
  let newest := if rt_generation b <=? rt_generation a then 0 else 1 in
  if img (at_snapshot lo newest) =? rt_generation (root_of newest) then mkSelection newest (root_of newest) true
  else if img (at_snapshot lo (other newest)) =? rt_generation (root_of (other newest))
       then mkSelection (other newest) (root_of (other newest)) true
       else mkSelection 0 (mkRoot 0 0) false.
Proof. done. Qed.

(** With one root strictly newer, it is tried first. *)
Lemma select_newer img slot (a b : WorkspaceRoot) :
  is_ab slot → decode_root (img (at_root_slot slot)) = a → decode_root (img (at_root_slot (other slot))) = b →
  rt_generation b < rt_generation a →
  select_image lo img =
    if img (at_snapshot lo slot) =? rt_generation a then mkSelection slot a true
    else if img (at_snapshot lo (other slot)) =? rt_generation b then mkSelection (other slot) b true
         else mkSelection 0 (mkRoot 0 0) false.
Proof.
  intros [->| ->] Ea Eb Hlt; rewrite select_image_eq; cbv zeta.
  - change (other 0) with 1 in *. change (at_root_slot 0) with 40 in Ea. change (at_root_slot 1) with 48 in Eb.
    rewrite Ea, Eb, (proj2 (Z.leb_le _ _)) by lia. done.
  - change (other 1) with 0 in *. change (at_root_slot 1) with 48 in Ea. change (at_root_slot 0) with 40 in Eb.
    rewrite Ea, Eb, (proj2 (Z.leb_gt _ _)) by lia. done.
Qed.

Lemma other_old : other old_slot = next.
Proof. by destruct (other_cases next Hnext) as [[-> ->]|[-> ->]]. Qed.

Lemma old_selected img : holds_old img → older img → resumes lo img g root H.
Proof.
  intros (R & S & M) Ho. destruct u32_generations as [Hg1 _].
  destruct (Z.eq_dec g 0) as [E0|Hne].
  - (* nothing was committed: both roots are zero *)
    assert (decode_root (img (at_root_slot next)) = mkRoot 0 0) as Z1.
    { destruct Ho as [Ho|[_ ->]]; [|done]. unfold decode_root in Ho. cbn in Ho.
      pose proof (u32_range (Z.shiftr (img (at_root_slot next)) 32)) as [? _]. lia. }
    rewrite E0, (Hfresh E0) in R.
    assert (decode_root (img 40) = mkRoot 0 0 ∧ decode_root (img 48) = mkRoot 0 0) as [A B].
    { destruct (other_cases next Hnext) as [[E1 E2]|[E1 E2]]; rewrite E1 in Z1; rewrite E2 in R; split; done. }
    assert (∃ slot, select_image lo img = mkSelection slot (mkRoot 0 0) true) as [slot Es].
    { rewrite select_image_eq, A, B. cbv zeta.
      cbn [rt_generation]. rewrite Z.leb_refl, Z.eqb_refl. change (other 0) with 1. cbn [rt_generation Z.eqb].
      destruct (img (at_snapshot lo 0) =? 0) eqn:Es0; [by eexists|].
      destruct (other_cases next Hnext) as [[E1 E2]|[E1 E2]]; rewrite E2 in S.
      - rewrite S, E0. by eexists.
      - rewrite S, E0 in Es0. discriminate Es0. }
    exists slot. rewrite (Hfresh E0), E0. split; [exact Es|lia].
  - assert (rt_generation (decode_root (img (at_root_slot next))) < g) as Hlt by (destruct Ho as [Ho|[Ho _]]; [done|lia]).
    exists old_slot. split; [|intros _; split; [apply old_slot_ab|done]].
    rewrite (select_newer img old_slot _ _ old_slot_ab R eq_refl) by (by rewrite other_old).
    cbn [rt_generation]. by rewrite S, Z.eqb_refl.
Qed.

(** A flipped root without its snapshot is passed over. *)
Lemma flipped_selected img : holds_old img → flipped img → (stamped img → marked img) →
  (stamped img → resumes lo img (g + 1) root' H') ∧ (¬ stamped img → resumes lo img g root H).
Proof.
  intros (R & S & M) F Hm. destruct u32_generations as [Hg1 Hg2]. unfold flipped in F.
  assert (decode_root (img (at_root_slot next)) = mkRoot (g + 1) root') as Enew by (by rewrite F, decode_encode).
  assert (select_image lo img =
    if img (at_snapshot lo next) =? g + 1 then mkSelection next (mkRoot (g + 1) root') true
    else mkSelection old_slot (mkRoot g root) true) as Es.
  { rewrite (select_newer img next _ _ Hnext Enew R) by (cbn [rt_generation]; lia).
    cbn [rt_generation]. by rewrite S, Z.eqb_refl. }
  unfold stamped in *. split; intros Hs.
  - rewrite (proj2 (Z.eqb_eq _ _) Hs) in Es. exists next. split; [exact Es|]. intros _. split; [done|]. by apply Hm.
  - rewrite (proj2 (Z.eqb_neq _ _) Hs) in Es. exists old_slot. split; [exact Es|].
    intros _. split; [apply old_slot_ab|done].
Qed.

(** What a crash resumes: the old root; once it is flipped, the new one if its snapshot
    is there; the new one when the header is durable. *)
Lemma stage_resumes st d : at_stage st d →
  let old := resumes lo (dk_durable d) g root H in
  let new := resumes lo (dk_durable d) (g + 1) root' H' in
  match st with Settled | Stamped => old | Flipped => old ∨ new | Durable => new end.
Proof.
  intros (_ & U & Hst). destruct st; destruct Hst as (H1 & H2 & H3 & H4); cbv zeta.
  - by apply old_selected.
  - by apply old_selected.
  - destruct H2 as [H2|H2]; [left; by apply old_selected|].
    destruct (flipped_selected _ U H2 H4) as [Hnew Hold].
    destruct (Z.eq_dec (dk_durable d (at_snapshot lo next)) (g + 1)); auto.
  - apply (flipped_selected _ U H2 (fun _ => proj2 H4)), H4.
Qed.
End stages.

(** The header msync leaves the file settled on the new root, whatever comes next. *)
Lemma durable_settled lo next g root root' root'' H H' H'' d :
  is_ab next → 0 <= g → g + 1 < 2 ^ 32 - 1 → in_u32 root' →
  at_stage lo next g root root' H H' Durable d →
  at_stage lo (other next) (g + 1) root' root'' H' H'' Settled d.
Proof.
  intros Hn Hg0 Hg Hr (M & U & F1 & F2 & [S1 K1] & [S2 K2]).
  assert (other (other next) = next) as Eo by (by destruct Hn as [->| ->]).
  assert (∀ img, flipped next g root' img → stamped lo next g img → marked lo next H' img →
    holds_old lo (other next) (g + 1) root' H' img) as Hold.
  { intros img F S Km. unfold holds_old, flipped in *. rewrite Eo, F. split; [|done].
    apply decode_encode; unfold in_u32 in *; lia. }
  assert (∀ img, holds_old lo next g root H img →
    older (other next) (g + 1) img ∧ ¬ stamped lo (other next) (g + 1) img) as Hnew.
  { intros img (R & S & _). unfold older, stamped. rewrite R, S.
    cbn [rt_generation]. split; [left; lia|lia]. }
  split; [by apply Hold|]. split; [by apply Hold|].
  destruct (Hnew _ M), (Hnew _ U). done.
Qed.
