(* ===== verification/Crash.v ===== *)
(** Sessions of a workspace file: what [checkpoint.hpp] and [workspace_file.cpp] do to it,
    operation by operation, and what a crash leaves.

    Every operation of the writer but a commit is [calm]; a commit runs through the
    stages of [Disk].  From that: the commit's crash safety, the invariant of a session,
    what a reopening finds and that it carries on. *)

From S2P Require Import Prelude SlotStore WorkspaceFile Checkpoint Disk.

Local Open Scope Z_scope.

(** ** What the operations do to the file *)

(** The stores of a list of actions, in a mapping. *)
Definition effect (l : list action) (m : image) : image :=
  foldl (fun m a => match a with AStore o v => store_field o v m | _ => m end) m l.

Record did (l : list action) (s s' : Source) : Prop := {
  did_trace : src_trace s' = rev l ++ src_trace s;
  did_map : src_map s' = effect l (src_map s);
  did_layout : src_layout s' = src_layout s }.

Section did.
Context (os : nat → expected Z Z).
Implicit Types (s : Source) (l : list action).

Lemma did_nil s s' : src_trace s' = src_trace s → src_map s' = src_map s → src_layout s' = src_layout s →
  did [] s s'.
Proof. by split. Qed.

Lemma did_refl s : did [] s s.
Proof. by split. Qed.

Lemma did_trans l1 l2 s s1 s2 : did l1 s s1 → did l2 s1 s2 → did (l1 ++ l2) s s2.
Proof.
  intros [T1 M1 L1] [T2 M2 L2]. split.
  - by rewrite T2, T1, rev_app_distr, app_assoc.
  - unfold effect. rewrite foldl_app. by rewrite M2, M1.
  - congruence.
Qed.

Lemma did_store off v s : did [AStore off v] s (store off v s).
Proof. by split. Qed.

Lemma did_store_all fields : ∀ s, did (map (fun f => AStore f.1 f.2) fields) s (store_all fields s).
Proof.
  induction fields as [|f fields IH]; intros s; [apply did_refl|].
  cbn [map]. change (AStore f.1 f.2 :: map ?g fields) with ([AStore f.1 f.2] ++ map g fields).
  eapply did_trans; [apply did_store|]. apply IH.
Qed.

Lemma io_did act s : match act with Some (AStore _ _) => False | _ => True end →
  match io os act s with
  | (s', Ok _) => did (match act with Some a => [a] | None => [] end) s s'
  | (s', Err _) => did [] s s'
  end.
Proof.
  intros Ha. unfold io. destruct (os (src_calls s)) as [v|e]; [|by split].
  destruct act as [[o v'|o len|len|o len]|]; done || by split.
Qed.

Lemma io_frame act s : src_live (io os act s).1 = src_live s.
Proof. unfold io. by destruct (os _), act. Qed.

Definition msyncs (chunks : list LiveChunk) : list action :=
  map (fun c => AMsync (lc_offset c) (lc_size c)) chunks.

Lemma sync_chunks_did chunks : ∀ n s,
  match sync_chunks os chunks n s with
  | (s', Ok _) => did (msyncs chunks) s s' ∧ src_live s' = src_live s
  | (s', Err _) => ∃ done, did (msyncs done) s s' ∧ src_live s' = src_live s
  end.
Proof.
  induction chunks as [|c chunks IH]; intros n s; cbn [sync_chunks].
  { split; [apply did_refl|done]. }
  pose proof (io_did (Some (AMsync (lc_offset c) (lc_size c))) s I) as Hio.
  pose proof (io_frame (Some (AMsync (lc_offset c) (lc_size c))) s) as Hl.
  destruct (io os _ s) as [s1 [v|e]]; cbn in Hl.
  - specialize (IH (n + 1) s1). destruct (sync_chunks os chunks (n + 1) s1) as [s2 [v2|e2]].
    + destruct IH as [IH L]. split; [|congruence]. by apply (did_trans [_] _ s s1 s2).
    + destruct IH as (done & IH & L). exists (c :: done). split; [|congruence]. by apply (did_trans [_] _ s s1 s2).
  - exists []. split; [|done]. destruct Hio. by split.
Qed.

Definition mark_stores {S} lo (next : Z) (arena : list (SlotStore S)) (registered : list (nat * Z)) : list action :=
  omap (fun e => st ← arena !! e.1; Some (AStore (at_mark lo next e.2) (u32 (s_high_water st)))) registered.

Lemma publish_marks_did {S} next (arena : list (SlotStore S)) registered : ∀ s,
  did (mark_stores (src_layout s) next arena registered) s (publish_marks next arena registered s) ∧
  src_live (publish_marks next arena registered s) = src_live s.
Proof.
  induction registered as [|[k id] registered IH]; intros s; [split; [apply did_refl|done]|].
  unfold publish_marks, mark_stores in *. cbn [foldl omap list_omap fst snd].
  destruct (arena !! k) as [st|]; cbn [mbind option_bind]; [|by apply IH].
  destruct (IH (publish_store_high_water next id (u32 (s_high_water st)) s)) as [D L]. split; [|done].
  eapply (did_trans [_] _ s); [|exact D]. apply did_store.
Qed.

Lemma punch_now_did c s : ∃ l, did (l ++ [AStore (at_entry (lc_index c) + 16) k_workspace_chunk_free]) s (punch_now os c s) ∧
  (l = [] ∨ l = [APunch (lc_offset c) (lc_size c)]).
Proof.
  unfold punch_now. pose proof (io_did (Some (APunch (lc_offset c) (lc_size c))) s I) as Hio.
  destruct (io os _ s) as [s1 [v|e]].
  - exists [APunch (lc_offset c) (lc_size c)]. split; [|by right].
    eapply did_trans; [exact Hio|apply did_store].
  - exists []. split; [|by left]. eapply (did_trans []); [|apply did_store]. destruct Hio. by split.
Qed.
End did.

Section commits.
Context {S : Type} (os : nat → expected Z Z) (t : thread).
Notation CP := (Checkpointer S).
Implicit Types (cp : CP) (l : list action).

(** What the drain does to the file comes from the chunks it lets go. *)
Definition drain_action (chunks : list ChunkEntry) (a : action) : Prop :=
  ∃ e, e ∈ chunks ∧
    (a = APunch (lc_offset (che_chunk e)) (lc_size (che_chunk e)) ∨
     a = AStore (at_entry (lc_index (che_chunk e)) + 16) k_workspace_chunk_free).

(** The fields a drain leaves alone. *)
Definition same_protocol cp cp' : Prop :=
  cp_epoch cp' = cp_epoch cp ∧ cp_generation cp' = cp_generation cp ∧
  cp_durable_epoch cp' = cp_durable_epoch cp ∧ cp_next_slot cp' = cp_next_slot cp ∧
  cp_registered cp' = cp_registered cp.

Lemma drain_slots_frame slots : ∀ cp,
  let cp' := foldl (fun cp e => drain_slot t e cp) cp slots in
  cp_source cp' = cp_source cp ∧ cp_chunk_quarantine cp' = cp_chunk_quarantine cp ∧ same_protocol cp cp'.
Proof.
  induction slots as [|e slots IH]; intros cp; [done|]. cbn [foldl].
  destruct (IH (drain_slot t e cp)) as (E1 & E2 & E3). cbv zeta. rewrite E1, E2.
  unfold drain_slot, same_protocol in *. by destruct (se_epoch e <=? cp_durable_epoch cp).
Qed.

Lemma punch_now_frame c s : src_live (punch_now os c s) = src_live s ∧ src_layout (punch_now os c s) = src_layout s.
Proof. unfold punch_now, io. by destruct (os _). Qed.

Lemma drain_chunks_did all chunks : ∀ cp, (∀ e, e ∈ chunks → e ∈ all) →
  let cp' := foldl (fun cp e => drain_chunk os e cp) cp chunks in
  (∃ l, did l (cp_source cp) (cp_source cp') ∧ Forall (drain_action all) l) ∧
  src_live (cp_source cp') = src_live (cp_source cp) ∧
  (∀ e, e ∈ cp_chunk_quarantine cp' → e ∈ cp_chunk_quarantine cp ∨ e ∈ chunks) ∧ same_protocol cp cp'.
Proof.
  induction chunks as [|e chunks IH]; intros cp Hall; cbn [foldl].
  { split; [exists []; split; [apply did_refl|constructor]|]. split; [done|]. split; [by left|done]. }
  destruct (IH (drain_chunk os e cp)) as ((l & D & Hl) & L & Q & P); [set_solver|]. clear IH.
  destruct (punch_now_did os (che_chunk e) (cp_source cp)) as (l0 & D0 & Hl0).
  destruct (punch_now_frame (che_chunk e) (cp_source cp)) as [L0 _].
  unfold drain_chunk in *. destruct (che_epoch e <=? cp_durable_epoch cp); cbn [set_source cp_source cp_chunk_quarantine] in *.
  - split; [|split; [congruence|split; [|exact P]]].
    + eexists. split; [by eapply did_trans|]. apply Forall_app. split; [|done]. apply Forall_app. split.
      * destruct Hl0 as [->| ->]; constructor; [|constructor]. exists e. split; [set_solver|by left].
      * constructor; [|constructor]. exists e. split; [set_solver|by right].
    + intros e' He'. destruct (Q e' He') as [He|He]; [by left|right; set_solver].
  - split; [by exists l|]. split; [done|]. split; [|exact P].
    intros e' He'. destruct (Q e' He') as [He|He]; [|right; set_solver].
    cbn in He. apply elem_of_app in He as [He|He]; [by left|right; set_solver].
Qed.

Lemma drain_fences_did cp :
  (∃ l, did l (cp_source cp) (cp_source (drain_fences os t cp)) ∧ Forall (drain_action (cp_chunk_quarantine cp)) l) ∧
  src_live (cp_source (drain_fences os t cp)) = src_live (cp_source cp) ∧
  (∀ e, e ∈ cp_chunk_quarantine (drain_fences os t cp) → e ∈ cp_chunk_quarantine cp) ∧
  same_protocol cp (drain_fences os t cp).
Proof.
  unfold drain_fences. set (cp0 := set_quarantines [] _ _ _ cp).
  destruct (drain_slots_frame (cp_quarantine cp) cp0) as (E1 & E2 & E3). cbv zeta in *.
  set (cp1 := foldl _ cp0 _) in *. set (cp2 := set_quarantines _ _ [] _ cp1).
  destruct (drain_chunks_did (cp_chunk_quarantine cp) (cp_chunk_quarantine cp) cp2) as (D & L & Q & P); [done|].
  split; [|split; [|split]].
  - destruct D as (l & D & Hl). exists l. split; [|done]. change (cp_source cp2) with (cp_source cp1) in D.
    by rewrite E1 in D.
  - rewrite L. change (cp_source cp2) with (cp_source cp1). by rewrite E1.
  - intros e He. destruct (Q e He) as [Hq|Hq]; [|done]. by apply not_elem_of_nil in Hq.
  - destruct E3 as (A1 & A2 & A3 & A4 & A5), P as (B1 & B2 & B3 & B4 & B5).
    unfold same_protocol. rewrite B1, B2, B3, B4, B5. done.
Qed.

(** What a commit does before it flips the root, in its two steps. *)
Definition commit_marks cp : list action :=
  mark_stores (src_layout (cp_source cp)) (cp_next_slot cp) (cp_arena cp) (cp_registered cp).
Definition commit_flip (root_index : Z) cp : list action :=
  [AStore (at_snapshot (src_layout (cp_source cp)) (cp_next_slot cp)) (cp_epoch cp);
   AStore (at_root_slot (cp_next_slot cp)) (encode_root (mkRoot (cp_epoch cp) root_index))].

Definition commit_sync cp l : Prop :=
  if is_dirty cp then l = msyncs (map_to_list (src_live (cp_source cp))).*2 else l = [].

Lemma publish_root_did root_index cp :
  did (commit_marks cp ++ commit_flip root_index cp) (cp_source cp) (cp_source (publish_root root_index cp)) ∧
  src_live (cp_source (publish_root root_index cp)) = src_live (cp_source cp).
Proof.
  unfold publish_root. cbn [cp_source set_source].
  destruct (publish_marks_did (cp_next_slot cp) (cp_arena cp) (cp_registered cp) (cp_source cp)) as [D L].
  set (s1 := publish_marks _ _ _ _) in *. split; [|done].
  eapply did_trans; [exact D|]. unfold commit_flip. rewrite <- (did_layout _ _ _ D).
  apply (did_trans [_] [_] _ (publish_snapshot_generation (cp_next_slot cp) (cp_epoch cp) s1)); apply did_store.
Qed.

Lemma sync_if_dirty_did cp :
  match sync_if_dirty os cp with
  | (cp', Ok _) => ∃ l, commit_sync cp l ∧ did l (cp_source cp) (cp_source cp') ∧
      src_live (cp_source cp') = src_live (cp_source cp) ∧ same_protocol cp cp' ∧
      cp_arena cp' = cp_arena cp ∧ cp_chunk_quarantine cp' = cp_chunk_quarantine cp
  | (cp', Err _) => ∃ chunks, did (msyncs chunks) (cp_source cp) (cp_source cp')
  end.
Proof.
  unfold sync_if_dirty, commit_sync. destruct (is_dirty cp).
  - unfold sync_data. pose proof (sync_chunks_did os (map_to_list (src_live (cp_source cp))).*2 0 (cp_source cp)) as Hs.
    destruct (sync_chunks os _ 0 (cp_source cp)) as [s [n|e]].
    + destruct Hs as [D L]. eexists. split; [done|]. by split.
    + destruct Hs as (chunks & D & _). by exists chunks.
  - exists []. split; [done|]. split; [apply did_refl|done].
Qed.

(** The whole of a commit, by how far it got. *)
Lemma commit_did root_index cp :
  match commit os t root_index cp with
  | (cp', Ok _) => ∃ sync drained, commit_sync cp sync ∧ Forall (drain_action (cp_chunk_quarantine cp)) drained ∧
      did (sync ++ commit_marks cp ++ commit_flip root_index cp ++
           AMsync 0 (lo_data_offset (src_layout (cp_source cp))) :: drained) (cp_source cp) (cp_source cp') ∧
      src_live (cp_source cp') = src_live (cp_source cp) ∧
      (∀ e, e ∈ cp_chunk_quarantine cp' → e ∈ cp_chunk_quarantine cp) ∧
      cp_generation cp' = cp_epoch cp ∧ cp_epoch cp' = u32 (cp_epoch cp + 1) ∧
      cp_next_slot cp' = other (cp_next_slot cp) ∧ cp_registered cp' = cp_registered cp
  | (cp', Err _) =>
      (∃ chunks, did (msyncs chunks) (cp_source cp) (cp_source cp')) ∨
      ∃ sync, commit_sync cp sync ∧
        did (sync ++ commit_marks cp ++ commit_flip root_index cp) (cp_source cp) (cp_source cp')
  end.
Proof.
  unfold commit. pose proof (sync_if_dirty_did cp) as Hs. destruct (sync_if_dirty os cp) as [cp1 [[]|e]]; [|by left].
  destruct Hs as (sync & Hsync & D1 & L1 & (P1 & P2 & P3 & P4 & P5) & A1 & Q1).
  destruct (publish_root_did root_index cp1) as [D2 L2].
  assert (commit_marks cp1 ++ commit_flip root_index cp1 = commit_marks cp ++ commit_flip root_index cp) as Em.
  { unfold commit_marks, commit_flip. by rewrite (did_layout _ _ _ D1), P4, A1, P5, P1. }
  rewrite Em in D2. set (cp2 := publish_root root_index cp1) in *. unfold sync_header.
  assert (src_layout (cp_source cp2) = src_layout (cp_source cp)) as El.
  { by rewrite (did_layout _ _ _ D2), (did_layout _ _ _ D1). }
  pose proof (io_did os (Some (AMsync 0 (lo_data_offset (src_layout (cp_source cp2))))) (cp_source cp2) I) as Hio.
  pose proof (io_frame os (Some (AMsync 0 (lo_data_offset (src_layout (cp_source cp2))))) (cp_source cp2)) as L3.
  destruct (io os _ (cp_source cp2)) as [s3 [v|e]]; cbn [fst] in L3.
  - rewrite El in Hio. unfold advance.
    match goal with |- context [drain_fences os t ?c] => set (cp3 := c) end.
    destruct (drain_fences_did cp3) as ((drained & D4 & Hd) & L4 & Q4 & (R1 & R2 & R3 & R4 & R5)).
    cbn [cp_chunk_quarantine cp3 set_source publish_root cp2] in Hd, Q4.
    exists sync, drained. split; [done|]. rewrite <- Q1. split; [exact Hd|].
    cbn [cp_source snapshot cp_generation cp_epoch cp_next_slot cp_registered cp_chunk_quarantine].
    split; [|split; [|split; [exact Q4|]]].
    + eapply did_trans; [exact D1|]. rewrite app_assoc. eapply did_trans; [exact D2|].
      change (?a :: drained) with ([a] ++ drained). eapply did_trans; [exact Hio|exact D4].
    + rewrite L4. change (cp_source cp3) with s3. by rewrite L3, L2, L1.
    + rewrite R2, R4, R5. cbn [cp3 cp_generation cp_epoch cp_next_slot cp_registered set_source publish_root cp2].
      rewrite P1, P4, P5. done.
  - right. exists sync. split; [done|]. eapply did_trans; [exact D1|]. cbn [cp_source set_source].
    rewrite <- (app_nil_r (_ ++ _)). eapply did_trans; [exact D2|]. destruct Hio. by split.
Qed.
End commits.

(** ** Sessions *)

Section quiet_actions.
Context (lo : Layout) (K : layout_ok lo) (next : Z) (Hnext : is_ab next).
Implicit Types (o v r ab : Z) (m : image) (l : list action) (st : stage).

(** What a running program does to the file outside a commit. *)
Definition off_protocol (a : action) : Prop :=
  match a with
  | AStore o _ =>
      (0 <= o < lo_store_table_offset lo ∧ o ≠ at_root_slot 0 ∧ o ≠ at_root_slot 1) ∨ lo_data_offset lo <= o
  | APunch o _ => lo_data_offset lo <= o
  | AMsync _ _ | ATruncate _ => True
  end.

Lemma off_protocol_quiet st m a : off_protocol a → quiet lo next st m a.
Proof.
  destruct a as [o v|o len|len|o len]; [|done..]. cbn. intros [(Ho & H0 & H1)|Ho] Hp; exfalso.
  - assert (∀ ab, is_ab ab → o / lo_page lo < snapshot_page lo ab) as Hlt by (intros ab Hab; by apply below_page).
    pose proof (old_slot_ab next Hnext) as Hold.
    destruct Hp as [(ab & Hab & [->| ->])|[(r & Hr & ->)|(_ & r & Hr & ->)]].
    + by destruct Hab as [->| ->].
    + specialize (Hlt ab Hab). rewrite stamp_page in Hlt by done. lia.
    + specialize (Hlt _ Hold). rewrite mark_page in Hlt by done. lia.
    + specialize (Hlt _ Hnext). rewrite mark_page in Hlt by done. lia.
  - pose proof (protected_below lo K next Hnext st o Hp). lia.
Qed.

Lemma off_protocol_calm st l m : Forall off_protocol l → calm lo next st m l.
Proof.
  intros Hl. apply calm_all. intros m' a Ha. apply off_protocol_quiet.
  rewrite List.Forall_forall in Hl. by apply Hl, list_elem_of_In.
Qed.

(** Stores that put back what the protected fields hold. *)
Lemma same_stores_calm st m0 (fields : list (Z * Z)) : ∀ m,
  (∀ o, protected lo next st o → m o = m0 o) →
  (∀ o v, (o, v) ∈ fields → protected lo next st o → m0 o = v) →
  calm lo next st m (map (fun f => AStore f.1 f.2) fields).
Proof.
  induction fields as [|[o v] fields IH]; intros m Hm Hf; [done|]. cbn. split.
  - intros Ho. rewrite Hm by done. apply (Hf o v); [left|done].
  - apply IH; [|intros o' v' Ho'; apply Hf; by right]. intros o' Ho'. unfold store_field.
    destruct (Z.eqb_spec o' o) as [->|]; [|by apply Hm]. symmetry. apply (Hf o v); [left|done].
Qed.

(** The identity columns of a row are nobody else's. *)
Lemma column_unprotected st ab r k : is_ab ab → 0 <= r < lo_max_stores lo → k = 0 ∨ k = 4 ∨ k = 8 →
  ¬ protected lo next st (at_row lo ab r + k).
Proof.
  intros Hab Hr Hk. pose proof (lk_resident _ K) as Hres.
  unfold sizeof_snapshot, sizeof_store_entry in Hres.
  assert ((at_row lo ab r + k) / lo_page lo = snapshot_page lo ab) as Ep.
  { unfold at_row. rewrite <- !Z.add_assoc. apply page_in; [done..|].
    unfold sizeof_snapshot, sizeof_store_entry. lia. }
  assert (∀ ab' r', is_ab ab' → 0 <= r' < lo_max_stores lo → at_row lo ab r + k ≠ at_mark lo ab' r') as Hmark.
  { intros ab' r' Hab' Hr' E. pose proof (mark_page lo K ab' r' Hab' Hr') as Em. rewrite <- E, Ep in Em.
    unfold snapshot_page in Em. assert (ab = ab') as <- by lia.
    unfold at_mark, at_row, sizeof_store_entry in E. lia. }
  intros [(ab' & Hab' & [E|E])|[(r' & Hr' & E)|(_ & r' & Hr' & E)]].
  - pose proof (root_page lo K ab' ab Hab). rewrite <- E in *. lia.
  - pose proof (stamp_page lo K ab' Hab') as Es. rewrite <- E, Ep in Es. unfold snapshot_page in Es.
    assert (ab = ab') as <- by lia. unfold at_row, sizeof_snapshot, sizeof_store_entry in E. lia.
  - apply (Hmark _ r' (old_slot_ab next Hnext) Hr' E).
  - apply (Hmark _ r' Hnext Hr' E).
Qed.

Lemma row_fields_same ab r row o v st m : is_ab ab → 0 <= r < lo_max_stores lo →
  m (at_mark lo ab r) = se_high_water row →
  (o, v) ∈ row_fields lo ab r row → protected lo next st o → m o = v.
Proof.
  intros Hab Hr Hm Hin Ho. unfold row_fields in Hin. rewrite <- (Z.add_0_r (at_row lo ab r)) in Hin at 1.
  assert (∀ k, k = 0 ∨ k = 4 ∨ k = 8 → o ≠ at_row lo ab r + k) as Hne.
  { intros k Hk ->. by apply (column_unprotected st ab r k Hab Hr Hk). }
  rewrite !elem_of_cons, elem_of_nil in Hin.
  destruct Hin as [Hin|[Hin|[Hin|[Hin|[]]]]]; injection Hin as Eo Ev;
    [destruct (Hne 0)|destruct (Hne 4)|destruct (Hne 8)|]; auto.
  by rewrite Eo, Ev.
Qed.
End quiet_actions.

(** *** The chunks a source knows *)

Definition chunk_ok (lo : Layout) (c : LiveChunk) : Prop :=
  0 <= lc_index c < lo_max_chunks lo ∧ lo_data_offset lo <= lc_offset c.

Record source_ok (s : Source) : Prop := {
  so_layout : layout_ok (src_layout s);
  so_live : map_Forall (fun _ c => chunk_ok (src_layout s) c) (src_live s);
  so_reopened : Forall (fun c => chunk_ok (src_layout s) (rp_chunk c)) (src_reopened s);
  so_queues : Forall (Forall (fun c => chunk_ok (src_layout s) (rp_chunk c))) (src_store_reopened s);
  so_next : lo_data_offset (src_layout s) <= src_next_offset s;
  so_count : 0 <= src_chunk_count s }.

(** Nothing but the header's own fields changed. *)
Lemma source_ok_frame s s' : source_ok s → src_layout s' = src_layout s → src_live s' = src_live s →
  src_reopened s' = src_reopened s → src_store_reopened s' = src_store_reopened s →
  src_next_offset s' = src_next_offset s → src_chunk_count s' = src_chunk_count s → source_ok s'.
Proof. intros [K L R Q N C] E1 E2 E3 E4 E5 E6. split; rewrite ?E1, ?E2, ?E3, ?E4, ?E5, ?E6; done. Qed.

Lemma store_all_frame fields : ∀ s, let s' := store_all fields s in
  src_live s' = src_live s ∧ src_reopened s' = src_reopened s ∧
  src_store_reopened s' = src_store_reopened s ∧ src_next_offset s' = src_next_offset s ∧
  src_chunk_count s' = src_chunk_count s.
Proof. induction fields as [|f fields IH]; intros s; [done|]. apply (IH (store f.1 f.2 s)). Qed.

Lemma emplace_ok lo base c live : chunk_ok lo c → map_Forall (fun _ c => chunk_ok lo c) live →
  map_Forall (fun _ c => chunk_ok lo c) (emplace base c live).
Proof.
  intros Hc Hl. unfold emplace. destruct (live !! base) eqn:E; [done|]. by apply map_Forall_insert_2.
Qed.

Section operations.
Context (os : nat → expected Z Z).
Implicit Types (s : Source) (id size base : Z).

(** The file is extended by no more than a file can hold. *)
Definition room size s : Prop :=
  0 <= size ∧ 0 <= src_next_offset s ∧ src_next_offset s + size + lo_page (src_layout s) < 2 ^ 63.

Definition did_off s s' : Prop := ∃ l, did l s s' ∧ Forall (off_protocol (src_layout s)) l.

Lemma did_off_refl s s' : src_trace s' = src_trace s → src_map s' = src_map s → src_layout s' = src_layout s →
  did_off s s'.
Proof. intros. exists []. by split. Qed.

Lemma did_off_trans s s1 s2 : did_off s s1 → did_off s1 s2 → did_off s s2.
Proof.
  intros (l1 & D1 & F1) (l2 & D2 & F2). exists (l1 ++ l2). split; [by eapply did_trans|].
  rewrite (did_layout _ _ _ D1) in F2. by apply Forall_app.
Qed.

Lemma did_off_layout s s' : did_off s s' → src_layout s' = src_layout s.
Proof. intros (l & D & _). apply D. Qed.

Lemma io_did_off act s : source_ok s →
  match act with Some (AStore _ _) => False | Some a => off_protocol (src_layout s) a | None => True end →
  did_off s (io os act s).1.
Proof.
  intros Hs Ha. pose proof (io_did os act s) as D. destruct (io os act s) as [s' [v|e]].
  - exists (match act with Some a => [a] | None => [] end). destruct act as [[]|]; try done; split; auto; by constructor.
  - exists []. destruct act as [[]|]; try done; by split; auto.
Qed.

Lemma store_all_did_off fields s :
  (∀ f, f ∈ fields → off_protocol (src_layout s) (AStore f.1 f.2)) → did_off s (store_all fields s).
Proof.
  intros Hf. eexists. split; [apply did_store_all|]. apply List.Forall_forall. intros a Ha.
  apply in_map_iff in Ha as (f & <- & Hin). apply Hf. by apply list_elem_of_In.
Qed.

Lemma entry_off lo i k v : layout_ok lo → 0 <= i < lo_max_chunks lo → 0 <= k < sizeof_chunk_entry →
  off_protocol lo (AStore (at_entry i + k) v).
Proof.
  intros K Hi Hk. left. destruct (lk_directory _ K) as [_ Hd].
  unfold at_entry, sizeof_header, sizeof_chunk_entry, at_root_slot in *. cbn. lia.
Qed.

Lemma count_off lo v : layout_ok lo → off_protocol lo (AStore at_chunk_count v).
Proof.
  intros K. left. destruct (lk_directory _ K) as [H0 Hd].
  unfold at_entry, sizeof_header, sizeof_chunk_entry, at_root_slot, at_chunk_count in *. cbn. lia.
Qed.

Lemma io_ok act s : source_ok s → source_ok (io os act s).1.
Proof. intros Hs. eapply source_ok_frame; [exact Hs|..]; unfold io; by destruct (os _), act. Qed.

Lemma io_extent act s :
  src_chunk_count (io os act s).1 = src_chunk_count s ∧ src_next_offset (io os act s).1 = src_next_offset s ∧
  src_layout (io os act s).1 = src_layout s.
Proof. unfold io. by destruct (os _), act. Qed.

Lemma align_up_bounds lo n : layout_ok lo → 0 <= n < 2 ^ 63 →
  n <= align_up n (lo_page lo) < n + lo_page lo.
Proof.
  intros K Hn. destruct (lk_power _ K) as (k & Hk & ->). rewrite align_up_pow2 by lia.
  assert (0 < 2 ^ k) by (apply Z.pow_pos_nonneg; lia).
  pose proof (Z.mul_succ_div_gt (n + 2 ^ k - 1) (2 ^ k)). pose proof (Z.mul_div_le (n + 2 ^ k - 1) (2 ^ k)). lia.
Qed.

Lemma set_extent_ok next count s : source_ok s → lo_data_offset (src_layout s) <= next → 0 <= count →
  source_ok (set_extent next count s).
Proof. intros [K L R Q N C] Hn Hc. by split. Qed.

Lemma grow_did size owner s : source_ok s → room size s → size < 2 ^ 63 - 1 →
  did_off s (grow os size owner s).1 ∧ source_ok (grow os size owner s).1.
Proof.
  intros Hs (Hsz & Hn0 & Hroom) Hsize. pose proof (so_layout _ Hs) as K. unfold grow.
  destruct (Z.leb_spec (lo_max_chunks (src_layout s)) (src_chunk_count s)) as [|Hc].
  { split; [by apply did_off_refl|]. by eapply (source_ok_frame s). }
  set (want := if size =? 0 then 1 else size).
  assert (0 <= want < 2 ^ 63 ∧ want <= size + 1) as [Hw Hw']
    by (unfold want; destruct (Z.eqb_spec size 0); lia).
  pose proof (align_up_bounds _ want K Hw) as Hal. set (rounded := align_up _ _) in *.
  pose proof (lk_page _ K) as Hp. pose proof (so_next _ Hs) as Hnext.
  assert (u64 (src_next_offset s + rounded) = src_next_offset s + rounded) as Hend
    by (apply u64_small; unfold in_u64; lia).
  rewrite Hend. set (act := Some (ATruncate _)).
  pose proof (io_did_off act s Hs I) as D1. pose proof (io_ok act s Hs) as K1.
  destruct (io_extent act s) as (C1 & N1 & L1).
  destruct (io os act s) as [s1 [v1|e1]]; cbn [fst] in *.
  2: { split; [|by eapply (source_ok_frame s1)]. eapply did_off_trans; [exact D1|]. by apply did_off_refl. }
  pose proof (io_did_off None s1 K1 I) as D2. pose proof (io_ok None s1 K1) as K2.
  destruct (io_extent None s1) as (C2 & N2 & L2).
  pose proof (did_off_trans _ _ _ D1 D2) as D. clear D1 D2.
  destruct (io os None s1) as [s2 [base|e2]]; cbn [fst] in *.
  2: { split; [|by eapply (source_ok_frame s2)]. eapply did_off_trans; [exact D|]. by apply did_off_refl. }
  rewrite C1 in C2. rewrite L1 in L2. rewrite C2.
  set (fields := [_; _; _; _]). pose proof (so_count _ Hs) as Hc0.
  destruct (store_all_frame fields s2) as (F1 & F2 & F3 & F4 & F5).
  assert (did_off s2 (store_all fields s2)) as D3.
  { apply store_all_did_off. rewrite L2. intros f Hf. unfold fields in Hf.
    rewrite <- (Z.add_0_r (at_entry _)) in Hf at 1. rewrite !elem_of_cons, elem_of_nil in Hf.
    destruct Hf as [->|[->|[->|[->|[]]]]]; apply entry_off; unfold sizeof_chunk_entry; done || lia. }
  pose proof (did_off_layout _ _ D3) as L3. set (s3 := store_all fields s2) in *.
  split.
  - eapply did_off_trans; [exact D|]. eapply did_off_trans; [exact D3|]. eexists. split.
    + set (s4 := set_extent _ _ s3). pose proof (did_store at_chunk_count (src_chunk_count s4) s4) as [T M Y].
      split; [exact T|exact M|exact Y].
    + constructor; [|constructor]. by apply count_off; rewrite L3, L2.
  - destruct K2 as [_ Klive Kre Kq _ _]. rewrite L2 in *.
    split; cbn; rewrite ?L3, ?L2, ?F1, ?F2, ?F3; try done.
    + apply emplace_ok; [|done]. split; cbn; lia.
    + lia.
    + unfold u32. pose proof (Z.mod_pos_bound (src_chunk_count s + 1) (2 ^ 32)). lia.
Qed.

Lemma serve_did c reopened queues s : source_ok s → chunk_ok (src_layout s) (rp_chunk c) →
  Forall (fun c => chunk_ok (src_layout s) (rp_chunk c)) reopened →
  Forall (Forall (fun c => chunk_ok (src_layout s) (rp_chunk c))) queues →
  did_off s (serve c reopened queues s).1 ∧ source_ok (serve c reopened queues s).1.
Proof.
  intros [K L R Q N C] Hc Hr Hq. split; [by apply did_off_refl|]. split; try done. by apply emplace_ok.
Qed.

Lemma acquire_for_did id size s : source_ok s → room size s →
  did_off s (acquire_for os id size s).1 ∧ source_ok (acquire_for os id size s).1.
Proof.
  intros Hs Hroom. assert (size < 2 ^ 63 - 1) as Hsize.
  { destruct Hroom as (? & ? & ?). pose proof (lk_page _ (so_layout _ Hs)). lia. }
  unfold acquire_for. destruct (src_store_reopened s !! Z.to_nat id) as [[|c rest]|] eqn:E; [by apply grow_did| |by apply grow_did].
  pose proof (so_queues _ Hs) as Hq. pose proof (Forall_lookup_1 _ _ _ _ Hq E) as Hc.
  apply Forall_cons in Hc as [Hc Hrest]. apply serve_did; [done|done|apply Hs|]. by apply Forall_insert.
Qed.

Lemma acquire_did size s : source_ok s → room size s →
  did_off s (acquire os size s).1 ∧ source_ok (acquire os size s).1.
Proof.
  intros Hs Hroom. assert (size < 2 ^ 63 - 1) as Hsize.
  { destruct Hroom as (? & ? & ?). pose proof (lk_page _ (so_layout _ Hs)). lia. }
  unfold acquire. pose proof (so_reopened _ Hs) as Hr.
  destruct (src_reopened s) as [|c rest] eqn:E; [by apply grow_did|].
  apply Forall_cons in Hr as [Hc Hrest]. apply serve_did; [done|done|done|apply Hs].
Qed.

Lemma punch_off c s : source_ok s → chunk_ok (src_layout s) c →
  did_off s (punch_now os c s) ∧ source_ok (punch_now os c s).
Proof.
  intros Hs [Hi Ho]. destruct (punch_now_did os c s) as (l & D & Hl). split.
  - eexists. split; [exact D|]. apply Forall_app. split.
    + destruct Hl as [->| ->]; [constructor|]. by constructor.
    + constructor; [|constructor]. apply entry_off; [apply Hs|done|unfold sizeof_chunk_entry; lia].
  - eapply (source_ok_frame s); [done|..]; unfold punch_now, io; by destruct (os _).
Qed.

(** A released chunk is punched or handed to the fence. *)
Lemma release_did base s : source_ok s →
  did_off s (WorkspaceFile.release os base s).1 ∧ source_ok (WorkspaceFile.release os base s).1 ∧
  ∀ c, (WorkspaceFile.release os base s).2 = Some c → chunk_ok (src_layout s) c.
Proof.
  intros Hs. unfold WorkspaceFile.release. destruct (src_live s !! base) as [c|] eqn:E.
  2: { split; [by apply did_off_refl|done]. }
  pose proof (so_live _ Hs base c E) as Hc.
  set (s1 := set_chunks _ _ _ s). assert (source_ok s1) as Hs1.
  { destruct Hs as [K L R Q N C]. split; try done. by apply map_Forall_delete. }
  assert (did_off s s1) as D1 by (by apply did_off_refl).
  destruct (src_fenced s1).
  - split; [done|]. split; [done|]. by intros c' [= <-].
  - destruct (punch_off c s1 Hs1 Hc) as [D2 K2]. split; [by eapply did_off_trans|]. by split.
Qed.

Lemma find_row_some stride align s rs r free : ∀ acc,
  find_row stride align s rs acc = (Some r, free) → r ∈ rs.
Proof.
  induction rs as [|x rs IH]; intros acc; cbn; [done|].
  destruct (_ =? 0); [intros E; right; by eapply IH|].
  destruct (_ && _); [intros [= -> _]; left|]. intros E. right. by eapply IH.
Qed.

Lemma find_row_none stride align s rs r : ∀ acc, (∀ a, acc = Some a → a ∈ rows s) → (∀ x, x ∈ rs → x ∈ rows s) →
  find_row stride align s rs acc = (None, Some r) → r ∈ rows s.
Proof.
  induction rs as [|x rs IH]; intros acc Ha Hrs; cbn.
  { intros [= ->]. by apply Ha. }
  assert (∀ y, y ∈ rs → y ∈ rows s) as Hrs' by (intros y Hy; apply Hrs; by right).
  destruct (_ =? 0).
  - apply IH; [|done]. destruct acc as [a|]; [done|]. intros a [= <-]. apply Hrs. left.
  - destruct (_ && _); [done|]. by apply IH.
Qed.

Lemma elem_rows r s : r ∈ rows s → 0 <= r < lo_max_stores (src_layout s).
Proof. unfold rows. rewrite elem_of_seqZ. lia. Qed.
End operations.

(** A size class's row is bound: the one it has, or one whose marks are still zero. *)
Definition bindable (stride align : Z) (s : Source) : Prop :=
  ∀ r, find_row stride align s (rows s) None = (None, Some r) →
    ∀ ab, is_ab ab → src_map s (at_mark (src_layout s) ab r) = 0.

(** Changes of the source that leave its file alone. *)
Definition in_memory (f : Source → Source) : Prop := ∀ s,
  src_trace (f s) = src_trace s ∧ src_map (f s) = src_map s ∧ src_layout (f s) = src_layout s ∧
  src_live (f s) = src_live s ∧ src_reopened (f s) = src_reopened s ∧
  src_store_reopened (f s) = src_store_reopened s ∧ src_next_offset (f s) = src_next_offset s ∧
  src_chunk_count (f s) = src_chunk_count s.

(** The fields a bind stores: none, or a row in both tables whose marks do not change. *)
Definition row_stored (s : Source) (fields : list (Z * Z)) : Prop :=
  fields = [] ∨
  ∃ r row0 row1, 0 <= r < lo_max_stores (src_layout s) ∧
    src_map s (at_mark (src_layout s) 0 r) = se_high_water row0 ∧
    src_map s (at_mark (src_layout s) 1 r) = se_high_water row1 ∧
    fields = row_fields (src_layout s) 0 r row0 ++ row_fields (src_layout s) 1 r row1.

Lemma store_view_shape stride align chunk_slots s : bindable stride align s →
  ∃ fields f, (store_view stride align chunk_slots s).1 = f (store_all fields s) ∧
    in_memory f ∧ row_stored s fields.
Proof.
  intros Hb.
  assert (∀ f, in_memory f → (store_view stride align chunk_slots s).1 = f s →
    ∃ fields f, (store_view stride align chunk_slots s).1 = f (store_all fields s) ∧
      in_memory f ∧ row_stored s fields) as Hnop.
  { intros f Hf E. exists [], f. split; [exact E|]. split; [done|by left]. }
  unfold store_view in *. cbv zeta in *.
  destruct (_ =? 0); [by apply (Hnop (fun s => (refuse Unsupported s).1))|].
  destruct (_ && _); [by apply (Hnop (fun s => (refuse StoreDirectoryInconsistent s).1))|].
  destruct (find_row stride align s (rows s) None) as [[r|] free] eqn:E.
  - pose proof (elem_rows _ _ (find_row_some _ _ _ _ _ _ _ E)) as Hr.
    destruct (negb _); [by apply (Hnop (fun s => (refuse StoreLayoutMismatch s).1))|].
    eexists _, (bind_view r). split; [reflexivity|]. split; [done|].
    right. eexists r, _, _. split; [exact Hr|]. split; [|split; [|reflexivity]]; reflexivity.
  - destruct free as [r|]; [|by apply (Hnop (fun s => (refuse MaxStoresExceeded s).1))].
    assert (r ∈ rows s) as Hr by (by eapply find_row_none; [| |exact E]).
    eexists _, (fun s => bind_view r (set_tables (src_views s)
      (<[Z.to_nat r := mkRow stride align chunk_slots 0]> (src_restored s)) (src_adopted s) s)).
    split; [reflexivity|]. split; [done|]. right. eexists r, _, _. split; [by apply elem_rows|].
    split; [|split; [|reflexivity]]; apply (Hb r E); [by left|by right].
Qed.

Lemma row_stored_calm next s fields st : is_ab next → layout_ok (src_layout s) → row_stored s fields →
  calm (src_layout s) next st (src_map s) (map (fun f => AStore f.1 f.2) fields).
Proof.
  intros Hnext K [->|(r & row0 & row1 & Hr & E0 & E1 & ->)]; [done|].
  apply (same_stores_calm _ _ _ (src_map s)); [done|].
  intros o v Hin. apply elem_of_app in Hin as [Hin|Hin]; intros Ho.
  - by eapply (row_fields_same _ K next Hnext 0); [left|..].
  - by eapply (row_fields_same _ K next Hnext 1); [right|..].
Qed.

Lemma store_view_did next stride align chunk_slots s :
  is_ab next → source_ok s → bindable stride align s →
  (∃ l, did l s (store_view stride align chunk_slots s).1 ∧
    ∀ st, calm (src_layout s) next st (src_map s) l) ∧
  source_ok (store_view stride align chunk_slots s).1.
Proof.
  intros Hnext Hs Hb.
  destruct (store_view_shape stride align chunk_slots s Hb) as (fields & f & -> & Hf & Hst).
  pose proof (row_stored_calm next s fields) as Hc. clear Hb. revert Hst Hc.
  generalize fields as fs. intros fs Hst Hc.
  pose proof (did_store_all fs s) as D. destruct (store_all_frame fs s) as (A1 & A2 & A3 & A4 & A5).
  destruct (Hf (store_all fs s)) as (T & M & L & B1 & B2 & B3 & B4 & B5).
  set (s1 := store_all fs s) in *. split.
  - eexists. split; [|intros st; by apply Hc; [|apply Hs|]]. destruct D as [DT DM DL]. split; congruence.
  - destruct D as [DT DM DL]. eapply (source_ok_frame s); congruence.
Qed.

(** *** Runs *)

Lemma runs_mapped page d l d' : runs page d l d' → dk_mapped d' = foldl (fun m a => remap a m) (dk_mapped d) l.
Proof. induction 1 as [d|a l d d' Hr IH|p l d d' Hr IH]; [done| |exact IH]. by rewrite IH, perform_mapped. Qed.

Lemma runs_cons_inv page a l d d' : runs page d (a :: l) d' →
  ∃ d1, runs page d [] d1 ∧ runs page (perform page a d1) l d'.
Proof.
  remember (a :: l) as al eqn:E. induction 1 as [d|a' l' d d' Hr _|p l' d d' Hr IH]; [done| |].
  - injection E as -> ->. exists d. split; [constructor|done].
  - destruct (IH E) as (d1 & H1 & H2). exists d1. split; [by eapply runs_writeback|done].
Qed.

Lemma runs_app_inv page l1 : ∀ l2 d d', runs page d (l1 ++ l2) d' → ∃ d1, runs page d l1 d1 ∧ runs page d1 l2 d'.
Proof.
  induction l1 as [|a l1 IH]; intros l2 d d' Hr; [exists d; split; [constructor|done]|].
  apply runs_cons_inv in Hr as (d1 & H0 & Hr). destruct (IH l2 _ _ Hr) as (d2 & H1 & H2).
  exists d2. split; [|done]. clear -H0 H1. remember [] as nil eqn:E. induction H0; [by constructor|done|].
  eapply runs_writeback. by apply IHruns.
Qed.

Lemma prefix_cases {A} (a b : list A) : ∀ l, l `prefix_of` a ++ b → l `prefix_of` a ∨ ∃ c, l = a ++ c ∧ c `prefix_of` b.
Proof.
  induction a as [|x a IH]; intros l Hl; [right; by exists l|].
  destruct l as [|y l]; [left; by exists (x :: a)|]. cbn in Hl.
  pose proof (prefix_cons_inv_1 _ _ _ _ Hl) as ->.
  destruct (IH l (prefix_cons_inv_2 _ _ _ _ Hl)) as [Hp|(c & -> & Hc)].
  - left. by apply prefix_cons.
  - right. by exists c.
Qed.

Lemma calm_prefix lo next st m l l' : l' `prefix_of` l → calm lo next st m l → calm lo next st m l'.
Proof. intros [k ->]. rewrite calm_app. by intros []. Qed.

(** The mapping and what the source believes of it agree below the data. *)
Definition mirrors (lo : Layout) (s : Source) (d : disk) : Prop :=
  ∀ o, o < lo_data_offset lo → dk_mapped d o = src_map s o.

Definition punches_data (lo : Layout) (a : action) : Prop :=
  match a with APunch o _ => lo_data_offset lo <= o | _ => True end.

Lemma effect_remap lo l : Forall (punches_data lo) l → ∀ m m',
  (∀ o, o < lo_data_offset lo → m' o = m o) →
  ∀ o, o < lo_data_offset lo → foldl (fun m a => remap a m) m' l o = effect l m o.
Proof.
  induction 1 as [|a l Ha Hl IH]; intros m m' Hm o Ho; [by apply Hm|]. cbn. apply IH; [|done].
  intros o' Ho'. destruct a as [oa v|oa len|len|oa len]; cbn in *; try by apply Hm.
  - unfold store_field. destruct (_ =? _); [done|]. by apply Hm.
  - rewrite (proj2 (Z.leb_gt _ _)) by lia. by apply Hm.
Qed.

Lemma calm_punches lo next st l : ∀ m, calm lo next st m l → Forall (punches_data lo) l.
Proof. induction l as [|a l IH]; intros m; [constructor|]. intros [Ha Hl]. constructor; [by destruct a|by eapply IH]. Qed.

Lemma did_mirrors lo page l s s' d d' : did l s s' → Forall (punches_data lo) l → runs page d l d' →
  mirrors lo s d → mirrors lo s' d'.
Proof.
  intros D Hp Hr Hm o Ho. rewrite (runs_mapped _ _ _ _ Hr), (did_map _ _ _ D). by eapply effect_remap.
Qed.

Lemma did_unique l l' s s' : did l s s' → src_trace s' = rev l' ++ src_trace s → l' = l.
Proof.
  intros D E. rewrite (did_trace _ _ _ D) in E. apply app_inv_tail in E.
  by rewrite <- (rev_involutive l), E, rev_involutive.
Qed.

(** *** A commit in its stages *)

Section committing.
Context {S : Type} (os : nat → expected Z Z) (t : thread).
Notation CP := (Checkpointer S).
Implicit Types (cp : CP) (d : disk) (l : list action).

Notation lay cp := (src_layout (cp_source cp)).

(** The marks the next commit publishes: a registered store's own, else what is there. *)
Definition published cp (r : Z) : Z :=
  foldl (fun m e =>
    match cp_arena cp !! e.1 with
    | Some st => if e.2 =? r then u32 (s_high_water st) else m
    | None => m
    end) (src_map (cp_source cp) (at_mark (lay cp) (cp_next_slot cp) r)) (cp_registered cp).

(** Between commits, on the generation [cp_generation cp] with root [root] and the marks [H]. *)
Record settled cp d (root : Z) (H : Z → Z) : Prop := {
  sd_source : source_ok (cp_source cp);
  sd_next : is_ab (cp_next_slot cp);
  sd_epoch : cp_epoch cp = cp_generation cp + 1;
  sd_generation : 0 <= cp_generation cp < 2 ^ 32 - 1;
  sd_root : in_u32 root;
  sd_fresh : cp_generation cp = 0 → root = 0;
  sd_stage root' H' : at_stage (lay cp) (cp_next_slot cp) (cp_generation cp) root root' H H' Settled d;
  sd_mirrors : mirrors (lay cp) (cp_source cp) d;
  sd_chunks : Forall (fun e => chunk_ok (lay cp) (che_chunk e)) (cp_chunk_quarantine cp);
  sd_registered : Forall (fun e => 0 <= e.2 < lo_max_stores (lay cp)) (cp_registered cp) }.

Lemma mark_quiet lo next r v m : layout_ok lo → is_ab next → 0 <= r < lo_max_stores lo →
  quiet lo next Settled m (AStore (at_mark lo next r) v).
Proof.
  intros K Hn Hr. cbn. intros [(ab & Hab & [E|E])|[(r' & Hr' & E)|[[] _]]]; [| |..|done]; exfalso.
  - pose proof (root_page lo K ab next Hn) as Hp. rewrite <- E, mark_page in Hp by done. lia.
  - by eapply stamp_not_mark; [exact K|exact Hab|exact Hn|exact Hr|].
  - pose proof (mark_inj lo K next (other next) r r' Hn (old_slot_ab next Hn) Hr Hr' E) as [En _].
    by apply (slots_differ next Hn).
Qed.

Lemma commit_marks_calm cp d root H m : settled cp d root H →
  calm (lay cp) (cp_next_slot cp) Settled m (commit_marks cp).
Proof.
  intros Hd. apply calm_all. intros m' a Ha. apply list_elem_of_omap in Ha as ([k id] & Hin & Ha).
  cbn [fst snd] in Ha. destruct (cp_arena cp !! k) as [st|]; cbn in Ha; [|discriminate Ha]. injection Ha as <-.
  pose proof (sd_registered _ _ _ _ Hd) as Hreg.
  rewrite List.Forall_forall in Hreg. apply mark_quiet; [apply Hd|apply Hd|].
  apply (Hreg (k, id)). by apply list_elem_of_In.
Qed.

Lemma commit_marks_stored cp d root H r : settled cp d root H → 0 <= r < lo_max_stores (lay cp) →
  ∀ m, m (at_mark (lay cp) (cp_next_slot cp) r) = src_map (cp_source cp) (at_mark (lay cp) (cp_next_slot cp) r) →
  foldl (fun m a => remap a m) m (commit_marks cp) (at_mark (lay cp) (cp_next_slot cp) r) = published cp r.
Proof.
  intros Hd Hr m Em. unfold published, commit_marks, mark_stores. rewrite <- Em. clear Em.
  pose proof (so_layout _ (sd_source _ _ _ _ Hd)) as K. pose proof (sd_next _ _ _ _ Hd) as Hn.
  generalize (sd_registered _ _ _ _ Hd). generalize (cp_registered cp) as reg. intros reg. revert m.
  induction reg as [|[k id] reg IH]; intros m Hreg; [done|]. apply Forall_cons in Hreg as [Hid Hreg].
  cbn [omap list_omap fst snd foldl]. cbn in Hid.
  destruct (cp_arena cp !! k) as [st|]; cbn [mbind option_bind]; [|by apply IH].
  cbn [foldl remap]. rewrite IH by done. f_equal. unfold store_field.
  destruct (Z.eqb_spec (at_mark (lay cp) (cp_next_slot cp) r) (at_mark (lay cp) (cp_next_slot cp) id)) as [E|Hne].
  - apply (mark_inj _ K) in E as [_ ->]; [|done..]. by rewrite Z.eqb_refl.
  - destruct (Z.eqb_spec id r) as [->|]; done.
Qed.

Lemma sync_calm cp l lo next st m : commit_sync cp l → calm lo next st m l ∧ foldl (fun m a => remap a m) m l = m.
Proof.
  unfold commit_sync. destruct (is_dirty cp); intros ->; [|done]. unfold msyncs.
  induction (map_to_list (src_live (cp_source cp))).*2 as [|c cs IH]; [done|]. cbn. tauto.
Qed.

Lemma drained_calm cp d root H next st l m : settled cp d root H → is_ab next →
  Forall (drain_action (cp_chunk_quarantine cp)) l → calm (lay cp) next st m l.
Proof.
  intros Hd Hn Hl. apply off_protocol_calm; [apply Hd|done|]. eapply Forall_impl; [exact Hl|].
  intros a (e & He & Ha). pose proof (sd_chunks _ _ _ _ Hd) as Hc. rewrite List.Forall_forall in Hc.
  destruct (Hc e) as [Hi Ho]; [by apply list_elem_of_In|].
  destruct Ha as [->| ->]; [done|]. apply entry_off; [apply Hd|done|unfold sizeof_chunk_entry; lia].
Qed.

(** The actions of a commit up to the header [msync], and the whole. *)
Definition commit_actions cp (root_index : Z) sync : list action :=
  (sync ++ commit_marks cp) ++ commit_flip root_index cp.
Definition header_msync cp : action := AMsync 0 (lo_data_offset (lay cp)).

(** How far [l] got in [flip], which [before] precedes. *)
Definition got_to cp (flip l : list action) (st : stage) : Prop :=
  ((st = Settled ∨ st = Stamped) ∨ flip `prefix_of` l) ∧
  (flip ++ [header_msync cp] `prefix_of` l → st = Durable).

Lemma got_to_app cp before flip l st : got_to cp flip l st → got_to cp (before ++ flip) (before ++ l) st.
Proof.
  intros [H1 H2]. split; [destruct H1; [by left|right; by apply prefix_app]|].
  intros Hp. apply H2. rewrite <- app_assoc in Hp. destruct Hp as [k Hp]. rewrite <- !app_assoc in Hp.
  apply app_inv_head in Hp as ->. exists k. by rewrite <- app_assoc.
Qed.

Lemma got_to_short cp flip l st : (st = Settled ∨ st = Stamped) → (length l < length (flip ++ [header_msync cp]))%nat →
  got_to cp flip l st.
Proof. intros Hst Hl. split; [by left|]. intros Hp%prefix_length. lia. Qed.

(** The flip, from a settled disk whose mapping has the marks. *)
Lemma flip_prefix_stage cp d root root' H drained l d' :
  settled cp d root H → in_u32 root' → Forall (drain_action (cp_chunk_quarantine cp)) drained →
  ∀ d1, at_stage (lay cp) (cp_next_slot cp) (cp_generation cp) root root' H (published cp) Settled d1 →
  marked (lay cp) (cp_next_slot cp) (published cp) (dk_mapped d1) →
  l `prefix_of` commit_flip root' cp ++ header_msync cp :: drained →
  runs (lo_page (lay cp)) d1 l d' →
  ∃ st, at_stage (lay cp) (cp_next_slot cp) (cp_generation cp) root root' H (published cp) st d' ∧
    got_to cp (commit_flip root' cp) l st.
Proof.
  intros Hd Hroot' Hdr d1 S1 Hm Hl Hr.
  pose proof (so_layout _ (sd_source _ _ _ _ Hd)) as K. pose proof (sd_next _ _ _ _ Hd) as Hn.
  pose proof (sd_generation _ _ _ _ Hd) as Hg. pose proof (sd_fresh _ _ _ _ Hd) as Hf.
  set (stage_of := at_stage (lay cp) (cp_next_slot cp) (cp_generation cp) root root' H (published cp)) in *.
  assert (∀ st l d d', runs (lo_page (lay cp)) d l d' → calm (lay cp) (cp_next_slot cp) st (dk_mapped d) l →
    stage_of st d → stage_of st d') as Hrun by (intros; by eapply runs_stage).
  destruct l as [|a1 l].
  { exists Settled. split; [by eapply Hrun|]. apply got_to_short; [by left|cbn; lia]. }
  cbn in Hl. pose proof (prefix_cons_inv_1 _ _ _ _ Hl) as ->. apply prefix_cons_inv_2 in Hl.
  apply runs_cons_inv in Hr as (d2 & Hr2 & Hr). pose proof (Hrun _ _ _ _ Hr2 Logic.I S1) as S2.
  unfold commit_flip. rewrite (sd_epoch _ _ _ _ Hd) in *.
  apply stamp_stage in S2; [|done|done|]; [|by rewrite (runs_mapped _ _ _ _ Hr2)].
  destruct l as [|a2 l].
  { exists Stamped. split; [by eapply Hrun|]. apply got_to_short; [by right|cbn; lia]. }
  pose proof (prefix_cons_inv_1 _ _ _ _ Hl) as ->. apply prefix_cons_inv_2 in Hl.
  apply runs_cons_inv in Hr as (d3 & Hr3 & Hr).
  pose proof (Hrun _ _ _ _ Hr3 Logic.I S2) as S3. apply flip_stage in S3; [|done..].
  destruct l as [|a3 l].
  { exists Flipped. split; [by eapply Hrun|]. split; [by right|]. intros Hp%prefix_length. cbn in Hp. lia. }
  pose proof (prefix_cons_inv_1 _ _ _ _ Hl) as ->. apply prefix_cons_inv_2 in Hl.
  apply runs_cons_inv in Hr as (d4 & Hr4 & Hr).
  pose proof (Hrun _ _ _ _ Hr4 Logic.I S3) as S4. apply durable_stage in S4; [|done..].
  exists Durable. split; [|split; [|done]].
  - eapply Hrun; [exact Hr| |exact S4]. eapply calm_prefix; [exact Hl|]. by eapply drained_calm.
  - right. eexists. reflexivity.
Qed.

(** Where a commit cut short leaves the disk. *)
Lemma commit_prefix_stage cp d root root' H sync drained l d' :
  settled cp d root H → in_u32 root' → commit_sync cp sync →
  Forall (drain_action (cp_chunk_quarantine cp)) drained →
  l `prefix_of` commit_actions cp root' sync ++ header_msync cp :: drained →
  runs (lo_page (lay cp)) d l d' →
  ∃ st, at_stage (lay cp) (cp_next_slot cp) (cp_generation cp) root root' H (published cp) st d' ∧
    got_to cp (commit_actions cp root' sync) l st.
Proof.
  intros Hd Hroot' Hsync Hdr Hl Hr.
  pose proof (so_layout _ (sd_source _ _ _ _ Hd)) as K. pose proof (sd_next _ _ _ _ Hd) as Hn.
  pose proof (sd_generation _ _ _ _ Hd) as Hg. pose proof (sd_fresh _ _ _ _ Hd) as Hf.
  unfold commit_actions in *. rewrite <- app_assoc in Hl.
  assert (calm (lay cp) (cp_next_slot cp) Settled (dk_mapped d) (sync ++ commit_marks cp)) as Hc.
  { apply calm_app. split; [by eapply sync_calm|by eapply commit_marks_calm]. }
  apply prefix_cases in Hl as [Hl|(c & -> & Hl)].
  { exists Settled. split.
    - eapply runs_stage; [done..|exact Hr| |apply (sd_stage _ _ _ _ Hd)]. by eapply calm_prefix.
    - apply got_to_short; [by left|]. apply prefix_length in Hl. rewrite !length_app. cbn. rewrite length_app in Hl. lia. }
  apply runs_app_inv in Hr as (d1 & Hr1 & Hr).
  assert (marked (lay cp) (cp_next_slot cp) (published cp) (dk_mapped d1)) as Hm.
  { intros r Hrow. rewrite (runs_mapped _ _ _ _ Hr1), foldl_app.
    rewrite (proj2 (sync_calm cp sync (lay cp) (cp_next_slot cp) Settled _ Hsync)).
    eapply commit_marks_stored; [exact Hd|done|]. apply (sd_mirrors _ _ _ _ Hd).
    by apply (protected_below _ K _ Hn Stamped); right; right; eauto. }
  edestruct (flip_prefix_stage cp d root root' H drained c d' Hd Hroot' Hdr d1) as (st & Sst & G); [|exact Hm|exact Hl|exact Hr|].
  - eapply runs_stage; [done..|exact Hr1|exact Hc|apply (sd_stage _ _ _ _ Hd)].
  - exists st. split; [exact Sst|]. by apply got_to_app.
Qed.

(** *** Operations between commits *)

(** What the source did to its file since [s]. *)
Definition actions_since (s s' : Source) : list action :=
  rev (take (length (src_trace s') - length (src_trace s)) (src_trace s')).

Lemma did_since l s s' : did l s s' → actions_since s s' = l.
Proof.
  intros D. unfold actions_since. rewrite (did_trace _ _ _ D), length_app, length_rev.
  replace (length l + length (src_trace s) - length (src_trace s))%nat with (length (rev l)) by (rewrite length_rev; lia).
  by rewrite take_app_length, rev_involutive.
Qed.

(** What the writer may do: bind, map, release, register, change its arena, free a slot,
    or fail the data sync of a commit. *)
Inductive operation cp : CP → Prop :=
| op_bind stride align chunk_slots : bindable stride align (cp_source cp) →
    operation cp (set_source (store_view stride align chunk_slots (cp_source cp)).1 cp)
| op_acquire_for id size : room size (cp_source cp) →
    operation cp (set_source (acquire_for os id size (cp_source cp)).1 cp)
| op_acquire size : room size (cp_source cp) →
    operation cp (set_source (acquire os size (cp_source cp)).1 cp)
| op_release base s' c : WorkspaceFile.release os base (cp_source cp) = (s', c) →
    operation cp (match c with Some c => on_chunk_release c (set_source s' cp) | None => set_source s' cp end)
| op_register k : operation cp (register_store k cp)
| op_arena arena : operation cp (set_arena arena cp)
| op_release_slot k index : operation cp (release_slot t k index cp)
| op_refused cp' e : sync_if_dirty os cp = (cp', Err e) → operation cp cp'.

(** The source moved on; everything else the invariant speaks of is as it was. *)
Lemma settled_source cp cp' d d' root H l :
  settled cp d root H → did l (cp_source cp) (cp_source cp') →
  calm (lay cp) (cp_next_slot cp) Settled (dk_mapped d) l → source_ok (cp_source cp') →
  runs (lo_page (lay cp)) d l d' →
  cp_epoch cp' = cp_epoch cp → cp_generation cp' = cp_generation cp → cp_next_slot cp' = cp_next_slot cp →
  Forall (fun e => chunk_ok (lay cp) (che_chunk e)) (cp_chunk_quarantine cp') →
  Forall (fun e => 0 <= e.2 < lo_max_stores (lay cp)) (cp_registered cp') →
  settled cp' d' root H.
Proof.
  intros [S1 S2 S3 S4 S5 S6 S7 S8 S9 S10] D Hc Hs Hr E1 E2 E3 Hq Hreg.
  pose proof (did_layout _ _ _ D) as El. split; rewrite ?El, ?E1, ?E2, ?E3; try done.
  - intros root' H'. eapply runs_stage; [apply S1|done..|exact Hr|exact Hc|apply S7].
  - eapply did_mirrors; [exact D|by eapply calm_punches|exact Hr|done].
Qed.

Lemma did_off_calm s s' next st m : source_ok s → is_ab next → did_off s s' →
  ∃ l, did l s s' ∧ calm (src_layout s) next st m l.
Proof. intros Hs Hn (l & D & F). exists l. split; [done|]. apply off_protocol_calm; [apply Hs|done|done]. Qed.

Lemma store_id_range stride align s :
  store_id stride align s = k_workspace_no_owner ∨ 0 <= store_id stride align s < lo_max_stores (src_layout s).
Proof.
  unfold store_id. destruct (list_find _ (rows s)) as [[i r]|] eqn:E; [right|by left].
  apply list_find_Some in E as (E & _). by apply elem_rows, (list_elem_of_lookup_2 _ i).
Qed.

Lemma msyncs_calm lo next st chunks : ∀ m, calm lo next st m (msyncs chunks).
Proof. induction chunks as [|c chunks IH]; intros m; [done|]. by split; [|apply IH]. Qed.

Lemma calm_agree lo next st l : layout_ok lo → is_ab next → ∀ m m',
  (∀ o, o < lo_data_offset lo → m' o = m o) → calm lo next st m l → calm lo next st m' l.
Proof.
  intros K Hn. induction l as [|a l IH]; intros m m' Hm; [done|]. intros [Ha Hl]. split.
  - destruct a; try done. cbn in *. intros Hp. rewrite Hm; [by apply Ha|]. by apply (protected_below lo K next Hn st).
  - eapply IH; [|exact Hl]. intros o Ho. destruct a as [oa v|oa len|len|oa len]; cbn; try by apply Hm.
    + unfold store_field. destruct (_ =? _); [done|by apply Hm].
    + destruct (_ && _); [done|by apply Hm].
Qed.

Lemma sync_chunks_ok chunks : ∀ n s, source_ok s → source_ok (sync_chunks os chunks n s).1.
Proof.
  induction chunks as [|c chunks IH]; intros n s Hs; cbn [sync_chunks]; [done|].
  pose proof (io_ok os (Some (AMsync (lc_offset c) (lc_size c))) s Hs) as Hio.
  destruct (io os _ s) as [s1 [v|e]]; cbn in Hio; [by apply IH|]. by eapply (source_ok_frame s1).
Qed.

Lemma sync_refused cp cp' e : sync_if_dirty os cp = (cp', Err e) → ∃ s chunks,
  cp' = set_source s cp ∧ did (msyncs chunks) (cp_source cp) s ∧ (source_ok (cp_source cp) → source_ok s).
Proof.
  unfold sync_if_dirty. destruct (is_dirty cp); [|done]. unfold sync_data.
  pose proof (sync_chunks_did os (map_to_list (src_live (cp_source cp))).*2 0 (cp_source cp)) as Hs.
  pose proof (sync_chunks_ok (map_to_list (src_live (cp_source cp))).*2 0 (cp_source cp)) as Hk.
  destruct (sync_chunks os _ 0 (cp_source cp)) as [s [n|e']]; intros [= <- <-].
  destruct Hs as (chunks & D & _). by exists s, chunks.
Qed.

Lemma release_slot_frame k index cp :
  cp_source (release_slot t k index cp) = cp_source cp ∧ cp_epoch (release_slot t k index cp) = cp_epoch cp ∧
  cp_generation (release_slot t k index cp) = cp_generation cp ∧
  cp_next_slot (release_slot t k index cp) = cp_next_slot cp ∧
  cp_chunk_quarantine (release_slot t k index cp) = cp_chunk_quarantine cp ∧
  cp_registered (release_slot t k index cp) = cp_registered cp.
Proof.
  unfold release_slot. destruct (cp_arena cp !! k) as [st|]; [|done].
  by destruct (SlotStore.release t index st) as [st' [i|]].
Qed.

(** Every operation is calm, and keeps what the invariant says in memory. *)
Lemma operation_did cp cp' d root H : operation cp cp' → settled cp d root H →
  (∃ l, did l (cp_source cp) (cp_source cp') ∧ calm (lay cp) (cp_next_slot cp) Settled (dk_mapped d) l) ∧
  source_ok (cp_source cp') ∧
  cp_epoch cp' = cp_epoch cp ∧ cp_generation cp' = cp_generation cp ∧ cp_next_slot cp' = cp_next_slot cp ∧
  Forall (fun e => chunk_ok (lay cp) (che_chunk e)) (cp_chunk_quarantine cp') ∧
  Forall (fun e => 0 <= e.2 < lo_max_stores (lay cp)) (cp_registered cp').
Proof.
  intros Hop [S1 S2 S3 S4 S5 S6 S7 S8 S9 S10]. pose proof (so_layout _ S1) as K.
  assert (∀ s, did_off (cp_source cp) s →
    ∃ l, did l (cp_source cp) s ∧ calm (lay cp) (cp_next_slot cp) Settled (dk_mapped d) l) as Hoff.
  { intros s Hs. by apply did_off_calm. }
  assert (did_off (cp_source cp) (cp_source cp)) as Hnop by (by apply did_off_refl).
  destruct Hop as [stride align slots Hb|id size Hroom|size Hroom|base s' c E|k|arena|k index|cp' e E].
  - destruct (store_view_did _ stride align slots _ S2 S1 Hb) as [(l & D & Hc) Hs].
    split; [|by split]. exists l. split; [exact D|]. by eapply calm_agree.
  - destruct (acquire_for_did os id size _ S1 Hroom) as [D Hs]. split; [by apply Hoff|by split].
  - destruct (acquire_did os size _ S1 Hroom) as [D Hs]. split; [by apply Hoff|by split].
  - destruct (release_did os base _ S1) as (D & Hs & Hc). rewrite E in D, Hs, Hc.
    destruct c as [c|]; (split; [by apply Hoff|]); (split; [done|]); do 3 (split; [done|]); (split; [|done]).
    + cbn. apply Forall_app. split; [done|]. constructor; [by apply Hc|constructor].
    + done.
  - unfold register_store. destruct (cp_arena cp !! k) as [st|]; [|by split; [apply Hoff|]].
    destruct (store_id_range (u32 (s_stride st)) (u32 (s_align st)) (cp_source cp)) as [->|Hid]; [by split; [apply Hoff|]|].
    destruct (_ || _); [by split; [apply Hoff|]|]. split; [by apply Hoff|]. do 5 (split; [done|]).
    cbn. apply Forall_app. split; [done|]. by constructor.
  - by split; [apply Hoff|].
  - destruct (release_slot_frame k index cp) as (-> & -> & -> & -> & -> & ->). by split; [apply Hoff|].
  - destruct (sync_refused _ _ _ E) as (s & chunks & -> & D & Hs). split; [|split; [by apply Hs|done]].
    eexists. split; [exact D|]. apply msyncs_calm.
Qed.

(** *** The commit keeps what the source knows *)

Lemma store_ok off v s : source_ok s → source_ok (store off v s).
Proof. intros Hs. by eapply (source_ok_frame s). Qed.

Lemma publish_marks_ok next arena (registered : list (nat * Z)) : ∀ s : Source,
  source_ok s → source_ok (publish_marks (S:=S) next arena registered s).
Proof.
  induction registered as [|e registered IH]; intros s Hs; [done|]. unfold publish_marks. cbn [foldl].
  apply IH. destruct (arena !! e.1); [by apply store_ok|done].
Qed.

Lemma drain_chunks_ok chunks : ∀ cp, source_ok (cp_source cp) →
  Forall (fun e => chunk_ok (lay cp) (che_chunk e)) chunks →
  source_ok (cp_source (foldl (fun cp e => drain_chunk os e cp) cp chunks)).
Proof.
  induction chunks as [|e chunks IH]; intros cp Hs Hc; [done|]. apply Forall_cons in Hc as [He Hc]. cbn [foldl].
  destruct (punch_off os (che_chunk e) (cp_source cp) Hs He) as [D Hs'].
  apply IH; unfold drain_chunk; destruct (_ <=? _); cbn [cp_source set_source set_quarantines]; try done.
  by rewrite (did_off_layout _ _ D).
Qed.

Lemma drain_fences_ok cp : source_ok (cp_source cp) →
  Forall (fun e => chunk_ok (lay cp) (che_chunk e)) (cp_chunk_quarantine cp) →
  source_ok (cp_source (drain_fences os t cp)).
Proof.
  intros Hs Hc. unfold drain_fences. set (cp0 := set_quarantines [] _ _ _ cp).
  destruct (drain_slots_frame t (cp_quarantine cp) cp0) as (E1 & E2 & E3). cbv zeta in *.
  apply drain_chunks_ok; cbn; by rewrite E1.
Qed.

Lemma publish_root_ok root_index cp : source_ok (cp_source cp) → source_ok (cp_source (publish_root root_index cp)).
Proof. intros Hs. unfold publish_root. cbn. by do 2 apply store_ok; apply publish_marks_ok. Qed.

Lemma commit_source_ok root_index cp d root H : settled cp d root H →
  source_ok (cp_source (commit os t root_index cp).1).
Proof.
  intros Hd. pose proof (sd_source _ _ _ _ Hd) as Hs. unfold commit.
  pose proof (sync_if_dirty_did os cp) as D.
  assert (source_ok (cp_source (sync_if_dirty os cp).1)) as H1.
  { unfold sync_if_dirty, sync_data. destruct (is_dirty cp); [|done].
    pose proof (sync_chunks_ok (map_to_list (src_live (cp_source cp))).*2 0 _ Hs) as H1.
    by destruct (sync_chunks os _ 0 _) as [s [n|e]]. }
  destruct (sync_if_dirty os cp) as [cp1 [[]|e]]; [|done]. cbn in H1.
  destruct D as (sync & _ & D & _ & _ & _ & Q).
  pose proof (publish_root_ok root_index cp1 H1) as H2. destruct (publish_root_did root_index cp1) as [D2 _].
  unfold sync_header. set (act := Some _).
  pose proof (io_ok os act _ H2) as H3. destruct (io_extent os act (cp_source (publish_root root_index cp1))) as (_ & _ & L3).
  destruct (io os act _) as [s3 [v|e]]; cbn [fst] in *; [|by eapply (source_ok_frame s3)].
  unfold advance. cbn [cp_source snapshot]. apply drain_fences_ok; [exact H3|].
  cbn. rewrite Q, L3, (did_layout _ _ _ D2), (did_layout _ _ _ D). apply Hd.
Qed.

Lemma commit_punches cp d root H root_index sync drained : settled cp d root H → commit_sync cp sync →
  Forall (drain_action (cp_chunk_quarantine cp)) drained →
  Forall (punches_data (lay cp)) (commit_actions cp root_index sync ++ header_msync cp :: drained).
Proof.
  intros Hd Hsync Hdr. unfold commit_actions. rewrite !Forall_app. split_and!.
  - eapply calm_punches, (sync_calm _ _ _ 0 Settled blank Hsync).
  - eapply calm_punches, (commit_marks_calm _ _ _ _ blank Hd).
  - by repeat constructor.
  - constructor; [done|]. eapply calm_punches, (drained_calm _ _ _ _ _ Settled _ blank Hd (sd_next _ _ _ _ Hd) Hdr).
Qed.

(** A commit that returns leaves the file settled on its root. *)
Lemma commit_settled root_index cp cp' d d' root H :
  settled cp d root H → in_u32 root_index → cp_generation cp + 1 < 2 ^ 32 - 1 →
  commit os t root_index cp = (cp', Ok tt) →
  runs (lo_page (lay cp)) d (actions_since (cp_source cp) (cp_source cp')) d' →
  settled cp' d' root_index (published cp) ∧ cp_generation cp' = cp_generation cp + 1.
Proof.
  intros Hd Hroot Hg E Hr. pose proof (commit_did os t root_index cp) as D.
  pose proof (commit_source_ok root_index cp d root H Hd) as Hs. rewrite E in D, Hs. cbn in Hs.
  destruct D as (sync & drained & Hsync & Hdr & D & _ & Q & E1 & E2 & E3 & E4).
  rewrite (did_since _ _ _ D) in Hr. pose proof Hd as [S1 S2 S3 S4 S5 S6 S7 S8 S9 S10].
  assert (sync ++ commit_marks cp ++ commit_flip root_index cp ++ header_msync cp :: drained =
    commit_actions cp root_index sync ++ header_msync cp :: drained) as El.
  { unfold commit_actions. by rewrite <- !app_assoc. }
  unfold header_msync in El at 1. rewrite El in D, Hr.
  destruct (commit_prefix_stage cp d root root_index H sync drained _ d' Hd Hroot Hsync Hdr
    (reflexivity _) Hr) as (st & Hst & _ & Hdur).
  rewrite Hdur in Hst by (exists drained; by rewrite <- !app_assoc).
  pose proof (did_layout _ _ _ D) as L. rewrite S3 in E1, E2. split; [|done].
  split; rewrite ?L, ?E1, ?E2, ?E3, ?E4; try done.
  - by destruct (other_cases _ S2) as [[-> ->]|[-> ->]]; [right|left].
  - apply u32_small. unfold in_u32. lia.
  - lia.
  - lia.
  - intros root' H'. eapply durable_settled; [done|lia|lia|exact Hroot|exact Hst].
  - eapply did_mirrors; [exact D| |exact Hr|done]. by eapply commit_punches.
  - rewrite List.Forall_forall in *. intros e He. apply S9. apply list_elem_of_In, Q. by apply list_elem_of_In.
Qed.
End committing.

(** *** The data under a root *)

(** An action that does not write offset [o]. *)
Definition leaves (o : Z) (a : action) : Prop :=
  match a with
  | AStore o' _ => o' ≠ o
  | APunch off len => ¬ (off <= o < off + len)
  | AMsync _ _ | ATruncate _ => True
  end.

Lemma leaves_mapped o a m : leaves o a → remap a m o = m o.
Proof.
  destruct a as [o' v|off len|len|off len]; cbn; intros Ha; [|done..|].
  - unfold store_field. by destruct (Z.eqb_spec o o') as [<-|].
  - destruct (Z.leb_spec off o), (Z.ltb_spec o (off + len)); cbn; (done || lia).
Qed.

Lemma runs_leaves page d l d' o : runs page d l d' → Forall (leaves o) l →
  dk_mapped d' o = dk_mapped d o ∧ (dk_durable d o = dk_mapped d o → dk_durable d' o = dk_mapped d o).
Proof.
  induction 1 as [d|a l d d' Hr IH|p l d d' Hr IH]; intros Hl; [done| |].
  - apply Forall_cons in Hl as [Ha Hl]. destruct (IH Hl) as [Hm Hu].
    pose proof (leaves_mapped o a (dk_mapped d) Ha) as Em. rewrite perform_mapped, Em in *. split; [done|].
    intros E. apply Hu. destruct a; cbn; rewrite ?E; try done. by destruct (_ && _).
  - destruct (IH Hl) as [Hm Hu]. split; [exact Hm|]. intros E. apply Hu. cbn. rewrite E. by destruct (_ && _).
Qed.

(** A range the program synced and then left alone is on the disk. *)
Lemma runs_synced page d l1 off len l2 d' o : 0 < page → off <= o < off + len →
  runs page d (l1 ++ AMsync off len :: l2) d' → Forall (leaves o) l1 → Forall (leaves o) l2 →
  dk_durable d' o = dk_mapped d o.
Proof.
  intros Hp Ho Hr H1 H2. apply runs_app_inv in Hr as (d1 & Hr1 & Hr).
  apply runs_cons_inv in Hr as (d2 & Hr2 & Hr).
  destruct (runs_leaves _ _ _ _ o Hr1 H1) as [E1 _].
  destruct (runs_leaves _ _ _ _ o Hr2 (List.Forall_nil _)) as [E2 _].
  destruct (runs_leaves _ _ _ _ o Hr H2) as [E3 E4]. rewrite perform_mapped in E3, E4. cbn [remap] in E3, E4.
  rewrite <- E1, <- E2. apply E4. cbn.
  rewrite (proj2 (Z.leb_le _ _)) by (apply Z.div_le_mono; lia).
  rewrite (proj2 (Z.leb_le _ _)) by (apply Z.div_le_mono; lia). done.
Qed.

Section crash.
Context {S : Type} (os : nat → expected Z Z) (t : thread).
Notation CP := (Checkpointer S).
Implicit Types (cp : CP) (d : disk) (l : list action).
Notation lay cp := (src_layout (cp_source cp)).

(** The bytes of the mapped chunks, but for those a fence is about to punch, are on the
    disk as they were in the mapping. *)
Definition data_durable cp (d d' : disk) : Prop :=
  ∀ base c o, src_live (cp_source cp) !! base = Some c → lc_offset c <= o < lc_offset c + lc_size c →
    (∀ e, e ∈ cp_chunk_quarantine cp →
       ¬ (lc_offset (che_chunk e) <= o < lc_offset (che_chunk e) + lc_size (che_chunk e))) →
    dk_durable d' o = dk_mapped d o.

(** The header's stores and the drain leave the chunks' bytes alone. *)
Lemma protocol_leaves cp d root root' H drained o : settled cp d root H → lo_data_offset (lay cp) <= o →
  Forall (drain_action (cp_chunk_quarantine cp)) drained →
  (∀ e, e ∈ cp_chunk_quarantine cp →
     ¬ (lc_offset (che_chunk e) <= o < lc_offset (che_chunk e) + lc_size (che_chunk e))) →
  Forall (leaves o) (commit_marks cp ++ commit_flip root' cp ++ header_msync cp :: drained).
Proof.
  intros Hd Ho Hdr Hq. pose proof (sd_source _ _ _ _ Hd) as Hs. pose proof (so_layout _ Hs) as K.
  pose proof (sd_next _ _ _ _ Hd) as Hn.
  assert (∀ st o' v, protected (lay cp) (cp_next_slot cp) st o' → leaves o (AStore o' v)) as Hp.
  { intros st o' v Hp. apply (protected_below _ K _ Hn) in Hp. cbn. lia. }
  rewrite !Forall_app, Forall_cons. split; [|split; [|split; [done|]]].
  - apply List.Forall_forall. intros a Ha%list_elem_of_In. apply list_elem_of_omap in Ha as ([k id] & Hin & Ha).
    cbn [fst snd] in Ha. destruct (cp_arena cp !! k); cbn in Ha; [|discriminate Ha]. injection Ha as <-.
    apply (Hp Stamped). right. right. split; [done|]. exists id. split; [|done].
    pose proof (sd_registered _ _ _ _ Hd) as Hreg. rewrite List.Forall_forall in Hreg.
    by apply (Hreg (k, id)), list_elem_of_In.
  - repeat constructor; apply (Hp Settled); left; eexists; (split; [exact Hn|]); auto.
  - eapply Forall_impl; [exact Hdr|]. intros a (e & He & [->| ->]); [by apply Hq|].
    pose proof (sd_chunks _ _ _ _ Hd) as Hc. rewrite List.Forall_forall in Hc.
    destruct (Hc e) as [Hi _]; [by apply list_elem_of_In|]. cbn.
    destruct (lk_directory _ K) as [_ Hdir]. pose proof (lk_snapshots _ K). pose proof (lk_page _ K).
    unfold at_entry, sizeof_header, sizeof_chunk_entry in *. lia.
Qed.

Lemma msyncs_leaves chunks o : Forall (leaves o) (msyncs chunks).
Proof. induction chunks; by constructor. Qed.

Lemma commit_data_durable cp d root root' H sync drained l d' :
  settled cp d root H → commit_sync cp sync → is_dirty cp = true →
  Forall (drain_action (cp_chunk_quarantine cp)) drained →
  l `prefix_of` commit_actions cp root' sync ++ header_msync cp :: drained →
  commit_actions cp root' sync `prefix_of` l →
  runs (lo_page (lay cp)) d l d' → data_durable cp d d'.
Proof.
  intros Hd Hsync Hdirty Hdr [k2 Hl] [k ->] Hr base c o Hc Ho Hq.
  pose proof (sd_source _ _ _ _ Hd) as Hs. destruct (so_live _ Hs base c Hc) as [_ Hoff].
  pose proof (protocol_leaves cp d root root' H drained o Hd ltac:(lia) Hdr Hq) as Hleaves.
  unfold commit_actions in *. rewrite <- !app_assoc in *. do 3 apply app_inv_head in Hl. rewrite Hl in Hleaves.
  rewrite !app_assoc in Hleaves. apply Forall_app in Hleaves as [Hleaves _]. rewrite <- !app_assoc in Hleaves.
  unfold commit_sync in Hsync. rewrite Hdirty in Hsync. subst sync.
  assert (c ∈ (map_to_list (src_live (cp_source cp))).*2) as Hin.
  { apply list_elem_of_fmap. exists (base, c). split; [done|]. by apply elem_of_map_to_list. }
  apply list_elem_of_split in Hin as (c1 & c2 & Ec). rewrite Ec in Hr. unfold msyncs in Hr.
  rewrite map_app in Hr. cbn [map] in Hr. rewrite <- app_assoc in Hr. cbn [app] in Hr.
  eapply runs_synced; [apply (lk_page _ (so_layout _ Hs))|exact Ho|exact Hr|apply msyncs_leaves|].
  apply Forall_app. split; [apply msyncs_leaves|exact Hleaves].
Qed.

Lemma settled_resumes cp d root H : settled cp d root H →
  resumes (lay cp) (dk_durable d) (cp_generation cp) root H.
Proof.
  intros Hd. pose proof Hd as [S1 S2 S3 S4 S5 S6 S7 _ _ _].
  exact (stage_resumes (lay cp) _ _ root root H H S2 S4 S5 S6 Settled d (S7 root H)).
Qed.

(** What a commit's outcome says of its actions. *)
Lemma commit_actions_since root_index cp :
  let l := actions_since (cp_source cp) (cp_source (commit os t root_index cp).1) in
  (∃ chunks, l = msyncs chunks ∧ (commit os t root_index cp).2 ≠ Ok tt) ∨
  ∃ sync drained, commit_sync cp sync ∧ Forall (drain_action (cp_chunk_quarantine cp)) drained ∧
    l `prefix_of` commit_actions cp root_index sync ++ header_msync cp :: drained ∧
    ((commit os t root_index cp).2 = Ok tt → l = commit_actions cp root_index sync ++ header_msync cp :: drained).
Proof.
  pose proof (commit_did os t root_index cp) as D. destruct (commit os t root_index cp) as [cp' [[]|e]]; cbv zeta; cbn [fst snd].
  - right. destruct D as (sync & drained & Hsync & Hdr & D & _). exists sync, drained.
    split; [done|]. split; [done|]. rewrite (did_since _ _ _ D). unfold commit_actions. rewrite <- !app_assoc. done.
  - destruct D as [(chunks & D)|(sync & Hsync & D)].
    + left. exists chunks. by rewrite (did_since _ _ _ D).
    + right. exists sync, []. split; [done|]. split; [constructor|]. rewrite (did_since _ _ _ D).
      unfold commit_actions. rewrite <- app_assoc. split; [|intros [=]].
      exists [header_msync cp]. by rewrite <- !app_assoc.
Qed.


(** A session: the checkpointer, its disk, and the root and marks last committed. *)
Record session := mkSession { ss_cp : CP; ss_disk : disk; ss_root : Z; ss_marks : Z → Z }.

Notation lays w := (src_layout (cp_source (ss_cp w))).

(** Actions reach the file as they are done; record bytes are stored to the chunks at
    any time; the file holds fewer than [2^32 - 2] commits. *)
Inductive session_step (w : session) : session → Prop :=
| step_operation cp' d' : operation os t (ss_cp w) cp' →
    runs (lo_page (lays w)) (ss_disk w) (actions_since (cp_source (ss_cp w)) (cp_source cp')) d' →
    session_step w (mkSession cp' d' (ss_root w) (ss_marks w))
| step_write off v d' : lo_data_offset (lays w) <= off →
    runs (lo_page (lays w)) (ss_disk w) [AStore off v] d' →
    session_step w (mkSession (ss_cp w) d' (ss_root w) (ss_marks w))
| step_commit root_index cp' d' : in_u32 root_index → cp_generation (ss_cp w) + 1 < 2 ^ 32 - 1 →
    commit os t root_index (ss_cp w) = (cp', Ok tt) →
    runs (lo_page (lays w)) (ss_disk w) (actions_since (cp_source (ss_cp w)) (cp_source cp')) d' →
    session_step w (mkSession cp' d' root_index (published (ss_cp w))).

Definition session_ok (w : session) : Prop := settled (ss_cp w) (ss_disk w) (ss_root w) (ss_marks w).

Lemma write_settled cp d d' root H off v : settled cp d root H → lo_data_offset (lay cp) <= off →
  runs (lo_page (lay cp)) d [AStore off v] d' → settled cp d' root H.
Proof.
  intros [S1 S2 S3 S4 S5 S6 S7 S8 S9 S10] Ho Hr. split; try done.
  - intros root' H'. eapply runs_stage; [apply S1|done..|exact Hr| |apply S7].
    apply off_protocol_calm; [apply S1|done|]. constructor; [by right|constructor].
  - intros o Hlt. rewrite (runs_mapped _ _ _ _ Hr). cbn. unfold store_field.
    destruct (Z.eqb_spec o off); [lia|]. by apply S8.
Qed.

Lemma session_step_ok w w' : session_step w w' → session_ok w → session_ok w'.
Proof.
  intros [cp' d' Hop Hr|off v d' Ho Hr|root_index cp' d' Hroot Hg E Hr] Hw; unfold session_ok in *; cbn.
  - destruct (operation_did os t _ _ _ _ _ Hop Hw) as ((l & D & Hc) & Hs & E1 & E2 & E3 & Hq & Hreg).
    rewrite (did_since _ _ _ D) in Hr. by eapply settled_source.
  - by eapply write_settled.
  - by eapply commit_settled.
Qed.

End crash.

(** ** A fresh file *)

Lemma select_root_image s : select_root s = select_image (src_layout s) (src_map s).
Proof. done. Qed.

Lemma blank_stage lo root' H' : at_stage lo 0 0 0 root' (fun _ => 0) H' Settled (mkDisk blank blank).
Proof.
  assert (holds_old lo 0 0 0 (fun _ => 0) blank) as Hold by done.
  assert (older 0 0 blank) as Holder by by right.
  split; [done|]. split; [done|]. split; [done|]. split; [done|]. by split.
Qed.

Lemma fresh_layout_ok page max_chunks max_stores lo k :
  page = 2 ^ k → 7 <= k < 32 → in_u32 max_chunks → in_u32 max_stores →
  fresh_layout page max_chunks max_stores = Ok lo →
  layout_ok lo ∧ lo_page lo = page ∧ in_u32 (lo_max_chunks lo) ∧ 0 < lo_max_stores lo.
Proof.
  intros Ep Hk Hc Hst. unfold fresh_layout, in_u32 in *.
  set (chunks := if max_chunks =? 0 then _ else _). set (stores := if max_stores =? 0 then _ else _).
  assert (0 <= chunks < 2 ^ 32) as Hc' by (unfold chunks, k_workspace_default_max_chunks; destruct (_ =? 0); lia).
  clearbody chunks.
  assert (0 < stores < 2 ^ 32) as Hs' by (unfold stores, k_workspace_default_max_stores; destruct (Z.eqb_spec max_stores 0); lia).
  clearbody stores.
  assert (128 <= page < 2 ^ 32) as Hp.
  { subst page. split; [change 128 with (2 ^ 7); apply Z.pow_le_mono_r; lia|apply Z.pow_lt_mono_r; lia]. }
  assert (u64 (stores * sizeof_store_entry) = stores * 16) as E1 by (apply u64_small; unfold in_u64, sizeof_store_entry; lia).
  assert (u64 (chunks * sizeof_chunk_entry) = chunks * 24) as E2 by (apply u64_small; unfold in_u64, sizeof_chunk_entry; lia).
  rewrite E1, E2. unfold sizeof_snapshot, sizeof_header.
  rewrite (u64_small (8 + stores * 16)), (u64_small (112 + chunks * 24)) by (unfold in_u64; lia).
  destruct (Z.ltb_spec page (8 + stores * 16)) as [|Hfit]; [done|]. intros [= <-].
  pose proof (align_up_pow2 (112 + chunks * 24) k) as Ea. rewrite <- Ep in Ea. rewrite Ea by lia.
  set (q := (112 + chunks * 24 + page - 1) / page).
  assert (q * page < 112 + chunks * 24 + page ∧ 112 + chunks * 24 <= q * page) as [Hq1 Hq2].
  { unfold q. pose proof (Z.mul_succ_div_gt (112 + chunks * 24 + page - 1) page).
    pose proof (Z.mul_div_le (112 + chunks * 24 + page - 1) page). lia. }
  clearbody q. rewrite (u64_small (2 * page)), u64_small by (unfold in_u64; lia). split; [|cbn; unfold in_u32; lia]. split; cbn.
  - lia.
  - exists k. split; [lia|done].
  - apply Z.mod_mul. lia.
  - unfold at_entry, sizeof_header, sizeof_chunk_entry. lia.
  - lia.
  - unfold sizeof_snapshot, sizeof_store_entry. lia.
Qed.

Lemma create_shape (os : nat → expected Z Z) page_query max_chunks max_stores s :
  create os page_query max_chunks max_stores = Ok s →
  ∃ lo, fresh_layout (if 0 <? page_query then page_query else 4096) max_chunks max_stores = Ok lo ∧
    s = store_all (header_fields lo) (new_source lo blank (lo_data_offset lo) 0 false 3).
Proof.
  unfold create. cbv zeta. destruct (fresh_layout _ max_chunks max_stores) as [lo|e] eqn:E; [|done].
  cbn [mbind expected_bind]. destruct (os 0%nat); [|done]. destruct (os 1%nat); [|done]. destruct (os 2%nat); [|done].
  intros [= <-]. by exists lo.
Qed.

Lemma header_fields_calm lo next st : layout_ok lo → is_ab next →
  calm lo next st blank (map (fun f => AStore f.1 f.2) (header_fields lo)).
Proof.
  intros K Hn. apply (same_stores_calm _ _ _ blank); [done|]. intros o v Hin Hp.
  assert (∀ o v, 0 <= o < 112 → o ≠ 40 → o ≠ 48 → quiet lo next st blank (AStore o v)) as Hq.
  { intros o' v' Ho H40 H48. apply off_protocol_quiet; [done..|]. left. cbn.
    destruct (lk_directory _ K) as [H0 Hd]. unfold at_entry, sizeof_header, sizeof_chunk_entry in Hd. lia. }
  unfold header_fields in Hin. rewrite !elem_of_cons, elem_of_nil in Hin.
  destruct Hin as [E|[E|[E|[E|[E|[E|[E|[E|[E|[E|[E|[]]]]]]]]]]]]; injection E as -> ->;
    try done; by apply (Hq _ _); cbn.
Qed.

Lemma effect_stores fields : ∀ m,
  foldl (fun m a => remap a m) m (map (fun f => AStore f.1 f.2) fields) = effect (map (fun f => AStore f.1 f.2) fields) m.
Proof. induction fields as [|f fields IH]; intros m; [done|]. apply IH. Qed.

Lemma runs_plain page l : ∀ d, runs page d l (foldl (fun d a => perform page a d) d l).
Proof. induction l as [|a l IH]; intros d; [constructor|]. constructor. apply IH. Qed.

(** The mapping of a settled disk selects the committed root. *)
Lemma settled_selects lo next g root H d :
  is_ab next → 0 <= g < 2 ^ 32 - 1 → in_u32 root → (g = 0 → root = 0) →
  at_stage lo next g root root H H Settled d →
  ∃ slot, select_image lo (dk_mapped d) = mkSelection slot (mkRoot g root) true.
Proof.
  intros Hn Hg Hroot Hf (M & U & H1 & H2 & H3 & H4).
  destruct (stage_resumes lo next g root root H H Hn Hg Hroot Hf Settled (mkDisk (dk_mapped d) (dk_mapped d)))
    as (slot & Hsel & _); [|by exists slot]. by repeat split; try apply M.
Qed.

Section opening.
Context {S : Type} (os : nat → expected Z Z).
Notation CP := (Checkpointer S).
Implicit Types (cp : CP) (d : disk) (s : Source) (img : image).

(** What a checkpointer takes from a source that resumes [root]. *)
Lemma construct_fields s arena cp slot g root :
  select_image (src_layout s) (src_map s) = mkSelection slot (mkRoot g root) true →
  construct s arena = Ok cp →
  (cp_source cp = WorkspaceFile.set_release_fence true s ∧ cp_arena cp = arena) ∧
  cp_generation cp = g ∧ cp_epoch cp = u32 (g + 1) ∧
  cp_next_slot cp = (if g =? 0 then 0 else other slot) ∧
  cp_chunk_quarantine cp = [] ∧ cp_registered cp = [].
Proof.
  unfold construct. rewrite select_root_image. intros ->. cbn. intros [= <-]. done.
Qed.

(** A freshly created file and its checkpointer are a session: settled on generation
    zero, whichever pages of the new header have reached the disk. *)
Lemma created_settled page_query max_chunks max_stores k s arena cp d :
  (if 0 <? page_query then page_query else 4096) = 2 ^ k → 7 <= k < 32 →
  in_u32 max_chunks → in_u32 max_stores →
  create os page_query max_chunks max_stores = Ok s → construct s arena = Ok cp →
  runs (2 ^ k) (mkDisk blank blank) (rev (src_trace s)) d →
  settled cp d 0 (fun _ => 0).
Proof.
  intros Ep Hk Hc Hst (lo & El & ->)%create_shape Hcp Hr.
  destruct (fresh_layout_ok _ _ _ _ k Ep Hk Hc Hst El) as (K & Epage & _ & _).
  set (s0 := new_source _ _ _ _ _ _) in *.
  pose proof (did_store_all (header_fields lo) s0) as D.
  destruct (store_all_frame (header_fields lo) s0) as (F1 & F2 & F3 & F4 & F5). cbv zeta in *.
  revert Hcp Hr D F1 F2 F3 F4 F5. generalize (store_all (header_fields lo) s0). intros s Hcp Hr [T M L] F1 F2 F3 F4 F5.
  change (src_trace s0) with (@nil action) in T. change (src_map s0) with blank in M. change (src_layout s0) with lo in L.
  rewrite T, app_nil_r, rev_involutive, <- Ep, <- Epage in Hr.
  assert (∀ root' H', at_stage lo 0 0 0 root' (fun _ => 0) H' Settled d) as Hstage.
  { intros root' H'. eapply runs_stage; [exact K|by left|lia|done|exact Hr|apply header_fields_calm; [done|by left]|].
    apply blank_stage. }
  assert (mirrors lo s d) as Hmir.
  { intros o Ho. rewrite (runs_mapped _ _ _ _ Hr), M. eapply effect_remap; [|done|exact Ho].
    eapply calm_punches, (header_fields_calm lo 0 Settled K). by left. }
  assert (∃ slot, select_image lo (src_map s) = mkSelection slot (mkRoot 0 0) true) as [slot Hsel].
  { rewrite M, <- (effect_stores (header_fields lo) blank).
    pose proof (runs_plain (lo_page lo) (map (fun f => AStore f.1 f.2) (header_fields lo)) (mkDisk blank blank)) as Hp.
    pose proof (runs_mapped _ _ _ _ Hp) as Em. change (dk_mapped (mkDisk blank blank)) with blank in Em.
    rewrite <- Em. eapply (settled_selects lo 0 0 0 (fun _ => 0)); [by left|lia|done|done|].
    eapply runs_stage; [exact K|by left|lia|done|exact Hp|apply header_fields_calm; [done|by left]|].
    apply blank_stage. }
  rewrite <- L in Hsel. destruct (construct_fields s arena cp slot 0 0 Hsel Hcp) as ((C1 & _) & C2 & C3 & C4 & C5 & C6).
  assert (src_layout (cp_source cp) = lo) as Lc by (by rewrite C1).
  split; rewrite ?Lc, ?C2, ?C3, ?C4, ?C5, ?C6; try done.
  - rewrite C1. apply (source_ok_frame s); [|done..].
    split; rewrite ?L, ?F1, ?F2, ?F3, ?F4, ?F5; try done.
    by apply Forall_replicate.
  - by left.
  - by rewrite C1.
Qed.

(** ** Reopening *)

(** What the directory of an image says of its live chunks. *)
Definition directory_ok (lo : Layout) (img : image) : Prop :=
  0 <= img at_chunk_count ∧
  ∀ i, 0 <= i < img at_chunk_count → ce_state (read_entry img i) = k_workspace_chunk_live →
    lo_data_offset lo <= ce_offset (read_entry img i).

(** While the directory is walked: nothing is written, and what is queued is sound. *)
Record walking (lo : Layout) (img : image) (s : Source) : Prop := {
  wk_source : source_ok s;
  wk_layout : src_layout s = lo;
  wk_map : src_map s = img;
  wk_trace : src_trace s = [];
  wk_live : src_live s = ∅;
  wk_queues : length (src_store_reopened s) = Z.to_nat (lo_max_stores lo) }.

Lemma walking_frame lo img s s' : walking lo img s → source_ok s' → src_layout s' = src_layout s →
  src_map s' = src_map s → src_trace s' = src_trace s → src_live s' = src_live s →
  length (src_store_reopened s') = length (src_store_reopened s) → walking lo img s'.
Proof. intros [A B C D E F] Hs E1 E2 E3 E4 E5. split; congruence || done. Qed.

Lemma reopen_entry_walking lo img file_size i s :
  walking lo img s → directory_ok lo img → 0 <= i < img at_chunk_count → img at_chunk_count <= lo_max_chunks lo →
  walking lo img (reopen_entry os file_size i s).1.
Proof.
  intros W [Hc0 Hdir] Hi Hmax. unfold reopen_entry. cbv zeta.
  set (s1 := set_extent _ _ s). pose proof W as [K L M T Lv Q].
  assert (walking lo img s1) as W1.
  { eapply walking_frame; [exact W| |done..]. apply set_extent_ok; [done| |apply K].
    pose proof (so_next _ K). lia. }
  rewrite M in *. specialize (Hdir i Hi).
  destruct (Z.eqb_spec (ce_state (read_entry img i)) k_workspace_chunk_live) as [Hlive|]; [|done]. cbn [negb].
  specialize (Hdir Hlive). destruct (_ && _); [done|]. destruct (_ <? _); [done|].
  pose proof (io_ok os None s1 (wk_source _ _ _ W1)) as K2.
  assert (walking lo img (io os None s1).1) as W2.
  { eapply walking_frame; [exact W1|exact K2|..]; unfold io; by destruct (os _). }
  destruct (io os None s1) as [s2 [base|e]]; cbn [fst] in *; [|done].
  set (c := mkReopened base _). pose proof (wk_layout _ _ _ W2) as L2.
  assert (chunk_ok (src_layout s2) (rp_chunk c)) as Hc.
  { rewrite L2. split; [cbn; lia|exact Hdir]. }
  destruct K2 as [A1 A2 A3 A4 A5 A6].
  destruct (_ =? _); (eapply walking_frame; [exact W2| |done..|]); cbn; try done; try (by rewrite length_alter);
    (split; try done); cbn.
  - apply Forall_app. split; [done|]. by constructor.
  - apply Forall_alter; [done|]. intros q _ Hq. apply Forall_app. split; [done|]. by constructor.
Qed.

Lemma reopen_entries_walking lo img file_size entries : ∀ s,
  walking lo img s → directory_ok lo img → (∀ i, i ∈ entries → 0 <= i < img at_chunk_count) →
  img at_chunk_count <= lo_max_chunks lo →
  walking lo img (reopen_entries os file_size entries s).1.
Proof.
  induction entries as [|i entries IH]; intros s W Hd Hi Hmax; [done|]. cbn [reopen_entries].
  unfold mbind, ST_bind.
  pose proof (reopen_entry_walking lo img file_size i s W Hd (Hi i (list_elem_of_here _ _)) Hmax) as W1.
  destruct (reopen_entry os file_size i s) as [s1 [[]|e]]; [|exact W1].
  apply IH; try done. intros j Hj. apply Hi. by right.
Qed.

Lemma check_header_count img lo : check_header img = Ok lo →
  img at_chunk_count <= lo_max_chunks lo.
Proof.
  unfold check_header. cbv zeta. destruct (negb _); [done|]. destruct (negb _); [done|]. destruct (_ || _); [done|].
  destruct (Z.ltb_spec (img at_max_chunks) (img at_chunk_count)); [done|]. intros [= <-]. cbn. lia.
Qed.

Lemma workspace_open_walking img file_size s lo :
  check_header img = Ok lo → layout_ok lo → directory_ok lo img →
  WorkspaceFile.open os img file_size = Ok s → walking lo img s.
Proof.
  intros Hh K Hdir. unfold WorkspaceFile.open. destruct (os 0%nat); [|done]. destruct (os 1%nat); [|done].
  destruct (_ <? _); [done|]. rewrite Hh. cbn [mbind expected_bind]. destruct (os 2%nat); [|done].
  destruct (_ <? _); [done|]. destruct (os 3%nat); [|done].
  set (s0 := new_source _ _ _ _ _ _).
  assert (walking lo img s0) as W0.
  { split; try done; [|by apply length_replicate]. split; try done; [by apply Forall_replicate|apply Hdir]. }
  pose proof (reopen_entries_walking lo img file_size (seqZ 0 (src_chunk_count s0)) s0 W0 Hdir) as W.
  destruct (reopen_entries os file_size _ s0) as [s1 [[]|e]]; [|done]. intros [= <-]. apply W.
  - intros i Hi%elem_of_seqZ. cbn in Hi. lia.
  - by apply check_header_count.
Qed.

(** Discarded chunks cost punches and directory entries only. *)
Lemma discard_all_off chunks : ∀ s, source_ok s → Forall (fun c => chunk_ok (src_layout s) (rp_chunk c)) chunks →
  did_off s (discard_all os chunks s) ∧ source_ok (discard_all os chunks s).
Proof.
  induction chunks as [|c chunks IH]; intros s Hs Hc; [split; [by apply did_off_refl|done]|].
  apply Forall_cons in Hc as [Hc Hcs]. destruct (punch_off os (rp_chunk c) s Hs Hc) as [D1 K1].
  destruct (IH (punch_now os (rp_chunk c) s) K1) as [D2 K2]; [by rewrite (did_off_layout _ _ D1)|].
  split; [|exact K2]. by eapply did_off_trans.
Qed.

Lemma discard_all_frame chunks : ∀ s,
  src_live (discard_all os chunks s) = src_live s ∧ src_reopened (discard_all os chunks s) = src_reopened s ∧
  src_restored (discard_all os chunks s) = src_restored s ∧ src_views (discard_all os chunks s) = src_views s.
Proof.
  induction chunks as [|c chunks IH]; intros s; [done|].
  destruct (IH (punch_now os (rp_chunk c) s)) as (E1 & E2 & E3 & E4).
  change (discard_all os (c :: chunks) s) with (discard_all os chunks (punch_now os (rp_chunk c) s)).
  rewrite E1, E2, E3, E4. unfold punch_now, io. by destruct (os _).
Qed.

(** The table's queues, cut to what the marks need. *)
Definition kept_queues (table : list WorkspaceStoreEntry) (queues : list (list ReopenedChunk)) :
    list (list ReopenedChunk) :=
  zip_with (fun row queue => take (Z.to_nat (chunks_needed row)) queue) table queues.

Lemma trim_queues_off table : ∀ queues s, source_ok s → length queues = length table →
  Forall (Forall (fun c => chunk_ok (src_layout s) (rp_chunk c))) queues →
  did_off s (trim_queues os table queues s).1 ∧ source_ok (trim_queues os table queues s).1 ∧
  (trim_queues os table queues s).2 = kept_queues table queues.
Proof.
  induction table as [|row table IH]; intros [|queue queues] s Hs Hlen Hq; try done.
  { split; [by apply did_off_refl|done]. }
  apply Forall_cons in Hq as [Hq Hqs]. injection Hlen as Hlen. cbn [trim_queues]. cbv zeta.
  destruct (discard_all_off (drop (Z.to_nat (chunks_needed row)) queue) s Hs) as [D1 K1]; [by apply Forall_drop|].
  destruct (IH queues _ K1 Hlen) as (D2 & K2 & E); [by rewrite (did_off_layout _ _ D1)|].
  destruct (trim_queues os table queues _) as [s2 rest]. cbn in *. subst rest.
  split; [by eapply did_off_trans|done].
Qed.

Lemma check_rows_none table : ∀ queues, length queues = length table → check_rows table queues = None →
  ∀ r row queue, table !! r = Some row → queues !! r = Some queue →
    check_row row queue = None.
Proof.
  induction table as [|row table IH]; intros [|queue queues] Hlen Hc r row' queue' Hr Hq; try done.
  cbn in Hc. destruct (check_row row queue) eqn:E; [done|]. injection Hlen as Hlen.
  destruct r as [|r]; cbn in Hr, Hq; [by simplify_eq|]. by eapply IH.
Qed.

Lemma check_row_covers row queue : check_row row queue = None → chunks_needed row <= Z.of_nat (length queue).
Proof.
  unfold check_row, chunks_needed. destruct (se_stride row =? 0); [cbn; intros; lia|]. cbn [orb].
  destruct (_ || _ || _ || _ || _); [done|].
  match goal with |- context [?a <? ?b] => destruct (Z.ltb_spec a b) as [|Hl] end; [done|]. by intros _.
Qed.

Lemma trim_queues_frame table : ∀ queues s,
  src_live (trim_queues os table queues s).1 = src_live s ∧
  src_restored (trim_queues os table queues s).1 = src_restored s.
Proof.
  induction table as [|row table IH]; intros [|queue queues] s; try done. cbn [trim_queues]. cbv zeta.
  destruct (discard_all_frame (drop (Z.to_nat (chunks_needed row)) queue) s) as (E1 & _ & E2 & _).
  destruct (IH queues (discard_all os (drop (Z.to_nat (chunks_needed row)) queue) s)) as [E3 E4].
  destruct (trim_queues os table queues _) as [s2 rest]. cbn in *. by rewrite E3, E4.
Qed.

Lemma kept_queues_lookup table queues r row : length queues = length table → table !! r = Some row →
  check_rows table queues = None →
  ∃ queue, kept_queues table queues !! r = Some queue ∧ Z.of_nat (length queue) = Z.max 0 (chunks_needed row).
Proof.
  intros Hlen Hr Hc. assert (is_Some (queues !! r)) as [queue Hq].
  { apply lookup_lt_is_Some. rewrite Hlen. by eapply lookup_lt_Some. }
  exists (take (Z.to_nat (chunks_needed row)) queue). split.
  - unfold kept_queues. by rewrite lookup_zip_with, Hr, Hq.
  - pose proof (check_row_covers row queue (check_rows_none table queues Hlen Hc r row queue Hr Hq)).
    rewrite length_take. lia.
Qed.

(** What an adoption leaves. *)
Lemma adopt_snapshot_spec ab s s' lo img : walking lo img s → adopt_snapshot os ab s = (s', Ok tt) →
  did_off s s' ∧ source_ok s' ∧ src_live s' = ∅ ∧
  src_restored s' = map (fun r => read_row lo ab r img) (seqZ 0 (lo_max_stores lo)) ∧
  src_store_reopened s' = kept_queues (src_restored s') (src_store_reopened s) ∧
  ∀ r row, src_restored s' !! r = Some row →
    ∃ queue, src_store_reopened s' !! r = Some queue ∧ Z.of_nat (length queue) = Z.max 0 (chunks_needed row).
Proof.
  intros [A B C D E F]. unfold adopt_snapshot. cbv zeta.
  assert (map (fun r => table_row ab r s) (rows s) = map (fun r => read_row lo ab r img) (seqZ 0 (lo_max_stores lo))) as Et.
  { unfold rows, table_row. by rewrite B, C. }
  rewrite Et. set (table := map _ _). set (s1 := set_tables _ _ _ s).
  destruct (check_rows table (src_store_reopened s1)) as [e|] eqn:Ec; [done|].
  assert (length (src_store_reopened s) = length table) as Hlen.
  { unfold table. rewrite F, length_map, length_seqZ. done. }
  assert (source_ok s1) as K1 by (by eapply (source_ok_frame s)).
  destruct (trim_queues_off table (src_store_reopened s) s1 K1 Hlen) as (D2 & K2 & Eq); [apply A|].
  destruct (trim_queues_frame table (src_store_reopened s) s1) as [E1 E2].
  destruct (trim_queues os table _ s1) as [s2 queues]. cbn [fst snd] in *. subst queues. intros [= <-].
  split; [|split; [|split; [by rewrite <- E|]]].
  - eapply did_off_trans; [|eapply did_off_trans; [exact D2|]]; by apply did_off_refl.
  - destruct K2 as [X1 X2 X3 X4 X5 X6]. split; try done. cbn. rewrite (did_off_layout _ _ D2).
    assert (Forall (Forall (fun c => chunk_ok (src_layout s1) (rp_chunk c))) (src_store_reopened s)) as Hq by apply A.
    clear -Hq Hlen. unfold kept_queues. revert Hlen. generalize table as tb. induction Hq as [|q qs Hq Hqs IH]; intros [|row tb] Hlen; try done.
    constructor; [by apply Forall_take|]. apply IH. by injection Hlen.
  - cbn [src_restored src_store_reopened set_tables set_chunks]. split; [done|]. split; [done|].
    intros r row Hr. by apply kept_queues_lookup.
Qed.

(** What is selected is what the slot holds, beside its own stamp. *)
Lemma select_inv lo img slot root : select_image lo img = mkSelection slot root true →
  is_ab slot ∧ decode_root (img (at_root_slot slot)) = root ∧ img (at_snapshot lo slot) = rt_generation root.
Proof.
  rewrite select_image_eq. cbv zeta.
  set (newest := if _ <=? _ then 0 else 1).
  assert (is_ab newest) as Hn by (unfold newest; destruct (_ <=? _); [by left|by right]).
  clearbody newest.
  assert (∀ ab, is_ab ab → decode_root (img (at_root_slot ab)) =
    if ab =? 0 then decode_root (img 40) else decode_root (img 48)) as Hr by (by intros ab [->| ->]).
  destruct (img (at_snapshot lo newest) =? _) eqn:E.
  { apply Z.eqb_eq in E. intros [= <- <-]. split; [exact Hn|]. split; [exact (Hr _ Hn)|exact E]. }
  pose proof (old_slot_ab newest Hn) as Ho.
  clear E. destruct (img (at_snapshot lo (other newest)) =? _) eqn:E; [|discriminate]. apply Z.eqb_eq in E.
  intros [= <- <-]. split; [exact Ho|]. split; [exact (Hr _ Ho)|exact E].
Qed.

Lemma open_shape img file_size st lo : check_header img = Ok lo → layout_ok lo → directory_ok lo img →
  open os img file_size = Ok st →
  ∃ slot root s, select_image lo img = mkSelection slot root true ∧ walking lo img s ∧
    adopt_snapshot os slot s = (os_source st, Ok tt) ∧
    os_root_index st = rt_index root ∧ os_generation st = rt_generation root ∧
    os_valid st = negb (rt_generation root =? 0).
Proof.
  intros Hh K Hdir. unfold open. destruct (WorkspaceFile.open os img file_size) as [s|e] eqn:Eo; [|done].
  pose proof (workspace_open_walking img file_size s lo Hh K Hdir Eo) as W. cbn [mbind expected_bind].
  rewrite select_root_image, (wk_layout _ _ _ W), (wk_map _ _ _ W).
  destruct (select_image lo img) as [slot root [|]] eqn:Es; [|done]. cbn [sel_eligible negb sel_slot sel_root].
  destruct (adopt_snapshot os slot s) as [s' [[]|e]] eqn:Ea; [|done]. intros [= <-]. by exists slot, root, s.
Qed.

(** a file that resumes [root] of generation [g] reopens as such: when [open] accepts
    it, it reports that root and generation, restores every store's mark as committed,
    and queues for each store exactly the chunks its mark needs. *)
Theorem open_resumes img file_size st lo g root H :
  check_header img = Ok lo → layout_ok lo → directory_ok lo img → resumes lo img g root H →
  open os img file_size = Ok st →
  os_root_index st = root ∧ os_generation st = g ∧ os_valid st = negb (g =? 0) ∧
  (0 < g → ∀ r, 0 <= r < lo_max_stores lo → ∃ row queue,
     src_restored (os_source st) !! Z.to_nat r = Some row ∧ se_high_water row = H r ∧
     src_store_reopened (os_source st) !! Z.to_nat r = Some queue ∧
     Z.of_nat (length queue) = Z.max 0 (chunks_needed row)).
Proof.
  intros Hh K Hdir (slot & Hsel & HH) Ho.
  destruct (open_shape _ _ _ _ Hh K Hdir Ho) as (slot' & root' & s & Hsel' & W & Ha & -> & -> & ->).
  rewrite Hsel in Hsel'. injection Hsel' as <- <-. cbn [rt_index rt_generation]. do 3 (split; [done|]).
  intros Hg r Hr. destruct (HH Hg) as [Hab Hm].
  destruct (adopt_snapshot_spec _ _ _ _ _ W Ha) as (_ & _ & _ & Et & _ & Hq).
  assert (src_restored (os_source st) !! Z.to_nat r = Some (read_row lo slot r img)) as Er.
  { rewrite Et, list_lookup_fmap. rewrite lookup_seqZ_lt by lia. cbn. by rewrite Z2Nat.id by lia. }
  destruct (Hq _ _ Er) as (queue & Eq & Hl). eexists _, queue. split; [exact Er|]. split; [|done].
  exact (Hm r Hr).
Qed.

Lemma effect_off lo next st l : layout_ok lo → is_ab next → Forall (off_protocol lo) l → ∀ m o,
  protected lo next st o → effect l m o = m o.
Proof.
  intros K Hn. induction 1 as [|a l Ha Hl IH]; intros m o Ho; [done|].
  unfold effect in *. cbn [foldl]. rewrite IH by done.
  destruct a as [o' v|?|?|?]; try done. unfold store_field. destruct (Z.eqb_spec o o') as [->|]; [exfalso|done].
  pose proof (off_protocol_quiet lo K next Hn st (fun _ => v + 1) _ Ha Ho) as E. cbn in E. lia.
Qed.

Lemma decode_root_range v : in_u32 (rt_index (decode_root v)) ∧ 0 <= rt_generation (decode_root v).
Proof.
  unfold decode_root. cbn [rt_index rt_generation]. change 0xFFFFFFFF with (Z.ones 32). rewrite Z.land_ones by lia.
  pose proof (Z.mod_pos_bound v (2 ^ 32)). pose proof (u32_range (Z.shiftr v 32)). unfold in_u32 in *. lia.
Qed.

(** Nothing is left of a commit that did not finish. *)
Definition clean (lo : Layout) (img : image) (slot : Z) (g : Z) : Prop :=
  rt_generation (decode_root (img (at_root_slot (other slot)))) < g ∧ img (at_snapshot lo (other slot)) ≠ g + 1.

Lemma clean_stage lo img slot g root root' H' : layout_ok lo → is_ab slot → 0 < g →
  decode_root (img (at_root_slot slot)) = mkRoot g root → img (at_snapshot lo slot) = g → clean lo img slot g →
  at_stage lo (other slot) g root root' (fun r => img (at_mark lo slot r)) H' Settled (mkDisk img img).
Proof.
  intros K Hab Hg Er Es [C1 C2]. assert (other (other slot) = slot) as Eo by (by destruct Hab as [->| ->]).
  assert (holds_old lo (other slot) g root (fun r => img (at_mark lo slot r)) img) as Hold.
  { unfold holds_old. by rewrite Eo. }
  split; [done|]. split; [done|]. split; [by left|]. split; [by left|]. done.
Qed.

(** a reopened file carries on: the checkpointer built over it is a settled session
    on the recovered root and the marks of its snapshot, provided no commit was cut short
    in the slot it is about to use. *)
Theorem reopened_settled img file_size st lo slot arena cp d :
  check_header img = Ok lo → layout_ok lo → directory_ok lo img →
  open os img file_size = Ok st → 0 < os_generation st < 2 ^ 32 - 1 →
  sel_slot (select_image lo img) = slot → clean lo img slot (os_generation st) →
  construct (os_source st) arena = Ok cp →
  runs (lo_page lo) (mkDisk img img) (rev (src_trace (os_source st))) d →
  settled cp d (os_root_index st) (fun r => img (at_mark lo slot r)) ∧ cp_generation cp = os_generation st.
Proof.
  intros Hh K Hdir Ho Hg <- Hclean Hcp Hr.
  destruct (open_shape _ _ _ _ Hh K Hdir Ho) as (slot & [g root] & s & Hsel & W & Ha & E1 & E2 & _).
  rewrite Hsel, E2 in *. cbn [rt_index rt_generation sel_slot] in *. rewrite E1.
  destruct (select_inv _ _ _ _ Hsel) as (Hab & Er & Es). cbn in Es.
  destruct (adopt_snapshot_spec _ _ _ _ _ W Ha) as ((l & D & Hoff) & Hs & _).
  destruct W as [_ L M T _ _]. pose proof D as [DT DM DL]. rewrite T, app_nil_r in DT. rewrite M in DM. rewrite L in DL, Hoff.
  rewrite DT, rev_involutive in Hr. set (next := other slot). pose proof (old_slot_ab slot Hab) as Hn.
  pose proof (fun root' H' => clean_stage lo img slot g root root' H' K Hab (proj1 Hg) Er Es Hclean) as Hst.
  pose proof (decode_root_range (img (at_root_slot slot))) as [Hroot _]. rewrite Er in Hroot. cbn in Hroot.
  assert (∀ st m, calm lo next st m l) as Hcalm by (intros; by apply off_protocol_calm).
  assert (select_image lo (src_map (os_source st)) = mkSelection slot (mkRoot g root) true) as Hsel'.
  { rewrite DM. rewrite <- Hsel, !select_image_eq.
    assert (∀ ab, is_ab ab → effect l img (at_root_slot ab) = img (at_root_slot ab) ∧
      effect l img (at_snapshot lo ab) = img (at_snapshot lo ab)) as Ef.
    { intros ab Hab'. split; eapply (effect_off lo next Settled); [done..| |done|done|done|]; left; eauto. }
    destruct (Ef 0 (or_introl eq_refl)) as [R0 S0], (Ef 1 (or_intror eq_refl)) as [R1 S1].
    change (at_root_slot 0) with 40 in R0. change (at_root_slot 1) with 48 in R1. rewrite R0, R1. cbv zeta.
    destruct (_ <=? _); [change (other 0) with 1|change (other 1) with 0]; by rewrite S0, S1. }
  rewrite <- DL in Hsel'. destruct (construct_fields _ _ _ _ _ _ Hsel' Hcp) as ((C1 & _) & C2 & C3 & C4 & C5 & C6).
  rewrite (proj2 (Z.eqb_neq g 0)) in C4 by lia.
  assert (src_layout (cp_source cp) = lo) as Lc by (by rewrite C1).
  split; [|exact C2]. split; rewrite ?Lc, ?C2, ?C3, ?C4, ?C5, ?C6; try done.
  - rewrite C1. by apply (source_ok_frame (os_source st)).
  - apply u32_small. unfold in_u32. lia.
  - lia.
  - lia.
  - intros root' H'. eapply runs_stage; [exact K|exact Hn|lia|lia|exact Hr|apply Hcalm|apply Hst].
  - intros o Hlt. rewrite C1. change (src_map (WorkspaceFile.set_release_fence true (os_source st))) with (src_map (os_source st)).
    rewrite (runs_mapped _ _ _ _ Hr), DM. eapply effect_remap; [|done|exact Hlt]. by eapply calm_punches, (Hcalm Settled blank).
Qed.
End opening.

(** ** Witnesses: a file of 4096-byte pages, one store of 64-byte slots *)

Definition demo_os (n : nat) : expected Z Z := Ok (Z.of_nat n).
Definition demo_layout : Layout := mkLayout 4096 8 12288 4096 4.
Definition demo_source : Source :=
  store_all (header_fields demo_layout) (new_source demo_layout blank 12288 0 false 3).
Definition demo_store (mark : Z) : SlotStore unit := set_high_water mark (new_store 64 16 4 tt).

(** Every action done, no page written back on its own. *)
Definition plainly (cp cp' : Checkpointer unit) (d : disk) : disk :=
  foldl (fun d a => perform 4096 a d) d (actions_since (cp_source cp) (cp_source cp')).

Definition demo_cp0 : Checkpointer unit :=
  match construct demo_source [demo_store 0] with
  | Ok cp => cp
  | Err _ => mkCheckpointer demo_source [] 0 0 0 0 [] 0 [] [] 0 0 0 0 0 0 0
  end.
Definition demo_disk0 : disk :=
  foldl (fun d a => perform 4096 a d) (mkDisk blank blank) (rev (src_trace demo_source)).
Definition demo_bound : Checkpointer unit := set_source (store_view 64 16 16 (cp_source demo_cp0)).1 demo_cp0.
Definition demo_mapped : Checkpointer unit :=
  set_source (acquire_for demo_os 0 1024 (cp_source demo_bound)).1 demo_bound.
Definition demo_cp : Checkpointer unit := set_arena [demo_store 3] (register_store 0 demo_mapped).
Definition demo_disk : disk := plainly demo_bound demo_mapped (plainly demo_cp0 demo_bound demo_disk0).
Definition demo_committed : Checkpointer unit := (commit demo_os 0%nat 7 demo_cp).1.
Definition demo_durable : disk := plainly demo_cp demo_committed demo_disk.

Lemma demo_created : create demo_os 4096 8 4 = Ok demo_source.
Proof. reflexivity. Qed.

Lemma demo_fresh : session_ok (mkSession demo_cp0 demo_disk0 0 (fun _ => 0)).
Proof.
  apply (created_settled demo_os 4096 8 4 12 demo_source [demo_store 0]).
  - reflexivity.
  - lia.
  - unfold in_u32. lia.
  - unfold in_u32. lia.
  - exact demo_created.
  - reflexivity.
  - apply runs_plain.
Qed.

Lemma session_ok_steps {S} (os : nat → expected Z Z) (t : thread) (w0 w : session (S:=S)) :
  session_ok w0 → rtc (session_step os t) w0 w → session_ok w.
Proof. intros H0 Hsteps. induction Hsteps as [|w0 w1 w2 Hstep Hsteps IH]; [done|]. apply IH. by eapply session_step_ok. Qed.

Lemma session_settled {S} (cp : Checkpointer S) (d : disk) (root : Z) (H : Z → Z) :
  session_ok (mkSession cp d root H) → settled cp d root H.
Proof. done. Qed.

Lemma plain_step (cp cp' : Checkpointer unit) (d : disk) (root : Z) (H : Z → Z) : lo_page (src_layout (cp_source cp)) = 4096 →
  operation demo_os 0%nat cp cp' →
  session_step demo_os 0%nat (mkSession cp d root H) (mkSession cp' (plainly cp cp' d) root H).
Proof. intros E Hop. apply step_operation; [exact Hop|]. cbn [ss_cp ss_disk]. rewrite E. apply runs_plain. Qed.

Lemma quiet_step (cp cp' : Checkpointer unit) (d : disk) (root : Z) (H : Z → Z) : cp_source cp' = cp_source cp → operation demo_os 0%nat cp cp' →
  session_step demo_os 0%nat (mkSession cp d root H) (mkSession cp' d root H).
Proof.
  intros E Hop. apply step_operation; [exact Hop|]. cbn [ss_cp ss_disk]. rewrite E.
  unfold actions_since. rewrite Nat.sub_diag. constructor.
Qed.

Lemma demo_bindable : bindable 64 16 (cp_source demo_cp0).
Proof.
  intros r E ab Hab. vm_compute in E. injection E as <-. destruct Hab as [->| ->]; reflexivity.
Qed.

Lemma demo_room : room 1024 (cp_source demo_bound).
Proof. vm_compute. repeat split; discriminate. Qed.

Lemma demo_session_steps :
  rtc (session_step demo_os 0%nat) (mkSession demo_cp0 demo_disk0 0 (fun _ => 0))
    (mkSession demo_cp demo_disk 0 (fun _ => 0)).
Proof.
  apply (rtc_l _ _ (mkSession demo_bound (plainly demo_cp0 demo_bound demo_disk0) 0 (fun _ => 0))).
  { apply plain_step; [vm_compute; reflexivity|]. exact (op_bind demo_os 0%nat demo_cp0 64 16 16 demo_bindable). }
  apply (rtc_l _ _ (mkSession demo_mapped demo_disk 0 (fun _ => 0))).
  { apply plain_step; [vm_compute; reflexivity|]. exact (op_acquire_for demo_os 0%nat demo_bound 0 1024 demo_room). }
  apply (rtc_l _ _ (mkSession (register_store 0 demo_mapped) demo_disk 0 (fun _ => 0))).
  { apply quiet_step; [vm_compute; reflexivity|]. exact (op_register demo_os 0%nat demo_mapped 0). }
  apply rtc_once, quiet_step; [reflexivity|]. exact (op_arena demo_os 0%nat _ [demo_store 3]).
Qed.

Lemma demo_ok : session_ok (mkSession demo_cp demo_disk 0 (fun _ => 0)).
Proof. exact (session_ok_steps _ _ _ _ demo_fresh demo_session_steps). Qed.
Lemma demo_settled : settled demo_cp demo_disk 0 (fun _ => 0).
Proof. exact (session_settled _ _ _ _ demo_ok). Qed.

Lemma demo_page : lo_page (src_layout (cp_source demo_cp)) = 4096.
Proof. vm_compute. reflexivity. Qed.
Lemma demo_generation : cp_generation demo_cp = 0 ∧ cp_generation demo_committed = 1.
Proof. vm_compute. split; reflexivity. Qed.
Lemma demo_commits : commit demo_os 0%nat 7 demo_cp = (demo_committed, Ok tt).
Proof. unfold demo_committed. apply pair_of_outcome. vm_compute. reflexivity. Qed.

Lemma demo_commit_runs : runs (lo_page (src_layout (cp_source demo_cp))) demo_disk
  (actions_since (cp_source demo_cp) (cp_source demo_committed)) demo_durable.
Proof. rewrite demo_page. apply runs_plain. Qed.

Lemma demo_layout_eq : src_layout (cp_source demo_cp) = demo_layout.
Proof. vm_compute. reflexivity. Qed.


Lemma commit_step (cp cp' : Checkpointer unit) (d d' : disk) (root root_index : Z) (H : Z → Z) :
  in_u32 root_index → cp_generation cp + 1 < 2 ^ 32 - 1 → commit demo_os 0%nat root_index cp = (cp', Ok tt) →
  runs (lo_page (src_layout (cp_source cp))) d (actions_since (cp_source cp) (cp_source cp')) d' →
  session_step demo_os 0%nat (mkSession cp d root H) (mkSession cp' d' root_index (published cp)).
Proof. intros Hr Hg E Hrun. by apply (step_commit _ _ (mkSession cp d root H)). Qed.

Lemma demo_commit_step :
  session_step demo_os 0%nat (mkSession demo_cp demo_disk 0 (fun _ => 0))
    (mkSession demo_committed demo_durable 7 (published demo_cp)).
Proof.
  apply commit_step; [unfold in_u32; lia| |exact demo_commits|exact demo_commit_runs].
  rewrite (proj1 demo_generation). lia.
Qed.


Example demo_published : published demo_cp 0 = 3 ∧ published demo_cp 1 = 0.
Proof. vm_compute. split; reflexivity. Qed.

Definition demo_img : image := dk_durable demo_durable.
Definition demo_reopened : OpenState :=
  ok_or (mkOpenState demo_source 0 0 false) (open demo_os demo_img 16384).

Lemma demo_open : open demo_os demo_img 16384 = Ok demo_reopened.
Proof. apply has_value_ok. vm_compute. reflexivity. Qed.
Lemma demo_header : check_header demo_img = Ok demo_layout.
Proof. vm_compute. reflexivity. Qed.
Lemma demo_layout_ok : layout_ok demo_layout.
Proof. rewrite <- demo_layout_eq. exact (so_layout _ (sd_source _ _ _ _ demo_settled)). Qed.
Lemma demo_count : demo_img at_chunk_count = 1.
Proof. vm_compute. reflexivity. Qed.
Lemma demo_offset : ce_offset (read_entry demo_img 0) = 12288.
Proof. vm_compute. reflexivity. Qed.

Lemma demo_directory : directory_ok demo_layout demo_img.
Proof.
  split; rewrite demo_count; [lia|]. intros i Hi _. assert (i = 0) as -> by lia. rewrite demo_offset. cbn. lia.
Qed.

Lemma demo_resumes : resumes demo_layout demo_img 1 7 (published demo_cp).
Proof.
  pose proof (session_ok_steps _ _ _ _ demo_ok (rtc_once _ _ demo_commit_step)) as Q.
  pose proof (settled_resumes _ _ _ _ (session_settled _ _ _ _ Q)) as R.
  rewrite (proj2 demo_generation) in R.
  assert (src_layout (cp_source demo_committed) = demo_layout) as E by (vm_compute; reflexivity).
  rewrite E in R. exact R.
Qed.

Definition demo_again : Checkpointer unit := ok_or demo_cp0 (construct (os_source demo_reopened) [demo_store 3]).

Lemma demo_construct : construct (os_source demo_reopened) [demo_store 3] = Ok demo_again.
Proof. apply has_value_ok. vm_compute. reflexivity. Qed.
Lemma demo_slot : sel_slot (select_image demo_layout demo_img) = 0.
Proof. vm_compute. reflexivity. Qed.
Lemma demo_reopened_generation : os_generation demo_reopened = 1.
Proof. vm_compute. reflexivity. Qed.

Lemma demo_clean : clean demo_layout demo_img 0 (os_generation demo_reopened).
Proof. rewrite demo_reopened_generation. vm_compute. split; [reflexivity|discriminate]. Qed.

Definition demo_disk_again : disk :=
  foldl (fun d a => perform 4096 a d) (mkDisk demo_img demo_img) (rev (src_trace (os_source demo_reopened))).

(** ** Two crashes the stamp does not see *)

Lemma runs_writeback_last page l d d' p : runs page d l d' → runs page d l (flush_pages page p p d').
Proof.
  induction 1 as [d|a l d d' Hr IH|q l d d' Hr IH].
  - eapply runs_writeback. constructor.
  - by constructor.
  - by eapply runs_writeback.
Qed.

Definition demo_state : OpenState := mkOpenState demo_source 0 0 false.

(** A commit of [root] cut before its header [msync], when only [page] has been written
    back. *)
Definition cut_actions (cp : Checkpointer unit) (root : Z) : list action :=
  let l := actions_since (cp_source cp) (cp_source (commit demo_os 0%nat root cp).1) in
  take (length l - 1) l.
Definition cut_disk (cp : Checkpointer unit) (root page : Z) (d : disk) : disk :=
  flush_pages 4096 page page (foldl (fun d a => perform 4096 a d) d (cut_actions cp root)).

Lemma cut_runs cp root page d : runs 4096 d (cut_actions cp root) (cut_disk cp root page d).
Proof. apply runs_writeback_last, runs_plain. Qed.

(** The first crash: the snapshot page of generation two, marks and stamp, without its
    root.  The file reopens on generation one. *)
Definition reuse_first : Checkpointer unit := register_store 0 demo_again.
Definition reuse_img : image := dk_durable (cut_disk reuse_first 9 2 demo_disk_again).
Definition reuse_open : OpenState := ok_or demo_state (open demo_os reuse_img 16384).
(** The next writer maps two more chunks and commits -- as generation two again. *)
Definition reuse_cp0 : Checkpointer unit := ok_or demo_cp0 (construct (os_source reuse_open) [demo_store 3]).
Definition reuse_map (cp : Checkpointer unit) : Checkpointer unit :=
  set_source (acquire_for demo_os 0 1024 (cp_source cp)).1 cp.
Definition reuse_cp : Checkpointer unit :=
  register_store 0 (set_arena [demo_store 40] (reuse_map (reuse_map (reuse_map reuse_cp0)))).
Definition reuse_disk : disk :=
  foldl (fun d a => perform 4096 a d) (mkDisk reuse_img reuse_img) (rev (src_trace (cp_source reuse_cp))).
(** The second crash: the root page alone. *)
Definition mispaired : disk := cut_disk reuse_cp 11 0 reuse_disk.
Definition mispaired_open : OpenState := ok_or demo_state (open demo_os (dk_durable mispaired) 24576).

Definition row_marks (st : OpenState) : list Z := map se_high_water (src_restored (os_source st)).

(** the stamp of a snapshot is its commit's generation, and a commit cut short gives
    its generation back: here a crash leaves the snapshot of generation two without its
    root, the file reopens on generation one, the next writer's commit is generation two
    again, and a crash that keeps only its root leaves that root beside the older
    snapshot.  The file opens on the new root with the other commit's mark -- 3 instead
    of 40 -- and punches a chunk this commit had made durable for that root. *)
Theorem generation_reuse_mispairs :
  runs 4096 demo_disk_again (cut_actions reuse_first 9) (cut_disk reuse_first 9 2 demo_disk_again) ∧
  open demo_os reuse_img 16384 = Ok reuse_open ∧ os_root_index reuse_open = 7 ∧ os_generation reuse_open = 1 ∧
  runs 4096 (mkDisk reuse_img reuse_img) (rev (src_trace (cp_source reuse_cp))) reuse_disk ∧
  runs 4096 reuse_disk (cut_actions reuse_cp 11) mispaired ∧
  published reuse_cp 0 = 40 ∧ AMsync 16384 4096 ∈ cut_actions reuse_cp 11 ∧
  open demo_os (dk_durable mispaired) 24576 = Ok mispaired_open ∧
  os_root_index mispaired_open = 11 ∧ os_generation mispaired_open = 2 ∧
  row_marks mispaired_open = [3; 0; 0; 0] ∧ APunch 16384 4096 ∈ src_trace (os_source mispaired_open).
Proof.
  split; [apply cut_runs|]. split; [apply has_value_ok; vm_compute; reflexivity|].
  do 2 (split; [vm_compute; reflexivity|]). split; [apply runs_plain|]. split; [apply cut_runs|].
  split; [vm_compute; reflexivity|].
  split; [apply (list_elem_of_lookup_2 _ 0); vm_compute; reflexivity|].
  split; [apply has_value_ok; vm_compute; reflexivity|]. do 3 (split; [vm_compute; reflexivity|]).
  apply (list_elem_of_lookup_2 _ 3). vm_compute. reflexivity.
Qed.

(** A file whose directory runs past its first page: a commit of one chunk, then 171
    chunks and a second commit, of which the root's page and the snapshot's reach the
    disk but not the directory's second. *)
Fixpoint map_chunks (n : nat) (cp : Checkpointer unit) : Checkpointer unit :=
  match n with O => cp | Datatypes.S n => map_chunks n (reuse_map cp) end.

Definition torn_layout : Layout := mkLayout 4096 400 20480 12288 4.
Definition torn_source : Source :=
  store_all (header_fields torn_layout) (new_source torn_layout blank 20480 0 false 3).
Definition torn_cp0 : Checkpointer unit := ok_or demo_cp0 (construct torn_source [demo_store 0]).
Definition torn_disk0 : disk :=
  foldl (fun d a => perform 4096 a d) (mkDisk blank blank) (rev (src_trace torn_source)).
Definition torn_first : Checkpointer unit :=
  set_arena [demo_store 3] (register_store 0 (reuse_map (set_source (store_view 64 16 16 (cp_source torn_cp0)).1 torn_cp0))).
Definition torn_cp1 : Checkpointer unit := (commit demo_os 0%nat 7 torn_first).1.
Definition torn_disk1 : disk := plainly torn_cp0 torn_cp1 torn_disk0.
Definition torn_cp : Checkpointer unit := set_arena [demo_store 2700] (map_chunks 168 torn_cp1).
Definition torn_disk2 : disk := plainly torn_cp1 torn_cp torn_disk1.
(** The root's page and the snapshot's are written back; the crash comes before the
    header [msync]. *)
Definition torn_disk : disk :=
  flush_pages 4096 0 0 (flush_pages 4096 4 4 (foldl (fun d a => perform 4096 a d) torn_disk2 (cut_actions torn_cp 9))).

Lemma torn_runs : runs 4096 torn_disk2 (cut_actions torn_cp 9) torn_disk.
Proof. do 2 apply runs_writeback_last. apply runs_plain. Qed.

Definition root_of (x : expected WorkspaceFileError OpenState) : option (Z * Z) :=
  match x with Ok st => Some (os_generation st, os_root_index st) | Err _ => None end.

(** a crash may leave a file that does not open at all, though an older root, its
    snapshot and its chunks are whole: the new root and its snapshot reach the disk, the
    directory's second page does not, so the selected snapshot's marks outrun the
    chunks listed -- and adoption refuses the file instead of trying the older root. *)
Theorem torn_directory_refused :
  root_of (open demo_os (dk_durable torn_disk1) 1000000) = Some (1, 7) ∧
  runs 4096 torn_disk2 (cut_actions torn_cp 9) torn_disk ∧
  select_image torn_layout (dk_durable torn_disk) = mkSelection 1 (mkRoot 2 9) true ∧
  decode_root (dk_durable torn_disk (at_root_slot 0)) = mkRoot 1 7 ∧
  dk_durable torn_disk (at_snapshot torn_layout 0) = 1 ∧
  open demo_os (dk_durable torn_disk) 1000000 = Err (mkFileError StoreDirectoryInconsistent 0).
Proof.
  split; [vm_compute; reflexivity|]. split; [exact torn_runs|]. repeat split; vm_compute; reflexivity.
Qed.

(** ** A created header is one [open] accepts *)

Lemma header_image lo calls : let img := src_map (store_all (header_fields lo) (new_source lo blank (lo_data_offset lo) 0 false calls)) in
  img at_magic = k_workspace_magic ∧ img at_format_major = k_workspace_format_major ∧
  img at_page_size = u32 (lo_page lo) ∧ img at_max_chunks = lo_max_chunks lo ∧ img at_data_offset = lo_data_offset lo ∧
  img at_chunk_count = 0 ∧ img at_store_table_offset = lo_store_table_offset lo ∧ img at_max_stores = lo_max_stores lo.
Proof. repeat split; reflexivity. Qed.

(** the header [create] writes is one [open] accepts, and reads back as the same
    geometry. *)
Theorem created_header_accepted (os : nat → expected Z Z) page_query max_chunks max_stores k s :
  (if 0 <? page_query then page_query else 4096) = 2 ^ k → 7 <= k < 32 →
  in_u32 max_chunks → in_u32 max_stores →
  create os page_query max_chunks max_stores = Ok s →
  check_header (src_map s) = Ok (src_layout s).
Proof.
  intros Ep Hk Hc Hst (lo & El & ->)%create_shape.
  destruct (fresh_layout_ok _ _ _ _ k Ep Hk Hc Hst El) as (K & Epage & Hmc & Hms).
  destruct (header_image lo 3) as (I1 & I2 & I3 & I4 & I5 & I6 & I7 & I8). cbv zeta in *.
  pose proof (did_layout _ _ _ (did_store_all (header_fields lo) (new_source lo blank (lo_data_offset lo) 0 false 3))) as L.
  revert I1 I2 I3 I4 I5 I6 I7 I8 L. generalize (store_all (header_fields lo) (new_source lo blank (lo_data_offset lo) 0 false 3)).
  intros s I1 I2 I3 I4 I5 I6 I7 I8 L. rewrite L. cbn [src_layout new_source].
  unfold check_header. cbv zeta. rewrite I1, I2, I3, I4, I5, I6, I7, I8, !Z.eqb_refl. cbn [negb].
  assert (128 <= lo_page lo < 2 ^ 32) as Hp.
  { rewrite Epage, Ep. split; [change 128 with (2 ^ 7); apply Z.pow_le_mono_r; lia|apply Z.pow_lt_mono_r; lia]. }
  rewrite (u32_small (lo_page lo)) by (unfold in_u32; lia).
  pose proof (lk_resident _ K) as [_ Hres]. destruct (lk_directory _ K) as [Hmc0 Hdir]. pose proof (lk_snapshots _ K).
  unfold at_entry, sizeof_header, sizeof_chunk_entry, sizeof_snapshot, sizeof_store_entry, in_u32 in *.
  rewrite (proj2 (Z.eqb_neq (lo_page lo) 0)) by lia.
  rewrite (u64_small (lo_max_chunks lo * 24)), (u64_small (112 + _)), (u64_small (lo_page lo - 8)), (u64_small (2 * _))
    by (unfold in_u64; lia).
  rewrite (lk_table _ K), Z.eqb_refl. cbn [negb].
  assert (lo_max_stores lo <= (lo_page lo - 8) / 16) by (apply Z.div_le_lower_bound; lia).
  rewrite (proj2 (Z.leb_gt _ _)), (proj2 (Z.eqb_neq (lo_max_stores lo) 0)) by lia.
  rewrite !(proj2 (Z.ltb_ge _ _)) by lia. cbn [orb]. by destruct lo.
Qed.
