(* ===== verification/OperatorGraph.v ===== *)
(** The operator graph: [src/src/compositor/operator_graph.cpp] and [operator_graph.hpp],
    and the descent of [pull_service.cpp] that follows it.

    Contents are pointers, zero for null; what a content answers -- its input edges, its
    contribution to a revision, where an input's damage shows, whether it passes an input
    through for the request at hand -- is the plugin's, and a parameter.  The walks are
    shown to end and to be exact on the graphs they are for; the last section shows what
    they do on the others. *)

From S2P Require Import Prelude Identity RationalTime Geometry.

Local Open Scope Z_scope.

(** [const Content*]. *)
Notation Content := Z (only parsing).

Definition k_max_recursion_depth : nat := 64.

Record GraphDiagnostic := mkDiagnostic {
  gd_content : Content; gd_depth : nat; gd_path : list Content }.

Record OperatorLayer := mkOperatorLayer { ol_object : ObjectId; ol_content : Content }.

Record IdentityResolution := mkResolution {
  ir_terminal : Content; ir_short_circuited : bool; ir_budget_exceeded : bool }.

Section graph.
Context (inputs : Content → list Content).

Definition is_operator (content : Content) : bool :=
  negb (content =? 0) && negb (bool_decide (inputs content = [])).

(** ** [aggregate_revision] *)

Section aggregate.
Context (contribution : Content → Z).

(** The visitor of the walk: unseen inputs go on the stack. *)
Definition push_input (sv : list Content * gset Content) (input : Content) : list Content * gset Content :=
  if (input =? 0) || bool_decide (input ∈ sv.2) then sv else (input :: sv.1, {[input]} ∪ sv.2).

Fixpoint aggregate_loop (fuel : nat) (stack : list Content) (visited : gset Content) (acc : Z) : option Z :=
  match stack, fuel with
  | [], _ => Some acc
  | _ :: _, O => None
  | node :: stack, S fuel =>
      let acc := u64 (acc + mix64 (contribution node)) in
      let '(stack, visited) := foldl push_input (stack, visited) (inputs node) in
      aggregate_loop fuel stack visited acc
  end.

Definition aggregate_revision (fuel : nat) (root : Content) : option Z :=
  if root =? 0 then Some 0 else aggregate_loop fuel [root] {[root]} 0.
End aggregate.

(** ** [route_operator_damage] *)

Section routing.
Context (map_input_damage : Content → nat → Rect → Rect).

(** The visitor of the descent, over the inputs from index [i] on. *)
Definition map_inputs (descend : Content → gmap Content (option Rect) → gmap Content (option Rect) * option Rect)
    (node : Content) : nat → list Content → gmap Content (option Rect) → option Rect →
    gmap Content (option Rect) * option Rect :=
  fix go i ins memo result :=
    match ins with
    | [] => (memo, result)
    | input :: ins =>
        if input =? 0 then go (S i) ins memo result
        else
          let '(memo, sub) := descend input memo in
          let result :=
            match sub with
            | None => result
            | Some sub =>
                let mapped := map_input_damage node i sub in
                match result with Some r => Some (rect_union r mapped) | None => Some mapped end
            end in
          go (S i) ins memo result
    end.

(** [room] is what the budget leaves of the depth. *)
Fixpoint map_damage_up (damaged : Content) (rect : Rect) (room : nat) (on_stack : gset Content)
    (node : Content) (memo : gmap Content (option Rect)) {struct room} : gmap Content (option Rect) * option Rect :=
  if node =? damaged then (memo, Some rect)
  else
    match memo !! node with
    | Some r => (memo, r)
    | None =>
        match room with
        | O => (memo, None)
        | S room =>
            if bool_decide (node ∈ on_stack) then (memo, None)
            else
              let '(memo, result) :=
                map_inputs (map_damage_up damaged rect room ({[node]} ∪ on_stack)) node 0 (inputs node) memo None in
              (match memo !! node with Some _ => memo | None => <[node := result]> memo end, result)
        end
    end.

Definition route_one (damaged : Content) (rect : Rect) (range : TimeRange) (max_depth : nat)
    (out : list Damage) (op : OperatorLayer) : list Damage :=
  if (ol_content op =? 0) || (ol_content op =? damaged) then out
  else
    match (map_damage_up damaged rect max_depth ∅ (ol_content op) ∅).2 with
    | Some mapped => damage_add out (mkDamage (ol_object op) mapped range)
    | None => out
    end.

Definition route_operator_damage (operators : list OperatorLayer) (damaged : Content) (rect : Rect)
    (range : TimeRange) (max_depth : nat) : list Damage :=
  if damaged =? 0 then [] else foldl (route_one damaged rect range max_depth) [] operators.
End routing.

(** ** [resolve_identity] *)

Section identity.
(** [identity(request)], for the request at hand. *)
Context (identity : Content → option nat).

(** [path] latest first; [room] is what the budget leaves. *)
Fixpoint resolve_loop (room : nat) (depth : nat) (node : Content) (path : list Content) (short : bool) :
    IdentityResolution * list GraphDiagnostic :=
  let path := node :: path in
  match identity node with
  | None => (mkResolution node short false, [])
  | Some idx =>
      match room with
      | O => (mkResolution 0 true true, [mkDiagnostic node depth (rev path)])
      | S room =>
          let selected := default 0 (inputs node !! idx) in
          if selected =? 0 then (mkResolution node true false, [])
          else resolve_loop room (S depth) selected path true
      end
  end.

Definition resolve_identity (max_depth : nat) (content : Content) : IdentityResolution * list GraphDiagnostic :=
  if content =? 0 then (mkResolution 0 false false, [])
  else resolve_loop max_depth 0 content [] false.

(** [PullService::pull] up to the content it drives: the failure of a null input, the
    placeholder, or the content whose tiles are rendered and served. *)
Inductive Served := Unserved | Placeholder | Drives (content : Content).

Fixpoint pull (max_depth room depth : nat) (input : Content) : Served * list GraphDiagnostic :=
  if input =? 0 then (Unserved, [])
  else match room with
  | O => (Placeholder, [mkDiagnostic input depth [input]])
  | S room =>
      if is_operator input then
        let '(ident, diag) := resolve_identity max_depth input in
        if ir_budget_exceeded ident then (Placeholder, diag)
        else if ir_short_circuited ident && negb (ir_terminal ident =? 0) then
          let '(served, more) := pull max_depth room (S depth) (ir_terminal ident) in
          (served, diag ++ more)
        else (Drives input, diag)
      else (Drives input, [])
  end.
End identity.
End graph.

(** ** The edges *)

Definition edge (inputs : Content → list Content) (n m : Content) : Prop := m ∈ inputs n ∧ m ≠ 0.

(** ** The fold visits every reachable content once *)

Section aggregate_facts.
Context (inputs : Content → list Content) (contribution : Content → Z).

Definition fold_sum (order : list Content) : Z :=
  u64 (foldr (λ n acc, mix64 (contribution n) + acc) 0 order).

Lemma fold_sum_snoc order n : u64 (fold_sum order + mix64 (contribution n)) = fold_sum (order ++ [n]).
Proof.
  unfold fold_sum, u64. rewrite Zplus_mod_idemp_l. f_equal.
  induction order as [|m order IH]; cbn; lia.
Qed.

Lemma fold_sum_perm order order' : order ≡ₚ order' → fold_sum order = fold_sum order'.
Proof.
  intros Hp. unfold fold_sum. f_equal. induction Hp; cbn; lia.
Qed.

(** What the stack and the visited set of the walk hold after the inputs [ins]. *)
Lemma push_inputs_spec ins stack visited (done : list Content) :
  visited = list_to_set (done ++ stack) → NoDup (done ++ stack) →
  ∃ new, foldl push_input (stack, visited) ins = (new ++ stack, list_to_set (done ++ new ++ stack)) ∧
    NoDup (done ++ new ++ stack) ∧
    (∀ m, m ∈ done ++ new ++ stack ↔ m ∈ done ++ stack ∨ (m ∈ ins ∧ m ≠ 0)).
Proof.
  revert stack visited. induction ins as [|i ins IH]; intros stack visited -> Hnd; cbn [foldl].
  { exists []. cbn. split_and!; [done|done|]. set_solver. }
  unfold push_input at 2. cbn [fst snd].
  destruct (Z.eqb_spec i 0) as [->|Hi]; cbn [orb].
  { destruct (IH stack _ eq_refl Hnd) as (new & -> & Hn & Hm). exists new. split_and!; [done|done|].
    intros m. rewrite Hm, elem_of_cons. naive_solver. }
  case_bool_decide as Hv.
  { destruct (IH stack _ eq_refl Hnd) as (new & -> & Hn & Hm). exists new. split_and!; [done|done|].
    rewrite elem_of_list_to_set in Hv. intros m. rewrite Hm, elem_of_cons. naive_solver. }
  rewrite elem_of_list_to_set in Hv.
  destruct (IH (i :: stack) (list_to_set (done ++ i :: stack))) as (new & Heq & Hn & Hm); [done| |].
  { rewrite <- Permutation_middle. by constructor. }
  exists (new ++ [i]). rewrite <- (assoc_L _ new). cbn [app]. split_and!; [|done|].
  - rewrite <- Heq. f_equal. f_equal. set_solver.
  - intros m. rewrite Hm. set_solver.
Qed.

Context (root : Content) (universe : gset Content).
Hypothesis Hroot : root ≠ 0.
Hypothesis Huniverse : ∀ n, rtc (edge inputs) root n → n ∈ universe.

Definition reached (n : Content) : Prop := rtc (edge inputs) root n.

Lemma closed_reached (P : Content → Prop) a n :
  P a → (∀ n m, P n → edge inputs n m → P m) → rtc (edge inputs) a n → P n.
Proof. intros Ha Hcl Hr. induction Hr as [|x y z Hxy _ IH]; [done|]. apply IH. by eapply Hcl. Qed.

Lemma aggregate_loop_spec fuel stack (done : list Content) :
  NoDup (done ++ stack) → (∀ n, n ∈ done ++ stack → reached n) → root ∈ done ++ stack →
  (∀ n m, n ∈ done → edge inputs n m → m ∈ done ++ stack) →
  (size universe <= fuel + length done)%nat →
  ∃ order, NoDup order ∧ (∀ n, n ∈ order ↔ reached n) ∧
    aggregate_loop inputs contribution fuel stack (list_to_set (done ++ stack)) (fold_sum done)
      = Some (fold_sum order).
Proof.
  revert stack done. induction fuel as [|fuel IH]; intros stack done Hnd Hr Hin Hcl Hsize.
  all: destruct stack as [|node stack]; cbn [aggregate_loop].
  1, 3: rewrite app_nil_r in *; exists done; split_and!; [done| |done]; intros n; split; [by apply Hr|];
    by apply (closed_reached (λ m, m ∈ done)).
  - exfalso. assert (length (done ++ node :: stack) <= size universe)%nat as Hle.
    { rewrite <- (size_list_to_set (C:=gset Content)) by done. apply subseteq_size.
      intros n Hn%elem_of_list_to_set. by apply Huniverse, Hr. }
    rewrite length_app in Hle. cbn in Hle. lia.
  - destruct (push_inputs_spec (inputs node) stack (list_to_set (done ++ node :: stack)) (done ++ [node]))
      as (new & -> & Hnd' & Hm).
    { by rewrite <- (assoc_L _ done). } { by rewrite <- (assoc_L _ done). }
    rewrite fold_sum_snoc. apply IH; [done| | | |].
    + intros n [Hn|[Hn Hn0]]%Hm; [apply Hr; set_solver|].
      eapply rtc_r; [apply (Hr node); set_solver|done].
    + apply Hm. left. set_solver.
    + intros n m [Hn| ->%list_elem_of_singleton]%elem_of_app He; apply Hm.
      * left. specialize (Hcl n m Hn He). set_solver.
      * right. by destruct He.
    + rewrite length_app. cbn. lia.
Qed.

Lemma aggregate_revision_spec fuel :
  (size universe <= fuel)%nat →
  ∃ order, NoDup order ∧ (∀ n, n ∈ order ↔ reached n) ∧
    aggregate_revision inputs contribution fuel root = Some (fold_sum order).
Proof.
  intros Hf. unfold aggregate_revision. rewrite (proj2 (Z.eqb_neq _ _) Hroot).
  destruct (aggregate_loop_spec fuel [root] []) as (order & Hnd & Hm & Heq).
  - apply NoDup_singleton.
  - intros n ->%list_elem_of_singleton. apply rtc_refl.
  - by left.
  - by intros n m ?%not_elem_of_nil.
  - cbn. lia.
  - exists order. split_and!; [done|done|]. rewrite <- Heq. f_equal. set_solver.
Qed.
End aggregate_facts.

Lemma fold_sum_u64 contribution order : in_u64 (fold_sum contribution order).
Proof. apply u64_range. Qed.

Lemma fold_sum_ext c c' order : (∀ n, n ∈ order → c n = c' n) → fold_sum c order = fold_sum c' order.
Proof.
  intros He. unfold fold_sum. f_equal. induction order as [|n order IH]; [done|]. cbn.
  rewrite (He n) by (by left). rewrite IH; [done|]. intros m Hm. apply He. by right.
Qed.

Lemma fold_sum_cons c n order : fold_sum c (n :: order) = u64 (mix64 (c n) + fold_sum c order).
Proof. unfold fold_sum. cbn. unfold u64. by rewrite Zplus_mod_idemp_r. Qed.

Lemma u64_add_cancel a b s : in_u64 a → in_u64 b → u64 (a + s) = u64 (b + s) → a = b.
Proof. unfold in_u64, u64. intros Ha Hb He. Z.to_euclidean_division_equations. lia. Qed.

Lemma fold_sum_same contribution order order' :
  NoDup order → NoDup order' → (∀ n, n ∈ order ↔ n ∈ order') →
  fold_sum contribution order = fold_sum contribution order'.
Proof. intros H1 H2 Hm. by apply fold_sum_perm, NoDup_Permutation. Qed.

(** Changing one contribution of the reached set moves the sum. *)
Lemma fold_sum_one_change c c' order m :
  NoDup order → m ∈ order → in_u64 (c m) → in_u64 (c' m) → c m ≠ c' m →
  (∀ n, n ∈ order → n ≠ m → c n = c' n) → fold_sum c order ≠ fold_sum c' order.
Proof.
  intros Hnd Hm Hu Hu' Hne Hsame Heq.
  apply list_elem_of_split in Hm as (l1 & l2 & ->).
  assert (l1 ++ m :: l2 ≡ₚ m :: (l1 ++ l2)) as Hp by (symmetry; apply Permutation_middle).
  rewrite Hp in Hnd. apply NoDup_cons in Hnd as [Hnot _].
  rewrite !(fold_sum_perm _ _ _ Hp), !fold_sum_cons in Heq.
  rewrite (fold_sum_ext c c' (l1 ++ l2)) in Heq.
  2: { intros n Hn. apply Hsame; [rewrite Hp; by right|]. intros ->. done. }
  destruct (mix64_bijective _ Hu) as (Hr & _ & Hi & _), (mix64_bijective _ Hu') as (Hr' & _ & Hi' & _).
  apply u64_add_cancel in Heq; [|done..]. apply Hne. by rewrite <- Hi, <- Hi', Heq.
Qed.

(** ** Damage reaches every operator that shows it *)

Section routing_facts.
Context (inputs : Content → list Content) (map_input_damage : Content → nat → Rect → Rect).
Context (damaged : Content) (rect : Rect).
Context (rank : Content → nat).
Hypothesis Hrank : ∀ n m, edge inputs n m → (rank m < rank n)%nat.
(** Which pixels of which output the damage changes. *)
Context (changed : Content → double * double → Prop).
Hypothesis Hrect : ∀ p, changed damaged p → rect_contains rect p = true.

(** [Content::map_input_damage]'s covering requirement: a pixel of an operator changes
    because an input changed, and the mapped rectangle of whatever covers the input's
    change covers the pixel. *)
Definition mapping_covers : Prop :=
  ∀ n p, n ≠ damaged → changed n p →
  ∃ i m, inputs n !! i = Some m ∧ m ≠ 0 ∧ (∃ q, changed m q) ∧
    ∀ r, (∀ q, changed m q → rect_contains r q = true) → rect_contains (map_input_damage n i r) p = true.

Hypothesis Hcovers : mapping_covers.

(** A result for [n]: something exactly when [n] reaches the damage, and covering. *)
Definition sound (n : Content) (r : option Rect) : Prop :=
  (is_Some r ↔ rtc (edge inputs) n damaged) ∧
  ∀ p, changed n p → ∃ r', r = Some r' ∧ rect_contains r' p = true.

Definition memo_sound (memo : gmap Content (option Rect)) : Prop :=
  ∀ n r, memo !! n = Some r → sound n r.

(** What the visitor has gathered from the inputs before [i]. *)
Definition gathered (n : Content) (i : nat) (r : option Rect) : Prop :=
  (is_Some r ↔ ∃ j m, (j < i)%nat ∧ inputs n !! j = Some m ∧ m ≠ 0 ∧ rtc (edge inputs) m damaged) ∧
  ∀ j m q p, (j < i)%nat → inputs n !! j = Some m → m ≠ 0 → changed m q →
    (∀ r', (∀ q, changed m q → rect_contains r' q = true) → rect_contains (map_input_damage n j r') p = true) →
    ∃ r', r = Some r' ∧ rect_contains r' p = true.

Lemma gathered_sound n r : n ≠ damaged → gathered n (length (inputs n)) r → sound n r.
Proof.
  intros Hn [Hiff Hcov]. split.
  - rewrite Hiff. split.
    + intros (j & m & _ & Hj & Hm & Hr). eapply rtc_l; [|done]. split; [|done].
      by eapply list_elem_of_lookup_2.
    + intros Hr. inversion Hr as [|? m ? [Hin Hm] Hrest]; simplify_eq.
      apply list_elem_of_lookup in Hin as [j Hj]. exists j, m.
      split_and!; [by eapply lookup_lt_Some|done..].
  - intros p Hp. destruct (Hcovers n p Hn Hp) as (i & m & Hi & Hm & [q Hq] & Hmap).
    eapply Hcov; [|done..]. by eapply lookup_lt_Some.
Qed.

(** One input more: null, or with the descent's answer. *)
Lemma gathered_null n i r : inputs n !! i = Some 0 → gathered n i r → gathered n (S i) r.
Proof.
  intros H0 [Hiff Hcov]. split.
  - rewrite Hiff. split; intros (j & m & Hj & Hm & Hm0 & Hr); exists j, m; split_and!; try done; try lia.
    destruct (decide (j = i)) as [->|]; [congruence|lia].
  - intros j m q p Hj Hm Hm0. apply Hcov; [|done..].
    destruct (decide (j = i)) as [->|]; [congruence|lia].
Qed.

Lemma gathered_input n i r m sub :
  inputs n !! i = Some m → m ≠ 0 → sound m sub → gathered n i r →
  gathered n (S i) match sub with
                   | None => r
                   | Some sub =>
                       let mapped := map_input_damage n i sub in
                       match r with Some r => Some (rect_union r mapped) | None => Some mapped end
                   end.
Proof.
  intros Hi Hm0 [Hs Hc] [Hiff Hcov]. split.
  - transitivity (is_Some r ∨ is_Some sub).
    { destruct sub, r; cbn; split; intros; eauto; by destruct_or?. }
    rewrite Hiff, Hs. split.
    + intros [(j & m' & ? & ? & ? & ?)|Hr]; [exists j, m'|exists i, m]; split_and!; try done; lia.
    + intros (j & m' & Hj & Hm' & Hm0' & Hr). destruct (decide (j = i)) as [->|]; [simplify_eq; by right|].
      left. exists j, m'. split_and!; try done. lia.
  - intros j m' q p Hj Hm' Hm0' Hq Hmap. destruct (decide (j = i)) as [->|].
    + simplify_eq. destruct (Hc q Hq) as (s & -> & _). cbv zeta.
      assert (rect_contains (map_input_damage n i s) p = true) as Hp.
      { apply Hmap. intros q' Hq'. by destruct (Hc q' Hq') as (? & [= <-] & ?). }
      destruct r; eexists; split; [done| |done|done]. by apply rect_union_r.
    + destruct (Hcov j m' q p) as (r' & -> & Hp); [lia|done..|].
      destruct sub; eexists; split; [done| |done|done]. by apply rect_union_l.
Qed.

(** The visitor, given a sound descent below [n]. *)
Lemma map_inputs_sound descend n :
  (∀ m memo, edge inputs n m → memo_sound memo →
     memo_sound (descend m memo).1 ∧ sound m (descend m memo).2) →
  ∀ i ins memo r, drop i (inputs n) = ins → memo_sound memo → gathered n i r →
  let out := map_inputs map_input_damage descend n i ins memo r in
  memo_sound out.1 ∧ gathered n (length (inputs n)) out.2.
Proof.
  intros Hd i ins. revert i. induction ins as [|m ins IH]; intros i memo r Hdrop Hmemo Hg; cbn.
  { split; [done|]. apply (f_equal length) in Hdrop. rewrite length_drop in Hdrop. cbn in Hdrop. destruct Hg as [Hiff Hcov]. split.
    - rewrite Hiff. split; intros (j & m & Hj & Hm & Hm0 & ?); exists j, m;
        split_and!; first [done|lia|by eapply lookup_lt_Some].
    - intros j m q p Hj. apply Hcov. lia. }
  assert (inputs n !! i = Some m) as Hi.
  { replace i with (i + 0)%nat by lia. by rewrite <- lookup_drop, Hdrop. }
  assert (drop (S i) (inputs n) = ins) as Hdrop'.
  { replace (S i) with (i + 1)%nat by lia. by rewrite <- drop_drop, Hdrop. }
  destruct (Z.eqb_spec m 0) as [->|Hm0].
  { apply IH; [done..|]. by apply gathered_null. }
  assert (edge inputs n m) as He by (split; [by eapply list_elem_of_lookup_2|done]).
  destruct (Hd m memo He Hmemo) as [Hmemo' Hsub].
  destruct (descend m memo) as [memo' sub]. apply IH; [done..|]. by apply gathered_input with (m := m) (sub := sub).
Qed.

Hypothesis Hdamaged : damaged ≠ 0.

(** The descent is sound, whatever it finds in the memo, on a node whose rank the depth
    has room for. *)
Lemma map_damage_up_sound room : ∀ n on_stack memo,
  (rank n <= room)%nat → (∀ m, m ∈ on_stack → (rank n < rank m)%nat) → memo_sound memo →
  let out := map_damage_up inputs map_input_damage damaged rect room on_stack n memo in
  memo_sound out.1 ∧ sound n out.2.
Proof.
  induction room as [|room IH]; intros n on_stack memo Hroom Hstack Hmemo; cbn [map_damage_up].
  all: destruct (Z.eqb_spec n damaged) as [->|Hn];
    [split; [done|]; split; [split; [intros _; apply rtc_refl|by eexists]|];
      intros p Hp; eexists; split; [done|by apply Hrect]|].
  all: destruct (memo !! n) as [r|] eqn:Hlook; [split; [done|by apply Hmemo]|].
  - split; [done|]. apply gathered_sound; [done|].
    assert (∀ m, edge inputs n m → False) as Hleaf by (intros m Hm; apply Hrank in Hm; lia).
    split.
    + split; [by intros [? ?]|]. intros (j & m & _ & Hj & Hm & _).
      destruct (Hleaf m). split; [by eapply list_elem_of_lookup_2|done].
    + intros j m q p _ Hj Hm. destruct (Hleaf m). split; [by eapply list_elem_of_lookup_2|done].
  - rewrite bool_decide_eq_false_2 by (intros Hin; specialize (Hstack n Hin); lia).
    destruct (map_inputs_sound (map_damage_up inputs map_input_damage damaged rect room ({[n]} ∪ on_stack)) n)
      with (i := 0%nat) (ins := inputs n) (memo := memo) (r := @None Rect) as [Hmemo' Hg]; [|done|done| |].
    + intros m memo' Hm Hmm. pose proof (Hrank _ _ Hm) as Hlt. apply IH; [lia| |done].
      intros m' [->%elem_of_singleton|Hin]%elem_of_union; [done|]. specialize (Hstack _ Hin). lia.
    + split; [|intros; lia]. split; [by intros [? ?]|]. intros (? & ? & ? & _). lia.
    + destruct (map_inputs _ _ n 0 _ _ _) as [memo' r]. cbn [fst snd] in *.
      apply gathered_sound in Hg; [|done]. split; [|done].
      destruct (memo' !! n) eqn:Hl; [done|]. intros m r' Hm. destruct (decide (n = m)) as [->|Hne].
      * rewrite lookup_insert in Hm. rewrite decide_True in Hm by done. by simplify_eq.
      * rewrite lookup_insert_ne in Hm by done. by apply Hmemo'.
Qed.

(** Every operator of the frame, and which of them are routed to. *)
Definition routed (op : OperatorLayer) : Prop :=
  ol_content op ≠ 0 ∧ ol_content op ≠ damaged ∧ rtc (edge inputs) (ol_content op) damaged.

Lemma route_one_sound range max_depth out op :
  (rank (ol_content op) <= max_depth)%nat →
  let out' := route_one inputs map_input_damage damaged rect range max_depth out op in
  (NoDup (map dm_object out) → NoDup (map dm_object out')) ∧
  (∀ o, o ∈ map dm_object out' ↔ o ∈ map dm_object out ∨ (routed op ∧ o = ol_object op)) ∧
  (∀ x, (∃ e, e ∈ out ∧ reports e x = true) → ∃ e, e ∈ out' ∧ reports e x = true) ∧
  (routed op → ∀ p t, changed (ol_content op) p → range_contains range t = true →
    ∃ e, e ∈ out' ∧ reports e (ol_object op, p, t) = true).
Proof.
  intros Hroom. unfold route_one, routed. cbv zeta.
  destruct (Z.eqb_spec (ol_content op) 0) as [H0|H0]; cbn [orb].
  { split_and!; try done; [|tauto]. naive_solver. }
  destruct (Z.eqb_spec (ol_content op) damaged) as [Hd|Hd].
  { split_and!; try done; [|tauto]. naive_solver. }
  destruct (map_damage_up_sound max_depth (ol_content op) ∅ ∅) as [_ [Hiff Hcov]];
    [done|set_solver|by intros ? ?|].
  destruct (map_damage_up _ _ _ _ _ _ _ _) as [memo [mapped|]]; cbn [snd] in *.
  - assert (rtc (edge inputs) (ol_content op) damaged) as Hr by (apply Hiff; eauto).
    split_and!.
    + apply damage_add_nodup.
    + intros o. rewrite damage_add_objects. cbn. tauto.
    + intros x He. apply damage_add_covers. by right.
    + intros _ p t Hp Ht. apply damage_add_covers. left. cbn. rewrite Z.eqb_refl, Ht, andb_true_r.
      by destruct (Hcov p Hp) as (? & [= <-] & ->).
  - assert (¬ rtc (edge inputs) (ol_content op) damaged) as Hr.
    { intros Hr. apply Hiff in Hr. by destruct Hr. }
    split_and!; try done; tauto.
Qed.

Lemma route_fold_sound range max_depth ops : ∀ out,
  (∀ op, op ∈ ops → (rank (ol_content op) <= max_depth)%nat) →
  let out' := foldl (route_one inputs map_input_damage damaged rect range max_depth) out ops in
  (NoDup (map dm_object out) → NoDup (map dm_object out')) ∧
  (∀ o, o ∈ map dm_object out' ↔ o ∈ map dm_object out ∨ ∃ op, op ∈ ops ∧ routed op ∧ o = ol_object op) ∧
  (∀ x, (∃ e, e ∈ out ∧ reports e x = true) → ∃ e, e ∈ out' ∧ reports e x = true) ∧
  (∀ op p t, op ∈ ops → routed op → changed (ol_content op) p → range_contains range t = true →
    ∃ e, e ∈ out' ∧ reports e (ol_object op, p, t) = true).
Proof.
  induction ops as [|op ops IH]; intros out Hroom; cbn [foldl].
  { split_and!; try done; [|by intros ? ? ? ?%not_elem_of_nil].
    intros o. split; [by left|]. intros [?|(? & ?%not_elem_of_nil & _)]; done. }
  destruct (route_one_sound range max_depth out op) as (Hn1 & Ho1 & Hk1 & Hc1); [apply Hroom; by left|].
  destruct (IH (route_one inputs map_input_damage damaged rect range max_depth out op))
    as (Hn & Ho & Hk & Hc); [intros op' ?; apply Hroom; by right|].
  split_and!.
  - auto.
  - intros o. rewrite Ho, Ho1. split.
    + intros [[?|[Hr ->]]|(op' & Hin & ?)]; [by left|right; exists op|right; exists op'].
      * split; [by left|done].
      * split; [by right|done].
    + intros [?|(op' & [->|Hin]%elem_of_cons & Hr & ->)]; [by left; left|by left; right|].
      right. by exists op'.
  - auto.
  - intros op' p t [->|Hin]%elem_of_cons Hr Hp Ht; eauto.
Qed.
End routing_facts.

(** ** Identity chains *)

Section identity_facts.
Context (inputs : Content → list Content) (identity : Content → option nat).

(** [n] passes its input [m] through. *)
Definition passes (n m : Content) : Prop :=
  ∃ idx, identity n = Some idx ∧ inputs n !! idx = Some m ∧ m ≠ 0.

(** [n] names an edge that is out of range or null. *)
Definition broken (n : Content) : Prop :=
  ∃ idx, identity n = Some idx ∧ default 0 (inputs n !! idx) = 0.

(** Where the descent stops short of the budget. *)
Definition chain_end (n : Content) : Prop := identity n = None ∨ broken n.

(** The nodes from [n] to [m], along pass-throughs. *)
Inductive chain : Content → list Content → Content → Prop :=
  | chain_one n : chain n [n] n
  | chain_step n m path t : passes n m → chain m path t → chain n (n :: path) t.

Lemma chain_length n path t : chain n path t → (1 <= length path)%nat.
Proof. destruct 1; cbn; lia. Qed.

Lemma resolve_loop_spec (room : nat) : ∀ depth n path short,
  let '(res, diag) := resolve_loop inputs identity room depth n path short in
  ∃ nodes t, chain n nodes t ∧
    ((chain_end t ∧ (length nodes <= S room)%nat ∧ res = mkResolution t (ir_short_circuited res) false ∧ diag = [] ∧
      (ir_short_circuited res = true ↔ short = true ∨ nodes ≠ [t] ∨ broken t)) ∨
     (is_Some (identity t) ∧ length nodes = S room ∧ res = mkResolution 0 true true ∧
      diag = [mkDiagnostic t (depth + room) (rev path ++ nodes)])).
Proof.
  induction room as [|room IH]; intros depth n path short; cbn [resolve_loop].
  all: destruct (identity n) as [idx|] eqn:Hid.
  2, 4: exists [n], n; split; [constructor|]; left; split_and!; [by left|cbn; lia|done|done|];
    cbn; split; [by left|]; intros [?|[?|(? & ? & _)]]; congruence.
  - exists [n], n. split; [constructor|]. right. split_and!; [done|done|done|].
    cbn. by rewrite Nat.add_0_r.
  - destruct (Z.eqb_spec (default 0 (inputs n !! idx)) 0) as [H0|H0].
    + exists [n], n. split; [constructor|]. left.
      assert (broken n) as Hb by (exists idx; done).
      split_and!; [by right|cbn; lia|done|done|]. cbn. tauto.
    + specialize (IH (S depth) (default 0 (inputs n !! idx)) (n :: path) true).
      destruct (resolve_loop _ _ _ _ _ _ _) as [res diag]. destruct IH as (nodes & t & Hch & Hcase).
      exists (n :: nodes), t.
      assert (passes n (default 0 (inputs n !! idx))) as Hp.
      { exists idx. split_and!; [done| |done]. by destruct (inputs n !! idx). }
      split; [by econstructor|]. pose proof (chain_length _ _ _ Hch) as Hlen.
      destruct Hcase as [(He & Hl & Hres & Hd & Hs)|(He & Hl & Hres & Hd)]; [left|right].
      * split_and!; [done|cbn; lia|done|done|]. rewrite Hs. split; [|by left].
        intros _. right. left. destruct nodes; [cbn in Hlen; lia|done].
      * split_and!; [done|cbn; lia|done|]. rewrite Hd. cbn. rewrite <- (assoc_L _ (rev path)).
        by rewrite Nat.add_succ_r.
Qed.

(** A descent ends with a driven content, or with the placeholder and one diagnostic. *)
Definition settled (out : Served * list GraphDiagnostic) : Prop :=
  match out with
  | (Unserved, diag) => False
  | (Placeholder, diag) => length diag = 1%nat
  | (Drives _, diag) => diag = []
  end.

Lemma resolve_identity_diag (max_depth : nat) n :
  let '(res, diag) := resolve_identity inputs identity max_depth n in
  length diag = if ir_budget_exceeded res then 1%nat else 0%nat.
Proof.
  unfold resolve_identity. destruct (n =? 0); [done|].
  pose proof (resolve_loop_spec max_depth 0 n [] false) as Hs.
  destruct (resolve_loop _ _ _ _ _ _ _) as [res diag].
  by destruct Hs as (nodes & t & _ & [(_ & _ & -> & -> & _)|(_ & _ & -> & ->)]).
Qed.

Lemma pull_settled (max_depth room : nat) : ∀ depth input,
  input ≠ 0 → settled (pull inputs identity max_depth room depth input).
Proof.
  induction room as [|room IH]; intros depth input Hin; cbn [pull];
    rewrite (proj2 (Z.eqb_neq _ _) Hin); [done|].
  destruct (is_operator inputs input); [|done].
  pose proof (resolve_identity_diag max_depth input) as Hdiag.
  destruct (resolve_identity _ _ _ _) as [ident diag].
  destruct (ir_budget_exceeded ident); [done|]. apply nil_length_inv in Hdiag as ->.
  destruct (ir_short_circuited ident); cbn [andb]; [|done].
  destruct (Z.eqb_spec (ir_terminal ident) 0) as [|Ht]; cbn [negb]; [done|].
  specialize (IH (S depth) (ir_terminal ident) Ht). by destruct (pull _ _ _ _ _ _).
Qed.

(** The resolution of a chain that ends well within the budget. *)
Lemma resolve_chain (room : nat) : ∀ n nodes t depth path short,
  chain n nodes t → identity t = None → (length nodes <= S room)%nat →
  resolve_loop inputs identity room depth n path short
    = (mkResolution t (short || negb (bool_decide (nodes = [t]))) false, []).
Proof.
  intros n nodes t depth path short Hch. revert room depth path short.
  induction Hch as [n|n m nodes t Hp Hch IH]; intros room depth path short Ht Hl.
  - rewrite bool_decide_eq_true_2 by done. cbn. rewrite orb_false_r.
    destruct room; cbn; by rewrite Ht.
  - pose proof (chain_length _ _ _ Hch). destruct room as [|room]; [cbn in Hl; lia|].
    destruct Hp as (idx & Hid & Hm & Hm0). cbn [resolve_loop].
    rewrite Hid, Hm. change (default 0 (Some m)) with m.
    rewrite (proj2 (Z.eqb_neq _ _) Hm0), IH; [|done|cbn in Hl; lia]. cbn [orb].
    rewrite bool_decide_eq_false_2; [by rewrite orb_true_r|].
    destruct nodes; [cbn in *; lia|done].
Qed.
End identity_facts.

Lemma pull_broken inputs identity max_depth room : ∀ depth n,
  n ≠ 0 → is_operator inputs n = true → broken inputs identity n → max_depth ≠ 0%nat →
  pull inputs identity max_depth room depth n = (Placeholder, [mkDiagnostic n (depth + room) [n]]).
Proof.
  induction room as [|room IH]; intros depth n Hn Hop (idx & Hid & Hbr) Hmax; cbn [pull];
    rewrite (proj2 (Z.eqb_neq _ _) Hn).
  { by rewrite Nat.add_0_r. }
  rewrite Hop. unfold resolve_identity. rewrite (proj2 (Z.eqb_neq _ _) Hn).
  destruct max_depth as [|max_depth]; [done|]. cbn [resolve_loop]. rewrite Hid, Hbr. cbn.
  rewrite (proj2 (Z.eqb_neq _ _) Hn). cbn. rewrite IH; [|done|done|by exists idx|done].
  by rewrite Nat.add_succ_r.
Qed.

Lemma pull_resolved inputs identity max_depth room depth n t diag :
  n ≠ 0 → is_operator inputs n = true → t ≠ 0 →
  resolve_identity inputs identity max_depth n = (mkResolution t true false, diag) →
  pull inputs identity max_depth (S room) depth n
    = let '(served, more) := pull inputs identity max_depth room (S depth) t in (served, diag ++ more).
Proof.
  intros Hn Hop Ht Hres. cbn [pull]. rewrite (proj2 (Z.eqb_neq _ _) Hn), Hop, Hres.
  cbn [ir_budget_exceeded ir_short_circuited ir_terminal andb].
  by rewrite (proj2 (Z.eqb_neq _ _) Ht).
Qed.

(** ** Properties *)

(** C33: the revision of an operator folds each content it reaches exactly once, over any
    graph, shared inputs and cycles included, and the walk ends: with fuel for the
    contents in play it returns the 64-bit sum of the mixed contributions of exactly the
    reachable contents, whatever the order of the inputs. *)
Theorem aggregate_revision_exact (inputs : Content → list Content) (root : Content)
    (universe : gset Content) (fuel : nat)
    (Hroot : root ≠ 0) (Huniverse : ∀ n, rtc (edge inputs) root n → n ∈ universe)
    (Hfuel : (size universe <= fuel)%nat) :
  ∃ order, NoDup order ∧ (∀ n, n ∈ order ↔ rtc (edge inputs) root n) ∧
    ∀ contribution, aggregate_revision inputs contribution fuel root = Some (fold_sum contribution order).
Proof.
  destruct (aggregate_revision_spec inputs (λ _, 0) root universe Hroot Huniverse fuel Hfuel)
    as (order & Hnd & Hm & _).
  exists order. split_and!; [done|done|]. intros contribution.
  destruct (aggregate_revision_spec inputs contribution root universe Hroot Huniverse fuel Hfuel)
    as (order' & Hnd' & Hm' & ->).
  f_equal. apply fold_sum_same; [done|done|]. intros n. by rewrite Hm', Hm.
Qed.

(** a key built on the revision cannot go stale by one edit: changing the contribution
    of any single reachable content, however deep, changes the aggregate, and changing an
    unreachable one does not. *)
Theorem aggregate_revision_tells (inputs : Content → list Content) (root m : Content)
    (universe : gset Content) (fuel : nat) (c c' : Content → Z)
    (Hroot : root ≠ 0) (Huniverse : ∀ n, rtc (edge inputs) root n → n ∈ universe)
    (Hfuel : (size universe <= fuel)%nat)
    (Hu : in_u64 (c m)) (Hu' : in_u64 (c' m)) (Hne : c m ≠ c' m) (Hsame : ∀ n, n ≠ m → c n = c' n) :
  is_Some (aggregate_revision inputs c fuel root) ∧
  (aggregate_revision inputs c fuel root ≠ aggregate_revision inputs c' fuel root ↔
   rtc (edge inputs) root m).
Proof.
  destruct (aggregate_revision_spec inputs c root universe Hroot Huniverse fuel Hfuel)
    as (order & Hnd & Hm & Heq).
  destruct (aggregate_revision_spec inputs c' root universe Hroot Huniverse fuel Hfuel)
    as (order' & Hnd' & Hm' & Heq').
  rewrite (fold_sum_same c' order' order) in Heq'; [|done|done|intros n; by rewrite Hm', Hm].
  rewrite Heq, Heq'. split; [by eexists|]. split.
  - intros Hdiff. destruct (decide (m ∈ order)) as [Hin|Hout]; [by apply Hm|].
    destruct Hdiff. f_equal. apply fold_sum_ext. intros n Hn. apply Hsame. by intros ->.
  - intros Hr%Hm [= He]. by eapply (fold_sum_one_change c c' order m); eauto.
Qed.

(** C32: damage is never under-reported on an acyclic graph no deeper than the budget:
    when every [map_input_damage] meets its covering requirement, each pixel of each
    operator that the damage changes is reported for the operator's object throughout the
    range; and exactly the operators that reach the damaged content are reported, each
    object once. *)
Theorem route_covers (inputs : Content → list Content) (map_input_damage : Content → nat → Rect → Rect)
    (damaged : Content) (rect : Rect) (range : TimeRange) (rank : Content → nat)
    (changed : Content → double * double → Prop) (operators : list OperatorLayer) (max_depth : nat)
    (Hdamaged : damaged ≠ 0)
    (Hrank : ∀ n m, edge inputs n m → (rank m < rank n)%nat)
    (Hdepth : ∀ op, op ∈ operators → (rank (ol_content op) <= max_depth)%nat)
    (Hrect : ∀ p, changed damaged p → rect_contains rect p = true)
    (Hcovers : mapping_covers inputs map_input_damage damaged changed) :
  let out := route_operator_damage inputs map_input_damage operators damaged rect range max_depth in
  NoDup (map dm_object out) ∧
  (∀ o, o ∈ map dm_object out ↔ ∃ op, op ∈ operators ∧ routed inputs damaged op ∧ o = ol_object op) ∧
  (∀ op p t, op ∈ operators → routed inputs damaged op → changed (ol_content op) p →
    range_contains range t = true → ∃ d, d ∈ out ∧ reports d (ol_object op, p, t) = true).
Proof.
  unfold route_operator_damage. rewrite (proj2 (Z.eqb_neq _ _) Hdamaged).
  destruct (route_fold_sound inputs map_input_damage damaged rect rank Hrank changed Hrect Hcovers
              range max_depth operators [] Hdepth) as (Hn & Ho & _ & Hc).
  split_and!; [apply Hn, NoDup_nil_2| |done].
  intros o. rewrite Ho. cbn. rewrite elem_of_nil. tauto.
Qed.

(** resolving an identity chain always ends, within the budget: either at the content
    to serve -- the end of the chain of pass-throughs, at most [max_depth] edges away --
    with no diagnostic, or over budget with no terminal and one diagnostic that names the
    content it stopped at and the whole path there. *)
Theorem resolve_identity_spec (inputs : Content → list Content) (identity : Content → option nat)
    (max_depth : nat) (content : Content) (Hcontent : content ≠ 0) :
  ∃ nodes t, chain inputs identity content nodes t ∧
    ((chain_end inputs identity t ∧ (length nodes <= S max_depth)%nat ∧
      resolve_identity inputs identity max_depth content
        = (mkResolution t (negb (bool_decide (identity content = None))) false, [])) ∨
     (is_Some (identity t) ∧ length nodes = S max_depth ∧
      resolve_identity inputs identity max_depth content
        = (mkResolution 0 true true, [mkDiagnostic t max_depth nodes]))).
Proof.
  unfold resolve_identity. rewrite (proj2 (Z.eqb_neq _ _) Hcontent).
  pose proof (resolve_loop_spec inputs identity max_depth 0 content [] false) as Hs.
  destruct (resolve_loop _ _ _ _ _ _ _) as [res diag]. destruct Hs as (nodes & t & Hch & Hcase).
  exists nodes, t. split; [done|].
  destruct Hcase as [(He & Hl & Hres & -> & Hs)|(He & Hl & -> & ->)]; [left|by right].
  split_and!; [done|done|]. rewrite Hres. do 2 f_equal.
  destruct Hch as [n|n m nodes t Hp Hch].
  - case_bool_decide as Hid; cbn.
    + apply not_true_is_false. rewrite Hs. intros [?|[?|(? & ? & _)]]; congruence.
    + apply Hs. right. right. by destruct He.
  - destruct Hp as (idx & Hid & _). rewrite bool_decide_eq_false_2 by congruence. cbn.
    apply Hs. right. left. pose proof (chain_length _ _ _ _ _ Hch).
    destruct nodes; [cbn in *; lia|done].
Qed.

(** a pull always settles: it drives one content and reports nothing, or degrades to
    the placeholder with exactly one diagnostic, whatever the graph; and an operator whose
    chain of pass-throughs ends within the budget is served by the content at its end. *)
Theorem pull_settles (inputs : Content → list Content) (identity : Content → option nat)
    (max_depth : nat) (input : Content) (Hinput : input ≠ 0) (Hmax : (2 <= max_depth)%nat) :
  settled (pull inputs identity max_depth max_depth 0 input) ∧
  ∀ nodes t, chain inputs identity input nodes t → t ≠ 0 → identity t = None →
    (length nodes <= S max_depth)%nat →
    pull inputs identity max_depth max_depth 0 input = (Drives t, []).
Proof.
  split; [by apply pull_settled|]. intros nodes t Hch Ht Hid Hl.
  assert (∀ room depth n, n ≠ 0 → identity n = None →
    pull inputs identity max_depth (S room) depth n = (Drives n, [])) as Hlast.
  { intros room depth n Hn Hnone. cbn [pull]. rewrite (proj2 (Z.eqb_neq _ _) Hn).
    destruct (is_operator inputs n); [|done]. unfold resolve_identity.
    rewrite (proj2 (Z.eqb_neq _ _) Hn).
    rewrite (resolve_chain _ _ max_depth n [n] n); [|constructor|done|cbn; lia].
    rewrite bool_decide_eq_true_2 by done. done. }
  destruct max_depth as [|[|room]]; [lia|lia|].
  destruct Hch as [n|n m nodes t Hp Hch]; [by apply Hlast|].
  assert (is_operator inputs n = true) as Hop.
  { destruct Hp as (idx & _ & Hm & _). unfold is_operator. rewrite (proj2 (Z.eqb_neq _ _) Hinput). cbn.
    by destruct (inputs n). }
  pose proof (chain_length _ _ _ _ _ Hch) as Hlen.
  rewrite (pull_resolved _ _ _ _ _ _ t []); [|done|done|done|].
  2: { unfold resolve_identity. rewrite (proj2 (Z.eqb_neq _ _) Hinput).
       rewrite (resolve_chain _ _ (S (S room)) n (n :: nodes) t); [|by econstructor|done|done].
       rewrite bool_decide_eq_false_2; [done|]. destruct nodes; [cbn in *; lia|done]. }
  by rewrite (Hlast room 1%nat t).
Qed.

(** where the descent does more than fall back: an operator whose identity names an edge
    it does not have is not rendered itself -- the resolution answers the operator as its
    own short-circuit, the pull follows it, and comes back until the depth runs out: the
    placeholder, and a diagnostic that speaks of depth. *)
Theorem broken_identity_spins (inputs : Content → list Content) (identity : Content → option nat)
    (max_depth : nat) (n : Content)
    (Hn : n ≠ 0) (Hop : is_operator inputs n = true) (Hbroken : broken inputs identity n) (Hmax : max_depth ≠ 0%nat) :
  pull inputs identity max_depth max_depth 0 n = (Placeholder, [mkDiagnostic n max_depth [n]]).
Proof. by rewrite pull_broken. Qed.

(** The operator 1 shows its input 3 alone; 2 and 3 show each other, and 2 the damaged 4. *)
Definition loop_inputs (ins : list Content) (n : Content) : list Content :=
  if n =? 1 then ins else if n =? 2 then [3; 4] else if n =? 3 then [2] else [].

Definition loop_map (ins : list Content) (n : Content) (i : nat) (r : Rect) : Rect :=
  if bool_decide (n = 1 ∧ ins !! i = Some 2) then Rect_default else r.

(** on a cyclic graph the memo under-reports: the answer found for 3 while 2 was still on
    the stack -- nothing -- is kept as its final one, so the path from 1 over 3 and 2 to the
    damaged content, which visits nothing twice, is missed; with the inputs of 1 in the other
    order the same damage is reported in full. *)
Theorem memo_under_reports (range : TimeRange) :
  let route ins := route_operator_damage (loop_inputs ins) (loop_map ins) [mkOperatorLayer 7 1] 4
                     Rect_infinite range k_max_recursion_depth in
  route [2; 3] = [mkDamage 7 Rect_default range] ∧
  route [3; 2] = [mkDamage 7 Rect_infinite range] ∧
  rtc (edge (loop_inputs [2; 3])) 3 4 ∧ rect_empty Rect_default = true.
Proof.
  split_and!; [vm_compute; reflexivity|vm_compute; reflexivity| |vm_compute; reflexivity].
  apply (rtc_l _ 3 2); [split; [by left|done]|].
  apply (rtc_l _ 2 4); [split; [by right; left|done]|apply rtc_refl].
Qed.

(** ** Witnesses *)

(** A diamond: 1 over 2 and 3, both over 4. *)
Definition diamond (n : Content) : list Content :=
  if n =? 1 then [2; 0; 3] else if (n =? 2) || (n =? 3) then [4] else [].

Lemma diamond_edges n m : edge diamond n m → n ∈ [1; 2; 3] ∧ m ∈ [2; 3; 4] ∧ n < m.
Proof.
  unfold edge, diamond. intros [Hin Hm].
  repeat case_match; bool_to_prop; set_unfold in Hin; set_unfold; lia.
Qed.

Lemma diamond_reached n : rtc (edge diamond) 1 n → n ∈ ({[1; 2; 3; 4]} : gset Content).
Proof.
  intros Hr. apply (closed_reached diamond (λ m, m ∈ ({[1; 2; 3; 4]} : gset Content)) 1); [set_solver| |done].
  intros a b _ (_ & Hb & _)%diamond_edges. set_solver.
Qed.

Lemma diamond_1_4 : rtc (edge diamond) 1 4.
Proof.
  apply (rtc_l _ 1 2); [split; [by left|done]|].
  apply (rtc_l _ 2 4); [split; [by left|done]|apply rtc_refl].
Qed.

Example diamond_folds_four :
  aggregate_revision diamond (λ n, n + 6) 4 1
    = Some (u64 (mix64 7 + mix64 9 + mix64 10 + mix64 8)).
Proof. vm_compute. reflexivity. Qed.

Lemma diamond_size : (size ({[1; 2; 3; 4]}%Z : gset Content) <= 4)%nat.
Proof. apply Nat.leb_le. vm_compute. reflexivity. Qed.

Lemma aggregate_revision_exact_witness :
  ∃ order, NoDup order ∧ (∀ n, n ∈ order ↔ rtc (edge diamond) 1 n) ∧
    ∀ contribution, aggregate_revision diamond contribution 4 1 = Some (fold_sum contribution order).
Proof.
  apply (aggregate_revision_exact diamond 1 {[1; 2; 3; 4]} 4); [done|apply diamond_reached|apply diamond_size].
Defined.

Definition diamond_changed (n : Content) (p : double * double) : Prop :=
  n ∈ [1; 2; 3; 4] ∧ rect_contains Rect_infinite p = true.

Lemma diamond_covers : mapping_covers diamond (λ _ _ r, r) 4 diamond_changed.
Proof.
  intros n p Hn [Hin Hp]. exists 0%nat.
  repeat setoid_rewrite elem_of_cons in Hin. rewrite elem_of_nil in Hin.
  destruct Hin as [->|[->|[->|[->|[]]]]]; [exists 2|exists 4|exists 4|done].
  all: split_and!; [done|done|exists p; split; [|done]|intros r Hr; apply Hr; split; [|done]].
  all: rewrite !elem_of_cons; tauto.
Qed.

Lemma route_covers_witness :
  ∃ d, d ∈ route_operator_damage diamond (λ _ _ r, r) [mkOperatorLayer 7 1] 4 Rect_infinite TimeRange_all 64
       ∧ reports d (7, (d_zero, d_zero), mkTime 0) = true.
Proof.
  destruct (route_covers diamond (λ _ _ r, r) 4 Rect_infinite TimeRange_all (λ n, Z.to_nat (4 - n)) diamond_changed
              [mkOperatorLayer 7 1] 64) as (_ & _ & Hc); [done| | |by intros q [_ Hq]|apply diamond_covers|].
  - intros n m (_ & Hm & Hlt)%diamond_edges. set_unfold. lia.
  - intros op ->%list_elem_of_singleton. cbn. lia.
  - apply (Hc (mkOperatorLayer 7 1)); [by left| | |reflexivity].
  2: { split; [by left|reflexivity]. }
    split_and!; [done|done|apply diamond_1_4].
Defined.
