(* ===== verification/PixelTraits.v ===== *)
(** Pixel formats and the half-float storage: [src/src/media/arbc/media/pixel_format.hpp]
    and the 16-bit and 32-bit codecs of [pixel_traits.hpp].

    A [float] is its 32 bits and a half its 16, as the source moves them; the theorems read
    both as the numbers they stand for: widening a half is exact, and narrowing a float is
    IEEE 754's rounding, to the nearest half and the even one of two. *)

From S2P Require Import Prelude RationalTime Records.

Local Open Scope Z_scope.

Definition u16 (z : Z) : Z := z mod 2 ^ 16.
Definition in_u16 (z : Z) : Prop := 0 <= z < 2 ^ 16.

Definition bytes_per_pixel (format : PixelFormat) : nat :=
  match format with Rgba32fLinearPremul => 16 | Rgba16fLinearPremul => 8 | Rgba8Srgb => 4 end.

Definition channels_per_pixel (format : PixelFormat) : nat := 4.

Definition is_float (format : PixelFormat) : bool :=
  match format with Rgba32fLinearPremul | Rgba16fLinearPremul => true | Rgba8Srgb => false end.

(** ** [f16_to_float] *)

(** The loop that shifts a subnormal's leading bit up to the implicit one; ten rounds are
    enough ([renormalize_spec]). *)
Fixpoint renormalize (fuel : nat) (m shift : Z) : Z * Z :=
  match fuel with
  | O => (m, shift)
  | S fuel =>
      if Z.land m 0x400 =? 0 then renormalize fuel (u32 (Z.shiftl m 1)) (shift + 1) else (m, shift)
  end.

Definition f16_to_float (half : Z) : Z :=
  let sign := u32 (Z.shiftl (Z.land half 0x8000) 16) in
  let exp := Z.land (Z.shiftr half 10) 0x1F in
  let mant := Z.land half 0x3FF in
  if exp =? 0 then
    if negb (mant =? 0) then
      let '(m, shift) := renormalize 10 mant 0 in
      let m := Z.land m 0x3FF in
      let e := u32 (127 - 14 - shift) in
      Z.lor (Z.lor sign (u32 (Z.shiftl e 23))) (u32 (Z.shiftl m 13))
    else sign
  else if exp =? 0x1F then Z.lor (Z.lor sign 0x7F800000) (u32 (Z.shiftl mant 13))
  else Z.lor (Z.lor sign (u32 (Z.shiftl (u32 (exp + (127 - 15))) 23))) (u32 (Z.shiftl mant 13)).

(** ** [f16_from_float] *)

Definition f16_from_float (bits : Z) : Z :=
  let sign := u16 (Z.land (Z.shiftr bits 16) 0x8000) in
  let biased := Z.land (Z.shiftr bits 23) 0xFF in
  let mant := Z.land bits 0x7FFFFF in
  if biased =? 0xFF then
    let payload := if negb (mant =? 0) then 0x200 else 0 in
    u16 (Z.lor (Z.lor sign 0x7C00) payload)
  else
    let exp := biased - 127 + 15 in
    if 0x1F <=? exp then u16 (Z.lor sign 0x7C00)
    else if exp <=? 0 then
      if exp <? -10 then sign
      else
        let full := Z.lor mant 0x800000 in
        let shift := 14 - exp in
        let quotient := Z.shiftr full shift in
        let remainder := Z.land full (u32 (Z.shiftl 1 shift) - 1) in
        let halfway := u32 (Z.shiftl 1 (shift - 1)) in
        let rounded :=
          if (halfway <? remainder) || ((remainder =? halfway) && negb (Z.land quotient 1 =? 0))
          then u32 (quotient + 1) else quotient in
        u16 (Z.lor sign rounded)
    else
      let half_mant := Z.shiftr mant 13 in
      let remainder := Z.land mant 0x1FFF in
      let out := Z.lor (u32 (Z.shiftl exp 10)) half_mant in
      let out :=
        if (0x1000 <? remainder) || ((remainder =? 0x1000) && negb (Z.land half_mant 1 =? 0))
        then u32 (out + 1) else out in
      u16 (Z.lor sign out).

(** ** [PixelTraits] of the two float formats *)

Fixpoint le_bytes (n : nat) (z : Z) : list Z :=
  match n with O => [] | S n => z mod 256 :: le_bytes n (z / 256) end.

Definition le_value (l : list Z) : Z := foldr (λ b v, b + 256 * v) 0 l.

(** A sample in storage, in the byte order of the hosts the program runs on, and back;
    [Rgba8Srgb] is computed in floating point and has no sample here. *)
Definition encode_sample (format : PixelFormat) (value : Z) : list Z :=
  match format with
  | Rgba32fLinearPremul => le_bytes 4 value
  | Rgba16fLinearPremul => le_bytes 2 (f16_from_float value)
  | Rgba8Srgb => []
  end.

Definition decode_sample (format : PixelFormat) (bytes : list Z) : Z :=
  match format with
  | Rgba32fLinearPremul => le_value bytes
  | Rgba16fLinearPremul => f16_to_float (le_value bytes)
  | Rgba8Srgb => 0
  end.

Example halves :
  f16_from_float 0x3F800000 = 0x3C00 ∧ f16_to_float 0x0001 = 0x33800000 ∧
  f16_from_float 0x477FF000 = 0x7C00 ∧ f16_from_float 0x33000001 = 1 ∧ f16_from_float 0x33000000 = 0.
Proof. vm_compute. done. Qed.

(** ** Fields of a word *)

Lemma lor_fields hi lo n : 0 <= n → 0 <= lo < 2 ^ n → Z.lor (hi * 2 ^ n) lo = hi * 2 ^ n + lo.
Proof.
  intros Hn Hlo. symmetry. apply Z.add_nocarry_lor. apply Z.bits_inj'. intros k Hk.
  rewrite Z.land_spec, Z.bits_0. destruct (Z.lt_ge_cases k n).
  - by rewrite Z.mul_pow2_bits_low.
  - rewrite (testbit_above lo n k) by done. apply andb_false_r.
Qed.

Lemma land_pow2 x n : 0 <= n → Z.land x (2 ^ n) = (x / 2 ^ n mod 2) * 2 ^ n.
Proof.
  intros Hn. rewrite <- Z.testbit_spec' by done. apply Z.bits_inj'. intros k Hk.
  rewrite Z.land_spec, Z.pow2_bits_eqb by done.
  destruct (Z.eqb_spec n k) as [->|Hne]; [rewrite andb_true_r|rewrite andb_false_r];
    destruct (Z.testbit x _); cbn [Z.b2z]; rewrite ?Z.mul_1_l, ?Z.mul_0_l, ?Z.bits_0, ?Z.pow2_bits_eqb by done; [|done| |done].
  - symmetry. by apply Z.eqb_eq.
  - symmetry. by apply Z.eqb_neq.
Qed.

Definition f32 (s e m : Z) : Z := s * 2 ^ 31 + e * 2 ^ 23 + m.
Definition f16 (s e m : Z) : Z := s * 2 ^ 15 + e * 2 ^ 10 + m.

Definition f32_ok (s e m : Z) : Prop := 0 <= s < 2 ∧ 0 <= e < 256 ∧ 0 <= m < 2 ^ 23.
Definition f16_ok (s e m : Z) : Prop := 0 <= s < 2 ∧ 0 <= e < 32 ∧ 0 <= m < 2 ^ 10.

Lemma f32_of_bits bits : in_u32 bits → ∃ s e m, f32_ok s e m ∧ bits = f32 s e m.
Proof.
  intros Hb. unfold in_u32 in Hb.
  exists (bits / 2 ^ 31), (bits / 2 ^ 23 mod 2 ^ 8), (bits mod 2 ^ 23). unfold f32_ok, f32.
  split_and!; Z.to_euclidean_division_equations; lia.
Qed.

Lemma f16_of_bits half : in_u16 half → ∃ s e m, f16_ok s e m ∧ half = f16 s e m.
Proof.
  intros Hb. unfold in_u16 in Hb.
  exists (half / 2 ^ 15), (half / 2 ^ 10 mod 2 ^ 5), (half mod 2 ^ 10). unfold f16_ok, f16.
  split_and!; Z.to_euclidean_division_equations; lia.
Qed.

Lemma f32_fields s e m :
  f32_ok s e m →
  Z.land (Z.shiftr (f32 s e m) 16) 0x8000 = s * 2 ^ 15 ∧
  Z.land (Z.shiftr (f32 s e m) 23) 0xFF = e ∧ Z.land (f32 s e m) 0x7FFFFF = m.
Proof.
  intros (Hs & He & Hm). unfold f32.
  change 0x8000 with (2 ^ 15). change 0xFF with (Z.ones 8). change 0x7FFFFF with (Z.ones 23).
  rewrite land_pow2, !Z.land_ones, !Z.shiftr_div_pow2 by lia.
  split_and!; Z.to_euclidean_division_equations; lia.
Qed.

Lemma f16_fields s e m :
  f16_ok s e m →
  Z.land (f16 s e m) 0x8000 = s * 2 ^ 15 ∧
  Z.land (Z.shiftr (f16 s e m) 10) 0x1F = e ∧ Z.land (f16 s e m) 0x3FF = m.
Proof.
  intros (Hs & He & Hm). unfold f16.
  change 0x8000 with (2 ^ 15). change 0x1F with (Z.ones 5). change 0x3FF with (Z.ones 10).
  rewrite land_pow2, !Z.land_ones, !Z.shiftr_div_pow2 by lia.
  split_and!; Z.to_euclidean_division_equations; lia.
Qed.

(** The pieces of a word, joined by [|]. *)
Lemma join_f32 s e m : f32_ok s e m → Z.lor (Z.lor (s * 2 ^ 31) (e * 2 ^ 23)) m = f32 s e m.
Proof.
  intros (Hs & He & Hm). rewrite (lor_fields s _ 31) by lia.
  replace (s * 2 ^ 31 + e * 2 ^ 23) with ((s * 2 ^ 8 + e) * 2 ^ 23) by lia.
  rewrite lor_fields by lia. unfold f32. lia.
Qed.

(** ** Widening *)

Lemma renormalize_spec fuel : ∀ m shift,
  0 < m < 2 ^ 11 → 2 ^ 10 <= m * 2 ^ Z.of_nat fuel →
  ∃ k, 0 <= k <= Z.of_nat fuel ∧ renormalize fuel m shift = (m * 2 ^ k, shift + k) ∧
    2 ^ 10 <= m * 2 ^ k < 2 ^ 11 ∧ (m < 2 ^ 10 → 0 < k).
Proof.
  induction fuel as [|fuel IH]; intros m shift Hm Hf; cbn [renormalize].
  { exists 0. rewrite Z.mul_1_r, Z.add_0_r in *. cbn in *. split_and!; [lia|lia|done|lia..]. }
  change 0x400 with (2 ^ 10). rewrite land_pow2 by lia. case_match; bool_to_prop.
  - assert (m < 2 ^ 10) by (Z.to_euclidean_division_equations; lia).
    rewrite Z.shiftl_mul_pow2, Z.pow_1_r by lia. rewrite (u32_small (m * 2)) by (unfold in_u32; lia).
    rewrite Nat2Z.inj_succ, Z.pow_succ_r in Hf by lia.
    destruct (IH (m * 2) (shift + 1)) as (k & Hk & -> & Hr & _); [lia|lia|].
    exists (Z.succ k). rewrite Z.pow_succ_r by lia. rewrite Nat2Z.inj_succ.
    split_and!; [lia|lia|f_equal; lia|lia..].
  - assert (2 ^ 10 <= m) by (Z.to_euclidean_division_equations; lia).
    exists 0. rewrite Z.mul_1_r, Z.add_0_r. split_and!; [lia..|done|lia|lia|lia].
Qed.

(** What a widened half is made of: the exponent rebiased, the mantissa moved up, a
    subnormal normalized by [k]. *)
Definition widened (s e m : Z) (e' m' : Z) : Prop :=
  (e = 0 ∧ m = 0 ∧ e' = 0 ∧ m' = 0) ∨
  (e = 0 ∧ ∃ k, 1 <= k <= 10 ∧ 2 ^ 10 <= m * 2 ^ k < 2 ^ 11 ∧ e' = 113 - k ∧ m' = (m * 2 ^ k - 2 ^ 10) * 2 ^ 13) ∨
  (e = 31 ∧ e' = 255 ∧ m' = m * 2 ^ 13) ∨
  (0 < e < 31 ∧ e' = e + 112 ∧ m' = m * 2 ^ 13).

Lemma f16_to_float_fields s e m :
  f16_ok s e m → ∃ e' m', f32_ok s e' m' ∧ widened s e m e' m' ∧ f16_to_float (f16 s e m) = f32 s e' m'.
Proof.
  intros Hok. destruct (f16_fields s e m Hok) as (Hs & He & Hm). destruct Hok as (Ss & Se & Sm).
  unfold f16_to_float. rewrite Hs, He, Hm. cbv zeta.
  rewrite !(Z.shiftl_mul_pow2 _ 16), !(Z.shiftl_mul_pow2 _ 13) by lia.
  replace (s * 2 ^ 15 * 2 ^ 16) with (s * 2 ^ 31) by lia.
  rewrite (u32_small (s * 2 ^ 31)), (u32_small (m * 2 ^ 13)) by (unfold in_u32; lia).
  destruct (Z.eqb_spec e 0) as [->|He0]; [destruct (Z.eqb_spec m 0) as [->|Hm0]; cbn [negb]|destruct (Z.eqb_spec e 31) as [->|He31]].
  - exists 0, 0. unfold f32_ok, widened, f32. split_and!; [lia..|tauto|lia].
  - destruct (renormalize_spec 10 m 0) as (k & Hk & -> & Hr & Hpos); [lia|change (2 ^ Z.of_nat 10) with (2 ^ 10); lia|].
    specialize (Hpos ltac:(lia)). change 0x3FF with (Z.ones 10). rewrite Z.land_ones, Z.add_0_l by lia.
    assert ((m * 2 ^ k) mod 2 ^ 10 = m * 2 ^ k - 2 ^ 10) as -> by (symmetry; apply Z.mod_unique with 1; lia).
    rewrite !Z.shiftl_mul_pow2 by lia. rewrite (u32_small (127 - 14 - k)) by (unfold in_u32; lia).
    rewrite !u32_small by (unfold in_u32; lia).
    exists (113 - k), ((m * 2 ^ k - 2 ^ 10) * 2 ^ 13).
    assert (f32_ok s (113 - k) ((m * 2 ^ k - 2 ^ 10) * 2 ^ 13)) as Hok by (unfold f32_ok; lia).
    split_and!; [done| |by rewrite <- join_f32].
    right; left. split; [done|]. exists k. split_and!; first [done|lia].
  - exists 255, (m * 2 ^ 13). assert (f32_ok s 255 (m * 2 ^ 13)) as Hok by (unfold f32_ok; lia).
    split_and!; [done|unfold widened; tauto|by rewrite <- join_f32].
  - rewrite Z.shiftl_mul_pow2, (u32_small (e + (127 - 15))) by (unfold in_u32; lia).
    rewrite (u32_small (_ * 2 ^ 23)) by (unfold in_u32; lia).
    exists (e + 112), (m * 2 ^ 13). assert (f32_ok s (e + 112) (m * 2 ^ 13)) as Hok by (unfold f32_ok; lia).
    split_and!; [done| |by rewrite <- join_f32]. unfold widened. right; right; right. lia.
Qed.

(** ** Narrowing *)

(** The magnitude the narrowing leaves, in plain arithmetic. *)
Definition narrow (e m : Z) : Z :=
  if e =? 255 then 0x7C00 + (if m =? 0 then 0 else 0x200)
  else if 143 <=? e then 0x7C00
  else if e <=? 112 then (if e <? 102 then 0 else round_half_even (2 ^ 23 + m) (2 ^ (126 - e)))
  else round_half_even ((e - 112) * 2 ^ 23 + m) (2 ^ 13).

Lemma land_1_odd q : negb (Z.land q 1 =? 0) = Z.odd q.
Proof. change 1 with (Z.ones 1). rewrite Z.land_ones, Zmod_odd by lia. by destruct (Z.odd q). Qed.

(** The rounding step of the source is [round_half_even]. *)
Lemma rounding_step n q q' r k :
  0 < k → q = n / 2 ^ k → r = n mod 2 ^ k → Z.odd q' = Z.odd q → in_u32 (q + 1) →
  (if (2 ^ (k - 1) <? r) || ((r =? 2 ^ (k - 1)) && negb (Z.land q' 1 =? 0)) then u32 (q + 1) else q)
    = round_half_even n (2 ^ k).
Proof.
  intros Hk -> -> Hodd Hu. unfold round_half_even. cbv zeta.
  rewrite u32_small, land_1_odd, Hodd by done.
  assert (2 ^ k = 2 * 2 ^ (k - 1)) as Hp by (rewrite <- Z.pow_succ_r by lia; f_equal; lia).
  assert ((2 ^ k <? 2 * (n mod 2 ^ k)) = (2 ^ (k - 1) <? n mod 2 ^ k)) as ->.
  { apply eq_true_iff_eq. rewrite !Z.ltb_lt. lia. }
  assert ((2 * (n mod 2 ^ k) =? 2 ^ k) = (n mod 2 ^ k =? 2 ^ (k - 1))) as ->; [|done].
  apply eq_true_iff_eq. rewrite !Z.eqb_eq. lia.
Qed.

Lemma round_half_even_bounds n d a b : 0 < d → a * d <= n <= b * d → a <= round_half_even n d <= b.
Proof.
  intros Hd Hn. unfold round_half_even. cbv zeta.
  pose proof (Z.div_mod n d ltac:(lia)). pose proof (Z.mod_pos_bound n d Hd).
  case_match eqn:E; [|nia]. assert (0 < n mod d); [|nia].
  apply orb_true_iff in E as [E|[E _]%andb_true_iff]; bool_to_prop; lia.
Qed.

Lemma narrow_bounds e m : 0 <= e < 256 → 0 <= m < 2 ^ 23 → 0 <= narrow e m < 2 ^ 15.
Proof.
  intros He Hm. unfold narrow. repeat case_match; bool_to_prop; try lia.
  - assert (0 <= round_half_even (2 ^ 23 + m) (2 ^ (126 - e)) <= 2 ^ 10); [|lia].
    assert (2 ^ (126 - e) = 2 ^ 14 * 2 ^ (112 - e)) as Hp by (rewrite <- Z.pow_add_r by lia; f_equal; lia).
    pose proof (Z.pow_pos_nonneg 2 (112 - e)). apply round_half_even_bounds; nia.
  - assert (0 <= round_half_even ((e - 112) * 2 ^ 23 + m) (2 ^ 13) <= 31 * 2 ^ 10); [|lia].
    apply round_half_even_bounds; lia.
Qed.

Lemma join_f16 s x : 0 <= s < 2 → 0 <= x < 2 ^ 15 → u16 (Z.lor (s * 2 ^ 15) x) = s * 2 ^ 15 + x.
Proof. intros Hs Hx. rewrite lor_fields by lia. unfold u16. apply Z.mod_small. lia. Qed.

Lemma f16_from_float_fields s e m :
  f32_ok s e m → f16_from_float (f32 s e m) = s * 2 ^ 15 + narrow e m.
Proof.
  intros Hok. destruct (f32_fields s e m Hok) as (Hs & He & Hm). destruct Hok as (Ss & Se & Sm).
  pose proof (narrow_bounds e m Se Sm) as Hn.
  unfold f16_from_float. rewrite Hs, He, Hm. cbv zeta.
  assert (u16 (s * 2 ^ 15) = s * 2 ^ 15) as -> by (unfold u16; apply Z.mod_small; lia).
  unfold narrow in *. destruct (Z.eqb_spec e 255) as [->|He255].
  { rewrite <- Z.lor_assoc. destruct (Z.eqb_spec m 0); cbn [negb];
      [change (Z.lor 0x7C00 0) with 0x7C00|change (Z.lor 0x7C00 0x200) with (0x7C00 + 0x200)];
      apply join_f16; lia. }
  replace (31 <=? e - 127 + 15) with (143 <=? e) by (apply eq_true_iff_eq; rewrite !Z.leb_le; lia).
  destruct (Z.leb_spec 143 e); [by apply join_f16|].
  replace (e - 127 + 15 <=? 0) with (e <=? 112) by (apply eq_true_iff_eq; rewrite !Z.leb_le; lia).
  destruct (Z.leb_spec e 112).
  - replace (e - 127 + 15 <? -10) with (e <? 102) by (apply eq_true_iff_eq; rewrite !Z.ltb_lt; lia).
    destruct (Z.ltb_spec e 102); [lia|].
    replace (14 - (e - 127 + 15)) with (126 - e) by lia.
    assert (Z.lor m 0x800000 = 2 ^ 23 + m) as ->.
    { rewrite Z.lor_comm. change 0x800000 with (1 * 2 ^ 23). by rewrite lor_fields. }
    assert (0 < 126 - e <= 24) as Hk by lia.
    assert (∀ k, 0 <= k <= 24 → 0 < 2 ^ k <= 2 ^ 24) as Hpow.
    { intros k Hk'. split; [apply Z.pow_pos_nonneg; lia|apply Z.pow_le_mono_r; lia]. }
    rewrite !Z.shiftl_mul_pow2, !Z.mul_1_l by lia.
    rewrite !(u32_small (2 ^ _)) by (unfold in_u32; pose proof (Hpow (126 - e)); pose proof (Hpow (126 - e - 1)); lia).
    rewrite (Z.sub_1_r (2 ^ (126 - e))), <- Z.ones_equiv. rewrite Z.land_ones, Z.shiftr_div_pow2 by lia.
    rewrite (rounding_step (2 ^ 23 + m) _ _ _ (126 - e)); [by apply join_f16|lia|done|done|done|].
    pose proof (Hpow (126 - e)). unfold in_u32. Z.to_euclidean_division_equations; nia.
  - replace (e - 127 + 15) with (e - 112) by lia.
    rewrite Z.shiftr_div_pow2, Z.shiftl_mul_pow2, (u32_small (_ * 2 ^ 10)) by (unfold in_u32; lia).
    change 0x1FFF with (Z.ones 13). rewrite Z.land_ones by lia.
    rewrite (lor_fields (e - 112) (m / 2 ^ 13) 10) by (Z.to_euclidean_division_equations; lia).
    change 0x1000 with (2 ^ (13 - 1)).
    rewrite (rounding_step ((e - 112) * 2 ^ 23 + m) _ _ _ 13); [by apply join_f16|lia| | | |].
    + Z.to_euclidean_division_equations; lia.
    + Z.to_euclidean_division_equations; lia.
    + change (2 ^ 10) with (2 * 2 ^ 9). rewrite Z.add_comm.
      replace ((e - 112) * (2 * 2 ^ 9)) with (2 * ((e - 112) * 2 ^ 9)) by lia. by rewrite Z.odd_add_mul_2.
    + unfold in_u32. Z.to_euclidean_division_equations; lia.
Qed.

(** ** The numbers the bits stand for *)

(** The magnitude of a finite half in units of [2^-24], and of a finite float in units of
    [2^-149]; the sign is the top bit of either. *)
Definition half_magnitude (half : Z) : Z :=
  let k := half mod 2 ^ 15 in
  if k <? 2 ^ 10 then k else (2 ^ 10 + k mod 2 ^ 10) * 2 ^ (k / 2 ^ 10 - 1).

Definition float_magnitude (bits : Z) : Z :=
  let k := bits mod 2 ^ 31 in
  if k <? 2 ^ 23 then k else (2 ^ 23 + k mod 2 ^ 23) * 2 ^ (k / 2 ^ 23 - 1).

Definition half_inf : Z := 0x7C00.
Definition float_inf : Z := 0x7F800000.

(** The spacing of the halves around a float, in units of [2^-149]. *)
Definition half_spacing (bits : Z) : Z := 2 ^ (Z.max (bits mod 2 ^ 31 / 2 ^ 23) 113 + 12).

Lemma half_magnitude_fields s e m :
  f16_ok s e m → half_magnitude (f16 s e m) = if e =? 0 then m else (2 ^ 10 + m) * 2 ^ (e - 1).
Proof.
  intros (Hs & He & Hm). unfold half_magnitude, f16. cbv zeta.
  assert ((s * 2 ^ 15 + e * 2 ^ 10 + m) mod 2 ^ 15 = e * 2 ^ 10 + m) as ->
    by (symmetry; apply Z.mod_unique with s; lia).
  destruct (Z.eqb_spec e 0) as [->|He0].
  - rewrite (proj2 (Z.ltb_lt _ _)); lia.
  - rewrite (proj2 (Z.ltb_ge _ _)) by lia. repeat f_equal; Z.to_euclidean_division_equations; lia.
Qed.

Lemma float_magnitude_fields s e m :
  f32_ok s e m → float_magnitude (f32 s e m) = if e =? 0 then m else (2 ^ 23 + m) * 2 ^ (e - 1).
Proof.
  intros (Hs & He & Hm). unfold float_magnitude, f32. cbv zeta.
  assert ((s * 2 ^ 31 + e * 2 ^ 23 + m) mod 2 ^ 31 = e * 2 ^ 23 + m) as ->
    by (symmetry; apply Z.mod_unique with s; lia).
  destruct (Z.eqb_spec e 0) as [->|He0].
  - rewrite (proj2 (Z.ltb_lt _ _)); lia.
  - rewrite (proj2 (Z.ltb_ge _ _)) by lia. repeat f_equal; Z.to_euclidean_division_equations; lia.
Qed.

Lemma f32_parts s e m :
  f32_ok s e m →
  in_u32 (f32 s e m) ∧ f32 s e m / 2 ^ 31 = s ∧ f32 s e m mod 2 ^ 31 = e * 2 ^ 23 + m ∧
  (e * 2 ^ 23 + m) / 2 ^ 23 = e.
Proof.
  intros (Hs & He & Hm). unfold in_u32, f32.
  split_and!; Z.to_euclidean_division_equations; lia.
Qed.

Lemma f16_parts s e m :
  f16_ok s e m → f16 s e m / 2 ^ 15 = s ∧ f16 s e m mod 2 ^ 15 = e * 2 ^ 10 + m.
Proof.
  intros (Hs & He & Hm). unfold f16. split; Z.to_euclidean_division_equations; lia.
Qed.

(** Rounding: invariant under scale, additive in even multiples, zero below half. *)
Lemma round_half_even_scale n d c : 0 < d → 0 < c → round_half_even (n * c) (d * c) = round_half_even n d.
Proof.
  intros Hd Hc. apply nearest_even_unique with (n := n) (d := d); [done| |by apply round_half_even_nearest].
  destruct (round_half_even_nearest (n * c) (d * c)) as [H1 H2]; [nia|].
  set (q := round_half_even (n * c) (d * c)) in *. clearbody q.
  assert (Z.abs (q * (d * c) - n * c) = Z.abs (q * d - n) * c) as E.
  { replace (q * (d * c) - n * c) with ((q * d - n) * c) by lia. rewrite Z.abs_mul. lia. }
  rewrite E in H1, H2. split; [nia|]. intros He. apply H2. lia.
Qed.

Lemma round_half_even_add a n d :
  0 < d → Z.even a = true → round_half_even (a * d + n) d = a + round_half_even n d.
Proof.
  intros Hd Ha. unfold round_half_even. cbv zeta.
  rewrite Z.div_add_l, (Z.add_comm (a * d)), Z_mod_plus_full by lia.
  assert (Z.odd (a + n / d) = Z.odd (n / d)) as ->.
  { rewrite Z.odd_add, <- (Z.negb_even a), Ha. by destruct (Z.odd (n / d)). }
  case_match; lia.
Qed.

Lemma round_half_even_exact a d : 0 < d → round_half_even (a * d) d = a.
Proof. intros Hd. pose proof (round_half_even_bounds (a * d) d a a Hd). lia. Qed.

Lemma round_half_even_small n d : 0 <= n → 2 * n < d → round_half_even n d = 0.
Proof.
  intros Hn Hd. unfold round_half_even. cbv zeta. rewrite Z.div_small, Z.mod_small by lia.
  rewrite (proj2 (Z.ltb_ge _ _)), (proj2 (Z.eqb_neq _ _)) by lia. done.
Qed.

(** What the narrowed magnitude stands for. *)
Definition magnitude_of (k : Z) : Z := if k <? 2 ^ 10 then k else (2 ^ 10 + k mod 2 ^ 10) * 2 ^ (k / 2 ^ 10 - 1).

Lemma magnitude_step e r :
  1 <= e → 0 <= r <= 2 ^ 10 → magnitude_of (e * 2 ^ 10 + r) = (2 ^ 10 + r) * 2 ^ (e - 1).
Proof.
  intros He Hr. unfold magnitude_of. rewrite (proj2 (Z.ltb_ge _ _)) by lia.
  destruct (Z.eq_dec r (2 ^ 10)) as [->|].
  - replace (e * 2 ^ 10 + 2 ^ 10) with ((e + 1) * 2 ^ 10) by lia.
    rewrite Z.mod_mul, Z.div_mul by lia. replace (e + 1 - 1) with (Z.succ (e - 1)) by lia.
    rewrite Z.pow_succ_r; lia.
  - repeat f_equal; Z.to_euclidean_division_equations; lia.
Qed.

Lemma narrow_value e m :
  0 <= e < 255 → 0 <= m < 2 ^ 23 →
  let F := if e =? 0 then m else (2 ^ 23 + m) * 2 ^ (e - 1) in
  let u := 2 ^ (Z.max e 113 + 12) in
  let q := round_half_even F u in
  if q * u <? 2 ^ 165 then narrow e m < half_inf ∧ magnitude_of (narrow e m) * 2 ^ 125 = q * u
  else narrow e m = half_inf.
Proof.
  intros He Hm. cbv zeta. unfold narrow, half_inf.
  rewrite (proj2 (Z.eqb_neq e 255)) by lia.
  destruct (Z.leb_spec 143 e) as [H143|H143]; [|destruct (Z.leb_spec e 112) as [H112|H112]; [destruct (Z.ltb_spec e 102)|]].
  - rewrite (proj2 (Z.eqb_neq e 0)), Z.max_l by lia. rewrite (proj2 (Z.ltb_ge _ _)); [done|].
    assert (2 ^ (e - 1) = 2 ^ 142 * 2 ^ (e - 143)) as -> by (rewrite <- Z.pow_add_r by lia; f_equal; lia).
    assert (2 ^ (e + 12) = 2 ^ 155 * 2 ^ (e - 143)) as -> by (rewrite <- Z.pow_add_r by lia; f_equal; lia).
    pose proof (Z.pow_pos_nonneg 2 (e - 143)). set (c := 2 ^ (e - 143)) in *. clearbody c.
    destruct (round_half_even_bounds ((2 ^ 23 + m) * (2 ^ 142 * c)) (2 ^ 155 * c) (2 ^ 10) (2 ^ 11)); nia.
  - rewrite Z.max_r by lia. rewrite round_half_even_small; [done| |].
    + case_match; [lia|]. pose proof (Z.pow_nonneg 2 (e - 1)). nia.
    + case_match; bool_to_prop; [lia|].
      assert (2 ^ (e - 1) <= 2 ^ 100) by (apply Z.pow_le_mono_r; lia). change (2 ^ (113 + 12)) with (2 ^ 25 * 2 ^ 100). nia.
  - rewrite (proj2 (Z.eqb_neq e 0)), Z.max_r by lia. change (113 + 12) with 125.
    assert (2 ^ 125 = 2 ^ (126 - e) * 2 ^ (e - 1)) as Hu by (rewrite <- Z.pow_add_r by lia; f_equal; lia).
    assert (round_half_even ((2 ^ 23 + m) * 2 ^ (e - 1)) (2 ^ 125) = round_half_even (2 ^ 23 + m) (2 ^ (126 - e)))
      as -> by (rewrite Hu; apply round_half_even_scale; apply Z.pow_pos_nonneg; lia).
    assert (2 ^ (126 - e) = 2 ^ 14 * 2 ^ (112 - e)) as Hp by (rewrite <- Z.pow_add_r by lia; f_equal; lia).
    pose proof (Z.pow_pos_nonneg 2 (112 - e)).
    destruct (round_half_even_bounds (2 ^ 23 + m) (2 ^ (126 - e)) 0 (2 ^ 10)) as [Hq0 Hq]; [nia|nia|].
    set (q := round_half_even _ _) in *. clearbody q. rewrite (proj2 (Z.ltb_lt _ _)) by lia.
    split; [lia|]. f_equal. unfold magnitude_of. destruct (Z.ltb_spec q (2 ^ 10)); [done|].
    replace q with (2 ^ 10) by lia. done.
  - rewrite (proj2 (Z.eqb_neq e 0)), Z.max_l by lia.
    replace (e + 12) with (13 + (e - 1)) by lia. rewrite Z.pow_add_r by lia.
    rewrite round_half_even_scale by (try apply Z.pow_pos_nonneg; lia).
    replace ((e - 112) * 2 ^ 23) with ((e - 112) * 2 ^ 10 * 2 ^ 13) by lia.
    rewrite round_half_even_add by (try rewrite Z.even_mul, orb_true_r; done).
    change (2 ^ 23) with (2 ^ 10 * 2 ^ 13). rewrite round_half_even_add by done.
    destruct (round_half_even_bounds m (2 ^ 13) 0 (2 ^ 10)) as [Hr0 Hr]; [lia|lia|].
    set (r := round_half_even m (2 ^ 13)) in *. clearbody r.
    pose proof (magnitude_step (e - 112) r ltac:(lia) ltac:(lia)) as Hmag.
    assert (2 ^ (e - 1) = 2 ^ (e - 112 - 1) * 2 ^ 112) as Hpe by (rewrite <- Z.pow_add_r by lia; f_equal; lia).
    assert (0 < 2 ^ (e - 112 - 1)) by (apply Z.pow_pos_nonneg; lia).
    replace (_ * (2 ^ 13 * 2 ^ (e - 1))) with ((2 ^ 10 + r) * 2 ^ (e - 112 - 1) * 2 ^ 125) by (rewrite Hpe; lia).
    destruct (Z.eq_dec e 142) as [->|Hne].
    + change (2 ^ (142 - 112 - 1)) with (2 ^ 29) in *. destruct (Z.ltb_spec ((2 ^ 10 + r) * 2 ^ 29 * 2 ^ 125) (2 ^ 165)); lia.
    + assert (2 ^ (e - 112 - 1) <= 2 ^ 28) by (apply Z.pow_le_mono_r; lia).
      rewrite (proj2 (Z.ltb_lt _ _)) by nia. lia.
Qed.

Lemma narrow_special e m :
  (e = 255 → narrow e m = half_inf + if m =? 0 then 0 else 0x200).
Proof. intros ->. done. Qed.

Lemma narrow_widened s e m e' m' :
  f16_ok s e m → widened s e m e' m' →
  narrow e' m' = if (e =? 31) && negb (m =? 0) then 0x7E00 else e * 2 ^ 10 + m.
Proof.
  intros (Hs & He & Hm) [(-> & -> & -> & ->)|[(-> & k & Hk & Hr & -> & ->)|[(-> & -> & ->)|(He' & -> & ->)]]].
  - done.
  - unfold narrow. rewrite (proj2 (Z.eqb_neq (113 - k) 255)), (proj2 (Z.leb_gt 143 _)), (proj2 (Z.leb_le _ 112)),
      (proj2 (Z.ltb_ge _ _)) by lia. cbn [Z.eqb andb].
    replace (126 - (113 - k)) with (k + 13) by lia. rewrite Z.pow_add_r by lia.
    replace (2 ^ 23 + (m * 2 ^ k - 2 ^ 10) * 2 ^ 13) with (m * (2 ^ k * 2 ^ 13)) by lia.
    rewrite round_half_even_exact; [lia|]. pose proof (Z.pow_pos_nonneg 2 k). lia.
  - rewrite narrow_special by done. destruct (Z.eqb_spec m 0) as [->|Hm0]; [done|].
    rewrite (proj2 (Z.eqb_neq _ _)) by lia. done.
  - rewrite (proj2 (Z.eqb_neq e 31)) by lia. unfold narrow.
    rewrite (proj2 (Z.eqb_neq _ 255)), (proj2 (Z.leb_gt 143 _)), (proj2 (Z.leb_gt _ 112)) by lia. cbn [andb].
    replace ((e + 112 - 112) * 2 ^ 23 + m * 2 ^ 13) with ((e * 2 ^ 10 + m) * 2 ^ 13) by lia.
    by rewrite round_half_even_exact.
Qed.

Lemma f16_from_to_float s e m :
  f16_ok s e m →
  f16_from_float (f16_to_float (f16 s e m))
    = s * 2 ^ 15 + if (e =? 31) && negb (m =? 0) then 0x7E00 else e * 2 ^ 10 + m.
Proof.
  intros Hok. destruct (f16_to_float_fields s e m Hok) as (e' & m' & Hok' & Hw & ->).
  rewrite f16_from_float_fields by done. f_equal. by apply (narrow_widened s).
Qed.

Lemma f16_to_float_u32 half : in_u16 half → in_u32 (f16_to_float half).
Proof.
  intros (s & e & m & Hok & ->)%f16_of_bits.
  destruct (f16_to_float_fields s e m Hok) as (e' & m' & Hok' & _ & ->). by apply f32_parts.
Qed.

Lemma f16_from_float_u16 bits : in_u32 bits → in_u16 (f16_from_float bits).
Proof.
  intros (s & e & m & Hok & ->)%f32_of_bits. rewrite f16_from_float_fields by done.
  destruct Hok as (Hs & He & Hm). pose proof (narrow_bounds e m He Hm). unfold in_u16. lia.
Qed.

(** Storing once more what was read back changes nothing. *)
Lemma f16_settles bits :
  in_u32 bits → f16_from_float (f16_to_float (f16_from_float bits)) = f16_from_float bits.
Proof.
  intros (s & e & m & Hok & ->)%f32_of_bits. rewrite f16_from_float_fields by done.
  destruct Hok as (Hs & He & Hm). pose proof (narrow_bounds e m He Hm) as Hn.
  assert (narrow e m <= half_inf ∨ narrow e m = 0x7E00) as Hnan.
  { destruct (Z.eq_dec e 255) as [->|Hne].
    - rewrite narrow_special by done. unfold half_inf. case_match; lia.
    - pose proof (narrow_value e m ltac:(lia) Hm) as Hv. cbv zeta in Hv. case_match; lia. }
  destruct (f16_of_bits (s * 2 ^ 15 + narrow e m)) as (s' & e' & m' & Hok' & E); [unfold in_u16; lia|].
  rewrite E, f16_from_to_float by done. destruct (f16_parts s' e' m' Hok') as [_ Hmod].
  destruct Hok' as (Hs' & He' & Hm'). unfold f16 in *.
  destruct ((e' =? 31) && negb (m' =? 0)) eqn:Hcase; [|lia]. bool_to_prop. subst e'.
  unfold half_inf in Hnan. assert (s' = s) by (Z.to_euclidean_division_equations; lia). lia.
Qed.

(** ** Properties *)

(** reading a half is exact: the float has the sign and, for a finite half, precisely
    the number the half stands for, subnormals included; infinity becomes infinity, and a
    NaN a NaN with the same payload. *)
Theorem f16_to_float_exact (half : Z) (Hhalf : in_u16 half) :
  let bits := f16_to_float half in
  let k := half mod 2 ^ 15 in
  in_u32 bits ∧ bits / 2 ^ 31 = half / 2 ^ 15 ∧
  (k < half_inf → bits mod 2 ^ 31 < float_inf ∧ float_magnitude bits = half_magnitude half * 2 ^ 125) ∧
  (half_inf <= k → bits mod 2 ^ 31 = float_inf + (k - half_inf) * 2 ^ 13).
Proof.
  destruct (f16_of_bits half Hhalf) as (s & e & m & Hok & ->). cbv zeta.
  destruct (f16_to_float_fields s e m Hok) as (e' & m' & Hok' & Hw & ->).
  destruct (f32_parts s e' m' Hok') as (Hu & Hs & Hmod & _). destruct (f16_parts s e m Hok) as [Hs' Hmod'].
  rewrite Hs, Hs', Hmod, Hmod', float_magnitude_fields, half_magnitude_fields by done.
  destruct Hok as (_ & He & Hm), Hok' as (_ & He'' & Hm''). unfold half_inf, float_inf.
  split_and!; [apply Hu..|done| |].
  - intros Hfin.
    destruct Hw as [(-> & -> & -> & ->)|[(-> & k & Hk & Hr & -> & ->)|[(-> & -> & ->)|(Hne & -> & ->)]]]; [cbn; lia| |lia|].
    + rewrite (proj2 (Z.eqb_neq (113 - k) 0)) by lia. cbn [Z.eqb]. split; [lia|].
      replace (2 ^ 23 + (m * 2 ^ k - 2 ^ 10) * 2 ^ 13) with (m * 2 ^ k * 2 ^ 13) by lia.
      rewrite <- !Z.mul_assoc, <- !Z.pow_add_r by lia. do 2 f_equal. lia.
    + rewrite !(proj2 (Z.eqb_neq _ 0)) by lia. split; [lia|].
      replace (e + 112 - 1) with (e - 1 + 112) by lia. rewrite Z.pow_add_r by lia. lia.
  - intros Hinf. assert (e = 31) as -> by lia. unfold widened in Hw. lia.
Qed.

(** C37: writing a half is IEEE 754's rounding: with the spacing of the halves around the
    float as the unit, the half written stands for the nearest multiple, the even one of
    two equally near, so long as that is below [2^16]; from there on, and for an infinity,
    it is infinity; the sign is kept, a NaN stays one. *)
Theorem f16_from_float_rounds (bits : Z) (Hbits : in_u32 bits) :
  let half := f16_from_float bits in
  let k := bits mod 2 ^ 31 in
  in_u16 half ∧ half / 2 ^ 15 = bits / 2 ^ 31 ∧
  (k < float_inf →
   ∃ q, nearest_even (float_magnitude bits) (half_spacing bits) q ∧
     if q * half_spacing bits <? 2 ^ 16 * 2 ^ 149
     then half mod 2 ^ 15 < half_inf ∧ half_magnitude half * 2 ^ 125 = q * half_spacing bits
     else half mod 2 ^ 15 = half_inf) ∧
  (k = float_inf → half mod 2 ^ 15 = half_inf) ∧
  (float_inf < k → half_inf < half mod 2 ^ 15).
Proof.
  destruct (f32_of_bits bits Hbits) as (s & e & m & Hok & ->). cbv zeta.
  pose proof (f16_from_float_u16 _ Hbits) as Hu. rewrite f16_from_float_fields in * by done.
  destruct (f32_parts s e m Hok) as (_ & Hs & Hmod & Hexp). unfold half_spacing.
  rewrite Hs, Hmod, Hexp, float_magnitude_fields by done.
  destruct Hok as (Ss & Se & Sm). pose proof (narrow_bounds e m Se Sm) as Hn.
  assert ((s * 2 ^ 15 + narrow e m) / 2 ^ 15 = s) as -> by (symmetry; apply Z.div_unique with (narrow e m); lia).
  assert ((s * 2 ^ 15 + narrow e m) mod 2 ^ 15 = narrow e m) as Hk by (symmetry; apply Z.mod_unique with s; lia).
  assert (half_magnitude (s * 2 ^ 15 + narrow e m) = magnitude_of (narrow e m)) as Hmag
    by (unfold half_magnitude; by rewrite Hk).
  rewrite Hk, Hmag. unfold float_inf. split_and!; [apply Hu..|done| | |].
  - intros Hfin. pose proof (narrow_value e m ltac:(lia) Sm) as Hv. cbv zeta in Hv.
    eexists. split; [apply round_half_even_nearest, Z.pow_pos_nonneg; lia|]. exact Hv.
  - intros Hinf. rewrite narrow_special by lia. unfold half_inf.
    rewrite (proj2 (Z.eqb_eq _ _)) by lia. done.
  - intros Hnan. assert (e = 255) as -> by lia. rewrite narrow_special by done. unfold half_inf.
    rewrite (proj2 (Z.eqb_neq _ _)) by lia. lia.
Qed.

(** a half read and written back is the half it was, except that a NaN keeps no payload;
    so a float is quantized once: writing, reading and writing again gives the same half. *)
Theorem f16_roundtrip (half bits : Z) (Hhalf : in_u16 half) (Hbits : in_u32 bits) :
  f16_from_float (f16_to_float half)
    = (if half_inf <? half mod 2 ^ 15 then half / 2 ^ 15 * 2 ^ 15 + 0x7E00 else half) ∧
  f16_from_float (f16_to_float (f16_from_float bits)) = f16_from_float bits.
Proof.
  split; [|by apply f16_settles]. destruct (f16_of_bits half Hhalf) as (s & e & m & Hok & ->).
  rewrite f16_from_to_float by done. destruct (f16_parts s e m Hok) as [-> ->].
  destruct Hok as (_ & He & Hm). unfold half_inf, f16.
  destruct (Z.eqb_spec e 31) as [->|Hne]; [destruct (Z.eqb_spec m 0) as [->|Hm0]|]; cbn [andb negb].
  - rewrite (proj2 (Z.ltb_ge _ _)) by lia. lia.
  - rewrite (proj2 (Z.ltb_lt _ _)) by lia. done.
  - rewrite (proj2 (Z.ltb_ge _ _)) by lia. lia.
Qed.

(** ** Witnesses *)

Lemma f16_from_float_rounds_witness : f16_from_float 0x3F803000 / 2 ^ 15 = 0x3F803000 / 2 ^ 31.
Proof.
  refine (proj1 (proj2 (f16_from_float_rounds 0x3F803000 _))). unfold in_u32. lia.
Defined.
