(* ===== verification/TileBlob.v ===== *)
(** The content-addressed tile blob: [src/src/serialize/tile_blob.cpp] and the compression
    seam [blob_compress.cpp] under it.

    zstd is a parameter: its compressor, its decompressor into a buffer of a given size,
    and the bound on a frame.  What a frame decodes to is otherwise anything, so the
    theorems about loading hold for a hostile file as for an honest one. *)

From S2P Require Import Prelude Sha256 RationalTime Records PixelTraits.
From Stdlib Require Import Ascii.

Local Open Scope Z_scope.

Definition k_tile_hash_bytes : nat := 16.
Definition k_tile_hash_chars : nat := k_tile_hash_bytes * 2.
Definition k_max_tile_edge : Z := 4096.
Definition k_max_dimension : Z := Z.shiftl 1 20.
Definition k_max_tiles : Z := Z.shiftl 1 22.

Inductive TileBlobError := BadGeometry | BadHash | CorruptFrame | HashMismatch.
Inductive BlobCompressError := BlobCorruptFrame | SizeMismatch | CompressFailed.

(** [int]. *)
Definition int32 (z : Z) : Z := (z + 2 ^ 31) mod 2 ^ 32 - 2 ^ 31.

Record TileGeometry := mkTileGeometry {
  tg_edge : Z; tg_width : Z; tg_height : Z; tg_tiles_x : Z; tg_tiles_y : Z }.

Definition tile_count (g : TileGeometry) : Z := u64 (u64 (tg_tiles_x g) * u64 (tg_tiles_y g)).
Definition tile_samples (g : TileGeometry) : Z :=
  u64 (u64 (u64 (tg_edge g) * u64 (tg_edge g)) * Z.of_nat (channels_per_pixel Rgba32fLinearPremul)).

Definition is_power_of_two (v : Z) : bool := (0 <? v) && (Z.land v (v - 1) =? 0).

Definition bytes_per_sample (storage : PixelFormat) : nat :=
  bytes_per_pixel storage / channels_per_pixel storage.

Definition validate_tile_geometry (edge width height : Z) : expected TileBlobError TileGeometry :=
  if negb (is_power_of_two edge) || (k_max_tile_edge <? edge) then Err BadGeometry
  else if (width <=? 0) || (height <=? 0) || (k_max_dimension <? width) || (k_max_dimension <? height)
  then Err BadGeometry
  else
    let tiles_x := Z.quot (i64 (i64 (width + edge) - 1)) edge in
    let tiles_y := Z.quot (i64 (i64 (height + edge) - 1)) edge in
    if k_max_tiles <? i64 (tiles_x * tiles_y) then Err BadGeometry
    else Ok (mkTileGeometry (int32 edge) (int32 width) (int32 height) (int32 tiles_x) (int32 tiles_y)).

(** ** Names *)

Definition hash_tile (storage_bytes : list Z) : list ascii :=
  to_hex_n (sha256 storage_bytes) k_tile_hash_bytes.

Definition is_hex_char (c : ascii) : bool :=
  let n := N_of_ascii c in
  ((N_of_ascii "0" <=? n)%N && (n <=? N_of_ascii "9")%N) || ((N_of_ascii "a" <=? n)%N && (n <=? N_of_ascii "f")%N).

Definition is_tile_hash (name : list ascii) : bool :=
  (length name =? k_tile_hash_chars)%nat && forallb is_hex_char name.

Definition tile_blob_uri (base hash : list ascii) : list ascii :=
  let out :=
    match last base with
    | Some c => if ascii_dec c "/" then base else base ++ ["/"%char]
    | None => base
    end in
  out ++ take 2 hash ++ ["/"%char] ++ hash.

(** ** The byte shuffle *)

(** [for j in 0..stride, for i in 0..groups: out[to j i] = in[from j i]], then the tail. *)
Definition permute (input : list Z) (stride : nat) (to from : nat → nat → nat) : list Z :=
  let groups := (length input / stride)%nat in
  let out := replicate (length input) 0 in
  let out :=
    foldl (λ out j, foldl (λ out i, <[to j i := input !!! from j i]> out) out (seq 0 groups))
      out (seq 0 stride) in
  foldl (λ out k, <[k := input !!! k]> out) out
    (seq (groups * stride) (length input - groups * stride)).

Definition shuffle_bytes (input : list Z) (stride : nat) : list Z :=
  if (stride <=? 1)%nat then input
  else permute input stride (λ j i, j * (length input / stride) + i)%nat (λ j i, i * stride + j)%nat.

Definition unshuffle_bytes (input : list Z) (stride : nat) : list Z :=
  if (stride <=? 1)%nat then input
  else permute input stride (λ j i, i * stride + j)%nat (λ j i, j * (length input / stride) + i)%nat.

(** ** Storage bytes *)

(** [encode_into], [decode_into]: whole pixels, sample by sample. *)
Definition encode_into (storage : PixelFormat) (working : list Z) : list Z :=
  let pixels := (length working / channels_per_pixel storage)%nat in
  concat (map (λ i, concat (map (λ k, encode_sample storage (working !!! (i * channels_per_pixel storage + k)%nat))
                              (seq 0 (channels_per_pixel storage))))
            (seq 0 pixels)).

Definition decode_into (storage : PixelFormat) (bytes : list Z) : list Z :=
  let size := bytes_per_sample storage in
  let pixels := (length bytes / (channels_per_pixel storage * size))%nat in
  concat (map (λ i, map (λ k, decode_sample storage (take size (drop ((i * channels_per_pixel storage + k) * size) bytes)))
                      (seq 0 (channels_per_pixel storage)))
            (seq 0 pixels)).

Definition to_storage_bytes (working : list Z) (storage : PixelFormat) : list Z :=
  match storage with
  | Rgba32fLinearPremul => encode_into Rgba32fLinearPremul working
  | Rgba16fLinearPremul => encode_into Rgba16fLinearPremul working
  | Rgba8Srgb => []
  end.

Definition from_storage_bytes (bytes : list Z) (storage : PixelFormat) : list Z :=
  match storage with
  | Rgba32fLinearPremul => decode_into Rgba32fLinearPremul bytes
  | Rgba16fLinearPremul => decode_into Rgba16fLinearPremul bytes
  | Rgba8Srgb => []
  end.

Section zstd.
(** [ZSTD_compress] into a buffer of a given size and [ZSTD_decompress]: the bytes written,
    or [None] for a code [ZSTD_isError] accepts; [ZSTD_compressBound]. *)
Context (zstd_compress zstd_decompress : nat → list Z → option (list Z)) (compress_bound : nat → nat).

Definition compress_blob (blob : list Z) : expected BlobCompressError (list Z) :=
  match zstd_compress (compress_bound (length blob)) blob with
  | None => Err CompressFailed
  | Some frame => Ok frame
  end.

Definition decompress_blob (frame : list Z) (expected_size : nat) : expected BlobCompressError (list Z) :=
  match zstd_decompress expected_size frame with
  | None => Err BlobCorruptFrame
  | Some produced => if (length produced =? expected_size)%nat then Ok produced else Err SizeMismatch
  end.

Definition frame_tile_blob (storage_bytes : list Z) (storage : PixelFormat) : expected TileBlobError (list Z) :=
  match compress_blob (shuffle_bytes storage_bytes (bytes_per_sample storage)) with
  | Err _ => Err CorruptFrame
  | Ok frame => Ok frame
  end.

Definition decode_tile_blob (frame : list Z) (expected_hash : list ascii) (storage : PixelFormat)
    (sample_count : Z) : expected TileBlobError (list Z) :=
  if negb (is_tile_hash expected_hash) then Err BadHash
  else
    let expected_size := u64 (sample_count * Z.of_nat (bytes_per_sample storage)) in
    match decompress_blob frame (Z.to_nat expected_size) with
    | Err _ => Err CorruptFrame
    | Ok raw =>
        let storage_bytes := unshuffle_bytes raw (bytes_per_sample storage) in
        if negb (bool_decide (hash_tile storage_bytes = expected_hash)) then Err HashMismatch
        else Ok (from_storage_bytes storage_bytes storage)
    end.
End zstd.

Example shuffle_nine : shuffle_bytes [1; 2; 3; 4; 5; 6; 7; 8; 9] 4 = [1; 5; 2; 6; 3; 7; 4; 8; 9].
Proof. vm_compute. done. Qed.

(** ** Geometry *)

Lemma is_power_of_two_spec v : is_power_of_two v = true ↔ ∃ k, 0 <= k ∧ v = 2 ^ k.
Proof.
  unfold is_power_of_two. rewrite andb_true_iff, Z.ltb_lt, Z.eqb_eq. split.
  - intros [Hv Hz]. exists (Z.log2 v). split; [apply Z.log2_nonneg|].
    destruct (Z.log2_spec v Hv) as [Hlo Hhi]. apply Z.le_antisymm; [|done].
    apply Z.lt_succ_r. destruct (Z.lt_ge_cases (v - 1) (2 ^ Z.log2 v)) as [|Hge]; [lia|exfalso].
    assert (Z.log2 (v - 1) = Z.log2 v) as Hl by (apply Z.log2_unique; [apply Z.log2_nonneg|lia]).
    pose proof (Z.pow_pos_nonneg 2 (Z.log2 v) ltac:(lia) (Z.log2_nonneg v)).
    assert (Z.testbit (Z.land v (v - 1)) (Z.log2 v) = true) as Hb.
    { rewrite Z.land_spec, Z.bit_log2 by lia. rewrite <- Hl at 1. by rewrite Z.bit_log2 by lia. }
    by rewrite Hz, Z.bits_0 in Hb.
  - intros (k & Hk & ->). split; [by apply Z.pow_pos_nonneg|].
    rewrite Z.sub_1_r, <- Z.ones_equiv, Z.land_ones by done. apply Z.mod_same.
    apply Z.pow_nonzero; lia.
Qed.

(** The number of tiles of [edge] that cover [extent]. *)
Definition tiles_for (edge extent : Z) : Z := (extent + edge - 1) / edge.

Lemma tiles_for_covers edge extent :
  0 < edge → 0 < extent →
  0 < tiles_for edge extent <= extent ∧ (tiles_for edge extent - 1) * edge < extent <= tiles_for edge extent * edge.
Proof. intros He Hx. unfold tiles_for. Z.to_euclidean_division_equations. nia. Qed.

Lemma int32_small z : 0 <= z < 2 ^ 31 → int32 z = z.
Proof. intros Hz. unfold int32. rewrite Z.mod_small; lia. Qed.

Lemma tile_edge_pow k : 0 <= k → (2 ^ k <= 4096 ↔ k <= 12).
Proof.
  intros Hk. change 4096 with (2 ^ 12). split; intros H.
  - destruct (Z.le_gt_cases k 12); [done|]. assert (2 ^ 13 <= 2 ^ k) by (apply Z.pow_le_mono_r; lia). lia.
  - apply Z.pow_le_mono_r; lia.
Qed.

Definition geometry_ok (edge width height : Z) : Prop :=
  (∃ k, 0 <= k <= 12 ∧ edge = 2 ^ k) ∧ 0 < width <= 2 ^ 20 ∧ 0 < height <= 2 ^ 20 ∧
  tiles_for edge width * tiles_for edge height <= 2 ^ 22.

Lemma validate_spec edge width height :
  validate_tile_geometry edge width height = Err BadGeometry ∧ ¬ geometry_ok edge width height ∨
  validate_tile_geometry edge width height
    = Ok (mkTileGeometry edge width height (tiles_for edge width) (tiles_for edge height)) ∧
  geometry_ok edge width height.
Proof.
  unfold validate_tile_geometry, geometry_ok, k_max_tile_edge, k_max_dimension, k_max_tiles.
  change (Z.shiftl 1 20) with (2 ^ 20). change (Z.shiftl 1 22) with (2 ^ 22).
  destruct (is_power_of_two edge) eqn:Hp; cbn [negb orb].
  2: { left. split; [done|]. intros [(k & Hk & ->) _]. apply not_true_iff_false in Hp. apply Hp, is_power_of_two_spec.
       exists k. split; [lia|done]. }
  apply is_power_of_two_spec in Hp as (k & Hk & ->). pose proof (tile_edge_pow k Hk) as He.
  pose proof (Z.pow_pos_nonneg 2 k ltac:(lia) Hk).
  destruct (Z.ltb_spec 4096 (2 ^ k)).
  { left. split; [done|]. intros [(k' & Hk' & E) _]. apply Z.pow_inj_r in E; lia. }
  destruct (_ || _) eqn:Hd.
  { left. split; [done|]. intros (_ & Hw & Hh & _). rewrite !orb_true_iff, !Z.leb_le, !Z.ltb_lt in Hd. lia. }
  rewrite !orb_false_iff, !Z.leb_gt, !Z.ltb_ge in Hd. destruct Hd as [[[Hw Hh] Hw'] Hh'].
  assert (∀ x, 0 < x <= 2 ^ 20 → Z.quot (i64 (i64 (x + 2 ^ k) - 1)) (2 ^ k) = tiles_for (2 ^ k) x) as Ht.
  { intros x Hx. rewrite (i64_small (x + 2 ^ k)), i64_small, Z.quot_div_nonneg by (unfold in_i64; lia). done. }
  rewrite !Ht by lia.
  destruct (tiles_for_covers (2 ^ k) width) as [Htw _]; [lia..|].
  destruct (tiles_for_covers (2 ^ k) height) as [Hth _]; [lia..|].
  rewrite i64_small by (unfold in_i64; nia).
  destruct (Z.ltb_spec (2 ^ 22) (tiles_for (2 ^ k) width * tiles_for (2 ^ k) height)) as [Hc|Hc].
  { left. split; [done|]. lia. }
  right. rewrite !int32_small by lia. split_and!; try done; try lia. exists k. lia.
Qed.

(** ** The byte shuffle *)

Definition apply_writes (out : list Z) (writes : list (nat * Z)) : list Z :=
  foldl (λ out kv, <[kv.1 := kv.2]> out) out writes.

Lemma apply_writes_length writes : ∀ out, length (apply_writes out writes) = length out.
Proof.
  induction writes as [|kv writes IH]; intros out; cbn; [done|]. unfold apply_writes in IH.
  by rewrite IH, length_insert.
Qed.

Lemma apply_writes_miss writes k : ∀ out, k ∉ writes.*1 → apply_writes out writes !! k = out !! k.
Proof.
  induction writes as [|kv writes IH]; intros out Hk; cbn; [done|]. unfold apply_writes in IH.
  apply not_elem_of_cons in Hk as [Hne Hk]. rewrite IH by done. by apply list_lookup_insert_ne.
Qed.

(** Writes to [k] that agree leave what they wrote. *)
Lemma apply_writes_hit writes k v : ∀ out,
  (k, v) ∈ writes → (∀ v', (k, v') ∈ writes → v' = v) → (k < length out)%nat →
  apply_writes out writes !! k = Some v.
Proof.
  induction writes as [|[k' v'] writes IH]; intros out Hin Hcons Hk; [by apply not_elem_of_nil in Hin|].
  cbn. unfold apply_writes in IH. destruct (decide ((k, v) ∈ writes)) as [Hin'|Hnot].
  - apply IH; [done| |by rewrite length_insert]. intros v'' Hv. apply Hcons. by right.
  - apply elem_of_cons in Hin as [[= <- <-]|]; [|done].
    rewrite apply_writes_miss; [by apply list_lookup_insert_eq|].
    intros ([k' v'] & -> & Hkv)%list_elem_of_fmap. cbn in *. apply Hnot.
    by rewrite <- (Hcons v') by (by right).
Qed.

Definition permute_writes (input : list Z) (stride : nat) (to from : nat → nat → nat) : list (nat * Z) :=
  let groups := (length input / stride)%nat in
  concat (map (λ j, map (λ i, (to j i, input !!! from j i)) (seq 0 groups)) (seq 0 stride)) ++
  map (λ k, (k, input !!! k)) (seq (groups * stride) (length input - groups * stride)).

Lemma foldl_map {A B C} (f : A → B → A) (g : C → B) l a : foldl f a (map g l) = foldl (λ a c, f a (g c)) a l.
Proof. revert a. induction l as [|c l IH]; intros a; cbn; [done|apply IH]. Qed.

Lemma foldl_concat_map {A B C} (f : A → B → A) (g : C → list B) l a :
  foldl f a (concat (map g l)) = foldl (λ a c, foldl f a (g c)) a l.
Proof. revert a. induction l as [|c l IH]; intros a; cbn; [done|]. by rewrite foldl_app. Qed.

Lemma permute_is_writes input stride to from :
  permute input stride to from = apply_writes (replicate (length input) 0) (permute_writes input stride to from).
Proof.
  unfold permute, permute_writes, apply_writes. cbv zeta. rewrite foldl_app, foldl_map, foldl_concat_map.
  f_equal. generalize (replicate (length input) 0). induction (seq 0 stride) as [|j js IH]; intros out; cbn; [done|].
  by rewrite foldl_map, IH.
Qed.

Section permute.
Context (input : list Z) (stride : nat) (to from : nat → nat → nat).
Let groups := (length input / stride)%nat.
Hypothesis Hstride : (0 < stride)%nat.
Hypothesis Hto : ∀ j i, (j < stride)%nat → (i < groups)%nat → (to j i < groups * stride)%nat.
Hypothesis Hinj : ∀ j i j' i', (j < stride)%nat → (i < groups)%nat → (j' < stride)%nat → (i' < groups)%nat →
  to j i = to j' i' → j = j' ∧ i = i'.

Lemma groups_fit : (groups * stride <= length input)%nat.
Proof. clear Hstride Hto Hinj. unfold groups. pose proof (Nat.Div0.div_mod (length input) stride). lia. Qed.

Lemma elem_of_permute_writes k v :
  (k, v) ∈ permute_writes input stride to from ↔
  (∃ j i, (j < stride)%nat ∧ (i < groups)%nat ∧ k = to j i ∧ v = input !!! from j i) ∨
  (groups * stride <= k < length input)%nat ∧ v = input !!! k.
Proof.
  pose proof groups_fit. unfold permute_writes. fold groups. rewrite elem_of_app.
  rewrite !list_elem_of_In, in_concat. setoid_rewrite in_map_iff. split.
  - intros [(l & (j & <- & Hj) & Hin)|(k' & [= -> ->] & Hk)].
    + apply in_map_iff in Hin as (i & [= <- <-] & Hi). rewrite in_seq in Hi, Hj.
      left. exists j, i. split_and!; [lia|lia|done|done].
    + rewrite in_seq in Hk. right. split; [lia|done].
  - intros [(j & i & Hj & Hi & -> & ->)|[Hk ->]]; [left|right].
    + eexists. split; [exists j; split; [done|by rewrite in_seq; lia]|].
      apply in_map_iff. exists i. split; [done|]. rewrite in_seq. lia.
    + exists k. split; [done|]. rewrite in_seq. lia.
Qed.

Lemma permute_length : length (permute input stride to from) = length input.
Proof. by rewrite permute_is_writes, apply_writes_length, length_replicate. Qed.

Lemma permute_lookup j i :
  (j < stride)%nat → (i < groups)%nat → permute input stride to from !! to j i = Some (input !!! from j i).
Proof.
  intros Hj Hi. pose proof groups_fit. pose proof (Hto j i Hj Hi). rewrite permute_is_writes. apply apply_writes_hit.
  - apply elem_of_permute_writes. left. by exists j, i.
  - intros v' [(j' & i' & Hj' & Hi' & E & ->)|[Hk _]]%elem_of_permute_writes; [|lia].
    by destruct (Hinj j i j' i') as [-> ->].
  - rewrite length_replicate. lia.
Qed.

Lemma permute_tail k :
  (groups * stride <= k < length input)%nat → permute input stride to from !! k = Some (input !!! k).
Proof.
  intros Hk. rewrite permute_is_writes. apply apply_writes_hit.
  - apply elem_of_permute_writes. by right.
  - intros v' [(j' & i' & Hj' & Hi' & -> & ->)|[_ ->]]%elem_of_permute_writes; [|done].
    pose proof (Hto j' i' Hj' Hi'). lia.
  - rewrite length_replicate. lia.
Qed.
End permute.

Lemma row_major_inj b j i j' i' :
  (i < b)%nat → (i' < b)%nat → (j * b + i = j' * b + i')%nat → j = j' ∧ i = i'.
Proof.
  intros Hi Hi' E. assert (j = j') as ->; [|lia].
  destruct (Nat.lt_trichotomy j j') as [|[|]]; [nia|done|nia].
Qed.

Lemma row_major_lt a b j i : (j < a)%nat → (i < b)%nat → (j * b + i < a * b)%nat.
Proof. nia. Qed.

(** Index by index: the shuffle brings byte [j] of sample [i] to plane [j], and the
    unshuffle takes it back. *)
Lemma shuffle_lookups input stride :
  (2 <= stride)%nat →
  let groups := (length input / stride)%nat in
  (∀ j i, (j < stride)%nat → (i < groups)%nat →
    shuffle_bytes input stride !! (j * groups + i)%nat = input !! (i * stride + j)%nat ∧
    unshuffle_bytes input stride !! (i * stride + j)%nat = input !! (j * groups + i)%nat) ∧
  (∀ k, (groups * stride <= k)%nat →
    shuffle_bytes input stride !! k = input !! k ∧ unshuffle_bytes input stride !! k = input !! k) ∧
  length (shuffle_bytes input stride) = length input ∧ length (unshuffle_bytes input stride) = length input.
Proof.
  intros Hs groups. unfold shuffle_bytes, unshuffle_bytes. rewrite (proj2 (Nat.leb_gt _ _)) by lia.
  fold groups. pose proof (groups_fit input stride) as Hfit. fold groups in Hfit.
  split_and!; [| |apply permute_length..].
  - intros j i Hj Hi.
    pose proof (row_major_lt stride groups j i Hj Hi). pose proof (row_major_lt groups stride i j Hi Hj).
    rewrite (list_lookup_lookup_total_lt input (i * stride + j)), (list_lookup_lookup_total_lt input (j * groups + i)) by lia.
    split.
    + apply (permute_lookup input stride (λ j i, j * groups + i)%nat (λ j i, i * stride + j)%nat); [lia| | |done|done].
      * intros j' i' ? ?. rewrite (Nat.mul_comm groups). by apply row_major_lt.
      * intros ? ? ? ? ? ? ? ? E. by apply row_major_inj in E.
    + apply (permute_lookup input stride (λ j i, i * stride + j)%nat (λ j i, j * groups + i)%nat); [lia| | |done|done].
      * intros j' i' ? ?. by apply row_major_lt.
      * intros ? ? ? ? ? ? ? ? E. apply row_major_inj in E as [-> ->]; done.
  - intros k Hk. destruct (decide (k < length input)%nat) as [Hlt|Hge].
    + rewrite (list_lookup_lookup_total_lt input k) by done. split; apply permute_tail; try done; try lia.
      * intros j' i' ? ?. rewrite (Nat.mul_comm groups). by apply row_major_lt.
      * intros j' i' ? ?. by apply row_major_lt.
    + rewrite !lookup_ge_None_2 by (rewrite ?permute_length; lia). done.
Qed.

Lemma shuffle_length input stride :
  length (shuffle_bytes input stride) = length input ∧ length (unshuffle_bytes input stride) = length input.
Proof.
  destruct (Nat.leb_spec stride 1) as [H1|H1].
  - unfold shuffle_bytes, unshuffle_bytes. by rewrite (proj2 (Nat.leb_le _ _)).
  - by apply (shuffle_lookups input stride).
Qed.

(** An index below [groups * stride] is a byte of a sample; both layouts name it. *)
Lemma sample_index groups stride k :
  (0 < stride)%nat → (k < groups * stride)%nat →
  ∃ j i, (j < stride)%nat ∧ (i < groups)%nat ∧ k = (i * stride + j)%nat.
Proof.
  intros Hs Hk. exists (k mod stride)%nat, (k / stride)%nat.
  pose proof (Nat.Div0.div_mod k stride). pose proof (Nat.mod_upper_bound k stride).
  split_and!; [lia| |lia]. apply Nat.Div0.div_lt_upper_bound. lia.
Qed.

Lemma unshuffle_shuffle input stride :
  unshuffle_bytes (shuffle_bytes input stride) stride = input ∧
  shuffle_bytes (unshuffle_bytes input stride) stride = input.
Proof.
  destruct (Nat.leb_spec stride 1) as [H1|H1].
  { unfold shuffle_bytes, unshuffle_bytes. by rewrite (proj2 (Nat.leb_le _ _)). }
  destruct (shuffle_lookups input stride H1) as (Hin & Htl & Hl1 & Hl2).
  destruct (shuffle_lookups (shuffle_bytes input stride) stride H1) as (Hin1 & Htl1 & _).
  destruct (shuffle_lookups (unshuffle_bytes input stride) stride H1) as (Hin2 & Htl2 & _).
  rewrite Hl1 in *. rewrite Hl2 in *. set (groups := (length input / stride)%nat) in *.
  split; apply list_eq; intros k; destruct (decide (k < groups * stride)%nat) as [Hk|Hk].
  - destruct (sample_index groups stride k) as (j & i & Hj & Hi & ->); [lia|done|].
    by rewrite (proj2 (Hin1 j i Hj Hi)), (proj1 (Hin j i Hj Hi)).
  - by rewrite (proj2 (Htl1 k ltac:(lia))), (proj1 (Htl k ltac:(lia))).
  - rewrite (Nat.mul_comm groups) in Hk.
    destruct (sample_index stride groups k) as (i & j & Hi & Hj & ->); [destruct groups; lia|done|].
    by rewrite (proj1 (Hin2 j i Hj Hi)), (proj2 (Hin j i Hj Hi)).
  - by rewrite (proj1 (Htl2 k ltac:(lia))), (proj2 (Htl k ltac:(lia))).
Qed.

(** ** Storage bytes *)

Lemma le_bytes_length n : ∀ z, length (le_bytes n z) = n.
Proof. induction n as [|n IH]; intros z; cbn; [done|]. by rewrite IH. Qed.

Lemma le_value_bytes n : ∀ z, le_value (le_bytes n z) = z mod 2 ^ (8 * Z.of_nat n).
Proof.
  induction n as [|n IH]; intros z.
  { cbn. by rewrite Z.mod_1_r. }
  cbn [le_bytes]. unfold le_value in *. cbn [foldr]. rewrite IH.
  replace (8 * Z.of_nat (S n)) with (8 + 8 * Z.of_nat n) by lia. rewrite Z.pow_add_r by lia.
  change (2 ^ 8) with 256. rewrite Z.rem_mul_r; [lia|lia|]. apply Z.pow_pos_nonneg; lia.
Qed.

(** The formats a tile may be stored in. *)
Definition storable (storage : PixelFormat) : Prop := is_float storage = true.

(** What a working sample is once it has been through storage. *)
Definition stored (storage : PixelFormat) (v : Z) : Z := decode_sample storage (encode_sample storage v).

Lemma stored_sample storage v :
  storable storage → in_u32 v →
  length (encode_sample storage v) = bytes_per_sample storage ∧
  stored storage v = (if storage is Rgba16fLinearPremul then f16_to_float (f16_from_float v) else v) ∧
  encode_sample storage (stored storage v) = encode_sample storage v.
Proof.
  intros Hs Hv. unfold stored. destruct storage; [| |done]; cbn [encode_sample decode_sample];
    rewrite le_value_bytes, le_bytes_length.
  - rewrite (Z.mod_small v) by apply Hv. done.
  - rewrite (Z.mod_small (f16_from_float v)) by (apply f16_from_float_u16, Hv).
    split_and!; [done|done|]. by rewrite f16_settles.
Qed.

Lemma pixel_grid {A} (g : nat → list A) p :
  concat (map (λ i, concat (map (λ k, g (i * 4 + k)%nat) (seq 0 4))) (seq 0 p)) = concat (map g (seq 0 (p * 4))).
Proof.
  induction p as [|p IH]; [done|]. rewrite (List.seq_S p 0), map_app, concat_app, IH.
  replace (S p * 4)%nat with (p * 4 + 4)%nat by lia. rewrite seq_app, map_app, concat_app. f_equal.
  cbn. by rewrite !Nat.add_0_r, !app_nil_r, !Nat.add_succ_r, Nat.add_0_r.
Qed.

Lemma concat_singletons {A B} (g : A → B) l : concat (map (λ n, [g n]) l) = map g l.
Proof. induction l as [|n l IH]; cbn; [done|]. by rewrite IH. Qed.

Lemma map_total_seq {B} (f : Z → B) (l : list Z) :
  map (λ k, f (l !!! k)) (seq 0 (length l)) = map f l.
Proof.
  apply list_eq. intros i. rewrite !list_lookup_fmap.
  destruct (decide (i < length l)%nat) as [Hi|Hi].
  - rewrite lookup_seq_lt by done. cbn. by rewrite (list_lookup_lookup_total_lt l i).
  - rewrite !lookup_ge_None_2; [done|lia|rewrite length_seq; lia].
Qed.

Lemma encode_into_map storage working :
  Nat.divide 4 (length working) → encode_into storage working = concat (map (encode_sample storage) working).
Proof.
  intros [p Hp]. unfold encode_into, channels_per_pixel. cbv zeta.
  rewrite (pixel_grid (λ n, encode_sample storage (working !!! n))). f_equal.
  rewrite Hp, Nat.div_mul, <- Hp by done. apply map_total_seq.
Qed.

Lemma concat_length_const {A} (f : A → list Z) size l :
  (∀ v, v ∈ l → length (f v) = size) → length (concat (map f l)) = (length l * size)%nat.
Proof.
  induction l as [|v l IH]; intros Hf; cbn; [done|]. rewrite length_app, Hf by (by left).
  rewrite IH; [done|]. intros w Hw. apply Hf. by right.
Qed.

Lemma concat_slice (f : Z → list Z) size l : ∀ k,
  (∀ v, v ∈ l → length (f v) = size) → (k < length l)%nat →
  take size (drop (k * size) (concat (map f l))) = f (l !!! k).
Proof.
  induction l as [|v l IH]; intros k Hf Hk; cbn in Hk; [lia|]. cbn [map concat].
  assert (length (f v) = size) as Hv by (apply Hf; by left).
  destruct k as [|k]; cbn [Nat.mul].
  - rewrite drop_0, take_app_length'; [done|lia].
  - rewrite drop_app_ge by lia. replace (size + k * size - length (f v))%nat with (k * size)%nat by lia.
    apply IH; [|lia]. intros w Hw. apply Hf. by right.
Qed.

Lemma decode_into_map storage working :
  storable storage → Forall in_u32 working → Nat.divide 4 (length working) →
  decode_into storage (concat (map (encode_sample storage) working)) = map (stored storage) working.
Proof.
  intros Hst Hw [p Hp]. rewrite List.Forall_forall in Hw.
  assert (∀ v, v ∈ working → length (encode_sample storage v) = bytes_per_sample storage) as Hlen.
  { intros v Hv. apply stored_sample; [done|]. by apply Hw, list_elem_of_In. }
  assert (0 < bytes_per_sample storage)%nat as Hsz by (destruct storage; [cbv; lia|cbv; lia|done]).
  unfold decode_into, channels_per_pixel. cbv zeta. rewrite (concat_length_const _ (bytes_per_sample storage)) by done.
  rewrite Hp, <- Nat.mul_assoc, Nat.div_mul by lia.
  transitivity (concat (map (λ n, [decode_sample storage (take (bytes_per_sample storage)
    (drop (n * bytes_per_sample storage) (concat (map (encode_sample storage) working))))]) (seq 0 (p * 4)))).
  { rewrite <- pixel_grid. f_equal. }
  rewrite <- Hp, concat_singletons, <- (map_total_seq (stored storage) working).
  apply map_ext_in. intros k Hk%in_seq. unfold stored. rewrite (concat_slice _ (bytes_per_sample storage)); [done|done|lia].
Qed.

(** ** Names *)

Lemma sha256_bytes data : length (sha256 data) = 32%nat ∧ Forall is_byte (sha256 data).
Proof. rewrite sha256_iterated. apply digest_of_bytes. Qed.

Lemma hex_digit_char v : 0 <= v < 16 → is_hex_char (hex_digit v) = true.
Proof.
  intros Hv. assert (∀ n, n ∈ seq 0 16 → is_hex_char (hex_digit (Z.of_nat n)) = true) as Hall.
  { intros n Hn. repeat (apply elem_of_cons in Hn as [->|Hn]; [reflexivity|]). by apply not_elem_of_nil in Hn. }
  rewrite <- (Z2Nat.id v) by lia. apply Hall, list_elem_of_In, in_seq. lia.
Qed.

Lemma hash_tile_named storage_bytes : is_tile_hash (hash_tile storage_bytes) = true.
Proof.
  destruct (sha256_bytes storage_bytes) as [Hl Hb]. unfold is_tile_hash, hash_tile.
  rewrite to_hex_n_take, concat_hex_length, length_take, Hl. apply andb_true_iff. split; [reflexivity|].
  assert (Forall is_byte (take k_tile_hash_bytes (sha256 storage_bytes))) as Htake by (by apply Forall_take).
  induction Htake as [|b l Hb' _ IH]; [done|].
  cbn [map concat]. destruct (byte_nibbles b Hb') as (E & E' & Hhi & Hlo).
  rewrite forallb_app, IH, andb_true_r. unfold hex_byte. rewrite E, E'. cbn [forallb].
  by rewrite !hex_digit_char.
Qed.

(** Equal names mean equal digests, as far as the name keeps them. *)
Lemma hash_tile_inj a b :
  hash_tile a = hash_tile b → take k_tile_hash_bytes (sha256 a) = take k_tile_hash_bytes (sha256 b).
Proof.
  destruct (sha256_bytes a) as [_ Ha], (sha256_bytes b) as [_ Hb].
  exact (proj1 (proj1 (blob_name_injective (sha256 a) (sha256 b) k_tile_hash_bytes Ha Hb))).
Qed.

Lemma to_storage_float storage working : storable storage → to_storage_bytes working storage = encode_into storage working.
Proof. by destruct storage. Qed.

Lemma from_storage_float storage bytes : storable storage → from_storage_bytes bytes storage = decode_into storage bytes.
Proof. by destruct storage. Qed.

Lemma storage_length storage working :
  storable storage → Forall in_u32 working → Nat.divide 4 (length working) →
  length (to_storage_bytes working storage) = (length working * bytes_per_sample storage)%nat.
Proof.
  intros Hst Hw Hp. rewrite to_storage_float, encode_into_map by done. apply concat_length_const.
  intros v Hv. apply stored_sample; [done|]. rewrite List.Forall_forall in Hw. by apply Hw, list_elem_of_In.
Qed.

Lemma storage_roundtrip storage working :
  storable storage → Forall in_u32 working → Nat.divide 4 (length working) →
  from_storage_bytes (to_storage_bytes working storage) storage = map (stored storage) working ∧
  to_storage_bytes (map (stored storage) working) storage = to_storage_bytes working storage.
Proof.
  intros Hst Hw Hp. rewrite from_storage_float, !to_storage_float, !encode_into_map by (done || by rewrite length_map).
  split; [by apply decode_into_map|]. rewrite map_map. f_equal. apply map_ext_in. intros v Hv%list_elem_of_In.
  apply stored_sample; [done|]. rewrite List.Forall_forall in Hw. by apply Hw, list_elem_of_In.
Qed.

(** ** Properties *)

(** C36: holding a [TileGeometry] is the proof its numbers were checked: validation accepts
    exactly the edges that are powers of two up to 4096, the sides from 1 to [2^20] and the
    grids of at most [2^22] tiles, on any 64-bit input; it keeps the numbers it was given
    -- nothing overflows or is truncated on the way -- and the grid it computes covers the
    image with no tile to spare, in sizes that an allocation can be computed from. *)
Theorem geometry_validated (edge width height : Z)
    (Hedge : in_i64 edge) (Hwidth : in_i64 width) (Hheight : in_i64 height) :
  match validate_tile_geometry edge width height with
  | Err e => e = BadGeometry ∧ ¬ geometry_ok edge width height
  | Ok g =>
      geometry_ok edge width height ∧ tg_edge g = edge ∧ tg_width g = width ∧ tg_height g = height ∧
      (tg_tiles_x g - 1) * edge < width <= tg_tiles_x g * edge ∧
      (tg_tiles_y g - 1) * edge < height <= tg_tiles_y g * edge ∧
      tile_count g = tg_tiles_x g * tg_tiles_y g ∧ 0 < tile_count g <= 2 ^ 22 ∧
      tile_samples g = 4 * edge * edge ∧ 0 < tile_samples g <= 2 ^ 26
  end.
Proof.
  destruct (validate_spec edge width height) as [[-> Hno]|[-> Hok]]; [done|]. split; [done|].
  destruct Hok as ((k & Hk & ->) & Hw & Hh & Hn). cbn [tg_edge tg_width tg_height tg_tiles_x tg_tiles_y].
  pose proof (Z.pow_pos_nonneg 2 k ltac:(lia) ltac:(lia)) as Hpos.
  assert (2 ^ k <= 2 ^ 12) as Hle by (apply Z.pow_le_mono_r; lia).
  destruct (tiles_for_covers (2 ^ k) width) as [Htx Hcx]; [lia..|].
  destruct (tiles_for_covers (2 ^ k) height) as [Hty Hcy]; [lia..|].
  unfold tile_count, tile_samples, channels_per_pixel. cbn [tg_edge tg_tiles_x tg_tiles_y].
  set (e := 2 ^ k) in *. clearbody e.
  assert (0 < e * e <= 2 ^ 24) by nia.
  rewrite !(u64_small (tiles_for _ _)), !(u64_small e), (u64_small (e * e)) by (unfold in_u64; lia).
  rewrite !u64_small by (unfold in_u64; nia). split_and!; try done; try lia; nia.
Qed.

(** the shuffle is a bijection on byte strings of every length, for every stride:
    unshuffling gives back what was shuffled, shuffling what was unshuffled, the length is
    kept, and byte [j] of sample [i] is found in plane [j]. *)
Theorem shuffle_bijective (input : list Z) (stride : nat) :
  unshuffle_bytes (shuffle_bytes input stride) stride = input ∧
  shuffle_bytes (unshuffle_bytes input stride) stride = input ∧
  length (shuffle_bytes input stride) = length input ∧
  ((2 <= stride)%nat → ∀ j i, (j < stride)%nat → (i < length input / stride)%nat →
     shuffle_bytes input stride !! (j * (length input / stride) + i)%nat = input !! (i * stride + j)%nat).
Proof.
  destruct (unshuffle_shuffle input stride) as [H1 H2]. destruct (shuffle_length input stride) as [Hl _].
  split_and!; [done|done|done|]. intros Hs j i Hj Hi. by apply shuffle_lookups.
Qed.

(** C34: a tile survives storage: with a compressor whose frames decompress to what was
    compressed, the frame of a tile decodes, under the tile's own name and declared size, to
    the samples it had -- at 32 bits exactly, at 16 each rounded to a half -- and saving the
    result again produces the same bytes, so the same name and no new blob. *)
Theorem tile_roundtrip (zstd_compress zstd_decompress : nat → list Z → option (list Z))
    (compress_bound : nat → nat) (storage : PixelFormat) (working frame : list Z)
    (Hzstd : ∀ blob f, zstd_compress (compress_bound (length blob)) blob = Some f →
       zstd_decompress (length blob) f = Some blob)
    (Hst : storable storage) (Hworking : Forall in_u32 working) (Hpixels : Nat.divide 4 (length working))
    (Hsize : Z.of_nat (length working) <= 2 ^ 26)
    (Hframe : frame_tile_blob zstd_compress compress_bound (to_storage_bytes working storage) storage = Ok frame) :
  let bytes := to_storage_bytes working storage in
  let loaded := map (stored storage) working in
  decode_tile_blob zstd_decompress frame (hash_tile bytes) storage (Z.of_nat (length working)) = Ok loaded ∧
  (storage = Rgba32fLinearPremul → loaded = working) ∧
  (storage = Rgba16fLinearPremul → loaded = map (λ v, f16_to_float (f16_from_float v)) working) ∧
  to_storage_bytes loaded storage = bytes.
Proof.
  cbv zeta. destruct (storage_roundtrip storage working) as [Hfrom Hagain]; [done..|].
  pose proof (storage_length storage working Hst Hworking Hpixels) as Hlen.
  assert (∀ v, In v working → in_u32 v) as Hin by (by rewrite <- List.Forall_forall).
  split_and!; [| | |done].
  - unfold frame_tile_blob, compress_blob in Hframe.
    destruct (zstd_compress _ _) as [f|] eqn:Hz; [|done]. apply Hzstd in Hz. simplify_eq.
    rewrite (proj1 (shuffle_length _ _)), Hlen in Hz. unfold decode_tile_blob. rewrite hash_tile_named. cbn [negb].
    assert (1 <= Z.of_nat (bytes_per_sample storage) <= 4)
      by (destruct storage; split; apply Z.leb_le; reflexivity).
    rewrite u64_small.
    2: { unfold in_u64. pose proof (Z.mul_le_mono_nonneg (Z.of_nat (length working)) (2 ^ 26) (Z.of_nat (bytes_per_sample storage)) 4). lia. }
    rewrite <- Nat2Z.inj_mul, Nat2Z.id. unfold decompress_blob.
    rewrite Hz, (proj1 (shuffle_length _ _)), Hlen, Nat.eqb_refl, (proj1 (unshuffle_shuffle _ _)).
    rewrite bool_decide_eq_true_2 by done. cbn [negb]. by rewrite Hfrom.
  - intros ->. rewrite <- (map_id working) at 2. apply map_ext_in. intros v Hv. by apply stored_sample, Hin.
  - intros ->. apply map_ext_in. intros v Hv. by apply stored_sample, Hin.
Qed.


(** ** Witnesses *)

Lemma geometry_validated_witness :
  validate_tile_geometry 256 1000 1 = Ok (mkTileGeometry 256 1000 1 4 1) ∧ geometry_ok 256 1000 1.
Proof.
  assert (validate_tile_geometry 256 1000 1 = Ok (mkTileGeometry 256 1000 1 4 1)) as E by (vm_compute; reflexivity).
  split; [exact E|]. pose proof (geometry_validated 256 1000 1) as H. rewrite E in H.
  apply H; unfold in_i64; lia.
Defined.

(** A compressor that stores: the frame is the blob after its length. *)
Definition store_frame (bound : nat) (blob : list Z) : option (list Z) := Some (Z.of_nat (length blob) :: blob).
Definition read_frame (size : nat) (frame : list Z) : option (list Z) :=
  match frame with
  | n :: blob => if (n =? Z.of_nat (length blob)) && (length blob <=? size)%nat then Some blob else None
  | [] => None
  end.

Definition one_pixel : list Z := [0x3F800000; 0x3E99999A; 0; 0x7F7FFFFF].

Lemma tile_roundtrip_witness :
  ∃ frame,
    decode_tile_blob read_frame frame (hash_tile (to_storage_bytes one_pixel Rgba16fLinearPremul)) Rgba16fLinearPremul 4
      = Ok (map (stored Rgba16fLinearPremul) one_pixel).
Proof.
  eexists. refine (proj1 (tile_roundtrip store_frame read_frame S Rgba16fLinearPremul one_pixel _ _ _ _ _ _ eq_refl)).
  - intros blob f [= <-]. cbn. by rewrite Z.eqb_refl, Nat.leb_refl.
  - reflexivity.
  - repeat constructor; discriminate.
  - by exists 1%nat.
  - cbn. lia.
Defined.
