(* ===== verification/Completion.v ===== *)
(** The one-shot completion a render is answered through:
    [Completion<Result>] of [src/src/contract/arbc/contract/content.hpp] and
    [render_completion.cpp].

    A settlement is three actions -- claim the slot, write the payload, publish it -- and
    renderers race for the claim while the caller cancels, peeks and takes.  The theorem
    is about every interleaving of those actions; the operations below it, whole, are what
    a single thread does. *)

From S2P Require Import Prelude.

Inductive RenderError := ContentFailed | ResourceUnavailable.

Inductive CompletionState := k_pending | k_claimed | k_published | k_taken.
#[export] Instance CompletionState_eq_dec : EqDecision CompletionState.
Proof. solve_decision. Defined.

Record Completion (R : Type) := mkCompletion {
  d_state : CompletionState; d_cancelled : bool; d_payload : option (expected RenderError R) }.
Arguments mkCompletion {R} _ _ _.
Arguments d_state {R} _.
Arguments d_cancelled {R} _.
Arguments d_payload {R} _.

Section completion.
Context {R : Type}.
Implicit Types (c : Completion R) (s : expected RenderError R).

Definition fresh_completion : Completion R := mkCompletion k_pending false None.

(** The three actions of [try_settle]: the exchange that claims the slot, the write of the
    payload, the store that publishes it. *)
Definition claim c : option (Completion R) :=
  match d_state c with
  | k_pending => Some (mkCompletion k_claimed (d_cancelled c) (d_payload c))
  | _ => None
  end.
Definition write_payload s c : Completion R := mkCompletion (d_state c) (d_cancelled c) (Some s).
Definition publish_payload c : Completion R := mkCompletion k_published (d_cancelled c) (d_payload c).

Definition try_settle s c : Completion R * bool :=
  match claim c with
  | None => (c, false)
  | Some c => (publish_payload (write_payload s c), true)
  end.

Definition complete (r : R) c : Completion R := (try_settle (Ok r) c).1.
Definition fail (e : RenderError) c : Completion R := (try_settle (Err e) c).1.
Definition cancelled c : bool := d_cancelled c.
Definition cancel c : Completion R := mkCompletion (d_state c) true (d_payload c).

Definition settled c : bool :=
  match d_state c with k_published | k_taken => true | _ => false end.

Definition settled_ok c : bool :=
  match d_state c with
  | k_published => match d_payload c with Some s => has_value s | None => false end
  | _ => false
  end.

Definition take c : Completion R * option (expected RenderError R) :=
  match d_state c with
  | k_published => (mkCompletion k_taken (d_cancelled c) None, d_payload c)
  | _ => (c, None)
  end.

(** ** Renderers and a caller *)

(** A renderer with a settlement to make: before its claim, having won it, having written
    the payload, or done -- having settled or lost. *)
Inductive Renderer :=
| Racing s | Won s | Wrote s | Done s (settled : bool).

(** The completion, its renderers, and what the caller's takes have yielded. *)
Record Race := mkRace { rc_completion : Completion R; rc_renderers : list Renderer; rc_taken : list (expected RenderError R) }.

Inductive race_step : Race → Race → Prop :=
| race_claim c rs log i s c' :
    rs !! i = Some (Racing s) → claim c = Some c' →
    race_step (mkRace c rs log) (mkRace c' (<[i := Won s]> rs) log)
| race_lose c rs log i s :
    rs !! i = Some (Racing s) → claim c = None →
    race_step (mkRace c rs log) (mkRace c (<[i := Done s false]> rs) log)
| race_write c rs log i s :
    rs !! i = Some (Won s) →
    race_step (mkRace c rs log) (mkRace (write_payload s c) (<[i := Wrote s]> rs) log)
| race_publish c rs log i s :
    rs !! i = Some (Wrote s) →
    race_step (mkRace c rs log) (mkRace (publish_payload c) (<[i := Done s true]> rs) log)
| race_cancel c rs log : race_step (mkRace c rs log) (mkRace (cancel c) rs log)
| race_take c rs log c' out :
    take c = (c', out) → race_step (mkRace c rs log) (mkRace c' rs (log ++ option_list out)).

Definition race_start (settlements : list (expected RenderError R)) : Race :=
  mkRace fresh_completion (map Racing settlements) [].

Definition racing (r : Renderer) : Prop := match r with Racing _ => True | _ => False end.

(** Not the winner: still racing, or lost. *)
Definition bystander (r : Renderer) : Prop :=
  match r with Racing _ | Done _ false => True | _ => False end.

(** The winner, against the state of the completion and the log. *)
Definition winner (r : Renderer) c (log : list (expected RenderError R)) : Prop :=
  match r with
  | Won _ => d_state c = k_claimed ∧ log = []
  | Wrote s => d_state c = k_claimed ∧ d_payload c = Some s ∧ log = []
  | Done s true =>
      (d_state c = k_published ∧ d_payload c = Some s ∧ log = []) ∨ (d_state c = k_taken ∧ log = [s])
  | _ => False
  end.

Definition race_inv (w : Race) : Prop :=
  let '(mkRace c rs log) := w in
  (d_state c = k_pending ∧ log = [] ∧ ∀ i r, rs !! i = Some r → racing r) ∨
  (∃ i r, rs !! i = Some r ∧ winner r c log ∧ ∀ j r', j ≠ i → rs !! j = Some r' → bystander r').

Lemma race_inv_start settlements : race_inv (race_start settlements).
Proof.
  left. split_and!; [done|done|]. intros i r Hr.
  apply list_elem_of_lookup_2, list_elem_of_In, in_map_iff in Hr as (s & <- & _). done.
Qed.

Lemma racing_bystander r : racing r → bystander r.
Proof. by destruct r. Qed.

(** A step of a bystander or of the winner, by who takes it. *)
Lemma bystanders_insert (rs : list Renderer) i k r' :
  bystander r' → (∀ j r, j ≠ k → rs !! j = Some r → bystander r) →
  ∀ j r, j ≠ k → <[i := r']> rs !! j = Some r → bystander r.
Proof.
  intros Hr' Hrs j r Hj. rewrite list_lookup_insert. case_decide as H; [by intros [= <-]|by apply Hrs].
Qed.

Lemma bystanders_unmoved (rs : list Renderer) i k r r' :
  rs !! k = Some r → ¬ bystander r → rs !! i = Some r' → bystander r' → <[i := r']> rs !! k = Some r.
Proof.
  intros Hk Hr Hi Hr'. rewrite list_lookup_insert_ne; [done|]. intros ->. simplify_eq. done.
Qed.

(** The renderer at work is the winner. *)
Lemma winner_at (rs : list Renderer) i r c log :
  race_inv (mkRace c rs log) → rs !! i = Some r → ¬ bystander r →
  winner r c log ∧ ∀ j r', j ≠ i → rs !! j = Some r' → bystander r'.
Proof.
  intros [(_ & _ & Hall)|(k & r0 & Hk & Hw & Hall)] Hi Hn; [by destruct Hn; eapply racing_bystander, Hall|].
  destruct (decide (i = k)) as [->|Hne]; [by simplify_eq|]. destruct Hn. by eapply Hall.
Qed.

Lemma winner_works r c log : winner r c log → ¬ bystander r ∧ d_state c ≠ k_pending.
Proof. destruct r as [| | |s []]; cbn; try done; intros; split; try done; destruct_and?; destruct_or?; destruct_and?; congruence. Qed.

(** The winner takes its next action. *)
Lemma winner_moves (rs : list Renderer) i r r' c c' log :
  race_inv (mkRace c rs log) → rs !! i = Some r → ¬ bystander r →
  (winner r c log → winner r' c' log) → race_inv (mkRace c' (<[i := r']> rs) log).
Proof.
  intros HI Hi Hn Hw. destruct (winner_at rs i r c log HI Hi Hn) as [Hwin Hall]. right. exists i, r'.
  split; [apply list_lookup_insert_eq; by eapply lookup_lt_Some|]. split; [by apply Hw|].
  intros j r0 Hj Hlook. rewrite list_lookup_insert_ne in Hlook by done. by eapply Hall.
Qed.

Lemma race_inv_step w w' : race_step w w' → race_inv w → race_inv w'.
Proof.
  intros [c rs log i s c' Hi Hc|c rs log i s Hi Hc|c rs log i s Hi|c rs log i s Hi|c rs log|c rs log c' out Htake] HI.
  - destruct HI as [(Hp & Hlog & Hall)|(k & r & Hk & Hw & Hall)].
    + right. unfold claim in Hc. rewrite Hp in Hc. simplify_eq. exists i, (Won s).
      split; [apply list_lookup_insert_eq; by eapply lookup_lt_Some|]. split; [done|].
      intros j r' Hj Hlook. rewrite list_lookup_insert_ne in Hlook by done. by eapply racing_bystander, Hall.
    + destruct (winner_works r c log Hw) as [_ Hne]. unfold claim in Hc. by destruct (d_state c).
  - destruct HI as [(Hp & _)|(k & r & Hk & Hw & Hall)]; [unfold claim in Hc; by rewrite Hp in Hc|].
    right. exists k, r. destruct (winner_works r c log Hw) as [Hwork _].
    assert (i ≠ k) as Hne by (intros ->; simplify_eq; by destruct Hwork).
    split; [by rewrite list_lookup_insert_ne|]. split; [done|]. by apply bystanders_insert.
  - apply (winner_moves rs i (Won s) _ c); [done|done|tauto|]. by intros [? ?].
  - apply (winner_moves rs i (Wrote s) _ c); [done|done|tauto|]. intros (? & ? & ?). by left.
  - destruct HI as [HI|(k & r & Hk & Hw & Hall)]; [by left|right]. exists k, r. by split_and!.
  - unfold take in Htake. destruct HI as [(Hp & -> & Hall)|(k & r & Hk & Hw & Hall)].
    { left. rewrite Hp in Htake. by simplify_eq. }
    right. exists k, r. split; [done|]. split; [|done].
    destruct r as [| |s|s []]; try done; cbn in Hw |- *.
    + destruct Hw as [Hst ->]. rewrite Hst in Htake. by simplify_eq.
    + destruct Hw as (Hst & Hpay & ->). rewrite Hst in Htake. by simplify_eq.
    + destruct Hw as [(Hst & Hpay & ->)|(Hst & ->)]; rewrite Hst in Htake; simplify_eq.
      * right. cbn. by rewrite Hpay.
      * right. by rewrite app_nil_r.
Qed.

Lemma race_reachable settlements w : rtc race_step (race_start settlements) w → race_inv w.
Proof.
  intros Hr. assert (race_inv (race_start settlements)) as HI by apply race_inv_start. revert HI.
  induction Hr as [|w1 w2 w3 Hs _ IH]; [done|]. intros HI. by apply IH, (race_inv_step w1).
Qed.

(** Each renderer keeps the settlement it came with. *)
Definition brings (r : Renderer) : expected RenderError R :=
  match r with Racing s | Won s | Wrote s | Done s _ => s end.

Lemma brings_step w w' : race_step w w' → map brings (rc_renderers w') = map brings (rc_renderers w).
Proof.
  assert (∀ (rs : list Renderer) i r r', rs !! i = Some r → brings r' = brings r →
    map brings (<[i := r']> rs) = map brings rs) as Hins.
  { intros rs i r r' Hi E. change (map brings) with (fmap (M := list) brings). rewrite list_fmap_insert, E.
    apply list_insert_id. by rewrite list_lookup_fmap, Hi. }
  destruct 1; cbn; [by eapply Hins..|done|done].
Qed.

Lemma brings_reachable settlements w :
  rtc race_step (race_start settlements) w → map brings (rc_renderers w) = settlements.
Proof.
  intros Hr. assert (map brings (rc_renderers (race_start settlements)) = settlements) as H0.
  { cbn. rewrite map_map. cbn. by rewrite map_id. }
  revert H0. induction Hr as [|w1 w2 w3 Hs _ IH]; [done|]. intros H0. apply IH. by rewrite (brings_step w1).
Qed.
End completion.
Arguments Renderer : clear implicits.
Arguments Race : clear implicits.

(** ** Properties *)

(** C22: a completion is settled once, whatever the interleaving of the actions of its
    renderers with the caller's cancels and takes: at most one renderer settles it and its
    settlement alone is read, whole and at most once; it is not lost -- until it is taken, a
    take yields it -- nor can the race end unsettled, cancelled or not. *)
Theorem settles_once {R} (settlements : list (expected RenderError R)) (c : Completion R)
    (rs : list (Renderer R)) (log : list (expected RenderError R))
    (Hreach : rtc race_step (race_start settlements) (mkRace c rs log)) :
  (∀ i j s s', rs !! i = Some (Done s true) → rs !! j = Some (Done s' true) → i = j) ∧
  (length log <= 1)%nat ∧
  (∀ s, s ∈ log ∨ (settled_ok c = true ∧ d_payload c = Some s) →
    ∃ i, settlements !! i = Some s ∧ rs !! i = Some (Done s true)) ∧
  (∀ i s, rs !! i = Some (Done s true) → settled c = true ∧ ((take c).2 = Some s ∨ log = [s])) ∧
  (rs ≠ [] → (∀ i r, rs !! i = Some r → ∃ s b, r = Done s b) → settled c = true).
Proof.
  pose proof (race_reachable _ _ Hreach) as HI. pose proof (brings_reachable _ _ Hreach) as Hb. cbn in Hb.
  assert (∀ i s, rs !! i = Some (Done s true) → settlements !! i = Some s) as Hbring.
  { intros i s Hi. rewrite <- Hb. change (map brings) with (fmap (M := list) (@brings R)).
    by rewrite list_lookup_fmap, Hi. }
  split_and!.
  - intros i j s s' Hi Hj. destruct (winner_at rs i _ c log HI Hi) as [_ Hall]; [tauto|].
    destruct (decide (j = i)) as [->|Hne]; [done|]. by destruct (Hall j _ Hne Hj).
  - destruct HI as [(_ & -> & _)|(k & r & Hk & Hw & _)]; [cbn; lia|].
    destruct r as [| | |s []]; cbn in Hw; destruct_and?; destruct_or?; destruct_and?; subst; cbn; lia || done.
  - intros s Hs. destruct HI as [(Hp & -> & _)|(k & r & Hk & Hw & _)].
    { destruct Hs as [?%not_elem_of_nil|[Hok _]]; [done|]. unfold settled_ok in Hok. by rewrite Hp in Hok. }
    destruct r as [| | |s' []]; cbn in Hw; [done| | | |done].
    + destruct Hw as [Hst ->], Hs as [?%not_elem_of_nil|[Hok _]]; [done|]. unfold settled_ok in Hok. by rewrite Hst in Hok.
    + destruct Hw as (Hst & _ & ->), Hs as [?%not_elem_of_nil|[Hok _]]; [done|]. unfold settled_ok in Hok. by rewrite Hst in Hok.
    + assert (s = s') as ->; [|exists k; split; [by apply Hbring|done]].
      destruct Hw as [(Hst & Hpay & ->)|(Hst & ->)], Hs as [Hin|[Hok Hs]].
      * by apply not_elem_of_nil in Hin.
      * congruence.
      * by apply list_elem_of_singleton in Hin.
      * unfold settled_ok in Hok. by rewrite Hst in Hok.
  - intros i s Hi. destruct (winner_at rs i _ c log HI Hi) as [Hw _]; [tauto|]. unfold settled, take.
    destruct Hw as [(-> & -> & ->)|(-> & ->)]; split; [done|by left|done|by right].
  - intros Hne Hall. destruct HI as [(_ & _ & Hrace)|(k & r & Hk & Hw & _)].
    { destruct rs as [|r rs]; [done|]. destruct (Hall 0%nat r eq_refl) as (s & b & ->). by destruct (Hrace 0%nat _ eq_refl). }
    destruct (Hall k r Hk) as (s & [] & ->); [|done]. unfold settled.
    destruct Hw as [(-> & _)|(-> & _)]; done.
Qed.

Lemma settles_once_witness :
  ∃ c rs, rtc race_step (race_start [Ok 7; Err ContentFailed]) (mkRace c rs [Ok 7]) ∧ settled c = true.
Proof.
  assert (∃ c rs, rtc race_step (race_start [Ok 7; Err ContentFailed]) (mkRace c rs [Ok 7]) ∧
    rs !! 0%nat = Some (Done (Ok 7) true)) as (c & rs & Hr & Hd).
  { eexists _, _. split.
    - eapply rtc_l; [by eapply (race_claim _ _ _ 0%nat)|]. eapply rtc_l; [by eapply (race_lose _ _ _ 1%nat)|].
      eapply rtc_l; [by eapply (race_write _ _ _ 0%nat)|]. eapply rtc_l; [by eapply race_cancel|].
      eapply rtc_l; [by eapply (race_publish _ _ _ 0%nat)|]. eapply rtc_l; [by eapply race_take|]. apply rtc_refl.
    - reflexivity. }
  exists c, rs. split; [done|]. exact (proj1 (proj1 (proj2 (proj2 (proj2 (settles_once _ c rs _ Hr)))) 0%nat (Ok 7) Hd)).
Defined.
