(* ===== verification/Refinement.v ===== *)
(** Progressive refinement: [src/src/compositor/refinement.cpp] and [refinement.hpp], and
    the deadline sweep of [src/src/runtime/interactive.cpp] that goes with it.

    The queue of tiles whose renders are in flight, the waves of operator tiles that wait
    for them, the gates a miss goes through before it is dispatched, the drain of what has
    settled into the cache, and the sweep that cancels what a late frame no longer wants.
    A completion is shared with the renderer that settles it, so completions live in a
    store ([Done]) and a pending tile names its own.  What a surface holds is the
    backend's: its copies and clears are parameters, as is the rectangle of a tile. *)

From S2P Require Import Prelude RationalTime Identity Geometry KeyedStore CacheKeys Completion.

Local Open Scope Z_scope.

(** [RenderResult], as far as the queue reads it; [provided] is a surface of the content's
    own, with where its pixels belong. *)
Record RenderResult (S : Type) := mkResult {
  rr_achieved_scale : double; rr_exact : bool; rr_provided : option (S * option (double * double)) }.
Arguments mkResult {S} _ _ _.
Arguments rr_achieved_scale {S} _.
Arguments rr_exact {S} _.
Arguments rr_provided {S} _.

(** [TileValue] with its [TileMeta]. *)
Record TileValue (S : Type) := mkTileValue {
  tv_surface : S; tv_achieved_scale : double; tv_exact : bool }.
Arguments mkTileValue {S} _ _ _.

(** [PendingTile]; its [stability] feeds an assertion only. *)
Record PendingTile (S : Type) := mkPending {
  pt_key : TileKey; pt_local_rect : Rect; pt_content : ObjectId; pt_bounds : option Rect;
  pt_bytes : Z; pt_surface : S; pt_done : nat }.
Arguments mkPending {S} _ _ _ _ _ _ _.
Arguments pt_key {S} _.
Arguments pt_local_rect {S} _.
Arguments pt_content {S} _.
Arguments pt_bounds {S} _.
Arguments pt_bytes {S} _.
Arguments pt_surface {S} _.
Arguments pt_done {S} _.

Record OperatorWait := mkWait { ow_output : TileKey; ow_unmet : list TileKey }.

Record RefinementQueue (S : Type) := mkQueue {
  rq_tiles : list (PendingTile S); rq_waits : list OperatorWait }.
Arguments mkQueue {S} _ _.
Arguments rq_tiles {S} _.
Arguments rq_waits {S} _.

Section refinement.
Context {S : Type}.
Notation Done := (gmap nat (Completion (RenderResult S))).
Notation TileCache := (KeyedStore TileKey (TileValue S)).
Implicit Types (queue : RefinementQueue S) (heap : Done) (pending : PendingTile S) (key output : TileKey).

(** A pending tile's completion; the queue's share keeps it alive. *)
Definition done_of heap pending : Completion (RenderResult S) :=
  default fresh_completion (heap !! pt_done pending).

(** ** The gates *)

(** What suppresses a second dispatch of the same key: a result not yet drained, or a
    render that was not cancelled. *)
Definition suppresses (c : Completion (RenderResult S)) : bool :=
  settled_ok c || (negb (settled c) && negb (cancelled c)).

Definition tile_in_flight (queue : option (RefinementQueue S)) heap key : bool :=
  match queue with
  | None => false
  | Some queue =>
      existsb (λ pending, bool_decide (pt_key pending = key) && suppresses (done_of heap pending)) (rq_tiles queue)
  end.

Definition tile_wanted queue (wanted : gset TileKey) key : bool :=
  bool_decide (key ∈ wanted) ||
  existsb (λ wait, bool_decide (ow_output wait ∈ wanted) && existsb (λ unmet, bool_decide (unmet = key)) (ow_unmet wait))
    (rq_waits queue).

Definition input_pending queue key : bool :=
  existsb (λ pending, bool_decide (pt_key pending = key)) (rq_tiles queue).

Fixpoint replace_wait (output : TileKey) (unmet : list TileKey) (waits : list OperatorWait) : option (list OperatorWait) :=
  match waits with
  | [] => None
  | wait :: waits =>
      if bool_decide (ow_output wait = output) then Some (mkWait (ow_output wait) unmet :: waits)
      else (cons wait) <$> replace_wait output unmet waits
  end.

Definition record_operator_wait queue output (unmet : list TileKey) : RefinementQueue S :=
  match unmet with
  | [] => queue
  | _ =>
      mkQueue (rq_tiles queue)
        (match replace_wait output unmet (rq_waits queue) with
         | Some waits => waits
         | None => rq_waits queue ++ [mkWait output unmet]
         end)
  end.

Definition operator_wave_pending (queue : option (RefinementQueue S)) output : bool :=
  match queue with
  | None => false
  | Some queue =>
      existsb (λ wait, bool_decide (ow_output wait = output) && existsb (input_pending queue) (ow_unmet wait)) (rq_waits queue)
  end.

Definition operator_wave_unmet (queue : option (RefinementQueue S)) output : list TileKey :=
  match queue with
  | None => []
  | Some queue =>
      concat (map (λ wait, if bool_decide (ow_output wait = output) then filter (λ key, input_pending queue key = true) (ow_unmet wait) else [])
                (rq_waits queue))
  end.

(** A render that does not answer at once is recorded under a completion of its own
    ([tile_planning.cpp]). *)
Definition record_pending queue pending : RefinementQueue S :=
  mkQueue (rq_tiles queue ++ [pending]) (rq_waits queue).

(** ** [poll_refinements] *)

Section poll.
(** [Backend::composite] of a provided surface over a tile, and [clear_tile_outside_bounds]
    at the scale of a rung; no backend, no change. *)
Context (composite : S → S → option (double * double) → Rect → double → S)
  (clear_outside : S → Rect → ScaleRung → Rect → S) (backend : bool)
  (tile_local_rect : ScaleRung → TileCoord → Rect).

Definition arrived_surface pending (result : RenderResult S) : S :=
  let surface := pt_surface pending in
  let surface :=
    match rr_provided result with
    | Some (src, origin) =>
        if backend then composite surface src origin (pt_local_rect pending) (rr_achieved_scale result) else surface
    | None => surface
    end in
  match pt_bounds pending with
  | Some bounds => if backend then clear_outside surface (pt_local_rect pending) (tk_rung (pt_key pending)) bounds else surface
  | None => surface
  end.

(** [cache.insert], whose hold is dropped at once. *)
Definition insert_arrival (cache : TileCache) pending (result : RenderResult S) : TileCache :=
  let '(cache, hold) :=
    KeyedStore.insert (pt_key pending)
      (mkTileValue (arrived_surface pending result) (rr_achieved_scale result) (rr_exact result))
      (pt_bytes pending) Visible cache in
  unpin hold cache.

Definition arrival_damage pending : Damage :=
  let when := default (mkTime 0) (tk_achieved_time (pt_key pending)) in
  mkDamage (pt_content pending) (tile_local_rect (tk_rung (pt_key pending)) (tk_coord (pt_key pending)))
    (mkTimeRange when when).

Record Poll := mkPoll {
  pl_heap : Done; pl_cache : TileCache; pl_retained : list (PendingTile S); pl_damage : list Damage;
  pl_follow_ups : nat }.

Definition poll_one (st : Poll) pending : Poll :=
  let c := done_of (pl_heap st) pending in
  if negb (settled c) then
    mkPoll (pl_heap st) (pl_cache st) (pl_retained st ++ [pending]) (pl_damage st) (pl_follow_ups st)
  else
    let '(c, settlement) := Completion.take c in
    let heap := <[pt_done pending := c]> (pl_heap st) in
    match settlement with
    | Some (Ok result) =>
        mkPoll heap (insert_arrival (pl_cache st) pending result) (pl_retained st)
          (pl_damage st ++ [arrival_damage pending]) (Datatypes.S (pl_follow_ups st))
    | _ => mkPoll heap (pl_cache st) (pl_retained st) (pl_damage st) (pl_follow_ups st)
    end.

Definition wait_open queue (wait : OperatorWait) : bool := existsb (input_pending queue) (ow_unmet wait).

(** The queue, the completions and the cache after the drain; the damage it reports and
    the follow-up frames it counts. *)
Definition poll_refinements queue heap (cache : TileCache) : RefinementQueue S * Poll :=
  let st := foldl poll_one (mkPoll heap cache [] [] 0) (rq_tiles queue) in
  let queue := mkQueue (pl_retained st) (rq_waits queue) in
  (mkQueue (rq_tiles queue) (filter (λ wait, wait_open queue wait = true) (rq_waits queue)), st).
End poll.

(** ** The deadline sweep *)

Record Sweep := mkSweep { sw_heap : Done; sw_retained : nat; sw_cancelled : nat }.

Definition sweep_one queue (wanted : gset TileKey) (st : Sweep) pending : Sweep :=
  let c := done_of (sw_heap st) pending in
  if settled c then st
  else if tile_wanted queue wanted (pt_key pending)
  then mkSweep (sw_heap st) (Datatypes.S (sw_retained st)) (sw_cancelled st)
  else mkSweep (<[pt_done pending := cancel c]> (sw_heap st)) (sw_retained st) (Datatypes.S (sw_cancelled st)).

Definition sweep queue (wanted : gset TileKey) heap : Sweep :=
  foldl (sweep_one queue wanted) (mkSweep heap 0 0) (rq_tiles queue).
End refinement.

(** ** Speculation *)

Section speculation.
Context {S : Type} (tiles_covering : ScaleRung → Rect → list TileCoord).
Notation TileCache := (KeyedStore TileKey (TileValue S)).

(** What the prefetch reads of [PlannedTile] and [LayerTilePlan]. *)
Record PlannedTile := mkPlanned { pn_key : TileKey; pn_local_rect : Rect }.
Record LayerTilePlan := mkPlan { lp_tiles : list PlannedTile; lp_rung : ScaleRung; lp_content : ObjectId }.

Definition zoom_prefetch_ring (current : ScaleRung) (local_region : Rect) (content : ObjectId) (revision : Z)
    (achieved_time : option Time) (zoom_direction : Z) : list TileKey :=
  if zoom_direction =? 0 then []
  else
    let target_rung := mkRung (rung_index current + if zoom_direction <? 0 then 1 else -1) in
    map (λ coord, mkTileKey content revision target_rung coord achieved_time) (tiles_covering target_rung local_region).

Definition prime_prefetch (cache : TileCache) (plan : LayerTilePlan) (zoom_direction pan_radius : Z) : TileCache * list TileKey :=
  let visible := map pn_key (lp_tiles plan) in
  let region := foldl (λ region tile, rect_union region (pn_local_rect tile)) Rect_default (lp_tiles plan) in
  let '(cache, pan_absent) := prime_ring cache (pan_prefetch_ring visible pan_radius) Adjacent in
  match lp_tiles plan with
  | [] => (cache, pan_absent)
  | sample :: _ =>
      let zoom := zoom_prefetch_ring (lp_rung plan) region (lp_content plan) (tk_revision (pn_key sample))
                    (tk_achieved_time (pn_key sample)) zoom_direction in
      let '(cache, zoom_absent) := prime_ring cache zoom Speculative in
      (cache, pan_absent ++ zoom_absent)
  end.

(** Both rings of a plan. *)
Definition prefetch_rings (plan : LayerTilePlan) (zoom_direction pan_radius : Z) : list TileKey * list TileKey :=
  (pan_prefetch_ring (map pn_key (lp_tiles plan)) pan_radius,
   match lp_tiles plan with
   | [] => []
   | sample :: _ =>
       zoom_prefetch_ring (lp_rung plan) (foldl (λ region tile, rect_union region (pn_local_rect tile)) Rect_default (lp_tiles plan))
         (lp_content plan) (tk_revision (pn_key sample)) (tk_achieved_time (pn_key sample)) zoom_direction
   end).

(** Speculation renders and evicts nothing: the want-list is what the rings name and the
    cache lacks, and the cache keeps its keys, its bytes and its invariant. *)
Lemma prime_prefetch_spec (cache : TileCache) holds plan zoom_direction pan_radius :
  let rings := prefetch_rings plan zoom_direction pan_radius in
  inv cache holds → room_for (Z.of_nat (length rings.1) + Z.of_nat (length rings.2)) cache holds →
  let '(cache', want) := prime_prefetch cache plan zoom_direction pan_radius in
  want = filter (λ k, d_map cache !! k = None) (rings.1 ++ rings.2) ∧
  d_map cache' = d_map cache ∧ d_resident cache' = d_resident cache ∧ d_evictions cache' = d_evictions cache ∧
  inv cache' holds.
Proof.
  cbv zeta. intros I [Htick Hpins]. unfold prime_prefetch, prefetch_rings in *. cbn [fst snd] in *.
  set (pan := pan_prefetch_ring _ _) in *. pose proof (prime_ring_spec cache holds pan Adjacent I) as Hpan.
  destruct (prime_ring cache pan Adjacent) as [cache1 pan_absent].
  destruct Hpan as (-> & P & I1); [split; [lia|done]|].
  destruct (lp_tiles plan) as [|sample tiles]; [by rewrite app_nil_r; destruct P|].
  set (zoom := zoom_prefetch_ring _ _ _ _ _ _) in *. pose proof (prime_ring_spec cache1 holds zoom Speculative I1) as Hzoom.
  destruct (prime_ring cache1 zoom Speculative) as [cache2 zoom_absent].
  destruct Hzoom as (-> & P2 & I2); [split; [|done]; pose proof (pr_tick _ _ _ _ P); lia|].
  destruct P, P2. split_and!; [|congruence..|done].
  by rewrite filter_app, pr_map.
Qed.
End speculation.

(** ** The queue as a transition system *)

Section world.
Context {S : Type}.
Notation Done := (gmap nat (Completion (RenderResult S))).
Notation TileCache := (KeyedStore TileKey (TileValue S)).
Context (composite : S → S → option (double * double) → Rect → double → S)
  (clear_outside : S → Rect → ScaleRung → Rect → S) (backend : bool)
  (tile_local_rect : ScaleRung → TileCoord → Rect).
Implicit Types (heap : Done) (p q : PendingTile S) (c : Completion (RenderResult S)) (queue : RefinementQueue S).
Notation poll := (poll_refinements composite clear_outside backend tile_local_rect).
Notation drain_one := (poll_one composite clear_outside backend tile_local_rect).
Notation put_arrival := (insert_arrival composite clear_outside backend).

Record World := mkWorld { w_queue : RefinementQueue S; w_heap : Done; w_cache : TileCache }.

(** What the renderer of a completion may do to it ([Completion.settles_once] is about the
    rest). *)
Inductive renders : Completion (RenderResult S) → Completion (RenderResult S) → Prop :=
| renders_claim c c' : claim c = Some c' → renders c c'
| renders_settle c s : d_state c = k_claimed → renders c (publish_payload (write_payload s c)).

Inductive Label :=
| LDispatch (pending : PendingTile S) | LRender | LRecord (output : TileKey) | LSweep | LPoll.

Inductive wstep : World → Label → World → Prop :=
| wstep_dispatch queue heap cache pending :
    tile_in_flight (Some queue) heap (pt_key pending) = false → heap !! pt_done pending = None →
    wstep (mkWorld queue heap cache) (LDispatch pending)
      (mkWorld (record_pending queue pending) (<[pt_done pending := fresh_completion]> heap) cache)
| wstep_render queue heap cache a c c' :
    heap !! a = Some c → renders c c' →
    wstep (mkWorld queue heap cache) LRender (mkWorld queue (<[a := c']> heap) cache)
| wstep_record queue heap cache output unmet :
    wstep (mkWorld queue heap cache) (LRecord output) (mkWorld (record_operator_wait queue output unmet) heap cache)
| wstep_sweep queue heap cache wanted :
    wstep (mkWorld queue heap cache) LSweep (mkWorld queue (sw_heap (sweep queue wanted heap)) cache)
| wstep_poll queue heap cache :
    wstep (mkWorld queue heap cache) LPoll
      (mkWorld (poll queue heap cache).1 (pl_heap (poll queue heap cache).2) (pl_cache (poll queue heap cache).2)).

(** A render somebody may still answer for: not cancelled, and not failed. *)
Definition live heap (pending : PendingTile S) : bool :=
  let c := done_of heap pending in
  negb (cancelled c) && (negb (settled c) || settled_ok c).

(** Completions are not shared between entries, are there, and are not taken while their
    entry is queued; and no key has two live renders. *)
Record world_ok (w : World) : Prop := {
  wo_distinct : NoDup (map pt_done (rq_tiles (w_queue w)));
  wo_held : ∀ p, p ∈ rq_tiles (w_queue w) → ∃ c, w_heap w !! pt_done p = Some c ∧ d_state c ≠ k_taken;
  wo_single : ∀ p q, p ∈ rq_tiles (w_queue w) → q ∈ rq_tiles (w_queue w) → pt_key p = pt_key q →
    live (w_heap w) p = true → live (w_heap w) q = true → p = q }.

(** ** The drain *)

Definition unsettled heap (p : PendingTile S) : bool := negb (settled (done_of heap p)).
Definition result_of heap (p : PendingTile S) : option (RenderResult S) :=
  match (Completion.take (done_of heap p)).2 with Some (Ok r) => Some r | _ => None end.

Definition insert_result heap (cache : TileCache) (p : PendingTile S) : TileCache :=
  match result_of heap p with Some r => put_arrival cache p r | None => cache end.

(** A pending tile is judged by its own completion. *)
Lemma done_of_other heap a c p : a ≠ pt_done p → done_of (<[a := c]> heap) p = done_of heap p.
Proof. intros Hne. unfold done_of. by rewrite lookup_insert_ne. Qed.

Lemma done_of_same heap c p : done_of (<[pt_done p := c]> heap) p = c.
Proof. unfold done_of. by rewrite lookup_insert_eq. Qed.

Record drained heap (tiles : list (PendingTile S)) (st st' : Poll) : Prop := {
  dr_retained : pl_retained st' = pl_retained st ++ filter (λ p, unsettled heap p = true) tiles;
  dr_damage : pl_damage st' = pl_damage st ++ map (arrival_damage tile_local_rect) (filter (λ p, is_Some (result_of heap p)) tiles);
  dr_follow_ups : pl_follow_ups st' = (pl_follow_ups st + length (filter (λ p, is_Some (result_of heap p)) tiles))%nat;
  dr_cache : pl_cache st' = foldl (insert_result heap) (pl_cache st) tiles;
  dr_taken : ∀ p, p ∈ tiles → unsettled heap p = false → done_of (pl_heap st') p = (Completion.take (done_of heap p)).1;
  dr_kept : ∀ p, (∀ q, q ∈ tiles → unsettled heap q = false → pt_done q ≠ pt_done p) →
    done_of (pl_heap st') p = done_of (pl_heap st) p ∧ pl_heap st' !! pt_done p = pl_heap st !! pt_done p }.

Lemma result_unsettled heap p : unsettled heap p = true → result_of heap p = None.
Proof. unfold unsettled, result_of, settled, Completion.take. by destruct (d_state _). Qed.

Lemma poll_one_step st p :
  let heap := pl_heap st in
  drain_one st p =
    (if unsettled heap p
     then mkPoll heap (pl_cache st) (pl_retained st ++ [p]) (pl_damage st) (pl_follow_ups st)
     else mkPoll (<[pt_done p := (Completion.take (done_of heap p)).1]> heap) (insert_result heap (pl_cache st) p)
            (pl_retained st)
            (pl_damage st ++ if result_of heap p then [arrival_damage tile_local_rect p] else [])
            (pl_follow_ups st + if result_of heap p then 1 else 0)%nat).
Proof.
  cbv zeta. unfold poll_one, unsettled, insert_result, result_of. cbv zeta.
  destruct (negb _); [done|]. destruct (Completion.take _) as [c [[r|e]|]]; cbn [fst snd];
    rewrite ?app_nil_r, ?Nat.add_0_r, ?Nat.add_1_r; done.
Qed.

(** The drain of a list of tiles with distinct completions, whatever it starts from. *)
Lemma poll_fold tiles : ∀ heap st,
  NoDup (map pt_done tiles) → (∀ p, p ∈ tiles → done_of (pl_heap st) p = done_of heap p) →
  drained heap tiles st (foldl drain_one st tiles).
Proof.
  induction tiles as [|p tiles IH]; intros heap st Hnd Hheap.
  { cbn. constructor; rewrite ?app_nil_r, ?Nat.add_0_r; try done; by intros p ?%not_elem_of_nil. }
  cbn in Hnd. apply NoDup_cons in Hnd as [Hp Hnd]. cbn [foldl].
  assert (∀ q, q ∈ tiles → pt_done p ≠ pt_done q) as Hother.
  { intros q Hq E. apply Hp. rewrite E. apply list_elem_of_In, in_map, list_elem_of_In, Hq. }
  assert (unsettled (pl_heap st) p = unsettled heap p ∧ result_of (pl_heap st) p = result_of heap p
    ∧ insert_result (pl_heap st) (pl_cache st) p = insert_result heap (pl_cache st) p
    ∧ done_of (pl_heap st) p = done_of heap p) as (Eu & Er & Ei & Ed).
  { unfold unsettled, insert_result, result_of. rewrite (Hheap p) by (by left). done. }
  rewrite poll_one_step. cbv zeta. rewrite Eu, Er, Ei, Ed. destruct (unsettled heap p) eqn:Hu.
  - pose proof (result_unsettled heap p Hu) as Hr.
    destruct (IH heap (mkPoll (pl_heap st) (pl_cache st) (pl_retained st ++ [p]) (pl_damage st) (pl_follow_ups st)))
      as [H1 H2 H3 H4 H5 H6]; [done|intros q Hq; apply Hheap; by right|]. cbn in *.
    assert (insert_result heap (pl_cache st) p = pl_cache st) as Eins by (unfold insert_result; by rewrite Hr).
    assert (¬ is_Some (result_of heap p)) as Hnone by (rewrite Hr; by intros [? ?]).
    constructor; rewrite ?(filter_cons_True _ p), ?(filter_cons_False _ p) by done.
    + by rewrite H1, <- (assoc_L _).
    + done.
    + done.
    + cbn [foldl]. by rewrite Eins.
    + intros q [->|Hq]%elem_of_cons Hq'; [congruence|by apply H5].
    + intros q Hq. apply H6. intros q' Hq'. apply Hq. by right.
  - destruct (IH heap (mkPoll (<[pt_done p := (Completion.take (done_of heap p)).1]> (pl_heap st)) (insert_result heap (pl_cache st) p)
        (pl_retained st) (pl_damage st ++ if result_of heap p then [arrival_damage tile_local_rect p] else [])
        (pl_follow_ups st + if result_of heap p then 1 else 0)%nat)) as [H1 H2 H3 H4 H5 H6]; [done| |].
    { intros q Hq. cbn. rewrite done_of_other by (by apply Hother). apply Hheap. by right. }
    cbn in *. constructor; rewrite ?(filter_cons_False _ p) by congruence.
    + done.
    + rewrite H2. destruct (result_of heap p) eqn:Hr.
      * rewrite filter_cons_True by (by rewrite Hr). cbn. by rewrite <- (assoc_L _).
      * rewrite filter_cons_False by (rewrite Hr; by intros [? ?]). by rewrite app_nil_r.
    + rewrite H3. destruct (result_of heap p) eqn:Hr.
      * rewrite filter_cons_True by (by rewrite Hr). cbn. lia.
      * rewrite filter_cons_False by (rewrite Hr; by intros [? ?]). lia.
    + done.
    + intros q [->|Hq]%elem_of_cons Hq'; [|by apply H5].
      destruct (H6 p) as [-> _]; [|apply done_of_same]. intros q Hq _ E. by apply (Hother q).
    + intros q Hq. assert (pt_done p ≠ pt_done q) as Hne by (apply Hq; [by left|done]).
      destruct (H6 q) as [-> ->]; [intros q' Hq'; apply Hq; by right|].
      split; [by apply done_of_other|by rewrite lookup_insert_ne].
Qed.

Lemma poll_drained queue heap (cache : TileCache) :
  NoDup (map pt_done (rq_tiles queue)) →
  drained heap (rq_tiles queue) (mkPoll heap cache [] [] 0) (poll queue heap cache).2 ∧
  rq_tiles (poll queue heap cache).1 = pl_retained (poll queue heap cache).2.
Proof. intros Hnd. split; [by apply poll_fold|done]. Qed.

(** ** The sweep *)

Definition swept (wanted : TileKey → bool) heap p : Completion (RenderResult S) :=
  let c := done_of heap p in if settled c || wanted (pt_key p) then c else cancel c.

Record sweeps (wanted : TileKey → bool) heap (tiles : list (PendingTile S)) (st st' : Sweep) : Prop := {
  sp_done : ∀ p, p ∈ tiles → done_of (sw_heap st') p = swept wanted heap p;
  sp_held : ∀ p, is_Some (sw_heap st !! pt_done p) → is_Some (sw_heap st' !! pt_done p);
  sp_other : ∀ p, pt_done p ∉ map pt_done tiles → sw_heap st' !! pt_done p = sw_heap st !! pt_done p;
  sp_retained : sw_retained st' = (sw_retained st + length (filter (λ p, unsettled heap p && wanted (pt_key p) = true) tiles))%nat;
  sp_cancelled : sw_cancelled st' = (sw_cancelled st + length (filter (λ p, unsettled heap p && negb (wanted (pt_key p)) = true) tiles))%nat }.

Lemma sweep_one_step queue wanted st p :
  let heap := sw_heap st in
  let want := tile_wanted queue wanted (pt_key p) in
  sweep_one queue wanted st p =
    mkSweep (if unsettled heap p && negb want then <[pt_done p := swept (tile_wanted queue wanted) heap p]> heap else heap)
      (sw_retained st + if unsettled heap p && want then 1 else 0)%nat
      (sw_cancelled st + if unsettled heap p && negb want then 1 else 0)%nat.
Proof.
  cbv zeta. unfold sweep_one, unsettled, swept. cbv zeta. destruct st as [heap r n]. cbn [sw_heap sw_retained sw_cancelled].
  destruct (settled _); cbn [negb andb orb]; [by rewrite !Nat.add_0_r|].
  destruct (tile_wanted _ _ _); cbn [negb]; by rewrite ?Nat.add_0_r, ?Nat.add_1_r.
Qed.

Lemma swept_kept wanted heap p : unsettled heap p && negb (wanted (pt_key p)) = false → swept wanted heap p = done_of heap p.
Proof. unfold swept, unsettled. by destruct (settled _), (wanted _). Qed.

Lemma sweep_fold queue wanted tiles : ∀ heap st,
  NoDup (map pt_done tiles) → (∀ p, p ∈ tiles → done_of (sw_heap st) p = done_of heap p) →
  sweeps (tile_wanted queue wanted) heap tiles st (foldl (sweep_one queue wanted) st tiles).
Proof.
  induction tiles as [|p tiles IH]; intros heap st Hnd Hheap.
  { cbn. constructor; rewrite ?Nat.add_0_r; try done. by intros p ?%not_elem_of_nil. }
  cbn in Hnd. apply NoDup_cons in Hnd as [Hp Hnd]. cbn [foldl].
  assert (∀ q, q ∈ tiles → pt_done p ≠ pt_done q) as Hother.
  { intros q Hq E. apply Hp. rewrite E. apply list_elem_of_In, in_map, list_elem_of_In, Hq. }
  pose proof (Hheap p ltac:(by left)) as Ed.
  assert (unsettled (sw_heap st) p = unsettled heap p) as Eu by (unfold unsettled; by rewrite Ed).
  assert (swept (tile_wanted queue wanted) (sw_heap st) p = swept (tile_wanted queue wanted) heap p) as Es
    by (unfold swept; by rewrite Ed).
  rewrite sweep_one_step. cbv zeta. rewrite Eu, Es. set (want := tile_wanted queue wanted) in *. clearbody want.
  set (heap1 := if _ : bool then <[pt_done p := _]> _ else sw_heap st) at 1.
  assert (done_of heap1 p = swept want heap p ∧ (∀ a, a ≠ pt_done p → heap1 !! a = sw_heap st !! a)
    ∧ (∀ a, is_Some (sw_heap st !! a) → is_Some (heap1 !! a))) as (H1 & H2 & H3).
  { unfold heap1. destruct (unsettled heap p && negb (want (pt_key p))) eqn:Hc.
    - split_and!; [apply done_of_same|intros a Ha; by apply lookup_insert_ne|].
      intros a Ha. destruct (decide (pt_done p = a)) as [<-|]; [rewrite lookup_insert_eq; eauto|by rewrite lookup_insert_ne].
    - rewrite swept_kept by done. by split_and!. }
  clearbody heap1.
  edestruct (IH heap) as [S1 S2 S3 S4 S5]; [done| |].
  2: constructor; [..|rewrite S4|rewrite S5]; cbn [sw_heap sw_retained sw_cancelled].
  { intros q Hq. cbn [sw_heap]. unfold done_of. rewrite H2 by (apply not_eq_sym, Hother, Hq).
    apply (Hheap q). by right. }
  - intros q [->|Hq]%elem_of_cons; [|by apply S1].
    unfold done_of at 1. rewrite S3; [exact H1|]. done.
  - intros q Hq. apply S2. cbn. by apply H3.
  - intros q [Hne Hq]%not_elem_of_cons. rewrite S3 by done. cbn. by apply H2.
  - destruct (unsettled heap p && want (pt_key p)) eqn:Hc.
    + rewrite filter_cons_True by done. cbn. lia.
    + rewrite filter_cons_False by (by rewrite Hc). lia.
  - destruct (unsettled heap p && negb (want (pt_key p))) eqn:Hc.
    + rewrite filter_cons_True by done. cbn. lia.
    + rewrite filter_cons_False by (by rewrite Hc). lia.
Qed.

(** ** One render in flight *)

Lemma in_flight_spec queue heap key :
  tile_in_flight (Some queue) heap key = true ↔
  ∃ p, p ∈ rq_tiles queue ∧ pt_key p = key ∧ suppresses (done_of heap p) = true.
Proof.
  cbn. rewrite existsb_exists. setoid_rewrite andb_true_iff. setoid_rewrite bool_decide_eq_true.
  setoid_rewrite <- list_elem_of_In. done.
Qed.

Lemma live_suppresses heap p : live heap p = true → suppresses (done_of heap p) = true.
Proof.
  unfold live, suppresses. cbv zeta. rewrite andb_true_iff, !orb_true_iff, andb_true_iff.
  intros [Hc [Hs|Hs]]; [by right|by left].
Qed.

Lemma distinct_done (tiles : list (PendingTile S)) p q :
  NoDup (map pt_done tiles) → p ∈ tiles → q ∈ tiles → pt_done p = pt_done q → p = q.
Proof.
  intros Hnd (i & Hi)%list_elem_of_lookup (j & Hj)%list_elem_of_lookup E.
  assert (i = j) as ->; [|congruence]. eapply (NoDup_lookup (pt_done <$> tiles)); [done| |].
  - by rewrite list_lookup_fmap, Hi.
  - by rewrite list_lookup_fmap, Hj, E.
Qed.

(** Fewer entries, held as before, no render come alive: still fine. *)
Lemma world_ok_shrinks w w' :
  world_ok w → sublist (rq_tiles (w_queue w')) (rq_tiles (w_queue w)) →
  (∀ p, p ∈ rq_tiles (w_queue w') → (∃ c, w_heap w' !! pt_done p = Some c ∧ d_state c ≠ k_taken) ∧
    (live (w_heap w') p = true → live (w_heap w) p = true)) →
  world_ok w'.
Proof.
  intros [Hd Hh Hs] Hsub Hk. assert (∀ p, p ∈ rq_tiles (w_queue w') → p ∈ rq_tiles (w_queue w)) as Hin.
  { intros p Hp. eapply elem_of_submseteq; [exact Hp|by apply sublist_submseteq]. }
  constructor.
  - eapply sublist_NoDup; [exact Hd|]. by apply (fmap_sublist pt_done).
  - intros p Hp. by apply Hk.
  - intros p q Hp Hq E Lp Lq. apply Hs; [by apply Hin..|done| |]; by apply Hk.
Qed.

Lemma renders_kind c c' :
  renders c c' → d_state c' ≠ k_taken ∧ cancelled c' = cancelled c ∧ settled c = false.
Proof.
  intros [c0 c1 Hc|c0 s Hs]; unfold settled.
  - unfold claim in Hc. destruct (d_state c0) eqn:E; simplify_eq. done.
  - by rewrite Hs.
Qed.

Lemma poll_keeps_unsettled queue heap (cache : TileCache) p :
  NoDup (map pt_done (rq_tiles queue)) → p ∈ rq_tiles queue → unsettled heap p = true →
  pl_heap (poll queue heap cache).2 !! pt_done p = heap !! pt_done p.
Proof.
  intros Hnd Hp Hu. destruct (poll_drained queue heap cache Hnd) as [Hdr _].
  destruct (dr_kept _ _ _ _ Hdr p) as [_ ->]; [|done]. intros q Hq Hqu E.
  rewrite (distinct_done (rq_tiles queue) q p) in Hqu by done. congruence.
Qed.

Lemma poll_tiles queue heap (cache : TileCache) :
  NoDup (map pt_done (rq_tiles queue)) →
  rq_tiles (poll queue heap cache).1 = filter (λ p, unsettled heap p = true) (rq_tiles queue).
Proof.
  intros Hnd. destruct (poll_drained queue heap cache Hnd) as [Hdr ->]. by rewrite (dr_retained _ _ _ _ Hdr).
Qed.

Lemma world_ok_step w l w' : wstep w l w' → world_ok w → world_ok w'.
Proof.
  intros [queue heap cache pending Hfl Hfresh|queue heap cache a c c' Ha Hr|queue heap cache output unmet
         |queue heap cache wanted|queue heap cache] HI.
  - destruct HI as [Hd Hh Hs]. cbn in *.
    assert (∀ p, p ∈ rq_tiles queue → pt_done pending ≠ pt_done p) as Hne.
    { intros p Hp E. destruct (Hh p Hp) as (c & Hc & _). congruence. }
    assert (∀ p, p ∈ rq_tiles queue → live (<[pt_done pending := fresh_completion]> heap) p = live heap p) as Hl.
    { intros p Hp. unfold live. by rewrite done_of_other by (by apply Hne). }
    assert (∀ p, p ∈ rq_tiles queue → pt_key p = pt_key pending → live heap p = true → False) as Hno.
    { intros p Hp E Lp. apply not_true_iff_false in Hfl. apply Hfl, in_flight_spec. exists p.
      split_and!; [done|done|]. by apply live_suppresses. }
    constructor; cbn.
    + rewrite map_app. apply NoDup_app. split_and!; [done| |apply NoDup_singleton].
      intros x Hx ->%list_elem_of_singleton. apply list_elem_of_fmap in Hx as (p & E & Hp). by apply (Hne p).
    + intros p [Hp| ->%list_elem_of_singleton]%elem_of_app.
      * rewrite lookup_insert_ne by (by apply Hne). by apply Hh.
      * exists fresh_completion. by rewrite lookup_insert_eq.
    + intros p q [Hp| ->%list_elem_of_singleton]%elem_of_app [Hq| ->%list_elem_of_singleton]%elem_of_app E Lp Lq.
      * rewrite Hl in Lp, Lq by done. by apply Hs.
      * rewrite Hl in Lp by done. by destruct (Hno p).
      * rewrite Hl in Lq by done. by destruct (Hno q).
      * done.
  - eapply world_ok_shrinks; [exact HI|done|]. cbn. intros p Hp. destruct (renders_kind c c' Hr) as (Ht & Ec & Es).
    destruct (decide (a = pt_done p)) as [->|Hne].
    + split; [exists c'; by rewrite lookup_insert_eq|]. unfold live. rewrite done_of_same. cbv zeta. rewrite Ec.
      assert (done_of heap p = c) as -> by (unfold done_of; by rewrite Ha). rewrite Es. by destruct (cancelled c).
    + unfold live. rewrite done_of_other, lookup_insert_ne by done. split; [by apply HI|done].
  - eapply world_ok_shrinks; [exact HI| |intros p Hp; split; [|done]]; cbn in *; unfold record_operator_wait in *;
      destruct unmet; try done; apply HI, Hp.
  - pose proof (sweep_fold queue wanted (rq_tiles queue) heap (mkSweep heap 0 0) (wo_distinct _ HI) (λ _ _, eq_refl)) as Hsw.
    eapply world_ok_shrinks; [exact HI|done|]. cbn. intros p Hp. destruct (wo_held _ HI p Hp) as (c & Hc & Ht). cbn in Hc.
    pose proof (sp_done _ _ _ _ _ Hsw p Hp) as Hdone.
    destruct (sp_held _ _ _ _ _ Hsw p) as [c' Hc']; [by exists c|].
    assert (done_of (sw_heap (sweep queue wanted heap)) p = c') as Ec' by (unfold done_of, sweep; by rewrite Hc').
    assert (done_of heap p = c) as Ec by (unfold done_of; by rewrite Hc).
    fold (sweep queue wanted heap) in Hdone. rewrite Ec' in Hdone. unfold swept in Hdone. rewrite Ec in Hdone.
    unfold live. rewrite Ec, Ec'. subst c'. cbv zeta. destruct (settled c || _); [split; [by exists c|done]|].
    split; [by exists (cancel c)|done].
  - eapply world_ok_shrinks; [exact HI| |]; cbn [w_queue w_heap]; rewrite poll_tiles by apply HI; [apply sublist_filter|].
    intros p [Hu Hp]%list_elem_of_filter.
    pose proof (poll_keeps_unsettled queue heap cache p (wo_distinct _ HI) Hp Hu) as E.
    split; [rewrite E; by apply HI|]. unfold live, done_of. by rewrite E.
Qed.

(** ** A wave, along a run *)

Lemma replace_wait_other output o unmet waits waits' w :
  replace_wait output unmet waits = Some waits' → o ≠ output → ow_output w = o → w ∈ waits' → w ∈ waits.
Proof.
  intros Hr Ho Hw. revert waits' Hr. induction waits as [|w0 waits IH]; intros waits' Hr; cbn in Hr; [done|].
  case_bool_decide as He.
  - injection Hr as <-. intros [->|Hin]%elem_of_cons; [cbn in Hw; congruence|by right].
  - destruct (replace_wait output unmet waits) as [ws|]; [|done]. injection Hr as <-.
    intros [->|Hin]%elem_of_cons; [by left|right]. by eapply IH.
Qed.

Lemma record_wait_other queue output unmet w :
  ow_output w ≠ output → w ∈ rq_waits (record_operator_wait queue output unmet) → w ∈ rq_waits queue.
Proof.
  intros Ho. unfold record_operator_wait. destruct unmet as [|k unmet]; [done|]. cbn [rq_waits].
  destruct (replace_wait _ _ _) as [ws|] eqn:Hr; [by eapply replace_wait_other|].
  intros [?| ->%list_elem_of_singleton]%elem_of_app; done.
Qed.

Lemma step_waits w l w' wait :
  wstep w l w' → l ≠ LRecord (ow_output wait) → wait ∈ rq_waits (w_queue w') → wait ∈ rq_waits (w_queue w).
Proof.
  intros Hs Hl. destruct Hs; cbn [w_queue]; [done|done| |done|].
  - apply record_wait_other. congruence.
  - unfold poll_refinements. cbn [fst rq_waits]. by intros [_ ?]%list_elem_of_filter.
Qed.

Lemma step_entries w l w' p :
  world_ok w → wstep w l w' → (∀ p', l = LDispatch p' → pt_key p ≠ pt_key p') →
  p ∈ rq_tiles (w_queue w') → p ∈ rq_tiles (w_queue w).
Proof.
  intros HI Hs Hl. destruct Hs; cbn [w_queue].
  - cbn. intros [?| ->%list_elem_of_singleton]%elem_of_app; [done|]. by destruct (Hl pending).
  - done.
  - unfold record_operator_wait. by destruct unmet.
  - done.
  - rewrite poll_tiles by apply HI. by intros [_ ?]%list_elem_of_filter.
Qed.

(** A settled entry stays settled as long as it is queued, and the next poll drains it. *)
Lemma step_settled w l w' p :
  world_ok w → wstep w l w' → p ∈ rq_tiles (w_queue w) → unsettled (w_heap w) p = false →
  p ∈ rq_tiles (w_queue w') → unsettled (w_heap w') p = false ∧ l ≠ LPoll.
Proof.
  intros HI Hs Hp Hu. destruct Hs as [queue heap cache pending Hfl Hfresh|queue heap cache a c c' Ha Hr|
    queue heap cache output unmet|queue heap cache wanted|queue heap cache]; cbn [w_queue w_heap] in *; intros Hp'.
  - split; [|done]. unfold unsettled. rewrite done_of_other; [done|]. intros E.
    destruct (wo_held _ HI p Hp) as (c & Hc & _). cbn in Hc. congruence.
  - split; [|done]. destruct (renders_kind c c' Hr) as (_ & _ & Es). unfold unsettled in *.
    rewrite done_of_other; [done|]. intros ->. unfold done_of in Hu. rewrite Ha in Hu. cbn in Hu. by rewrite Es in Hu.
  - done.
  - split; [|done]. pose proof (sweep_fold queue wanted (rq_tiles queue) heap (mkSweep heap 0 0) (wo_distinct _ HI) (λ _ _, eq_refl)) as Hsw.
    unfold unsettled, sweep in *. rewrite (sp_done _ _ _ _ _ Hsw p Hp). unfold swept. cbv zeta.
    apply negb_false_iff in Hu. rewrite Hu. cbn. by rewrite Hu.
  - rewrite poll_tiles in Hp' by apply HI. apply list_elem_of_filter in Hp' as [Hu' _]. congruence.
Qed.

Section run.
Context (run : nat → World) (label : nat → Label).
Hypothesis Hstart : world_ok (run 0%nat).
Hypothesis Hrun : ∀ n, wstep (run n) (label n) (run (n + 1)%nat).

Definition queued (n : nat) p : Prop := p ∈ rq_tiles (w_queue (run n)).

(** The renderers' duty: what is queued is settled in the end. *)
Definition renderers_settle : Prop :=
  ∀ n p, queued n p → ∃ m, (n <= m)%nat ∧ (queued m p → unsettled (w_heap (run m)) p = false).
(** The frame loop's: polls keep coming. *)
Definition polls_recur : Prop := ∀ n, ∃ m, (n <= m)%nat ∧ label m = LPoll.

Hypothesis Hsettle : renderers_settle.
Hypothesis Hpoll : polls_recur.

Lemma run_ok n : world_ok (run n).
Proof.
  induction n as [|n IH]; [done|]. pose proof (Hrun n) as Hs. rewrite Nat.add_1_r in Hs. by eapply world_ok_step.
Qed.

Context (n0 : nat) (quiet : TileKey → Prop).
Hypothesis Hquiet : ∀ m p, (n0 <= m)%nat → label m = LDispatch p → ¬ quiet (pt_key p).

Lemma entries_shrink m p k : (n0 <= m)%nat → quiet (pt_key p) → queued (m + k) p → queued m p.
Proof.
  intros Hm Hq. induction k as [|k IH]; [by rewrite Nat.add_0_r|]. intros Hin. apply IH.
  pose proof (Hrun (m + k)) as Hs. rewrite <- Nat.add_assoc, Nat.add_1_r in Hs.
  eapply step_entries; [apply run_ok|exact Hs| |exact Hin].
  intros p' Hl E. apply (Hquiet (m + k) p'); [lia|done|]. by rewrite <- E.
Qed.

Lemma settled_until_drained m p k :
  (n0 <= m)%nat → quiet (pt_key p) → queued m p → unsettled (w_heap (run m)) p = false → queued (m + k) p →
  unsettled (w_heap (run (m + k)%nat)) p = false ∧ ∀ j, (j < k)%nat → label (m + j)%nat ≠ LPoll.
Proof.
  intros Hm Hq Hin Hu. induction k as [|k IH]; intros Hk; [rewrite Nat.add_0_r; split; [done|lia]|].
  assert (queued (m + k) p) as Hk'.
  { apply (entries_shrink (m + k) p 1); [lia|done|]. by rewrite <- Nat.add_assoc, Nat.add_1_r. }
  destruct (IH Hk') as [Hu' Hno]. pose proof (Hrun (m + k)) as Hs. rewrite <- Nat.add_assoc, Nat.add_1_r in Hs.
  destruct (step_settled _ _ _ p (run_ok _) Hs Hk' Hu' Hk) as [Hu'' Hl]. split; [done|].
  intros j Hj. destruct (decide (j = k)) as [->|]; [done|]. apply Hno. lia.
Qed.

Lemma entry_leaves p : queued n0 p → ∃ M, (n0 <= M)%nat ∧ ∀ m, (M <= m)%nat → quiet (pt_key p) → ¬ queued m p.
Proof.
  intros Hin. destruct (Hsettle n0 p Hin) as (m1 & H1 & Hset). destruct (Hpoll m1) as (m2 & H2 & Hl).
  exists (m2 + 1)%nat. split; [lia|]. intros m Hm Hq Hqm.
  replace m with (m1 + (m - m1))%nat in Hqm by lia.
  assert (queued m1 p) as Hq1 by (by apply (entries_shrink m1 p (m - m1))).
  destruct (settled_until_drained m1 p (m - m1) H1 Hq Hq1 (Hset Hq1) Hqm) as [_ Hno].
  apply (Hno (m2 - m1)%nat); [lia|]. by replace (m1 + (m2 - m1))%nat with m2 by lia.
Qed.

Lemma entries_leave (tiles : list (PendingTile S)) :
  (∀ p, p ∈ tiles → queued n0 p) →
  ∃ M, (n0 <= M)%nat ∧ ∀ m p, (M <= m)%nat → p ∈ tiles → quiet (pt_key p) → ¬ queued m p.
Proof.
  induction tiles as [|p tiles IH]; intros Hin.
  { exists n0. split; [done|]. by intros m p _ ?%not_elem_of_nil. }
  destruct IH as (M1 & H1 & Hl1); [intros q Hq; apply Hin; by right|].
  destruct (entry_leaves p) as (M2 & H2 & Hl2); [apply Hin; by left|].
  exists (M1 + M2)%nat. split; [lia|]. intros m q Hm [->|Hq]%elem_of_cons Hk; [apply Hl2|apply Hl1]; done || lia.
Qed.

Lemma waits_stay output m k :
  (n0 <= m)%nat → (∀ j, (n0 <= j)%nat → label j ≠ LRecord output) →
  ∀ w, ow_output w = output → w ∈ rq_waits (w_queue (run (m + k)%nat)) → w ∈ rq_waits (w_queue (run m)).
Proof.
  intros Hm Hl w Hw. induction k as [|k IH]; [by rewrite Nat.add_0_r|]. intros Hin. apply IH.
  pose proof (Hrun (m + k)) as Hs. rewrite <- Nat.add_assoc, Nat.add_1_r in Hs.
  eapply step_waits; [exact Hs| |exact Hin]. rewrite Hw. apply Hl. lia.
Qed.
End run.

Lemma wave_pending_spec queue output :
  operator_wave_pending (Some queue) output = true ↔
  ∃ w k p, w ∈ rq_waits queue ∧ ow_output w = output ∧ k ∈ ow_unmet w ∧ p ∈ rq_tiles queue ∧ pt_key p = k.
Proof.
  cbn. rewrite existsb_exists. setoid_rewrite andb_true_iff. setoid_rewrite bool_decide_eq_true.
  setoid_rewrite existsb_exists. unfold input_pending. setoid_rewrite existsb_exists. setoid_rewrite bool_decide_eq_true.
  setoid_rewrite <- list_elem_of_In. naive_solver.
Qed.
End world.

Lemma filter_partition {A} (a b : A → bool) l :
  (0 + length (filter (λ x, a x && b x = true) l) + (0 + length (filter (λ x, a x && negb (b x) = true) l)))%nat
    = length (filter (λ x, a x = true) l).
Proof.
  cbn. induction l as [|x l IH]; [done|]. rewrite !filter_cons.
  destruct (a x), (b x); cbn [andb negb]; repeat case_decide; try done; cbn [length]; lia.
Qed.

(** ** Properties *)

Section properties.
Context {T : Type} (composite : T → T → option (double * double) → Rect → double → T)
  (clear_outside : T → Rect → ScaleRung → Rect → T) (backend : bool)
  (tile_local_rect : ScaleRung → TileCoord → Rect).
Notation World := (World (S := T)).
Notation wstep := (wstep composite clear_outside backend tile_local_rect).
Notation poll := (poll_refinements composite clear_outside backend tile_local_rect).

Definition moves (w w' : World) : Prop := ∃ l, wstep w l w'.
Definition idle cache : World := mkWorld (mkQueue [] []) ∅ cache.

Lemma idle_ok cache : world_ok (idle cache).
Proof. constructor; cbn; [apply NoDup_nil_2|by intros p ?%not_elem_of_nil|by intros p q ?%not_elem_of_nil]. Qed.

Lemma moves_ok w w' : rtc moves w w' → world_ok w → world_ok w'.
Proof. induction 1 as [|w1 w2 w3 [l Hs] _ IH]; [done|]. intros HI. apply IH. by eapply world_ok_step. Qed.


(** a poll drains exactly what has settled: the unsettled entries stay, in order; each
    entry settled with a result is inserted into the cache under its key, in order, and
    reported as damage of its tile, one follow-up frame each; a failed one is dropped; no
    settlement can be taken again.  After it a key is held back only while a render of it is
    under way that nobody cancelled, so no tile waits for an answer that cannot come. *)
Theorem poll_drains (queue : RefinementQueue T) (heap : gmap nat (Completion (RenderResult T)))
    (cache : KeyedStore TileKey (TileValue T)) (Hdistinct : NoDup (map pt_done (rq_tiles queue))) :
  let '(queue', st) := poll queue heap cache in
  let arrived := filter (λ p, is_Some (result_of heap p)) (rq_tiles queue) in
  rq_tiles queue' = filter (λ p, unsettled heap p = true) (rq_tiles queue) ∧
  pl_damage st = map (arrival_damage tile_local_rect) arrived ∧ pl_follow_ups st = length arrived ∧
  pl_cache st = foldl (insert_result composite clear_outside backend heap) cache (rq_tiles queue) ∧
  (∀ wait, wait ∈ rq_waits queue' ↔ wait ∈ rq_waits queue ∧ ∃ key, key ∈ ow_unmet wait ∧ input_pending queue' key = true) ∧
  (∀ p, p ∈ rq_tiles queue → settled (done_of heap p) = true → (Completion.take (done_of (pl_heap st) p)).2 = None) ∧
  (∀ key, tile_in_flight (Some queue') (pl_heap st) key = true ↔
    ∃ p, p ∈ rq_tiles queue ∧ pt_key p = key ∧ settled (done_of heap p) = false ∧ cancelled (done_of heap p) = false).
Proof.
  destruct (poll_drained composite clear_outside backend tile_local_rect queue heap cache Hdistinct) as [Hdr Htiles].
  pose proof (poll_tiles composite clear_outside backend tile_local_rect queue heap cache Hdistinct) as Hfilter.
  pose proof (λ p, poll_keeps_unsettled composite clear_outside backend tile_local_rect queue heap cache p Hdistinct) as Hkeep.
  destruct (poll queue heap cache) as [queue' st] eqn:Hpoll. cbn [fst snd] in *.
  split_and!; [done|apply Hdr|apply Hdr|apply Hdr| | |].
  - intros wait. unfold poll_refinements in Hpoll. injection Hpoll as <- <-. cbn [rq_waits rq_tiles].
    rewrite list_elem_of_filter. unfold wait_open. rewrite existsb_exists. setoid_rewrite list_elem_of_In. tauto.
  - intros p Hp Hs. rewrite (dr_taken _ _ _ _ _ _ _ _ Hdr p Hp) by (unfold unsettled; by rewrite Hs).
    unfold settled, Completion.take in *. by destruct (d_state (done_of heap p)) eqn:E; cbn; rewrite ?E.
  - intros key. rewrite in_flight_spec. rewrite Hfilter. split.
    + intros (p & [Hu Hp]%list_elem_of_filter & Hk & Hsup). exists p.
      assert (done_of (pl_heap st) p = done_of heap p) as E by (unfold done_of; by rewrite Hkeep).
      unfold unsettled in Hu. apply negb_true_iff in Hu. rewrite E in Hsup. unfold suppresses in Hsup.
      assert (settled_ok (done_of heap p) = false) as Hok.
      { unfold settled, settled_ok in *. by destruct (d_state _). }
      rewrite Hok, Hu in Hsup. cbn in Hsup. apply negb_true_iff in Hsup. done.
    + intros (p & Hp & Hk & Hu & Hc). exists p.
      assert (unsettled heap p = true) as Hu' by (unfold unsettled; by rewrite Hu).
      assert (done_of (pl_heap st) p = done_of heap p) as E by (unfold done_of; by rewrite Hkeep).
      split; [by apply list_elem_of_filter|]. split; [done|]. rewrite E. unfold suppresses. rewrite Hu, Hc. apply orb_true_r.
Qed.

(** an expired deadline cancels what the frame no longer wants and nothing else: a
    pending tile is cancelled exactly if it is unsettled and not wanted, the counters
    partition the unsettled, no wanted tile's gate opens to a second render, and the inputs
    a wanted operator tile waits for are themselves wanted. *)
Theorem sweep_spares_wanted (queue : RefinementQueue T) (wanted : gset TileKey)
    (heap : gmap nat (Completion (RenderResult T))) (Hdistinct : NoDup (map pt_done (rq_tiles queue))) :
  let st := sweep queue wanted heap in
  (∀ p, p ∈ rq_tiles queue →
    settled (done_of (sw_heap st) p) = settled (done_of heap p) ∧
    cancelled (done_of (sw_heap st) p)
      = cancelled (done_of heap p) || (unsettled heap p && negb (tile_wanted queue wanted (pt_key p)))) ∧
  (sw_retained st + sw_cancelled st)%nat = length (filter (λ p, unsettled heap p = true) (rq_tiles queue)) ∧
  (∀ key, tile_wanted queue wanted key = true →
    tile_in_flight (Some queue) (sw_heap st) key = tile_in_flight (Some queue) heap key) ∧
  (∀ wait key, wait ∈ rq_waits queue → ow_output wait ∈ wanted → key ∈ ow_unmet wait → tile_wanted queue wanted key = true).
Proof.
  cbv zeta. pose proof (sweep_fold queue wanted (rq_tiles queue) heap (mkSweep heap 0 0) Hdistinct (λ _ _, eq_refl)) as [Hd _ _ Hr Hc].
  change (foldl (sweep_one queue wanted) (mkSweep heap 0 0) (rq_tiles queue)) with (sweep queue wanted heap) in *.
  split_and!.
  - intros p Hp. rewrite (Hd p Hp). unfold swept, unsettled. cbv zeta.
    destruct (settled (done_of heap p)) eqn:Es, (tile_wanted queue wanted (pt_key p)); cbn;
      by rewrite ?Es, ?orb_false_r, ?orb_true_r.
  - rewrite Hr, Hc. cbn [sw_retained sw_cancelled]. apply (filter_partition (unsettled heap)).
  - intros key Hw. apply eq_true_iff_eq. rewrite !in_flight_spec.
    assert (∀ p, p ∈ rq_tiles queue → pt_key p = key → done_of (sw_heap (sweep queue wanted heap)) p = done_of heap p) as E.
    { intros p Hp Hk. rewrite (Hd p Hp). unfold swept. by rewrite Hk, Hw, orb_true_r. }
    split; intros (p & Hp & Hk & Hs); exists p; (split; [done|split; [done|]]); [rewrite <- E|rewrite E]; done.
  - intros wait key Hwait Hout Hkey. unfold tile_wanted. apply orb_true_iff. right. apply existsb_exists.
    exists wait. rewrite <- list_elem_of_In. split; [done|]. rewrite bool_decide_eq_true_2 by done. cbn.
    apply existsb_exists. exists key. rewrite <- list_elem_of_In, bool_decide_eq_true. done.
Qed.

(** C20: a refinement wave always ends: along any run in which renderers settle what they
    took on and polls keep coming, an operator tile's gate is open from some point on,
    whatever else is dispatched, recorded, cancelled or swept meanwhile, as long as the
    operator is not rendered again nor the inputs it waits for dispatched anew. *)
Theorem wave_ends (run : nat → World) (label : nat → Label (S := T)) (n0 : nat) (output : TileKey)
    (Hstart : world_ok (run 0%nat)) (Hrun : ∀ n, wstep (run n) (label n) (run (n + 1)%nat))
    (Hsettle : renderers_settle run) (Hpolls : polls_recur label)
    (Hnot_again : ∀ m, (n0 <= m)%nat → label m ≠ LRecord output)
    (Hnot_anew : ∀ m p wait, (n0 <= m)%nat → label m = LDispatch p → wait ∈ rq_waits (w_queue (run n0)) →
       ow_output wait = output → pt_key p ∉ ow_unmet wait) :
  ∃ M, ∀ m, (M <= m)%nat → operator_wave_pending (Some (w_queue (run m))) output = false.
Proof.
  set (quiet := λ key, ∃ wait, wait ∈ rq_waits (w_queue (run n0)) ∧ ow_output wait = output ∧ key ∈ ow_unmet wait).
  assert (∀ m p, (n0 <= m)%nat → label m = LDispatch p → ¬ quiet (pt_key p)) as Hquiet.
  { intros m p Hm Hl (wait & Hin & Hout & Hkey). by apply (Hnot_anew m p wait). }
  destruct (entries_leave composite clear_outside backend tile_local_rect run label Hstart Hrun Hsettle Hpolls n0 quiet Hquiet
              (rq_tiles (w_queue (run n0)))) as (M & HM & Hleave); [done|].
  exists M. intros m Hm. apply not_true_is_false. intros (w & k & p & Hw & Hout & Hk & Hp & Hkey)%wave_pending_spec.
  replace m with (n0 + (m - n0))%nat in Hw, Hp by lia.
  apply (waits_stay composite clear_outside backend tile_local_rect run label Hrun n0 output) in Hw; [|done|done|done].
  assert (quiet (pt_key p)) as Hq by (exists w; rewrite Hkey; done).
  apply (Hleave m p); [lia| |done|by replace m with (n0 + (m - n0))%nat by lia].
  by apply (entries_shrink composite clear_outside backend tile_local_rect run label Hstart Hrun n0 quiet Hquiet n0 p (m - n0)).
Qed.
End properties.

(** ** Witnesses *)

(** One leaf tile, one operator tile waiting for it, and surfaces with nothing in them. *)
Definition leaf_key : TileKey := mkTileKey 1 7 (mkRung 0) (mkCoord 0 0) None.
Definition operator_key : TileKey := mkTileKey 2 7 (mkRung 0) (mkCoord 0 0) None.
Definition leaf_tile : PendingTile unit := mkPending leaf_key Rect_default 5 None 16 tt 0%nat.
Definition leaf_result : RenderResult unit := mkResult d_zero true None.

Definition blank_composite (_ _ : unit) (_ : option (double * double)) (_ : Rect) (_ : double) : unit := tt.
Definition blank_clear (_ : unit) (_ : Rect) (_ : ScaleRung) (_ : Rect) : unit := tt.
Definition blank_rect (_ : ScaleRung) (_ : TileCoord) : Rect := Rect_default.
Notation blank_step := (wstep blank_composite blank_clear true blank_rect).
Notation blank_poll := (poll_refinements blank_composite blank_clear true blank_rect).

Definition blank_cache : KeyedStore TileKey (TileValue unit) := empty_store 100.

Definition wave_queue : RefinementQueue unit :=
  record_operator_wait (record_pending (mkQueue [] []) leaf_tile) operator_key [leaf_key].

Definition with_completion (c : Completion (RenderResult unit)) : World :=
  mkWorld wave_queue (<[0%nat := c]> ∅) blank_cache.

Definition claimed_leaf : Completion (RenderResult unit) := mkCompletion k_claimed false None.

Definition polled (w : World (S := unit)) : World :=
  mkWorld (blank_poll (w_queue w) (w_heap w) (w_cache w)).1
    (pl_heap (blank_poll (w_queue w) (w_heap w) (w_cache w)).2)
    (pl_cache (blank_poll (w_queue w) (w_heap w) (w_cache w)).2).

Definition drained_world : World := polled (with_completion (publish_payload (write_payload (Ok leaf_result) claimed_leaf))).

Definition wave_run (n : nat) : World :=
  match n with
  | 0 => with_completion fresh_completion
  | 1 => with_completion claimed_leaf
  | 2 => with_completion (publish_payload (write_payload (Ok leaf_result) claimed_leaf))
  | _ => drained_world
  end%nat.

Definition wave_label (n : nat) : Label (S := unit) := match n with 0 | 1 => LRender | _ => LPoll end%nat.

Lemma poll_step w : blank_step w LPoll (polled w).
Proof. destruct w. constructor. Qed.

Lemma drained_again : polled drained_world = drained_world.
Proof. vm_compute. reflexivity. Qed.

Lemma render_step c c' : renders c c' → blank_step (with_completion c) LRender (with_completion c').
Proof.
  intros Hr. unfold with_completion. rewrite <- (insert_insert_eq ∅ 0%nat c' c). apply wstep_render with (c := c); [|done].
  apply lookup_insert_eq.
Qed.

Lemma wave_runs n : blank_step (wave_run n) (wave_label n) (wave_run (n + 1)%nat).
Proof.
  destruct n as [|[|[|n]]]; cbn [wave_run wave_label Nat.add].
  - apply render_step. by constructor.
  - apply render_step. by apply renders_settle.
  - apply poll_step.
  - rewrite <- drained_again at 2. apply poll_step.
Qed.

Lemma wave_starts : rtc (moves blank_composite blank_clear true blank_rect) (idle blank_cache) (wave_run 0).
Proof.
  eapply rtc_l; [exists (LDispatch leaf_tile); by constructor|].
  eapply rtc_l; [exists (LRecord operator_key); by apply wstep_record with (unmet := [leaf_key])|]. apply rtc_refl.
Qed.


Lemma wave_ends_witness :
  ∃ M, ∀ m, (M <= m)%nat → operator_wave_pending (Some (w_queue (wave_run m))) operator_key = false.
Proof.
  apply (wave_ends blank_composite blank_clear true blank_rect wave_run wave_label 0 operator_key).
  - exact (moves_ok _ _ _ _ _ _ wave_starts (idle_ok blank_cache)).
  - exact wave_runs.
  - intros n p _. exists (n + 3)%nat. split; [lia|]. replace (n + 3)%nat with (S (S (S n))) by lia.
    unfold queued. cbn [wave_run]. intros Hin. exfalso. revert Hin. change (rq_tiles (w_queue drained_world)) with (@nil (PendingTile unit)).
    apply not_elem_of_nil.
  - intros n. exists (n + 2)%nat. split; [lia|]. by replace (n + 2)%nat with (S (S n)) by lia.
  - intros m _. by destruct m as [|[|m]].
  - intros m p wait _. by destruct m as [|[|m]].
Defined.
