(* ===== verification/Uri.v ===== *)
(** * URIs and paths ([src/src/serialize/load_context.cpp], [std::filesystem::path])

    The lexical form of the references a document holds: schemes, normalization and
    resolution against the document's own URI, the dedup table of a load, and the part of
    [std::filesystem::path] (on POSIX: no root name, one separator) that the asset store
    computes with.  [locate] is what all of them agree on: the place in a tree of names a
    spelling denotes, symbolic links aside. *)

From S2P Require Import Prelude.
From Stdlib Require Import Ascii.
Local Open Scope char_scope.
Local Open Scope list_scope.

Definition str : Type := list ascii.
Definition lit (s : string) : str := String.list_ascii_of_string s.
Definition slash : ascii := "/".

(** [std::string_view::starts_with], [ends_with], [find]. *)
Definition starts_with (s prefix : str) : bool := bool_decide (take (length prefix) s = prefix).
Definition ends_with (s suffix : str) : bool := bool_decide (drop (length s - length suffix) s = suffix).

Fixpoint find_sub (needle s : str) : option nat :=
  if starts_with s needle then Some 0%nat
  else match s with [] => None | _ :: s' => S <$> find_sub needle s' end.

(** Up to the last ['/'], that included ([find_last_of]), and what follows it. *)
Fixpoint dir_part (s : str) : str :=
  match s with
  | [] => []
  | c :: s' => match dir_part s' with [] => if decide (c = slash) then [c] else [] | d => c :: d end
  end.

Definition basename_of (uri : str) : str := drop (length (dir_part uri)) uri.

(** ** Normalization *)

Definition in_range (lo hi c : ascii) : bool := (N_of_ascii lo <=? N_of_ascii c)%N && (N_of_ascii c <=? N_of_ascii hi)%N.

Definition scheme_char (c : ascii) : bool :=
  in_range "a" "z" c || in_range "A" "Z" c || in_range "0" "9" c
  || bool_decide (c = "+") || bool_decide (c = "-") || bool_decide (c = ".").

Definition has_scheme (s : str) : bool :=
  match find_sub (lit "://") s with
  | None | Some 0%nat => false
  | Some sep => forallb scheme_char (take sep s)
  end.

Definition is_absolute (uri : str) : bool := match uri with c :: _ => bool_decide (c = slash) | [] => false end.

(** The segments between the ['/'] of a string, in order: there is one more than slashes. *)
Fixpoint split_slash (s : str) : list str :=
  match s with
  | [] => [[]]
  | c :: s' =>
      if decide (c = slash) then [] :: split_slash s'
      else match split_slash s' with [] => [[c]] | seg :: segs => (c :: seg) :: segs end
  end.

Definition dot : str := lit ".".
Definition dotdot : str := lit "..".

Definition push_segment (absolute : bool) (segments : list str) (segment : str) : list str :=
  if decide (segment = dotdot) then
    match last segments with
    | Some top => if decide (top = dotdot) then (if absolute then segments else segments ++ [segment]) else removelast segments
    | None => if absolute then segments else segments ++ [segment]
    end
  else if decide (segment = [] ∨ segment = dot) then segments
  else segments ++ [segment].

Definition segments (uri : str) : list str := foldl (push_segment (is_absolute uri)) [] (split_slash uri).

Fixpoint join_slash (segments : list str) : str :=
  match segments with
  | [] => []
  | [seg] => seg
  | seg :: segs => seg ++ slash :: join_slash segs
  end.

Definition normalize_uri (uri : str) : str :=
  if has_scheme uri then uri
  else (if is_absolute uri then [slash] else []) ++ join_slash (segments uri).

Definition resolve_uri (base_uri reference : str) : str :=
  if has_scheme reference || is_absolute reference then normalize_uri reference
  else normalize_uri (dir_part base_uri ++ reference).

(** ** The resolution table of a load *)

Record LoadContext := mkLoad {
  d_base_uri : str;
  d_resolved : list str;
  d_by_uri : gmap str nat }.

Definition new_load (base_uri : str) : LoadContext := mkLoad (normalize_uri base_uri) [] ∅.

Definition resolve (reference : str) (ctx : LoadContext) : LoadContext * nat :=
  let uri := resolve_uri (d_base_uri ctx) reference in
  match d_by_uri ctx !! uri with
  | Some index => (ctx, index)
  | None =>
      let index := length (d_resolved ctx) in
      (mkLoad (d_base_uri ctx) (d_resolved ctx ++ [uri]) (<[uri := index]> (d_by_uri ctx)), index)
  end.

Definition resolved_uri (ctx : LoadContext) (index : nat) : option str := d_resolved ctx !! index.
Definition resolved_count (ctx : LoadContext) : nat := length (d_resolved ctx).

(** [load_asset]: what the continuation is given, through the source installed or without. *)
Definition load_asset {St} (asset_source : option (str → St → St * str)) (ctx : LoadContext) (index : nat) (st : St) : St * str :=
  match asset_source with
  | Some request => request (default [] (resolved_uri ctx index)) st
  | None => (st, [])
  end.

(** ** [std::filesystem::path] *)

(** The elements a path iterates over: the root, the names, an empty one for a trailing
    separator. *)
Definition path_elements (p : str) : list str :=
  match p with
  | [] => []
  | _ =>
      (if is_absolute p then [[slash]] else []) ++ filter (λ seg, seg ≠ []) (split_slash p)
      ++ match last p with
         | Some c => if decide (c = slash ∧ filter (λ seg, seg ≠ []) (split_slash p) ≠ []) then [[]] else []
         | None => []
         end
  end.

(** [lexically_normal]: dots and [name/..] removed; a last element that was a dot, a
    removed [..] or empty leaves a separator behind a name; nothing left is [.]. *)
Definition lexically_normal (p : str) : str :=
  match p with
  | [] => []
  | _ =>
      let segs := segments p in
      let trailing :=
        match last (split_slash p), last segs with
        | Some seg, Some top =>
            bool_decide (seg = [] ∨ seg = dot ∨ seg = dotdot) && negb (bool_decide (top = dotdot))
        | _, _ => false
        end in
      let out := (if is_absolute p then [slash] else []) ++ join_slash segs ++ (if trailing then [slash] else []) in
      match out with [] => dot | _ => out end
  end.

(** [operator/]. *)
Definition path_append (p q : str) : str :=
  if is_absolute q then q
  else match last p with
       | None => q
       | Some c => if decide (c = slash) then p ++ q else p ++ slash :: q
       end.

Fixpoint mismatch (a b : list str) : list str * list str :=
  match a, b with
  | x :: a', y :: b' => if decide (x = y) then mismatch a' b' else (a, b)
  | _, _ => (a, b)
  end.

(** The elements of [p.lexically_relative(base)]; none for the empty path. *)
Definition lexically_relative (p base : str) : list str :=
  if negb (Bool.eqb (is_absolute p) (is_absolute base)) then []
  else
    let '(a, b) := mismatch (path_elements p) (path_elements base) in
    match a, b with
    | [], [] => [dot]
    | _, _ =>
        let n := (Z.of_nat (length (filter (λ seg, seg ≠ [] ∧ seg ≠ dot ∧ seg ≠ dotdot) b))
                  - Z.of_nat (length (filter (λ seg, seg = dotdot) b)))%Z in
        if (n <? 0)%Z then []
        else if (n =? 0)%Z && match a with [] => true | seg :: _ => bool_decide (seg = []) end then [dot]
        else repeat dotdot (Z.to_nat n) ++ a
    end.

(** [filename], [extension], [parent_path]. *)
Definition filename (p : str) : str := basename_of p.

Fixpoint last_dot (name : str) : option nat :=
  match name with
  | [] => None
  | c :: name' => match last_dot name' with
                  | Some i => Some (S i)
                  | None => if decide (c = ".") then Some 0%nat else None
                  end
  end.

Definition extension (p : str) : str :=
  let name := filename p in
  if decide (name = dot ∨ name = dotdot) then []
  else match last_dot name with None | Some 0%nat => [] | Some i => drop i name end.

Fixpoint drop_slashes (rev_p : str) : str :=
  match rev_p with c :: p' => if decide (c = slash) then drop_slashes p' else rev_p | [] => [] end.

Definition parent_path (p : str) : str :=
  let dir := dir_part p in
  match rev (drop_slashes (rev dir)) with
  | [] => if is_absolute dir then [slash] else []
  | d => d
  end.

(** What a path denotes: where it starts, and the names from there. *)
Record Location := mkLoc { loc_absolute : bool; loc_names : list str }.

#[export] Instance location_eq_dec : EqDecision Location.
Proof. solve_decision. Defined.

#[export] Instance location_countable : Countable Location.
Proof.
  refine (inj_countable' (λ l, (loc_absolute l, loc_names l)) (λ x, mkLoc x.1 x.2) _). by intros [].
Defined.

Definition locate (p : str) : Location := mkLoc (is_absolute p) (segments p).

Example normal_uri : normalize_uri (lit "/p/./a//b/../c") = lit "/p/a/c".
Proof. vm_compute. done. Qed.
Example normal_path : lexically_normal (lit "a/./b/..") = lit "a/" ∧ lexically_normal (lit "x/..") = lit ".".
Proof. vm_compute. done. Qed.
Example relative_path : lexically_relative (lit "p/assets/x.png") (lit "p/assets/") = [lit "x.png"]
  ∧ lexically_relative (lit "p/x") (lit "p/assets") = [dotdot; lit "x"].
Proof. vm_compute. done. Qed.
Example arbc_extension : extension (lit "p/a.b.arbc") = lit ".arbc" ∧ extension (lit "p/.arbc") = [].
Proof. vm_compute. done. Qed.

(** ** Segments *)

Definition slash_free (seg : str) : Prop := slash ∉ seg.
Definition proper (seg : str) : Prop := slash_free seg ∧ seg ≠ [] ∧ seg ≠ dot ∧ seg ≠ dotdot.

#[export] Instance proper_dec seg : Decision (proper seg).
Proof. unfold proper, slash_free. apply _. Defined.

Lemma dir_part_slash s : dir_part s = [] ∨ last (dir_part s) = Some slash.
Proof.
  induction s as [|c s IH]; [by left|]. cbn [dir_part]. destruct (dir_part s) as [|d ds] eqn:E.
  - destruct (decide _) as [->|]; [by right|by left].
  - right. destruct IH as [?|IH]; [done|]. by rewrite last_cons, IH.
Qed.

Lemma dir_part_spec s : ∃ t, s = dir_part s ++ t ∧ slash_free t.
Proof.
  induction s as [|c s (t & E & Ht)]; [exists []; split; [done|apply not_elem_of_nil]|].
  cbn [dir_part]. destruct (dir_part s) as [|d ds].
  - destruct (decide (c = slash)) as [->|Hc]; [by exists s; rewrite E|].
    exists (c :: s). split; [done|]. rewrite E. by intros [?|?]%elem_of_cons.
  - exists t. split; [by rewrite E at 1|done].
Qed.

Lemma dir_part_split s : s = dir_part s ++ basename_of s ∧ slash_free (basename_of s).
Proof.
  destruct (dir_part_spec s) as (t & E & Ht). unfold basename_of. remember (dir_part s) as d eqn:Hd. clear Hd. subst s.
  by rewrite drop_app_length.
Qed.

Lemma split_slash_cons s : ∃ seg segs, split_slash s = seg :: segs.
Proof. induction s as [|c s (seg & segs & IH)]; cbn; [eauto|]. destruct (decide _); [eauto|]. rewrite IH. eauto. Qed.

Lemma split_slash_free s seg : seg ∈ split_slash s → slash_free seg.
Proof.
  revert seg. induction s as [|c s IH]; intros seg.
  { intros ->%list_elem_of_singleton. apply not_elem_of_nil. }
  cbn [split_slash]. destruct (decide (c = slash)) as [|Hc].
  { intros [->|Hin]%elem_of_cons; [apply not_elem_of_nil|by apply IH]. }
  destruct (split_slash_cons s) as (x & xs & E). rewrite E in *.
  intros [->|Hin]%elem_of_cons; [|apply IH; by right].
  intros [?|?]%elem_of_cons; [done|]. apply (IH x); [by left|done].
Qed.

Lemma split_slash_single seg : slash_free seg → split_slash seg = [seg].
Proof.
  induction seg as [|c seg IH]; intros Hf; [done|]. cbn [split_slash].
  rewrite decide_False by (intros ->; apply Hf; by left). rewrite IH; [done|]. intros Hin. apply Hf. by right.
Qed.

(** A separator splits. *)
Lemma split_slash_app a b : split_slash (a ++ slash :: b) = split_slash a ++ split_slash b.
Proof.
  induction a as [|c a IH]; cbn [app split_slash]; [by rewrite decide_True|].
  destruct (decide (c = slash)); rewrite IH; [done|]. by destruct (split_slash_cons a) as (x & xs & ->).
Qed.

Lemma join_slash_cons seg segs : segs ≠ [] → join_slash (seg :: segs) = seg ++ slash :: join_slash segs.
Proof. by destruct segs. Qed.

Lemma split_join segs : segs ≠ [] → Forall slash_free segs → split_slash (join_slash segs) = segs.
Proof.
  induction segs as [|seg segs IH]; intros Hne HF; [done|]. apply Forall_cons in HF as [Hs HF].
  destruct (decide (segs = [])) as [->|Hn]; [by apply split_slash_single|].
  rewrite join_slash_cons, split_slash_app, IH, split_slash_single by done. done.
Qed.

Lemma join_split s : join_slash (split_slash s) = s.
Proof.
  induction s as [|c s IH]; [done|]. cbn [split_slash]. destruct (split_slash_cons s) as (x & xs & E).
  destruct (decide (c = slash)) as [->|]; rewrite E in *.
  - rewrite join_slash_cons by done. by rewrite IH.
  - destruct xs; cbn in *; by rewrite <- IH.
Qed.

(** The last segment is what follows the last separator. *)
Lemma last_segment s : last (split_slash s) = Some (basename_of s).
Proof.
  destruct (dir_part_split s) as [E Hf]. rewrite E at 1. destruct (dir_part_slash s) as [->|Hl].
  { cbn [app]. by rewrite split_slash_single. }
  apply last_Some in Hl as [front ->]. rewrite <- (assoc_L (++)). cbn [app].
  by rewrite split_slash_app, (split_slash_single (basename_of s)), last_snoc.
Qed.

(** ** Normal forms *)

(** Dots at the front alone, and none under a root. *)
Definition normal (absolute : bool) (segs : list str) : Prop :=
  ∃ n rest, segs = repeat dotdot n ++ rest ∧ Forall proper rest ∧ (absolute = true → n = 0%nat).

Lemma dotdot_free : slash_free dotdot.
Proof. unfold slash_free, slash, dotdot. vm_compute. intros H. repeat (apply elem_of_cons in H as [H|H]; [done|]). by apply not_elem_of_nil in H. Qed.

Lemma normal_slash_free absolute segs : normal absolute segs → Forall slash_free segs.
Proof.
  intros (n & rest & -> & HF & _). apply Forall_app. split.
  - induction n; constructor; [apply dotdot_free|done].
  - eapply Forall_impl; [exact HF|]. by intros seg [].
Qed.

Lemma normal_nonempty absolute segs seg : normal absolute segs → seg ∈ segs → seg ≠ [].
Proof.
  intros (n & rest & -> & HF & _) [Hin|Hin]%elem_of_app.
  - apply list_elem_of_In, repeat_spec in Hin as ->. done.
  - rewrite Forall_forall in HF. by destruct (HF seg Hin) as (_ & ? & _).
Qed.

Lemma push_proper absolute segs seg : proper seg → push_segment absolute segs seg = segs ++ [seg].
Proof. intros (_ & H1 & H2 & H3). unfold push_segment. rewrite decide_False by done. rewrite decide_False by tauto. done. Qed.

Lemma push_all_proper absolute segs l : Forall proper l → foldl (push_segment absolute) segs l = segs ++ l.
Proof.
  revert segs. induction l as [|seg l IH]; intros segs HF; cbn; [by rewrite app_nil_r|].
  apply Forall_cons in HF as [? ?]. by rewrite push_proper, IH, <- (assoc_L (++)).
Qed.

Lemma last_repeat_dots n : last (repeat dotdot (S n)) = Some dotdot.
Proof. induction n; [done|]. change (repeat dotdot (S (S n))) with (dotdot :: repeat dotdot (S n)). by rewrite last_cons, IHn. Qed.

Lemma push_dots segs n : foldl (push_segment false) (repeat dotdot n) (repeat dotdot segs) = repeat dotdot (n + segs).
Proof.
  revert n. induction segs as [|m IH]; intros n; cbn [repeat foldl]; [by rewrite Nat.add_0_r|].
  assert (push_segment false (repeat dotdot n) dotdot = repeat dotdot (S n)) as ->.
  { unfold push_segment. rewrite decide_True by done. replace (S n) with (n + 1)%nat by lia. rewrite repeat_app. cbn [repeat].
    destruct n as [|n]; [done|]. rewrite last_repeat_dots. by rewrite decide_True by done. }
  rewrite IH. f_equal. lia.
Qed.

Lemma normal_stable absolute segs : normal absolute segs → foldl (push_segment absolute) [] segs = segs.
Proof.
  intros (n & rest & -> & HF & Hn). rewrite foldl_app. destruct absolute.
  - rewrite Hn by done. cbn. by rewrite push_all_proper.
  - change (@nil str) with (repeat dotdot 0). rewrite push_dots. by rewrite push_all_proper.
Qed.

Lemma push_normal absolute segs seg : normal absolute segs → slash_free seg → normal absolute (push_segment absolute segs seg).
Proof.
  intros (n & rest & -> & HF & Hn) Hs. unfold push_segment. destruct (decide (seg = dotdot)) as [->|Hd].
  - destruct (decide (rest = [])) as [->|Hr].
    + rewrite app_nil_r in *. destruct n as [|n].
      * cbn. destruct absolute; [by exists 0%nat, []|]. by exists 1%nat, [].
      * rewrite last_repeat_dots. rewrite decide_True by done. destruct absolute; [by specialize (Hn eq_refl)|].
        exists (S n + 1)%nat, []. by rewrite repeat_app, app_nil_r.
    + destruct (exists_last Hr) as (front & top & ->). rewrite app_assoc, last_snoc.
      apply Forall_app in HF as [HF Htop]. apply Forall_singleton in Htop as (_ & _ & _ & Hdd).
      rewrite decide_False by done. rewrite removelast_last. by exists n, front.
  - destruct (decide (seg = [] ∨ seg = dot)) as [|He]; [by exists n, rest|].
    exists n, (rest ++ [seg]). rewrite <- app_assoc. split; [done|]. split; [|done].
    apply Forall_app. split; [done|]. apply Forall_singleton. unfold proper. tauto.
Qed.

Lemma segments_normal uri : normal (is_absolute uri) (segments uri).
Proof.
  unfold segments. pose proof (split_slash_free uri) as HF. revert HF.
  assert (normal (is_absolute uri) []) as HN by (by exists 0%nat, []). revert HN.
  generalize (@nil str) as acc. generalize (split_slash uri) as l. induction l as [|seg l IH]; intros acc HN HF; [done|].
  cbn. apply IH; [apply push_normal; [done|apply HF; by left]|]. intros s Hs. apply HF. by right.
Qed.

(** A normal form spelled out denotes itself. *)
Lemma locate_spelled absolute segs :
  normal absolute segs → locate ((if absolute then [slash] else []) ++ join_slash segs) = mkLoc absolute segs.
Proof.
  intros HN. pose proof (normal_slash_free _ _ HN) as HF. unfold locate, segments. destruct absolute; cbn [app].
  - cbn [is_absolute]. rewrite bool_decide_eq_true_2 by done. cbn [split_slash]. rewrite decide_True by done. cbn [foldl].
    assert (push_segment true [] [] = []) as -> by done. f_equal.
    destruct (decide (segs = [])) as [->|Hne]; [done|]. rewrite split_join by done. by apply normal_stable.
  - assert (is_absolute (join_slash segs) = false) as ->.
    { destruct segs as [|seg segs]; [done|]. apply Forall_cons in HF as [Hs _].
      destruct seg as [|c seg]; [by destruct (normal_nonempty _ _ [] HN); [left|]|].
      destruct segs; cbn; apply bool_decide_eq_false; intros ->; apply Hs; by left. }
    f_equal. destruct (decide (segs = [])) as [->|Hne]; [done|]. rewrite split_join by done. by apply normal_stable.
Qed.

Lemma locate_normalize uri : locate (normalize_uri uri) = locate uri.
Proof. unfold normalize_uri. destruct (has_scheme uri); [done|]. apply locate_spelled, segments_normal. Qed.

(** A normal form is a fixed point: normalizing names an identity, not a spelling. *)
Lemma normalize_uri_idempotent uri : normalize_uri (normalize_uri uri) = normalize_uri uri.
Proof.
  destruct (has_scheme uri) eqn:E; [by unfold normalize_uri; rewrite !E|].
  pose proof (locate_normalize uri) as [= Ea Es]. unfold normalize_uri at 1.
  destruct (has_scheme (normalize_uri uri)); [done|]. rewrite Ea, Es. unfold normalize_uri. by rewrite E.
Qed.

(** ** The resolution table *)

Definition load_ok (ctx : LoadContext) : Prop :=
  ∀ uri index, d_by_uri ctx !! uri = Some index ↔ d_resolved ctx !! index = Some uri.

Lemma new_load_ok base_uri : load_ok (new_load base_uri).
Proof. intros uri index. cbn. by rewrite lookup_empty, lookup_nil. Qed.

Lemma resolve_spec reference ctx :
  load_ok ctx →
  let '(ctx', index) := resolve reference ctx in
  load_ok ctx' ∧ resolved_uri ctx' index = Some (resolve_uri (d_base_uri ctx) reference) ∧
  d_base_uri ctx' = d_base_uri ctx ∧ d_resolved ctx `prefix_of` d_resolved ctx'.
Proof.
  intros Hok. unfold resolve, resolved_uri. set (uri := resolve_uri _ _). destruct (d_by_uri ctx !! uri) as [index|] eqn:E.
  { split_and!; [done|by apply Hok|done|done]. }
  split_and!; [|by cbn; rewrite list_lookup_middle|done|by apply prefix_app_r].
  intros uri' index. cbn [d_by_uri d_resolved].
  destruct (decide (uri = uri')) as [<-|Hne].
  - rewrite lookup_insert_eq. split; [intros [= <-]; by rewrite list_lookup_middle|].
    intros [Hl|[Hi Hl]]%lookup_app_Some; [apply Hok in Hl; congruence|].
    apply list_lookup_singleton_Some in Hl as [Hl _]. f_equal. lia.
  - rewrite lookup_insert_ne by done. rewrite (Hok uri' index), lookup_app_Some. split; [by left|].
    intros [?|[_ Hl]]; [done|]. by apply list_lookup_singleton_Some in Hl as [_ ?].
Qed.

(** Two references of one load share an identity exactly when they resolve alike. *)
Lemma resolve_identity ctx r1 r2 :
  load_ok ctx →
  let '(ctx1, i1) := resolve r1 ctx in
  let '(ctx2, i2) := resolve r2 ctx1 in
  i1 = i2 ↔ resolve_uri (d_base_uri ctx) r1 = resolve_uri (d_base_uri ctx) r2.
Proof.
  intros Hok. pose proof (resolve_spec r1 ctx Hok) as H1. destruct (resolve r1 ctx) as [ctx1 i1].
  destruct H1 as (Hok1 & E1 & Eb & _). pose proof (resolve_spec r2 ctx1 Hok1) as H2. destruct (resolve r2 ctx1) as [ctx2 i2].
  destruct H2 as (Hok2 & E2 & _ & Hp). rewrite Eb in E2. unfold resolved_uri in *.
  eapply prefix_lookup_Some in E1; [|exact Hp]. split; [congruence|]. intros E. rewrite E in E1.
  apply Hok2 in E1, E2. congruence.
Qed.

(** ** Spelling a location *)

Definition spell (l : Location) : str := (if loc_absolute l then [slash] else []) ++ join_slash (loc_names l).
Definition below (l : Location) (names : list str) : Location := mkLoc (loc_absolute l) (loc_names l ++ names).

(** A location that ends in a name of its own. *)
Definition named (l : Location) : Prop :=
  normal (loc_absolute l) (loc_names l) ∧ ∃ top, last (loc_names l) = Some top ∧ proper top.

Lemma below_named l names : normal (loc_absolute l) (loc_names l) → Forall proper names → names ≠ [] → named (below l names).
Proof.
  intros (n & rest & E & HF & Hn) Hp Hne. split.
  - exists n, (rest ++ names). cbn. rewrite E, <- (assoc_L (++)). split_and!; [done|by apply Forall_app|done].
  - destruct (exists_last Hne) as (front & top & ->). exists top. cbn. rewrite (assoc_L (++)), last_snoc. split; [done|].
    apply Forall_app in Hp as [_ Hp]. by apply Forall_cons in Hp as [? _].
Qed.

Lemma named_names l : named l → loc_names l ≠ [].
Proof. intros [_ (top & E & _)] H. by rewrite H in E. Qed.

Lemma join_app segs names : segs ≠ [] → names ≠ [] → join_slash (segs ++ names) = join_slash segs ++ slash :: join_slash names.
Proof.
  intros Hs Hn. induction segs as [|seg segs IH]; [done|]. destruct (decide (segs = [])) as [->|Hne].
  { cbn [app]. by rewrite join_slash_cons by done. }
  cbn [app]. rewrite (join_slash_cons seg segs) by done. rewrite (join_slash_cons seg (segs ++ names)) by (by destruct segs).
  rewrite IH by done. by rewrite <- (assoc_L (++)).
Qed.

Lemma locate_spell l : normal (loc_absolute l) (loc_names l) → locate (spell l) = l.
Proof. intros HN. destruct l. by apply locate_spelled. Qed.

Lemma spell_facts l (HN : named l) :
  is_absolute (spell l) = loc_absolute l ∧ segments (spell l) = loc_names l ∧
  split_slash (spell l) = (if loc_absolute l then [[]] else []) ++ loc_names l.
Proof.
  pose proof (locate_spell l (proj1 HN)) as E. pose proof (named_names l HN) as Hne.
  split_and!; [by rewrite <- E at 2|by rewrite <- E at 2|].
  pose proof (normal_slash_free _ _ (proj1 HN)). unfold spell. destruct (loc_absolute l); cbn [app].
  - cbn [split_slash]. rewrite decide_True by done. by rewrite split_join.
  - by rewrite split_join.
Qed.

Lemma spell_ends l : named l → ∃ top, last (split_slash (spell l)) = Some top ∧ last (loc_names l) = Some top ∧ proper top.
Proof.
  intros HN. destruct (spell_facts l HN) as (_ & _ & ->). destruct HN as [_ (top & E & Ht)]. exists top.
  rewrite last_app, E. done.
Qed.

Lemma spell_last l : named l → ∃ c, last (spell l) = Some c ∧ c ≠ slash.
Proof.
  intros HN. destruct (spell_ends l HN) as (top & E & _ & Hf & Hne & _). rewrite last_segment in E. injection E as E.
  destruct (dir_part_split (spell l)) as [Es _]. rewrite E in Es. destruct (exists_last Hne) as (front & c & ->).
  exists c. split; [by rewrite Es, (assoc_L (++)), last_snoc|]. intros ->. apply Hf, elem_of_app. right. by left.
Qed.

Lemma spell_nonempty l : named l → spell l ≠ [].
Proof. intros HN E. destruct (spell_last l HN) as (c & Hc & _). by rewrite E in Hc. Qed.

Lemma names_nonempty l : named l → filter (λ seg, seg ≠ []) (loc_names l) = loc_names l.
Proof.
  intros [HN _]. assert (Forall (λ seg, seg ≠ []) (loc_names l)) as HF
    by (apply Forall_forall; intros seg Hs; by eapply normal_nonempty).
  revert HF. generalize (loc_names l) as names. clear. intros names HF.
  induction HF as [|seg segs Hs _ IH]; [done|]. rewrite filter_cons_True by done. f_equal. exact IH.
Qed.

Lemma spell_elements l : named l → path_elements (spell l) = (if loc_absolute l then [[slash]] else []) ++ loc_names l.
Proof.
  intros HN. destruct (spell_facts l HN) as (Ea & _ & Es). pose proof (spell_last l HN) as (c & Hc & Hcs).
  unfold path_elements. destruct (spell l) as [|x p] eqn:E; [done|]. rewrite Hc, Ea, Es, filter_app.
  rewrite decide_False by tauto. rewrite app_nil_r, names_nonempty by done. by destruct (loc_absolute l).
Qed.

Lemma spell_normal l : named l → lexically_normal (spell l) = spell l.
Proof.
  intros HN. destruct (spell_facts l HN) as (Ea & Eseg & _). destruct (spell_ends l HN) as (top & Et & El & _ & H1 & H2 & H3).
  pose proof (spell_nonempty l HN). unfold lexically_normal. destruct (spell l) as [|x p] eqn:E; [done|]. cbv zeta. rewrite Ea, Eseg, Et, El.
  rewrite bool_decide_eq_false_2 by tauto. cbn [andb]. rewrite app_nil_r. fold (spell l). by rewrite E.
Qed.

Lemma join_relative names : Forall proper names → is_absolute (join_slash names) = false.
Proof.
  intros HF. destruct names as [|seg names]; [done|]. apply Forall_cons in HF as [(Hs & Hn & _) _].
  destruct seg as [|c seg]; [done|]. destruct names; cbn; apply bool_decide_eq_false; intros ->; apply Hs; by left.
Qed.

Lemma append_spell l names :
  named l → Forall proper names → names ≠ [] → path_append (spell l) (join_slash names) = spell (below l names).
Proof.
  intros HN HF Hne. unfold path_append. rewrite join_relative by done.
  destruct (spell_last l HN) as (c & -> & Hc). rewrite decide_False by done. unfold spell, below. cbn.
  rewrite join_app by (first [done|by apply named_names]). by rewrite (assoc_L (++)).
Qed.

Lemma mismatch_prefix (a b : list str) : mismatch (a ++ b) a = (b, []).
Proof. induction a as [|x a IH]; [by destruct b|]. cbn. by rewrite decide_True. Qed.

Lemma relative_spell l names :
  named l → Forall proper names → names ≠ [] → lexically_relative (spell (below l names)) (spell l) = names.
Proof.
  intros HN HF Hne. pose proof (below_named l names (proj1 HN) HF Hne) as HB. unfold lexically_relative.
  rewrite (proj1 (spell_facts _ HN)), (proj1 (spell_facts _ HB)), (spell_elements _ HN), (spell_elements _ HB). cbn [below loc_absolute loc_names].
  rewrite eqb_reflx. cbn [negb]. rewrite (assoc_L (++)), mismatch_prefix. destruct names as [|seg names]; [done|].
  apply Forall_cons in HF as [(_ & Hs & _) _]. cbn. by rewrite bool_decide_eq_false_2.
Qed.

(** ** Parents *)

Lemma push_last absolute l seg : proper seg → ∃ segs, foldl (push_segment absolute) [] (l ++ [seg]) = segs ++ [seg].
Proof. intros Hp. rewrite foldl_app. cbn. rewrite push_proper by done. eauto. Qed.

Lemma segments_last p : proper (basename_of p) → last (segments p) = Some (basename_of p).
Proof.
  intros Hp. pose proof (last_segment p) as [l E]%last_Some. unfold segments. rewrite E.
  destruct (push_last (is_absolute p) l _ Hp) as (segs & ->). by rewrite last_snoc.
Qed.

Lemma drop_slashes_spec s : ∃ n, s = repeat slash n ++ drop_slashes s ∧ (∀ c, head (drop_slashes s) = Some c → c ≠ slash).
Proof.
  induction s as [|c s (n & E & H)]; [by exists 0%nat|]. cbn [drop_slashes]. destruct (decide (c = slash)) as [->|Hc].
  - exists (S n). cbn. by rewrite E at 1.
  - exists 0%nat. split; [done|]. by intros ? [= <-].
Qed.

Lemma trailing_slashes d : ∃ n, d = rev (drop_slashes (rev d)) ++ repeat slash n.
Proof.
  destruct (drop_slashes_spec (rev d)) as (n & E & _). exists n.
  rewrite <- (rev_involutive d) at 1. rewrite E at 1. rewrite rev_app_distr. f_equal.
  clear. induction n as [|n IH]; [done|]. cbn [repeat rev]. rewrite IH. clear. induction n; [done|]. cbn. by rewrite IHn.
Qed.

Lemma split_slashes e n b : split_slash (e ++ repeat slash (S n) ++ b) = split_slash e ++ repeat [] n ++ split_slash b.
Proof.
  revert e. induction n as [|n IH]; intros e; cbn [repeat app]; [apply split_slash_app|].
  rewrite split_slash_app. f_equal. exact (IH []).
Qed.

Lemma push_empties absolute segs n : foldl (push_segment absolute) segs (repeat [] n) = segs.
Proof. induction n as [|n IH]; [done|]. cbn. unfold push_segment at 2. by rewrite decide_False, decide_True by (done || by left). Qed.

(** A path whose last name is a name is that name in its parent. *)
Lemma locate_parent p : proper (basename_of p) → locate p = below (locate (parent_path p)) [basename_of p].
Proof.
  intros Hp. destruct (dir_part_split p) as [E Hf]. unfold parent_path. set (b := basename_of p) in *.
  destruct (trailing_slashes (dir_part p)) as (n & En). set (e := rev (drop_slashes (rev (dir_part p)))) in *.
  assert (is_absolute b = false) as Hb.
  { destruct b as [|c b']; [done|]. apply bool_decide_eq_false. intros ->. apply Hf. by left. }
  destruct n as [|n].
  - rewrite app_nil_r in En. destruct (dir_part_slash p) as [Ed|Hl].
    + rewrite Ed in *. rewrite <- En. cbn [is_absolute]. rewrite E. cbn [app].
      unfold locate, below, segments. rewrite Hb, split_slash_single by done. cbn. by rewrite push_proper.
    + exfalso. unfold e in En. destruct (drop_slashes_spec (rev (dir_part p))) as (m & _ & Hh).
      apply last_Some in Hl as (front & Hfr). rewrite Hfr, rev_app_distr in Hh. cbn in Hh.
      rewrite Hfr, rev_app_distr in En. cbn in En. destruct (decide (slash = slash)); [|done].
      destruct (drop_slashes_spec (rev front)) as (j & Ej & _).
      apply (f_equal length) in En. apply (f_equal length) in Ej. rewrite length_rev, length_app in *. cbn in En. lia.
  - rewrite En, <- (assoc_L (++)) in E. assert (is_absolute p = is_absolute (match e with [] => [slash] | _ => e end)) as Ea.
    { rewrite E. by destruct e. }
    assert (is_absolute (dir_part p) = match e with [] => true | _ => is_absolute e end) as Ed.
    { rewrite En. by destruct e. }
    assert (split_slash p = split_slash e ++ repeat [] n ++ [b]) as Es.
    { rewrite E. by rewrite split_slashes, (split_slash_single b). }
    rewrite Ed. unfold locate, below. cbn [loc_absolute loc_names]. unfold segments at 1. rewrite Es.
    rewrite !foldl_app, push_empties. cbn [foldl]. rewrite push_proper by done. rewrite Ea. by destruct e.
Qed.

(** A name appended to a path. *)
Lemma append_basename p name : slash_free name → name ≠ [] → basename_of (path_append p name) = name.
Proof.
  intros Hf Hne. assert (last (split_slash (path_append p name)) = Some name) as E.
  2: { rewrite last_segment in E. by injection E. }
  unfold path_append. destruct (is_absolute name); [by rewrite split_slash_single|].
  destruct (last p) as [c|] eqn:El; [|by rewrite split_slash_single]. destruct (decide (c = slash)) as [->|].
  - apply last_Some in El as [front ->]. rewrite <- (assoc_L (++)). cbn [app].
    by rewrite split_slash_app, (split_slash_single name), last_snoc.
  - by rewrite split_slash_app, (split_slash_single name), last_snoc.
Qed.

Lemma push_empty absolute segs : push_segment absolute segs [] = segs.
Proof. unfold push_segment. by rewrite decide_False, decide_True by (done || by left). Qed.

Lemma locate_path_append p q :
  is_absolute q = false →
  locate (path_append p q) = mkLoc (is_absolute p) (foldl (push_segment (is_absolute p)) (segments p) (split_slash q)).
Proof.
  intros Ha. unfold path_append. rewrite Ha. destruct (last p) as [c|] eqn:El.
  2: { apply last_None in El as ->. unfold locate, segments. by rewrite Ha. }
  assert (p ≠ []) as Hp by (by intros ->). unfold locate, segments. destruct (decide (c = slash)) as [->|].
  - apply last_Some in El as [front ->]. rewrite <- (assoc_L (++)). cbn [app]. rewrite !split_slash_app, !foldl_app. cbn [split_slash foldl].
    rewrite push_empty. by destruct front.
  - rewrite split_slash_app, foldl_app. by destruct p.
Qed.

(** Names appended to a path are names below what it denotes. *)
Lemma locate_append p names :
  Forall proper names → names ≠ [] → locate (path_append p (join_slash names)) = below (locate p) names.
Proof.
  intros HF Hne. rewrite locate_path_append.
  - assert (Forall slash_free names) as Hfree by (eapply Forall_impl; [exact HF|by intros ? []]).
    by rewrite split_join, push_all_proper.
  - by apply join_relative.
Qed.

Lemma locate_append_name p name : proper name → locate (path_append p name) = below (locate p) [name].
Proof. intros Hn. by apply (locate_append p [name]); [apply Forall_singleton|]. Qed.

Lemma below_inj l1 l2 name : below l1 [name] = below l2 [name] → l1 = l2.
Proof. destruct l1, l2. unfold below. cbn. intros [= -> E]. by simplify_list_eq. Qed.

(** ** Joins *)

(** The directory of a file of a directory. *)
Lemma dir_part_app_free d name : slash_free name → dir_part (d ++ slash :: name) = d ++ [slash].
Proof.
  intros Hf. induction d as [|c d IH]; cbn [app dir_part].
  - destruct (dir_part_spec name) as (t & E & Ht). destruct (dir_part_slash name) as [->|Hl]; [by rewrite decide_True|].
    exfalso. apply Hf. rewrite E. apply last_Some in Hl as [front ->]. rewrite !elem_of_app. left. right. by left.
  - rewrite IH. by destruct d.
Qed.

Lemma dir_part_append p name q :
  slash_free name → name ≠ [] → is_absolute q = false → dir_part (path_append p name) ++ q = path_append p q.
Proof.
  intros Hf Hne Ha. assert (is_absolute name = false) as Hn.
  { destruct name as [|c name]; [done|]. apply bool_decide_eq_false. intros ->. apply Hf. by left. }
  unfold path_append. rewrite Ha, Hn. destruct (last p) as [c|] eqn:El.
  2: { destruct (dir_part_spec name) as (t & E & Ht). destruct (dir_part_slash name) as [->|Hl]; [done|].
       exfalso. apply Hf. rewrite E. apply last_Some in Hl as [front ->]. rewrite !elem_of_app. left. right. by left. }
  destruct (decide (c = slash)) as [->|].
  - apply last_Some in El as [front ->]. rewrite <- !(assoc_L (++)). cbn [app]. by rewrite dir_part_app_free, <- (assoc_L (++)).
  - by rewrite dir_part_app_free, <- (assoc_L (++)).
Qed.

Lemma locate_trailing x : x ≠ [] → locate (x ++ [slash]) = locate x.
Proof.
  intros Hx. unfold locate, segments. rewrite (split_slash_app x []), foldl_app. cbn [split_slash foldl]. rewrite push_empty. by destruct x.
Qed.

Lemma locate_lexically_normal p : p ≠ [] → locate (lexically_normal p) = locate p.
Proof.
  intros Hp. unfold lexically_normal. destruct p as [|c p']; [done|]. set (p := c :: p') in *. cbv zeta.
  pose proof (locate_spelled (is_absolute p) (segments p) (segments_normal p)) as E. fold (locate p) in E.
  set (x := (if is_absolute p then [slash] else []) ++ join_slash (segments p)) in *.
  assert (∀ t : bool, (t = true → x ≠ []) →
    let out := (if is_absolute p then [slash] else []) ++ join_slash (segments p) ++ (if t then [slash] else []) in
    locate (match out with [] => dot | _ => out end) = locate p) as H.
  { intros t Hx. cbv zeta. rewrite (assoc_L (++)). fold x. destruct t.
    - rewrite <- (locate_trailing x) in E by auto. destruct (x ++ [slash]) as [|y l] eqn:Ex; [by destruct x|exact E].
    - rewrite app_nil_r. destruct x as [|y l]; [|exact E]. etrans; [|exact E]. vm_compute. done. }
  destruct (last (split_slash p)) as [seg|]; [|by apply (H false)]. destruct (last (segments p)) as [top|] eqn:El; [|by apply (H false)].
  apply H. intros _ Ex. apply app_eq_nil in Ex as [_ Ex]. pose proof (segments_normal p) as HN.
  destruct (segments p) as [|s segs]; [done|]. assert (s ≠ []) as Hs by (eapply normal_nonempty; [exact HN|by left]).
  destruct segs; cbn in Ex; [done|]. by apply app_eq_nil in Ex as [? _].
Qed.

(** Below a name there are names. *)
Lemma normal_suffix absolute front names top :
  normal absolute (front ++ names) → last front = Some top → proper top → Forall proper names.
Proof.
  intros (n & rest & E & HF & _) Hl Ht. rewrite last_lookup in Hl. apply Forall_forall. intros seg [i Hi]%list_elem_of_lookup.
  rewrite Forall_forall in HF.
  assert (∀ j s, (front ++ names) !! j = Some s → (n <= j)%nat → s ∈ rest) as Hrest.
  { intros j s Hj Hn. rewrite E, lookup_app_r in Hj by (rewrite repeat_length; lia). by eapply list_elem_of_lookup_2. }
  assert (pred (length front) < length front)%nat as Hlen by (by apply lookup_lt_Some in Hl).
  destruct (decide (n <= pred (length front))%nat) as [Hn|Hn].
  - apply HF, (Hrest (length front + i)%nat); [|lia]. rewrite lookup_app_r by lia. by replace (length front + i - length front)%nat with i by lia.
  - exfalso. assert ((front ++ names) !! pred (length front) = Some top) as Hj by (by rewrite lookup_app_l).
    rewrite E, lookup_app_l in Hj by (rewrite repeat_length; lia). apply list_elem_of_lookup_2, list_elem_of_In, repeat_spec in Hj as ->.
    by destruct Ht as (_ & _ & _ & ?).
Qed.
