(* ===== verification/AssetStore.v ===== *)
(** * The asset store on a file system ([src/src/runtime/filesystem_asset_sink.cpp],
      [filesystem_asset_source.cpp])

    A file system as [std::filesystem] sees it: files and directories at locations, every
    call free to fail, every state kept that a crash could leave.  On it the write side of
    the asset store -- write if absent, under a temporary name, then rename -- and its read
    side. *)

From S2P Require Import Prelude Uri.
From Stdlib Require Import Ascii.
From stdpp Require Import pretty.
Local Open Scope list_scope.

(** ** The file system *)

Inductive Node := NFile (bytes : str) | NDir.
Notation FileSystem := (gmap Location Node).

#[export] Instance node_eq_dec : EqDecision Node.
Proof. solve_decision. Defined.

(** The files, the calls made so far, and the states they went through. *)
Record Disk := mkDisk { k_files : FileSystem; k_clock : nat; k_past : list FileSystem }.

(** The empty path denotes nothing. *)
Definition lookup_path (p : str) (fs : FileSystem) : option Node :=
  match p with [] => None | _ => fs !! locate p end.

Definition is_directory (p : str) (fs : FileSystem) : bool := bool_decide (lookup_path p fs = Some NDir).
Definition is_regular_file (p : str) (fs : FileSystem) : bool :=
  match lookup_path p fs with Some (NFile _) => true | _ => false end.
Definition exists_path (p : str) (fs : FileSystem) : bool := bool_decide (is_Some (lookup_path p fs)).

Definition strictly_under (l l' : Location) : bool :=
  Bool.eqb (loc_absolute l) (loc_absolute l')
  && bool_decide (take (length (loc_names l)) (loc_names l') = loc_names l)
  && (length (loc_names l) <? length (loc_names l'))%nat.

Definition file_size (p : str) (fs : FileSystem) : expected unit Z :=
  match lookup_path p fs with Some (NFile bytes) => Ok (Z.of_nat (length bytes)) | _ => Err tt end.

(** [remove]: a file or an empty directory. *)
Definition remove (p : str) (fs : FileSystem) : FileSystem * expected unit bool :=
  match lookup_path p fs with
  | None => (fs, Ok false)
  | Some (NFile _) => (delete (locate p) fs, Ok true)
  | Some NDir =>
      if existsb (strictly_under (locate p)) (map fst (map_to_list fs)) then (fs, Err tt)
      else (delete (locate p) fs, Ok true)
  end.

(** [create_directories]: the missing ones on the way, none through a file. *)
Definition prefixes (l : Location) : list Location :=
  map (λ n, mkLoc (loc_absolute l) (take n (loc_names l))) (seq 0 (length (loc_names l) + 1)).

Definition create_directories (p : str) (fs : FileSystem) : FileSystem * expected unit unit :=
  let ways := prefixes (locate p) in
  if existsb (λ l, match fs !! l with Some (NFile _) => true | _ => false end) ways then (fs, Err tt)
  else (foldl (λ fs l, match fs !! l with Some _ => fs | None => <[l := NDir]> fs end) fs ways, Ok tt).

(** A stream opened for writing truncates or creates; a write that fails leaves a part. *)
Definition open_truncated (p : str) (fs : FileSystem) : FileSystem * expected unit unit :=
  match lookup_path p fs with
  | Some NDir => (fs, Err tt)
  | _ => if is_directory (parent_path p) fs || bool_decide (parent_path p = [])
         then match p with [] => (fs, Err tt) | _ => (<[locate p := NFile []]> fs, Ok tt) end
         else (fs, Err tt)
  end.

Definition rename (from to : str) (fs : FileSystem) : FileSystem * expected unit unit :=
  match lookup_path from fs with
  | Some (NFile bytes) =>
      match lookup_path to fs with
      | Some NDir => (fs, Err tt)
      | _ => if is_directory (parent_path to) fs || bool_decide (parent_path to = [])
             then match to with [] => (fs, Err tt) | _ => (<[locate to := NFile bytes]> (delete (locate from) fs), Ok tt) end
             else (fs, Err tt)
      end
  | _ => (fs, Err tt)
  end.

(** ** Calls *)

Section calls.
(** Whether the call at a time fails, how much a failing write leaves, and the order
    directories are listed in. *)
Context (fault : nat → bool) (partial : nat → nat) (listing : list (list str) → list (list str)).

Definition after (k : Disk) (fs : FileSystem) : Disk := mkDisk fs (S (k_clock k)) (k_past k ++ [fs]).

Definition call {A} (f : FileSystem → FileSystem * expected unit A) : ST Disk unit A := fun k =>
  if fault (k_clock k) then (after k (k_files k), Err tt)
  else let '(fs, r) := f (k_files k) in (after k fs, r).

Definition query {A} (f : FileSystem → A) : ST Disk unit A := call (λ fs, (fs, Ok (f fs))).

Definition write_bytes (p bytes : str) : ST Disk unit unit := fun k =>
  if fault (k_clock k)
  then (after k (<[locate p := NFile (take (partial (k_clock k)) bytes)]> (k_files k)), Err tt)
  else (after k (<[locate p := NFile bytes]> (k_files k)), Ok tt).

(** ** Directory iterators

    What is left to visit; at the end it is the end iterator, and an error of [increment]
    makes it the end iterator too. *)
Definition entries (p : str) (recursive : bool) (fs : FileSystem) : list (list str) :=
  let n := length (loc_names (locate p)) in
  listing (filter (λ names, recursive || (length names =? 1)%nat)
             (map (λ l, drop n (loc_names l)) (filter (λ l, strictly_under (locate p) l) (map fst (map_to_list fs))))).

Definition open_iterator (p : str) (recursive : bool) : ST Disk unit (list (list str)) :=
  call (λ fs, (fs, if is_directory p fs then Ok (entries p recursive fs) else Err tt)).

Definition increment (it : list (list str)) : Disk → Disk * (list (list str) * bool) := fun k =>
  match query (λ _, tt) k with
  | (k, Ok _) => (k, (tail it, false))
  | (k, Err _) => (k, ([], true))
  end.

(** [for (; it != end; it.increment(ec)) { if (ec) return broken; body(it) }] *)
Fixpoint iterate {E A} (fuel : nat) (broken : E) (body : list str → A → ST Disk E A) (it : list (list str)) (ec : bool) (acc : A) :
    ST Disk E A :=
  match fuel, it with
  | S fuel, entry :: _ =>
      if ec then st_fail broken
      else fun k =>
        match body entry acc k with
        | (k, Ok acc) => let '(k, (it, ec)) := increment it k in iterate fuel broken body it ec acc k
        | (k, Err e) => (k, Err e)
        end
  | _, _ => mret acc
  end.

(** [directory_entry::path]. *)
Definition entry_path (root : str) (names : list str) : str := path_append root (join_slash names).

(** ** The sink *)

Inductive AssetSinkError := NoSink | WriteFailed.

Record AssetSink := mkSink { d_puts : Z; d_written : Z; d_bytes : Z; s_counter : Z }.

Definition k_file : str := lit "file://".
Definition strip_file_scheme (uri : str) : str := if starts_with uri k_file then drop (length k_file) uri else uri.

Definition temp_name (tid counter : Z) : str :=
  lit ".arbc-tmp-" ++ lit (pretty (Z.to_N tid)) ++ lit "-" ++ lit (pretty (Z.to_N counter)).

Definition temp_path (tid : Z) (target : str) (sink : AssetSink) : AssetSink * str :=
  (mkSink (d_puts sink) (d_written sink) (d_bytes sink) (u64 (s_counter sink + 1)),
   path_append (parent_path target) (temp_name tid (s_counter sink))).

Definition contains (resolved_uri : str) : Disk → Disk * bool := fun k =>
  let '(k, present) := query (exists_path (strip_file_scheme resolved_uri)) k in
  (k, match present with Ok b => b | Err _ => false end).

(** Make the directories above the target, as far as they can be seen to be there. *)
Definition ensure_parent (parent : str) : ST Disk AssetSinkError unit := fun k =>
  match parent with
  | [] => (k, Ok tt)
  | _ =>
      let '(k, _) := call (create_directories parent) k in
      match query (is_directory parent) k with
      | (k, Ok true) => (k, Ok tt)
      | (k, _) => (k, Err WriteFailed)
      end
  end.

Definition write_temp (tmp bytes : str) : ST Disk AssetSinkError unit := fun k =>
  match call (open_truncated tmp) k with
  | (k, Err _) => (k, Err WriteFailed)
  | (k, Ok _) =>
      match write_bytes tmp bytes k with
      | (k, Ok _) => (k, Ok tt)
      | (k, Err _) => let '(k, _) := call (remove tmp) k in (k, Err WriteFailed)
      end
  end.

Definition publish_temp (tmp path : str) : ST Disk AssetSinkError bool := fun k =>
  match call (rename tmp path) k with
  | (k, Ok _) => (k, Ok true)
  | (k, Err _) =>
      let '(k, landed) := query (exists_path path) k in
      let '(k, _) := call (remove tmp) k in
      (k, match landed with Ok true => Ok false | _ => Err WriteFailed end)
  end.

(** The name is absent, as far as can be seen. *)
Definition put_new (tid : Z) (path bytes : str) (sink : AssetSink) : Disk → Disk * AssetSink * expected AssetSinkError bool := fun k =>
  match ensure_parent (parent_path path) k with
  | (k, Err e) => (k, sink, Err e)
  | (k, Ok _) =>
      let '(sink, tmp) := temp_path tid path sink in
      match write_temp tmp bytes k with
      | (k, Err e) => (k, sink, Err e)
      | (k, Ok _) =>
          match publish_temp tmp path k with
          | (k, Ok true) =>
              (k, mkSink (d_puts sink) (u64 (d_written sink + 1)) (u64 (d_bytes sink + Z.of_nat (length bytes))) (s_counter sink), Ok true)
          | (k, r) => (k, sink, r)
          end
      end
  end.

Definition put (tid : Z) (resolved_uri bytes : str) (sink : AssetSink) : Disk → Disk * AssetSink * expected AssetSinkError bool := fun k =>
  let sink := mkSink (u64 (d_puts sink + 1)) (d_written sink) (d_bytes sink) (s_counter sink) in
  let path := strip_file_scheme resolved_uri in
  match query (exists_path path) k with
  | (k, Ok true) => (k, sink, Ok false)
  | (k, _) => put_new tid path bytes sink k
  end.

(** ** [SaveContext]: the base a save resolves against, and its sink if it has one *)

Record SaveContext := mkSave { sc_base_uri : str; sc_params_only : bool; sc_asset_sink : option AssetSink }.

Definition store_asset (tid : Z) (relative_uri bytes : str) (ctx : SaveContext) : Disk → Disk * SaveContext * expected AssetSinkError bool := fun k =>
  if sc_params_only ctx then (k, ctx, Ok false)
  else match sc_asset_sink ctx with
  | None => (k, ctx, Err NoSink)
  | Some sink =>
      let '(k, sink, r) := put tid (resolve_uri (sc_base_uri ctx) relative_uri) bytes sink k in
      (k, mkSave (sc_base_uri ctx) (sc_params_only ctx) (Some sink), r)
  end.

Definition has_asset (relative_uri : str) (ctx : SaveContext) : Disk → Disk * bool := fun k =>
  if sc_params_only ctx then (k, true)
  else match sc_asset_sink ctx with
  | None => (k, false)
  | Some _ => contains (resolve_uri (sc_base_uri ctx) relative_uri) k
  end.

(** ** The source: the bytes [on_ready] is given *)

Record AssetSource := mkSource { d_requests : Z; d_hits : Z }.

(** A file as a stream gives it: opened, then read; either may fail. *)
Definition read_stream (path : str) : ST Disk unit str := fun k =>
  match call (λ fs, (fs, match lookup_path path fs with Some (NFile bytes) => Ok bytes | _ => Err tt end)) k with
  | (k, Ok bytes) => query (λ _, bytes) k
  | (k, Err _) => (k, Err tt)
  end.

Definition request (resolved_uri : str) (source : AssetSource) : Disk → Disk * AssetSource * str := fun k =>
  let source := mkSource (u64 (d_requests source + 1)) (d_hits source) in
  let path := strip_file_scheme resolved_uri in
  match query (is_regular_file path) k with
  | (k, Ok true) =>
      match read_stream path k with
      | (k, Ok bytes) => (k, mkSource (d_requests source) (u64 (d_hits source + 1)), bytes)
      | (k, Err _) => (k, source, [])
      end
  | (k, _) => (k, source, [])
  end.
End calls.

(** ** What a call does to the disk *)

Section store.
Context (fault : nat → bool) (partial : nat → nat).

(** True of the files, and of every state since the first one listed. *)
Definition stays (P : FileSystem → Prop) (k : Disk) : Prop := P (k_files k) ∧ Forall P (k_past k).

Lemma after_stays P k fs : stays P k → P fs → stays P (after k fs).
Proof. intros [_ HF] HP. split; [done|]. cbn. apply Forall_app. by split; [|apply Forall_singleton]. Qed.

Lemma call_cases {A} (f : FileSystem → FileSystem * expected unit A) k :
  call fault f k = (after k (k_files k), Err tt) ∧ fault (k_clock k) = true
  ∨ call fault f k = (after k (f (k_files k)).1, (f (k_files k)).2).
Proof. unfold call. destruct (fault _); [by left|right]. by destruct (f _). Qed.

Lemma call_stays {A} (f : FileSystem → FileSystem * expected unit A) P k :
  stays P k → (P (k_files k) → P (f (k_files k)).1) → stays P (call fault f k).1.
Proof. intros HP Hf. destruct (call_cases f k) as [[-> _]| ->]; apply after_stays; firstorder. Qed.

Lemma query_spec {A} (f : FileSystem → A) k :
  k_files (query fault f k).1 = k_files k ∧ (∀ P, stays P k → stays P (query fault f k).1) ∧
  match (query fault f k).2 with Ok a => a = f (k_files k) | Err _ => ∃ n, fault n = true end.
Proof.
  unfold query. destruct (call_cases (λ fs, (fs, Ok (f fs))) k) as [[-> Hf]| ->]; cbn [fst snd]; split_and!; try done.
  - intros P HP. apply after_stays; [done|apply HP].
  - eauto.
  - intros P HP. apply after_stays; [done|apply HP].
Qed.

(** A function of the files that leaves every other location alone. *)
Definition only {A} (l0 : Location) (f : FileSystem → FileSystem * A) : Prop :=
  ∀ fs l, l ≠ l0 → (f fs).1 !! l = fs !! l.

Lemma remove_only p : only (locate p) (remove p).
Proof.
  intros fs l Hl. unfold remove. destruct (lookup_path p fs) as [[bytes|]|]; [|destruct (existsb _ _)|]; cbn [fst]; try done;
    by rewrite lookup_delete_ne.
Qed.

Lemma open_only p : only (locate p) (open_truncated p).
Proof.
  intros fs l Hl. unfold open_truncated.
  destruct (lookup_path p fs) as [[]|], (is_directory (parent_path p) fs || bool_decide (parent_path p = [])), p; cbn [fst]; try done; by rewrite lookup_insert_ne.
Qed.

(** Directories are added, nothing else. *)
Definition grown (fs fs' : FileSystem) (l : Location) : Prop := fs' !! l = fs !! l ∨ (fs !! l = None ∧ fs' !! l = Some NDir).

Lemma create_directories_spec p fs :
  let '(fs', r) := create_directories p fs in
  (∀ l, grown fs fs' l) ∧ (∀ l, l ∉ prefixes (locate p) → fs' !! l = fs !! l) ∧
  match r with
  | Ok _ => fs' !! locate p = Some NDir
  | Err _ => ∃ l bytes, l ∈ prefixes (locate p) ∧ fs !! l = Some (NFile bytes)
  end.
Proof.
  unfold create_directories. destruct (existsb _ _) eqn:E.
  { split_and!; [by left|done|]. apply existsb_exists in E as (l & Hl & E). destruct (fs !! l) as [[bytes|]|] eqn:El; try done.
    exists l, bytes. by rewrite list_elem_of_In. }
  assert (∀ l bytes, l ∈ prefixes (locate p) → fs !! l ≠ Some (NFile bytes)) as Hno.
  { intros l bytes Hl El. apply not_true_iff_false in E. apply E, existsb_exists. exists l. rewrite El, <- list_elem_of_In. done. }
  assert (locate p ∈ prefixes (locate p)) as Hin.
  { unfold prefixes. apply list_elem_of_fmap. exists (length (loc_names (locate p))). split; [|apply elem_of_seq; lia].
    rewrite take_ge by lia. by destruct (locate p). }
  clear E. revert fs Hno.
  assert (∀ ways fs, (∀ l bytes, l ∈ ways → fs !! l ≠ Some (NFile bytes)) →
    let fs' := foldl (λ fs l, match fs !! l with Some _ => fs | None => <[l := NDir]> fs end) fs ways in
    (∀ l, grown fs fs' l) ∧ (∀ l, l ∉ ways → fs' !! l = fs !! l) ∧ (∀ l, l ∈ ways → fs' !! l = Some NDir)) as H.
  2: { intros fs Hno. destruct (H _ fs Hno) as (H1 & H2 & H3). split_and!; [done|done|by apply H3]. }
  clear. induction ways as [|w ways IH]; intros fs Hno; cbn [foldl]; cbv zeta.
  { split_and!; [by left|done|by intros l ?%not_elem_of_nil]. }
  set (fs1 := match fs !! w with Some _ => fs | None => <[w := NDir]> fs end).
  assert (∀ l, l ≠ w → fs1 !! l = fs !! l) as Hother.
  { intros l Hl. unfold fs1. destruct (fs !! w); [done|]. by rewrite lookup_insert_ne. }
  assert (fs1 !! w = Some NDir) as Hw.
  { unfold fs1. destruct (fs !! w) as [[bytes|]|] eqn:E; [by destruct (Hno w bytes (list_elem_of_here _ _))|done|by rewrite lookup_insert_eq]. }
  assert (grown fs fs1 w) as Hgw.
  { unfold grown, fs1. destruct (fs !! w) eqn:E; [by left; rewrite E|right]. by rewrite lookup_insert_eq. }
  destruct (IH fs1) as (H1 & H2 & H3).
  { intros l bytes Hl. destruct (decide (l = w)) as [->|]; [by rewrite Hw|]. rewrite Hother by done. apply Hno. by right. }
  split_and!.
  - intros l. destruct (decide (l = w)) as [->|Hl].
    + destruct (H1 w) as [E|[E _]]; [|congruence]. unfold grown in *. by rewrite E.
    + unfold grown. specialize (H1 l). unfold grown in H1. rewrite !(Hother l) in H1 by done. done.
  - intros l Hl. rewrite H2, Hother; [done|intros ->; apply Hl; by left|intros ?; apply Hl; by right].
  - intros l [->|Hl]%elem_of_cons; [|by apply H3]. destruct (H1 w) as [E|[E _]]; congruence.
Qed.
End store.

(** ** The sink is crash-atomic *)

Section put.
Context (fault : nat → bool) (partial : nat → nat).

Definition temp_prefix : str := lit ".arbc-tmp-".
Definition is_temp (l : Location) : Prop := ∃ name, last (loc_names l) = Some name ∧ starts_with name temp_prefix = true.

Lemma lookup_path_ne p fs : p ≠ [] → lookup_path p fs = fs !! locate p.
Proof. by destruct p. Qed.

(** The target as it was; besides it and the temporary, only directories are new. *)
Definition untouched (fs0 : FileSystem) (target tmp : Location) (fs : FileSystem) : Prop :=
  fs !! target = fs0 !! target ∧ ∀ l, l ≠ target → l ≠ tmp → grown fs0 fs l.
Definition replaced (bytes : str) (fs0 : FileSystem) (target tmp : Location) (fs : FileSystem) : Prop :=
  fs !! target = Some (NFile bytes) ∧ ∀ l, l ≠ target → l ≠ tmp → grown fs0 fs l.

Lemma untouched_only {A} fs0 target tmp (f : FileSystem → FileSystem * A) fs :
  only tmp f → tmp ≠ target → untouched fs0 target tmp fs → untouched fs0 target tmp (f fs).1.
Proof.
  intros Ho Hne [H1 H2]. split; [by rewrite Ho by done|]. intros l Hl Ht. unfold grown. rewrite Ho by done. by apply H2.
Qed.

Lemma untouched_insert fs0 target tmp node fs :
  tmp ≠ target → untouched fs0 target tmp fs → untouched fs0 target tmp (<[tmp := node]> fs).
Proof.
  intros Hne [H1 H2]. split; [by rewrite lookup_insert_ne|]. intros l Hl Ht. unfold grown. rewrite lookup_insert_ne by done. by apply H2.
Qed.

Lemma grown_trans fs0 fs1 fs2 l : grown fs0 fs1 l → grown fs1 fs2 l → grown fs0 fs2 l.
Proof. unfold grown. intros [E1|[E1 E1']] [E2|[E2 E2']]; try congruence; [left|right|right]; split || idtac; congruence. Qed.

Lemma ensure_parent_spec parent fs0 target tmp k :
  target ∉ prefixes (locate parent) → tmp ∉ prefixes (locate parent) → stays (untouched fs0 target tmp) k →
  let '(k', r) := ensure_parent fault parent k in
  stays (untouched fs0 target tmp) k' ∧ k_files k' !! tmp = k_files k !! tmp ∧
  match r with
  | Ok _ => parent = [] ∨ k_files k' !! locate parent = Some NDir
  | Err _ => (∃ n, fault n = true) ∨ ∃ l bytes, l ∈ prefixes (locate parent) ∧ k_files k !! l = Some (NFile bytes)
  end.
Proof.
  intros Hl Ht Hk. unfold ensure_parent. destruct (decide (parent = [])) as [->|Hp]; [by split_and!; [| |left]|].
  destruct parent as [|c parent']; [done|]. set (parent := c :: parent') in *.
  pose proof (create_directories_spec parent (k_files k)) as Hc. pose proof (call_stays fault (create_directories parent)) as Hs.
  destruct (call_cases fault (create_directories parent) k) as [[E Hf]|E].
  - pose proof (query_spec fault (is_directory parent) (call fault (create_directories parent) k).1) as (Eq & Hq & Hr).
    rewrite E in *. cbn [fst] in *. destruct (query fault (is_directory parent) _) as [k2 r]. cbn [fst snd] in *.
    specialize (Hq _ (after_stays _ k (k_files k) Hk (proj1 Hk))). cbn [after k_files] in *. destruct r as [[|]|]; rewrite Eq; split_and!; eauto.
    right. symmetry in Hr. apply bool_decide_eq_true in Hr. exact Hr.
  - destruct (create_directories parent (k_files k)) as [fs r0] eqn:Ef. destruct Hc as (H1 & H2 & H3).
    assert (untouched fs0 target tmp fs) as HU.
    { destruct Hk as [[U1 U2] _]. split; [by rewrite H2|]. intros l Hl1 Hl2. eapply grown_trans; [by apply U2|apply H1]. }
    pose proof (query_spec fault (is_directory parent) (call fault (create_directories parent) k).1) as (Eq & Hq & Hr).
    rewrite E in *. cbn [fst snd] in *. destruct (query fault (is_directory parent) _) as [k2 r]. cbn [fst snd] in *.
    specialize (Hq _ (after_stays _ k fs Hk HU)). cbn [after k_files] in *.
    assert (is_directory parent fs = true ↔ fs !! locate parent = Some NDir) as Hd by (apply bool_decide_eq_true).
    destruct r as [[|]|]; rewrite Eq; split_and!; eauto.
    + right. by apply Hd.
    + right. destruct r0 as [|]; [|done]. apply Hd in H3. congruence.
Qed.

Lemma write_temp_spec tmp bytes fs0 target k :
  tmp ≠ [] → locate tmp ≠ target → stays (untouched fs0 target (locate tmp)) k →
  let '(k', r) := write_temp fault partial tmp bytes k in
  stays (untouched fs0 target (locate tmp)) k' ∧
  match r with
  | Ok _ => k_files k' !! locate tmp = Some (NFile bytes) ∧ ∀ l, l ≠ locate tmp → k_files k' !! l = k_files k !! l
  | Err _ => (∃ n, fault n = true) ∨ k_files k !! locate tmp = Some NDir
             ∨ (parent_path tmp ≠ [] ∧ k_files k !! locate (parent_path tmp) ≠ Some NDir)
  end.
Proof.
  intros Ht Hne Hk. unfold write_temp. destruct (call_cases fault (open_truncated tmp) k) as [[-> Hf]| ->].
  { split; [by apply after_stays; [|apply Hk]|eauto]. }
  pose proof (untouched_only fs0 target (locate tmp) (open_truncated tmp) (k_files k) (open_only tmp) Hne (proj1 Hk)) as HU.
  pose proof (open_only tmp (k_files k)) as Ho.
  destruct (open_truncated tmp (k_files k)) as [fs [u|e]] eqn:E; cbn [fst snd] in *.
  - apply (after_stays _ _ _ Hk) in HU. unfold write_bytes. set (k1 := after k fs) in *.
    assert (∀ b, untouched fs0 target (locate tmp) (<[locate tmp := NFile b]> (k_files k1))) as Hi.
    { intros b. by apply untouched_insert; [|apply HU]. }
    destruct (fault (k_clock k1)) eqn:Hf.
    + pose proof (call_stays fault (remove tmp) (untouched fs0 target (locate tmp))
        (after k1 (<[locate tmp := NFile (take (partial (k_clock k1)) bytes)]> (k_files k1)))) as Hr.
      destruct (call fault (remove tmp) _) as [k2 r]. split; [|eauto]. apply Hr; [by apply after_stays|].
      intros Hx. by apply untouched_only; [apply remove_only| |].
    + split; [by apply after_stays|]. cbn. split; [by rewrite lookup_insert_eq|]. intros l Hl. rewrite lookup_insert_ne by done. by apply Ho.
  - split; [by apply after_stays|]. right. unfold open_truncated in E. rewrite lookup_path_ne in E by done.
    destruct (k_files k !! locate tmp) as [[]|] eqn:El; [|by left|];
      (destruct (is_directory _ _) eqn:Hd; cbn [orb] in E; [by destruct tmp|]; destruct (bool_decide _) eqn:Hb; [by destruct tmp|];
       right; apply bool_decide_eq_false in Hb; split; [done|]; unfold is_directory in Hd; rewrite lookup_path_ne in Hd by done;
       by apply bool_decide_eq_false in Hd).
Qed.
Definition before_or_after (bytes : str) (fs0 : FileSystem) (target tmp : Location) (fs : FileSystem) : Prop :=
  untouched fs0 target tmp fs ∨ replaced bytes fs0 target tmp fs.

Lemma stays_impl (P Q : FileSystem → Prop) k : (∀ fs, P fs → Q fs) → stays P k → stays Q k.
Proof. intros HPQ [H1 H2]. split; [by apply HPQ|]. by eapply Forall_impl. Qed.

Lemma rename_spec from to bytes fs :
  from ≠ [] → to ≠ [] → locate from ≠ locate to → fs !! locate from = Some (NFile bytes) →
  match rename from to fs with
  | (fs', Ok _) => fs' !! locate to = Some (NFile bytes) ∧ fs' !! locate from = None ∧
      ∀ l, l ≠ locate to → l ≠ locate from → fs' !! l = fs !! l
  | (fs', Err _) => fs' = fs ∧ (fs !! locate to = Some NDir ∨ (parent_path to ≠ [] ∧ fs !! locate (parent_path to) ≠ Some NDir))
  end.
Proof.
  intros Hf Ht Hne E. unfold rename. rewrite !lookup_path_ne, E by done.
  destruct (fs !! locate to) as [[]|] eqn:El; [|by split; [|left]|];
    (destruct (is_directory (parent_path to) fs || bool_decide (parent_path to = [])) eqn:Hd;
     [destruct to; [done|]; split_and!;
        [by rewrite lookup_insert_eq|by rewrite lookup_insert_ne, lookup_delete_eq by done
        |by intros l H1 H2; rewrite lookup_insert_ne, lookup_delete_ne by done]
     |split; [done|]; right; apply orb_false_iff in Hd as [Hd Hb]; apply bool_decide_eq_false in Hb; split; [done|];
      unfold is_directory in Hd; rewrite lookup_path_ne in Hd by done; by apply bool_decide_eq_false in Hd]).
Qed.

Lemma publish_temp_spec tmp path bytes fs0 k :
  tmp ≠ [] → path ≠ [] → locate tmp ≠ locate path → stays (untouched fs0 (locate path) (locate tmp)) k →
  k_files k !! locate tmp = Some (NFile bytes) →
  let '(k', r) := publish_temp fault tmp path k in
  stays (before_or_after bytes fs0 (locate path) (locate tmp)) k' ∧
  match r with
  | Ok true => k_files k' !! locate path = Some (NFile bytes) ∧ k_files k' !! locate tmp = None
  | Ok false => untouched fs0 (locate path) (locate tmp) (k_files k') ∧ is_Some (k_files k' !! locate path)
  | Err _ => untouched fs0 (locate path) (locate tmp) (k_files k') ∧
      ((∃ n, fault n = true) ∨ k_files k !! locate path = Some NDir
       ∨ (parent_path path ≠ [] ∧ k_files k !! locate (parent_path path) ≠ Some NDir))
  end.
Proof.
  intros Ht Hp Hne Hk Htmp. unfold publish_temp. set (U := untouched fs0 (locate path) (locate tmp)) in *.
  (* an [ec] from [rename] leaves the files as they were *)
  assert (∀ k1, stays U k1 → k_files k1 = k_files k →
    ((∃ n, fault n = true) ∨ k_files k !! locate path = Some NDir
       ∨ (parent_path path ≠ [] ∧ k_files k !! locate (parent_path path) ≠ Some NDir)) →
    let '(k2, landed) := query fault (exists_path path) k1 in
    let '(k3, _) := call fault (remove tmp) k2 in
    stays U k3 ∧ match landed with
      | Ok true => is_Some (k_files k3 !! locate path)
      | _ => (∃ n, fault n = true) ∨ k_files k !! locate path = Some NDir
             ∨ (parent_path path ≠ [] ∧ k_files k !! locate (parent_path path) ≠ Some NDir) end) as Hfail.
  { intros k1 HU Ek Hwhy. destruct (query_spec fault (exists_path path) k1) as (Eq & Hq & Hr).
    destruct (query fault (exists_path path) k1) as [k2 landed]. cbn [fst snd] in *. apply Hq in HU.
    pose proof (call_stays fault (remove tmp) U k2 HU) as Hs. pose proof (call_cases fault (remove tmp) k2) as Hcc.
    pose proof (remove_only tmp (k_files k2) (locate path) (not_eq_sym Hne)) as Ho.
    destruct (call fault (remove tmp) k2) as [k3 rr]. cbn [fst snd] in *. split.
    { apply Hs. intros HUk. apply untouched_only; [apply remove_only|done|done]. }
    destruct landed as [[|]|]; [|done..]. symmetry in Hr. apply bool_decide_eq_true in Hr.
    rewrite lookup_path_ne, <- Eq in Hr by done. destruct Hcc as [[[= -> _] _]|[= -> _]]; cbn [after k_files]; [done|by rewrite Ho]. }
  destruct (call_cases fault (rename tmp path) k) as [[-> Hf]| ->].
  - specialize (Hfail (after k (k_files k)) (after_stays _ _ _ Hk (proj1 Hk)) eq_refl (or_introl (ex_intro _ _ Hf))).
    destruct (query _ _ _) as [k2 landed]. destruct (call _ _ _) as [k3 rr]. destruct Hfail as [HU Hl].
    split; [eapply stays_impl; [|exact HU]; by left|]. destruct landed as [[|]|]; split; first [apply HU|done].
  - pose proof (rename_spec tmp path bytes (k_files k) Ht Hp Hne Htmp) as Hr. destruct (rename tmp path (k_files k)) as [fs [u|e]]; cbn [fst snd].
    + destruct Hr as (Hr1 & Hr2 & Hr3). split; [|done]. apply after_stays; [eapply stays_impl; [|exact Hk]; by left|].
      right. split; [done|]. intros l Hl1 Hl2. unfold grown. rewrite Hr3 by done. by apply Hk.
    + destruct Hr as [-> Hwhy]. specialize (Hfail (after k (k_files k)) (after_stays _ _ _ Hk (proj1 Hk)) eq_refl (or_intror Hwhy)).
      destruct (query _ _ _) as [k2 landed]. destruct (call _ _ _) as [k3 rr]. destruct Hfail as [HU Hl].
      split; [eapply stays_impl; [|exact HU]; by left|]. destruct landed as [[|]|]; split; first [apply HU|done].
Qed.

(** ** The temporary name *)

Lemma pretty_free (n : N) : slash_free (lit (pretty n)).
Proof.
  assert (∀ m s, slash_free (lit s) → slash_free (lit (pretty_N_go m s))) as H.
  2: { unfold pretty, pretty_N. destruct (decide _); [|apply H; apply not_elem_of_nil]. unfold slash_free. cbn.
       intros Hin. apply list_elem_of_singleton in Hin. discriminate. }
  intros m. induction (N.lt_wf_0 m) as [m _ IH]. intros s Hs. destruct (decide (m = 0%N)) as [->|Hm]; [by rewrite pretty_N_go_0|].
  rewrite pretty_N_go_step by lia. apply IH; [apply N.div_lt; lia|]. cbn. intros [E|Hin]%elem_of_cons; [|by apply Hs].
  unfold pretty_N_char in E. destruct (m mod 10)%N as [|p]; [discriminate|]. repeat (destruct p as [p|p|]; try discriminate).
Qed.

Lemma temp_name_proper tid c : proper (temp_name tid c) ∧ starts_with (temp_name tid c) temp_prefix = true.
Proof.
  unfold temp_name. split; [|by apply bool_decide_eq_true].
  split_and!; [|done..]. unfold slash_free. rewrite !elem_of_app. intros [H|[H|[H|H]]].
  - unfold lit, slash in H. cbn in H. repeat (apply elem_of_cons in H as [H|H]; [discriminate|]). by apply not_elem_of_nil in H.
  - by apply pretty_free in H.
  - cbn in H. apply list_elem_of_singleton in H. discriminate.
  - by apply pretty_free in H.
Qed.

Lemma prefixes_shorter q l : l ∈ prefixes q → (length (loc_names l) <= length (loc_names q))%nat.
Proof. unfold prefixes. intros (n & -> & _)%list_elem_of_fmap. cbn. rewrite length_take. lia. Qed.

Lemma below_not_prefix l name : below l [name] ∉ prefixes l.
Proof. intros H%prefixes_shorter. cbn in H. rewrite length_app in H. cbn in H. lia. Qed.

Lemma proper_ne p : proper (basename_of p) → p ≠ [].
Proof. intros (_ & H & _) ->. done. Qed.
Lemma self_prefix q : q ∈ prefixes q.
Proof.
  unfold prefixes. apply list_elem_of_fmap. exists (length (loc_names q)). split; [|apply elem_of_seq; lia].
  rewrite take_ge by lia. by destruct q.
Qed.

Lemma dir_part_free s : slash_free s → dir_part s = [].
Proof.
  induction s as [|c s IH]; intros Hf; [done|]. cbn. rewrite IH by (intros ?; apply Hf; by right).
  rewrite decide_False; [done|]. intros ->. apply Hf. by left.
Qed.

(** The temporary sits beside its target. *)
Lemma temp_path_spec tid path sink (Hp : proper (basename_of path)) :
  let '(_, tmp) := temp_path tid path sink in
  tmp ≠ [] ∧ locate tmp = below (locate (parent_path path)) [temp_name tid (s_counter sink)] ∧
  locate (parent_path tmp) = locate (parent_path path) ∧ (parent_path path = [] → parent_path tmp = []).
Proof.
  unfold temp_path. set (name := temp_name tid (s_counter sink)). set (tmp := path_append (parent_path path) name).
  destruct (temp_name_proper tid (s_counter sink)) as [Hname _]. fold name in Hname.
  assert (basename_of tmp = name) as Eb by (apply append_basename; apply Hname).
  assert (locate tmp = below (locate (parent_path path)) [name]) as Etmp by (by apply locate_append_name).
  split_and!; [|done| |].
  - intros E. rewrite E in Eb. cbn in Eb. by destruct Hname as (_ & H & _).
  - apply below_inj with name. rewrite <- Etmp. rewrite <- Eb at 1. symmetry. apply locate_parent. by rewrite Eb.
  - intros E. unfold tmp. rewrite E. unfold path_append. cbn [last]. destruct (is_absolute name) eqn:Ea;
      unfold parent_path; rewrite dir_part_free by apply Hname; done.
Qed.

Lemma put_new_spec tid path bytes sink fs k (Hp : proper (basename_of path)) :
  let '(_, tmp) := temp_path tid path sink in
  locate tmp ≠ locate path → stays (untouched fs (locate path) (locate tmp)) k → k_files k = fs →
  let '(k', _, r) := put_new fault partial tid path bytes sink k in
  stays (before_or_after bytes fs (locate path) (locate tmp)) k' ∧
  match r with
  | Ok true => k_files k' !! locate path = Some (NFile bytes) ∧ k_files k' !! locate tmp = None
  | Ok false => is_Some (k_files k' !! locate path)
  | Err _ => k_files k' !! locate path = fs !! locate path ∧
      ((∃ n, fault n = true) ∨ fs !! locate path = Some NDir ∨ fs !! locate tmp = Some NDir
       ∨ ∃ l b, l ∈ prefixes (locate (parent_path path)) ∧ fs !! l = Some (NFile b))
  end.
Proof.
  pose proof (temp_path_spec tid path sink Hp) as Ht. unfold put_new. destruct (temp_path tid path sink) as [sink1 tmp].
  destruct Ht as (Htne & Etmp & Eparent & Hnil). intros Hne HU <-. pose proof (locate_parent path Hp) as Epath.
  pose proof (proper_ne path Hp) as Hpne. set (U := untouched (k_files k) (locate path) (locate tmp)) in *.
  assert (∀ k', stays U k' → stays (before_or_after bytes (k_files k) (locate path) (locate tmp)) k') as Hleft.
  { intros k' Hk. eapply stays_impl; [|exact Hk]. by left. }
  pose proof (ensure_parent_spec (parent_path path) (k_files k) (locate path) (locate tmp) k) as He.
  destruct (ensure_parent fault (parent_path path) k) as [k2 [u|?]];
    (destruct He as (Hs2 & Et2 & He); [rewrite Epath; apply below_not_prefix|rewrite Etmp; apply below_not_prefix|done|]).
  2: { split; [by apply Hleft|]. split; [apply Hs2|tauto]. }
  pose proof (write_temp_spec tmp bytes (k_files k) (locate path) k2 Htne Hne Hs2) as Hw.
  destruct (write_temp fault partial tmp bytes k2) as [k3 [u'|?]]; destruct Hw as [Hs3 Hw].
  2: { split; [by apply Hleft|]. split; [apply Hs3|]. destruct Hw as [?|[Hd|[Hn Hd]]]; [tauto|right; right; left; congruence|].
       rewrite Eparent in Hd. destruct He as [E|E]; [by apply Hnil in E|done]. }
  destruct Hw as [Hw1 Hw2]. pose proof (publish_temp_spec tmp path bytes (k_files k) k3 Htne Hpne Hne Hs3 Hw1) as Hpub.
  destruct (publish_temp fault tmp path k3) as [k4 [[|]|?]]; destruct Hpub as [Hs4 Hpub]; (split; [done|]); [done|apply Hpub|].
  destruct Hpub as [HU4 Hpub]. split; [apply HU4|]. destruct Hpub as [?|[Hd|[Hn Hd]]]; [tauto| |].
  - right; left. rewrite <- Hd. symmetry. apply Hs3.
  - destruct He as [E|E]; [done|]. rewrite Hw2 in Hd; [done|]. rewrite Etmp. intros E'. apply (below_not_prefix (locate (parent_path path)) (temp_name tid (s_counter sink))).
    rewrite <- E'. apply self_prefix.
Qed.
Lemma temp_elsewhere tid sink path :
  proper (basename_of path) → starts_with (basename_of path) temp_prefix = false →
  is_temp (locate (temp_path tid path sink).2) ∧ locate (temp_path tid path sink).2 ≠ locate path.
Proof.
  intros Hp Hs. pose proof (temp_path_spec tid path sink Hp) as Ht. destruct (temp_name_proper tid (s_counter sink)) as [_ Hn].
  destruct (temp_path tid path sink) as [sink1 tmp]. destruct Ht as (_ & Etmp & _). cbn [snd]. rewrite Etmp. split.
  - exists (temp_name tid (s_counter sink)). cbn. by rewrite last_snoc.
  - intros E. rewrite (locate_parent path Hp) in E. unfold below in E. injection E as E. apply app_inj_tail in E as [_ E]. congruence.
Qed.

(** C29: saving a blob is atomic: whatever calls fail, and wherever the process dies, the
    target is as it was or holds every byte, and nothing else changes but the temporary and
    new directories; [true] means the bytes are there, [false] that the name already was,
    an error that nothing changed -- and without failing calls, a blob not there, with
    nothing in its way, is written. *)
Theorem put_atomic tid uri bytes sink fs n
  (Hp : proper (basename_of (strip_file_scheme uri)))
  (Hs : starts_with (basename_of (strip_file_scheme uri)) temp_prefix = false) :
  let target := locate (strip_file_scheme uri) in
  let '(k, sink', r) := put fault partial tid uri bytes sink (mkDisk fs n []) in
  (∀ fs', fs' ∈ k_files k :: k_past k →
     (fs' !! target = fs !! target ∨ fs' !! target = Some (NFile bytes)) ∧
     ∀ l, l ≠ target → ¬ is_temp l → grown fs fs' l) ∧
  match r with
  | Ok true => k_files k !! target = Some (NFile bytes)
  | Ok false => is_Some (k_files k !! target)
  | Err _ => k_files k !! target = fs !! target ∧
      ((∃ m, fault m = true) ∨ fs !! target = Some NDir ∨ (∃ l, is_temp l ∧ fs !! l = Some NDir)
       ∨ ∃ l b, l ∈ prefixes (locate (parent_path (strip_file_scheme uri))) ∧ fs !! l = Some (NFile b))
  end.
Proof.
  cbv zeta. set (path := strip_file_scheme uri) in *. unfold put. fold path. cbv zeta.
  set (sink1 := mkSink _ _ _ _). destruct (temp_elsewhere tid sink1 path Hp Hs) as [Htemp Hne].
  pose proof (λ k, put_new_spec tid path bytes sink1 fs k Hp) as Hput. destruct (temp_path tid path sink1) as [sink2 tmp]. cbn [snd] in *.
  set (P := before_or_after bytes fs (locate path) (locate tmp)) in *.
  assert (∀ k, stays P k → ∀ fs', fs' ∈ k_files k :: k_past k →
     (fs' !! locate path = fs !! locate path ∨ fs' !! locate path = Some (NFile bytes)) ∧
     ∀ l, l ≠ locate path → ¬ is_temp l → grown fs fs' l) as Hall.
  { intros k [H1 H2] fs' Hin. assert (P fs') as HP by (apply elem_of_cons in Hin as [->|Hin]; [done|by eapply Forall_forall]).
    destruct HP as [[E H]|[E H]]; (split; [by eauto|]); intros l Hl Ht; apply H; try done; by intros ->. }
  assert (stays (untouched fs (locate path) (locate tmp)) (mkDisk fs n [])) as HU by (split; [split; [done|by left]|constructor]).
  destruct (query_spec fault (exists_path path) (mkDisk fs n [])) as (Eq & Hq & Hr). specialize (Hq _ HU).
  destruct (query fault (exists_path path) (mkDisk fs n [])) as [k1 present]. cbn [fst snd k_files] in *.
  specialize (Hput k1 Hne Hq Eq).
  assert (let '(k, _, r) := put_new fault partial tid path bytes sink1 k1 in
    (∀ fs', fs' ∈ k_files k :: k_past k →
     (fs' !! locate path = fs !! locate path ∨ fs' !! locate path = Some (NFile bytes)) ∧
     ∀ l, l ≠ locate path → ¬ is_temp l → grown fs fs' l) ∧ match r with
  | Ok true => k_files k !! locate path = Some (NFile bytes)
  | Ok false => is_Some (k_files k !! locate path)
  | Err _ => k_files k !! locate path = fs !! locate path ∧
      ((∃ m, fault m = true) ∨ fs !! locate path = Some NDir ∨ (∃ l, is_temp l ∧ fs !! l = Some NDir)
       ∨ ∃ l b, l ∈ prefixes (locate (parent_path path)) ∧ fs !! l = Some (NFile b))
  end) as Hnew.
  { destruct (put_new fault partial tid path bytes sink1 k1) as [[k2 sink3] [[|]|e]]; destruct Hput as [Hst Hres];
      (split; [by apply Hall|]); [apply Hres|done|]. destruct Hres as [? [?|[?|[?|?]]]]; split; eauto 6. }
  destruct present as [[|]|]; [|done|done]. split; [apply Hall; eapply stays_impl; [|exact Hq]; by left|].
  symmetry in Hr. apply bool_decide_eq_true in Hr. rewrite lookup_path_ne in Hr by by apply proper_ne. by rewrite Eq.
Qed.
End put.


(** ** Closed runs *)

Definition demo_files : FileSystem := <[mkLoc true [] := NDir]> (<[mkLoc true [lit "p"] := NDir]> ∅).
Definition demo_sink : AssetSink := mkSink 0 0 0 0.
Definition demo_uri : str := lit "file:///p/assets/tiles/3f/3f00".
Definition never (n : nat) : bool := false.
(** The write of the bytes, and the removal of what it left, fail. *)
Definition full_disk (n : nat) : bool := bool_decide (n = 4%nat ∨ n = 5%nat).
Definition part_written (n : nat) : nat := 2%nat.

Example put_writes :
  let '(k, sink, r) := put never part_written 7 demo_uri (lit "bytes") demo_sink (mkDisk demo_files 0 []) in
  (k_files k !! locate (lit "/p/assets/tiles/3f/3f00"), r, sink) = (Some (NFile (lit "bytes")), Ok true, mkSink 1 1 5 1) ∧
  (let '(_, source, bytes) := request never demo_uri (mkSource 0 0) k in (source, bytes)) = (mkSource 1 1, lit "bytes").
Proof. vm_compute. done. Qed.

Lemma put_atomic_witness :
  let '(k, _, r) := put full_disk part_written 7 demo_uri (lit "bytes") demo_sink (mkDisk demo_files 0 []) in
  k_files k !! locate (lit "/p/assets/tiles/3f/3f00") = None ∧ r = Err WriteFailed.
Proof.
  assert (proper (basename_of (strip_file_scheme demo_uri))) as Hp by (apply (bool_decide_unpack _); vm_compute; exact I).
  assert (starts_with (basename_of (strip_file_scheme demo_uri)) temp_prefix = false) as Hs by (vm_compute; reflexivity).
  pose proof (put_atomic full_disk part_written 7 demo_uri (lit "bytes") demo_sink demo_files 0 Hp Hs) as H.
  assert (locate (strip_file_scheme demo_uri) = locate (lit "/p/assets/tiles/3f/3f00")) as El by (vm_compute; reflexivity).
  assert (demo_files !! locate (lit "/p/assets/tiles/3f/3f00") = None) as En by (vm_compute; reflexivity).
  assert ((put full_disk part_written 7 demo_uri (lit "bytes") demo_sink (mkDisk demo_files 0 [])).2 = Err WriteFailed) as Er
    by (vm_compute; reflexivity).
  cbv zeta in H. rewrite El in H.
  destruct (put full_disk part_written 7 demo_uri (lit "bytes") demo_sink (mkDisk demo_files 0 [])) as [[k sink] r]. cbn [snd] in Er. subst r.
  destruct H as [_ [H _]]. rewrite En in H. exact (conj H eq_refl).
Defined.
