(* ===== verification/Json.v ===== *)
(** * JSON values and preserved fields ([src/src/serialize/unknown_fields.cpp])

    The values of [nlohmann::json], the access the format code makes of them, and the two
    operations behind the preservation of fields this version does not know: the residual a
    load sets aside and the merge a save folds back.  An object is the list of its members in
    ascending byte order of their names, as the [std::map] behind it iterates them; text is
    parsed and printed by the library, and stays outside. *)

From S2P Require Import Prelude Geometry Uri.
From Stdlib Require Import Ascii SpecFloat.
From stdpp Require Import sorting.
Local Open Scope list_scope.

(** ** Values *)

(** A number is an integer (of either sign) or a real. *)
Inductive json :=
| JObject (members : list (str * json))
| JArray (elements : list json)
| JString (s : str)
| JNull
| JBool (b : bool)
| JInt (z : Z)
| JReal (d : double).

Section json_induction.
Context (P : json → Prop)
  (Hobject : ∀ fields, Forall P (map snd fields) → P (JObject fields))
  (Harray : ∀ elements, Forall P elements → P (JArray elements))
  (Hleaf : ∀ v, match v with JObject _ | JArray _ => False | _ => True end → P v).

Fixpoint json_nested_ind (node : json) : P node :=
  match node with
  | JObject fields =>
      Hobject fields ((fix members (fields : list (str * json)) : Forall P (map snd fields) :=
        match fields return Forall P (map snd fields) with
        | [] => @List.Forall_nil _ P
        | (_, value) :: fields => @List.Forall_cons _ P value _ (json_nested_ind value) (members fields)
        end) fields)
  | JArray elements =>
      Harray elements ((fix items (elements : list json) : Forall P elements :=
        match elements with
        | [] => @List.Forall_nil _ P
        | v :: elements => @List.Forall_cons _ P v _ (json_nested_ind v) (items elements)
        end) elements)
  | v => Hleaf v I
  end.
End json_induction.

(** What a load reports ([reader.hpp]). *)
Inductive ReaderErrorKind := MalformedJson | UnknownFormatMajor | MissingRequiredField | MalformedField | UnresolvableReference.
Record ReaderError := mkReaderError { re_kind : ReaderErrorKind; re_path : str }.

(** ** Members *)

(** [std::string::compare]: bytes, unsigned. *)
Fixpoint str_compare (a b : str) : comparison :=
  match a, b with
  | [], [] => Eq
  | [], _ :: _ => Lt
  | _ :: _, [] => Gt
  | c :: a, d :: b => match (N_of_ascii c ?= N_of_ascii d)%N with Eq => str_compare a b | o => o end
  end.

Notation fields := (list (str * json)).

(** [find]. *)
Definition find_field (key : str) (fields : list (str * json)) : option json :=
  snd ∘ snd <$> list_find (λ field, field.1 = key) fields.

(** [object[key] = value]. *)
Fixpoint set_field (key : str) (value : json) (fields : list (str * json)) : list (str * json) :=
  match fields with
  | [] => [(key, value)]
  | (k, v) :: rest =>
      match str_compare key k with
      | Lt => (key, value) :: fields
      | Eq => (key, value) :: rest
      | Gt => (k, v) :: set_field key value rest
      end
  end.

(** [erase]. *)
Definition erase_field (key : str) (fields : list (str * json)) : list (str * json) :=
  filter (λ field, field.1 ≠ key) fields.

Definition has_field (key : str) (fields : list (str * json)) : bool := bool_decide (is_Some (find_field key fields)).

(** The members of an object literal, whatever order they are written in. *)
Definition object_of (members : list (str * json)) : list (str * json) :=
  foldl (λ o f, set_field f.1 f.2 o) [] members.

Definition field_of (key : str) (node : json) : option json :=
  match node with JObject fields => find_field key fields | _ => None end.

(** ** The residual and the merge *)

Definition names_key (known : list str) (key : str) : bool := existsb (λ k, bool_decide (k = key)) known.

Definition residual_fields (known : list str) (obj : fields) : fields :=
  foldl (λ out f, if names_key known f.1 then out else set_field f.1 f.2 out) [] obj.

Definition unknown_residual (obj : json) (known : list str) : fields :=
  match obj with JObject obj => residual_fields known obj | _ => [] end.

Definition unknown_residual_at (obj : json) (key : str) (known : list str) : fields :=
  match obj with
  | JObject obj => match find_field key obj with Some (JObject sub) => residual_fields known sub | _ => [] end
  | _ => []
  end.

(** The members of [input] the codec did not write back: [None] stands for a key it did. *)
Fixpoint unknown_residual_diff (input : json) (produced : json) {struct input} : json :=
  match input with
  | JObject members =>
      match produced with
      | JObject known =>
          JObject ((fix diff (members : fields) (out : fields) : fields :=
            match members with
            | [] => out
            | (key, value) :: members =>
                diff members
                  (match find_field key known with
                   | None => set_field key value out
                   | Some p =>
                       match p, value with
                       | JObject _, JObject _ =>
                           match unknown_residual_diff value p with JObject (f :: fs) => set_field key (JObject (f :: fs)) out | _ => out end
                       | _, _ => out
                       end
                   end)
            end) members [])
      | _ => input
      end
  | _ => JObject []
  end.

(** What is known wins; shared objects merge, members of the stash first to last. *)
Fixpoint merge_unknown (known : json) (stash : json) {struct stash} : json :=
  match known, stash with
  | JObject known, JObject stash =>
      JObject ((fix merge (stash : fields) (known : fields) : fields :=
        match stash with
        | [] => known
        | (key, value) :: stash =>
            merge stash
              (match find_field key known with
               | None => set_field key value known
               | Some k =>
                   match k, value with
                   | JObject _, JObject _ => set_field key (merge_unknown k value) known
                   | _, _ => known
                   end
               end)
        end) stash known)
  | _, _ => known
  end.

(** ** The store of residuals ([UnknownFieldStore])

    The bytes it keeps are the printed residual, [None] an empty one. *)

Inductive UnknownScope := ScopeDocument | ScopeComposition | ScopeLayer | ScopeContent.
#[export] Instance UnknownScope_eq_dec : EqDecision UnknownScope.
Proof. solve_decision. Defined.
#[export] Instance UnknownScope_countable : Countable UnknownScope.
Proof.
  refine (inj_countable' (λ s, match s with ScopeDocument => 0 | ScopeComposition => 1 | ScopeLayer => 2 | ScopeContent => 3 end)%nat
    (λ n, match n with 0 => ScopeDocument | 1 => ScopeComposition | 2 => ScopeLayer | _ => ScopeContent end)%nat _).
  by intros [].
Defined.

Notation UnknownFieldStore := (gmap (UnknownScope * Z) fields).

Definition store_set (scope : UnknownScope) (id : Z) (residual : fields) (store : UnknownFieldStore) : UnknownFieldStore :=
  match residual with [] => delete (scope, id) store | _ => <[(scope, id) := residual]> store end.

Definition store_find (scope : UnknownScope) (id : Z) (store : UnknownFieldStore) : option fields := store !! (scope, id).

Definition merge_unknown_fields (known : json) (stash : option fields) : json :=
  match stash with Some (f :: fs) => merge_unknown known (JObject (f :: fs)) | _ => known end.

(** ** Members behave as a map *)

Lemma str_compare_eq a b : str_compare a b = Eq ↔ a = b.
Proof.
  revert b. induction a as [|c a IH]; intros [|d b]; try done. cbn [str_compare]. destruct (N.compare_spec (N_of_ascii c) (N_of_ascii d)) as [E|E|E].
  - apply (f_equal ascii_of_N) in E. rewrite !ascii_N_embedding in E. subst d. rewrite IH. split; [by intros ->|by intros [= ->]].
  - split; [done|]. intros [= -> _]. lia.
  - split; [done|]. intros [= -> _]. lia.
Qed.

Lemma str_compare_antisym a b : str_compare b a = CompOpp (str_compare a b).
Proof.
  revert b. induction a as [|c a IH]; intros [|d b]; try done. cbn [str_compare]. rewrite (N.compare_antisym (N_of_ascii c) (N_of_ascii d)).
  destruct (N.compare _ _); cbn [CompOpp]; [apply IH|done|done].
Qed.

Lemma str_compare_lt_trans a b c : str_compare a b = Lt → str_compare b c = Lt → str_compare a c = Lt.
Proof.
  revert b c. induction a as [|x a IH]; intros [|y b] [|z c]; try done. cbn [str_compare].
  destruct (N.compare_spec (N_of_ascii x) (N_of_ascii y)) as [E|E|E], (N.compare_spec (N_of_ascii y) (N_of_ascii z)) as [E'|E'|E']; try done; intros H1 H2.
  - rewrite E, E', N.compare_refl. by eapply IH.
  - rewrite E. apply N.compare_lt_iff in E'. by rewrite E'.
  - rewrite <- E'. apply N.compare_lt_iff in E. by rewrite E.
  - assert (N_of_ascii x < N_of_ascii z)%N as Hl by lia. apply N.compare_lt_iff in Hl. by rewrite Hl.
Qed.

Lemma find_nil key : find_field key [] = None.
Proof. done. Qed.

Lemma find_cons key k v (fs : fields) : find_field key ((k, v) :: fs) = if decide (k = key) then Some v else find_field key fs.
Proof.
  unfold find_field. cbn [list_find fst]. destruct (decide (k = key)) as [->|Hne]; [done|].
  destruct (list_find _ fs) as [[i [k' v']]|]; done.
Qed.

Lemma find_set key k v (fs : fields) : find_field key (set_field k v fs) = if decide (k = key) then Some v else find_field key fs.
Proof.
  induction fs as [|[k' v'] fs IH]; cbn [set_field]; [by rewrite find_cons|]. destruct (str_compare k k') eqn:E.
  - apply str_compare_eq in E as ->. rewrite !find_cons. by destruct (decide (k' = key)).
  - by rewrite find_cons.
  - rewrite find_cons, IH, find_cons. destruct (decide (k' = key)) as [->|]; [|done]. rewrite decide_False; [done|].
    intros ->. assert (str_compare key key = Eq) by (by apply str_compare_eq). congruence.
Qed.

Lemma find_set_eq key v (fs : fields) : find_field key (set_field key v fs) = Some v.
Proof. by rewrite find_set, decide_True. Qed.
Lemma find_set_ne key k v (fs : fields) : k ≠ key → find_field key (set_field k v fs) = find_field key fs.
Proof. intros H. by rewrite find_set, decide_False. Qed.

Lemma find_field_some key v (fs : fields) : find_field key fs = Some v → (key, v) ∈ fs.
Proof.
  induction fs as [|[k' v'] fs IH]; [done|]. rewrite find_cons. destruct (decide (k' = key)) as [->|]; [intros [= ->]; by left|]. right. by apply IH.
Qed.

Lemma find_field_in key v (fs : fields) : (key, v) ∈ fs → is_Some (find_field key fs).
Proof.
  induction fs as [|[k' v'] fs IH]; [by intros ?%elem_of_nil|]. rewrite find_cons. intros [[= -> ->]|H]%elem_of_cons; [by rewrite decide_True|].
  destruct (decide (k' = key)); [done|by apply IH].
Qed.

Lemma find_filter (p : str → bool) key (fs : fields) :
  find_field key (filter (λ f, p f.1 = false) fs) = if p key then None else find_field key fs.
Proof.
  induction fs as [|[k v] fs IH]; [by destruct (p key)|]. rewrite filter_cons. cbn [fst]. destruct (p k) eqn:Hk.
  - rewrite decide_False by done. rewrite IH, find_cons. destruct (p key) eqn:Hp; [done|]. rewrite decide_False; [done|]. intros ->. congruence.
  - rewrite decide_True by done. rewrite !find_cons, IH. destruct (decide (k = key)) as [->|]; [by rewrite Hk|done].
Qed.

Lemma find_erase key k (fs : fields) : find_field key (erase_field k fs) = if decide (k = key) then None else find_field key fs.
Proof.
  unfold erase_field. induction fs as [|[k' v] fs IH]; [by destruct (decide _)|]. rewrite filter_cons, find_cons. cbn [fst].
  destruct (decide (k' ≠ k)) as [Hn|Hn].
  - rewrite find_cons, IH. destruct (decide (k' = key)) as [->|]; [by rewrite decide_False by congruence|done].
  - rewrite IH. destruct (decide (k = key)) as [->|]; [done|]. rewrite decide_False; [done|]. intros ->. by apply Hn.
Qed.

(** *** Sorted members *)

Definition field_lt (a b : str * json) : Prop := str_compare a.1 b.1 = Lt.
Definition sorted_fields (fs : fields) : Prop := StronglySorted field_lt fs.

Lemma sorted_nil : sorted_fields [].
Proof. constructor. Qed.

Lemma sorted_tail f (fs : fields) : sorted_fields (f :: fs) → sorted_fields fs ∧ ∀ k v, (k, v) ∈ fs → str_compare f.1 k = Lt.
Proof.
  unfold sorted_fields. intros H. inversion H as [|? ? Hs Hf]; subst. split; [done|]. intros k v Hin. eapply Forall_forall in Hf; [|done]. exact Hf.
Qed.

Lemma set_in key v k x (fs : fields) : (k, x) ∈ set_field key v fs → (k, x) = (key, v) ∨ (k, x) ∈ fs.
Proof.
  induction fs as [|[k' v'] fs IH]; cbn [set_field]; [rewrite list_elem_of_singleton; by left|]. destruct (str_compare key k').
  - rewrite !elem_of_cons. tauto.
  - rewrite !elem_of_cons. tauto.
  - rewrite !elem_of_cons. tauto.
Qed.

Lemma set_sorted key v (fs : fields) : sorted_fields fs → sorted_fields (set_field key v fs).
Proof.
  unfold sorted_fields. induction fs as [|[k' v'] fs IH]; intros Hs; cbn [set_field]; [by repeat constructor|].
  destruct (sorted_tail _ _ Hs) as [Ht Hl]. destruct (str_compare key k') eqn:E.
  - apply str_compare_eq in E as ->. constructor; [done|]. apply Forall_forall. intros [k x] Hx. by apply Hl in Hx.
  - constructor; [done|]. apply Forall_forall. intros [k x] [[= -> ->]|Hx]%elem_of_cons; [done|]. apply Hl in Hx. unfold field_lt. cbn in *.
    by eapply str_compare_lt_trans.
  - constructor; [by apply IH|]. apply Forall_forall. intros [k x] [[= -> ->]|Hx]%set_in; [|by apply Hl in Hx].
    unfold field_lt. cbn. by rewrite str_compare_antisym, E.
Qed.

Lemma sorted_find k v (fs : fields) : sorted_fields fs → (k, v) ∈ fs → find_field k fs = Some v.
Proof.
  induction fs as [|[k' v'] fs IH]; intros Hs; [by intros ?%elem_of_nil|]. destruct (sorted_tail _ _ Hs) as [Ht Hl]. rewrite find_cons.
  intros [[= -> ->]|Hin]%elem_of_cons; [by rewrite decide_True|]. apply Hl in Hin as Hlt. cbn in Hlt. rewrite decide_False; [by apply IH|].
  intros ->. assert (str_compare k k = Eq) by (by apply str_compare_eq). congruence.
Qed.

(** Sorted members are determined by what is found in them. *)
Lemma sorted_ext (fs gs : fields) : sorted_fields fs → sorted_fields gs → (∀ k, find_field k fs = find_field k gs) → fs = gs.
Proof.
  revert gs. induction fs as [|[k v] fs IH]; intros [|[k' v'] gs] Hf Hg E.
  - done.
  - specialize (E k'). by rewrite find_nil, find_cons, decide_True in E.
  - specialize (E k). by rewrite find_nil, find_cons, decide_True in E.
  - destruct (sorted_tail _ _ Hf) as [Hft Hfl], (sorted_tail _ _ Hg) as [Hgt Hgl]. cbn [fst] in *.
    assert (∀ a, str_compare a a = Eq) as Hr by (intros a; by apply str_compare_eq).
    destruct (str_compare k k') eqn:Ek.
    + apply str_compare_eq in Ek as <-. pose proof (E k) as Ev. rewrite !find_cons, !decide_True in Ev by done. injection Ev as <-. f_equal.
      apply IH; [done..|]. intros x. specialize (E x). rewrite !find_cons in E. destruct (decide (k = x)) as [<-|]; [|done].
      destruct (find_field k fs) as [a|] eqn:Ea; [apply find_field_some, Hfl in Ea; congruence|].
      destruct (find_field k gs) as [b|] eqn:Eb; [apply find_field_some, Hgl in Eb; congruence|done].
    + exfalso. specialize (E k). rewrite !find_cons, decide_True in E by done. destruct (decide (k' = k)) as [->|]; [congruence|].
      symmetry in E. apply find_field_some, Hgl in E. rewrite str_compare_antisym, Ek in E. done.
    + exfalso. specialize (E k'). rewrite !find_cons, (decide_True (P := k' = k')) in E by done. destruct (decide (k = k')) as [->|]; [congruence|].
      apply find_field_some, Hfl in E. congruence.
Qed.

Lemma filter_sorted (p : str → bool) (fs : fields) : sorted_fields fs → sorted_fields (filter (λ f, p f.1 = false) fs).
Proof.
  unfold sorted_fields. induction fs as [|[k v] fs IH]; intros Hs; [done|]. destruct (sorted_tail _ _ Hs) as [Ht Hl]. rewrite filter_cons.
  destruct (decide _); [|by apply IH]. constructor; [by apply IH|]. apply Forall_forall. intros [k' v'] [_ Hin]%list_elem_of_filter. by apply Hl in Hin.
Qed.

Lemma object_of_sorted members : sorted_fields (object_of members).
Proof.
  unfold object_of. assert (∀ o : fields, sorted_fields o → sorted_fields (foldl (λ o f, set_field f.1 f.2 o) o members)) as H.
  { induction members as [|f members IH]; intros o Ho; [done|]. cbn. by apply IH, set_sorted. }
  apply H, sorted_nil.
Qed.

(** Writing members one after the other: the last one of a name is found. *)
Lemma find_fold key (members : fields) (o : fields) :
  find_field key (foldl (λ o f, set_field f.1 f.2 o) o members) =
    match find_field key (reverse members) with Some v => Some v | None => find_field key o end.
Proof.
  revert o. induction members as [|[k v] members IH]; intros o; [done|]. cbn [foldl fst snd]. rewrite IH, find_set, reverse_cons.
  assert (∀ a b : fields, find_field key (a ++ b) = match find_field key a with Some v => Some v | None => find_field key b end) as Happ.
  { induction a as [|[k' v'] a IHa]; intros b; [done|]. cbn [app]. rewrite !find_cons, IHa. by destruct (decide (k' = key)). }
  rewrite Happ, find_cons. destruct (find_field key (reverse members)); [done|]. by destruct (decide (k = key)).
Qed.

Lemma find_reverse key (fs : fields) : sorted_fields fs → find_field key (reverse fs) = find_field key fs.
Proof.
  intros Hs. destruct (find_field key (reverse fs)) as [v|] eqn:E.
  - apply find_field_some in E. rewrite elem_of_reverse in E. symmetry. by apply sorted_find.
  - destruct (find_field key fs) as [v|] eqn:E'; [|done]. apply find_field_some in E'.
    assert ((key, v) ∈ reverse fs) as Hin by (by rewrite elem_of_reverse). apply find_field_in in Hin as [? Hin]. congruence.
Qed.

(** ** What a residual holds, what a merge keeps *)

Lemma names_key_spec known key : names_key known key = true ↔ key ∈ known.
Proof.
  unfold names_key. rewrite existsb_exists. split.
  - intros (k & Hin & E). apply bool_decide_eq_true in E as ->. by apply list_elem_of_In.
  - intros Hin. exists key. split; [by apply list_elem_of_In|by apply bool_decide_eq_true].
Qed.

Lemma residual_filter known (obj : fields) :
  residual_fields known obj = object_of (filter (λ f, names_key known f.1 = false) obj).
Proof.
  unfold residual_fields, object_of. generalize (@nil (str * json)). induction obj as [|[k v] obj IH]; intros out; [done|].
  cbn [foldl fst snd]. rewrite IH, filter_cons. cbn [fst]. destruct (names_key known k) eqn:E; [rewrite decide_False by done|rewrite decide_True by done]; done.
Qed.

Lemma residual_sorted known obj : sorted_fields (residual_fields known obj).
Proof. rewrite residual_filter. apply object_of_sorted. Qed.

Lemma find_residual known (obj : fields) key :
  sorted_fields obj → find_field key (residual_fields known obj) = if names_key known key then None else find_field key obj.
Proof.
  intros Hs. rewrite residual_filter. unfold object_of. rewrite find_fold, find_nil, find_reverse by (by apply filter_sorted).
  rewrite find_filter. destruct (names_key known key); [done|]. by destruct (find_field key obj).
Qed.

(** A sorted object is its own members, written one by one. *)
Lemma object_of_id (fs : fields) : sorted_fields fs → object_of fs = fs.
Proof.
  intros Hs. apply sorted_ext; [apply object_of_sorted|done|]. intros k. unfold object_of. rewrite find_fold, find_nil, find_reverse by done.
  by destruct (find_field k fs).
Qed.

Definition merge_member (f : str * json) (known : fields) : fields :=
  match find_field f.1 known with
  | None => set_field f.1 f.2 known
  | Some k => match k, f.2 with JObject _, JObject _ => set_field f.1 (merge_unknown k f.2) known | _, _ => known end
  end.

Lemma merge_object known stash :
  merge_unknown (JObject known) (JObject stash) = JObject (foldl (λ known f, merge_member f known) known stash).
Proof.
  cbn [merge_unknown]. f_equal. revert known. induction stash as [|[k v] stash IH]; intros known; [done|]. cbn [foldl]. rewrite <- IH. clear IH.
  unfold merge_member. cbn [fst snd]. destruct (find_field k known) as [[]|]; try done; destruct v; done.
Qed.

Lemma merge_member_sorted f known : sorted_fields known → sorted_fields (merge_member f known).
Proof.
  intros Hs. unfold merge_member. destruct (find_field f.1 known) as [[]|]; try done; try (by apply set_sorted).
  destruct f.2; try done. by apply set_sorted.
Qed.

Lemma find_merge_member f known key :
  find_field key (merge_member f known) =
    if decide (f.1 = key) then
      match find_field key known, f.2 with
      | None, v => Some v
      | Some (JObject k), JObject s => Some (merge_unknown (JObject k) (JObject s))
      | Some k, _ => Some k
      end
    else find_field key known.
Proof.
  unfold merge_member. destruct (decide (f.1 = key)) as [<-|Hne].
  - destruct (find_field f.1 known) as [k|] eqn:E; [|by rewrite find_set_eq]. destruct k as [k| | | | | |]; try (by rewrite E).
    destruct f.2; try (by rewrite E). by rewrite find_set_eq.
  - destruct (find_field f.1 known) as [[]|]; try done; try (by rewrite find_set_ne). destruct f.2; try done. by rewrite find_set_ne.
Qed.

(** A key of the stash that is not known is there; a known one keeps its value, and an object
    known and stashed is merged. *)
Lemma find_merge known (stash : fields) key : sorted_fields stash →
  find_field key (foldl (λ known f, merge_member f known) known stash) =
    match find_field key known, find_field key stash with
    | None, s => s
    | Some (JObject k), Some (JObject s) => Some (merge_unknown (JObject k) (JObject s))
    | Some k, _ => Some k
    end.
Proof.
  revert known. induction stash as [|[k v] stash IH]; intros known Hs.
  { cbn [foldl]. rewrite find_nil. by destruct (find_field key known) as [[]|]. }
  destruct (sorted_tail _ _ Hs) as [Ht Hl]. cbn [foldl]. rewrite IH, find_merge_member, find_cons by done. cbn [fst snd] in *.
  destruct (decide (k = key)) as [->|]; [|done].
  assert (find_field key stash = None) as ->.
  { destruct (find_field key stash) as [a|] eqn:E; [|done]. apply find_field_some, Hl in E. assert (str_compare key key = Eq) by (by apply str_compare_eq). congruence. }
  destruct (find_field key known) as [[]|]; try done; destruct v; done.
Qed.

Lemma merge_sorted known (stash : fields) : sorted_fields known → sorted_fields (foldl (λ known f, merge_member f known) known stash).
Proof. revert known. induction stash as [|f stash IH]; intros known Hs; [done|]. cbn. by apply IH, merge_member_sorted. Qed.
