(* ===== verification/SceneFormat.v ===== *)
(** * The placement half of the document format ([src/src/serialize/writer.cpp], [reader.cpp])

    How the values a composition and a layer are made of are spelled in JSON and read back:
    pixel and audio formats, spans and time maps, transforms, flags, and the fields of either
    that this version does not know.  Emission threads the first fault, as [Emitter] latches
    it, and whatever state the content codecs keep. *)

From S2P Require Import Prelude RationalTime Geometry Records Uri Json.
From Stdlib Require Import Ascii SpecFloat.
Local Open Scope Z_scope.

(** ** Emission *)

Inductive SerializeErrorKind := NonFiniteValue | NoCodec | CodecFailed | AssetSinkMissing | AssetWriteFailed.
Record SerializeError := mkSerializeError { se_kind : SerializeErrorKind; se_object : Z }.

(** Why a walk stopped: an error of the code, or the fuel of the model. *)
Inductive Stop (E : Type) := Fault (e : E) | Exhausted.
Arguments Fault {E} e.
Arguments Exhausted {E}.

Definition Emit (C A : Type) : Type := option (Stop SerializeError) * C → (option (Stop SerializeError) * C) * A.
#[export] Instance emit_ret {C} : MRet (Emit C) := λ A a s, (s, a).
#[export] Instance emit_bind {C} : MBind (Emit C) := λ A B k m s, let '(s, a) := m s in k a s.

(** [Emitter::fail]: the first fault stays. *)
Definition latch {C} (err : Stop SerializeError) : Emit C unit :=
  λ '(e, c), ((match e with None => Some err | Some e => Some e end, c), tt).

Definition is_finite (v : double) : bool := match v with S754_zero _ | S754_finite _ _ _ => true | _ => false end.

(** [static_cast<std::int64_t>], toward zero; what lies outside the type is undefined. *)
Definition truncate (v : double) : Z :=
  match v with
  | S754_finite s m e => let a := if 0 <=? e then Z.pos m * 2 ^ e else Z.pos m / 2 ^ (- e) in if s then - a else a
  | _ => 0
  end.

Section emit.
Context {C : Type} (wild_cast : double → Z).

Definition to_int64 (v : double) : Z := if bool_decide (in_i64 (truncate v)) then truncate v else wild_cast v.

Definition real (v : double) (owner : Z) : Emit C json :=
  if is_finite v then mret (JReal v) else latch (Fault (mkSerializeError NonFiniteValue owner));; mret (JReal d_zero).

Definition integer_extent (v : double) (owner : Z) : Emit C json :=
  if is_finite v then mret (JInt (to_int64 v)) else latch (Fault (mkSerializeError NonFiniteValue owner));; mret (JInt 0).
End emit.

(** ** Tokens *)

Definition pixel_format_token (f : PixelFormat) : str :=
  match f with
  | Rgba32fLinearPremul => lit "rgba32f-linear-premul"
  | Rgba16fLinearPremul => lit "rgba16f-linear-premul"
  | Rgba8Srgb => lit "rgba8-srgb"
  end.
Definition primaries_token (p : Primaries) : str := match p with PrimariesSrgb => lit "srgb" end.
Definition transfer_token (t : TransferFunction) : str := match t with TransferLinear => lit "linear" | TransferSrgb => lit "srgb" end.

Definition blend_mode_name (mode : Z) : str :=
  lit (match mode with
       | 1 => "multiply" | 2 => "screen" | 3 => "overlay" | 4 => "darken" | 5 => "lighten" | 6 => "color-dodge" | 7 => "color-burn"
       | 8 => "hard-light" | 9 => "soft-light" | 10 => "difference" | 11 => "exclusion" | _ => "normal"
       end)%string.

Definition blend_modes : list BlendMode :=
  [Normal; Multiply; Screen; Overlay; Darken; Lighten; ColorDodge; ColorBurn; HardLight; SoftLight; Difference; Exclusion].

Definition blend_mode_from_name (name : str) : option BlendMode :=
  find (λ m, bool_decide (blend_mode_name (blend_code m) = name)) blend_modes.

(** ** What is written *)

Definition member (key : string) (v : json) : str * json := (lit key, v).

Definition working_space_json (f : SurfaceFormat) : json :=
  JObject (object_of
    [member "format" (JString (pixel_format_token (pixel_format f)));
     member "premultiplied" (JBool (match premultiplied f with PremulYes => true | PremulNo => false end));
     member "primaries" (JString (primaries_token (primaries (color_space f))));
     member "transfer" (JString (transfer_token (transfer (color_space f))))]).

Definition working_audio_format_json (f : AudioFormat) : json :=
  JObject (object_of
    [member "channels" (JString (lit (match layout f with Stereo => "stereo" | Mono => "mono" end)%string));
     member "sample_rate" (JInt (sample_rate f))]).

Definition time_map_json (m : TimeMap) : json :=
  JObject (object_of
    [member "in" (JInt (flicks (tm_in m)));
     member "offset" (JInt (flicks (tm_offset m)));
     member "rate" (JArray [JInt (d_num (tm_rate m)); JInt (d_den (tm_rate m))])]).

#[export] Instance PixelFormat_eq_dec : EqDecision PixelFormat.
Proof. solve_decision. Defined.
#[export] Instance TransferFunction_eq_dec : EqDecision TransferFunction.
Proof. solve_decision. Defined.
#[export] Instance Primaries_eq_dec : EqDecision Primaries.
Proof. solve_decision. Defined.
#[export] Instance Premultiplied_eq_dec : EqDecision Premultiplied.
Proof. solve_decision. Defined.
#[export] Instance ChannelLayout_eq_dec : EqDecision ChannelLayout.
Proof. solve_decision. Defined.
#[export] Instance ColorSpace_eq_dec : EqDecision ColorSpace.
Proof. solve_decision. Defined.
#[export] Instance SurfaceFormat_eq_dec : EqDecision SurfaceFormat.
Proof. solve_decision. Defined.
#[export] Instance AudioFormat_eq_dec : EqDecision AudioFormat.
Proof. solve_decision. Defined.

Definition put (key : string) (v : json) (o : fields) : fields := set_field (lit key) v o.
Definition put_if (b : bool) (key : string) (v : json) (o : fields) : fields := if b then put key v o else o.

Section write.
Context {C : Type} (wild_cast : double → Z).

(** [layer_json]: [content] emits the use of the layer's content, when it has one. *)
Definition placement_json (lr : LayerRecord) (id : Z) : Emit C fields :=
  let t := ly_transform lr in
  a ← real (af_a t) id; b ← real (af_b t) id; c ← real (af_c t) id; d ← real (af_d t) id; tx ← real (af_tx t) id; ty ← real (af_ty t) id;
  opacity ← real (ly_opacity lr) id;
  let o := put "visible" (JBool (visible lr)) (put "opacity" opacity (put "transform" (JArray [a; b; c; d; tx; ty]) [])) in
  let o := put_if (negb (blend lr =? 0)) "blend" (JString (blend_mode_name (blend lr))) o in
  gain ← (if SFeqb (ly_gain lr) d_one then mret None else gain ← real (ly_gain lr) id; mret (Some gain));
  let o := match gain with Some gain => put "gain" gain o | None => o end in
  let o := put_if (negb (audible lr)) "audible" (JBool false) o in
  let o := put_if (negb (bool_decide (ly_span lr = TimeRange_all))) "span"
             (JArray [JInt (flicks (tr_start (ly_span lr))); JInt (flicks (tr_end (ly_span lr)))]) o in
  mret (put_if (negb (bool_decide (ly_time_map lr = TimeMap_identity))) "time_map" (time_map_json (ly_time_map lr)) o).

(** The members of the content's body, over those of the placement. *)
Definition splice (o : fields) (emitted : json) : fields :=
  match emitted with JObject body => foldl (λ o f, set_field f.1 f.2 o) o body | _ => o end.

Definition layer_json (lr : LayerRecord) (id : Z) (content : Emit C (option json)) (unknown : option UnknownFieldStore) : Emit C json :=
  o ← placement_json lr id;
  body ← content;
  let o := match body with Some emitted => splice o emitted | None => o end in
  mret (match unknown with
        | Some store => merge_unknown_fields (JObject o) (store_find ScopeLayer id store)
        | None => JObject o
        end).

(** [composition_json], its layers already emitted. *)
Definition composition_json (comp_id : Z) (comp : CompositionRecord) (layers : Emit C (list json))
    (unknown : option UnknownFieldStore) : Emit C json :=
  w ← integer_extent wild_cast (cp_canvas_w comp) comp_id;
  h ← integer_extent wild_cast (cp_canvas_h comp) comp_id;
  let o := put "canvas" (JArray [JInt 0; JInt 0; w; h]) [] in
  let o := put_if (negb (bool_decide (cp_working_space comp = k_working_rgba32f))) "working_space" (working_space_json (cp_working_space comp)) o in
  let o := put_if (negb (bool_decide (cp_working_audio_format comp = k_working_audio))) "working_audio_format"
             (working_audio_format_json (cp_working_audio_format comp)) o in
  layers ← layers;
  let o := put "layers" (JArray layers) o in
  mret (match unknown with
        | Some store => merge_unknown_fields (JObject o) (store_find ScopeComposition comp_id store)
        | None => JObject o
        end).
End write.

(** ** What is read *)

(** The members each tier of the format owns. *)
Definition keys (l : list string) : list str := map lit l.
Definition k_root_keys : list str := keys ["arbc"; "composition"; "compositions"; "contents"]%string.
Definition k_envelope_keys : list str := keys ["format"; "storage_format"]%string.
Definition k_composition_keys : list str := keys ["canvas"; "layers"; "working_audio_format"; "working_space"]%string.
Definition k_working_space_keys : list str := keys ["format"; "premultiplied"; "transfer"]%string.
Definition k_working_audio_format_keys : list str := keys ["channels"; "sample_rate"]%string.
Definition k_layer_keys : list str := keys ["audible"; "blend"; "gain"; "opacity"; "span"; "time_map"; "transform"; "visible"]%string.
Definition k_time_map_keys : list str := keys ["in"; "offset"; "rate"]%string.
Definition k_body_keys : list str := keys ["$ref"; "composition"; "inputs"; "kind"; "kind_version"; "params"]%string.

Definition get (key : string) (o : fields) : option json := find_field (lit key) o.

(** [get<double>] of a number, [get<std::int64_t>] of an integer. *)
Definition as_double (v : json) : option double :=
  match v with JReal d => Some d | JInt z => Some (binary_normalize 53 1024 z 0 false) | _ => None end.
Definition as_int64 (v : json) : option Z := match v with JInt z => Some (i64 z) | _ => None end.

Definition num_or (o : fields) (key : string) (dflt : double) : double := default dflt (get key o ≫= as_double).
Definition bool_or (o : fields) (key : string) (dflt : bool) : bool := match get key o with Some (JBool b) => b | _ => dflt end.
Definition int_or (o : fields) (key : string) (dflt : Z) : Z := default dflt (get key o ≫= as_int64).

Definition parse_pixel_format (token : str) : PixelFormat :=
  if bool_decide (token = lit "rgba16f-linear-premul") then Rgba16fLinearPremul
  else if bool_decide (token = lit "rgba8-srgb") then Rgba8Srgb else Rgba32fLinearPremul.

Definition parse_transfer (token : str) : TransferFunction := if bool_decide (token = lit "srgb") then TransferSrgb else TransferLinear.

Definition parse_surface_format (o : fields) : SurfaceFormat :=
  mkSurfaceFormat
    (match get "format" o with Some (JString t) => parse_pixel_format t | _ => Rgba32fLinearPremul end)
    (mkColorSpace PrimariesSrgb (match get "transfer" o with Some (JString t) => parse_transfer t | _ => TransferLinear end))
    (match get "premultiplied" o with Some (JBool b) => if b then PremulYes else PremulNo | _ => PremulYes end).

Definition parse_audio_format (o : fields) : AudioFormat :=
  mkAudioFormat
    (match get "sample_rate" o ≫= as_int64 with Some sr => if (0 <? sr) && (sr <=? 2 ^ 32 - 1) then sr else 48000 | None => 48000 end)
    (match get "channels" o with Some (JString t) => if bool_decide (t = lit "mono") then Mono else Stereo | _ => Stereo end).

Definition parse_transform (o : fields) : Affine :=
  match get "transform" o with
  | Some (JArray [a; b; c; d; tx; ty]) =>
      match as_double a, as_double b, as_double c, as_double d, as_double tx, as_double ty with
      | Some a, Some b, Some c, Some d, Some tx, Some ty => mkAffine a b c d tx ty
      | _, _, _, _, _, _ => Affine_identity
      end
  | _ => Affine_identity
  end.

Definition parse_span (o : fields) : TimeRange :=
  match get "span" o with
  | Some (JArray [JInt first; JInt last]) => mkTimeRange (mkTime (i64 first)) (mkTime (i64 last))
  | _ => TimeRange_all
  end.

Definition parse_time_map (o : fields) : TimeMap :=
  match get "time_map" o with
  | Some (JObject m) =>
      let '(num, den) := match get "rate" m with Some (JArray [JInt num; JInt den]) => (i64 num, i64 den) | _ => (1, 1) end in
      if (den =? 0) || (num =? int64_min) || (den =? int64_min) then TimeMap_identity
      else mkTimeMap (mkTime (int_or m "in" 0)) (make_rational num den) (mkTime (int_or m "offset" 0))
  | _ => TimeMap_identity
  end.

Record LayerData := mkLayerData {
  ld_transform : Affine; ld_opacity : double; ld_visible : bool; ld_blend : BlendMode; ld_gain : double; ld_audible : bool;
  ld_span : TimeRange; ld_time_map : TimeMap; ld_content_body : option fields; ld_unknown : fields }.

Record CompData := mkCompData {
  cd_canvas_w : double; cd_canvas_h : double; cd_working_space : option SurfaceFormat; cd_working_audio_format : option AudioFormat;
  cd_layers : list LayerData; cd_unknown : fields }.

(** The layer's members that are none of its placement, when it names content at all. *)
Definition extract_content_body (o : fields) : option fields :=
  if has_field (lit "$ref") o || has_field (lit "kind") o then Some (residual_fields k_layer_keys o) else None.

Definition parse_blend (o : fields) : option BlendMode :=
  match get "blend" o with Some (JString name) => blend_mode_from_name name | _ => None end.

(** A non-empty residual, under its key. *)
Definition put_residual (key : string) (sub : fields) (o : fields) : fields :=
  match sub with [] => o | _ => put key (JObject sub) o end.

Definition layer_unknown (o : fields) : fields :=
  let unknown := residual_fields (k_layer_keys ++ k_body_keys) o in
  let unknown := put_residual "time_map" (unknown_residual_at (JObject o) (lit "time_map") k_time_map_keys) unknown in
  match get "blend" o, parse_blend o with Some token, None => put "blend" token unknown | _, _ => unknown end.

Definition parse_layer (o : fields) : LayerData :=
  mkLayerData (parse_transform o) (num_or o "opacity" d_one) (bool_or o "visible" true) (default Normal (parse_blend o)) (num_or o "gain" d_one)
    (bool_or o "audible" true) (parse_span o) (parse_time_map o) (extract_content_body o) (layer_unknown o).

Definition parse_composition (c : fields) : CompData :=
  let '(w, h) :=
    match get "canvas" c with
    | Some (JArray (_ :: _ :: w :: h :: _)) => match as_double w, as_double h with Some w, Some h => (w, h) | _, _ => (d_zero, d_zero) end
    | _ => (d_zero, d_zero)
    end in
  let space := match get "working_space" c with Some (JObject o) => Some (parse_surface_format o) | _ => None end in
  let audio := match get "working_audio_format" c with Some (JObject o) => Some (parse_audio_format o) | _ => None end in
  let layers := match get "layers" c with
                | Some (JArray layers) => omap (λ l, match l with JObject o => Some (parse_layer o) | _ => None end) layers
                | _ => []
                end in
  let unknown := residual_fields k_composition_keys c in
  let unknown := put_residual "working_space" (unknown_residual_at (JObject c) (lit "working_space") k_working_space_keys) unknown in
  let unknown := put_residual "working_audio_format"
                   (unknown_residual_at (JObject c) (lit "working_audio_format") k_working_audio_format_keys) unknown in
  mkCompData w h space audio layers unknown.

(** ** Members by name *)

Lemma lit_inj a b : lit a = lit b → a = b.
Proof. unfold lit. intros H. apply (f_equal String.string_of_list_ascii) in H. by rewrite !String.string_of_list_ascii_of_string in H. Qed.

Lemma get_put k k' v o : get k (put k' v o) = if String.eqb k' k then Some v else get k o.
Proof.
  unfold get, put. rewrite find_set. destruct (String.eqb_spec k' k) as [->|Hne]; [by rewrite decide_True|].
  rewrite decide_False; [done|]. by intros ?%lit_inj.
Qed.

Lemma get_put_if k b k' v o : get k (put_if b k' v o) = if b && String.eqb k' k then Some v else get k o.
Proof. destruct b; [apply get_put|done]. Qed.

Lemma get_nil k : get k [] = None.
Proof. done. Qed.

Lemma get_object_of k members : sorted_fields (object_of members) ∧
  get k (object_of members) = find_field (lit k) (reverse members).
Proof. split; [apply object_of_sorted|]. unfold get, object_of. rewrite find_fold, find_nil. by destruct (find_field _ _). Qed.

Lemma put_sorted k v o : sorted_fields o → sorted_fields (put k v o).
Proof. apply set_sorted. Qed.
Lemma put_if_sorted b k v o : sorted_fields o → sorted_fields (put_if b k v o).
Proof. destruct b; [apply set_sorted|done]. Qed.

(** ** Values read back as they were written *)

Lemma pixel_format_roundtrip f : parse_pixel_format (pixel_format_token f) = f.
Proof. by destruct f. Qed.

Lemma surface_format_roundtrip f : ∃ o, working_space_json f = JObject o ∧ parse_surface_format o = f.
Proof. destruct f as [[] [[] []] []]; eexists; (split; [reflexivity|vm_compute; reflexivity]). Qed.

Lemma audio_format_roundtrip f : 0 < sample_rate f <= 2 ^ 32 - 1 → ∃ o, working_audio_format_json f = JObject o ∧ parse_audio_format o = f.
Proof.
  destruct f as [sr l]. cbn [sample_rate]. intros Hsr. eexists. split; [reflexivity|]. unfold parse_audio_format.
  rewrite (proj2 (get_object_of "sample_rate" _)), (proj2 (get_object_of "channels" _)). unfold member. cbn [sample_rate layout reverse].
  assert (find_field (lit "sample_rate") (reverse [(lit "channels", JString (lit (match l with Stereo => "stereo" | Mono => "mono" end)%string)); (lit "sample_rate", JInt sr)])
    = Some (JInt sr)) as -> by (by destruct l).
  assert (find_field (lit "channels") (reverse [(lit "channels", JString (lit (match l with Stereo => "stereo" | Mono => "mono" end)%string)); (lit "sample_rate", JInt sr)])
    = Some (JString (lit (match l with Stereo => "stereo" | Mono => "mono" end)%string))) as -> by (by destruct l).
  cbn [mbind option_bind as_int64]. rewrite i64_small by (unfold in_i64; lia).
  rewrite (proj2 (Z.ltb_lt 0 sr)), (proj2 (Z.leb_le sr (2 ^ 32 - 1))) by lia. f_equal. by destruct l.
Qed.

(** A time map the model can hold: instants on 64 bits, the rate a reduced fraction. *)
Definition time_map_ok (m : TimeMap) : Prop := in_i64 (flicks (tm_in m)) ∧ in_i64 (flicks (tm_offset m)) ∧ canonical (tm_rate m).

Lemma make_rational_canonical r : canonical r → make_rational (d_num r) (d_den r) = r.
Proof.
  destruct r as [n d]. unfold canonical, int64_max. cbn [d_num d_den]. intros (Hn & Hd & Hg).
  destruct (make_rational_spec n d) as [-> _]; [unfold in_i64, int64_min; lia..|]. unfold reduce. rewrite Hg, !Z.div_1_r. f_equal; lia.
Qed.

Lemma time_map_roundtrip m o : time_map_ok m → get "time_map" o = Some (time_map_json m) → parse_time_map o = m.
Proof.
  destruct m as [[i] [n d] [off]]. unfold time_map_ok. cbn [tm_in tm_offset tm_rate flicks]. intros (Hi & Ho & Hc) E.
  unfold parse_time_map. rewrite E. unfold time_map_json. cbn [tm_in tm_offset tm_rate flicks d_num d_den].
  set (m := object_of _). assert (get "rate" m = Some (JArray [JInt n; JInt d])) as -> by reflexivity.
  unfold int_or. assert (get "in" m = Some (JInt i)) as -> by reflexivity. assert (get "offset" m = Some (JInt off)) as -> by reflexivity.
  cbn [mbind option_bind as_int64 default]. pose proof Hc as (Hn & Hd & _). unfold int64_max in *. cbn [d_num d_den] in *.
  rewrite !i64_small by (done || unfold in_i64; lia). unfold int64_min.
  rewrite (proj2 (Z.eqb_neq d 0)), (proj2 (Z.eqb_neq n _)), (proj2 (Z.eqb_neq d _)) by lia. cbn [orb]. f_equal.
  exact (make_rational_canonical _ Hc).
Qed.

Lemma span_roundtrip s o :
  in_i64 (flicks (tr_start s)) → in_i64 (flicks (tr_end s)) →
  get "span" o = Some (JArray [JInt (flicks (tr_start s)); JInt (flicks (tr_end s))]) → parse_span o = s.
Proof. destruct s as [[a] [b]]. cbn [tr_start tr_end flicks]. intros Ha Hb E. unfold parse_span. by rewrite E, !i64_small. Qed.

Lemma blend_roundtrip m : blend_mode_from_name (blend_mode_name (blend_code m)) = Some m.
Proof. by destruct m. Qed.

(** ** A layer *)

Definition finite_layer (lr : LayerRecord) : bool :=
  let t := ly_transform lr in
  forallb is_finite [af_a t; af_b t; af_c t; af_d t; af_tx t; af_ty t; ly_opacity lr; ly_gain lr].

(** The placement of a layer without faults. *)
Definition placement_fields (lr : LayerRecord) : fields :=
  let t := ly_transform lr in
  put_if (negb (bool_decide (ly_time_map lr = TimeMap_identity))) "time_map" (time_map_json (ly_time_map lr))
    (put_if (negb (bool_decide (ly_span lr = TimeRange_all))) "span"
       (JArray [JInt (flicks (tr_start (ly_span lr))); JInt (flicks (tr_end (ly_span lr)))])
       (put_if (negb (audible lr)) "audible" (JBool false)
          (put_if (negb (SFeqb (ly_gain lr) d_one)) "gain" (JReal (ly_gain lr))
             (put_if (negb (blend lr =? 0)) "blend" (JString (blend_mode_name (blend lr)))
                (put "visible" (JBool (visible lr)) (put "opacity" (JReal (ly_opacity lr))
                   (put "transform" (JArray (map JReal [af_a t; af_b t; af_c t; af_d t; af_tx t; af_ty t])) []))))))).

Lemma real_finite {C} v id (s : option (Stop SerializeError) * C) : is_finite v = true → real v id s = (s, JReal v).
Proof. intros H. unfold real. by rewrite H. Qed.

Lemma placement_finite {C} lr id (s : option (Stop SerializeError) * C) :
  finite_layer lr = true → placement_json lr id s = (s, placement_fields lr).
Proof.
  unfold finite_layer, placement_json, placement_fields. cbn [forallb]. intros H. bool_to_prop.
  unfold mbind, emit_bind, mret, emit_ret. rewrite !real_finite by done. by destruct (SFeqb (ly_gain lr) d_one); cbn [negb put_if]; rewrite ?real_finite by done.
Qed.

Lemma placement_sorted lr : sorted_fields (placement_fields lr).
Proof. unfold placement_fields. repeat first [apply put_if_sorted|apply put_sorted]. apply sorted_nil. Qed.

Definition same_placement (lr : LayerRecord) (ld : LayerData) : Prop :=
  ld_transform ld = ly_transform lr ∧ ld_opacity ld = ly_opacity lr ∧ ld_visible ld = visible lr ∧ blend_code (ld_blend ld) = blend lr ∧
  ld_gain ld = ly_gain lr ∧ ld_audible ld = audible lr ∧ ld_span ld = ly_span lr ∧ ld_time_map ld = ly_time_map lr.

(** A layer as the mutators leave it. *)
Definition layer_ok (lr : LayerRecord) : Prop :=
  finite_layer lr = true ∧ in_i64 (flicks (tr_start (ly_span lr))) ∧ in_i64 (flicks (tr_end (ly_span lr))) ∧
  time_map_ok (ly_time_map lr) ∧ ∃ m, blend lr = blend_code m.

Lemma eq_one x : SFeqb x d_one = true → x = d_one.
Proof.
  unfold SFeqb, d_one. destruct x as [| | |s m e]; cbn [SFcompare]; try done; try (by destruct s).
  destruct s; [done|]. destruct (Z.compare_spec e (-52)) as [->|?|?]; try done.
  destruct (Pos.compare_cont Eq m _) eqn:E; try done. intros _. by apply Pos.compare_eq in E as ->.
Qed.

(** What is read of a placement is what is found under its keys. *)
Lemma get_placement lr k : get k (placement_fields lr) =
  if negb (bool_decide (ly_time_map lr = TimeMap_identity)) && String.eqb "time_map" k then Some (time_map_json (ly_time_map lr))
  else if negb (bool_decide (ly_span lr = TimeRange_all)) && String.eqb "span" k
       then Some (JArray [JInt (flicks (tr_start (ly_span lr))); JInt (flicks (tr_end (ly_span lr)))])
  else if negb (audible lr) && String.eqb "audible" k then Some (JBool false)
  else if negb (SFeqb (ly_gain lr) d_one) && String.eqb "gain" k then Some (JReal (ly_gain lr))
  else if negb (blend lr =? 0) && String.eqb "blend" k then Some (JString (blend_mode_name (blend lr)))
  else if String.eqb "visible" k then Some (JBool (visible lr))
  else if String.eqb "opacity" k then Some (JReal (ly_opacity lr))
  else if String.eqb "transform" k
       then Some (JArray (map JReal [af_a (ly_transform lr); af_b (ly_transform lr); af_c (ly_transform lr); af_d (ly_transform lr);
                                     af_tx (ly_transform lr); af_ty (ly_transform lr)]))
  else None.
Proof. unfold placement_fields. by rewrite !get_put_if, !get_put, get_nil. Qed.

Lemma layer_roundtrip lr o :
  layer_ok lr → (∀ k, lit k ∈ k_layer_keys → get k o = get k (placement_fields lr)) → same_placement lr (parse_layer o).
Proof.
  intros (_ & Hs & He & Ht & m & Hm) E. unfold same_placement, parse_layer.
  cbn [ld_transform ld_opacity ld_visible ld_blend ld_gain ld_audible ld_span ld_time_map].
  assert (∀ k, names_key k_layer_keys (lit k) = true → get k o = get k (placement_fields lr)) as E' by (intros k Hk; by apply E, names_key_spec).
  clear E. split_and!.
  - unfold parse_transform. rewrite E' by reflexivity. rewrite get_placement. cbn [String.eqb Ascii.eqb]. rewrite !andb_false_r. cbn. by destruct (ly_transform lr).
  - unfold num_or. rewrite E' by reflexivity. rewrite get_placement. cbn [String.eqb Ascii.eqb]. by rewrite !andb_false_r.
  - unfold bool_or. rewrite E' by reflexivity. rewrite get_placement. cbn [String.eqb Ascii.eqb]. by rewrite !andb_false_r.
  - unfold parse_blend. rewrite E' by reflexivity. rewrite get_placement. cbn [String.eqb Ascii.eqb]. rewrite !andb_false_r, andb_true_r. rewrite Hm.
    destruct (Z.eqb_spec (blend_code m) 0) as [Hz|Hz]; cbn [negb]; [|by rewrite blend_roundtrip]. by destruct m.
  - unfold num_or. rewrite E' by reflexivity. rewrite get_placement. cbn [String.eqb Ascii.eqb]. rewrite !andb_false_r, andb_true_r.
    destruct (SFeqb (ly_gain lr) d_one) eqn:Eg; [by rewrite (eq_one _ Eg)|done].
  - unfold bool_or. rewrite E' by reflexivity. rewrite get_placement. cbn [String.eqb Ascii.eqb]. rewrite !andb_false_r, andb_true_r.
    by destruct (audible lr).
  - destruct (decide (ly_span lr = TimeRange_all)) as [Ea|Ea].
    + unfold parse_span. rewrite E' by reflexivity. rewrite get_placement, (bool_decide_true (ly_span lr = TimeRange_all)) by done. cbn [String.eqb Ascii.eqb negb andb]. by rewrite !andb_false_r, Ea.
    + apply span_roundtrip; [done..|]. rewrite E' by reflexivity. rewrite get_placement, (bool_decide_false _ Ea). cbn [String.eqb Ascii.eqb negb andb]. by rewrite !andb_false_r.
  - destruct (decide (ly_time_map lr = TimeMap_identity)) as [Ea|Ea].
    + unfold parse_time_map. rewrite E' by reflexivity. rewrite get_placement, (bool_decide_true (ly_time_map lr = TimeMap_identity)) by done. cbn [String.eqb Ascii.eqb negb andb]. by rewrite !andb_false_r, Ea.
    + apply time_map_roundtrip; [done|]. rewrite E' by reflexivity. by rewrite get_placement, (bool_decide_false _ Ea).
Qed.

(** ** A composition *)

(** An extent the format can spell: a whole number of 64 bits. *)
Definition whole (v : double) : Prop := is_finite v = true ∧ in_i64 (truncate v) ∧ binary_normalize 53 1024 (truncate v) 0 false = v.

Definition composition_ok (c : CompositionRecord) : Prop :=
  whole (cp_canvas_w c) ∧ whole (cp_canvas_h c) ∧ 0 < sample_rate (cp_working_audio_format c) <= 2 ^ 32 - 1.

Definition composition_fields (c : CompositionRecord) (layers : list json) : fields :=
  put "layers" (JArray layers)
    (put_if (negb (bool_decide (cp_working_audio_format c = k_working_audio))) "working_audio_format" (working_audio_format_json (cp_working_audio_format c))
       (put_if (negb (bool_decide (cp_working_space c = k_working_rgba32f))) "working_space" (working_space_json (cp_working_space c))
          (put "canvas" (JArray [JInt 0; JInt 0; JInt (truncate (cp_canvas_w c)); JInt (truncate (cp_canvas_h c))]) []))).

Lemma composition_sorted c layers : sorted_fields (composition_fields c layers).
Proof. unfold composition_fields. repeat first [apply put_if_sorted|apply put_sorted]. apply sorted_nil. Qed.

Lemma extent_whole {C} wild v id (s : option (Stop SerializeError) * C) : whole v → integer_extent wild v id s = (s, JInt (truncate v)).
Proof. intros (Hf & Hi & _). unfold integer_extent, to_int64. rewrite Hf. by rewrite bool_decide_true. Qed.

Lemma composition_finite {C} wild id c (layers : Emit C (list json)) (s s' : option (Stop SerializeError) * C) ls :
  composition_ok c → layers s = (s', ls) → composition_json wild id c layers None s = (s', JObject (composition_fields c ls)).
Proof.
  intros (Hw & Hh & _) El. unfold composition_json, mbind, emit_bind, mret, emit_ret. rewrite !extent_whole by done. by rewrite El.
Qed.

Lemma get_composition c layers k : get k (composition_fields c layers) =
  if String.eqb "layers" k then Some (JArray layers)
  else if negb (bool_decide (cp_working_audio_format c = k_working_audio)) && String.eqb "working_audio_format" k
       then Some (working_audio_format_json (cp_working_audio_format c))
  else if negb (bool_decide (cp_working_space c = k_working_rgba32f)) && String.eqb "working_space" k then Some (working_space_json (cp_working_space c))
  else if String.eqb "canvas" k then Some (JArray [JInt 0; JInt 0; JInt (truncate (cp_canvas_w c)); JInt (truncate (cp_canvas_h c))])
  else None.
Proof. unfold composition_fields. by rewrite !get_put, !get_put_if, get_put, get_nil. Qed.

Definition same_composition (c : CompositionRecord) (cd : CompData) : Prop :=
  cd_canvas_w cd = cp_canvas_w c ∧ cd_canvas_h cd = cp_canvas_h c ∧
  default k_working_rgba32f (cd_working_space cd) = cp_working_space c ∧
  default k_working_audio (cd_working_audio_format cd) = cp_working_audio_format c.

Definition layer_members (layers : list json) : list fields := omap (λ l, match l with JObject o => Some o | _ => None end) layers.

Lemma composition_roundtrip c layers o :
  composition_ok c → (∀ k, lit k ∈ k_composition_keys → get k o = get k (composition_fields c layers)) →
  same_composition c (parse_composition o) ∧ cd_layers (parse_composition o) = map parse_layer (layer_members layers).
Proof.
  intros ((_ & Hwi & Hw) & (_ & Hhi & Hh) & Hsr) E.
  assert (∀ k, names_key k_composition_keys (lit k) = true → get k o = get k (composition_fields c layers)) as E' by (intros k Hk; by apply E, names_key_spec).
  clear E. unfold same_composition, parse_composition. rewrite !E' by reflexivity. rewrite !get_composition. cbn [String.eqb Ascii.eqb].
  rewrite !andb_false_r, !andb_true_r. cbn [as_double Bool.eqb]. rewrite Hw, Hh. cbn [cd_canvas_w cd_canvas_h cd_working_space cd_working_audio_format cd_layers].
  split_and!; [done|done| | |].
  - destruct (bool_decide_reflect (cp_working_space c = k_working_rgba32f)) as [->|]; [done|]. cbn [negb].
    destruct (surface_format_roundtrip (cp_working_space c)) as (w & -> & ->). done.
  - destruct (bool_decide_reflect (cp_working_audio_format c = k_working_audio)) as [->|]; [done|]. cbn [negb].
    destruct (audio_format_roundtrip (cp_working_audio_format c) Hsr) as (w & -> & ->). done.
  - clear. unfold layer_members. induction layers as [|[] layers IH]; cbn; [done|..]; by rewrite ?IH.
Qed.
