(* ===== verification/ContentCodec.v ===== *)
(** * Contents and their bodies ([src/src/serialize/codec.cpp], [placeholder_content.hpp])

    What the document format sees of a content: its edges, and either the live state of a
    kind, which only that kind's codec can spell, or the body of a kind no codec is here for.
    The codecs come from the kinds and from plugins: [Codec] is what they may be. *)

From S2P Require Import Prelude Uri Json SceneFormat.
Local Open Scope Z_scope.

(** [Content*]: contents live as long as the document, and are told apart by address. *)
Notation Handle := nat.

Inductive ContentState (L : Type) := Placeholder (body : fields) (kind_registered : bool) | Live (state : L).
Arguments Placeholder {L}.
Arguments Live {L}.

(** The accessors of [Content] the format uses: [external_composition_ref],
    [composition_ref], [inputs]. *)
Record Node (L : Type) := mkNode {
  n_state : ContentState L; n_external : str; n_composition : Z; n_inputs : list (option Handle) }.
Arguments mkNode {L}.
Arguments n_state {L}.
Arguments n_external {L}.
Arguments n_composition {L}.
Arguments n_inputs {L}.

Record Codec (L SC LC : Type) := mkCodec {
  cd_serialize : option (Node L → SC → SC * expected SerializeError json);
  cd_deserialize : option (fields → list (option Handle) → Z → LC → LC * expected ReaderError (Node L)) }.
Arguments mkCodec {L SC LC}.
Arguments cd_serialize {L SC LC}.
Arguments cd_deserialize {L SC LC}.

Notation CodecTable L SC LC := (gmap str (Codec L SC LC)).

Section codec.
Context {L SC LC : Type}.

Definition table_add (kind_id : str) (codec : Codec L SC LC) (table : CodecTable L SC LC) : CodecTable L SC LC := <[kind_id := codec]> table.

(** [CodecTable::find], and the half of the codec a caller needs. *)
Definition deserializer (codecs : CodecTable L SC LC) (kind : str) :
    option (fields → list (option Handle) → Z → LC → LC * expected ReaderError (Node L)) :=
  codec ← codecs !! kind; cd_deserialize codec.
Definition serializer (codecs : CodecTable L SC LC) (kind : str) : option (Node L → SC → SC * expected SerializeError json) :=
  codec ← codecs !! kind; cd_serialize codec.

Definition read_fail {A} (kind : ReaderErrorKind) (path : string) : expected ReaderError A := Err (mkReaderError kind (lit path)).

(** [PlaceholderContent]: the body without the edges, which are bound as its own. *)
Definition placeholder (body : fields) (kind_registered : bool) (inputs : list (option Handle)) (composition : Z) : Node L :=
  mkNode (Placeholder (erase_field (lit "composition") (erase_field (lit "inputs") body)) kind_registered) [] composition inputs.

(** What is built, the kind whose codec built it, and the parameters that codec did not take. *)
Record Produced := mkProduced { pr_node : Node L; pr_kind : option str; pr_residual : fields }.

(** The frame of a body: its kind and its parameters. *)
Definition body_frame (body : json) : expected ReaderError (str * option fields) :=
  match body with
  | JObject o =>
      match get "kind" o with
      | None => read_fail MissingRequiredField "/kind"
      | Some (JString []) => read_fail MissingRequiredField "/kind"
      | Some (JString kind) =>
          match get "params" o with
          | None => Ok (kind, None)
          | Some (JObject params) => Ok (kind, Some params)
          | Some _ => read_fail MalformedField "/params"
          end
      | Some _ => read_fail MalformedField "/kind"
      end
  | _ => read_fail MalformedField ""
  end.

(** The residual of the parameters: what the codec, run backwards, does not write. *)
Definition params_residual (params_ctx : LC → SC) (codecs : CodecTable L SC LC) (kind : str) (params : fields) (node : Node L) (ctx : LC) : fields :=
  match serializer codecs kind with
  | None => []
  | Some serialize =>
      match (serialize node (params_ctx ctx)).2 with
      | Ok back => match unknown_residual_diff (JObject params) back with JObject residual => residual | _ => [] end
      | Err _ => []
      end
  end.

Definition content_body_from_json (params_ctx : LC → SC) (registered : str → bool) (codecs : CodecTable L SC LC)
    (body : json) (inputs : list (option Handle)) (composition : Z) : ST LC ReaderError Produced := λ ctx,
  match body_frame body with
  | Err e => (ctx, Err e)
  | Ok (kind, params) =>
      match deserializer codecs kind with
      | Some deserialize =>
          let '(ctx, produced) := deserialize (default [] params) inputs composition ctx in
          match produced with
          | Ok node => (ctx, Ok (mkProduced node (Some kind) (params_residual params_ctx codecs kind (default [] params) node ctx)))
          | Err e => (ctx, Err e)
          end
      | None =>
          match body with
          | JObject o => (ctx, Ok (mkProduced (placeholder o (registered kind) inputs composition) None []))
          | _ => (ctx, read_fail MalformedField "")
          end
      end
  end.

Definition content_body_to_json (codecs : CodecTable L SC LC) (kind_id kind_version : str) (content : Node L) (ctx : SC) :
    SC * expected SerializeError json :=
  match n_state content with
  | Placeholder body _ => (ctx, Ok (JObject body))
  | Live _ =>
      match serializer codecs kind_id with
      | None => (ctx, Err (mkSerializeError NoCodec 0))
      | Some serialize =>
          let '(ctx, params) := serialize content ctx in
          (ctx, match params with
                | Err e => Err e
                | Ok params =>
                    Ok (JObject (object_of [member "kind" (JString kind_id); member "kind_version" (JString kind_version); member "params" params]))
                end)
      end
  end.

(** ** The codec of a plugin, which speaks text *)

Record KindCodec := mkKindCodec {
  kc_kind_version : str;
  kc_serialize : Node L → option str;
  kc_deserialize : str → list (option Handle) → Z → option (Node L) }.

Definition adapt_kind_codec (parse : str → option json) (dump : fields → str) (codec : KindCodec) : Codec L SC LC :=
  mkCodec
    (Some (λ content ctx,
       (ctx, match kc_serialize codec content with
             | None => Err (mkSerializeError CodecFailed 0)
             | Some text =>
                 match parse text with Some (JObject params) => Ok (JObject params) | _ => Err (mkSerializeError CodecFailed 0) end
             end)))
    (Some (λ params inputs composition ctx,
       (ctx, match kc_deserialize codec (dump params) inputs composition with
             | None => read_fail MalformedField "/params"
             | Some node => Ok node
             end))).
End codec.

Arguments Produced : clear implicits.
Arguments mkProduced {L}.
Arguments pr_node {L}.
Arguments pr_kind {L}.
Arguments pr_residual {L}.
Arguments KindCodec : clear implicits.
