(* ===== verification/DocumentWriter.v ===== *)
(** * Writing a document ([src/src/serialize/writer.cpp])

    The walk over the graph of compositions and contents that decides what is shared, and the
    emission that follows it.  [DocReads] is what the writer asks of a version of the
    document, [Seams] what it asks of its contents. *)

From S2P Require Import Prelude RationalTime Geometry Records Uri Json SceneFormat ContentCodec.
From stdpp Require Import pretty.
Local Open Scope Z_scope.

(** [std::to_string] of an ordinal. *)
Definition ordinal (n : nat) : str := lit (pretty n).

Record DocReads := mkReads {
  dr_first : option (Z * CompositionRecord);
  dr_find_composition : Z → option CompositionRecord;
  dr_layers_in : Z → list Z;
  dr_find_layer : Z → option LayerRecord }.

Record ContentBody := mkBody { cb_kind : str; cb_version : str; cb_content : Handle }.
Record ContentMeta := mkMeta { cm_kind : str; cm_version : str; cm_id : Z }.

Section writer.
Context {L SC LC : Type}.
Context (doc : DocReads) (node : Handle → Node L) (provider : Z → option ContentBody) (meta : Handle → option ContentMeta).
Context (codecs : CodecTable L SC LC) (unknown : option UnknownFieldStore) (wild_cast : double → Z).

(** ** What is reached, and how often *)

Record Graph := mkGraph {
  g_counts : gmap Handle nat;
  g_meta : gmap Handle ContentMeta;
  g_order : list Handle;
  g_comp_ids : gmap Z nat;
  g_comps : list (Z * CompositionRecord) }.

Definition no_graph : Graph := mkGraph ∅ ∅ [] ∅ [].

Definition enqueue_composition (cid : Z) (g : Graph) : Graph * bool :=
  if cid =? 0 then (g, false)
  else match g_comp_ids g !! cid with
  | Some _ => (g, true)
  | None =>
      match dr_find_composition doc cid with
      | None => (g, false)
      | Some rec => (mkGraph (g_counts g) (g_meta g) (g_order g) (<[cid := length (g_comps g)]> (g_comp_ids g)) (g_comps g ++ [(cid, rec)]), true)
      end
  end.

(** The edge counted; and on the first one the content noted. *)
Definition note_visit (c : Handle) (m : ContentMeta) (g : Graph) : Graph :=
  match g_counts g !! c with
  | Some n => mkGraph (<[c := S n]> (g_counts g)) (g_meta g) (g_order g) (g_comp_ids g) (g_comps g)
  | None => mkGraph (<[c := 1%nat]> (g_counts g)) (<[c := m]> (g_meta g)) (g_order g ++ [c]) (g_comp_ids g) (g_comps g)
  end.

Definition meta_or_none (c : Handle) : ContentMeta := default (mkMeta [] [] 0) (meta c).

Fixpoint visit (fuel : nat) (c : Handle) (m : ContentMeta) (g : Graph) : option Graph :=
  match fuel with
  | O => None
  | S fuel =>
      let g' := note_visit c m g in
      if bool_decide (is_Some (g_counts g !! c)) then Some g'
      else if bool_decide (n_external (node c) ≠ []) then Some g'
      else
        let '(g', nests) := enqueue_composition (n_composition (node c)) g' in
        if nests then Some g'
        else foldl (λ g child, match g, child with
                               | Some g, Some child => visit fuel child (meta_or_none child) g
                               | g, _ => g
                               end) (Some g') (n_inputs (node c))
  end.

Definition visit_layer (fuel : nat) (g : option Graph) (lid : Z) : option Graph :=
  match g, dr_find_layer doc lid with
  | Some g, Some lr =>
      match provider (ly_content lr) with
      | Some body => visit fuel (cb_content body) (mkMeta (cb_kind body) (cb_version body) (ly_content lr)) g
      | None => Some g
      end
  | g, _ => g
  end.

(** Compositions in the order they are met, the list growing as it is walked. *)
Fixpoint walk (rounds fuel : nat) (i : nat) (g : Graph) : option Graph :=
  match g_comps g !! i with
  | None => Some g
  | Some (cid, _) =>
      match rounds with
      | O => None
      | S rounds =>
          match foldl (visit_layer fuel) (Some g) (dr_layers_in doc cid) with
          | Some g => walk rounds fuel (S i) g
          | None => None
          end
      end
  end.

Definition shared (g : Graph) : list Handle := filter (λ c, (2 <= default 0 (g_counts g !! c))%nat) (g_order g).

(** The id of a shared content: its place among them. *)
Definition shared_id (g : Graph) (c : Handle) : option nat := fst <$> list_find (λ d, d = c) (shared g).

(** ** Emission *)

Definition lift (m : SC → SC * expected SerializeError json) : Emit SC (option json) :=
  λ '(e, ctx), let '(ctx, r) := m ctx in
    match r with
    | Ok v => ((e, ctx), Some v)
    | Err err => ((match e with None => Some (Fault err) | e => e end, ctx), None)
    end.

Fixpoint emit_each {A B} (f : A → Emit SC B) (l : list A) : Emit SC (list B) :=
  match l with [] => mret [] | a :: l => v ← f a; vs ← emit_each f l; mret (v :: vs) end.

Fixpoint emit_definition (fuel : nat) (g : Graph) (c : Handle) : Emit SC json :=
  match fuel with
  | O => latch Exhausted;; mret JNull
  | S fuel =>
      let m := default (mkMeta [] [] 0) (g_meta g !! c) in
      leaf ← lift (content_body_to_json codecs (cm_kind m) (cm_version m) (node c));
      match leaf with
      | None => mret (JObject [])
      | Some leaf =>
          let body := match unknown with Some store => merge_unknown_fields leaf (store_find ScopeContent (cm_id m) store) | None => leaf end in
          if bool_decide (n_external (node c) ≠ []) then mret body
          else match g_comp_ids g !! n_composition (node c) with
          | Some i => mret (JObject (put "composition" (JString (ordinal i)) (match body with JObject o => o | _ => [] end)))
          | None =>
              match n_inputs (node c) with
              | [] => mret body
              | inputs =>
                  let use (child : option Handle) : Emit SC json :=
                    match child with
                    | None => mret JNull
                    | Some child =>
                        match shared_id g child with
                        | Some i => mret (JObject (put "$ref" (JString (ordinal i)) []))
                        | None => emit_definition fuel g child
                        end
                    end in
                  arr ← emit_each use inputs;
                  mret (JObject (put "inputs" (JArray arr) (match body with JObject o => o | _ => [] end)))
              end
          end
      end
  end.

Definition emit_use (fuel : nat) (g : Graph) (c : Handle) : Emit SC json :=
  match shared_id g c with
  | Some i => mret (JObject (put "$ref" (JString (ordinal i)) []))
  | None => emit_definition fuel g c
  end.

(** [emit_contents]: the table, when anything is shared. *)
Definition emit_contents (fuel : nat) (g : Graph) : Emit SC (option json) :=
  match shared g with
  | [] => mret None
  | cs => vs ← emit_each (emit_definition fuel g) cs; mret (Some (JObject (object_of (zip (map ordinal (seq 0 (length cs))) vs))))
  end.

Definition emit_layer (fuel : nat) (g : option Graph) (lid : Z) : Emit SC (option json) :=
  match dr_find_layer doc lid with
  | None => mret None
  | Some lr =>
      let content : Emit SC (option json) :=
        match g, provider (ly_content lr) with
        | Some g, Some body => v ← emit_use fuel g (cb_content body); mret (Some v)
        | _, _ => mret None
        end in
      v ← layer_json lr lid content unknown; mret (Some v)
  end.

Definition emit_layers (fuel : nat) (g : option Graph) (cid : Z) : Emit SC (list json) :=
  ls ← emit_each (emit_layer fuel g) (dr_layers_in doc cid); mret (omap id ls).

Definition emit_composition (fuel : nat) (g : option Graph) (c : Z * CompositionRecord) : Emit SC json :=
  composition_json wild_cast c.1 c.2 (emit_layers fuel g c.1) unknown.

(** [storage_format_token]. *)
Definition storage_format_token (storage : PixelFormat) : str :=
  lit (match storage with Rgba32fLinearPremul => "rgba32f" | _ => "rgba16f" end)%string.

(** The members of the root after the envelope: the root composition, the table of the other
    ones, the table of shared contents. *)
Definition emit_graph (fuel : nat) (g : Graph) (first : Z * CompositionRecord) (root : fields) : Emit SC fields :=
  v ← emit_composition fuel (Some g) first;
  let root := put "composition" v root in
  root ← match drop 1 (g_comps g) with
         | [] => mret root
         | rest => vs ← emit_each (emit_composition fuel (Some g)) rest;
                   mret (put "compositions" (JObject (object_of (zip (map ordinal (seq 1 (length rest))) vs))) root)
         end;
  table ← emit_contents fuel g;
  mret (match table with Some t => put "contents" t root | None => root end).

(** [serialize_impl]: with the seams of the contents, [storage] the format of the context;
    without, the placement alone. *)
Definition envelope (storage : option PixelFormat) : fields :=
  put_if (match storage with None | Some Rgba16fLinearPremul => false | _ => true end) "storage_format"
    (JString (match storage with Some f => storage_format_token f | None => [] end)) (put "format" (JInt 1) []).

Definition emit_document (fuel rounds : nat) (storage : option PixelFormat) : Emit SC fields :=
  let root := put "arbc" (JObject (envelope storage)) [] in
  match dr_first doc with
  | None => mret root
  | Some first =>
      match storage with
      | None => v ← emit_composition fuel None first; mret (put "composition" v root)
      | Some _ =>
          let '(g, _) := enqueue_composition first.1 no_graph in
          match walk rounds fuel 0 g with
          | None => latch Exhausted;; mret root
          | Some g => emit_graph fuel g first root
          end
      end
  end.

Definition serialize_document (fuel rounds : nat) (storage : option PixelFormat) (ctx : SC) : SC * expected (Stop SerializeError) json :=
  let '((fault, ctx), root) := emit_document fuel rounds storage (None, ctx) in
  let root := match unknown with Some store => merge_unknown_fields (JObject root) (store_find ScopeDocument 0 store) | None => JObject root end in
  (ctx, match fault with None => Ok root | Some e => Err e end).
End writer.
