(* ===== verification/DocumentReader.v ===== *)
(** * Reading a document ([src/src/serialize/reader.cpp])

    From parsed JSON to a graph of compositions and contents that is not installed yet: the
    envelope, the breadth-first walk over compositions, and the resolution of bodies and
    shared references, children before parents.  The contents built go to the sink of
    [src/src/runtime/document_serialize.cpp], which owns them and mints their ids. *)

From S2P Require Import Prelude RationalTime Geometry Records Uri Json SceneFormat ContentCodec.
Local Open Scope Z_scope.

Record SunkContent := mkSunk { sk_id : Z; sk_live : Handle }.

(** The state a load threads: the contents built, by address, with the next address; the next
    id of the model; the two resolvers; the staged residuals; and the sink's books: the record
    of each minted id with the kind it was given, and the ids of contents not yet an input. *)
Record Reading (L LC : Type) := mkReading {
  rd_heap : gmap Handle (Node L);
  rd_next_handle : Handle;
  rd_next_id : Z;
  rd_allocated : gmap str Z;
  rd_pending : list (Z * fields);
  rd_cache : gmap str SunkContent;
  rd_in_progress : gset str;
  rd_staged : UnknownFieldStore;
  rd_ctx : LC;
  rd_records : gmap Z (option str);
  rd_minted : gmap Handle Z }.
Arguments mkReading {L LC}.
Arguments rd_heap {L LC}.
Arguments rd_next_handle {L LC}.
Arguments rd_next_id {L LC}.
Arguments rd_allocated {L LC}.
Arguments rd_pending {L LC}.
Arguments rd_cache {L LC}.
Arguments rd_in_progress {L LC}.
Arguments rd_staged {L LC}.
Arguments rd_ctx {L LC}.
Arguments rd_records {L LC}.
Arguments rd_minted {L LC}.

Section reader.
Context {L SC LC : Type}.
Context (params_ctx : LC → SC) (registered : str → bool) (codecs : CodecTable L SC LC).
Notation R := (Reading L LC).
Implicit Types s : R.

Definition Read (A : Type) : Type := ST R (Stop ReaderError) A.

Definition fail {A} (kind : ReaderErrorKind) (path : str) : Read A := st_fail (Fault (mkReaderError kind path)).

Definition with_ids (next_id : Z) (allocated : gmap str Z) (pending : list (Z * fields)) s : R :=
  mkReading (rd_heap s) (rd_next_handle s) next_id allocated pending (rd_cache s) (rd_in_progress s) (rd_staged s) (rd_ctx s) (rd_records s) (rd_minted s).
Definition with_refs (cache : gmap str SunkContent) (in_progress : gset str) s : R :=
  mkReading (rd_heap s) (rd_next_handle s) (rd_next_id s) (rd_allocated s) (rd_pending s) cache in_progress (rd_staged s) (rd_ctx s) (rd_records s) (rd_minted s).
Definition with_staged (staged : UnknownFieldStore) s : R :=
  mkReading (rd_heap s) (rd_next_handle s) (rd_next_id s) (rd_allocated s) (rd_pending s) (rd_cache s) (rd_in_progress s) staged (rd_ctx s) (rd_records s) (rd_minted s).
Definition with_ctx (ctx : LC) s : R :=
  mkReading (rd_heap s) (rd_next_handle s) (rd_next_id s) (rd_allocated s) (rd_pending s) (rd_cache s) (rd_in_progress s) (rd_staged s) ctx (rd_records s) (rd_minted s).

(** ** Compositions ([CompResolver]) *)

Definition under (table : string) (key : str) : str := lit table ++ key.

Definition add_root (body : fields) (seeded : Z) : Read Z := λ s,
  let id := if seeded =? 0 then rd_next_id s else seeded in
  let next := if seeded =? 0 then rd_next_id s + 1 else rd_next_id s in
  (with_ids next (<[lit "0" := id]> (rd_allocated s)) (rd_pending s ++ [(id, body)]) s, Ok id).

Definition resolve_composition (table : option fields) (key : str) : Read Z := λ s,
  match rd_allocated s !! key with
  | Some id => (s, Ok id)
  | None =>
      match table ≫= find_field key with
      | None => fail UnresolvableReference (under "/compositions/" key) s
      | Some (JObject body) =>
          (with_ids (rd_next_id s + 1) (<[key := rd_next_id s]> (rd_allocated s)) (rd_pending s ++ [(rd_next_id s, body)]) s, Ok (rd_next_id s))
      | Some _ => fail MalformedField (under "/compositions/" key) s
      end
  end.

(** ** The sink *)

(** An input the new content adopts was no root of a layer: its record goes. *)
Definition demote (books : gmap Z (option str) * gmap Handle Z) (child : option Handle) : gmap Z (option str) * gmap Handle Z :=
  match child with
  | None => books
  | Some child =>
      match books.2 !! child with
      | None => books
      | Some id => (delete id books.1, delete child books.2)
      end
  end.

Definition sink (content : Node L) (kind : option str) s : R * SunkContent :=
  let '(records, minted) := foldl demote (rd_records s, rd_minted s) (n_inputs content) in
  let id := rd_next_id s in let live := rd_next_handle s in
  (mkReading (<[live := content]> (rd_heap s)) (S live) (id + 1) (rd_allocated s) (rd_pending s) (rd_cache s) (rd_in_progress s) (rd_staged s)
     (rd_ctx s) (<[id := kind]> records) (<[live := id]> minted),
   mkSunk id live).

(** ** Contents ([RefResolver]) *)

(** What is set aside of a body: its own unknown siblings when it stands alone, and what its
    codec did not take of its parameters. *)
Definition content_stash (layer_position : bool) (body : fields) (residual : fields) : fields :=
  put_residual "params" residual (if layer_position then [] else residual_fields k_body_keys body).

(** The edge to a child composition, when the body names one. *)
Definition child_composition (comps : option fields) (o : fields) : Read Z :=
  match get "composition" o with
  | None => mret 0
  | Some (JString key) => resolve_composition comps key
  | Some _ => fail MalformedField (lit "/composition")
  end.

(** The node itself, its children already built. *)
Definition build_node (comps : option fields) (layer_position : bool) (o : fields) (inputs : list (option Handle)) : Read SunkContent := λ s,
  match child_composition comps o s with
  | (s, Err e) => (s, Err e)
  | (s, Ok composition) =>
      match content_body_from_json params_ctx registered codecs (JObject o) inputs composition (rd_ctx s) with
      | (ctx, Err e) => (with_ctx ctx s, Err (Fault e))
      | (ctx, Ok produced) =>
          let '(s, sunk) := sink (pr_node produced) (pr_kind produced) (with_ctx ctx s) in
          (with_staged (store_set ScopeContent (sk_id sunk) (content_stash layer_position o (pr_residual produced)) (rd_staged s)) s, Ok sunk)
      end
  end.

Section tables.
Context (comps contents : option fields).

Fixpoint resolve (fuel : nat) (o : fields) (layer_position : bool) {struct fuel} : Read SunkContent :=
  match fuel with
  | O => st_fail Exhausted
  | S fuel =>
      match get "$ref" o with
      | Some (JString id) => λ s,
          match rd_cache s !! id with
          | Some sunk => (s, Ok sunk)
          | None =>
              if bool_decide (id ∈ rd_in_progress s) then fail UnresolvableReference (under "/contents/" id) s
              else match contents ≫= find_field id with
              | None => fail UnresolvableReference (under "/contents/" id) s
              | Some (JObject body) =>
                  match build fuel body false (with_refs (rd_cache s) ({[id]} ∪ rd_in_progress s) s) with
                  | (s, Err e) => (with_refs (rd_cache s) (rd_in_progress s ∖ {[id]}) s, Err e)
                  | (s, Ok sunk) => (with_refs (<[id := sunk]> (rd_cache s)) (rd_in_progress s ∖ {[id]}) s, Ok sunk)
                  end
              | Some _ => fail MalformedField (under "/contents/" id) s
              end
          end
      | Some _ => fail UnresolvableReference (lit "/$ref")
      | None => build fuel o layer_position
      end
  end
with build (fuel : nat) (o : fields) (layer_position : bool) {struct fuel} : Read SunkContent :=
  match fuel with
  | O => st_fail Exhausted
  | S fuel =>
      if has_field (lit "inputs") o && has_field (lit "composition") o then fail MalformedField []
      else
        inputs ← match get "inputs" o with
                 | None => mret []
                 | Some (JArray slots) =>
                     (fix each (slots : list json) : Read (list (option Handle)) :=
                        match slots with
                        | [] => mret []
                        | JObject slot :: slots => child ← resolve fuel slot false; rest ← each slots; mret (Some (sk_live child) :: rest)
                        | _ :: _ => fail MalformedField (lit "/inputs")
                        end) slots
                 | Some _ => fail MalformedField (lit "/inputs")
                 end;
        build_node comps layer_position o inputs
  end.

(** ** The graph *)

Record ResolvedComp := mkResolved { rc_id : Z; rc_data : CompData; rc_contents : list (option SunkContent) }.

(** The content position of each layer; without a sink there is none. *)
Fixpoint resolve_layers (fuel : nat) (with_sink : bool) (layers : list LayerData) : Read (list (option SunkContent)) :=
  match layers with
  | [] => mret []
  | ld :: layers =>
      c ← match with_sink, ld_content_body ld with
          | true, Some body => sunk ← resolve fuel body true; mret (Some sunk)
          | _, _ => mret None
          end;
      cs ← resolve_layers fuel with_sink layers; mret (c :: cs)
  end.

Fixpoint resolve_compositions (rounds fuel : nat) (with_sink : bool) (i : nat) : Read (list ResolvedComp) := λ s,
  match rd_pending s !! i with
  | None => (s, Ok [])
  | Some (id, body) =>
      match rounds with
      | O => (s, Err Exhausted)
      | S rounds =>
          (let data := parse_composition body in
           contents ← resolve_layers fuel with_sink (cd_layers data);
           rest ← resolve_compositions rounds fuel with_sink (S i);
           mret (mkResolved id data contents :: rest)) s
      end
  end.
End tables.

Record DocumentGraph := mkDocument { dg_root : Z; dg_comps : list ResolvedComp }.

(** A table of the root: absent, or an object. *)
Definition table_of (root : fields) (key : string) : Read (option fields) :=
  match get key root with
  | None => mret None
  | Some (JObject table) => mret (Some table)
  | Some _ => fail MalformedField (under "/" (lit key))
  end.

Definition document_unknown (root : fields) : fields :=
  put_residual "arbc" (unknown_residual_at (JObject root) (lit "arbc") k_envelope_keys) (residual_fields k_root_keys root).

Definition resolve_graph (rounds fuel : nat) (with_sink : bool) (seeded : Z) (root : fields) : Read DocumentGraph :=
  composition ← table_of root "composition";
  comps ← table_of root "compositions";
  _ ← match comps with
      | Some table => if has_field (lit "0") table then fail MalformedField (lit "/compositions/0") else mret ()
      | None => mret ()
      end;
  contents ← table_of root "contents";
  _ ← st_modify (λ s, with_staged (store_set ScopeDocument 0 (document_unknown root) (rd_staged s)) s);
  match composition with
  | None => mret (mkDocument 0 [])
  | Some body =>
      id ← add_root body seeded;
      rcs ← resolve_compositions comps contents rounds fuel with_sink 0;
      mret (mkDocument id rcs)
  end.

(** ** The envelope *)

Definition k_format_major : Z := 1.

Definition parse_document (input : option json) : expected ReaderError fields :=
  match input with
  | None => read_fail MalformedJson ""
  | Some (JObject root) =>
      match get "arbc" root with
      | None => read_fail MissingRequiredField "/arbc"
      | Some (JObject arbc) =>
          match get "format" arbc with
          | None => read_fail MissingRequiredField "/arbc/format"
          | Some (JInt z) => if i64 z =? k_format_major then Ok root else read_fail UnknownFormatMajor "/arbc/format"
          | Some _ => read_fail MalformedField "/arbc/format"
          end
      | Some _ => read_fail MalformedField "/arbc"
      end
  | Some _ => read_fail MalformedField ""
  end.

Definition storage_format_from_token (token : str) : option PixelFormat :=
  if bool_decide (token = lit "rgba16f") then Some Rgba16fLinearPremul
  else if bool_decide (token = lit "rgba32f") then Some Rgba32fLinearPremul else None.

(** [apply_storage_format]: what the context is set to, if anything. *)
Definition apply_storage_format (root : fields) : expected ReaderError (option PixelFormat) :=
  match get "arbc" root with
  | Some (JObject arbc) =>
      match get "storage_format" arbc with
      | None => Ok None
      | Some (JString token) =>
          match storage_format_from_token token with Some f => Ok (Some f) | None => read_fail MalformedField "/arbc/storage_format" end
      | Some _ => read_fail MalformedField "/arbc/storage_format"
      end
  | _ => Ok None
  end.

(** A load up to the installation: the graph, the storage format, and the state with the
    contents and the staged residuals. *)
Definition read_document (set_storage : PixelFormat → LC → LC) (rounds fuel : nat) (with_sink : bool) (seeded : Z) (input : option json) :
    Read (DocumentGraph * option PixelFormat) := λ s,
  match parse_document input with
  | Err e => (s, Err (Fault e))
  | Ok root =>
      match apply_storage_format root with
      | Err e => (s, Err (Fault e))
      | Ok storage =>
          let s := with_ctx (match storage with Some f => set_storage f (rd_ctx s) | None => rd_ctx s end) s in
          (g ← resolve_graph rounds fuel with_sink seeded root; mret (g, storage)) s
      end
  end.
End reader.
