(* ===== verification/DocumentSave.v ===== *)
(** * Every save ends ([src/src/serialize/writer.cpp])

    The writer walks the compositions as it meets them and every content once, then emits what
    it gathered.  On a document of finitely many compositions and contents, none of which
    feeds itself, fuel and rounds for their number are enough ([save_ends]). *)

From S2P Require Import Prelude RationalTime Geometry Records Uri Json SceneFormat ContentCodec DocumentWriter.
From Stdlib Require Import SpecFloat.
From stdpp Require Import pretty relations.
Local Open Scope Z_scope.

(** ** The walk *)

Section saves.
Context {L SC LC : Type}.
Context (doc : DocReads) (node : Handle → Node L) (provider : Z → option ContentBody) (meta : Handle → option ContentMeta).
Context (codecs : CodecTable L SC LC) (unknown : option UnknownFieldStore) (wild_cast : double → Z).
(** The contents and the compositions of the document. *)
Context (bodies : gset Handle) (scenes : gset Z).
Implicit Types (g : Graph) (c : Handle).

Definition fed_by c d : Prop := n_external (node c) = [] ∧ Some d ∈ n_inputs (node c).

Record FiniteScene : Prop := {
  fs_scenes : ∀ cid, is_Some (dr_find_composition doc cid) → cid ∈ scenes;
  fs_layers : ∀ cid b, provider cid = Some b → cb_content b ∈ bodies;
  fs_inputs : ∀ c d, c ∈ bodies → Some d ∈ n_inputs (node c) → d ∈ bodies;
  fs_acyclic : ∀ c, ¬ tc fed_by c c }.
Context (finite : FiniteScene).

(** The contents still to be counted, the compositions still to be met or walked. *)
Definition unseen g : nat := size (bodies ∖ dom (g_counts g)).
Definition met_or_not g : nat := size (scenes ∖ dom (g_comp_ids g)) + length (g_comps g).

Definition ordered g : Prop := ∀ c, c ∈ g_order g → c ∈ bodies.

Definition onward g g' : Prop := (unseen g' <= unseen g)%nat ∧ (met_or_not g' <= met_or_not g)%nat ∧ (ordered g → ordered g').

Lemma onward_refl g : onward g g.
Proof. done. Qed.
Lemma onward_trans g1 g2 g3 : onward g1 g2 → onward g2 g3 → onward g1 g3.
Proof. unfold onward. intros (? & ? & ?) (? & ? & ?). split_and!; [lia..|auto]. Qed.

Lemma enqueue_onward cid g : onward g (enqueue_composition doc cid g).1 ∧ g_counts (enqueue_composition doc cid g).1 = g_counts g.
Proof.
  unfold enqueue_composition. destruct (cid =? 0); [done|]. destruct (g_comp_ids g !! cid) as [i|] eqn:Ei; [done|].
  destruct (dr_find_composition doc cid) as [rec|] eqn:Er; [|done]. split; [|done]. split; [done|]. split; [|done]. unfold met_or_not. cbn [fst g_comp_ids g_comps].
  rewrite dom_insert_L, length_app. cbn [length]. assert (cid ∈ scenes) as Hin by (apply (fs_scenes finite); by rewrite Er).
  assert (cid ∉ dom (g_comp_ids g)) as Hn by (by apply not_elem_of_dom).
  pose proof (size_without scenes (dom (g_comp_ids g)) cid Hin Hn). lia.
Qed.

Lemma note_onward c m g : c ∈ bodies → onward g (note_visit c m g).
Proof.
  intros Hc. unfold note_visit, onward, unseen, met_or_not, ordered. destruct (g_counts g !! c) eqn:E; cbn [g_counts g_comp_ids g_comps g_order];
    (split_and!; [rewrite dom_insert_L; apply subseteq_size; set_solver|done|]); [done|].
  intros Ho d Hd. apply elem_of_app in Hd as [Hd|Hd]; [by apply Ho|]. by apply list_elem_of_singleton in Hd as ->.
Qed.

Lemma note_unseen c m g : c ∈ bodies → g_counts g !! c = None → S (unseen (note_visit c m g)) = unseen g.
Proof.
  intros Hc E. unfold note_visit, unseen. rewrite E. cbn [g_counts]. rewrite dom_insert_L. apply size_without; [done|by apply not_elem_of_dom].
Qed.

Notation visit_from := (visit doc node meta).

Lemma visit_ends fuel c m g : c ∈ bodies → (unseen g < fuel)%nat → ∃ g', visit_from fuel c m g = Some g' ∧ onward g g'.
Proof.
  revert c m g. induction fuel as [|fuel IH]; intros c m g Hc Hf; [lia|]. cbn [visit]. pose proof (note_onward c m g Hc) as Hn.
  destruct (bool_decide_reflect (is_Some (g_counts g !! c))) as [|Hs]; [by eexists|].
  destruct (bool_decide _); [by eexists|]. rewrite <- eq_None_not_Some in Hs. pose proof (note_unseen c m g Hc Hs) as Hu.
  destruct (enqueue_onward (n_composition (node c)) (note_visit c m g)) as [He Hcount].
  destruct (enqueue_composition doc (n_composition (node c)) (note_visit c m g)) as [g1 nests]. cbn [fst] in *.
  pose proof (onward_trans _ _ _ Hn He) as Hg. destruct nests; [by eexists|].
  assert (∀ ins g1, (∀ d, Some d ∈ ins → d ∈ bodies) → onward g g1 → (unseen g1 < fuel)%nat →
    ∃ g', foldl (λ (g : option Graph) child, match g, child with Some g, Some child => visit_from fuel child (meta_or_none meta child) g | g, _ => g end) (Some g1) ins = Some g' ∧ onward g g') as Hfold.
  { induction ins as [|[d|] ins IHi]; intros g2 Hin Hg2 Hu2; cbn [foldl]; [by eexists| |by apply IHi; [intros d Hd; apply Hin; right|..]].
    destruct (IH d (meta_or_none meta d) g2) as (g3 & -> & H3); [apply Hin; left|lia|].
    apply IHi; [intros d' Hd; apply Hin; by right|by eapply onward_trans|destruct H3; lia]. }
  apply Hfold; [intros d Hd; by eapply (fs_inputs finite)|done|]. destruct He. unfold unseen in *. rewrite Hcount. lia.
Qed.

Lemma layers_end fuel lids g : (size bodies < fuel)%nat →
  ∃ g', foldl (visit_layer doc node provider meta fuel) (Some g) lids = Some g' ∧ onward g g'.
Proof.
  intros Hf. revert g. induction lids as [|lid lids IH]; intros g; cbn [foldl]; [by eexists|].
  assert (∃ g1, visit_layer doc node provider meta fuel (Some g) lid = Some g1 ∧ onward g g1) as (g1 & -> & H1).
  { unfold visit_layer. destruct (dr_find_layer doc lid) as [lr|]; [|by eexists]. destruct (provider (ly_content lr)) as [b|] eqn:Ep; [|by eexists].
    apply visit_ends; [by eapply (fs_layers finite)|]. unfold unseen. assert (size (bodies ∖ dom (g_counts g)) <= size bodies)%nat by (apply subseteq_size; set_solver). lia. }
  destruct (IH g1) as (g2 & -> & H2). exists g2. split; [done|by eapply onward_trans].
Qed.

Lemma walk_ends rounds fuel i g : (size bodies < fuel)%nat → (met_or_not g <= rounds + i)%nat →
  ∃ g', walk doc node provider meta rounds fuel i g = Some g' ∧ onward g g'.
Proof.
  intros Hf. revert i g. induction rounds as [|rounds IH]; intros i g Hr; cbn [walk]; (destruct (g_comps g !! i) as [[cid rec]|] eqn:Ei; [|by eexists]).
  - apply lookup_lt_Some in Ei. unfold met_or_not in Hr. lia.
  - destruct (layers_end fuel (dr_layers_in doc cid) g Hf) as (g1 & -> & H1). destruct (IH (S i) g1) as (g2 & -> & H2); [destruct H1 as (_ & H1 & _); lia|]. exists g2. split; [done|by eapply onward_trans].
Qed.

(** ** The emission *)

(** What is emitted in place: the input itself, or a reference to it. *)
Definition define_input fuel g (child : option Handle) : Emit SC json :=
  match child with None => mret JNull | Some d => emit_use node codecs unknown fuel g d end.

Lemma define_step fuel g c :
  emit_definition node codecs unknown (S fuel) g c =
    (let m := default (mkMeta [] [] 0) (g_meta g !! c) in
     leaf ← lift (content_body_to_json codecs (cm_kind m) (cm_version m) (node c));
     match leaf with
     | None => mret (JObject [])
     | Some leaf =>
         let body := match unknown with Some store => merge_unknown_fields leaf (store_find ScopeContent (cm_id m) store) | None => leaf end in
         if bool_decide (n_external (node c) ≠ []) then mret body
         else match g_comp_ids g !! n_composition (node c) with
         | Some i => mret (JObject (put "composition" (JString (ordinal i)) (match body with JObject o => o | _ => [] end)))
         | None =>
             match n_inputs (node c) with
             | [] => mret body
             | inputs => arr ← emit_each (define_input fuel g) inputs;
                         mret (JObject (put "inputs" (JArray arr) (match body with JObject o => o | _ => [] end)))
             end
         end
     end).
Proof. reflexivity. Qed.

(** A step that does not run out of fuel, unless it already has. *)
Definition goes {C A} (m : Emit C A) : Prop := ∀ s, s.1 ≠ Some Exhausted → (m s).1.1 ≠ Some Exhausted.

Lemma goes_ret {C A} (a : A) : goes (C := C) (mret a).
Proof. intros s Hs. exact Hs. Qed.
Lemma goes_latch {C} e : goes (C := C) (latch (Fault e)).
Proof. intros [[x|] c] Hs; [exact Hs|done]. Qed.
Lemma goes_bind {C A B} (m : Emit C A) (k : A → Emit C B) : goes m → (∀ a, goes (k a)) → goes (mbind k m).
Proof. intros Hm Hk s Hs. unfold mbind, emit_bind. specialize (Hm s Hs). destruct (m s) as [s1 a]. by apply Hk. Qed.
Lemma goes_lift (m : SC → SC * expected SerializeError json) : goes (lift m).
Proof. intros [[e|] c] Hs; unfold lift; by destruct (m c) as [c' [v|err]]. Qed.
Lemma goes_each {A B} (f : A → Emit SC B) l : (∀ a, a ∈ l → goes (f a)) → goes (emit_each f l).
Proof.
  intros Hf. induction l as [|a l IH]; cbn [emit_each]; [apply goes_ret|]. apply goes_bind; [apply Hf; left|]. intros v.
  apply goes_bind; [apply IH; intros; apply Hf; by right|intros; apply goes_ret].
Qed.
Lemma goes_real {C} v id : goes (real (C := C) v id).
Proof. unfold real. destruct (is_finite v); [apply goes_ret|]. apply goes_bind; [apply goes_latch|intros; apply goes_ret]. Qed.
Lemma goes_extent {C} v id : goes (integer_extent (C := C) wild_cast v id).
Proof. unfold integer_extent. destruct (is_finite v); [apply goes_ret|]. apply goes_bind; [apply goes_latch|intros; apply goes_ret]. Qed.

(** A content is emitted inside those that it is fed to, and none of those is it. *)
Lemma define_goes fuel g c (above : gset Handle) :
  c ∈ bodies → c ∉ above → (∀ a, a ∈ above → tc fed_by a c) → (size (bodies ∖ above) <= fuel)%nat →
  goes (emit_definition node codecs unknown fuel g c).
Proof.
  revert c above. induction fuel as [|fuel IH]; intros c above Hc Ha Hab Hf.
  { pose proof (size_without bodies above c Hc Ha). lia. }
  rewrite define_step. cbn zeta. apply goes_bind; [apply goes_lift|]. intros [leaf|]; [|apply goes_ret].
  destruct (bool_decide_reflect (n_external (node c) ≠ [])) as [|Hx]; [apply goes_ret|].
  destruct (g_comp_ids g !! _); [apply goes_ret|]. destruct (n_inputs (node c)) as [|i0 is0] eqn:Ei; [apply goes_ret|]. rewrite <- Ei.
  apply goes_bind; [|intros; apply goes_ret]. apply goes_each. intros [d|] Hd; [|apply goes_ret]. cbn [define_input]. unfold emit_use.
  destruct (shared_id g d); [apply goes_ret|].
  assert (fed_by c d) as Hfeed by (split; [destruct (n_external (node c)); [done|by destruct Hx]|done]).
  apply (IH d ({[c]} ∪ above)); [by eapply (fs_inputs finite)| | |].
  - intros Hin. apply (fs_acyclic finite d). apply elem_of_union in Hin as [->%elem_of_singleton|Hin]; [by apply tc_once|].
    eapply tc_r; [by apply Hab|done].
  - intros a Hin. apply elem_of_union in Hin as [->%elem_of_singleton|Hin]; [by apply tc_once|]. eapply tc_r; [by apply Hab|done].
  - pose proof (size_without bodies above c Hc Ha). lia.
Qed.

Lemma define_enough fuel g c : c ∈ bodies → (size bodies <= fuel)%nat → goes (emit_definition node codecs unknown fuel g c).
Proof. intros Hc Hf. apply (define_goes fuel g c ∅); [done|set_solver|set_solver|]. by rewrite difference_empty_L. Qed.

Lemma use_goes fuel g c : c ∈ bodies → (size bodies <= fuel)%nat → goes (emit_use node codecs unknown fuel g c).
Proof. intros Hc Hf. unfold emit_use. destruct (shared_id g c); [apply goes_ret|by apply define_enough]. Qed.

Lemma placement_goes {C} lr id : goes (placement_json (C := C) lr id).
Proof.
  unfold placement_json. repeat (apply goes_bind; [|intros ?]); try apply goes_ret; try apply goes_real.
  destruct (SFeqb _ _); [apply goes_ret|]. apply goes_bind; [apply goes_real|intros; apply goes_ret].
Qed.

Lemma layer_goes fuel og lid : (size bodies <= fuel)%nat → goes (emit_layer doc node provider codecs unknown fuel og lid).
Proof.
  intros Hf. unfold emit_layer. destruct (dr_find_layer doc lid) as [lr|]; [|apply goes_ret]. apply goes_bind; [|intros; apply goes_ret].
  unfold layer_json. apply goes_bind; [apply placement_goes|]. intros o. apply goes_bind; [|intros; apply goes_ret].
  destruct og as [g|]; [|apply goes_ret]. destruct (provider (ly_content lr)) as [b|] eqn:Ep; [|apply goes_ret].
  apply goes_bind; [|intros; apply goes_ret]. apply use_goes; [by eapply (fs_layers finite)|done].
Qed.

Lemma composition_goes fuel og p : (size bodies <= fuel)%nat → goes (emit_composition doc node provider codecs unknown wild_cast fuel og p).
Proof.
  intros Hf. unfold emit_composition, composition_json. apply goes_bind; [apply goes_extent|]. intros. apply goes_bind; [apply goes_extent|]. intros.
  apply goes_bind; [|intros; apply goes_ret]. unfold emit_layers. apply goes_bind; [|intros; apply goes_ret].
  apply goes_each. intros. by apply layer_goes.
Qed.

Lemma graph_goes fuel g first root : (size bodies <= fuel)%nat → ordered g →
  goes (emit_graph doc node provider codecs unknown wild_cast fuel g first root).
Proof.
  intros Hf Ho. unfold emit_graph. apply goes_bind; [by apply composition_goes|]. intros v. apply goes_bind.
  - destruct (drop 1 (g_comps g)); [apply goes_ret|]. apply goes_bind; [|intros; apply goes_ret]. apply goes_each. intros. by apply composition_goes.
  - intros r. apply goes_bind; [|intros; apply goes_ret]. unfold emit_contents. destruct (shared g) as [|c0 cs] eqn:E; [apply goes_ret|].
    rewrite <- E. apply goes_bind; [|intros; apply goes_ret]. apply goes_each. intros c Hc. apply define_enough; [|done].
    apply Ho. unfold shared in Hc. by apply list_elem_of_filter in Hc as [_ Hc].
Qed.

Lemma emission_goes fuel rounds storage : (size bodies < fuel)%nat → (size scenes <= rounds)%nat →
  goes (emit_document doc node provider meta codecs unknown wild_cast fuel rounds storage).
Proof.
  intros Hf Hr. unfold emit_document. destruct (dr_first doc) as [first|]; [|apply goes_ret].
  destruct storage as [storage|]; [|apply goes_bind; [apply composition_goes; lia|intros; apply goes_ret]].
  destruct (enqueue_onward first.1 no_graph) as [(_ & He & Hord) _]. destruct (enqueue_composition doc first.1 no_graph) as [g nests]. cbn [fst] in *.
  destruct (walk_ends rounds fuel 0 g Hf) as (g' & -> & _ & _ & Ho).
  { assert (met_or_not no_graph <= size scenes)%nat; [|lia]. unfold met_or_not. cbn [no_graph g_comps length].
    assert (size (scenes ∖ dom (g_comp_ids no_graph)) <= size scenes)%nat by (apply subseteq_size; set_solver). cbn [no_graph g_comp_ids] in *. lia. }
  apply graph_goes; [lia|]. apply Ho, Hord. intros c Hc. by apply elem_of_nil in Hc.
Qed.

End saves.


Module DrosteDemo.
(** A composition with itself inside, twice. *)
Definition droste_node (h : Handle) : Node Z := mkNode (Live 4) [] 10 [].
Definition droste_provider (cid : Z) : option ContentBody := if cid =? 101 then Some (mkBody (lit "nested") (lit "1") 1%nat) else None.
Definition droste_doc : DocReads :=
  mkReads (Some (10, new_composition d_one d_one)) (λ cid, if cid =? 10 then Some (new_composition d_one d_one) else None)
    (λ cid, if cid =? 10 then [11; 12] else [])
    (λ lid, if (lid =? 11) || (lid =? 12) then Some (new_layer 101 Affine_identity d_one) else None).
Definition droste_codecs : CodecTable Z unit unit :=
  {[ lit "nested" := mkCodec (Some (λ n ctx, (ctx, Ok (JObject [])))) None ]}.
Definition droste_save : unit * expected (Stop SerializeError) json :=
  serialize_document droste_doc droste_node droste_provider (λ _, None) droste_codecs None (λ _, 0) 2 1 (Some Rgba16fLinearPremul) tt.
End DrosteDemo.

