(* ===== verification/DocumentLoad.v ===== *)
(** * Every load ends ([src/src/serialize/reader.cpp])

    The reader follows references and composition edges through tables an author can fill with
    anything.  What bounds it: the nesting of the file, a reference being entered once at a
    time, and a composition being met once ([load_ends]). *)

From S2P Require Import Prelude RationalTime Geometry Records Uri Json SceneFormat ContentCodec DocumentReader.
Local Open Scope Z_scope.

(** ** Depth *)

Fixpoint json_depth (v : json) : nat :=
  match v with
  | JObject members => S ((fix deepest (ms : fields) : nat := match ms with [] => O | (_, v) :: ms => Nat.max (json_depth v) (deepest ms) end) members)
  | JArray elements => S ((fix deepest (vs : list json) : nat := match vs with [] => O | v :: vs => Nat.max (json_depth v) (deepest vs) end) elements)
  | _ => O
  end.

Lemma depth_field k v (o : fields) : find_field k o = Some v → (json_depth v < json_depth (JObject o))%nat.
Proof.
  intros H. apply find_field_some in H. cbn [json_depth]. apply Nat.lt_succ_r. induction o as [|[k' v'] o IH]; [by apply elem_of_nil in H|].
  apply elem_of_cons in H as [[= <- <-]|H]; [lia|]. specialize (IH H). cbn in *. lia.
Qed.

Lemma depth_item v vs : v ∈ vs → (json_depth v < json_depth (JArray vs))%nat.
Proof.
  intros H. cbn [json_depth]. apply Nat.lt_succ_r. induction vs as [|v' vs IH]; [by apply elem_of_nil in H|].
  apply elem_of_cons in H as [<-|H]; [lia|]. specialize (IH H). cbn in *. lia.
Qed.

Lemma depth_members n (o : fields) : (∀ k v, (k, v) ∈ o → (json_depth v <= n)%nat) → (json_depth (JObject o) <= S n)%nat.
Proof.
  intros H. cbn [json_depth]. apply le_n_S. induction o as [|[k v] o IH]; [lia|]. apply Nat.max_lub; [by eapply (H k); left|].
  apply IH. intros k' v' Hin. apply (H k'). by right.
Qed.

Lemma in_object_of k v members : (k, v) ∈ object_of members → (k, v) ∈ members.
Proof.
  unfold object_of. assert (∀ o : fields, (k, v) ∈ foldl (λ o f, set_field f.1 f.2 o) o members → (k, v) ∈ o ∨ (k, v) ∈ members) as H.
  { induction members as [|[k' v'] members IH]; intros o Hin; [by left|]. cbn [foldl fst snd] in Hin. apply IH in Hin as [Hin|Hin]; [|by right; right].
    apply set_in in Hin as [->|Hin]; [right; left|by left]. }
  intros Hin. apply H in Hin as [Hin|Hin]; [by apply elem_of_nil in Hin|done].
Qed.

Lemma depth_residual known o : (json_depth (JObject (residual_fields known o)) <= json_depth (JObject o))%nat.
Proof.
  assert (∃ n, json_depth (JObject o) = S n) as [n E] by by eexists. rewrite E. apply depth_members. intros k v Hin.
  rewrite residual_filter in Hin. apply in_object_of, list_elem_of_filter in Hin as [_ Hin].
  apply find_field_in in Hin as Hf. assert (json_depth v < json_depth (JObject o))%nat; [|lia]. clear Hf E. cbn [json_depth]. apply Nat.lt_succ_r.
  induction o as [|[k' v'] o IH]; [by apply elem_of_nil in Hin|]. apply elem_of_cons in Hin as [[= <- <-]|Hin]; [lia|]. specialize (IH Hin). lia.
Qed.

(** ** Every load ends *)

Section termination.
Context {L SC LC : Type} (params_ctx : LC → SC) (registered : str → bool) (codecs : CodecTable L SC LC).
Context (comps contents : option fields).
Notation R := (Reading L LC).
Implicit Types s : R.

(** The members of an optional table. *)
Definition names_of (table : option fields) : gset str := list_to_set (map fst (default [] table)).

Lemma names_of_find table key v : table ≫= find_field key = Some v → key ∈ names_of table.
Proof.
  destruct table as [table|]; [|done]. intros H%find_field_some. apply elem_of_list_to_set, list_elem_of_In, in_map_iff.
  exists (key, v). split; [done|by apply list_elem_of_In].
Qed.

(** The compositions a load may still come to, those already met included. *)
Definition crowd s : nat := size (names_of comps ∖ dom (rd_allocated s)) + length (rd_pending s).

Definition shallow n s : Prop := ∀ p, p ∈ rd_pending s → (json_depth (JObject p.2) <= n)%nat.

(** Whatever a step returns, the references in progress are those of the call, a composition
    is met once, and it comes from the table. *)
Definition steady {A} (m : Read (L := L) (LC := LC) A) : Prop :=
  ∀ s, rd_in_progress (m s).1 = rd_in_progress s ∧ (crowd (m s).1 <= crowd s)%nat ∧
       ∀ n, (json_depth (JObject (default [] comps)) <= n)%nat → shallow n s → shallow n (m s).1.

Lemma steady_ret {A} (a : A) : steady (mret a).
Proof. done. Qed.
Lemma steady_fail {A} k p : steady (fail (A := A) k p).
Proof. done. Qed.
Lemma steady_bind {A B} (m : Read A) (k : A → Read B) : steady m → (∀ a, steady (k a)) → steady (mbind k m).
Proof.
  intros Hm Hk s. unfold mbind, ST_bind. specialize (Hm s). destruct (m s) as [s1 [a|e]]; [|done]. cbn in *.
  destruct (Hk a s1) as (? & ? & ?), Hm as (? & ? & ?). split_and!; [congruence|lia|auto].
Qed.

Lemma resolve_composition_steady key : steady (resolve_composition comps key).
Proof.
  intros s. unfold resolve_composition. destruct (rd_allocated s !! key) eqn:Ea; [done|].
  destruct (comps ≫= find_field key) as [[body| | | | | |]|] eqn:Ef; try done. split; [done|]. split.
  2:{ intros n Hn Hs p Hp. cbn in Hp. apply elem_of_app in Hp as [Hp|Hp]; [by apply Hs|]. apply list_elem_of_singleton in Hp as ->. cbn [snd].
      destruct comps as [table|]; [|done]. apply depth_field in Ef. cbn [default] in Hn. unfold Datatypes.id in Hn. lia. }
  apply names_of_find in Ef. unfold crowd.
  cbn [fst with_ids rd_allocated rd_pending]. rewrite dom_insert_L, length_app. cbn [length].
  pose proof (size_without (names_of comps) (dom (rd_allocated s)) key Ef) as E. rewrite not_elem_of_dom in E. specialize (E Ea). lia.
Qed.

Lemma build_node_steady layer o inputs : steady (build_node params_ctx registered codecs comps layer o inputs).
Proof.
  intros s. unfold build_node. assert (steady (child_composition (LC := LC) (L := L) comps o)) as Hc.
  { unfold child_composition. destruct (get "composition" o) as [[]|]; try done. apply resolve_composition_steady. }
  specialize (Hc s). destruct (child_composition comps o s) as [s1 [id|e]]; [|done].
  destruct (content_body_from_json _ _ _ _ _ _ _) as [ctx [produced|e]]; [|done].
  unfold sink. destruct (foldl demote _ _) as [records minted]. done.
Qed.

Definition slots_of (fuel : nat) : list json → Read (L := L) (LC := LC) (list (option Handle)) :=
  fix each (slots : list json) :=
    match slots with
    | [] => mret []
    | JObject slot :: slots =>
        child ← resolve params_ctx registered codecs comps contents fuel slot false; rest ← each slots; mret (Some (sk_live child) :: rest)
    | _ :: _ => fail MalformedField (lit "/inputs")
    end.

Definition inputs_of (fuel : nat) (o : fields) : Read (L := L) (LC := LC) (list (option Handle)) :=
  match get "inputs" o with None => mret [] | Some (JArray slots) => slots_of fuel slots | Some _ => fail MalformedField (lit "/inputs") end.

Lemma build_step fuel o layer :
  build params_ctx registered codecs comps contents (S fuel) o layer =
    if has_field (lit "inputs") o && has_field (lit "composition") o then fail MalformedField []
    else inputs ← inputs_of fuel o; build_node params_ctx registered codecs comps layer o inputs.
Proof. reflexivity. Qed.

Definition enter (id : str) s : R := with_refs (rd_cache s) ({[id]} ∪ rd_in_progress s) s.

Lemma resolve_step fuel o layer s :
  resolve params_ctx registered codecs comps contents (S fuel) o layer s =
    match get "$ref" o with
    | Some (JString id) =>
        match rd_cache s !! id with
        | Some sunk => (s, Ok sunk)
        | None =>
            if bool_decide (id ∈ rd_in_progress s) then fail UnresolvableReference (under "/contents/" id) s
            else match contents ≫= find_field id with
            | None => fail UnresolvableReference (under "/contents/" id) s
            | Some (JObject body) =>
                match build params_ctx registered codecs comps contents fuel body false (enter id s) with
                | (s, Err e) => (with_refs (rd_cache s) (rd_in_progress s ∖ {[id]}) s, Err e)
                | (s, Ok sunk) => (with_refs (<[id := sunk]> (rd_cache s)) (rd_in_progress s ∖ {[id]}) s, Ok sunk)
                end
            | Some _ => fail MalformedField (under "/contents/" id) s
            end
        end
    | Some _ => fail UnresolvableReference (lit "/$ref") s
    | None => build params_ctx registered codecs comps contents fuel o layer s
    end.
Proof. cbn [resolve]. destruct (get "$ref" o) as [[]|]; reflexivity. Qed.

Lemma reading_steady fuel :
  (∀ o layer, steady (resolve params_ctx registered codecs comps contents fuel o layer)) ∧
  (∀ o layer, steady (build params_ctx registered codecs comps contents fuel o layer)).
Proof.
  induction fuel as [|fuel [IHr IHb]]; [done|]. split; intros o layer.
  - intros s. rewrite resolve_step. destruct (get "$ref" o) as [[| |id| | | |]|]; try done; [|apply IHb].
    destruct (rd_cache s !! id); [done|]. destruct (bool_decide_reflect (id ∈ rd_in_progress s)) as [|Hn]; [done|].
    destruct (contents ≫= find_field id) as [[body| | | | | |]|]; try done. destruct (IHb body false (enter id s)) as [Hs Hc].
    destruct (build _ _ _ _ _ _ _ _ _) as [s1 [sunk|e]]; cbn in Hs; (split; [cbn; rewrite Hs; set_solver|exact Hc]).
  - rewrite build_step. destruct (_ && _); [done|]. apply steady_bind; [|intros; apply build_node_steady].
    unfold inputs_of. destruct (get "inputs" o) as [[|slots| | | | |]|]; try done. induction slots as [|slot slots IH]; [done|].
    destruct slot; try done. cbn [slots_of]. apply steady_bind; [apply IHr|]. intros. apply steady_bind; [exact IH|done].
Qed.

(** What a call still needs: twice the depth of its value, and of every table entry it can
    enter once. *)
Definition open_refs s : nat := size (names_of contents ∖ rd_in_progress s).
Definition table_depth : nat := json_depth (JObject (default [] contents)).
Definition needed (s : R) (o : fields) : nat := 2 * json_depth (JObject o) + open_refs s * (2 * table_depth + 4).

Definition exhausted {A} (x : expected (Stop ReaderError) A) : Prop := match x with Err Exhausted => True | _ => False end.

Lemma enter_open id s body : id ∉ rd_in_progress s → contents ≫= find_field id = Some (JObject body) →
  (S (open_refs (enter id s)) = open_refs s)%nat ∧ (json_depth (JObject body) < table_depth)%nat.
Proof.
  unfold open_refs, table_depth. intros Hn Hf. split; [by apply size_without; [eapply names_of_find|]|].
  destruct contents as [table|]; [exact (depth_field _ _ _ Hf)|done].
Qed.

Lemma steady_open {A} (m : Read A) s : steady m → open_refs (m s).1 = open_refs s.
Proof. intros Hm. unfold open_refs. by rewrite (proj1 (Hm s)). Qed.

Lemma child_composition_settles o s : ¬ exhausted (child_composition (L := L) (LC := LC) comps o s).2.
Proof.
  unfold child_composition. destruct (get "composition" o) as [[]|]; try by intros []. unfold resolve_composition.
  destruct (rd_allocated s !! _); [by intros []|]. destruct (comps ≫= _) as [[]|]; by intros [].
Qed.

Lemma build_node_settles layer o inputs s : ¬ exhausted (build_node params_ctx registered codecs comps layer o inputs s).2.
Proof.
  unfold build_node. pose proof (child_composition_settles o s) as Hc. destruct (child_composition comps o s) as [s1 [id|e]]; [|done].
  destruct (content_body_from_json _ _ _ _ _ _ _) as [ctx [produced|e]]; [|by intros []].
  destruct (sink _ _ _) as [s2 sunk]. by intros [].
Qed.

Lemma bind_settles {A B} (m : Read A) (k : A → Read B) s :
  ¬ exhausted (m s).2 → (∀ s1 a, m s = (s1, Ok a) → ¬ exhausted (k a s1).2) → ¬ exhausted (mbind k m s).2.
Proof. intros Hm Hk. unfold mbind, ST_bind. destruct (m s) as [s1 [a|e]]; [by apply Hk|done]. Qed.

Lemma slot_depth o slots slot : get "inputs" o = Some (JArray slots) → JObject slot ∈ slots →
  (2 + json_depth (JObject slot) <= json_depth (JObject o))%nat.
Proof. intros Hi Hs. apply depth_field in Hi. apply depth_item in Hs. lia. Qed.

Lemma reading_settles fuel :
  (∀ o layer s, (needed s o + 2 <= fuel)%nat → ¬ exhausted (resolve params_ctx registered codecs comps contents fuel o layer s).2) ∧
  (∀ o layer s, (needed s o + 1 <= fuel)%nat → ¬ exhausted (build params_ctx registered codecs comps contents fuel o layer s).2).
Proof.
  induction fuel as [|fuel [IHr IHb]]; [split; intros; lia|]. split; intros o layer s Hf.
  - rewrite resolve_step. destruct (get "$ref" o) as [[| |id| | | |]|]; try (by intros []); [|apply IHb; lia].
    destruct (rd_cache s !! id); [by intros []|]. destruct (bool_decide_reflect (id ∈ rd_in_progress s)) as [|Hn]; [by intros []|].
    destruct (contents ≫= find_field id) as [[body| | | | | |]|] eqn:Ef; try by intros [].
    destruct (enter_open id s body Hn Ef) as [Ho Hd]. assert (¬ exhausted (build params_ctx registered codecs comps contents fuel body false (enter id s)).2) as Hb.
    { apply IHb. unfold needed in *. nia. }
    destruct (build _ _ _ _ _ _ _ _ _) as [s1 [sunk|e]]; [by intros []|done].
  - rewrite build_step. destruct (_ && _); [by intros []|]. apply bind_settles; [|intros; apply build_node_settles].
    unfold inputs_of. destruct (get "inputs" o) as [[|slots| | | | |]|] eqn:Ei; try by intros [].
    assert (∀ l s1, (∀ slot, slot ∈ l → slot ∈ slots) → open_refs s1 = open_refs s → ¬ exhausted (slots_of fuel l s1).2) as H; [|by apply H].
    induction l as [|slot l IH]; intros s1 Hl Ho; [by intros []|]. destruct slot as [slot| | | | | |]; try by intros []. cbn [slots_of].
    assert (2 + json_depth (JObject slot) <= json_depth (JObject o))%nat as Hd by (eapply slot_depth; [done|apply Hl; left]).
    apply bind_settles; [apply IHr; unfold needed in *; rewrite Ho; lia|]. intros s2 child Hc. apply bind_settles; [|by intros; intros []].
    apply IH; [intros; apply Hl; by right|]. rewrite <- Ho. pose proof (steady_open _ s1 (proj1 (reading_steady fuel) slot false)) as E. by rewrite Hc in E.
Qed.

Notation layers_of := (resolve_layers params_ctx registered codecs comps contents).
Notation compositions_of := (resolve_compositions params_ctx registered codecs comps contents).

Lemma layers_steady fuel with_sink layers : steady (layers_of fuel with_sink layers).
Proof.
  induction layers as [|ld layers IH]; [done|]. cbn [resolve_layers]. apply steady_bind.
  - destruct with_sink, (ld_content_body ld); try done. apply steady_bind; [apply reading_steady|done].
  - intros c. apply steady_bind; [exact IH|done].
Qed.

(** The fuel that is enough for contents written to a given depth. *)
Definition enough (n : nat) : nat := 2 * n + size (names_of contents) * (2 * table_depth + 4) + 2.

Lemma needed_enough n o s : (json_depth (JObject o) <= n)%nat → (needed s o + 2 <= enough n)%nat.
Proof.
  intros Ho. unfold needed, enough, open_refs.
  assert (size (names_of contents ∖ rd_in_progress s) <= size (names_of contents))%nat by (apply subseteq_size; set_solver). nia.
Qed.

Lemma layers_settle n fuel with_sink layers : (enough n <= fuel)%nat →
  (∀ ld o, ld ∈ layers → ld_content_body ld = Some o → (json_depth (JObject o) <= n)%nat) →
  ∀ s, ¬ exhausted (layers_of fuel with_sink layers s).2.
Proof.
  intros Hf. induction layers as [|ld layers IH]; intros Hd s; [by intros []|]. cbn [resolve_layers]. apply bind_settles.
  - destruct with_sink; [|by intros []]. destruct (ld_content_body ld) as [o|] eqn:Eo; [|by intros []].
    apply bind_settles; [|by intros; intros []]. apply (proj1 (reading_settles fuel)).
    assert (json_depth (JObject o) <= n)%nat as Ho by (eapply Hd; [left|done]). pose proof (needed_enough n o s Ho). lia.
  - intros s1 c _. apply bind_settles; [|by intros; intros []]. apply IH. intros ld' o Hin. apply Hd. by right.
Qed.

Lemma parsed_depth body ld o : ld ∈ cd_layers (parse_composition body) → ld_content_body ld = Some o →
  (json_depth (JObject o) <= json_depth (JObject body))%nat.
Proof.
  unfold parse_composition. destruct (match get "canvas" body with Some _ => _ | None => _ end) as [w h]. cbn [cd_layers].
  destruct (get "layers" body) as [[|layers| | | | |]|] eqn:El; try by intros ?%elem_of_nil.
  intros Hin Ho. apply list_elem_of_omap in Hin as (v & Hv & E). destruct v as [l| | | | | |]; try done. injection E as <-.
  cbn [parse_layer ld_content_body] in Ho. unfold extract_content_body in Ho. destruct (_ || _); [|done]. injection Ho as <-.
  pose proof (depth_residual k_layer_keys l). apply depth_item in Hv. apply depth_field in El. lia.
Qed.

Lemma compositions_settle n fuel with_sink : (enough n <= fuel)%nat → (json_depth (JObject (default [] comps)) <= n)%nat →
  ∀ rounds i s, (crowd s <= rounds + i)%nat → shallow n s → ¬ exhausted (compositions_of rounds fuel with_sink i s).2.
Proof.
  intros Hf Hn. induction rounds as [|rounds IH]; intros i s Hc Hs; cbn [resolve_compositions]; destruct (rd_pending s !! i) as [[id body]|] eqn:Ei;
    try by intros [].
  - apply lookup_lt_Some in Ei. unfold crowd in Hc. lia.
  - apply bind_settles.
    + apply (layers_settle n); [done|]. intros ld o Hl Ho. etrans; [by eapply parsed_depth|]. apply (Hs (id, body)). by eapply list_elem_of_lookup_2.
    + intros s1 cs E. pose proof (layers_steady fuel with_sink (cd_layers (parse_composition body)) s) as (_ & Hc1 & Hs1). rewrite E in Hc1, Hs1.
      apply bind_settles; [|by intros; intros []]. apply IH; [cbn in Hc1; lia|by apply Hs1].
Qed.
End termination.

(** The fuel and the rounds a document needs. *)
Definition members_of (root : fields) (key : string) : fields := match get key root with Some (JObject table) => table | _ => [] end.
Definition document_fuel (root : fields) : nat :=
  let d := json_depth (JObject root) in 2 * d + length (members_of root "contents") * (2 * d + 4) + 2.
Definition document_rounds (root : fields) : nat := S (length (members_of root "compositions")).

Section loads.
Context {L SC LC : Type} (params_ctx : LC → SC) (registered : str → bool) (codecs : CodecTable L SC LC).
Notation R := (Reading L LC).
Implicit Types s : R.

Lemma table_settles root key s : ¬ exhausted (table_of (L := L) (LC := LC) root key s).2.
Proof. unfold table_of. destruct (get key root) as [[]|]; by intros []. Qed.

Lemma table_ok root key s s1 t : table_of (L := L) (LC := LC) root key s = (s1, Ok t) → s1 = s ∧
  default [] t = members_of root key ∧ (t = None ∨ get key root = JObject <$> t).
Proof. unfold table_of, members_of. destruct (get key root) as [[]|]; intros [= <- <-]; split_and!; try done; by (left + right). Qed.

Lemma names_of_length (table : option fields) : (size (names_of table) <= length (default [] table))%nat.
Proof.
  unfold names_of. rewrite <- (length_map fst (default [] table)). generalize (map fst (default [] table)). intros l.
  induction l as [|k l IH]; [done|]. cbn [list_to_set length].
  assert (size ({[k]} ∪ list_to_set (C := gset str) l) <= size ({[k]} : gset str) + size (list_to_set (C := gset str) l))%nat; [|rewrite size_singleton in *; lia].
  rewrite size_union_alt. assert (size (list_to_set (C := gset str) l ∖ {[k]}) <= size (list_to_set (C := gset str) l))%nat by (apply subseteq_size; set_solver). lia.
Qed.

Lemma members_depth root key : (json_depth (JObject (members_of root key)) <= json_depth (JObject root))%nat.
Proof.
  unfold members_of. destruct (get key root) as [[]|] eqn:E; try (cbn; lia). apply depth_field in E. lia.
Qed.

Lemma enough_document root contents : default [] contents = members_of root "contents" →
  (enough contents (json_depth (JObject root)) <= document_fuel root)%nat.
Proof.
  intros E. unfold enough, document_fuel, table_depth. rewrite <- E. pose proof (names_of_length contents) as Hl. rewrite E in Hl |- *.
  pose proof (members_depth root "contents"). nia.
Qed.

Lemma graph_settles root rounds fuel with_sink seeded s :
  (document_fuel root <= fuel)%nat → (document_rounds root <= rounds)%nat → rd_allocated s = ∅ → rd_pending s = [] →
  ¬ exhausted (resolve_graph params_ctx registered codecs rounds fuel with_sink seeded root s).2.
Proof.
  intros Hf Hr Ha Hp. unfold resolve_graph. apply bind_settles; [apply table_settles|]. intros ? composition [-> [_ Hcomp]]%table_ok.
  apply bind_settles; [apply table_settles|]. intros ? comps [-> [Hk Hk']]%table_ok.
  apply bind_settles; [destruct comps as [table|]; [destruct (has_field _ table)|]; by intros []|]. intros s1 [] E.
  assert (s1 = s) as -> by (destruct comps as [table|]; [destruct (has_field _ table)|]; by injection E as ->). clear E.
  apply bind_settles; [apply table_settles|]. intros ? contents [-> [Hc _]]%table_ok.
  apply bind_settles; [by intros []|]. intros s1 [] [= <-]. destruct composition as [body|]; [|by intros []].
  apply bind_settles; [by intros []|]. intros s2 id [= <- <-]. apply bind_settles; [|by intros; intros []].
  apply (compositions_settle _ _ _ _ _ (json_depth (JObject root))).
  - etrans; [by apply enough_document|done].
  - rewrite Hk. apply members_depth.
  - unfold crowd, with_ids, with_staged. cbn [rd_allocated rd_pending]. rewrite Ha, Hp. cbn [app length]. unfold document_rounds in Hr.
    rewrite <- Hk in Hr. pose proof (names_of_length comps). 
    etrans; [apply Nat.add_le_mono_r, subseteq_size, subseteq_difference_l; reflexivity|]. lia.
  - intros p Hin. cbn in Hin. rewrite Hp in Hin. apply list_elem_of_singleton in Hin as ->. cbn [snd].
    destruct Hcomp as [?|E]; [done|]. cbn [fmap option_fmap option_map] in E. apply depth_field in E. lia.
Qed.

(** C30: A load ends: whatever the file holds - contents that refer to each other in a circle,
    compositions that nest one another, tables with dangling names - reading it with the fuel
    and the rounds its own size gives produces a document or an error of the reader, never a
    run that goes on. *)
Theorem load_ends set_storage (input : option json) rounds fuel with_sink seeded s :
  rd_allocated s = ∅ → rd_pending s = [] →
  (∀ root, input = Some (JObject root) → document_fuel root <= fuel ∧ document_rounds root <= rounds)%nat →
  (read_document params_ctx registered codecs set_storage rounds fuel with_sink seeded input s).2 ≠ Err Exhausted.
Proof.
  intros Ha Hp Hb. unfold read_document. destruct (parse_document input) as [root|e] eqn:E; [|done].
  assert (input = Some (JObject root)) as ->.
  { destruct input as [[o| | | | | |]|]; try done. cbn [parse_document] in E. destruct (get "arbc" o) as [[arbc| | | | | |]|]; try done.
    destruct (get "format" arbc) as [[]|]; try done. destruct (_ =? _); [|done]. by injection E as ->. }
  destruct (Hb root eq_refl) as [Hf Hr]. destruct (apply_storage_format root) as [storage|e]; [|done].
  set (s1 := with_ctx _ s). pose proof (graph_settles root rounds fuel with_sink seeded s1 Hf Hr Ha Hp) as H.
  unfold mbind, ST_bind. destruct (resolve_graph _ _ _ _ _ _ _ _ _) as [s2 [g|e]]; [done|]. intros [= ->]. by apply H.
Qed.
End loads.

Module CircularDemo.
(** An operator fed by itself, in the composition that nests itself. *)
Definition circular_root : fields := object_of
  [member "arbc" (JObject [member "format" (JInt 1)]);
   member "composition" (JObject [member "layers" (JArray
     [JObject (object_of [member "kind" (JString (lit "org.nested")); member "composition" (JString (lit "0"))]);
      JObject [member "$ref" (JString (lit "0"))]])]);
   member "contents" (JObject [member "0" (JObject (object_of
     [member "kind" (JString (lit "org.fade")); member "inputs" (JArray [JObject [member "$ref" (JString (lit "0"))]])]))])].
Definition circular_start : Reading Z unit := mkReading ∅ 0%nat 1 ∅ [] ∅ ∅ ∅ tt ∅ ∅.
Definition circular_load : Reading Z unit * expected (Stop ReaderError) (DocumentGraph * option PixelFormat) :=
  read_document (λ _, tt) (λ _, false) ∅ (λ _ _, tt) (document_rounds circular_root) (document_fuel circular_root) true 0
    (Some (JObject circular_root)) circular_start.
End CircularDemo.

Lemma load_ends_witness :
  CircularDemo.circular_load.2 ≠ Err Exhausted ∧
  CircularDemo.circular_load.2 = Err (Fault (mkReaderError UnresolvableReference (lit "/contents/0"))).
Proof.
  split; [|vm_compute; reflexivity]. unfold CircularDemo.circular_load.
  apply (load_ends (λ _, tt) (λ _, false) ∅ (λ _ _, tt) (Some (JObject CircularDemo.circular_root)) _ _ true 0 CircularDemo.circular_start);
    [reflexivity|reflexivity|]. intros root [= <-]. split; apply Nat.le_refl.
Defined.
