(* ===== verification/DocumentRoundtrip.v ===== *)
(** * What is saved is what loads back ([src/src/serialize/writer.cpp], [reader.cpp])

    The two halves of the format meet: the JSON a save without faults leaves ([emitted],
    [comp_emitted]), and what the reader makes of it ([copy], [document_copied]).  The codecs
    of the kinds are parameters; [CodecLaws] is what they owe each other. *)

From S2P Require Import Prelude RationalTime Geometry Records Uri Json SceneFormat ContentCodec DocumentWriter DocumentReader DocumentSave DocumentLoad.
From Stdlib Require Import SpecFloat.
From stdpp Require Import pretty relations.
Local Open Scope Z_scope.

(** ** Emission without faults *)

Definition sticky {C A} (m : Emit C A) : Prop := ∀ s, s.1 ≠ None → (m s).1.1 ≠ None.

Lemma sticky_ret {C A} (a : A) : sticky (C := C) (mret a).
Proof. intros s Hs. exact Hs. Qed.
Lemma sticky_latch {C} err : sticky (C := C) (latch err).
Proof. intros [[e|] c] Hs; [done|by destruct Hs]. Qed.
Lemma sticky_bind {C A B} (m : Emit C A) (k : A → Emit C B) : sticky m → (∀ a, sticky (k a)) → sticky (mbind k m).
Proof. intros Hm Hk s Hs. unfold mbind, emit_bind. specialize (Hm s Hs). destruct (m s) as [s1 a]. by apply Hk. Qed.
Lemma sticky_lift {SC} (m : SC → SC * expected SerializeError json) : sticky (lift m).
Proof. intros [[e|] c] Hs; [|by destruct Hs]. unfold lift. by destruct (m c) as [c' [v|err]]. Qed.

Lemma clean_bind {C A B} (m : Emit C A) (k : A → Emit C B) s s' b :
  (∀ a, sticky (k a)) → mbind k m s = (s', b) → s'.1 = None → ∃ s1 a, m s = (s1, a) ∧ s1.1 = None ∧ k a s1 = (s', b).
Proof.
  intros Hk E Hs. unfold mbind, emit_bind in E. destruct (m s) as [s1 a]. exists s1, a. split; [done|]. split; [|done].
  destruct s1.1 eqn:E1; [|done]. pose proof (Hk a s1) as H. rewrite E1, E in H. by destruct H.
Qed.

Lemma clean_lift {SC} (m : SC → SC * expected SerializeError json) s s' v :
  lift m s = (s', v) → s'.1 = None → ∃ w ctx', v = Some w ∧ m s.2 = (ctx', Ok w).
Proof. destruct s as [e c]. unfold lift. destruct (m c) as [c' [w|err]] eqn:E; intros [= <- <-]; [by eauto|by destruct e]. Qed.

Lemma emit_each_sticky {SC A B} (f : A → Emit SC B) l : (∀ a, sticky (f a)) → sticky (emit_each f l).
Proof. intros Hf. induction l as [|a l IH]; cbn [emit_each]; [apply sticky_ret|]. apply sticky_bind; [done|]. intros v. apply sticky_bind; [done|]. intros. apply sticky_ret. Qed.

(** Each item is emitted, without a fault. *)
Lemma clean_each {SC A B} (f : A → Emit SC B) l s s' vs :
  (∀ a, sticky (f a)) → emit_each f l s = (s', vs) → s'.1 = None → Forall2 (λ a v, ∃ s1 s2, f a s1 = (s2, v) ∧ s2.1 = None) l vs.
Proof.
  intros Hf. revert s s' vs. induction l as [|a l IH]; intros s s' vs E Hs; cbn [emit_each] in E; [injection E as <- <-; constructor|].
  apply clean_bind in E as (s1 & v & E1 & Hs1 & E); [|intros; apply sticky_bind; [by apply emit_each_sticky|intros; apply sticky_ret]|done].
  apply clean_bind in E as (s2 & vs' & E2 & Hs2 & [= <- <-]); [|intros; apply sticky_ret|done]. constructor; [by eauto|by eapply IH].
Qed.

Lemma real_sticky {C} v id : sticky (real (C := C) v id).
Proof. unfold real. destruct (is_finite v); [apply sticky_ret|]. apply sticky_bind; [apply sticky_latch|intros; apply sticky_ret]. Qed.
Lemma extent_sticky {C} wild v id : sticky (integer_extent (C := C) wild v id).
Proof. unfold integer_extent. destruct (is_finite v); [apply sticky_ret|]. apply sticky_bind; [apply sticky_latch|intros; apply sticky_ret]. Qed.

Create HintDb sticky discriminated.
#[export] Hint Resolve sticky_ret sticky_latch sticky_lift sticky_bind real_sticky extent_sticky emit_each_sticky : sticky.

Lemma placement_sticky {C} lr id : sticky (placement_json (C := C) lr id).
Proof. unfold placement_json. repeat (apply sticky_bind; [|intros ?]); auto with sticky. destruct (SFeqb _ _); auto with sticky. Qed.

(** ** What a stash may hold

    The residuals a load sets aside name none of the members their tier owns; inside a member
    the tier owns and reads as an object, none of those that object owns. *)

Definition inner (known : list str) (v : json) : Prop :=
  ∃ sub, v = JObject sub ∧ sorted_fields sub ∧ ∀ k, names_key known k = true → find_field k sub = None.

Definition set_aside (owned : list str) (allowed : string → json → Prop) (stash : fields) : Prop :=
  sorted_fields stash ∧ ∀ key v, names_key owned (lit key) = true → get key stash = Some v → allowed key v.

Definition document_allowed (key : string) (v : json) : Prop := key = "arbc"%string ∧ inner k_envelope_keys v.
Definition composition_allowed (key : string) (v : json) : Prop :=
  (key = "working_space"%string ∧ inner k_working_space_keys v) ∨
  (key = "working_audio_format"%string ∧ inner k_working_audio_format_keys v).
Definition layer_allowed (key : string) (v : json) : Prop :=
  (key = "time_map"%string ∧ inner k_time_map_keys v) ∨
  (key = "blend"%string ∧ match v with JString name => blend_mode_from_name name = None | _ => True end).
Definition content_allowed (key : string) (v : json) : Prop :=
  key = "params"%string ∧ ∃ sub, v = JObject sub ∧ sorted_fields sub.

(** [b] is [a] with members folded in. *)
Definition extends : json → json → Prop := rtc (λ a b, ∃ w, b = merge_unknown a w).
Definition covers (a b : fields) : Prop := ∀ key v, find_field key a = Some v → ∃ v', find_field key b = Some v' ∧ extends v v'.

Lemma covers_refl a : covers a a.
Proof. intros key v H. exists v. split; [done|apply rtc_refl]. Qed.
Lemma covers_trans a b c : covers a b → covers b c → covers a c.
Proof. intros Hab Hbc key v (w & Hw & Ew)%Hab. apply Hbc in Hw as (x & Hx & Ex). exists x. split; [done|by etrans]. Qed.

Definition folded (known : fields) (stash : option fields) : fields :=
  match stash with Some (f :: fs) => foldl (λ known f, merge_member f known) known (f :: fs) | _ => known end.

Lemma merge_fields_folded known stash : merge_unknown_fields (JObject known) stash = JObject (folded known stash).
Proof. destruct stash as [[|f fs]|]; [done| |done]. cbn [merge_unknown_fields folded]. by rewrite merge_object. Qed.

Definition stash_sorted (stash : option fields) : Prop := ∀ st, stash = Some st → sorted_fields st.

Lemma folded_sorted known stash : sorted_fields known → sorted_fields (folded known stash).
Proof. intros Hs. destruct stash as [[|f fs]|]; try done. by apply merge_sorted. Qed.

Lemma find_folded known stash key : stash_sorted stash →
  find_field key (folded known stash) =
    match find_field key known, find_field key (default [] stash) with
    | None, s => s
    | Some (JObject k), Some (JObject s) => Some (merge_unknown (JObject k) (JObject s))
    | Some k, _ => Some k
    end.
Proof.
  intros Hs. destruct stash as [[|f fs]|]; [| |].
  - cbn [folded default]. unfold Datatypes.id. rewrite find_nil. by destruct (find_field key known) as [[]|].
  - cbn [folded default]. unfold Datatypes.id. rewrite find_merge by by apply Hs. done.
  - cbn [folded default]. rewrite find_nil. by destruct (find_field key known) as [[]|].
Qed.

Lemma folded_covers known stash : stash_sorted stash → covers known (folded known stash).
Proof.
  intros Hs key v Hv. rewrite find_folded, Hv by done. destruct v as [k| | | | | |]; [|eexists; split; [done|apply rtc_refl]..].
  destruct (find_field key (default [] stash)) as [[s| | | | | |]|]; [|eexists; split; [done|apply rtc_refl]..].
  eexists. split; [done|]. apply rtc_once. by eexists.
Qed.

(** ** Reading over a stash *)

(** What is found under a key of the tier: the member written, the stash folded in. *)
Definition found_over (st written o : fields) (key : string) : Prop :=
  get key o = match get key written, get key st with
              | None, s => s
              | Some (JObject k), Some (JObject s) => Some (merge_unknown (JObject k) (JObject s))
              | Some k, _ => Some k
              end.

Lemma found_plain st written o key : found_over st written o key → get key st = None → get key o = get key written.
Proof. unfold found_over. intros -> ->. by destruct (get key written) as [[]|]. Qed.

(** An object read by known names only is read the same with an inner residual in it. *)
Lemma found_inner st written o key known : found_over st written o key → (∀ v, get key st = Some v → inner known v) →
  get key o = get key written ∨
  (∃ x y, get key written = Some (JObject x) ∧ get key o = Some (JObject y) ∧ ∀ k, names_key known (lit k) = true → get k y = get k x) ∨
  (get key written = None ∧ ∃ y, get key o = Some (JObject y) ∧ ∀ k, names_key known (lit k) = true → get k y = None).
Proof.
  unfold found_over. intros E Hi. destruct (get key st) as [v|]; [|left; rewrite E; by destruct (get key written) as [[]|]].
  destruct (Hi v eq_refl) as (sub & -> & Hs & Hn). destruct (get key written) as [[x| | | | | |]|]; try (by left).
  - right; left. rewrite merge_object in E. exists x. eexists. split; [done|]. split; [exact E|]. intros k Hk. unfold get. rewrite find_merge by done.
    rewrite (Hn _ Hk). by destruct (find_field (lit k) x) as [[]|].
  - right; right. split; [done|]. exists sub. split; [done|]. intros k Hk. by apply Hn.
Qed.

Lemma aside_none owned allowed st key : set_aside owned allowed st → names_key owned (lit key) = true → (∀ v, ¬ allowed key v) → get key st = None.
Proof. intros [_ Ha] Hk Hn. destruct (get key st) as [v|] eqn:E; [|done]. destruct (Hn v). by apply Ha. Qed.

Lemma layer_key_owned key : names_key k_layer_keys key = true → names_key (k_layer_keys ++ k_body_keys) key = true.
Proof. rewrite !names_key_spec, elem_of_app. by left. Qed.

Lemma time_map_over m st o written : time_map_ok m → set_aside (k_layer_keys ++ k_body_keys) layer_allowed st →
  found_over st written o "time_map" →
  get "time_map" written = (if negb (bool_decide (m = TimeMap_identity)) then Some (time_map_json m) else None) → parse_time_map o = m.
Proof.
  intros Hm [_ Ha] Hf Hw. destruct (found_inner _ _ _ _ k_time_map_keys Hf) as [E|[(x & y & Ex & Ey & E)|(En & y & Ey & E)]].
  { intros v Hv. apply Ha in Hv as [[_ ?]|[? _]]; [done|done|by apply layer_key_owned]. }
  - destruct (bool_decide_reflect (m = TimeMap_identity)) as [->|Hne]; cbn [negb] in Hw; [|by apply time_map_roundtrip; [|congruence]].
    unfold parse_time_map. by rewrite E, Hw.
  - rewrite Ex in Hw. destruct (bool_decide_reflect (m = TimeMap_identity)) as [->|Hne]; cbn [negb] in Hw; [done|]. injection Hw as ->.
    transitivity (parse_time_map (put "time_map" (time_map_json m) [])); [|apply time_map_roundtrip; [done|by rewrite get_put]].
    unfold parse_time_map. rewrite Ey, get_put. cbn [String.eqb Ascii.eqb Bool.eqb]. unfold time_map_json. unfold int_or. by rewrite !E.
  - rewrite En in Hw. destruct (bool_decide_reflect (m = TimeMap_identity)) as [->|Hne]; cbn [negb] in Hw; [|done].
    unfold parse_time_map. rewrite Ey. unfold int_or. by rewrite !E.
Qed.

Lemma layer_over lr st o :
  layer_ok lr → set_aside (k_layer_keys ++ k_body_keys) layer_allowed st →
  (∀ key, names_key k_layer_keys (lit key) = true → found_over st (placement_fields lr) o key) → same_placement lr (parse_layer o).
Proof.
  intros Hok Hst Hf. pose proof (layer_roundtrip lr (placement_fields lr) Hok (λ _ _, eq_refl)) as Hr.
  assert (∀ key, key ≠ "time_map"%string → key ≠ "blend"%string → names_key k_layer_keys (lit key) = true → get key o = get key (placement_fields lr)) as Hp.
  { intros key H1 H2 Hk. apply (found_plain st); [by apply Hf|]. eapply aside_none; [done|by apply layer_key_owned|]. by intros v [[? _]|[? _]]. }
  assert (parse_blend o = parse_blend (placement_fields lr)) as Hb.
  { unfold parse_blend. pose proof (Hf "blend"%string eq_refl) as Eb. unfold found_over in Eb. rewrite Eb, get_placement. cbn [String.eqb Ascii.eqb Bool.eqb].
    rewrite !andb_false_r, andb_true_r. destruct (negb (blend lr =? 0)); [done|]. destruct (get "blend" st) as [v|] eqn:Ev; [|done].
    destruct Hst as [_ Ha]. apply Ha in Ev as [[? _]|[_ Hv]]; [done| |by apply layer_key_owned]. by destruct v. }
  destruct Hok as (_ & _ & _ & Ht & _). unfold same_placement, parse_layer in *. cbn [ld_transform ld_opacity ld_visible ld_blend ld_gain ld_audible ld_span ld_time_map] in *.
  destruct Hr as (H1 & H2 & H3 & H4 & H5 & H6 & H7 & H8). split_and!.
  - unfold parse_transform in *. by rewrite Hp.
  - unfold num_or in *. by rewrite Hp.
  - unfold bool_or in *. by rewrite Hp.
  - by rewrite Hb.
  - unfold num_or in *. by rewrite Hp.
  - unfold bool_or in *. by rewrite Hp.
  - unfold parse_span in *. by rewrite Hp.
  - eapply time_map_over; [done|done|by apply Hf|]. rewrite get_placement. cbn [String.eqb Ascii.eqb Bool.eqb]. rewrite !andb_false_r, andb_true_r. done.
Qed.

Lemma composition_key_plain st key : set_aside k_composition_keys composition_allowed st → names_key k_composition_keys (lit key) = true →
  key ≠ "working_space"%string → key ≠ "working_audio_format"%string → get key st = None.
Proof. intros Hs Hk H1 H2. eapply aside_none; [done..|]. by intros v [[? _]|[? _]]. Qed.

Lemma composition_over c layers st o :
  composition_ok c → set_aside k_composition_keys composition_allowed st →
  (∀ key, names_key k_composition_keys (lit key) = true → found_over st (composition_fields c layers) o key) →
  same_composition c (parse_composition o) ∧ cd_layers (parse_composition o) = map parse_layer (layer_members layers).
Proof.
  intros Hok Hst Hf. pose proof (composition_roundtrip c layers (composition_fields c layers) Hok (λ _ _, eq_refl)) as [Hr Hl].
  assert (get "canvas" o = get "canvas" (composition_fields c layers)) as Ec by (eapply found_plain; [by apply Hf|by eapply composition_key_plain]).
  assert (get "layers" o = get "layers" (composition_fields c layers)) as El by (eapply found_plain; [by apply Hf|by eapply composition_key_plain]).
  destruct Hok as (_ & _ & Hsr). rewrite <- Hl. unfold same_composition, parse_composition in *. rewrite Ec, El.
  destruct (match get "canvas" (composition_fields c layers) with Some _ => _ | None => _ end) as [w h].
  cbn [cd_canvas_w cd_canvas_h cd_working_space cd_working_audio_format cd_layers] in *. destruct Hr as (Hw & Hh & Hs & Ha).
  split; [split_and!; [done|done| |]|done].
  - rewrite <- Hs. pose proof (found_inner _ _ _ _ k_working_space_keys (Hf "working_space"%string eq_refl)) as [->|[(x & y & -> & -> & E)|(-> & y & -> & E)]]; [|done|..].
    + intros v Hv. destruct Hst as [_ Hst]. by apply Hst in Hv as [[_ ?]|[? _]].
    + cbn [default]. unfold Datatypes.id, parse_surface_format. by rewrite !E.
    + cbn [default]. unfold Datatypes.id, parse_surface_format. by rewrite !E.
  - rewrite <- Ha. pose proof (found_inner _ _ _ _ k_working_audio_format_keys (Hf "working_audio_format"%string eq_refl)) as [->|[(x & y & -> & -> & E)|(-> & y & -> & E)]]; [|done|..].
    + intros v Hv. destruct Hst as [_ Hst]. by apply Hst in Hv as [[? _]|[_ ?]].
    + cbn [default]. unfold Datatypes.id, parse_audio_format. by rewrite !E.
    + cbn [default]. unfold Datatypes.id, parse_audio_format. by rewrite !E.
Qed.

(** ** The document that is saved *)

Section roundtrip.
Context {L SC LC : Type} (params_ctx : LC → SC) (registered : str → bool) (codecs : CodecTable L SC LC).
Context (doc : DocReads) (node : Handle → Node L) (provider : Z → option ContentBody) (meta : Handle → option ContentMeta).
Context (unknown : option UnknownFieldStore) (wild_cast : double → Z).
(** What a kind promises to preserve of its contents, and the contexts its codec can read in:
    those that hold what the save stored beside the document. *)
Context (same : L → L → Prop) (ready : LC → Prop).
Implicit Types (g : Graph) (c h : Handle).

Definition stashed (scope : UnknownScope) (id : Z) : option fields := unknown ≫= store_find scope id.

Lemma merge_stashed known scope id :
  match unknown with Some store => merge_unknown_fields (JObject known) (store_find scope id store) | None => JObject known end =
    JObject (folded known (stashed scope id)).
Proof. unfold stashed. destruct unknown as [store|]; [|done]. apply merge_fields_folded. Qed.

(** The kind and the id a content is saved under: its layer's, or its own. *)
Definition told c (m : ContentMeta) : Prop :=
  (∃ cid b, provider cid = Some b ∧ cb_content b = c ∧ m = mkMeta (cb_kind b) (cb_version b) cid) ∨ m = meta_or_none meta c.

(** The residual of the parameters set aside for a content. *)
Definition stashed_params (id : Z) : fields :=
  match get "params" (default [] (stashed ScopeContent id)) with Some (JObject sub) => sub | _ => [] end.

(** What [cd_serialize] and [cd_deserialize] of one kind owe each other: what is read from the
    parameters written, the residual of the parameters folded in, is the same content, bound
    to the edges the reader hands over. *)
Record CodecLaws : Prop := {
  cl_kinds : codecs !! ([] : str) = None;
  cl_objects : ∀ kind serialize c ctx ctx' v, serializer codecs kind = Some serialize → serialize (node c) ctx = (ctx', Ok v) →
    ∃ params, v = JObject params ∧ sorted_fields params;
  cl_reads : ∀ c m serialize ctx ctx' params state, told c m → serializer codecs (cm_kind m) = Some serialize → n_state (node c) = Live state →
    serialize (node c) ctx = (ctx', Ok (JObject params)) →
    ∃ deserialize, deserializer codecs (cm_kind m) = Some deserialize ∧
      ∀ inputs composition lctx written, ready lctx →
        JObject written = merge_unknown (JObject params) (JObject (stashed_params (cm_id m))) →
        ∃ lctx' n state', deserialize written inputs composition lctx = (lctx', Ok n) ∧ ready lctx' ∧
          n_state n = Live state' ∧ same state state' ∧ n_external n = n_external (node c) ∧
          (n_external (node c) = [] → n_inputs n = inputs ∧ n_composition n = composition) }.

(** A body kept for a kind no codec is here for. *)
Definition placeholder_ok (body : fields) : Prop :=
  sorted_fields body ∧ (∃ kind, get "kind" body = Some (JString kind) ∧ kind ≠ [] ∧ deserializer codecs kind = None) ∧
  (get "params" body = None ∨ ∃ params, get "params" body = Some (JObject params)) ∧
  get "$ref" body = None ∧ get "inputs" body = None ∧ get "composition" body = None ∧
  ∀ key, names_key k_layer_keys key = true → find_field key body = None.

(** The edges the writer follows from a content. *)
Definition feeds c d : Prop := n_external (node c) = [] ∧ Some d ∈ n_inputs (node c).

Record SceneOk : Prop := {
  so_first : ∀ cid comp, dr_first doc = Some (cid, comp) → cid ≠ 0 ∧ dr_find_composition doc cid = Some comp;
  so_composition : ∀ cid comp, dr_find_composition doc cid = Some comp → composition_ok comp;
  so_layer : ∀ lid lr, dr_find_layer doc lid = Some lr → layer_ok lr;
  so_inputs : ∀ c, None ∉ n_inputs (node c);
  so_acyclic : ∀ c, ¬ tc feeds c c;
  so_placeholder : ∀ c body r, n_state (node c) = Placeholder body r → placeholder_ok body ∧ n_external (node c) = [];
  so_document_stash : ∀ id st, stashed ScopeDocument id = Some st → set_aside k_root_keys document_allowed st;
  so_composition_stash : ∀ id st, stashed ScopeComposition id = Some st → set_aside k_composition_keys composition_allowed st;
  so_layer_stash : ∀ id st, stashed ScopeLayer id = Some st → set_aside (k_layer_keys ++ k_body_keys) layer_allowed st;
  so_content_stash : ∀ id st, stashed ScopeContent id = Some st → set_aside (k_layer_keys ++ k_body_keys) content_allowed st }.

Context (laws : CodecLaws) (scene : SceneOk).

(** ** The body of a content *)

Definition same_state (a b : ContentState L) : Prop :=
  match a, b with
  | Placeholder body _, Placeholder body' _ => covers body body'
  | Live state, Live state' => same state state'
  | _, _ => False
  end.

Definition node_copy c (inputs : list (option Handle)) (composition : Z) (n : Node L) : Prop :=
  same_state (n_state (node c)) (n_state n) ∧ n_external n = n_external (node c) ∧
  (n_external (node c) = [] → n_inputs n = inputs ∧ n_composition n = composition).

Definition body_of g c (body : fields) : Prop :=
  ∃ ctx ctx' leaf, let m := default (mkMeta [] [] 0) (g_meta g !! c) in
    content_body_to_json codecs (cm_kind m) (cm_version m) (node c) ctx = (ctx', Ok (JObject leaf)) ∧
    body = folded leaf (stashed ScopeContent (cm_id m)).

(** An object that holds a body, with other members or not. *)
Definition holds (body o : fields) : Prop :=
  sorted_fields o ∧ covers body o ∧ get "kind" o = get "kind" body ∧ get "params" o = get "params" body.

Record Body (c : Handle) (body : fields) : Prop := {
  bd_sorted : sorted_fields body;
  bd_layer : ∀ key, names_key k_layer_keys key = true → find_field key body = None;
  bd_ref : get "$ref" body = None;
  bd_inputs : get "inputs" body = None;
  bd_composition : get "composition" body = None;
  bd_kind : has_field (lit "kind") body = true;
  bd_reads : ∀ o inputs composition lctx, holds body o → ready lctx →
    ∃ lctx' pr, content_body_from_json params_ctx registered codecs (JObject o) inputs composition lctx = (lctx', Ok pr) ∧
      ready lctx' ∧ node_copy c inputs composition (pr_node pr) }.

Lemma keys_lit l key : names_key (keys l) key = true → ∃ s, key = lit s ∧ s ∈ l.
Proof. rewrite names_key_spec. unfold keys. intros H. apply list_elem_of_fmap in H as (s & -> & Hs). by exists s. Qed.


Lemma content_stash_sorted id : stash_sorted (stashed ScopeContent id).
Proof. intros st E. by destruct (so_content_stash scene _ _ E). Qed.

Lemma content_stash_none id key : names_key (k_layer_keys ++ k_body_keys) (lit key) = true → key ≠ "params"%string →
  get key (default [] (stashed ScopeContent id)) = None.
Proof.
  intros Hk Hp. destruct (stashed ScopeContent id) as [st|] eqn:E; [|done]. cbn [default]. eapply aside_none; [by eapply so_content_stash|done|].
  by intros v [? _].
Qed.

Lemma get_folded_plain id key leaf : names_key (k_layer_keys ++ k_body_keys) (lit key) = true → key ≠ "params"%string →
  get key (folded leaf (stashed ScopeContent id)) = get key leaf.
Proof.
  intros Hk Hp. unfold get. rewrite find_folded by apply content_stash_sorted. pose proof (content_stash_none id key Hk Hp) as E. unfold get in E.
  rewrite E. by destruct (find_field (lit key) leaf) as [[]|].
Qed.

(** Folding a residual in adds no member of a layer or of the frame of a body. *)
Lemma body_frame_kept id leaf :
  sorted_fields leaf → (∀ key, names_key k_layer_keys key = true → find_field key leaf = None) →
  get "$ref" leaf = None → get "inputs" leaf = None → get "composition" leaf = None → is_Some (get "kind" leaf) →
  let body := folded leaf (stashed ScopeContent id) in
  sorted_fields body ∧ (∀ key, names_key k_layer_keys key = true → find_field key body = None) ∧
  get "$ref" body = None ∧ get "inputs" body = None ∧ get "composition" body = None ∧ has_field (lit "kind") body = true.
Proof.
  intros Hs Hl Hr Hi Hc Hk. cbn zeta. split_and!; [by apply folded_sorted| |by rewrite get_folded_plain..|].
  - intros key Hkey. pose proof (Hl key Hkey) as E. apply keys_lit in Hkey as (s & -> & Hin).
    change (get s (folded leaf (stashed ScopeContent id)) = None). rewrite get_folded_plain; [exact E| |].
    + apply names_key_spec, elem_of_app. left. by apply list_elem_of_fmap_2.
    + intros ->. apply list_elem_of_In in Hin. cbn in Hin. intuition discriminate.
  - unfold has_field. apply bool_decide_eq_true. change (is_Some (get "kind" (folded leaf (stashed ScopeContent id)))). by rewrite get_folded_plain.
Qed.

Lemma params_folded id leaf :
  (get "params" leaf = None ∨ ∃ p, get "params" leaf = Some (JObject p)) →
  (get "params" (folded leaf (stashed ScopeContent id)) = None ∨ ∃ p, get "params" (folded leaf (stashed ScopeContent id)) = Some (JObject p)) ∧
  ∀ p, get "params" leaf = Some (JObject p) → get "params" (folded leaf (stashed ScopeContent id)) = Some (merge_unknown (JObject p) (JObject (stashed_params id))).
Proof.
  unfold get, stashed_params, get. rewrite find_folded by apply content_stash_sorted.
  assert (∀ v, find_field (lit "params") (default [] (stashed ScopeContent id)) = Some v → ∃ sub, v = JObject sub) as Hobj.
  { intros v Hv. destruct (stashed ScopeContent id) as [st|] eqn:E; [|done]. destruct (so_content_stash scene _ _ E) as [_ Ha].
    destruct (Ha "params"%string v eq_refl Hv) as [_ (sub & -> & _)]. by exists sub. }
  destruct (find_field (lit "params") (default [] (stashed ScopeContent id))) as [v|] eqn:Ev.
  - destruct (Hobj _ eq_refl) as [sub ->]. intros [->|(p & ->)]; (split; [|intros q]); [right; by eexists|done| |by intros [= <-]].
    right. rewrite merge_object. by eexists.
  - intros [->|(p & ->)]; (split; [|intros q]); [by left|done|right; by eexists|by intros [= <-]].
Qed.

Lemma live_leaf kind version params :
  object_of [member "kind" (JString kind); member "kind_version" (JString version); member "params" params] =
    put "params" params (put "kind_version" (JString version) (put "kind" (JString kind) [])).
Proof. reflexivity. Qed.

Lemma live_body c m state ctx ctx' leaf : told c m → n_state (node c) = Live state →
  content_body_to_json codecs (cm_kind m) (cm_version m) (node c) ctx = (ctx', Ok (JObject leaf)) →
  Body c (folded leaf (stashed ScopeContent (cm_id m))).
Proof.
  intros Ht Hn E. unfold content_body_to_json in E. rewrite Hn in E. destruct (serializer codecs (cm_kind m)) as [serialize|] eqn:Es; [|done].
  destruct (serialize (node c) ctx) as [ctx1 [params|e]] eqn:Eser; [|done]. injection E as <- El. rewrite live_leaf in El. subst leaf.
  assert (cm_kind m ≠ []) as Hne by (intros Ek; unfold serializer in Es; by rewrite Ek, (cl_kinds laws) in Es).
  destruct (cl_objects laws _ _ _ _ _ _ Es Eser) as (p & -> & Hp).
  destruct (cl_reads laws _ _ _ _ _ _ _ Ht Es Hn Eser) as (deserialize & Ed & Hread).
  set (leaf := put "params" _ _). assert (∀ k, get k leaf = if String.eqb "params" k then Some (JObject p) else if String.eqb "kind_version" k then Some (JString (cm_version m))
    else if String.eqb "kind" k then Some (JString (cm_kind m)) else None) as Hg by (intros k; unfold leaf; by rewrite !get_put, get_nil).
  destruct (body_frame_kept (cm_id m) leaf) as (B1 & B2 & B3 & B4 & B5 & B6); [repeat apply put_sorted; apply sorted_nil| |by rewrite Hg..|by rewrite Hg; eexists|].
  { intros key Hkey. apply keys_lit in Hkey as (s & -> & Hin). change (get s leaf = None). rewrite Hg. apply list_elem_of_In in Hin. cbn in Hin.
    by destruct Hin as [<-|[<-|[<-|[<-|[<-|[<-|[<-|[<-|[]]]]]]]]]. }
  constructor; [done..|]. intros o inputs composition lctx (Ho & Hcov & Hk & Hpar) Hr.
  rewrite get_folded_plain, Hg in Hk by done. destruct (params_folded (cm_id m) leaf) as [_ Hpf]; [right; by eexists; rewrite Hg|].
  rewrite (Hpf p) in Hpar by by rewrite Hg. rewrite merge_object in Hpar. cbn [String.eqb Ascii.eqb Bool.eqb] in Hk.
  destruct (Hread inputs composition lctx _ Hr (eq_sym (merge_object _ _))) as (lctx' & n & state' & En & Hr' & Hs & Hsame & Hx & Hedges).
  unfold content_body_from_json, body_frame. rewrite Hk, Hpar. destruct (cm_kind m) as [|a kind]; [done|].
  rewrite Ed. cbn [default]. unfold Datatypes.id. rewrite En. do 2 eexists. split; [reflexivity|]. split; [done|]. cbn [pr_node].
  split; [|done]. by rewrite Hn, Hs.
Qed.

Lemma placeholder_body c m pb r ctx ctx' leaf : n_state (node c) = Placeholder pb r →
  content_body_to_json codecs (cm_kind m) (cm_version m) (node c) ctx = (ctx', Ok (JObject leaf)) →
  Body c (folded leaf (stashed ScopeContent (cm_id m))).
Proof.
  intros Hn E. unfold content_body_to_json in E. rewrite Hn in E. injection E as <- <-.
  destruct (so_placeholder scene _ _ _ Hn) as [(Hs & (kind & Hk & Hne & Hd) & Hp & Hr & Hi & Hc & Hl) Hx].
  destruct (body_frame_kept (cm_id m) pb) as (B1 & B2 & B3 & B4 & B5 & B6); [done..|by rewrite Hk; eexists|].
  constructor; [done..|]. intros o inputs composition lctx (Ho & Hcov & Hko & Hpo) Hready. rewrite get_folded_plain, Hk in Hko by done.
  destruct (params_folded (cm_id m) pb Hp) as [Hpf _]. rewrite <- Hpo in Hpf.
  unfold content_body_from_json. assert (∃ params, body_frame (JObject o) = Ok (kind, params)) as [params ->].
  { unfold body_frame. rewrite Hko. destruct kind; [done|]. destruct Hpf as [->|(p & ->)]; by eexists. }
  rewrite Hd. do 2 eexists. split; [reflexivity|]. split; [done|]. cbn [pr_node]. unfold placeholder, node_copy. rewrite Hn. cbn [n_state n_external n_inputs n_composition same_state].
  split; [|done]. eapply (covers_trans _ (folded pb (stashed ScopeContent (cm_id m)))); [apply folded_covers, content_stash_sorted|].
  intros key v Hv. destruct (Hcov _ _ Hv) as (v' & Hv' & Hext). exists v'. split; [|done]. rewrite !find_erase.
  destruct (decide (lit "composition" = key)) as [<-|]; [unfold get in B5; congruence|]. destruct (decide (lit "inputs" = key)) as [<-|]; [unfold get in B4; congruence|]. done.
Qed.

Definition meta_told g : Prop := ∀ c m, g_meta g !! c = Some m → told c m.

Lemma body_facts g c body : meta_told g → body_of g c body → Body c body.
Proof.
  intros Hm (ctx & ctx' & leaf & E & ->). cbn zeta in *. destruct (n_state (node c)) as [pb r|state] eqn:En; [by eapply placeholder_body|].
  destruct (g_meta g !! c) as [m|] eqn:Em; [by eapply live_body; [by apply Hm|..]|]. exfalso. cbn [default cm_kind] in E.
  unfold content_body_to_json, serializer in E. by rewrite En, (cl_kinds laws) in E.
Qed.

(** ** What a save leaves, content by content *)

Definition reference (i : nat) : fields := put "$ref" (JString (ordinal i)) [].

(** The form an input is written in: by reference when it is shared. *)
Definition input_form g (child : option Handle) (v : json) : Prop :=
  ∃ d o, child = Some d ∧ v = JObject o ∧ ∀ i, shared_id g d = Some i → o = reference i.

Inductive emitted g c : fields → Prop :=
| emitted_external body : body_of g c body → n_external (node c) ≠ [] → emitted g c body
| emitted_nested body i : body_of g c body → n_external (node c) = [] → g_comp_ids g !! n_composition (node c) = Some i →
    emitted g c (put "composition" (JString (ordinal i)) body)
| emitted_leaf body : body_of g c body → n_external (node c) = [] → g_comp_ids g !! n_composition (node c) = None →
    n_inputs (node c) = [] → emitted g c body
| emitted_operator body arr : body_of g c body → n_external (node c) = [] → g_comp_ids g !! n_composition (node c) = None →
    n_inputs (node c) ≠ [] → Forall2 (input_form g) (n_inputs (node c)) arr →
    (∀ j d o, n_inputs (node c) !! j = Some (Some d) → shared_id g d = None → arr !! j = Some (JObject o) → emitted g d o) →
    emitted g c (put "inputs" (JArray arr) body).

Definition used g c (o : fields) : Prop := match shared_id g c with Some i => o = reference i | None => emitted g c o end.

Notation define := (emit_definition node codecs unknown).

Lemma define_sticky fuel g c : sticky (define fuel g c).
Proof.
  revert c. induction fuel as [|fuel IH]; intros c; [apply sticky_bind; auto with sticky|]. rewrite define_step. cbn zeta.
  apply sticky_bind; [apply sticky_lift|]. intros [leaf|]; [|apply sticky_ret]. destruct (bool_decide _); [apply sticky_ret|].
  destruct (g_comp_ids g !! _); [apply sticky_ret|]. destruct (n_inputs (node c)) as [|i0 is0]; [apply sticky_ret|].
  apply sticky_bind; [|intros; apply sticky_ret]. apply emit_each_sticky. intros [d|]; [|apply sticky_ret]. cbn [define_input]. unfold emit_use.
  destruct (shared_id g d); [apply sticky_ret|apply IH].
Qed.

Lemma use_sticky fuel g c : sticky (emit_use node codecs unknown fuel g c).
Proof. unfold emit_use. destruct (shared_id g c); [apply sticky_ret|apply define_sticky]. Qed.

Lemma body_object c kind version ctx ctx' v :
  content_body_to_json codecs kind version (node c) ctx = (ctx', Ok v) → ∃ leaf, v = JObject leaf.
Proof.
  unfold content_body_to_json. destruct (n_state (node c)); [intros [= <- <-]; by eexists|]. destruct (serializer codecs kind) as [ser|]; [|done].
  destruct (ser (node c) ctx) as [ctx1 [params|e]]; [|done]. intros [= <- <-]. by eexists.
Qed.

Lemma define_emitted fuel g c s s' v : define fuel g c s = (s', v) → s'.1 = None → ∃ o, v = JObject o ∧ emitted g c o.
Proof.
  revert c s s' v. induction fuel as [|fuel IH]; intros c s s' v E Hs.
  { exfalso. destruct s as [[e|] ctx]; injection E as <- <-; done. }
  rewrite define_step in E. cbn zeta in E. apply clean_bind in E as (s1 & leaf & E1 & Hs1 & E); [|clear E; intros w|done].
  2:{ destruct w as [w|]; [|apply sticky_ret]. destruct (bool_decide _); [apply sticky_ret|].
      destruct (g_comp_ids g !! _); [apply sticky_ret|]. destruct (n_inputs (node c)) as [|i0 is0]; [apply sticky_ret|].
      apply sticky_bind; [|intros; apply sticky_ret]. apply emit_each_sticky. intros [d|]; [apply use_sticky|apply sticky_ret]. }
  destruct (clean_lift _ _ _ _ E1 Hs1) as (w & ctx' & -> & Ew). destruct (body_object _ _ _ _ _ _ Ew) as [leaf ->].
  rewrite (merge_stashed leaf) in E. set (m := default (mkMeta [] [] 0) (g_meta g !! c)) in *.
  assert (body_of g c (folded leaf (stashed ScopeContent (cm_id m)))) as Hb by (by exists s.2, ctx', leaf).
  destruct (bool_decide_reflect (n_external (node c) ≠ [])) as [Hx|Hx]; [injection E as <- <-; eexists; split; [done|by apply emitted_external]|].
  assert (n_external (node c) = []) as Hx' by (destruct (n_external (node c)); [done|by destruct Hx]). clear Hx.
  destruct (g_comp_ids g !! n_composition (node c)) as [i|] eqn:Ei; [injection E as <- <-; eexists; split; [done|by eapply emitted_nested]|].
  destruct (n_inputs (node c)) as [|i0 is0] eqn:Ein; [injection E as <- <-; eexists; split; [done|by apply emitted_leaf]|]. rewrite <- Ein in E.
  apply clean_bind in E as (s2 & arr & E2 & Hs2 & E); [|intros; apply sticky_ret|done]. injection E as <- <-. eexists. split; [done|].
  apply clean_each in E2; [|intros [d|]; [apply use_sticky|apply sticky_ret]|done].
  apply (emitted_operator g c _ arr Hb Hx' Ei); [by rewrite Ein| |].
  - apply Forall2_same_length_lookup_2; [by eapply Forall2_length|]. intros j child w Hj Hw.
    destruct child as [d|]; [|by apply list_elem_of_lookup_2, (so_inputs scene) in Hj].
    eapply Forall2_lookup_lr in E2 as (sa & sb & Ed & Hsb); [|done..]. exists d. cbn [define_input] in Ed. unfold emit_use in Ed.
    destruct (shared_id g d) as [i|] eqn:Esh; [injection Ed as <- <-; eexists; split_and!; [done..|by intros ? [= ->]]|].
    apply IH in Ed as (o & -> & _); [|done]. by exists o.
  - intros j d o Hj Hd Ho. eapply Forall2_lookup_lr in E2 as (sa & sb & Ed & Hsb); [|done..]. cbn [define_input] in Ed. unfold emit_use in Ed. rewrite Hd in Ed.
    apply IH in Ed as (o' & [= ->] & H); [done|done].
Qed.

(** ** What a save leaves of layers and compositions *)

Definition content_use g (lr : LayerRecord) (b : fields) : Prop :=
  match provider (ly_content lr) with Some body => used g (cb_content body) b | None => b = [] end.

Definition layer_emitted g (lid : Z) (lr : LayerRecord) (o : fields) : Prop :=
  ∃ b, content_use g lr b ∧ o = folded (foldl (λ o f, set_field f.1 f.2 o) (placement_fields lr) b) (stashed ScopeLayer lid).

Definition layers_found (cid : Z) : list (Z * LayerRecord) := omap (λ lid, pair lid <$> dr_find_layer doc lid) (dr_layers_in doc cid).

Definition layers_emitted g (cid : Z) (vs : list json) : Prop :=
  Forall2 (λ p v, ∃ o, v = JObject o ∧ layer_emitted g p.1 p.2 o) (layers_found cid) vs.

Definition comp_emitted g (c : Z * CompositionRecord) (o : fields) : Prop :=
  ∃ vs, layers_emitted g c.1 vs ∧ o = folded (composition_fields c.2 vs) (stashed ScopeComposition c.1).

Notation one_layer := (emit_layer doc node provider codecs unknown).
Notation one_composition := (emit_composition doc node provider codecs unknown wild_cast).

Lemma layer_json_sticky lr id (content : Emit SC (option json)) : sticky content → sticky (layer_json lr id content unknown).
Proof. intros Hc. unfold layer_json. apply sticky_bind; [apply placement_sticky|]. intros. apply sticky_bind; [done|]. intros. apply sticky_ret. Qed.

Lemma layer_content_sticky fuel g (lr : LayerRecord) :
  sticky (match provider (ly_content lr) with Some body => v ← emit_use node codecs unknown fuel g (cb_content body); mret (Some v) | None => mret None end).
Proof. destruct (provider _); [|apply sticky_ret]. apply sticky_bind; [apply use_sticky|intros; apply sticky_ret]. Qed.

Lemma layer_sticky fuel g lid : sticky (one_layer fuel (Some g) lid).
Proof.
  unfold emit_layer. destruct (dr_find_layer doc lid) as [lr|]; [|apply sticky_ret].
  apply sticky_bind; [apply layer_json_sticky, layer_content_sticky|intros; apply sticky_ret].
Qed.

Lemma use_emitted fuel g c s s' v : emit_use node codecs unknown fuel g c s = (s', v) → s'.1 = None → ∃ o, v = JObject o ∧ used g c o.
Proof.
  unfold emit_use, used. destruct (shared_id g c) as [i|]; [intros [= <- <-] _; by eexists|]. intros E Hs. by eapply define_emitted in E.
Qed.

Lemma one_layer_emitted fuel g lid lr s s' v : dr_find_layer doc lid = Some lr → one_layer fuel (Some g) lid s = (s', v) → s'.1 = None →
  ∃ o, v = Some (JObject o) ∧ layer_emitted g lid lr o.
Proof.
  intros Hl. unfold emit_layer. rewrite Hl. intros E Hs. apply clean_bind in E as (s1 & w & E & Hs1 & [= <- <-]); [|intros; apply sticky_ret|done].
  unfold layer_json in E. unfold mbind at 1, emit_bind at 1 in E. rewrite placement_finite in E by apply (so_layer scene _ _ Hl).
  apply clean_bind in E as (s2 & b & E & Hs2 & E'); [|intros; apply sticky_ret|done]. unfold mret, emit_ret in E'.
  assert (∃ ob, content_use g lr ob ∧ match b with Some emitted => splice (placement_fields lr) emitted | None => placement_fields lr end =
                foldl (λ o f, set_field f.1 f.2 o) (placement_fields lr) ob) as (ob & Hb & Eb).
  { unfold content_use. destruct (provider (ly_content lr)) as [body|]; [|injection E as <- <-; by exists []].
    apply clean_bind in E as (s3 & w' & E & Hs3 & [= <- <-]); [|intros; apply sticky_ret|done].
    apply use_emitted in E as (ob & -> & Hu); [|done]. by exists ob. }
  rewrite Eb, (merge_stashed _ ScopeLayer lid) in E'. injection E' as <- <-. eexists. split; [done|]. by exists ob.
Qed.

Lemma layers_are_emitted fuel g cid s s' vs : emit_layers doc node provider codecs unknown fuel (Some g) cid s = (s', vs) → s'.1 = None → layers_emitted g cid vs.
Proof.
  unfold emit_layers, layers_emitted, layers_found. intros E Hs. apply clean_bind in E as (s1 & ls & E & Hs1 & [= <- <-]); [|intros; apply sticky_ret|done].
  apply clean_each in E; [|apply layer_sticky|done]. clear Hs. induction E as [|lid v lids ls (sa & sb & Ed & Hsb) _ IH]; [constructor|].
  cbn [omap list_omap]. destruct (dr_find_layer doc lid) as [lr|] eqn:El.
  - eapply one_layer_emitted in Ed as (o & -> & Ho); [|done..]. cbn. constructor; [by exists o|exact IH].
  - unfold emit_layer in Ed. rewrite El in Ed. injection Ed as <- <-. exact IH.
Qed.

Lemma composition_sticky fuel g p : sticky (one_composition fuel (Some g) p).
Proof.
  unfold emit_composition, composition_json. apply sticky_bind; [apply extent_sticky|]. intros. apply sticky_bind; [apply extent_sticky|]. intros.
  apply sticky_bind; [|intros; apply sticky_ret]. unfold emit_layers. apply sticky_bind; [|intros; apply sticky_ret].
  apply emit_each_sticky, layer_sticky.
Qed.

Lemma one_composition_emitted fuel g p s s' v : composition_ok p.2 → one_composition fuel (Some g) p s = (s', v) → s'.1 = None →
  ∃ o, v = JObject o ∧ comp_emitted g p o.
Proof.
  intros Hok E Hs. unfold emit_composition, composition_json, mbind, emit_bind in E. rewrite !extent_whole in E by apply Hok.
  destruct (emit_layers _ _ _ _ _ _ _ _ s) as [s1 ls] eqn:El. unfold mret, emit_ret in E.
  injection E as <- <-. apply layers_are_emitted in El; [|done]. eexists. split; [apply merge_stashed|]. by exists ls.
Qed.

(** ** The root *)

Lemma ordinal_inj i j : ordinal i = ordinal j → i = j.
Proof. unfold ordinal. by intros ?%lit_inj%pretty_nat_inj. Qed.

(** A table keyed by place. *)
Lemma find_table k j (vs : list json) (o : fields) :
  find_field (ordinal j) (foldl (λ o f, set_field f.1 f.2 o) o (zip (map ordinal (seq k (length vs))) vs)) =
    match vs !! (j - k)%nat with Some v => if (k <=? j)%nat then Some v else find_field (ordinal j) o | None => find_field (ordinal j) o end.
Proof.
  revert k o. induction vs as [|v vs IH]; intros k o; [done|]. cbn [length seq map zip zip_with foldl fst snd]. rewrite IH, find_set.
  destruct (Nat.leb_spec k j) as [Hk|Hk].
  - destruct (decide (ordinal k = ordinal j)) as [E|E].
    + apply ordinal_inj in E as ->. rewrite Nat.sub_diag. cbn [lookup list_lookup]. rewrite (proj2 (Nat.leb_gt (S j) j)) by lia. by destruct (vs !! _).
    + assert (k ≠ j) by (by intros ->). rewrite (proj2 (Nat.leb_le (S k) j)) by lia. replace (j - k)%nat with (S (j - S k)) by lia. done.
  - rewrite decide_False by (intros E%ordinal_inj; lia). rewrite (proj2 (Nat.leb_gt (S k) j)) by lia. replace (j - k)%nat with 0%nat by lia.
    cbn. by destruct (vs !! _).
Qed.

Definition table_at (root : fields) (key : string) (t : option fields) : Prop := get key root = JObject <$> t.

(** Where the reader finds what was emitted. *)
Record Tables g (comps contents : option fields) : Prop := {
  tb_comps : ∀ i p, (0 < i)%nat → g_comps g !! i = Some p → ∃ o, comps ≫= find_field (ordinal i) = Some (JObject o) ∧ comp_emitted g p o;
  tb_root : comps ≫= find_field (lit "0") = None;
  tb_contents : ∀ i c, shared g !! i = Some c → ∃ o, contents ≫= find_field (ordinal i) = Some (JObject o) ∧ emitted g c o }.

Lemma each_object {A} (P : A → fields → Prop) (f : A → Emit SC json) l s s' vs :
  (∀ a, sticky (f a)) → (∀ a sa sb v, a ∈ l → f a sa = (sb, v) → sb.1 = None → ∃ o, v = JObject o ∧ P a o) →
  emit_each f l s = (s', vs) → s'.1 = None →
  length vs = length l ∧ ∀ i a, l !! i = Some a → ∃ o, vs !! i = Some (JObject o) ∧ P a o.
Proof.
  intros Hst Hf E Hs. apply clean_each in E; [|done..]. split; [symmetry; by eapply Forall2_length|]. intros i a Hi.
  eapply Forall2_lookup_l in E as (v & Hv & sa & sb & Ev & Hsb); [|done]. apply list_elem_of_lookup_2 in Hi.
  destruct (Hf _ _ _ _ Hi Ev Hsb) as (o & -> & Ho). by exists o.
Qed.

Lemma contents_emitted fuel g s s' table : emit_contents node codecs unknown fuel g s = (s', table) → s'.1 = None →
  ∃ t, table = JObject <$> t ∧ ∀ i c, shared g !! i = Some c → ∃ o, t ≫= find_field (ordinal i) = Some (JObject o) ∧ emitted g c o.
Proof.
  unfold emit_contents. destruct (shared g) as [|c0 cs0] eqn:Esh; [intros [= <- <-] _; by exists None|]. rewrite <- Esh. intros E Hs.
  apply clean_bind in E as (s1 & vs & E & Hs1 & [= <- <-]); [|intros; apply sticky_ret|done].
  apply (each_object (emitted g)) in E as [Hlen E]; [|intros; apply define_sticky|intros a sa sb v _ Ev Hsb; by eapply define_emitted|done].
  eexists (Some _). split; [reflexivity|]. intros i c Hi. destruct (E _ _ Hi) as (o & Ho & Hem). exists o. split; [|done]. cbn. unfold object_of.
  rewrite <- Hlen, find_table, Nat.sub_0_r, Ho. done.
Qed.

Definition comps_read g : Prop := ∀ i p, g_comps g !! i = Some p → dr_find_composition doc p.1 = Some p.2.

Lemma compositions_emitted fuel g s s' rest vs : comps_read g → drop 1 (g_comps g) = rest →
  emit_each (one_composition fuel (Some g)) rest s = (s', vs) → s'.1 = None →
  let t := object_of (zip (map ordinal (seq 1 (length rest))) vs) in
  (∀ i p, (0 < i)%nat → g_comps g !! i = Some p → ∃ o, find_field (ordinal i) t = Some (JObject o) ∧ comp_emitted g p o) ∧
  find_field (lit "0") t = None.
Proof.
  intros Hread Hrest E Hs. cbn zeta. unfold object_of.
  apply (each_object (comp_emitted g)) in E as [Hlen E]; [|intros; apply composition_sticky| |done].
  - rewrite <- Hlen. split.
    + intros i p Hi Hp. destruct (E (i - 1)%nat p) as (o & Ho & Hem); [rewrite <- Hrest, lookup_drop; by replace (1 + (i - 1))%nat with i by lia|].
      exists o. split; [|done]. rewrite find_table, Ho. by rewrite (proj2 (Nat.leb_le 1 i)) by lia.
    + change (lit "0") with (ordinal 0). rewrite find_table. cbn. by destruct (vs !! _).
  - intros p sa sb v Hp Ev Hsb. eapply one_composition_emitted; [|done..].
    apply list_elem_of_lookup_1 in Hp as [i Hi]. rewrite <- Hrest, lookup_drop in Hi. by eapply (so_composition scene), Hread.
Qed.

Lemma graph_emitted fuel g first s s' arbc root :
  comps_read g → g_comps g !! 0%nat = Some first →
  emit_graph doc node provider codecs unknown wild_cast fuel g first (put "arbc" arbc []) s = (s', root) → s'.1 = None →
  ∃ o0 comps contents, get "arbc" root = Some arbc ∧ get "composition" root = Some (JObject o0) ∧ comp_emitted g first o0 ∧
    table_at root "compositions" comps ∧ table_at root "contents" contents ∧ Tables g comps contents.
Proof.
  intros Hread Hfirst E Hs. unfold emit_graph in E.
  apply clean_bind in E as (s1 & v & E1 & Hs1 & E); [|clear E; intros w|done].
  2:{ apply sticky_bind; [destruct (drop 1 _); [apply sticky_ret|apply sticky_bind; [apply emit_each_sticky, composition_sticky|intros; apply sticky_ret]]|].
      intros r. apply sticky_bind; [|intros; apply sticky_ret]. unfold emit_contents. destruct (shared g); [apply sticky_ret|].
      apply sticky_bind; [apply emit_each_sticky, define_sticky|intros; apply sticky_ret]. }
  eapply one_composition_emitted in E1 as (o0 & -> & H0); [|by eapply (so_composition scene), Hread|done].
  apply clean_bind in E as (s2 & r & E2 & Hs2 & E); [|clear E; intros w|done].
  2:{ apply sticky_bind; [|intros; apply sticky_ret]. unfold emit_contents. destruct (shared g); [apply sticky_ret|].
      apply sticky_bind; [apply emit_each_sticky, define_sticky|intros; apply sticky_ret]. }
  assert (∃ comps, r = match comps with Some t => put "compositions" (JObject t) (put "composition" (JObject o0) (put "arbc" arbc []))
                                     | None => put "composition" (JObject o0) (put "arbc" arbc []) end ∧
            (∀ i p, (0 < i)%nat → g_comps g !! i = Some p → ∃ o, comps ≫= find_field (ordinal i) = Some (JObject o) ∧ comp_emitted g p o) ∧
            comps ≫= find_field (lit "0") = None) as (comps & -> & Hc1 & Hc2).
  { destruct (drop 1 (g_comps g)) as [|p0 ps] eqn:Ed.
    - injection E2 as <- <-. exists None. split_and!; [done| |done]. intros i p Hi Hp. exfalso.
      assert (drop 1 (g_comps g) !! (i - 1)%nat = Some p) as Hd by (rewrite lookup_drop; by replace (1 + (i - 1))%nat with i by lia). by rewrite Ed in Hd.
    - apply clean_bind in E2 as (s3 & vs & E2 & Hs3 & [= <- <-]); [|intros; apply sticky_ret|done]. eapply compositions_emitted in E2 as [H1 H2]; [|done..].
      eexists (Some _). split; [reflexivity|]. cbn. split; [exact H1|exact H2]. }
  apply clean_bind in E as (s3 & table & E3 & Hs3 & [= <- <-]); [|intros; apply sticky_ret|done].
  apply contents_emitted in E3 as (t & -> & Ht); [|done]. exists o0, comps, t. unfold table_at.
  destruct comps as [comps|], t as [t|]; cbn [fmap option_fmap option_map]; rewrite ?get_put, ?get_nil; cbn; split_and!; done.
Qed.

(** ** What the walk over the document gathers *)

Record Walked g : Prop := {
  wk_read : comps_read g;
  wk_told : meta_told g;
  wk_ids : ∀ cid i, g_comp_ids g !! cid = Some i → ∃ rec, g_comps g !! i = Some (cid, rec) }.

Definition grown g g' : Prop := Walked g' ∧ g_comps g `prefix_of` g_comps g'.

Lemma grown_refl g : Walked g → grown g g.
Proof. by split. Qed.
Lemma record_grown_trans g1 g2 g3 : grown g1 g2 → grown g2 g3 → grown g1 g3.
Proof. intros [_ H1] [H2 H3]. split; [done|by etrans]. Qed.

Lemma no_graph_walked : Walked no_graph.
Proof. split; [by intros [|i] p|by intros c m H|by intros cid i H]. Qed.

Lemma enqueue_grown cid g : Walked g → grown g (enqueue_composition doc cid g).1.
Proof.
  intros Hw. unfold enqueue_composition. destruct (cid =? 0); [by apply grown_refl|]. destruct (g_comp_ids g !! cid) as [i|]; [by apply grown_refl|].
  destruct (dr_find_composition doc cid) as [rec|] eqn:Er; [|by apply grown_refl]. destruct Hw as [H1 H2 H3]. split; [|by eexists].
  constructor; cbn [fst g_comps g_meta g_comp_ids].
  - intros i p Hi. cbn in Hi. apply lookup_app_Some in Hi as [Hi|[_ Hi]]; [by eapply H1|]. apply list_lookup_singleton_Some in Hi as [_ <-]. done.
  - exact H2.
  - intros cid' i Hi. apply lookup_insert_Some in Hi as [[<- <-]|[_ Hi]].
    + exists rec. by rewrite lookup_app_r, Nat.sub_diag.
    + destruct (H3 _ _ Hi) as [rec' Hr]. exists rec'. by apply lookup_app_l_Some.
Qed.

Lemma note_grown c m g : told c m → Walked g → grown g (note_visit c m g).
Proof.
  intros Ht [H1 H2 H3]. unfold note_visit. destruct (g_counts g !! c); (split; [|done]); constructor; try done.
  intros c' m' Hm. cbn in Hm. apply lookup_insert_Some in Hm as [[<- <-]|[_ Hm]]; [done|by apply H2].
Qed.

Lemma visit_grown fuel c m g g' : told c m → Walked g → visit doc node meta fuel c m g = Some g' → grown g g'.
Proof.
  revert c m g g'. induction fuel as [|fuel IH]; intros c m g g' Ht Hw; [done|]. cbn [visit]. pose proof (note_grown c m g Ht Hw) as Hn.
  destruct (bool_decide _); [by intros [= <-]|]. destruct (bool_decide _); [by intros [= <-]|].
  pose proof (enqueue_grown (n_composition (node c)) _ (proj1 Hn)) as He.
  destruct (enqueue_composition doc (n_composition (node c)) (note_visit c m g)) as [g1 nests] eqn:Ee. cbn [fst] in He.
  pose proof (record_grown_trans _ _ _ Hn He) as Hg. destruct nests; [by intros [= <-]|]. clear Hn He Ee.
  revert g1 Hg. induction (n_inputs (node c)) as [|child inputs IHi]; intros g1 Hg; cbn [foldl]; [by intros [= <-]|].
  destruct child as [child|]; [|by apply IHi]. destruct (visit doc node meta fuel child _ g1) as [g2|] eqn:Ev.
  - apply IHi. eapply record_grown_trans; [exact Hg|]. eapply IH; [|exact (proj1 Hg)|exact Ev]. by right.
  - clear. intros E. exfalso. by induction inputs as [|[]].
Qed.

Lemma visit_layer_grown fuel g lid g' : Walked g → visit_layer doc node provider meta fuel (Some g) lid = Some g' → grown g g'.
Proof.
  intros Hw. unfold visit_layer. destruct (dr_find_layer doc lid) as [lr|]; [|intros [= <-]; by apply grown_refl].
  destruct (provider (ly_content lr)) as [body|] eqn:Ep; [|intros [= <-]; by apply grown_refl]. intros Ev.
  eapply visit_grown; [|done..]. left. by exists (ly_content lr), body.
Qed.

Lemma walk_grown rounds fuel i g g' : Walked g → walk doc node provider meta rounds fuel i g = Some g' → grown g g'.
Proof.
  revert i g. induction rounds as [|rounds IH]; intros i g Hw; cbn [walk]; (destruct (g_comps g !! i) as [[cid rec]|]; [|intros [= <-]; by apply grown_refl]); [done|].
  assert (∀ lids g1 g2, Walked g1 → foldl (visit_layer doc node provider meta fuel) (Some g1) lids = Some g2 → grown g1 g2) as Hf.
  { clear. induction lids as [|lid lids IH]; intros g1 g2 Hw E; [injection E as <-; by apply grown_refl|]. cbn [foldl] in E.
    destruct (visit_layer doc node provider meta fuel (Some g1) lid) as [g3|] eqn:Ev.
    - eapply visit_layer_grown in Ev; [|done]. eapply record_grown_trans; [done|]. by apply IH; [apply Ev|].
    - exfalso. clear -E. induction lids as [|lid' lids IHl]; [done|]. apply IHl. cbn [foldl] in E. unfold visit_layer at 2 in E. by destruct (dr_find_layer doc lid'). }
  destruct (foldl _ (Some g) (dr_layers_in doc cid)) as [g1|] eqn:Ef; [|done]. intros Ew. apply Hf in Ef; [|done].
  eapply record_grown_trans; [done|]. eapply IH; [apply Ef|done].
Qed.

(** The graph a save walks up. *)
Definition gathered (rounds fuel : nat) (first : Z * CompositionRecord) : option Graph :=
  walk doc node provider meta rounds fuel 0 (enqueue_composition doc first.1 no_graph).1.

Lemma gathered_walked rounds fuel first g : dr_first doc = Some first → gathered rounds fuel first = Some g →
  Walked g ∧ g_comps g !! 0%nat = Some first.
Proof.
  intros Hf E. destruct first as [cid rec]. destruct (so_first scene _ _ Hf) as [Hz Hr]. unfold gathered in E. cbn [fst] in E.
  pose proof (enqueue_grown cid no_graph no_graph_walked) as [Hw _].
  assert (g_comps (enqueue_composition doc cid no_graph).1 = [(cid, rec)]) as Hc.
  { unfold enqueue_composition. rewrite (proj2 (Z.eqb_neq cid 0)) by done. cbn. by rewrite Hr. }
  apply walk_grown in E as [Hg Hp]; [|done]. split; [done|]. rewrite Hc in Hp. destruct Hp as [l ->]. done.
Qed.

(** ** The document that is read *)

Section reading.
Context (g : Graph) (comps contents : option fields) (tables : Tables g comps contents) (walked : Walked g).
Notation R := (Reading L LC).
Implicit Types s : R.

Lemma shared_id_at c i : shared_id g c = Some i → shared g !! i = Some c.
Proof.
  unfold shared_id. intros H. apply fmap_Some in H as ([i' d] & H & ->). apply list_find_Some in H as (Hi & -> & _). done.
Qed.

(** A shared content is built once: every use of it is the object in the cache. *)
Definition linked s c h : Prop := ∀ i, shared_id g c = Some i → ∃ id, rd_cache s !! ordinal i = Some (mkSunk id h).

(** [h] is a copy of the content [c]: its state, its edge to a composition, its inputs. *)
Inductive copy s c h : Prop :=
| copy_intro n inputs composition :
    rd_heap s !! h = Some n → node_copy c inputs composition n →
    (n_external (node c) = [] →
      match g_comp_ids g !! n_composition (node c) with
      | Some i => inputs = [] ∧ rd_allocated s !! ordinal i = Some composition
      | None => composition = 0 ∧ Forall2 (λ a b, ∃ d k, a = Some d ∧ b = Some k ∧ linked s d k) (n_inputs (node c)) inputs
      end) →
    (n_external (node c) = [] → g_comp_ids g !! n_composition (node c) = None →
      ∀ j d k, n_inputs (node c) !! j = Some (Some d) → inputs !! j = Some (Some k) → copy s d k) →
    copy s c h.

Record later s s' : Prop := {
  lt_heap : rd_heap s ⊆ rd_heap s';
  lt_cache : rd_cache s ⊆ rd_cache s';
  lt_allocated : rd_allocated s ⊆ rd_allocated s';
  lt_pending : rd_pending s `prefix_of` rd_pending s';
  lt_open : rd_in_progress s' = rd_in_progress s }.

Lemma later_refl s : later s s.
Proof. done. Qed.
Lemma later_trans s1 s2 s3 : later s1 s2 → later s2 s3 → later s1 s3.
Proof. intros [] []. constructor; [by etrans..|congruence]. Qed.

Lemma linked_later s s' c h : rd_cache s ⊆ rd_cache s' → linked s c h → linked s' c h.
Proof. intros Hc Hl i Hi. destruct (Hl _ Hi) as [id H]. exists id. by eapply lookup_weaken. Qed.

Lemma copy_later s s' c h : rd_heap s ⊆ rd_heap s' → rd_cache s ⊆ rd_cache s' → rd_allocated s ⊆ rd_allocated s' → copy s c h → copy s' c h.
Proof.
  intros Hh Hc Ha H. induction H as [c h n inputs composition Hn Hcopy Hedge _ IH]. eapply copy_intro; [by eapply lookup_weaken|done| |exact IH].
  intros Hx. specialize (Hedge Hx). destruct (g_comp_ids g !! n_composition (node c)) as [i|].
  - destruct Hedge as [-> Hi]. split; [done|by eapply lookup_weaken].
  - destruct Hedge as [-> Hf]. split; [done|]. eapply Forall2_impl; [exact Hf|]. intros a b (d & k & -> & -> & Hl). exists d, k.
    split_and!; [done..|by eapply linked_later].
Qed.

Record Sound s : Prop := {
  sd_ready : ready (rd_ctx s);
  sd_fresh : ∀ h n, rd_heap s !! h = Some n → (h < rd_next_handle s)%nat;
  sd_cache : ∀ key sunk, rd_cache s !! key = Some sunk → ∃ i c, key = ordinal i ∧ shared g !! i = Some c ∧ copy s c (sk_live sunk);
  sd_open : ∀ key, key ∈ rd_in_progress s → rd_cache s !! key = None;
  sd_root : is_Some (rd_allocated s !! ordinal 0);
  sd_ids : ∀ key id, rd_allocated s !! key = Some id → id < rd_next_id s ∧ (∃ body, (id, body) ∈ rd_pending s) ∧ ∃ i, key = ordinal i;
  sd_once : NoDup (map fst (rd_pending s));
  sd_distinct : ∀ k1 k2 id, rd_allocated s !! k1 = Some id → rd_allocated s !! k2 = Some id → k1 = k2;
  sd_pending : ∀ p, p ∈ rd_pending s → ∃ i q, rd_allocated s !! ordinal i = Some p.1 ∧ g_comps g !! i = Some q ∧ comp_emitted g q p.2 }.

(** A step that ends without a fault, with a result. *)
Definition fine {A} (r : R * expected (Stop ReaderError) A) (P : R → A → Prop) : Prop :=
  match r with (s, Ok a) => P s a | (_, Err Exhausted) => True | (_, Err (Fault _)) => False end.

Lemma fine_bind {A B} (m : Read A) (k : A → Read B) s (P : R → B → Prop) :
  fine (m s) (λ s1 a, fine (k a s1) P) → fine (mbind k m s) P.
Proof. unfold mbind, ST_bind. by destruct (m s) as [s1 [a|[]]]. Qed.

Lemma fine_impl {A} (r : R * expected (Stop ReaderError) A) (P Q : R → A → Prop) : (∀ s a, P s a → Q s a) → fine r P → fine r Q.
Proof. intros H. destruct r as [s [a|[]]]; [apply H|done..]. Qed.

(** ** The steps of a load keep it sound *)

Lemma met_sound s i p body :
  Sound s → rd_allocated s !! ordinal i = None → g_comps g !! i = Some p → comp_emitted g p body →
  let s' := with_ids (rd_next_id s + 1) (<[ordinal i := rd_next_id s]> (rd_allocated s)) (rd_pending s ++ [(rd_next_id s, body)]) s in
  Sound s' ∧ later s s'.
Proof.
  intros [S1 S2 S3 S4 S5 S6 S0 S7 S8] Hi Hp Hem. cbn zeta. set (s' := with_ids _ _ _ s).
  assert (rd_allocated s ⊆ rd_allocated s') as Ha by (by apply insert_subseteq). split; [|constructor; [done|done|exact Ha|by eexists|done]].
  constructor; cbn [s' with_ids rd_ctx rd_heap rd_next_handle rd_cache rd_in_progress rd_allocated rd_next_id rd_pending]; try done.
  - intros key sunk Hk. destruct (S3 _ _ Hk) as (j & c & -> & Hj & Hc). exists j, c. split_and!; [done..|]. by eapply copy_later; [..|exact Hc].
  - destruct S5 as [id0 H0]. exists id0. by eapply lookup_weaken.
  - intros key id Hk. apply lookup_insert_Some in Hk as [[<- <-]|[_ Hk]].
    + split; [lia|]. split; [|by eexists]. exists body. apply elem_of_app. right. by left.
    + destruct (S6 _ _ Hk) as (Hlt & (b & Hb) & Ho). split; [lia|]. split; [|done]. exists b. apply elem_of_app. by left.
  - rewrite map_app. apply NoDup_app. split; [done|]. split; [|apply NoDup_singleton].
    intros id Hin Hid. apply list_elem_of_singleton in Hid as ->. apply list_elem_of_fmap in Hin as (q & Eq & Hq).
    destruct (S8 _ Hq) as (j & _ & Hj & _). apply S6 in Hj as [Hj _]. cbn [fst] in Eq. lia.
  - intros k1 k2 id H1 H2. apply lookup_insert_Some in H1 as [[<- <-]|[N1 H1]]; apply lookup_insert_Some in H2 as [[<- E2]|[N2 H2]]; [done| | |by eapply S7].
    + apply S6 in H2. lia.
    + subst id. apply S6 in H1. lia.
  - intros q Hq. apply elem_of_app in Hq as [Hq|Hq].
    + destruct (S8 _ Hq) as (j & c & Hj & Hc). exists j, c. split; [by eapply lookup_weaken|done].
    + apply list_elem_of_singleton in Hq as ->. exists i, p. split; [apply lookup_insert_eq|done].
Qed.

Lemma edge_found s o i p : Sound s → g_comps g !! i = Some p → get "composition" o = Some (JString (ordinal i)) →
  fine (child_composition comps o s) (λ s' id, Sound s' ∧ later s s' ∧ rd_allocated s' !! ordinal i = Some id).
Proof.
  intros Hs Hp Ho. unfold child_composition. rewrite Ho. unfold resolve_composition. destruct (rd_allocated s !! ordinal i) as [id|] eqn:Ei; [done|].
  assert (0 < i)%nat as Hpos. { destruct i; [|lia]. pose proof (sd_root _ Hs) as [? E]. congruence. }
  destruct (tb_comps _ _ _ tables i p Hpos Hp) as (body & -> & Hem).
  destruct (met_sound s i p body Hs Ei Hp Hem) as [Hs' Hl]. cbn [fine]. split_and!; [done..|]. apply lookup_insert_eq.
Qed.

Lemma sink_sound s n kind s' sunk staged : Sound s → sink n kind s = (s', sunk) →
  Sound (with_staged staged s') ∧ later s (with_staged staged s') ∧ rd_heap s' !! sk_live sunk = Some n.
Proof.
  intros [S1 S2 S3 S4 S5 S6 S0 S7 S8]. unfold sink. destruct (foldl demote _ _) as [records minted]. intros [= <- <-]. set (s' := with_staged _ _).
  assert (rd_heap s ⊆ rd_heap s') as Hh.
  { apply insert_subseteq. destruct (rd_heap s !! rd_next_handle s) eqn:E; [|done]. apply S2 in E. lia. }
  split; [|split; [by constructor|apply lookup_insert_eq]].
  constructor; cbn [s' with_staged rd_ctx rd_heap rd_next_handle rd_cache rd_in_progress rd_allocated rd_next_id rd_pending]; try done.
  - intros h m H. apply lookup_insert_Some in H as [[<- _]|[_ H]]; [lia|]. apply S2 in H. lia.
  - intros key sunk Hk. destruct (S3 _ _ Hk) as (j & c & -> & Hj & Hc). exists j, c. split_and!; [done..|]. by eapply copy_later; [..|exact Hc].
  - intros key id Hk. destruct (S6 _ _ Hk) as (Hlt & ?). split; [lia|done].
Qed.

Lemma with_ctx_sound s ctx : Sound s → ready ctx → Sound (with_ctx ctx s) ∧ later s (with_ctx ctx s).
Proof.
  intros [S1 S2 S3 S4 S5 S6 S0 S7 S8] Hr. split; [|done]. constructor; try done.
  intros key sunk Hk. destruct (S3 _ _ Hk) as (j & c & -> & Hj & Hc). exists j, c. split_and!; [done..|]. by eapply copy_later; [..|exact Hc].
Qed.

(** A node is built with its edges. *)
Lemma node_built s c body o layer inputs (P : R → Z → Prop) :
  Body c body → holds body o → Sound s →
  fine (child_composition comps o s) (λ s' id, Sound s' ∧ later s s' ∧ P s' id) →
  fine (build_node params_ctx registered codecs comps layer o inputs s)
    (λ s' sunk, Sound s' ∧ later s s' ∧ ∃ n id s1, later s1 s' ∧ P s1 id ∧ rd_heap s' !! sk_live sunk = Some n ∧ node_copy c inputs id n).
Proof.
  intros Hb Ho Hs Hc. unfold build_node. destruct (child_composition comps o s) as [s1 [id|[]]]; [|done..]. cbn [fine] in Hc.
  destruct Hc as (Hs1 & Hl1 & HP). destruct (bd_reads _ _ Hb o inputs id (rd_ctx s1) Ho (sd_ready _ Hs1)) as (ctx & pr & -> & Hr & Hn).
  destruct (with_ctx_sound s1 ctx Hs1 Hr) as [Hs2 Hl2]. destruct (sink (pr_node pr) (pr_kind pr) (with_ctx ctx s1)) as [s3 sunk] eqn:Ek.
  cbn [fine]. set (staged := store_set _ _ _ _). destruct (sink_sound _ _ _ _ _ staged Hs2 Ek) as (Hs3 & Hl3 & Hh).
  assert (later s1 (with_staged staged s3)) as Hl by (by eapply later_trans). split; [done|]. split; [by eapply later_trans|].
  exists (pr_node pr), id, s1. done.
Qed.

(** ** Contents *)

(** An object where the reader finds what was emitted, other members beside it or not. *)
Definition spells (b o : fields) : Prop :=
  sorted_fields o ∧ covers b o ∧ ∀ key, names_key k_body_keys key = true → find_field key o = find_field key b.

Lemma spells_refl b : sorted_fields b → spells b b.
Proof. intros Hs. split; [done|]. split; [apply covers_refl|done]. Qed.

Lemma spells_get b o key : spells b o → names_key k_body_keys (lit key) = true → get key o = get key b.
Proof. intros (_ & _ & H). apply H. Qed.

Lemma spells_body c body o : Body c body → spells body o → holds body o.
Proof. intros _ (Hs & Hc & Hk). split_and!; [done..|by apply Hk|by apply Hk]. Qed.

Lemma spells_put body o key v : get key body = None → key ≠ "kind"%string → key ≠ "params"%string → spells (put key v body) o → holds body o.
Proof.
  intros Hn H1 H2 (Hs & Hc & Hk). split; [done|]. split.
  - intros k w Hw. apply Hc. unfold put. rewrite find_set_ne; [done|]. intros <-. unfold get in Hn. congruence.
  - assert (∀ k, names_key k_body_keys (lit k) = true → get k o = get k (put key v body)) as E by (intros k Hkey; by apply Hk).
    rewrite !E, !get_put by done. by rewrite (proj2 (String.eqb_neq key "kind")), (proj2 (String.eqb_neq key "params")).
Qed.

Lemma emitted_sorted c b : emitted g c b → sorted_fields b.
Proof.
  intros H. destruct H as [body Hb|body i Hb|body Hb|body arr Hb]; pose proof (bd_sorted _ _ (body_facts _ _ _ (wk_told _ walked) Hb)); try done; by apply put_sorted.
Qed.

Lemma used_sorted c b : used g c b → sorted_fields b.
Proof. unfold used. destruct (shared_id g c); [intros ->; apply put_sorted, sorted_nil|apply emitted_sorted]. Qed.

(** The references in progress are the contents the one being built feeds. *)
Definition under_way (rel : Handle → Handle → Prop) s c : Prop :=
  ∀ key, key ∈ rd_in_progress s → ∃ i d, key = ordinal i ∧ shared g !! i = Some d ∧ rel d c.

Lemma under_way_later rel s s' c : later s s' → under_way rel s c → under_way rel s' c.
Proof. intros Hl H key. rewrite (lt_open _ _ Hl). apply H. Qed.

Definition resolved s c (s' : R) (sunk : SunkContent) : Prop :=
  Sound s' ∧ later s s' ∧ linked s' c (sk_live sunk) ∧ copy s' c (sk_live sunk).

Definition input_used (child : option Handle) (v : json) : Prop := ∃ d o, child = Some d ∧ v = JObject o ∧ used g d o.

Lemma inputs_used c arr : Forall2 (input_form g) (n_inputs (node c)) arr →
  (∀ j d o, n_inputs (node c) !! j = Some (Some d) → shared_id g d = None → arr !! j = Some (JObject o) → emitted g d o) →
  Forall2 input_used (n_inputs (node c)) arr.
Proof.
  intros Hf He. apply Forall2_same_length_lookup_2; [by eapply Forall2_length|]. intros j child v Hj Hv.
  eapply Forall2_lookup_lr in Hf as (d & o & Ec & Ev & Hr); [|done..]. subst child v. exists d, o. split_and!; [done..|]. unfold used.
  destruct (shared_id g d) as [i|] eqn:Ei; [by apply Hr|by eapply He].
Qed.

Definition bound s (child live : option Handle) : Prop :=
  ∃ d k, child = Some d ∧ live = Some k ∧ linked s d k ∧ copy s d k.

Lemma bound_later s s' child live : later s s' → bound s child live → bound s' child live.
Proof.
  intros [Hh Hc Ha _ _] (d & k & -> & -> & Hl & Hk). exists d, k. split_and!; [done..|by eapply linked_later|by eapply copy_later].
Qed.

Notation slots_read := (slots_of params_ctx registered codecs comps contents).

Lemma slots_bound fuel ins arr s :
  (∀ c b o layer s, used g c b → spells b o → Sound s → under_way (tc feeds) s c →
     fine (resolve params_ctx registered codecs comps contents fuel o layer s) (resolved s c)) →
  Forall2 input_used ins arr → (∀ d, Some d ∈ ins → under_way (tc feeds) s d) → Sound s →
  fine (slots_read fuel arr s) (λ s' hs, Sound s' ∧ later s s' ∧ Forall2 (bound s') ins hs).
Proof.
  intros IH Hu. revert s. induction Hu as [|child v ins arr (d & o & -> & -> & Hd) _ IHu]; intros s Hw Hs; [split_and!; [done..|constructor]|].
  cbn [slots_of]. apply fine_bind. eapply fine_impl; [|eapply IH; [exact Hd|apply spells_refl; by eapply used_sorted|done|apply Hw; by left]].
  intros s1 sunk (Hs1 & Hl1 & Hk1 & Hc1). apply fine_bind. eapply fine_impl; [|apply IHu; [|done]].
  - intros s2 hs (Hs2 & Hl2 & Hf). cbn [fine mret ST_ret]. split; [done|]. split; [by eapply later_trans|]. constructor; [|done].
    eapply bound_later; [done|]. by exists d, (sk_live sunk).
  - intros d' Hd'. eapply under_way_later; [done|]. apply Hw. by right.
Qed.

Notation resolve_use := (resolve params_ctx registered codecs comps contents).
Notation build_body := (build params_ctx registered codecs comps contents).

(** Writing a body without inputs, whatever its composition edge. *)
Lemma build_plain fuel c body o layer s (P : R → Z → Prop) :
  Body c body → holds body o → get "inputs" o = None → Sound s →
  fine (child_composition comps o s) (λ s' id, Sound s' ∧ later s s' ∧ P s' id) →
  fine (build_body (S fuel) o layer s)
    (λ s' sunk, Sound s' ∧ later s s' ∧ ∃ n id s1, later s1 s' ∧ P s1 id ∧ rd_heap s' !! sk_live sunk = Some n ∧ node_copy c [] id n).
Proof.
  intros Hb Ho Hi Hs Hc. rewrite build_step. unfold get in Hi. unfold has_field at 1. rewrite Hi, bool_decide_false by (by intros [? ?]). cbn [andb].
  unfold inputs_of, get. rewrite Hi. apply fine_bind. cbn [fine mret ST_ret]. by eapply node_built.
Qed.

Lemma no_composition o s : get "composition" o = None → Sound s →
  fine (child_composition comps o s) (λ s' id, Sound s' ∧ later s s' ∧ id = 0).
Proof. intros Ho Hs. unfold child_composition. by rewrite Ho. Qed.

Definition built s c (s' : R) (sunk : SunkContent) : Prop := Sound s' ∧ later s s' ∧ copy s' c (sk_live sunk).

Lemma build_alone fuel c b o layer s : body_of g c b → spells b o → Sound s →
  (n_external (node c) = [] → g_comp_ids g !! n_composition (node c) = None ∧ n_inputs (node c) = []) →
  fine (build_body (S fuel) o layer s) (built s c).
Proof.
  intros Hb Ho Hs Hn. apply body_facts in Hb; [|apply walked]. eapply fine_impl; [|eapply (build_plain _ c b o layer s (λ _ id, id = 0)); [done|by eapply spells_body| |done|]].
  - intros s' sunk (Hs' & Hl & n & id & s1 & _ & -> & Hh & Hcopy). split_and!; [done..|]. apply (copy_intro _ _ _ n [] 0); [done..| |].
    + intros Hx. destruct (Hn Hx) as [-> ->]. split; [done|constructor].
    + intros Hx _ j d k Hj. destruct (Hn Hx) as [_ E]. by rewrite E in Hj.
  - rewrite (spells_get b) by done. exact (bd_inputs _ _ Hb).
  - apply no_composition; [|done]. rewrite (spells_get b) by done. exact (bd_composition _ _ Hb).
Qed.

Lemma build_nested fuel c body i o layer s : body_of g c body → n_external (node c) = [] → g_comp_ids g !! n_composition (node c) = Some i →
  spells (put "composition" (JString (ordinal i)) body) o → Sound s → fine (build_body (S fuel) o layer s) (built s c).
Proof.
  intros Hb Hx Hi Ho Hs. apply body_facts in Hb; [|apply walked]. destruct (wk_ids _ walked _ _ Hi) as [rec Hr].
  eapply fine_impl; [|eapply (build_plain _ c body o layer s (λ s1 id, rd_allocated s1 !! ordinal i = Some id)); [done| | |done|]].
  - intros s' sunk (Hs' & Hl & n & id & s1 & Hl1 & Hid & Hh & Hcopy). split_and!; [done..|]. apply (copy_intro _ _ _ n [] id); [done..| |].
    + intros _. rewrite Hi. split; [done|]. eapply lookup_weaken; [done|apply Hl1].
    + intros _ E. congruence.
  - eapply spells_put; [exact (bd_composition _ _ Hb)|done..|exact Ho].
  - rewrite (spells_get _ _ _ Ho), get_put by done. exact (bd_inputs _ _ Hb).
  - eapply edge_found; [done..|]. by rewrite (spells_get _ _ _ Ho), get_put.
Qed.

Lemma build_operator fuel c body arr o layer s : 
  (∀ c b o layer s, used g c b → spells b o → Sound s → under_way (tc feeds) s c → fine (resolve_use fuel o layer s) (resolved s c)) →
  body_of g c body → n_external (node c) = [] → g_comp_ids g !! n_composition (node c) = None →
  Forall2 input_used (n_inputs (node c)) arr → spells (put "inputs" (JArray arr) body) o → Sound s → under_way (rtc feeds) s c →
  fine (build_body (S fuel) o layer s) (built s c).
Proof.
  intros IH Hb Hx Hi Hf Ho Hs Hw. apply body_facts in Hb; [|apply walked].
  assert (get "composition" o = None) as Hc by (rewrite (spells_get _ _ _ Ho), get_put by done; exact (bd_composition _ _ Hb)).
  rewrite build_step. rewrite andb_comm. unfold has_field at 1. unfold get in Hc. rewrite Hc, bool_decide_false by (by intros [? ?]). cbn [andb].
  unfold inputs_of. rewrite (spells_get _ _ "inputs" Ho), get_put by done. cbn [String.eqb Ascii.eqb Bool.eqb]. apply fine_bind.
  eapply fine_impl; [|eapply slots_bound; [exact IH|exact Hf| |done]].
  - intros s1 hs (Hs1 & Hl1 & Hbound). eapply fine_impl; [|eapply (node_built s1 c body o layer hs (λ _ id, id = 0)); [done| |done|by apply no_composition]].
    + intros s' sunk (Hs' & Hl' & n & id & s2 & _ & -> & Hh & Hcopy). split; [done|]. split; [by eapply later_trans|].
      assert (Forall2 (bound s') (n_inputs (node c)) hs) as Hb' by (eapply Forall2_impl; [exact Hbound|]; intros ??; by apply bound_later).
      apply (copy_intro _ _ _ n hs 0); [done..| |].
      * intros _. rewrite Hi. split; [done|]. eapply Forall2_impl; [exact Hb'|]. intros a k (d & k' & -> & -> & Hl & _). by exists d, k'.
      * intros _ _ j d k Hj Hk. eapply Forall2_lookup_lr in Hb' as (d' & k' & Ed & Ek & _ & Hcp); [|done..]. by simplify_eq.
    + eapply spells_put; [exact (bd_inputs _ _ Hb)|done..|exact Ho].
  - intros d Hd key Hkey. destruct (Hw _ Hkey) as (i & e & -> & He & Hr). exists i, e. split_and!; [done..|].
    eapply tc_rtc_l; [done|]. by apply tc_once.
Qed.

Lemma entered_sound s i c : Sound s → rd_cache s !! ordinal i = None → Sound (enter (ordinal i) s).
Proof.
  intros [S1 S2 S3 S4 S5 S6 S0 S7 S8] Hi. constructor; try done.
  - intros key sunk Hk. destruct (S3 _ _ Hk) as (j & d & -> & Hj & Hd). exists j, d. split_and!; [done..|]. by eapply copy_later; [..|exact Hd].
  - intros key Hkey. cbn in Hkey |- *. apply elem_of_union in Hkey as [->%elem_of_singleton|Hkey]; [done|by apply S4].
Qed.

(** A shared content enters the cache when it is built. *)
Lemma cached_sound s s1 i c sunk :
  Sound s → Sound s1 → later (enter (ordinal i) s) s1 → ordinal i ∉ rd_in_progress s → shared_id g c = Some i → copy s1 c (sk_live sunk) →
  resolved s c (with_refs (<[ordinal i := sunk]> (rd_cache s1)) (rd_in_progress s1 ∖ {[ordinal i]}) s1) sunk.
Proof.
  intros Hs [S1 S2 S3 S4 S5 S6 S0 S7 S8] [L1 L2 L3 L4 L5] Hn Hi Hc. set (s' := with_refs _ _ s1). cbn in L5.
  assert (ordinal i ∈ rd_in_progress s1) as Hin by (rewrite L5; set_solver).
  assert (rd_cache s1 ⊆ rd_cache s') as Hca by (by apply insert_subseteq, S4).
  assert (rd_in_progress s' = rd_in_progress s) as Ho by (cbn; rewrite L5; set_solver).
  assert (copy s' c (sk_live sunk)) as Hc' by (by eapply copy_later; [..|exact Hc]).
  split; [|split; [|split; [|exact Hc']]].
  - constructor; cbn [s' with_refs rd_ctx rd_heap rd_next_handle rd_cache rd_allocated rd_next_id rd_pending]; try done.
    + intros key sunk' Hk. apply lookup_insert_Some in Hk as [[<- <-]|[_ Hk]]; [exists i, c; split_and!; [done|by apply shared_id_at|done]|].
      destruct (S3 _ _ Hk) as (j & d & -> & Hj & Hd). exists j, d. split_and!; [done..|]. by eapply copy_later; [..|exact Hd].
    + intros key Hkey. rewrite Ho in Hkey. apply lookup_insert_None. split; [apply S4; rewrite L5; set_solver|]. intros <-. by apply Hn.
  - constructor; [exact L1| |exact L3|exact L4|exact Ho]. etrans; [exact L2|exact Hca].
  - intros j Hj. rewrite Hi in Hj. injection Hj as <-. exists (sk_id sunk). cbn. rewrite lookup_insert_eq. by destruct sunk.
Qed.

(** Every use of what was saved is read back as a copy of it. *)
Lemma contents_copied fuel :
  (∀ c b o layer s, used g c b → spells b o → Sound s → under_way (tc feeds) s c → fine (resolve_use fuel o layer s) (resolved s c)) ∧
  (∀ c b o layer s, emitted g c b → spells b o → Sound s → under_way (rtc feeds) s c → fine (build_body fuel o layer s) (built s c)).
Proof.
  induction fuel as [|fuel [IHr IHb]]; [done|]. split; intros c b o layer s Hu Ho Hs Hw.
  - rewrite resolve_step. rewrite (spells_get _ _ _ Ho) by done. unfold used in Hu. destruct (shared_id g c) as [i|] eqn:Ei.
    + subst b. unfold reference. rewrite get_put. cbn [String.eqb Ascii.eqb Bool.eqb]. pose proof (shared_id_at _ _ Ei) as Hat.
      destruct (rd_cache s !! ordinal i) as [sunk|] eqn:Ec.
      { destruct (sd_cache _ Hs _ _ Ec) as (j & d & Ej & Hj & Hd). apply ordinal_inj in Ej as <-. rewrite Hat in Hj. injection Hj as <-.
        cbn [fine]. split_and!; [done..| |done]. intros j Hj. rewrite Ei in Hj. injection Hj as <-. exists (sk_id sunk). rewrite Ec. by destruct sunk. }
      destruct (bool_decide_reflect (ordinal i ∈ rd_in_progress s)) as [Hin|Hn].
      { exfalso. destruct (Hw _ Hin) as (j & d & Ej & Hj & Hd). apply ordinal_inj in Ej as <-. rewrite Hat in Hj. injection Hj as <-.
        by apply (so_acyclic scene c). }
      destruct (tb_contents _ _ _ tables i c Hat) as (body & -> & Hem). pose proof (entered_sound s i c Hs Ec) as Hs1.
      assert (fine (build_body fuel body false (enter (ordinal i) s)) (built (enter (ordinal i) s) c)) as Hb.
      { eapply IHb; [done|apply spells_refl; by eapply emitted_sorted|done|]. intros key Hkey. cbn in Hkey.
        apply elem_of_union in Hkey as [->%elem_of_singleton|Hkey]; [by exists i, c|]. destruct (Hw _ Hkey) as (j & d & -> & Hj & Hd).
        exists j, d. split_and!; [done..|by apply tc_rtc]. }
      destruct (build_body fuel body false (enter (ordinal i) s)) as [s1 [sunk|[]]]; [|done..]. destruct Hb as (Hs2 & Hl & Hc).
      cbn [fine]. by apply cached_sound.
    + assert (get "$ref" b = None) as Href.
      { destruct Hu as [body Hb|body j Hb|body Hb|body arr Hb]; rewrite ?get_put; exact (bd_ref _ _ (body_facts _ _ _ (wk_told _ walked) Hb)). }
      rewrite Href. eapply fine_impl; [|eapply IHb; [done|done|done|]].
      * intros s' sunk (H1 & H2 & H3). split_and!; [done..| |done]. intros j Hj. congruence.
      * intros key Hkey. destruct (Hw _ Hkey) as (j & d & -> & Hj & Hd). exists j, d. split_and!; [done..|by apply tc_rtc].
  - destruct Hu as [body Hb Hx|body i Hb Hx Hi|body Hb Hx Hi Hn|body arr Hb Hx Hi Hn Hf He].
    + eapply build_alone; [done..|]. intros Hx'. by destruct Hx.
    + by eapply build_nested.
    + by eapply build_alone.
    + eapply build_operator; [exact IHr|done|done|done|by apply inputs_used|done|done|done].
Qed.

(** ** Layers *)

Lemma use_facts lr b : content_use g lr b → sorted_fields b ∧
  (∀ key, names_key k_layer_keys key = true → find_field key b = None) ∧
  (provider (ly_content lr) = None → b = []) ∧
  (is_Some (provider (ly_content lr)) → has_field (lit "$ref") b || has_field (lit "kind") b = true).
Proof.
  unfold content_use. destruct (provider (ly_content lr)) as [body|]; [|intros ->; split_and!; [apply sorted_nil|done..|by intros []]].
  intros Hu. split; [by eapply used_sorted|]. unfold used in Hu. destruct (shared_id g (cb_content body)) as [i|].
  { subst b. split_and!; [|done|done]. intros key Hkey. apply keys_lit in Hkey as (k & -> & Hk). change (get k (reference i) = None). unfold reference.
    rewrite get_put. apply list_elem_of_In in Hk. cbn in Hk. by destruct Hk as [<-|[<-|[<-|[<-|[<-|[<-|[<-|[<-|[]]]]]]]]]. }
  assert (∃ body', Body (cb_content body) body' ∧ ∀ key, names_key k_layer_keys key = true ∨ key = lit "kind" → find_field key b = find_field key body') as (body' & Hb & Hf).
  { destruct Hu as [b Hb|b i Hb|b Hb|b arr Hb]; (eexists; split; [by eapply body_facts; [apply walked|]|try done]).
    all: intros key Hkey; unfold put; rewrite find_set_ne; [done|]; intros <-; destruct Hkey as [Hkey|Hkey]; done. }
  split_and!; [|done|].
  - intros key Hkey. rewrite Hf by (by left). by apply (bd_layer _ _ Hb).
  - intros _. apply orb_true_intro. right. unfold has_field. rewrite Hf by (by right). apply (bd_kind _ _ Hb).
Qed.

Lemma placement_keys lr key : names_key k_layer_keys (lit key) = false → get key (placement_fields lr) = None.
Proof.
  intros Hk. rewrite get_placement.
  assert (∀ k, names_key k_layer_keys (lit k) = true → String.eqb k key = false) as E by (intros k Hk'; apply String.eqb_neq; intros ->; congruence).
  rewrite !E by reflexivity. by rewrite !andb_false_r.
Qed.

Lemma placement_find lr key : names_key k_layer_keys key = false → find_field key (placement_fields lr) = None.
Proof.
  rewrite <- (String.list_ascii_of_string_of_list_ascii key). apply placement_keys.
Qed.

Definition aside_of scope id : fields := default [] (stashed scope id).

Lemma layer_stash_ok id : set_aside (k_layer_keys ++ k_body_keys) layer_allowed (aside_of ScopeLayer id) ∧ stash_sorted (stashed ScopeLayer id).
Proof.
  unfold aside_of. destruct (stashed ScopeLayer id) as [st|] eqn:E; [|split; [split; [apply sorted_nil|done]|done]].
  pose proof (so_layer_stash scene _ _ E) as H. split; [exact H|]. intros st' [= <-]. apply H.
Qed.

(** A layer where everything of it is: its placement, the members of its content, its residual. *)
Lemma find_layer lid lr b key : content_use g lr b →
  find_field key (folded (foldl (λ o f, set_field f.1 f.2 o) (placement_fields lr) b) (stashed ScopeLayer lid)) =
    match match find_field key b with Some v => Some v | None => find_field key (placement_fields lr) end, find_field key (aside_of ScopeLayer lid) with
    | None, s => s
    | Some (JObject k), Some (JObject s) => Some (merge_unknown (JObject k) (JObject s))
    | Some k, _ => Some k
    end.
Proof.
  intros Hu. rewrite find_folded by apply layer_stash_ok. rewrite find_fold, find_reverse by apply (use_facts lr b Hu). done.
Qed.

Lemma layer_read lid lr o : layer_emitted g lid lr o → layer_ok lr →
  ∃ b, content_use g lr b ∧ same_placement lr (parse_layer o) ∧
    (∀ key, names_key (k_layer_keys ++ k_body_keys) key = false → find_field key b = None →
       find_field key (ld_unknown (parse_layer o)) = find_field key (aside_of ScopeLayer lid)) ∧
    match provider (ly_content lr) with
    | None => ld_content_body (parse_layer o) = None
    | Some _ => ∃ o', ld_content_body (parse_layer o) = Some o' ∧ spells b o'
    end.
Proof.
  intros (b & Hu & ->) Hok. exists b. split; [done|]. pose proof (find_layer lid lr b) as Hfind. set (o := folded _ _) in *.
  destruct (use_facts lr b Hu) as (Hbs & Hbl & Hb0 & Hb1). destruct (layer_stash_ok lid) as [Haside Hst].
  assert (sorted_fields o) as Hos.
  { apply folded_sorted. assert (∀ l p, sorted_fields p → sorted_fields (foldl (λ o f, set_field f.1 f.2 o) p l)) as Hf; [|apply Hf, placement_sorted].
    induction l as [|f l IH]; intros p Hp; [done|]. by apply IH, set_sorted. }
  assert (∀ key, names_key k_body_keys (lit key) = true → names_key k_layer_keys (lit key) = false → get key o = find_field (lit key) b) as Hbody.
  { intros key Hk Hl. unfold get. rewrite Hfind by done. rewrite placement_find by done.
    assert (get key (aside_of ScopeLayer lid) = None) as E.
    { eapply aside_none; [done|apply names_key_spec, elem_of_app; right; by apply names_key_spec|]. intros v [[-> _]|[-> _]]; done. }
    unfold get in E. rewrite E. by destruct (find_field (lit key) b) as [[]|]. }
  split; [|split].
  - apply (layer_over lr (aside_of ScopeLayer lid)); [done..|]. intros key Hk. unfold found_over, get. rewrite Hfind by done. by rewrite Hbl.
  - intros key Hk Hn. cbn [parse_layer ld_unknown]. unfold layer_unknown.
    assert (∀ k v x, names_key (k_layer_keys ++ k_body_keys) (lit k) = true → find_field key (put k v x) = find_field key x) as Hput.
    { intros k v x Hkk. unfold put. apply find_set_ne. intros <-. congruence. }
    assert (∀ k sub x, names_key (k_layer_keys ++ k_body_keys) (lit k) = true → find_field key (put_residual k sub x) = find_field key x) as Hres.
    { intros k [|f fs] x Hkk; [done|by apply Hput]. }
    assert (find_field key (residual_fields (k_layer_keys ++ k_body_keys) o) = find_field key (aside_of ScopeLayer lid)) as E.
    { rewrite find_residual, Hk by done. rewrite Hfind, Hn by done. rewrite placement_find; [done|].
      destruct (names_key k_layer_keys key) eqn:El; [|done]. apply layer_key_owned in El. congruence. }
    destruct (get "blend" o), (parse_blend o); by rewrite ?Hput, Hres.
  - cbn [parse_layer ld_content_body]. unfold extract_content_body. unfold has_field in *. fold (get "$ref" o) (get "kind" o).
    rewrite !Hbody by reflexivity. destruct (provider (ly_content lr)) as [body|].
    + rewrite Hb1 by by eexists. eexists. split; [done|]. split; [apply residual_sorted|]. split.
      * intros key v Hv. rewrite find_residual by done. destruct (names_key k_layer_keys key) eqn:El; [rewrite Hbl in Hv; done|]. rewrite Hfind, Hv by done.
        destruct v as [k| | | | | |]; [|eexists; split; [done|apply rtc_refl]..].
        destruct (find_field key (aside_of ScopeLayer lid)) as [[s| | | | | |]|]; [|eexists; split; [done|apply rtc_refl]..].
        eexists. split; [done|]. apply rtc_once. by eexists.
      * intros key Hkey. apply keys_lit in Hkey as (k & -> & Hk). rewrite find_residual by done.
        assert (names_key k_layer_keys (lit k) = false ∧ names_key k_body_keys (lit k) = true) as [E1 E2].
        { apply list_elem_of_In in Hk. cbn in Hk. by destruct Hk as [<-|[<-|[<-|[<-|[<-|[<-|[]]]]]]]. }
        rewrite E1. by apply Hbody.
    + by rewrite Hb0.
Qed.

(** A layer of the document and what it loads as: the same placement, a copy of its content,
    and its residual, but for members its content writes over. *)
Definition layer_copied s (p : Z * LayerRecord) (x : LayerData * option SunkContent) : Prop :=
  same_placement p.2 x.1 ∧
  (∃ b, content_use g p.2 b ∧ ∀ key, names_key (k_layer_keys ++ k_body_keys) key = false → find_field key b = None →
     find_field key (ld_unknown x.1) = find_field key (aside_of ScopeLayer p.1)) ∧
  match provider (ly_content p.2), x.2 with
  | None, None => True
  | Some body, Some sunk => linked s (cb_content body) (sk_live sunk) ∧ copy s (cb_content body) (sk_live sunk)
  | _, _ => False
  end.

Lemma layer_copied_later s s' p x : later s s' → layer_copied s p x → layer_copied s' p x.
Proof.
  intros [Hh Hc Ha _ _] (H1 & H2 & H3). split_and!; [done..|]. destruct (provider _), x.2; try done. destruct H3 as [H3 H4].
  split; [by eapply linked_later|by eapply copy_later].
Qed.

Lemma layers_copied fuel cid os s :
  Forall2 (λ p o, layer_emitted g p.1 p.2 o) (layers_found cid) os → Sound s → rd_in_progress s = ∅ →
  fine (resolve_layers params_ctx registered codecs comps contents fuel true (map parse_layer os) s)
    (λ s' cs, Sound s' ∧ later s s' ∧ length cs = length os ∧ Forall2 (layer_copied s') (layers_found cid) (zip (map parse_layer os) cs)).
Proof.
  assert (∀ p, p ∈ layers_found cid → layer_ok p.2) as Hok.
  { intros p Hp. unfold layers_found in Hp. apply list_elem_of_omap in Hp as (lid & _ & Hl). destruct (dr_find_layer doc lid) as [lr|] eqn:E; [|done].
    injection Hl as <-. by eapply so_layer. }
  intros Hf. revert s Hok. induction Hf as [|[lid lr] o ps os Ho Hf IH]; intros s Hok Hs Hi; [split_and!; [done..|constructor]|].
  cbn [map resolve_layers]. destruct (layer_read lid lr o Ho (Hok (lid, lr) ltac:(left))) as (b & Hu & Hsame & Hunk & Hbody). cbn [fst snd] in *.
  apply fine_bind. apply (fine_impl _ (λ s1 x, Sound s1 ∧ later s s1 ∧ layer_copied s1 (lid, lr) (parse_layer o, x))).
  - intros s1 c (Hs1 & Hl1 & Hc1). apply fine_bind. eapply fine_impl; [|apply IH; [intros p Hp; apply Hok; by right|done|by rewrite (lt_open _ _ Hl1)]].
    intros s2 cs (Hs2 & Hl2 & Hlen & Hcs). cbn [fine mret ST_ret]. split; [done|]. split; [by eapply later_trans|]. split; [cbn; by rewrite Hlen|].
    constructor; [by eapply layer_copied_later|done].
  - unfold layer_copied. cbn [fst snd]. unfold content_use in Hu. destruct (provider (ly_content lr)) as [body|] eqn:Ep.
    + destruct Hbody as (o' & -> & Ho'). apply fine_bind. eapply fine_impl; [|eapply (proj1 (contents_copied fuel)); [exact Hu|exact Ho'|done|]].
      * intros s1 sunk (Hs1 & Hl1 & Hk & Hc). cbn [fine mret ST_ret]. split_and!; [done|done|done| |done|done]. exists b. unfold content_use. rewrite Ep. done.
      * intros key Hkey. rewrite Hi in Hkey. by apply elem_of_empty in Hkey.
    + rewrite Hbody. cbn [fine mret ST_ret]. split_and!; [done|done|done| |done]. exists b. unfold content_use. rewrite Ep. done.
Qed.

(** ** Compositions *)

Lemma composition_stash_ok id : set_aside k_composition_keys composition_allowed (aside_of ScopeComposition id) ∧ stash_sorted (stashed ScopeComposition id).
Proof.
  unfold aside_of. destruct (stashed ScopeComposition id) as [st|] eqn:E; [|split; [split; [apply sorted_nil|done]|done]].
  pose proof (so_composition_stash scene _ _ E) as H. split; [exact H|]. intros st' [= <-]. apply H.
Qed.

Lemma composition_keys cp vs key : names_key k_composition_keys key = false → find_field key (composition_fields cp vs) = None.
Proof.
  rewrite <- (String.list_ascii_of_string_of_list_ascii key). generalize (String.string_of_list_ascii key). intros k Hk.
  change (names_key k_composition_keys (lit k) = false) in Hk. change (get k (composition_fields cp vs) = None). rewrite get_composition.
  assert (∀ k', names_key k_composition_keys (lit k') = true → String.eqb k' k = false) as E by (intros k' Hk'; apply String.eqb_neq; intros ->; congruence).
  rewrite !E by reflexivity. by rewrite !andb_false_r.
Qed.

Lemma unknown_kept o key : sorted_fields o → names_key k_composition_keys key = false →
  find_field key (cd_unknown (parse_composition o)) = find_field key o.
Proof.
  intros Ho Hk. unfold parse_composition. destruct (match get "canvas" o with Some _ => _ | None => _ end) as [w h]. cbn [cd_unknown].
  assert (∀ k sub x, names_key k_composition_keys (lit k) = true → find_field key (put_residual k sub x) = find_field key x) as Hres.
  { intros k [|f fs] x Hkk; [done|]. unfold put_residual, put. apply find_set_ne. intros <-. congruence. }
  rewrite !Hres by reflexivity. by rewrite find_residual, Hk.
Qed.

Lemma composition_read q o : comp_emitted g q o → composition_ok q.2 →
  same_composition q.2 (parse_composition o) ∧
  (∀ key, names_key k_composition_keys key = false → find_field key (cd_unknown (parse_composition o)) = find_field key (aside_of ScopeComposition q.1)) ∧
  ∃ os, cd_layers (parse_composition o) = map parse_layer os ∧ Forall2 (λ p o, layer_emitted g p.1 p.2 o) (layers_found q.1) os.
Proof.
  intros (vs & Hvs & ->) Hok. destruct (composition_stash_ok q.1) as [Haside Hst].
  destruct (composition_over q.2 vs (aside_of ScopeComposition q.1) (folded (composition_fields q.2 vs) (stashed ScopeComposition q.1)) Hok Haside) as [Hsame Hl].
  { intros key Hk. unfold found_over, get. by rewrite find_folded. }
  split; [done|]. split.
  - intros key Hk. rewrite unknown_kept, find_folded by (done || apply folded_sorted, composition_sorted). by rewrite composition_keys.
  - rewrite Hl. exists (layer_members vs). split; [done|]. clear Hl Hsame. unfold layers_emitted in Hvs. induction Hvs as [|p v ps vs (o & -> & Ho) _ IH]; [constructor|].
    cbn. by constructor.
Qed.

(** A composition of the document and what it loads as. *)
Definition comp_copied s (q : Z * CompositionRecord) (rc : ResolvedComp) : Prop :=
  same_composition q.2 (rc_data rc) ∧
  (∀ key, names_key k_composition_keys key = false → find_field key (cd_unknown (rc_data rc)) = find_field key (aside_of ScopeComposition q.1)) ∧
  length (rc_contents rc) = length (cd_layers (rc_data rc)) ∧
  Forall2 (layer_copied s) (layers_found q.1) (zip (cd_layers (rc_data rc)) (rc_contents rc)).

(** The composition met as [p] is loaded as [rc]. *)
Definition met_copied s (p : Z * fields) (rc : ResolvedComp) : Prop :=
  rc_id rc = p.1 ∧ ∃ i q, rd_allocated s !! ordinal i = Some p.1 ∧ g_comps g !! i = Some q ∧ comp_copied s q rc.

Lemma met_copied_later s s' p rc : later s s' → met_copied s p rc → met_copied s' p rc.
Proof.
  intros Hl (Hid & i & q & Ha & Hq & H1 & H2 & H3 & H4). split; [done|]. exists i, q. split; [eapply lookup_weaken; [done|apply Hl]|]. split; [done|].
  split_and!; [done..|]. eapply Forall2_impl; [exact H4|]. intros ??. by apply layer_copied_later.
Qed.

Lemma compositions_copied rounds fuel i s : Sound s → rd_in_progress s = ∅ →
  fine (resolve_compositions params_ctx registered codecs comps contents rounds fuel true i s)
    (λ s' rcs, Sound s' ∧ later s s' ∧ Forall2 (met_copied s') (drop i (rd_pending s')) rcs).
Proof.
  revert i s. induction rounds as [|rounds IH]; intros i s Hs Hi; cbn [resolve_compositions]; (destruct (rd_pending s !! i) as [[id body]|] eqn:Ei;
    [|cbn [fine]; split_and!; [done..|]; apply lookup_ge_None in Ei; rewrite drop_ge by done; constructor]); [done|].
  destruct (sd_pending _ Hs (id, body)) as (j & q & Hj & Hq & Hem); [by eapply list_elem_of_lookup_2|]. cbn [fst snd] in *.
  destruct (composition_read q body Hem) as (Hsame & Hunk & os & Hos & Hf); [eapply (so_composition scene), (wk_read _ walked), Hq|].
  rewrite Hos. apply fine_bind. eapply fine_impl; [|by eapply layers_copied]. intros s1 cs (Hs1 & Hl1 & Hlen & Hcs).
  apply fine_bind. eapply fine_impl; [|apply IH; [done|by rewrite (lt_open _ _ Hl1)]]. intros s2 rcs (Hs2 & Hl2 & Hr). cbn [fine mret ST_ret].
  assert (later s s2) as Hl by (by eapply later_trans). split; [done|]. split; [done|].
  assert (rd_pending s2 !! i = Some (id, body)) as Ei2 by (eapply prefix_lookup_Some; [exact Ei|apply Hl]).
  rewrite (drop_S _ _ _ Ei2). constructor; [|done]. split; [done|]. exists j, q. split; [eapply lookup_weaken; [exact Hj|apply Hl]|]. split; [done|].
  unfold comp_copied. cbn [rc_data rc_contents]. rewrite Hos. split_and!; [done|done|by rewrite length_map|].
  eapply Forall2_impl; [exact Hcs|]. intros ??. by apply layer_copied_later.
Qed.
End reading.

(** ** The whole document *)

Definition stored (storage : PixelFormat) : option PixelFormat :=
  match storage with Rgba16fLinearPremul => None | Rgba32fLinearPremul => Some Rgba32fLinearPremul | _ => Some Rgba16fLinearPremul end.

Notation save := (serialize_document doc node provider meta codecs unknown wild_cast).
Notation load := (read_document params_ctx registered codecs).

Lemma arbc_read storage arbc : 
  (get "format" arbc = get "format" (envelope (Some storage)) ∧ get "storage_format" arbc = get "storage_format" (envelope (Some storage))) →
  ∀ root, get "arbc" root = Some (JObject arbc) → parse_document (Some (JObject root)) = Ok root ∧ apply_storage_format root = Ok (stored storage).
Proof.
  intros [Hf Hs] root Hr. unfold parse_document, apply_storage_format. rewrite Hr, Hf, Hs. unfold envelope. rewrite !get_put_if, !get_put, get_nil.
  cbn [String.eqb Ascii.eqb Bool.eqb]. rewrite andb_false_r. split; [done|]. by destruct storage.
Qed.

(** The root of the file, the residual of the document folded in. *)
Lemma root_read storage written root : get "arbc" written = Some (JObject (envelope (Some storage))) →
  root = folded written (stashed ScopeDocument 0) →
  parse_document (Some (JObject root)) = Ok root ∧ apply_storage_format root = Ok (stored storage) ∧
  ∀ key, names_key k_root_keys (lit key) = true → key ≠ "arbc"%string → get key root = get key written.
Proof.
  intros Hw ->. assert (set_aside k_root_keys document_allowed (aside_of ScopeDocument 0) ∧ stash_sorted (stashed ScopeDocument 0)) as [Ha Hst].
  { unfold aside_of. destruct (stashed ScopeDocument 0) as [st|] eqn:E; [|split; [split; [apply sorted_nil|done]|done]].
    pose proof (so_document_stash scene _ _ E) as H. split; [exact H|]. intros st' [= <-]. apply H. }
  assert (∀ key, found_over (aside_of ScopeDocument 0) written (folded written (stashed ScopeDocument 0)) key) as Hf.
  { intros key. unfold found_over, get. by rewrite find_folded. }
  assert (∃ arbc, get "arbc" (folded written (stashed ScopeDocument 0)) = Some (JObject arbc) ∧
    ∀ k, names_key k_envelope_keys (lit k) = true → get k arbc = get k (envelope (Some storage))) as (arbc & Harbc & Hk).
  { destruct (found_inner _ _ _ _ k_envelope_keys (Hf "arbc"%string)) as [E|[(x & y & Ex & Ey & E)|(En & _)]].
    - intros v Hv. destruct Ha as [_ Ha]. by apply Ha in Hv as [_ Hv].
    - exists (envelope (Some storage)). by rewrite E, Hw.
    - exists y. rewrite Ex in Hw. injection Hw as ->. done.
    - congruence. }
  destruct (arbc_read storage arbc (conj (Hk "format"%string eq_refl) (Hk "storage_format"%string eq_refl)) _ Harbc) as [H1 H2].
  split_and!; [done..|]. intros key Hkey Hne. eapply found_plain; [done|]. eapply aside_none; [done..|]. by intros v [? _].
Qed.

(** The state a load starts in: contents already built left where they are. *)
Definition opening (s : Reading L LC) : Prop :=
  (∀ h n, rd_heap s !! h = Some n → (h < rd_next_handle s)%nat) ∧ rd_cache s = ∅ ∧ rd_allocated s = ∅ ∧ rd_pending s = [] ∧ rd_in_progress s = ∅.

Lemma opening_sound g first body seeded (s s' : Reading L LC) id : g_comps g !! 0%nat = Some first → comp_emitted g first body →
  opening s → ready (rd_ctx s) → (seeded = 0 ∨ seeded < rd_next_id s) → add_root body seeded s = (s', Ok id) →
  Sound g s' ∧ rd_in_progress s' = ∅ ∧ rd_pending s' = [(id, body)] ∧ rd_heap s' = rd_heap s ∧ rd_allocated s' !! ordinal 0 = Some id.
Proof.
  intros Hg Hem (Hh & Hc & Ha & Hp & Hi) Hr Hseed. unfold add_root. intros [= <- <-]. rewrite Ha, Hp. cbn [app].
  set (id := if seeded =? 0 then rd_next_id s else seeded). set (next := if seeded =? 0 then rd_next_id s + 1 else rd_next_id s).
  assert (id < next) as Hlt by (unfold id, next; destruct (Z.eqb_spec seeded 0); lia).
  split; [|by split_and!; [cbn; rewrite Hi| | |apply lookup_insert_eq]].
  assert (∀ key z, <[lit "0" := id]> (∅ : gmap str Z) !! key = Some z → key = ordinal 0 ∧ z = id) as Hone.
  { intros key z Hk. apply lookup_insert_Some in Hk as [[<- <-]|[_ Hk]]; [done|by rewrite lookup_empty in Hk]. }
  constructor; cbn [with_ids rd_ctx rd_heap rd_next_handle rd_cache rd_in_progress rd_allocated rd_next_id rd_pending]; try done.
  - intros key sunk Hk. by rewrite Hc, lookup_empty in Hk.
  - intros key Hk. rewrite Hi in Hk. by apply elem_of_empty in Hk.
  - intros key z Hk. destruct (Hone _ _ Hk) as [-> ->]. split; [done|]. split; [exists body; by left|by exists 0%nat].
  - apply NoDup_singleton.
  - intros k1 k2 z H1 H2. destruct (Hone _ _ H1) as [-> _], (Hone _ _ H2) as [-> _]. done.
  - intros p Hin. apply list_elem_of_singleton in Hin as ->. exists 0%nat, first. split; [apply lookup_insert_eq|done].
Qed.

(** What was saved is there: the root first, every composition once, each a copy of the one at
    its place in the file, and every composition named in the file among them. *)
Definition document_copied g (s : Reading L LC) (loaded : DocumentGraph) : Prop :=
  (rc_id <$> head (dg_comps loaded) = Some (dg_root loaded)) ∧ rd_allocated s !! ordinal 0 = Some (dg_root loaded) ∧
  NoDup (map rc_id (dg_comps loaded)) ∧
  (∀ rc, rc ∈ dg_comps loaded → ∃ i q, rd_allocated s !! ordinal i = Some (rc_id rc) ∧ g_comps g !! i = Some q ∧ comp_copied g s q rc) ∧
  (∀ i id, rd_allocated s !! ordinal i = Some id → ∃ rc, rc ∈ dg_comps loaded ∧ rc_id rc = id).

Lemma pending_copied g s rcs id body rest : Sound g s → rd_pending s = (id, body) :: rest → rd_allocated s !! ordinal 0 = Some id →
  Forall2 (met_copied g s) (rd_pending s) rcs → document_copied g s (mkDocument id rcs).
Proof.
  intros Hs Hp Ha Hf. assert (map rc_id rcs = map fst (rd_pending s)) as Eids.
  { symmetry. clear -Hf. induction Hf as [|p rc ps rcs [E _] _ IH]; [done|]. cbn [map]. by rewrite E, IH. }
  unfold document_copied. cbn [dg_comps dg_root]. split_and!.
  - rewrite Hp in Hf. inversion Hf as [|? rc ? ? [E _] _]; subst. cbn. by rewrite E.
  - done.
  - rewrite Eids. apply Hs.
  - intros rc Hrc. apply list_elem_of_lookup_1 in Hrc as [j Hj]. eapply Forall2_lookup_r in Hf as (p & _ & Hid & i & q & H1 & H2 & H3); [|done].
    exists i, q. by rewrite Hid.
  - intros i z Hz. destruct (sd_ids _ _ Hs _ _ Hz) as (_ & (b & Hb) & _). apply list_elem_of_lookup_1 in Hb as [j Hj].
    eapply Forall2_lookup_l in Hf as (rc & Hrc & Hid & _); [|done]. exists rc. split; [by eapply list_elem_of_lookup_2|done].
Qed.

(** Reading the graph of a file that was saved. *)
Lemma graph_read g first root o0 comps contents rounds fuel seeded s :
  Walked g → g_comps g !! 0%nat = Some first → Tables g comps contents → comp_emitted g first o0 →
  get "composition" root = Some (JObject o0) → table_at root "compositions" comps → table_at root "contents" contents →
  opening s → ready (rd_ctx s) → (seeded = 0 ∨ seeded < rd_next_id s) →
  fine (resolve_graph params_ctx registered codecs rounds fuel true seeded root s)
    (λ s' loaded, document_copied g s' loaded ∧ rd_heap s ⊆ rd_heap s').
Proof.
  intros Hw H0 Ht Hem Hr Hk Hc Ho Hready Hseed. unfold resolve_graph.
  assert (∀ key t (s : Reading L LC), table_at root key t → table_of root key s = (s, Ok t)) as Htable.
  { unfold table_at, table_of. intros key t s0 E. rewrite E. by destruct t. }
  apply fine_bind. rewrite (Htable _ (Some o0)) by exact Hr. cbn [fine]. apply fine_bind. rewrite (Htable _ comps) by exact Hk. cbn [fine].
  apply fine_bind. assert (match comps with Some table => if has_field (lit "0") table then fail MalformedField (lit "/compositions/0") else mret () | None => mret () end s
    = (s, Ok ())) as ->.
  { pose proof (tb_root _ _ _ Ht) as E. destruct comps as [table|]; [|done]. unfold has_field. cbn [mbind option_bind] in E. rewrite E. by rewrite bool_decide_false by (by intros [? ?]). }
  cbn [fine]. apply fine_bind. rewrite (Htable _ contents) by exact Hc. cbn [fine]. apply fine_bind. cbn [fine st_modify].
  set (s1 := with_staged _ s). apply fine_bind. destruct (add_root o0 seeded s1) as [s2 [id|e]] eqn:Ea; [|done]. cbn [fine].
  destruct (opening_sound g first o0 seeded s1 s2 id H0 Hem Ho Hready Hseed Ea) as (Hs & Hi & Hp & Hh & Hal).
  apply fine_bind. eapply fine_impl; [|by eapply compositions_copied]. intros s3 rcs (Hs3 & Hl & Hf). cbn [fine mret ST_ret].
  destruct (lt_pending _ _ Hl) as [rest Hrest]. rewrite Hp in Hrest. cbn [app drop] in *. split.
  - eapply pending_copied; [done|exact Hrest| |exact Hf]. eapply lookup_weaken; [exact Hal|apply Hl].
  - change (rd_heap s) with (rd_heap s1). rewrite <- Hh. apply Hl.
Qed.

End roundtrip.

(** ** A document with everything in it *)

Module FormatDemo.
Definition half : double := S754_finite false 4503599627370496 (-53).
Definition extent : double := binary_normalize 53 1024 640 0 false.

(** Contents: a tone, an operator fed by it, two that nest compositions, a foreign one. *)
Definition scene_node (h : Handle) : Node Z :=
  match h with
  | 1%nat => mkNode (Live 5) [] 0 []
  | 2%nat => mkNode (Live 7) [] 0 [Some 1%nat]
  | 3%nat => mkNode (Live 9) [] 20 []
  | 4%nat => mkNode (Placeholder [member "kind" (JString (lit "org.other")); member "zoom" (JInt 3)] false) [] 0 []
  | 5%nat => mkNode (Live 4) [] 10 []
  | _ => mkNode (Live 0) [] 0 []
  end.

Definition tone_codec : Codec Z unit unit :=
  mkCodec
    (Some (λ n ctx, (ctx, match n_state n with Live z => Ok (JObject [member "v" (JInt z)]) | _ => Err (mkSerializeError CodecFailed 0) end)))
    (Some (λ params inputs composition ctx,
       (ctx, match get "v" params with Some (JInt z) => Ok (mkNode (Live z) [] composition inputs) | _ => read_fail MalformedField "/v" end))).

Definition tones : CodecTable Z unit unit := {[ lit "tone" := tone_codec ]}.
Definition scene_provider (cid : Z) : option ContentBody :=
  if (101 <=? cid) && (cid <=? 105) then Some (mkBody (lit (if cid =? 104 then "" else "tone")) (lit "1") (Z.to_nat (cid - 100))) else None.
Definition scene_meta (h : Handle) : option ContentMeta := Some (mkMeta (lit "tone") (lit "1") (100 + Z.of_nat h)).
Definition scene_composition : CompositionRecord := new_composition extent d_one.
Definition scene_layer (content : Z) : LayerRecord := new_layer content Affine_identity half.

(** The root holds the tone, the operator, a nested composition and the foreign content; the
    nested one holds the tone again, and the root inside itself. *)
Definition scene_doc : DocReads :=
  mkReads (Some (10, scene_composition)) (λ cid, if (cid =? 10) || (cid =? 20) then Some scene_composition else None)
    (λ cid, if cid =? 10 then [11; 12; 13; 14] else if cid =? 20 then [21; 25] else [])
    (λ lid, if (11 <=? lid) && (lid <=? 14) then Some (scene_layer (90 + lid)) else if lid =? 21 then Some (scene_layer 101)
            else if lid =? 25 then Some (scene_layer 105) else None).

Definition scene_unknown : UnknownFieldStore := {[ (ScopeLayer, 11) := [member "note" (JBool true)] ]}.

Definition scene_saved : unit * expected (Stop SerializeError) json :=
  serialize_document scene_doc scene_node scene_provider scene_meta tones (Some scene_unknown) (λ _, 0) 8 4 (Some Rgba32fLinearPremul) tt.
Definition scene_file : json := match scene_saved.2 with Ok v => v | Err _ => JNull end.
Definition scene_start : Reading Z unit := mkReading ∅ 0%nat 1 ∅ [] ∅ ∅ ∅ tt ∅ ∅.
Definition scene_load : Reading Z unit * expected (Stop ReaderError) (DocumentGraph * option PixelFormat) :=
  read_document (λ _, tt) (λ _, false) tones (λ _ _, tt) 4 200 true 0 (Some scene_file) scene_start.
Definition scene_loaded : option (list (Z * list (option SunkContent))) :=
  match scene_load.2 with Ok (g, _) => Some (map (λ rc, (rc_id rc, rc_contents rc)) (dg_comps g)) | Err _ => None end.


Lemma scene_laws : CodecLaws tones scene_node scene_provider scene_meta (Some scene_unknown) eq (λ _, True).
Proof.
  assert (∀ kind s, serializer tones kind = Some s → kind = lit "tone" ∧ Some s = cd_serialize tone_codec) as Hs.
  { intros kind s H. unfold serializer, tones in H. destruct (decide (kind = lit "tone")) as [->|Hne]; [by rewrite lookup_singleton_eq in H|].
    by rewrite lookup_singleton_ne in H. }
  constructor; [by vm_compute| |].
  - intros kind serialize c ctx ctx' v H E. apply Hs in H as [_ [= ->]]. cbn in E. destruct (n_state (scene_node c)) as [|z]; [done|].
    injection E as _ <-. exists [member "v" (JInt z)]. split; [done|]. repeat constructor.
  - intros c m serialize ctx ctx' params z Ht H Hn E. apply Hs in H as [Hk [= ->]]. cbn in E. rewrite Hn in E. injection E as _ <-.
    rewrite Hk. eexists. split; [by vm_compute|]. intros inputs composition lctx written _ Hw.
    assert (stashed_params (Some scene_unknown) (cm_id m) = []) as Hp.
    { unfold stashed_params, stashed, store_find, scene_unknown. cbn [mbind option_bind]. by rewrite lookup_singleton_ne. }
    rewrite Hp in Hw. injection Hw as ->. exists lctx. eexists _, z. cbn beta. split; [reflexivity|]. cbn [n_state n_external n_inputs n_composition].
    assert (n_external (scene_node c) = []) as -> by (by destruct c as [|[|[|[|[|[]]]]]]). done.
Qed.

Lemma scene_ok : SceneOk tones scene_doc scene_node (Some scene_unknown).
Proof.
  assert (∀ scope id st, stashed (Some scene_unknown) scope id = Some st → scope = ScopeLayer ∧ st = [member "note" (JBool true)]) as Hst.
  { intros scope id st H. unfold stashed, store_find, scene_unknown in H. cbn [mbind option_bind] in H. apply lookup_singleton_Some in H as [[= <- <-] <-]. done. }
  constructor.
  - intros cid comp [= <- <-]. done.
  - intros cid comp H. cbn in H. destruct (_ || _); [|done]. injection H as <-. vm_compute. repeat split; done.
  - intros lid lr H. assert (∃ content, lr = scene_layer content) as [content ->].
    { cbn in H. repeat case_match; simplify_eq; by eexists. }
    split; [by vm_compute|]. split; [by vm_compute|]. split; [by vm_compute|]. split; [by vm_compute|]. by exists Normal.
  - intros c. destruct c as [|[|[|[|[|[]]]]]]; set_solver.
  - assert (∀ c d, feeds scene_node c d → (d < c)%nat) as Hlt.
    { intros c d [_ Hd]. destruct c as [|[|[|[|[|[]]]]]]; cbn in Hd; try by apply elem_of_nil in Hd. apply list_elem_of_singleton in Hd as [= ->]. lia. }
    intros c Hc. assert (∀ c d, tc (feeds scene_node) c d → (d < c)%nat) as Ht; [|apply Ht in Hc; lia].
    clear Hc. intros a b H. induction H as [a b H|a b d H _ IH]; [by apply Hlt|]. apply Hlt in H. lia.
  - intros c body r H. assert (c = 4%nat) as -> by (by destruct c as [|[|[|[|[|[]]]]]]). injection H as <- <-. split; [|done].
    split; [repeat constructor|]. split; [by exists (lit "org.other"); vm_compute|]. split; [by left|]. split_and!; [done..|].
    intros key Hkey. apply keys_lit in Hkey as (k & -> & Hk). apply list_elem_of_In in Hk. cbn in Hk. by repeat destruct Hk as [<-|Hk].
  - intros id st H. by apply Hst in H as [? _].
  - intros id st H. by apply Hst in H as [? _].
  - intros id st H. apply Hst in H as [_ ->]. split; [repeat constructor|]. intros key v Hkey Hv. exfalso.
    unfold get, member in Hv. rewrite find_cons in Hv. destruct (decide (lit "note" = lit key)) as [E|]; [|done]. by rewrite <- E in Hkey.
  - intros id st H. by apply Hst in H as [? _].
Qed.
End FormatDemo.


