(* ===== verification/DocumentInstall.v ===== *)
(** * Installing a loaded document ([src/src/serialize/reader.cpp])

    [install_graph] writes the graph a load resolved into a transaction of the model:
    compositions under the ids they were promised, layers in order, the fields a file spells
    out, and the residuals under the ids the layers get.  What was loaded is what the readers
    of the version then see ([graph_installed]). *)

From S2P Require Import Prelude RationalTime SlotStore Geometry Uri Json SceneFormat Identity Records Transaction DocRoot Membership DocumentReader.
From Stdlib Require Import SpecFloat.
Local Open Scope Z_scope.

#[export] Instance BlendMode_eq_dec : EqDecision BlendMode.
Proof. solve_decision. Defined.

(** ** The installation *)

Section install.
Context {S : Type} `{!ObjectStore S}.
Implicit Types (t : Txn S).

(** The transaction, and the residuals staged so far. *)
Definition Installing : Type := Txn S * UnknownFieldStore.

Definition edit_if (b : bool) (f : Txn S → Txn S) t : Txn S := if b then f t else t.

(** The fields that are left out of a file when they have their default. *)
Definition place_layer (lid : ObjectId) (ld : LayerData) t : Txn S :=
  let t := edit_if (negb (bool_decide (ld_blend ld = Normal))) (set_blend lid (ld_blend ld)) t in
  let t := edit_if (negb (SFeqb (ld_gain ld) d_one)) (set_gain lid (ld_gain ld)) t in
  let t := edit_if (negb (ld_visible ld)) (set_visible lid false) t in
  let t := edit_if (negb (ld_audible ld)) (set_audible lid false) t in
  let t := edit_if (negb (bool_decide (ld_span ld = TimeRange_all))) (set_span lid (ld_span ld)) t in
  edit_if (negb (bool_decide (ld_time_map ld = TimeMap_identity))) (set_time_map lid (ld_time_map ld)) t.

Definition content_of (sunk : option SunkContent) : ObjectId := match sunk with Some sunk => sk_id sunk | None => 0 end.

Definition install_layer (cid : ObjectId) (x : LayerData * option SunkContent) (i : Installing) : Installing :=
  let '(t, lid) := add_layer (content_of x.2) (ld_transform x.1) (ld_opacity x.1) i.1 in
  (append_layer cid lid (place_layer lid x.1 t), store_set ScopeLayer lid (ld_unknown x.1) i.2).

Definition composition_formats (cid : ObjectId) (cd : CompData) t : Txn S :=
  let t := match cd_working_space cd with Some format => set_working_space cid format t | None => t end in
  match cd_working_audio_format cd with Some format => set_working_audio_format cid format t | None => t end.

Definition comp_layers (rc : ResolvedComp) : list (LayerData * option SunkContent) := zip (cd_layers (rc_data rc)) (rc_contents rc).

Definition install_composition (rc : ResolvedComp) (i : Installing) : Installing :=
  let cd := rc_data rc in
  let '(t, cid) := add_composition_at (rc_id rc) (cd_canvas_w cd) (cd_canvas_h cd) i.1 in
  foldl (λ i x, install_layer cid x i)
    (composition_formats cid cd t, store_set ScopeComposition cid (cd_unknown cd) i.2) (comp_layers rc).

Definition install_graph (comps : list ResolvedComp) (i : Installing) : Installing := foldl (λ i rc, install_composition rc i) i comps.
End install.

(** ** One edit at a time, over the map *)

Section edits.
Implicit Types (t : Txn doc) (m : doc) (n : Z) (A : arrangement).

(** A transaction under way: its status, its map and its counters. *)
Record underway A m n pub t : Prop := {
  un_status : tx_status t = Ok tt;
  un_arranged : arranged A m n;
  un_store : tx_store t = m;
  un_next : tx_next_id t = n;
  un_publish : tx_publish t = pub }.

Lemma underway_moved A m n pub t t' m' n' A' :
  underway A m n pub t → moved t t' m' n' → arranged A' m' n' → underway A' m' n' pub t'.
Proof. intros [H1 _ _ _ H5] [M1 M2 M3 M4] Ar. split; congruence. Qed.

(** A new object under a free id the allocator issued. *)
Lemma insert_underway A m n pub t id a :
  underway A m n pub t → m !! id = None → 0 < id < n → (∀ g m', has_field a g → stores m' a g [] []) →
  does (insert_object id a) t (λ x t', x = id ∧
    underway (λ x g, if bool_decide (x = id) then ([], []) else A x g) (<[id := mkRecord id pub a]> m) n pub t').
Proof.
  intros H Hid Hn Hf. pose proof (ar_counter _ _ _ (un_arranged _ _ _ _ _ H)). unfold insert_object.
  apply does_bind, does_bind_record; [unfold in_u64; lia|]. intros t1 M1. apply does_bind, does_add_damage. intros t2 M2. apply does_ret.
  split; [done|]. pose proof (moved_trans _ _ _ _ _ _ _ M1 M2) as M. destruct M1 as [E1 E2 _ _]. rewrite E1, E2 in M.
  destruct H as [Hs Ar Est En Ep]. rewrite Est, En, Ep in M. eapply underway_moved; [by split|exact M|]. by apply arranged_add.
Qed.

Lemma add_underway A m n pub t a :
  underway A m n pub t → (∀ g m', has_field a g → stores m' a g [] []) →
  does (id ← allocate_id; insert_object id a) t (λ x t', x = n ∧
    underway (λ x g, if bool_decide (x = n) then ([], []) else A x g) (<[n := mkRecord n pub a]> m) (n + 1) pub t').
Proof.
  intros H Hf. pose proof H as [Hs Ar Est En Ep]. pose proof (ar_counter _ _ _ Ar). apply does_bind, does_allocate_id; [lia|].
  intros t1 Hlt M1. rewrite Est, En in *. apply insert_underway; [|destruct (m !! n) as [r|] eqn:E; [|done]; pose proof (ar_ids _ _ _ Ar _ _ E); lia|lia|done].
  eapply underway_moved; [done|exact M1|]. apply (arranged_counter _ _ _ Ar). lia.
Qed.

(** A record overwritten by one with the same lists. *)
Lemma rebind_underway A m n pub t id rev a a' :
  underway A m n pub t → m !! id = Some (mkRecord id rev a) → is_chunk a = false →
  (∀ g, has_field a' g → has_field a g ∧ ∀ m' ids l, stores m' a g ids l → stores m' a' g ids l) →
  does (_ ← bind_record false id id a'; damage_object id) t (λ _ t', underway A (<[id := mkRecord id pub a']> m) n pub t').
Proof.
  intros H Hm Hch Hf. pose proof H as [Hs Ar Est En Ep]. pose proof (ar_counter _ _ _ Ar). pose proof (ar_ids _ _ _ Ar _ _ Hm) as [_ Hid].
  apply does_bind, does_bind_record; [unfold in_u64; lia|]. intros t1 M1. apply does_add_damage. intros t2 M2.
  pose proof (moved_trans _ _ _ _ _ _ _ M1 M2) as M. destruct M1 as [E1 E2 _ _]. rewrite E1, E2, Est, En, Ep in M.
  eapply underway_moved; [done|exact M|]. by eapply (arranged_edit _ _ _ Ar _ _ _ Hm).
Qed.

(** What an edit leaves, or the ids ran out. *)
Definition leaves t' (Q : Txn doc → Prop) : Prop := exhausted t' ∨ Q t'.

Lemma edit_leaves {B} (x : B) (e : Tx doc B) t (Q : Txn doc → Prop) :
  tx_status t = Ok tt → does e t (λ _ t', Q t') → leaves (edit x e t).1 Q.
Proof. intros. by apply edit_does. Qed.

Lemma leaves_exhausted t Q : exhausted t → leaves t Q.
Proof. by left. Qed.

Lemma layer_edited A m n pub t id rev l f :
  underway A m n pub t → m !! id = Some (mkRecord id rev (AsLayer l)) →
  leaves (edit tt (edit_layer f id) t).1 (underway A (<[id := mkRecord id pub (AsLayer (f l))]> m) n pub).
Proof.
  intros H Hm. apply edit_leaves; [apply H|]. unfold edit_layer. apply does_bind, does_find. rewrite (un_store _ _ _ _ _ H), Hm.
  by eapply rebind_underway.
Qed.

Lemma composition_edited A m n pub t id rev c f :
  (∀ x, cp_layer_count (f x) = cp_layer_count x ∧ cp_layers (f x) = cp_layers x ∧ cp_spill_root (f x) = cp_spill_root x) →
  underway A m n pub t → m !! id = Some (mkRecord id rev (AsComposition c)) →
  leaves (edit tt (edit_composition f id) t).1 (underway A (<[id := mkRecord id pub (AsComposition (f c))]> m) n pub).
Proof.
  intros Hf H Hm. apply edit_leaves; [apply H|]. unfold edit_composition. apply does_bind, does_find. rewrite (un_store _ _ _ _ _ H), Hm.
  eapply rebind_underway; [done|exact Hm|done|]. intros g Hg. split; [by destruct g|]. intros m' ids l. destruct g; [|done].
  cbn [stores]. unfold stores_members. by destruct (Hf c) as (-> & -> & ->).
Qed.
End edits.

(** ** A layer *)

(** The record a loaded layer gets. *)
Definition placed (content : ObjectId) (ld : LayerData) : LayerRecord :=
  let l := new_layer content (ld_transform ld) (ld_opacity ld) in
  let l := if negb (bool_decide (ld_blend ld = Normal)) then layer_flags (set_blend_bits (ld_blend ld) (ly_flags l)) l else l in
  let l := if negb (SFeqb (ld_gain ld) d_one) then layer_gain (ld_gain ld) l else l in
  let l := if negb (ld_visible ld) then layer_flags (set_flag k_layer_visible false (ly_flags l)) l else l in
  let l := if negb (ld_audible ld) then layer_flags (set_flag k_layer_audible false (ly_flags l)) l else l in
  let l := if negb (bool_decide (ld_span ld = TimeRange_all)) then layer_span (ld_span ld) l else l in
  if negb (bool_decide (ld_time_map ld = TimeMap_identity)) then layer_time_map (ld_time_map ld) l else l.

(** Its flag word: shown and heard unless told otherwise, the mode in its bits. *)
Definition placed_flags (bl : BlendMode) (vis aud : bool) : Z :=
  let f := Z.lor k_layer_visible k_layer_audible in
  let f := if negb (bool_decide (bl = Normal)) then set_blend_bits bl f else f in
  let f := if negb vis then set_flag k_layer_visible false f else f in
  if negb aud then set_flag k_layer_audible false f else f.

Lemma placed_flags_spec bl vis aud l : ly_flags l = placed_flags bl vis aud → visible l = vis ∧ blend l = blend_code bl ∧ audible l = aud.
Proof. intros E. unfold visible, blend, audible. rewrite E. destruct bl, vis, aud; vm_compute; done. Qed.

Lemma placed_has_flags content ld : ly_flags (placed content ld) = placed_flags (ld_blend ld) (ld_visible ld) (ld_audible ld).
Proof.
  unfold placed, placed_flags. set (f := Z.lor _ _). set (blended := negb (bool_decide (ld_blend ld = Normal))).
  destruct blended, (negb (SFeqb _ _)), (negb (ld_visible ld)), (negb (ld_audible ld)), (negb (bool_decide (ld_span ld = _))), (negb (bool_decide (ld_time_map ld = _)));
    reflexivity.
Qed.

Lemma placed_same content ld : ly_content (placed content ld) = content ∧ same_placement (placed content ld) ld.
Proof.
  destruct (placed_flags_spec _ _ _ _ (placed_has_flags content ld)) as (Ev & Eb & Ea). unfold same_placement. rewrite Ev, Eb, Ea.
  clear Ev Eb Ea. unfold placed. set (blended := negb (bool_decide (ld_blend ld = Normal))).
  pose proof (eq_one (ld_gain ld)) as Hg. destruct (bool_decide_reflect (ld_span ld = TimeRange_all)) as [Es|_], (bool_decide_reflect (ld_time_map ld = TimeMap_identity)) as [Et|_];
  destruct blended, (SFeqb (ld_gain ld) d_one), (negb (ld_visible ld)), (negb (ld_audible ld)); cbn [negb];
    (split; [reflexivity|split_and!; cbn; rewrite ?Es, ?Et; first [reflexivity|by apply Hg]]).
Qed.

Section layers.
Implicit Types (t : Txn doc) (m : doc) (A : arrangement).

Lemma place_if A m n pub lid l (b : bool) f t :
  leaves t (underway A (<[lid := mkRecord lid pub (AsLayer l)]> m) n pub) →
  leaves (edit_if b (λ t, (edit tt (edit_layer f lid) t).1) t) (underway A (<[lid := mkRecord lid pub (AsLayer (if b then f l else l))]> m) n pub).
Proof.
  destruct b; [|done]. unfold edit_if. intros [E|H]; [left; by rewrite edit_exhausted|].
  pose proof (layer_edited _ _ _ _ _ lid pub l f H (lookup_insert_eq _ _ _)) as H'. by rewrite insert_insert_eq in H'.
Qed.

Lemma layer_placed A m n pub lid content ld t :
  leaves t (underway A (<[lid := mkRecord lid pub (AsLayer (new_layer content (ld_transform ld) (ld_opacity ld)))]> m) n pub) →
  leaves (place_layer lid ld t) (underway A (<[lid := mkRecord lid pub (AsLayer (placed content ld))]> m) n pub).
Proof.
  intros H. unfold place_layer. cbv zeta.
  apply (place_if A m n pub lid _ (negb (bool_decide (ld_blend ld = Normal))) (λ l, layer_flags (set_blend_bits (ld_blend ld) (ly_flags l)) l)) in H.
  apply (place_if A m n pub lid _ (negb (SFeqb (ld_gain ld) d_one)) (layer_gain (ld_gain ld))) in H.
  apply (place_if A m n pub lid _ (negb (ld_visible ld)) (λ l, layer_flags (set_flag k_layer_visible false (ly_flags l)) l)) in H.
  apply (place_if A m n pub lid _ (negb (ld_audible ld)) (λ l, layer_flags (set_flag k_layer_audible false (ly_flags l)) l)) in H.
  apply (place_if A m n pub lid _ (negb (bool_decide (ld_span ld = TimeRange_all))) (layer_span (ld_span ld))) in H.
  exact (place_if A m n pub lid _ (negb (bool_decide (ld_time_map ld = TimeMap_identity))) (layer_time_map (ld_time_map ld)) _ H).
Qed.
End layers.

(** ** The layers of one composition *)

Definition stash_of (residual : fields) : option fields := match residual with [] => None | _ => Some residual end.

Lemma find_stored scope id residual store : store_find scope id (store_set scope id residual store) = stash_of residual.
Proof. unfold store_find, store_set. destruct residual; [apply lookup_delete_eq|apply lookup_insert_eq]. Qed.

Lemma find_stored_ne scope id residual store scope' id' : (scope', id') ≠ (scope, id) →
  store_find scope' id' (store_set scope id residual store) = store_find scope' id' store.
Proof. intros H. unfold store_find, store_set. destruct residual; [by apply lookup_delete_ne|by apply lookup_insert_ne]. Qed.

(** Everything but the object [c] is where it was: the records, the lists, the free ids. *)
Record kept_apart (c : ObjectId) (A : arrangement) (m : doc) (n : Z) (A' : arrangement) (m' : doc) (n' : Z) : Prop := {
  ka_next : n <= n';
  ka_objects x r : x ≠ c → is_chunk (rc_as r) = false → m !! x = Some r → m' !! x = Some r;
  ka_lists x g r : x ≠ c → is_chunk (rc_as r) = false → m !! x = Some r → A' x g = A x g;
  ka_free x : x ≠ c → x < n → m !! x = None → m' !! x = None }.

Lemma kept_apart_refl c A m n : kept_apart c A m n A m n.
Proof. by split. Qed.

Lemma kept_apart_trans c A1 m1 n1 A2 m2 n2 A3 m3 n3 :
  kept_apart c A1 m1 n1 A2 m2 n2 → kept_apart c A2 m2 n2 A3 m3 n3 → kept_apart c A1 m1 n1 A3 m3 n3.
Proof.
  intros [N1 O1 L1 F1] [N2 O2 L2 F2]. split; [lia|by auto| |].
  - intros x g r Hx Hr H. rewrite (L2 x g r); [by eapply L1|done|done|by apply O1].
  - intros x Hx Hn H. apply F2; [done|lia|by apply F1].
Qed.

(** What a composition keeps when its order changes. *)
Definition same_extents (c c' : CompositionRecord) : Prop :=
  cp_canvas_w c' = cp_canvas_w c ∧ cp_canvas_h c' = cp_canvas_h c ∧
  cp_working_space c' = cp_working_space c ∧ cp_working_audio_format c' = cp_working_audio_format c.

Definition holds_composition (m : doc) (id : ObjectId) pub (c : CompositionRecord) : Prop := m !! id = Some (mkRecord id pub (AsComposition c)).

Section building.
Implicit Types (t : Txn doc) (m : doc) (A : arrangement).

Lemma layer_added A m n pub t content transform opacity :
  underway A m n pub t →
  let r := add_layer content transform opacity t in
  exhausted r.1 ∨ r.2 = n ∧
    underway (λ x g, if bool_decide (x = n) then ([], []) else A x g) (<[n := mkRecord n pub (AsLayer (new_layer content transform opacity))]> m) (n + 1) pub r.1.
Proof.
  intros H. cbv zeta. unfold add_layer.
  pose proof (add_underway A m n pub t (AsLayer (new_layer content transform opacity)) H ltac:(by intros [])) as Hd.
  unfold edit, does in *. rewrite (un_status _ _ _ _ _ H). match type of Hd with context [match ?c t with _ => _ end] => destruct (c t) as [t' [a|e]] end; cbn [fst snd].
  - by right.
  - left. by destruct Hd as [-> ?].
Qed.

(** Appending a bound layer. *)
Lemma layer_appended A m n pub t c rev base lid :
  underway A m n pub t → holds_composition m c rev base → is_Some (m !! lid) → Z.of_nat (length (A c Members).2) < 2 ^ 32 →
  leaves (append_layer c lid t) (λ t', ∃ A' m' n' base', underway A' m' n' pub t' ∧ kept_apart c A m n A' m' n' ∧
    holds_composition m' c pub base' ∧ same_extents base base' ∧ (A' c Members).2 = (A c Members).2 ++ [lid]).
Proof.
  intros H Hc [rl Hl] Hlen. pose proof H as [Hs Ar Est En Ep]. unfold append_layer, attach_layer. apply edit_leaves; [done|].
  unfold attach_at. apply does_bind, does_find. rewrite Est, Hc. apply does_bind, does_find. rewrite Est, Hl.
  unfold edit_membership. apply does_bind, does_find. rewrite Est, Hc. apply does_bind. unfold does, read at 1. rewrite Est.
  rewrite (read_members A m n c rev base) by (done || by rewrite En). cbn [fst snd].
  assert (insert_at (2 ^ 32 - 1) lid (A c Members).2 = (A c Members).2 ++ [lid]) as ->.
  { unfold insert_at. rewrite Z.min_r, Nat2Z.id by lia. by rewrite take_ge, drop_ge. }
  apply does_bind, (does_store_membership A t c rev base); [by rewrite Est, En|by rewrite Est|].
  rewrite Est, En. intros t1 m1 n1 ids inline spill M1 Rw. apply does_add_damage. intros t2 M2.
  pose proof (moved_trans _ _ _ _ _ _ _ M1 M2) as M. rewrite (mv_store _ _ _ _ M1), (mv_next_id _ _ _ _ M1) in M.
  assert (has_field (rc_as (mkRecord c rev (AsComposition base))) Members) as HI by done.
  pose proof (arranged_rewrites _ _ _ _ _ _ _ _ _ _ _ Ar Hc HI Rw) as Ar'.
  pose proof (rewrites_objects _ _ _ _ _ _ _ _ _ _ _ Ar Hc HI Rw) as Ho.
  exists (rearrange A c Members (ids, (A c Members).2 ++ [lid])), m1, n1. eexists. split_and!.
  - by eapply underway_moved.
  - split.
    + apply (rw_counter _ _ _ _ _ _ _ _ _ _ _ Rw).
    + intros x r Hx Hr. by apply Ho.
    + intros x g r Hx _ _. apply rearrange_ne. congruence.
    + intros x Hx Hn Hm. rewrite <- Hm. apply (rw_same _ _ _ _ _ _ _ _ _ _ _ Rw); [done| |].
      * intros Hin. apply (arranged_chunk _ _ _ _ _ _ _ Ar Hc HI) in Hin as (_ & rx & Hrx & _). congruence.
      * intros Hin. apply (rw_ids _ _ _ _ _ _ _ _ _ _ _ Rw) in Hin as [Hin|Hin]; [|lia].
        apply (arranged_chunk _ _ _ _ _ _ _ Ar Hc HI) in Hin as (_ & rx & Hrx & _). congruence.
  - unfold holds_composition. rewrite (rw_owner _ _ _ _ _ _ _ _ _ _ _ Rw). unfold with_order. by rewrite Ep.
  - done.
  - by rewrite rearrange_eq.
Qed.
End building.

Section layers_in.
Implicit Types (t : Txn doc) (m : doc) (A : arrangement) (i : @Installing doc).

(** A loaded layer under its new id. *)
Definition layer_in (m : doc) (pub : Z) (staged : UnknownFieldStore) (lid : ObjectId) (x : LayerData * option SunkContent) : Prop :=
  m !! lid = Some (mkRecord lid pub (AsLayer (placed (content_of x.2) x.1))) ∧ store_find ScopeLayer lid staged = stash_of (ld_unknown x.1).

(** An installation that has come this far. *)
Definition reaches i (Q : arrangement → doc → Z → UnknownFieldStore → Prop) pub : Prop :=
  exhausted i.1 ∨ ∃ A m n, underway A m n pub i.1 ∧ Q A m n i.2.

Lemma finish_exhausted c lid ld t : exhausted t → exhausted (append_layer c lid (place_layer lid ld t)).
Proof.
  intros H. unfold append_layer, attach_layer, place_layer, edit_if, set_blend, set_gain, set_visible, set_audible, set_span, set_time_map.
  assert (∀ (b : bool) f t, exhausted t → exhausted (if b then (edit tt (edit_layer f lid) t).1 else t)) as Hif
    by (intros [] f t1 H1; [by rewrite edit_exhausted|done]).
  rewrite edit_exhausted; by repeat apply Hif.
Qed.

Lemma add_exhausted content transform opacity t : exhausted t → exhausted (add_layer content transform opacity t).1.
Proof. intros H. unfold add_layer. by rewrite edit_exhausted. Qed.

Lemma layer_exhausted c x i : exhausted i.1 → exhausted (install_layer c x i).1.
Proof.
  intros H. unfold install_layer. pose proof (add_exhausted (content_of x.2) (ld_transform x.1) (ld_opacity x.1) _ H) as Ha.
  destruct (add_layer _ _ _ i.1) as [t lid]. by apply finish_exhausted.
Qed.

Lemma layer_installed A m n pub i c rev base x :
  underway A m n pub i.1 → holds_composition m c rev base → Z.of_nat (length (A c Members).2) < 2 ^ 32 →
  reaches (install_layer c x i) (λ A' m' n' staged', n < n' ∧ kept_apart c A m n A' m' n' ∧ layer_in m' pub staged' n x ∧
    (∃ base', holds_composition m' c pub base' ∧ same_extents base base') ∧ (A' c Members).2 = (A c Members).2 ++ [n] ∧
    staged' = store_set ScopeLayer n (ld_unknown x.1) i.2) pub.
Proof.
  intros H Hc Hlen. pose proof H as [_ Ar _ _ _]. destruct (ar_ids _ _ _ Ar _ _ Hc) as [_ Hcn].
  assert (m !! n = None) as Hn by (destruct (m !! n) as [r|] eqn:E; [|done]; pose proof (ar_ids _ _ _ Ar _ _ E); lia).
  unfold install_layer. pose proof (layer_added A m n pub i.1 (content_of x.2) (ld_transform x.1) (ld_opacity x.1) H) as Ha. cbv zeta in Ha.
  set (A1 := λ y g, if bool_decide (y = n) then ([], []) else A y g) in Ha.
  destruct (add_layer _ _ _ i.1) as [t lid] eqn:Et. cbn [fst snd] in Ha. destruct Ha as [Hex|[-> Hu]].
  - left. by apply finish_exhausted.
  - pose proof (layer_placed A1 m (n + 1) pub n (content_of x.2) x.1 t (or_intror Hu)) as [Hex|Hp].
    { left. unfold append_layer, attach_layer. by rewrite edit_exhausted. }
    set (m1 := <[n := _]> m) in Hp. assert (holds_composition m1 c rev base) as Hc1 by (unfold holds_composition, m1; by rewrite lookup_insert_ne by lia).
    assert ((A1 c Members) = A c Members) as EA by (unfold A1; by rewrite bool_decide_eq_false_2 by lia).
    destruct (layer_appended A1 m1 (n + 1) pub _ c rev base n Hp Hc1) as [Hex|(A' & m' & n' & base' & Hu' & Hk & Hc' & Hb & Hl)];
      [unfold m1; rewrite lookup_insert_eq; by eexists|by rewrite EA|by left|].
    right. exists A', m', n'. split; [exact Hu'|]. assert (n ≠ c) as Hnc by lia.
    split_and!; [pose proof (ka_next _ _ _ _ _ _ _ Hk); lia| | |by exists base'|by rewrite Hl, EA|done].
    + eapply kept_apart_trans; [|exact Hk]. split; [lia| | |].
      * intros y r _ _ Hy. unfold m1. rewrite lookup_insert_ne; [done|]. intros <-. congruence.
      * intros y g r _ _ Hy. unfold A1. rewrite bool_decide_eq_false_2; [done|]. intros ->. congruence.
      * intros y _ Hy Hm. unfold m1. by rewrite lookup_insert_ne by lia.
    + split; [|apply find_stored]. eapply (ka_objects _ _ _ _ _ _ _ Hk); [done..|]. unfold m1. apply lookup_insert_eq.
Qed.
End layers_in.

(** ** The layers of a composition, the compositions of a document *)

Section graph.
Implicit Types (m : doc) (A : arrangement) (i : @Installing doc) (rc : ResolvedComp).

Definition install_layers (c : ObjectId) (xs : list (LayerData * option SunkContent)) i : @Installing doc := foldl (λ i x, install_layer c x i) i xs.

Lemma layers_exhausted c xs i : exhausted i.1 → exhausted (install_layers c xs i).1.
Proof. revert i. induction xs as [|x xs IH]; intros i H; [done|]. cbn [install_layers foldl]. by apply IH, layer_exhausted. Qed.

(** What the residuals staged so far keep while ids from [n] on are handed out. *)
Definition staged_kept (n : Z) (staged staged' : UnknownFieldStore) : Prop :=
  ∀ scope id, id < n → store_find scope id staged' = store_find scope id staged.

Lemma layers_installed c pub xs : ∀ A m n i rev base,
  underway A m n pub i.1 → holds_composition m c rev base → Z.of_nat (length (A c Members).2 + length xs) < 2 ^ 32 →
  (xs = [] → rev = pub) →
  reaches (install_layers c xs i) (λ A' m' n' staged', kept_apart c A m n A' m' n' ∧ staged_kept n i.2 staged' ∧
    (∃ base', holds_composition m' c pub base' ∧ same_extents base base') ∧
    ∃ lids, (A' c Members).2 = (A c Members).2 ++ lids ∧ Forall2 (layer_in m' pub staged') lids xs ∧ Forall (λ lid, n <= lid < n') lids) pub.
Proof.
  induction xs as [|x xs IH]; intros A m n i rev base H Hc Hlen Hpub; cbn [install_layers foldl].
  - right. exists A, m, n. split; [done|]. split; [apply kept_apart_refl|]. split; [done|]. rewrite Hpub in Hc by done.
    split; [by exists base|]. exists []. by rewrite app_nil_r.
  - cbn [length] in Hlen. destruct (layer_installed A m n pub i c rev base x H Hc) as [Hex|(A1 & m1 & n1 & H1 & Hn & Hk & Hl & (base1 & Hc1 & Hb1) & Ho & Es)]; [lia| |].
    { left. by apply layers_exhausted. }
    pose proof H as [_ Ar _ _ _]. destruct (ar_ids _ _ _ Ar _ _ Hc) as [_ Hcn].
    destruct (IH A1 m1 n1 (install_layer c x i) pub base1 H1 Hc1) as [Hex|(A2 & m2 & n2 & H2 & Hk2 & Hs2 & (base2 & Hc2 & Hb2) & lids & Ho2 & Hl2 & Hr)];
      [rewrite Ho, length_app; cbn [length]; lia|done|by left|].
    right. exists A2, m2, n2. split; [exact H2|]. pose proof (ka_next _ _ _ _ _ _ _ Hk2). split_and!.
    + by eapply kept_apart_trans.
    + intros scope id Hid. rewrite Hs2 by lia. rewrite Es. apply find_stored_ne. intros [= _ ->]. lia.
    + exists base2. split; [done|]. destruct Hb1 as (? & ? & ? & ?), Hb2 as (? & ? & ? & ?). unfold same_extents. split_and!; congruence.
    + exists (n :: lids). rewrite Ho2, Ho, <- app_assoc. split; [done|]. split.
      * constructor; [|done]. destruct Hl as [Hm Hst]. split; [eapply (ka_objects _ _ _ _ _ _ _ Hk2); [lia|done|exact Hm]|]. rewrite Hs2 by lia. exact Hst.
      * constructor; [lia|]. eapply Forall_impl; [exact Hr|]. intros lid Hlid. cbn in *. lia.
Qed.

(** A loaded composition under its id. *)
Definition comp_in A m (pub : Z) (staged : UnknownFieldStore) rc : Prop :=
  (∃ base, holds_composition m (rc_id rc) pub base ∧ same_composition base (rc_data rc)) ∧
  store_find ScopeComposition (rc_id rc) staged = stash_of (cd_unknown (rc_data rc)) ∧
  ∃ lids, (A (rc_id rc) Members).2 = lids ∧ Forall2 (layer_in m pub staged) lids (comp_layers rc).

Definition formatted (cd : CompData) : CompositionRecord :=
  let c := new_composition (cd_canvas_w cd) (cd_canvas_h cd) in
  let c := match cd_working_space cd with Some format => working_space_of format c | None => c end in
  match cd_working_audio_format cd with Some format => working_audio_of format c | None => c end.

Lemma formatted_same cd : same_composition (formatted cd) cd.
Proof. unfold same_composition, formatted. by destruct (cd_working_space cd), (cd_working_audio_format cd). Qed.

Lemma formats_exhausted c cd (t : Txn doc) : exhausted t → exhausted (composition_formats c cd t).
Proof.
  intros H. unfold composition_formats, set_working_space, set_working_audio_format.
  destruct (cd_working_space cd), (cd_working_audio_format cd); by rewrite ?edit_exhausted by (rewrite ?edit_exhausted; done).
Qed.

Lemma formats_set A m n pub c cd t :
  underway A (<[c := mkRecord c pub (AsComposition (new_composition (cd_canvas_w cd) (cd_canvas_h cd)))]> m) n pub t →
  leaves (composition_formats c cd t) (underway A (<[c := mkRecord c pub (AsComposition (formatted cd))]> m) n pub).
Proof.
  assert (∀ f b t, (∀ x, cp_layer_count (f x) = cp_layer_count x ∧ cp_layers (f x) = cp_layers x ∧ cp_spill_root (f x) = cp_spill_root x) →
    leaves t (underway A (<[c := mkRecord c pub (AsComposition b)]> m) n pub) →
    leaves (edit tt (edit_composition f c) t).1 (underway A (<[c := mkRecord c pub (AsComposition (f b))]> m) n pub)) as Hf.
  { intros f b t0 Hsame [E|H]; [left; by rewrite edit_exhausted|].
    pose proof (composition_edited _ _ _ _ _ c pub b f Hsame H (lookup_insert_eq _ _ _)) as H'. by rewrite insert_insert_eq in H'. }
  intros Hu. assert (leaves t (underway A (<[c := mkRecord c pub (AsComposition (new_composition (cd_canvas_w cd) (cd_canvas_h cd)))]> m) n pub)) as H by by right.
  unfold composition_formats, formatted, set_working_space, set_working_audio_format.
  destruct (cd_working_space cd) as [f|].
  - apply (Hf (working_space_of f)) in H; [|done]. destruct (cd_working_audio_format cd) as [f'|]; [|done]. by apply (Hf (working_audio_of f')).
  - destruct (cd_working_audio_format cd) as [f'|]; [|done]. by apply (Hf (working_audio_of f')).
Qed.

Lemma composition_exhausted rc i : exhausted i.1 → exhausted (install_composition rc i).1.
Proof.
  intros H. unfold install_composition, add_composition_at.
  pose proof (edit_exhausted 0 (insert_object (rc_id rc) (AsComposition (new_composition (cd_canvas_w (rc_data rc)) (cd_canvas_h (rc_data rc))))) _ H) as E.
  destruct (edit 0 _ i.1) as [t cid]. cbn [fst] in E. subst t. by apply layers_exhausted, formats_exhausted.
Qed.

Lemma composition_added A m n pub t id w h :
  underway A m n pub t → m !! id = None → 0 < id < n →
  let r := add_composition_at id w h t in
  exhausted r.1 ∨ r.2 = id ∧
    underway (λ x g, if bool_decide (x = id) then ([], []) else A x g) (<[id := mkRecord id pub (AsComposition (new_composition w h))]> m) n pub r.1.
Proof.
  intros H Hm Hid. cbv zeta. unfold add_composition_at.
  pose proof (insert_underway A m n pub t id (AsComposition (new_composition w h)) H Hm Hid) as Hd.
  assert (∀ g m', has_field (AsComposition (new_composition w h)) g → stores m' (AsComposition (new_composition w h)) g [] []) as Hf.
  { intros [|g] m' Hg; [|done]. split; [done|]. left. split_and!; [cbn; lia|done..]. }
  specialize (Hd Hf). unfold edit, does in *. rewrite (un_status _ _ _ _ _ H).
  match type of Hd with context [match ?c t with _ => _ end] => destruct (c t) as [t' [a|e]] end; cbn [fst snd]; [by right|].
  left. by destruct Hd as [-> ?].
Qed.

Lemma composition_installed A m n pub i rc :
  underway A m n pub i.1 → m !! rc_id rc = None → 0 < rc_id rc < n → Z.of_nat (length (cd_layers (rc_data rc))) < 2 ^ 32 →
  reaches (install_composition rc i) (λ A' m' n' staged', kept_apart (rc_id rc) A m n A' m' n' ∧ comp_in A' m' pub staged' rc ∧
    ∀ scope id, id < n → (scope, id) ≠ (ScopeComposition, rc_id rc) → store_find scope id staged' = store_find scope id i.2) pub.
Proof.
  intros H Hm Hid Hlen. unfold install_composition. cbv zeta.
  pose proof (composition_added A m n pub i.1 (rc_id rc) (cd_canvas_w (rc_data rc)) (cd_canvas_h (rc_data rc)) H Hm Hid) as Ha. cbv zeta in Ha.
  set (A1 := λ y g, if bool_decide (y = rc_id rc) then ([], []) else A y g) in Ha.
  destruct (add_composition_at _ _ _ _) as [t cid]. cbn [fst snd] in Ha. destruct Ha as [Hex|[-> Hu]]; [left; by apply layers_exhausted, formats_exhausted|].
  destruct (formats_set _ _ _ _ _ _ _ Hu) as [Hex|Hf]; [left; by apply layers_exhausted|]. set (m1 := <[_ := _]> m) in Hf.
  set (i1 := (composition_formats (rc_id rc) (rc_data rc) t, store_set ScopeComposition (rc_id rc) (cd_unknown (rc_data rc)) i.2)).
  assert (A1 (rc_id rc) Members = ([], [])) as EA by (unfold A1; by rewrite bool_decide_eq_true_2).
  destruct (layers_installed (rc_id rc) pub (comp_layers rc) A1 m1 n i1 pub (formatted (rc_data rc)) Hf) as [Hex|(A' & m' & n' & Hu' & Hk & Hs & (base & Hc & Hb) & lids & Ho & Hl & _)];
    [apply lookup_insert_eq| |done|by left|].
  { rewrite EA. unfold comp_layers. rewrite length_zip_with. cbn [snd length]. lia. }
  right. exists A', m', n'. split; [exact Hu'|]. split_and!.
  - eapply kept_apart_trans; [|exact Hk]. split; [lia| | |].
    + intros y r Hy _ E. unfold m1. by rewrite lookup_insert_ne.
    + intros y g r Hy _ _. unfold A1. by rewrite bool_decide_eq_false_2.
    + intros y Hy _ E. unfold m1. by rewrite lookup_insert_ne.
  - split; [|split].
    + exists base. split; [exact Hc|]. destruct Hb as (E1 & E2 & E3 & E4), (formatted_same (rc_data rc)) as (F1 & F2 & F3 & F4).
      unfold same_composition. split_and!; congruence.
    + etrans; [apply (Hs ScopeComposition (rc_id rc)); lia|apply find_stored].
    + exists lids. rewrite Ho, EA. done.
  - intros scope id Hi Hne. etrans; [by apply Hs|by apply find_stored_ne].
Qed.
End graph.

(** ** The whole graph *)

Section whole.
Implicit Types (m : doc) (A : arrangement) (i : @Installing doc) (rc : ResolvedComp).

(** What an installation of the compositions [ids] leaves alone. *)
Record carried (ids : list ObjectId) A m (n : Z) (st : UnknownFieldStore) A' m' (n' : Z) (st' : UnknownFieldStore) : Prop := {
  ca_next : n <= n';
  ca_objects x r : x ∉ ids → is_chunk (rc_as r) = false → m !! x = Some r → m' !! x = Some r;
  ca_lists x g r : x ∉ ids → is_chunk (rc_as r) = false → m !! x = Some r → A' x g = A x g;
  ca_free x : x ∉ ids → x < n → m !! x = None → m' !! x = None;
  ca_staged scope id : id < n → (scope = ScopeComposition → id ∉ ids) → store_find scope id st' = store_find scope id st }.

Lemma carried_one id A m n st A' m' n' st' : kept_apart id A m n A' m' n' →
  (∀ scope x, x < n → (scope, x) ≠ (ScopeComposition, id) → store_find scope x st' = store_find scope x st) →
  carried [id] A m n st A' m' n' st'.
Proof.
  intros [N O L F] Hs. split; [done|..].
  - intros x r Hx. apply O. by rewrite list_elem_of_singleton in Hx.
  - intros x g r Hx. apply L. by rewrite list_elem_of_singleton in Hx.
  - intros x Hx. apply F. by rewrite list_elem_of_singleton in Hx.
  - intros scope x Hx H. apply Hs; [done|]. intros [= -> ->]. by apply (H eq_refl), list_elem_of_singleton.
Qed.

Lemma carried_trans ids1 ids2 A1 m1 n1 st1 A2 m2 n2 st2 A3 m3 n3 st3 :
  carried ids1 A1 m1 n1 st1 A2 m2 n2 st2 → carried ids2 A2 m2 n2 st2 A3 m3 n3 st3 → carried (ids1 ++ ids2) A1 m1 n1 st1 A3 m3 n3 st3.
Proof.
  intros [N1 O1 L1 F1 S1] [N2 O2 L2 F2 S2]. split; [lia|..].
  - intros x r [Hx1 Hx2]%not_elem_of_app Hr H. auto.
  - intros x g r [Hx1 Hx2]%not_elem_of_app Hr H. rewrite (L2 x g r); eauto.
  - intros x [Hx1 Hx2]%not_elem_of_app Hn H. apply F2; [done|lia|auto].
  - intros scope x Hx H. assert (scope = ScopeComposition → x ∉ ids1 ∧ x ∉ ids2) as H' by (intros E; by apply not_elem_of_app, H).
    rewrite S2, S1; [done|done|naive_solver|lia|naive_solver].
Qed.

(** A composition stays installed while others are. *)
Lemma comp_in_later ids A m n st A' m' n' st' pub rc :
  arranged A m n → carried ids A m n st A' m' n' st' → rc_id rc ∉ ids → (∀ id, id ∈ ids → m !! id = None) →
  comp_in A m pub st rc → comp_in A' m' pub st' rc.
Proof.
  intros Ar [N O L F S] Hid Hfree ((base & Hc & Hb) & Hst & lids & Ho & Hl). destruct (ar_ids _ _ _ Ar _ _ Hc) as [_ Hn]. split; [|split].
  - exists base. split; [|done]. by apply O.
  - rewrite S; [done|lia|done].
  - exists lids. erewrite L; [|done| |exact Hc]; [|done]. split; [done|]. eapply Forall2_impl; [exact Hl|].
    intros lid x [Hlid Hsl]. destruct (ar_ids _ _ _ Ar _ _ Hlid) as [_ Hln]. split; [|by rewrite S by (lia || done)].
    apply O; [|done|done]. intros Hin%Hfree. congruence.
Qed.

Lemma compositions_exhausted comps i : exhausted i.1 → exhausted (install_graph comps i).1.
Proof. revert i. induction comps as [|rc comps IH]; intros i H; [done|]. cbn [install_graph foldl]. by apply IH, composition_exhausted. Qed.

(** A composition an installation can start from: its id was issued, and is free. *)
Definition installable (m : doc) (n : Z) rc : Prop :=
  m !! rc_id rc = None ∧ 0 < rc_id rc < n ∧ Z.of_nat (length (cd_layers (rc_data rc))) < 2 ^ 32.

Lemma compositions_installed pub comps : ∀ A m n i,
  underway A m n pub i.1 → NoDup (map rc_id comps) → Forall (installable m n) comps →
  reaches (install_graph comps i) (λ A' m' n' st', carried (map rc_id comps) A m n i.2 A' m' n' st' ∧ Forall (comp_in A' m' pub st') comps) pub.
Proof.
  induction comps as [|rc comps IH]; intros A m n i H Hd Hf; cbn [install_graph foldl map] in *.
  - right. exists A, m, n. split; [done|]. split; [split; (done || lia)|constructor].
  - apply NoDup_cons in Hd as [Hni Hd]. apply Forall_cons in Hf as [(Hm & Hid & Hlen) Hf].
    destruct (composition_installed A m n pub i rc H Hm Hid Hlen) as [Hex|(A1 & m1 & n1 & H1 & Hk & Hc & Hs)]; [left; by apply compositions_exhausted|].
    pose proof (carried_one _ _ _ _ _ _ _ _ _ Hk Hs) as Hc1. assert (Forall (installable m1 n1) comps) as Hf1.
    { rewrite Forall_forall in *. intros rc' Hrc. destruct (Hf _ Hrc) as (Hm' & Hid' & Hlen'). split; [|split; [|done]].
      - apply (ca_free _ _ _ _ _ _ _ _ _ Hc1); [|lia|done]. intros E%list_elem_of_singleton. apply Hni. rewrite <- E. by apply list_elem_of_In, in_map, list_elem_of_In.
      - pose proof (ca_next _ _ _ _ _ _ _ _ _ Hc1). lia. }
    destruct (IH A1 m1 n1 (install_composition rc i) H1 Hd Hf1) as [Hex|(A2 & m2 & n2 & H2 & Hc2 & Hall)]; [by left|].
    right. exists A2, m2, n2. split; [exact H2|]. split; [exact (carried_trans _ _ _ _ _ _ _ _ _ _ _ _ _ _ Hc1 Hc2)|].
    constructor; [|done]. eapply comp_in_later; [apply H1|exact Hc2|done| |done].
    intros id Hin. apply list_elem_of_In, in_map_iff in Hin as (rc' & <- & Hin%list_elem_of_In). rewrite Forall_forall in Hf1. by apply Hf1.
Qed.
End whole.

(** ** Over any object store *)

Section stores.
Context {S : Type} `{!ObjectStore S, !ObjectLaws S}.


(** An installation into a store, and the same one into the map it stands for. *)
Definition tracks (i : @Installing S) (j : @Installing doc) : Prop :=
  os_inv (tx_store i.1) ∧ ((∃ e, tx_status i.1 = Err (Refused e)) ∨ abstract i.1 = j.1 ∧ i.2 = j.2).

Lemma edit_same {B} (x : B) (m : Tx S B) m' (t : Txn S) :
  implements m m' → os_inv (tx_store t) → os_inv (tx_store (edit x m t).1) ∧
  ((∃ e, tx_status (edit x m t).1 = Err (Refused e)) ∨
   abstract (edit x m t).1 = (edit x m' (abstract t)).1 ∧ (edit x m t).2 = (edit x m' (abstract t)).2).
Proof.
  intros Hm I. unfold edit. cbn [abstract tx_status]. destruct (tx_status t) as [[]|e] eqn:Es; [|by auto].
  specialize (Hm t I). destruct (m t) as [t1 [a|[e|]]].
  - destruct Hm as [I1 ->]. by auto.
  - split; [done|]. left. by exists e.
  - destruct Hm as [I1 ->]. by auto.
Qed.

Lemma edit_refused {B} (x : B) (m : Tx S B) (t : Txn S) e : tx_status t = Err e → edit x m t = (t, x).
Proof. intros E. unfold edit. by rewrite E. Qed.

(** A mutator on both sides: it follows, and does nothing after a failure. *)
Record mutates (f : Txn S → Txn S) (f' : Txn doc → Txn doc) : Prop := {
  mu_follows (t : Txn S) (t' : Txn doc) : follows t t' → follows (f t) (f' t');
  mu_stuck (t : Txn S) e : tx_status t = Err e → f t = t }.

Lemma mutates_edit {B} (x : B) (m : Tx S B) m' : implements m m' → mutates (λ t, (edit x m t).1) (λ t, (edit x m' t).1).
Proof. intros Hm. split; [intros t t'; by apply edit_follows|]. intros t e E. by rewrite (edit_refused _ _ _ _ E). Qed.

Lemma mutates_id : mutates (λ t, t) (λ t, t).
Proof. by split. Qed.

Lemma mutates_comp f f' g g' : mutates f f' → mutates g g' → mutates (λ t, g (f t)) (λ t, g' (f' t)).
Proof. intros [F1 F2] [G1 G2]. split; [auto|]. intros t e E. by rewrite (F2 _ _ E), (G2 _ _ E). Qed.

Lemma mutates_if (b : bool) f f' : mutates f f' → mutates (edit_if b f) (edit_if b f').
Proof. destruct b; [done|]. intros _. apply mutates_id. Qed.

Lemma mutates_finish c lid ld : mutates (λ t, append_layer c lid (place_layer lid ld t)) (λ t, append_layer c lid (place_layer lid ld t)).
Proof.
  assert (∀ (b : bool) f g g', mutates g g' →
    mutates (λ t, edit_if b (λ t, (edit tt (edit_layer f lid) t).1) (g t)) (λ t, edit_if b (λ t, (edit tt (edit_layer f lid) t).1) (g' t))) as Hedit.
  { intros b f g g' Hg. apply (mutates_comp g g'); [done|]. apply mutates_if, mutates_edit, implements_edit_layer. }
  apply (mutates_comp (place_layer lid ld) (place_layer lid ld)); [|apply mutates_edit, implements_attach_at].
  unfold place_layer. cbv zeta. do 6 apply Hedit. apply mutates_id.
Qed.

Lemma mutates_formats c cd : mutates (composition_formats c cd) (composition_formats c cd).
Proof.
  assert (∀ f, mutates (λ t, (edit tt (edit_composition f c) t).1) (λ t, (edit tt (edit_composition f c) t).1)) as Hedit
    by (intros f; apply mutates_edit, implements_edit_composition).
  unfold composition_formats. destruct (cd_working_space cd) as [f|], (cd_working_audio_format cd) as [f'|].
  - exact (mutates_comp _ _ _ _ (Hedit (working_space_of f)) (Hedit (working_audio_of f'))).
  - apply Hedit.
  - apply Hedit.
  - apply mutates_id.
Qed.

(** The same of a step of an installation. *)
Record carries (F : @Installing S → @Installing S) (F' : @Installing doc → @Installing doc) : Prop := {
  cy_tracks (i : @Installing S) (j : @Installing doc) : tracks i j → tracks (F i) (F' j);
  cy_stuck (i : @Installing S) e : tx_status i.1 = Err e → (F i).1 = i.1 }.

Lemma carries_comp F F' G G' : carries F F' → carries G G' → carries (λ i, G (F i)) (λ i, G' (F' i)).
Proof. intros [F1 F2] [G1 G2]. split; [auto|]. intros i e E. rewrite (G2 _ e); [by eapply F2|]. by rewrite (F2 _ _ E). Qed.

Lemma carries_foldl {A} (F : A → @Installing S → @Installing S) F' (l : list A) : (∀ a, carries (F a) (F' a)) →
  carries (λ i, foldl (λ i a, F a i) i l) (λ i, foldl (λ i a, F' a i) i l).
Proof. intros H. induction l as [|a l IH]; [by split|]. exact (carries_comp _ _ _ _ (H a) IH). Qed.

Lemma carries_both (f : Txn S → Txn S) (f' : Txn doc → Txn doc) (st : UnknownFieldStore → UnknownFieldStore) : mutates f f' → carries (λ i, (f i.1, st i.2)) (λ i, (f' i.1, st i.2)).
Proof.
  intros [Hf Hst]. split; [|by intros i e E; apply (Hst _ e)]. intros i j [I [[e Es]|[Ea Eb]]].
  - split; cbn [fst]; rewrite (Hst _ _ Es); [done|]. left. by exists e.
  - destruct (Hf i.1 j.1) as [I2 H2]; [split; [done|by right]|]. split; [exact I2|]. cbn [fst snd]. rewrite Eb.
    destruct H2 as [H2|H2]; [by left|by right].
Qed.

Lemma carries_edit {B} (x : B) (m : Tx S B) m' (F : B → @Installing S → @Installing S) F' :
  implements m m' → (∀ b, carries (F b) (F' b)) →
  carries (λ i, let '(t, b) := edit x m i.1 in F b (t, i.2)) (λ i, let '(t, b) := edit x m' i.1 in F' b (t, i.2)).
Proof.
  intros Hm HF. split.
  2:{ intros i e E. rewrite (edit_refused _ _ _ _ E). by apply (cy_stuck _ _ (HF x) (i.1, i.2) e). }
  intros i j [I [[e Es]|[Ea Eb]]].
  - rewrite (edit_refused _ _ _ _ Es). destruct (edit x m' j.1) as [t' b'].
    assert ((F x (i.1, i.2)).1 = i.1) as E by (by apply (cy_stuck _ _ (HF x) (i.1, i.2) (Refused e))). split; rewrite E; [done|]. left. by exists e.
  - destruct (edit_same x m m' i.1 Hm I) as [I1 H1]. rewrite Ea in H1. destruct (edit x m i.1) as [t b], (edit x m' j.1) as [t' b']. cbn [fst snd] in *.
    destruct H1 as [[e Es]|[<- <-]].
    + assert ((F b (t, i.2)).1 = t) as E by (by apply (cy_stuck _ _ (HF b) (t, i.2) (Refused e))). split; rewrite E; [done|]. left. by exists e.
    + apply (cy_tracks _ _ (HF b)). split; [done|right]. by rewrite Eb.
Qed.

Lemma layer_carries c x : carries (install_layer c x) (install_layer c x).
Proof.
  exact (carries_edit 0 _ _ (λ lid i, (append_layer c lid (place_layer lid x.1 i.1), store_set ScopeLayer lid (ld_unknown x.1) i.2)) _
    (implements_allocated (AsLayer (new_layer (content_of x.2) (ld_transform x.1) (ld_opacity x.1))))
    (λ lid, carries_both _ _ (store_set ScopeLayer lid (ld_unknown x.1)) (mutates_finish c lid x.1))).
Qed.

Lemma composition_carries rc : carries (install_composition rc) (install_composition rc).
Proof.
  exact (carries_edit 0 _ _ _ _
    (implements_insert_object (rc_id rc) (AsComposition (new_composition (cd_canvas_w (rc_data rc)) (cd_canvas_h (rc_data rc)))))
    (λ cid, carries_comp _ _ _ _
      (carries_both _ _ (store_set ScopeComposition cid (cd_unknown (rc_data rc))) (mutates_formats cid (rc_data rc)))
      (carries_foldl _ _ (comp_layers rc) (layer_carries cid)))).
Qed.

Lemma graph_carries comps : carries (install_graph comps) (install_graph comps).
Proof. apply (carries_foldl install_composition). apply composition_carries. Qed.
End stores.

(** ** What the readers of the new version see *)

Section seen.
Context {S : Type} `{!ObjectStore S, !ObjectLaws S}.

(** A layer a reader finds, and what it was loaded as. *)
Definition reads_layer (s : S) (staged : UnknownFieldStore) (lid : ObjectId) (x : LayerData * option SunkContent) : Prop :=
  (∃ l, find_layer lid s = Ok (Some l) ∧ ly_content l = content_of x.2 ∧ same_placement l x.1) ∧
  store_find ScopeLayer lid staged = stash_of (ld_unknown x.1).

Definition reads_as_loaded (fuel : nat) (s : S) (staged : UnknownFieldStore) (rc : ResolvedComp) : Prop :=
  (∃ c, find_composition (rc_id rc) s = Ok (Some c) ∧ same_composition c (rc_data rc)) ∧
  store_find ScopeComposition (rc_id rc) staged = stash_of (cd_unknown (rc_data rc)) ∧
  ∃ lids, for_each_layer_in fuel (rc_id rc) s = Ok lids ∧ Forall2 (reads_layer s staged) lids (comp_layers rc).

Lemma layers_in_abstract fuel c (s : S) : os_inv s → for_each_layer_in fuel c s = for_each_layer_in fuel c (os_map s).
Proof.
  intros I. unfold for_each_layer_in, find_composition. rewrite os_find_spec by done. cbn.
  destruct (os_map s !! c ≫= as_composition) as [comp|]; [|done]. cbn. by rewrite (read_layer_order_abstract fuel s comp I).
Qed.

Lemma comp_in_read A n pub (s : S) staged rc : os_inv s → arranged A (os_map s) n →
  comp_in A (os_map s) pub staged rc → reads_as_loaded (Z.to_nat n) s staged rc.
Proof.
  intros I Ar ((base & Hc & Hb) & Hst & lids & Ho & Hl). split; [|split; [done|]].
  - exists base. unfold find_composition. rewrite os_find_spec, Hc by done. done.
  - exists lids. rewrite layers_in_abstract by done. pose proof (seen_arranged A (os_map s) n Members (rc_id rc) (Z.to_nat n) Ar) as E.
    cbn [seen] in E. rewrite E, Hc by done. cbn [has_field_b rc_as as_read]. split; [by rewrite Ho|].
    eapply Forall2_impl; [exact Hl|]. intros lid x [Hlid Hs]. split; [|done]. eexists. unfold find_layer. rewrite os_find_spec, Hlid by done.
    split; [done|]. apply placed_same.
Qed.

(** C2: An installed graph reads back as it was loaded: into any object store whose lists are
    well arranged, with compositions under distinct ids the model issued and nothing is bound
    to, the installation comes to a document in which each composition has its extents and
    formats and lists its layers in order, however many there are, each layer has its placement
    and names its content, and their residuals are found under their ids; no other object and
    no other residual changes.  Otherwise a slot was refused or the ids ran out, and the
    transaction's status says so. *)
Theorem graph_installed (t : Txn S) comps staged :
  os_inv (tx_store t) → well_arranged (abstract t) →
  NoDup (map rc_id comps) → Forall (installable (os_map (tx_store t)) (tx_next_id t)) comps →
  let '(t', staged') := install_graph comps (t, staged) in
  os_inv (tx_store t') ∧
  ((∃ e, tx_status t' = Err (Refused e)) ∨ exhausted (abstract t') ∨
   well_arranged (abstract t') ∧
   Forall (reads_as_loaded (Z.to_nat (tx_next_id t')) (tx_store t') staged') comps ∧
   (∀ x r, x ∉ map rc_id comps → is_chunk (rc_as r) = false → os_map (tx_store t) !! x = Some r → os_map (tx_store t') !! x = Some r) ∧
   ∀ scope id, id < tx_next_id t → (scope = ScopeComposition → id ∉ map rc_id comps) →
     store_find scope id staged' = store_find scope id staged).
Proof.
  intros I [Hs [A Ar]] Hd Hf. pose proof (cy_tracks _ _ (graph_carries comps) (t, staged) (abstract t, staged)) as Ht.
  destruct Ht as [I' Ht]; [split; [done|by right]|].
  pose proof (compositions_installed (tx_publish t) comps A (os_map (tx_store t)) (tx_next_id t) (abstract t, staged)) as Hi.
  destruct (install_graph comps (t, staged)) as [t' staged']. cbn [fst snd] in *. split; [done|]. destruct Ht as [Ht|[Et Est]]; [by left|right].
  destruct Hi as [Hex|(A' & m' & n' & Hu & Hc & Hall)]; [by split|done|done|left; by rewrite Et|right].
  rewrite <- Et in Hu. rewrite <- Est in Hc, Hall. destruct Hu as [Hs' Ar' Em En _]. cbn [abstract tx_store tx_next_id] in Em, En. subst m' n'.
  split_and!.
  - split; [done|by exists A'].
  - eapply Forall_impl; [exact Hall|]. intros rc. by apply (comp_in_read A').
  - intros x r. apply (ca_objects _ _ _ _ _ _ _ _ _ Hc).
  - intros scope id. apply (ca_staged _ _ _ _ _ _ _ _ _ Hc).
Qed.
End seen.

(** ** Two compositions, one of more layers than a record holds *)

Module InstallDemo.
Definition plain (unknown : fields) : LayerData :=
  mkLayerData Affine_identity d_one true Normal d_one true TimeRange_all TimeMap_identity None unknown.
Definition quiet : LayerData :=
  mkLayerData Affine_identity d_one false Multiply d_one false (mkTimeRange (mkTime 0) (mkTime 9)) TimeMap_identity None [].
Definition outer : ResolvedComp :=
  mkResolved 3 (mkCompData d_one d_one None (Some (mkAudioFormat 44100 Mono)) (replicate 9 quiet ++ [plain [(lit "note", JBool true)]]) [])
    (replicate 9 None ++ [Some (mkSunk 2 7%nat)]).
Definition inner : ResolvedComp := mkResolved 4 (mkCompData d_one d_one None None [plain []] [(lit "by", JNull)]) [None].
(** Ids up to 4 are issued, nothing is bound yet. *)
Definition start : Txn doc := mkTxn ∅ 5 true [] 1 [] [] [] (Ok tt).
Definition installed : @Installing doc := install_graph [outer; inner] (start, ∅).
End InstallDemo.

Lemma graph_installed_witness :
  tx_status InstallDemo.installed.1 = Ok tt ∧
  for_each_layer_in 40 3 (tx_store InstallDemo.installed.1) = Ok (seqZ 5 9 ++ [16]) ∧
  Forall (reads_as_loaded (Z.to_nat (tx_next_id InstallDemo.installed.1)) (tx_store InstallDemo.installed.1) InstallDemo.installed.2)
    [InstallDemo.outer; InstallDemo.inner].
Proof.
  assert (tx_status InstallDemo.installed.1 = Ok tt) as Hs by (vm_compute; reflexivity).
  split; [exact Hs|]. split; [vm_compute; reflexivity|].
  pose proof (graph_installed InstallDemo.start [InstallDemo.outer; InstallDemo.inner] ∅) as H.
  destruct (install_graph [InstallDemo.outer; InstallDemo.inner] (InstallDemo.start, ∅)) as [t' staged'] eqn:Ei.
  assert (InstallDemo.installed = (t', staged')) as Et by exact Ei. rewrite Et in Hs |- *. clear Et Ei.
  change (tx_status t' = Ok tt) in Hs. destruct H as [_ [[e E]|[[E _]|H]]].
  - exact I.
  - split; [reflexivity|]. exists (fun _ _ => ([], [])). apply (arranged_counter _ _ _ arranged_empty). vm_compute. split; discriminate.
  - repeat constructor; set_solver.
  - repeat constructor; vm_compute; (reflexivity || discriminate).
  - rewrite Hs in E. discriminate.
  - change (tx_status t' = Err SlotStore.OutOfBounds) in E. rewrite Hs in E. discriminate.
  - apply H.
Defined.
