(* ===== verification/AssetGc.v ===== *)
(** * Collecting unreferenced assets ([src/src/runtime/asset_gc.cpp],
      [src/src/serialize/asset_reaper.cpp])

    The mark walk over the JSON of a document, the subtraction, the sweep over the seam
    [AssetReaper], the reaper of a file system that implements it, and the collection of a
    project directory that puts them together.  JSON text is parsed by a third-party library:
    [parse] is a parameter, and [Json.json] the values it yields. *)

From S2P Require Import Prelude TileBlob Uri AssetStore Json.
From Stdlib Require Import Ascii.
Local Open Scope list_scope.

(** ** The mark walk *)

Record GcRoots := mkRoots { gr_tiles : gset str; gr_assets : gset str }.

Definition no_roots : GcRoots := mkRoots ∅ ∅.

Definition mark_error (kind : ReaderErrorKind) (path : str) : ReaderError := mkReaderError kind path.

Definition normalize_asset_uri (uri : str) : str := lexically_normal (strip_file_scheme uri).

(** [for (const json& entry : *bit)]: one hash after the other. *)
Fixpoint harvest_blobs (entries : list json) (out : GcRoots) : expected ReaderError GcRoots :=
  match entries with
  | [] => Ok out
  | JString hash :: entries =>
      if is_tile_hash hash then harvest_blobs entries (mkRoots ({[hash]} ∪ gr_tiles out) (gr_assets out))
      else Err (mark_error MalformedField (lit "/params/blobs"))
  | _ :: _ => Err (mark_error MalformedField (lit "/params/blobs"))
  end.

Definition harvest_params (params : list (str * json)) (out : GcRoots) : expected ReaderError GcRoots :=
  out ← match find_field (lit "blobs") params with
        | None => Ok out
        | Some (JArray entries) => harvest_blobs entries out
        | Some _ => Err (mark_error MalformedField (lit "/params/blobs"))
        end;
  match find_field (lit "source") params with
  | None => Ok out
  | Some (JString []) => Ok out
  | Some (JString source) => Ok (mkRoots (gr_tiles out) ({[normalize_asset_uri source]} ∪ gr_assets out))
  | Some _ => Err (mark_error MalformedField (lit "/params/source"))
  end.

Fixpoint harvest_node (node : json) (out : GcRoots) {struct node} : expected ReaderError GcRoots :=
  match node with
  | JObject fields =>
      out ← match find_field (lit "params") fields with Some (JObject params) => harvest_params params out | _ => Ok out end;
      (fix members (fields : list (str * json)) (out : GcRoots) : expected ReaderError GcRoots :=
         match fields with
         | [] => Ok out
         | (_, value) :: fields => out ← harvest_node value out; members fields out
         end) fields out
  | JArray elements =>
      (fix items (elements : list json) (out : GcRoots) : expected ReaderError GcRoots :=
         match elements with
         | [] => Ok out
         | v :: elements => out ← harvest_node v out; items elements out
         end) elements out
  | _ => Ok out
  end.

(** ** The subtraction *)

Definition unreferenced_tiles (referenced : gset str) (present : list str) : list str :=
  filter (λ name, name ∉ referenced) present.

(** Referenced: the key itself, the same tail under a longer prefix, or a shared basename. *)
Definition rooted (referenced : gset str) (key : str) : bool :=
  bool_decide (key ∈ referenced)
  || existsb (λ ref, ends_with ref (slash :: key) || bool_decide (basename_of ref = basename_of key)) (elements referenced).

Definition unreferenced_assets (referenced : gset str) (present : list str) : list str :=
  filter (λ key, rooted referenced key = false) present.

(** ** The seam *)

Inductive AssetReaperError := EnumerateFailed | RemoveFailed.

Class AssetReaper (St : Type) := {
  list_tile_hashes : ST St AssetReaperError (list str);
  tile_size : str → ST St AssetReaperError Z;
  remove_tile : str → ST St AssetReaperError bool;
  list_asset_uris : ST St AssetReaperError (list str);
  asset_size : str → ST St AssetReaperError Z;
  remove_asset : str → ST St AssetReaperError bool }.

(** ** The sweep *)

Record GcReport := mkReport { gc_scanned : Z; gc_referenced : Z; gc_deleted : Z; gc_bytes_reclaimed : Z }.

Inductive GcErrorKind := GcMarkFailed | GcEnumerateFailed | GcRemoveFailed.
Record GcError := mkGcError { ge_kind : GcErrorKind; ge_mark : ReaderError; ge_reap : AssetReaperError }.

Definition from_mark (e : ReaderError) : GcError := mkGcError GcMarkFailed e EnumerateFailed.
Definition from_reaper (e : AssetReaperError) : GcError :=
  mkGcError (match e with RemoveFailed => GcRemoveFailed | EnumerateFailed => GcEnumerateFailed end) (mkReaderError MalformedJson []) e.

(** An error of the reaper ends the sweep. *)
Definition reaped {St A} (m : ST St AssetReaperError A) : ST St GcError A := fun s =>
  match m s with (s, Ok a) => (s, Ok a) | (s, Err e) => (s, Err (from_reaper e)) end.

Section sweep.
Context {St : Type} `{AssetReaper St}.

Fixpoint size_plan (size : str → ST St AssetReaperError Z) (dead : list str) (bytes : Z) : ST St GcError Z :=
  match dead with
  | [] => mret bytes
  | key :: dead => n ← reaped (size key); size_plan size dead (u64 (bytes + n))
  end.

Fixpoint unlink_plan (unlink : str → ST St AssetReaperError bool) (dead : list str) : ST St GcError unit :=
  match dead with
  | [] => mret tt
  | key :: dead => _ ← reaped (unlink key); unlink_plan unlink dead
  end.

Definition sweep_tile_store (referenced : gset str) (dry_run : bool) : ST St GcError GcReport :=
  present ← reaped list_tile_hashes;
  let dead := unreferenced_tiles referenced present in
  bytes ← size_plan tile_size dead 0;
  let report := mkReport (u64 (Z.of_nat (length present))) (u64 (Z.of_nat (size referenced)))
                  (u64 (Z.of_nat (length dead))) bytes in
  if dry_run then mret report
  else _ ← unlink_plan remove_tile dead; mret report.

Definition sweep_asset_store (roots : GcRoots) (dry_run : bool) : ST St GcError GcReport :=
  report ← sweep_tile_store (gr_tiles roots) dry_run;
  present ← reaped list_asset_uris;
  let dead := unreferenced_assets (gr_assets roots) present in
  bytes ← size_plan asset_size dead 0;
  let report := mkReport (u64 (gc_scanned report + Z.of_nat (length present)))
                  (u64 (gc_referenced report + Z.of_nat (size (gr_assets roots))))
                  (u64 (gc_deleted report + Z.of_nat (length dead))) (u64 (gc_bytes_reclaimed report + bytes)) in
  if dry_run then mret report
  else _ ← unlink_plan remove_asset dead; mret report.
End sweep.

(** ** The reaper of a file system *)

Record ResolvedBase := mkBase { rb_authored : str; rb_root : str }.
Record FilesystemAssetReaper := mkReaper { r_base_uri : str; r_root : str; r_asset_bases : list ResolvedBase }.

Definition new_reaper (tiles_base_uri : str) (asset_bases : list (str * str)) : FilesystemAssetReaper :=
  mkReaper tiles_base_uri (strip_file_scheme tiles_base_uri)
    (map (λ base, mkBase base.1 (strip_file_scheme base.2)) asset_bases).

Section reaper.
Context (fault : nat → bool) (listing : list (list str) → list (list str)).

(** [exists] of a root, then a walk of what is under it; no subtree, no entries. *)
Definition walk_tree {A} (root : str) (body : list str → A → ST Disk AssetReaperError A) (acc : A) : ST Disk AssetReaperError A := fun k =>
  match query fault (exists_path root) k with
  | (k, Err _) => (k, Err EnumerateFailed)
  | (k, Ok false) => (k, Ok acc)
  | (k, Ok true) =>
      match open_iterator fault listing root true k with
      | (k, Err _) => (k, Err EnumerateFailed)
      | (k, Ok it) => iterate fault (S (length it)) EnumerateFailed body it false acc k
      end
  end.

(** [directory_entry::is_regular_file(fec)], and no error. *)
Definition regular_entry (root : str) (names : list str) : Disk → Disk * bool := fun k =>
  match query fault (is_regular_file (entry_path root names)) k with
  | (k, Ok b) => (k, b)
  | (k, Err _) => (k, false)
  end.

Definition fs_list_tile_hashes (r : FilesystemAssetReaper) : ST Disk AssetReaperError (list str) :=
  walk_tree (r_root r) (λ names out k,
    let '(k, regular) := regular_entry (r_root r) names k in
    let name := filename (entry_path (r_root r) names) in
    (k, Ok (if regular && is_tile_hash name then out ++ [name] else out))) [].

Definition tile_path (r : FilesystemAssetReaper) (hash : str) : str := strip_file_scheme (tile_blob_uri (r_base_uri r) hash).

Definition fs_size (path : str) : ST Disk AssetReaperError Z := fun k =>
  match call fault (λ fs, (fs, file_size path fs)) k with (k, Ok n) => (k, Ok (u64 n)) | (k, Err _) => (k, Err EnumerateFailed) end.

(** Unlink a blob; when it was there, prune the directory it leaves empty, if that may go. *)
Definition fs_unlink (path parent : str) (prune : bool) : ST Disk AssetReaperError bool := fun k =>
  match call fault (remove path) k with
  | (k, Err _) => (k, Err RemoveFailed)
  | (k, Ok removed) =>
      let k := if removed && prune then (call fault (remove parent) k).1 else k in (k, Ok removed)
  end.

Definition fs_tile_size (r : FilesystemAssetReaper) (hash : str) : ST Disk AssetReaperError Z := fs_size (tile_path r hash).

Definition fs_remove_tile (r : FilesystemAssetReaper) (hash : str) : ST Disk AssetReaperError bool :=
  fs_unlink (tile_path r hash) (parent_path (tile_path r hash)) true.

Definition asset_path (r : FilesystemAssetReaper) (uri : str) : option str :=
  match filter (λ base, starts_with uri (rb_authored base) = true) (r_asset_bases r) with
  | [] => None
  | base :: _ =>
      match drop (length (rb_authored base)) uri with
      | [] => None
      | tail =>
          let candidate := lexically_normal (path_append (rb_root base) tail) in
          let root := lexically_normal (rb_root base) in
          match lexically_relative candidate root with
          | [] => None
          | first :: _ => if decide (first = dotdot) then None else Some candidate
          end
      end
  end.

(** One base after the other. *)
Fixpoint list_bases (bases : list ResolvedBase) (out : list str) : ST Disk AssetReaperError (list str) :=
  match bases with
  | [] => mret out
  | base :: bases =>
      out ← walk_tree (rb_root base) (λ names out k,
        let '(k, regular) := regular_entry (rb_root base) names k in
        let relative := lexically_relative (entry_path (rb_root base) names) (rb_root base) in
        (k, Ok (if regular then out ++ [rb_authored base ++ join_slash relative] else out))) out;
      list_bases bases out
  end.

Definition fs_list_asset_uris (r : FilesystemAssetReaper) : ST Disk AssetReaperError (list str) := list_bases (r_asset_bases r) [].

Definition fs_asset_size (r : FilesystemAssetReaper) (uri : str) : ST Disk AssetReaperError Z :=
  match asset_path r uri with None => st_fail EnumerateFailed | Some path => fs_size path end.

Definition fs_remove_asset (r : FilesystemAssetReaper) (uri : str) : ST Disk AssetReaperError bool :=
  match asset_path r uri with
  | None => st_fail RemoveFailed
  | Some path =>
      let parent := lexically_normal (parent_path path) in
      let is_base := existsb (λ base, bool_decide (lexically_normal (rb_root base) = parent)) (r_asset_bases r) in
      fs_unlink path parent (negb is_base)
  end.

(** The file system keeps the promises of the seam through these. *)
Definition filesystem_reaper (r : FilesystemAssetReaper) : AssetReaper Disk := {|
  list_tile_hashes := fs_list_tile_hashes r; tile_size := fs_tile_size r; remove_tile := fs_remove_tile r;
  list_asset_uris := fs_list_asset_uris r; asset_size := fs_asset_size r; remove_asset := fs_remove_asset r |}.

(** ** A project directory *)

Context (parse : str → option json).

Definition collect_referenced_assets (document_json : str) : expected ReaderError GcRoots :=
  match parse document_json with
  | None => Err (mark_error MalformedJson (lit "/"))
  | Some doc => harvest_node doc no_roots
  end.

Definition collect_referenced_tiles (document_json : str) : expected ReaderError (gset str) :=
  roots ← collect_referenced_assets document_json; Ok (gr_tiles roots).

Definition k_tiles_base : str := lit "assets/tiles/".
Definition k_images_base : str := lit "assets/images/".
Definition k_document : str := lit "project.arbc".

(** One entry of the directory: a document joins its marks, anything else is passed over. *)
Definition mark_entry (project_dir : str) (names : list str) (referenced : GcRoots) : ST Disk GcError GcRoots := fun k =>
  let '(k, regular) := regular_entry project_dir names k in
  let path := entry_path project_dir names in
  if negb regular then (k, Ok referenced)
  else if negb (bool_decide (extension path = lit ".arbc")) then (k, Ok referenced)
  else match read_stream fault path k with
  | (k, Err _) => (k, Err (from_mark (mark_error MalformedJson path)))
  | (k, Ok text) =>
      match collect_referenced_assets text with
      | Err e => (k, Err (from_mark e))
      | Ok refs => (k, Ok (mkRoots (gr_tiles refs ∪ gr_tiles referenced) (gr_assets refs ∪ gr_assets referenced)))
      end
  end.

Definition mark_directory (project_dir : str) : ST Disk GcError GcRoots := fun k =>
  let unreadable := from_mark (mark_error MalformedJson project_dir) in
  match query fault (exists_path project_dir) k with
  | (k, Ok true) =>
      match open_iterator fault listing project_dir false k with
      | (k, Err _) => (k, Err unreadable)
      | (k, Ok it) => iterate fault (S (length it)) unreadable (mark_entry project_dir) it false no_roots k
      end
  | (k, _) => (k, Err unreadable)
  end.

Definition project_reaper (project_dir : str) : FilesystemAssetReaper :=
  let base_doc := path_append project_dir k_document in
  new_reaper (resolve_uri base_doc k_tiles_base) [(k_images_base, resolve_uri base_doc k_images_base)].

Definition gc_project_directory (project_dir : str) (dry_run : bool) : ST Disk GcError GcReport :=
  referenced ← mark_directory project_dir;
  sweep_asset_store (H := filesystem_reaper (project_reaper project_dir)) referenced dry_run.
End reaper.

(** ** What the mark walk finds *)

(** Nodes of a document, however deep. *)
Inductive reaches : json → json → Prop :=
| reaches_here node : reaches node node
| reaches_field fields value node : value ∈ map snd fields → reaches value node → reaches (JObject fields) node
| reaches_item elements v node : v ∈ elements → reaches v node → reaches (JArray elements) node.

(** The [params] objects of a document. *)
Definition params_of (doc : json) (params : list (str * json)) : Prop :=
  ∃ fields, reaches doc (JObject fields) ∧ find_field (lit "params") fields = Some (JObject params).

Definition names_blob (params : list (str * json)) (hash : str) : Prop :=
  ∃ entries, find_field (lit "blobs") params = Some (JArray entries) ∧ JString hash ∈ entries.
Definition names_source (params : list (str * json)) (source : str) : Prop :=
  find_field (lit "source") params = Some (JString source) ∧ source ≠ [].

(** What a reference may look like: hashes in an array, a string. *)
Definition well_marked (params : list (str * json)) : Prop :=
  match find_field (lit "blobs") params with
  | None => True
  | Some (JArray entries) => ∀ entry, entry ∈ entries → ∃ hash, entry = JString hash ∧ is_tile_hash hash = true
  | Some _ => False
  end ∧
  match find_field (lit "source") params with None | Some (JString _) => True | Some _ => False end.

(** A step of the walk: adds what is named below, or stops at something malformed. *)
Definition marks (blob source : str → Prop) (ok : Prop) (out : GcRoots) (r : expected ReaderError GcRoots) : Prop :=
  match r with
  | Ok out' => ok ∧ (∀ h, h ∈ gr_tiles out' ↔ h ∈ gr_tiles out ∨ blob h) ∧
      (∀ a, a ∈ gr_assets out' ↔ a ∈ gr_assets out ∨ ∃ s, source s ∧ a = normalize_asset_uri s)
  | Err e => ¬ ok ∧ re_kind e = MalformedField
  end.

Lemma marks_none out : marks (λ _, False) (λ _, False) True out (Ok out).
Proof. split_and!; [done|intros h; tauto|]. intros a. split; [by left|]. intros [?|(s & [] & _)]; done. Qed.

Lemma marks_ext blob source ok blob' source' ok' out r :
  marks blob source ok out r → (∀ h, blob h ↔ blob' h) → (∀ s, source s ↔ source' s) → (ok ↔ ok') → marks blob' source' ok' out r.
Proof.
  intros H Hb Hs Ho. unfold marks in *. destruct r as [out'|e]; [|by rewrite <- Ho]. destruct H as (H1 & H2 & H3).
  split_and!; [tauto|intros h; rewrite H2, Hb; done|]. intros a. rewrite H3. by setoid_rewrite Hs.
Qed.

(** One step after another. *)
Lemma marks_bind blob1 source1 ok1 blob2 source2 ok2 out r (k : GcRoots → expected ReaderError GcRoots) :
  marks blob1 source1 ok1 out r → (∀ out', marks blob2 source2 ok2 out' (k out')) →
  marks (λ h, blob1 h ∨ blob2 h) (λ s, source1 s ∨ source2 s) (ok1 ∧ ok2) out (mbind k r).
Proof.
  intros H1 H2. destruct r as [out1|e]; cbn; [|unfold marks in *; tauto]. specialize (H2 out1). destruct (k out1) as [out2|e]; unfold marks in *.
  - destruct H1 as (O1 & T1 & A1), H2 as (O2 & T2 & A2). split_and!; [done|done| |].
    + intros h. rewrite T2, T1. tauto.
    + intros a. rewrite A2, A1. split; [intros [[?|(s & ? & ?)]|(s & ? & ?)]|intros [?|(s & [?|?] & ?)]]; eauto 6.
  - tauto.
Qed.

Lemma harvest_blobs_marks entries out :
  marks (λ h, JString h ∈ entries) (λ _, False) (∀ entry, entry ∈ entries → ∃ hash, entry = JString hash ∧ is_tile_hash hash = true)
    out (harvest_blobs entries out).
Proof.
  revert out. induction entries as [|entry entries IH]; intros out.
  { eapply marks_ext; [apply marks_none|..]; intros; rewrite ?elem_of_nil; try tauto. split; [|done]. by intros _ e ?%elem_of_nil. }
  cbn [harvest_blobs]. destruct entry as [fields|elements|hash| | | |];
    try (split; [|done]; intros H; destruct (H _ (list_elem_of_here _ _)) as (? & ? & _); done).
  destruct (is_tile_hash hash) eqn:Eh.
  2: { split; [|done]. intros H. destruct (H _ (list_elem_of_here _ _)) as (? & [= <-] & ?). congruence. }
  specialize (IH (mkRoots ({[hash]} ∪ gr_tiles out) (gr_assets out))). unfold marks in *. destruct (harvest_blobs entries _) as [out'|e].
  - destruct IH as (O & T & A). split_and!; [|intros h; rewrite T; cbn; set_solver|done].
    intros entry [->|Hin]%elem_of_cons; [eauto|by apply O].
  - destruct IH as [O E]. split; [|done]. intros H. apply O. intros entry Hin. apply H. by right.
Qed.

Lemma harvest_params_marks params out :
  marks (names_blob params) (names_source params) (well_marked params) out (harvest_params params out).
Proof.
  unfold harvest_params.
  eapply marks_ext with (blob := λ h, names_blob params h ∨ False) (source := λ s, False ∨ names_source params s); [|intros; tauto..|].
  - apply marks_bind with (ok1 := match find_field (lit "blobs") params with
      | None => True
      | Some (JArray entries) => ∀ entry, entry ∈ entries → ∃ hash, entry = JString hash ∧ is_tile_hash hash = true
      | Some _ => False end)
      (ok2 := match find_field (lit "source") params with None | Some (JString _) => True | Some _ => False end).
    + unfold names_blob. destruct (find_field (lit "blobs") params) as [[| entries | | | | |]|]; try (by split; [intros []|]).
      * eapply marks_ext; [apply harvest_blobs_marks|..]; try done. intros h. split; [eauto|]. by intros (? & [= ->] & ?).
      * eapply marks_ext; [apply marks_none|..]; try done. intros h. split; [done|]. by intros (? & ? & _).
    + intros out'. unfold names_source. destruct (find_field (lit "source") params) as [[| |[|c source]| | | |]|]; try (by split; [intros []|]).
      * eapply marks_ext; [apply marks_none|..]; try done. intros s. split; [done|]. by intros [[= <-] ?].
      * split_and!; [done|intros h; tauto|]. intros a. cbn [gr_assets]. rewrite elem_of_union, elem_of_singleton. split.
        -- intros [->|?]; [right|by left]. by exists (c :: source).
        -- intros [?|(s & [[= <-] _] & ->)]; [by right|by left].
      * eapply marks_ext; [apply marks_none|..]; try done. intros s. split; [done|]. by intros [? _].
  - unfold well_marked. done.
Qed.

Definition doc_blob (doc : json) (hash : str) : Prop := ∃ params, params_of doc params ∧ names_blob params hash.
Definition doc_source (doc : json) (source : str) : Prop := ∃ params, params_of doc params ∧ names_source params source.
Definition doc_well_marked (doc : json) : Prop := ∀ params, params_of doc params → well_marked params.

Fixpoint harvest_all (nodes : list json) (out : GcRoots) : expected ReaderError GcRoots :=
  match nodes with [] => Ok out | v :: nodes => out ← harvest_node v out; harvest_all nodes out end.

Lemma harvest_object fields out :
  harvest_node (JObject fields) out =
    (out ← match find_field (lit "params") fields with Some (JObject params) => harvest_params params out | _ => Ok out end;
     harvest_all (map snd fields) out).
Proof.
  cbn [harvest_node]. set (own := match find_field _ fields with Some _ => _ | None => _ end). destruct own as [out1|e]; [|done].
  cbn [mbind expected_bind]. clear out. revert out1. induction fields as [|[key value] fields IH]; intros out; [done|].
  cbn [map snd harvest_all]. by destruct (harvest_node value out); cbn.
Qed.

Lemma harvest_all_marks nodes out :
  Forall (λ node, ∀ out, marks (doc_blob node) (doc_source node) (doc_well_marked node) out (harvest_node node out)) nodes →
  marks (λ h, ∃ v, v ∈ nodes ∧ doc_blob v h) (λ s, ∃ v, v ∈ nodes ∧ doc_source v s) (∀ v, v ∈ nodes → doc_well_marked v)
    out (harvest_all nodes out).
Proof.
  revert out. induction nodes as [|node nodes IH]; intros out HF.
  { eapply marks_ext; [apply marks_none|..]; [intros h|intros s|]; split; try done; try (by intros (? & ?%elem_of_nil & _)).
    by intros _ v ?%elem_of_nil. }
  apply Forall_cons in HF as [Hn HF]. cbn [harvest_all]. eapply marks_ext.
  - apply marks_bind; [apply Hn|]. intros out'. by apply IH.
  - intros h. setoid_rewrite elem_of_cons. split; [intros [?|(v & ? & ?)]|intros (v & [->|?] & ?)]; eauto.
  - intros s. setoid_rewrite elem_of_cons. split; [intros [?|(v & ? & ?)]|intros (v & [->|?] & ?)]; eauto.
  - setoid_rewrite elem_of_cons. split; [by intros [? ?] v [->|?]; [|auto]|]. intros H. split; [apply H; by left|]. intros v Hv. apply H. by right.
Qed.

(** What is below an object is its own [params], or below one of its members. *)
Lemma params_of_object fields params :
  params_of (JObject fields) params ↔
    find_field (lit "params") fields = Some (JObject params) ∨ ∃ v, v ∈ map snd fields ∧ params_of v params.
Proof.
  split.
  - intros (fs & Hr & Hf). inversion Hr; subst; [by left|right]. eexists. split; [done|]. by exists fs.
  - intros [Hf|(v & Hv & fs & Hr & Hf)]; [exists fields|exists fs]; (split; [|done]); econstructor; done.
Qed.

Lemma params_of_array elements params :
  params_of (JArray elements) params ↔ ∃ v, v ∈ elements ∧ params_of v params.
Proof.
  split.
  - intros (fs & Hr & Hf). inversion Hr; subst. eexists. split; [done|]. by exists fs.
  - intros (v & Hv & fs & Hr & Hf). exists fs. split; [by econstructor|done].
Qed.

Lemma params_of_leaf node params : (∀ fields, node ≠ JObject fields) → (∀ elements, node ≠ JArray elements) → ¬ params_of node params.
Proof. intros H1 H2 (fs & Hr & _). inversion Hr; subst; [by destruct (H1 fs)|by eapply H1|by eapply H2]. Qed.

Lemma leaf_marks node out :
  (∀ fields, node ≠ JObject fields) → (∀ elements, node ≠ JArray elements) →
  marks (doc_blob node) (doc_source node) (doc_well_marked node) out (Ok out).
Proof.
  intros H1 H2. pose proof (λ params, params_of_leaf node params H1 H2) as H.
  eapply marks_ext; [apply marks_none|..]; [intros h|intros x|]; split; try done;
    [by intros (params & ?%H & _)|by intros (params & ?%H & _)|by intros _ params ?%H].
Qed.

Lemma harvest_node_marks node out :
  marks (doc_blob node) (doc_source node) (doc_well_marked node) out (harvest_node node out).
Proof.
  revert out. induction node as [fields IH|elements IH|v Hv] using json_nested_ind; intros out.
  - rewrite harvest_object. set (own := λ params, find_field (lit "params") fields = Some (JObject params)).
    eapply marks_ext with
      (blob := λ h, (∃ params, own params ∧ names_blob params h) ∨ ∃ v, v ∈ map snd fields ∧ doc_blob v h)
      (source := λ s, (∃ params, own params ∧ names_source params s) ∨ ∃ v, v ∈ map snd fields ∧ doc_source v s)
      (ok := (∀ params, own params → well_marked params) ∧ ∀ v, v ∈ map snd fields → doc_well_marked v).
    + apply marks_bind; [|intros out'; by apply harvest_all_marks]. unfold own.
      destruct (find_field (lit "params") fields) as [[params| | | | | |]|];
        first [eapply marks_ext; [apply harvest_params_marks|..]|eapply marks_ext; [apply marks_none|..]];
        try intros x; split; eauto; first [done|by intros (? & [= <-] & ?)|by intros (? & ? & _)|by intros H ? [= <-]|by intros H; apply H].
    + intros h. unfold doc_blob. setoid_rewrite params_of_object. fold own. split.
      * intros [(params & ? & ?)|(v & ? & params & ? & ?)]; eauto 6.
      * intros (params & [?|(v & ? & ?)] & ?); eauto 6.
    + intros s. unfold doc_source. setoid_rewrite params_of_object. fold own. split.
      * intros [(params & ? & ?)|(v & ? & params & ? & ?)]; eauto 6.
      * intros (params & [?|(v & ? & ?)] & ?); eauto 6.
    + unfold doc_well_marked. setoid_rewrite params_of_object. fold own. split.
      * intros [H1 H2] params [?|(v & ? & ?)]; eauto.
      * intros H. split; eauto.
  - change (harvest_node (JArray elements) out) with (harvest_all elements out).
    eapply marks_ext; [by apply harvest_all_marks|..].
    + intros h. unfold doc_blob. setoid_rewrite params_of_array. split; [intros (v & ? & params & ? & ?)|intros (params & (v & ? & ?) & ?)]; eauto 6.
    + intros s. unfold doc_source. setoid_rewrite params_of_array. split; [intros (v & ? & params & ? & ?)|intros (params & (v & ? & ?) & ?)]; eauto 6.
    + unfold doc_well_marked. setoid_rewrite params_of_array. split; [intros H params (v & ? & ?)|intros H v ? params ?]; eauto.
  - destruct v; try done; by apply leaf_marks.
Qed.

(** The mark walk finds every reference and nothing else: the hashes and sources named by a
    [params] object anywhere in the document; and it gives up exactly on text that does not
    parse or a reference of the wrong shape, never returning part of the marks. *)
Lemma mark_exact parse text :
  match collect_referenced_assets parse text with
  | Ok roots => ∃ doc, parse text = Some doc ∧ doc_well_marked doc ∧ (∀ h, h ∈ gr_tiles roots ↔ doc_blob doc h) ∧
      (∀ a, a ∈ gr_assets roots ↔ ∃ s, doc_source doc s ∧ a = normalize_asset_uri s)
  | Err e => (parse text = None ∧ re_kind e = MalformedJson) ∨
      ∃ doc, parse text = Some doc ∧ ¬ doc_well_marked doc ∧ re_kind e = MalformedField
  end.
Proof.
  unfold collect_referenced_assets. destruct (parse text) as [doc|]; [|by left].
  pose proof (harvest_node_marks doc no_roots) as H. unfold marks in H. destruct (harvest_node doc no_roots) as [roots|e].
  - destruct H as (O & T & A). exists doc. split_and!; [done|done| |]; intros x; [rewrite T|rewrite A]; cbn; set_solver.
  - right. by exists doc.
Qed.

(** ** Where things are *)

Ltac proper_names := repeat (apply Forall_cons; split; [done|]); done.

Lemma spell_not_schemed l : named l → strip_file_scheme (spell l) = spell l.
Proof.
  intros HN. unfold strip_file_scheme. destruct (starts_with (spell l) k_file) eqn:E; [|done]. exfalso.
  unfold starts_with in E. apply bool_decide_eq_true in E. destruct (spell_facts l HN) as (_ & _ & Es).
  rewrite <- (take_drop (length k_file) (spell l)), E in Es. cbn in Es.
  destruct HN as [HN _]. assert ([] ∉ loc_names l) as Hno by (intros H; by eapply (normal_nonempty _ _ [] HN)).
  destruct (loc_absolute l); cbn in Es; [done|]. apply Hno. rewrite <- Es. right. by left.
Qed.

Lemma hash_proper h : is_tile_hash h = true → proper h ∧ proper (take 2 h) ∧ slash_free h.
Proof.
  unfold is_tile_hash. intros [Hl Hh]%andb_true_iff. apply Nat.eqb_eq in Hl.
  assert (∀ c, c ∈ h → is_hex_char c = true) as Hc by (by intros c Hin; eapply forallb_forall; [|by apply list_elem_of_In]).
  assert (∀ l, (∀ c, c ∈ l → is_hex_char c = true) → l ≠ [] → proper l) as Hp.
  { intros l Hall Hne. split_and!; [|done| |]; [|intros ->..].
    - intros Hin. by specialize (Hall _ Hin).
    - specialize (Hall "."%char ltac:(by left)). done.
    - specialize (Hall "."%char ltac:(by left)). done. }
  assert (length h = 32%nat) as Hlen by exact Hl.
  split_and!; [apply Hp; [done|by intros ->]|apply Hp|apply Hp; [done|by intros ->]].
  - intros c Hin. apply Hc. eapply elem_of_take in Hin as (i & Hi & _). by eapply list_elem_of_lookup_2.
  - by destruct h.
Qed.

(** The path of a tile under a base. *)
Lemma tile_path_spell l bases h :
  named l → is_tile_hash h = true →
  tile_path (mkReaper (spell l) (spell l) bases) h = spell (below l [take 2 h; h]).
Proof.
  intros HN Hh. destruct (hash_proper h Hh) as (Hp1 & Hp2 & _).
  assert (Forall proper [take 2 h; h]) as HF by proper_names. unfold tile_path. cbn [r_base_uri].
  assert (tile_blob_uri (spell l) h = spell (below l [take 2 h; h])) as ->.
  { rewrite <- (append_spell l [take 2 h; h]) by done.
    destruct (spell_last l HN) as (c & Hc & Hcs). unfold tile_blob_uri, path_append. rewrite join_relative by done.
    rewrite Hc. destruct (Ascii.ascii_dec c "/"%char) as [->|]; [done|]. rewrite decide_False by done.
    by rewrite <- (assoc_L (++)). }
  by apply spell_not_schemed, below_named; [apply HN|..].
Qed.

(** The bases of a project directory. *)
Definition tiles_at (dir : str) : Location := below (locate dir) [lit "assets"; lit "tiles"].
Definition images_at (dir : str) : Location := below (locate dir) [lit "assets"; lit "images"].

(** The directory is not itself written as the beginning of a URL. *)
Definition plain_directory (dir : str) : Prop :=
  has_scheme (path_append dir k_tiles_base) = false ∧ has_scheme (path_append dir k_images_base) = false.

Lemma base_named dir a b : proper a → proper b → named (below (locate dir) [a; b]).
Proof. intros Ha Hb. apply below_named; [apply segments_normal|proper_names|done]. Qed.

Lemma constant_names : proper (lit "assets") ∧ proper (lit "tiles") ∧ proper (lit "images").
Proof. split_and!; apply (bool_decide_unpack _); vm_compute; exact I. Qed.

Lemma resolve_base dir a b :
  proper a → proper b → let base := a ++ slash :: b ++ [slash] in
  has_scheme base = false → has_scheme (path_append dir base) = false →
  resolve_uri (path_append dir k_document) base = spell (below (locate dir) [a; b]).
Proof.
  intros Ha Hb base Hs Hd. assert (is_absolute base = false) as Hr.
  { destruct Ha as (Hf & Hne & _). unfold base. destruct a as [|c a]; [done|]. apply bool_decide_eq_false. intros ->. apply Hf. by left. }
  unfold resolve_uri. rewrite Hs, Hr. cbn [orb].
  assert (slash_free k_document ∧ k_document ≠ []) as [Hf Hne] by (split; [apply (bool_decide_unpack _); vm_compute; exact I|done]).
  rewrite dir_part_append by done. unfold normalize_uri. rewrite Hd.
  pose proof (locate_path_append dir base Hr) as E.
  assert (split_slash base = [a; b; []]) as Esplit.
  { unfold base. rewrite split_slash_app, (split_slash_single a), split_slash_app, (split_slash_single b) by (apply Ha || apply Hb). done. }
  rewrite Esplit in E. cbn [foldl] in E. rewrite push_empty, !push_proper in E by done. rewrite <- (assoc_L (++)) in E.
  change (is_absolute (path_append dir base)) with (loc_absolute (locate (path_append dir base))).
  change (segments (path_append dir base)) with (loc_names (locate (path_append dir base))). by rewrite E.
Qed.

Lemma project_reaper_spec dir (Hd : plain_directory dir) :
  project_reaper dir = mkReaper (spell (tiles_at dir)) (spell (tiles_at dir)) [mkBase k_images_base (spell (images_at dir))].
Proof.
  destruct constant_names as (Ha & Ht & Hi), Hd as [Hd1 Hd2]. unfold project_reaper, new_reaper. cbn [map fst snd].
  pose proof (resolve_base dir _ _ Ha Ht eq_refl Hd1) as E1. pose proof (resolve_base dir _ _ Ha Hi eq_refl Hd2) as E2. cbv zeta in E1, E2.
  change (lit "assets" ++ slash :: lit "tiles" ++ [slash]) with k_tiles_base in E1.
  change (lit "assets" ++ slash :: lit "images" ++ [slash]) with k_images_base in E2. rewrite E1, E2.
  unfold tiles_at, images_at. by rewrite !spell_not_schemed by (by apply base_named).
Qed.

(** The key of a file of the images, and the path of a key. *)
Definition image_key (names : list str) : str := k_images_base ++ join_slash names.

Lemma join_nonempty names : Forall proper names → names ≠ [] → join_slash names ≠ [].
Proof.
  intros HF Hne. destruct names as [|seg names]; [done|]. apply Forall_cons in HF as [(_ & Hs & _) _].
  destruct names; cbn; [done|]. by destruct seg.
Qed.

Lemma asset_path_spell base l names :
  named l → Forall proper names → names ≠ [] →
  asset_path (mkReaper base base [mkBase k_images_base (spell l)]) (image_key names) = Some (spell (below l names)).
Proof.
  intros HN HF Hne. unfold asset_path, image_key. cbn [r_asset_bases]. rewrite filter_cons_True.
  2: { unfold starts_with. cbn [rb_authored]. apply bool_decide_eq_true. by rewrite take_app_length. }
  cbn [rb_authored rb_root]. rewrite drop_app_length.
  destruct (join_slash names) as [|c tail] eqn:Ej; [by destruct (join_nonempty names)|]. rewrite <- Ej. cbv zeta.
  rewrite append_spell, !spell_normal, relative_spell by first [done|by apply below_named; [apply HN|..]].
  destruct names as [|first names]; [done|]. apply Forall_cons in HF as [(_ & _ & _ & Hd) _]. by rewrite decide_False.
Qed.

Lemma image_key_basename names top : last names = Some top → Forall proper names → basename_of (image_key names) = top.
Proof.
  intros Hl HF. assert (last (split_slash (image_key names)) = Some top) as E.
  2: { rewrite last_segment in E. by injection E. }
  assert (∀ front, last (split_slash (front ++ slash :: join_slash names)) = Some top) as H.
  { intros front. assert (Forall slash_free names) as Hf by (eapply Forall_impl; [exact HF|by intros ? []]).
    rewrite split_slash_app, split_join by (done || by intros ->).
    by rewrite last_app, Hl. }
  exact (H (lit "assets/images")).
Qed.

(** ** A well-formed tree *)

Record fs_ok (fs : FileSystem) : Prop := {
  ok_normal : ∀ l, is_Some (fs !! l) → normal (loc_absolute l) (loc_names l);
  ok_file : ∀ l bytes, fs !! l = Some (NFile bytes) → named l;
  ok_parent : ∀ l name, is_Some (fs !! below l [name]) → fs !! l = Some NDir }.

Lemma under_below l names : names ≠ [] → strictly_under l (below l names) = true.
Proof.
  intros Hne. unfold strictly_under, below. cbn. rewrite Bool.eqb_reflx, take_app_length, bool_decide_eq_true_2 by done.
  cbn. apply Nat.ltb_lt. rewrite length_app. destruct names; [done|cbn; lia].
Qed.

Lemma under_spec l l' : strictly_under l l' = true → ∃ names, l' = below l names ∧ names ≠ [] ∧ drop (length (loc_names l)) (loc_names l') = names.
Proof.
  unfold strictly_under. intros [[Ha Ht]%andb_true_iff Hl]%andb_true_iff. apply Bool.eqb_prop in Ha.
  apply bool_decide_eq_true in Ht. apply Nat.ltb_lt in Hl. exists (drop (length (loc_names l)) (loc_names l')). split_and!; [| |done].
  - destruct l' as [a' names']. unfold below. cbn in *. rewrite <- Ha. f_equal. rewrite <- Ht at 1. by rewrite take_drop.
  - intros E. apply (f_equal length) in E. rewrite length_drop in E. cbn in E. lia.
Qed.

Lemma remove_spec p fs :
  (remove p fs).1 = fs ∨ ((remove p fs).1 = delete (locate p) fs ∧ is_Some (fs !! locate p) ∧
    ∀ name, fs !! locate p = Some NDir → fs !! below (locate p) [name] = None).
Proof.
  unfold remove. destruct p as [|c p']; [by left|]. set (p := c :: p'). change (lookup_path p fs) with (fs !! locate p).
  destruct (fs !! locate p) as [[bytes|]|] eqn:E; [right|destruct (existsb _ _) eqn:Ex; [by left|right]|by left]; cbn [fst].
  - split_and!; [done|eauto|done].
  - split_and!; [done|eauto|]. intros name _. destruct (fs !! below (locate p) [name]) as [node|] eqn:Eb; [|done]. exfalso.
    apply not_true_iff_false in Ex. apply Ex, existsb_exists. exists (below (locate p) [name]). split; [|by apply under_below].
    apply list_elem_of_In, list_elem_of_fmap. exists (below (locate p) [name], node). split; [done|]. by apply elem_of_map_to_list.
Qed.

Lemma remove_ok p fs : fs_ok fs → fs_ok (remove p fs).1.
Proof.
  intros [H1 H2 H3]. destruct (remove_spec p fs) as [->|(-> & [node E] & Hd)]; [done|]. split.
  - intros l [x Hl]. apply lookup_delete_Some in Hl as [_ Hl]. eauto.
  - intros l bytes Hl. apply lookup_delete_Some in Hl as [_ Hl]. eauto.
  - intros l name [x Hl]. apply lookup_delete_Some in Hl as [_ Hl]. pose proof (H3 l name (ex_intro _ _ Hl)) as Hp.
    rewrite lookup_delete_ne; [done|]. intros <-. by rewrite Hd in Hl.
Qed.

(** ** What a sweep may not touch *)

Section kept.
Context (fs0 : FileSystem) (harmless : Location → Prop).

(** Well formed, with nothing new, and every file at a place the sweep must spare. *)
Definition kept (fs : FileSystem) : Prop :=
  fs_ok fs ∧ fs ⊆ fs0 ∧ ∀ l bytes, harmless l → fs0 !! l = Some (NFile bytes) → fs !! l = Some (NFile bytes).

Lemma remove_kept p fs :
  (∀ bytes, fs !! locate p = Some (NFile bytes) → ¬ harmless (locate p)) → kept fs → kept (remove p fs).1.
Proof.
  intros Hp (Hok & Hsub & Hkept). split_and!; [by apply remove_ok| |].
  - destruct (remove_spec p fs) as [->|(-> & _)]; [done|]. etrans; [apply delete_subseteq|done].
  - intros l bytes Hl E. pose proof (Hkept l bytes Hl E) as Efs. destruct (remove_spec p fs) as [->|(-> & _)]; [done|].
    rewrite lookup_delete_ne; [done|]. intros <-. by eapply Hp.
Qed.

Lemma unlink_kept fault path parent prune k :
  proper (basename_of path) → ¬ harmless (locate path) → (parent = [] ∨ locate parent = locate (parent_path path)) →
  stays kept k → stays kept (fs_unlink fault path parent prune k).1.
Proof.
  intros Hp Hh Hparent Hk. unfold fs_unlink.
  pose proof (call_stays fault (remove path) kept k Hk ltac:(intros; by apply remove_kept)) as H1.
  pose proof (call_cases fault (remove path) k) as Hc. destruct (call fault (remove path) k) as [k1 [removed|e]]; [|exact H1].
  cbn [fst] in *. destruct (removed && prune) eqn:Er; cbn [fst]; [|done]. apply andb_true_iff in Er as [-> _].
  apply call_stays; [done|]. intros Hk1. destruct Hparent as [->|Ep]; [exact Hk1|].
  apply remove_kept; [|done]. intros bytes Hb. exfalso. rewrite Ep in Hb.
  destruct Hc as [[[= _] _]|[= -> Er]]. cbn [after k_files] in Hb. destruct Hk as [[Hok _] _].
  assert (is_Some (k_files k !! locate path)) as Hs.
  { unfold remove in Er. destruct path as [|c path']; [done|]. change (lookup_path (c :: path') (k_files k)) with (k_files k !! locate (c :: path')) in Er.
    by destruct (k_files k !! locate (c :: path')) as [[]|]. }
  rewrite (locate_parent path Hp) in Hs. pose proof (ok_parent _ Hok _ _ Hs) as Hd.
  destruct (remove_spec path (k_files k)) as [E|(E & _)]; rewrite E in Hb; [congruence|].
  apply lookup_delete_Some in Hb as [_ Hb]. congruence.
Qed.
End kept.

(** ** Walks *)

Section walks.
Context (fault : nat → bool) (listing : list (list str) → list (list str)).

(** A call that reads: the files and what is true of them stay. *)
Definition reads (k k' : Disk) : Prop :=
  k_files k' = k_files k ∧ (k_clock k <= k_clock k')%nat ∧ ∀ P, stays P k → stays P k'.

(** No call of a stretch failed. *)
Definition calm (k k' : Disk) : Prop := ∀ m, (k_clock k <= m < k_clock k')%nat → fault m = false.

#[export] Instance reads_preorder : PreOrder reads.
Proof.
  split; [by intros k; split_and!|]. intros k1 k2 k3 (E1 & L1 & H1) (E2 & L2 & H2). split_and!; [congruence|lia|auto].
Qed.

Lemma calm_split k1 k2 k3 : reads k1 k2 → reads k2 k3 → calm k1 k3 → calm k1 k2 ∧ calm k2 k3.
Proof. intros (_ & H1 & _) (_ & H2 & _) Hc. split; intros m Hm; apply Hc; lia. Qed.

Lemma call_reads {A} (f : FileSystem → FileSystem * expected unit A) k :
  (f (k_files k)).1 = k_files k →
  reads k (call fault f k).1 ∧ (calm k (call fault f k).1 → (call fault f k).2 = (f (k_files k)).2)
  ∧ ∀ a, (call fault f k).2 = Ok a → (f (k_files k)).2 = Ok a.
Proof.
  intros Hf. unfold call. destruct (fault (k_clock k)) eqn:E.
  - split_and!; [|intros Hc; rewrite Hc in E; [done|cbn; lia]|done].
    split_and!; [done|cbn; lia|]. intros P HP. apply after_stays; [done|apply HP].
  - destruct (f (k_files k)) as [fs r]. cbn [fst snd] in *. subst fs. split_and!; [|done|done].
    split_and!; [done|cbn; lia|]. intros P HP. apply after_stays; [done|apply HP].
Qed.

Lemma query_reads {A} (f : FileSystem → A) k :
  reads k (query fault f k).1 ∧ (calm k (query fault f k).1 → (query fault f k).2 = Ok (f (k_files k)))
  ∧ ∀ a, (query fault f k).2 = Ok a → a = f (k_files k).
Proof.
  destruct (call_reads (λ fs, (fs, Ok (f fs))) k eq_refl) as (H1 & H2 & H3). split_and!; [done|done|].
  intros a Ha. apply H3 in Ha. cbn in Ha. congruence.
Qed.

Lemma increment_reads it k :
  let '(k', (it', ec)) := increment fault it k in
  reads k k' ∧ (ec = false → it' = tail it) ∧ (ec = true → it' = []) ∧ (calm k k' → ec = false).
Proof.
  unfold increment. destruct (query_reads (λ _, tt) k) as (H1 & H2 & _). destruct (query fault (λ _, tt) k) as [k' [a|e]]; cbn [fst snd] in *.
  - by split_and!.
  - split_and!; [done|done|done|]. intros Hc. by apply H2 in Hc.
Qed.

(** Whatever the walk visits keeps an invariant; and a calm walk visits everything. *)
Lemma iterate_rule {E A} (broken : E) body fs (Q : list (list str) → A → Prop) (J : A → Prop) (V : E → Prop) fuel : ∀ it vis acc k,
  (∀ vis entry acc k, entry ∈ it → k_files k = fs →
    let '(k', r) := body entry acc k in reads k k' ∧
    match r with Ok acc' => (J acc → J acc') ∧ (calm k k' → Q vis acc → Q (vis ++ [entry]) acc') | Err e => V e end) →
  (length it < fuel)%nat → k_files k = fs →
  let '(k', r) := iterate fault fuel broken body it false acc k in
  reads k k' ∧ match r with Ok acc' => (J acc → J acc') ∧ (calm k k' → Q vis acc → Q (vis ++ it) acc') | Err e => V e end.
Proof.
  induction fuel as [|fuel IH]; intros it vis acc k Hbody Hf Hfs; [lia|].
  destruct it as [|entry it]; cbn [iterate]; [split; [done|]; split; [done|by rewrite app_nil_r]|].
  pose proof (Hbody vis entry acc k (list_elem_of_here _ _) Hfs) as Hb. destruct (body entry acc k) as [k1 [acc1|e]]; [|by destruct Hb].
  destruct Hb as (HR1 & HJ1 & HQ1). pose proof (increment_reads (entry :: it) k1) as Hi.
  destruct (increment fault (entry :: it) k1) as [k2 [it2 ec]]. destruct Hi as (Hr2 & Ht & He & Hcalm). destruct ec.
  - rewrite He by done. destruct fuel as [|fuel]; [cbn in Hf; lia|]. cbn [iterate]. split; [by etrans|].
    split; [done|]. intros Hc. destruct (calm_split _ _ _ HR1 Hr2 Hc) as [_ Hc2]. by apply Hcalm in Hc2.
  - rewrite Ht by done. cbn [tail]. specialize (IH it (vis ++ [entry]) acc1 k2).
    assert (reads k k2) as HR2 by (by etrans). destruct (iterate fault fuel broken body it false acc1 k2) as [k3 r]. destruct IH as [HR3 Hres].
    { intros vis' x acc' k' Hx. apply Hbody. by right. } { cbn in Hf; lia. } { destruct HR2 as [-> _]. done. }
    split; [by etrans|]. destruct r as [acc3|]; [|done]. destruct Hres as [HJ3 HQ3].
    split; [auto|]. intros Hc HQ. rewrite <- (assoc_L (++)) in HQ3. destruct (calm_split _ _ _ HR2 HR3 Hc) as [Hc2 Hc3].
    apply HQ3; [done|]. apply HQ1; [|done]. exact (proj1 (calm_split _ _ _ HR1 Hr2 Hc2)).
Qed.

Lemma open_iterator_reads p recursive k :
  let '(k', r) := open_iterator fault listing p recursive k in
  reads k k' ∧ match r with Ok it => it = entries listing p recursive (k_files k) | Err _ => True end.
Proof.
  unfold open_iterator. destruct (call_reads (λ fs, (fs, if is_directory p fs then Ok (entries listing p recursive fs) else Err tt)) k eq_refl) as (H1 & _ & H3).
  destruct (call _ _ k) as [k' [it|e]]; cbn [fst snd] in *; [|done]. split; [done|]. specialize (H3 it eq_refl).
  destruct (is_directory p (k_files k)); [by injection H3|done].
Qed.

Lemma walk_tree_rule {A} root (body : list str → A → ST Disk AssetReaperError A) (J : A → Prop) acc k :
  (∀ entry acc k', entry ∈ entries listing root true (k_files k) → k_files k' = k_files k →
    let '(k'', r) := body entry acc k' in reads k' k'' ∧ match r with Ok acc' => J acc → J acc' | Err _ => True end) →
  J acc →
  let '(k', r) := walk_tree fault listing root body acc k in
  reads k k' ∧ match r with Ok acc' => J acc' | Err _ => True end.
Proof.
  intros Hbody HJ. unfold walk_tree. destruct (query_reads (exists_path root) k) as (H1 & _ & _).
  destruct (query fault (exists_path root) k) as [k1 [[|]|e]]; cbn [fst] in *; [|done|done].
  pose proof (open_iterator_reads root true k1) as Ho. destruct (open_iterator fault listing root true k1) as [k2 [it|e]]; destruct Ho as [H2 Hit];
    [|split; [by etrans|done]]. subst it. assert (reads k k2) as H12 by (by etrans).
  pose proof (iterate_rule EnumerateFailed body (k_files k) (λ _ _, True) J (λ _, True) (S (length (entries listing root true (k_files k1))))
    (entries listing root true (k_files k1)) [] acc k2) as Hi.
  destruct (iterate _ _ _ _ _ _ _ _) as [k3 r]. destruct Hi as [H3 Hr].
  - intros vis entry acc' k' Hin Hfs. specialize (Hbody entry acc' k'). rewrite (proj1 H1) in Hin. specialize (Hbody Hin Hfs).
    destruct (body entry acc' k') as [k'' [acc''|]]; [|done]. by destruct Hbody.
  - lia.
  - exact (proj1 H12).
  - split; [by etrans|]. destruct r; [|done]. by apply Hr.
Qed.
End walks.

(** ** The sweep over the seam *)

Section guarded.
Context {St : Type} `{AssetReaper St} (I : St → Prop) (Qt Qa : str → Prop).

(** Listing and sizing keep an invariant, and list only keys of a kind. *)
Record promises : Prop := {
  pr_list_tiles : ∀ s, I s → let '(s', r) := list_tile_hashes s in I s' ∧ match r with Ok l => Forall Qt l | Err _ => True end;
  pr_tile_size : ∀ h s, I s → I (tile_size h s).1;
  pr_list_assets : ∀ s, I s → let '(s', r) := list_asset_uris s in I s' ∧ match r with Ok l => Forall Qa l | Err _ => True end;
  pr_asset_size : ∀ key s, I s → I (asset_size key s).1 }.

(** Removing what the roots do not reach keeps it too. *)
Definition spares (roots : GcRoots) : Prop :=
  (∀ h s, Qt h → h ∉ gr_tiles roots → I s → I (remove_tile h s).1) ∧
  (∀ key s, Qa key → rooted (gr_assets roots) key = false → I s → I (remove_asset key s).1).

Lemma reaped_state {A} (m : ST St AssetReaperError A) s : (reaped m s).1 = (m s).1.
Proof. unfold reaped. by destruct (m s) as [s' []]. Qed.

Lemma size_plan_keeps size dead bytes s : (∀ key s, I s → I (size key s).1) → I s → I (size_plan size dead bytes s).1.
Proof.
  intros Hs. revert bytes s. induction dead as [|key dead IH]; intros bytes s HI; [done|]. cbn [size_plan]. unfold mbind, ST_bind.
  pose proof (Hs key s HI) as H1. rewrite <- reaped_state in H1. destruct (reaped (size key) s) as [s' [n|e]]; [by apply IH|done].
Qed.

Lemma unlink_plan_keeps unlink dead s :
  (∀ key s, key ∈ dead → I s → I (unlink key s).1) → I s → I (unlink_plan unlink dead s).1.
Proof.
  revert s. induction dead as [|key dead IH]; intros s Hs HI; [done|]. cbn [unlink_plan]. unfold mbind, ST_bind.
  pose proof (Hs key s (list_elem_of_here _ _) HI) as H1. rewrite <- reaped_state in H1.
  destruct (reaped (unlink key) s) as [s' [b|e]]; [|done]. apply IH; [|done]. intros key' s'' Hk. apply Hs. by right.
Qed.

Lemma sweep_tiles_keeps roots dry s :
  promises → (dry = false → spares roots) → I s → I (sweep_tile_store (gr_tiles roots) dry s).1.
Proof.
  intros HP Hsp HI. unfold sweep_tile_store, mbind, ST_bind, reaped at 1. pose proof (pr_list_tiles HP s HI) as Hl.
  destruct (list_tile_hashes s) as [s1 [present|e]]; destruct Hl as [H1 Hq]; [|done].
  set (dead := unreferenced_tiles _ _). pose proof (size_plan_keeps tile_size dead 0 s1 (pr_tile_size HP) H1) as H2.
  destruct (size_plan tile_size dead 0 s1) as [s2 [bytes|e]]; [|done]. destruct dry; [done|].
  pose proof (unlink_plan_keeps remove_tile dead s2) as H3. destruct (unlink_plan remove_tile dead s2) as [s3 [u|e]]; cbn in *;
    (apply H3; [|done]); intros h s' Hin; apply list_elem_of_filter in Hin as [Hn Hin]; apply (proj1 (Hsp eq_refl)); try done;
    by eapply Forall_forall.
Qed.

Lemma sweep_keeps roots dry s :
  promises → (dry = false → spares roots) → I s → I (sweep_asset_store roots dry s).1.
Proof.
  intros HP Hsp HI. unfold sweep_asset_store, mbind, ST_bind. pose proof (sweep_tiles_keeps roots dry s HP Hsp HI) as H0.
  destruct (sweep_tile_store (gr_tiles roots) dry s) as [s0 [report|e]]; [|done]. unfold reaped at 1. pose proof (pr_list_assets HP s0 H0) as Hl.
  destruct (list_asset_uris s0) as [s1 [present|e]]; destruct Hl as [H1 Hq]; [|done].
  set (dead := unreferenced_assets _ _). pose proof (size_plan_keeps asset_size dead 0 s1 (pr_asset_size HP) H1) as H2.
  destruct (size_plan asset_size dead 0 s1) as [s2 [bytes|e]]; [|done]. destruct dry; [done|].
  pose proof (unlink_plan_keeps remove_asset dead s2) as H3. destruct (unlink_plan remove_asset dead s2) as [s3 [u|e]]; cbn in *;
    (apply H3; [|done]); intros h s' Hin; apply list_elem_of_filter in Hin as [Hn Hin]; apply (proj2 (Hsp eq_refl)); try done;
    by eapply Forall_forall.
Qed.
(** An error of the sweep is one of the reaper. *)
Definition reaper_errors {A} (m : ST St GcError A) : Prop := ∀ s s' e, m s = (s', Err e) → ∃ x, e = from_reaper x.

Lemma reaped_errors {A} (m : ST St AssetReaperError A) : reaper_errors (reaped m).
Proof. intros s s' e. unfold reaped. destruct (m s) as [? [?|x]]; [done|]. intros [= _ <-]. eauto. Qed.

Lemma bind_errors {A B} (m : ST St GcError A) (k : A → ST St GcError B) :
  reaper_errors m → (∀ a, reaper_errors (k a)) → reaper_errors (mbind k m).
Proof.
  intros Hm Hk s s' e. unfold mbind, ST_bind. destruct (m s) as [s1 [a|x]] eqn:E; [apply Hk|]. intros [= <- <-]. by eapply Hm.
Qed.

Lemma ret_errors {A} (a : A) : reaper_errors (mret a).
Proof. by intros s s' e [=]. Qed.

Lemma size_plan_errors size dead bytes : reaper_errors (size_plan size dead bytes).
Proof.
  revert bytes. induction dead as [|key dead IH]; intros bytes; [apply ret_errors|]. apply bind_errors; [apply reaped_errors|done].
Qed.

Lemma unlink_plan_errors unlink dead : reaper_errors (unlink_plan unlink dead).
Proof. induction dead as [|key dead IH]; [apply ret_errors|]. apply bind_errors; [apply reaped_errors|done]. Qed.

Lemma sweep_errors roots dry : reaper_errors (sweep_asset_store roots dry).
Proof.
  assert (∀ plan unlink (report : GcReport), reaper_errors (if dry then mret report else _ ← unlink_plan unlink plan; mret report)) as Hrest.
  { intros plan unlink report. destruct dry; [apply ret_errors|]. apply bind_errors; [apply unlink_plan_errors|]. intros _. apply ret_errors. }
  unfold sweep_asset_store, sweep_tile_store.
  repeat (apply bind_errors; [first [apply reaped_errors|apply size_plan_errors|idtac]|intros ?]); try apply Hrest.
Qed.
End guarded.

(** ** The file system keeps the promises *)

Section filesystem.
Context (fault : nat → bool) (listing : list (list str) → list (list str)) (Hlisting : ∀ l, listing l ≡ₚ l).

Lemma entries_below fs l recursive entry :
  fs_ok fs → named l → entry ∈ entries listing (spell l) recursive fs → Forall proper entry ∧ entry ≠ [].
Proof.
  intros Hok HN. unfold entries. rewrite Hlisting. intros [_ Hin]%list_elem_of_filter.
  apply list_elem_of_fmap in Hin as (l' & -> & Hin). apply list_elem_of_filter in Hin as [Hu Hin].
  apply list_elem_of_fmap in Hin as ([l'' node] & -> & Hin). apply elem_of_map_to_list in Hin. cbn [fst] in *.
  rewrite locate_spell in * by apply HN. apply Is_true_eq_true, under_spec in Hu as (names & E & Hne & Ed). rewrite Ed. split; [|done].
  pose proof (ok_normal _ Hok l'' (ex_intro _ _ Hin)) as Hn. rewrite E in Hn. cbn in Hn. destruct HN as [_ (top & Ht & Hp)].
  by eapply normal_suffix.
Qed.

Definition hash_key (h : str) : Prop := is_tile_hash h = true.
Definition under_images (key : str) : Prop := ∃ names, Forall proper names ∧ names ≠ [] ∧ key = image_key names.

Lemma regular_entry_reads root names k : reads k (regular_entry fault root names k).1.
Proof.
  unfold regular_entry. destruct (query_reads fault (is_regular_file (entry_path root names)) k) as (H & _ & _).
  by destruct (query _ _ k) as [k' [b|e]].
Qed.

Lemma list_tiles_rule r k :
  let '(k', res) := fs_list_tile_hashes fault listing r k in reads k k' ∧ match res with Ok l => Forall hash_key l | Err _ => True end.
Proof.
  apply (walk_tree_rule fault listing (r_root r) _ (Forall hash_key)); [|constructor]. intros entry acc k' _ _.
  pose proof (regular_entry_reads (r_root r) entry k') as H. destruct (regular_entry fault (r_root r) entry k') as [k'' regular].
  split; [done|]. intros HF. destruct (regular && _) eqn:E; [|done]. apply andb_true_iff in E as [_ E].
  apply Forall_app. split; [done|]. apply Forall_singleton. exact E.
Qed.

Lemma list_assets_rule t l k :
  named l → fs_ok (k_files k) →
  let '(k', res) := fs_list_asset_uris fault listing (mkReaper t t [mkBase k_images_base (spell l)]) k in
  reads k k' ∧ match res with Ok keys => Forall under_images keys | Err _ => True end.
Proof.
  intros HN Hok. unfold fs_list_asset_uris. cbn [r_asset_bases list_bases]. unfold mbind, ST_bind. cbn [rb_root rb_authored].
  pose proof (walk_tree_rule fault listing (spell l) (λ names out k0,
        let '(k1, regular) := regular_entry fault (spell l) names k0 in
        (k1, Ok (if regular then out ++ [k_images_base ++ join_slash (lexically_relative (entry_path (spell l) names) (spell l))] else out)))
      (Forall under_images) [] k) as H.
  assert (∀ entry acc k0, entry ∈ entries listing (spell l) true (k_files k) → k_files k0 = k_files k →
    let '(k1, r) := (let '(k1, regular) := regular_entry fault (spell l) entry k0 in
        (k1, Ok (E := AssetReaperError) (if regular then acc ++ [k_images_base ++ join_slash (lexically_relative (entry_path (spell l) entry) (spell l))] else acc))) in
    reads k0 k1 ∧ match r with Ok acc' => Forall under_images acc → Forall under_images acc' | Err _ => True end) as Hbody.
  { intros entry acc k0 Hin _. pose proof (regular_entry_reads (spell l) entry k0) as Hr.
    destruct (regular_entry fault (spell l) entry k0) as [k1 regular]. split; [done|]. intros HF. destruct regular; [|done].
    apply Forall_app. split; [done|]. apply Forall_singleton. destruct (entries_below _ _ _ _ Hok HN Hin) as [Hp Hne].
    exists entry. split_and!; [done|done|]. unfold entry_path, image_key. by rewrite append_spell, relative_spell. }
  specialize (H Hbody (Forall_nil_2 _)). destruct (walk_tree _ _ _ _ _ _) as [k' [keys|e]]; exact H.
Qed.

Lemma size_reads path k : reads k (fs_size fault path k).1.
Proof.
  unfold fs_size. destruct (call_reads fault (λ fs, (fs, file_size path fs)) k eq_refl) as (H & _ & _). by destruct (call _ _ k) as [k' [n|e]].
Qed.

Lemma asset_size_reads r uri k : reads k (fs_asset_size fault r uri k).1.
Proof. unfold fs_asset_size. destruct (asset_path r uri); [apply size_reads|done]. Qed.

(** Listing and sizing a project keeps whatever held of its files and of every state. *)
Lemma project_promises dir P :
  plain_directory dir → (∀ fs, P fs → fs_ok fs) →
  promises (H := filesystem_reaper fault listing (project_reaper dir)) (stays P) hash_key under_images.
Proof.
  intros Hd HP. destruct constant_names as (Ha & _ & Hi). rewrite project_reaper_spec by done. split; cbn [list_tile_hashes filesystem_reaper tile_size list_asset_uris asset_size].
  - intros k HI. pose proof (list_tiles_rule (mkReaper (spell (tiles_at dir)) (spell (tiles_at dir)) [mkBase k_images_base (spell (images_at dir))]) k) as H.
    destruct (fs_list_tile_hashes _ _ _ _) as [k' res]. destruct H as [(_ & _ & H) Hq]. by split; [apply H|].
  - intros h k HI. by apply size_reads.
  - intros k HI. pose proof (list_assets_rule (spell (tiles_at dir)) (images_at dir) k (base_named _ _ _ Ha Hi) (HP _ (proj1 HI))) as H.
    destruct (fs_list_asset_uris _ _ _ _) as [k' res]. destruct H as [(_ & _ & H) Hq]. by split; [apply H|].
  - intros key k HI. by apply asset_size_reads.
Qed.
End filesystem.

(** ** A project keeps what its documents name *)

Lemma spell_basename l top : named l → last (loc_names l) = Some top → basename_of (spell l) = top.
Proof.
  intros HN Hl. destruct (spell_ends l HN) as (top' & E & E' & _). rewrite last_segment in E. congruence.
Qed.

Lemma named_locate p : proper (basename_of p) → named (locate p) ∧ last (loc_names (locate p)) = Some (basename_of p).
Proof. intros Hp. pose proof (segments_last p Hp) as E. split; [|done]. split; [apply segments_normal|by eexists]. Qed.

(** Normalizing a path keeps a last name that is one. *)
Lemma normal_basename p : proper (basename_of p) → basename_of (lexically_normal p) = basename_of p.
Proof.
  intros Hp. destruct (named_locate p Hp) as [HN Hl]. pose proof (spell_basename _ _ HN Hl) as E. pose proof (spell_nonempty _ HN) as Hne.
  unfold lexically_normal. destruct p as [|c p']; [by destruct Hp as (_ & ? & _)|]. set (p := c :: p') in *. cbv zeta.
  rewrite last_segment, (segments_last p Hp). rewrite bool_decide_eq_false_2 by (destruct Hp as (_ & ? & ? & ?); tauto). cbn [andb].
  rewrite app_nil_r. change ((if is_absolute p then [slash] else []) ++ join_slash (segments p)) with (spell (locate p)).
  by destruct (spell (locate p)).
Qed.

Lemma basename_file_scheme rest : basename_of (k_file ++ rest) = basename_of rest.
Proof.
  assert (last (split_slash (k_file ++ rest)) = last (split_slash rest)) as El; [|rewrite !last_segment in El; by injection El].
  destruct (split_slash_cons rest) as (x & xs & E). change (k_file ++ rest) with (lit "file:" ++ slash :: [] ++ slash :: rest).
  rewrite !split_slash_app, E, !last_app. destruct (last (x :: xs)) as [y|] eqn:Ex; [|by apply last_None in Ex]. done.
Qed.

Lemma asset_uri_basename source : proper (basename_of source) → basename_of (normalize_asset_uri source) = basename_of source.
Proof.
  intros Hp. unfold normalize_asset_uri, strip_file_scheme. destruct (starts_with source k_file) eqn:E; [|by apply normal_basename].
  apply bool_decide_eq_true in E. assert (source = k_file ++ drop (length k_file) source) as Es by (rewrite <- E at 1; by rewrite take_drop).
  assert (basename_of (drop (length k_file) source) = basename_of source) as Eb by (rewrite Es at 2; by rewrite basename_file_scheme).
  rewrite <- Eb in *. by apply normal_basename.
Qed.

Definition harmless (dir : str) (roots : GcRoots) (l : Location) : Prop :=
  (∀ h, is_tile_hash h = true → h ∉ gr_tiles roots → l ≠ below (tiles_at dir) [take 2 h; h]) ∧
  (∀ names, Forall proper names → names ≠ [] → rooted (gr_assets roots) (image_key names) = false → l ≠ below (images_at dir) names).

Lemma harmless_document dir roots name : harmless dir roots (below (locate dir) [name]).
Proof.
  split; intros; unfold tiles_at, images_at, below; cbn; intros [= E]; apply (f_equal length) in E; rewrite !length_app in E; cbn in E; lia.
Qed.

Lemma harmless_tile dir roots h : h ∈ gr_tiles roots → harmless dir roots (below (tiles_at dir) [take 2 h; h]).
Proof.
  intros Hin. split.
  - intros h' _ Hn. unfold below. intros [= E]. apply Hn. simplify_list_eq. done.
  - intros names _ _ _. unfold tiles_at, images_at, below. cbn. intros [= E]. rewrite <- !(assoc_L (++)) in E.
    apply app_inv_head in E. cbn in E. injection E as E _. revert E. vm_compute. discriminate.
Qed.

Lemma harmless_source dir roots source l :
  normalize_asset_uri source ∈ gr_assets roots → proper (basename_of source) → is_tile_hash (basename_of source) = false →
  last (loc_names l) = Some (basename_of source) → harmless dir roots l.
Proof.
  intros Hin Hp Hh Hl. split.
  - intros h Hh' _ ->. unfold below in Hl. cbn in Hl. rewrite last_app in Hl. cbn in Hl. congruence.
  - intros names HF Hne Hr ->. unfold below in Hl. cbn [loc_names] in Hl. rewrite last_app in Hl.
    destruct (last names) as [top|] eqn:El; [|by apply last_None in El]. injection Hl as ->.
    apply orb_false_iff in Hr as [_ Hr]. apply not_true_iff_false in Hr. apply Hr, existsb_exists. exists (normalize_asset_uri source).
    split; [by apply list_elem_of_In, elem_of_elements|]. apply orb_true_iff. right. apply bool_decide_eq_true.
    by rewrite asset_uri_basename, (image_key_basename _ _ El HF).
Qed.

Section project.
Context (fault : nat → bool) (listing : list (list str) → list (list str)) (Hlisting : ∀ l, listing l ≡ₚ l)
  (parse : str → option json).

Lemma project_spares dir fs0 roots :
  plain_directory dir →
  spares (H := filesystem_reaper fault listing (project_reaper dir)) (stays (kept fs0 (harmless dir roots))) hash_key under_images roots.
Proof.
  intros Hd. destruct constant_names as (Ha & Ht & Hi). rewrite project_reaper_spec by done. split; cbn [remove_tile remove_asset filesystem_reaper].
  - intros h k Hh Hn HI. unfold fs_remove_tile. destruct (hash_proper h Hh) as (Hp1 & Hp2 & _).
    rewrite tile_path_spell by (done || by apply base_named).
    assert (named (below (tiles_at dir) [take 2 h; h])) as HN by (apply below_named; [apply (base_named dir _ _ Ha Ht)|proper_names|done]).
    apply unlink_kept; [|rewrite locate_spell by apply HN; intros [Hsp _]; by eapply Hsp|by right|done].
    assert (last (loc_names (below (tiles_at dir) [take 2 h; h])) = Some h) as El by (cbn; by rewrite last_app).
    exact (eq_ind_r proper Hp1 (spell_basename _ h HN El)).
  - intros key k (names & HF & Hne & ->) Hr HI. unfold fs_remove_asset.
    rewrite asset_path_spell by (done || by apply base_named).
    assert (named (below (images_at dir) names)) as HN by (apply below_named; [apply (base_named dir _ _ Ha Hi)|done|done]).
    apply unlink_kept; [|rewrite locate_spell by apply HN; intros [_ Hsp]; by eapply Hsp| |done].
    + destruct (spell_ends _ HN) as (top & E & El & Hp). exact (eq_ind_r proper Hp (spell_basename _ top HN El)).
    + destruct (decide (parent_path (spell (below (images_at dir) names)) = [])) as [->|Hn]; [by left|right].
      by apply locate_lexically_normal.
Qed.

(** ** Marking a directory *)

Definition marked (fs : FileSystem) (dir : str) (vis : list (list str)) (roots : GcRoots) : Prop :=
  ∀ name text, [name] ∈ vis → proper name → extension name = lit ".arbc" →
    fs !! below (locate dir) [name] = Some (NFile text) →
    ∃ refs, collect_referenced_assets parse text = Ok refs ∧ gr_tiles refs ⊆ gr_tiles roots ∧ gr_assets refs ⊆ gr_assets roots.

Lemma extension_entry dir name : proper name → extension (entry_path dir [name]) = extension name.
Proof.
  intros (Hf & Hne & _). unfold extension, filename, entry_path. cbn [join_slash]. rewrite append_basename by done.
  unfold basename_of. by rewrite dir_part_free.
Qed.

Lemma read_stream_spec path k :
  let '(k', r) := read_stream fault path k in
  reads k k' ∧ ∀ bytes, r = Ok bytes → lookup_path path (k_files k) = Some (NFile bytes).
Proof.
  unfold read_stream. set (f := λ fs : FileSystem, (fs, match lookup_path path fs with Some (NFile bytes) => Ok bytes | _ => Err tt end)).
  destruct (call_reads fault f k eq_refl) as (H1 & _ & H3). destruct (call fault f k) as [k1 [bytes|e]]; cbn [fst snd] in *; [|done].
  specialize (H3 bytes eq_refl). cbn in H3.
  destruct (query_reads fault (λ _, bytes) k1) as (H4 & _ & H5). destruct (query fault _ k1) as [k2 [b|e]]; cbn [fst snd] in *; (split; [by etrans|]); [|done].
  intros bytes' [= <-]. rewrite (H5 b eq_refl). destruct (lookup_path path (k_files k)) as [[x|]|]; [|done..]. by injection H3 as ->.
Qed.

Lemma mark_entry_rule fs dir vis entry acc k :
  k_files k = fs →
  let '(k', r) := mark_entry fault parse dir entry acc k in
  reads k k' ∧ match r with
    | Ok acc' => calm fault k k' → marked fs dir vis acc → marked fs dir (vis ++ [entry]) acc'
    | Err e => ge_kind e = GcMarkFailed end.
Proof.
  intros <-. unfold mark_entry, regular_entry. destruct (query_reads fault (is_regular_file (entry_path dir entry)) k) as (H1 & H2 & _).
  destruct (query fault _ k) as [k1 present]; cbn [fst snd] in *.
  assert (∀ name text, [name] = entry → proper name → k_files k !! below (locate dir) [name] = Some (NFile text) →
    lookup_path (entry_path dir entry) (k_files k) = Some (NFile text)) as Hat.
  { intros name text <- Hp Hf. unfold entry_path. cbn [join_slash]. rewrite lookup_path_ne; [by rewrite locate_append_name|].
    intros E. pose proof (append_basename dir name (proj1 Hp) (proj1 (proj2 Hp))) as Eb. rewrite E in Eb. cbn in Eb. subst name. by destruct Hp as (_ & ? & _). }
  assert (∀ acc', (∀ name text, [name] = entry → proper name → extension name = lit ".arbc" →
      k_files k !! below (locate dir) [name] = Some (NFile text) → False) → gr_tiles acc' = gr_tiles acc → gr_assets acc' = gr_assets acc →
      marked (k_files k) dir vis acc → marked (k_files k) dir (vis ++ [entry]) acc') as Hskip.
  { intros acc' Hno Et Ea HM name text [Hin|Hin%list_elem_of_singleton]%elem_of_app Hp He Hf; [rewrite Et, Ea; by eapply HM|].
    exfalso. by eapply Hno. }
  destruct present as [[|]|e]; cbn [negb].
  - destruct (bool_decide (extension (entry_path dir entry) = lit ".arbc")) eqn:Ee; cbn [negb].
    2: { split; [done|]. intros _. apply Hskip; [|done..]. intros name text <- Hp He _. apply bool_decide_eq_false in Ee.
         by rewrite extension_entry in Ee. }
    pose proof (read_stream_spec (entry_path dir entry) k1) as Hr. destruct (read_stream fault (entry_path dir entry) k1) as [k2 [text|e]];
      destruct Hr as [H3 Hr]; [|split; [by etrans|done]]. specialize (Hr text eq_refl). rewrite (proj1 H1) in Hr.
    destruct (collect_referenced_assets parse text) as [refs|e] eqn:Ec; (split; [by etrans|]); [|done]. intros _ HM name text' Hin Hp He Hf.
    cbn [gr_tiles gr_assets]. apply elem_of_app in Hin as [Hin|Hin%list_elem_of_singleton].
    + destruct (HM name text' Hin Hp He Hf) as (refs' & E & Ht & Ha). exists refs'. split_and!; [done|set_solver|set_solver].
    + pose proof (Hat name text' Hin Hp Hf) as E. assert (text' = text) as -> by congruence. exists refs. split_and!; [done|set_solver|set_solver].
  - split; [done|]. intros Hc. apply H2 in Hc. injection Hc as Hc. apply Hskip; [|done..]. intros name text E Hp _ Hf.
    unfold is_regular_file in Hc. by rewrite (Hat name text E Hp Hf) in Hc.
  - split; [done|]. intros Hc. by apply H2 in Hc.
Qed.

Lemma child_listed fs dir name node : fs !! below (locate dir) [name] = Some node → [name] ∈ entries listing dir false fs.
Proof.
  intros Hf. unfold entries. rewrite Hlisting. apply list_elem_of_filter. split; [done|]. apply list_elem_of_fmap.
  exists (below (locate dir) [name]). split; [unfold below; cbn [loc_names]; by rewrite drop_app_length|].
  apply list_elem_of_filter. split; [apply Is_true_true; by apply under_below|]. apply list_elem_of_fmap.
  exists (below (locate dir) [name], node). split; [done|]. by apply elem_of_map_to_list.
Qed.

Lemma mark_directory_spec dir k :
  let '(k', r) := mark_directory fault listing parse dir k in
  reads k k' ∧ match r with
    | Ok roots => fs_ok (k_files k) → calm fault k k' → ∀ name text, extension name = lit ".arbc" →
        k_files k !! below (locate dir) [name] = Some (NFile text) →
        ∃ refs, collect_referenced_assets parse text = Ok refs ∧ gr_tiles refs ⊆ gr_tiles roots ∧ gr_assets refs ⊆ gr_assets roots
    | Err e => ge_kind e = GcMarkFailed end.
Proof.
  unfold mark_directory. destruct (query_reads fault (exists_path dir) k) as (H1 & _ & _).
  destruct (query fault (exists_path dir) k) as [k1 [[|]|e]]; cbn [fst] in *; [|done|done].
  pose proof (open_iterator_reads fault listing dir false k1) as Ho. destruct (open_iterator fault listing dir false k1) as [k2 [it|e]];
    destruct Ho as [H2 Hit]; [|split; [by etrans|done]]. assert (reads k k2) as H12 by (by etrans).
  rewrite (proj1 H1) in Hit.
  pose proof (iterate_rule fault (from_mark (mark_error MalformedJson dir)) (mark_entry fault parse dir) (k_files k)
    (marked (k_files k) dir) (λ _, True) (λ e, ge_kind e = GcMarkFailed) (S (length it)) it [] no_roots k2) as Hi.
  destruct (iterate _ _ _ _ _ _ _ _) as [k3 r]. destruct Hi as [H3 Hr]; [|lia|exact (proj1 H12)|].
  { intros vis entry acc k' _ Hfs. pose proof (mark_entry_rule (k_files k) dir vis entry acc k' Hfs) as Hm.
    destruct (mark_entry fault parse dir entry acc k') as [k'' [acc'|e]]; [|done]. by destruct Hm. }
  split; [by etrans|].
  destruct r as [roots|e]; [|done]. intros Hok Hc name text He Hf. destruct (calm_split _ _ _ _ H12 H3 Hc) as [_ Hc3].
  assert (proper name) as Hp.
  { destruct (ok_file _ Hok _ _ Hf) as [_ (top & Ht & Hp)]. cbn in Ht. rewrite last_snoc in Ht. by injection Ht as ->. }
  destruct Hr as [_ Hr]. apply (Hr Hc3) with (name := name); [by intros ? ? ?%elem_of_nil| |done..]. rewrite Hit. by apply child_listed with (NFile text).
Qed.
(** The sweep that follows a mark, whatever its calls do. *)
Lemma sweep_spares dir dry roots k :
  plain_directory dir → fs_ok (k_files k) → stays (λ fs, fs = k_files k) k →
  let k' := (sweep_asset_store (H := filesystem_reaper fault listing (project_reaper dir)) roots dry k).1 in
  stays (kept (k_files k) (harmless dir roots)) k' ∧ (dry = true → stays (λ fs, fs = k_files k) k').
Proof.
  intros Hd Hok Hk. cbv zeta.
  assert (stays (kept (k_files k) (harmless dir roots)) k) as HK by (eapply stays_impl; [|exact Hk]; by intros fs ->; split_and!).
  split.
  - apply (sweep_keeps (stays (kept (k_files k) (harmless dir roots))) hash_key under_images); [|intros _; by apply project_spares|done].
    apply project_promises; [done|done|]. by intros fs [? _].
  - intros ->. apply (sweep_keeps (stays (λ fs, fs = k_files k)) hash_key under_images); [|done|done].
    apply project_promises; [done|done|]. by intros fs ->.
Qed.

(** What the documents of a directory name, and the documents. *)
Definition spared (dir : str) (fs fs' : FileSystem) : Prop :=
  fs' ⊆ fs ∧
  ∀ name text doc, extension name = lit ".arbc" → fs !! below (locate dir) [name] = Some (NFile text) → parse text = Some doc →
    fs' !! below (locate dir) [name] = Some (NFile text) ∧
    (∀ h bytes, doc_blob doc h → fs !! below (tiles_at dir) [take 2 h; h] = Some (NFile bytes) →
       fs' !! below (tiles_at dir) [take 2 h; h] = Some (NFile bytes)) ∧
    (∀ source l bytes, doc_source doc source → proper (basename_of source) → is_tile_hash (basename_of source) = false →
       last (loc_names l) = Some (basename_of source) → fs !! l = Some (NFile bytes) → fs' !! l = Some (NFile bytes)).

Lemma kept_spared dir roots fs fs' :
  (∀ name text, extension name = lit ".arbc" → fs !! below (locate dir) [name] = Some (NFile text) →
     ∃ refs, collect_referenced_assets parse text = Ok refs ∧ gr_tiles refs ⊆ gr_tiles roots ∧ gr_assets refs ⊆ gr_assets roots) →
  kept fs (harmless dir roots) fs' → spared dir fs fs'.
Proof.
  intros Hm (_ & Hsub & Hk). split; [done|]. intros name text doc He Hf Hdoc. destruct (Hm name text He Hf) as (refs & Ec & Ht & Ha).
  pose proof (mark_exact parse text) as Hc. rewrite Ec in Hc. destruct Hc as (doc' & Ed & _ & HT & HA). simplify_eq. split_and!.
  - apply Hk; [apply harmless_document|done].
  - intros h bytes Hh Hl. apply Hk; [|done]. apply harmless_tile, Ht, HT, Hh.
  - intros source l bytes Hs Hp Hh Hl E. apply Hk; [|done]. apply (harmless_source dir roots source l); [|done..].
    apply Ha, HA. by exists source.
Qed.

End project.

(** ** Closed runs *)

(** A tree of absolute locations with names of their own, each in a directory. *)
Definition tree_ok (fs : FileSystem) : bool :=
  forallb (λ entry : Location * Node,
    loc_absolute entry.1 && forallb (λ name, bool_decide (proper name)) (loc_names entry.1)
    && match loc_names entry.1 with
       | [] => bool_decide (entry.2 = NDir)
       | names => bool_decide (fs !! mkLoc true (removelast names) = Some NDir)
       end) (map_to_list fs).

Lemma tree_ok_spec fs : tree_ok fs = true → fs_ok fs.
Proof.
  intros Ht. assert (∀ l node, fs !! l = Some node → loc_absolute l = true ∧ Forall proper (loc_names l) ∧
    match loc_names l with [] => node = NDir | names => fs !! mkLoc true (removelast names) = Some NDir end) as H.
  { intros l node Hl. unfold tree_ok in Ht. rewrite forallb_forall in Ht.
    specialize (Ht (l, node)). rewrite <- list_elem_of_In, elem_of_map_to_list in Ht. specialize (Ht Hl). cbn [fst snd] in Ht.
    apply andb_true_iff in Ht as [[Ha HF]%andb_true_iff Hn]. split_and!; [done| |].
    - apply Forall_forall. intros name Hin. rewrite forallb_forall in HF. apply list_elem_of_In, HF in Hin. by apply bool_decide_eq_true in Hin.
    - destruct (loc_names l); by apply bool_decide_eq_true in Hn. }
  assert (∀ l, is_Some (fs !! l) → normal (loc_absolute l) (loc_names l)) as Hnormal.
  { intros l [node Hl]. destruct (H l node Hl) as (_ & HF & _). by exists 0%nat, (loc_names l). }
  split; [done| |].
  - intros l bytes Hl. split; [apply Hnormal; eauto|]. destruct (H l _ Hl) as (_ & HF & Hn).
    destruct (loc_names l) as [|name names] eqn:E; [done|]. destruct (exists_last (l := name :: names)) as (front & top & Ef); [done|].
    rewrite Ef in *. exists top. rewrite last_snoc. split; [done|]. apply Forall_app in HF as [_ HF]. by apply Forall_cons in HF as [? _].
  - intros l name [node Hl]. destruct (H _ _ Hl) as (Ha & _ & Hn). destruct l as [a names]. unfold below in *. cbn in *. subst a.
    assert (match names ++ [name] with [] => node = NDir | l => fs !! mkLoc true (removelast l) = Some NDir end) as Hn' by exact Hn.
    rewrite <- (removelast_last names name) at 1. by destruct (names ++ [name]) eqn:E; [destruct names|].
Qed.

Definition at_path (s : String.string) : Location := locate (lit s).
Definition hash_a : str := lit "aa000000000000000000000000000000".
Definition hash_b : str := lit "bb000000000000000000000000000000".

(** A project of two documents: one names tile [a] and an image, the other tile [b]. *)
Definition demo_project : FileSystem :=
  list_to_map (map (λ p : String.string, (at_path p, NDir))
    ["/"; "/p"; "/p/assets"; "/p/assets/tiles"; "/p/assets/tiles/aa"; "/p/assets/tiles/bb"; "/p/assets/tiles/cc"; "/p/assets/images"]%string
  ++ [(at_path "/p/one.arbc", NFile (lit "1")); (at_path "/p/two.arbc", NFile (lit "2"));
      (at_path "/p/assets/tiles/aa/aa000000000000000000000000000000", NFile (lit "A"));
      (at_path "/p/assets/tiles/bb/bb000000000000000000000000000000", NFile (lit "B"));
      (at_path "/p/assets/tiles/cc/cc000000000000000000000000000000", NFile (lit "CC"));
      (at_path "/p/assets/images/x.png", NFile (lit "x")); (at_path "/p/assets/images/y.png", NFile (lit "yyy"))]).

Definition demo_doc (hash : str) (source : str) : json :=
  JObject [(lit "layers", JArray [JObject [(lit "kind", JNull);
    (lit "params", JObject [(lit "blobs", JArray [JString hash]); (lit "source", JString source)])]])].

Definition demo_parse (text : str) : option json :=
  if decide (text = lit "1") then Some (demo_doc hash_a (lit "./assets/images/x.png"))
  else if decide (text = lit "2") then Some (demo_doc hash_b [])
  else None.

Definition demo_gc (fault : nat → bool) (dry : bool) : Disk * expected GcError GcReport :=
  gc_project_directory fault (λ l, l) demo_parse (lit "/p") dry (mkDisk demo_project 0 []).

Definition file_at (k : Disk) (s : String.string) : option Node := k_files k !! at_path s.

(** The unnamed tile and image go, with their five bytes and the directory left empty; a
    dry run reports the same and touches nothing. *)
Example gc_collects_unnamed :
  (demo_gc never false).2 = Ok (mkReport 5 3 2 5) ∧ (demo_gc never true).2 = Ok (mkReport 5 3 2 5) ∧
  bool_decide (k_files (demo_gc never true).1 = demo_project) = true ∧
  map (file_at (demo_gc never false).1) ["/p/assets/tiles/aa/aa000000000000000000000000000000";
    "/p/assets/tiles/cc/cc000000000000000000000000000000"; "/p/assets/tiles/cc"; "/p/assets/images/x.png"; "/p/assets/images/y.png"]%string
  = [Some (NFile (lit "A")); None; None; Some (NFile (lit "x")); None].
Proof. split_and!; vm_compute; reflexivity. Qed.

(** The walk of the project fails on the way to its second document; or the status of the
    first cannot be had. *)
Definition lost_entry (n : nat) : bool := bool_decide (n = 5%nat).
Definition lost_status (n : nat) : bool := bool_decide (n = 2%nat).

(** [increment] reports its error by making the iterator the end, so the loop ends with what
    it has marked so far; an entry whose status fails is passed over.  Either way the
    collection reports success, and the tile of the document it never read is gone. *)
Lemma partial_marks_delete :
  (demo_gc lost_entry false).2 = Ok (mkReport 5 2 3 6) ∧ (demo_gc lost_status false).2 = Ok (mkReport 5 1 4 7) ∧
  map (file_at (demo_gc lost_entry false).1) ["/p/two.arbc"; "/p/assets/tiles/bb/bb000000000000000000000000000000"]%string
    = [Some (NFile (lit "2")); None] ∧
  map (file_at (demo_gc lost_status false).1) ["/p/one.arbc"; "/p/assets/tiles/aa/aa000000000000000000000000000000"]%string
    = [Some (NFile (lit "1")); None].
Proof. split_and!; vm_compute; reflexivity. Qed.

(** A last name that is empty: the load resolves the source to the file, the mark keeps the
    separator, and no rule of the subtraction matches it. *)
Lemma trailing_source_unrooted :
  resolve_uri (lit "/p/one.arbc") (lit "assets/images/x.png/") = lit "/p/assets/images/x.png" ∧
  rooted {[normalize_asset_uri (lit "assets/images/x.png/")]} (lit "assets/images/x.png") = false.
Proof. split; vm_compute; reflexivity. Qed.

(** Removals fail once the marks are made. *)
Definition stuck (n : nat) : bool := bool_decide (n = 33%nat).

