(* ===== verification/WorkerPool.v ===== *)
(** * The worker pool ([src/src/runtime/worker_pool.cpp])

    One queue of renders and one of plain jobs, drained by worker threads or run inline by
    the submitter, with a gate per content that must not render twice at once and a count
    per owner that a dying owner waits out.  Every critical section of the mutex is one
    definition; the threads between them are agents, and what may happen next is any section
    of any agent. *)

From S2P Require Import Prelude.
Local Open Scope Z_scope.

Definition Content : Type := Z.
Definition Owner : Type := Z.

(** The request, its surface and its completion stay with the content: [rt_request] names them. *)
Record RenderTask := mkTask { rt_content : Content; rt_request : Z; rt_owner : Owner }.
Record WorkTask := mkWork { wt_job : Z; wt_owner : Owner }.

Record SerialState := mkSerial { ss_active : bool; ss_rendering : nat; ss_parked : list RenderTask }.

Record WorkerPool := mkPool {
  p_ready : list RenderTask;
  p_work_ready : list WorkTask;
  p_serial : gmap Content SerialState;
  p_outstanding : gmap Owner nat;
  p_stop : bool;
  p_settle_gen : Z;
  p_submitted : Z;
  p_completed : Z;
  p_dropped : Z;
  p_max_in_flight : nat }.

Definition new_pool : WorkerPool := mkPool [] [] ∅ ∅ false 0 0 0 0 0.

Definition set_queues (ready : list RenderTask) (work : list WorkTask) (serial : gmap Content SerialState) (p : WorkerPool) : WorkerPool :=
  mkPool ready work serial (p_outstanding p) (p_stop p) (p_settle_gen p) (p_submitted p) (p_completed p) (p_dropped p) (p_max_in_flight p).

Definition set_outstanding (outstanding : gmap Owner nat) (p : WorkerPool) : WorkerPool :=
  mkPool (p_ready p) (p_work_ready p) (p_serial p) outstanding (p_stop p) (p_settle_gen p) (p_submitted p) (p_completed p) (p_dropped p) (p_max_in_flight p).

(** ** Accounting *)

Definition claim_outstanding (owner : Owner) (p : WorkerPool) : WorkerPool :=
  set_outstanding (<[owner := S (default 0%nat (p_outstanding p !! owner))]> (p_outstanding p)) p.

Definition release_outstanding (owner : Owner) (p : WorkerPool) : WorkerPool :=
  match p_outstanding p !! owner with
  | None => p
  | Some n =>
      if (pred n =? 0)%nat then set_outstanding (delete owner (p_outstanding p)) p
      else set_outstanding (<[owner := pred n]> (p_outstanding p)) p
  end.

Definition note_dropped (p : WorkerPool) : WorkerPool :=
  mkPool (p_ready p) (p_work_ready p) (p_serial p) (p_outstanding p) (p_stop p) (p_settle_gen p) (p_submitted p) (p_completed p)
    (u64 (p_dropped p + 1)) (p_max_in_flight p).

Definition drop_queued (task : RenderTask) (p : WorkerPool) : WorkerPool := release_outstanding (rt_owner task) (note_dropped p).
Definition drop_queued_work (task : WorkTask) (p : WorkerPool) : WorkerPool := release_outstanding (wt_owner task) (note_dropped p).

Definition parked_tasks (serial : gmap Content SerialState) : list RenderTask := concat (map (λ e, ss_parked e.2) (map_to_list serial)).

Definition unpark (s : SerialState) : SerialState := mkSerial (ss_active s) (ss_rendering s) [].

Definition abandon_queued (p : WorkerPool) : WorkerPool :=
  let p := set_queues [] (p_work_ready p) (p_serial p) (foldl (λ p t, drop_queued t p) p (p_ready p)) in
  let p := set_queues (p_ready p) (p_work_ready p) (unpark <$> p_serial p) (foldl (λ p t, drop_queued t p) p (parked_tasks (p_serial p))) in
  set_queues (p_ready p) [] (p_serial p) (foldl (λ p t, drop_queued_work t p) p (p_work_ready p)).

(** ** The drain of an owner *)

Definition of_owner (owner : Owner) (t : RenderTask) : bool := rt_owner t =? owner.
Definition work_of (owner : Owner) (t : WorkTask) : bool := wt_owner t =? owner.

(** (1) The parked tasks of the owner go. *)
Definition purge_parked (owner : Owner) (p : WorkerPool) : WorkerPool :=
  let dropped := filter (λ t, of_owner owner t = true) (parked_tasks (p_serial p)) in
  let keep s := mkSerial (ss_active s) (ss_rendering s) (filter (λ t, of_owner owner t = false) (ss_parked s)) in
  foldl (λ p t, drop_queued t p) (set_queues (p_ready p) (p_work_ready p) (keep <$> p_serial p) p) dropped.

(** (2) Its ready tasks go, and each gate one of them held passes on. *)
Definition pass_gate (p : WorkerPool) (content : Content) : WorkerPool :=
  match p_serial p !! content with
  | None => p
  | Some s =>
      match ss_parked s with
      | next :: parked =>
          set_queues (p_ready p ++ [next]) (p_work_ready p) (<[content := mkSerial (ss_active s) (ss_rendering s) parked]> (p_serial p)) p
      | [] => set_queues (p_ready p) (p_work_ready p) (delete content (p_serial p)) p
      end
  end.

Definition purge_ready (owner : Owner) (p : WorkerPool) : WorkerPool :=
  let dropped := filter (λ t, of_owner owner t = true) (p_ready p) in
  let orphaned := filter (λ c, is_Some (p_serial p !! c)) (map rt_content dropped) in
  let p := foldl (λ p t, drop_queued t p)
             (set_queues (filter (λ t, of_owner owner t = false) (p_ready p)) (p_work_ready p) (p_serial p) p) dropped in
  foldl pass_gate p orphaned.

(** (2b) Its jobs go. *)
Definition purge_work (owner : Owner) (p : WorkerPool) : WorkerPool :=
  let dropped := filter (λ t, work_of owner t = true) (p_work_ready p) in
  foldl (λ p t, drop_queued_work t p)
    (set_queues (p_ready p) (filter (λ t, work_of owner t = false) (p_work_ready p)) (p_serial p) p) dropped.

Definition purge_owner (owner : Owner) (p : WorkerPool) : WorkerPool := purge_work owner (purge_ready owner (purge_parked owner p)).

(** (3) What it waits for. *)
Definition drained (owner : Owner) (p : WorkerPool) : bool := bool_decide (p_outstanding p !! owner = None).

(** ** Settling and waiting *)

Definition poke (p : WorkerPool) : WorkerPool :=
  mkPool (p_ready p) (p_work_ready p) (p_serial p) (p_outstanding p) (p_stop p) (u64 (p_settle_gen p + 1)) (p_submitted p) (p_completed p)
    (p_dropped p) (p_max_in_flight p).

Definition settle_generation (p : WorkerPool) : Z := p_settle_gen p.

(** A waiter wakes on [true], and takes what it saw into its own cursor. *)
Definition completions_ready (cursor : Z) (p : WorkerPool) : bool := p_stop p || negb (p_settle_gen p =? cursor).
Definition wait_completions (cursor : Z) (p : WorkerPool) : Z * bool := (p_settle_gen p, negb (p_settle_gen p =? cursor)).

(** [run_task] after the render, [run_work_task] after the job: count and wake. *)
Definition note_completed (p : WorkerPool) : WorkerPool :=
  poke (mkPool (p_ready p) (p_work_ready p) (p_serial p) (p_outstanding p) (p_stop p) (p_settle_gen p) (p_submitted p)
          (u64 (p_completed p + 1)) (p_dropped p) (p_max_in_flight p)).

Definition request_stop (p : WorkerPool) : WorkerPool :=
  mkPool (p_ready p) (p_work_ready p) (p_serial p) (p_outstanding p) true (p_settle_gen p) (p_submitted p) (p_completed p) (p_dropped p)
    (p_max_in_flight p).

(** ** Submitting *)

(** The first section of [submit] and [submit_work]: refused after a stop. *)
Definition admit_task (owner : Owner) (p : WorkerPool) : option WorkerPool :=
  if p_stop p then None
  else Some (claim_outstanding owner
    (mkPool (p_ready p) (p_work_ready p) (p_serial p) (p_outstanding p) (p_stop p) (p_settle_gen p) (u64 (p_submitted p + 1))
       (p_completed p) (p_dropped p) (p_max_in_flight p))).

Section pool.
(** [render_thread_safe] of a content, negated. *)
Context (serialize_predicate : Content → bool).

Definition serial_state (content : Content) (p : WorkerPool) : SerialState := default (mkSerial false 0 []) (p_serial p !! content).

(** The second: behind the gate of its content, or through it to the queue; [None] from the
    inline one means the submitter runs the task itself. *)
Definition park (task : RenderTask) (s : SerialState) (p : WorkerPool) : WorkerPool :=
  set_queues (p_ready p) (p_work_ready p)
    (<[rt_content task := mkSerial (ss_active s) (ss_rendering s) (ss_parked s ++ [task])]> (p_serial p)) p.

Definition take_gate (task : RenderTask) (s : SerialState) (p : WorkerPool) : WorkerPool :=
  set_queues (p_ready p) (p_work_ready p) (<[rt_content task := mkSerial true (ss_rendering s) (ss_parked s)]> (p_serial p)) p.

Definition push_ready (task : RenderTask) (p : WorkerPool) : WorkerPool :=
  set_queues (p_ready p ++ [task]) (p_work_ready p) (p_serial p) p.

Definition enqueue (task : RenderTask) (p : WorkerPool) : WorkerPool :=
  if serialize_predicate (rt_content task) then
    let s := serial_state (rt_content task) p in
    if ss_active s then park task s p else push_ready task (take_gate task s p)
  else push_ready task p.

Definition submit_inline (task : RenderTask) (p : WorkerPool) : WorkerPool * bool :=
  if serialize_predicate (rt_content task) then
    let s := serial_state (rt_content task) p in
    if ss_active s then (park task s p, false) else (take_gate task s p, true)
  else (p, true).

Definition enqueue_work (task : WorkTask) (p : WorkerPool) : WorkerPool :=
  set_queues (p_ready p) (p_work_ready p ++ [task]) (p_serial p) p.

(** ** Running *)

(** What a worker woken on work to do leaves with: nothing more, a job, or a render. *)
Inductive Taken := TakenExit | TakenWork (task : WorkTask) | TakenRender (task : RenderTask).

Definition take_next (p : WorkerPool) : option (WorkerPool * Taken) :=
  if p_stop p then Some (abandon_queued p, TakenExit)
  else match p_ready p, p_work_ready p with
  | task :: ready, _ => Some (set_queues ready (p_work_ready p) (p_serial p) p, TakenRender task)
  | [], task :: work => Some (set_queues [] work (p_serial p) p, TakenWork task)
  | [], [] => None
  end.

(** [run_task] before the render. *)
Definition begin_render (task : RenderTask) (p : WorkerPool) : WorkerPool :=
  if serialize_predicate (rt_content task) then
    let s := serial_state (rt_content task) p in
    let in_flight := S (ss_rendering s) in
    mkPool (p_ready p) (p_work_ready p) (<[rt_content task := mkSerial (ss_active s) in_flight (ss_parked s)]> (p_serial p))
      (p_outstanding p) (p_stop p) (p_settle_gen p) (p_submitted p) (p_completed p) (p_dropped p) (Nat.max in_flight (p_max_in_flight p))
  else p.

(** The end of a worker's turn with a serialized content: the gate passes to the next parked
    task, through the queue or, inline, to be run at once; or it opens. *)
Definition release_gate (content : Content) (inline : bool) (p : WorkerPool) : WorkerPool * option RenderTask :=
  if serialize_predicate content then
    let s := serial_state content p in
    match ss_parked s with
    | next :: parked =>
        let p := set_queues (p_ready p) (p_work_ready p) (<[content := mkSerial (ss_active s) (pred (ss_rendering s)) parked]> (p_serial p)) p in
        if inline then (p, Some next) else (push_ready next p, None)
    | [] => (set_queues (p_ready p) (p_work_ready p) (delete content (p_serial p)) p, None)
    end
  else (p, None).
End pool.

(** ** The threads around it *)

Section agents.
Context (serialize_predicate : Content → bool) (worker_count : nat).

(** Where a thread is between two sections; [inline] marks a submitter that runs its task
    itself.  The last two are not threads of the pool: a content that answered no result and
    settles the completion later, before and after. *)
Inductive Agent :=
| AIdle
| AExited
| ASubmit (task : RenderTask)
| ASubmitWork (task : WorkTask)
| AHold (task : RenderTask) (inline : bool)
| ARender (task : RenderTask) (inline : bool)
| AReturn (task : RenderTask) (inline : bool)
| AGate (task : RenderTask) (inline : bool)
| AWork (task : WorkTask) (inline : bool)
| AWorkReturn (task : WorkTask) (inline : bool)
| ADrain (owner : Owner)
| ASettling (task : RenderTask)
| ASettled (task : RenderTask).

Definition back (inline : bool) : list Agent := if inline then [] else [AIdle].

(** The next section of a thread, and where it leaves it. *)
Inductive moves : WorkerPool → Agent → WorkerPool → list Agent → Prop :=
| move_enqueue p t : worker_count ≠ 0%nat → moves p (ASubmit t) (enqueue serialize_predicate t p) []
| move_inline p t :
    worker_count = 0%nat →
    moves p (ASubmit t) (submit_inline serialize_predicate t p).1
      (if (submit_inline serialize_predicate t p).2 then [AHold t true] else [])
| move_enqueue_work p t : worker_count ≠ 0%nat → moves p (ASubmitWork t) (enqueue_work t p) []
| move_inline_work p t : worker_count = 0%nat → moves p (ASubmitWork t) p [AWork t true]
| move_take p p' taken :
    take_next p = Some (p', taken) →
    moves p AIdle p' [match taken with TakenExit => AExited | TakenWork t => AWork t false | TakenRender t => AHold t false end]
| move_begin p t inline : moves p (AHold t inline) (begin_render serialize_predicate t p) [ARender t inline]
| move_return p t inline : moves p (ARender t inline) (note_completed p) [AReturn t inline]
| move_return_async p t inline : moves p (ARender t inline) p [AReturn t inline; ASettling t]
| move_settle p t : moves p (ASettling t) (poke p) [ASettled t]
| move_release p t inline : moves p (AReturn t inline) (release_outstanding (rt_owner t) p) [AGate t inline]
| move_gate p t inline :
    moves p (AGate t inline) (release_gate serialize_predicate (rt_content t) inline p).1
      (match (release_gate serialize_predicate (rt_content t) inline p).2 with Some next => [AHold next inline] | None => back inline end)
| move_job p t inline : moves p (AWork t inline) (note_completed p) [AWorkReturn t inline]
| move_work_release p t inline : moves p (AWorkReturn t inline) (release_outstanding (wt_owner t) p) (back inline)
| move_drained p owner : drained owner p = true → moves p (ADrain owner) p [].

(** A call from outside. *)
Inductive calls : WorkerPool → WorkerPool → list Agent → Prop :=
| call_submit p p' t : admit_task (rt_owner t) p = Some p' → calls p p' [ASubmit t]
| call_submit_work p p' t : admit_task (wt_owner t) p = Some p' → calls p p' [ASubmitWork t]
| call_drain p owner : calls p (purge_owner owner p) [ADrain owner]
| call_poke p : calls p (poke p) []
| call_stop p : calls p (request_stop p) [].

Record World := mkWorld { w_pool : WorkerPool; w_agents : list Agent }.

Inductive turn : World → World → Prop :=
| turn_move p p' before a after agents :
    moves p a p' agents → turn (mkWorld p (before ++ a :: after)) (mkWorld p' (before ++ agents ++ after)).

Inductive step : World → World → Prop :=
| step_turn w w' : turn w w' → step w w'
| step_call p p' all agents : calls p p' agents → step (mkWorld p all) (mkWorld p' (all ++ agents)).

Definition initial : World := mkWorld new_pool (repeat AIdle worker_count).

(** ** Counting *)

Definition cnt {A} `{EqDecision A} (x : A) (l : list A) : nat := length (filter (λ y, y = x) l).

Lemma cnt_app {A} `{EqDecision A} (x : A) l l' : cnt x (l ++ l') = (cnt x l + cnt x l')%nat.
Proof. unfold cnt. by rewrite filter_app, length_app. Qed.

Lemma cnt_cons {A} `{EqDecision A} (x y : A) l : cnt x (y :: l) = ((if decide (y = x) then 1 else 0) + cnt x l)%nat.
Proof. unfold cnt. rewrite filter_cons. by destruct (decide _). Qed.

Lemma cnt_nil {A} `{EqDecision A} (x : A) : cnt x [] = 0%nat.
Proof. done. Qed.

#[export] Instance cnt_perm {A} `{EqDecision A} (x : A) : Proper ((≡ₚ) ==> eq) (cnt x).
Proof. intros l l' Hp. unfold cnt. by rewrite Hp. Qed.

Lemma cnt_pos {A} `{EqDecision A} (x : A) l : x ∈ l ↔ (0 < cnt x l)%nat.
Proof.
  induction l as [|y l IH]; [rewrite cnt_nil, elem_of_nil; lia|]. rewrite elem_of_cons, cnt_cons, IH.
  destruct (decide (y = x)) as [->|Hne]; [split; [lia|by left]|]. split; [intros [->|?]; [done|lia]|intros; right; lia].
Qed.

(** ** What is outstanding *)

Definition pool_owners (p : WorkerPool) : list Owner :=
  map rt_owner (p_ready p) ++ map rt_owner (parked_tasks (p_serial p)) ++ map wt_owner (p_work_ready p).

Definition agent_owners (a : Agent) : list Owner :=
  match a with
  | ASubmit t | AHold t _ | ARender t _ | AReturn t _ => [rt_owner t]
  | ASubmitWork t | AWork t _ | AWorkReturn t _ => [wt_owner t]
  | _ => []
  end.

Definition owners (w : World) : list Owner := pool_owners (w_pool w) ++ concat (map agent_owners (w_agents w)).

(** The count kept for an owner. *)
Definition claims (p : WorkerPool) (o : Owner) : nat := default 0%nat (p_outstanding p !! o).
Definition no_zero (p : WorkerPool) : Prop := ∀ o, p_outstanding p !! o ≠ Some 0%nat.

Lemma claim_claims o p o' : claims (claim_outstanding o p) o' = ((if decide (o = o') then 1 else 0) + claims p o')%nat.
Proof.
  unfold claims, claim_outstanding. cbn. destruct (decide (o = o')) as [->|]; [by rewrite lookup_insert_eq|by rewrite lookup_insert_ne].
Qed.

Lemma claim_no_zero o p : no_zero p → no_zero (claim_outstanding o p).
Proof. intros Hz o'. cbn. destruct (decide (o = o')) as [->|]; [by rewrite lookup_insert_eq|rewrite lookup_insert_ne by done; apply Hz]. Qed.

Lemma release_claims o p o' : no_zero p → claims (release_outstanding o p) o' = (claims p o' - (if decide (o = o') then 1 else 0))%nat.
Proof.
  intros Hz. unfold claims, release_outstanding. destruct (p_outstanding p !! o) as [n|] eqn:E.
  - destruct (pred n =? 0)%nat eqn:En; cbn; destruct (decide (o = o')) as [<-|].
    + rewrite lookup_delete_eq, E. apply Nat.eqb_eq in En. cbn. lia.
    + rewrite lookup_delete_ne by done. lia.
    + rewrite lookup_insert_eq, E. cbn. lia.
    + rewrite lookup_insert_ne by done. lia.
  - destruct (decide (o = o')) as [<-|]; [by rewrite E|lia].
Qed.

Lemma release_no_zero o p : no_zero p → no_zero (release_outstanding o p).
Proof.
  intros Hz o'. unfold release_outstanding. destruct (p_outstanding p !! o) as [n|] eqn:E; [|apply Hz].
  destruct (pred n =? 0)%nat eqn:En; cbn; destruct (decide (o = o')) as [<-|].
  - by rewrite lookup_delete_eq.
  - rewrite lookup_delete_ne by done. apply Hz.
  - rewrite lookup_insert_eq. apply Nat.eqb_neq in En. congruence.
  - rewrite lookup_insert_ne by done. apply Hz.
Qed.

Lemma release_dropped o p : p_dropped (release_outstanding o p) = p_dropped p.
Proof. unfold release_outstanding. destruct (p_outstanding p !! o); [|done]. by destruct (_ =? _)%nat. Qed.

(** An operation on the counts alone. *)
Definition same_queues (p p' : WorkerPool) : Prop :=
  p_ready p' = p_ready p ∧ p_work_ready p' = p_work_ready p ∧ p_serial p' = p_serial p ∧ p_stop p' = p_stop p ∧
  p_max_in_flight p' = p_max_in_flight p ∧ p_submitted p' = p_submitted p.

Lemma release_queues o p : same_queues p (release_outstanding o p).
Proof. unfold release_outstanding. destruct (p_outstanding p !! o); [|done]. by destruct (_ =? _)%nat. Qed.

(** Dropping tasks: their owners, in whatever queue they were. *)
Definition drop_all {T} (drop : T → WorkerPool → WorkerPool) (owner : T → Owner) : Prop :=
  ∀ t p, drop t p = release_outstanding (owner t) (note_dropped p).

(** ** The gates *)

(** The gate a task holds once it is through. *)
Definition gate_of (t : RenderTask) : list Content := if serialize_predicate (rt_content t) then [rt_content t] else [].

Definition agent_gates (a : Agent) : list Content :=
  match a with AHold t _ | ARender t _ | AReturn t _ | AGate t _ => gate_of t | _ => [] end.
Definition agent_renders (a : Agent) : list Content :=
  match a with ARender t _ | AReturn t _ | AGate t _ => gate_of t | _ => [] end.

Definition pool_gates (p : WorkerPool) : list Content := concat (map gate_of (p_ready p)).

(** The owners counted are those of the tasks the pool and the threads have; a gate has at
    most one task through it, none when the content has no entry; an entry is shut, counts
    the renders begun, and parks tasks of its content. *)
Record ok (p : WorkerPool) (O : list Owner) (G R : list Content) : Prop := {
  ok_zero : no_zero p;
  ok_claims : ∀ o, claims p o = cnt o (pool_owners p ++ O);
  ok_single : ∀ c, (cnt c (pool_gates p ++ G) <= 1)%nat;
  ok_closed : ∀ c, p_serial p !! c = None → cnt c (pool_gates p ++ G) = 0%nat;
  ok_open : p_stop p = false → ∀ c, is_Some (p_serial p !! c) → cnt c (pool_gates p ++ G) = 1%nat;
  ok_serial : ∀ c s, p_serial p !! c = Some s →
    ss_active s = true ∧ serialize_predicate c = true ∧ ss_rendering s = cnt c R ∧ Forall (λ t, rt_content t = c) (ss_parked s);
  ok_max : (p_max_in_flight p <= 1)%nat }.

Definition pool_ok (w : World) : Prop :=
  ok (w_pool w) (concat (map agent_owners (w_agents w))) (concat (map agent_gates (w_agents w))) (concat (map agent_renders (w_agents w))).

Lemma ok_counts p O G R O' G' R' :
  (∀ o, cnt o O = cnt o O') → (∀ c, cnt c G = cnt c G') → (∀ c, cnt c R = cnt c R') → ok p O G R → ok p O' G' R'.
Proof.
  intros HO HG HR [H1 H2 H3 H4 H5 H6 H7]. split; [done|..|done].
  - intros o. rewrite H2, !cnt_app, HO. done.
  - intros c. specialize (H3 c). rewrite cnt_app, HG in H3. by rewrite cnt_app.
  - intros c Hc. specialize (H4 c Hc). rewrite cnt_app, HG in H4. by rewrite cnt_app.
  - intros Hs c Hc. specialize (H5 Hs c Hc). rewrite cnt_app, HG in H5. by rewrite cnt_app.
  - intros c s Hc. rewrite <- HR. by apply H6.
Qed.

Lemma renders_gates agents c : (cnt c (concat (map agent_renders agents)) <= cnt c (concat (map agent_gates agents)))%nat.
Proof.
  induction agents as [|a agents IH]; [done|]. cbn [map concat]. rewrite !cnt_app.
  destruct a; cbn [agent_renders agent_gates]; rewrite ?cnt_nil; lia.
Qed.

(** *** Counting parked tasks *)

Definition parked_count (o : Owner) (m : gmap Content SerialState) : nat := cnt o (map rt_owner (parked_tasks m)).

Lemma parked_insert o c s m :
  parked_count o (<[c := s]> m) = (cnt o (map rt_owner (ss_parked s)) + parked_count o (delete c m))%nat.
Proof.
  unfold parked_count, parked_tasks. rewrite <- insert_delete_eq, map_to_list_insert by apply lookup_delete_eq.
  cbn [map concat snd]. by rewrite map_app, cnt_app.
Qed.

Lemma parked_lookup o c s m :
  m !! c = Some s → parked_count o m = (cnt o (map rt_owner (ss_parked s)) + parked_count o (delete c m))%nat.
Proof. intros Hc. rewrite <- parked_insert, insert_id by done. done. Qed.

Lemma parked_none c (m : gmap Content SerialState) : m !! c = None → delete c m = m.
Proof. apply delete_id. Qed.

Lemma pool_owners_count p o :
  cnt o (pool_owners p) = (cnt o (map rt_owner (p_ready p)) + parked_count o (p_serial p) + cnt o (map wt_owner (p_work_ready p)))%nat.
Proof. unfold pool_owners, parked_count. rewrite !cnt_app. lia. Qed.

Lemma gate_of_count c t : cnt c (gate_of t) = (if decide (rt_content t = c ∧ serialize_predicate c = true) then 1 else 0)%nat.
Proof.
  unfold gate_of. destruct (serialize_predicate (rt_content t)) eqn:E.
  - rewrite cnt_cons, cnt_nil. destruct (decide (rt_content t = c)) as [<-|]; [by rewrite decide_True|by rewrite decide_False by tauto].
  - rewrite cnt_nil, decide_False; [done|]. intros [<- ?]. congruence.
Qed.

Lemma pool_gates_app ready t : concat (map gate_of (ready ++ [t])) = concat (map gate_of ready) ++ gate_of t.
Proof. rewrite map_app, concat_app. cbn. by rewrite app_nil_r. Qed.

(** The state of a serialized content. *)
Lemma serial_state_cases p O G R c (Hok : ok p O G R) :
  (p_serial p !! c = None ∧ serial_state c p = mkSerial false 0 []) ∨
  (∃ s, p_serial p !! c = Some s ∧ serial_state c p = s ∧ ss_active s = true).
Proof.
  unfold serial_state. destruct (p_serial p !! c) as [s|] eqn:E; [right|by left]. exists s. split_and!; [done|done|]. by eapply ok_serial.
Qed.

Ltac counts :=
  repeat match goal with
  | H : context [cnt _ (_ ++ _)] |- _ => rewrite cnt_app in H
  | H : context [cnt _ (_ :: _)] |- _ => rewrite cnt_cons in H
  | H : context [cnt _ []] |- _ => rewrite cnt_nil in H
  | H : context [cnt _ (pool_owners _)] |- _ => rewrite pool_owners_count in H
  | |- context [cnt _ (_ ++ _)] => rewrite cnt_app
  | |- context [cnt _ (_ :: _)] => rewrite cnt_cons
  | |- context [cnt _ []] => rewrite cnt_nil
  | |- context [cnt _ (pool_owners _)] => rewrite pool_owners_count
  end.

(** *** Into the queue *)

Lemma push_ready_ok t p O G R : ok p (rt_owner t :: O) (gate_of t ++ G) R → ok (push_ready t p) O G R.
Proof.
  intros [H1 H2 H3 H4 H5 H6 H7].
  assert (∀ c, cnt c (pool_gates (push_ready t p) ++ G) = cnt c (pool_gates p ++ gate_of t ++ G)) as Hg.
  { intros c. unfold push_ready, pool_gates. cbn [set_queues p_ready]. rewrite pool_gates_app. counts. lia. }
  split; [done|..|done|done]; try (intros; rewrite Hg; auto).
  intros o. specialize (H2 o). change (claims (push_ready t p) o) with (claims p o). counts. cbn [push_ready set_queues p_ready p_serial p_work_ready].
  rewrite map_app. cbn [map]. counts. lia.
Qed.

Lemma take_gate_ok t p O G R :
  serialize_predicate (rt_content t) = true → p_serial p !! rt_content t = None → (∀ c, (cnt c R <= cnt c G)%nat) →
  ok p O G R → ok (take_gate t (serial_state (rt_content t) p) p) O (gate_of t ++ G) R.
Proof.
  intros Hs Hn HRG [H1 H2 H3 H4 H5 H6 H7]. unfold serial_state. rewrite Hn. cbn [default ss_rendering ss_parked take_gate].
  assert (∀ c, cnt c (gate_of t) = if decide (rt_content t = c) then 1%nat else 0%nat) as Hg.
  { intros c. rewrite gate_of_count. destruct (decide (rt_content t = c)) as [<-|]; [by rewrite decide_True|by rewrite decide_False by tauto]. }
  unfold take_gate. split; cbn [set_queues p_serial p_stop p_max_in_flight]; [done| | | | | |done].
  - intros o. specialize (H2 o). change (claims _ o) with (claims p o). counts. cbn [set_queues p_ready p_serial p_work_ready].
    rewrite parked_insert, parked_none by done. cbn. lia.
  - intros c. specialize (H3 c). change (pool_gates _) with (pool_gates p). counts. rewrite Hg. destruct (decide _) as [<-|]; [|lia].
    specialize (H4 _ Hn). counts. lia.
  - intros c Hc. destruct (decide (rt_content t = c)) as [<-|Hne]; [by rewrite lookup_insert_eq in Hc|]. rewrite lookup_insert_ne in Hc by done.
    specialize (H4 c Hc). change (pool_gates _) with (pool_gates p). counts. rewrite Hg, decide_False by done. lia.
  - intros Hst c Hc. change (pool_gates _) with (pool_gates p). counts. rewrite Hg. destruct (decide (rt_content t = c)) as [<-|Hne].
    + specialize (H4 _ Hn). counts. lia.
    + rewrite lookup_insert_ne in Hc by done. specialize (H5 Hst c Hc). counts. lia.
  - intros c s Hc. destruct (decide (rt_content t = c)) as [<-|Hne]; [|rewrite lookup_insert_ne in Hc by done; by apply H6].
    rewrite lookup_insert_eq in Hc. injection Hc as <-. cbn. split_and!; [done|done| |done].
    specialize (H4 _ Hn). specialize (HRG (rt_content t)). counts. lia.
Qed.

Lemma park_ok t p O G R s :
  serialize_predicate (rt_content t) = true → p_serial p !! rt_content t = Some s →
  ok p (rt_owner t :: O) G R → ok (park t s p) O G R.
Proof.
  intros Hs Hc [H1 H2 H3 H4 H5 H6 H7]. destruct (H6 _ _ Hc) as (Ha & _ & Hr & HF). unfold park.
  split; cbn [set_queues p_serial p_stop p_max_in_flight]; [done| |done| | | |done].
  - intros o. specialize (H2 o). change (claims _ o) with (claims p o). counts. cbn [set_queues p_ready p_serial p_work_ready].
    rewrite parked_insert. rewrite (parked_lookup o _ _ _ Hc) in H2. cbn [ss_parked]. rewrite map_app. cbn [map]. counts. lia.
  - intros c Hn. apply H4. destruct (decide (rt_content t = c)) as [<-|]; [by rewrite lookup_insert_eq in Hn|by rewrite lookup_insert_ne in Hn].
  - intros Hst c Hn. apply H5; [done|]. destruct (decide (rt_content t = c)) as [<-|]; [by rewrite Hc|by rewrite lookup_insert_ne in Hn].
  - intros c s' Hn. destruct (decide (rt_content t = c)) as [<-|]; [|rewrite lookup_insert_ne in Hn by done; by apply H6].
    rewrite lookup_insert_eq in Hn. injection Hn as <-. cbn. split_and!; [done|done|done|]. apply Forall_app. split; [done|]. by apply Forall_singleton.
Qed.

Lemma enqueue_ok t p O G R :
  (∀ c, (cnt c R <= cnt c G)%nat) → ok p (rt_owner t :: O) G R → ok (enqueue serialize_predicate t p) O G R.
Proof.
  intros HRG Hok. unfold enqueue. destruct (serialize_predicate (rt_content t)) eqn:Hs.
  - destruct (serial_state_cases _ _ _ _ (rt_content t) Hok) as [(Hn & Es)|(s & Hc & -> & ->)]; [|by apply park_ok].
    rewrite Es at 1. cbn [ss_active]. apply push_ready_ok. by apply take_gate_ok.
  - apply push_ready_ok. by replace (gate_of t) with (@nil Content) by (unfold gate_of; by rewrite Hs).
Qed.

Lemma submit_inline_ok t p O G R :
  (∀ c, (cnt c R <= cnt c G)%nat) → ok p (rt_owner t :: O) G R →
  let '(p', runs) := submit_inline serialize_predicate t p in
  if runs then ok p' (rt_owner t :: O) (gate_of t ++ G) R else ok p' O G R.
Proof.
  intros HRG Hok. unfold submit_inline. destruct (serialize_predicate (rt_content t)) eqn:Hs.
  - destruct (serial_state_cases _ _ _ _ (rt_content t) Hok) as [(Hn & Es)|(s & Hc & -> & ->)]; [|by apply park_ok].
    assert (ss_active (serial_state (rt_content t) p) = false) as -> by (by rewrite Es). by apply take_gate_ok.
  - by replace (gate_of t) with (@nil Content) by (unfold gate_of; by rewrite Hs).
Qed.

Lemma enqueue_work_ok t p O G R : ok p (wt_owner t :: O) G R → ok (enqueue_work t p) O G R.
Proof.
  intros [H1 H2 H3 H4 H5 H6 H7]. split; try done. intros o. specialize (H2 o). change (claims _ o) with (claims p o).
  counts. cbn [enqueue_work set_queues p_ready p_serial p_work_ready]. rewrite map_app. cbn [map]. counts. lia.
Qed.

(** *** The ledger: submissions that are neither dropped nor outstanding *)

Definition total (outstanding : gmap Owner nat) : nat := map_fold (λ _ n acc, n + acc)%nat 0%nat outstanding.
Definition ledger (p : WorkerPool) : Z := u64 (p_submitted p - p_dropped p - Z.of_nat (total (p_outstanding p))).

Lemma total_delete o n m : m !! o = Some n → total m = (n + total (delete o m))%nat.
Proof. intros Ho. unfold total. rewrite (map_fold_delete_L _ _ o n m); [done| |done]. intros. lia. Qed.

Lemma total_insert o n m : total (<[o := n]> m) = (n + total (delete o m))%nat.
Proof. rewrite (total_delete o n) by apply lookup_insert_eq. by rewrite delete_insert_eq. Qed.

Lemma claim_total o p : total (p_outstanding (claim_outstanding o p)) = S (total (p_outstanding p)).
Proof.
  cbn. rewrite total_insert. destruct (p_outstanding p !! o) as [n|] eqn:E; [by rewrite (total_delete o n (p_outstanding p))|]. by rewrite delete_id.
Qed.

Lemma release_total o p : (0 < claims p o)%nat → total (p_outstanding p) = S (total (p_outstanding (release_outstanding o p))).
Proof.
  unfold claims, release_outstanding. destruct (p_outstanding p !! o) as [n|] eqn:E; [|cbn; lia]. cbn [default id]. intros Hn.
  rewrite (total_delete o n (p_outstanding p)) by done. destruct (pred n =? 0)%nat eqn:En; cbn; [apply Nat.eqb_eq in En|rewrite total_insert; apply Nat.eqb_neq in En]; lia.
Qed.

Lemma drop_ledger o p : (0 < claims p o)%nat → ledger (release_outstanding o (note_dropped p)) = ledger p.
Proof.
  intros Hn. destruct (release_queues o (note_dropped p)) as (_ & _ & _ & _ & _ & Hs). unfold ledger. rewrite Hs, release_dropped.
  pose proof (release_total o (note_dropped p) Hn) as Ht. cbn [note_dropped p_outstanding p_submitted p_dropped] in *. rewrite Ht.
  unfold u64. rewrite <- Zminus_mod_idemp_l, Zminus_mod_idemp_r, Zminus_mod_idemp_l. f_equal. lia.
Qed.

(** *** Out of the queue *)

Lemma pop_ready_ok t ready p O G R :
  p_ready p = t :: ready → ok p O G R → ok (set_queues ready (p_work_ready p) (p_serial p) p) (rt_owner t :: O) (gate_of t ++ G) R.
Proof.
  intros Er [H1 H2 H3 H4 H5 H6 H7].
  assert (∀ c, cnt c (pool_gates (set_queues ready (p_work_ready p) (p_serial p) p) ++ gate_of t ++ G) = cnt c (pool_gates p ++ G)) as Hg.
  { intros c. unfold pool_gates. cbn [set_queues p_ready]. rewrite Er. cbn [map concat]. counts. lia. }
  split; [done|..|done|done]; try (intros; rewrite Hg; auto).
  intros o. specialize (H2 o). change (claims _ o) with (claims p o). counts. cbn [set_queues p_ready p_serial p_work_ready].
  rewrite Er in H2. cbn [map] in H2. counts. lia.
Qed.

Lemma pop_work_ok t work p O G R :
  p_work_ready p = t :: work → ok p O G R → ok (set_queues (p_ready p) work (p_serial p) p) (wt_owner t :: O) G R.
Proof.
  intros Er [H1 H2 H3 H4 H5 H6 H7]. split; try done. intros o. specialize (H2 o). change (claims _ o) with (claims p o).
  counts. cbn [set_queues p_ready p_serial p_work_ready]. rewrite Er in H2. cbn [map] in H2. counts. lia.
Qed.

Lemma drop_queued_all : drop_all drop_queued rt_owner ∧ drop_all drop_queued_work wt_owner.
Proof. by split. Qed.


Lemma release_ok o p O G R : ok p (o :: O) G R → ok (release_outstanding o p) O G R.
Proof.
  intros [H1 H2 H3 H4 H5 H6 H7]. destruct (release_queues o p) as (Er & Ew & Es & Et & Em & _).
  split; rewrite ?Es, ?Et, ?Em; unfold pool_gates; rewrite ?Er; [by apply release_no_zero| |done..].
  intros o'. rewrite release_claims, H2 by done. unfold pool_owners. rewrite Er, Ew, Es. counts. lia.
Qed.

Lemma drops_ok {T} (drop : T → WorkerPool → WorkerPool) owner l O G R :
  drop_all drop owner → ∀ p, ok p (map owner l ++ O) G R →
  ok (foldl (λ p t, drop t p) p l) O G R ∧ ledger (foldl (λ p t, drop t p) p l) = ledger p.
Proof.
  intros Hd. induction l as [|t l IH]; intros p Hok; [done|]. cbn [foldl].
  assert (0 < claims p (owner t))%nat as Hc by (rewrite (ok_claims _ _ _ _ Hok); cbn [map]; counts; rewrite decide_True by done; lia).
  destruct (IH (drop t p)) as [Hok' ->]; [|split; [done|rewrite Hd; by apply drop_ledger]].
  rewrite Hd. apply release_ok. destruct Hok. by split.
Qed.

Lemma drops_from {T} (drop : T → WorkerPool → WorkerPool) owner l p p0 O G R :
  drop_all drop owner → ledger p0 = ledger p → ok p0 (map owner l ++ O) G R →
  ok (foldl (λ p t, drop t p) p0 l) O G R ∧ ledger (foldl (λ p t, drop t p) p0 l) = ledger p.
Proof. intros Hd <-. by apply drops_ok. Qed.

Lemma drops_queues {T} (drop : T → WorkerPool → WorkerPool) owner l a b c :
  drop_all drop owner → ∀ p, set_queues a b c (foldl (λ p t, drop t p) p l) = foldl (λ p t, drop t p) (set_queues a b c p) l.
Proof.
  intros Hd. induction l as [|t l IH]; intros p; [done|]. cbn [foldl]. rewrite IH. f_equal. rewrite !Hd.
  unfold release_outstanding. cbn. destruct (p_outstanding p !! owner t); [|done]. by destruct (_ =? _)%nat.
Qed.

Lemma drops_same {T} (drop : T → WorkerPool → WorkerPool) owner l :
  drop_all drop owner → ∀ p, same_queues p (foldl (λ p t, drop t p) p l).
Proof.
  intros Hd. induction l as [|t l IH]; intros p; [done|]. cbn [foldl]. specialize (IH (drop t p)).
  pose proof (release_queues (owner t) (note_dropped p)) as Hr. rewrite <- Hd in Hr.
  destruct IH as (?&?&?&?&?&?), Hr as (?&?&?&?&?&?). unfold same_queues. cbn in *. split_and!; congruence.
Qed.

Lemma filter_never {A} (l : list A) : filter (λ _, false = true) l = [].
Proof. induction l as [|x l IH]; [done|]. by rewrite filter_cons_False. Qed.

Lemma parked_fmap f (m : gmap Content SerialState) (P : RenderTask → Prop) `{∀ t, Decision (P t)} :
  (∀ s, ss_parked (f s) = filter P (ss_parked s)) → parked_tasks (f <$> m) ≡ₚ filter P (parked_tasks m).
Proof.
  intros Hf. unfold parked_tasks. rewrite map_to_list_fmap. induction (map_to_list m) as [|[c s] l IH]; [done|].
  cbn. rewrite Hf, filter_app. by rewrite IH.
Qed.

Lemma parked_unpark m : parked_tasks (unpark <$> m) = [].
Proof.
  apply Permutation_nil_r. rewrite (parked_fmap unpark _ (λ _, false = true)) by (intros s; by rewrite filter_never). by rewrite filter_never.
Qed.

Lemma abandon_drops p :
  abandon_queued p =
  foldl (λ p t, drop_queued_work t p)
    (foldl (λ p t, drop_queued t p) (foldl (λ p t, drop_queued t p) (set_queues [] [] (unpark <$> p_serial p) p) (p_ready p))
       (parked_tasks (p_serial p))) (p_work_ready p).
Proof.
  destruct drop_queued_all as [Dr Dw]. unfold abandon_queued.
  cbn [set_queues p_serial p_work_ready p_ready].
  rewrite !(drops_queues _ _ _ _ _ _ Dr), (drops_queues _ _ _ _ _ _ Dw), !(drops_queues _ _ _ _ _ _ Dr).
  reflexivity.
Qed.

Lemma abandon_ok p O G R : p_stop p = true → ok p O G R → ok (abandon_queued p) O G R ∧ ledger (abandon_queued p) = ledger p.
Proof.
  intros Hst [H1 H2 H3 H4 H5 H6 H7]. destruct drop_queued_all as [Dr Dw]. rewrite abandon_drops.
  enough (ok (set_queues [] [] (unpark <$> p_serial p) p)
            (map rt_owner (p_ready p) ++ map rt_owner (parked_tasks (p_serial p)) ++ map wt_owner (p_work_ready p) ++ O) G R) as Hok.
  { apply (drops_ok _ _ _ _ _ _ Dr) in Hok as [Hok E1]. apply (drops_ok _ _ _ _ _ _ Dr) in Hok as [Hok E2].
    apply (drops_ok _ _ _ _ _ _ Dw) in Hok as [Hok E3]. split; [done|]. by rewrite E3, E2, E1. }
  split; cbn [set_queues p_serial p_stop p_max_in_flight]; [done| | | |congruence| |done].
  - intros o. specialize (H2 o). change (claims _ o) with (claims p o). rewrite H2. unfold pool_owners.
    cbn [set_queues p_ready p_serial p_work_ready]. rewrite parked_unpark. cbn [map app]. counts. lia.
  - intros c. specialize (H3 c). counts. unfold pool_gates. cbn. lia.
  - intros c Hc. rewrite lookup_fmap, fmap_None in Hc. specialize (H4 c Hc). counts. unfold pool_gates. cbn. lia.
  - intros c s Hc. rewrite lookup_fmap in Hc. apply fmap_Some in Hc as (s0 & Hc & ->). destruct (H6 c s0 Hc) as (A1 & A2 & A3 & _).
    by split_and!.
Qed.
Lemma begin_render_ok t p O G R :
  (∀ c, (cnt c R <= cnt c G)%nat) → ok p O (gate_of t ++ G) R →
  ok (begin_render serialize_predicate t p) O (gate_of t ++ G) (gate_of t ++ R).
Proof.
  intros HRG Hok. unfold begin_render. destruct (serialize_predicate (rt_content t)) eqn:Hs.
  2: { eapply ok_counts, Hok; intros; [done..|]. counts. rewrite gate_of_count, decide_False by (intros [<- ?]; congruence). lia. }
  destruct Hok as [H1 H2 H3 H4 H5 H6 H7]. set (c := rt_content t) in *.
  assert (∀ c', cnt c' (gate_of t) = if decide (c = c') then 1%nat else 0%nat) as Hg.
  { intros c'. rewrite gate_of_count. destruct (decide (c = c')) as [<-|]; [by rewrite decide_True|by rewrite decide_False by tauto]. }
  assert (cnt c R = 0%nat) as HR. { specialize (H3 c). specialize (HRG c). counts. rewrite Hg, decide_True in H3 by done. lia. }
  destruct (p_serial p !! c) as [s|] eqn:Hc.
  2: { specialize (H4 c Hc). counts. rewrite Hg, decide_True in H4 by done. lia. }
  destruct (H6 c s Hc) as (Ha & _ & Hr & HF). unfold serial_state. rewrite Hc. cbn [default id]. rewrite Hr, HR.
  assert (∀ c', p_serial p !! c' = None ↔ <[c := mkSerial (ss_active s) 1 (ss_parked s)]> (p_serial p) !! c' = None) as Hn.
  { intros c'. destruct (decide (c = c')) as [<-|]; [by rewrite Hc, lookup_insert_eq|by rewrite lookup_insert_ne]. }
  split; cbn [p_serial p_stop p_max_in_flight]; [done| |done| | | |lia].
  - intros o. specialize (H2 o). change (claims _ o) with (claims p o). counts. cbn [p_ready p_serial p_work_ready].
    rewrite parked_insert. rewrite (parked_lookup o _ _ _ Hc) in H2. cbn [ss_parked]. lia.
  - intros c' Hc'. by apply H4, Hn.
  - intros Hst c' Hc'. apply H5; [done|]. destruct (p_serial p !! c') eqn:E; [done|]. apply Hn in E. destruct Hc'. congruence.
  - intros c' s' Hc'. counts. rewrite Hg. destruct (decide (c = c')) as [<-|Hne].
    + rewrite lookup_insert_eq in Hc'. injection Hc' as <-. cbn. by rewrite HR.
    + rewrite lookup_insert_ne in Hc' by done. by apply H6.
Qed.

Lemma note_completed_ok p O G R : ok p O G R → ok (note_completed p) O G R.
Proof. intros Hok. by destruct Hok. Qed.

Lemma admit_ok o p p' O G R : admit_task o p = Some p' → ok p O G R → ok p' (o :: O) G R.
Proof.
  unfold admit_task. destruct (p_stop p) eqn:Hst; [done|]. intros [= <-] [H1 H2 H3 H4 H5 H6 H7]. split; [by apply claim_no_zero| |exact H3|exact H4|intros _; exact (H5 Hst)|exact H6|exact H7].
  intros o'. rewrite claim_claims. specialize (H2 o'). change (claims _ o') with (claims p o'). counts. cbn [claim_outstanding set_outstanding p_ready p_serial p_work_ready]. lia.
Qed.

(** *** The gate passes *)

Lemma held_entry p O c G R : ok p O (c :: G) R →
  ∃ s, p_serial p !! c = Some s ∧ Forall (λ t, rt_content t = c) (ss_parked s) ∧ ss_rendering s = cnt c R ∧ serialize_predicate c = true ∧
  ss_active s = true ∧ cnt c (pool_gates p ++ G) = 0%nat.
Proof.
  intros [H1 H2 H3 H4 H5 H6 H7]. specialize (H3 c). specialize (H4 c). destruct (p_serial p !! c) as [s|] eqn:Hc.
  - destruct (H6 c s Hc) as (?&?&?&?). exists s. split_and!; [done..|]. counts. rewrite decide_True in H3 by done. lia.
  - specialize (H4 eq_refl). counts. rewrite decide_True in H4 by done. lia.
Qed.

(** The first parked task leaves its place, with the gate. *)
Lemma hand_on_ok p O c G R R' s t parked n :
  p_serial p !! c = Some s → ss_parked s = t :: parked → n = cnt c R' → (∀ c', c' ≠ c → cnt c' R = cnt c' R') →
  ok p O (c :: G) R →
  ok (set_queues (p_ready p) (p_work_ready p) (<[c := mkSerial (ss_active s) n parked]> (p_serial p)) p) (rt_owner t :: O) (gate_of t ++ G) R'.
Proof.
  intros Hc Hp Hn HR Hok. destruct (held_entry _ _ _ _ _ Hok) as (s' & E & HF & Hr & Hs & Ha & _). rewrite Hc in E. injection E as <-.
  destruct Hok as [H1 H2 H3 H4 H5 H6 H7]. rewrite Hp in HF. apply Forall_cons in HF as [Ht HF].
  assert (gate_of t = [c]) as -> by (unfold gate_of; by rewrite Ht, Hs).
  split; cbn [set_queues p_serial p_stop p_max_in_flight]; [done| |done| | | |done].
  - intros o. specialize (H2 o). change (claims _ o) with (claims p o). counts. cbn [set_queues p_ready p_serial p_work_ready].
    rewrite parked_insert. rewrite (parked_lookup o _ _ _ Hc), Hp in H2. cbn [ss_parked map] in *. counts. lia.
  - intros c' Hc'. apply H4. destruct (decide (c = c')) as [<-|]; [by rewrite lookup_insert_eq in Hc'|by rewrite lookup_insert_ne in Hc'].
  - intros Hst c' Hc'. apply H5; [done|]. destruct (decide (c = c')) as [<-|]; [by rewrite Hc|by rewrite lookup_insert_ne in Hc'].
  - intros c' s' Hc'. destruct (decide (c = c')) as [<-|Hne].
    + rewrite lookup_insert_eq in Hc'. injection Hc' as <-. by split_and!.
    + rewrite lookup_insert_ne in Hc' by done. rewrite <- HR by done. by apply H6.
Qed.

Lemma open_gate_ok p O c G R R' s :
  p_serial p !! c = Some s → ss_parked s = [] → (∀ c', c' ≠ c → cnt c' R = cnt c' R') →
  ok p O (c :: G) R → ok (set_queues (p_ready p) (p_work_ready p) (delete c (p_serial p)) p) O G R'.
Proof.
  intros Hc Hp HR Hok. destruct (held_entry _ _ _ _ _ Hok) as (s' & E & _ & _ & _ & _ & H0). rewrite Hc in E. injection E as <-.
  destruct Hok as [H1 H2 H3 H4 H5 H6 H7].
  assert (∀ c', c ≠ c' → cnt c' (pool_gates p ++ c :: G) = cnt c' (pool_gates p ++ G)) as Hg by (intros c' ?; counts; by rewrite decide_False).
  split; cbn [set_queues p_serial p_stop p_max_in_flight]; [done| | | | | |done].
  - intros o. specialize (H2 o). change (claims _ o) with (claims p o). counts. cbn [set_queues p_ready p_serial p_work_ready].
    rewrite (parked_lookup o _ _ _ Hc), Hp in H2. cbn in H2. lia.
  - intros c'. specialize (H3 c'). change (pool_gates _) with (pool_gates p). counts. lia.
  - intros c' Hc'. change (pool_gates _) with (pool_gates p). destruct (decide (c = c')) as [<-|Hne]; [done|].
    rewrite <- Hg by done. apply H4. by rewrite lookup_delete_ne in Hc'.
  - intros Hst c' Hc'. change (pool_gates _) with (pool_gates p). destruct (decide (c = c')) as [<-|Hne].
    { rewrite lookup_delete_eq in Hc'. by destruct Hc'. }
    rewrite <- Hg by done. apply H5; [done|]. by rewrite lookup_delete_ne in Hc'.
  - intros c' s' Hc'. destruct (decide (c = c')) as [<-|Hne]; [by rewrite lookup_delete_eq in Hc'|].
    rewrite lookup_delete_ne in Hc' by done. rewrite <- HR by done. by apply H6.
Qed.

Lemma release_gate_ok t inline p O G R p' next :
  (∀ c, (cnt c R <= cnt c G)%nat) → release_gate serialize_predicate (rt_content t) inline p = (p', next) →
  ok p O (gate_of t ++ G) (gate_of t ++ R) →
  match next with Some n => ok p' (rt_owner n :: O) (gate_of n ++ G) R | None => ok p' O G R end.
Proof.
  intros HRG Hgate Hok. unfold release_gate, gate_of in *. destruct (serialize_predicate (rt_content t)) eqn:Hs; [|by injection Hgate as <- <-].
  cbn [app] in Hok. destruct (held_entry _ _ _ _ _ Hok) as (s & Hc & _ & Hr & _). unfold serial_state in Hgate. rewrite Hc in Hgate.
  cbn [default id] in Hgate. rewrite cnt_cons, decide_True in Hr by done.
  assert (∀ c', c' ≠ rt_content t → cnt c' (rt_content t :: R) = cnt c' R) as HR by (intros c' ?; rewrite cnt_cons, decide_False by done; lia).
  destruct (ss_parked s) as [|n parked] eqn:Hp; [injection Hgate as <- <-; by eapply open_gate_ok|].
  assert (pred (ss_rendering s) = cnt (rt_content t) R) as Hn by lia.
  pose proof (hand_on_ok _ _ _ _ _ _ _ _ _ _ Hc Hp Hn HR Hok) as Hok'.
  destruct inline; injection Hgate as <- <-; [done|]. by apply push_ready_ok.
Qed.

Lemma pass_gate_ok p O c G R : ok p O (c :: G) R → ok (pass_gate p c) O G R.
Proof.
  intros Hok. destruct (held_entry _ _ _ _ _ Hok) as (s & Hc & _ & Hr & _). unfold pass_gate. rewrite Hc.
  destruct (ss_parked s) as [|n parked] eqn:Hp; [by eapply open_gate_ok|].
  exact (push_ready_ok _ _ _ _ _ (hand_on_ok _ _ _ _ _ _ _ _ _ _ Hc Hp Hr (λ _ _, eq_refl) Hok)).
Qed.

(** *** The purge of an owner *)

Lemma filter_split {A} (f : A → bool) (l : list A) : l ≡ₚ filter (λ x, f x = true) l ++ filter (λ x, f x = false) l.
Proof.
  induction l as [|x l IH]; [done|]. rewrite !filter_cons. destruct (f x); [rewrite decide_True, decide_False by done|rewrite decide_False, decide_True by done].
  - cbn. by constructor.
  - rewrite <- Permutation_middle. by constructor.
Qed.

Lemma purge_parked_ok owner p O G R : ok p O G R → ok (purge_parked owner p) O G R ∧ ledger (purge_parked owner p) = ledger p.
Proof.
  intros [H1 H2 H3 H4 H5 H6 H7]. unfold purge_parked. apply (drops_from drop_queued rt_owner); [apply drop_queued_all|done|].
  split; cbn [set_queues p_serial p_stop p_max_in_flight]; [done| |done| | | |done].
  - intros o. specialize (H2 o). change (claims _ o) with (claims p o). rewrite H2. unfold pool_owners. cbn [set_queues p_ready p_serial p_work_ready].
    rewrite (parked_fmap _ _ (λ t, of_owner owner t = false)) by done. rewrite (filter_split (of_owner owner) (parked_tasks (p_serial p))) at 1.
    rewrite map_app. counts. lia.
  - intros c Hc. rewrite lookup_fmap, fmap_None in Hc. by apply H4.
  - intros Hst c Hc. rewrite lookup_fmap, fmap_is_Some in Hc. by apply H5.
  - intros c s Hc. rewrite lookup_fmap in Hc. apply fmap_Some in Hc as (s0 & Hc & ->). destruct (H6 c s0 Hc) as (A1 & A2 & A3 & A4).
    split_and!; [done..|]. cbn. apply Forall_forall. intros t Ht. apply list_elem_of_filter in Ht as [_ Ht]. by eapply Forall_forall in A4.
Qed.

Lemma purge_work_ok owner p O G R : ok p O G R → ok (purge_work owner p) O G R ∧ ledger (purge_work owner p) = ledger p.
Proof.
  intros [H1 H2 H3 H4 H5 H6 H7]. unfold purge_work. apply (drops_from drop_queued_work wt_owner); [apply drop_queued_all|done|]. split; try done.
  intros o. specialize (H2 o). change (claims _ o) with (claims p o). rewrite H2. unfold pool_owners. cbn [set_queues p_ready p_serial p_work_ready].
  rewrite (filter_split (work_of owner) (p_work_ready p)) at 1. rewrite map_app. counts. lia.
Qed.

(** The gates of the ready tasks purged, as the code finds them by their entries. *)
Lemma orphaned_gates p O G R l :
  ok p O G R → l ⊆ p_ready p → filter (λ c, is_Some (p_serial p !! c)) (map rt_content l) = concat (map gate_of l).
Proof.
  intros Hok. induction l as [|t l IH]; intros Hl; [done|]. cbn [map concat]. rewrite filter_cons, IH by (intros x ?; apply Hl; by right).
  assert (t ∈ p_ready p) as Ht by (apply Hl; left).
  destruct (decide (is_Some _)) as [[s Hc]|Hn].
  - unfold gate_of at 2. destruct (ok_serial _ _ _ _ Hok _ _ Hc) as (_ & -> & _). done.
  - unfold gate_of at 2. destruct (serialize_predicate (rt_content t)) eqn:Hs; [|done]. exfalso. apply eq_None_not_Some in Hn.
    pose proof (ok_closed _ _ _ _ Hok _ Hn) as H0. counts. enough (0 < cnt (rt_content t) (pool_gates p))%nat by lia.
    apply cnt_pos, list_elem_of_In, in_concat. exists (gate_of t). split; [by apply in_map, list_elem_of_In|]. unfold gate_of. rewrite Hs. by left.
Qed.

Lemma pass_gate_ledger p c : ledger (pass_gate p c) = ledger p.
Proof. unfold pass_gate. destruct (p_serial p !! c) as [s|]; [|done]. by destruct (ss_parked s). Qed.

Lemma gates_passed p O l G R : ok p O (l ++ G) R → ok (foldl pass_gate p l) O G R ∧ ledger (foldl pass_gate p l) = ledger p.
Proof.
  revert p. induction l as [|c l IH]; intros p Hok; [done|]. cbn [foldl]. rewrite <- (pass_gate_ledger p c). by apply IH, pass_gate_ok.
Qed.

Lemma purge_ready_ok owner p O G R : ok p O G R → ok (purge_ready owner p) O G R ∧ ledger (purge_ready owner p) = ledger p.
Proof.
  intros Hok. unfold purge_ready. rewrite (orphaned_gates _ _ _ _ _ Hok) by (intros t Ht; by apply list_elem_of_filter in Ht as [_ ?]).
  set (l := filter (λ t, of_owner owner t = true) (p_ready p)).
  set (p0 := set_queues (filter (λ t, of_owner owner t = false) (p_ready p)) (p_work_ready p) (p_serial p) p).
  enough (ok p0 (map rt_owner l ++ O) (concat (map gate_of l) ++ G) R) as Hp0.
  { destruct (drops_from drop_queued rt_owner l p p0 O _ R (proj1 drop_queued_all) eq_refl Hp0) as [Hok' <-]. by apply gates_passed. }
  subst l p0. destruct Hok as [H1 H2 H3 H4 H5 H6 H7].
  pose proof (filter_split (of_owner owner) (p_ready p)) as Hf.
  assert (∀ c, cnt c (concat (map gate_of (filter (λ t, of_owner owner t = false) (p_ready p))) ++
                 concat (map gate_of (filter (λ t, of_owner owner t = true) (p_ready p))) ++ G) = cnt c (pool_gates p ++ G)) as Hg.
  { intros c. unfold pool_gates. rewrite Hf at 3. rewrite map_app, concat_app. counts. lia. }
  split; cbn [set_queues p_serial p_stop p_max_in_flight]; [done| | | | |done|done].
  - intros o. specialize (H2 o). change (claims _ o) with (claims p o). rewrite H2. unfold pool_owners. cbn [set_queues p_ready p_serial p_work_ready].
    rewrite Hf at 1. rewrite map_app. counts. lia.
  - intros c. unfold pool_gates. cbn [set_queues p_ready]. rewrite Hg. apply H3.
  - intros c Hc. unfold pool_gates. cbn [set_queues p_ready]. rewrite Hg. by apply H4.
  - intros Hst c Hc. unfold pool_gates. cbn [set_queues p_ready]. rewrite Hg. by apply H5.
Qed.

Lemma purge_owner_ok owner p O G R : ok p O G R → ok (purge_owner owner p) O G R ∧ ledger (purge_owner owner p) = ledger p.
Proof.
  intros [[[Hok E1]%(purge_work_ok owner) E2]%(purge_ready_ok owner) E3]%(purge_parked_ok owner).
  split; [done|]. unfold purge_owner. by rewrite E1, E2.
Qed.

(** *** Every section keeps the books *)

Definition off_thread (a : Agent) : Prop := match a with ASettling _ | ASettled _ => True | _ => False end.
#[export] Instance off_thread_dec a : Decision (off_thread a).
Proof. destruct a; apply _. Defined.
Definition returning (a : Agent) : Prop := match a with AReturn _ _ | AWorkReturn _ _ => True | _ => False end.
#[export] Instance returning_dec a : Decision (returning a).
Proof. destruct a; apply _. Defined.

(** Everything submitted is dropped, outstanding, or returned: counted, or left to settle
    off the thread. *)
Definition balanced (p : WorkerPool) (agents : list Agent) : Prop :=
  u64 (ledger p + Z.of_nat (length (filter returning agents))) = u64 (p_completed p + Z.of_nat (length (filter off_thread agents))).

Lemma release_ledger o p : (0 < claims p o)%nat → ledger (release_outstanding o p) = u64 (ledger p + 1).
Proof.
  intros Hn. destruct (release_queues o p) as (_ & _ & _ & _ & _ & Hs). unfold ledger. rewrite Hs, release_dropped, (release_total o p Hn).
  unfold u64. rewrite Zplus_mod_idemp_l. f_equal. lia.
Qed.

Lemma admit_ledger o p p' : admit_task o p = Some p' → ledger p' = ledger p ∧ p_completed p' = p_completed p.
Proof.
  unfold admit_task. destruct (p_stop p); [done|]. intros [= <-]. split; [|done]. unfold ledger. rewrite claim_total. cbn [claim_outstanding set_outstanding p_submitted p_dropped p_outstanding].
  unfold u64. rewrite <- Z.sub_add_distr, Zminus_mod_idemp_l. f_equal. lia.
Qed.

Lemma enqueue_ledger t p : ledger (enqueue serialize_predicate t p) = ledger p ∧ p_completed (enqueue serialize_predicate t p) = p_completed p.
Proof. unfold enqueue. destruct (serialize_predicate _); [|done]. by destruct (ss_active _). Qed.

Lemma submit_inline_ledger t p p' runs :
  submit_inline serialize_predicate t p = (p', runs) → ledger p' = ledger p ∧ p_completed p' = p_completed p.
Proof. unfold submit_inline. destruct (serialize_predicate _); [|by intros [= <- _]]. by destruct (ss_active _); intros [= <- _]. Qed.

Lemma release_gate_ledger c inline p p' next :
  release_gate serialize_predicate c inline p = (p', next) → ledger p' = ledger p ∧ p_completed p' = p_completed p.
Proof.
  unfold release_gate. destruct (serialize_predicate _); [|by intros [= <- _]].
  destruct (ss_parked _); [by intros [= <- _]|]. by destruct inline; intros [= <- _].
Qed.

Lemma drops_completed {T} (drop : T → WorkerPool → WorkerPool) owner l :
  drop_all drop owner → ∀ p, p_completed (foldl (λ p t, drop t p) p l) = p_completed p.
Proof.
  intros Hd. induction l as [|t l IH]; intros p; [done|]. cbn [foldl]. rewrite IH, Hd. unfold release_outstanding.
  destruct (p_outstanding _ !! _); [|done]. by destruct (_ =? _)%nat.
Qed.

Lemma abandon_completed p : p_completed (abandon_queued p) = p_completed p.
Proof.
  destruct drop_queued_all as [Dr Dw]. rewrite abandon_drops. by rewrite (drops_completed _ _ _ Dw), !(drops_completed _ _ _ Dr).
Qed.

Lemma gates_completed l p : p_completed (foldl pass_gate p l) = p_completed p.
Proof.
  revert p. induction l as [|c l IH]; intros p; [done|]. cbn [foldl]. rewrite IH. unfold pass_gate.
  destruct (p_serial p !! c) as [s|]; [|done]. by destruct (ss_parked s).
Qed.

Lemma purge_completed owner p : p_completed (purge_owner owner p) = p_completed p.
Proof.
  destruct drop_queued_all as [Dr Dw]. unfold purge_owner, purge_work. rewrite (drops_completed _ _ _ Dw). cbn [set_queues p_completed].
  unfold purge_ready. rewrite gates_completed, (drops_completed _ _ _ Dr). cbn [set_queues p_completed].
  unfold purge_parked. by rewrite (drops_completed _ _ _ Dr).
Qed.

Lemma settled_ok p p' O G R : same_queues p p' → p_outstanding p' = p_outstanding p → ok p O G R → ok p' O G R.
Proof.
  intros (Er & Ew & Es & Et & Em & _) Eo [H1 H2 H3 H4 H5 H6 H7].
  split; unfold no_zero, claims, pool_owners, pool_gates in *; rewrite ?Er, ?Ew, ?Es, ?Et, ?Em, ?Eo; done.
Qed.

Lemma sections_ok p a p' agents O G R :
  (∀ c, (cnt c R <= cnt c G)%nat) → moves p a p' agents →
  ok p (agent_owners a ++ O) (agent_gates a ++ G) (agent_renders a ++ R) →
  ok p' (concat (map agent_owners agents) ++ O) (concat (map agent_gates agents) ++ G) (concat (map agent_renders agents) ++ R).
Proof.
  intros HRG Hm Hok. destruct Hm as [p t Hw|p t Hw|p t Hw|p t Hw|p p' taken Ht|p t inline|p t inline|p t inline|p t|p t inline|p t inline|p t inline|p t inline|p o Hd];
    cbn [agent_owners agent_gates agent_renders map concat app] in *; rewrite ?app_nil_r in *.
  - by apply enqueue_ok.
  - pose proof (submit_inline_ok t p O G R HRG Hok) as Hi. destruct (submit_inline _ t p) as [p' []]; cbn in *; [by rewrite ?app_nil_r|done].
  - by apply enqueue_work_ok.
  - done.
  - unfold take_next in Ht. destruct (p_stop p) eqn:Hst; [injection Ht as <- <-; by apply abandon_ok|].
    destruct (p_ready p) as [|t ready] eqn:Er; [destruct (p_work_ready p) as [|t work] eqn:Ew; [done|]|]; injection Ht as <- <-; cbn; rewrite ?app_nil_r.
    + rewrite <- Er. by apply pop_work_ok.
    + by apply pop_ready_ok.
  - by apply begin_render_ok.
  - by apply note_completed_ok.
  - done.
  - by apply (settled_ok p).
  - by apply release_ok.
  - destruct (release_gate serialize_predicate (rt_content t) inline p) as [p' next] eqn:Eg.
    pose proof (release_gate_ok t inline p O G R p' next HRG Eg Hok) as Hg. cbn [fst snd].
    destruct next; [|destruct inline]; cbn; by rewrite ?app_nil_r.
  - by apply note_completed_ok.
  - destruct inline; cbn; by apply release_ok.
  - done.
Qed.

Lemma calls_ok p p' agents O G R :
  calls p p' agents → ok p O G R →
  ok p' (O ++ concat (map agent_owners agents)) (G ++ concat (map agent_gates agents)) (R ++ concat (map agent_renders agents)).
Proof.
  intros Hc Hok. destruct Hc as [p p' t Ha|p p' t Ha|p o|p|p]; cbn [agent_owners agent_gates agent_renders map concat app]; rewrite ?app_nil_r.
  - eapply ok_counts, (admit_ok _ _ _ _ _ _ Ha Hok); intros; [counts; lia|done..].
  - eapply ok_counts, (admit_ok _ _ _ _ _ _ Ha Hok); intros; [counts; lia|done..].
  - by apply purge_owner_ok.
  - by apply (settled_ok p).
  - destruct Hok as [H1 H2 H3 H4 H5 H6 H7]. by split.
Qed.

Lemma step_ok w w' : step w w' → pool_ok w → pool_ok w'.
Proof.
  unfold pool_ok. intros [w1 w2 [p p' before a after agents Hm]|p p' all agents Hc] Hok; cbn [w_pool w_agents] in *; rewrite !map_app, !concat_app in *.
  - cbn [map concat] in Hok. set (rest := before ++ after).
    eapply ok_counts, (sections_ok p a p' agents (concat (map agent_owners rest)) (concat (map agent_gates rest)) (concat (map agent_renders rest)));
      try done; try (intros; unfold rest; rewrite ?map_app, ?concat_app; counts; lia).
    + intros c. apply renders_gates.
    + eapply ok_counts, Hok; intros; unfold rest; rewrite ?map_app, ?concat_app; counts; lia.
  - by apply calls_ok with p.
Qed.

Lemma initial_ok : pool_ok initial.
Proof.
  assert (∀ f : Agent → list Z, f AIdle = [] → concat (map f (repeat AIdle worker_count)) = []) as Hr.
  { intros f Hf. induction worker_count as [|n IH]; [done|]. cbn. by rewrite Hf, IH. }
  unfold pool_ok, initial. cbn [w_pool w_agents]. rewrite !Hr by done. split; cbn; try done.
  - intros _. lia.
  - intros _ c []. done.
  - lia.
Qed.

Lemma reachable_ok w : rtc step initial w → pool_ok w.
Proof. revert w. apply rtc_ind_r; [apply initial_ok|]. intros w w' _ Hs Hok. by apply step_ok with w. Qed.

Lemma u64_shift x y k : u64 x = u64 y → u64 (x + k) = u64 (y + k).
Proof. unfold u64. intros E. rewrite <- Zplus_mod_idemp_l, E. apply Zplus_mod_idemp_l. Qed.

Lemma u64_l x y : u64 (u64 x + y) = u64 (x + y).
Proof. apply Zplus_mod_idemp_l. Qed.

Lemma release_completed o p : p_completed (release_outstanding o p) = p_completed p.
Proof. unfold release_outstanding. destruct (p_outstanding p !! o); [|done]. by destruct (_ =? _)%nat. Qed.

Lemma balance_release x r y : u64 (x + Z.of_nat (S r)) = y → u64 (u64 (x + 1) + Z.of_nat r) = y.
Proof. intros <-. rewrite u64_l. f_equal. lia. Qed.

Lemma balance_both x r y f : u64 (x + Z.of_nat r) = u64 (y + Z.of_nat f) → u64 (x + Z.of_nat (S r)) = u64 (y + Z.of_nat (S f)).
Proof.
  intros H%(u64_shift _ _ 1). replace (x + Z.of_nat (S r)) with (x + Z.of_nat r + 1) by lia. rewrite H. f_equal. lia.
Qed.

Lemma balance_note x r y f : u64 (x + Z.of_nat r) = u64 (y + Z.of_nat f) → u64 (x + Z.of_nat (S r)) = u64 (u64 (y + 1) + Z.of_nat f).
Proof. intros H%balance_both. rewrite H, u64_l. f_equal. lia. Qed.

Lemma take_next_balanced p p' taken : take_next p = Some (p', taken) → (∃ O G R, ok p O G R) → ledger p' = ledger p ∧ p_completed p' = p_completed p.
Proof.
  intros Ht (O & G & R & Hok). unfold take_next in Ht. destruct (p_stop p) eqn:Hst.
  - injection Ht as <- <-. split; [by eapply abandon_ok|apply abandon_completed].
  - destruct (p_ready p) as [|t ready]; [destruct (p_work_ready p) as [|t work]; [done|]|]; by injection Ht as <- <-.
Qed.

Lemma moves_balanced p a p' agents rest :
  moves p a p' agents → (∀ o, (cnt o (agent_owners a) <= claims p o)%nat) → (∃ O G R, ok p O G R) →
  balanced p (a :: rest) → balanced p' (agents ++ rest).
Proof.
  intros Hm Hc Hok Hb. unfold balanced in *. rewrite !filter_cons in Hb.
  assert (∀ o, agent_owners a = [o] → (0 < claims p o)%nat) as Ho.
  { intros o E. specialize (Hc o). rewrite E in Hc. counts. rewrite decide_True in Hc by done. lia. }
  set (r := filter returning rest) in *. set (f := filter off_thread rest) in *.
  assert (∀ l, filter returning (l ++ rest) = filter returning l ++ r) as Hr by (intros; apply filter_app).
  assert (∀ l, filter off_thread (l ++ rest) = filter off_thread l ++ f) as Hf by (intros; apply filter_app).
  destruct Hm as [p t Hw|p t Hw|p t Hw|p t Hw|p p' taken Ht|p t inline|p t inline|p t inline|p t|p t inline|p t inline|p t inline|p t inline|p o Hd];
    cbn [fst snd]; rewrite ?Hr, ?Hf; cbn in Hb.
  - destruct (enqueue_ledger t p) as [-> ->]. exact Hb.
  - destruct (submit_inline _ t p) as [p' runs] eqn:E. destruct (submit_inline_ledger _ _ _ _ E) as [E1 E2]. cbn [fst snd]. rewrite E1, E2.
    by destruct runs.
  - exact Hb.
  - exact Hb.
  - destruct (take_next_balanced _ _ _ Ht Hok) as [-> ->]. by destruct taken.
  - unfold begin_render. by destruct (serialize_predicate _).
  - cbn [note_completed poke p_completed]. exact (balance_note _ _ _ _ Hb).
  - exact (balance_both _ _ _ _ Hb).
  - exact Hb.
  - rewrite release_ledger, release_completed by (by apply Ho). exact (balance_release _ _ _ Hb).
  - destruct (release_gate _ _ inline p) as [p' next] eqn:E. destruct (release_gate_ledger _ _ _ _ _ E) as [E1 E2]. cbn [fst snd].
    rewrite E1, E2. by destruct next, inline.
  - cbn [note_completed poke p_completed]. exact (balance_note _ _ _ _ Hb).
  - rewrite release_ledger, release_completed by (by apply Ho). destruct inline; exact (balance_release _ _ _ Hb).
  - exact Hb.
Qed.

Lemma step_balanced w w' : step w w' → pool_ok w → balanced (w_pool w) (w_agents w) → balanced (w_pool w') (w_agents w').
Proof.
  assert (∀ p l l', l ≡ₚ l' → balanced p l → balanced p l') as Hperm.
  { intros p l l' Hp. unfold balanced. by rewrite Hp. }
  intros [w1 w2 [p p' before a after agents Hm]|p p' all agents Hc] Hok Hb; cbn [w_pool w_agents] in *.
  - apply (Hperm _ (agents ++ before ++ after)); [rewrite !(assoc_L (++)); f_equiv; apply Permutation_app_comm|].
    eapply moves_balanced; [done| | |by apply (Hperm _ (before ++ a :: after)); [rewrite Permutation_middle|]].
    + intros o. unfold pool_ok in Hok. cbn [w_pool w_agents] in Hok. rewrite (ok_claims _ _ _ _ Hok). rewrite map_app, concat_app. cbn [map concat]. counts. lia.
    + eexists _, _, _. exact Hok.
  - unfold pool_ok in Hok. cbn [w_pool w_agents] in Hok. unfold balanced in *. rewrite !filter_app.
    destruct Hc as [p p' t Ha|p p' t Ha|p o|p|p].
    + destruct (admit_ledger _ _ _ Ha) as [-> ->]. cbn. by rewrite !app_nil_r.
    + destruct (admit_ledger _ _ _ Ha) as [-> ->]. cbn. by rewrite !app_nil_r.
    + destruct (purge_owner_ok o _ _ _ _ Hok) as [_ ->]. rewrite purge_completed. cbn. by rewrite !app_nil_r.
    + cbn. by rewrite !app_nil_r.
    + cbn. by rewrite !app_nil_r.
Qed.

Lemma reachable_balanced w : rtc step initial w → balanced (w_pool w) (w_agents w).
Proof.
  revert w. enough (∀ w, rtc step initial w → pool_ok w ∧ balanced (w_pool w) (w_agents w)) as H by (intros; by apply H).
  apply rtc_ind_r; [split; [apply initial_ok|]|].
  - unfold balanced, initial. cbn [w_pool w_agents]. induction worker_count as [|n IH]; [done|]. exact IH.
  - intros w w' _ Hs [Hok Hb]. split; [by apply step_ok with w|by apply step_balanced with w].
Qed.

(** ** The work left *)

Definition weight (a : Agent) : nat :=
  match a with
  | ASubmit _ => 7 | AHold _ _ => 6 | ARender _ _ => 5 | AReturn _ _ => 3 | AGate _ _ => 2
  | ASubmitWork _ => 4 | AWork _ _ => 3 | AWorkReturn _ _ => 2
  | AIdle | ADrain _ | ASettling _ => 1
  | AExited | ASettled _ => 0
  end.

Definition queued_weight (p : WorkerPool) : nat :=
  6 * length (p_ready p) + 6 * length (parked_tasks (p_serial p)) + 3 * length (p_work_ready p).

Definition work_left (w : World) : nat := queued_weight (w_pool w) + sum_list_with weight (w_agents w).

Lemma parked_insert_length c s m : length (parked_tasks (<[c := s]> m)) = (length (ss_parked s) + length (parked_tasks (delete c m)))%nat.
Proof.
  unfold parked_tasks. rewrite <- insert_delete_eq, map_to_list_insert by apply lookup_delete_eq. cbn [map concat snd]. by rewrite length_app.
Qed.

Lemma parked_state_length c p :
  length (parked_tasks (p_serial p)) = (length (ss_parked (serial_state c p)) + length (parked_tasks (delete c (p_serial p))))%nat.
Proof.
  unfold serial_state. destruct (p_serial p !! c) as [s|] eqn:Hc; [|by rewrite delete_id].
  rewrite <- parked_insert_length, insert_id; done.
Qed.

Lemma drops_weight {T} (drop : T → WorkerPool → WorkerPool) owner l p :
  drop_all drop owner → queued_weight (foldl (λ p t, drop t p) p l) = queued_weight p.
Proof. intros Hd. destruct (drops_same drop owner l Hd p) as (Er & Ew & Es & _). unfold queued_weight. by rewrite Er, Ew, Es. Qed.

Ltac weigh := unfold queued_weight; cbn [set_queues p_ready p_work_ready p_serial]; rewrite ?parked_insert_length, ?length_app;
  cbn [ss_parked length]; rewrite ?length_app; cbn [length] in *; try lia.

Lemma take_gate_weight t p :
  queued_weight (take_gate t (serial_state (rt_content t) p) p) = queued_weight p.
Proof. pose proof (parked_state_length (rt_content t) p) as Hl. unfold take_gate. weigh. Qed.

Lemma park_weight t p : queued_weight (park t (serial_state (rt_content t) p) p) = (queued_weight p + 6)%nat.
Proof. pose proof (parked_state_length (rt_content t) p) as Hl. unfold park. weigh. Qed.

Lemma push_weight t p : queued_weight (push_ready t p) = (queued_weight p + 6)%nat.
Proof. unfold queued_weight, push_ready. cbn [set_queues p_ready p_work_ready p_serial]. rewrite length_app. cbn. lia. Qed.

Lemma release_gate_weight c inline p p' next :
  release_gate serialize_predicate c inline p = (p', next) →
  (queued_weight p' + match next with Some _ => 6 | None => 0 end <= queued_weight p)%nat.
Proof.
  unfold release_gate. destruct (serialize_predicate c); [|intros [= <- <-]; lia]. pose proof (parked_state_length c p) as Hl.
  destruct (ss_parked (serial_state c p)) as [|n parked]; [intros [= <- <-]; weigh|].
  destruct inline; intros [= <- <-]; [weigh|]. rewrite push_weight. weigh.
Qed.

Lemma moves_weight p a p' agents :
  moves p a p' agents → (queued_weight p' + sum_list_with weight agents < queued_weight p + weight a)%nat.
Proof.
  intros [q t Hw|q t Hw|q t Hw|q t Hw|q q' taken Ht|q t inline|q t inline|q t inline|q t|q t inline|q t inline|q t inline|q t inline|q o Hd].
  - unfold enqueue. destruct (serialize_predicate _); [destruct (ss_active _)|]; cbn [sum_list_with weight]; rewrite ?push_weight, ?park_weight, ?take_gate_weight; lia.
  - unfold submit_inline. destruct (serialize_predicate _); [destruct (ss_active _)|]; cbn [sum_list_with weight fst snd]; rewrite ?park_weight, ?take_gate_weight; lia.
  - unfold queued_weight. cbn. rewrite length_app. cbn. lia.
  - cbn. lia.
  - unfold take_next in Ht. destruct (p_stop q).
    + injection Ht as <- <-. destruct drop_queued_all as [Dr Dw]. rewrite abandon_drops, (drops_weight _ _ _ _ Dw), !(drops_weight _ _ _ _ Dr).
      unfold queued_weight. cbn [set_queues p_ready p_serial p_work_ready length]. rewrite parked_unpark. cbn. lia.
    + unfold queued_weight. destruct (p_ready q) as [|t ready] eqn:Er; [destruct (p_work_ready q) as [|t work] eqn:Ew; [done|]|]; injection Ht as <- <-;
        cbn [set_queues p_ready p_serial p_work_ready length sum_list_with weight]; rewrite ?Er; cbn [length]; lia.
  - unfold begin_render. destruct (serialize_predicate _); [|cbn; lia]. pose proof (parked_state_length (rt_content t) q) as Hl. cbn [sum_list_with weight]. weigh.
  - cbn. change (queued_weight (note_completed q)) with (queued_weight q). lia.
  - cbn. lia.
  - cbn. change (queued_weight (poke q)) with (queued_weight q). lia.
  - destruct (release_queues (rt_owner t) q) as (Er & Ew & Es & _). unfold queued_weight. rewrite Er, Ew, Es. cbn. lia.
  - destruct (release_gate _ _ inline q) as [q' next] eqn:E. apply release_gate_weight in E. cbn [fst snd]. destruct next, inline; cbn [sum_list_with weight back] in *; lia.
  - cbn. change (queued_weight (note_completed q)) with (queued_weight q). lia.
  - destruct (release_queues (wt_owner t) q) as (Er & Ew & Es & _). unfold queued_weight. rewrite Er, Ew, Es. destruct inline; cbn; lia.
  - cbn. lia.
Qed.

Lemma turn_work w w' : turn w w' → (work_left w' < work_left w)%nat.
Proof.
  intros [p p' before a after agents Hm]. apply moves_weight in Hm. unfold work_left. cbn [w_pool w_agents].
  rewrite !sum_list_with_app. cbn [sum_list_with]. lia.
Qed.

(** *** The worker threads *)

Definition worker (a : Agent) : bool :=
  match a with
  | AIdle | AExited | AHold _ false | ARender _ false | AReturn _ false | AGate _ false | AWork _ false | AWorkReturn _ false => true
  | _ => false
  end.

Definition workers (agents : list Agent) : nat := length (filter (λ a, worker a = true) agents).

(** The threads the constructor started are there, and leave only when stopped. *)
Definition staffed (w : World) : Prop :=
  (worker_count ≠ 0%nat → (0 < workers (w_agents w))%nat) ∧ (AExited ∈ w_agents w → p_stop (w_pool w) = true).

Lemma workers_app l l' : workers (l ++ l') = (workers l + workers l')%nat.
Proof. unfold workers. by rewrite filter_app, length_app. Qed.

Lemma drops_stop {T} (drop : T → WorkerPool → WorkerPool) owner l p :
  drop_all drop owner → p_stop (foldl (λ p t, drop t p) p l) = p_stop p.
Proof. intros Hd. by destruct (drops_same drop owner l Hd p) as (_ & _ & _ & -> & _). Qed.

Lemma abandon_stop p : p_stop (abandon_queued p) = p_stop p.
Proof. destruct drop_queued_all as [Dr Dw]. by rewrite abandon_drops, (drops_stop _ _ _ _ Dw), !(drops_stop _ _ _ _ Dr). Qed.

Lemma gates_stop l p : p_stop (foldl pass_gate p l) = p_stop p.
Proof.
  revert p. induction l as [|c l IH]; intros p; [done|]. cbn [foldl]. rewrite IH. unfold pass_gate.
  destruct (p_serial p !! c) as [s|]; [|done]. by destruct (ss_parked s).
Qed.

Lemma purge_stop owner p : p_stop (purge_owner owner p) = p_stop p.
Proof.
  destruct drop_queued_all as [Dr Dw]. unfold purge_owner, purge_work. rewrite (drops_stop _ _ _ _ Dw). cbn [set_queues p_stop].
  unfold purge_ready. rewrite gates_stop, (drops_stop _ _ _ _ Dr). cbn [set_queues p_stop].
  unfold purge_parked. by rewrite (drops_stop _ _ _ _ Dr).
Qed.

Lemma enqueue_stop t p : p_stop (enqueue serialize_predicate t p) = p_stop p.
Proof. unfold enqueue. destruct (serialize_predicate _); [|done]. by destruct (ss_active _). Qed.

Lemma submit_inline_stop t p : p_stop (submit_inline serialize_predicate t p).1 = p_stop p.
Proof. unfold submit_inline. destruct (serialize_predicate _); [|done]. by destruct (ss_active _). Qed.

Lemma release_gate_stop c inline p : p_stop (release_gate serialize_predicate c inline p).1 = p_stop p.
Proof. unfold release_gate. destruct (serialize_predicate c); [|done]. destruct (ss_parked _); [done|]. by destruct inline. Qed.

Lemma release_gate_worker c p : (release_gate serialize_predicate c false p).2 = None.
Proof. unfold release_gate. destruct (serialize_predicate c); [|done]. by destruct (ss_parked _). Qed.

Ltac not_exited := let Hx := fresh in intros Hx; repeat (apply elem_of_cons in Hx as [Hx|Hx]; [discriminate|]); by apply elem_of_nil in Hx.

Lemma moves_staff p a p' agents :
  moves p a p' agents →
  p_stop p' = p_stop p ∧ (worker a = true → (0 < workers agents)%nat) ∧ (AExited ∈ agents → p_stop p = true).
Proof.
  intros [q t Hw|q t Hw|q t Hw|q t Hw|q q' taken Ht|q t inline|q t inline|q t inline|q t|q t inline|q t inline|q t inline|q t inline|q o Hd].
  - rewrite enqueue_stop. split_and!; [done|done|not_exited].
  - rewrite submit_inline_stop. split_and!; [done|done|destruct (submit_inline _ _ _).2; not_exited].
  - split_and!; [done|done|not_exited].
  - split_and!; [done|done|not_exited].
  - unfold take_next in Ht. destruct (p_stop q) eqn:Hst.
    + injection Ht as <- <-. rewrite abandon_stop. split_and!; [done|intros _; apply (Nat.lt_0_succ 0)|done].
    + destruct (p_ready q) as [|t ready]; [destruct (p_work_ready q) as [|t work]; [done|]|]; injection Ht as <- <-;
        (split_and!; [done|intros _; apply (Nat.lt_0_succ 0)|not_exited]).
  - split_and!; [unfold begin_render; by destruct (serialize_predicate _)|destruct inline; [done|intros _; apply (Nat.lt_0_succ 0)]|not_exited].
  - split_and!; [done|destruct inline; [done|intros _; apply (Nat.lt_0_succ 0)]|not_exited].
  - split_and!; [done|destruct inline; [done|intros _; apply (Nat.lt_0_succ 0)]|not_exited].
  - split_and!; [done|done|not_exited].
  - destruct (release_queues (rt_owner t) q) as (_ & _ & _ & -> & _). split_and!; [done|destruct inline; [done|intros _; apply (Nat.lt_0_succ 0)]|not_exited].
  - rewrite release_gate_stop. split_and!; [done| |].
    + destruct inline; [done|]. rewrite release_gate_worker. intros _. apply (Nat.lt_0_succ 0).
    + destruct (release_gate _ _ _ _).2; [|destruct inline]; not_exited.
  - split_and!; [done|destruct inline; [done|intros _; apply (Nat.lt_0_succ 0)]|not_exited].
  - destruct (release_queues (wt_owner t) q) as (_ & _ & _ & -> & _). split_and!; [done|destruct inline; [done|intros _; apply (Nat.lt_0_succ 0)]|destruct inline; not_exited].
  - split_and!; [done|done|not_exited].
Qed.

Lemma turn_staffed w w' : turn w w' → staffed w → staffed w' ∧ p_stop (w_pool w') = p_stop (w_pool w).
Proof.
  intros [p p' before a after agents Hm] [Hw Hx]. apply moves_staff in Hm as (Hst & Hwa & Hxa). unfold staffed in *. cbn [w_pool w_agents] in *.
  split; [split|done].
  - intros Hn. specialize (Hw Hn). rewrite !workers_app in *. change (a :: after) with ([a] ++ after) in Hw. rewrite workers_app in Hw.
    destruct (worker a) eqn:E; [specialize (Hwa eq_refl); lia|]. assert (workers [a] = 0%nat) by (unfold workers; by rewrite filter_cons_False by (by rewrite E)). lia.
  - rewrite Hst. intros [Hin|[Hin|Hin]%elem_of_app]%elem_of_app;
      [apply Hx, elem_of_app; by left|by apply Hxa|apply Hx, elem_of_app; right; by right].
Qed.

Lemma step_staffed w w' : step w w' → staffed w → staffed w'.
Proof.
  intros [w1 w2 Ht|p p' all agents Hc] Hs; [by apply (turn_staffed w1)|]. destruct Hs as [Hw Hx]. unfold staffed in *. cbn [w_pool w_agents] in *.
  assert (p_stop p = true → p_stop p' = true) as Hst.
  { intros Hp. destruct Hc as [p p' t Ha|p p' t Ha|p o|p|p]; [by unfold admit_task in Ha; rewrite Hp in Ha..|by rewrite purge_stop|done|done]. }
  split; [intros Hn; specialize (Hw Hn); rewrite workers_app; lia|]. intros [Hin|Hin]%elem_of_app; [by apply Hst, Hx|].
  exfalso. destruct Hc; revert Hin; not_exited.
Qed.

Lemma reachable_staffed w : rtc step initial w → staffed w.
Proof.
  revert w. apply rtc_ind_r; [|intros w w' _ Hs; by apply step_staffed]. unfold staffed, initial. cbn [w_pool w_agents]. split.
  - intros Hn. destruct worker_count as [|n]; [done|]. unfold workers. cbn [repeat]. rewrite filter_cons_True by done. cbn. lia.
  - intros Hin. apply list_elem_of_In, repeat_spec in Hin. discriminate.
Qed.

(** *** When nothing moves *)

Lemma turn_rtc w w' : rtc turn w w' → rtc step w w' ∧ (staffed w → staffed w' ∧ p_stop (w_pool w') = p_stop (w_pool w)).
Proof.
  intros Ht. induction Ht as [w|w w1 w2 H1 _ [IHr IHs]]; [done|]. split; [by eapply rtc_l; [by apply step_turn|]|].
  intros Hs. destruct (turn_staffed _ _ H1 Hs) as [Hs1 E1]. destruct (IHs Hs1) as [Hs2 E2]. split; [done|]. by rewrite E2.
Qed.

Definition resting (a : Agent) : Prop := match a with AIdle | AExited | ADrain _ | ASettled _ => True | _ => False end.

Lemma stuck_rests p before a after : worker_count ≠ 0%nat → nf turn (mkWorld p (before ++ a :: after)) → resting a.
Proof.
  intros Hn Hnf. destruct a as [| |t|t|t i|t i|t i|t i|t i|t i|o|t|t]; try done; exfalso; apply Hnf; eexists; apply turn_move; by econstructor.
Qed.

Lemma resting_nothing agents {A} (f : Agent → list A) :
  (∀ a, resting a → f a = []) → Forall resting agents → concat (map f agents) = [].
Proof. intros Hf. induction 1 as [|a agents Ha _ IH]; [done|]. cbn. by rewrite Hf, IH. Qed.

(** A pool of threads that is not stopped rests only when everything submitted has been. *)
Lemma stuck_empty w :
  worker_count ≠ 0%nat → pool_ok w → staffed w → p_stop (w_pool w) = false → nf turn w →
  p_outstanding (w_pool w) = ∅ ∧ p_serial (w_pool w) = ∅ ∧ Forall (λ a, match a with AIdle | ASettled _ => True | _ => False end) (w_agents w).
Proof.
  destruct w as [p agents]. intros Hn Hok [Hw Hx] Hst Hnf. unfold pool_ok in Hok. cbn [w_pool w_agents] in *.
  assert (Forall resting agents) as HF.
  { apply Forall_forall. intros a Ha. apply list_elem_of_split in Ha as (before & after & ->). by eapply stuck_rests. }
  rewrite !resting_nothing in Hok by (done || by intros []).
  assert (AIdle ∈ agents) as Hi.
  { specialize (Hw Hn). unfold workers in Hw. destruct (filter (λ a, worker a = true) agents) as [|a l] eqn:Ef; [cbn in Hw; lia|].
    assert (a ∈ filter (λ a, worker a = true) agents) as [Hwa Ha]%list_elem_of_filter by (rewrite Ef; by left).
    pose proof (proj1 (Forall_forall _ _) HF a Ha) as Hr. destruct a; try done. rewrite Hx in Hst by done. done. }
  apply list_elem_of_split in Hi as (before & after & Ei).
  assert (take_next p = None) as Ht.
  { destruct (take_next p) as [[p' taken]|] eqn:E; [|done]. exfalso. apply Hnf. rewrite Ei. eexists. apply turn_move. by eapply move_take. }
  unfold take_next in Ht. rewrite Hst in Ht. destruct (p_ready p) as [|] eqn:Er; [|done]. destruct (p_work_ready p) as [|] eqn:Ew; [|done].
  assert (p_serial p = ∅) as Es.
  { apply map_empty. intros c. destruct (p_serial p !! c) as [s|] eqn:Hc; [|done].
    pose proof (ok_open _ _ _ _ Hok Hst c (ex_intro _ s Hc)) as H1. unfold pool_gates in H1. by rewrite Er in H1. }
  assert (p_outstanding p = ∅) as Eo.
  { apply map_empty. intros o. pose proof (ok_claims _ _ _ _ Hok o) as Ho. unfold pool_owners in Ho. rewrite Er, Ew, Es in Ho.
    unfold claims in Ho. destruct (p_outstanding p !! o) as [n|] eqn:E; [|done]. cbn in Ho. subst n. by destruct (ok_zero _ _ _ _ Hok o). }
  split_and!; [done|done|]. apply Forall_forall. intros a Ha. pose proof (proj1 (Forall_forall _ _) HF a Ha) as Hr. destruct a as [| | | | | | | | | |o| |]; try done.
  - rewrite Hx in Hst by done. done.
  - apply list_elem_of_split in Ha as (b & l & ->). exfalso. apply Hnf. eexists. apply turn_move, move_drained. unfold drained. by rewrite Eo.
Qed.

(** ** What the pool promises *)

Definition rendering (c : Content) (a : Agent) : bool := match a with ARender t _ => rt_content t =? c | _ => false end.

(** C24: A content that must not render twice at once never does: whatever threads submit,
    run, drain and stop, in whatever order, at most one of them is inside its render, and the
    pool's own high-water mark never reads more than one. *)
Theorem one_render_at_once w c :
  rtc step initial w → serialize_predicate c = true →
  (length (filter (λ a, rendering c a = true) (w_agents w)) <= 1)%nat ∧ (p_max_in_flight (w_pool w) <= 1)%nat.
Proof.
  intros Hr Hs. pose proof (reachable_ok w Hr) as Hok. split; [|exact (ok_max _ _ _ _ Hok)].
  pose proof (ok_single _ _ _ _ Hok c) as H1. counts. enough (length (filter (λ a, rendering c a = true) (w_agents w)) <=
    cnt c (concat (map agent_gates (w_agents w))))%nat by lia.
  clear Hr Hok H1. induction (w_agents w) as [|a l IH]; [done|]. cbn [map concat]. rewrite filter_cons. counts.
  destruct (decide (rendering c a = true)) as [Ha|]; [|lia]. destruct a; try done. cbn [rendering agent_gates length] in *. apply Z.eqb_eq in Ha.
  rewrite gate_of_count, decide_True by done. lia.
Qed.

(** C26: A drain returns exactly when the pool no longer touches anything of its owner: no task of
    the owner queued, parked, on its way in, inside a render or a job. *)
Theorem drain_waits_all w owner : rtc step initial w → drained owner (w_pool w) = true ↔ owner ∉ owners w.
Proof.
  intros Hr. pose proof (reachable_ok w Hr) as Hok. pose proof (ok_claims _ _ _ _ Hok owner) as Hc. unfold owners, drained.
  rewrite bool_decide_eq_true, cnt_pos. unfold claims in Hc. pose proof (ok_zero _ _ _ _ Hok owner) as Hz.
  destruct (p_outstanding (w_pool w) !! owner) as [n|] eqn:E; cbn [default id] in Hc.
  - split; [done|]. intros Hn. destruct n; [by destruct Hz|]. exfalso. apply Hn. lia.
  - split; [intros _; lia|done].
Qed.


(** The counters account for every submission: it was dropped, or is outstanding, or ran and
    was counted as completed, or ran and left its completion to settle off the thread; a
    thread between its count and its release is in both. *)
Theorem counters_balance w :
  rtc step initial w →
  u64 (p_submitted (w_pool w) + Z.of_nat (length (filter returning (w_agents w)))) =
  u64 (p_completed (w_pool w) + p_dropped (w_pool w) + Z.of_nat (total (p_outstanding (w_pool w))) +
       Z.of_nat (length (filter off_thread (w_agents w)))).
Proof.
  intros Hr. pose proof (reachable_balanced w Hr) as Hb. unfold balanced, ledger in Hb. rewrite u64_l in Hb.
  apply (u64_shift _ _ (p_dropped (w_pool w) + Z.of_nat (total (p_outstanding (w_pool w))))) in Hb.
  etrans; [|etrans; [exact Hb|]]; f_equal; lia.
Qed.

(** *** The purge takes the owner's tasks and no others *)

Definition pool_tasks (p : WorkerPool) : list RenderTask := p_ready p ++ parked_tasks (p_serial p).

Lemma parked_insert_perm c s m : parked_tasks (<[c := s]> m) ≡ₚ ss_parked s ++ parked_tasks (delete c m).
Proof. unfold parked_tasks. by rewrite <- insert_delete_eq, map_to_list_insert by apply lookup_delete_eq. Qed.

Lemma pass_gate_tasks p c : pool_tasks (pass_gate p c) ≡ₚ pool_tasks p ∧ ∃ handed, p_ready (pass_gate p c) = p_ready p ++ handed.
Proof.
  unfold pass_gate, pool_tasks. destruct (p_serial p !! c) as [s|] eqn:Hc; [|split; [done|exists []; by rewrite app_nil_r]].
  pose proof (parked_insert_perm c s (p_serial p)) as Hs. rewrite insert_id in Hs by done.
  destruct (ss_parked s) as [|t parked] eqn:Hp; cbn [set_queues p_ready p_serial].
  - split; [by rewrite Hs|exists []; by rewrite app_nil_r].
  - split; [|by exists [t]]. rewrite parked_insert_perm, Hs. cbn [ss_parked]. by rewrite <- (assoc_L (++)).
Qed.

Lemma gates_tasks l p : pool_tasks (foldl pass_gate p l) ≡ₚ pool_tasks p ∧ ∃ handed, p_ready (foldl pass_gate p l) = p_ready p ++ handed.
Proof.
  revert p. induction l as [|c l IH]; intros p; [split; [done|exists []; by rewrite app_nil_r]|]. cbn [foldl].
  destruct (IH (pass_gate p c)) as [Hp (h & Hh)], (pass_gate_tasks p c) as [Hp' (h' & Hh')]. split; [by rewrite Hp|].
  exists (h' ++ h). by rewrite Hh, Hh', (assoc_L (++)).
Qed.

Lemma gates_work l p : p_work_ready (foldl pass_gate p l) = p_work_ready p.
Proof.
  revert p. induction l as [|c l IH]; intros p; [done|]. cbn [foldl]. rewrite IH. unfold pass_gate.
  destruct (p_serial p !! c) as [s|]; [|done]. by destruct (ss_parked s).
Qed.

Lemma drops_tasks {T} (drop : T → WorkerPool → WorkerPool) own l p :
  drop_all drop own → let q := foldl (λ p t, drop t p) p l in
  p_ready q = p_ready p ∧ p_work_ready q = p_work_ready p ∧ p_serial q = p_serial p.
Proof. intros Hd. by destruct (drops_same drop own l Hd p) as (? & ? & ? & _). Qed.

Lemma purge_keeps_others owner p :
  pool_tasks (purge_owner owner p) ≡ₚ filter (λ t, of_owner owner t = false) (pool_tasks p) ∧
  (∃ handed, p_ready (purge_owner owner p) = filter (λ t, of_owner owner t = false) (p_ready p) ++ handed) ∧
  p_work_ready (purge_owner owner p) = filter (λ t, work_of owner t = false) (p_work_ready p).
Proof.
  destruct drop_queued_all as [Dr Dw].
  assert (p_ready (purge_parked owner p) = p_ready p ∧ p_work_ready (purge_parked owner p) = p_work_ready p ∧
    parked_tasks (p_serial (purge_parked owner p)) ≡ₚ filter (λ t, of_owner owner t = false) (parked_tasks (p_serial p))) as (R1 & W1 & S1).
  { unfold purge_parked. set (p0 := set_queues _ _ _ p). set (l := filter _ _). destruct (drops_tasks drop_queued rt_owner l p0 Dr) as (-> & -> & ->).
    split_and!; [done|done|]. unfold p0. cbn [set_queues p_serial]. by apply (parked_fmap _ _ (λ t, of_owner owner t = false)). }
  set (p1 := purge_parked owner p) in *.
  assert (pool_tasks (purge_ready owner p1) ≡ₚ filter (λ t, of_owner owner t = false) (p_ready p1) ++ parked_tasks (p_serial p1) ∧
    (∃ handed, p_ready (purge_ready owner p1) = filter (λ t, of_owner owner t = false) (p_ready p1) ++ handed) ∧
    p_work_ready (purge_ready owner p1) = p_work_ready p1) as (T2 & H2 & W2).
  { unfold purge_ready. set (l := filter (λ t, of_owner owner t = true) (p_ready p1)). set (g := filter _ (map rt_content l)).
    set (p0 := set_queues _ _ _ p1). destruct (drops_tasks drop_queued rt_owner l p0 Dr) as (R & W & S).
    set (q := foldl _ p0 l) in *. destruct (gates_tasks g q) as [T (h & H)]. rewrite H, T. unfold pool_tasks. rewrite R, S.
    split_and!; [done|by exists h|]. by rewrite gates_work. }
  unfold purge_owner, purge_work. fold p1. set (p2 := purge_ready owner p1) in *. set (p0 := set_queues _ _ _ p2). set (l := filter _ (p_work_ready p2)).
  destruct (drops_tasks drop_queued_work wt_owner l p0 Dw) as (R & W & S). unfold pool_tasks in *. rewrite R, W, S. unfold p0. cbn [set_queues p_ready p_serial p_work_ready].
  rewrite filter_app, T2, R1, S1, W2, W1. split_and!; [done|by rewrite <- R1|done].
Qed.
End agents.

(** ** Two drivers, one content *)

Definition gated (_ : Content) : bool := true.
Definition first_task : RenderTask := mkTask 7 1 1.
Definition second_task : RenderTask := mkTask 7 2 2.

(** The first task renders, the second, of another owner, is parked, and the first owner drains. *)
Definition admitted (t : RenderTask) (p : WorkerPool) : WorkerPool := default p (admit_task (rt_owner t) p).
Definition taken_pool (p : WorkerPool) : WorkerPool := default p (fst <$> take_next p).
Definition first_in : WorkerPool := enqueue gated first_task (admitted first_task new_pool).
Definition first_renders : WorkerPool := begin_render gated first_task (taken_pool first_in).
Definition both_in : WorkerPool := enqueue gated second_task (admitted second_task first_renders).
Definition contended : World := mkWorld (purge_owner 1 both_in) [ARender first_task false; AIdle; ADrain 1].

Lemma contended_reached : rtc (step gated 2) (initial 2) contended.
Proof.
  apply rtc_l with (mkWorld (admitted first_task new_pool) [AIdle; AIdle; ASubmit first_task]).
  { by apply (step_call _ _ new_pool _ [AIdle; AIdle]), call_submit. }
  apply rtc_l with (mkWorld first_in [AIdle; AIdle]).
  { by apply step_turn, (turn_move _ _ _ _ [AIdle; AIdle] _ [] []), move_enqueue. }
  apply rtc_l with (mkWorld (taken_pool first_in) [AHold first_task false; AIdle]).
  { by apply step_turn, (turn_move _ _ _ _ [] _ [AIdle] [AHold first_task false]), (move_take _ _ _ _ (TakenRender first_task)). }
  apply rtc_l with (mkWorld first_renders [ARender first_task false; AIdle]).
  { by apply step_turn, (turn_move _ _ _ _ [] _ [AIdle] [ARender first_task false]), move_begin. }
  apply rtc_l with (mkWorld (admitted second_task first_renders) [ARender first_task false; AIdle; ASubmit second_task]).
  { by apply (step_call _ _ _ _ [ARender first_task false; AIdle]), call_submit. }
  apply rtc_l with (mkWorld both_in [ARender first_task false; AIdle]).
  { by apply step_turn, (turn_move _ _ _ _ [ARender first_task false; AIdle] _ [] []), move_enqueue. }
  apply rtc_once. by apply (step_call _ _ _ _ [ARender first_task false; AIdle]), call_drain.
Qed.

Lemma one_render_at_once_witness :
  ss_parked (serial_state 7 (w_pool contended)) = [second_task] ∧
  (length (filter (λ a, rendering 7%Z a = true) (w_agents contended)) <= 1)%nat ∧ (p_max_in_flight (w_pool contended) <= 1)%nat.
Proof.
  split; [vm_compute; reflexivity|]. apply (one_render_at_once gated 2 contended 7); [exact contended_reached|reflexivity].
Defined.

Lemma drain_waits_all_witness : drained 1 (w_pool contended) = false ∧ (drained 1 (w_pool contended) = true ↔ 1 ∉ owners contended).
Proof. split; [vm_compute; reflexivity|]. apply (drain_waits_all gated 2 contended 1). exact contended_reached. Defined.


(** ** A completion settled off the thread is not counted *)

Definition lone_pool : WorkerPool := poke (release_outstanding 1 (admitted first_task new_pool)).

(** [tasks_submitted() == tasks_completed() + tasks_dropped() + outstanding] fails at rest. *)
Lemma off_thread_uncounted :
  rtc (step (λ _, false) 0) (initial 0) (mkWorld lone_pool [ASettled first_task]) ∧
  p_submitted lone_pool = 1 ∧ p_completed lone_pool = 0 ∧ p_dropped lone_pool = 0 ∧ p_outstanding lone_pool = ∅.
Proof.
  split_and!; try (vm_compute; reflexivity). set (p := admitted first_task new_pool).
  apply rtc_l with (mkWorld p [ASubmit first_task]); [by apply (step_call _ _ new_pool _ []), call_submit|].
  apply rtc_l with (mkWorld p [AHold first_task true]); [by apply step_turn, (turn_move _ _ _ _ [] _ [] [_]), move_inline|].
  apply rtc_l with (mkWorld p [ARender first_task true]); [by apply step_turn, (turn_move _ _ _ _ [] _ [] [_]), move_begin|].
  apply rtc_l with (mkWorld p [AReturn first_task true; ASettling first_task]).
  { by apply step_turn, (turn_move _ _ _ _ [] _ [] [_; _]), move_return_async. }
  apply rtc_l with (mkWorld (release_outstanding 1 p) [AGate first_task true; ASettling first_task]).
  { by apply step_turn, (turn_move _ _ _ _ [] _ [_] [_]), move_release. }
  apply rtc_l with (mkWorld (release_outstanding 1 p) [ASettling first_task]).
  { by apply step_turn, (turn_move _ _ _ _ [] _ [_] []), move_gate. }
  apply rtc_once. by apply step_turn, (turn_move _ _ _ _ [] _ [] [_]), move_settle.
Qed.
